(* ===== verification/_CoqProject ===== *)
-Q . S2P
Prelude.v
Types.v
Arena.v
MemoryPlan.v
PlanSweep.v
PlanProofs.v
Registry.v
Pool.v
PoolProofs.v
Replay.v
Context.v
ContextProofs.v
MigrateProofs.v
TraceRing.v
RingProofs.v
MetaLog.v
Hash.v
WindowTable.v
Detector.v
DetectorHist.v
DetectorProofs.v
DetectorTheorems.v
Clocks.v
Hlc.v
VectorClock.v
Crdt.v
CrdtTable.v
CrdtSets.v
CrdtMv.v
CrdtRga.v
ContentHash.v
Serialize.v
SerializeProofs.v
SerializeTheorems.v
Dag.v
DagProofs.v
DagReplay.v
KernelCache.v
KernelCacheProofs.v
AddBranch.v
RegionCache.v
StorageNbytes.v
TraceGraph.v
CKernel.v
PtrMap.v
BuildTrace.v
BuildProofs.v
BuildTheorems.v
BuildPlan.v
Transaction.v
RegionStore.v
Vigil.v
VigilProofs.v
VigilAlign.v
Reclaim.v
ReclaimProofs.v
ReclaimTheorems.v
SwissTable.v
Expr.v
ExprPool.v
InternTable.v
InternTheorems.v
ExprOps.v
ExprEval.v
ExprArith.v
ExprLogic.v
ExprTheorems.v
Philox.v
SlotTable.v
Swim.v
SwimProofs.v
Lifeguard.v
LifeguardProofs.v
HyParView.v
HyParViewProofs.v
Integrity.v
Plumtree.v
PlumtreeProofs.v
Scuttlebutt.v
ScuttlebuttProofs.v
