(* ===== verification/Prelude.v ===== *)
(** * Crucible: a verification development of the runtime's core

    Crucible records the tensor operations of a training loop, finds the
    repeated iteration, plans the memory of that iteration once, and then
    replays it: each op is compared with the recorded one and its outputs are
    addresses in one preallocated pool.  This library models the data path of
    that system and proves the properties that make it safe.

    ** The parts and how they meet

    The foreground thread appends each op to the trace ring (TraceRing.h) and
    the metadata of its tensors to the metadata log (MetaLog.h).  The
    background thread drains the ring, cuts the stream into iterations and
    builds a region: the recorded ops and a memory plan that
    BackgroundThread::compute_memory_plan computes from the lifetimes of the
    tensors, in scratch memory of an arena (Arena.h).  The foreground then
    activates the region: CrucibleContext (CrucibleContext.h) makes a pool from
    the plan (PoolAllocator.h), which announces its memory in the hot-region
    registry (warden/Registry.h), and replays the ops with the engine
    (ReplayEngine.h).  When an op differs, the context can switch to another
    region with the same prefix, and copies the outputs of the prefix from the
    old pool to the new one.  Vigil (Vigil.h) is the foreground around that
    context: it records or replays, aligns a published region with the stream
    of ops, and keeps the transaction log; the publish stage of the background
    releases the regions that nobody holds.  The shapes of tensors are symbolic
    expressions, which a pool interns (ExprPool.h).

    Around this path nodes share state by gossip (canopy/): the hybrid and the
    vector clocks stamp events, and the replicated types carry the state of
    the cluster, with the register and the multi-value register ordered by
    those clocks.  A failure detector and an overlay of partial views give the
    peers (canopy/Swim.h, Lifeguard.h, HyParView.h), a broadcast tree carries
    messages over the overlay (Plumtree.h), and the synchroniser of versions
    repairs what was lost (Scuttlebutt.h).

    ** The files

    - Prelude: machine integers and their wrap-around, saturating arithmetic
      (foundation/Saturate.h), the result monad, ranges of bytes, indexed
      arrays, the tactics and the hint databases.
    - Types: the enumerations and records of Types.h, TensorMeta.h and
      MerkleDag.h (TensorMeta, TraceEntry, RegionNode, TensorSlot, MemoryPlan).
    - Arena: include/crucible/Arena.h, over the interface [Malloc].
    - MemoryPlan, PlanSweep, PlanProofs: compute_memory_plan of
      src/BackgroundThread.cpp; the counting sort, the sweep with its free
      list, and the safety of the plan.
    - Registry: include/crucible/warden/Registry.h.
    - Pool, PoolProofs: include/crucible/PoolAllocator.h over the interface
      [PoolMem], and the pool of a computed plan.
    - Replay: include/crucible/ReplayEngine.h.
    - Context, ContextProofs, MigrateProofs: include/crucible/CrucibleContext.h
      on a memory of bytes.
    - TraceRing, RingProofs: include/crucible/TraceRing.h, as functions and as
      the steps of two threads.
    - MetaLog: include/crucible/MetaLog.h.
    - Hash: fmix64 and combine_ids of include/crucible/Expr.h.
    - WindowTable, Detector, DetectorHist, DetectorProofs, DetectorTheorems:
      include/crucible/IterationDetector.h; the window table, the detector, its
      history ring with the links of its windows, its invariant with the
      outcomes of one check, and the properties.
    - Clocks: the interface of a logical clock and the message-passing
      executions in which one runs.
    - Hlc, VectorClock: include/crucible/canopy/Hlc.h and VectorClock.h; both
      implement the interface, and their compare-exchange loops are threads
      that interleave.
    - Crdt, CrdtTable, CrdtSets, CrdtMv, CrdtRga:
      include/crucible/canopy/Crdt.h; the seven replicated types.  The classes
      [Crdt] and [CrdtOk] of Crdt.v are laws that each type meets, a device of
      the proofs: the concept of that name in the code states none.
    - ContentHash: the dimension hashes of include/crucible/DimHash.h and
      ContentHashFold of MerkleDag.h.
    - Serialize, SerializeProofs, SerializeTheorems:
      include/crucible/Serialize.h; the writer and the reader of an image, a
      calculus of codecs, the round trips, and what a load accepts from
      outside.
    - Dag, DagProofs, DagReplay: the rest of
      include/crucible/MerkleDag.h with the hashes of Reflect.h; a store of
      nodes that may be shared, the tree that it unfolds to, the walks against
      that tree, and one concrete dag.
    - KernelCache, KernelCacheProofs: include/crucible/KernelCache.h; each
      access of an atomic is a step, and any number of calls interleave.
    - AddBranch: add_branch of the same header, the client of the cache.
    - RegionCache: include/crucible/RegionCache.h.
    - StorageNbytes: include/crucible/StorageNbytes.h, the bytes of a tensor
      in the scalar and the vector routine.
    - TraceGraph: include/crucible/TraceGraph.h, the adjacency arrays.
    - CKernel: the registration tables of include/crucible/CKernel.h and
      SchemaTable.h.
    - PtrMap, BuildTrace, BuildProofs, BuildTheorems, BuildPlan:
      build_trace_from of src/BackgroundThread.cpp; the pointer map, the scan,
      the data flow it resolves, its composition with the planner, and one
      concrete trace with the limits of the build.
    - Transaction: include/crucible/Transaction.h.
    - RegionStore: the publish stage of BackgroundThread.
    - Vigil, VigilProofs, VigilAlign: include/crucible/Vigil.h and
      src/Vigil.cpp; the foreground, its invariant, and the alignment of a
      published region with the stream.
    - Reclaim, ReclaimProofs, ReclaimTheorems: the foreground and the publish
      stage as two threads that share the regions.
    - SwissTable: include/crucible/SwissTable.h, over the interface
      [CtrlGroup].
    - Expr: the nodes of the symbolic expressions (Ops.h, Expr.h) and their
      doubles, by their bits.
    - ExprPool, InternTable, InternTheorems: the intern table of
      include/crucible/ExprPool.h; the code, the path of a probe with the
      invariant of the table, and interning as a finite map with what the pool
      promises, over the interface [ExprArena].
    - ExprOps, ExprEval, ExprArith, ExprLogic, ExprTheorems: the simplifying
      constructors of the same header, the value of an expression, and that
      the constructors keep it.
    - Philox: include/crucible/Philox.h and PhiloxSimd.h.
    - SlotTable: include/crucible/canopy/SlotTable.h, the Cog identity, and
      the bounded queue that two of the protocols share.
    - Swim, SwimProofs, Lifeguard, LifeguardProofs: the failure detector of
      include/crucible/canopy/Swim.h, and Lifeguard.h around it.
    - HyParView, HyParViewProofs: the overlay of canopy/HyParView.h, with the
      random numbers of Philox.
    - Integrity: include/crucible/cntp/Integrity.h.
    - Plumtree, PlumtreeProofs: the broadcast tree of canopy/Plumtree.h, which
      is minted from the overlay and names messages with the hash.
    - Scuttlebutt, ScuttlebuttProofs: the anti-entropy of
      canopy/Scuttlebutt.h, over the laws [CrdtOk] of the replicated types;
      the cluster with its lost, repeated and reordered deltas is the environment
      in which the members run.
    ** Conventions

    An unsigned integer of w bits is a [Z], and each operation that can leave
    the width is written with its reduction modulo [2^w].  A contract that
    fails and a call of abort end the process: each is [Fatal] of the type
    [result], and a function that can reach one returns a [result].  An array
    is a list or a function from indices; a read outside a list gives a default
    that no theorem relies on.  A pointer is an address ([Z], null is 0), or an index when the
    code only moves it inside one array.  The contents of a heap object that a
    theorem reads are in the model (the table of the pool, the bytes of the
    tensors); the heap itself is the list of its live allocations.  Where C++
    leaves the order of the arguments of a call open, the model takes them from
    left to right; only addresses of new nodes depend on it.  A double is its
    bits, and std::ranges::sort is an interface.

    The allocators of the C library are the classes [Malloc] and [PoolMem];
    their laws are the documented ones (a granted block is fresh, disjoint from
    the live ones, aligned, not null, inside the address space), and each
    property that uses them has a witness with a concrete allocator.

    ** What the theorems show

    - Arena: the ranges that a sequence of allocations returns are aligned,
      inside blocks and disjoint, for sizes and alignments that are together at
      most 2^63; the process ends only when the C allocator
      refuses; an epoch end rewinds; one request size wraps the check of the
      fast path.
    - Memory plan: the planner is total on the lifetimes it can index; two
      pooled slots that are live together have disjoint bytes; the program's
      own checker accepts each computed plan; the pool accepts it too, and
      turns it into disjoint pointers.
    - Registry: the table refines a finite map.
    - Context: the mode, the region, the pool and the engine stay in step on
      every reachable context; the replay is the comparison with the recorded
      trace; the pointers are those of the plan; a region switch keeps the live
      bytes.
    - Trace ring: under every interleaving the ring is a FIFO queue with no
      torn record; no cell is written while it is copied; a record is dropped
      only when the ring is full; the members are runs of the steps; the scalar
      tags round-trip.
    - Metadata log: an appended run reads back until it is released; an append
      is refused only when it does not fit.
    - Hash: the mixers are permutations.
    - Iteration detector: the window table refines a finite map; a report ends
      two equal runs of keys; a stream that repeats is found at the first op
      that can show it and then once for each period; no later report reaches
      back before oldest_claimable; every check ends.
    - Clocks: the stamps of the hybrid clock increase in the order of the
      returns under every interleaving and respect causality; the order of the
      vector clocks is causality exactly; no event of a slot is lost; a sparse
      delta keeps its bounds and round-trips.
    - Replicated types: for each of the seven types, replicas that merge the
      same states, in any order and with any repetition, answer alike when no
      merge is refused, and a refusal changes nothing; the hash set
      refines a finite set; the observed-remove rule; the maximal versions of
      the multi-value register in one canonical order; the walk of the
      growable array ends and lists each reachable node once, behind its
      anchor; the clamped value of the counter.
    - Images: a region and a branch come back from their images; a load
      accepts only well-formed regions, whatever the bytes are, and the pool
      serves every plan that it accepts.
    - Dag: the stored merkle hashes are the hashes of the unfolded tree, with
      shared nodes hashed in place; replay runs what the tree says; the
      difference of two dags is the first step at which their walks differ,
      when the merkle hash tells different subtrees apart (it does not see the
      values of the arms of a branch); the merge point is the
      longest matching run; the vector hash of the dimensions is the scalar
      one.  The fuel of a walk bounds the height of the dag, and every theorem
      takes the fuel with which the unfolding ends.
    - Caches: a lookup of the kernel cache returns only kernels of its own
      pair and misses no insert that had returned, under every interleaving;
      every call ends within a bound; the region cache refines the list of its
      newest entries.
    - Trace build: each input of a built region has the op and the slot of
      the last write to its storage, and the edges are the data flow; the plan
      of a built region keeps each value until its last read; the vector
      routine for the bytes is the scalar one, except on a descriptor with an
      overflow before an empty dimension.
    - Foreground: a region, whenever it is published, is activated only when
      the last ops dispatched since it was taken are its first ops; the walk
      finds the start when the first op does not recur, and then starts the
      replay of a region with a plan and drops one without; the transaction log
      is an undo stack.
    - Reclamation: under every interleaving no region that a holder can name
      is released, and a publication that is not disturbed ends.
    - Expressions: two calls return one pointer exactly when they ask for one
      structure, over any growth of the table; make gives a node with the value
      of the operation, under the bounds named below.  The divisions and the
      remainder of a negative literal do not, and examples show it.
    - Random numbers: the blocks of a key do not repeat, and the vector
      routine is the scalar one on each lane.
    - Membership: gossip brings memberships to the greatest knowledge in any
      order of arrival, when the table has room for the peers that are named,
      and an event without a name is refused; knowledge only grows; probing is a fair round robin;
      a silent peer is dead after the configured misses; the two tables of
      Lifeguard stay in step within their bounds, and a refutation wins; the
      overlay replaces a failed active peer, and takes a list of peers whole or
      not at all.
    - Broadcast and anti-entropy: a message is forwarded once over each other
      link; a version tells the truth about the state behind it, in a cluster
      where deltas are lost, repeated and reordered, and the states converge
      when the versions do; a digest comparison is exact.  The streaming hash
      is the hash of the whole.
    ** Bounds and fuel

    The loops of the modelled code run over an array or a counted range and are
    structural recursions, with these exceptions.  The probe loops of the window
    table have the size of the table as fuel, and the loop that counts the
    copies of a window has the length of the period; running out of fuel is the
    loop that never ends, and the theorems on the table and on the detector
    show that it does not happen.  The walk of the growable array has one unit
    of fuel more than there are nodes, and each turn of it visits a node
    first.  The probe of the intern table has one unit for each group, and the
    table invariant gives each path a free slot before.  The loops of the hash
    have the number of the bytes, and each turn takes some.  The walks over a
    dag have the height of the dag, with which the unfolding ends.  The
    divisions of the expressions recurse with fuel, and no theorem on values
    is about them.  The binary power of the detector has 64
    rounds for an exponent of 64 bits.  The memory plan needs sizes whose
    padded sum fits 64 bits ([plannable]); the metadata log is read up to
    2^64 - 2^21 records; the detector up to 2^32 - 1 ops between restarts,
    where the counter of the code stops the process, and with restarts only
    while the table has a slot for each slot of the ring ([table_fits]).  The
    counters of the ring stop the process before they wrap, as in the code.
    An expression keeps its value while the sum or the product of the weights
    of its operands, a bound of the constants that a constructor can fold, is at
    most 2^63 - 1, a power fits in 64 bits, the dividend of MOD is not a negative
    literal and the parity flags of a dividend are true of its value.  An
    allocation of the arena has a size and an alignment of together at most 2^63
    bytes: the saturated size of an overflowing array is larger, and wraps.  A
    membership has a slot for each peer that it knows or that an event names.
    The alignment window is at most five ops.  What is known
    of a peer grows while its incarnation is below 2^64 - 1.
    The clocks are exact while no count or stamp is at its largest value, where
    the code saturates.  The interleavings are sequentially consistent at the
    grain of one access.

    ** Not modelled

    The shadow memory of the sanitizers, the fill patterns of debug builds, the
    prefetches, the huge-page allocation and the compile-time wrapper types
    (fixy/, foundation/), which have no run-time effect on these members.  The
    conversions of random words to floating point and the normal transform,
    which call the mathematics library.  The channels between the stages of
    the background thread and the start and the end of its threads.  The
    replicated types are modelled at integer values, tags and ids.  The BPF
    sensors, the cipher store with its federation, the network transports, the
    topology, the ledger of measurements, the metrics, the policies of the warden
    and the bindings to the tensor frameworks are input and output around this
    core; the graph passes, the cost model, the recipes and the forge belong to
    the compiler behind it. *)

From stdpp Require Import base list gmap strings sorting.
From Stdlib Require Import ZArith Lia.
#[local] Open Scope Z_scope.

(** ** Machine integers

    A w-bit unsigned integer is a [Z]; each operation that the C++ code
    performs at a width is written with its reduction modulo [2^w]. *)

Definition wrap (w x : Z) : Z := x mod 2 ^ w.

Abbreviation u8 := (wrap 8).
Abbreviation u16 := (wrap 16).
Abbreviation u32 := (wrap 32).
Abbreviation u64 := (wrap 64).

Definition UINT32_MAX : Z := 2 ^ 32 - 1.
Definition UINT64_MAX : Z := 2 ^ 64 - 1.

(** [size_t] has 64 bits on every target of the build. *)
Abbreviation SIZE_MAX := UINT64_MAX (only parsing).

(** [~x] at 64 bits. *)
Definition lnot64 (x : Z) : Z := u64 (Z.lnot x).

Declare Scope u64_scope.
Delimit Scope u64_scope with u64.
Notation "a ⊞ b" := (wrap 64 (a + b)) (at level 50, left associativity) : u64_scope.
Notation "a ⊟ b" := (wrap 64 (a - b)) (at level 50, left associativity) : u64_scope.
Notation "a ⊠ b" := (wrap 64 (a * b)) (at level 40, left associativity) : u64_scope.

Definition in_width (w x : Z) : Prop := 0 <= x < 2 ^ w.

(** ** Saturating arithmetic (foundation/Saturate.h), unsigned *)

Definition add_sat (w a b : Z) : Z :=
  if a + b <? 2 ^ w then a + b else 2 ^ w - 1.

Definition sub_sat (w a b : Z) : Z :=
  if 0 <=? a - b then a - b else 0.

Definition mul_sat (w a b : Z) : Z :=
  if a * b <? 2 ^ w then a * b else 2 ^ w - 1.

(** ** Operations that can end the process

    [Fatal msg] is the end of the process: fixy::fatal, std::abort, a
    contract check that fails, a failed CRUCIBLE_FATAL_INVARIANT. *)

Inductive result (A : Type) : Type :=
| Ok (a : A)
| Fatal (why : string).
Arguments Ok {A} a.
Arguments Fatal {A} why.

Definition rbind {A B} (m : result A) (k : A -> result B) : result B :=
  match m with Ok a => k a | Fatal why => Fatal why end.

Declare Scope result_scope.
Delimit Scope result_scope with result.
Notation "'let*' x := m 'in' k" := (rbind m (fun x => k))
  (at level 10, x name, m at level 100, k at level 200) : result_scope.
Notation "'let*' ' p := m 'in' k" := (rbind m (fun x => match x with p => k end))
  (at level 10, p strict pattern, m at level 100, k at level 200) : result_scope.

Definition require (b : bool) (why : string) : result unit :=
  if b then Ok tt else Fatal why.

Definition is_ok {A} (m : result A) : bool :=
  match m with Ok _ => true | Fatal _ => false end.

(** fixy::Monotonic<uint32_t>::bump *)
Definition monotonic_bump (v : Z) : result Z :=
  (let* _ := require (negb (v =? UINT32_MAX)) "the counter is at its largest value" in
   Ok (v + 1))%result.

(** fixy::Monotonic<uint64_t>::bump and ::advance *)
Definition monotonic_bump64 (v : Z) : result Z :=
  (let* _ := require (negb (v =? UINT64_MAX)) "the counter is at its largest value" in Ok (v + 1))%result.
Definition monotonic_advance (v new_value : Z) : result Z :=
  (let* _ := require (v <=? new_value) "leq(peek(), new_value)" in Ok new_value)%result.

Create HintDb crucible.
Create Rewrite HintDb crucible.

Lemma rbind_ok {A B} (m : result A) (k : A -> result B) b :
  rbind m k = Ok b -> exists a, m = Ok a /\ k a = Ok b.
Proof. destruct m; simpl; [eauto|discriminate]. Qed.

Lemma require_ok b why u : require b why = Ok u -> b = true.
Proof. unfold require. destruct b; congruence. Qed.

(** Splits every [let*] and [require] of a hypothesis that says [... = Ok _]. *)
Ltac inv_ok :=
  repeat match goal with
  | H : rbind _ _ = Ok _ |- _ =>
      let a := fresh "a" in let H1 := fresh "Hok" in
      apply rbind_ok in H as (a & H1 & H)
  | H : require _ _ = Ok _ |- _ => apply require_ok in H
  | H : Ok _ = Ok _ |- _ => injection H as H
  | H : Fatal _ = Ok _ |- _ => discriminate H
  end; subst.

(** Splits every pair of the context. *)
Ltac split_pairs := repeat match goal with a : (_ * _)%type |- _ => destruct a end.

(** Turns boolean tests of the code into the propositions they decide. *)
Ltac reflect_bools :=
  repeat match goal with
  | H : andb _ _ = true |- _ => apply andb_prop in H as [? H]
  | H : andb _ _ = false |- _ => apply andb_false_iff in H
  | H : orb _ _ = false |- _ => apply orb_false_elim in H as [? H]
  | H : orb _ _ = true |- _ => apply orb_prop in H
  | H : negb _ = true |- _ => apply negb_true_iff in H
  | H : negb _ = false |- _ => apply negb_false_iff in H
  | H : (_ <? _) = true |- _ => apply Z.ltb_lt in H
  | H : (_ <? _) = false |- _ => apply Z.ltb_ge in H
  | H : (_ <=? _) = true |- _ => apply Z.leb_le in H
  | H : (_ <=? _) = false |- _ => apply Z.leb_gt in H
  | H : (_ =? _) = true |- _ => apply Z.eqb_eq in H
  | H : (_ =? _) = false |- _ => apply Z.eqb_neq in H
  end.

(** [lia] with divisions and remainders by constants. *)
Ltac mod_lia := Z.div_mod_to_equations; lia.

(** ** Lemmas on widths *)

Lemma wrap_range w x : 0 <= w -> 0 <= wrap w x < 2 ^ w.
Proof. intros Hw. apply Z.mod_pos_bound. lia. Qed.

Lemma wrap_small w x : 0 <= x < 2 ^ w -> wrap w x = x.
Proof. apply Z.mod_small. Qed.

Lemma wrap_wrap w x : 0 <= w -> wrap w (wrap w x) = wrap w x.
Proof. intros Hw. apply wrap_small, wrap_range, Hw. Qed.

Lemma u64_range x : 0 <= u64 x < 2 ^ 64.
Proof. apply wrap_range. lia. Qed.

Lemma u32_range x : 0 <= u32 x < 2 ^ 32.
Proof. apply wrap_range. lia. Qed.

#[export] Hint Resolve u64_range u32_range : crucible.
#[export] Hint Resolve wrap_small : crucible.

Lemma add_sat_range w a b : 0 <= w -> 0 <= a -> 0 <= b -> 0 <= add_sat w a b < 2 ^ w.
Proof.
  intros. unfold add_sat.
  assert (0 < 2 ^ w) by (apply Z.pow_pos_nonneg; lia).
  destruct (Z.ltb_spec (a + b) (2 ^ w)); lia.
Qed.

Lemma add_sat_exact w a b : a + b < 2 ^ w -> add_sat w a b = a + b.
Proof. intros. unfold add_sat. destruct (Z.ltb_spec (a + b) (2 ^ w)); lia. Qed.

Lemma add_sat_ge w a b : 0 <= b -> a < 2 ^ w -> a <= add_sat w a b.
Proof. intros. unfold add_sat. destruct (Z.ltb_spec (a + b) (2 ^ w)); lia. Qed.

Lemma mul_sat_exact w a b : a * b < 2 ^ w -> mul_sat w a b = a * b.
Proof. intros. unfold mul_sat. destruct (Z.ltb_spec (a * b) (2 ^ w)); lia. Qed.

(** Masking with the complement of [2^k - 1] rounds down to a multiple of
    [2^k]. *)
Lemma land_lnot64_mask x k :
  0 <= k < 64 -> 0 <= x < 2 ^ 64 ->
  Z.land x (lnot64 (2 ^ k - 1)) = x - x mod 2 ^ k.
Proof.
  intros Hk Hx. unfold lnot64, wrap.
  replace (2 ^ k - 1) with (Z.ones k) by (rewrite Z.ones_equiv; lia).
  rewrite <- Z.land_ones by lia.
  rewrite (Z.land_comm (Z.lnot _)), Z.land_assoc.
  rewrite (Z.land_ones x 64), Z.mod_small by lia.
  rewrite <- Z.ldiff_land, Z.ldiff_ones_r by lia.
  rewrite Z.shiftl_mul_pow2, Z.shiftr_div_pow2 by lia.
  pose proof (Z.div_mod x (2 ^ k)). lia.
Qed.

Lemma land_mask_mod x k : 0 <= k -> Z.land x (2 ^ k - 1) = x mod 2 ^ k.
Proof.
  intros. replace (2 ^ k - 1) with (Z.ones k) by (rewrite Z.ones_equiv; lia).
  apply Z.land_ones; lia.
Qed.

(** A high part above [n] bits and a low part of [n] bits. *)
Lemma lor_shiftl_add n a b : 0 <= n -> 0 <= b < 2 ^ n -> Z.lor (Z.shiftl a n) b = a * 2 ^ n + b.
Proof.
  intros Hn Hb. rewrite <- Z.shiftl_mul_pow2 by done.
  assert (Hz : Z.land (Z.shiftl a n) b = 0).
  { apply Z.bits_inj'. intros k Hk. rewrite Z.land_spec, Z.bits_0. destruct (Z.lt_ge_cases k n).
    - by rewrite Z.shiftl_spec_low.
    - rewrite <- (Z.mod_small b (2 ^ n)), Z.mod_pow2_bits_high by lia. apply andb_false_r. }
  pose proof (Z.add_lor_land (Z.shiftl a n) b). lia.
Qed.

(** ** Byte ranges

    A range is a pair of a start and a length.  Two ranges are disjoint when
    one ends at or before the start of the other; an empty range is disjoint
    from a range that it touches only at an end. *)

Abbreviation range := (Z * Z)%type.

Definition rdisj (r s : range) : Prop :=
  r.1 + r.2 <= s.1 \/ s.1 + s.2 <= r.1.

Definition rinside (r s : range) : Prop :=
  s.1 <= r.1 /\ 0 <= r.2 /\ r.1 + r.2 <= s.1 + s.2.

#[export] Instance rdisj_sym : Symmetric rdisj.
Proof. intros r s. unfold rdisj. lia. Qed.

#[export] Instance rdisj_dec r s : Decision (rdisj r s).
Proof. unfold rdisj. apply _. Defined.

Lemma rdisj_inside r s t : rinside r s -> rdisj s t -> rdisj r t.
Proof. unfold rinside, rdisj. lia. Qed.

(** [pairwise R l]: [R] holds between each element and each later one. *)
Fixpoint pairwise {A} (R : A -> A -> Prop) (l : list A) : Prop :=
  match l with
  | [] => True
  | x :: l => Forall (R x) l /\ pairwise R l
  end.

Section Pairwise.
Context {A : Type} (R : A -> A -> Prop).
Context `{!Symmetric R}.
Implicit Types l : list A.

#[local] Set Default Proof Using "Type*".

#[export] Instance pairwise_proper : Proper (Permutation ==> iff) (pairwise R).
Proof using All.
  assert (H : forall l k, Permutation l k -> pairwise R l -> pairwise R k).
  { induction 1 as [| x l k HP IH | x y l | l k m HP1 IH1 HP2 IH2]; simpl; auto.
    - intros [Hx Hl]. split; [by rewrite <- HP|auto].
    - intros [Hy [Hx Hl]]. apply Forall_cons in Hy as [Hyx Hy].
      split_and!; auto. }
  intros l k HP. split; apply H; [done|by symmetry].
Qed.

Lemma pairwise_app l k :
  pairwise R (l ++ k) <-> pairwise R l /\ pairwise R k /\ Forall (fun x => Forall (R x) k) l.
Proof using Type.
  induction l as [|x l IH]; simpl.
  - split; [intros; split_and!; auto|by intros (_&?&_)].
  - rewrite IH, Forall_app, Forall_cons. tauto.
Qed.

Lemma pairwise_sublist l k : l `sublist_of` k -> pairwise R k -> pairwise R l.
Proof using Type.
  induction 1 as [|x l k Hs IH|x l k Hs IH]; simpl; auto.
  - intros [Hx Hk]. split; [|auto].
    apply Forall_forall. intros y Hy. rewrite Forall_forall in Hx.
    apply Hx. by eapply elem_of_sublist.
  - intros [_ Hk]. auto.
Qed.

Lemma pairwise_lookup l i j x y :
  pairwise R l -> l !! i = Some x -> l !! j = Some y -> i <> j -> R x y.
Proof using All.
  revert i j. induction l as [|z l IH]; intros i j Hpw Hi Hj Hne; [done|].
  destruct Hpw as [Hz Hl]. destruct i as [|i], j as [|j]; simplify_eq/=.
  - by eapply Forall_lookup_1.
  - symmetry. by eapply Forall_lookup_1.
  - eapply IH; eauto.
Qed.
End Pairwise.

(** The total length of disjoint ranges inside [lo, hi) is at most
    [hi - lo]. *)
Fixpoint total_len (l : list range) : Z :=
  match l with [] => 0 | r :: l => r.2 + total_len l end.

Lemma total_len_app l k : total_len (l ++ k) = total_len l + total_len k.
Proof. induction l; simpl; lia. Qed.

#[export] Instance total_len_proper : Proper (Permutation ==> eq) total_len.
Proof. intros l k HP. induction HP; simpl; lia. Qed.

Lemma total_len_bound lo hi l :
  lo <= hi ->
  pairwise rdisj l ->
  Forall (fun r => lo <= r.1 /\ 0 <= r.2 /\ r.1 + r.2 <= hi) l ->
  total_len l <= hi - lo.
Proof.
  remember (length l) as n eqn:Hn.
  revert lo hi l Hn. induction (lt_wf n) as [n _ IH].
  intros lo hi [|[p m] l] Hn Hlh; simpl; [lia|].
  intros [Hp Hl] [Hb Hf]%Forall_cons. simpl in *.
  set (L := filter (fun r : range => r.1 + r.2 <= p) l).
  set (G := filter (fun r : range => ~ (r.1 + r.2 <= p)) l).
  assert (HP : Permutation (L ++ G) l).
  { subst L G. clear. induction l as [|r l IH]; [done|].
    rewrite !filter_cons. repeat case_decide; try tauto.
    - simpl. by rewrite IH.
    - rewrite <- Permutation_middle. by rewrite IH. }
  rewrite <- HP, total_len_app.
  assert (HL : total_len L <= p - lo).
  { apply (IH (length L)); try lia.
    - subst n L G. simpl. pose proof (length_filter (fun r : range => r.1 + r.2 <= p) l). lia.
    - eapply pairwise_sublist; [apply sublist_filter|done].
    - apply Forall_forall. intros r [? Hr]%list_elem_of_filter.
      rewrite Forall_forall in Hf. specialize (Hf r Hr). lia. }
  assert (HG : total_len G <= hi - (p + m)).
  { apply (IH (length G)); try lia.
    - subst n L G. simpl. pose proof (length_filter (fun r : range => ~ (r.1 + r.2 <= p)) l). lia.
    - eapply pairwise_sublist; [apply sublist_filter|done].
    - apply Forall_forall. intros r [? Hr]%list_elem_of_filter.
      rewrite Forall_forall in Hf, Hp. specialize (Hf r Hr). specialize (Hp r Hr).
      unfold rdisj in Hp. simpl in Hp. lia. }
  lia.
Qed.

(** ** Arrays

    [aget d a i] reads element [i] of an array; [d] stands for a read out of
    range, which no theorem relies on. *)
Definition aget {A} (d : A) (a : list A) (i : Z) : A := default d (a !! Z.to_nat i).
Definition aset {A} (a : list A) (i : Z) (v : A) : list A := <[Z.to_nat i := v]> a.

Lemma length_aset {A} (a : list A) i v : length (aset a i v) = length a.
Proof. apply length_insert. Qed.

Lemma aget_aset {A} (d : A) a i j v :
  0 <= i < Z.of_nat (length a) -> 0 <= j ->
  aget d (aset a i v) j = if decide (i = j) then v else aget d a j.
Proof.
  intros Hi Hj. unfold aget, aset. case_decide as Heq.
  - subst j. rewrite list_lookup_insert_eq by lia. done.
  - rewrite list_lookup_insert_ne by lia. done.
Qed.
