(* ===== verification/Types.v ===== *)
(** * Types.v: the data model (include/crucible/Types.h, TensorMeta.h, and the
    records of MerkleDag.h)

    The enumerations carry the ordinals of the foreign runtime.  A strong id
    (OpIndex, SlotId, MetaIndex) is its raw word, with the largest value as
    none; a strong hash is its raw 64-bit word. *)

From stdpp Require Import base list strings.
From Stdlib Require Import ZArith Lia.
From S2P Require Import Prelude.
#[local] Open Scope Z_scope.

(** ** Strong identifiers *)

Definition none32 : Z := UINT32_MAX.
Definition none64 : Z := UINT64_MAX.
Definition is_valid32 (v : Z) : bool := negb (v =? none32).
Definition is_valid64 (v : Z) : bool := negb (v =? none64).

(** ** Enumerations *)

Inductive ScalarType :=
| Byte | Char | Short | Int | Long | Half | Float | Double | ComplexHalf | ComplexFloat
| ComplexDouble | Bool | BFloat16 | Float8_e5m2 | Float8_e4m3fn | Float8_e5m2fnuz
| Float8_e4m3fnuz | UndefinedType.

Definition scalar_type_ordinal (t : ScalarType) : Z :=
  match t with
  | Byte => 0 | Char => 1 | Short => 2 | Int => 3 | Long => 4 | Half => 5 | Float => 6
  | Double => 7 | ComplexHalf => 8 | ComplexFloat => 9 | ComplexDouble => 10 | Bool => 11
  | BFloat16 => 15 | Float8_e5m2 => 23 | Float8_e4m3fn => 24 | Float8_e5m2fnuz => 25
  | Float8_e4m3fnuz => 26 | UndefinedType => -1
  end.

Inductive DeviceType := CPU | CUDA | MKLDNN | HIP | XLA | MPS | MetaDevice | PrivateUse1.

Definition device_type_ordinal (t : DeviceType) : Z :=
  match t with
  | CPU => 0 | CUDA => 1 | MKLDNN => 2 | HIP => 6 | XLA => 9 | MPS => 13 | MetaDevice => 14
  | PrivateUse1 => 20
  end.

Inductive Layout := Strided | Sparse | SparseCsr | SparseCsc | SparseBsr | SparseBsc.

Definition layout_ordinal (l : Layout) : Z :=
  match l with
  | Strided => 0 | Sparse => 1 | SparseCsr => 2 | SparseCsc => 3 | SparseBsr => 4
  | SparseBsc => 5
  end.

Inductive TrainingPhase := FORWARD | BACKWARD | OPTIMIZER | OTHER.

Definition training_phase_ordinal (p : TrainingPhase) : Z :=
  match p with FORWARD => 0 | BACKWARD => 1 | OPTIMIZER => 2 | OTHER => 3 end.

#[export] Instance ScalarType_eq_dec : EqDecision ScalarType.
Proof. solve_decision. Defined.
#[export] Instance DeviceType_eq_dec : EqDecision DeviceType.
Proof. solve_decision. Defined.
#[export] Instance Layout_eq_dec : EqDecision Layout.
Proof. solve_decision. Defined.
#[export] Instance TrainingPhase_eq_dec : EqDecision TrainingPhase.
Proof. solve_decision. Defined.

(** The enumerator with an ordinal: the predicates IsValidScalarType,
    IsValidDeviceType and IsValidLayout accept exactly the ordinals that have
    one, and make_scalar_type, make_device_type and make_layout return it. *)
Definition all_scalar_types : list ScalarType :=
  [Byte; Char; Short; Int; Long; Half; Float; Double; ComplexHalf; ComplexFloat;
   ComplexDouble; Bool; BFloat16; Float8_e5m2; Float8_e4m3fn; Float8_e5m2fnuz;
   Float8_e4m3fnuz; UndefinedType].
Definition all_device_types : list DeviceType :=
  [CPU; CUDA; MKLDNN; HIP; XLA; MPS; MetaDevice; PrivateUse1].
Definition all_layouts : list Layout :=
  [Strided; Sparse; SparseCsr; SparseCsc; SparseBsr; SparseBsc].

Definition find_ordinal {A} (ord : A -> Z) (l : list A) (raw : Z) : option A :=
  List.find (fun t => ord t =? raw) l.

Definition scalar_type_of (raw : Z) : option ScalarType :=
  find_ordinal scalar_type_ordinal all_scalar_types raw.
Definition device_type_of (raw : Z) : option DeviceType :=
  find_ordinal device_type_ordinal all_device_types raw.
Definition layout_of (raw : Z) : option Layout :=
  find_ordinal layout_ordinal all_layouts raw.

Definition is_Some_b {A} (o : option A) : bool := match o with Some _ => true | None => false end.

Definition valid_scalar_type (raw : Z) : bool := is_Some_b (scalar_type_of raw).
Definition valid_device_type (raw : Z) : bool := is_Some_b (device_type_of raw).
Definition valid_layout (raw : Z) : bool := is_Some_b (layout_of raw).

Lemma scalar_type_of_ordinal t : scalar_type_of (scalar_type_ordinal t) = Some t.
Proof. by destruct t. Qed.
Lemma device_type_of_ordinal t : device_type_of (device_type_ordinal t) = Some t.
Proof. by destruct t. Qed.
Lemma layout_of_ordinal t : layout_of (layout_ordinal t) = Some t.
Proof. by destruct t. Qed.

#[export] Hint Rewrite scalar_type_of_ordinal device_type_of_ordinal layout_of_ordinal : crucible.

(** element_size: the bytes of one element. *)
Definition element_size (t : ScalarType) : Z :=
  match t with
  | Bool | Byte | Char | Float8_e5m2 | Float8_e4m3fn | Float8_e5m2fnuz | Float8_e4m3fnuz => 1
  | Short | Half | BFloat16 => 2
  | Int | Float | ComplexHalf => 4
  | Long | Double | ComplexFloat => 8
  | ComplexDouble => 16
  | UndefinedType => 0
  end.

(** ** Records *)

Record TensorSlot := mkSlot {
  offset_bytes : Z;
  nbytes : Z;
  birth_op : Z;
  death_op : Z;
  slot_dtype : ScalarType;
  slot_device_type : DeviceType;
  slot_device_idx : Z;
  slot_layout : Layout;
  is_external : bool;
  slot_id : Z;
}.

Record MemoryPlan := mkPlan {
  plan_slots : list TensorSlot;
  pool_bytes : Z;
  num_slots : Z;
  num_external : Z;
  plan_device_type : DeviceType;
  plan_device_idx : Z;
  device_capability : Z;
  plan_rank : Z;
  plan_world_size : Z;
}.

Definition set_slot_offset (s : TensorSlot) (o : Z) : TensorSlot :=
  {| offset_bytes := o; nbytes := nbytes s; birth_op := birth_op s; death_op := death_op s;
     slot_dtype := slot_dtype s; slot_device_type := slot_device_type s;
     slot_device_idx := slot_device_idx s; slot_layout := slot_layout s;
     is_external := is_external s; slot_id := slot_id s |}.

(** A tensor descriptor.  [sizes] and [strides] hold eight lanes. *)
Record TensorMeta := mkMeta {
  sizes : list Z;
  strides : list Z;
  data_ptr : Z;
  ndim : Z;
  dtype : ScalarType;
  device_type : DeviceType;
  device_idx : Z;
  layout : Layout;
  requires_grad : bool;
  flags : Z;
  output_nr : Z;
  storage_offset : Z;
  version : Z;
  storage_nbytes : Z;
  grad_fn_hash : Z;
}.

(** An array behind a pointer with a count is a list, [None] for a null
    pointer.  kernel_id is the raw byte of the enumeration. *)
Record TraceEntry := mkEntry {
  schema_hash : Z;
  shape_hash : Z;
  scope_hash : Z;
  callsite_hash : Z;
  input_metas : option (list TensorMeta);
  output_metas : option (list TensorMeta);
  num_inputs : Z;
  num_outputs : Z;
  scalar_args : option (list Z);
  num_scalar_args : Z;
  grad_enabled : bool;
  inference_mode : bool;
  kernel_id : Z;
  is_mutable : bool;
  training_phase : TrainingPhase;
  torch_function : bool;
  input_trace_indices : option (list Z);
  input_slot_ids : option (list Z);
  output_slot_ids : option (list Z);
}.

(** The compilable region: its ops (a null pointer when there are none) and
    its memory plan, null until the planner ran.  The chain of the DAG and the
    compiled kernel are not part of this record. *)
Record RegionNode := mkRegion {
  region_content_hash : Z;
  region_ops : list TraceEntry;
  region_plan : option MemoryPlan;
}.

(** ** Nodes of the dag *)

Inductive TraceNodeKind := REGION | BRANCH | LOOP | TERMINAL.

Definition node_kind_ordinal (k : TraceNodeKind) : Z := match k with REGION => 0 | BRANCH => 1 | LOOP => 2 | TERMINAL => 3 end.
Definition node_kind_of (raw : Z) : TraceNodeKind :=
  if raw =? 0 then REGION else if raw =? 1 then BRANCH else if raw =? 2 then LOOP else TERMINAL.

#[export] Instance TraceNodeKind_eq_dec : EqDecision TraceNodeKind.
Proof. solve_decision. Defined.

(** The condition that a branch checks to select an arm. *)
Inductive GuardKind := SHAPE_DIM | SCALAR_VALUE | GUARD_DTYPE | GUARD_DEVICE | OP_SEQUENCE.

Definition guard_kind_ordinal (k : GuardKind) : Z :=
  match k with SHAPE_DIM => 0 | SCALAR_VALUE => 1 | GUARD_DTYPE => 2 | GUARD_DEVICE => 3 | OP_SEQUENCE => 4 end.
Definition all_guard_kinds : list GuardKind := [SHAPE_DIM; SCALAR_VALUE; GUARD_DTYPE; GUARD_DEVICE; OP_SEQUENCE].
Definition guard_kind_of (raw : Z) : option GuardKind := find_ordinal guard_kind_ordinal all_guard_kinds raw.

Record Guard := mkGuard { g_kind : GuardKind; g_op_index : Z; g_arg_index : Z; g_dim_index : Z }.
