(* ===== verification/Arena.v ===== *)
(** * Arena.v: the bump allocator and its epochs (include/crucible/Arena.h)

    The arena keeps a list of blocks from std::malloc and a bump offset in the
    current block.  [block_ranges] is the pair of parallel arrays blocks_ and
    block_bytes_ up to block_count_: element [k] is the address and the size of
    block [k].  The heap is the list of the live allocations of the process.
    std::malloc is an interface, [Malloc], with its documented behaviour as the
    laws [MallocOk].  The shadow memory of AddressSanitizer (poison_block_,
    unpoison_block_) is not modelled. *)

From stdpp Require Import base list strings.
From Stdlib Require Import ZArith Lia.
From S2P Require Import Prelude.
#[local] Open Scope Z_scope.
#[local] Open Scope result_scope.

(** ** std::malloc *)

Abbreviation heap := (list range).

Class Malloc := malloc : heap -> Z -> option Z.

(** A block that malloc returns is not null, has the alignment of
    std::max_align_t, lies in the lower half of the address space (the user
    half), and overlaps no live allocation. *)
Class MallocOk (M : Malloc) := {
  malloc_pos h n p : malloc h n = Some p -> 0 < p;
  malloc_aligned h n p : malloc h n = Some p -> p mod 16 = 0;
  malloc_limit h n p : malloc h n = Some p -> p + n <= 2 ^ 63;
  malloc_fresh h n p : malloc h n = Some p -> Forall (rdisj (p, n)) h;
}.

(** std::free of the allocation at [p]. *)
Definition free (p : Z) (h : heap) : heap := filter (fun r => r.1 <> p) h.

(** ** The state *)

Record Arena := mkArena {
  cur_block_ : Z;
  offset_ : Z;
  end_offset_ : Z;
  block_size_ : Z;
  bytes_before_cur_ : Z;
  retained_bytes_ : Z;
  cur_index_ : nat;
  block_ranges : list range;
  has_open_epoch_ : bool;
}.

Definition block_count_ (A : Arena) : nat := length (block_ranges A).

Definition RETAINED_BYTES_LIMIT : Z := Z.shiftl 64 20.
Definition MAX_BLOCKS : nat := 64.
Definition BLOCK_ALIGNMENT : Z := 16.

(** The messages of the process ends that enter_block_ can reach. *)
Definition why_many_blocks : string :=
  "an arena needs more than its 64 blocks: each block doubles, so the size saturated".
Definition why_no_memory : string :=
  "an arena could not allocate a block: the host has no memory left".

(** ** The operations *)

Definition saturating_shift_ (value shift : Z) : Z :=
  if (64 <=? shift) || (Z.shiftr SIZE_MAX shift <? value) then SIZE_MAX
  else Z.shiftl value shift.

Section Ops.
Context `{M : Malloc}.
#[local] Set Default Proof Using "Type".

(** The loop [while (index < block_count_ && block_bytes_[index] < needed)]
    over the blocks from [index] on. *)
Fixpoint find_block (bs : list range) (index : nat) (needed : Z) : nat :=
  match bs with
  | [] => index
  | b :: bs => if b.2 <? needed then find_block bs (S index) needed else index
  end.

Definition enter_block_ (A : Arena) (h : heap) (first_index : nat) (needed : Z)
    : result (Arena * heap) :=
  let index := find_block (drop first_index (block_ranges A)) first_index needed in
  let* '(brs, retained, h) :=
    if (index =? block_count_ A)%nat then
      if (MAX_BLOCKS <=? index)%nat then Fatal why_many_blocks
      else
        let standard := saturating_shift_ (block_size_ A) (Z.of_nat index) in
        let wanted := if standard <? needed then needed else standard in
        match malloc h wanted with
        | None => Fatal why_no_memory
        | Some p =>
            Ok (block_ranges A ++ [(p, wanted)],
                add_sat 64 (retained_bytes_ A) wanted, (p, wanted) :: h)
        end
    else Ok (block_ranges A, retained_bytes_ A, h) in
  let before := if (0 <? first_index)%nat
                then add_sat 64 (bytes_before_cur_ A) (end_offset_ A)
                else bytes_before_cur_ A in
  let b := default (0, 0) (brs !! index) in
  Ok ({| cur_block_ := b.1; offset_ := 0; end_offset_ := b.2;
         block_size_ := block_size_ A; bytes_before_cur_ := before;
         retained_bytes_ := retained; cur_index_ := index;
         block_ranges := brs; has_open_epoch_ := has_open_epoch_ A |}, h).

Definition empty_arena (block_size : Z) : Arena :=
  {| cur_block_ := 0; offset_ := 0; end_offset_ := 0; block_size_ := block_size;
     bytes_before_cur_ := 0; retained_bytes_ := 0; cur_index_ := 0;
     block_ranges := []; has_open_epoch_ := false |}.

(** Arena::Arena(block_size) *)
Definition new_arena (h : heap) (block_size : Z) : result (Arena * heap) :=
  let* _ := require (0 <? block_size) "decide::positive(block_size)" in
  enter_block_ (empty_arena block_size) h 0 block_size.

Definition set_offset (A : Arena) (o : Z) : Arena :=
  {| cur_block_ := cur_block_ A; offset_ := o; end_offset_ := end_offset_ A;
     block_size_ := block_size_ A; bytes_before_cur_ := bytes_before_cur_ A;
     retained_bytes_ := retained_bytes_ A; cur_index_ := cur_index_ A;
     block_ranges := block_ranges A; has_open_epoch_ := has_open_epoch_ A |}.

(** [(addr + align - 1) & ~(align - 1)] on uintptr_t. *)
Definition align_up (addr align : Z) : Z :=
  Z.land (addr ⊞ align ⊟ 1)%u64 (lnot64 (align - 1)).

Definition alloc_slow_ (A : Arena) (h : heap) (size align : Z) : result (Z * Arena * heap) :=
  let* '(A, h) := enter_block_ A h (S (cur_index_ A)) (add_sat 64 size align) in
  let base := cur_block_ A in
  let aligned := (align_up base align ⊟ base)%u64 in
  Ok ((base ⊞ aligned)%u64, set_offset A (aligned ⊞ size)%u64, h).

Definition alloc (A : Arena) (h : heap) (s a : Z) : result (Z * Arena * heap) :=
  let base := cur_block_ A in
  let aligned := (align_up (base ⊞ offset_ A) a ⊟ base)%u64 in
  if (aligned ⊞ s)%u64 <=? end_offset_ A
  then Ok ((base ⊞ aligned)%u64, set_offset A (aligned ⊞ s)%u64, h)
  else alloc_slow_ A h s a.

(** alloc with the alignment of std::max_align_t, alloc_obj<T>, alloc_array<T>
    and alloc_array_nonzero<T>; [sz] and [al] are sizeof(T) and alignof(T).  The
    _pinned forms wrap the same pointer in a type. *)
Definition alloc_max_align (A : Arena) (h : heap) (s : Z) := alloc A h s BLOCK_ALIGNMENT.

Definition alloc_obj (A : Arena) (h : heap) (sz al : Z) := alloc A h sz al.

Definition alloc_array (A : Arena) (h : heap) (sz al n : Z) : result (Z * Arena * heap) :=
  if n =? 0 then Ok (0, A, h) else alloc A h (mul_sat 64 n sz) al.

Definition alloc_array_nonzero (A : Arena) (h : heap) (sz al n : Z)
    : result (Z * Arena * heap) :=
  let* _ := require (0 <? n) "decide::positive(n)" in
  alloc A h (mul_sat 64 n sz) al.

(** copy_string: [src] is the bytes before the terminating zero, [None] for a
    null pointer.  The result is the address and the bytes copied to it. *)
Definition copy_string (A : Arena) (h : heap) (src : option (list Z))
    : result (option (Z * list Z) * Arena * heap) :=
  match src with
  | None => Ok (None, A, h)
  | Some bytes =>
      let len := Z.of_nat (length bytes) + 1 in
      let* '(dst, A, h) := alloc A h len 1 in
      Ok (Some (dst, bytes ++ [0]), A, h)
  end.

Definition total_allocated (A : Arena) : Z := add_sat 64 (bytes_before_cur_ A) (offset_ A).

(** The loop of free_blocks_from_: frees each block of [bs] and subtracts its
    bytes. *)
Fixpoint free_blocks (bs : list range) (retained : Z) (h : heap) : Z * heap :=
  match bs with
  | [] => (retained, h)
  | b :: bs => free_blocks bs (retained ⊟ b.2)%u64 (free b.1 h)
  end.

Definition free_blocks_from_ (A : Arena) (h : heap) (first_index : nat) : Arena * heap :=
  let '(retained, h) := free_blocks (drop first_index (block_ranges A)) (retained_bytes_ A) h in
  ({| cur_block_ := cur_block_ A; offset_ := offset_ A; end_offset_ := end_offset_ A;
      block_size_ := block_size_ A; bytes_before_cur_ := bytes_before_cur_ A;
      retained_bytes_ := retained; cur_index_ := cur_index_ A;
      block_ranges := take first_index (block_ranges A);
      has_open_epoch_ := has_open_epoch_ A |}, h).

Definition end_epoch_ (A : Arena) (h : heap) : Arena * heap :=
  let '(A, h) := if RETAINED_BYTES_LIMIT <? retained_bytes_ A
                 then free_blocks_from_ A h 1 else (A, h) in
  let b := default (0, 0) (block_ranges A !! 0%nat) in
  ({| cur_block_ := b.1; offset_ := 0; end_offset_ := b.2;
      block_size_ := block_size_ A; bytes_before_cur_ := 0;
      retained_bytes_ := retained_bytes_ A; cur_index_ := 0;
      block_ranges := block_ranges A; has_open_epoch_ := false |}, h).

(** ArenaEpoch: the right to end the bytes of one arena. *)
Record ArenaEpoch := mkEpoch { is_open_ : bool }.

Definition open_epoch (A : Arena) : result (Arena * ArenaEpoch) :=
  if has_open_epoch_ A then
    Fatal "open_epoch of an arena with an open epoch: end the epoch before the next one opens"
  else if negb (cur_index_ A =? 0)%nat || negb (offset_ A =? 0) then
    Fatal "open_epoch of an arena that holds bytes: open the epoch before the first allocation"
  else
    Ok ({| cur_block_ := cur_block_ A; offset_ := offset_ A; end_offset_ := end_offset_ A;
           block_size_ := block_size_ A; bytes_before_cur_ := bytes_before_cur_ A;
           retained_bytes_ := retained_bytes_ A; cur_index_ := cur_index_ A;
           block_ranges := block_ranges A; has_open_epoch_ := true |},
        {| is_open_ := true |}).

(** The move constructor of ArenaEpoch: the new token, and the source. *)
Definition epoch_move (e : ArenaEpoch) : ArenaEpoch * ArenaEpoch :=
  ({| is_open_ := is_open_ e |}, {| is_open_ := false |}).

Definition epoch_end (A : Arena) (h : heap) (e : ArenaEpoch) : result (Arena * heap * ArenaEpoch) :=
  if is_open_ e then
    let '(A, h) := end_epoch_ A h in Ok (A, h, {| is_open_ := false |})
  else Fatal "end of an epoch that holds no open epoch: the token was moved from".

(** ~ArenaEpoch and ~Arena *)
Definition epoch_destroy (e : ArenaEpoch) : result unit :=
  if is_open_ e then
    Fatal "an epoch of an arena was dropped with no end: call std::move(epoch).end()"
  else Ok tt.

Definition destroy_arena (A : Arena) (h : heap) : result heap :=
  if has_open_epoch_ A then
    Fatal "an arena ended while an epoch of it is open: end the epoch before the arena"
  else Ok (free_blocks_from_ A h 0).2.

(** A run of allocations, in order. *)
Fixpoint alloc_seq (A : Arena) (h : heap) (reqs : list (Z * Z))
    : result (list Z * Arena * heap) :=
  match reqs with
  | [] => Ok ([], A, h)
  | (s, a) :: reqs =>
      let* '(p, A, h) := alloc A h s a in
      let* '(ps, A, h) := alloc_seq A h reqs in
      Ok (p :: ps, A, h)
  end.
End Ops.

(** ** Invariants *)

(** What the list of blocks guarantees: block [k] holds at least
    [block_size << k] bytes (saturating), is a live allocation in the user half
    of the address space, and overlaps no other block. *)
Record blocks_ok (size : Z) (brs : list range) (h : heap) : Prop := {
  bo_block k b : brs !! k = Some b ->
    0 < b.1 /\ b.1 mod 16 = 0 /\ saturating_shift_ size (Z.of_nat k) <= b.2 /\
    b.1 + b.2 <= 2 ^ 63 /\ b ∈ h;
  bo_disj : pairwise rdisj brs;
  bo_count : (length brs <= MAX_BLOCKS)%nat;
}.

Record arena_inv (A : Arena) (h : heap) : Prop := {
  inv_size : 1 <= block_size_ A < 2 ^ 64;
  inv_blocks : blocks_ok (block_size_ A) (block_ranges A) h;
  inv_cur : block_ranges A !! cur_index_ A = Some (cur_block_ A, end_offset_ A);
  inv_off : 0 <= offset_ A <= end_offset_ A;
  inv_retained : retained_bytes_ A = total_len (block_ranges A);
  inv_before : 0 <= bytes_before_cur_ A <= total_len (take (cur_index_ A) (block_ranges A));
}.

Section Lemmas.
#[local] Set Default Proof Using "Type".

Lemma saturating_shift_ge v k :
  1 <= v < 2 ^ 64 -> 0 <= k < 64 -> 2 ^ k <= saturating_shift_ v k <= SIZE_MAX.
Proof.
  intros Hv Hk. unfold saturating_shift_, UINT64_MAX.
  assert (H1 : 2 ^ k <= 2 ^ 63) by (apply Z.pow_le_mono_r; lia).
  destruct (Z.leb_spec 64 k); [lia|]. simpl.
  destruct (Z.ltb_spec (Z.shiftr (2 ^ 64 - 1) k) v) as [?|Hle]; [lia|].
  rewrite Z.shiftl_mul_pow2 by lia. rewrite Z.shiftr_div_pow2 in Hle by lia.
  assert (0 < 2 ^ k) by (apply Z.pow_pos_nonneg; lia).
  pose proof (Z.mul_div_le (2 ^ 64 - 1) (2 ^ k)). nia.
Qed.

Lemma saturating_shift_pos v k : 1 <= v < 2 ^ 64 -> 0 <= k -> 1 <= saturating_shift_ v k <= SIZE_MAX.
Proof.
  intros Hv Hk. destruct (Z.ltb_spec k 64).
  - pose proof (saturating_shift_ge v k Hv ltac:(lia)).
    assert (0 < 2 ^ k) by (apply Z.pow_pos_nonneg; lia). lia.
  - unfold saturating_shift_, UINT64_MAX. destruct (Z.leb_spec 64 k); simpl; lia.
Qed.

Lemma saturating_shift_0 v : 1 <= v < 2 ^ 64 -> saturating_shift_ v 0 = v.
Proof.
  intros Hv. unfold saturating_shift_, UINT64_MAX. rewrite Z.shiftr_0_r, Z.shiftl_0_r. simpl.
  destruct (Z.ltb_spec (2 ^ 64 - 1) v); lia.
Qed.

Lemma blocks_bytes_pos size brs h k b :
  1 <= size < 2 ^ 64 -> blocks_ok size brs h -> brs !! k = Some b -> 1 <= b.2.
Proof.
  intros Hs Hb Hk. destruct (bo_block _ _ _ Hb k b Hk) as (_ & _ & ? & _).
  pose proof (saturating_shift_pos size (Z.of_nat k) Hs ltac:(lia)). lia.
Qed.

Lemma blocks_in_limit size brs h :
  1 <= size < 2 ^ 64 -> blocks_ok size brs h ->
  Forall (fun r : range => 1 <= r.1 /\ 0 <= r.2 /\ r.1 + r.2 <= 2 ^ 63) brs.
Proof.
  intros Hs Hb. apply Forall_lookup_2. intros k b Hk.
  pose proof (blocks_bytes_pos _ _ _ _ _ Hs Hb Hk).
  destruct (bo_block _ _ _ Hb k b Hk) as (? & _ & _ & ? & _). lia.
Qed.

Lemma blocks_total size brs h :
  1 <= size < 2 ^ 64 -> blocks_ok size brs h -> total_len brs <= 2 ^ 63 - 1.
Proof.
  intros Hs Hb. apply total_len_bound; [lia|apply Hb|by eapply blocks_in_limit].
Qed.

Lemma total_len_nonneg l : Forall (fun r : range => 0 <= r.2) l -> 0 <= total_len l.
Proof. induction 1; simpl; lia. Qed.

Lemma total_len_take size brs h k :
  1 <= size < 2 ^ 64 -> blocks_ok size brs h -> 0 <= total_len (take k brs) <= total_len brs.
Proof.
  intros Hs Hb.
  assert (Hf : Forall (fun r : range => 0 <= r.2) brs).
  { eapply Forall_impl; [by eapply blocks_in_limit|]. simpl; intros; lia. }
  rewrite <- (take_drop k brs) at 3. rewrite total_len_app.
  pose proof (total_len_nonneg _ (Forall_take _ k _ Hf)).
  pose proof (total_len_nonneg _ (Forall_drop _ k _ Hf)). lia.
Qed.

Lemma find_block_spec bs i n :
  let j := find_block bs i n in
  (i <= j <= i + length bs)%nat /\
  (forall b, bs !! (j - i)%nat = Some b -> n <= b.2).
Proof.
  revert i. induction bs as [|b bs IH]; intros i; simpl.
  - split; [lia|]. intros b Hb. by rewrite lookup_nil in Hb.
  - destruct (Z.ltb_spec b.2 n) as [Hlt|Hge].
    + specialize (IH (S i)) as [IH1 IH2]. split; [lia|]. intros c Hc. apply IH2.
      replace (find_block bs (S i) n - i)%nat
        with (S (find_block bs (S i) n - S i)) in Hc by lia. done.
    + split; [lia|]. rewrite Nat.sub_diag. intros c [= <-]. lia.
Qed.

(** [align_up] rounds up to the alignment when the sum does not wrap. *)
Lemma align_up_spec x a k :
  0 <= k < 64 -> a = 2 ^ k -> 0 <= x -> x + a - 1 < 2 ^ 64 ->
  x <= align_up x a < x + a /\ align_up x a mod a = 0.
Proof.
  intros Hk -> Hx Hlt. unfold align_up.
  assert (0 < 2 ^ k) by (apply Z.pow_pos_nonneg; lia).
  assert (Hw : (x ⊞ 2 ^ k ⊟ 1)%u64 = x + 2 ^ k - 1).
  { unfold wrap. rewrite Zminus_mod_idemp_l. apply Z.mod_small. lia. }
  rewrite Hw, land_lnot64_mask by lia.
  set (y := x + 2 ^ k - 1).
  pose proof (Z.mod_pos_bound y (2 ^ k) ltac:(lia)).
  split; [lia|].
  rewrite Zminus_mod, Zmod_mod, <- Zminus_mod, Z.sub_diag. apply Z.mod_0_l. lia.
Qed.
End Lemmas.

(** ** enter_block_ *)

Section EnterBlock.
Context `{M : Malloc, !MallocOk M}.
#[local] Set Default Proof Using "Type*".

Lemma blocks_ok_weaken size brs h h' :
  (forall b, b ∈ brs -> b ∈ h -> b ∈ h') -> blocks_ok size brs h -> blocks_ok size brs h'.
Proof using Type.
  intros Hsub [H1 H2 H3]. split; auto. intros k b Hk.
  destruct (H1 k b Hk) as (?&?&?&?&?). split_and!; auto.
  apply Hsub; [by eapply list_elem_of_lookup_2|done].
Qed.

Lemma blocks_ok_grow size brs h p n :
  1 <= size < 2 ^ 64 -> blocks_ok size brs h -> (length brs < MAX_BLOCKS)%nat ->
  malloc h n = Some p -> saturating_shift_ size (Z.of_nat (length brs)) <= n ->
  blocks_ok size (brs ++ [(p, n)]) ((p, n) :: h).
Proof.
  intros Hs Hb Hlen Hm Hn. split.
  - intros k b [Hk|[Hge Hk]]%lookup_app_Some.
    + destruct (bo_block _ _ _ Hb k b Hk) as (?&?&?&?&?). split_and!; auto. by right.
    + assert (k = length brs) as -> by (apply lookup_lt_Some in Hk; simpl in Hk; lia).
      rewrite Nat.sub_diag in Hk. injection Hk as <-. simpl. split_and!.
      * by eapply malloc_pos.
      * by eapply malloc_aligned.
      * lia.
      * by eapply malloc_limit.
      * left.
  - apply pairwise_app. split_and!; [apply Hb|by split|].
    apply Forall_lookup_2. intros k b Hk. apply Forall_singleton. symmetry.
    destruct (bo_block _ _ _ Hb k b Hk) as (_&_&_&_&Hin).
    pose proof (malloc_fresh _ _ _ Hm) as Hf. rewrite Forall_forall in Hf. auto.
  - rewrite length_app. simpl. lia.
Qed.

(** The 64-block limit is never the reason of a failure: block 63 would need
    more bytes than the user half of the address space has. *)
Lemma enter_block_fatal A h i n why :
  1 <= block_size_ A < 2 ^ 64 -> blocks_ok (block_size_ A) (block_ranges A) h ->
  enter_block_ A h i n = Fatal why -> why = why_no_memory.
Proof.
  intros Hs Hb. unfold enter_block_.
  set (j := find_block _ _ _).
  destruct (Nat.eqb_spec j (block_count_ A)) as [Hj|]; [|done].
  destruct (Nat.leb_spec MAX_BLOCKS j) as [Hmax|].
  - exfalso. unfold block_count_ in Hj. pose proof (bo_count _ _ _ Hb). unfold MAX_BLOCKS in *.
    destruct (lookup_lt_is_Some_2 (block_ranges A) 63) as [b Hk]; [lia|].
    destruct (bo_block _ _ _ Hb _ _ Hk) as (?&_&Hsh&?&_).
    pose proof (saturating_shift_ge (block_size_ A) (Z.of_nat 63) Hs ltac:(lia)). lia.
  - destruct (malloc h _); simpl; congruence.
Qed.

(** What a return of enter_block_ establishes. *)
Record entered (A A' : Arena) (h h' : heap) (i : nat) (n : Z) : Prop := {
  en_blocks : blocks_ok (block_size_ A) (block_ranges A') h';
  en_cur : block_ranges A' !! cur_index_ A' = Some (cur_block_ A', end_offset_ A');
  en_index : (i <= cur_index_ A')%nat;
  en_needed : n <= end_offset_ A';
  en_prefix : block_ranges A `prefix_of` block_ranges A';
  en_heap : h ⊆ h';
  en_fields : offset_ A' = 0 /\ block_size_ A' = block_size_ A /\
              has_open_epoch_ A' = has_open_epoch_ A;
  en_retained : retained_bytes_ A = total_len (block_ranges A) ->
                retained_bytes_ A' = total_len (block_ranges A');
  en_before : bytes_before_cur_ A' =
    if (0 <? i)%nat then add_sat 64 (bytes_before_cur_ A) (end_offset_ A)
    else bytes_before_cur_ A;
}.

Lemma enter_block_ok A h i n A' h' :
  1 <= block_size_ A < 2 ^ 64 -> blocks_ok (block_size_ A) (block_ranges A) h ->
  (i <= block_count_ A)%nat ->
  enter_block_ A h i n = Ok (A', h') -> entered A A' h h' i n.
Proof.
  intros Hs Hb Hi. unfold enter_block_.
  pose proof (find_block_spec (drop i (block_ranges A)) i n) as Hfind.
  set (j := find_block _ _ _) in *. cbv zeta in Hfind. destruct Hfind as [Hij Hfit].
  rewrite length_drop in Hij. unfold block_count_ in *.
  destruct (Nat.eqb_spec j (length (block_ranges A))) as [Hj|Hj].
  - destruct (Nat.leb_spec MAX_BLOCKS j) as [|Hmax]; [done|].
    set (std := saturating_shift_ _ _). set (w := if std <? n then n else std).
    destruct (malloc h w) as [p|] eqn:Hm; [|done]. simpl. intros [= <- <-].
    assert (Hw : std <= w /\ n <= w).
    { subst w. destruct (Z.ltb_spec std n); lia. }
    assert (Hg : blocks_ok (block_size_ A) (block_ranges A ++ [(p, w)]) ((p, w) :: h)).
    { apply blocks_ok_grow; auto; rewrite <- Hj; [done|apply Hw]. }
    rewrite list_lookup_middle by done.
    split; simpl; auto.
    + by apply list_lookup_middle.
    + lia.
    + apply Hw.
    + by apply prefix_app_r.
    + intros c Hc. by right.
    + intros ->. rewrite total_len_app. simpl.
      pose proof (blocks_total _ _ _ Hs Hg) as Ht. rewrite total_len_app in Ht.
      simpl in Ht. rewrite add_sat_exact by lia. lia.
  - simpl. intros [= <- <-].
    destruct (lookup_lt_is_Some_2 (block_ranges A) j) as [b Hk]; [lia|].
    rewrite Hk. simpl. split; simpl; auto.
    + by destruct b.
    + lia.
    + apply Hfit. rewrite lookup_drop. by replace (i + (j - i))%nat with j by lia.
Qed.

Lemma new_arena_inv h size A h' :
  size < 2 ^ 64 -> new_arena h size = Ok (A, h') ->
  arena_inv A h' /\ offset_ A = 0 /\ cur_index_ A = 0%nat /\
  end_offset_ A = size /\ has_open_epoch_ A = false.
Proof.
  unfold new_arena. intros Hlt H. inv_ok. reflect_bools.
  assert (Hb : blocks_ok size [] h) by (split; [done|done|simpl; lia]).
  pose proof H as H'.
  apply enter_block_ok in H as [Hbl Hcur Hidx Hneed _ _ (Hoff & Hsz & Hep) Hret Hbef];
    simpl in *; [|lia|done|unfold block_count_; simpl; lia].
  assert (Hc0 : cur_index_ A = 0%nat /\ end_offset_ A = size).
  { clear -H' Hlt Hok. revert H'. unfold enter_block_. cbn -[saturating_shift_].
    rewrite saturating_shift_0, Z.ltb_irrefl by lia.
    destruct (malloc h size); simpl; [|done]. by intros [= <- <-]. }
  destruct Hc0 as [Hc0 He]. split_and!; auto.
  split; rewrite ?Hsz, ?Hoff, ?Hbef, ?Hc0 in *; simpl; auto; lia.
Qed.
End EnterBlock.

(** ** Allocation *)

(** A request that cannot wrap the 64-bit sums of alloc: the size is positive and
    the alignment a power of two, as their types say, and the two together are at
    most 2^63 bytes. *)
Definition good_req (s a : Z) : Prop :=
  0 < s /\ s + a <= 2 ^ 63 /\ exists k, 0 <= k /\ a = 2 ^ k.

Lemma good_req_bounds s a : good_req s a -> 0 < s /\ 0 < a /\ s + a <= 2 ^ 63 /\ exists k, 0 <= k <= 62 /\ a = 2 ^ k.
Proof.
  intros (Hs & Hsum & k & Hk & ->). assert (0 < 2 ^ k) by (apply Z.pow_pos_nonneg; lia). split_and!; auto. exists k. split; [|done].
  split; [done|]. destruct (Z.le_gt_cases k 62); [done|]. assert (2 ^ 63 <= 2 ^ k) by (apply Z.pow_le_mono_r; lia). lia.
Qed.

(** The bytes that the arena has given out: the blocks before the current one
    and the bytes of the current block before the offset. *)
Definition used (A : Arena) : list range :=
  take (cur_index_ A) (block_ranges A) ++ [(cur_block_ A, offset_ A)].

Section Alloc.
Context `{M : Malloc, !MallocOk M}.
#[local] Set Default Proof Using "Type*".

(** What a return of alloc establishes of the range [(p, s)]. *)
Record alloc_post (A A' : Arena) (h h' : heap) (p s a : Z) : Prop := {
  ap_inv : arena_inv A' h';
  ap_heap : h ⊆ h';
  ap_aligned : p mod a = 0;
  ap_fresh : Forall (rdisj (p, s)) (used A);
  ap_used : exists u, u ∈ used A' /\ rinside (p, s) u;
  ap_prefix : block_ranges A `prefix_of` block_ranges A';
  ap_grow : forall u, u ∈ used A -> exists u', u' ∈ used A' /\ rinside u u';
}.

Lemma total_len_take_mono i j l :
  Forall (fun r : range => 0 <= r.2) l -> (i <= j)%nat ->
  total_len (take i l) <= total_len (take j l).
Proof using Type.
  intros Hf Hij. revert i j Hij.
  induction Hf as [|r l Hr Hf IH]; intros [|i] [|j] Hij; simpl; try lia.
  - pose proof (total_len_nonneg _ (Forall_take _ j _ Hf)). lia.
  - specialize (IH i j ltac:(lia)). lia.
Qed.

Lemma arena_cur_block A h : arena_inv A h ->
  0 < cur_block_ A /\ cur_block_ A + end_offset_ A <= 2 ^ 63 /\ 1 <= end_offset_ A.
Proof using Type.
  intros [Hs Hb Hc _ _ _]. destruct (bo_block _ _ _ Hb _ _ Hc) as (?&_&_&?&_).
  pose proof (blocks_bytes_pos _ _ _ _ _ Hs Hb Hc). simpl in *. lia.
Qed.

(** Each used byte is in a block at or before the current one. *)
Lemma used_in_block A h u : arena_inv A h -> u ∈ used A ->
  exists k b, (k <= cur_index_ A)%nat /\ block_ranges A !! k = Some b /\ rinside u b.
Proof using Type.
  intros [Hs Hb Hc Ho _ _] [Hu|Hu]%elem_of_app.
  - apply list_elem_of_lookup in Hu as [k Hk]. apply lookup_take_Some in Hk as [Hk Hlt].
    pose proof (blocks_bytes_pos _ _ _ _ _ Hs Hb Hk).
    exists k, u. split_and!; auto; [lia|]. unfold rinside. lia.
  - apply list_elem_of_singleton in Hu as ->.
    exists (cur_index_ A), (cur_block_ A, end_offset_ A). split_and!; auto.
    unfold rinside. simpl. lia.
Qed.

(** The fast path: the request fits after the offset of the current block. *)
Lemma alloc_fast A h s a o :
  arena_inv A h -> 0 < s -> 0 <= offset_ A <= o -> o + s <= end_offset_ A ->
  (cur_block_ A + o) mod a = 0 ->
  alloc_post A (set_offset A (o + s)) h h (cur_block_ A + o) s a.
Proof using Type.
  intros Hinv Hs Ho Hfit Hal. pose proof Hinv as [Hsz Hb Hc Hoff Hr Hbef].
  split; auto.
  - split; simpl; auto. lia.
  - apply Forall_forall. intros u Hu. apply elem_of_app in Hu as [Hu|Hu].
    + apply list_elem_of_lookup in Hu as [k Hk]. apply lookup_take_Some in Hk as [Hk Hlt].
      eapply (rdisj_inside _ (cur_block_ A, end_offset_ A)); [unfold rinside; simpl; lia|].
      apply (pairwise_lookup rdisj (block_ranges A) (cur_index_ A) k); auto; [apply Hb|lia].
    + apply list_elem_of_singleton in Hu as ->. right. simpl. lia.
  - exists (cur_block_ A, o + s). split; [apply elem_of_app; right; by left|].
    unfold rinside. simpl. lia.
  - intros u Hu. apply elem_of_app in Hu as [Hu|Hu].
    + exists u. split; [apply elem_of_app; by left|].
      destruct (used_in_block A h u Hinv) as (k & b & _ & _ & Hin);
        [apply elem_of_app; by left|]. unfold rinside in *. lia.
    + apply list_elem_of_singleton in Hu as ->. exists (cur_block_ A, o + s).
      split; [apply elem_of_app; right; by left|]. unfold rinside. simpl. lia.
Qed.

(** The bytes used before a move to a later block stay used after it. *)
Lemma entered_used A A' h h' n u :
  arena_inv A h -> entered A A' h h' (S (cur_index_ A)) n -> u ∈ used A ->
  exists b, b ∈ take (cur_index_ A') (block_ranges A') /\ rinside u b.
Proof using Type.
  intros Hinv [_ _ Hidx _ [tl Hpre] _ _ _ _] Hu.
  destruct (used_in_block A h u Hinv Hu) as (k & b & Hk & Hb & Hin).
  exists b. split; [|done]. apply list_elem_of_lookup. exists k.
  rewrite lookup_take_Some, Hpre. split; [|lia].
  by apply lookup_app_l_Some.
Qed.

(** Moving to a later block keeps the invariant. *)
Lemma entered_inv A A' h h' n :
  arena_inv A h -> entered A A' h h' (S (cur_index_ A)) n -> arena_inv A' h'.
Proof using Type.
  intros Hinv He. pose proof (arena_cur_block A h Hinv).
  destruct He as [Hbl Hcur Hidx Hneed [tl Hpre] Hhp (Ho & Hsz & _) Hret Hbef].
  destruct Hinv as [Hs Hb Hc Hoff Hr Hb4].
  rewrite <- Hsz in *.
  pose proof (blocks_bytes_pos _ _ _ _ _ Hs Hbl Hcur) as Hpos. simpl in Hpos.
  split; auto; [lia|]. rewrite Hbef.
  assert (Hmono : total_len (take (S (cur_index_ A)) (block_ranges A'))
                  <= total_len (take (cur_index_ A') (block_ranges A'))).
  { apply total_len_take_mono; [|lia].
    eapply Forall_impl; [by eapply blocks_in_limit|]. simpl; intros; lia. }
  assert (Htk : take (S (cur_index_ A)) (block_ranges A')
                = take (cur_index_ A) (block_ranges A) ++ [(cur_block_ A, end_offset_ A)]).
  { rewrite Hpre, take_app_le; [by erewrite take_S_r|]. by apply lookup_lt_Some in Hc. }
  rewrite Htk, total_len_app in Hmono. simpl in Hmono.
  destruct (0 <? S (cur_index_ A))%nat eqn:?; [|done].
  unfold add_sat. destruct (Z.ltb_spec (bytes_before_cur_ A + end_offset_ A) (2 ^ 64)); lia.
Qed.

Lemma alloc_slow_post A h s a p A' h' :
  arena_inv A h -> good_req s a -> alloc_slow_ A h s a = Ok (p, A', h') ->
  alloc_post A A' h h' p s a.
Proof.
  intros Hinv (Hs & Hapos & Hsum & k & Hk & Ha)%good_req_bounds H. unfold alloc_slow_ in H.
  apply rbind_ok in H as ([A1 h1] & He & H).
  rewrite add_sat_exact in He by lia.
  pose proof Hinv as [Hsz Hb Hc _ _ _].
  apply enter_block_ok in He; auto;
    [|apply lookup_lt_Some in Hc; unfold block_count_; lia].
  pose proof (entered_inv _ _ _ _ _ Hinv He) as Hinv1.
  pose proof (arena_cur_block _ _ Hinv1) as (Hp & Hlim & _).
  pose proof (en_needed _ _ _ _ _ _ He) as Hneed.
  assert (Ho1 : offset_ A1 = 0) by apply He.
  destruct (align_up_spec (cur_block_ A1) a k) as [Hal Hmod]; try lia.
  set (y := align_up (cur_block_ A1) a) in *.
  assert (Hw : (y ⊟ cur_block_ A1)%u64 = y - cur_block_ A1) by (apply wrap_small; lia).
  rewrite Hw, !wrap_small in H by lia.
  replace (cur_block_ A1 + (y - cur_block_ A1)) with y in H by lia.
  injection H as <- <- <-.
  pose proof (alloc_fast A1 h1 s a (y - cur_block_ A1) Hinv1) as Hf.
  replace (cur_block_ A1 + (y - cur_block_ A1)) with y in Hf by lia.
  destruct Hf as [F1 F2 F3 F4 F5 F6 F7]; try lia; auto.
  assert (Hold : forall u, u ∈ used A -> exists b,
            b ∈ used A1 /\ rinside u b).
  { intros u Hu. destruct (entered_used _ _ _ _ _ _ Hinv He Hu) as (b & Hin & Hb').
    exists b. split; [apply elem_of_app; by left|done]. }
  split; auto.
  - transitivity h1; [apply He|done].
  - apply Forall_forall. intros u Hu. destruct (Hold u Hu) as (b & Hin & Hb').
    rewrite Forall_forall in F4. symmetry. eapply rdisj_inside; [done|].
    symmetry. auto.
  - by etransitivity; [apply He|].
  - intros u Hu. destruct (Hold u Hu) as (b & Hin & Hb').
    destruct (F7 b Hin) as (u' & ? & ?). exists u'. split; [done|].
    unfold rinside in *. lia.
Qed.

Lemma alloc_ok_post A h s a p A' h' :
  arena_inv A h -> good_req s a -> alloc A h s a = Ok (p, A', h') ->
  alloc_post A A' h h' p s a.
Proof.
  intros Hinv Hreq H. pose proof (good_req_bounds _ _ Hreq) as (Hs & Hapos & Hsum & k & Hk & Ha).
  pose proof (arena_cur_block _ _ Hinv) as (Hp & Hlim & _).
  pose proof (inv_off _ _ Hinv) as Ho.
  unfold alloc in H. rewrite (wrap_small 64 (cur_block_ A + offset_ A)) in H by lia.
  destruct (align_up_spec (cur_block_ A + offset_ A) a k) as [Hal Hmod]; try lia.
  set (y := align_up _ a) in *.
  assert (Hw : (y ⊟ cur_block_ A)%u64 = y - cur_block_ A) by (apply wrap_small; lia).
  rewrite Hw, (wrap_small 64 (y - cur_block_ A + s)) in H by lia.
  destruct (Z.leb_spec (y - cur_block_ A + s) (end_offset_ A)) as [Hfit|_].
  - rewrite wrap_small in H by lia. injection H as <- <- <-.
    pose proof (alloc_fast A h s a (y - cur_block_ A) Hinv) as Hf.
    replace (cur_block_ A + (y - cur_block_ A)) with y in * by lia.
    apply Hf; auto; lia.
  - by apply alloc_slow_post.
Qed.
End Alloc.

(** ** Epochs *)

Section Epochs.
Context `{M : Malloc, !MallocOk M}.
#[local] Set Default Proof Using "Type".

Lemma free_blocks_retained bs r h :
  Forall (fun b : range => 0 <= b.2) bs -> total_len bs <= r < 2 ^ 64 ->
  (free_blocks bs r h).1 = r - total_len bs.
Proof.
  intros Hf. revert r h. induction Hf as [|b bs Hb Hf IH]; intros r h Hr; simpl in *; [lia|].
  pose proof (total_len_nonneg _ Hf).
  rewrite IH; rewrite wrap_small; lia.
Qed.

Lemma free_blocks_heap bs r h c :
  c ∈ (free_blocks bs r h).2 <-> c ∈ h /\ Forall (fun b : range => c.1 <> b.1) bs.
Proof.
  revert r h. induction bs as [|b bs IH]; intros r h; simpl.
  - split; [by split|tauto].
  - rewrite IH, Forall_cons. unfold free. rewrite list_elem_of_filter. tauto.
Qed.

Lemma blocks_ok_take size brs h n :
  blocks_ok size brs h -> blocks_ok size (take n brs) h.
Proof.
  intros [H1 H2 H3]. split.
  - intros k b [Hk _]%lookup_take_Some. by apply H1.
  - eapply pairwise_sublist; [apply sublist_take|done].
  - rewrite length_take. lia.
Qed.

(** Freeing the blocks after the first keeps the invariant of the rest. *)
Lemma free_blocks_from_ok A h n A' h' :
  1 <= block_size_ A < 2 ^ 64 -> blocks_ok (block_size_ A) (block_ranges A) h ->
  retained_bytes_ A = total_len (block_ranges A) ->
  free_blocks_from_ A h n = (A', h') ->
  blocks_ok (block_size_ A') (block_ranges A') h' /\
  block_size_ A' = block_size_ A /\
  block_ranges A' = take n (block_ranges A) /\
  retained_bytes_ A' = total_len (block_ranges A').
Proof.
  intros Hs Hb Hr H. unfold free_blocks_from_ in H.
  pose proof (blocks_in_limit _ _ _ Hs Hb) as Hlim.
  pose proof (blocks_total _ _ _ Hs Hb) as Htot.
  assert (Hnn : Forall (fun r : range => 0 <= r.2) (block_ranges A)).
  { eapply Forall_impl; [exact Hlim|]. simpl; intros; lia. }
  pose proof (free_blocks_retained (drop n (block_ranges A)) (retained_bytes_ A) h
                (Forall_drop _ n _ Hnn)) as Hret.
  pose proof (free_blocks_heap (drop n (block_ranges A)) (retained_bytes_ A) h) as Hheap.
  destruct (free_blocks _ _ _) as [r h1]. injection H as <- <-. simpl in *.
  assert (Hsum : total_len (block_ranges A)
                 = total_len (take n (block_ranges A)) + total_len (drop n (block_ranges A))).
  { by rewrite <- total_len_app, take_drop. }
  pose proof (total_len_nonneg _ (Forall_take _ n _ Hnn)).
  split_and!; auto; [|lia].
  eapply blocks_ok_weaken; [|by apply blocks_ok_take].
  intros b Hb1 Hb2. apply Hheap. split; [done|].
  apply list_elem_of_lookup in Hb1 as [i Hi]. apply lookup_take_Some in Hi as [Hi Hin].
  apply Forall_lookup_2. intros j c Hj. rewrite lookup_drop in Hj.
  assert (Hd : rdisj b c) by (eapply (pairwise_lookup rdisj); [apply Hb|exact Hi|exact Hj|lia]).
  pose proof (blocks_bytes_pos _ _ _ _ _ Hs Hb Hi).
  pose proof (blocks_bytes_pos _ _ _ _ _ Hs Hb Hj). unfold rdisj in Hd. lia.
Qed.

Lemma end_epoch_ok A h A' h' :
  arena_inv A h -> end_epoch_ A h = (A', h') ->
  arena_inv A' h' /\ total_allocated A' = 0 /\ cur_index_ A' = 0%nat /\ offset_ A' = 0 /\
  has_open_epoch_ A' = false /\
  (retained_bytes_ A' <= RETAINED_BYTES_LIMIT \/ block_count_ A' = 1%nat).
Proof.
  intros [Hs Hb Hc Ho Hr Hbef] H. unfold end_epoch_ in H.
  assert (Hstep : exists A1 h1,
     (if RETAINED_BYTES_LIMIT <? retained_bytes_ A then free_blocks_from_ A h 1 else (A, h)) = (A1, h1)
     /\ blocks_ok (block_size_ A1) (block_ranges A1) h1 /\ block_size_ A1 = block_size_ A
     /\ retained_bytes_ A1 = total_len (block_ranges A1)
     /\ (retained_bytes_ A1 <= RETAINED_BYTES_LIMIT \/ block_count_ A1 = 1%nat)
     /\ (0 < length (block_ranges A1))%nat).
  { apply lookup_lt_Some in Hc.
    destruct (Z.ltb_spec RETAINED_BYTES_LIMIT (retained_bytes_ A)) as [Hgt|Hle].
    - destruct (free_blocks_from_ A h 1) as [A1 h1] eqn:Hf.
      destruct (free_blocks_from_ok _ _ _ _ _ Hs Hb Hr Hf) as (? & ? & Ht & ?).
      exists A1, h1. unfold block_count_. rewrite Ht, length_take in *. split_and!; auto; lia.
    - exists A, h. split_and!; auto; lia. }
  destruct Hstep as (A1 & h1 & E & Hb1 & Hs1 & Hr1 & Hlim & Hlen).
  rewrite E in H. clear E.
  destruct (block_ranges A1) as [|b brs] eqn:Hbr; [simpl in Hlen; lia|].
  injection H as <- <-. rewrite <- Hbr in *. unfold total_allocated, block_count_ in *. simpl.
  rewrite Hbr in *. simpl. rewrite <- Hbr in *.
  assert (Hsz1 : 1 <= block_size_ A1 < 2 ^ 64) by lia.
  assert (Hb0 : block_ranges A1 !! 0%nat = Some b) by by rewrite Hbr.
  pose proof (blocks_bytes_pos _ _ _ _ _ Hsz1 Hb1 Hb0).
  split_and!; auto; [|by rewrite Hbr in Hlim].
  split; simpl; auto; [|lia|lia]. by destruct b.
Qed.
End Epochs.

(** ** Reachable arenas *)

Section Reach.
Context `{M : Malloc, !MallocOk M}.
#[local] Set Default Proof Using "Type*".

(** The arenas that a program can reach: a new arena, an allocation whose size
    and alignment are together at most 2^63 bytes, the start and the end of an
    epoch, and any change of the heap by other code that leaves the blocks of the
    arena alone. *)
Inductive arena_reach : Arena -> heap -> Prop :=
| reach_new h size A h' :
    size < 2 ^ 64 -> new_arena h size = Ok (A, h') -> arena_reach A h'
| reach_alloc A h s a p A' h' :
    arena_reach A h -> good_req s a -> alloc A h s a = Ok (p, A', h') -> arena_reach A' h'
| reach_open A h A' e :
    arena_reach A h -> open_epoch A = Ok (A', e) -> arena_reach A' h
| reach_end A h e A' h' e' :
    arena_reach A h -> epoch_end A h e = Ok (A', h', e') -> arena_reach A' h'
| reach_env A h h' :
    arena_reach A h -> (forall b, b ∈ block_ranges A -> b ∈ h') -> arena_reach A h'.

Lemma arena_reach_inv A h : arena_reach A h -> arena_inv A h.
Proof.
  induction 1 as [h size A h' Hlt H|A h s a p A' h' _ IH Hreq H|A h A' e _ IH H
                 |A h e A' h' e' _ IH H|A h h' _ IH Hsub].
  - by eapply new_arena_inv.
  - by eapply ap_inv, alloc_ok_post.
  - unfold open_epoch in H. repeat case_match; inv_ok. simplify_eq.
    destruct IH. by split.
  - unfold epoch_end in H. destruct (is_open_ e); [|done].
    destruct (end_epoch_ A h) as [A1 h1] eqn:E. simplify_eq.
    by eapply end_epoch_ok.
  - destruct IH as [? Hb]. split; auto.
    eapply blocks_ok_weaken; [|exact Hb]. auto.
Qed.

Lemma alloc_seq_post A h reqs ps A' h' :
  arena_inv A h -> Forall (fun r => good_req r.1 r.2) reqs ->
  alloc_seq A h reqs = Ok (ps, A', h') ->
  arena_inv A' h' /\
  pairwise rdisj (zip ps reqs.*1) /\
  Forall (fun r => Forall (rdisj r) (used A)) (zip ps reqs.*1) /\
  Forall (fun r => exists b, b ∈ block_ranges A' /\ rinside r b) (zip ps reqs.*1) /\
  Forall2 (fun p r => p mod r.2 = 0) ps reqs /\
  block_ranges A `prefix_of` block_ranges A'.
Proof.
  intros Hinv Hreqs. revert A h ps Hinv.
  induction Hreqs as [|[s a] reqs Hreq Hreqs IH]; intros A h ps Hinv H; simpl in H.
  { simplify_eq. split_and!; simpl; auto. }
  apply rbind_ok in H as ([[p A1] h1] & Ha & H).
  apply rbind_ok in H as ([[ps1 A2] h2] & Hs & H). simplify_eq.
  destruct (alloc_ok_post _ _ _ _ _ _ _ Hinv Hreq Ha) as [Hi _ Hal Hfr (u & Hu & Hin) Hpre Hgr].
  destruct (IH A1 h1 ps1 Hi Hs) as (Hi2 & Hpw & Hused & Hblk & Hmod & Hpre2). simpl.
  split_and!; auto; [| | |by etransitivity].
  - eapply Forall_impl; [exact Hused|]. intros r Hr. rewrite Forall_forall in Hr.
    eapply rdisj_inside; [exact Hin|]. symmetry. by apply Hr.
  - constructor; [exact Hfr|]. eapply Forall_impl; [exact Hused|].
    intros r Hr. apply Forall_forall. intros v Hv. destruct (Hgr v Hv) as (v' & Hv' & Hin').
    symmetry. eapply rdisj_inside; [exact Hin'|]. symmetry. rewrite Forall_forall in Hr. auto.
  - constructor; [|exact Hblk].
    destruct (used_in_block _ _ _ Hi Hu) as (k & b & _ & Hb & Hub). exists b. split.
    + destruct Hpre2 as [tl ->]. apply elem_of_app. left. by eapply list_elem_of_lookup_2.
    + unfold rinside in *. simpl in *. lia.
Qed.

Lemma alloc_fatal A h s a why :
  arena_inv A h -> alloc A h s a = Fatal why -> why = why_no_memory.
Proof.
  intros [Hs Hb _ _ _ _]. unfold alloc. case_match; [done|]. unfold alloc_slow_.
  destruct (enter_block_ _ _ _ _) as [[A1 h1]|w] eqn:E; simpl; [done|].
  intros [= <-]. by eapply enter_block_fatal.
Qed.

(** ** Properties *)

(** C29: when the size and the alignment of each request are together at most
    2^63 bytes (the size positive and the alignment a power of two, as their
    types say), every allocation that an arena returns between two epoch ends is
    disjoint from every other one and from the bytes in use before, starts at a
    multiple of its alignment, and lies inside one block of the arena, which is
    a live allocation of the heap. *)
Theorem arena_allocations_disjoint A h reqs ps A' h' :
  arena_reach A h -> Forall (fun r => 0 < r.1 /\ r.1 + r.2 <= 2 ^ 63 /\ exists k, 0 <= k /\ r.2 = 2 ^ k) reqs ->
  alloc_seq A h reqs = Ok (ps, A', h') ->
  pairwise rdisj (zip ps reqs.*1) /\
  Forall (fun r => Forall (rdisj r) (used A)) (zip ps reqs.*1) /\
  Forall (fun r => exists b, b ∈ h' /\ rinside r b) (zip ps reqs.*1) /\
  Forall2 (fun p r => p mod r.2 = 0) ps reqs.
Proof.
  intros Hr Hreqs H. apply arena_reach_inv in Hr.
  destruct (alloc_seq_post _ _ _ _ _ _ Hr Hreqs H) as (Hi & ? & ? & Hb & ? & _).
  split_and!; auto. eapply Forall_impl; [exact Hb|]. intros r (b & Hin & ?).
  exists b. split; [|done]. apply list_elem_of_lookup in Hin as [k Hk].
  by destruct (bo_block _ _ _ (inv_blocks _ _ Hi) k b Hk) as (_ & _ & _ & _ & ?).
Qed.

(** The only way an allocation ends the process is that the host has no
    memory: the limit of 64 blocks is unreachable, and so is any other stop. *)
Theorem arena_alloc_fails_only_without_memory A h s a why :
  arena_reach A h -> alloc A h s a = Fatal why -> why = why_no_memory.
Proof. intros Hr. apply alloc_fatal. by apply arena_reach_inv. Qed.

(** The end of an epoch leaves an empty arena with at most
    RETAINED_BYTES_LIMIT bytes or one block, and the next epoch can open. *)
Theorem arena_epoch_end_reopens A h e A' h' e' :
  arena_reach A h -> epoch_end A h e = Ok (A', h', e') ->
  total_allocated A' = 0 /\
  (retained_bytes_ A' <= RETAINED_BYTES_LIMIT \/ block_count_ A' = 1%nat) /\
  is_open_ e' = false /\
  exists A2, open_epoch A' = Ok (A2, {| is_open_ := true |}).
Proof.
  intros Hr%arena_reach_inv H. unfold epoch_end in H. destruct (is_open_ e); [|done].
  destruct (end_epoch_ A h) as [A1 h1] eqn:E. simplify_eq.
  destruct (end_epoch_ok _ _ _ _ Hr E) as (_ & ? & Hc & Ho & He & ?).
  split_and!; auto. unfold open_epoch. rewrite He, Hc, Ho. simpl. eauto.
Qed.

(** A size of SIZE_MAX does not fail.  alloc_array saturates an overflowing
    count to SIZE_MAX; in a block where the next aligned offset [o] is not zero,
    the sum [o + SIZE_MAX] wraps to [o - 1], the fit test passes, and alloc
    returns a pointer and moves the offset back by one. *)
Theorem arena_alloc_saturated_size_wraps A h sz n o :
  arena_reach A h -> 1 < sz -> 2 ^ 64 <= n * sz ->
  offset_ A = o -> o mod 16 = 0 -> 0 < o ->
  alloc_array A h sz 16 n = Ok (cur_block_ A + o, set_offset A (o - 1), h).
Proof.
  intros Hr%arena_reach_inv Hsz Hn Ho Hm Hpos. unfold alloc_array.
  destruct (Z.eqb_spec n 0) as [->|_]; [lia|].
  unfold mul_sat. destruct (Z.ltb_spec (n * sz) (2 ^ 64)) as [|_]; [lia|].
  pose proof (arena_cur_block _ _ Hr) as (Hp & Hlim & _).
  pose proof (inv_off _ _ Hr) as Hoff. subst o. unfold alloc.
  destruct Hr as [_ Hb Hc _ _ _]. destruct (bo_block _ _ _ Hb _ _ Hc) as (_ & Hal & _).
  simpl in Hal. rewrite (wrap_small 64 (cur_block_ A + offset_ A)) by lia.
  destruct (align_up_spec (cur_block_ A + offset_ A) 16 4) as [Hup Hupm]; try lia.
  assert (Hex : align_up (cur_block_ A + offset_ A) 16 = cur_block_ A + offset_ A).
  { apply Z.mod_divide in Hal as [x Hx], Hm as [y Hy], Hupm as [z Hz]; lia. }
  rewrite Hex, (wrap_small 64 (cur_block_ A + offset_ A - cur_block_ A)) by lia.
  replace (cur_block_ A + offset_ A - cur_block_ A) with (offset_ A) by lia.
  assert (Hw : (offset_ A ⊞ (2 ^ 64 - 1))%u64 = offset_ A - 1).
  { unfold wrap. replace (offset_ A + (2 ^ 64 - 1)) with (offset_ A - 1 + 1 * 2 ^ 64) by lia.
    rewrite Z_mod_plus_full. apply Z.mod_small. lia. }
  rewrite Hw. destruct (Z.leb_spec (offset_ A - 1) (end_offset_ A)) as [_|]; [|lia].
  by rewrite wrap_small by lia.
Qed.
End Reach.

(** ** A concrete malloc, and the properties on it

    It gives the first multiple of 16 past every live allocation. *)
Definition bump_top (h : heap) : Z := foldr (fun r t => Z.max (r.1 + r.2) t) 16 h.

#[export] Instance bump_malloc : Malloc := fun h n =>
  let p := (bump_top h + 15) / 16 * 16 in
  if p + n <=? 2 ^ 63 then Some p else None.

Lemma bump_top_ge h : 16 <= bump_top h /\ Forall (fun r : range => r.1 + r.2 <= bump_top h) h.
Proof.
  unfold bump_top. induction h as [|r h [IH1 IH2]]; simpl; [by split|]. split; [lia|].
  constructor; [lia|]. eapply Forall_impl; [exact IH2|]. intros c Hc. simpl in Hc. lia.
Qed.

#[export] Instance bump_malloc_ok : MallocOk bump_malloc.
Proof.
  assert (Hp : forall h, bump_top h <= (bump_top h + 15) / 16 * 16).
  { intros h. pose proof (Z.div_mod (bump_top h + 15) 16).
    pose proof (Z.mod_pos_bound (bump_top h + 15) 16). lia. }
  split; unfold malloc, bump_malloc; intros h n p; specialize (Hp h);
    destruct (bump_top_ge h) as [H16 Hall]; case_match; intros; simplify_eq; reflect_bools.
  - lia.
  - apply Z.mod_mul. lia.
  - lia.
  - eapply Forall_impl; [exact Hall|]. intros r Hr. right. simpl in *. lia.
Qed.

Definition ok_or {A} (d : A) (m : result A) : A := match m with Ok a => a | Fatal _ => d end.

(** An arena of 64-byte blocks, and the same arena after one allocation. *)
Definition wit_arena : Arena * heap := ok_or (empty_arena 0, []) (new_arena [] 64).
Definition wit_arena16 : Arena * heap :=
  match alloc wit_arena.1 wit_arena.2 16 16 with
  | Ok (_, A, h) => (A, h) | Fatal _ => wit_arena end.

Lemma wit_reach : arena_reach wit_arena.1 wit_arena.2.
Proof. apply (reach_new [] 64); vm_compute; reflexivity. Qed.

Lemma wit_reach16 : arena_reach wit_arena16.1 wit_arena16.2.
Proof.
  apply (reach_alloc wit_arena.1 wit_arena.2 16 16 16); [apply wit_reach| |vm_compute; reflexivity].
  split_and!; [lia|lia|]. exists 4. lia.
Qed.

Lemma arena_allocations_disjoint_witness :
  pairwise rdisj (zip [16; 80; 180] [24; 100; 8]) /\
  Forall2 (fun p r => p mod r.2 = 0) [16; 80; 180] [(24, 8); (100, 16); (8, 4)].
Proof.
  destruct (arena_allocations_disjoint wit_arena.1 wit_arena.2
              [(24, 8); (100, 16); (8, 4)] [16; 80; 180]
              (match alloc_seq wit_arena.1 wit_arena.2 [(24, 8); (100, 16); (8, 4)] with
               | Ok (_, A, _) => A | Fatal _ => wit_arena.1 end)
              (match alloc_seq wit_arena.1 wit_arena.2 [(24, 8); (100, 16); (8, 4)] with
               | Ok (_, _, h) => h | Fatal _ => [] end)) as (H1 & _ & _ & H2).
  - apply wit_reach.
  - repeat constructor; simpl; try lia; [exists 3|exists 4|exists 2]; lia.
  - vm_compute. reflexivity.
  - exact (conj H1 H2).
Defined.

Lemma arena_alloc_fails_only_without_memory_witness :
  alloc wit_arena.1 wit_arena.2 (2 ^ 63) 16 = Fatal why_no_memory /\
  why_no_memory = why_no_memory.
Proof.
  assert (H : alloc wit_arena.1 wit_arena.2 (2 ^ 63) 16 = Fatal why_no_memory)
    by (vm_compute; reflexivity).
  split; [exact H|].
  exact (arena_alloc_fails_only_without_memory _ _ _ _ _ wit_reach H).
Defined.

Definition wit_epoch : Arena := match open_epoch wit_arena.1 with
  | Ok (A, _) => A | Fatal _ => wit_arena.1 end.

Lemma arena_epoch_end_reopens_witness :
  exists A' h' e', epoch_end wit_epoch wit_arena.2 {| is_open_ := true |} = Ok (A', h', e') /\
  total_allocated A' = 0 /\ is_open_ e' = false.
Proof.
  eexists _, _, _. split; [vm_compute; reflexivity|].
  destruct (arena_epoch_end_reopens wit_epoch wit_arena.2 {| is_open_ := true |}
              (ok_or wit_epoch (let* '(A, _, _) := epoch_end wit_epoch wit_arena.2 {| is_open_ := true |} in Ok A))
              (ok_or [] (let* '(_, h, _) := epoch_end wit_epoch wit_arena.2 {| is_open_ := true |} in Ok h))
              {| is_open_ := false |}) as (H1 & _ & H2 & _).
  - apply (reach_open wit_arena.1 wit_arena.2 _ {| is_open_ := true |}); [apply wit_reach|].
    vm_compute. reflexivity.
  - vm_compute. reflexivity.
  - split; [exact H1|exact H2].
Defined.

Lemma arena_alloc_saturated_size_wraps_witness :
  alloc_array wit_arena16.1 wit_arena16.2 8 16 (2 ^ 61)
  = Ok (32, set_offset wit_arena16.1 15, wit_arena16.2).
Proof.
  apply (arena_alloc_saturated_size_wraps wit_arena16.1 wit_arena16.2 8 (2 ^ 61) 16
           wit_reach16); vm_compute; try reflexivity; discriminate.
Defined.
