(* ===== verification/MemoryPlan.v ===== *)
(** * MemoryPlan.v: the static memory plan
    (BackgroundThread::compute_memory_plan, src/BackgroundThread.cpp, and
    live_intervals_disjoint_at, include/crucible/MerkleDag.h)

    The plan gives each internal slot an offset in one pool.  The slots are
    bucketed by birth and by death with a counting sort; a sweep over the ops
    gives the bytes of the slots that die to the slots that are born, first by
    a best-fit match inside the op, then through a first-fit free list.

    The arrays of the sweep are lists; the free list, which keeps offsets and
    sizes in two arrays of which only the first free_list_count elements are
    read, is one list of ranges of that length. *)

From stdpp Require Import base list strings.
From Stdlib Require Import ZArith Lia.
From S2P Require Import Prelude Types.
#[local] Open Scope Z_scope.
#[local] Open Scope result_scope.

Definition PLAN_ALIGNMENT : Z := 256.
Definition MAX_DEATH_OP : Z := UINT32_MAX - 3.
Definition MAX_FREE : Z := 4096.
Definition MAX_PER_OP : nat := 64.

(** [(nbytes + ALIGNMENT - 1) & ~uint64_t(ALIGNMENT - 1)] *)
Definition aligned_size (n : Z) : Z :=
  Z.land (n ⊞ PLAN_ALIGNMENT ⊟ 1)%u64 (lnot64 (PLAN_ALIGNMENT - 1)).

(** ** The scan: counts, device, sweep range and the checks of the lifetimes *)

Record scan_state := mkScan {
  sc_external : Z;
  sc_device_type : DeviceType;
  sc_device_idx : Z;
  sc_max_op : Z;
}.

Definition scan_slot (sc : scan_state) (s : TensorSlot) : result scan_state :=
  if is_external s then
    Ok {| sc_external := u32 (sc_external sc + 1); sc_device_type := sc_device_type sc;
          sc_device_idx := sc_device_idx sc; sc_max_op := sc_max_op sc |}
  else
    let* _ := require (birth_op s <=? death_op s) "birth_op <= death_op" in
    let* _ := require (death_op s <=? MAX_DEATH_OP) "death_op <= MAX_DEATH_OP" in
    let take_device := bool_decide (sc_device_type sc = CPU)
                       && negb (bool_decide (slot_device_type s = CPU)) in
    let next := u32 (death_op s + 1) in
    Ok {| sc_external := sc_external sc;
          sc_device_type := if take_device then slot_device_type s else sc_device_type sc;
          sc_device_idx := if take_device then slot_device_idx s else sc_device_idx sc;
          sc_max_op := if sc_max_op sc <? next then next else sc_max_op sc |}.

Fixpoint scan_slots (sc : scan_state) (slots : list TensorSlot) : result scan_state :=
  match slots with
  | [] => Ok sc
  | s :: slots => let* sc := scan_slot sc s in scan_slots sc slots
  end.

(** ** The counting sort of the births and of the deaths *)

Definition bump (a : list Z) (i : Z) : list Z := aset a i (u32 (aget 0 a i + 1)).

Definition free_at (s : TensorSlot) : Z := u32 (death_op s + 1).

Fixpoint count_events (num_ops : Z) (slots : list TensorSlot) (bc dc : list Z)
    : list Z * list Z :=
  match slots with
  | [] => (bc, dc)
  | s :: slots =>
      if is_external s then count_events num_ops slots bc dc
      else
        let bc := bump bc (birth_op s) in
        let dc := if free_at s <? num_ops then bump dc (free_at s) else dc in
        count_events num_ops slots bc dc
  end.

(** birth_off and death_off: the sums of the counts before each op, and the
    total at the end. *)
Fixpoint prefix_offsets (acc : Z) (counts : list Z) : list Z :=
  match counts with
  | [] => [acc]
  | c :: counts => acc :: prefix_offsets (u32 (acc + c)) counts
  end.

Record scatter_state := mkScatter {
  born_slots : list Z;
  dead_slots : list Z;
  birth_cur : list Z;
  death_cur : list Z;
}.

Fixpoint scatter (num_ops : Z) (slots : list TensorSlot) (id : Z) (st : scatter_state)
    : scatter_state :=
  match slots with
  | [] => st
  | s :: slots =>
      let st :=
        if is_external s then st
        else
          let born := aset (born_slots st) (aget 0 (birth_cur st) (birth_op s)) id in
          let bcur := bump (birth_cur st) (birth_op s) in
          if free_at s <? num_ops then
            {| born_slots := born;
               dead_slots := aset (dead_slots st) (aget 0 (death_cur st) (free_at s)) id;
               birth_cur := bcur; death_cur := bump (death_cur st) (free_at s) |}
          else
            {| born_slots := born; dead_slots := dead_slots st;
               birth_cur := bcur; death_cur := death_cur st |} in
      scatter num_ops slots (id + 1) st
  end.

(** Elements [b, e) of an array. *)
Definition segment {A} (a : list A) (b e : Z) : list A :=
  take (Z.to_nat (e - b)) (drop (Z.to_nat b) a).

(** ** The sweep *)

Record sweep := mkSweep {
  sw_slots : list TensorSlot;
  free_list : list range;
  pool_end : Z;
}.

Definition dummy_slot : TensorSlot :=
  {| offset_bytes := 0; nbytes := 0; birth_op := none32; death_op := none32;
     slot_dtype := UndefinedType; slot_device_type := CPU; slot_device_idx := -1;
     slot_layout := Strided; is_external := false; slot_id := none32 |}.

Definition slot_at (slots : list TensorSlot) (id : Z) : TensorSlot := aget dummy_slot slots id.

Definition put_offset (slots : list TensorSlot) (id o : Z) : list TensorSlot :=
  aset slots id (set_slot_offset (slot_at slots id) o).

Definition free_block (st : sweep) (offset size : Z) : sweep :=
  if Z.of_nat (length (free_list st)) <? MAX_FREE then
    {| sw_slots := sw_slots st; free_list := free_list st ++ [(offset, size)];
       pool_end := pool_end st |}
  else st.

(** The first free block of at least [size] bytes. *)
Fixpoint first_fit (fl : list range) (size : Z) : option nat :=
  match fl with
  | [] => None
  | b :: fl => if size <=? b.2 then Some 0%nat else S <$> first_fit fl size
  end.

(** Moves the last element over element [f] and drops the last. *)
Definition swap_remove (fl : list range) (f : nat) : list range :=
  let count := (length fl - 1)%nat in
  take count (<[f := default (0, 0) (fl !! count)]> fl).

Definition alloc_slot (st : sweep) (s size : Z) : sweep :=
  match first_fit (free_list st) size with
  | Some f =>
      let b := default (0, 0) (free_list st !! f) in
      {| sw_slots := put_offset (sw_slots st) s b.1;
         free_list := if b.2 =? size then swap_remove (free_list st) f
                      else <[f := ((b.1 ⊞ size)%u64, (b.2 ⊟ size)%u64)]> (free_list st);
         pool_end := pool_end st |}
  | None =>
      {| sw_slots := put_offset (sw_slots st) s (pool_end st);
         free_list := free_list st;
         pool_end := (pool_end st ⊞ size)%u64 |}
  end.

(** DyingInfo: the offset and the aligned size of a dying slot. *)
Definition dying_info (slots : list TensorSlot) (id : Z) : range :=
  (offset_bytes (slot_at slots id), aligned_size (nbytes (slot_at slots id))).

(** The dying slot that fits with the least waste, the first one on a tie. *)
Fixpoint best_fit (infos : list range) (consumed : list bool) (size : Z) (idx : nat)
    (best : option nat) (best_waste : Z) : option nat * Z :=
  match infos, consumed with
  | d :: infos, c :: consumed =>
      if negb c && (size <=? d.2) && (d.2 - size <? best_waste)
      then best_fit infos consumed size (S idx) (Some idx) (d.2 - size)
      else best_fit infos consumed size (S idx) best best_waste
  | _, _ => (best, best_waste)
  end.

(** The match loop over the born slots.  The result is the state,
    dying_consumed, and born_assigned for the born slots of the loop. *)
Fixpoint match_born (infos : list range) (born : list Z) (st : sweep)
    (consumed : list bool) : sweep * list bool * list bool :=
  match born with
  | [] => (st, consumed, [])
  | b :: born =>
      let size := aligned_size (nbytes (slot_at (sw_slots st) b)) in
      match best_fit infos consumed size 0 None UINT64_MAX with
      | (Some i, waste) =>
          let o := (default (0, 0) (infos !! i)).1 in
          let st1 := {| sw_slots := put_offset (sw_slots st) b o;
                        free_list := free_list st; pool_end := pool_end st |} in
          let st2 := if 0 <? waste then free_block st1 (o ⊞ size)%u64 waste else st1 in
          let '(st3, consumed, assigned) := match_born infos born st2 (<[i := true]> consumed) in
          (st3, consumed, true :: assigned)
      | (None, _) =>
          let '(st3, consumed, assigned) := match_born infos born st consumed in
          (st3, consumed, false :: assigned)
      end
  end.

(** The dying slots that no born slot took go to the free list. *)
Fixpoint free_dying (st : sweep) (dying : list Z) (consumed : list bool) : sweep :=
  match dying with
  | [] => st
  | d :: dying =>
      let '(c, cs) := match consumed with c :: cs => (c, cs) | [] => (false, []) end in
      if c then free_dying st dying cs
      else
        let i := dying_info (sw_slots st) d in
        free_dying (free_block st i.1 i.2) dying cs
  end.

(** The born slots with no match get bytes from the free list or the pool. *)
Fixpoint alloc_born (st : sweep) (born : list Z) (assigned : list bool) : sweep :=
  match born with
  | [] => st
  | b :: born =>
      let '(c, cs) := match assigned with c :: cs => (c, cs) | [] => (false, []) end in
      if c then alloc_born st born cs
      else alloc_born (alloc_slot st b (aligned_size (nbytes (slot_at (sw_slots st) b)))) born cs
  end.

Definition sweep_op (dying born : list Z) (st : sweep) : sweep :=
  let dcap := take MAX_PER_OP dying in
  let bcap := take MAX_PER_OP born in
  let '(st, consumed, assigned) :=
    if (0 <? length dcap)%nat && (0 <? length bcap)%nat
    then match_born (dying_info (sw_slots st) <$> dcap) bcap st (replicate MAX_PER_OP false)
    else (st, replicate MAX_PER_OP false, []) in
  alloc_born (free_dying st dying consumed) born assigned.

(** The loop over the ops; [ops] counts up from [op]. *)
Fixpoint sweep_ops (ops : nat) (op : Z) (death_off birth_off dead born : list Z) (st : sweep)
    : sweep :=
  match ops with
  | O => st
  | S ops =>
      let st := sweep_op
        (segment dead (aget 0 death_off op) (aget 0 death_off (op + 1)))
        (segment born (aget 0 birth_off op) (aget 0 birth_off (op + 1))) st in
      sweep_ops ops (op + 1) death_off birth_off dead born st
  end.

Definition compute_memory_plan (rank world_size capability : Z) (slots : list TensorSlot)
    : result MemoryPlan :=
  let n := Z.of_nat (length slots) in
  let plan dt di ext pool slots :=
    {| plan_slots := slots; pool_bytes := pool; num_slots := n; num_external := ext;
       plan_device_type := dt; plan_device_idx := di; device_capability := capability;
       plan_rank := rank; plan_world_size := world_size |} in
  if n =? 0 then Ok (plan CPU (-1) 0 0 slots)
  else
    let* sc := scan_slots {| sc_external := 0; sc_device_type := CPU; sc_device_idx := -1;
                             sc_max_op := 0 |} slots in
    let num_internal := u32 (n - sc_external sc) in
    if num_internal =? 0 then
      Ok (plan (sc_device_type sc) (sc_device_idx sc) (sc_external sc) 0 slots)
    else
      let num_ops := u32 (sc_max_op sc + 1) in
      let zeros := replicate (Z.to_nat num_ops) 0 in
      let '(bc, dc) := count_events num_ops slots zeros zeros in
      let birth_off := prefix_offsets 0 bc in
      let death_off := prefix_offsets 0 dc in
      let sct := scatter num_ops slots 0
        {| born_slots := replicate (Z.to_nat num_internal) 0;
           dead_slots := replicate (Z.to_nat num_internal) 0;
           birth_cur := take (Z.to_nat num_ops) birth_off;
           death_cur := take (Z.to_nat num_ops) death_off |} in
      let st := sweep_ops (Z.to_nat num_ops) 0 death_off birth_off
                  (dead_slots sct) (born_slots sct)
                  {| sw_slots := slots; free_list := []; pool_end := 0 |} in
      Ok (plan (sc_device_type sc) (sc_device_idx sc) (sc_external sc) (pool_end st) (sw_slots st)).
