(* ===== verification/PlanSweep.v ===== *)
(** * PlanSweep.v: the counting sort and the sweep of the memory plan

    The births and the deaths of the slots are events [(id, op)].  Counting,
    prefix sums and the scatter put the ids of the events of one op in one
    segment, in the order of the slots: the segment equals the filter of the
    events.  The second part is the invariant of the sweep with its free
    list. *)

From stdpp Require Import base list strings.
From Stdlib Require Import ZArith Lia.
From S2P Require Import Prelude.
From S2P Require Import Types.
From S2P Require Import MemoryPlan.
#[local] Open Scope Z_scope.

(** An event: a payload and its key.  The planner sorts the ids of the slots,
    the trace graph sorts its edges. *)
Abbreviation event A := (A * Z)%type.

Section Sort.
Context {A : Type}.
Implicit Types evs : list (event A).

Definition count_keys (a : list Z) evs : list Z := foldl (fun a e => bump a e.2) a evs.

Definition scatter_keys (oc : list A * list Z) evs : list A * list Z :=
  foldl (fun oc e => (aset oc.1 (aget 0 oc.2 e.2) e.1, bump oc.2 e.2)) oc evs.

(** The reference: the ids of the events of op [k], in order. *)
Definition bucket evs (k : Z) : list A := (filter (fun e : event A => e.2 = k) evs).*1.

Definition cnt evs (k : Z) : Z := Z.of_nat (length (bucket evs k)).
Definition offs evs (k : Z) : Z := Z.of_nat (length (filter (fun e : event A => e.2 < k) evs)).

Definition keys_in (m : Z) evs : Prop := Forall (fun e : event A => 0 <= e.2 < m) evs.

Lemma bucket_app evs evs' k : bucket (evs ++ evs') k = bucket evs k ++ bucket evs' k.
Proof. unfold bucket. by rewrite filter_app, fmap_app. Qed.

Lemma bucket_cons e evs k :
  bucket (e :: evs) k = if decide (e.2 = k) then e.1 :: bucket evs k else bucket evs k.
Proof. unfold bucket. rewrite filter_cons. by case_decide. Qed.

Lemma cnt_le evs k : 0 <= cnt evs k <= Z.of_nat (length evs).
Proof.
  unfold cnt, bucket. rewrite length_fmap.
  pose proof (length_filter (fun e : event A => e.2 = k) evs). lia.
Qed.

Lemma cnt_app evs evs' k : cnt (evs ++ evs') k = cnt evs k + cnt evs' k.
Proof. unfold cnt. rewrite bucket_app, length_app. lia. Qed.

Lemma offs_le evs k : 0 <= offs evs k <= Z.of_nat (length evs).
Proof.
  unfold offs. pose proof (length_filter (fun e : event A => e.2 < k) evs). lia.
Qed.

Lemma offs_succ evs k : offs evs (k + 1) = offs evs k + cnt evs k.
Proof.
  unfold offs, cnt, bucket. rewrite length_fmap.
  induction evs as [|e evs IH]; [done|]. rewrite !filter_cons.
  repeat case_decide; simpl in *; lia.
Qed.

Lemma offs_mono evs j k : j <= k -> offs evs j <= offs evs k.
Proof.
  intros Hjk. unfold offs. induction evs as [|e evs IH]; [done|].
  rewrite !filter_cons. repeat case_decide; simpl in *; lia.
Qed.

Lemma offs_0 m evs : keys_in m evs -> offs evs 0 = 0.
Proof.
  unfold offs. induction 1 as [|e evs He Hevs IH]; [done|].
  rewrite filter_cons, decide_False by lia. done.
Qed.

Lemma length_bump a i : length (bump a i) = length a.
Proof. apply length_aset. Qed.

Lemma length_count_keys a evs : length (count_keys a evs) = length a.
Proof.
  revert a. induction evs as [|e evs IH]; intros a; simpl; [done|].
  unfold count_keys in *. by rewrite IH, length_bump.
Qed.

(** Counting adds the number of events of each op. *)
Lemma count_keys_spec m evs a k :
  keys_in m evs -> Z.of_nat (length a) = m -> 0 <= k < m ->
  0 <= aget 0 a k -> aget 0 a k + cnt evs k < 2 ^ 32 ->
  aget 0 (count_keys a evs) k = aget 0 a k + cnt evs k.
Proof.
  intros Hevs. revert a. induction Hevs as [|e evs He Hevs IH]; intros a Hl Hk H0 Hb.
  { unfold cnt. simpl. lia. }
  assert (Hc : cnt (e :: evs) k = (if decide (e.2 = k) then 1 else 0) + cnt evs k).
  { unfold cnt. rewrite bucket_cons. case_decide; simpl; lia. }
  assert (Hg : aget 0 (bump a e.2) k = aget 0 a k + (if decide (e.2 = k) then 1 else 0)).
  { pose proof (cnt_le evs k). unfold bump. rewrite aget_aset by lia.
    case_decide; subst; rewrite ?wrap_small by lia; lia. }
  unfold count_keys in *. simpl. rewrite IH; rewrite ?length_bump, ?Hg; auto;
    case_decide; lia.
Qed.

Lemma aget_seqZ f (n k : Z) :
  0 <= k < n -> aget 0 (f <$> seqZ 0 n) k = f k.
Proof.
  intros Hk. unfold aget. rewrite list_lookup_fmap, lookup_seqZ_lt by lia. simpl. f_equal. lia.
Qed.

Lemma list_eq_aget (a b : list Z) :
  length a = length b ->
  (forall k, 0 <= k < Z.of_nat (length a) -> aget 0 a k = aget 0 b k) -> a = b.
Proof.
  intros Hl Hk. apply list_eq_same_length with (n := length a); [done|done|].
  intros i x y Hi Ha Hb. specialize (Hk (Z.of_nat i) ltac:(lia)).
  unfold aget in Hk. rewrite !Nat2Z.id, Ha, Hb in Hk. done.
Qed.

Lemma count_keys_zeros m evs :
  0 <= m -> keys_in m evs -> Z.of_nat (length evs) < 2 ^ 32 ->
  count_keys (replicate (Z.to_nat m) 0) evs = cnt evs <$> seqZ 0 m.
Proof.
  intros Hm Hevs Hlen.
  assert (Hz : forall k, aget 0 (replicate (Z.to_nat m) 0) k = 0).
  { intros k. unfold aget. destruct (replicate _ _ !! _) eqn:E; [|done].
    by apply lookup_replicate_1 in E as [-> _]. }
  apply list_eq_aget.
  - rewrite length_count_keys, length_replicate, length_fmap, length_seqZ. done.
  - intros k Hk. rewrite length_count_keys, length_replicate in Hk.
    pose proof (cnt_le evs k).
    rewrite (count_keys_spec m), Hz, aget_seqZ by
      (rewrite ?Hz, ?length_replicate; auto; lia). lia.
Qed.

(** The prefix sums of the counts are the offsets of the segments. *)
Lemma prefix_offsets_spec evs (n i : Z) :
  0 <= n -> Z.of_nat (length evs) < 2 ^ 32 ->
  prefix_offsets (offs evs i) (cnt evs <$> seqZ i n) = offs evs <$> seqZ i (n + 1).
Proof.
  intros Hn Hlen. revert i. pattern n. apply natlike_ind; [..|done].
  - intros i. rewrite (seqZ_cons i (0 + 1)), !seqZ_nil by lia. done.
  - clear n Hn. intros n Hn IH i.
    rewrite (seqZ_cons i (Z.succ n)), (seqZ_cons i (Z.succ n + 1)) by lia. simpl. f_equal.
    pose proof (offs_le evs (i + 1)). rewrite offs_succ in *.
    rewrite wrap_small by lia. rewrite <- offs_succ.
    replace (Z.pred (Z.succ n)) with n by lia.
    replace (Z.pred (Z.succ n + 1)) with (n + 1) by lia. apply IH.
Qed.

(** ** The scatter *)

(** After the events of [P]: each cursor is past the ids of its op, and those
    ids are in place. *)
Record scattered (evs P : list (event A)) (m : Z) (out : list A) (cur : list Z) : Prop := {
  sca_cur k : 0 <= k < m -> aget 0 cur k = offs evs k + cnt P k;
  sca_out k j x : 0 <= k < m -> bucket P k !! j = Some x ->
    out !! Z.to_nat (offs evs k + Z.of_nat j) = Some x;
  sca_len : length cur = Z.to_nat m;
}.

Lemma scattered_step evs P e R m out cur :
  evs = P ++ e :: R -> keys_in m evs -> Z.of_nat (length evs) < 2 ^ 32 ->
  Z.of_nat (length evs) <= Z.of_nat (length out) ->
  scattered evs P m out cur ->
  scattered evs (P ++ [e]) m (aset out (aget 0 cur e.2) e.1) (bump cur e.2).
Proof.
  intros Hevs Hkeys Hlen Hout [Hcur Hin Hcl].
  assert (Hk : 0 <= e.2 < m).
  { unfold keys_in in Hkeys. rewrite Hevs, Forall_app, Forall_cons in Hkeys. tauto. }
  assert (Htot : forall k, cnt P k + (if decide (e.2 = k) then 1 else 0) <= cnt evs k).
  { intros k. rewrite Hevs, cnt_app. unfold cnt at 3. rewrite bucket_cons.
    case_decide; simpl; lia. }
  pose proof (Htot e.2) as He. rewrite decide_True in He by done.
  pose proof (offs_succ evs e.2) as Hsu. pose proof (offs_le evs (e.2 + 1)) as Hle.
  pose proof (offs_le evs e.2) as Hle0. pose proof (cnt_le P e.2) as Hc0.
  split.
  - intros k Hkm. unfold bump. rewrite aget_aset by lia. rewrite cnt_app.
    unfold cnt at 2. rewrite bucket_cons. case_decide; simpl.
    + subst k. rewrite Hcur, wrap_small by lia. lia.
    + rewrite Hcur by lia. simpl. lia.
  - intros k j x Hkm Hj. rewrite Hcur by lia. unfold aset.
    rewrite bucket_app, bucket_cons in Hj. simpl in Hj.
    pose proof (offs_le evs k) as Hlek.
    assert (Hjk : forall y, bucket P k !! j = Some y -> Z.of_nat j < cnt P k).
    { intros y Hy%lookup_lt_Some. unfold cnt. lia. }
    case_decide as Hek.
    + subst k. apply lookup_app_Some in Hj as [Hj|[Hge Hj]].
      * specialize (Hjk _ Hj). rewrite list_lookup_insert_ne by lia. auto.
      * assert (j = length (bucket P e.2)) as ->
          by (apply lookup_lt_Some in Hj; simpl in Hj; lia).
        rewrite Nat.sub_diag in Hj. simplify_eq/=. fold (cnt P e.2).
        rewrite list_lookup_insert_eq by lia. done.
    + rewrite app_nil_r in Hj. specialize (Hjk _ Hj).
      pose proof (Htot k) as Hk2. rewrite decide_False in Hk2 by done.
      pose proof (offs_succ evs k).
      rewrite list_lookup_insert_ne; [auto|].
      destruct (Z.lt_total k e.2) as [Hlt|[?|Hgt]]; [|lia|].
      * pose proof (offs_mono evs (k + 1) e.2). lia.
      * pose proof (offs_mono evs (e.2 + 1) k). lia.
  - unfold bump. by rewrite length_aset.
Qed.

Lemma scatter_keys_scattered evs P R m out cur :
  evs = P ++ R -> keys_in m evs -> Z.of_nat (length evs) < 2 ^ 32 ->
  Z.of_nat (length evs) <= Z.of_nat (length out) ->
  scattered evs P m out cur ->
  scattered evs evs m (scatter_keys (out, cur) R).1 (scatter_keys (out, cur) R).2.
Proof.
  revert P out cur. induction R as [|e R IH]; intros P out cur Hevs Hk Hl Ho Hs.
  { rewrite app_nil_r in Hevs. by subst P. }
  unfold scatter_keys in *. simpl. apply (IH (P ++ [e])); auto.
  - by rewrite <- app_assoc.
  - by rewrite length_aset.
  - by eapply scattered_step.
Qed.

(** The segment of an op holds the ids of its events, in order. *)
Lemma counting_sort_segment (d : A) m evs N k :
  0 <= k < m -> keys_in m evs -> Z.of_nat (length evs) < 2 ^ 32 -> (length evs <= N)%nat ->
  let off := prefix_offsets 0 (count_keys (replicate (Z.to_nat m) 0) evs) in
  let out := (scatter_keys (replicate N d, take (Z.to_nat m) off) evs).1 in
  segment out (aget 0 off k) (aget 0 off (k + 1)) = bucket evs k.
Proof.
  intros Hk Hkeys Hlen HN. cbv zeta.
  rewrite count_keys_zeros by (auto; lia).
  pose proof (prefix_offsets_spec evs m 0 ltac:(lia) Hlen) as Hoff.
  rewrite (offs_0 m evs Hkeys) in Hoff. rewrite Hoff. clear Hoff.
  assert (Htk : take (Z.to_nat m) (offs evs <$> seqZ 0 (m + 1)) = offs evs <$> seqZ 0 m).
  { rewrite seqZ_app, fmap_app, take_app_le by
      (rewrite ?length_fmap, ?length_seqZ; lia).
    apply take_ge. rewrite length_fmap, length_seqZ. lia. }
  rewrite Htk, !aget_seqZ by lia.
  pose proof (scatter_keys_scattered evs [] evs m (replicate N d) (offs evs <$> seqZ 0 m)) as Hs.
  destruct Hs as [_ Hout _]; auto.
  - rewrite length_replicate. lia.
  - split.
    + intros j Hj. rewrite aget_seqZ by lia. unfold cnt. simpl. lia.
    + intros j i x _ Hx. unfold bucket in Hx. simpl in Hx. by rewrite lookup_nil in Hx.
    + by rewrite length_fmap, length_seqZ.
  - set (out := (scatter_keys _ evs).1) in *. pose proof (offs_succ evs k).
    pose proof (offs_le evs k). pose proof (cnt_le evs k).
    unfold segment. apply list_eq. intros i.
    destruct (bucket evs k !! i) as [x|] eqn:Hx.
    + pose proof Hx as Hlt%lookup_lt_Some. fold (cnt evs k) in *.
      unfold cnt in *. rewrite lookup_take_lt, lookup_drop by lia.
      rewrite <- (Hout k i x) by auto. f_equal. lia.
    + apply lookup_ge_None in Hx. apply lookup_ge_None. rewrite length_take.
      unfold cnt in *. lia.
Qed.

End Sort.

(** * One op of the sweep keeps the chunks of the pool disjoint

    A chunk is a range of the pool: the bytes of a live slot or a free block.
    Each step of the sweep moves, splits, drops or adds chunks; [wf] says that
    the chunks are disjoint, aligned and inside the pool, and each lemma carries
    it through one function of the sweep for any frame [X] of other chunks. *)

Definition chunk_ok (E : Z) (c : range) : Prop :=
  0 <= c.1 /\ 0 <= c.2 /\ c.1 + c.2 <= E /\ c.1 mod 256 = 0 /\ c.2 mod 256 = 0.

Definition wf (E : Z) (cs : list range) : Prop := pairwise rdisj cs /\ Forall (chunk_ok E) cs.

#[export] Instance wf_proper E : Proper (Permutation ==> iff) (wf E).
Proof. intros l k HP. unfold wf. by rewrite HP. Qed.

Lemma wf_sublist E cs cs' : cs `sublist_of` cs' -> wf E cs' -> wf E cs.
Proof.
  intros Hs [Hp Hf]. split; [by eapply pairwise_sublist|].
  apply Forall_forall. intros c Hc. rewrite Forall_forall in Hf.
  apply Hf. by eapply elem_of_sublist.
Qed.

Lemma wf_cons_inv E c cs : wf E (c :: cs) -> chunk_ok E c /\ wf E cs.
Proof. intros [[? ?] [? ?]%Forall_cons]. by split; [|split]. Qed.

Lemma wf_split E o n a cs :
  wf E ((o, n) :: cs) -> 0 <= a <= n -> a mod 256 = 0 ->
  wf E ((o, a) :: (o + a, n - a) :: cs).
Proof.
  intros [[Hd Hp] [Hc Hf]%Forall_cons] Ha Hm. unfold chunk_ok in Hc; simpl in Hc.
  assert (Hin : forall a', rinside a' (o, n) -> Forall (rdisj a') cs).
  { intros a' Ha'. eapply Forall_impl; [exact Hd|]. intros c. by apply rdisj_inside. }
  split.
  - simpl. split_and!; auto.
    + constructor; [left; simpl; lia|]. apply Hin. unfold rinside. simpl. lia.
    + apply Hin. unfold rinside. simpl. lia.
  - constructor; [unfold chunk_ok; simpl; lia|].
    constructor; [unfold chunk_ok; simpl; mod_lia|done].
Qed.

Lemma wf_grow E cs a :
  wf E cs -> 0 <= E -> E mod 256 = 0 -> 0 <= a -> a mod 256 = 0 -> wf (E + a) ((E, a) :: cs).
Proof.
  intros [Hp Hf] HE Hm Ha Hma. split.
  - split; [|done]. eapply Forall_impl; [exact Hf|]. intros c Hc. right.
    unfold chunk_ok in Hc. simpl. lia.
  - constructor; [unfold chunk_ok; simpl; lia|]. eapply Forall_impl; [exact Hf|].
    unfold chunk_ok. intros; lia.
Qed.

(** ** Slots: only the offsets change *)

Lemma aligned_size_spec n :
  0 <= aligned_size n < 2 ^ 64 /\ aligned_size n mod 256 = 0.
Proof.
  unfold aligned_size. change (PLAN_ALIGNMENT - 1) with (2 ^ 8 - 1).
  set (y := (_ ⊟ 1)%u64). assert (Hy : 0 <= y < 2 ^ 64) by apply u64_range.
  rewrite land_lnot64_mask by lia. mod_lia.
Qed.

Lemma aligned_size_ge n : 0 <= n <= 2 ^ 64 - 256 -> n <= aligned_size n < n + 256.
Proof.
  intros Hn. unfold aligned_size. change (PLAN_ALIGNMENT - 1) with (2 ^ 8 - 1).
  assert (Hw : (n ⊞ PLAN_ALIGNMENT ⊟ 1)%u64 = n + 255).
  { unfold wrap, PLAN_ALIGNMENT. rewrite Zminus_mod_idemp_l, Z.mod_small; lia. }
  rewrite Hw, land_lnot64_mask by lia. mod_lia.
Qed.

Definition sz (slots : list TensorSlot) (id : Z) : Z := aligned_size (nbytes (slot_at slots id)).
Definition off (slots : list TensorSlot) (id : Z) : Z := offset_bytes (slot_at slots id).

Lemma dying_info_eq slots id : dying_info slots id = (off slots id, sz slots id).
Proof. done. Qed.

Definition valid_id (slots : list TensorSlot) (id : Z) : Prop :=
  0 <= id < Z.of_nat (length slots).

(** [slots'] differs from [slots] at most in the offsets of the slots [ids]. *)
Record frame (ids : list Z) (slots slots' : list TensorSlot) : Prop := {
  fr_len : length slots' = length slots;
  fr_meta j : 0 <= j -> exists o, slot_at slots' j = set_slot_offset (slot_at slots j) o;
  fr_keep j : 0 <= j -> j ∉ ids -> slot_at slots' j = slot_at slots j;
}.

Lemma set_slot_offset_id s : set_slot_offset s (offset_bytes s) = s.
Proof. by destruct s. Qed.

Lemma frame_refl ids slots : frame ids slots slots.
Proof. split; auto. intros j _. exists (off slots j). by rewrite set_slot_offset_id. Qed.

Lemma frame_trans ids1 ids2 ids s1 s2 s3 :
  frame ids1 s1 s2 -> frame ids2 s2 s3 -> (forall x, x ∈ ids1 \/ x ∈ ids2 -> x ∈ ids) ->
  frame ids s1 s3.
Proof.
  intros [L1 M1 K1] [L2 M2 K2] Hsub. split; [congruence| |].
  - intros j Hj. destruct (M1 j Hj) as [o1 E1], (M2 j Hj) as [o2 E2]. exists o2.
    by rewrite E2, E1.
  - intros j Hj Hn. rewrite K2, K1; auto.
Qed.

Lemma slot_at_put slots id o j :
  valid_id slots id -> 0 <= j ->
  slot_at (put_offset slots id o) j
  = if decide (id = j) then set_slot_offset (slot_at slots j) o else slot_at slots j.
Proof.
  intros Hid Hj. unfold put_offset, slot_at, aget, aset, valid_id in *. case_decide as He.
  - subst j. by rewrite list_lookup_insert_eq by lia.
  - by rewrite list_lookup_insert_ne by lia.
Qed.

Lemma frame_put slots id o : valid_id slots id -> frame [id] slots (put_offset slots id o).
Proof.
  intros Hid. split.
  - apply length_insert.
  - intros j Hj. rewrite slot_at_put by done. case_decide; [by eexists|].
    exists (off slots j). by rewrite set_slot_offset_id.
  - intros j Hj Hn. rewrite slot_at_put by done. rewrite decide_False; [done|].
    intros ->. by apply Hn, list_elem_of_singleton.
Qed.

Lemma frame_sz ids slots slots' id : frame ids slots slots' -> 0 <= id -> sz slots' id = sz slots id.
Proof. intros [_ M _] Hid. unfold sz. by destruct (M id Hid) as [o ->]. Qed.

Lemma frame_off ids slots slots' id :
  frame ids slots slots' -> 0 <= id -> id ∉ ids -> off slots' id = off slots id.
Proof. intros [_ _ K] Hid Hn. unfold off. by rewrite K. Qed.

Lemma frame_valid ids slots slots' id :
  frame ids slots slots' -> valid_id slots id -> valid_id slots' id.
Proof. intros [L _ _]. unfold valid_id. by rewrite L. Qed.

Definition rng (slots : list TensorSlot) (id : Z) : range := (off slots id, sz slots id).

(** ** The free list *)

Lemma free_block_wf E X st o n :
  wf E ((o, n) :: X ++ free_list st) -> wf E (X ++ free_list (free_block st o n)).
Proof.
  unfold free_block. intros H. case_match; simpl.
  - rewrite app_assoc. by rewrite <- Permutation_cons_append.
  - by apply wf_cons_inv in H as [_ ?].
Qed.

Lemma free_block_same st o n :
  sw_slots (free_block st o n) = sw_slots st /\ pool_end (free_block st o n) = pool_end st.
Proof. unfold free_block. by case_match. Qed.

Lemma first_fit_spec fl size f :
  first_fit fl size = Some f -> exists b, fl !! f = Some b /\ size <= b.2.
Proof.
  revert f. induction fl as [|b fl IH]; intros f; simpl; [done|].
  destruct (Z.leb_spec size b.2) as [Hle|_].
  - intros [= <-]. by exists b.
  - destruct (first_fit fl size) as [g|]; [|done]. intros [= <-]. by apply IH.
Qed.

Lemma insert_perm {A} (l : list A) i x y :
  l !! i = Some x -> x :: <[i := y]> l ≡ₚ y :: l.
Proof.
  intros Hi. rewrite <- (take_drop_middle l i x Hi) at 2.
  rewrite insert_take_drop by (by eapply lookup_lt_Some).
  rewrite <- !Permutation_middle. apply perm_swap.
Qed.

Lemma swap_remove_perm fl f b : fl !! f = Some b -> b :: swap_remove fl f ≡ₚ fl.
Proof.
  intros Hf. pose proof (lookup_lt_Some _ _ _ Hf) as Hlt. unfold swap_remove.
  set (n := (length fl - 1)%nat).
  destruct (lookup_lt_is_Some_2 fl n) as [l Hl]; [subst n; lia|]. rewrite Hl. simpl.
  assert (Hfl : fl = take n fl ++ [l]).
  { rewrite <- (take_S_r _ _ _ Hl). symmetry. apply take_ge. subst n; lia. }
  destruct (decide (f = n)) as [->|Hne].
  - rewrite Hl in Hf. injection Hf as <-.
    rewrite take_insert_ge by done. rewrite Permutation_cons_append. by rewrite <- Hfl.
  - rewrite take_insert_lt by lia.
    rewrite insert_perm; [|by rewrite lookup_take_lt by lia].
    rewrite Permutation_cons_append. by rewrite <- Hfl.
Qed.

(** ** Allocation from the free list or the end of the pool *)

Lemma alloc_slot_wf E X st s size :
  wf E (X ++ free_list st) -> pool_end st = E -> 0 <= E -> E mod 256 = 0 ->
  0 <= size -> size mod 256 = 0 -> E + size < 2 ^ 64 -> valid_id (sw_slots st) s ->
  let st' := alloc_slot st s size in
  wf (pool_end st') ((off (sw_slots st') s, size) :: X ++ free_list st') /\
  E <= pool_end st' <= E + size /\ pool_end st' mod 256 = 0 /\
  frame [s] (sw_slots st) (sw_slots st').
Proof.
  intros Hwf HE HE0 HEm Hs0 Hsm Hsum Hid. cbv zeta. unfold alloc_slot.
  destruct (first_fit (free_list st) size) as [f|] eqn:Hff.
  - destruct (first_fit_spec _ _ _ Hff) as ([o n] & Hf & Hle). rewrite Hf. simpl in *.
    assert (Hoff : off (put_offset (sw_slots st) s o) s = o).
    { unfold off. rewrite slot_at_put, decide_True by (auto; destruct Hid; lia). done. }
    rewrite Hoff, HE. split_and!; auto; try lia; [|by apply frame_put].
    assert (Hcs : wf E ((o, n) :: X ++ swap_remove (free_list st) f)).
    { rewrite Permutation_middle, (swap_remove_perm _ _ _ Hf). done. }
    destruct (Z.eqb_spec n size) as [->|Hne]; [done|].
    pose proof (wf_cons_inv _ _ _ Hcs) as [(H1&H2&H3&H4&H5) _]. simpl in *.
    rewrite !wrap_small by lia.
    eapply wf_split in Hcs; [|split; [exact Hs0|lia]|done].
    rewrite (Permutation_middle X) in Hcs.
    assert (HP : <[f := (o + size, n - size)]> (free_list st)
                 ≡ₚ (o + size, n - size) :: swap_remove (free_list st) f).
    { apply (Permutation_cons_inv (a := (o, n))).
      rewrite insert_perm by done.
      rewrite <- (swap_remove_perm _ _ _ Hf) at 1. apply perm_swap. }
    by rewrite HP.
  - simpl. rewrite HE, wrap_small by lia.
    assert (Hoff : off (put_offset (sw_slots st) s E) s = E).
    { unfold off. rewrite slot_at_put, decide_True by (auto; destruct Hid; lia). done. }
    rewrite Hoff. split_and!; try lia; [by apply wf_grow|mod_lia|by apply frame_put].
Qed.

Ltac mem_tac :=
  let x := fresh in intros x;
  rewrite ?elem_of_cons, ?list_elem_of_singleton, ?elem_of_app, ?elem_of_nil; tauto.

(** ** The match of born slots with dying slots *)

(** The dying slots that no born slot took yet. *)
Fixpoint avail {A} (infos : list A) (consumed : list bool) : list A :=
  match infos, consumed with
  | d :: infos, c :: consumed => if c then avail infos consumed else d :: avail infos consumed
  | _, _ => infos
  end.

Lemma avail_none {A} (infos : list A) n : avail infos (replicate n false) = infos.
Proof. revert n. induction infos as [|d infos IH]; intros [|n]; simpl; congruence. Qed.

Lemma avail_nil {A} (infos : list A) : avail infos [] = infos.
Proof. by destruct infos. Qed.

Lemma avail_app {A} (a b : list A) cs :
  (length cs <= length a)%nat -> avail (a ++ b) cs = avail a cs ++ b.
Proof.
  revert cs. induction a as [|d a IH]; intros [|c cs]; simpl; intros; auto; [|lia|].
  - by destruct b.
  - destruct c; simpl; [|f_equal]; apply IH; lia.
Qed.

Lemma avail_take {A} (a : list A) cs :
  avail (take (length cs) a) cs ++ drop (length cs) a = avail a cs.
Proof.
  revert cs. induction a as [|d a IH]; intros [|c cs]; simpl; auto.
  destruct c; simpl; [|f_equal]; apply IH.
Qed.

Lemma avail_fmap {A B} (f : A -> B) l cs : avail (f <$> l) cs = f <$> avail l cs.
Proof.
  revert cs. induction l as [|d l IH]; intros [|c cs]; simpl; auto.
  destruct c; simpl; [|f_equal]; apply IH.
Qed.

Lemma avail_consume {A} (infos : list A) cs i d :
  infos !! i = Some d -> cs !! i = Some false ->
  avail infos cs ≡ₚ d :: avail infos (<[i := true]> cs).
Proof.
  revert cs i. induction infos as [|d' infos IH]; intros [|c cs] [|i]; simpl; try done.
  - by intros [= ->] [= ->].
  - intros Hi Hc. destruct c; [by apply IH|].
    rewrite (IH cs i Hi Hc). apply perm_swap.
Qed.

Lemma best_fit_spec infos cs size idx best bw i w :
  best_fit infos cs size idx best bw = (Some i, w) ->
  (best = Some i /\ w = bw) \/
  exists j d, i = (idx + j)%nat /\ infos !! j = Some d /\ cs !! j = Some false /\
    size <= d.2 /\ w = d.2 - size.
Proof.
  revert cs idx best bw. induction infos as [|d infos IH]; intros [|c cs] idx best bw; simpl;
    try (intros [= -> ->]; by left).
  intros H. case_match eqn:Hc; reflect_bools.
  - destruct (IH _ _ _ _ H) as [[[= <-] ->]|(j & d' & -> & ? & ? & ? & ?)]; right.
    + exists 0%nat, d. subst c. split_and!; auto; lia.
    + exists (S j), d'. split_and!; auto; lia.
  - destruct (IH _ _ _ _ H) as [?|(j & d' & -> & ? & ? & ? & ?)]; [by left|right].
    exists (S j), d'. split_and!; auto; lia.
Qed.

(** The born slots with and without a match. *)
Definition unmatched (born : list Z) (assigned : list bool) : list Z := avail born assigned.
Definition matched (born : list Z) (assigned : list bool) : list Z :=
  (zip born assigned) ≫= (fun p : Z * bool => if p.2 then [p.1] else []).

Lemma matched_split born assigned : matched born assigned ++ unmatched born assigned ≡ₚ born.
Proof.
  revert assigned. unfold matched, unmatched.
  induction born as [|b born IH]; intros [|c cs]; csimpl; [done|done|done|].
  destruct c; simpl; [by rewrite IH|]. by rewrite <- Permutation_middle, IH.
Qed.

Lemma matched_sub born assigned x : x ∈ matched born assigned -> x ∈ born.
Proof. intros H. rewrite <- (matched_split born assigned). apply elem_of_app. by left. Qed.

Lemma rng_frame ids slots slots' l :
  frame ids slots slots' -> Forall (valid_id slots) l -> (forall x, x ∈ l -> x ∉ ids) ->
  rng slots' <$> l = rng slots <$> l.
Proof.
  intros Hf Hv Hd. apply list_fmap_ext. intros i x Hx.
  pose proof (Forall_lookup_1 _ _ _ _ Hv Hx) as [Hx0 _].
  unfold rng. rewrite (frame_sz _ _ _ _ Hf) by done.
  rewrite (frame_off _ _ _ _ Hf); auto. apply Hd. by apply list_elem_of_lookup; exists i.
Qed.

(** What the match phase leaves: [X] is the frame. *)
Record match_ok (E : Z) (X infos : list range) (born : list Z) (st st' : sweep)
    (consumed : list bool) (assigned : list bool) : Prop := {
  mo_wf : wf E (X ++ (rng (sw_slots st') <$> matched born assigned)
                  ++ avail infos consumed ++ free_list st');
  mo_end : pool_end st' = pool_end st;
  mo_frame : frame born (sw_slots st) (sw_slots st');
}.

Lemma place_born_wf E X st b o w :
  let size := sz (sw_slots st) b in
  let st1 := {| sw_slots := put_offset (sw_slots st) b o; free_list := free_list st;
                pool_end := pool_end st |} in
  let st2 := if 0 <? w then free_block st1 (o ⊞ size)%u64 w else st1 in
  valid_id (sw_slots st) b -> size <= size + w -> E < 2 ^ 64 ->
  wf E ((o, size + w) :: X ++ free_list st) ->
  wf E ((rng (sw_slots st2) b :: X) ++ free_list st2) /\
  pool_end st2 = pool_end st /\ sw_slots st2 = put_offset (sw_slots st) b o.
Proof.
  intros size st1 st2 Hb Hw HE Hwf.
  assert (Hs2 : sw_slots st2 = put_offset (sw_slots st) b o /\ pool_end st2 = pool_end st).
  { subst st2. destruct (0 <? w); [|done]. apply (free_block_same st1). }
  destruct Hs2 as [Hs2 He2]. split_and!; auto.
  assert (Hr : rng (sw_slots st2) b = (o, size)).
  { unfold rng. rewrite Hs2, (frame_sz _ _ _ _ (frame_put _ _ o Hb)) by (destruct Hb; lia).
    unfold off. rewrite slot_at_put, decide_True by (auto; destruct Hb; lia). done. }
  rewrite Hr. destruct (aligned_size_spec (nbytes (slot_at (sw_slots st) b))) as [Hsz Hsm].
  fold (sz (sw_slots st) b) in Hsz, Hsm. fold size in Hsz, Hsm.
  pose proof (wf_cons_inv _ _ _ Hwf) as [(H1&H2&H3&H4&H5) _]. simpl in H1, H2, H3, H4, H5.
  eapply (wf_split _ _ _ size) in Hwf; [|lia|done].
  replace (size + w - size) with w in Hwf by lia.
  subst st2. destruct (Z.ltb_spec 0 w) as [Hpos|Hz].
  - apply free_block_wf. rewrite wrap_small by lia. simpl.
    by rewrite perm_swap.
  - simpl. eapply wf_sublist; [|exact Hwf]. by apply sublist_skip, sublist_cons.
Qed.

Lemma match_born_wf E infos born : forall X st cs st' cs' assigned,
  match_born infos born st cs = (st', cs', assigned) ->
  wf E (X ++ avail infos cs ++ free_list st) -> E < 2 ^ 64 ->
  NoDup born -> Forall (valid_id (sw_slots st)) born ->
  match_ok E X infos born st st' cs' assigned /\ length cs' = length cs /\
  length assigned = length born.
Proof.
  induction born as [|b born IH]; intros X st cs st' cs' assigned Hm Hwf HE Hnd Hv.
  { simpl in Hm. simplify_eq. split; [|done]. split; auto using frame_refl. }
  apply NoDup_cons in Hnd as [Hnb Hnd]. apply Forall_cons in Hv as [Hb Hv]. simpl in Hm.
  fold (sz (sw_slots st) b) in Hm.
  destruct (best_fit infos cs (sz (sw_slots st) b) 0 None UINT64_MAX) as [[i|] w] eqn:Hbf.
  - destruct (best_fit_spec _ _ _ _ _ _ _ _ Hbf)
      as [[? _]|(j & [o n] & -> & Hi & Hc & Hle & ->)]; [done|].
    change (0 + j)%nat with j in Hm.
    rewrite (avail_consume _ _ _ _ Hi Hc) in Hwf. rewrite Hi in Hm. simpl in Hm, Hle, Hwf.
    rewrite <- Permutation_middle, app_assoc in Hwf.
    replace n with (sz (sw_slots st) b + (n - sz (sw_slots st) b)) in Hwf at 1 by lia.
    destruct (place_born_wf E (X ++ avail infos (<[j := true]> cs)) st b o
                (n - sz (sw_slots st) b) Hb ltac:(lia) HE Hwf) as (Hwf2 & He2 & Hs2).
    cbv zeta in Hwf2, He2, Hs2.
    set (st2 := if 0 <? _ then _ else _) in *.
    destruct (match_born infos born st2 (<[j := true]> cs)) as [[st3 cs3] as3] eqn:Hm2.
    simplify_eq. pose proof (frame_put (sw_slots st) b o Hb) as Hfp. rewrite <- Hs2 in Hfp.
    apply (IH (rng (sw_slots st2) b :: X)) in Hm2 as [[Hw He Hf] [Hl Hla]]; auto.
    + rewrite length_insert in Hl. split; [|simpl; lia]. split; [|congruence|].
      * csimpl. rewrite <- (Permutation_middle X).
        replace (rng (sw_slots st') b) with (rng (sw_slots st2) b); [done|].
        unfold rng. rewrite (frame_sz _ _ _ _ Hf), (frame_off _ _ _ _ Hf);
          auto; destruct Hb; lia.
      * eapply frame_trans; [exact Hfp|exact Hf|]. mem_tac.
    + rewrite app_assoc. exact Hwf2.
    + eapply Forall_impl; [exact Hv|]. intros x. by apply frame_valid with (ids := [b]).
  - destruct (match_born infos born st cs) as [[st3 cs3] as3] eqn:Hm2. simplify_eq.
    apply (IH X) in Hm2 as [[Hw He Hf] [Hl Hla]]; auto. split; [|simpl; lia]. split; auto.
    eapply frame_trans; [exact Hf|apply (frame_refl [])|]. mem_tac.
Qed.

Lemma free_dying_wf E dying : forall X st cs,
  wf E (X ++ (rng (sw_slots st) <$> avail dying cs) ++ free_list st) ->
  let st' := free_dying st dying cs in
  wf E (X ++ free_list st') /\ sw_slots st' = sw_slots st /\ pool_end st' = pool_end st.
Proof.
  induction dying as [|d dying IH]; intros X st cs Hwf; [done|].
  assert (Hfree : forall cs', wf E (X ++ (rng (sw_slots st) <$> d :: avail dying cs') ++ free_list st) ->
    let st' := free_dying (free_block st (off (sw_slots st) d) (sz (sw_slots st) d)) dying cs' in
    wf E (X ++ free_list st') /\ sw_slots st' = sw_slots st /\ pool_end st' = pool_end st).
  { intros cs' H. csimpl in H. rewrite <- Permutation_middle in H.
    destruct (free_block_same st (off (sw_slots st) d) (sz (sw_slots st) d)) as [Hs He].
    destruct (IH X (free_block st (off (sw_slots st) d) (sz (sw_slots st) d)) cs') as (Hw & Hs' & He');
      [|cbv zeta; rewrite Hs', He'; done].
    rewrite Hs, app_assoc. apply free_block_wf. by rewrite <- app_assoc. }
  destruct cs as [|c cs].
  - simpl in *. apply Hfree. by destruct dying.
  - simpl in *. destruct c; [by apply IH|by apply Hfree].
Qed.

Fixpoint sizes (slots : list TensorSlot) (ids : list Z) : Z :=
  match ids with [] => 0 | i :: ids => sz slots i + sizes slots ids end.

Lemma sz_nonneg slots i : 0 <= sz slots i.
Proof. destruct (aligned_size_spec (nbytes (slot_at slots i))) as [[? _] _]. done. Qed.

Lemma sizes_nonneg slots ids : 0 <= sizes slots ids.
Proof. induction ids as [|i ids IH]; simpl; [lia|]. pose proof (sz_nonneg slots i). lia. Qed.

Lemma sizes_app slots l k : sizes slots (l ++ k) = sizes slots l + sizes slots k.
Proof. induction l; simpl; lia. Qed.

#[export] Instance sizes_proper slots : Proper (Permutation ==> eq) (sizes slots).
Proof. intros l k HP. induction HP; simpl; lia. Qed.

Lemma sizes_frame ids slots slots' l :
  frame ids slots slots' -> Forall (valid_id slots) l -> sizes slots' l = sizes slots l.
Proof.
  intros Hf. induction 1 as [|i l [Hi _] Hl IH]; simpl; [done|].
  by rewrite IH, (frame_sz _ _ _ _ Hf).
Qed.

Lemma alloc_born_wf born : forall E X st assigned,
  wf E (X ++ free_list st) -> pool_end st = E -> 0 <= E -> E mod 256 = 0 ->
  NoDup born -> Forall (valid_id (sw_slots st)) born ->
  E + sizes (sw_slots st) (unmatched born assigned) < 2 ^ 64 ->
  let st' := alloc_born st born assigned in
  wf (pool_end st') (X ++ (rng (sw_slots st') <$> unmatched born assigned) ++ free_list st') /\
  E <= pool_end st' <= E + sizes (sw_slots st) (unmatched born assigned) /\
  pool_end st' mod 256 = 0 /\ frame (unmatched born assigned) (sw_slots st) (sw_slots st').
Proof.
  induction born as [|b born IH]; intros E X st assigned Hwf HE HE0 HEm Hnd Hv Hsum.
  { simpl. subst E. split_and!; auto using frame_refl; lia. }
  apply NoDup_cons in Hnd as [Hnb Hnd]. apply Forall_cons in Hv as [Hb Hv].
  assert (Halloc : forall as', E + sizes (sw_slots st) (b :: unmatched born as') < 2 ^ 64 ->
    let st' := alloc_born (alloc_slot st b (sz (sw_slots st) b)) born as' in
    wf (pool_end st') (X ++ (rng (sw_slots st') <$> b :: unmatched born as') ++ free_list st') /\
    E <= pool_end st' <= E + sizes (sw_slots st) (b :: unmatched born as') /\
    pool_end st' mod 256 = 0 /\ frame (b :: unmatched born as') (sw_slots st) (sw_slots st')).
  { intros as' Hs. simpl in Hs. pose proof (sizes_nonneg (sw_slots st) (unmatched born as')).
    destruct (aligned_size_spec (nbytes (slot_at (sw_slots st) b))) as [Hsz Hsm].
    fold (sz (sw_slots st) b) in Hsz, Hsm.
    destruct (alloc_slot_wf E X st b (sz (sw_slots st) b)) as (Hw1 & He1 & Hm1 & Hf1);
      auto; try lia.
    set (st1 := alloc_slot _ _ _) in *.
    assert (Hvu : Forall (valid_id (sw_slots st)) (unmatched born as')).
    { apply Forall_forall. intros x Hx. rewrite Forall_forall in Hv. apply Hv.
      rewrite <- (matched_split born as'). apply elem_of_app. by right. }
    pose proof (sizes_frame _ _ _ _ Hf1 Hvu) as Hsf.
    destruct (IH (pool_end st1) ((off (sw_slots st1) b, sz (sw_slots st) b) :: X) st1 as')
      as (Hw2 & He2 & Hm2 & Hf2); auto; try lia.
    { eapply Forall_impl; [exact Hv|]. intros x. by apply frame_valid with (ids := [b]). }
    cbv zeta. split_and!; try lia; auto; simpl; try lia.
    - csimpl. rewrite <- (Permutation_middle X).
      assert (Hr : rng (sw_slots (alloc_born st1 born as')) b
                   = (off (sw_slots st1) b, sz (sw_slots st) b)).
      { unfold rng. rewrite (frame_sz _ _ _ _ Hf2), (frame_sz _ _ _ _ Hf1) by (destruct Hb; lia).
        rewrite (frame_off _ _ _ _ Hf2); [done|destruct Hb; lia|].
        intros Hin. apply Hnb. rewrite <- (matched_split born as'). apply elem_of_app. by right. }
      by rewrite Hr.
    - eapply frame_trans; [exact Hf1|exact Hf2|]. mem_tac. }
  destruct assigned as [|c cs].
  - specialize (Halloc []). unfold unmatched in Halloc. rewrite avail_nil in Halloc. by apply Halloc.
  - simpl. destruct c; [by apply IH|by apply (Halloc cs)].
Qed.

(** ** One op *)

Definition live_ok (E : Z) (live : list Z) (st : sweep) : Prop :=
  wf E ((rng (sw_slots st) <$> live) ++ free_list st) /\
  pool_end st = E /\ 0 <= E /\ E mod 256 = 0.

Lemma matched_take n born assigned :
  (length assigned <= n)%nat -> matched (take n born) assigned = matched born assigned.
Proof.
  unfold matched. revert n assigned.
  induction born as [|b born IH]; intros n [|c cs] Hn; simpl; rewrite ?take_nil, ?zip_with_nil_r; auto.
  destruct n as [|n]; simpl in *; [lia|]. rewrite IH by lia. done.
Qed.

Lemma match_phase_ok E X dying born st :
  wf E (X ++ (rng (sw_slots st) <$> dying) ++ free_list st) -> E < 2 ^ 64 ->
  NoDup born -> Forall (valid_id (sw_slots st)) born ->
  let dcap := take MAX_PER_OP dying in
  let bcap := take MAX_PER_OP born in
  exists st1 consumed assigned,
    (if (0 <? length dcap)%nat && (0 <? length bcap)%nat
     then match_born (dying_info (sw_slots st) <$> dcap) bcap st (replicate MAX_PER_OP false)
     else (st, replicate MAX_PER_OP false, [])) = (st1, consumed, assigned) /\
    match_ok E X (rng (sw_slots st) <$> dying) born st st1 consumed assigned.
Proof.
  intros Hwf HE Hnd Hv dcap bcap. destruct (_ && _).
  - destruct (match_born _ bcap st (replicate MAX_PER_OP false)) as [[st1 cs] asg] eqn:Hm.
    exists st1, cs, asg. split; [done|].
    apply (match_born_wf E _ _ (X ++ (rng (sw_slots st) <$> drop MAX_PER_OP dying))) in Hm
      as [[Hw He Hf] [Hl Hla]]; auto.
    + rewrite length_replicate in Hl. split; [|done|].
      * rewrite <- (matched_take MAX_PER_OP) by (rewrite Hla; unfold bcap; rewrite length_take; lia).
        rewrite <- (avail_take _ cs), Hl, <- fmap_take, <- fmap_drop.
        revert Hw. apply wf_proper. fold dcap bcap. solve_Permutation.
      * eapply frame_trans; [exact Hf|apply (frame_refl [])|].
        intros x [Hx|?%elem_of_nil]; [|done]. by eapply elem_of_sublist, sublist_take.
    + rewrite avail_none. rewrite <- (take_drop MAX_PER_OP dying), fmap_app in Hwf.
      revert Hwf. apply wf_proper. solve_Permutation.
    + eapply sublist_NoDup; [exact Hnd|apply sublist_take].
    + by apply Forall_take.
  - exists st, (replicate MAX_PER_OP false), []. split; [done|].
    split; [|done|apply frame_refl]. rewrite avail_none.
    unfold matched. rewrite zip_with_nil_r. done.
Qed.

Lemma sweep_op_ok E rest dying born st :
  live_ok E (rest ++ dying) st -> NoDup born -> Forall (valid_id (sw_slots st)) born ->
  Forall (valid_id (sw_slots st)) (rest ++ dying) ->
  (forall x, x ∈ rest ++ dying -> x ∉ born) ->
  E + sizes (sw_slots st) born < 2 ^ 64 ->
  let st' := sweep_op dying born st in
  live_ok (pool_end st') (rest ++ born) st' /\
  E <= pool_end st' <= E + sizes (sw_slots st) born /\
  frame born (sw_slots st) (sw_slots st').
Proof.
  intros (Hwf & HE & HE0 & HEm) Hnd Hv Hvl Hdisj Hsum st'. subst st'.
  pose proof (sizes_nonneg (sw_slots st) born). unfold sweep_op.
  rewrite fmap_app, <- app_assoc in Hwf.
  destruct (match_phase_ok E _ dying born st Hwf) as (st1 & cs & asg & -> & [Hw He Hf]);
    auto; [lia|].
  apply Forall_app in Hvl as [Hvr Hvd].
  assert (Hd1 : rng (sw_slots st) <$> dying = rng (sw_slots st1) <$> dying).
  { symmetry. apply (rng_frame born); auto. intros x Hx. apply Hdisj, elem_of_app. by right. }
  rewrite Hd1, avail_fmap, app_assoc in Hw.
  destruct (free_dying_wf E dying _ st1 cs Hw) as (Hw2 & Hs2 & He2).
  set (st2 := free_dying st1 dying cs) in *.
  pose proof (matched_split born asg) as Hsp.
  pose proof (sizes_frame _ _ _ _ Hf Hv) as Hsz. rewrite <- Hsp, sizes_app in Hsz at 1.
  pose proof (sizes_nonneg (sw_slots st1) (matched born asg)).
  assert (Hv1 : Forall (valid_id (sw_slots st1)) born).
  { eapply Forall_impl; [exact Hv|]. intros x. by eapply frame_valid. }
  destruct (alloc_born_wf born E _ st2 asg Hw2) as (Hw3 & He3 & Hm3 & Hf3);
    rewrite ?Hs2; auto; [congruence|lia|].
  set (st3 := alloc_born st2 born asg) in *. rewrite Hs2 in Hf3, He3.
  assert (Hfr : frame born (sw_slots st) (sw_slots st3)).
  { eapply frame_trans; [exact Hf|exact Hf3|]. intros x [?|?]; [done|].
    rewrite <- Hsp. apply elem_of_app. by right. }
  split_and!; auto; try lia. split_and!; auto; try lia.
  revert Hw3. apply wf_proper.
  rewrite <- (rng_frame born _ (sw_slots st3) rest Hfr Hvr)
    by (intros x Hx; apply Hdisj, elem_of_app; by left).
  assert (Hmt : rng (sw_slots st1) <$> matched born asg = rng (sw_slots st3) <$> matched born asg).
  { symmetry. eapply rng_frame; [exact Hf3| |].
    - rewrite <- Hsp in Hv1. by apply Forall_app in Hv1 as [? _].
    - rewrite <- Hsp in Hnd. apply NoDup_app in Hnd as (_ & Hn & _). exact Hn. }
  rewrite Hmt. rewrite fmap_app. rewrite <- Hsp at 1. rewrite fmap_app. solve_Permutation.
Qed.
