(* ===== verification/PlanProofs.v ===== *)
(** * PlanProofs.v: the memory plan is safe

    The events of the counting sort are the births and the deaths of the
    internal slots; the sweep keeps the chunks of the live slots disjoint; so
    in the plan any two internal slots whose lifetimes meet have disjoint
    bytes. *)

From stdpp Require Import base list strings.
From Stdlib Require Import ZArith Lia.
From S2P Require Import Prelude Types MemoryPlan PlanSweep.
#[local] Open Scope Z_scope.

(** ** The internal slots, with their ids *)

Fixpoint enum (id : Z) (slots : list TensorSlot) : list (Z * TensorSlot) :=
  match slots with [] => [] | s :: slots => (id, s) :: enum (id + 1) slots end.

Abbreviation islot := (Z * TensorSlot)%type.

Definition internals (id : Z) (slots : list TensorSlot) : list islot :=
  filter (fun p => is_external p.2 = false) (enum id slots).

Definition birth_event (p : islot) : event Z := (p.1, birth_op p.2).
Definition death_event (p : islot) : event Z := (p.1, free_at p.2).

Definition deaths_in (m : Z) (ps : list islot) : list islot := filter (fun p => free_at p.2 < m) ps.

Lemma internals_cons id s slots :
  internals id (s :: slots)
  = if is_external s then internals (id + 1) slots else (id, s) :: internals (id + 1) slots.
Proof. unfold internals. simpl. rewrite filter_cons. simpl. by destruct (is_external s). Qed.

Lemma count_events_spec m slots : forall id bc dc,
  count_events m slots bc dc
  = (count_keys bc (birth_event <$> internals id slots),
     count_keys dc (death_event <$> deaths_in m (internals id slots))).
Proof.
  induction slots as [|s slots IH]; intros id bc dc; [done|].
  rewrite internals_cons. simpl. destruct (is_external s); [apply IH|].
  rewrite (IH (id + 1)). unfold deaths_in. rewrite filter_cons. simpl.
  destruct (Z.ltb_spec (free_at s) m); case_decide; try lia; done.
Qed.

Lemma scatter_spec m slots : forall id st,
  scatter m slots id st
  = let evb := birth_event <$> internals id slots in
    let evd := death_event <$> deaths_in m (internals id slots) in
    let b := scatter_keys (born_slots st, birth_cur st) evb in
    let d := scatter_keys (dead_slots st, death_cur st) evd in
    {| born_slots := b.1; dead_slots := d.1; birth_cur := b.2; death_cur := d.2 |}.
Proof.
  induction slots as [|s slots IH]; intros id [b d bc dc]; [done|].
  rewrite internals_cons. simpl. destruct (is_external s); [apply IH|].
  rewrite IH. unfold deaths_in. rewrite filter_cons. simpl.
  destruct (Z.ltb_spec (free_at s) m); case_decide; try lia; done.
Qed.

Lemma elem_of_enum id slots i s :
  (i, s) ∈ enum id slots <-> id <= i /\ slots !! Z.to_nat (i - id) = Some s.
Proof.
  revert id. induction slots as [|t slots IH]; intros id; simpl.
  - rewrite elem_of_nil, lookup_nil. split; [done|by intros [_ ?]].
  - rewrite elem_of_cons, IH. split.
    + intros [[= -> ->]|[Hi Hl]]; [by rewrite Z.sub_diag|].
      replace (Z.to_nat (i - id)) with (S (Z.to_nat (i - (id + 1)))) by lia.
      split; [lia|done].
    + intros [Hi Hl]. destruct (decide (i = id)) as [->|Hne].
      * rewrite Z.sub_diag in Hl. simplify_eq/=. by left.
      * right. replace (Z.to_nat (i - id)) with (S (Z.to_nat (i - (id + 1)))) in Hl by lia.
        split; [lia|done].
Qed.

Lemma elem_of_internals slots i s :
  (i, s) ∈ internals 0 slots <->
  0 <= i /\ slots !! Z.to_nat i = Some s /\ is_external s = false.
Proof.
  unfold internals. rewrite list_elem_of_filter, elem_of_enum, Z.sub_0_r. simpl. tauto.
Qed.

Lemma NoDup_enum id slots : NoDup (enum id slots).*1.
Proof.
  revert id. induction slots as [|t slots IH]; intros id; csimpl; constructor; [|apply IH].
  intros ([i s] & Hi & He)%list_elem_of_fmap. simpl in Hi. subst i.
  apply elem_of_enum in He as [? _]. lia.
Qed.

Lemma sublist_fmap {A B} (f : A -> B) l k : l `sublist_of` k -> f <$> l `sublist_of` f <$> k.
Proof. induction 1; csimpl; by constructor. Qed.

Lemma NoDup_internals slots : NoDup (internals 0 slots).*1.
Proof.
  eapply sublist_NoDup; [apply (NoDup_enum 0 slots)|]. apply sublist_fmap, sublist_filter.
Qed.

Lemma length_internals_le id slots : (length (internals id slots) <= length slots)%nat.
Proof.
  assert (Hl : length (enum id slots) = length slots).
  { revert id. induction slots; intros; simpl; auto. }
  rewrite <- Hl. apply length_filter.
Qed.

(** ** Splitting the internal slots by time *)

Lemma filter_split {A} (P Q R : A -> Prop)
  `{!forall x, Decision (P x), !forall x, Decision (Q x), !forall x, Decision (R x)} l :
  (forall x, x ∈ l -> (P x <-> Q x \/ R x) /\ ~ (Q x /\ R x)) ->
  filter P l ≡ₚ filter Q l ++ filter R l.
Proof.
  induction l as [|x l IH]; intros Hx; [done|].
  rewrite !filter_cons. destruct (Hx x) as [Hiff Hn]; [by left|].
  assert (HIH := IH (fun y Hy => Hx y (list_elem_of_further _ _ _ Hy))).
  repeat case_decide; try tauto; simpl.
  - by rewrite HIH.
  - by rewrite <- Permutation_middle, HIH.
Qed.

Definition ids_of (P : TensorSlot -> Prop) `{!forall s, Decision (P s)} (ps : list islot) : list Z :=
  (filter (fun p : islot => P p.2) ps).*1.

Definition live_at (op : Z) : list islot -> list Z :=
  ids_of (fun s => birth_op s < op <= death_op s + 1).
Definition staying (op : Z) : list islot -> list Z :=
  ids_of (fun s => birth_op s < op <= death_op s).
Definition dying_at (op : Z) : list islot -> list Z := ids_of (fun s => death_op s + 1 = op).
Definition born_at (op : Z) : list islot -> list Z := ids_of (fun s => birth_op s = op).
Definition born_before (op : Z) : list islot -> list Z := ids_of (fun s => birth_op s < op).

Definition lifetime_ok (s : TensorSlot) : Prop := 0 <= birth_op s <= death_op s /\ death_op s <= MAX_DEATH_OP.

Lemma ids_of_split (P Q R : TensorSlot -> Prop)
  `{!forall x, Decision (P x), !forall x, Decision (Q x), !forall x, Decision (R x)} ps :
  Forall (fun p : islot => (P p.2 <-> Q p.2 \/ R p.2) /\ ~ (Q p.2 /\ R p.2)) ps ->
  ids_of P ps ≡ₚ ids_of Q ps ++ ids_of R ps.
Proof.
  rewrite Forall_forall. intros Hs. unfold ids_of. rewrite <- fmap_app.
  f_equiv. by apply filter_split.
Qed.

Section Split.
Context (ps : list islot).
Context (Hps : Forall (fun p : islot => lifetime_ok p.2) ps).

Ltac split_tac :=
  apply ids_of_split; eapply Forall_impl; [exact Hps|]; unfold lifetime_ok; simpl; intros; lia.

Lemma live_split_dying op : live_at op ps ≡ₚ staying op ps ++ dying_at op ps.
Proof using Hps. split_tac. Qed.

Lemma live_split_born op : live_at (op + 1) ps ≡ₚ staying op ps ++ born_at op ps.
Proof using Hps. split_tac. Qed.

Lemma born_before_succ op : born_before (op + 1) ps ≡ₚ born_before op ps ++ born_at op ps.
Proof using Hps. split_tac. Qed.

Lemma ids_of_split_rest (P : TensorSlot -> Prop) `{!forall x, Decision (P x)} :
  ps.*1 ≡ₚ ids_of P ps ++ ids_of (fun s => ~ P s) ps.
Proof using Type.
  rewrite <- (ids_of_split (fun _ => True) P (fun s => ~ P s) ps).
  - unfold ids_of. f_equiv. clear Hps. induction ps as [|p l IH]; [done|].
    rewrite filter_cons, decide_True by done. by f_equiv.
  - apply Forall_true. intros p. destruct (decide (P p.2)); tauto.
Qed.

Lemma ids_of_elem (P : TensorSlot -> Prop) `{!forall x, Decision (P x)} i :
  i ∈ ids_of P ps <-> exists s, (i, s) ∈ ps /\ P s.
Proof using Type.
  unfold ids_of. rewrite list_elem_of_fmap. split.
  - intros ([j s] & -> & [? ?]%list_elem_of_filter). by exists s.
  - intros (s & Hin & HP). exists (i, s). split; [done|]. by apply list_elem_of_filter.
Qed.
End Split.

(** ** The invariant of the sweep *)

Section SweepInv.
Context (slots : list TensorSlot).
#[local] Abbreviation ps := (internals 0 slots).
Context (Hlife : Forall (fun p : islot => lifetime_ok p.2) ps).
Context (Hsum : sizes slots ps.*1 < 2 ^ 64).

(** Two internal slots, both live at some op. *)
Definition overlap (s t : TensorSlot) : Prop :=
  birth_op s <= death_op t /\ birth_op t <= death_op s.

(** Before op [op]: the live chunks are disjoint, the slots born so far
    are placed in the pool, and those that meet are disjoint. *)
Record sweep_inv (op : Z) (st : sweep) : Prop := {
  si_live : live_ok (pool_end st) (live_at op ps) st;
  si_end : pool_end st <= sizes slots (born_before op ps);
  si_frame : frame (born_before op ps) slots (sw_slots st);
  si_in i s : (i, s) ∈ ps -> birth_op s < op ->
    chunk_ok (pool_end st) (rng (sw_slots st) i);
  si_disj i s j t : (i, s) ∈ ps -> (j, t) ∈ ps -> i <> j -> birth_op s < op -> birth_op t < op ->
    overlap s t -> rdisj (rng (sw_slots st) i) (rng (sw_slots st) j);
}.

Lemma valid_internal i s : (i, s) ∈ ps -> valid_id slots i.
Proof using Type.
  intros (Hi & Hl & _)%elem_of_internals. apply lookup_lt_Some in Hl. split; lia.
Qed.

Lemma valid_ids_of (P : TensorSlot -> Prop) `{!forall s, Decision (P s)} ids st :
  frame ids slots (sw_slots st) -> Forall (valid_id (sw_slots st)) (ids_of P ps).
Proof using Type.
  intros Hf. apply Forall_forall. intros i (s & Hin & _)%ids_of_elem.
  eapply frame_valid; [exact Hf|]. by eapply valid_internal.
Qed.

Lemma internal_inj i s t : (i, s) ∈ ps -> (i, t) ∈ ps -> s = t.
Proof using Type. intros (_&H1&_)%elem_of_internals (_&H2&_)%elem_of_internals. congruence. Qed.

Lemma NoDup_ids_of (P : TensorSlot -> Prop) `{!forall s, Decision (P s)} : NoDup (ids_of P ps).
Proof using Type.
  eapply sublist_NoDup; [apply (NoDup_internals slots)|]. apply sublist_fmap, sublist_filter.
Qed.

Lemma sizes_ids_of (P : TensorSlot -> Prop) `{!forall s, Decision (P s)} :
  sizes slots (ids_of P ps) <= sizes slots ps.*1.
Proof using Type.
  rewrite (ids_of_split_rest ps P), sizes_app.
  pose proof (sizes_nonneg slots (ids_of (fun s => ~ P s) ps)). lia.
Qed.

Lemma sweep_inv_init op : op <= 0 ->
  sweep_inv op {| sw_slots := slots; free_list := []; pool_end := 0 |}.
Proof using Hlife.
  intros Hop.
  assert (Hnb : forall i s, (i, s) ∈ ps -> ~ birth_op s < op).
  { intros i s Hin. rewrite Forall_forall in Hlife. specialize (Hlife _ Hin).
    unfold lifetime_ok in Hlife. simpl in Hlife. lia. }
  assert (Hlive : live_at op ps = []).
  { destruct (live_at op ps) as [|i l] eqn:Hl; [done|].
    assert (Hi : i ∈ live_at op ps) by (rewrite Hl; by left).
    apply ids_of_elem in Hi as (s & Hin & Hb & _). destruct (Hnb i s Hin Hb). }
  split; simpl.
  - unfold live_ok. rewrite Hlive. simpl. split_and!; done.
  - apply sizes_nonneg.
  - apply frame_refl.
  - intros i s Hin Hb. destruct (Hnb i s Hin Hb).
  - intros i s j t Hin _ _ Hb. destruct (Hnb i s Hin Hb).
Qed.

Lemma live_ok_perm E l k st : l ≡ₚ k -> live_ok E l st -> live_ok E k st.
Proof using Type. intros HP (Hw & H). split; [|done]. by rewrite <- HP. Qed.

Lemma not_born_now op i s : (i, s) ∈ ps -> birth_op s < op -> i ∉ born_at op ps.
Proof using Type.
  intros Hin Hb (t & Hin' & Ht)%ids_of_elem.
  rewrite (internal_inj _ _ _ Hin Hin') in Hb. lia.
Qed.

Lemma live_at_now op i s :
  (i, s) ∈ ps -> birth_op s <= op <= death_op s -> i ∈ live_at (op + 1) ps.
Proof using Type. intros Hin Hs. apply ids_of_elem. exists s. split; [done|lia]. Qed.

Lemma live_ok_chunk E l st i : live_ok E l st -> i ∈ l -> chunk_ok E (rng (sw_slots st) i).
Proof using Type.
  intros ([_ Hf] & _) Hi. rewrite Forall_forall in Hf. apply Hf, elem_of_app.
  left. by apply list_elem_of_fmap_2.
Qed.

Lemma live_ok_disj E l st i j :
  live_ok E l st -> i ∈ l -> j ∈ l -> i <> j -> rdisj (rng (sw_slots st) i) (rng (sw_slots st) j).
Proof using Type.
  intros ([Hp _] & _) [a Ha]%list_elem_of_lookup [b Hb]%list_elem_of_lookup Hne.
  eapply (pairwise_lookup rdisj _ a b); [exact Hp| | |congruence];
    apply lookup_app_l_Some; rewrite list_lookup_fmap; [rewrite Ha|rewrite Hb]; done.
Qed.

Lemma rng_frame_1 ids st st' i :
  frame ids (sw_slots st) (sw_slots st') -> 0 <= i -> i ∉ ids ->
  rng (sw_slots st') i = rng (sw_slots st) i.
Proof using Type.
  intros Hf Hi Hn. unfold rng. by rewrite (frame_sz _ _ _ _ Hf), (frame_off _ _ _ _ Hf).
Qed.

Lemma sweep_inv_step op st :
  sweep_inv op st -> sweep_inv (op + 1) (sweep_op (dying_at op ps) (born_at op ps) st).
Proof using All.
  intros [Hlive Hend Hframe Hin Hdisj].
  pose proof (born_before_succ ps Hlife op) as Hbb.
  assert (Hsz : sizes (sw_slots st) (born_at op ps) = sizes slots (born_at op ps)).
  { eapply sizes_frame; [exact Hframe|].
    apply (valid_ids_of _ [] {| sw_slots := slots; free_list := []; pool_end := 0 |}), frame_refl. }
  pose proof (sizes_ids_of (fun s => birth_op s < op + 1)) as Hb1.
  fold (born_before (op + 1) ps) in Hb1. rewrite Hbb, sizes_app in Hb1.
  destruct (sweep_op_ok (pool_end st) (staying op ps) (dying_at op ps) (born_at op ps) st)
    as (Hlive' & Hend' & Hfr); [| | | | |lia|].
  { eapply live_ok_perm; [by apply live_split_dying|done]. }
  { apply NoDup_ids_of. }
  { by eapply valid_ids_of. }
  { rewrite Forall_app. split; by eapply valid_ids_of. }
  { intros x [Hx|Hx]%elem_of_app; apply ids_of_elem in Hx as (s & Hs & Hb);
      apply (not_born_now op x s Hs); [lia|].
    rewrite Forall_forall in Hlife. specialize (Hlife _ Hs). unfold lifetime_ok in Hlife.
    simpl in *. lia. }
  set (st' := sweep_op _ _ st) in *.
  assert (Hl' : live_ok (pool_end st') (live_at (op + 1) ps) st').
  { eapply live_ok_perm; [symmetry; by apply live_split_born|done]. }
  assert (Hold : forall i s, (i, s) ∈ ps -> birth_op s < op ->
            rng (sw_slots st') i = rng (sw_slots st) i).
  { intros i s Hi Hb. eapply rng_frame_1; [exact Hfr| |by eapply not_born_now].
    apply elem_of_internals in Hi. tauto. }
  assert (Hborn : forall i s, (i, s) ∈ ps -> birth_op s = op -> i ∈ live_at (op + 1) ps).
  { intros i s Hi Hb. apply (live_at_now op i s); [done|].
    rewrite Forall_forall in Hlife. specialize (Hlife _ Hi). unfold lifetime_ok in Hlife.
    simpl in *. lia. }
  split; auto.
  - rewrite Hbb, sizes_app. lia.
  - eapply frame_trans; [exact Hframe|exact Hfr|]. intros x Hx. by rewrite Hbb, elem_of_app.
  - intros i s Hi Hb. destruct (decide (birth_op s = op)) as [He|Hne].
    + eapply live_ok_chunk; [exact Hl'|]. by eapply Hborn.
    + rewrite (Hold i s Hi) by lia. pose proof (Hin i s Hi ltac:(lia)) as Hc.
      unfold chunk_ok in *. lia.
  - intros i s j t Hi Hj Hne Hbs Hbt [Ho1 Ho2].
    destruct (decide (birth_op s < op /\ birth_op t < op)) as [[Hs Ht]|Hnow].
    + rewrite (Hold i s Hi Hs), (Hold j t Hj Ht). by eapply Hdisj.
    + eapply live_ok_disj; [exact Hl'| | |done];
        [apply (live_at_now op i s)|apply (live_at_now op j t)]; auto;
        rewrite Forall_forall in Hlife; pose proof (Hlife _ Hi) as L1; pose proof (Hlife _ Hj) as L2;
        unfold lifetime_ok in L1, L2; simpl in *; lia.
Qed.

Lemma sweep_ops_inv ops : forall op death_off birth_off dead born st,
  (forall k, op <= k < op + Z.of_nat ops ->
    segment dead (aget 0 death_off k) (aget 0 death_off (k + 1)) = dying_at k ps /\
    segment born (aget 0 birth_off k) (aget 0 birth_off (k + 1)) = born_at k ps) ->
  sweep_inv op st ->
  sweep_inv (op + Z.of_nat ops) (sweep_ops ops op death_off birth_off dead born st).
Proof using All.
  induction ops as [|ops IH]; intros op doff boff dead born st Hseg Hinv.
  { by rewrite Z.add_0_r. }
  cbn [sweep_ops]. replace (op + Z.of_nat (S ops)) with ((op + 1) + Z.of_nat ops) by lia.
  apply IH; [intros k Hk; apply Hseg; lia|].
  destruct (Hseg op ltac:(lia)) as [-> ->]. by apply sweep_inv_step.
Qed.
End SweepInv.

(** ** The scan *)

Definition slot_wf (s : TensorSlot) : Prop :=
  in_width 32 (birth_op s) /\ in_width 32 (death_op s) /\ in_width 64 (nbytes s).

Definition externals (slots : list TensorSlot) : Z :=
  Z.of_nat (length (filter (fun s => is_external s = true) slots)).

Lemma externals_cons s slots :
  externals (s :: slots) = (if is_external s then 1 else 0) + externals slots.
Proof. unfold externals. rewrite filter_cons. destruct (is_external s); simpl; lia. Qed.

Lemma externals_internals id slots :
  externals slots + Z.of_nat (length (internals id slots)) = Z.of_nat (length slots).
Proof.
  revert id. induction slots as [|s slots IH]; intros id; [done|].
  rewrite externals_cons, internals_cons. specialize (IH (id + 1)).
  destruct (is_external s); simpl; lia.
Qed.

Record scan_ok (sc sc' : scan_state) (id : Z) (slots : list TensorSlot) : Prop := {
  so_life : Forall (fun p : islot => lifetime_ok p.2) (internals id slots);
  so_max : Forall (fun p : islot => death_op p.2 + 1 <= sc_max_op sc') (internals id slots);
  so_grow : sc_max_op sc <= sc_max_op sc' <= Z.max (sc_max_op sc) (MAX_DEATH_OP + 1);
  so_ext : sc_external sc' = u32 (sc_external sc + externals slots);
}.

Lemma scan_slots_ok slots : forall id sc sc',
  Forall slot_wf slots -> in_width 32 (sc_external sc) ->
  scan_slots sc slots = Ok sc' -> scan_ok sc sc' id slots.
Proof.
  induction slots as [|s slots IH]; intros id sc sc' Hwf He Hs.
  { simpl in Hs. simplify_eq. split; [constructor|constructor|lia|].
    unfold externals. simpl. by rewrite Z.add_0_r, wrap_small. }
  apply Forall_cons in Hwf as [(Hb & Hd & Hn) Hwf]. simpl in Hs. inv_ok.
  unfold scan_slot in Hok. unfold in_width, MAX_DEATH_OP, UINT32_MAX in *.
  assert (Hu : u32 (sc_external sc + externals (s :: slots))
    = u32 (u32 (sc_external sc + (if is_external s then 1 else 0)) + externals slots)).
  { rewrite externals_cons. unfold wrap. rewrite Zplus_mod_idemp_l. f_equal. lia. }
  destruct (is_external s) eqn:Hx; inv_ok.
  - apply (IH (id + 1)) in Hs as [H1 H2 H3 H4]; simpl in *; auto using wrap_range.
    + split; rewrite ?internals_cons, ?Hx; auto. congruence.
    + apply wrap_range. lia.
  - reflect_bools. apply (IH (id + 1)) in Hs as [H1 H2 H3 H4]; simpl in *; auto.
    rewrite (wrap_small 32 (death_op s + 1)) in * by lia.
    unfold MAX_DEATH_OP, UINT32_MAX in *.
    destruct (Z.ltb_spec (sc_max_op sc) (death_op s + 1)) as [Hlt|Hge];
      (split; rewrite ?internals_cons, ?Hx;
       [constructor; [unfold lifetime_ok, MAX_DEATH_OP, UINT32_MAX; simpl; lia|done]
       |constructor; [simpl; lia|done]|unfold MAX_DEATH_OP, UINT32_MAX; lia|]);
      rewrite H4, Hu, (wrap_small 32 (sc_external sc + 0)), Z.add_0_r by lia; done.
Qed.

(** The scan fails exactly on a lifetime that the sweep cannot index. *)
Definition lifetime_okb (s : TensorSlot) : bool :=
  is_external s || ((birth_op s <=? death_op s) && (death_op s <=? MAX_DEATH_OP)).

Lemma scan_slots_is_ok slots sc : is_ok (scan_slots sc slots) = forallb lifetime_okb slots.
Proof.
  revert sc. induction slots as [|s slots IH]; intros sc; [done|]. simpl.
  unfold scan_slot, lifetime_okb at 1. destruct (is_external s); simpl; [apply IH|].
  destruct (_ <=? _); simpl; [|done]. destruct (_ <=? _); simpl; [|done]. apply IH.
Qed.

(** ** The plan *)

Definition aligned_total (slots : list TensorSlot) : Z :=
  foldr (fun s acc => (if is_external s then 0 else aligned_size (nbytes s)) + acc) 0 slots.

Lemma sizes_internals slots : sizes slots (internals 0 slots).*1 = aligned_total slots.
Proof.
  assert (H : forall id pre, Z.of_nat (length pre) = id ->
    sizes (pre ++ slots) (internals id slots).*1 = aligned_total slots); [|by apply (H 0 [])].
  induction slots as [|s slots IH]; intros id pre Hid; [done|].
  assert (Hrec : sizes (pre ++ s :: slots) (internals (id + 1) slots).*1 = aligned_total slots).
  { rewrite (cons_middle s pre slots), app_assoc. apply IH. rewrite length_app. simpl. lia. }
  rewrite internals_cons. simpl. destruct (is_external s); [lia|]. csimpl. rewrite Hrec.
  f_equal. unfold sz, slot_at, aget. rewrite lookup_app_r by lia.
  replace (Z.to_nat id - length pre)%nat with 0%nat by lia. done.
Qed.

(** The bytes of an internal slot of a plan. *)
Definition slot_range (s : TensorSlot) : range := (offset_bytes s, aligned_size (nbytes s)).

Record plan_safe (slots : list TensorSlot) (plan : MemoryPlan) : Prop := {
  ps_slots : Forall2 (fun s t => t = set_slot_offset s (offset_bytes t)) slots (plan_slots plan);
  ps_place i s : plan_slots plan !! i = Some s -> is_external s = false ->
    chunk_ok (pool_bytes plan) (slot_range s);
  ps_disjoint i j s t : plan_slots plan !! i = Some s -> plan_slots plan !! j = Some t -> i <> j ->
    is_external s = false -> is_external t = false -> overlap s t ->
    rdisj (slot_range s) (slot_range t);
  ps_bytes : 0 <= pool_bytes plan <= aligned_total slots;
}.

Lemma bucket_births ps k : bucket (birth_event <$> ps) k = born_at k ps.
Proof.
  unfold bucket, born_at, ids_of. induction ps as [|p ps IH]; [done|]. csimpl.
  rewrite !filter_cons. simpl. case_decide; csimpl; congruence.
Qed.

Lemma bucket_deaths m ps k :
  Forall (fun p : islot => lifetime_ok p.2) ps -> Forall (fun p : islot => death_op p.2 + 1 < m) ps ->
  bucket (death_event <$> deaths_in m ps) k = dying_at k ps /\
  keys_in m (death_event <$> deaths_in m ps).
Proof.
  unfold bucket, dying_at, ids_of, deaths_in, keys_in.
  induction 1 as [|p ps Hp Hps IH]; intros Hm; [by split; [|constructor]|].
  apply Forall_cons in Hm as [Hpm Hm]. destruct (IH Hm) as [IH1 IH2].
  unfold lifetime_ok, MAX_DEATH_OP, UINT32_MAX in Hp.
  assert (Hf : free_at p.2 = death_op p.2 + 1) by (unfold free_at; apply wrap_small; lia).
  rewrite filter_cons, decide_True by lia. csimpl. rewrite !filter_cons. simpl. rewrite Hf. split.
  - case_decide; csimpl; congruence.
  - constructor; [simpl; lia|done].
Qed.

(** The plan from the invariant at the end of the sweep. *)
Lemma sweep_inv_safe slots op st plan :
  Forall (fun p : islot => lifetime_ok p.2) (internals 0 slots) ->
  Forall (fun p : islot => birth_op p.2 < op) (internals 0 slots) ->
  sweep_inv slots op st -> plan_slots plan = sw_slots st -> pool_bytes plan = pool_end st ->
  plan_safe slots plan.
Proof.
  intros Hlife Hop [Hlive Hend [Hlen Hmeta Hkeep] Hin Hdisj] Hps Hpb.
  assert (Hint : forall i t, plan_slots plan !! i = Some t -> exists s,
    slots !! i = Some s /\ t = set_slot_offset s (offset_bytes t) /\
    slot_range t = rng (sw_slots st) (Z.of_nat i)).
  { intros i t Ht. rewrite Hps in Ht.
    assert (Hs : is_Some (slots !! i)).
    { apply lookup_lt_is_Some. rewrite <- Hlen. by eapply lookup_lt_Some. }
    destruct Hs as [s Hs]. exists s. split; [done|].
    destruct (Hmeta (Z.of_nat i)) as [o Ho]; [lia|].
    unfold rng, off, sz, slot_at, aget in *. rewrite Nat2Z.id, Hs, Ht in *. simpl in *. by subst t. }
  assert (Hi : forall i t, plan_slots plan !! i = Some t -> is_external t = false ->
    exists s, (Z.of_nat i, s) ∈ internals 0 slots /\ t = set_slot_offset s (offset_bytes t) /\
      birth_op s < op /\ slot_range t = rng (sw_slots st) (Z.of_nat i)).
  { intros i t Ht Hx. destruct (Hint i t Ht) as (s & Hs & Heq & Hr).
    assert (Hel : (Z.of_nat i, s) ∈ internals 0 slots).
    { apply elem_of_internals. rewrite Nat2Z.id. split_and!; [lia|done|]. by rewrite Heq in Hx. }
    exists s. split_and!; auto. rewrite Forall_forall in Hop. by apply (Hop _ Hel). }
  split.
  - apply Forall2_same_length_lookup_2; [by rewrite Hps|].
    intros i s t Hs Ht. destruct (Hint i t Ht) as (s' & Hs' & Heq & _). congruence.
  - intros i t Ht Hx. destruct (Hi i t Ht Hx) as (s & Hel & _ & Hb & ->).
    rewrite Hpb. by eapply Hin.
  - intros i j t u Ht Hu Hne Hxt Hxu Ho.
    destruct (Hi i t Ht Hxt) as (s & Hel & Heq & Hb & ->).
    destruct (Hi j u Hu Hxu) as (s' & Hel' & Heq' & Hb' & ->).
    eapply Hdisj; eauto; [lia|]. rewrite Heq, Heq' in Ho. done.
  - destruct Hlive as (_ & _ & ? & _). rewrite Hpb. split; [done|].
    rewrite <- sizes_internals. etrans; [exact Hend|]. apply sizes_ids_of.
Qed.

Lemma no_internals_safe slots plan :
  internals 0 slots = [] -> plan_slots plan = slots -> pool_bytes plan = 0 -> plan_safe slots plan.
Proof.
  intros Hnil Hs Hb.
  apply (sweep_inv_safe slots 0 {| sw_slots := slots; free_list := []; pool_end := 0 |});
    rewrite ?Hnil; auto. apply sweep_inv_init; [|done]. by rewrite Hnil.
Qed.

Lemma compute_memory_plan_safe rank world_size capability slots plan :
  Forall slot_wf slots -> Z.of_nat (length slots) < 2 ^ 32 -> aligned_total slots < 2 ^ 64 ->
  compute_memory_plan rank world_size capability slots = Ok plan -> plan_safe slots plan.
Proof.
  intros Hwf Hlen Hsum. unfold compute_memory_plan.
  destruct (Z.eqb_spec (Z.of_nat (length slots)) 0) as [H0|_].
  { intros [= <-]. apply no_internals_safe; auto. by destruct slots. }
  intros H. inv_ok. apply (scan_slots_ok _ 0) in Hok as [Hlife Hmax Hgrow Hext];
    [|done|unfold in_width; simpl; lia].
  pose proof (externals_internals 0 slots) as Hei.
  assert (He0 : 0 <= externals slots) by (unfold externals; lia).
  simpl in Hext, Hgrow. unfold MAX_DEATH_OP, UINT32_MAX in Hgrow.
  rewrite Z.add_0_l, wrap_small in Hext by lia. rewrite Hext in H.
  rewrite (wrap_small 32 (Z.of_nat _ - _)), (wrap_small 32 (_ + 1)) in H by lia.
  destruct (Z.eqb_spec (Z.of_nat (length slots) - externals slots) 0) as [Hz|_].
  { injection H as <-. apply no_internals_safe; [|done|done]. apply nil_length_inv. lia. }
  set (m := sc_max_op a + 1) in *. set (ps := internals 0 slots) in *.
  rewrite (count_events_spec _ _ 0), scatter_spec in H. cbv zeta in H.
  simplify_eq. simpl. fold ps.
  assert (Hdm : Forall (fun p : islot => death_op p.2 + 1 < m) ps).
  { eapply Forall_impl; [exact Hmax|]. simpl. intros; lia. }
  assert (Hbm : Forall (fun p : islot => birth_op p.2 < m) ps).
  { rewrite Forall_forall in *. intros p Hp. specialize (Hdm p Hp). specialize (Hlife p Hp).
    unfold lifetime_ok in Hlife. lia. }
  eapply (sweep_inv_safe slots (0 + Z.of_nat (Z.to_nat m))); [done| | |reflexivity|reflexivity].
  { replace (0 + Z.of_nat (Z.to_nat m)) with m by lia. done. }
  simpl. apply sweep_ops_inv; [done|by rewrite sizes_internals| |by apply sweep_inv_init].
  intros k Hk. split.
  - rewrite counting_sort_segment; [apply (bucket_deaths m)|..]; auto; try lia.
    + by apply (bucket_deaths m _ 0).
    + rewrite length_fmap. pose proof (length_filter (fun p : islot => free_at p.2 < m) ps).
      unfold deaths_in. lia.
    + rewrite length_fmap. pose proof (length_filter (fun p : islot => free_at p.2 < m) ps).
      unfold deaths_in. lia.
  - rewrite counting_sort_segment; [apply bucket_births|..]; rewrite ?length_fmap; auto; try lia.
    unfold keys_in. rewrite Forall_fmap. rewrite Forall_forall in *. intros p Hp.
    specialize (Hbm p Hp). specialize (Hlife p Hp). unfold lifetime_ok in Hlife. simpl. lia.
Qed.

Lemma plan_is_ok rank world_size capability slots :
  is_ok (compute_memory_plan rank world_size capability slots) = forallb lifetime_okb slots.
Proof.
  unfold compute_memory_plan. destruct (Z.eqb_spec (Z.of_nat (length slots)) 0) as [H0|_].
  { by destruct slots. }
  rewrite <- (scan_slots_is_ok slots {| sc_external := 0; sc_device_type := CPU;
    sc_device_idx := -1; sc_max_op := 0 |}).
  destruct (scan_slots _ slots); simpl; [|done]. destruct (_ =? 0); [done|].
  by destruct (count_events _ _ _ _).
Qed.

(** C2: the planner ends the process exactly on a pooled slot whose birth is
    after its death, or whose death is above the largest op the sweep can
    index; on every other input it returns a plan. *)
Theorem memory_plan_total rank world_size capability slots :
  is_ok (compute_memory_plan rank world_size capability slots) = forallb lifetime_okb slots.
Proof. apply plan_is_ok. Qed.
