(* ===== verification/Registry.v ===== *)
(** * Registry.v: the hot-region registry (include/crucible/warden/Registry.h)

    The registry is a table of 256 slots, a slot with a null address is free.
    The model runs each member to its end before the next one starts, so no
    slot is seen with the claim marker of a writer.  The specification is a
    finite map from addresses to descriptions. *)

From stdpp Require Import base list gmap strings.
From Stdlib Require Import ZArith Lia.
From S2P Require Import Prelude.
#[local] Open Scope Z_scope.
#[local] Open Scope result_scope.

Record HotRegion := mkHotRegion {
  addr : Z;
  len : Z;
  huge_hint : bool;
  label : string;
}.

Definition max_regions : nat := 256.
Definition claimed_addr : Z := 1.
Definition kHugePageBytes : Z := 2 * 1024 * 1024.

Abbreviation registry := (list HotRegion).

Definition free_slot : HotRegion :=
  {| addr := 0; len := 0; huge_hint := false; label := "" |}.

Definition new_registry : registry := replicate max_regions free_slot.

(** Writes [d] over the first slot whose address is [a]. *)
Fixpoint replace_first (a : Z) (d : HotRegion) (r : registry) : option registry :=
  match r with
  | [] => None
  | s :: r => if addr s =? a then Some (d :: r) else cons s <$> replace_first a d r
  end.

Definition register_region (r : registry) (a n : Z) (huge : bool) (lbl : string)
    : result registry :=
  if (a =? 0) || (n =? 0) then Ok r
  else
    let d := {| addr := a; len := n; huge_hint := huge; label := lbl |} in
    match replace_first a d r with
    | Some r => Ok r
    | None =>
        match replace_first 0 d r with
        | Some r => Ok r
        | None => Fatal "std::abort: the registry is full"
        end
    end.

(** The compare-exchange of unregister_region writes only the address. *)
Definition clear_addr (s : HotRegion) : HotRegion :=
  {| addr := 0; len := len s; huge_hint := huge_hint s; label := label s |}.

Fixpoint clear_first (a : Z) (r : registry) : registry :=
  match r with
  | [] => []
  | s :: r => if addr s =? a then clear_addr s :: r else s :: clear_first a r
  end.

Definition unregister_region (r : registry) (a : Z) : registry :=
  if a =? 0 then r else clear_first a r.

Definition occupied (s : HotRegion) : bool := negb (addr s =? 0) && negb (addr s =? claimed_addr).

Definition snapshot (r : registry) : list HotRegion := List.filter occupied r.

Definition registry_size (r : registry) : Z := Z.of_nat (length (List.filter occupied r)).

(** ** The specification: a map from addresses to descriptions *)

Definition used_slots (r : registry) : list HotRegion := List.filter (fun s => negb (addr s =? 0)) r.

Definition regions (r : registry) : gmap Z HotRegion :=
  list_to_map ((fun s => (addr s, s)) <$> used_slots r).

Definition registry_ok (r : registry) : Prop := NoDup (addr <$> used_slots r).

Definition spec_register (m : gmap Z HotRegion) (a n : Z) (huge : bool) (lbl : string)
    : gmap Z HotRegion :=
  if (a =? 0) || (n =? 0) then m else <[a := mkHotRegion a n huge lbl]> m.

Lemma regions_cons s r :
  regions (s :: r) = if addr s =? 0 then regions r else <[addr s := s]> (regions r).
Proof. unfold regions, used_slots. simpl. by destruct (addr s =? 0). Qed.

Lemma regions_none a r : a <> 0 -> a ∉ addr <$> used_slots r -> regions r !! a = None.
Proof.
  intros Ha Hn. apply not_elem_of_list_to_map_1. by rewrite <- list_fmap_compose.
Qed.

Lemma used_cons s r :
  addr <$> used_slots (s :: r)
  = if addr s =? 0 then addr <$> used_slots r else addr s :: (addr <$> used_slots r).
Proof. unfold used_slots. simpl. by destruct (addr s =? 0). Qed.

Lemma replace_first_none a d r :
  a <> 0 -> replace_first a d r = None <-> a ∉ addr <$> used_slots r.
Proof.
  intros Ha. induction r as [|s r IH]; [split; [intros _; apply not_elem_of_nil|done]|].
  rewrite used_cons. simpl. destruct (Z.eqb_spec (addr s) a) as [He|Hne].
  - split; [done|]. intros H. exfalso. apply H.
    destruct (Z.eqb_spec (addr s) 0); [lia|]. rewrite He. by left.
  - rewrite fmap_None, IH. destruct (Z.eqb_spec (addr s) 0); [done|].
    rewrite not_elem_of_cons. split; [intros; split; [congruence|done]|tauto].
Qed.

Lemma replace_first_same a d r r' :
  a <> 0 -> addr d = a -> replace_first a d r = Some r' ->
  addr <$> used_slots r' = addr <$> used_slots r /\ (registry_ok r -> regions r' = <[a := d]> (regions r)).
Proof.
  intros Ha Hd. revert r'. induction r as [|s r IH]; intros r' Hr; [done|]. simpl in Hr.
  destruct (Z.eqb_spec (addr s) a) as [He|Hne].
  - injection Hr as <-. rewrite !used_cons, !regions_cons, Hd, He.
    destruct (Z.eqb_spec a 0); [lia|]. split; [done|]. intros _. by rewrite insert_insert_eq.
  - apply fmap_Some in Hr as (r2 & Hr2 & ->). destruct (IH r2 Hr2) as [IH1 IH2].
    unfold registry_ok. rewrite !used_cons, !regions_cons, IH1. split; [done|].
    destruct (Z.eqb_spec (addr s) 0); [done|]. intros [_ Hnd]%NoDup_cons.
    rewrite IH2 by done. by rewrite insert_insert_ne by done.
Qed.

Lemma replace_first_free a d r r' :
  a <> 0 -> addr d = a -> a ∉ addr <$> used_slots r -> replace_first 0 d r = Some r' ->
  addr <$> used_slots r' ≡ₚ a :: (addr <$> used_slots r) /\ regions r' = <[a := d]> (regions r).
Proof.
  intros Ha Hd. revert r'. induction r as [|s r IH]; intros r' Hn Hr; [done|]. simpl in Hr.
  rewrite used_cons in Hn. destruct (Z.eqb_spec (addr s) 0) as [He|Hne].
  - injection Hr as <-. rewrite !used_cons, !regions_cons, Hd, He.
    destruct (Z.eqb_spec a 0); [lia|]. done.
  - apply fmap_Some in Hr as (r2 & Hr2 & ->). apply not_elem_of_cons in Hn as [Hna Hn].
    destruct (IH r2 Hn Hr2) as [IH1 IH2]. rewrite !used_cons, !regions_cons, IH2.
    destruct (Z.eqb_spec (addr s) 0); [done|]. split.
    + rewrite IH1. apply perm_swap.
    + by rewrite insert_insert_ne by congruence.
Qed.

Lemma register_region_ok r a n huge lbl r' :
  registry_ok r -> register_region r a n huge lbl = Ok r' ->
  registry_ok r' /\ regions r' = spec_register (regions r) a n huge lbl.
Proof.
  intros Hok. unfold register_region, spec_register.
  destruct (Z.eqb_spec a 0) as [->|Ha]; simpl; [by intros [= <-]|].
  destruct (n =? 0); [by intros [= <-]|].
  set (d := mkHotRegion a n huge lbl). fold d.
  destruct (replace_first a d r) as [r1|] eqn:H1.
  - intros [= <-]. destruct (replace_first_same a d r r1 Ha eq_refl H1) as [Hu Hr].
    split; [unfold registry_ok; by rewrite Hu|auto].
  - apply replace_first_none in H1; [|done].
    destruct (replace_first 0 d r) as [r2|] eqn:H2; [|done]. intros [= <-].
    destruct (replace_first_free a d r r2 Ha eq_refl H1 H2) as [Hu Hr].
    split; [|done]. unfold registry_ok. rewrite Hu. by apply NoDup_cons.
Qed.

Lemma regions_0 r : regions r !! 0 = None.
Proof.
  induction r as [|s r IH]; [done|]. rewrite regions_cons.
  destruct (Z.eqb_spec (addr s) 0); [done|]. by rewrite lookup_insert_ne.
Qed.

Lemma unregister_region_ok r a :
  registry_ok r ->
  registry_ok (unregister_region r a) /\ regions (unregister_region r a) = delete a (regions r).
Proof.
  intros Hok. unfold unregister_region. destruct (Z.eqb_spec a 0) as [->|Ha].
  { split; [done|]. by rewrite delete_id by apply regions_0. }
  assert (H : (forall x, x ∈ addr <$> used_slots (clear_first a r) -> x ∈ addr <$> used_slots r) /\
    registry_ok (clear_first a r) /\ regions (clear_first a r) = delete a (regions r)); [|tauto].
  revert Hok. unfold registry_ok. induction r as [|s r IH]; intros Hok.
  { simpl. split_and!; auto. }
  simpl. rewrite used_cons in *. destruct (Z.eqb_spec (addr s) a) as [He|Hne].
  - rewrite used_cons, !regions_cons. simpl. rewrite He in *.
    destruct (Z.eqb_spec a 0); [lia|]. apply NoDup_cons in Hok as [Hn Hok]. split_and!; auto.
    + intros x Hx. by right.
    + rewrite delete_insert_eq, delete_id by (by apply regions_none). done.
  - rewrite used_cons, !regions_cons. destruct (Z.eqb_spec (addr s) 0) as [H0|H0].
    + destruct (IH Hok) as (? & ? & ?). auto.
    + apply NoDup_cons in Hok as [Hn Hok]. destruct (IH Hok) as (IH1 & IH2 & IH3). split_and!.
      * intros x [->|Hx]%elem_of_cons; [by left|right; auto].
      * apply NoDup_cons. auto.
      * rewrite IH3. by rewrite delete_insert_ne by done.
Qed.

(** The registry is full only when every slot describes another address. *)
Lemma replace_free_none d r :
  replace_first 0 d r = None -> length (used_slots r) = length r.
Proof.
  induction r as [|s r IH]; [done|]. unfold used_slots in *. simpl.
  destruct (Z.eqb_spec (addr s) 0); [done|]. rewrite fmap_None. simpl. intros H. by rewrite IH.
Qed.

Lemma size_regions r : registry_ok r -> size (regions r) = length (used_slots r).
Proof.
  unfold registry_ok. induction r as [|s r IH]; [done|].
  rewrite used_cons, regions_cons. unfold used_slots in *. simpl.
  destruct (addr s =? 0) eqn:E; simpl; [done|]. apply Z.eqb_neq in E.
  intros [Hn Hnd]%NoDup_cons. rewrite map_size_insert_None, IH; auto.
  apply regions_none; [lia|done].
Qed.

Lemma length_replace_first a d r r' : replace_first a d r = Some r' -> length r' = length r.
Proof.
  revert r'. induction r as [|s r IH]; intros r'; simpl; [done|].
  destruct (_ =? _); [by intros [= <-]|]. intros (r2 & H & ->)%fmap_Some. simpl. f_equal. auto.
Qed.

Lemma length_register r a n huge lbl r' :
  register_region r a n huge lbl = Ok r' -> length r' = length r.
Proof.
  unfold register_region. destruct (_ || _); [by intros [= <-]|].
  destruct (replace_first a _ r) eqn:H1; [intros [= <-]; by eapply length_replace_first|].
  destruct (replace_first 0 _ r) eqn:H2; [intros [= <-]; by eapply length_replace_first|done].
Qed.

Lemma length_unregister r a : length (unregister_region r a) = length r.
Proof.
  unfold unregister_region. destruct (_ =? _); [done|].
  induction r as [|s r IH]; simpl; [done|]. destruct (_ =? _); simpl; congruence.
Qed.

(** Each member of the class, as an event. *)
Inductive reg_op :=
| Register (a n : Z) (huge : bool) (lbl : string)
| Unregister (a : Z).

Definition run_reg_op (r : registry) (o : reg_op) : result registry :=
  match o with
  | Register a n huge lbl => register_region r a n huge lbl
  | Unregister a => Ok (unregister_region r a)
  end.

Fixpoint run_reg_ops (r : registry) (os : list reg_op) : result registry :=
  match os with [] => Ok r | o :: os => let* r := run_reg_op r o in run_reg_ops r os end.

Definition spec_op (m : gmap Z HotRegion) (o : reg_op) : gmap Z HotRegion :=
  match o with
  | Register a n huge lbl => spec_register m a n huge lbl
  | Unregister a => delete a m
  end.

Lemma run_reg_op_ok r o r' :
  registry_ok r -> run_reg_op r o = Ok r' ->
  registry_ok r' /\ regions r' = spec_op (regions r) o /\ length r' = length r.
Proof.
  destruct o as [a n huge lbl|a]; simpl; intros Hok H.
  - destruct (register_region_ok r a n huge lbl r' Hok H). split_and!; auto. by eapply length_register.
  - inv_ok. destruct (unregister_region_ok r a Hok). auto using length_unregister.
Qed.

Lemma run_reg_ops_ok os : forall r r',
  registry_ok r -> run_reg_ops r os = Ok r' ->
  registry_ok r' /\ regions r' = foldl spec_op (regions r) os /\ length r' = length r.
Proof.
  induction os as [|o os IH]; intros r r' Hok H; simpl in *; inv_ok; [done|].
  destruct (run_reg_op_ok _ _ _ Hok Hok0) as (H1 & H2 & H3).
  destruct (IH _ _ H1 H) as (H4 & H5 & H6). rewrite <- H2. split_and!; auto. congruence.
Qed.

Lemma new_registry_ok : registry_ok new_registry /\ regions new_registry = ∅.
Proof. split; [apply NoDup_nil_2|done]. Qed.

Lemma elem_of_snapshot r d :
  registry_ok r -> d ∈ snapshot r <-> addr d <> claimed_addr /\ regions r !! addr d = Some d.
Proof.
  intros Hok. unfold snapshot, regions. rewrite <- elem_of_list_to_map.
  - rewrite list_elem_of_In, filter_In, list_elem_of_fmap. unfold occupied, used_slots. split.
    + intros [Hin Ho]. apply andb_prop in Ho as [H0 H1]. apply negb_true_iff in H1.
      split; [by apply Z.eqb_neq|]. exists d. split; [done|].
      by apply list_elem_of_In, filter_In.
    + intros (H1 & e & [= _ <-] & [Hin H0]%list_elem_of_In%filter_In). split; [done|].
      rewrite H0. simpl. by apply negb_true_iff, Z.eqb_neq.
  - rewrite <- list_fmap_compose. exact Hok.
Qed.

Lemma register_region_full r a n huge lbl :
  registry_ok r -> is_ok (register_region r a n huge lbl) = false ->
  a <> 0 /\ n <> 0 /\ regions r !! a = None /\ size (regions r) = length r.
Proof.
  intros Hok. unfold register_region. destruct (Z.eqb_spec a 0) as [|Ha]; [done|].
  destruct (Z.eqb_spec n 0) as [|Hn]; [done|]. simpl.
  destruct (replace_first a _ r) eqn:H1; [done|]. apply replace_first_none in H1; [|done].
  destruct (replace_first 0 _ r) eqn:H2; [done|]. intros _. split_and!; auto.
  - by apply regions_none.
  - rewrite size_regions by done. by eapply replace_free_none.
Qed.

(** The registry refines a map from addresses to descriptions.  After any
    sequence of registrations and withdrawals that returns, the table holds
    one description for each address, the last one given; the snapshot lists
    the entries of the map; and a registration aborts only when the map has
    256 entries and none for the address. *)
Theorem registry_refines_map os r :
  run_reg_ops new_registry os = Ok r ->
  regions r = foldl spec_op ∅ os /\
  (forall d, d ∈ snapshot r <-> addr d <> claimed_addr /\ regions r !! addr d = Some d) /\
  (forall a n huge lbl, is_ok (register_region r a n huge lbl) = false ->
     regions r !! a = None /\ size (regions r) = 256%nat).
Proof.
  intros H. destruct new_registry_ok as [Hok Hr].
  destruct (run_reg_ops_ok _ _ _ Hok H) as (H1 & H2 & H3). rewrite Hr in H2. split_and!; auto.
  - intros d. by apply elem_of_snapshot.
  - intros a n huge lbl Hf.
    destruct (register_region_full _ _ _ _ _ H1 Hf) as (_ & _ & Hn & Hs). split; [done|].
    rewrite Hs, H3. apply length_replicate.
Qed.

Lemma registry_refines_map_witness :
  exists r, regions r
    = foldl spec_op ∅ [Register 4096 64 false "a"; Register 8192 64 true "b";
                       Register 4096 128 true "c"; Unregister 8192].
Proof.
  destruct (run_reg_ops new_registry
    [Register 4096 64 false "a"; Register 8192 64 true "b";
     Register 4096 128 true "c"; Unregister 8192]) as [r|] eqn:H; [|by vm_compute in H].
  exists r. exact (proj1 (registry_refines_map _ r H)).
Defined.
