(* ===== verification/Pool.v ===== *)
(** * Pool.v: the pool allocator (include/crucible/PoolAllocator.h)

    The pool turns a memory plan into one aligned allocation and a table of
    pointers, one for each slot.  A null pointer is 0.  The plan's array of
    slots with its count is a list.  The two library allocators it calls are
    the interface [PoolMem]; the world is the heap and the hot-region
    registry.  The fill of a fresh pool with 0xCD in a debug build is not
    modelled. *)

From stdpp Require Import base list gmap strings.
From Stdlib Require Import ZArith Lia.
From S2P Require Import Prelude Types Arena Registry MemoryPlan.
#[local] Open Scope Z_scope.
#[local] Open Scope result_scope.

(** ** std::aligned_alloc and std::calloc *)

Class PoolMem := {
  aligned_alloc : heap -> Z -> Z -> option Z;
  calloc : heap -> Z -> Z -> option Z;
}.

(** A block of aligned_alloc is not null, has the alignment asked for, lies in
    the user half of the address space and overlaps no live allocation; so
    does a block of calloc, with its own alignment. *)
Class PoolMemOk (M : PoolMem) := {
  aligned_alloc_pos h a n p : aligned_alloc h a n = Some p -> 0 < p;
  aligned_alloc_aligned h a n p : aligned_alloc h a n = Some p -> p mod a = 0;
  aligned_alloc_limit h a n p : aligned_alloc h a n = Some p -> p + n <= 2 ^ 63;
  aligned_alloc_fresh h a n p : aligned_alloc h a n = Some p -> Forall (rdisj (p, n)) h;
  calloc_pos h k n p : calloc h k n = Some p -> 0 < p;
  calloc_fresh h k n p : calloc h k n = Some p -> Forall (rdisj (p, k * n)) h;
}.

Record world := mkWorld { w_heap : heap; w_reg : registry }.

(** ** The state *)

(** [ptr_table_] is null or the address of the table with its entries. *)
Record PoolAllocator := mkPool {
  pool_ : Z;
  ptr_table_ : option (Z * list Z);
  pool_bytes_ : Z;
  num_slots_ : Z;
  num_external_ : Z;
}.

Definition new_pool : PoolAllocator :=
  {| pool_ := 0; ptr_table_ := None; pool_bytes_ := 0; num_slots_ := 0; num_external_ := 0 |}.

Definition POOL_ALIGNMENT : Z := 256.
Definition kMaxNumSlots : Z := Z.shiftl 1 20.
Definition kMaxPoolBytes : Z := Z.shiftl 256 30.

Definition in_range (v lo hi : Z) : bool := (lo <=? v) && (v <=? hi).

Definition pool_is_initialized (P : PoolAllocator) : bool := is_Some_b (ptr_table_ P).

(** ** The operations *)

Definition can_serve_slot (s : TensorSlot) (bytes : Z) : bool :=
  if is_external s then true
  else if 2 ^ 64 <=? offset_bytes s + nbytes s then false
  else (offset_bytes s + nbytes s <=? bytes) && (offset_bytes s mod POOL_ALIGNMENT =? 0).

Definition why_unservable : string := "PoolAllocator: a slot does not fit the pool".

(** The loop of init that fills the table. *)
Fixpoint fill_table (base bytes : Z) (slots : list TensorSlot) : result (list Z) :=
  match slots with
  | [] => Ok []
  | s :: slots =>
      let* _ := require (can_serve_slot s bytes) why_unservable in
      let* tbl := fill_table base bytes slots in
      Ok ((if is_external s then 0 else base + offset_bytes s) :: tbl)
  end.

Section Ops.
Context `{M : PoolMem}.

Definition pool_align (bytes : Z) : Z :=
  if kHugePageBytes <=? bytes then kHugePageBytes else POOL_ALIGNMENT.

Definition pool_alloc_size (bytes : Z) : Z :=
  let page_align := pool_align bytes in
  Z.land (add_sat 64 bytes (page_align - 1)) (lnot64 (page_align - 1)).

(** The second half of init: the table. *)
Definition init_table (base : Z) (plan : MemoryPlan) (w : world)
    : result (option (Z * list Z) * world) :=
  if 0 <? num_slots plan then
    match calloc (w_heap w) (num_slots plan) 8 with
    | None => Fatal "std::abort: calloc failed"
    | Some t =>
        let* tbl := fill_table base (pool_bytes plan) (plan_slots plan) in
        Ok (Some (t, tbl), {| w_heap := (t, num_slots plan * 8) :: w_heap w; w_reg := w_reg w |})
    end
  else Ok (None, w).

Definition pool_init (P : PoolAllocator) (w : world) (plan : MemoryPlan)
    : result (PoolAllocator * world) :=
  let* _ := require (negb (is_Some_b (ptr_table_ P))) "ptr_table_ == nullptr" in
  let* _ := require (pool_ P =? 0) "pool_ == nullptr" in
  let* _ := require (in_range (num_slots plan) 0 kMaxNumSlots) "num_slots <= kMaxNumSlots" in
  let* _ := require (in_range (pool_bytes plan) 0 kMaxPoolBytes) "pool_bytes <= kMaxPoolBytes" in
  let* _ := require (num_external plan <=? num_slots plan) "num_external <= num_slots" in
  let bytes := pool_bytes plan in
  let* '(base, w) :=
    if 0 <? bytes then
      let page_align := pool_align bytes in
      let alloc_size := pool_alloc_size bytes in
      match aligned_alloc (w_heap w) page_align alloc_size with
      | None => Fatal "std::abort: aligned_alloc failed"
      | Some p =>
          let huge := page_align =? kHugePageBytes in
          let* reg := register_region (w_reg w) p alloc_size huge "PoolAllocator.pool" in
          Ok (p, {| w_heap := (p, alloc_size) :: w_heap w; w_reg := reg |})
      end
    else Ok (0, w) in
  let* '(table, w) := init_table base plan w in
  Ok ({| pool_ := base; ptr_table_ := table; pool_bytes_ := bytes;
         num_slots_ := num_slots plan; num_external_ := num_external plan |}, w).

(** std::free of a pointer that can be null. *)
Definition free_ptr (p : Z) (h : heap) : heap := if p =? 0 then h else free p h.

Definition pool_destroy (P : PoolAllocator) (w : world) : PoolAllocator * world :=
  let reg := if pool_ P =? 0 then w_reg w else unregister_region (w_reg w) (pool_ P) in
  let h := free_ptr (pool_ P) (w_heap w) in
  let h := match ptr_table_ P with Some (t, _) => free_ptr t h | None => h end in
  (new_pool, {| w_heap := h; w_reg := reg |}).

(** initialized_view_, the check that a view of the pool is minted with. *)
Definition initialized_view (P : PoolAllocator) : result (Z * list Z) :=
  match ptr_table_ P with
  | Some table => Ok table
  | None => Fatal "is_initialized()"
  end.

Definition slot_ptr (P : PoolAllocator) (sid : Z) : result Z :=
  let* '(_, tbl) := initialized_view P in
  let* _ := require (0 <? num_slots_ P) "num_slots_ > 0" in
  let* _ := require (in_range sid 0 (num_slots_ P - 1)) "sid < num_slots_" in
  Ok (aget 0 tbl sid).

Definition pool_register_external (P : PoolAllocator) (sid ptr : Z) : result PoolAllocator :=
  let* '(t, tbl) := initialized_view P in
  let* _ := require (0 <? num_slots_ P) "num_slots_ > 0" in
  let* _ := require (in_range sid 0 (num_slots_ P - 1)) "sid < num_slots_" in
  Ok {| pool_ := pool_ P; ptr_table_ := Some (t, aset tbl sid ptr);
        pool_bytes_ := pool_bytes_ P; num_slots_ := num_slots_ P;
        num_external_ := num_external_ P |}.

Record DetachedPool := mkDetached { dp_base : Z; dp_bytes : Z }.

Definition pool_detach (P : PoolAllocator) (w : world)
    : result (DetachedPool * PoolAllocator * world) :=
  let* _ := initialized_view P in
  let d := {| dp_base := pool_ P; dp_bytes := pool_bytes_ P |} in
  let w := {| w_heap := w_heap w; w_reg := unregister_region (w_reg w) (pool_ P) |} in
  let P := {| pool_ := 0; ptr_table_ := ptr_table_ P; pool_bytes_ := pool_bytes_ P;
              num_slots_ := num_slots_ P; num_external_ := num_external_ P |} in
  let '(P, w) := pool_destroy P w in
  Ok (d, P, w).

(** ~DetachedPool *)
Definition detached_destroy (d : DetachedPool) (w : world) : world :=
  {| w_heap := free_ptr (dp_base d) (w_heap w); w_reg := w_reg w |}.
End Ops.

(** ** live_intervals_disjoint_at (include/crucible/MerkleDag.h) *)

(** decide::intervals_pairwise_disjoint, over pairs of a low and a high end. *)
Definition pair_disjoint (a b : Z * Z) : bool :=
  (a.1 =? a.2) || (b.1 =? b.2) || (a.2 <=? b.1) || (b.2 <=? a.1).

Fixpoint pairs_disjoint (ivs : list (Z * Z)) : bool :=
  match ivs with
  | [] => true
  | iv :: ivs => forallb (pair_disjoint iv) ivs && pairs_disjoint ivs
  end.

Definition intervals_pairwise_disjoint (ivs : list (Z * Z)) : bool :=
  forallb (fun iv => iv.1 <=? iv.2) ivs && pairs_disjoint ivs.

(** The collection loop: [None] is an early return of false. *)
Fixpoint live_intervals (MaxLive : nat) (slots : list TensorSlot) (t : Z) (live : list (Z * Z))
    : option (list (Z * Z)) :=
  match slots with
  | [] => Some live
  | s :: slots =>
      if is_external s then live_intervals MaxLive slots t live
      else if (birth_op s <=? t) && (t <=? death_op s) then
        if (MaxLive <=? length live)%nat then None
        else if 2 ^ 64 <=? offset_bytes s + nbytes s then None
        else live_intervals MaxLive slots t
               (live ++ [(offset_bytes s, offset_bytes s + nbytes s)])
      else live_intervals MaxLive slots t live
  end.

Definition live_intervals_disjoint_at (MaxLive : nat) (slots : list TensorSlot) (t : Z) : bool :=
  match live_intervals MaxLive slots t [] with
  | Some live => intervals_pairwise_disjoint live
  | None => false
  end.
