(* ===== verification/PoolProofs.v ===== *)
(** * PoolProofs.v: the pool serves the plan

    The planner's output passes every check of the pool, the pool's pointers
    of slots that are live together name disjoint bytes of one allocation, and
    the program's own checker of a plan accepts it. *)

From stdpp Require Import base list gmap strings.
From Stdlib Require Import ZArith Lia.
From S2P Require Import Prelude Types Arena Registry MemoryPlan PlanSweep PlanProofs Pool.
#[local] Open Scope Z_scope.
#[local] Open Scope result_scope.

(** What the planner needs of the recorded slots: the widths of the fields,
    a count that fits its word, sizes whose aligned sum fits 64 bits. *)
Record plannable (slots : list TensorSlot) : Prop := {
  pl_wf : Forall slot_wf slots;
  pl_len : Z.of_nat (length slots) < 2 ^ 32;
  pl_size : Forall (fun s => is_external s = false -> nbytes s <= 2 ^ 64 - 256) slots;
  pl_total : aligned_total slots < 2 ^ 64;
}.

Lemma plan_nbytes slots plan i s :
  plannable slots -> plan_safe slots plan -> plan_slots plan !! i = Some s ->
  is_external s = false -> 0 <= nbytes s <= aligned_size (nbytes s).
Proof.
  intros [Hwf _ Hsz _] [Hsl _ _ _] Hi Hx.
  destruct (Forall2_lookup_r _ _ _ _ _ Hsl Hi) as (t & Ht & Heq).
  rewrite Heq in Hx |- *. simpl in *.
  pose proof (Forall_lookup_1 _ _ _ _ Hwf Ht) as (_ & _ & Hn).
  pose proof (Forall_lookup_1 _ _ _ _ Hsz Ht Hx). unfold in_width in Hn.
  pose proof (aligned_size_ge (nbytes t)). lia.
Qed.

Lemma plan_can_serve slots plan :
  plannable slots -> plan_safe slots plan ->
  Forall (fun s => can_serve_slot s (pool_bytes plan) = true) (plan_slots plan).
Proof.
  intros Hpl Hps. apply Forall_lookup_2. intros i s Hi. unfold can_serve_slot.
  destruct (is_external s) eqn:Hx; [done|].
  pose proof (plan_nbytes _ _ _ _ Hpl Hps Hi Hx) as Hn.
  destruct Hpl as [_ _ _ Htot], Hps as [_ Hpl _ Hb].
  destruct (Hpl i s Hi Hx) as (H1 & H2 & H3 & H4 & _). unfold slot_range in *. simpl in *.
  destruct (Z.leb_spec (2 ^ 64) (offset_bytes s + nbytes s)); [lia|].
  apply andb_true_intro. split; [apply Z.leb_le; lia|]. apply Z.eqb_eq. exact H4.
Qed.

Lemma fill_table_ok base bytes slots tbl :
  fill_table base bytes slots = Ok tbl ->
  Forall2 (fun s p => p = if is_external s then 0 else base + offset_bytes s) slots tbl.
Proof.
  revert tbl. induction slots as [|s slots IH]; intros tbl H; simpl in H; inv_ok; constructor; auto.
Qed.

Lemma fill_table_is_ok base bytes slots :
  is_ok (fill_table base bytes slots) = forallb (fun s => can_serve_slot s bytes) slots.
Proof.
  induction slots as [|s slots IH]; [done|]. simpl.
  destruct (can_serve_slot s bytes); simpl; [|done]. rewrite <- IH. by destruct (fill_table _ _ _).
Qed.

Lemma num_slots_plan rank ws cap slots plan :
  compute_memory_plan rank ws cap slots = Ok plan ->
  num_slots plan = Z.of_nat (length slots).
Proof.
  unfold compute_memory_plan. destruct (_ =? 0); [by intros [= <-]|]. intros H. inv_ok.
  destruct (_ =? 0); [by simplify_eq|]. destruct (count_events _ _ _ _). by simplify_eq.
Qed.

Lemma num_external_plan rank ws cap slots plan :
  Forall slot_wf slots -> Z.of_nat (length slots) < 2 ^ 32 ->
  compute_memory_plan rank ws cap slots = Ok plan ->
  0 <= num_external plan <= num_slots plan.
Proof.
  intros Hwf Hlen H. pose proof H as Hns. apply num_slots_plan in Hns. rewrite Hns.
  unfold compute_memory_plan in H. destruct (_ =? 0); [simplify_eq; simpl; lia|]. inv_ok.
  apply (scan_slots_ok _ 0) in Hok as [_ _ _ He]; [|done|unfold in_width; simpl; lia].
  pose proof (externals_internals 0 slots). simpl in He.
  assert (0 <= externals slots) by (unfold externals; lia).
  rewrite Z.add_0_l, wrap_small in He by lia.
  destruct (_ =? 0); [simplify_eq; simpl; lia|]. destruct (count_events _ _ _ _).
  simplify_eq. simpl. lia.
Qed.

Lemma pool_align_spec b : 0 <= b -> pool_align b = 2 ^ 21 \/ pool_align b = 2 ^ 8.
Proof. unfold pool_align. destruct (_ <=? _); auto. Qed.

Lemma pool_alloc_size_ge b : 0 <= b <= kMaxPoolBytes -> b <= pool_alloc_size b.
Proof.
  intros Hb. unfold kMaxPoolBytes in Hb. rewrite Z.shiftl_mul_pow2 in Hb by lia.
  unfold pool_alloc_size. destruct (pool_align_spec b) as [-> | ->]; [lia| |];
    rewrite add_sat_exact, land_lnot64_mask by lia; mod_lia.
Qed.

Lemma pool_init_ok `{M : PoolMem} P w plan P' w' :
  pool_init P w plan = Ok (P', w') ->
  0 < num_slots plan ->
  exists t tbl, ptr_table_ P' = Some (t, tbl) /\
    fill_table (pool_ P') (pool_bytes plan) (plan_slots plan) = Ok tbl /\
    num_slots_ P' = num_slots plan /\ pool_bytes_ P' = pool_bytes plan /\
    0 <= pool_bytes plan <= kMaxPoolBytes /\
    (0 < pool_bytes plan ->
       aligned_alloc (w_heap w) (pool_align (pool_bytes plan)) (pool_alloc_size (pool_bytes plan))
       = Some (pool_ P')).
Proof.
  intros H Hn. unfold pool_init, init_table in H. inv_ok.
  unfold in_range in *. reflect_bools.
  split_pairs. inv_ok. simplify_eq.
  destruct (Z.ltb_spec 0 (num_slots plan)); [|lia].
  destruct (calloc _ _ _) as [t|] eqn:Hc; [|done]. inv_ok. simplify_eq. simpl.
  eexists t, _. split_and!; auto; try lia. intros Hb.
  destruct (Z.ltb_spec 0 (pool_bytes plan)); [|lia].
  destruct (aligned_alloc _ _ _) as [p|] eqn:Ha; [|done]. inv_ok. by simplify_eq.
Qed.

Lemma slot_ptr_entry P t tbl i p :
  ptr_table_ P = Some (t, tbl) -> num_slots_ P = Z.of_nat (length tbl) -> tbl !! i = Some p ->
  slot_ptr P (Z.of_nat i) = Ok p.
Proof.
  intros Ht Hn Hp. pose proof (lookup_lt_Some _ _ _ Hp).
  unfold slot_ptr, initialized_view, in_range. rewrite Ht. simpl.
  destruct (Z.ltb_spec 0 (num_slots_ P)); [|lia]. simpl.
  destruct (Z.leb_spec 0 (Z.of_nat i)); [|lia].
  destruct (Z.leb_spec (Z.of_nat i) (num_slots_ P - 1)); [|lia]. simpl.
  unfold aget. by rewrite Nat2Z.id, Hp.
Qed.

(** ** The program's own checker *)

Lemma live_intervals_spec MaxLive slots t : forall live,
  Forall (fun s => is_external s = false -> offset_bytes s + nbytes s < 2 ^ 64) slots ->
  (length live + length slots <= MaxLive)%nat ->
  live_intervals MaxLive slots t live
  = Some (live ++ ((fun s => (offset_bytes s, offset_bytes s + nbytes s)) <$>
      filter (fun s => is_external s = false /\ birth_op s <= t <= death_op s) slots)).
Proof.
  induction slots as [|s slots IH]; intros live Hs Hl; simpl; [by rewrite app_nil_r|].
  apply Forall_cons in Hs as [Hs Hss]. simpl in Hl. rewrite filter_cons.
  destruct (is_external s) eqn:Hx.
  { rewrite decide_False by (intros [? _]; done). apply IH; [done|lia]. }
  destruct ((birth_op s <=? t) && (t <=? death_op s)) eqn:Ht; reflect_bools.
  - rewrite decide_True by done. specialize (Hs eq_refl).
    destruct (Nat.leb_spec MaxLive (length live)); [lia|].
    destruct (Z.leb_spec (2 ^ 64) (offset_bytes s + nbytes s)); [lia|].
    rewrite IH; [|done|rewrite length_app; simpl; lia]. csimpl. by rewrite <- app_assoc.
  - rewrite decide_False by lia. apply IH; [done|lia].
Qed.

Lemma intervals_pairwise_disjoint_true ivs :
  Forall (fun iv : Z * Z => iv.1 <= iv.2) ivs ->
  pairwise (fun a b : Z * Z => a.2 <= b.1 \/ b.2 <= a.1) ivs ->
  intervals_pairwise_disjoint ivs = true.
Proof.
  intros Hf Hp. apply andb_true_intro. split.
  { apply Is_true_eq_true, forallb_True, Forall_forall. intros iv Hiv. rewrite Forall_forall in Hf.
    apply Is_true_eq_left, Z.leb_le. auto. }
  induction ivs as [|iv ivs IH]; [done|]. destruct Hp as [Hiv Hp].
  apply Forall_cons in Hf as [_ Hf]. simpl. rewrite IH, andb_true_r by done.
  apply Is_true_eq_true, forallb_True. eapply Forall_impl; [exact Hiv|]. simpl.
  intros b Hb. apply Is_true_eq_left. unfold pair_disjoint.
  destruct (Z.leb_spec iv.2 b.1), (Z.leb_spec b.2 iv.1);
    rewrite ?orb_true_r; auto; lia.
Qed.

Lemma pairwise_fmap_filter {A B} (R : B -> B -> Prop) (f : A -> B) (P : A -> Prop)
  `{!forall x, Decision (P x)} l :
  (forall i j x y, l !! i = Some x -> l !! j = Some y -> i <> j -> P x -> P y -> R (f x) (f y)) ->
  pairwise R (f <$> filter P l).
Proof.
  induction l as [|x l IH]; intros H'; [done|]. rewrite filter_cons.
  assert (Htl : pairwise R (f <$> filter P l)).
  { apply IH. intros i j a b Ha Hb Hne. apply (H' (S i) (S j)); [done|done|congruence]. }
  case_decide as Hx; [|done]. split; [|done].
  apply Forall_fmap, Forall_forall. intros y [Hy [i Hi]%list_elem_of_lookup]%list_elem_of_filter.
  by apply (H' 0%nat (S i)).
Qed.

(** ** The properties *)

(** C1: in a computed plan any two pooled slots whose lifetimes meet have
    disjoint bytes; every pooled slot starts on a multiple of 256 and ends,
    with its padding, inside the pool; the pool is no larger than the sum of
    the padded sizes; and only the offsets of the slots changed. *)
Theorem memory_plan_live_slots_disjoint rank world_size capability slots plan :
  plannable slots -> compute_memory_plan rank world_size capability slots = Ok plan ->
  (forall i j s t, plan_slots plan !! i = Some s -> plan_slots plan !! j = Some t -> i <> j ->
     is_external s = false -> is_external t = false ->
     birth_op s <= death_op t -> birth_op t <= death_op s ->
     rdisj (slot_range s) (slot_range t)) /\
  (forall i s, plan_slots plan !! i = Some s -> is_external s = false ->
     offset_bytes s mod 256 = 0 /\ rinside (slot_range s) (0, pool_bytes plan)) /\
  0 <= pool_bytes plan <= aligned_total slots /\
  Forall2 (fun s t => t = set_slot_offset s (offset_bytes t)) slots (plan_slots plan).
Proof.
  intros [Hwf Hlen _ Htot] H.
  destruct (compute_memory_plan_safe _ _ _ _ _ Hwf Hlen Htot H) as [H1 H2 H3 H4].
  split_and!; auto; try tauto.
  - intros i j s t Hi Hj Hne Hs Ht Hb1 Hb2. eapply H3; eauto. by split.
  - intros i s Hi Hs. destruct (H2 i s Hi Hs) as (? & ? & ? & ? & _). split; [done|].
    unfold rinside. simpl in *. lia.
Qed.

(** The checker live_intervals_disjoint_at accepts the computed plan at
    every op, when its buffer holds the live slots. *)
Theorem memory_plan_passes_checker rank world_size capability slots plan MaxLive t :
  plannable slots -> compute_memory_plan rank world_size capability slots = Ok plan ->
  (length slots <= MaxLive)%nat ->
  live_intervals_disjoint_at MaxLive (plan_slots plan) t = true.
Proof.
  intros Hpl H Hmax.
  pose proof (compute_memory_plan_safe _ _ _ _ _ (pl_wf _ Hpl) (pl_len _ Hpl) (pl_total _ Hpl) H)
    as Hsafe.
  pose proof (pl_total _ Hpl) as Htot. pose proof Hsafe as [Hsl Hplace Hdisj Hb].
  unfold live_intervals_disjoint_at. rewrite live_intervals_spec; simpl.
  - apply intervals_pairwise_disjoint_true.
    + apply Forall_fmap, Forall_forall.
      intros s [[Hx _] [i Hi]%list_elem_of_lookup]%list_elem_of_filter. simpl.
      pose proof (plan_nbytes _ _ _ _ Hpl Hsafe Hi Hx). lia.
    + apply pairwise_fmap_filter. intros i j s u Hi Hj Hne [Hxs Hts] [Hxu Htu]. simpl.
      destruct (Hdisj i j s u Hi Hj Hne Hxs Hxu) as [Hd|Hd]; [split; lia|..];
        pose proof (plan_nbytes _ _ _ _ Hpl Hsafe Hi Hxs);
        pose proof (plan_nbytes _ _ _ _ Hpl Hsafe Hj Hxu); unfold slot_range in Hd; simpl in Hd; lia.
  - apply Forall_lookup_2. intros i s Hi Hx. pose proof (plan_nbytes _ _ _ _ Hpl Hsafe Hi Hx).
    destruct (Hplace i s Hi Hx) as (_ & _ & ? & _). unfold slot_range in *. simpl in *. lia.
  - apply Forall2_length in Hsl. lia.
Qed.

Section PoolProperties.
Context `{M : PoolMem} {HM : PoolMemOk M}.

(** C3: a pool built from a computed plan gives each pooled slot a pointer
    that is a multiple of 256 and whose bytes are inside the pool's
    allocation, and gives two slots that are live together disjoint bytes. *)
Theorem pool_pointers_disjoint rank world_size capability slots plan P w P' w' :
  plannable slots -> compute_memory_plan rank world_size capability slots = Ok plan ->
  pool_init P w plan = Ok (P', w') ->
  (forall i s, plan_slots plan !! i = Some s -> is_external s = false -> 0 < nbytes s ->
     exists p, slot_ptr P' (Z.of_nat i) = Ok p /\ p mod 256 = 0 /\
       rinside (p, nbytes s) (pool_ P', pool_bytes_ P')) /\
  (forall i j s t p q, plan_slots plan !! i = Some s -> plan_slots plan !! j = Some t -> i <> j ->
     is_external s = false -> is_external t = false ->
     birth_op s <= death_op t -> birth_op t <= death_op s ->
     slot_ptr P' (Z.of_nat i) = Ok p -> slot_ptr P' (Z.of_nat j) = Ok q ->
     rdisj (p, nbytes s) (q, nbytes t)).
Proof using HM.
  intros Hpl Hc Hi.
  pose proof (compute_memory_plan_safe _ _ _ _ _ (pl_wf _ Hpl) (pl_len _ Hpl) (pl_total _ Hpl) Hc)
    as Hsafe. pose proof Hsafe as [Hsl Hplace Hdisj Hb].
  pose proof (num_slots_plan _ _ _ _ _ Hc) as Hns. pose proof (Forall2_length _ _ _ Hsl) as Hlen.
  assert (Hptr : forall i s, plan_slots plan !! i = Some s -> is_external s = false ->
    slot_ptr P' (Z.of_nat i) = Ok (pool_ P' + offset_bytes s) /\ pool_bytes_ P' = pool_bytes plan /\
    (0 < pool_bytes plan -> pool_ P' mod 256 = 0)).
  { intros i s Hs Hx. pose proof (lookup_lt_Some _ _ _ Hs) as Hlt.
    destruct (pool_init_ok _ _ _ _ _ Hi ltac:(lia)) as (t & tbl & Ht & Hf & Hn & Hpb & Hbb & Ha).
    apply fill_table_ok in Hf. pose proof (Forall2_length _ _ _ Hf) as Hl2.
    destruct (Forall2_lookup_l _ _ _ _ _ Hf Hs) as (p & Hp & ->). rewrite Hx in Hp.
    split_and!; auto.
    - eapply slot_ptr_entry; eauto. lia.
    - intros Hpos. apply Ha, aligned_alloc_aligned in Hpos.
      destruct (pool_align_spec (pool_bytes plan)) as [E|E]; [lia| |]; rewrite E in Hpos; mod_lia. }
  split.
  - intros i s Hs Hx Hnz. destruct (Hptr i s Hs Hx) as (Hp & Hpb & Ha).
    destruct (Hplace i s Hs Hx) as (H1 & H2 & H3 & H4 & _).
    pose proof (plan_nbytes _ _ _ _ Hpl Hsafe Hs Hx). unfold slot_range in *. simpl in *.
    eexists. split; [exact Hp|]. rewrite Hpb. unfold rinside. simpl. split; [|lia].
    specialize (Ha ltac:(lia)). mod_lia.
  - intros i j s t p q Hs Ht Hne Hxs Hxt Ho1 Ho2 Hps Hqt.
    destruct (Hptr i s Hs Hxs) as (Hp & _), (Hptr j t Ht Hxt) as (Hq & _).
    rewrite Hp in Hps. rewrite Hq in Hqt. injection Hps as <-. injection Hqt as <-.
    pose proof (plan_nbytes _ _ _ _ Hpl Hsafe Hs Hxs).
    pose proof (plan_nbytes _ _ _ _ Hpl Hsafe Ht Hxt).
    destruct (Hdisj i j s t Hs Ht Hne Hxs Hxt) as [Hd|Hd]; [by split|..];
      unfold rdisj, slot_range in *; simpl in *; lia.
Qed.

(** The host grants what the pool asks for. *)
Definition host_grants (w : world) (plan : MemoryPlan) : Prop :=
  (exists p, aligned_alloc (w_heap w) (pool_align (pool_bytes plan)) (pool_alloc_size (pool_bytes plan))
             = Some p /\
     is_ok (register_region (w_reg w) p (pool_alloc_size (pool_bytes plan))
       (pool_align (pool_bytes plan) =? kHugePageBytes) "PoolAllocator.pool") = true) /\
  forall h, is_Some (calloc h (num_slots plan) 8).

Lemma init_table_is_ok base plan w :
  (forall h, is_Some (calloc h (num_slots plan) 8)) ->
  Forall (fun s => can_serve_slot s (pool_bytes plan) = true) (plan_slots plan) ->
  is_ok (init_table base plan w) = true.
Proof using Type.
  intros Hc Hs. unfold init_table. destruct (0 <? num_slots plan); [|done].
  destruct (Hc (w_heap w)) as [t ->].
  assert (He : is_ok (fill_table base (pool_bytes plan) (plan_slots plan)) = true).
  { rewrite fill_table_is_ok. apply Is_true_eq_true, forallb_True.
    eapply Forall_impl; [exact Hs|]. intros s. apply Is_true_eq_left. }
  by destruct (fill_table _ _ _).
Qed.

(** A plan within the ceilings whose slots the pool serves is accepted. *)
Lemma pool_init_grants plan w :
  0 <= num_slots plan <= kMaxNumSlots -> 0 <= pool_bytes plan <= kMaxPoolBytes -> num_external plan <= num_slots plan ->
  Forall (fun s => can_serve_slot s (pool_bytes plan) = true) (plan_slots plan) -> host_grants w plan ->
  is_ok (pool_init new_pool w plan) = true.
Proof using Type.
  intros Hn Hb Hne Hserve Hg. unfold pool_init, in_range. simpl.
  destruct (Z.leb_spec 0 (num_slots plan)); [|lia].
  destruct (Z.leb_spec (num_slots plan) kMaxNumSlots); [|lia].
  destruct (Z.leb_spec 0 (pool_bytes plan)); [|lia].
  destruct (Z.leb_spec (pool_bytes plan) kMaxPoolBytes); [|lia].
  destruct (Z.leb_spec (num_external plan) (num_slots plan)); [|lia]. simpl.
  destruct Hg as [(p & Ha & Hr) Hcal].
  assert (Htab : forall base w1, is_ok (
    let* '(table, w2) := init_table base plan w1 in
    Ok ({| pool_ := base; ptr_table_ := table; pool_bytes_ := pool_bytes plan;
         num_slots_ := num_slots plan; num_external_ := num_external plan |}, w2)) = true).
  { intros base w1. pose proof (init_table_is_ok base plan w1 Hcal Hserve).
    by destruct (init_table base plan w1) as [[]|]. }
  destruct (0 <? pool_bytes plan); [|apply Htab]. rewrite Ha.
  destruct (register_region _ _ _ _ _) as [reg|]; [|done]. apply Htab.
Qed.

(** An empty pool never refuses a slot of a computed plan: within the two
    ceilings of the pool, and when the host grants the memory, init
    returns. *)
Theorem pool_init_accepts_plan rank world_size capability slots plan w :
  plannable slots -> compute_memory_plan rank world_size capability slots = Ok plan ->
  Z.of_nat (length slots) <= kMaxNumSlots -> aligned_total slots <= kMaxPoolBytes ->
  host_grants w plan ->
  is_ok (pool_init new_pool w plan) = true.
Proof using Type.
  intros Hpl Hc Hn Hb Hg.
  pose proof (compute_memory_plan_safe _ _ _ _ _ (pl_wf _ Hpl) (pl_len _ Hpl) (pl_total _ Hpl) Hc)
    as Hsafe.
  pose proof (plan_can_serve _ _ Hpl Hsafe) as Hserve.
  pose proof (num_slots_plan _ _ _ _ _ Hc) as Hns.
  pose proof (num_external_plan _ _ _ _ _ (pl_wf _ Hpl) (pl_len _ Hpl) Hc) as Hne.
  destruct Hsafe as [_ _ _ Hpb]. apply pool_init_grants; [lia..|exact Hserve|exact Hg].
Qed.
End PoolProperties.

(** ** Witnesses *)

Definition wit_slot (n b d : Z) (ext : bool) : TensorSlot :=
  {| offset_bytes := 0; nbytes := n; birth_op := b; death_op := d; slot_dtype := Float;
     slot_device_type := CUDA; slot_device_idx := 0; slot_layout := Strided;
     is_external := ext; slot_id := 0 |}.

(** Five slots: the second takes the bytes of the first, the fourth takes
    what the split left. *)
Definition wit_slots : list TensorSlot :=
  [wit_slot 1000 0 1 false; wit_slot 300 2 4 false; wit_slot 64 0 0 true;
   wit_slot 500 2 3 false; wit_slot 2000 1 4 false].

Definition wit_plan : MemoryPlan :=
  match compute_memory_plan (-1) 0 0 wit_slots with
  | Ok p => p
  | Fatal _ => mkPlan [] 0 0 0 CPU (-1) 0 0 0
  end.

Lemma wit_plan_eq : compute_memory_plan (-1) 0 0 wit_slots = Ok wit_plan.
Proof. vm_compute. reflexivity. Qed.

Lemma wit_plannable : plannable wit_slots.
Proof.
  split.
  - repeat constructor; unfold in_width; simpl; lia.
  - simpl. lia.
  - repeat constructor; simpl; lia.
  - vm_compute. reflexivity.
Qed.

Lemma memory_plan_live_slots_disjoint_witness :
  offset_bytes <$> plan_slots wit_plan = [0; 0; 0; 512; 1024] /\
  0 <= pool_bytes wit_plan <= aligned_total wit_slots.
Proof.
  split; [vm_compute; reflexivity|].
  apply (memory_plan_live_slots_disjoint (-1) 0 0 wit_slots wit_plan wit_plannable wit_plan_eq).
Defined.

Lemma memory_plan_passes_checker_witness :
  live_intervals_disjoint_at 8 (plan_slots wit_plan) 2 = true.
Proof.
  apply (memory_plan_passes_checker (-1) 0 0 wit_slots wit_plan 8 2 wit_plannable wit_plan_eq).
  simpl. lia.
Defined.

(** A pool memory that grants every request past the end of the heap. *)
Definition round_up (x a : Z) : Z := x + (- x) mod a.

Definition bump_pool_mem : PoolMem := {|
  aligned_alloc h a n :=
    let p := round_up (bump_top h) a in
    if (0 <? a) && (p + n <=? 2 ^ 63) then Some p else None;
  calloc h k n := Some (round_up (bump_top h) 16);
|}.

Lemma round_up_spec x a : 0 < a -> x <= round_up x a < x + a /\ round_up x a mod a = 0.
Proof.
  intros Ha. unfold round_up. pose proof (Z.mod_pos_bound (- x) a Ha). split; [lia|].
  rewrite Zplus_mod_idemp_r. replace (x + - x) with 0 by lia. apply Z.mod_0_l. lia.
Qed.

Lemma bump_pool_mem_fresh h p n : bump_top h <= p -> Forall (rdisj (p, n)) h.
Proof.
  intros Hp. eapply Forall_impl; [apply (proj2 (bump_top_ge h))|]. intros r Hr. right. simpl in *. lia.
Qed.

Lemma bump_pool_mem_ok : PoolMemOk bump_pool_mem.
Proof.
  split; cbn; intros *.
  1-4: destruct (Z.ltb_spec 0 a); [|done]; destruct (Z.leb_spec (round_up (bump_top h) a + n) (2 ^ 63));
    [|done]; simpl; intros [= <-]; pose proof (round_up_spec (bump_top h) a ltac:(lia));
    pose proof (proj1 (bump_top_ge h)); try tauto; try lia; apply bump_pool_mem_fresh; lia.
  all: pose proof (round_up_spec (bump_top h) 16 ltac:(lia));
    pose proof (proj1 (bump_top_ge h)).
  - intros _ _ p [= <-]. lia.
  - intros [= <-]. apply bump_pool_mem_fresh. lia.
Qed.

Definition wit_world : world := {| w_heap := [(4096, 512)]; w_reg := new_registry |}.

Definition wit_pool : PoolAllocator * world :=
  match pool_init (M := bump_pool_mem) new_pool wit_world wit_plan with
  | Ok pw => pw
  | Fatal _ => (new_pool, wit_world)
  end.

Lemma pool_pointers_disjoint_witness :
  exists p, slot_ptr wit_pool.1 4 = Ok p /\ p mod 256 = 0 /\
    rinside (p, 2000) (pool_ wit_pool.1, pool_bytes_ wit_pool.1).
Proof.
  apply (proj1 (pool_pointers_disjoint (M := bump_pool_mem) (HM := bump_pool_mem_ok)
           (-1) 0 0 wit_slots wit_plan new_pool wit_world wit_pool.1 wit_pool.2
           wit_plannable wit_plan_eq ltac:(vm_compute; reflexivity)) 4%nat
           (set_slot_offset (wit_slot 2000 1 4 false) 1024)); vm_compute; reflexivity.
Defined.

Lemma pool_init_accepts_plan_witness :
  is_ok (pool_init (M := bump_pool_mem) new_pool wit_world wit_plan) = true.
Proof.
  apply (pool_init_accepts_plan (M := bump_pool_mem) (-1) 0 0 wit_slots wit_plan wit_world
           wit_plannable wit_plan_eq).
  - apply Z.leb_le. vm_compute. reflexivity.
  - apply Z.leb_le. vm_compute. reflexivity.
  - split; [|by intros h; eexists]. eexists. vm_compute. split; reflexivity.
Defined.
