(* ===== verification/Replay.v ===== *)
(** * Replay.v: the replay engine (include/crucible/ReplayEngine.h)

    The engine walks the ops of a region.  A pointer into the op array is its
    index; [ops_] is null before init and for a region with no op.
    [slot_table_] is the address of the pool's table, and the members that
    read the table take its contents, so that the engine sees each later
    write of the owner of the pool. *)

From stdpp Require Import base list gmap strings.
From Stdlib Require Import ZArith Lia.
From S2P Require Import Prelude Types Arena Registry MemoryPlan Pool.
#[local] Open Scope Z_scope.
#[local] Open Scope result_scope.

Inductive ReplayStatus := MATCH | DIVERGED | COMPLETE.

#[export] Instance ReplayStatus_eq_dec : EqDecision ReplayStatus.
Proof. solve_decision. Defined.

Record ReplayEngine := mkEngine {
  expected_schema_ : Z;
  expected_shape_ : Z;
  cursor_ : Z;
  end_ : Z;
  current_ : option Z;
  slot_table_ : Z;
  ops_ : option (list TraceEntry);
}.

Definition new_engine : ReplayEngine :=
  {| expected_schema_ := 0; expected_shape_ := 0; cursor_ := 0; end_ := 0; current_ := None;
     slot_table_ := 0; ops_ := None |}.

Definition dummy_entry : TraceEntry :=
  {| schema_hash := 0; shape_hash := 0; scope_hash := 0; callsite_hash := 0;
     input_metas := None; output_metas := None; num_inputs := 0; num_outputs := 0;
     scalar_args := None; num_scalar_args := 0; grad_enabled := false; inference_mode := false;
     kernel_id := 0; is_mutable := false; training_phase := FORWARD; torch_function := false;
     input_trace_indices := None; input_slot_ids := None; output_slot_ids := None |}.

Definition engine_ops (e : ReplayEngine) : list TraceEntry := default [] (ops_ e).

Definition op_at (ops : list TraceEntry) (i : Z) : TraceEntry := aget dummy_entry ops i.

Definition engine_init (region : RegionNode) (pool : PoolAllocator) : result ReplayEngine :=
  let* '(t, _) := initialized_view pool in
  let ops := region_ops region in
  let empty := (Z.of_nat (length ops) =? 0) in
  Ok {| expected_schema_ := if empty then 0 else schema_hash (op_at ops 0);
        expected_shape_ := if empty then 0 else shape_hash (op_at ops 0);
        cursor_ := 0; end_ := Z.of_nat (length ops); current_ := None; slot_table_ := t;
        ops_ := if empty then None else Some ops |}.

Definition engine_reset (e : ReplayEngine) : ReplayEngine :=
  let empty := (end_ e =? 0) in
  {| expected_schema_ := if empty then expected_schema_ e else schema_hash (op_at (engine_ops e) 0);
     expected_shape_ := if empty then expected_shape_ e else shape_hash (op_at (engine_ops e) 0);
     cursor_ := 0; end_ := end_ e; current_ := current_ e; slot_table_ := slot_table_ e;
     ops_ := ops_ e |}.

Definition engine_advance (e : ReplayEngine) (schema shape : Z)
    : result (ReplayStatus * ReplayEngine) :=
  let* _ := require (cursor_ e <? end_ e) "cursor_ < end_" in
  if negb (schema =? expected_schema_ e) then Ok (DIVERGED, e)
  else if negb (shape =? expected_shape_ e) then Ok (DIVERGED, e)
  else
    let next := cursor_ e + 1 in
    let e' sch shp :=
      {| expected_schema_ := sch; expected_shape_ := shp; cursor_ := next; end_ := end_ e;
         current_ := Some (cursor_ e); slot_table_ := slot_table_ e; ops_ := ops_ e |} in
    if next =? end_ e then Ok (COMPLETE, e' (expected_schema_ e) (expected_shape_ e))
    else
      let n := op_at (engine_ops e) next in
      Ok (MATCH, e' (schema_hash n) (shape_hash n)).

(** The table entry of a slot id, null for the invalid id. *)
Definition table_entry (tbl : list Z) (sid : Z) : result Z :=
  if is_valid32 sid then
    match tbl !! Z.to_nat sid with
    | Some p => Ok p
    | None => Fatal "read past the end of the slot table"
    end
  else Ok 0.

(** The shared body of output_ptr and input_ptr. *)
Definition slot_of (ids : option (list Z)) (num j : Z) : result Z :=
  match ids with
  | None => Fatal "slot ids != nullptr"
  | Some ids =>
      let* _ := require (0 <? num) "count > 0" in
      let* _ := require (in_range j 0 (num - 1)) "j < count" in
      match ids !! Z.to_nat j with
      | Some sid => Ok sid
      | None => Fatal "read past the end of the slot ids"
      end
  end.

Definition current_entry (e : ReplayEngine) : result TraceEntry :=
  match current_ e with
  | Some i => Ok (op_at (engine_ops e) i)
  | None => Fatal "current_ != nullptr"
  end.

Definition output_ptr (e : ReplayEngine) (tbl : list Z) (j : Z) : result Z :=
  let* te := current_entry e in
  let* sid := slot_of (output_slot_ids te) (num_outputs te) j in
  table_entry tbl sid.

Definition input_ptr (e : ReplayEngine) (tbl : list Z) (j : Z) : result Z :=
  let* te := current_entry e in
  let* sid := slot_of (input_slot_ids te) (num_inputs te) j in
  table_entry tbl sid.

Definition matched_op_index (e : ReplayEngine) : result Z :=
  match current_ e with
  | Some i => Ok (u32 i)
  | None => Fatal "current_ != nullptr"
  end.

Definition diverged_op_index (e : ReplayEngine) : Z := u32 (cursor_ e).
Definition ops_matched (e : ReplayEngine) : Z := u32 (cursor_ e).
Definition engine_num_ops (e : ReplayEngine) : Z := u32 (end_ e).
Definition is_complete (e : ReplayEngine) : bool := cursor_ e =? end_ e.
Definition engine_is_initialized (e : ReplayEngine) : bool := is_Some_b (ops_ e).

(** ** The engine refines a comparison with the recorded sequence *)

(** The guard of an op: its two hashes. *)
Definition op_guard (te : TraceEntry) : Z * Z := (schema_hash te, shape_hash te).

(** The engine at position [k] of [ops]. *)
Record engine_at (ops : list TraceEntry) (k : Z) (e : ReplayEngine) : Prop := {
  ea_ops : ops_ e = Some ops;
  ea_end : end_ e = Z.of_nat (length ops);
  ea_cursor : cursor_ e = k;
  ea_range : 0 <= k <= end_ e;
  ea_expect : k < end_ e ->
    (expected_schema_ e, expected_shape_ e) = op_guard (op_at ops k);
  ea_current : forall i, current_ e = Some i -> 0 <= i < end_ e;
}.

(** The reference: the status of the guard [g] at position [k]. *)
Definition spec_advance (ops : list TraceEntry) (k : Z) (g : Z * Z) : ReplayStatus * Z :=
  if bool_decide (g = op_guard (op_at ops k)) then
    (if k + 1 =? Z.of_nat (length ops) then COMPLETE else MATCH, k + 1)
  else (DIVERGED, k).

Lemma engine_init_at region pool e :
  region_ops region <> [] -> engine_init region pool = Ok e -> engine_at (region_ops region) 0 e.
Proof.
  intros Hne H. unfold engine_init in H. inv_ok. destruct a as [t tbl]. inv_ok.
  destruct (Z.eqb_spec (Z.of_nat (length (region_ops region))) 0).
  { destruct (region_ops region); [done|simpl in *; lia]. }
  split; simpl; auto; try lia; done.
Qed.

Lemma engine_reset_at ops k e : ops <> [] -> engine_at ops k e -> engine_at ops 0 (engine_reset e).
Proof.
  intros Hne [Ho He Hc Hr Hx Hcur]. unfold engine_reset, engine_ops. rewrite Ho.
  destruct (Z.eqb_spec (end_ e) 0) as [H0|H0].
  { rewrite He in H0. destruct ops; [done|simpl in *; lia]. }
  split; simpl; auto; try lia.
Qed.

Lemma engine_advance_at ops k e g :
  engine_at ops k e -> k < Z.of_nat (length ops) ->
  exists e', engine_advance e g.1 g.2 = Ok ((spec_advance ops k g).1, e') /\
    engine_at ops (spec_advance ops k g).2 e' /\ slot_table_ e' = slot_table_ e /\
    ((spec_advance ops k g).1 <> DIVERGED -> current_ e' = Some k).
Proof.
  intros Hat Hk. pose proof Hat as [Ho He Hc Hr Hx Hcur].
  unfold engine_advance, spec_advance, engine_ops. rewrite Ho, Hc.
  destruct (Z.ltb_spec k (end_ e)); [|lia]. simpl.
  specialize (Hx ltac:(lia)). unfold op_guard in *. injection Hx as Hs Hp.
  destruct (Z.eqb_spec g.1 (expected_schema_ e)) as [E1|E1]; simpl.
  2: { rewrite bool_decide_false by (intros ->; simpl in *; congruence). simpl.
       exists e. split_and!; auto. done. }
  destruct (Z.eqb_spec g.2 (expected_shape_ e)) as [E2|E2]; simpl.
  2: { rewrite bool_decide_false by (intros ->; simpl in *; congruence). simpl.
       exists e. split_and!; auto. done. }
  rewrite bool_decide_true by (destruct g; simpl in *; congruence). simpl. rewrite He.
  destruct (Z.eqb_spec (k + 1) (Z.of_nat (length ops))) as [E|E]; eexists; (split; [reflexivity|]);
    (split_and!; [split; simpl; auto; try lia|done|done]); intros i [= <-]; lia.
Qed.
