(* ===== verification/Context.v ===== *)
(** * Context.v: the execution context (include/crucible/CrucibleContext.h)

    The context owns an engine and a pool and switches between recording and
    replay.  The bytes of the process are a function from addresses to bytes;
    the world is the heap and the hot-region registry of Pool.v. *)

From stdpp Require Import base list gmap strings.
From Stdlib Require Import ZArith Lia.
From S2P Require Import Prelude Types Arena Registry MemoryPlan Pool Replay.
#[local] Open Scope Z_scope.
#[local] Open Scope result_scope.

Inductive ContextMode := RECORD | COMPILED.

#[export] Instance ContextMode_eq_dec : EqDecision ContextMode.
Proof. solve_decision. Defined.

Record CrucibleContext := mkContext {
  engine_ : ReplayEngine;
  mode_ : ContextMode;
  compiled_iterations_ : Z;
  diverged_count_ : Z;
  active_region_ : option RegionNode;
  ctx_pool_ : PoolAllocator;
}.

Definition new_context : CrucibleContext :=
  {| engine_ := new_engine; mode_ := RECORD; compiled_iterations_ := 0; diverged_count_ := 0;
     active_region_ := None; ctx_pool_ := new_pool |}.

(** ** The memory *)

Abbreviation mem := (Z -> Z).

(** std::memcpy of [n] bytes between two buffers that do not overlap. *)
Definition memcpy (m : mem) (dst src n : Z) : mem :=
  fun a => if (dst <=? a) && (a <? dst + n) then m (src + (a - dst)) else m a.

Definition MIGRATION_MAX_SLOTS : Z := 1024.

(** The bitset of migrate_prefix_slots_: one bit for each slot, sixteen words. *)
Definition visited_get (v : list Z) (ns : Z) : bool := Z.testbit (aget 0 v (ns / 64)) (ns mod 64).
Definition visited_set (v : list Z) (ns : Z) : list Z :=
  aset v (ns / 64) (Z.lor (aget 0 v (ns / 64)) (Z.shiftl 1 (ns mod 64))).

Definition plan_slot (plan : MemoryPlan) (i : Z) : TensorSlot := aget dummy_slot (plan_slots plan) i.

Section Migrate.
Context (old_plan new_plan : MemoryPlan) (old_base new_base : Z).

(** One output of one op. *)
Definition migrate_output (old_sid new_sid : Z) (vm : list Z * mem) : result (list Z * mem) :=
  let '(visited, m) := vm in
  if negb (is_valid32 old_sid) || negb (is_valid32 new_sid) then Ok vm
  else
    let* _ := require (old_sid <? num_slots old_plan) "old_sid < old_num_slots" in
    let* _ := require (new_sid <? num_slots new_plan) "new_sid < new_num_slots" in
    let old_slot := plan_slot old_plan old_sid in
    let new_slot := plan_slot new_plan new_sid in
    if is_external old_slot || is_external new_slot then Ok vm
    else if visited_get visited new_sid then Ok vm
    else
      let visited := visited_set visited new_sid in
      if (0 <? nbytes old_slot) && negb (old_base =? 0) then
        Ok (visited, memcpy m (new_base + offset_bytes new_slot) (old_base + offset_bytes old_slot)
                       (nbytes old_slot))
      else Ok (visited, m).

(** The loop over the outputs of one op, [n] left, from output [j]. *)
Fixpoint migrate_outputs (old_ids new_ids : list Z) (j n : nat) (vm : list Z * mem)
    : result (list Z * mem) :=
  match n with
  | O => Ok vm
  | S n =>
      match old_ids !! j, new_ids !! j with
      | Some old_sid, Some new_sid =>
          let* vm := migrate_output old_sid new_sid vm in
          migrate_outputs old_ids new_ids (S j) n vm
      | _, _ => Fatal "read past the end of the slot ids"
      end
  end.

Definition migrate_op (old_te new_te : TraceEntry) (vm : list Z * mem) : result (list Z * mem) :=
  match output_slot_ids old_te, output_slot_ids new_te with
  | Some old_ids, Some new_ids =>
      let* _ := require (num_outputs old_te =? num_outputs new_te) "equal output counts" in
      migrate_outputs old_ids new_ids 0 (Z.to_nat (num_outputs old_te)) vm
  | _, _ => Ok vm
  end.

(** The loop over the prefix, [n] ops left, from op [i]. *)
Fixpoint migrate_ops (old_ops new_ops : list TraceEntry) (i n : nat) (vm : list Z * mem)
    : result (list Z * mem) :=
  match n with
  | O => Ok vm
  | S n =>
      match old_ops !! i, new_ops !! i with
      | Some old_te, Some new_te =>
          let* vm := migrate_op old_te new_te vm in
          migrate_ops old_ops new_ops (S i) n vm
      | _, _ => Fatal "read past the end of the ops"
      end
  end.
End Migrate.

Definition migrate_prefix_slots_ (old_region alt : RegionNode) (old_plan new_plan : MemoryPlan)
    (old_base new_base : Z) (div_pos : Z) (m : mem) : result mem :=
  let* _ := require (num_slots new_plan <=? MIGRATION_MAX_SLOTS) "new_num_slots <= MIGRATION_MAX_SLOTS" in
  let* '(_, m) := migrate_ops old_plan new_plan old_base new_base
                    (region_ops old_region) (region_ops alt) 0 (Z.to_nat div_pos)
                    (replicate 16 0, m) in
  Ok m.

Section Ops.
Context `{M : PoolMem}.

Definition deactivate (c : CrucibleContext) (w : world) : CrucibleContext * world :=
  let '(pool, w) := pool_destroy (ctx_pool_ c) w in
  ({| engine_ := engine_ c; mode_ := RECORD; compiled_iterations_ := compiled_iterations_ c;
      diverged_count_ := diverged_count_ c; active_region_ := None; ctx_pool_ := pool |}, w).

Definition activate (c : CrucibleContext) (w : world) (region : RegionNode)
    : result (bool * CrucibleContext * world) :=
  match region_plan region with
  | None => Ok (false, c, w)
  | Some plan =>
      let '(c, w) := if bool_decide (mode_ c = COMPILED) then deactivate c w else (c, w) in
      let* '(pool, w) := pool_init (ctx_pool_ c) w plan in
      let* engine := engine_init region pool in
      Ok (true,
          {| engine_ := engine; mode_ := COMPILED; compiled_iterations_ := compiled_iterations_ c;
             diverged_count_ := diverged_count_ c; active_region_ := Some region;
             ctx_pool_ := pool |}, w)
  end.

(** The replay of the shared prefix in switch_region, [n] ops left from op [i]. *)
Fixpoint replay_prefix (ops : list TraceEntry) (i n : nat) (e : ReplayEngine) : result ReplayEngine :=
  match n with
  | O => Ok e
  | S n =>
      match ops !! i with
      | Some te =>
          let* '(_, e) := engine_advance e (schema_hash te) (shape_hash te) in
          replay_prefix ops (S i) n e
      | None => Fatal "read past the end of the ops"
      end
  end.

Definition switch_region (c : CrucibleContext) (w : world) (m : mem) (alt : RegionNode) (div_pos : Z)
    : result (bool * CrucibleContext * world * mem) :=
  let* _ := require (bool_decide (mode_ c = COMPILED)) "mode_ == COMPILED" in
  match region_plan alt with
  | None => Ok (false, c, w, m)
  | Some new_plan =>
      if div_pos =? 0 then
        let* '(b, c, w) := activate c w alt in Ok (b, c, w, m)
      else
        match active_region_ c with
        | None => Fatal "old_region != nullptr && old_region->plan != nullptr"
        | Some old_region =>
            match region_plan old_region with
            | None => Fatal "old_region != nullptr && old_region->plan != nullptr"
            | Some old_plan =>
                let* '(old_pool, pool, w) := pool_detach (ctx_pool_ c) w in
                let* '(pool, w) := pool_init pool w new_plan in
                let* m := migrate_prefix_slots_ old_region alt old_plan new_plan
                            (dp_base old_pool) (pool_ pool) div_pos m in
                let* e := engine_init alt pool in
                let* _ := require (engine_is_initialized e) "is_initialized()" in
                let* e := replay_prefix (region_ops alt) 0 (Z.to_nat div_pos) e in
                let w := detached_destroy old_pool w in
                Ok (true,
                    {| engine_ := e; mode_ := mode_ c;
                       compiled_iterations_ := compiled_iterations_ c;
                       diverged_count_ := diverged_count_ c; active_region_ := Some alt;
                       ctx_pool_ := pool |}, w, m)
            end
        end
  end.

Definition set_engine (c : CrucibleContext) (e : ReplayEngine) (ci dc : Z) : CrucibleContext :=
  {| engine_ := e; mode_ := mode_ c; compiled_iterations_ := ci; diverged_count_ := dc;
     active_region_ := active_region_ c; ctx_pool_ := ctx_pool_ c |}.

Definition advance_ (c : CrucibleContext) (schema shape : Z) : result (ReplayStatus * CrucibleContext) :=
  let* '(s, e) := engine_advance (engine_ c) schema shape in
  match s with
  | MATCH => Ok (MATCH, set_engine c e (compiled_iterations_ c) (diverged_count_ c))
  | COMPLETE =>
      let* ci := monotonic_bump (compiled_iterations_ c) in
      Ok (COMPLETE, set_engine c (engine_reset e) ci (diverged_count_ c))
  | DIVERGED =>
      let* dc := monotonic_bump (diverged_count_ c) in
      Ok (DIVERGED, set_engine c e (compiled_iterations_ c) dc)
  end.

Definition ctx_advance (c : CrucibleContext) (schema shape : Z) : result (ReplayStatus * CrucibleContext) :=
  let* _ := require (bool_decide (mode_ c = COMPILED)) "mode_ == COMPILED" in
  advance_ c schema shape.

(** The table behind the engine's pointer, while the pool still owns it. *)
Definition engine_table (c : CrucibleContext) : result (list Z) :=
  match ptr_table_ (ctx_pool_ c) with
  | Some (t, tbl) => if t =? slot_table_ (engine_ c) then Ok tbl else Fatal "dangling slot table"
  | None => Fatal "dangling slot table"
  end.

Definition ctx_output_ptr (c : CrucibleContext) (j : Z) : result Z :=
  let* _ := require (bool_decide (mode_ c = COMPILED)) "mode_ == COMPILED" in
  let* tbl := engine_table c in
  output_ptr (engine_ c) tbl j.

Definition ctx_input_ptr (c : CrucibleContext) (j : Z) : result Z :=
  let* _ := require (bool_decide (mode_ c = COMPILED)) "mode_ == COMPILED" in
  let* tbl := engine_table c in
  input_ptr (engine_ c) tbl j.

Definition ctx_register_external (c : CrucibleContext) (sid ptr : Z) : result CrucibleContext :=
  let* _ := require (bool_decide (mode_ c = COMPILED)) "mode_ == COMPILED" in
  let* pool := pool_register_external (ctx_pool_ c) sid ptr in
  Ok {| engine_ := engine_ c; mode_ := mode_ c; compiled_iterations_ := compiled_iterations_ c;
        diverged_count_ := diverged_count_ c; active_region_ := active_region_ c;
        ctx_pool_ := pool |}.
End Ops.
