(* ===== verification/ContextProofs.v ===== *)
(** * ContextProofs.v: the context keeps its parts in step

    The invariant of a reachable context ties the mode, the active region, the
    pool and the engine together; replay of the recorded guards is the
    comparison with the recorded sequence; the pointers handed out are those of
    the plan. *)

From stdpp Require Import base list gmap strings.
From Stdlib Require Import ZArith Lia.
From S2P Require Import Prelude Types Arena Registry MemoryPlan Pool PlanSweep PlanProofs.
From S2P Require Import PoolProofs Replay Context.
#[local] Open Scope Z_scope.
#[local] Open Scope result_scope.

(** A plan whose count is the length of its array. *)
Definition plan_counted (plan : MemoryPlan) : Prop :=
  num_slots plan = Z.of_nat (length (plan_slots plan)).

Definition region_counted (region : RegionNode) : Prop :=
  forall plan, region_plan region = Some plan -> plan_counted plan.

(** The pool holds [plan]: its table has one pointer for each slot, that of a
    pooled slot is its offset from the base. *)
Record pool_holds (plan : MemoryPlan) (P : PoolAllocator) (h : heap) (t : Z) (tbl : list Z) : Prop := {
  ph_table : ptr_table_ P = Some (t, tbl);
  ph_len : length tbl = length (plan_slots plan);
  ph_slots : num_slots_ P = num_slots plan;
  ph_bytes : pool_bytes_ P = pool_bytes plan;
  ph_bound : 0 <= pool_bytes plan <= kMaxPoolBytes;
  ph_entry i s : plan_slots plan !! i = Some s -> is_external s = false ->
    tbl !! i = Some (pool_ P + offset_bytes s);
  ph_serve : Forall (fun s => can_serve_slot s (pool_bytes plan) = true) (plan_slots plan);
  ph_heap : 0 < pool_bytes plan ->
    0 < pool_ P /\ t <> pool_ P /\ (pool_ P, pool_alloc_size (pool_bytes plan)) ∈ h;
  ph_null : pool_bytes plan = 0 -> pool_ P = 0;
}.

Section Invariant.
Context `{M : PoolMem} {HM : PoolMemOk M}.

Lemma pool_init_holds P w plan P' w' :
  pool_init P w plan = Ok (P', w') -> plan_counted plan -> 0 < num_slots plan ->
  exists t tbl, pool_holds plan P' (w_heap w') t tbl.
Proof using HM.
  intros H Hc Hn. pose proof (pool_init_ok P w plan P' w' H Hn) as (t & tbl & Ht & Hf & Hs & Hb & Hbb & Ha).
  exists t, tbl. pose proof (fill_table_ok _ _ _ _ Hf) as Hf2.
  pose proof (Forall2_length _ _ _ Hf2) as Hl.
  assert (Hserve : Forall (fun s => can_serve_slot s (pool_bytes plan) = true) (plan_slots plan)).
  { pose proof (fill_table_is_ok (pool_ P') (pool_bytes plan) (plan_slots plan)) as Hi.
    rewrite Hf in Hi. symmetry in Hi. apply Is_true_eq_left, forallb_True in Hi.
    eapply Forall_impl; [exact Hi|]. intros s. apply Is_true_eq_true. }
  unfold pool_init, init_table in H. inv_ok.
  split_pairs. inv_ok. simplify_eq. simpl in *.
  destruct (Z.ltb_spec 0 (num_slots plan)); [|lia].
  destruct (calloc _ _ _) as [t'|] eqn:Hcal; [|done]. inv_ok. simplify_eq. simpl in *.
  split; auto; simpl.
  - intros i s Hi Hx. destruct (Forall2_lookup_l _ _ _ _ _ Hf2 Hi) as (p & Hp & ->).
    by rewrite Hx in Hp.
  - intros Hpos. destruct (Z.ltb_spec 0 (pool_bytes plan)); [|lia].
    specialize (Ha Hpos). rewrite Ha in *. inv_ok. simplify_eq. simpl in *.
    pose proof (aligned_alloc_pos _ _ _ _ Ha). split_and!; [done| |by right; left].
    pose proof (calloc_fresh _ _ _ _ Hcal) as Hfr. apply Forall_cons in Hfr as [Hd _].
    pose proof (pool_alloc_size_ge (pool_bytes plan) Hbb). unfold rdisj in Hd. simpl in Hd. lia.
  - intros Hz. rewrite Hz in *. simpl in *. by simplify_eq.
Qed.

(** The engine walks [ops]. *)
Definition engine_on (ops : list TraceEntry) (e : ReplayEngine) : Prop :=
  (ops = [] /\ cursor_ e = 0 /\ end_ e = 0) \/ (ops <> [] /\ exists k, engine_at ops k e).

(** What ties the parts of a context together. *)
Definition ctx_ok (c : CrucibleContext) (w : world) : Prop :=
  match mode_ c with
  | RECORD => ctx_pool_ c = new_pool /\ active_region_ c = None
  | COMPILED => exists region plan t tbl,
      active_region_ c = Some region /\ region_plan region = Some plan /\ plan_counted plan /\
      pool_holds plan (ctx_pool_ c) (w_heap w) t tbl /\ slot_table_ (engine_ c) = t /\
      engine_on (region_ops region) (engine_ c)
  end.

Lemma deactivate_ok c w : ctx_ok (deactivate c w).1 (deactivate c w).2.
Proof using Type. by split. Qed.

Lemma engine_init_table region pool e :
  engine_init region pool = Ok e -> exists tbl, ptr_table_ pool = Some (slot_table_ e, tbl).
Proof using Type.
  unfold engine_init, initialized_view. intros H.
  destruct (ptr_table_ pool) as [[t tbl]|]; simpl in H; [|done]. inv_ok. by exists tbl.
Qed.

(** A pool that the engine accepts has a slot. *)
Lemma pool_init_slots P w plan P' w' e region :
  pool_init P w plan = Ok (P', w') -> engine_init region P' = Ok e -> 0 < num_slots plan.
Proof using Type.
  intros H He. destruct (engine_init_table _ _ _ He) as [tbl Ht].
  unfold pool_init, init_table in H. inv_ok.
  split_pairs. inv_ok. simplify_eq. simpl in *.
  unfold in_range in *. reflect_bools. destruct (Z.ltb_spec 0 (num_slots plan)); [done|].
  inv_ok. by simplify_eq.
Qed.

Lemma fresh_region_ok P w plan P' w' region e :
  pool_init P w plan = Ok (P', w') -> engine_init region P' = Ok e ->
  region_plan region = Some plan -> region_counted region ->
  exists t tbl, pool_holds plan P' (w_heap w') t tbl /\ slot_table_ e = t /\ plan_counted plan /\
    engine_on (region_ops region) e /\
    (region_ops region <> [] -> engine_at (region_ops region) 0 e).
Proof using HM.
  intros H He Hp Hc. pose proof (pool_init_slots _ _ _ _ _ _ _ H He) as Hn.
  destruct (pool_init_holds _ _ _ _ _ H (Hc _ Hp) Hn) as (t & tbl & Hh). exists t, tbl.
  split_and!; auto.
  - destruct (engine_init_table _ _ _ He) as [tbl' Ht]. rewrite (ph_table _ _ _ _ _ Hh) in Ht. congruence.
  - destruct (decide (region_ops region = [])) as [E|Hne].
    + left. unfold engine_init in He. inv_ok. destruct a. inv_ok. simpl. by rewrite E.
    + right. split; [done|]. exists 0. by eapply engine_init_at.
  - intros Hne. by eapply engine_init_at.
Qed.

Lemma activate_ok c w region b c' w' :
  ctx_ok c w -> region_counted region -> activate c w region = Ok (b, c', w') -> ctx_ok c' w'.
Proof using HM.
  intros Hok Hc H. unfold activate in H. destruct (region_plan region) as [plan|] eqn:Hp; [|by inv_ok; simplify_eq].
  destruct (if bool_decide (mode_ c = COMPILED) then deactivate c w else (c, w)) as [c1 w1].
  inv_ok. destruct a as [P1 w2]. inv_ok. simplify_eq.
  destruct (fresh_region_ok _ _ _ _ _ _ _ Hok0 Hok1 Hp Hc) as (t & tbl & H1 & H2 & H3 & H4 & _).
  exists region, plan, t, tbl. simpl. split_and!; auto.
Qed.

(** One advance of a compiled context, from position [k]. *)
Lemma advance_step c region k g s c' :
  mode_ c = COMPILED -> engine_at (region_ops region) k (engine_ c) -> region_ops region <> [] ->
  ctx_advance c g.1 g.2 = Ok (s, c') ->
  s = (spec_advance (region_ops region) k g).1 /\
  engine_at (region_ops region)
    (if bool_decide (s = COMPLETE) then 0 else (spec_advance (region_ops region) k g).2) (engine_ c') /\
  slot_table_ (engine_ c') = slot_table_ (engine_ c) /\
  (s <> DIVERGED -> current_ (engine_ c') = Some k) /\
  mode_ c' = COMPILED /\ ctx_pool_ c' = ctx_pool_ c /\ active_region_ c' = active_region_ c /\
  compiled_iterations_ c' = compiled_iterations_ c + (if bool_decide (s = COMPLETE) then 1 else 0) /\
  diverged_count_ c' = diverged_count_ c + (if bool_decide (s = DIVERGED) then 1 else 0).
Proof using Type.
  intros Hm Hat Hne H. unfold ctx_advance, advance_ in H. inv_ok.
  assert (Hk : k < Z.of_nat (length (region_ops region))).
  { unfold engine_advance in Hok0. inv_ok. reflect_bools. destruct Hat. lia. }
  destruct (engine_advance_at _ _ _ g Hat Hk) as (e' & He & Hat' & Hst & Hcur).
  rewrite He in Hok0. inv_ok.
  destruct (spec_advance (region_ops region) k g).1 eqn:Hs; inv_ok; simplify_eq; simpl.
  - split_and!; auto; lia.
  - unfold monotonic_bump in *. inv_ok. split_and!; auto; lia.
  - unfold monotonic_bump in *. inv_ok. split_and!; auto; try lia.
    by eapply engine_reset_at.
Qed.

Lemma advance_ok c w schema shape s c' :
  ctx_ok c w -> ctx_advance c schema shape = Ok (s, c') -> ctx_ok c' w.
Proof using Type.
  intros Hok H.
  assert (Hm : mode_ c = COMPILED).
  { unfold ctx_advance in H. inv_ok. by apply bool_decide_eq_true in Hok0. }
  unfold ctx_ok in Hok. rewrite Hm in Hok.
  destruct Hok as (region & plan & t & tbl & Ha & Hp & Hc & Hh & Ht & [(E & Hcu & He)|(Hne & k & Hat)]).
  - unfold ctx_advance, advance_, engine_advance in H. rewrite Hcu, He in H. simpl in H.
    rewrite Hm in H. by inv_ok.
  - destruct (advance_step c region k (schema, shape) s c' Hm Hat Hne H)
      as (_ & Hat' & Hst & _ & Hm' & Hpo & Har & _).
    unfold ctx_ok. rewrite Hm'. exists region, plan, t, tbl. rewrite Hpo, Har, Hst.
    split_and!; auto. right. split; [done|]. by eexists.
Qed.

Lemma replay_prefix_at ops n : forall i e e',
  engine_at ops (Z.of_nat i) e -> replay_prefix ops i n e = Ok e' ->
  engine_at ops (Z.of_nat (i + n)) e' /\ slot_table_ e' = slot_table_ e.
Proof using Type.
  induction n as [|n IH]; intros i e e' Hat H; simpl in H.
  { inv_ok. by rewrite Nat.add_0_r. }
  destruct (ops !! i) as [te|] eqn:Hi; [|done]. inv_ok. destruct a as [s e1].
  pose proof (lookup_lt_Some _ _ _ Hi) as Hlt.
  destruct (engine_advance_at ops (Z.of_nat i) e (schema_hash te, shape_hash te) Hat ltac:(lia))
    as (e2 & He & Hat2 & Hst & _). simpl in He. rewrite He in Hok. inv_ok.
  assert (Hg : (schema_hash te, shape_hash te) = op_guard (op_at ops (Z.of_nat i))).
  { unfold op_at, aget. by rewrite Nat2Z.id, Hi. }
  unfold spec_advance in Hat2. rewrite bool_decide_true in Hat2 by done. simpl in Hat2.
  replace (Z.of_nat i + 1) with (Z.of_nat (S i)) in Hat2 by lia. simplify_eq.
  destruct (IH (S i) e1 e' Hat2 H) as [H1 H2].
  replace (i + S n)%nat with (S i + n)%nat by lia. split; [done|congruence].
Qed.

Lemma pool_detach_holds plan P w t tbl d P' w' :
  pool_holds plan P (w_heap w) t tbl -> pool_detach P w = Ok (d, P', w') ->
  P' = new_pool /\ d = {| dp_base := pool_ P; dp_bytes := pool_bytes_ P |} /\
  w_heap w' = free_ptr t (w_heap w).
Proof using Type.
  intros Hh H. unfold pool_detach, initialized_view in H. rewrite (ph_table _ _ _ _ _ Hh) in H.
  simpl in H. by inv_ok; simplify_eq.
Qed.

(** The parts of a switch past the first op. *)
Lemma switch_parts c w m alt d b c' w' m' :
  ctx_ok c w -> region_counted alt -> d <> 0 -> region_plan alt <> None ->
  switch_region c w m alt d = Ok (b, c', w', m') ->
  exists old old_plan new_plan t tbl P1 w1 w2 e,
    b = true /\ active_region_ c = Some old /\ region_plan old = Some old_plan /\
    region_plan alt = Some new_plan /\ plan_counted old_plan /\
    pool_holds old_plan (ctx_pool_ c) (w_heap w) t tbl /\
    w_heap w1 = free_ptr t (w_heap w) /\
    pool_init new_pool w1 new_plan = Ok (P1, w2) /\ engine_init alt P1 = Ok e /\
    migrate_prefix_slots_ old alt old_plan new_plan (pool_ (ctx_pool_ c)) (pool_ P1) d m = Ok m' /\
    replay_prefix (region_ops alt) 0 (Z.to_nat d) e = Ok (engine_ c') /\
    engine_is_initialized e = true /\
    w' = detached_destroy {| dp_base := pool_ (ctx_pool_ c); dp_bytes := pool_bytes_ (ctx_pool_ c) |} w2 /\
    ctx_pool_ c' = P1 /\ active_region_ c' = Some alt /\ mode_ c' = COMPILED.
Proof using Type.
  intros Hok Hc Hd Hpl H. unfold switch_region in H. inv_ok. apply bool_decide_eq_true in Hok0.
  destruct (region_plan alt) as [new_plan|] eqn:Hnp; [|done].
  destruct (Z.eqb_spec d 0); [done|]. unfold ctx_ok in Hok. rewrite Hok0 in Hok.
  destruct Hok as (old & old_plan & t & tbl & Ha & Hp & Hco & Hh & Ht & He).
  rewrite Ha, Hp in H. do 3 (inv_ok; split_pairs).
  match goal with Hd : pool_detach _ _ = Ok (_, _, _) |- _ =>
    destruct (pool_detach_holds _ _ _ _ _ _ _ _ Hh Hd) as (-> & -> & Hw1) end.
  simplify_eq. simpl in *. exists old, old_plan, new_plan. do 6 eexists. split_and!; eauto.
Qed.

Lemma free_other p q n h : p <> q -> (p, n) ∈ h -> (p, n) ∈ free_ptr q h.
Proof using Type.
  intros Hne Hin. unfold free_ptr. destruct (_ =? _); [done|]. unfold free.
  by apply list_elem_of_filter.
Qed.

(** The new pool of a switch is none of the bytes of the old one. *)
Lemma switch_pools_disjoint old_plan P w t tbl w1 new_plan P1 w2 :
  pool_holds old_plan P (w_heap w) t tbl -> w_heap w1 = free_ptr t (w_heap w) ->
  pool_init new_pool w1 new_plan = Ok (P1, w2) -> 0 < num_slots new_plan ->
  0 < pool_bytes old_plan -> 0 < pool_bytes new_plan ->
  rdisj (pool_ P1, pool_bytes new_plan) (pool_ P, pool_bytes old_plan) /\ pool_ P1 <> pool_ P.
Proof using HM.
  intros Hh Hw Hi Hn Ho Hp. destruct (ph_heap _ _ _ _ _ Hh Ho) as (Hpos & Hne & Hin).
  pose proof (pool_init_ok _ _ _ _ _ Hi Hn) as (t1 & tbl1 & _ & _ & _ & _ & Hbb & Ha).
  specialize (Ha Hp). apply aligned_alloc_fresh in Ha. rewrite Hw, Forall_forall in Ha.
  specialize (Ha _ (free_other _ _ _ _ (not_eq_sym Hne) Hin)).
  pose proof (pool_alloc_size_ge _ Hbb). pose proof (pool_alloc_size_ge _ (ph_bound _ _ _ _ _ Hh)).
  unfold rdisj in *. simpl in *. lia.
Qed.

Lemma switch_ok c w m alt d b c' w' m' :
  ctx_ok c w -> region_counted alt -> 0 <= d -> switch_region c w m alt d = Ok (b, c', w', m') ->
  ctx_ok c' w'.
Proof using HM.
  intros Hok Hc Hd H. destruct (decide (d = 0)) as [->|Hne].
  { unfold switch_region in H. inv_ok. destruct (region_plan alt); [|by inv_ok; simplify_eq].
    simpl in H. inv_ok. split_pairs. inv_ok. simplify_eq. by eapply activate_ok. }
  destruct (decide (region_plan alt = None)) as [E|E].
  { unfold switch_region in H. inv_ok. rewrite E in H. by inv_ok; simplify_eq. }
  destruct (switch_parts _ _ _ _ _ _ _ _ _ Hok Hc Hne E H)
    as (old & op & np & t & tbl & P1 & w1 & w2 & e & _ & _ & _ & Hnp & _ & Hh & Hw1 & Hi & He & _ &
        Hr & Hei & -> & HP & Har & Hm).
  destruct (fresh_region_ok _ _ _ _ _ _ _ Hi He Hnp Hc) as (t1 & tbl1 & Hh1 & Ht1 & Hco & He1 & He2).
  assert (Hops : region_ops alt <> []).
  { intros E0. destruct He1 as [[? _]|[? _]]; [|done].
    unfold engine_init in He. inv_ok. split_pairs. inv_ok. by rewrite E0 in Hei. }
  destruct (replay_prefix_at _ _ 0 _ _ (He2 Hops) Hr) as [Hat Hst].
  unfold ctx_ok. rewrite Hm, HP, Har. exists alt, np, t1, tbl1. rewrite Hst. split_and!; auto.
  2: { right. split; [done|]. by eexists. }
  destruct Hh1 as [A1 A2 A3 A4 A5 A6 A7 A8 A9]. split; auto. intros Hpos.
  destruct (A8 Hpos) as (B1 & B2 & B3). split_and!; auto. simpl. apply free_other; [|done].
  pose proof (pool_init_slots _ _ _ _ _ _ _ Hi He) as Hns.
  destruct (decide (0 < pool_bytes op)) as [Ho|Ho].
  - by destruct (switch_pools_disjoint _ _ _ _ _ _ _ _ _ Hh Hw1 Hi Hns Ho Hpos).
  - rewrite (ph_null _ _ _ _ _ Hh); [lia|]. pose proof (ph_bound _ _ _ _ _ Hh). lia.
Qed.

(** Registration writes the entry of an external slot, and only that. *)
Definition registers_external (c : CrucibleContext) (sid : Z) : Prop :=
  exists region plan s, active_region_ c = Some region /\ region_plan region = Some plan /\
    0 <= sid /\ plan_slots plan !! Z.to_nat sid = Some s /\ is_external s = true.

Lemma register_external_ok c w sid ptr c' :
  ctx_ok c w -> registers_external c sid -> ctx_register_external c sid ptr = Ok c' -> ctx_ok c' w.
Proof using Type.
  intros Hok (region & plan & s & Ha & Hp & H0 & Hs & Hx) H. unfold ctx_register_external in H.
  inv_ok. apply bool_decide_eq_true in Hok0. unfold ctx_ok in *. rewrite Hok0 in Hok. simpl.
  rewrite Hok0. destruct Hok as (r' & p' & t & tbl & Ha' & Hp' & Hc & Hh & Ht & He). simplify_eq.
  unfold pool_register_external, initialized_view in Hok1. rewrite (ph_table _ _ _ _ _ Hh) in Hok1.
  simpl in Hok1. inv_ok. exists r', p', (slot_table_ (engine_ c)), (aset tbl sid ptr).
  destruct Hh as [A1 A2 A3 A4 A5 A6 A7 A8 A9].
  split_and!; auto. split; simpl; auto.
  - unfold aset. by rewrite length_insert.
  - intros i u Hi Hxu. unfold aset. rewrite list_lookup_insert_ne; [auto|]. intros <-. congruence.
Qed.
End Invariant.

(** ** Reachable contexts *)

Inductive ctx_reach `{M : PoolMem} : CrucibleContext -> world -> mem -> Prop :=
| reach_new w m : ctx_reach new_context w m
| reach_activate c w m region b c' w' :
    ctx_reach c w m -> region_counted region -> activate c w region = Ok (b, c', w') ->
    ctx_reach c' w' m
| reach_deactivate c w m :
    ctx_reach c w m -> ctx_reach (deactivate c w).1 (deactivate c w).2 m
| reach_advance c w m schema shape s c' :
    ctx_reach c w m -> ctx_advance c schema shape = Ok (s, c') -> ctx_reach c' w m
| reach_switch c w m alt d b c' w' m' :
    ctx_reach c w m -> region_counted alt -> 0 <= d ->
    switch_region c w m alt d = Ok (b, c', w', m') -> ctx_reach c' w' m'
| reach_register c w m sid ptr c' :
    ctx_reach c w m -> registers_external c sid -> ctx_register_external c sid ptr = Ok c' ->
    ctx_reach c' w m
| reach_write c w m m' : ctx_reach c w m -> ctx_reach c w m'.

Lemma ctx_reach_ok `{M : PoolMem} {HM : PoolMemOk M} c w m : ctx_reach c w m -> ctx_ok c w.
Proof.
  induction 1; [by split|..];
    eauto using activate_ok, deactivate_ok, advance_ok, switch_ok, register_external_ok.
Qed.

(** ** Replay of a sequence of guards *)

Fixpoint ctx_run (c : CrucibleContext) (gs : list (Z * Z)) : result (list ReplayStatus * CrucibleContext) :=
  match gs with
  | [] => Ok ([], c)
  | g :: gs =>
      let* '(s, c) := ctx_advance c g.1 g.2 in
      let* '(ss, c) := ctx_run c gs in
      Ok (s :: ss, c)
  end.

(** The reference: compare each guard with the recorded op at a position that
    goes around, and stay on a mismatch. *)
Fixpoint spec_run (ops : list TraceEntry) (k : Z) (gs : list (Z * Z)) : list ReplayStatus * Z :=
  match gs with
  | [] => ([], k)
  | g :: gs =>
      let '(s, k1) := spec_advance ops k g in
      let '(ss, k2) := spec_run ops (if bool_decide (s = COMPLETE) then 0 else k1) gs in
      (s :: ss, k2)
  end.

Definition count_status (s : ReplayStatus) (ss : list ReplayStatus) : Z :=
  Z.of_nat (length (filter (fun t => t = s) ss)).

Lemma count_status_cons s t ss :
  count_status s (t :: ss) = (if bool_decide (t = s) then 1 else 0) + count_status s ss.
Proof. unfold count_status. rewrite filter_cons. case_decide; case_bool_decide; simpl; try lia; congruence. Qed.

Lemma spec_advance_next ops k g :
  ops <> [] -> 0 <= k < Z.of_nat (length ops) ->
  0 <= (if bool_decide ((spec_advance ops k g).1 = COMPLETE) then 0 else (spec_advance ops k g).2)
    < Z.of_nat (length ops).
Proof.
  intros Hne Hk. unfold spec_advance.
  destruct (bool_decide (g = op_guard (op_at ops k))); simpl; [|lia].
  destruct (Z.eqb_spec (k + 1) (Z.of_nat (length ops))); simpl; lia.
Qed.

(** An advance of a context whose counters are not at their ends returns. *)
Lemma ctx_advance_total c region k g :
  mode_ c = COMPILED -> engine_at (region_ops region) k (engine_ c) ->
  k < Z.of_nat (length (region_ops region)) ->
  compiled_iterations_ c <> UINT32_MAX -> diverged_count_ c <> UINT32_MAX ->
  exists s c', ctx_advance c g.1 g.2 = Ok (s, c').
Proof.
  intros Hm Hat Hk Hc Hd. destruct (engine_advance_at _ _ _ g Hat Hk) as (e' & He & _).
  unfold ctx_advance, advance_. rewrite Hm, He. simpl. unfold monotonic_bump.
  destruct (Z.eqb_spec (compiled_iterations_ c) UINT32_MAX); [done|].
  destruct (Z.eqb_spec (diverged_count_ c) UINT32_MAX); [done|].
  destruct (spec_advance (region_ops region) k g).1; simpl; eauto.
Qed.

Lemma ctx_run_spec gs : forall c region k,
  mode_ c = COMPILED -> region_ops region <> [] -> engine_at (region_ops region) k (engine_ c) ->
  0 <= k < Z.of_nat (length (region_ops region)) ->
  compiled_iterations_ c + Z.of_nat (length gs) <= UINT32_MAX ->
  diverged_count_ c + Z.of_nat (length gs) <= UINT32_MAX ->
  exists c', ctx_run c gs = Ok ((spec_run (region_ops region) k gs).1, c') /\
    engine_at (region_ops region) (spec_run (region_ops region) k gs).2 (engine_ c') /\
    compiled_iterations_ c' = compiled_iterations_ c
      + count_status COMPLETE (spec_run (region_ops region) k gs).1 /\
    diverged_count_ c' = diverged_count_ c
      + count_status DIVERGED (spec_run (region_ops region) k gs).1 /\
    mode_ c' = COMPILED /\ ctx_pool_ c' = ctx_pool_ c /\ active_region_ c' = active_region_ c.
Proof.
  induction gs as [|g gs IH]; intros c region k Hm Hne Hat Hk Hci Hdc.
  { exists c. simpl. unfold count_status. simpl. split_and!; auto; lia. }
  simpl in Hci, Hdc.
  destruct (ctx_advance_total c region k g Hm Hat ltac:(lia) ltac:(lia) ltac:(lia)) as (s & c1 & Ha).
  destruct (advance_step c region k g s c1 Hm Hat Hne Ha) as (Hs & Hat1 & _ & _ & Hm1 & Hp1 & Hr1 & Hc1 & Hd1).
  pose proof (spec_advance_next _ _ g Hne Hk) as Hk1. rewrite <- Hs in Hk1.
  destruct (IH c1 region _ Hm1 Hne Hat1 Hk1) as (c2 & Hrun & Hat2 & Hc2 & Hd2 & Hm2 & Hp2 & Hr2);
    [rewrite Hc1; destruct (bool_decide (s = COMPLETE)); lia|rewrite Hd1; destruct (bool_decide (s = DIVERGED)); lia|].
  exists c2. simpl. rewrite Ha. simpl. rewrite Hrun. simpl.
  destruct (spec_advance (region_ops region) k g) as [s' k'] eqn:Hsp. simpl in Hs, Hat1, Hrun, Hat2, Hc2, Hd2.
  subst s'. destruct (spec_run _ (if bool_decide (s = COMPLETE) then 0 else k') gs) as [ss k2] eqn:Hsr.
  cbn [fst snd] in *. rewrite !count_status_cons. split_and!; auto; try congruence; try lia. by rewrite Hsr.
Qed.

(** A guard sequence that the reference never finds different is the
    recorded one, from [k] on and around. *)
Lemma spec_run_no_divergence ops gs : forall k,
  ops <> [] -> 0 <= k < Z.of_nat (length ops) ->
  DIVERGED ∉ (spec_run ops k gs).1 <->
  (forall i g, gs !! i = Some g ->
     g = op_guard (op_at ops ((k + Z.of_nat i) mod Z.of_nat (length ops)))).
Proof.
  induction gs as [|g gs IH]; intros k Hne Hk.
  { simpl. split; [intros _ i g; by rewrite lookup_nil|intros _; apply not_elem_of_nil]. }
  assert (Hn : 0 < Z.of_nat (length ops)) by lia.
  pose proof (spec_advance_next _ _ g Hne Hk) as Hk1. simpl.
  destruct (spec_advance ops k g) as [s k1] eqn:Hs. simpl in Hk1.
  specialize (IH _ Hne Hk1). destruct (spec_run ops _ gs) as [ss k2]. simpl in *.
  rewrite not_elem_of_cons, IH. clear IH. unfold spec_advance in Hs.
  destruct (decide (g = op_guard (op_at ops k))) as [Hg|Hg];
    [rewrite bool_decide_true in Hs by done|rewrite bool_decide_false in Hs by done];
    injection Hs as <- <-.
  - assert (Hnext : (if bool_decide ((if k + 1 =? Z.of_nat (length ops) then COMPLETE else MATCH) = COMPLETE)
                     then 0 else k + 1) = (k + 1) mod Z.of_nat (length ops)).
    { destruct (Z.eqb_spec (k + 1) (Z.of_nat (length ops))) as [->|]; simpl; symmetry;
        [apply Z.mod_same|apply Z.mod_small]; lia. }
    rewrite Hnext. split.
    + intros [_ H] [|i] g' Hi; simplify_eq/=.
      * rewrite Z.add_0_r, Z.mod_small by lia. done.
      * rewrite (H i g' Hi), Zplus_mod_idemp_l. do 3 f_equal. lia.
    + intros H. split; [by destruct (_ =? _)|]. intros i g' Hi.
      rewrite (H (S i) g' Hi), Zplus_mod_idemp_l. do 3 f_equal. lia.
  - split; [by intros [? _]|]. intros H. specialize (H 0%nat g eq_refl).
    rewrite Z.add_0_r, Z.mod_small in H by lia. done.
Qed.

(** ** The properties *)

Section ContextProperties.
Context `{M : PoolMem} {HM : PoolMemOk M}.

(** C9: in every reachable context the parts agree.  A recording context has
    an empty pool and no region.  A compiled one has a region with a plan, a
    pool whose table holds the pointer of each pooled slot of that plan, and
    an engine on the ops of that region that reads that table. *)
Theorem context_parts_in_step c w m : ctx_reach c w m -> ctx_ok c w.
Proof using HM. apply ctx_reach_ok. Qed.

(** C8: a compiled context answers a sequence of guards as a comparison with
    the recorded ops from its position on and around: it reports no
    divergence exactly when the sequence is the recorded one, and the two
    counters grow by the completed rounds and by the divergences. *)
Theorem context_replay_follows_trace c w m region gs :
  ctx_reach c w m -> mode_ c = COMPILED -> active_region_ c = Some region ->
  cursor_ (engine_ c) < Z.of_nat (length (region_ops region)) ->
  compiled_iterations_ c + Z.of_nat (length gs) <= UINT32_MAX ->
  diverged_count_ c + Z.of_nat (length gs) <= UINT32_MAX ->
  exists ss c', ctx_run c gs = Ok (ss, c') /\
    (DIVERGED ∉ ss <-> forall i g, gs !! i = Some g ->
       g = op_guard (op_at (region_ops region)
             ((cursor_ (engine_ c) + Z.of_nat i) mod Z.of_nat (length (region_ops region))))) /\
    compiled_iterations_ c' = compiled_iterations_ c + count_status COMPLETE ss /\
    diverged_count_ c' = diverged_count_ c + count_status DIVERGED ss.
Proof using HM.
  intros Hr Hm Ha Hcur Hci Hdc. pose proof (ctx_reach_ok _ _ _ Hr) as Hok.
  unfold ctx_ok in Hok. rewrite Hm in Hok.
  destruct Hok as (r' & plan & t & tbl & Ha' & _ & _ & _ & _ & He). simplify_eq.
  destruct He as [(E & Hc0 & _)|(Hne & k & Hat)].
  { rewrite E, Hc0 in Hcur. simpl in Hcur. lia. }
  pose proof Hat as [_ He Hk Hrg _ _]. rewrite Hk in *.
  destruct (ctx_run_spec gs c region k Hm Hne Hat ltac:(lia) Hci Hdc)
    as (c' & Hrun & _ & Hc & Hd & _).
  eexists _, c'. split; [exact Hrun|]. split_and!; auto.
  apply spec_run_no_divergence; [done|lia].
Qed.

(** After an op that matched, also one that completed the round, the
    context hands out for each pooled output of that op the base of the pool
    plus the offset of its slot in the plan. *)
Theorem context_output_pointer c w m region plan g s c' j ids sid slot :
  ctx_reach c w m -> active_region_ c = Some region -> region_plan region = Some plan ->
  ctx_advance c g.1 g.2 = Ok (s, c') -> s <> DIVERGED ->
  output_slot_ids (op_at (region_ops region) (cursor_ (engine_ c))) = Some ids ->
  num_outputs (op_at (region_ops region) (cursor_ (engine_ c))) = Z.of_nat (length ids) ->
  ids !! Z.to_nat j = Some sid -> 0 <= j -> 0 <= sid < none32 ->
  plan_slots plan !! Z.to_nat sid = Some slot -> is_external slot = false ->
  ctx_output_ptr c' j = Ok (pool_ (ctx_pool_ c') + offset_bytes slot).
Proof using HM.
  intros Hr Ha Hp Hadv Hs Hids Hno Hj Hj0 Hsid Hslot Hx. pose proof (ctx_reach_ok _ _ _ Hr) as Hok.
  assert (Hm : mode_ c = COMPILED).
  { unfold ctx_advance in Hadv. inv_ok. by apply bool_decide_eq_true in Hok0. }
  unfold ctx_ok in Hok. rewrite Hm in Hok.
  destruct Hok as (r' & p' & t & tbl & Ha' & Hp' & _ & Hh & Ht & He). simplify_eq.
  destruct He as [(E & Hc0 & Hend)|(Hne & k & Hat)].
  { unfold ctx_advance, advance_, engine_advance in Hadv. rewrite Hm, Hc0, Hend in Hadv. done. }
  destruct (advance_step c region k g s c' Hm Hat Hne Hadv) as (_ & Hat' & Hst & Hcur & Hm' & Hpo & _).
  pose proof Hat as [_ _ Hk _ _ _]. rewrite Hk in *.
  unfold ctx_output_ptr, engine_table. rewrite Hm', Hpo, (ph_table _ _ _ _ _ Hh), Hst, Z.eqb_refl. simpl.
  unfold output_ptr, current_entry, engine_ops. rewrite (Hcur Hs), (ea_ops _ _ _ Hat'). simpl.
  pose proof (lookup_lt_Some _ _ _ Hj).
  unfold slot_of, in_range. rewrite Hids, Hno.
  destruct (Z.ltb_spec 0 (Z.of_nat (length ids))); [|lia]. simpl.
  destruct (Z.leb_spec 0 j); [|lia].
  destruct (Z.leb_spec j (Z.of_nat (length ids) - 1)); [|lia]. simpl. rewrite Hj. simpl.
  unfold table_entry, is_valid32. destruct (Z.eqb_spec sid none32); [lia|]. simpl.
  by rewrite (ph_entry _ _ _ _ _ Hh _ _ Hslot Hx).
Qed.
End ContextProperties.

(** ** Witnesses *)

(** Two regions of four ops that share the first three.  The third slot takes
    the bytes of the first one. *)
Definition wit_op (schema shape : Z) (outs : list Z) : TraceEntry :=
  {| schema_hash := schema; shape_hash := shape; scope_hash := 0; callsite_hash := 0;
     input_metas := None; output_metas := None; num_inputs := 0;
     num_outputs := Z.of_nat (length outs); scalar_args := None; num_scalar_args := 0;
     grad_enabled := false; inference_mode := false; kernel_id := 0; is_mutable := false;
     training_phase := FORWARD; torch_function := false; input_trace_indices := None;
     input_slot_ids := None; output_slot_ids := Some outs |}.

Definition wit_ctx_slots : list TensorSlot :=
  [wit_slot 512 0 1 false; wit_slot 256 1 3 false; wit_slot 500 2 3 false].

Definition wit_ctx_plan : MemoryPlan :=
  match compute_memory_plan (-1) 0 0 wit_ctx_slots with
  | Ok p => p
  | Fatal _ => mkPlan [] 0 0 0 CPU (-1) 0 0 0
  end.

Definition wit_region (last : Z) : RegionNode :=
  {| region_content_hash := last;
     region_ops := [wit_op 11 1 [0]; wit_op 12 2 [1]; wit_op 13 3 [2]; wit_op last 4 []];
     region_plan := Some wit_ctx_plan |}.


Definition wit_active : CrucibleContext * world :=
  match activate (M := bump_pool_mem) new_context wit_world (wit_region 14) with
  | Ok (_, c, w) => (c, w)
  | Fatal _ => (new_context, wit_world)
  end.

Definition wit_mem : mem := fun a => a mod 251.

Lemma wit_region_counted last : region_counted (wit_region last).
Proof. intros plan [= <-]. vm_compute. reflexivity. Qed.

Lemma wit_active_reach : ctx_reach (M := bump_pool_mem) wit_active.1 wit_active.2 wit_mem.
Proof.
  apply (reach_activate new_context wit_world wit_mem (wit_region 14) true);
    [constructor|apply wit_region_counted|vm_compute; reflexivity].
Qed.

(** The context at the divergence, three ops into the region. *)
Definition wit_at3 : CrucibleContext :=
  match ctx_run wit_active.1 [(11, 1); (12, 2); (13, 3)] with
  | Ok (_, c) => c
  | Fatal _ => new_context
  end.

Lemma ctx_run_reach `{M : PoolMem} gs : forall c w m ss c',
  ctx_reach c w m -> ctx_run c gs = Ok (ss, c') -> ctx_reach c' w m.
Proof.
  induction gs as [|g gs IH]; intros c w m ss c' Hr H; simpl in H; inv_ok; [by simplify_eq|].
  split_pairs. inv_ok. split_pairs. inv_ok. simplify_eq. eapply IH; [|done].
  by eapply reach_advance.
Qed.

Lemma wit_at3_reach : ctx_reach (M := bump_pool_mem) wit_at3 wit_active.2 wit_mem.
Proof.
  apply (ctx_run_reach [(11, 1); (12, 2); (13, 3)] wit_active.1 wit_active.2 wit_mem [MATCH; MATCH; MATCH]);
    [apply wit_active_reach|vm_compute; reflexivity].
Qed.

Lemma context_parts_in_step_witness : ctx_ok wit_at3 wit_active.2.
Proof.
  apply (context_parts_in_step (M := bump_pool_mem) (HM := bump_pool_mem_ok) wit_at3 wit_active.2 wit_mem).
  apply wit_at3_reach.
Defined.

Lemma context_replay_follows_trace_witness :
  exists ss c', ctx_run wit_active.1 [(11, 1); (12, 2); (13, 3); (14, 4); (11, 1); (99, 2)] = Ok (ss, c') /\
    ss = [MATCH; MATCH; MATCH; COMPLETE; MATCH; DIVERGED] /\
    compiled_iterations_ c' = 0 + count_status COMPLETE ss.
Proof.
  destruct (context_replay_follows_trace (M := bump_pool_mem) (HM := bump_pool_mem_ok)
    wit_active.1 wit_active.2 wit_mem (wit_region 14)
    [(11, 1); (12, 2); (13, 3); (14, 4); (11, 1); (99, 2)] wit_active_reach
    ltac:(vm_compute; reflexivity) ltac:(vm_compute; reflexivity) ltac:(vm_compute; reflexivity)
    ltac:(vm_compute; congruence) ltac:(vm_compute; congruence)) as (ss & c' & Hrun & _ & Hc & _).
  exists ss, c'. split; [exact Hrun|]. split; [|exact Hc].
  vm_compute in Hrun. injection Hrun as <- _. reflexivity.
Defined.

Definition wit_at1 : CrucibleContext :=
  match ctx_advance wit_active.1 11 1 with Ok (_, c) => c | Fatal _ => new_context end.

Lemma context_output_pointer_witness :
  ctx_output_ptr wit_at1 0 = Ok (pool_ (ctx_pool_ wit_at1) + 0).
Proof.
  refine (context_output_pointer (M := bump_pool_mem) (HM := bump_pool_mem_ok)
    wit_active.1 wit_active.2 wit_mem (wit_region 14) wit_ctx_plan (11, 1) MATCH wit_at1 0 [0] 0
    (wit_slot 512 0 1 false) wit_active_reach _ _ _ _ _ _ _ _ _ _ _).
  - vm_compute. reflexivity.
  - vm_compute. reflexivity.
  - vm_compute. reflexivity.
  - discriminate.
  - vm_compute. reflexivity.
  - vm_compute. reflexivity.
  - vm_compute. reflexivity.
  - vm_compute. discriminate.
  - vm_compute. split; congruence.
  - vm_compute. reflexivity.
  - reflexivity.
Defined.
