(* ===== verification/MigrateProofs.v ===== *)
(** * MigrateProofs.v: a region switch keeps the live bytes

    The prefix migration copies each output of the shared prefix from the old
    pool to the new one, once for each slot of the new plan.  Slots of the new
    plan share bytes when their lifetimes do not meet, so a later copy can
    overwrite an earlier one; the bytes of a slot that is still live at the
    divergence survive. *)

From stdpp Require Import base list gmap strings.
From Stdlib Require Import ZArith Lia.
From S2P Require Import Prelude Types Arena Registry MemoryPlan Pool PlanSweep PlanProofs.
From S2P Require Import PoolProofs Replay Context ContextProofs.
#[local] Open Scope Z_scope.
#[local] Open Scope result_scope.

(** ** The bitset *)

Definition bitset_ok (v : list Z) : Prop := length v = 16%nat.

Lemma visited_set_ok v ns : bitset_ok v -> bitset_ok (visited_set v ns).
Proof. unfold bitset_ok, visited_set. by rewrite length_aset. Qed.

Lemma visited_get_set v a b :
  bitset_ok v -> 0 <= a < 1024 -> 0 <= b < 1024 ->
  visited_get (visited_set v a) b = bool_decide (a = b) || visited_get v b.
Proof.
  intros Hv Ha Hb. unfold bitset_ok, visited_get, visited_set in *.
  assert (0 <= a / 64 < 16 /\ 0 <= b / 64 < 16) by mod_lia.
  assert (0 <= a mod 64 < 64 /\ 0 <= b mod 64 < 64) by mod_lia.
  rewrite aget_aset by lia. case_decide as Hw.
  - rewrite Z.lor_spec, Z.shiftl_1_l, Z.pow2_bits_eqb, Hw by lia. rewrite orb_comm. f_equal.
    case_bool_decide as E; [subst; apply Z.eqb_refl|]. apply Z.eqb_neq. mod_lia.
  - rewrite bool_decide_false by (intros ->; done). done.
Qed.

Lemma visited_none b : 0 <= b < 1024 -> visited_get (replicate 16 0) b = false.
Proof.
  intros Hb. unfold visited_get, aget. assert (0 <= b / 64 < 16) by mod_lia.
  rewrite lookup_replicate_2 by lia. simpl. apply Z.testbit_0_l.
Qed.

(** ** The loops as one list of pairs *)

(** An output of op [i] of the prefix, with its slot in each plan. *)
Record moved := mkMoved { mv_op : nat; mv_old : Z; mv_new : Z }.

Definition op_moves (i : nat) (old_te new_te : TraceEntry) : list moved :=
  match output_slot_ids old_te, output_slot_ids new_te with
  | Some o, Some n =>
      zip_with (mkMoved i) (take (Z.to_nat (num_outputs old_te)) o) (take (Z.to_nat (num_outputs old_te)) n)
  | _, _ => []
  end.

Fixpoint prefix_moves (old_ops new_ops : list TraceEntry) (i n : nat) : list moved :=
  match n with
  | O => []
  | S n =>
      match old_ops !! i, new_ops !! i with
      | Some o, Some t => op_moves i o t
      | _, _ => []
      end ++ prefix_moves old_ops new_ops (S i) n
  end.

Section Moves.
Context (old_plan new_plan : MemoryPlan) (old_base new_base : Z).

#[local] Abbreviation step := (migrate_output old_plan new_plan old_base new_base).

Fixpoint run_moves (l : list moved) (vm : list Z * mem) : result (list Z * mem) :=
  match l with
  | [] => Ok vm
  | p :: l => let* vm := step (mv_old p) (mv_new p) vm in run_moves l vm
  end.

Lemma run_moves_app l k vm :
  run_moves (l ++ k) vm = (let* vm := run_moves l vm in run_moves k vm).
Proof using Type.
  revert vm. induction l as [|p l IH]; intros vm; simpl; [done|].
  destruct (step _ _ vm); simpl; auto.
Qed.

Lemma migrate_outputs_moves i o n k : forall j vm vm',
  migrate_outputs old_plan new_plan old_base new_base o n j k vm = Ok vm' ->
  run_moves (zip_with (mkMoved i) (take k (drop j o)) (take k (drop j n))) vm = Ok vm'.
Proof using Type.
  induction k as [|k IH]; intros j vm vm' H; simpl in H; [done|].
  destruct (o !! j) as [a|] eqn:Ha; [|done]. destruct (n !! j) as [b|] eqn:Hb; [|done]. inv_ok.
  rewrite (drop_S _ _ _ Ha), (drop_S _ _ _ Hb). simpl. rewrite Hok. simpl. by apply IH.
Qed.

Lemma migrate_op_moves i o t vm vm' :
  migrate_op old_plan new_plan old_base new_base o t vm = Ok vm' ->
  run_moves (op_moves i o t) vm = Ok vm'.
Proof using Type.
  unfold migrate_op, op_moves. destruct (output_slot_ids o), (output_slot_ids t); auto.
  intros H. inv_ok. by apply (migrate_outputs_moves i) in H.
Qed.

Lemma migrate_ops_moves o t k : forall i vm vm',
  migrate_ops old_plan new_plan old_base new_base o t i k vm = Ok vm' ->
  run_moves (prefix_moves o t i k) vm = Ok vm'.
Proof using Type.
  induction k as [|k IH]; intros i vm vm' H; simpl in H; [done|].
  simpl. destruct (o !! i) as [a|] eqn:Ha; [|done]. destruct (t !! i) as [b|] eqn:Hb; [|done].
  inv_ok. rewrite run_moves_app, (migrate_op_moves i _ _ _ _ Hok). simpl. by apply IH.
Qed.

(** A pair that the migration copies: two pooled slots of their plans. *)
Definition movable (p : moved) : bool :=
  is_valid32 (mv_old p) && is_valid32 (mv_new p)
  && negb (is_external (plan_slot old_plan (mv_old p)))
  && negb (is_external (plan_slot new_plan (mv_new p))).

Definition dst_range (p : moved) : range :=
  (new_base + offset_bytes (plan_slot new_plan (mv_new p)), nbytes (plan_slot old_plan (mv_old p))).

(** One step either leaves the memory and the bitset, or marks the new slot
    and writes its range. *)
Lemma step_cases p v m v' m' :
  step (mv_old p) (mv_new p) (v, m) = Ok (v', m') ->
  (v' = v /\ m' = m /\ (movable p = false \/ visited_get v (mv_new p) = true)) \/
  (movable p = true /\ visited_get v (mv_new p) = false /\ v' = visited_set v (mv_new p) /\
   mv_old p < num_slots old_plan /\ mv_new p < num_slots new_plan /\
   (m' = memcpy m (dst_range p).1 (old_base + offset_bytes (plan_slot old_plan (mv_old p))) (dst_range p).2
    \/ m' = m /\ (nbytes (plan_slot old_plan (mv_old p)) <= 0 \/ old_base = 0))).
Proof using Type.
  unfold migrate_output, movable. simpl.
  destruct (is_valid32 (mv_old p)), (is_valid32 (mv_new p)); simpl;
    try (intros [= <- <-]; left; auto; fail).
  intros H. inv_ok. reflect_bools.
  destruct (is_external (plan_slot old_plan (mv_old p))); simpl in H; [injection H as <- <-; left; auto|].
  destruct (is_external (plan_slot new_plan (mv_new p))); simpl in H; [injection H as <- <-; left; auto|].
  destruct (visited_get v (mv_new p)) eqn:Hv; [injection H as <- <-; left; auto|]. right.
  destruct (_ && _) eqn:Hc; injection H as <- <-; split_and!; auto.
  right. split; [done|]. reflect_bools. destruct Hc as [Hc|Hc]; reflect_bools; [by left|by right].
Qed.

(** The pools: the new plan fits the new pool, and the old pool is elsewhere. *)
Context (Hnew : Forall (fun s => can_serve_slot s (pool_bytes new_plan) = true) (plan_slots new_plan)).
Context (Hcnt : plan_counted new_plan) (Hmax : num_slots new_plan <= 1024).

Record moves_ok (l : list moved) : Prop := {
  mo_ids p : p ∈ l -> 0 <= mv_old p /\ 0 <= mv_new p;
  mo_size p : p ∈ l -> movable p = true ->
    nbytes (plan_slot old_plan (mv_old p)) = nbytes (plan_slot new_plan (mv_new p));
}.

Lemma moves_ok_app l k : moves_ok (l ++ k) -> moves_ok l /\ moves_ok k.
Proof using Type.
  intros [H1 H2]. split; split; intros p Hp; [apply H1|apply H2|apply H1|apply H2];
    apply elem_of_app; auto.
Qed.

Lemma plan_slot_served i :
  0 <= i < num_slots new_plan -> is_external (plan_slot new_plan i) = false ->
  exists s, plan_slots new_plan !! Z.to_nat i = Some s /\ plan_slot new_plan i = s /\
    offset_bytes s + nbytes s <= pool_bytes new_plan.
Proof using Hnew Hcnt.
  intros Hi Hx. unfold plan_counted in Hcnt. destruct (lookup_lt_is_Some_2 (plan_slots new_plan) (Z.to_nat i))
    as [s Hs]; [lia|]. exists s. unfold plan_slot, aget in *. rewrite Hs in *. simpl in *.
  split_and!; auto. pose proof (Forall_lookup_1 _ _ _ _ Hnew Hs) as Hc. unfold can_serve_slot in Hc.
  rewrite Hx in Hc. destruct (_ <=? _); [done|]. reflect_bools. done.
Qed.

(** A copied range is inside the new pool. *)
Definition outside (a : Z) : Prop := ~ (new_base <= a < new_base + pool_bytes new_plan).

Lemma memcpy_other m dst src n a : ~ (dst <= a < dst + n) -> memcpy m dst src n a = m a.
Proof using Type.
  intros H. unfold memcpy. destruct (Z.leb_spec dst a), (Z.ltb_spec a (dst + n)); try done. lia.
Qed.

Lemma memcpy_at m dst src n x : 0 <= x < n -> memcpy m dst src n (dst + x) = m (src + x).
Proof using Type.
  intros H. unfold memcpy. destruct (Z.leb_spec dst (dst + x)), (Z.ltb_spec (dst + x) (dst + n)); try lia.
  f_equal. lia.
Qed.

Lemma movable_internal p :
  movable p = true -> is_external (plan_slot new_plan (mv_new p)) = false /\
    is_external (plan_slot old_plan (mv_old p)) = false.
Proof using Type. unfold movable. intros H. reflect_bools. done. Qed.

(** The fields of a slot are not negative. *)
Context (Hoff : Forall (fun s => is_external s = false -> 0 <= offset_bytes s /\ 0 <= nbytes s)
  (plan_slots new_plan)).

Lemma run_moves_before l s : forall v m v' m',
  run_moves l (v, m) = Ok (v', m') -> moves_ok l -> bitset_ok v -> 0 <= s < 1024 ->
  (forall p, p ∈ l -> movable p = true -> mv_new p <> s) ->
  bitset_ok v' /\ visited_get v' s = visited_get v s /\ (forall a, outside a -> m' a = m a).
Proof using Hnew Hcnt Hmax Hoff.
  induction l as [|p l IH]; intros v m v' m' H Hmo Hv Hs Hnot; simpl in H.
  { inv_ok. by simplify_eq. }
  inv_ok. destruct a as [v1 m1].
  change (p :: l) with ([p] ++ l) in Hmo. apply moves_ok_app in Hmo as [Hmp Hml].
  assert (Hnl : forall q, q ∈ l -> movable q = true -> mv_new q <> s).
  { intros q Hq. apply Hnot. by right. }
  destruct (step_cases p v m v1 m1 Hok) as [(-> & -> & _)|(Hmv & _ & -> & _ & Hlt & Hm)].
  { by apply (IH v m). }
  destruct (mo_ids _ Hmp p) as [Ho Hn]; [by left|].
  destruct (IH _ _ _ _ H Hml (visited_set_ok _ _ Hv) Hs Hnl) as (H1 & H2 & H3).
  split_and!; auto.
  - rewrite H2, visited_get_set by (auto; lia).
    rewrite bool_decide_false by (apply Hnot; [by left|done]). done.
  - intros a Ha. rewrite H3 by done. destruct Hm as [-> |[-> _]]; [|done]. apply memcpy_other.
    destruct (movable_internal p Hmv) as [Hx _].
    destruct (plan_slot_served (mv_new p) ltac:(lia) Hx) as (u & Hu & Heq & Hin).
    pose proof (mo_size _ Hmp p ltac:(by left) Hmv) as Hsz.
    rewrite Heq in Hx. pose proof (Forall_lookup_1 _ _ _ _ Hoff Hu Hx) as [? ?].
    unfold dst_range, outside in *. simpl. rewrite Heq in *. rewrite Hsz. lia.
Qed.

Lemma run_moves_after l s R : forall v m v' m',
  run_moves l (v, m) = Ok (v', m') -> moves_ok l -> bitset_ok v -> 0 <= s < 1024 ->
  visited_get v s = true ->
  (forall p, p ∈ l -> movable p = true -> mv_new p < num_slots new_plan -> mv_new p <> s ->
     rdisj (dst_range p) R) ->
  forall a, R.1 <= a < R.1 + R.2 -> m' a = m a.
Proof using Hmax.
  induction l as [|p l IH]; intros v m v' m' H Hmo Hv Hs Hvis Hd a Ha; simpl in H.
  { inv_ok. by simplify_eq. }
  inv_ok. destruct a0 as [v1 m1].
  change (p :: l) with ([p] ++ l) in Hmo. apply moves_ok_app in Hmo as [Hmp Hml].
  assert (Hdl : forall q, q ∈ l -> movable q = true -> mv_new q < num_slots new_plan -> mv_new q <> s ->
    rdisj (dst_range q) R).
  { intros q Hq. apply Hd. by right. }
  destruct (step_cases p v m v1 m1 Hok) as [(-> & -> & _)|(Hmv & Hv0 & -> & _ & Hlt & Hm)].
  { by apply (IH v m v' m'). }
  destruct (mo_ids _ Hmp p) as [Ho Hn]; [by left|].
  assert (Hne : mv_new p <> s) by (intros E; rewrite E in Hv0; congruence).
  rewrite (IH _ _ _ _ H Hml (visited_set_ok _ _ Hv) Hs) by
    (auto; rewrite visited_get_set by (auto; lia); by rewrite Hvis, orb_true_r).
  destruct Hm as [-> |[-> _]]; [|done]. apply memcpy_other.
  specialize (Hd p ltac:(by left) Hmv Hlt Hne). unfold rdisj, dst_range in *. simpl in *. lia.
Qed.
End Moves.

(** ** The order of the moves *)

Lemma op_moves_op i o t : Forall (fun p => mv_op p = i) (op_moves i o t).
Proof.
  unfold op_moves. destruct (output_slot_ids o) as [a|], (output_slot_ids t) as [b|]; auto.
  set (x := take _ a). set (y := take _ b). clearbody x y. revert y.
  induction x as [|u x IH]; intros [|z y]; simpl; auto.
Qed.

Lemma prefix_moves_range o t n : forall i,
  Forall (fun p => (i <= mv_op p < i + n)%nat) (prefix_moves o t i n).
Proof.
  induction n as [|n IH]; intros i; simpl; [done|]. apply Forall_app. split.
  - destruct (o !! i), (t !! i); auto. eapply Forall_impl; [apply op_moves_op|]. simpl. intros; lia.
  - eapply Forall_impl; [apply IH|]. simpl. intros; lia.
Qed.

Lemma prefix_moves_sorted o t n : forall i,
  pairwise (fun p q => (mv_op p <= mv_op q)%nat) (prefix_moves o t i n).
Proof.
  induction n as [|n IH]; intros i; simpl; [done|]. apply pairwise_app.
  assert (Hi : Forall (fun p => mv_op p = i)
    (match o !! i, t !! i with Some a, Some b => op_moves i a b | _, _ => [] end)).
  { destruct (o !! i), (t !! i); auto. apply op_moves_op. }
  split_and!; [|apply IH|].
  - induction Hi as [|p l Hp Hl IHl]; simpl; auto. split; [|done].
    eapply Forall_impl; [exact Hl|]. simpl. intros; lia.
  - eapply Forall_impl; [exact Hi|]. intros p <-. eapply Forall_impl; [apply prefix_moves_range|].
    simpl. intros; lia.
Qed.

(** ** The switch *)

(** The outputs of the shared prefix, in order. *)
Definition shared_outputs (old alt : RegionNode) (d : Z) : list moved :=
  prefix_moves (region_ops old) (region_ops alt) 0 (Z.to_nat d).

(** The two regions record the same prefix: each output has the same size in
    both plans, and an op writes a slot inside the lifetime the new plan
    gives it. *)
Record same_prefix (old alt : RegionNode) (old_plan new_plan : MemoryPlan) (d : Z) : Prop := {
  sp_old : Forall (fun s => is_external s = false -> 0 <= offset_bytes s /\ 0 <= nbytes s)
    (plan_slots old_plan);
  sp_moves : moves_ok old_plan new_plan (shared_outputs old alt d);
  sp_life p : p ∈ shared_outputs old alt d -> movable old_plan new_plan p = true ->
    birth_op (plan_slot new_plan (mv_new p)) <= Z.of_nat (mv_op p)
      <= death_op (plan_slot new_plan (mv_new p));
}.

Lemma plan_fields_nonneg slots plan :
  plannable slots -> plan_safe slots plan ->
  Forall (fun s => is_external s = false -> 0 <= offset_bytes s /\ 0 <= nbytes s) (plan_slots plan).
Proof.
  intros Hpl Hsafe. apply Forall_lookup_2. intros i s Hi Hx.
  pose proof (plan_nbytes _ _ _ _ Hpl Hsafe Hi Hx). destruct Hsafe as [_ Hplace _ _].
  destruct (Hplace i s Hi Hx) as (? & _). unfold slot_range in *. simpl in *. lia.
Qed.

Lemma plan_counted_computed rank ws cap slots plan :
  plannable slots -> compute_memory_plan rank ws cap slots = Ok plan -> plan_counted plan.
Proof.
  intros Hpl H. pose proof (num_slots_plan _ _ _ _ _ H) as Hn.
  destruct (compute_memory_plan_safe _ _ _ _ _ (pl_wf _ Hpl) (pl_len _ Hpl) (pl_total _ Hpl) H)
    as [Hsl _ _ _]. apply Forall2_length in Hsl. unfold plan_counted. lia.
Qed.

Lemma plan_slot_lookup plan i s :
  plan_slots plan !! Z.to_nat i = Some s -> plan_slot plan i = s.
Proof. intros H. unfold plan_slot, aget. by rewrite H. Qed.

(** Two pooled slots of a computed plan that meet have disjoint bytes. *)
Lemma plan_slots_disjoint slots plan i j si sj :
  plannable slots -> plan_safe slots plan ->
  plan_slots plan !! i = Some si -> plan_slots plan !! j = Some sj -> i <> j ->
  is_external si = false -> is_external sj = false ->
  birth_op si <= death_op sj -> birth_op sj <= death_op si ->
  rdisj (offset_bytes si, nbytes si) (offset_bytes sj, nbytes sj).
Proof.
  intros Hpl Hsafe Hi Hj Hne Hxi Hxj H1 H2.
  pose proof (plan_nbytes _ _ _ _ Hpl Hsafe Hi Hxi). pose proof (plan_nbytes _ _ _ _ Hpl Hsafe Hj Hxj).
  destruct Hsafe as [_ _ Hd _]. destruct (Hd i j si sj Hi Hj Hne Hxi Hxj) as [Hr|Hr]; [by split|..];
    unfold rdisj, slot_range in *; simpl in *; lia.
Qed.

Definition in_lifetimes (old_plan new_plan : MemoryPlan) (l : list moved) : Prop :=
  forall p, p ∈ l -> movable old_plan new_plan p = true ->
    birth_op (plan_slot new_plan (mv_new p)) <= Z.of_nat (mv_op p)
      <= death_op (plan_slot new_plan (mv_new p)).

(** A later move that writes another slot leaves the bytes of [p]. *)
Lemma later_move_disjoint slots old_plan new_plan nb p q d :
  plannable slots -> plan_safe slots new_plan -> plan_counted new_plan ->
  movable old_plan new_plan p = true -> movable old_plan new_plan q = true ->
  0 <= mv_new p < num_slots new_plan -> 0 <= mv_new q < num_slots new_plan -> mv_new q <> mv_new p ->
  (mv_op p <= mv_op q)%nat -> Z.of_nat (mv_op q) < d ->
  d <= death_op (plan_slot new_plan (mv_new p)) -> in_lifetimes old_plan new_plan [p; q] ->
  nbytes (plan_slot old_plan (mv_old p)) = nbytes (plan_slot new_plan (mv_new p)) ->
  nbytes (plan_slot old_plan (mv_old q)) = nbytes (plan_slot new_plan (mv_new q)) ->
  rdisj (dst_range old_plan new_plan nb q) (dst_range old_plan new_plan nb p).
Proof.
  intros Hpl Hsafe Hcnt Hmp Hmq Hp Hq Hne Hord Hqd Hlive Hlife Hsp Hsq.
  pose proof (plan_can_serve _ _ Hpl Hsafe) as Hserve.
  destruct (movable_internal _ _ _ Hmp) as [Hxp _], (movable_internal _ _ _ Hmq) as [Hxq _].
  destruct (plan_slot_served new_plan Hserve Hcnt _ Hp Hxp) as (sp & Hlp & Hep & _).
  destruct (plan_slot_served new_plan Hserve Hcnt _ Hq Hxq) as (sq & Hlq & Heq & _).
  pose proof (Hlife p ltac:(by left) Hmp) as L1.
  pose proof (Hlife q ltac:(by right; left) Hmq) as L2.
  rewrite Hep, Heq in *.
  pose proof (plan_slots_disjoint _ _ _ _ _ _ Hpl Hsafe Hlq Hlp ltac:(lia) Hxq Hxp ltac:(lia) ltac:(lia)).
  unfold dst_range, rdisj in *. simpl in *. rewrite Hep, Heq, Hsp, Hsq. lia.
Qed.

Lemma run_moves_keep slots old_plan new_plan ob nb m v' m' pre p post x d :
  plannable slots -> plan_safe slots new_plan -> plan_counted new_plan -> num_slots new_plan <= 1024 ->
  run_moves old_plan new_plan ob nb (pre ++ p :: post) (replicate 16 0, m) = Ok (v', m') ->
  moves_ok old_plan new_plan (pre ++ p :: post) ->
  Forall (fun q => (mv_op p <= mv_op q)%nat /\ Z.of_nat (mv_op q) < d) post ->
  in_lifetimes old_plan new_plan (pre ++ p :: post) -> movable old_plan new_plan p = true ->
  (forall q, q ∈ pre -> movable old_plan new_plan q = true -> mv_new q <> mv_new p) ->
  d <= death_op (plan_slot new_plan (mv_new p)) ->
  0 <= x < nbytes (plan_slot old_plan (mv_old p)) ->
  (mv_old p < num_slots old_plan -> ob <> 0 /\
   outside new_plan nb (ob + offset_bytes (plan_slot old_plan (mv_old p)) + x)) ->
  m' (nb + offset_bytes (plan_slot new_plan (mv_new p)) + x)
  = m (ob + offset_bytes (plan_slot old_plan (mv_old p)) + x).
Proof.
  intros Hpl Hsafe Hcnt Hmax Hrun Hmo Hord Hlife Hmv Hfirst Hlive Hx Hout.
  pose proof (plan_can_serve _ _ Hpl Hsafe) as Hserve.
  pose proof (plan_fields_nonneg _ _ Hpl Hsafe) as Hnn.
  apply moves_ok_app in Hmo as [Hmpre Hmp]. change (p :: post) with ([p] ++ post) in Hmp.
  apply moves_ok_app in Hmp as [Hmp Hmpost].
  destruct (mo_ids _ _ _ Hmp p) as [Hpo Hpn]; [by left|].
  pose proof (mo_size _ _ _ Hmp p ltac:(by left) Hmv) as Hsz.
  rewrite run_moves_app in Hrun. inv_ok. destruct a as [v1 m1]. cbn [run_moves] in Hrun. inv_ok.
  destruct a as [v2 m2].
  destruct (step_cases _ _ _ _ p v1 m1 v2 m2 Hok0)
    as [(_ & _ & [?|Hvis])|(_ & Hnv & -> & Holt & Hnlt & Hm2)]; [congruence| |].
  - exfalso. assert (Hlt : mv_new p < num_slots new_plan).
    { unfold migrate_output in Hok0. unfold movable in Hmv. reflect_bools.
      destruct (is_valid32 (mv_old p)), (is_valid32 (mv_new p)); try done. simpl in Hok0.
      inv_ok. by reflect_bools. }
    destruct (run_moves_before _ _ _ _ Hserve Hcnt Hmax Hnn pre (mv_new p) _ _ _ _ Hok Hmpre)
      as (_ & Hv & _); auto; [done|lia|].
    rewrite visited_none in Hv by lia. congruence.
  - destruct (run_moves_before _ _ _ _ Hserve Hcnt Hmax Hnn pre (mv_new p) _ _ _ _ Hok Hmpre)
      as (Hb1 & _ & Hm1); auto; [done|lia|].
    rewrite (run_moves_after old_plan new_plan ob nb Hmax post (mv_new p)
               (dst_range old_plan new_plan nb p) _ _ _ _ Hrun Hmpost (visited_set_ok _ _ Hb1)).
    + destruct (Hout Holt) as [Hob Ho]. destruct Hm2 as [-> |[_ [?|?]]]; [|lia|done].
      unfold dst_range. simpl.
      rewrite memcpy_at by done. by apply Hm1.
    + lia.
    + rewrite visited_get_set by (auto; lia). by rewrite bool_decide_true.
    + intros q Hq Hmq Hqlt Hqne. rewrite Forall_forall in Hord. destruct (Hord q Hq) as [Ho1 Ho2].
      destruct (mo_ids _ _ _ Hmpost q Hq) as [_ Hqn].
      pose proof (mo_size _ _ _ Hmpost q Hq Hmq).
      apply (later_move_disjoint slots old_plan new_plan nb p q d); auto; try lia.
      intros r [->|[->|[]%elem_of_nil]%elem_of_cons]%elem_of_cons; apply Hlife; rewrite elem_of_app;
        right; [by left|by right].
    + unfold dst_range. simpl. lia.
Qed.

Section Switch.
Context `{M : PoolMem} {HM : PoolMemOk M}.

(** C4: a switch to another region in mid-iteration keeps the live bytes.
    When the new plan was computed by the planner and the two regions record
    the same prefix, each output of the prefix whose slot the new plan keeps
    live at the divergence has in the new pool the bytes that it had in the
    old one, even where later copies reuse the bytes of dead slots. *)
Theorem switch_region_keeps_live_bytes rank ws cap slots c w m old alt old_plan new_plan d c' w' m'
    pre p post x :
  ctx_reach c w m -> active_region_ c = Some old -> region_plan old = Some old_plan ->
  region_plan alt = Some new_plan -> plannable slots ->
  compute_memory_plan rank ws cap slots = Ok new_plan ->
  0 < d -> switch_region c w m alt d = Ok (true, c', w', m') ->
  same_prefix old alt old_plan new_plan d ->
  shared_outputs old alt d = pre ++ p :: post -> movable old_plan new_plan p = true ->
  (forall q, q ∈ pre -> movable old_plan new_plan q = true -> mv_new q <> mv_new p) ->
  d <= death_op (plan_slot new_plan (mv_new p)) ->
  0 <= x < nbytes (plan_slot old_plan (mv_old p)) ->
  m' (pool_ (ctx_pool_ c') + offset_bytes (plan_slot new_plan (mv_new p)) + x)
  = m (pool_ (ctx_pool_ c) + offset_bytes (plan_slot old_plan (mv_old p)) + x).
Proof using HM.
  intros Hr Ha Hop Hnp Hpl Hcmp Hd Hsw [Hold Hmo Hlife] Hsplit Hmv Hfirst Hlive Hx.
  pose proof (ctx_reach_ok _ _ _ Hr) as Hok.
  pose proof (compute_memory_plan_safe _ _ _ _ _ (pl_wf _ Hpl) (pl_len _ Hpl) (pl_total _ Hpl) Hcmp)
    as Hsafe.
  pose proof (plan_counted_computed _ _ _ _ _ Hpl Hcmp) as Hcnt.
  assert (Hrc : region_counted alt) by (intros q Hq; congruence).
  assert (Hd0 : d <> 0) by lia. assert (Hnn : region_plan alt <> None) by congruence.
  destruct (switch_parts _ _ _ _ _ _ _ _ _ Hok Hrc Hd0 Hnn Hsw)
    as (old' & op' & np' & t & tbl & P1 & w1 & w2 & e & _ & Ha' & Hop' & Hnp' & Hoc & Hh & Hw1 & Hi &
        He & Hmig & _ & _ & _ & HP & _ & _). simplify_eq.
  unfold migrate_prefix_slots_ in Hmig. inv_ok. split_pairs. inv_ok. simplify_eq. reflect_bools.
  rename Hok0 into Hmax. unfold MIGRATION_MAX_SLOTS in Hmax.
  apply migrate_ops_moves in Hok1. fold (shared_outputs old alt d) in Hok1.
  pose proof (prefix_moves_sorted (region_ops old) (region_ops alt) (Z.to_nat d) 0) as Hso.
  pose proof (prefix_moves_range (region_ops old) (region_ops alt) (Z.to_nat d) 0) as Hra.
  fold (shared_outputs old alt d) in Hso, Hra. rewrite Hsplit in *.
  apply pairwise_app in Hso as (_ & [Hso _] & _). apply Forall_app in Hra as [_ [_ Hra]%Forall_cons].
  pose proof (pool_init_slots _ _ _ _ _ _ _ Hi He) as Hns.
  eapply (run_moves_keep slots old_plan new_plan); eauto.
  - apply Forall_and. split; [exact Hso|]. eapply Forall_impl; [exact Hra|]. simpl. intros; lia.
  - intros Hlt. destruct (movable_internal _ _ _ Hmv) as [_ Hxo].
    destruct (mo_ids _ _ _ Hmo p) as [Hpo _]; [apply elem_of_app; right; by left|].
    destruct (plan_slot_served old_plan (ph_serve _ _ _ _ _ Hh) Hoc (mv_old p) ltac:(lia) Hxo)
      as (so & Hso' & Heo & Hin). rewrite Heo in *.
    pose proof (Forall_lookup_1 _ _ _ _ Hold Hso' Hxo) as [Hoo _].
    destruct (ph_heap _ _ _ _ _ Hh ltac:(lia)) as (Hpos & _ & _). split; [lia|].
    unfold outside. intros Hbad.
    destruct (switch_pools_disjoint _ _ _ _ _ _ _ _ _ Hh Hw1 Hi Hns ltac:(lia) ltac:(lia)) as [Hdis _].
    unfold rdisj in Hdis. simpl in Hdis. lia.
Qed.
End Switch.

(** ** Witness *)

Lemma wit_ctx_plannable : plannable wit_ctx_slots.
Proof.
  split; [repeat constructor; unfold in_width; simpl; lia|simpl; lia| |vm_compute; reflexivity].
  repeat constructor; simpl; lia.
Qed.

Definition wit_switch : result (bool * CrucibleContext * world * mem) :=
  switch_region (M := bump_pool_mem) wit_at3 wit_active.2 wit_mem (wit_region 15) 3.

Definition wit_switched : CrucibleContext * world * mem :=
  match wit_switch with
  | Ok (_, c, w, m) => (c, w, m)
  | Fatal _ => (new_context, wit_world, wit_mem)
  end.

Lemma wit_switch_eq : wit_switch = Ok (true, wit_switched.1.1, wit_switched.1.2, wit_switched.2).
Proof.
  assert (H : match wit_switch with Ok (b, _, _, _) => b | Fatal _ => false end = true)
    by (vm_compute; reflexivity).
  unfold wit_switched. destruct wit_switch as [[[[b c] w] m]|]; [by subst b|done].
Qed.

Lemma wit_same_prefix : same_prefix (wit_region 14) (wit_region 15) wit_ctx_plan wit_ctx_plan 3.
Proof.
  assert (Hl : forall p, p ∈ shared_outputs (wit_region 14) (wit_region 15) 3 ->
    p = mkMoved 0 0 0 \/ p = mkMoved 1 1 1 \/ p = mkMoved 2 2 2).
  { intros p. change (shared_outputs _ _ _) with [mkMoved 0 0 0; mkMoved 1 1 1; mkMoved 2 2 2].
    rewrite !elem_of_cons, elem_of_nil. tauto. }
  split.
  - pose proof wit_ctx_plannable as Hpl. apply (plan_fields_nonneg wit_ctx_slots); [done|].
    apply (compute_memory_plan_safe (-1) 0 0); try apply Hpl. vm_compute. reflexivity.
  - split; intros p [->|[->| ->]]%Hl; [by split..|done|done|done].
  - intros p [->|[->| ->]]%Hl _; vm_compute; split; discriminate.
Qed.

Lemma switch_region_keeps_live_bytes_witness :
  wit_switched.2 (pool_ (ctx_pool_ wit_switched.1.1) + offset_bytes (plan_slot wit_ctx_plan 2) + 499)
  = wit_mem (pool_ (ctx_pool_ wit_at3) + offset_bytes (plan_slot wit_ctx_plan 2) + 499).
Proof.
  refine (switch_region_keeps_live_bytes (M := bump_pool_mem) (HM := bump_pool_mem_ok)
    (-1) 0 0 wit_ctx_slots wit_at3 wit_active.2 wit_mem (wit_region 14) (wit_region 15)
    wit_ctx_plan wit_ctx_plan 3 wit_switched.1.1 wit_switched.1.2 wit_switched.2
    [mkMoved 0 0 0; mkMoved 1 1 1] (mkMoved 2 2 2) [] 499
    wit_at3_reach _ _ _ wit_ctx_plannable _ _ wit_switch_eq wit_same_prefix _ _ _ _ _).
  - vm_compute. reflexivity.
  - reflexivity.
  - reflexivity.
  - vm_compute. reflexivity.
  - reflexivity.
  - reflexivity.
  - vm_compute. reflexivity.
  - intros q [->|[->|[]%elem_of_nil]%elem_of_cons]%elem_of_cons _; discriminate.
  - vm_compute. discriminate.
  - vm_compute. split; congruence.
Defined.

(** ** A prefix whose sizes differ

    The size of a copy is that of the old slot, and nothing compares it with
    the new slot: where the new plan has a smaller slot for the same output,
    the copy runs past the end of the new pool. *)
Definition wit_small_plan (n : Z) : MemoryPlan :=
  match compute_memory_plan (-1) 0 0 [wit_slot n 0 3 false] with
  | Ok p => p
  | Fatal _ => mkPlan [] 0 0 0 CPU (-1) 0 0 0
  end.

Example migrate_copies_past_smaller_slot :
  pool_bytes (wit_small_plan 256) = 256 /\
  match migrate_output (wit_small_plan 512) (wit_small_plan 256) 4096 8192 0 0
          (replicate 16 0, fun a => if a =? 4096 + 300 then 7 else 0) with
  | Ok (_, m) => m (8192 + 300) = 7
  | Fatal _ => False
  end.
Proof. split; vm_compute; reflexivity. Qed.
