(* ===== verification/TraceRing.v ===== *)
(** * TraceRing.v: the recording ring (include/crucible/TraceRing.h)

    A single-producer single-consumer ring of 65536 slots over four parallel
    arrays.  Each counter is a 64-bit count from the first record; the slot of
    a count is its low 16 bits.  An array is a function from slots to values.

    The members are given twice: as functions that run alone, and as the
    steps of two threads that interleave at each access to shared memory (a
    load or store of a counter, a store of one array cell, the copy of one
    array cell).  Release and acquire order the accesses; that no cell is
    written while it is copied is a theorem below, so the interleaving of
    whole accesses is enough. *)

From stdpp Require Import base list gmap strings.
From Stdlib Require Import ZArith Lia.
From S2P Require Import Prelude Types.
#[local] Open Scope Z_scope.
#[local] Open Scope result_scope.

(** ** Entries and the tags of their scalars *)

Inductive ScalarType2 := INT | FLOAT | BOOL | ENUM.

Definition scalar2_ordinal (t : ScalarType2) : Z :=
  match t with INT => 0 | FLOAT => 1 | BOOL => 2 | ENUM => 3 end.

Definition scalar2_of (raw : Z) : ScalarType2 :=
  if raw =? 0 then INT else if raw =? 1 then FLOAT else if raw =? 2 then BOOL else ENUM.

Record Entry := mkRingEntry {
  e_schema_hash : Z;
  e_shape_hash : Z;
  e_num_inputs : Z;
  e_num_outputs : Z;
  e_num_scalar_args : Z;
  scalar_types : Z;
  op_flags : Z;
  scalar_values : list Z;
}.

Definition SCALAR4_TYPE_MASK : Z := Z.shiftl 3 6.
Definition SCALAR4_TYPE_SHIFT : Z := 6.

Definition set_tags (e : Entry) (types fl : Z) : Entry :=
  {| e_schema_hash := e_schema_hash e; e_shape_hash := e_shape_hash e;
     e_num_inputs := e_num_inputs e; e_num_outputs := e_num_outputs e;
     e_num_scalar_args := e_num_scalar_args e; scalar_types := types; op_flags := fl;
     scalar_values := scalar_values e |}.

Definition get_scalar_type (e : Entry) (i : Z) : result ScalarType2 :=
  let* _ := require ((0 <=? i) && (i <=? 4)) "i <= 4" in
  if i <? 4 then Ok (scalar2_of (Z.land (Z.shiftr (scalar_types e) (i * 2)) 3))
  else Ok (scalar2_of (Z.shiftr (Z.land (op_flags e) SCALAR4_TYPE_MASK) SCALAR4_TYPE_SHIFT)).

(** The tag bits are computed as int and stored back at 8 bits. *)
Definition set_scalar_type (e : Entry) (i : Z) (t : ScalarType2) : result Entry :=
  let* _ := require ((0 <=? i) && (i <=? 4)) "i <= 4" in
  let bits := Z.land (scalar2_ordinal t) 3 in
  if i <? 4 then
    let shift := u8 (i * 2) in
    Ok (set_tags e
          (u8 (Z.lor (Z.land (scalar_types e) (Z.lnot (Z.shiftl 3 shift))) (Z.shiftl bits shift)))
          (op_flags e))
  else
    Ok (set_tags e (scalar_types e)
          (u8 (Z.lor (Z.land (op_flags e) (Z.lnot SCALAR4_TYPE_MASK))
                     (Z.shiftl bits SCALAR4_TYPE_SHIFT)))).

(** ** The ring *)

Definition CAPACITY : Z := Z.shiftl 1 16.
Definition MASK : Z := CAPACITY - 1.

(** What one append records: one value for each of the four arrays. *)
Record item := mkItem { it_entry : Entry; it_meta : Z; it_scope : Z; it_callsite : Z }.

Record TraceRing := mkRing {
  entries : Z -> Entry;
  meta_starts : Z -> Z;
  scope_hashes : Z -> Z;
  callsite_hashes : Z -> Z;
  head : Z;
  tail : Z;
  consumer_tail_ : Z;
  cached_tail_ : Z;
}.

Definition zero_entry : Entry := mkRingEntry 0 0 0 0 0 0 0 [0; 0; 0; 0; 0].

Definition new_ring : TraceRing :=
  {| entries := fun _ => zero_entry; meta_starts := fun _ => none64; scope_hashes := fun _ => 0;
     callsite_hashes := fun _ => 0; head := 0; tail := 0; consumer_tail_ := 0; cached_tail_ := 0 |}.

Definition upd {A} (f : Z -> A) (i : Z) (v : A) : Z -> A := fun j => if j =? i then v else f j.

Definition slot_index (h : Z) : Z := Z.land (u32 h) MASK.

(** [h - cached_tail_ >= CAPACITY] *)
Definition looks_full (R : TraceRing) (h : Z) : bool := CAPACITY <=? (h ⊟ cached_tail_ R)%u64.

Definition set_cached (R : TraceRing) (v : Z) : TraceRing :=
  {| entries := entries R; meta_starts := meta_starts R; scope_hashes := scope_hashes R;
     callsite_hashes := callsite_hashes R; head := head R; tail := tail R;
     consumer_tail_ := consumer_tail_ R; cached_tail_ := v |}.

Definition set_head (R : TraceRing) (v : Z) : TraceRing :=
  {| entries := entries R; meta_starts := meta_starts R; scope_hashes := scope_hashes R;
     callsite_hashes := callsite_hashes R; head := v; tail := tail R;
     consumer_tail_ := consumer_tail_ R; cached_tail_ := cached_tail_ R |}.

Definition set_tails (R : TraceRing) (v : Z) : TraceRing :=
  {| entries := entries R; meta_starts := meta_starts R; scope_hashes := scope_hashes R;
     callsite_hashes := callsite_hashes R; head := head R; tail := v;
     consumer_tail_ := v; cached_tail_ := cached_tail_ R |}.

(** cached_tail_.advance(tail.get()) *)
Definition reload_tail (R : TraceRing) : result TraceRing :=
  let* _ := require (cached_tail_ R <=? tail R) "leq(cached_tail_, tail)" in
  Ok (set_cached R (tail R)).

(** The four arrays. *)
Inductive array := AEntries | AMeta | AScope | ACallsite.

#[export] Instance array_eq_dec : EqDecision array.
Proof. solve_decision. Defined.

(** The store of one cell of a slot. *)
Definition write_cell (R : TraceRing) (a : array) (slot : Z) (it : item) : TraceRing :=
  {| entries := match a with AEntries => upd (entries R) slot (it_entry it) | _ => entries R end;
     meta_starts := match a with AMeta => upd (meta_starts R) slot (it_meta it) | _ => meta_starts R end;
     scope_hashes := match a with AScope => upd (scope_hashes R) slot (it_scope it) | _ => scope_hashes R end;
     callsite_hashes :=
       match a with ACallsite => upd (callsite_hashes R) slot (it_callsite it) | _ => callsite_hashes R end;
     head := head R; tail := tail R; consumer_tail_ := consumer_tail_ R;
     cached_tail_ := cached_tail_ R |}.

(** The order of the stores in try_append. *)
Definition write_order : list array := [AEntries; AMeta; AScope; ACallsite].

Definition write_slot (R : TraceRing) (slot : Z) (it : item) : TraceRing :=
  foldl (fun R a => write_cell R a slot it) R write_order.

(** head.advance_sole_writer_from(h, h + 1) *)
Definition publish_head (R : TraceRing) (h : Z) : result TraceRing :=
  let* _ := require (h <? (h ⊞ 1)%u64) "head < head + 1" in
  Ok (set_head R (h ⊞ 1)%u64).

Definition try_append (R : TraceRing) (it : item) : result (bool * TraceRing) :=
  let h := head R in
  let* '(room, R) :=
    if looks_full R h then
      let* R := reload_tail R in
      Ok (negb (looks_full R h), R)
    else Ok (true, R) in
  if room then
    let R := write_slot R (slot_index h) it in
    let* R := publish_head R h in
    Ok (true, R)
  else Ok (false, R).

(** ** The consumer *)

(** The output buffers of a drain: an array of the caller for each array of
    the ring. *)
Record buffers := mkBufs {
  b_entries : Z -> Entry;
  b_meta : Z -> Z;
  b_scope : Z -> Z;
  b_callsite : Z -> Z;
}.

(** One cell of the copies: the array, the slot of the ring, the position in
    the buffer. *)
Record cell := mkCell { c_array : array; c_slot : Z; c_out : Z }.

#[export] Instance cell_eq_dec : EqDecision cell.
Proof. solve_decision. Defined.

Definition read_cell (R : TraceRing) (b : buffers) (c : cell) : buffers :=
  {| b_entries := match c_array c with AEntries => upd (b_entries b) (c_out c) (entries R (c_slot c)) | _ => b_entries b end;
     b_meta := match c_array c with AMeta => upd (b_meta b) (c_out c) (meta_starts R (c_slot c)) | _ => b_meta b end;
     b_scope := match c_array c with AScope => upd (b_scope b) (c_out c) (scope_hashes R (c_slot c)) | _ => b_scope b end;
     b_callsite :=
       match c_array c with ACallsite => upd (b_callsite b) (c_out c) (callsite_hashes R (c_slot c)) | _ => b_callsite b end |}.

(** The cells of one run of [n] slots of one array. *)
Definition run_cells (slot out : Z) (n : Z) (a : array) : list cell :=
  (fun i => mkCell a (slot + i) (out + i)) <$> seqZ 0 n.

(** The copies of drain in their order, over the arrays the caller wants. *)
Definition drain_cells (want : list array) (t count : Z) : list cell :=
  let start := slot_index t in
  let first := if count <? CAPACITY - start then count else CAPACITY - start in
  let second := count - first in
  (want ≫= run_cells start 0 first)
  ++ (if 0 <? second then want ≫= run_cells 0 first second else []).

(** min(uint32_t(h - t), max_count) *)
Definition drain_count (h t max_count : Z) : Z :=
  let available := u32 (h ⊟ t)%u64 in
  if max_count <? available then max_count else available.

Definition publish_tail (R : TraceRing) (t count : Z) : result TraceRing :=
  let next_tail := (t ⊞ count)%u64 in
  let* _ := require (t <? next_tail) "tail < tail + count" in
  Ok (set_tails R next_tail).

(** drain with the wanted arrays; try_pop_batch wants all four. *)
Definition drain (want : list array) (R : TraceRing) (b : buffers) (max_count : Z)
    : result (Z * buffers * TraceRing) :=
  let* _ := require ((0 <=? max_count) && (max_count <=? CAPACITY)) "max_count <= CAPACITY" in
  if max_count =? 0 then Ok (0, b, R)
  else
    let count := drain_count (head R) (consumer_tail_ R) max_count in
    if count =? 0 then Ok (0, b, R)
    else
      let b := foldl (read_cell R) b (drain_cells want (consumer_tail_ R) count) in
      let* R := publish_tail R (consumer_tail_ R) count in
      Ok (count, b, R).

Definition all_arrays : list array := write_order.

Definition try_pop_batch (R : TraceRing) (b : buffers) (max_count : Z)
    : result (Z * buffers * TraceRing) := drain all_arrays R b max_count.

(** size reads the two counters at two instants: [h] and [t] are what it
    read. *)
Definition ring_size (h t : Z) : Z := u32 (h ⊟ t)%u64.

Definition total_produced (R : TraceRing) : Z := head R.

Definition ring_reset (R : TraceRing) : TraceRing :=
  {| entries := entries R; meta_starts := meta_starts R; scope_hashes := scope_hashes R;
     callsite_hashes := callsite_hashes R; head := 0; tail := 0; consumer_tail_ := 0;
     cached_tail_ := 0 |}.

(** ** Two threads *)

Inductive producer :=
| PIdle
| PFull (h : Z) (it : item)
| PWrite (h : Z) (it : item) (todo : list array).

Inductive consumer :=
| CIdle
| CCopy (t count : Z) (todo : list cell) (b : buffers).

Record system := mkSystem { ring : TraceRing; prod : producer; cons : consumer }.

(** What an observer sees: an append that succeeded or dropped its record, and
    the records a drain handed out. *)
Inductive event := EAppend (it : item) | EDrop (it : item) | EDrain (its : list item).

Definition buffer_item (b : buffers) (i : Z) : item :=
  mkItem (b_entries b i) (b_meta b i) (b_scope b i) (b_callsite b i).

Inductive step : system -> list event -> system -> Prop :=
| p_begin R c it :
    step (mkSystem R PIdle c) []
      (mkSystem R (if looks_full R (head R) then PFull (head R) it
                   else PWrite (head R) it write_order) c)
| p_reload_room R R' c h it :
    reload_tail R = Ok R' -> looks_full R' h = false ->
    step (mkSystem R (PFull h it) c) [] (mkSystem R' (PWrite h it write_order) c)
| p_reload_full R R' c h it :
    reload_tail R = Ok R' -> looks_full R' h = true ->
    step (mkSystem R (PFull h it) c) [EDrop it] (mkSystem R' PIdle c)
| p_write R c h it a todo :
    step (mkSystem R (PWrite h it (a :: todo)) c) []
      (mkSystem (write_cell R a (slot_index h) it) (PWrite h it todo) c)
| p_publish R R' c h it :
    publish_head R h = Ok R' ->
    step (mkSystem R (PWrite h it []) c) [EAppend it] (mkSystem R' PIdle c)
| c_begin R p max_count b :
    0 < max_count <= CAPACITY -> 0 < drain_count (head R) (consumer_tail_ R) max_count ->
    step (mkSystem R p CIdle) []
      (mkSystem R p
        (CCopy (consumer_tail_ R) (drain_count (head R) (consumer_tail_ R) max_count)
           (drain_cells all_arrays (consumer_tail_ R)
              (drain_count (head R) (consumer_tail_ R) max_count)) b))
| c_read R p t count x todo b :
    step (mkSystem R p (CCopy t count (x :: todo) b)) []
      (mkSystem R p (CCopy t count todo (read_cell R b x)))
| c_publish R R' p t count b :
    publish_tail R t count = Ok R' ->
    step (mkSystem R p (CCopy t count [] b)) [EDrain (buffer_item b <$> seqZ 0 count)]
      (mkSystem R' p CIdle).
