(* ===== verification/RingProofs.v ===== *)
(** * RingProofs.v: the ring is a FIFO queue under every interleaving

    The invariant of a run carries the list of all records appended so far;
    the slots between tail and head hold its end, a drain in progress copies
    it, and what was drained is its beginning. *)

From stdpp Require Import base list gmap strings.
From Stdlib Require Import ZArith Lia.
From S2P Require Import Prelude Types TraceRing.
#[local] Open Scope Z_scope.
#[local] Open Scope result_scope.

(** ** Runs of the two threads *)

Inductive steps : system -> list event -> system -> Prop :=
| steps_refl s : steps s [] s
| steps_snoc s1 tr s2 evs s3 : steps s1 tr s2 -> step s2 evs s3 -> steps s1 (tr ++ evs) s3.

Definition new_system : system := mkSystem new_ring PIdle CIdle.

(** The records appended and the records drained along a run. *)
Definition appended (tr : list event) : list item :=
  tr ≫= (fun e => match e with EAppend it => [it] | _ => [] end).
Definition drained (tr : list event) : list item :=
  tr ≫= (fun e => match e with EDrain its => its | _ => [] end).

Lemma CAPACITY_eq : CAPACITY = 2 ^ 16.
Proof. reflexivity. Qed.

Lemma slot_index_mod h : 0 <= h -> slot_index h = h mod 2 ^ 16.
Proof.
  intros Hh. unfold slot_index, MASK. rewrite CAPACITY_eq, land_mask_mod by lia.
  unfold wrap. apply Z.mod_mod_divide. exists (2 ^ 16). reflexivity.
Qed.

(** Two counts less than a capacity apart have different slots. *)
Lemma slot_distinct i j : 0 <= i < j -> j < i + 2 ^ 16 -> i mod 2 ^ 16 <> j mod 2 ^ 16.
Proof. intros. mod_lia. Qed.

(** ** Cells *)

(** Two records agree in one array. *)
Definition agree (a : array) (x y : item) : Prop :=
  match a with
  | AEntries => it_entry x = it_entry y
  | AMeta => it_meta x = it_meta y
  | AScope => it_scope x = it_scope y
  | ACallsite => it_callsite x = it_callsite y
  end.

Lemma agree_all x y : (forall a, agree a x y) <-> x = y.
Proof.
  split; [|by intros ->; destruct a]. intros H.
  pose proof (H AEntries). pose proof (H AMeta). pose proof (H AScope). pose proof (H ACallsite).
  destruct x, y. simpl in *. congruence.
Qed.

Lemma all_arrays_all a : a ∈ all_arrays.
Proof. unfold all_arrays, write_order. destruct a; rewrite !elem_of_cons; tauto. Qed.

Definition slot_item (R : TraceRing) (s : Z) : item :=
  mkItem (entries R s) (meta_starts R s) (scope_hashes R s) (callsite_hashes R s).

Lemma upd_spec {A} (f : Z -> A) i v j : upd f i v j = if j =? i then v else f j.
Proof. done. Qed.

Lemma write_cell_here R a s it : agree a (slot_item (write_cell R a s it) s) it.
Proof. destruct a; simpl; unfold upd; by rewrite Z.eqb_refl. Qed.

Lemma write_cell_array R a s it a' s' :
  a' <> a -> agree a' (slot_item (write_cell R a s it) s') (slot_item R s').
Proof. by destruct a, a'. Qed.

Lemma write_cell_slot R a s it s' :
  s' <> s -> slot_item (write_cell R a s it) s' = slot_item R s'.
Proof.
  intros Hne. unfold slot_item. destruct a; simpl; unfold upd;
    by rewrite (proj2 (Z.eqb_neq s' s) Hne).
Qed.

Lemma read_cell_here R b c : agree (c_array c) (buffer_item (read_cell R b c) (c_out c)) (slot_item R (c_slot c)).
Proof. destruct c as [a s o]. destruct a; simpl; unfold upd; by rewrite Z.eqb_refl. Qed.

Lemma read_cell_other R b c a i :
  a <> c_array c \/ i <> c_out c -> agree a (buffer_item (read_cell R b c) i) (buffer_item b i).
Proof.
  destruct c as [a' s o]. simpl. intros Hne. destruct a, a'; simpl; unfold upd; auto;
    (destruct Hne as [?|Hne]; [done|by rewrite (proj2 (Z.eqb_neq i o) Hne)]).
Qed.

Lemma agree_trans a x y z : agree a x y -> agree a y z -> agree a x z.
Proof. destruct a; simpl; congruence. Qed.

(** ** The cells of a drain *)

Lemma elem_of_run_cells slot out n a x :
  x ∈ run_cells slot out n a <->
  exists i, 0 <= i < n /\ x = mkCell a (slot + i) (out + i).
Proof.
  unfold run_cells. rewrite list_elem_of_fmap. split.
  - intros (i & -> & Hi%elem_of_seqZ). exists i. split; [lia|done].
  - intros (i & Hi & ->). exists i. split; [done|]. apply elem_of_seqZ. lia.
Qed.

Lemma elem_of_drain_cells t count x :
  0 <= t -> 0 < count <= 2 ^ 16 ->
  x ∈ drain_cells all_arrays t count <->
  exists a i, 0 <= i < count /\ x = mkCell a ((t + i) mod 2 ^ 16) i.
Proof.
  intros Ht Hc. unfold drain_cells. rewrite CAPACITY_eq, slot_index_mod by lia.
  set (s := t mod 2 ^ 16). assert (Hs : 0 <= s < 2 ^ 16) by (subst s; mod_lia).
  set (first := if count <? 2 ^ 16 - s then count else 2 ^ 16 - s).
  assert (Hf : 0 < first <= count /\ first <= 2 ^ 16 - s /\ (first < count -> first = 2 ^ 16 - s)).
  { subst first. destruct (Z.ltb_spec count (2 ^ 16 - s)); lia. }
  clearbody first. rewrite elem_of_app.
  assert (Hb : forall slot out n y, y ∈ all_arrays ≫= run_cells slot out n <->
    exists a i, 0 <= i < n /\ y = mkCell a (slot + i) (out + i)).
  { intros slot out n y. rewrite list_elem_of_bind. split.
    - intros (a & Hy & _). apply elem_of_run_cells in Hy as (i & ? & ->). by exists a, i.
    - intros (a & i & Hi & ->). exists a. split; [|apply all_arrays_all].
      apply elem_of_run_cells. by exists i. }
  split.
  - intros [Hx|Hx].
    + apply Hb in Hx as (a & i & Hi & ->). exists a, i. split; [lia|]. f_equal. subst s. mod_lia.
    + destruct (Z.ltb_spec 0 (count - first)); [|by apply elem_of_nil in Hx].
      apply Hb in Hx as (a & i & Hi & ->). exists a, (first + i). split; [lia|]. f_equal.
      subst s. mod_lia.
  - intros (a & i & Hi & ->). destruct (Z.lt_ge_cases i first) as [Hlt|Hge].
    + left. apply Hb. exists a, i. split; [lia|]. f_equal. subst s. mod_lia.
    + right. destruct (Z.ltb_spec 0 (count - first)); [|lia]. apply Hb. exists a, (i - first).
      split; [lia|]. f_equal; [|lia]. subst s. mod_lia.
Qed.

(** ** The invariant *)

Definition counters_ok (log : list item) (R : TraceRing) : Prop :=
  head R = Z.of_nat (length log) /\ head R < 2 ^ 64 /\ 0 <= cached_tail_ R <= tail R /\
  tail R <= head R <= tail R + 2 ^ 16 /\ consumer_tail_ R = tail R.

Definition slots_ok (log : list item) (R : TraceRing) : Prop :=
  forall k it, log !! k = Some it -> tail R <= Z.of_nat k ->
    slot_item R (Z.of_nat k mod 2 ^ 16) = it.

Definition producer_ok (R : TraceRing) (p : producer) : Prop :=
  match p with
  | PIdle => True
  | PFull h _ => h = head R
  | PWrite h it todo =>
      h = head R /\ head R < cached_tail_ R + 2 ^ 16 /\
      forall a, a ∉ todo -> agree a (slot_item R (h mod 2 ^ 16)) it
  end.

Definition consumer_ok (log : list item) (R : TraceRing) (c : consumer) : Prop :=
  match c with
  | CIdle => True
  | CCopy t count todo b =>
      t = tail R /\ 0 < count <= 2 ^ 16 /\ t + count <= head R /\
      (forall x, x ∈ todo -> exists a i, 0 <= i < count /\ x = mkCell a ((t + i) mod 2 ^ 16) i) /\
      forall a i it, 0 <= i < count -> log !! Z.to_nat (t + i) = Some it ->
        mkCell a ((t + i) mod 2 ^ 16) i ∉ todo -> agree a (buffer_item b i) it
  end.

Record ring_inv (log : list item) (s : system) : Prop := {
  ri_counters : counters_ok log (ring s);
  ri_slots : slots_ok log (ring s);
  ri_producer : producer_ok (ring s) (prod s);
  ri_consumer : consumer_ok log (ring s) (cons s);
}.

Lemma looks_full_spec R h :
  0 <= cached_tail_ R <= h -> h < 2 ^ 64 -> looks_full R h = (2 ^ 16 <=? h - cached_tail_ R).
Proof. intros H1 H2. unfold looks_full. rewrite CAPACITY_eq, wrap_small by lia. done. Qed.

Lemma reload_tail_spec R R' :
  reload_tail R = Ok R' -> R' = set_cached R (tail R) /\ cached_tail_ R <= tail R.
Proof. unfold reload_tail. intros H. inv_ok. reflect_bools. done. Qed.

(** A write of the next slot touches no slot between tail and head. *)
Lemma write_keeps_slots log R h a it :
  counters_ok log R -> h = head R -> head R < cached_tail_ R + 2 ^ 16 ->
  slots_ok log R -> slots_ok log (write_cell R a (slot_index h) it).
Proof.
  intros (Hh & Hw & Hc & Ht & Hct) -> Hroom Hs k it' Hk Hge. simpl in Hge.
  pose proof (lookup_lt_Some _ _ _ Hk). rewrite slot_index_mod, write_cell_slot by
    (try apply slot_distinct; lia). by apply Hs.
Qed.

Lemma publish_head_spec log R R' :
  counters_ok log R -> publish_head R (head R) = Ok R' ->
  R' = set_head R (head R + 1) /\ head R + 1 < 2 ^ 64.
Proof.
  intros (Hh & Hw & _) H. unfold publish_head in H. inv_ok. reflect_bools.
  assert (head R + 1 < 2 ^ 64).
  { destruct (Z.lt_ge_cases (head R + 1) (2 ^ 64)) as [?|Hge]; [done|].
    assert (E : head R + 1 = 2 ^ 64) by lia. rewrite E in Hok. vm_compute (wrap 64 (2 ^ 64)) in Hok. lia. }
  rewrite wrap_small by lia. done.
Qed.

Lemma drain_count_spec log R m :
  counters_ok log R -> 0 < m <= 2 ^ 16 ->
  0 <= drain_count (head R) (consumer_tail_ R) m <= 2 ^ 16 /\
  tail R + drain_count (head R) (consumer_tail_ R) m <= head R /\
  drain_count (head R) (consumer_tail_ R) m = Z.min m (head R - tail R).
Proof.
  intros (Hh & Hw & Hc & Ht & ->) Hm. unfold drain_count. rewrite !wrap_small by
    (rewrite ?wrap_small by lia; lia). destruct (Z.ltb_spec m (head R - tail R)); lia.
Qed.

Lemma publish_tail_spec log R t count R' :
  counters_ok log R -> t = tail R -> 0 < count -> t + count <= head R ->
  publish_tail R t count = Ok R' -> R' = set_tails R (t + count).
Proof.
  intros (Hh & Hw & Hc & Ht & _) -> H0 Hle H. unfold publish_tail in H. inv_ok.
  by rewrite wrap_small by lia.
Qed.

(** ** Each step keeps the invariant *)

Lemma inv_producer_local log R p c R' p' :
  ring_inv log (mkSystem R p c) -> counters_ok log R' -> slots_ok log R' ->
  tail R' = tail R -> head R' = head R -> producer_ok R' p' ->
  ring_inv log (mkSystem R' p' c).
Proof.
  intros [H1 H2 H3 H4] Hc Hs Ht Hh Hp. split; auto. simpl in *.
  destruct c as [|t count todo b]; [done|]. simpl in *. by rewrite Ht, Hh.
Qed.

Lemma begin_append_inv log R c it :
  ring_inv log (mkSystem R PIdle c) ->
  ring_inv log (mkSystem R (if looks_full R (head R) then PFull (head R) it
                            else PWrite (head R) it write_order) c).
Proof.
  intros Hinv. pose proof Hinv as [Hc Hs _ _]. simpl in *.
  eapply inv_producer_local; eauto. pose proof Hc as (Hh & Hw & Hca & Ht & _).
  rewrite looks_full_spec by lia. destruct (Z.leb_spec (2 ^ 16) (head R - cached_tail_ R)); [done|].
  simpl. split_and!; [done|lia|]. intros a Ha. destruct (Ha (all_arrays_all a)).
Qed.

Lemma reload_inv log R R' c h it :
  ring_inv log (mkSystem R (PFull h it) c) -> reload_tail R = Ok R' ->
  h = head R /\ counters_ok log R' /\ slots_ok log R' /\ tail R' = tail R /\ head R' = head R /\
  (looks_full R' h = false -> head R < cached_tail_ R' + 2 ^ 16) /\
  (looks_full R' h = true -> head R = tail R + 2 ^ 16).
Proof.
  intros [Hc Hs Hp _] [-> Hle]%reload_tail_spec. simpl in *. subst h.
  pose proof Hc as (Hh & Hw & Hca & Ht & Hct).
  assert (Hf : looks_full (set_cached R (tail R)) (head R) = (2 ^ 16 <=? head R - tail R)).
  { rewrite looks_full_spec by (simpl; lia). done. }
  rewrite Hf. unfold counters_ok. simpl.
  destruct (Z.leb_spec (2 ^ 16) (head R - tail R)); split_and!; auto; try done; lia.
Qed.

Lemma write_inv log R c h it a todo :
  ring_inv log (mkSystem R (PWrite h it (a :: todo)) c) ->
  ring_inv log (mkSystem (write_cell R a (slot_index h) it) (PWrite h it todo) c).
Proof.
  intros Hinv. pose proof Hinv as [Hc Hs (Hh & Hroom & Hdone) _]. simpl in *.
  eapply inv_producer_local; eauto.
  - by eapply write_keeps_slots.
  - simpl. split_and!; auto. intros a' Ha'.
    assert (0 <= h) by (destruct Hc as (? & _); lia). rewrite slot_index_mod by lia.
    destruct (decide (a' = a)) as [->|Hne]; [apply write_cell_here|].
    eapply agree_trans; [by apply write_cell_array|]. apply Hdone.
    rewrite not_elem_of_cons. auto.
Qed.

Lemma publish_head_inv log R R' c h it :
  ring_inv log (mkSystem R (PWrite h it []) c) -> publish_head R h = Ok R' ->
  ring_inv (log ++ [it]) (mkSystem R' PIdle c).
Proof.
  intros [Hc Hs (Hh & Hroom & Hdone) Hcons] Hpub. simpl in *. subst h.
  destruct (publish_head_spec log R R' Hc Hpub) as [-> Hlt].
  pose proof Hc as (Hh & Hw & Hca & Ht & Hct).
  split; simpl; auto.
  - unfold counters_ok. simpl. rewrite length_app. simpl. lia.
  - intros k it' Hk Hge. simpl in Hge. apply lookup_app_Some in Hk as [Hk|[Hlen Hk]].
    + by apply Hs.
    + assert (E : k = length log) by (apply lookup_lt_Some in Hk; simpl in Hk; lia).
      subst k. rewrite Nat.sub_diag in Hk. simplify_eq/=. rewrite <- Hh.
      apply agree_all. intros a. apply Hdone, not_elem_of_nil.
  - destruct c as [|t count todo b]; [done|]. simpl in *.
    destruct Hcons as (E & Hcount & Hle & Htodo & Hb). split_and!; auto; try lia.
    intros a i it' Hi Hk. rewrite lookup_app_l in Hk by lia. by apply Hb.
Qed.

Lemma begin_drain_inv log R p m b :
  ring_inv log (mkSystem R p CIdle) -> 0 < m <= CAPACITY ->
  0 < drain_count (head R) (consumer_tail_ R) m ->
  ring_inv log (mkSystem R p
    (CCopy (consumer_tail_ R) (drain_count (head R) (consumer_tail_ R) m)
       (drain_cells all_arrays (consumer_tail_ R) (drain_count (head R) (consumer_tail_ R) m)) b)).
Proof.
  intros [Hc Hs Hp _] Hm Hpos. rewrite CAPACITY_eq in Hm. simpl in *.
  destruct (drain_count_spec log R m Hc Hm) as (Hn & Hle & _).
  pose proof Hc as (Hh & Hw & Hca & Ht & Hct). split; simpl; auto.
  split_and!; auto; try lia.
  - intros x Hx. apply elem_of_drain_cells in Hx; [|lia|lia]. done.
  - intros a i it Hi _ Hnot. exfalso. apply Hnot. apply elem_of_drain_cells; [lia|lia|].
    by exists a, i.
Qed.

Lemma read_inv log R p t count x todo b :
  ring_inv log (mkSystem R p (CCopy t count (x :: todo) b)) ->
  ring_inv log (mkSystem R p (CCopy t count todo (read_cell R b x))).
Proof.
  intros [Hc Hs Hp (Ht & Hn & Hle & Htodo & Hb)]. simpl in *. subst t. split; simpl; auto.
  split_and!; auto; try lia. { intros y Hy. apply Htodo. by right. }
  intros a i it Hi Hk Hnot.
  destruct (decide (x = mkCell a ((tail R + i) mod 2 ^ 16) i)) as [->|Hne].
  - eapply agree_trans; [apply (read_cell_here R b (mkCell a _ i))|]. simpl.
    rewrite <- (Hs _ _ Hk) by (destruct Hc as (_ & _ & ? & _); lia).
    rewrite Z2Nat.id by (destruct Hc as (_ & _ & ? & _); lia). by destruct a.
  - destruct (Htodo x) as (a' & i' & Hi' & ->); [by left|].
    eapply agree_trans; [apply read_cell_other|].
    + simpl. destruct (decide (a = a')) as [->|]; [|by left]. right. congruence.
    + apply Hb; auto. rewrite not_elem_of_cons. auto.
Qed.

Lemma publish_tail_inv log R R' p t count b :
  ring_inv log (mkSystem R p (CCopy t count [] b)) -> publish_tail R t count = Ok R' ->
  ring_inv log (mkSystem R' p CIdle) /\ tail R' = tail R + count /\ 0 <= tail R /\
  buffer_item b <$> seqZ 0 count = take (Z.to_nat count) (drop (Z.to_nat (tail R)) log).
Proof.
  intros [Hc Hs Hp (Ht & Hn & Hle & _ & Hb)] Hpub. simpl in *. subst t.
  rewrite (publish_tail_spec log R (tail R) count R' Hc eq_refl ltac:(lia) Hle Hpub).
  pose proof Hc as (Hh & Hw & Hca & Ht & Hct). split_and!; auto; try lia.
  - split; simpl; auto.
    + unfold counters_ok. simpl. lia.
    + intros k it Hk Hge. simpl in Hge. apply Hs; [done|lia].
  - apply list_eq. intros j. rewrite list_lookup_fmap.
    destruct (decide (Z.of_nat j < count)) as [Hj|Hj].
    + rewrite lookup_seqZ_lt by lia. simpl. rewrite lookup_take_lt, lookup_drop by lia.
      destruct (lookup_lt_is_Some_2 log (Z.to_nat (tail R) + j)) as [it Hit]; [lia|].
      rewrite Hit. f_equal. apply agree_all. intros a. apply Hb; [lia| |apply not_elem_of_nil].
      rewrite <- Hit. f_equal. lia.
    + rewrite lookup_seqZ_ge by lia. simpl. symmetry. apply lookup_ge_None.
      rewrite length_take. lia.
Qed.

(** ** Runs *)

Lemma appended_app tr evs : appended (tr ++ evs) = appended tr ++ appended evs.
Proof. unfold appended. by rewrite bind_app. Qed.

Lemma drained_app tr evs : drained (tr ++ evs) = drained tr ++ drained evs.
Proof. unfold drained. by rewrite bind_app. Qed.

Record run_ok (tr : list event) (s : system) : Prop := {
  ro_inv : ring_inv (appended tr) s;
  ro_drained : drained tr = take (Z.to_nat (tail (ring s))) (appended tr);
}.

Lemma run_ok_step tr s evs s' : run_ok tr s -> step s evs s' -> run_ok (tr ++ evs) s'.
Proof.
  intros [Hinv Hd] Hst. destruct Hst; rewrite ?app_nil_r; simpl in Hd.
  - split; [by apply begin_append_inv|done].
  - destruct (reload_inv _ _ _ _ _ _ Hinv H) as (-> & Hc & Hs & Ht & Hh & Hr & _).
    split; [|simpl; by rewrite Ht]. eapply inv_producer_local; eauto. simpl. rewrite Hh.
    split_and!; auto. intros a Ha. destruct (Ha (all_arrays_all a)).
  - destruct (reload_inv _ _ _ _ _ _ Hinv H) as (-> & Hc & Hs & Ht & Hh & _).
    split; rewrite appended_app, ?drained_app; simpl; rewrite ?app_nil_r, ?Ht; [|done].
    by eapply inv_producer_local.
  - split; [by apply write_inv|done].
  - pose proof (publish_head_inv _ _ _ _ _ _ Hinv H) as Hinv'.
    destruct Hinv as [Hc _ (Hh & _) _]. simpl in *. subst h.
    destruct (publish_head_spec _ _ _ Hc H) as [-> _].
    split; rewrite appended_app, ?drained_app; simpl; [done|]. rewrite app_nil_r, Hd.
    destruct Hc as (Hh & _ & _ & Ht & _). by rewrite take_app_le by lia.
  - split; [by apply begin_drain_inv|done].
  - split; [by apply read_inv|done].
  - destruct (publish_tail_inv _ _ _ _ _ _ _ Hinv H) as (Hinv' & Ht & H0 & Hout).
    destruct Hinv as [_ _ _ (_ & Hn & _)]. simpl in *.
    split; rewrite appended_app, ?drained_app; simpl; rewrite ?app_nil_r; [done|].
    rewrite Hd, Ht, Hout, Z2Nat.inj_add by lia. by rewrite take_take_drop.
Qed.

Lemma run_ok_steps tr s : steps new_system tr s -> run_ok tr s.
Proof.
  remember new_system as s0 eqn:E. induction 1 as [s|s1 tr s2 evs s3 Hs IH Hst]; subst.
  - split; [|done]. split; simpl; auto; [|done]. unfold counters_ok. simpl. lia.
  - eapply run_ok_step; eauto.
Qed.

(** ** The members as runs of the two threads *)

Lemma steps_trans s1 tr1 s2 tr2 s3 : steps s1 tr1 s2 -> steps s2 tr2 s3 -> steps s1 (tr1 ++ tr2) s3.
Proof.
  intros H1. induction 1 as [s|s tr s2' evs s3 Hs IH Hst]; [by rewrite app_nil_r|].
  rewrite app_assoc. by eapply steps_snoc; [apply IH|].
Qed.

Lemma steps_one s evs s' : step s evs s' -> steps s evs s'.
Proof. intros H. apply (steps_snoc s [] s evs s'); [constructor|done]. Qed.

Lemma steps_silent s1 s2 tr s3 : step s1 [] s2 -> steps s2 tr s3 -> steps s1 tr s3.
Proof. intros H1 H2. apply (steps_trans s1 [] s2 tr s3); [by apply steps_one|done]. Qed.

Lemma write_run todo : forall R c h it,
  steps (mkSystem R (PWrite h it todo) c) []
    (mkSystem (foldl (fun R a => write_cell R a (slot_index h) it) R todo) (PWrite h it []) c).
Proof.
  induction todo as [|a todo IH]; intros R c h it; [constructor|].
  eapply steps_silent; [constructor|]. apply IH.
Qed.

Lemma try_append_run R c it b R' :
  try_append R it = Ok (b, R') ->
  steps (mkSystem R PIdle c) [if b then EAppend it else EDrop it] (mkSystem R' PIdle c).
Proof.
  intros H. unfold try_append in H.
  assert (Hgo : forall R1 h R2, publish_head (write_slot R1 (slot_index h) it) h = Ok R2 ->
    steps (mkSystem R1 (PWrite h it write_order) c) [EAppend it] (mkSystem R2 PIdle c)).
  { intros R1 h R2 Hp. apply (steps_trans _ [] _ [EAppend it] _ (write_run write_order R1 c h it)).
    by apply steps_one, p_publish. }
  eapply steps_silent; [apply (p_begin R c it)|]. destruct (looks_full R (head R)).
  - inv_ok. match goal with Hr : reload_tail R = Ok ?R1 |- _ =>
      destruct (looks_full R1 (head R)) eqn:Hf; simpl in H end.
    + simplify_eq. by apply steps_one, p_reload_full.
    + inv_ok. simplify_eq. eapply steps_silent; [by apply p_reload_room|]. by apply Hgo.
  - simpl in H. inv_ok. simplify_eq. by apply Hgo.
Qed.

Lemma read_run todo : forall R p t count b,
  steps (mkSystem R p (CCopy t count todo b)) []
    (mkSystem R p (CCopy t count [] (foldl (read_cell R) b todo))).
Proof.
  induction todo as [|x todo IH]; intros R p t count b; [constructor|].
  eapply steps_silent; [constructor|]. apply IH.
Qed.

Lemma try_pop_batch_run R p b m n b' R' :
  try_pop_batch R b m = Ok (n, b', R') ->
  steps (mkSystem R p CIdle) (if n =? 0 then [] else [EDrain (buffer_item b' <$> seqZ 0 n)])
    (mkSystem R' p CIdle).
Proof.
  unfold try_pop_batch, drain. intros H. inv_ok. reflect_bools.
  destruct (Z.eqb_spec m 0); [simplify_eq; constructor|].
  destruct (Z.eqb_spec (drain_count (head R) (consumer_tail_ R) m) 0) as [|Hnz];
    [simplify_eq; constructor|].
  inv_ok. simplify_eq. rewrite (proj2 (Z.eqb_neq _ _) Hnz).
  assert (Hpos : 0 < drain_count (head R) (consumer_tail_ R) m).
  { unfold drain_count in *. pose proof (u32_range (head R ⊟ consumer_tail_ R)%u64).
    destruct (_ <? _); lia. }
  eapply steps_silent; [apply (c_begin R p m b); [lia|done]|].
  apply (steps_trans _ [] _ _ _ (read_run _ R p _ _ b)). by apply steps_one, c_publish.
Qed.

(** ** The properties *)

(** C5: under every interleaving of the two threads the ring is a FIFO
    queue: the records drained are the first of the records appended, in
    order and whole, and at most 65536 records are in between. *)
Theorem ring_is_fifo tr s :
  steps new_system tr s ->
  drained tr `prefix_of` appended tr /\
  Z.of_nat (length (appended tr)) <= Z.of_nat (length (drained tr)) + CAPACITY.
Proof.
  intros H. destruct (run_ok_steps tr s H) as [[(Hh & _ & _ & Ht & _) _ _ _] Hd].
  rewrite Hd, CAPACITY_eq. split; [apply prefix_take|]. rewrite length_take. lia.
Qed.

(** An append drops its record only when the consumer is 65536 records
    behind at the moment the producer reads the tail. *)
Theorem ring_drops_only_when_full tr s it s' :
  steps new_system tr s -> step s [EDrop it] s' ->
  Z.of_nat (length (appended tr)) = Z.of_nat (length (drained tr)) + CAPACITY.
Proof.
  intros H Hst. destruct (run_ok_steps tr s H) as [Hinv Hd].
  rewrite Hd, length_take, CAPACITY_eq. inversion Hst as [| |R R' c h it' Hre Hf| | | | |]; subst.
  pose proof (reload_inv _ _ _ _ _ _ Hinv Hre) as (_ & _ & _ & _ & _ & _ & Hfull).
  destruct Hinv as [(Hh & _ & Hca & Ht & _) _ _ _]. simpl in *. specialize (Hfull Hf). lia.
Qed.

(** No cell is written while it is copied: the slot that the producer
    fills is none of the slots that a drain in progress has still to read. *)
Theorem ring_no_data_race tr s h it todo t count cells b x :
  steps new_system tr s -> prod s = PWrite h it todo -> cons s = CCopy t count cells b ->
  x ∈ cells -> c_slot x <> slot_index h.
Proof.
  intros H Hp Hc Hx. destruct (run_ok_steps tr s H) as [[Hcnt _ Hpr Hco] _].
  rewrite Hp in Hpr. rewrite Hc in Hco. destruct Hpr as (-> & Hroom & _).
  destruct Hco as (-> & Hn & Hle & Hcells & _). destruct Hcnt as (Hh & _ & Hca & Ht & _).
  destruct (Hcells x Hx) as (a & i & Hi & ->). simpl.
  rewrite slot_index_mod by lia. apply slot_distinct; lia.
Qed.

(** The members that run alone are runs of the two threads: an append
    publishes or drops its record, and a batch pop hands out what its buffers
    hold. *)
Theorem ring_members_refine_steps R p c it bufs m :
  (forall ok R', try_append R it = Ok (ok, R') ->
     steps (mkSystem R PIdle c) [if ok : bool then EAppend it else EDrop it] (mkSystem R' PIdle c)) /\
  (forall n b' R', try_pop_batch R bufs m = Ok (n, b', R') ->
     steps (mkSystem R p CIdle) (if n =? 0 then [] else [EDrain (buffer_item b' <$> seqZ 0 n)])
       (mkSystem R' p CIdle)).
Proof.
  split; [intros ok R'; apply try_append_run|]. intros n b' R'. apply try_pop_batch_run.
Qed.

(** ** The tags of the scalars *)

(** The fields that hold tags are bytes. *)
Definition tags_wf (e : Entry) : Prop := in_width 8 (scalar_types e) /\ in_width 8 (op_flags e).

Definition all_scalars2 : list ScalarType2 := [INT; FLOAT; BOOL; ENUM].

Lemma all_scalars2_all t : t ∈ all_scalars2.
Proof. unfold all_scalars2. destruct t; rewrite !elem_of_cons; tauto. Qed.

Definition set_types (x i : Z) (t : ScalarType2) : Z :=
  u8 (Z.lor (Z.land x (Z.lnot (Z.shiftl 3 (u8 (i * 2)))))
            (Z.shiftl (Z.land (scalar2_ordinal t) 3) (u8 (i * 2)))).
Definition get_types (x i : Z) : ScalarType2 := scalar2_of (Z.land (Z.shiftr x (i * 2)) 3).
Definition set_flags (x : Z) (t : ScalarType2) : Z :=
  u8 (Z.lor (Z.land x (Z.lnot SCALAR4_TYPE_MASK))
            (Z.shiftl (Z.land (scalar2_ordinal t) 3) SCALAR4_TYPE_SHIFT)).
Definition get_flags (x : Z) : ScalarType2 :=
  scalar2_of (Z.shiftr (Z.land x SCALAR4_TYPE_MASK) SCALAR4_TYPE_SHIFT).

Definition same2 (a b : ScalarType2) : bool := scalar2_ordinal a =? scalar2_ordinal b.

Lemma same2_eq a b : same2 a b = true -> a = b.
Proof. by destruct a, b. Qed.

Definition bytes : list Z := seqZ 0 256.

(** The tags of one byte, for every byte, position and tag. *)
Lemma types_table :
  forallb (fun x => forallb (fun i => forallb (fun t => forallb (fun j =>
    same2 (get_types (set_types x i t) j) (if j =? i then t else get_types x j))
    (seqZ 0 4)) all_scalars2) (seqZ 0 4)) bytes = true.
Proof. vm_compute. reflexivity. Qed.

Lemma flags_table :
  forallb (fun x => forallb (fun t =>
    same2 (get_flags (set_flags x t)) t && (Z.land (set_flags x t) 63 =? Z.land x 63))
    all_scalars2) bytes = true.
Proof. vm_compute. reflexivity. Qed.

Lemma forallb_elem {A} (f : A -> bool) l x : forallb f l = true -> x ∈ l -> f x = true.
Proof. intros H Hx. rewrite forallb_forall in H. apply H. by apply list_elem_of_In. Qed.

(** A tag written to a scalar position reads back, the tags of the other
    positions stay, and so do the six flag bits that share the byte with the
    tag of position 4. *)
Theorem scalar_tag_roundtrip e i t e' j :
  tags_wf e -> set_scalar_type e i t = Ok e' -> 0 <= j <= 4 ->
  get_scalar_type e' j = (if j =? i then Ok t else get_scalar_type e j) /\
  Z.land (op_flags e') 63 = Z.land (op_flags e) 63.
Proof.
  intros [Ht Hf] H Hj. unfold in_width in *. unfold set_scalar_type in H. inv_ok. reflect_bools.
  assert (Hb : scalar_types e ∈ bytes /\ op_flags e ∈ bytes)
    by (split; apply elem_of_seqZ; lia). destruct Hb as [Hbt Hbf].
  unfold get_scalar_type.
  destruct (Z.leb_spec 0 j); [|lia]. destruct (Z.leb_spec j 4); [|lia]. simpl.
  destruct (Z.ltb_spec i 4) as [Hi|Hi]; inv_ok; simpl.
  - split; [|done]. destruct (Z.ltb_spec j 4) as [Hj4|Hj4].
    + pose proof types_table as HT. apply (forallb_elem _ _ _ HT) in Hbt.
      apply (forallb_elem _ _ i) in Hbt; [|apply elem_of_seqZ; lia].
      apply (forallb_elem _ _ t) in Hbt; [|apply all_scalars2_all].
      apply (forallb_elem _ _ j) in Hbt; [|apply elem_of_seqZ; lia]. apply same2_eq in Hbt.
      unfold get_types, set_types in Hbt. rewrite Hbt. by destruct (j =? i).
    + destruct (Z.eqb_spec j i); [lia|done].
  - pose proof flags_table as HT. apply (forallb_elem _ _ _ HT) in Hbf.
    apply (forallb_elem _ _ t) in Hbf; [|apply all_scalars2_all].
    apply andb_prop in Hbf as [Hg Hk]. apply same2_eq in Hg. apply Z.eqb_eq in Hk.
    split; [|done]. destruct (Z.ltb_spec j 4) as [Hj4|Hj4].
    + destruct (Z.eqb_spec j i); [lia|done].
    + destruct (Z.eqb_spec j i); [|lia]. unfold get_flags, set_flags in Hg. by rewrite Hg.
Qed.

(** ** Witnesses *)

Definition wit_entry (n : Z) : Entry := mkRingEntry n n 1 1 5 228 1 [1; 2; 3; 4; 5].
Definition wit_item (n : Z) : item := mkItem (wit_entry n) n n n.
Definition wit_bufs : buffers := mkBufs (fun _ => zero_entry) (fun _ => 0) (fun _ => 0) (fun _ => 0).

(** The ring after two appends, and after a pop of one. *)
Definition append_or (R : TraceRing) (it : item) : TraceRing :=
  match try_append R it with Ok (_, R) => R | Fatal _ => R end.
Definition wit_two : TraceRing := append_or (append_or new_ring (wit_item 1)) (wit_item 2).
Definition wit_popped : Z * buffers * TraceRing :=
  match try_pop_batch wit_two wit_bufs 1 with Ok r => r | Fatal _ => (0, wit_bufs, new_ring) end.

Lemma append_or_run R it :
  head R < 2 ^ 64 - 1 -> 0 <= cached_tail_ R <= head R -> head R < cached_tail_ R + 2 ^ 16 -> forall c,
  steps (mkSystem R PIdle c) [EAppend it] (mkSystem (append_or R it) PIdle c).
Proof.
  intros H1 H2 H3 c. unfold append_or. destruct (try_append R it) as [[ok R']|] eqn:H.
  - assert (ok = true) as ->; [|by apply (try_append_run R c it true R')].
    unfold try_append in H. rewrite looks_full_spec in H by lia.
    destruct (Z.leb_spec (2 ^ 16) (head R - cached_tail_ R)); [lia|]. simpl in H. inv_ok. by simplify_eq.
  - unfold try_append in H. rewrite looks_full_spec in H by lia.
    destruct (Z.leb_spec (2 ^ 16) (head R - cached_tail_ R)); [lia|]. simpl in H.
    unfold publish_head in H. rewrite wrap_small in H by lia.
    destruct (Z.ltb_spec (head R) (head R + 1)); [done|lia].
Qed.

Lemma wit_two_run : steps new_system [EAppend (wit_item 1); EAppend (wit_item 2)] (mkSystem wit_two PIdle CIdle).
Proof.
  apply (steps_trans _ [EAppend (wit_item 1)] (mkSystem (append_or new_ring (wit_item 1)) PIdle CIdle)).
  - apply (append_or_run new_ring (wit_item 1)); simpl; lia.
  - apply (append_or_run (append_or new_ring (wit_item 1)) (wit_item 2));
      vm_compute; repeat split; congruence.
Qed.

Lemma wit_popped_run :
  steps new_system ([EAppend (wit_item 1); EAppend (wit_item 2)] ++ [EDrain [wit_item 1]])
    (mkSystem wit_popped.2 PIdle CIdle).
Proof.
  eapply steps_trans; [apply wit_two_run|].
  apply (try_pop_batch_run wit_two PIdle wit_bufs 1 1 wit_popped.1.2 wit_popped.2).
  unfold wit_popped.
  assert (H : match try_pop_batch wit_two wit_bufs 1 with Ok (n, _, _) => n =? 1 | Fatal _ => false end = true)
    by (vm_compute; reflexivity).
  destruct (try_pop_batch wit_two wit_bufs 1) as [[[n b] R]|]; [|done].
  apply Z.eqb_eq in H. by subst n.
Qed.

Lemma ring_is_fifo_witness : [wit_item 1] `prefix_of` [wit_item 1; wit_item 2].
Proof. exact (proj1 (ring_is_fifo _ _ wit_popped_run)). Defined.

(** A ring filled by [n] appends. *)
Lemma fill_run it n : (Z.of_nat n <= 2 ^ 16) ->
  exists R, steps new_system (replicate n (EAppend it)) (mkSystem R PIdle CIdle) /\
    head R = Z.of_nat n /\ cached_tail_ R = 0 /\ tail R = 0.
Proof.
  induction n as [|n IH]; intros Hn; [exists new_ring; split; [constructor|done]|].
  destruct IH as (R & Hs & Hh & Hc & Ht); [lia|].
  pose proof (append_or_run R it ltac:(lia) ltac:(lia) ltac:(lia) CIdle) as Hrun.
  exists (append_or R it). replace (S n) with (n + 1)%nat by lia.
  rewrite replicate_add. split; [by eapply steps_trans|].
  unfold append_or, try_append. rewrite looks_full_spec by lia.
  destruct (Z.leb_spec (2 ^ 16) (head R - cached_tail_ R)); [lia|]. simpl.
  unfold publish_head. rewrite wrap_small by lia.
  destruct (Z.ltb_spec (head R) (head R + 1)); [|lia]. simpl. lia.
Qed.

Lemma ring_drops_only_when_full_witness :
  exists tr, Z.of_nat (length (appended tr)) = Z.of_nat (length (drained tr)) + CAPACITY.
Proof.
  destruct (fill_run (wit_item 1) (Z.to_nat (2 ^ 16))) as (R & Hs & Hh & Hc & Ht); [lia|].
  assert (Hf : looks_full R (head R) = true).
  { rewrite looks_full_spec by lia. apply Z.leb_le. lia. }
  assert (Hre : reload_tail R = Ok (set_cached R (tail R))).
  { unfold reload_tail. rewrite Hc, Ht. done. }
  assert (Hf' : looks_full (set_cached R (tail R)) (head R) = true).
  { rewrite looks_full_spec by (simpl; lia). apply Z.leb_le. simpl. lia. }
  exists (replicate (Z.to_nat (2 ^ 16)) (EAppend (wit_item 1)) ++ []).
  refine (ring_drops_only_when_full _ _ (wit_item 2) _ _ (p_reload_full R _ CIdle (head R) (wit_item 2) Hre Hf')).
  eapply steps_snoc; [exact Hs|]. pose proof (p_begin R CIdle (wit_item 2)) as Hp.
  by rewrite Hf in Hp.
Defined.

Definition wit_one : TraceRing := append_or new_ring (wit_item 1).

Lemma ring_no_data_race_witness : 0 <> slot_index 1.
Proof.
  refine (ring_no_data_race ([EAppend (wit_item 1)] ++ [] ++ [])
    (mkSystem wit_one (PWrite 1 (wit_item 2) write_order)
       (CCopy 0 1 (drain_cells all_arrays 0 1) wit_bufs))
    1 (wit_item 2) write_order 0 1 (drain_cells all_arrays 0 1) wit_bufs (mkCell AEntries 0 0)
    _ eq_refl eq_refl _).
  - eapply steps_trans; [apply (append_or_run new_ring (wit_item 1)); simpl; lia|].
    eapply steps_trans; [apply steps_one, (c_begin wit_one PIdle 1 wit_bufs)|].
    + vm_compute. split; [reflexivity|discriminate].
    + vm_compute. reflexivity.
    + apply steps_one. apply (p_begin wit_one _ (wit_item 2)).
  - left.
Defined.

Lemma ring_members_refine_steps_witness :
  steps (mkSystem new_ring PIdle CIdle) [EAppend (wit_item 1)] (mkSystem wit_one PIdle CIdle).
Proof.
  apply (proj1 (ring_members_refine_steps new_ring PIdle CIdle (wit_item 1) wit_bufs 1) true wit_one).
  reflexivity.
Defined.

Lemma scalar_tag_roundtrip_witness :
  exists e', set_scalar_type (wit_entry 1) 2 FLOAT = Ok e' /\ get_scalar_type e' 2 = Ok FLOAT.
Proof.
  destruct (set_scalar_type (wit_entry 1) 2 FLOAT) as [e'|] eqn:H; [|by vm_compute in H].
  exists e'. split; [done|].
  assert (Hw : tags_wf (wit_entry 1)) by (split; split; vm_compute; congruence).
  exact (proj1 (scalar_tag_roundtrip (wit_entry 1) 2 FLOAT e' 2 Hw H ltac:(lia))).
Defined.

(** ** The size of a ring that moves

    size reads the head and then the tail.  When the consumer drains between
    the two reads a record that the producer appended after the first, the
    difference is negative and the 32-bit result is close to 2^32. *)
Example ring_size_can_wrap :
  exists s1 tr s2, steps new_system [] s1 /\ steps s1 tr s2 /\
    ring_size (head (ring s1)) (tail (ring s2)) = 2 ^ 32 - 1.
Proof.
  exists new_system, ([EAppend (wit_item 1); EAppend (wit_item 2)] ++ [EDrain [wit_item 1]]),
    (mkSystem wit_popped.2 PIdle CIdle).
  split; [constructor|]. split; [apply wit_popped_run|]. vm_compute. reflexivity.
Qed.
