(* ===== verification/MetaLog.v ===== *)
(** * MetaLog.v: the log of tensor metadata (include/crucible/MetaLog.h)

    A single-producer single-consumer buffer of 2^20 records.  An append
    writes a run of records and returns the count of the first one; the
    consumer copies a run by its count, then releases it by moving the tail.
    The buffer is a function from slots to records.  Each member runs to its
    end before the next one starts. *)

From stdpp Require Import base list gmap strings.
From Stdlib Require Import ZArith Lia.
From S2P Require Import Prelude Types.
#[local] Open Scope Z_scope.
#[local] Open Scope result_scope.

Definition META_CAPACITY : Z := Z.shiftl 1 20.
Definition META_MASK : Z := META_CAPACITY - 1.

Record MetaLog := mkMetaLog {
  meta_entries : Z -> TensorMeta;
  meta_head : Z;
  meta_tail : Z;
  meta_cached_tail_ : Z;
}.

Definition zero_meta : TensorMeta :=
  {| sizes := replicate 8 0; strides := replicate 8 0; data_ptr := 0; ndim := 0;
     dtype := UndefinedType; device_type := CPU; device_idx := -1; layout := Strided;
     requires_grad := false; flags := 0; output_nr := 0; storage_offset := 0; version := 0;
     storage_nbytes := 0; grad_fn_hash := 0 |}.

Definition new_metalog : MetaLog :=
  {| meta_entries := fun _ => zero_meta; meta_head := 0; meta_tail := 0; meta_cached_tail_ := 0 |}.

(** memcpy of a run of records into the buffer at [pos]. *)
Definition store_run (f : Z -> TensorMeta) (pos : Z) (metas : list TensorMeta) : Z -> TensorMeta :=
  fun j => if (pos <=? j) && (j <? pos + Z.of_nat (length metas))
           then default zero_meta (metas !! Z.to_nat (j - pos)) else f j.

(** memcpy of [n] records out of the buffer from [pos]. *)
Definition load_run (f : Z -> TensorMeta) (pos n : Z) : list TensorMeta :=
  (fun i => f (pos + i)) <$> seqZ 0 n.

(** [h - cached_tail_ + n > CAPACITY] *)
Definition meta_no_room (L : MetaLog) (h n : Z) : bool :=
  META_CAPACITY <? ((h ⊟ meta_cached_tail_ L) ⊞ n)%u64.

Definition meta_reload (L : MetaLog) : result MetaLog :=
  let* _ := require (meta_cached_tail_ L <=? meta_tail L) "leq(cached_tail_, tail)" in
  Ok {| meta_entries := meta_entries L; meta_head := meta_head L; meta_tail := meta_tail L;
        meta_cached_tail_ := meta_tail L |}.

(** The copy of an append, in one part or in two. *)
Definition meta_store (f : Z -> TensorMeta) (h : Z) (metas : list TensorMeta) : Z -> TensorMeta :=
  let n := Z.of_nat (length metas) in
  let start_pos := u32 (Z.land h META_MASK) in
  let end_pos := u32 (start_pos + n) in
  if end_pos <=? META_CAPACITY then store_run f start_pos metas
  else
    let first_chunk := META_CAPACITY - start_pos in
    store_run (store_run f start_pos (take (Z.to_nat first_chunk) metas)) 0
      (drop (Z.to_nat first_chunk) metas).

(** The result is the MetaIndex, none when the records were not written. *)
Definition meta_try_append (L : MetaLog) (metas : list TensorMeta) : result (Z * MetaLog) :=
  let n := Z.of_nat (length metas) in
  let* _ := require (n <=? META_CAPACITY) "n <= CAPACITY" in
  if n =? 0 then Ok (none64, L)
  else
    let h := meta_head L in
    let* '(room, L) :=
      if meta_no_room L h n then
        let* L := meta_reload L in
        Ok (negb (meta_no_room L h n), L)
      else Ok (true, L) in
    if room then
      let* _ := require (h <? (h ⊞ n)%u64) "head < head + n" in
      Ok (h, {| meta_entries := meta_store (meta_entries L) h metas; meta_head := (h ⊞ n)%u64;
                meta_tail := meta_tail L; meta_cached_tail_ := meta_cached_tail_ L |})
    else Ok (none64, L).

Definition copy_run (L : MetaLog) (start count : Z) : result (list TensorMeta) :=
  let* _ := require ((0 <=? count) && (count <=? META_CAPACITY)) "count <= CAPACITY" in
  if count =? 0 then Ok []
  else
    let start_pos := u32 (Z.land start META_MASK) in
    let first_chunk := if count <=? META_CAPACITY - start_pos then count
                       else META_CAPACITY - start_pos in
    Ok (load_run (meta_entries L) start_pos first_chunk
        ++ (if first_chunk <? count then load_run (meta_entries L) 0 (count - first_chunk) else [])).

Definition advance_tail (L : MetaLog) (new_tail : Z) : result MetaLog :=
  let* _ := require (meta_tail L <? new_tail) "tail < new_tail" in
  Ok {| meta_entries := meta_entries L; meta_head := meta_head L; meta_tail := new_tail;
        meta_cached_tail_ := meta_cached_tail_ L |}.

(** size reads the tail first; [t] and [h] are what it read. *)
Definition meta_size (t h : Z) : Z :=
  let live := (h ⊟ t)%u64 in
  u32 (if live <? META_CAPACITY then live else META_CAPACITY).

Definition meta_reset (L : MetaLog) : MetaLog :=
  {| meta_entries := meta_entries L; meta_head := 0; meta_tail := 0; meta_cached_tail_ := 0 |}.

(** ** The calls of the two threads *)

Inductive meta_op := MAppend (metas : list TensorMeta) | MRelease (new_tail : Z).

(** A consumer releases only what was appended. *)
Definition run_meta_op (L : MetaLog) (o : meta_op) : result MetaLog :=
  match o with
  | MAppend metas => let* '(_, L) := meta_try_append L metas in Ok L
  | MRelease t =>
      let* _ := require (t <=? meta_head L) "the consumer releases what it has seen" in
      advance_tail L t
  end.

Fixpoint run_meta (L : MetaLog) (os : list meta_op) : result MetaLog :=
  match os with [] => Ok L | o :: os => let* L := run_meta_op L o in run_meta L os end.

(** ** The invariant *)

(** [log] is every record appended so far. *)
Record meta_inv (log : list TensorMeta) (L : MetaLog) : Prop := {
  mi_head : meta_head L = Z.of_nat (length log);
  mi_width : meta_head L < 2 ^ 64;
  mi_tail : 0 <= meta_cached_tail_ L <= meta_tail L;
  mi_room : meta_tail L <= meta_head L <= meta_tail L + 2 ^ 20;
  mi_slots k m : log !! k = Some m -> meta_tail L <= Z.of_nat k ->
    meta_entries L (Z.of_nat k mod 2 ^ 20) = m;
}.

Lemma meta_pos h : 0 <= h -> u32 (Z.land h META_MASK) = h mod 2 ^ 20.
Proof.
  intros Hh. unfold META_MASK. change META_CAPACITY with (2 ^ 20). rewrite land_mask_mod by lia.
  apply wrap_small. mod_lia.
Qed.

Lemma store_run_at f pos metas j :
  store_run f pos metas j
  = if decide (pos <= j < pos + Z.of_nat (length metas))
    then default zero_meta (metas !! Z.to_nat (j - pos)) else f j.
Proof.
  unfold store_run. destruct (Z.leb_spec pos j), (Z.ltb_spec j (pos + Z.of_nat (length metas)));
    case_decide; try done; lia.
Qed.

(** The stored run, one slot for each count, around the end of the buffer. *)
Lemma meta_store_at f h metas i m :
  0 <= h -> Z.of_nat (length metas) <= 2 ^ 20 -> metas !! i = Some m ->
  meta_store f h metas ((h + Z.of_nat i) mod 2 ^ 20) = m.
Proof.
  intros Hh Hn Hi. pose proof (lookup_lt_Some _ _ _ Hi) as Hlt.
  unfold meta_store. rewrite meta_pos by lia. change META_CAPACITY with (2 ^ 20).
  set (s := h mod 2 ^ 20). assert (Hs : 0 <= s < 2 ^ 20) by (subst s; mod_lia).
  rewrite (wrap_small 32) by lia.
  assert (Hpos : (h + Z.of_nat i) mod 2 ^ 20
    = if decide (s + Z.of_nat i < 2 ^ 20) then s + Z.of_nat i else s + Z.of_nat i - 2 ^ 20).
  { subst s. case_decide; mod_lia. }
  rewrite Hpos. destruct (Z.leb_spec (s + Z.of_nat (length metas)) (2 ^ 20)).
  - rewrite decide_True, store_run_at, decide_True by lia.
    replace (Z.to_nat (s + Z.of_nat i - s)) with i by lia. by rewrite Hi.
  - rewrite store_run_at, length_drop. case_decide as Hw.
    + rewrite decide_False by lia. rewrite store_run_at, length_take, decide_True by lia.
      rewrite lookup_take_lt by lia. replace (Z.to_nat (s + Z.of_nat i - s)) with i by lia. by rewrite Hi.
    + rewrite decide_True by lia. rewrite lookup_drop.
      replace (Z.to_nat (2 ^ 20 - s) + Z.to_nat (s + Z.of_nat i - 2 ^ 20 - 0))%nat with i by lia.
      by rewrite Hi.
Qed.

(** It touches no other slot. *)
Lemma meta_store_other f h metas k :
  0 <= k < h -> h + Z.of_nat (length metas) <= k + 2 ^ 20 ->
  meta_store f h metas (k mod 2 ^ 20) = f (k mod 2 ^ 20).
Proof.
  intros Hk Hn. unfold meta_store. rewrite meta_pos by lia. change META_CAPACITY with (2 ^ 20).
  set (s := h mod 2 ^ 20). assert (Hs : 0 <= s < 2 ^ 20) by (subst s; mod_lia).
  rewrite (wrap_small 32) by lia. set (q := k mod 2 ^ 20).
  assert (Hq : 0 <= q < 2 ^ 20 /\ ~ (s <= q < s + Z.of_nat (length metas)) /\
    ~ (s <= q + 2 ^ 20 < s + Z.of_nat (length metas))) by (subst s q; mod_lia).
  destruct (Z.leb_spec (s + Z.of_nat (length metas)) (2 ^ 20)).
  - rewrite store_run_at, decide_False by lia. done.
  - rewrite store_run_at, length_drop, decide_False by lia.
    rewrite store_run_at, length_take, decide_False by lia. done.
Qed.

Lemma meta_no_room_spec log L n :
  meta_inv log L -> 0 <= n <= 2 ^ 20 ->
  meta_no_room L (meta_head L) n = (2 ^ 20 <? meta_head L - meta_cached_tail_ L + n) \/
  meta_head L + n >= 2 ^ 64.
Proof.
  intros [H1 H2 H3 H4 _] Hn. unfold meta_no_room. change META_CAPACITY with (2 ^ 20).
  destruct (Z.lt_ge_cases (meta_head L + n) (2 ^ 64)); [left|right; lia].
  rewrite (wrap_small 64 (meta_head L - _)), wrap_small by lia. done.
Qed.

Lemma meta_reload_inv log L L' :
  meta_inv log L -> meta_reload L = Ok L' ->
  meta_inv log L' /\ meta_head L' = meta_head L /\ meta_tail L' = meta_tail L /\
  meta_cached_tail_ L' = meta_tail L.
Proof.
  intros [H1 H2 H3 H4 H5] H. unfold meta_reload in H. inv_ok. split_and!; auto.
  split; simpl; auto; lia.
Qed.

(** The publication of a run for which there is room. *)
Lemma meta_publish_inv log L metas :
  meta_inv log L -> meta_head L < (meta_head L ⊞ Z.of_nat (length metas))%u64 ->
  Z.of_nat (length metas) <= 2 ^ 20 ->
  meta_head L - meta_cached_tail_ L + Z.of_nat (length metas) <= 2 ^ 20 ->
  meta_inv (log ++ metas)
    {| meta_entries := meta_store (meta_entries L) (meta_head L) metas;
       meta_head := (meta_head L ⊞ Z.of_nat (length metas))%u64;
       meta_tail := meta_tail L; meta_cached_tail_ := meta_cached_tail_ L |}.
Proof.
  intros [H1 H2 H3 H4 H5] Hlt Hn Hroom.
  assert (Hw : meta_head L + Z.of_nat (length metas) < 2 ^ 64).
  { destruct (Z.lt_ge_cases (meta_head L + Z.of_nat (length metas)) (2 ^ 64)); [done|].
    unfold wrap in Hlt. assert ((meta_head L + Z.of_nat (length metas)) mod 2 ^ 64
      = meta_head L + Z.of_nat (length metas) - 2 ^ 64) by mod_lia. lia. }
  rewrite wrap_small by lia. split; simpl; auto; try lia.
  - rewrite length_app. lia.
  - intros k m Hk Hge. apply lookup_app_Some in Hk as [Hk|[Hlen Hk]].
    + pose proof (lookup_lt_Some _ _ _ Hk). rewrite meta_store_other by lia. by apply H5.
    + pose proof (lookup_lt_Some _ _ _ Hk).
      replace (Z.of_nat k) with (meta_head L + Z.of_nat (k - length log)) by lia.
      apply meta_store_at; [lia|lia|done].
Qed.

(** An append writes all its records at the returned count, or nothing. *)
Lemma meta_try_append_inv log L metas idx L' :
  meta_inv log L -> meta_head L + 2 ^ 20 < 2 ^ 64 -> meta_try_append L metas = Ok (idx, L') ->
  (idx = none64 /\ meta_inv log L' /\ meta_head L' = meta_head L /\ meta_tail L' = meta_tail L /\
   (metas = [] \/ meta_tail L + 2 ^ 20 < meta_head L + Z.of_nat (length metas))) \/
  (idx = Z.of_nat (length log) /\ metas <> [] /\ meta_inv (log ++ metas) L' /\ meta_tail L' = meta_tail L).
Proof.
  intros Hinv Hbig H. unfold meta_try_append in H. inv_ok. reflect_bools.
  change META_CAPACITY with (2 ^ 20) in *.
  destruct (Z.eqb_spec (Z.of_nat (length metas)) 0) as [Hz|Hnz].
  { simplify_eq. left. split_and!; auto. left. by destruct metas. }
  assert (Hne : metas <> []) by (intros ->; done).
  assert (Hpub : forall L1, meta_inv log L1 -> meta_head L1 = meta_head L -> meta_tail L1 = meta_tail L ->
    meta_no_room L1 (meta_head L) (Z.of_nat (length metas)) = false -> forall idx L',
    (let* _ := require (meta_head L <? (meta_head L ⊞ Z.of_nat (length metas))%u64) "head < head + n" in
      Ok (meta_head L, {| meta_entries := meta_store (meta_entries L1) (meta_head L) metas;
        meta_head := (meta_head L ⊞ Z.of_nat (length metas))%u64; meta_tail := meta_tail L1;
        meta_cached_tail_ := meta_cached_tail_ L1 |})) = Ok (idx, L') ->
    idx = Z.of_nat (length log) /\ metas <> [] /\ meta_inv (log ++ metas) L' /\ meta_tail L' = meta_tail L).
  { intros L1 Hinv1 Hh Ht Hroom idx' L2 Hp. inv_ok. simplify_eq. reflect_bools. rewrite <- Hh in *.
    destruct (meta_no_room_spec log L1 (Z.of_nat (length metas)) Hinv1 ltac:(lia)) as [E|E]; [|lia].
    rewrite Hroom in E. symmetry in E. apply Z.ltb_ge in E.
    split_and!; auto; [apply (mi_head _ _ Hinv1)|]. by apply meta_publish_inv. }
  destruct (meta_no_room L (meta_head L) (Z.of_nat (length metas))) eqn:Hr.
  - inv_ok. match goal with Hl : meta_reload L = Ok ?L1 |- _ =>
      destruct (meta_reload_inv log L L1 Hinv Hl) as (Hinv1 & Hh & Ht & Hc); rename L1 into L1' end.
    destruct (meta_no_room L1' (meta_head L) (Z.of_nat (length metas))) eqn:Hr2; simpl in H.
    + injection H as <- <-. left. split_and!; auto. right. rewrite <- Hh in *.
      destruct (meta_no_room_spec log L1' (Z.of_nat (length metas)) Hinv1 ltac:(lia)) as [E|E]; [|lia].
      rewrite Hr2 in E. symmetry in E. apply Z.ltb_lt in E. lia.
    + right. by apply (Hpub L1').
  - right. by apply (Hpub L).
Qed.

(** A run between the tail and the head reads back. *)
Lemma copy_run_spec log L start count :
  meta_inv log L -> meta_tail L <= start -> 0 <= count -> start + count <= meta_head L ->
  copy_run L start count = Ok (take (Z.to_nat count) (drop (Z.to_nat start) log)).
Proof.
  intros [H1 H2 H3 H4 H5] Hs Hc He. unfold copy_run. change META_CAPACITY with (2 ^ 20).
  destruct (Z.leb_spec 0 count); [|lia]. destruct (Z.leb_spec count (2 ^ 20)); [|lia]. simpl.
  destruct (Z.eqb_spec count 0) as [->|Hnz]; [by rewrite take_0|]. f_equal.
  rewrite meta_pos by lia. set (p := start mod 2 ^ 20).
  assert (Hp : 0 <= p < 2 ^ 20) by (subst p; mod_lia).
  assert (Hget : forall i, 0 <= i < count -> log !! Z.to_nat (start + i)
    = Some (meta_entries L ((start + i) mod 2 ^ 20))).
  { intros i Hi. destruct (lookup_lt_is_Some_2 log (Z.to_nat (start + i))) as [m Hm]; [lia|].
    rewrite Hm. f_equal. symmetry. rewrite <- (Z2Nat.id (start + i)) by lia. apply H5; [done|lia]. }
  set (first := if count <=? 2 ^ 20 - p then count else 2 ^ 20 - p).
  assert (Hf : 0 < first <= count /\ first <= 2 ^ 20 - p /\ (first < count -> first = 2 ^ 20 - p)).
  { subst first. destruct (Z.leb_spec count (2 ^ 20 - p)); lia. }
  clearbody first.
  assert (Hrun : load_run (meta_entries L) p first
      ++ (if first <? count then load_run (meta_entries L) 0 (count - first) else [])
    = (fun i => meta_entries L ((start + i) mod 2 ^ 20)) <$> seqZ 0 count).
  { unfold load_run. replace count with (first + (count - first)) at 3 by lia.
    rewrite seqZ_app, fmap_app by lia. f_equal.
    - apply list_fmap_ext. intros j x Hx. apply lookup_seqZ in Hx as [-> Hj]. f_equal. subst p. mod_lia.
    - destruct (Z.ltb_spec first count); [|by rewrite seqZ_nil by lia].
      replace (0 + first) with (first + 0) by lia.
      rewrite <- fmap_add_seqZ, <- list_fmap_compose. apply list_fmap_ext.
      intros j x Hx. apply lookup_seqZ in Hx as [-> Hj]. simpl. f_equal. subst p. mod_lia. }
  rewrite Hrun. apply list_eq. intros j. rewrite list_lookup_fmap.
  destruct (decide (Z.of_nat j < count)) as [Hj|Hj].
  - rewrite lookup_seqZ_lt, lookup_take_lt, lookup_drop by lia. simpl.
    rewrite <- Hget by lia. f_equal. lia.
  - rewrite lookup_seqZ_ge by lia. simpl. symmetry. apply lookup_ge_None. rewrite length_take. lia.
Qed.

Lemma run_meta_op_inv log L o L' :
  meta_inv log L -> meta_head L + 2 ^ 20 < 2 ^ 64 -> run_meta_op L o = Ok L' ->
  exists more, meta_inv (log ++ more) L' /\
    (length more <= match o with MAppend metas => length metas | _ => 0 end)%nat.
Proof.
  intros Hinv Hbig H. destruct o as [metas|t]; simpl in H; inv_ok.
  - destruct a as [idx L1]. inv_ok.
    destruct (meta_try_append_inv _ _ _ _ _ Hinv Hbig Hok) as [(_ & Hi & _)|(_ & _ & Hi & _)].
    + exists []. rewrite app_nil_r. split; [done|simpl; lia].
    + exists metas. split; [done|lia].
  - reflect_bools. unfold advance_tail in H. inv_ok. reflect_bools. exists []. rewrite app_nil_r.
    split; [|simpl; lia]. destruct Hinv as [H1 H2 H3 H4 H5]. split; simpl; auto; try lia.
    intros k m Hk Hge. apply H5; [done|lia].
Qed.

Definition op_records (o : meta_op) : Z :=
  match o with MAppend metas => Z.of_nat (length metas) | MRelease _ => 0 end.

Fixpoint total_records (os : list meta_op) : Z :=
  match os with [] => 0 | o :: os => op_records o + total_records os end.

Lemma total_records_nonneg os : 0 <= total_records os.
Proof. induction os as [|o os IH]; simpl; [lia|]. destruct o; simpl; lia. Qed.

Lemma run_meta_inv os : forall log L L',
  meta_inv log L -> meta_head L + total_records os + 2 ^ 20 < 2 ^ 64 -> run_meta L os = Ok L' ->
  exists more, meta_inv (log ++ more) L' /\ meta_head L' <= meta_head L + total_records os.
Proof.
  induction os as [|o os IH]; intros log L L' Hinv Hbig H; simpl in *; inv_ok.
  { exists []. rewrite app_nil_r. split; [done|lia]. }
  pose proof (total_records_nonneg os). assert (Ho : 0 <= op_records o) by (destruct o; simpl; lia).
  destruct (run_meta_op_inv _ _ _ _ Hinv ltac:(lia) Hok) as (m1 & Hi1 & Hl1).
  assert (Hh : meta_head a <= meta_head L + op_records o).
  { rewrite (mi_head _ _ Hi1), (mi_head _ _ Hinv), length_app. destruct o; simpl in *; lia. }
  destruct (IH _ _ _ Hi1 ltac:(lia) H) as (m2 & Hi2 & Hle).
  exists (m1 ++ m2). rewrite app_assoc. split; [done|lia].
Qed.

Lemma new_metalog_inv : meta_inv [] new_metalog.
Proof. split; simpl; try lia; done. Qed.

(** A run of records reads back.  When an append returns an index, and
    whatever the two threads append and release afterwards, a copy from that
    index gives the appended records as long as the tail has not passed
    it. *)
Theorem metalog_append_copy_roundtrip os1 L1 metas idx L2 os2 L3 :
  run_meta new_metalog os1 = Ok L1 -> meta_try_append L1 metas = Ok (idx, L2) -> idx <> none64 ->
  run_meta L2 os2 = Ok L3 -> meta_tail L3 <= idx ->
  total_records (os1 ++ MAppend metas :: os2) + 2 ^ 21 < 2 ^ 64 ->
  copy_run L3 idx (Z.of_nat (length metas)) = Ok metas.
Proof.
  intros H1 Ha Hidx H2 Ht Hbig.
  assert (Htot : total_records (os1 ++ MAppend metas :: os2)
    = total_records os1 + Z.of_nat (length metas) + total_records os2).
  { clear. induction os1; simpl; lia. }
  pose proof (total_records_nonneg os1). pose proof (total_records_nonneg os2).
  destruct (run_meta_inv os1 [] _ _ new_metalog_inv ltac:(simpl; lia) H1) as (log & Hi1 & Hh1).
  simpl in Hi1, Hh1.
  destruct (meta_try_append_inv _ _ _ _ _ Hi1 ltac:(lia) Ha) as [(-> & _)|(-> & Hne & Hi2 & Ht2)]; [done|].
  assert (Hh2 : meta_head L2 = meta_head L1 + Z.of_nat (length metas)).
  { rewrite (mi_head _ _ Hi2), (mi_head _ _ Hi1), length_app. lia. }
  destruct (run_meta_inv os2 _ _ _ Hi2 ltac:(lia) H2) as (more & Hi3 & _).
  rewrite (copy_run_spec _ _ _ _ Hi3); [|done|lia|].
  - f_equal. rewrite !Nat2Z.id, <- app_assoc, drop_app_length. by rewrite take_app_length.
  - rewrite (mi_head _ _ Hi3), !length_app. lia.
Qed.

Definition wit_metas : list TensorMeta := [zero_meta; zero_meta].

Lemma metalog_append_copy_roundtrip_witness :
  exists L2, copy_run L2 3 2 = Ok wit_metas.
Proof.
  destruct (run_meta new_metalog [MAppend [zero_meta]; MRelease 1; MAppend wit_metas]) as [L1|] eqn:H1;
    [|by vm_compute in H1].
  destruct (meta_try_append L1 wit_metas) as [[idx L2]|] eqn:Ha;
    [|unfold run_meta in H1; simpl in H1; injection H1 as <-; by vm_compute in Ha].
  exists L2. assert (E : idx = 3).
  { simpl in H1. injection H1 as <-. vm_compute in Ha. by injection Ha as <- _. }
  subst idx.
  refine (metalog_append_copy_roundtrip [MAppend [zero_meta]; MRelease 1; MAppend wit_metas] L1 wit_metas
    3 L2 [] L2 H1 Ha _ eq_refl _ _); [discriminate| |vm_compute; reflexivity].
  simpl in H1. injection H1 as <-. vm_compute in Ha. injection Ha as <-. vm_compute. discriminate.
Defined.

(** An append of records is refused only when the records do not fit
    between the tail and the head, and a refused append writes no record and
    moves neither counter. *)
Theorem metalog_append_refused_only_when_full os L metas L' :
  run_meta new_metalog os = Ok L -> total_records os + 2 ^ 21 < 2 ^ 64 ->
  meta_try_append L metas = Ok (none64, L') -> metas <> [] ->
  meta_tail L + META_CAPACITY < meta_head L + Z.of_nat (length metas) /\
  meta_head L' = meta_head L /\ meta_tail L' = meta_tail L.
Proof.
  intros H Hbig Ha Hne. pose proof (total_records_nonneg os).
  destruct (run_meta_inv os [] _ _ new_metalog_inv ltac:(simpl; lia) H) as (log & Hi & Hh).
  simpl in Hi, Hh. change META_CAPACITY with (2 ^ 20).
  destruct (meta_try_append_inv _ _ _ _ _ Hi ltac:(lia) Ha)
    as [(_ & _ & Hh' & Ht' & [?|?])|(E & _)]; [done|done|].
  exfalso. pose proof (mi_head _ _ Hi). unfold none64, UINT64_MAX in E. lia.
Qed.

Definition wit_full : list TensorMeta := replicate (Z.to_nat (2 ^ 20 - 1)) zero_meta.

Lemma wit_full_length : Z.of_nat (length wit_full) = 2 ^ 20 - 1.
Proof. unfold wit_full. rewrite length_replicate. lia. Qed.

Lemma wit_full_refused L :
  meta_head L = 2 -> meta_tail L = 0 -> meta_cached_tail_ L = 0 ->
  exists L', meta_try_append L wit_full = Ok (none64, L').
Proof.
  intros Hh Ht Hc. unfold meta_try_append. rewrite wit_full_length.
  unfold meta_no_room, meta_reload. rewrite Hh, Ht, Hc. simpl. eauto.
Qed.

Lemma metalog_append_refused_only_when_full_witness :
  exists L, run_meta new_metalog [MAppend wit_metas] = Ok L /\
    meta_tail L + META_CAPACITY < meta_head L + Z.of_nat (length wit_full).
Proof.
  eexists. split; [reflexivity|].
  edestruct wit_full_refused as [L' Ha]; cycle 3.
  - refine (proj1 (metalog_append_refused_only_when_full [MAppend wit_metas] _ wit_full L' eq_refl _ Ha _)).
    + reflexivity.
    + intros E. pose proof wit_full_length as Hl. rewrite E in Hl. discriminate.
  - reflexivity.
  - reflexivity.
  - reflexivity.
Defined.
