(* ===== verification/Hash.v ===== *)
(** * Hash.v: the mixing primitives (namespace detail of include/crucible/Expr.h)

    [fmix64] is the finalizer that every hash of the runtime ends with, and
    [combine_ids] is the step of every fold.  Both act on 64-bit words. *)

From stdpp Require Import base list.
From Stdlib Require Import ZArith Lia Znumtheory.
From S2P Require Import Prelude.
#[local] Open Scope Z_scope.

Definition FMIX_MUL1 : Z := 0xff51afd7ed558ccd.
Definition FMIX_MUL2 : Z := 0xc4ceb9fe1a85ec53.

Definition fmix64 (k : Z) : Z :=
  let k := Z.lxor k (Z.shiftr k 33) in
  let k := (k ⊠ FMIX_MUL1)%u64 in
  let k := Z.lxor k (Z.shiftr k 33) in
  let k := (k ⊠ FMIX_MUL2)%u64 in
  Z.lxor k (Z.shiftr k 33).

Definition GOLDEN : Z := 0x9e3779b97f4a7c15.

Definition combine_ids (a b : Z) : Z :=
  fmix64 (Z.lxor a (((b ⊞ GOLDEN) ⊞ u64 (Z.shiftl a 6)) ⊞ Z.shiftr a 2)%u64).

(** ** The inverse of the finalizer *)

(** The inverses of the two multipliers modulo [2^64]. *)
Definition FMIX_INV1 : Z := 0x4f74430c22a54005.
Definition FMIX_INV2 : Z := 0x9cb4b2f8129337db.

Definition fmix64_inv (k : Z) : Z :=
  let k := Z.lxor k (Z.shiftr k 33) in
  let k := (k ⊠ FMIX_INV2)%u64 in
  let k := Z.lxor k (Z.shiftr k 33) in
  let k := (k ⊠ FMIX_INV1)%u64 in
  Z.lxor k (Z.shiftr k 33).

Lemma lxor_width w a b : 0 <= w -> in_width w a -> in_width w b -> in_width w (Z.lxor a b).
Proof.
  unfold in_width. intros Hw Ha Hb.
  destruct (Z.eq_dec (Z.lxor a b) 0) as [->|Hne]; [lia|].
  assert (Hp : 0 <= Z.lxor a b) by (apply Z.lxor_nonneg; lia).
  split; [done|]. apply Z.log2_lt_pow2; [lia|].
  pose proof (Z.log2_lxor a b ltac:(lia) ltac:(lia)).
  assert (Hl : forall x, 0 <= x < 2 ^ w -> 0 < w -> Z.log2 x < w).
  { intros x Hx Hw'. destruct (Z.eq_dec x 0) as [->|]; [done|]. apply Z.log2_lt_pow2; lia. }
  assert (0 < w). { destruct (Z.eq_dec w 0) as [->|]; [|lia]. assert (a = 0) by lia.
    assert (b = 0) by lia. subst. done. }
  pose proof (Hl a Ha ltac:(lia)). pose proof (Hl b Hb ltac:(lia)). lia.
Qed.

Lemma shiftr_width w a n : 0 <= n -> in_width w a -> in_width w (Z.shiftr a n).
Proof.
  unfold in_width. intros Hn Ha. rewrite Z.shiftr_div_pow2 by done.
  pose proof (Z.pow_pos_nonneg 2 n ltac:(lia) ltac:(lia)). split.
  - apply Z.div_pos; lia.
  - apply Z.le_lt_trans with a; [|lia]. apply Z.div_le_upper_bound; nia.
Qed.

Lemma xorshift_width k : in_width 64 k -> in_width 64 (Z.lxor k (Z.shiftr k 33)).
Proof. intros. apply lxor_width; [lia|done|]. by apply shiftr_width. Qed.

(** A shift of at least half the word makes the xor-shift its own inverse. *)
Lemma xorshift_involutive k :
  in_width 64 k ->
  Z.lxor (Z.lxor k (Z.shiftr k 33)) (Z.shiftr (Z.lxor k (Z.shiftr k 33)) 33) = k.
Proof.
  intros Hk. rewrite Z.shiftr_lxor, Z.shiftr_shiftr by lia.
  assert (E : Z.shiftr k (33 + 33) = 0).
  { rewrite Z.shiftr_div_pow2 by lia. apply Z.div_small. unfold in_width in Hk. lia. }
  by rewrite E, Z.lxor_0_r, Z.lxor_assoc, Z.lxor_nilpotent, Z.lxor_0_r.
Qed.

Lemma mul_inverse64 m i k :
  in_width 64 k -> (m * i) mod 2 ^ 64 = 1 -> ((k ⊠ m) ⊠ i)%u64 = k.
Proof.
  intros Hk Hmi. unfold wrap. rewrite Z.mul_mod_idemp_l by lia.
  rewrite <- Z.mul_assoc, <- Z.mul_mod_idemp_r, Hmi, Z.mul_1_r by lia. by apply Z.mod_small.
Qed.

Lemma fmix64_width k : in_width 64 k -> in_width 64 (fmix64 k).
Proof. intros Hk. unfold fmix64. apply xorshift_width, u64_range. Qed.

Lemma fmix64_inv_l k : in_width 64 k -> fmix64_inv (fmix64 k) = k.
Proof.
  intros Hk. unfold fmix64_inv, fmix64. cbv zeta.
  rewrite xorshift_involutive by apply u64_range.
  rewrite mul_inverse64 by (apply xorshift_width, u64_range || reflexivity).
  rewrite xorshift_involutive by apply u64_range.
  rewrite mul_inverse64 by (apply xorshift_width, Hk || reflexivity).
  by apply xorshift_involutive.
Qed.

Lemma fmix64_inv_r k : in_width 64 k -> fmix64 (fmix64_inv k) = k.
Proof.
  intros Hk. unfold fmix64_inv, fmix64. cbv zeta.
  rewrite xorshift_involutive by apply u64_range.
  rewrite mul_inverse64 by (apply xorshift_width, u64_range || reflexivity).
  rewrite xorshift_involutive by apply u64_range.
  rewrite mul_inverse64 by (apply xorshift_width, Hk || reflexivity).
  by apply xorshift_involutive.
Qed.

Lemma fmix64_inj a b : in_width 64 a -> in_width 64 b -> fmix64 a = fmix64 b -> a = b.
Proof. intros Ha Hb E. by rewrite <- (fmix64_inv_l a), <- (fmix64_inv_l b), E. Qed.

Lemma lxor_cancel a b c : Z.lxor a b = Z.lxor a c -> b = c.
Proof.
  intros E. apply (f_equal (Z.lxor a)) in E.
  by rewrite <- !Z.lxor_assoc, Z.lxor_nilpotent, !Z.lxor_0_l in E.
Qed.

Lemma combine_ids_arg_width a b :
  in_width 64 a ->
  in_width 64 (Z.lxor a (((b ⊞ GOLDEN) ⊞ u64 (Z.shiftl a 6)) ⊞ Z.shiftr a 2)%u64).
Proof. intros Ha. apply lxor_width; [lia|done|apply u64_range]. Qed.

Lemma combine_ids_width a b : in_width 64 a -> in_width 64 (combine_ids a b).
Proof. intros Ha. apply fmix64_width. by apply combine_ids_arg_width. Qed.

(** Each input gives a different accumulator. *)
Lemma combine_ids_inj a b c :
  in_width 64 a -> in_width 64 b -> in_width 64 c -> combine_ids a b = combine_ids a c -> b = c.
Proof.
  intros Ha Hb Hc E. apply fmix64_inj in E; [|by apply combine_ids_arg_width..].
  apply lxor_cancel in E. unfold wrap, in_width in *.
  pose proof (Z.shiftl_nonneg a 6). pose proof (Z.shiftr_nonneg a 2).
  remember ((Z.shiftl a 6) mod 2 ^ 64) as x. remember (Z.shiftr a 2) as y. clear - E Hb Hc.
  unfold GOLDEN in E. mod_lia.
Qed.

(** The mixer is a permutation of the 64-bit words, and the fold step
    is one in its input: no input is forgotten. *)
Theorem mixers_are_permutations k a :
  in_width 64 k -> in_width 64 a ->
  (in_width 64 (fmix64 k) /\ fmix64_inv (fmix64 k) = k /\ fmix64 (fmix64_inv k) = k) /\
  (forall b, in_width 64 b -> combine_ids a k = combine_ids a b -> k = b).
Proof.
  intros Hk Ha. split; [|by intros b; apply combine_ids_inj].
  split_and!; [by apply fmix64_width|by apply fmix64_inv_l|by apply fmix64_inv_r].
Qed.

Lemma mixers_are_permutations_witness :
  fmix64_inv (fmix64 12345) = 12345 /\ fmix64 0 = 0 /\ fmix64 1 = 0xb456bcfc34c2cb2c.
Proof.
  split; [|split; vm_compute; reflexivity].
  apply (mixers_are_permutations 12345 7); unfold in_width; lia.
Defined.
