(* ===== verification/WindowTable.v ===== *)
(** * WindowTable.v: the window table of the iteration detector
    (include/crucible/IterationDetector.h: home_slot_, table_exchange_ and
    table_remove_newest_)

    An open-addressing table with linear probing from window fingerprints to
    the newest window start, stored plus one so that zero is an empty slot.
    Removal moves later slots of the probe run back.  The array of slots is a
    finite map with the empty slot as default: the code allocates it
    value-initialized and masks each index.

    The probe loops of the code have no bound of their own.  The model gives
    each the size of the table as fuel: a probe that has seen every slot
    returns to a slot that it has not changed, so that running out of fuel is
    the loop that never ends.  The theorem below shows that a table with an
    empty slot never does, and that the table refines a finite map. *)

From stdpp Require Import base list gmap strings.
From Stdlib Require Import ZArith Lia.
From S2P Require Import Prelude Hash.
#[local] Open Scope Z_scope.
#[local] Open Scope result_scope.

Record TableSlot := mkTSlot { start_plus_one : Z; fingerprint : Z }.

Definition empty_slot : TableSlot := mkTSlot 0 0.

Record WindowTable := mkTable {
  table_ : gmap Z TableSlot;
  table_mask_ : Z;
  table_used_ : Z;
}.

Definition tslot (T : WindowTable) (i : Z) : TableSlot := default empty_slot (table_ T !! i).

Definition set_tslot (T : WindowTable) (i : Z) (s : TableSlot) (used : Z) : WindowTable :=
  {| table_ := <[i := s]> (table_ T); table_mask_ := table_mask_ T; table_used_ := used |}.

(** A value-initialized table of [size] slots. *)
Definition new_table (size : Z) : WindowTable :=
  {| table_ := ∅; table_mask_ := (size ⊟ 1)%u64; table_used_ := 0 |}.

Definition no_end : string := "the probe loop does not end".

Definition home_slot_ (T : WindowTable) (f : Z) : Z := Z.land (fmix64 f) (table_mask_ T).

Definition next_slot (T : WindowTable) (i : Z) : Z := Z.land (i ⊞ 1)%u64 (table_mask_ T).

Definition probe_fuel (T : WindowTable) : nat := Z.to_nat (table_mask_ T + 1).

(** The first slot from [index] on that is empty or holds [f]: the while loops
    of table_exchange_ and table_remove_newest_. *)
Fixpoint probe (fuel : nat) (T : WindowTable) (f index : Z) : result Z :=
  match fuel with
  | O => Fatal no_end
  | S fuel =>
      if negb (start_plus_one (tslot T index) =? 0) && negb (fingerprint (tslot T index) =? f)
      then probe fuel T f (next_slot T index)
      else Ok index
  end.

Definition table_exchange_ (T : WindowTable) (f start : Z) : result (Z * WindowTable) :=
  let* index := probe (probe_fuel T) T f (home_slot_ T f) in
  let s := mkTSlot (start ⊞ 1)%u64 f in
  if start_plus_one (tslot T index) =? 0
  then Ok (0, set_tslot T index s (table_used_ T ⊞ 1)%u64)
  else Ok (start_plus_one (tslot T index), set_tslot T index s (table_used_ T)).

(** The loop of table_remove_newest_ that moves slots back. *)
Fixpoint shift_back (fuel : nat) (T : WindowTable) (hole next : Z) : result (Z * WindowTable) :=
  match fuel with
  | O => Fatal no_end
  | S fuel =>
      let next := next_slot T next in
      if start_plus_one (tslot T next) =? 0 then Ok (hole, T)
      else
        let home := home_slot_ T (fingerprint (tslot T next)) in
        if Z.land ((home ⊟ hole) ⊟ 1)%u64 (table_mask_ T) <? Z.land (next ⊟ hole)%u64 (table_mask_ T)
        then shift_back fuel T hole next
        else shift_back fuel (set_tslot T hole (tslot T next) (table_used_ T)) next next
  end.

Definition table_remove_newest_ (T : WindowTable) (f start : Z) : result WindowTable :=
  let* hole := probe (probe_fuel T) T f (home_slot_ T f) in
  if negb (start_plus_one (tslot T hole) =? (start ⊞ 1)%u64) then Ok T
  else
    let* '(hole, T) := shift_back (probe_fuel T) T hole hole in
    Ok (set_tslot T hole empty_slot (table_used_ T ⊟ 1)%u64).

(** ** Cyclic distance *)

(** The steps from slot [a] up to slot [b] in a table of [n] slots. *)
Definition cyc (n a b : Z) : Z := if a <=? b then b - a else b - a + n.

Lemma cyc_mod n a b : 0 <= a < n -> 0 <= b < n -> (b - a) mod n = cyc n a b.
Proof.
  intros Ha Hb. unfold cyc. destruct (Z.leb_spec a b).
  - apply Z.mod_small. lia.
  - rewrite <- (Z_mod_plus_full (b - a) 1). rewrite Z.mod_small; lia.
Qed.

(** Splits every cyclic distance. *)
Ltac cyc_lia :=
  unfold cyc in *;
  repeat match goal with
  | |- context [?a <=? ?b] => destruct (Z.leb_spec a b)
  | H : context [?a <=? ?b] |- _ => destruct (Z.leb_spec a b)
  end; lia.

(** ** The table refines a finite map *)

Definition tsize (T : WindowTable) : Z := table_mask_ T + 1.
Definition full (T : WindowTable) (i : Z) : Prop := start_plus_one (tslot T i) <> 0.
Definition in_table (T : WindowTable) (i : Z) : Prop := 0 <= i < tsize T.

(** The slots that a probe for [f] visits before slot [i]. *)
Definition run_full (T : WindowTable) (f i : Z) : Prop :=
  forall x, in_table T x -> cyc (tsize T) (home_slot_ T f) x < cyc (tsize T) (home_slot_ T f) i -> full T x.

Record tab_ok (T : WindowTable) (M : gmap Z Z) : Prop := {
  to_pow : exists k, 0 <= k < 64 /\ tsize T = 2 ^ k;
  to_slot i : in_table T i -> full T i ->
    M !! fingerprint (tslot T i) = Some (start_plus_one (tslot T i) - 1);
  to_find f s : M !! f = Some s ->
    exists i, in_table T i /\ tslot T i = mkTSlot (s + 1) f /\ run_full T f i;
  to_start f s : M !! f = Some s -> 0 <= s < 2 ^ 64 - 1;
  to_inj i j : in_table T i -> in_table T j -> full T i -> full T j ->
    fingerprint (tslot T i) = fingerprint (tslot T j) -> i = j;
}.

Definition has_room (T : WindowTable) : Prop := exists e, in_table T e /\ ~ full T e.

Section Geometry.
Context (T : WindowTable) (Hpow : exists k, 0 <= k < 64 /\ tsize T = 2 ^ k).
#[local] Set Default Proof Using "Hpow".

Lemma tsize_bounds : 0 < tsize T <= 2 ^ 63.
Proof.
  destruct Hpow as (k & Hk & ->). split; [apply Z.pow_pos_nonneg; lia|].
  apply Z.pow_le_mono_r; lia.
Qed.

Lemma land_table_mask x : Z.land x (table_mask_ T) = x mod tsize T.
Proof.
  destruct Hpow as (k & Hk & E). replace (table_mask_ T) with (2 ^ k - 1) by (unfold tsize in E; lia).
  rewrite E. apply land_mask_mod. lia.
Qed.

Lemma u64_mod_tsize x : u64 x mod tsize T = x mod tsize T.
Proof.
  destruct Hpow as (k & Hk & ->). unfold wrap. apply Z.mod_mod_divide.
  exists (2 ^ (64 - k)). rewrite <- Z.pow_add_r by lia. f_equal. lia.
Qed.

Lemma home_in_table f : in_table T (home_slot_ T f).
Proof.
  unfold home_slot_, in_table. rewrite land_table_mask. apply Z.mod_pos_bound, tsize_bounds.
Qed.

Lemma next_slot_eq i : in_table T i -> next_slot T i = if i + 1 =? tsize T then 0 else i + 1.
Proof.
  unfold in_table. intros Hi. unfold next_slot. rewrite land_table_mask, u64_mod_tsize.
  destruct (Z.eqb_spec (i + 1) (tsize T)) as [->|].
  - apply Z_mod_same_full.
  - apply Z.mod_small. lia.
Qed.

Lemma land_sub_cyc a b : in_table T a -> in_table T b ->
  Z.land (b ⊟ a)%u64 (table_mask_ T) = cyc (tsize T) a b.
Proof. intros Ha Hb. rewrite land_table_mask, u64_mod_tsize. by apply cyc_mod. Qed.
End Geometry.

Lemma not_full T i : ~ full T i -> start_plus_one (tslot T i) = 0.
Proof. unfold full. destruct (Z.eq_dec (start_plus_one (tslot T i)) 0); tauto. Qed.

(** A probe ends at the first slot that is empty or holds the fingerprint. *)
Lemma probe_spec T f e fuel index :
  (exists k, 0 <= k < 64 /\ tsize T = 2 ^ k) -> in_table T e -> ~ full T e -> in_table T index ->
  cyc (tsize T) index e < Z.of_nat fuel ->
  exists i, probe fuel T f index = Ok i /\ in_table T i /\ (full T i -> fingerprint (tslot T i) = f) /\
    forall x, in_table T x -> cyc (tsize T) index x < cyc (tsize T) index i ->
      full T x /\ fingerprint (tslot T x) <> f.
Proof.
  intros Hp He Hne. revert index. induction fuel as [|fuel IH]; intros index Hi Hf; simpl.
  { unfold in_table in *. cyc_lia. }
  destruct (Z.eqb_spec (start_plus_one (tslot T index)) 0) as [E|E]; simpl.
  { exists index. split_and!; auto; [by unfold full; rewrite E|].
    intros x Hx. unfold in_table in *. cyc_lia. }
  destruct (Z.eqb_spec (fingerprint (tslot T index)) f) as [Ef|Ef]; simpl.
  { exists index. split_and!; auto. intros x Hx. unfold in_table in *. cyc_lia. }
  assert (Hd : index <> e) by (intros ->; by apply Hne).
  rewrite next_slot_eq by done.
  set (n := if index + 1 =? tsize T then 0 else index + 1).
  assert (Hn : in_table T n /\ (n = index + 1 \/ (index + 1 = tsize T /\ n = 0))).
  { unfold in_table in *. subst n. destruct (Z.eqb_spec (index + 1) (tsize T)); lia. }
  clearbody n. destruct Hn as [Hn Hn'].
  destruct (IH n Hn) as (i & Hpr & Hii & Hif & Hall).
  { unfold in_table in *. cyc_lia. }
  exists i. split_and!; auto. intros x Hx Hlt.
  destruct (Z.eq_dec x index) as [->|Hxi]; [done|].
  apply Hall; [done|]. unfold in_table in *. cyc_lia.
Qed.

Lemma tslot_set T i s u j : tslot (set_tslot T i s u) j = if bool_decide (j = i) then s else tslot T j.
Proof.
  unfold tslot, set_tslot. simpl. case_bool_decide as E; [subst; by rewrite lookup_insert_eq|].
  by rewrite lookup_insert_ne.
Qed.

Lemma tslot_set_eq T i s u : tslot (set_tslot T i s u) i = s.
Proof. rewrite tslot_set. by rewrite bool_decide_eq_true_2. Qed.

Lemma tslot_set_ne T i s u j : j <> i -> tslot (set_tslot T i s u) j = tslot T j.
Proof. intros. rewrite tslot_set. by rewrite bool_decide_eq_false_2. Qed.

Lemma probe_room T f :
  (exists k, 0 <= k < 64 /\ tsize T = 2 ^ k) -> has_room T ->
  exists i, probe (probe_fuel T) T f (home_slot_ T f) = Ok i /\ in_table T i /\
    (full T i -> fingerprint (tslot T i) = f) /\
    forall x, in_table T x -> cyc (tsize T) (home_slot_ T f) x < cyc (tsize T) (home_slot_ T f) i ->
      full T x /\ fingerprint (tslot T x) <> f.
Proof.
  intros Hp (e & He & Hne). pose proof (home_in_table T Hp f) as Hh. apply (probe_spec T f e); auto.
  unfold probe_fuel. unfold in_table, tsize in *. cyc_lia.
Qed.

(** The probe for a fingerprint of the map ends at its slot. *)
Lemma probe_finds T M f i :
  tab_ok T M -> in_table T i ->
  (forall x, in_table T x -> cyc (tsize T) (home_slot_ T f) x < cyc (tsize T) (home_slot_ T f) i ->
      full T x /\ fingerprint (tslot T x) <> f) ->
  ~ full T i -> M !! f = None.
Proof.
  intros HT Hi Hall Hnf. destruct (M !! f) as [s|] eqn:E; [|done]. exfalso.
  destruct (to_find _ _ HT _ _ E) as (j & Hj & Hs & Hrun). pose proof (to_start _ _ HT _ _ E).
  assert (Hjf : full T j) by (unfold full; rewrite Hs; simpl; lia).
  pose proof (home_in_table T (to_pow _ _ HT) f) as Hh.
  destruct (Z_lt_le_dec (cyc (tsize T) (home_slot_ T f) j) (cyc (tsize T) (home_slot_ T f) i)) as [Hlt|Hge].
  - destruct (Hall j Hj Hlt) as [_ Hne]. by rewrite Hs in Hne.
  - destruct (Z.eq_dec i j) as [->|Hij]; [done|]. apply Hnf, Hrun; [done|].
    unfold in_table in *. cyc_lia.
Qed.

Lemma run_full_mono T T' f i :
  table_mask_ T' = table_mask_ T -> (forall x, in_table T x -> full T x -> full T' x) ->
  run_full T f i -> run_full T' f i.
Proof.
  intros Hm Hmono Hr x Hx Hlt. unfold run_full, in_table, tsize, home_slot_ in *. rewrite Hm in *. auto.
Qed.

(** The slot that the probe for [f] stops at takes a new start of [f]. *)
Lemma tab_ok_put T M f s i u :
  tab_ok T M -> in_table T i -> 0 <= s < 2 ^ 64 - 1 -> (full T i -> fingerprint (tslot T i) = f) ->
  run_full T f i -> (~ full T i -> M !! f = None) ->
  tab_ok (set_tslot T i (mkTSlot (s + 1) f) u) (<[f := s]> M).
Proof.
  intros HT Hi Hs Hfp Hrun Hnone. set (T' := set_tslot T i (mkTSlot (s + 1) f) u).
  assert (Hm : table_mask_ T' = table_mask_ T) by done.
  assert (Hfi : full T' i) by (unfold full, T'; rewrite tslot_set_eq; simpl; lia).
  assert (Hmono : forall x, in_table T x -> full T x -> full T' x).
  { intros x Hx Hxf. destruct (Z.eq_dec x i) as [->|]; [done|]. unfold full, T'. by rewrite tslot_set_ne. }
  assert (Hother : forall j, in_table T j -> j <> i -> full T j -> fingerprint (tslot T j) <> f).
  { intros j Hj Hji Hjf E. destruct (Z.eq_dec (start_plus_one (tslot T i)) 0) as [Ez|Ez].
    - pose proof (to_slot _ _ HT j Hj Hjf) as HM. rewrite E in HM.
      rewrite Hnone in HM; [done|]. unfold full. tauto.
    - apply Hji, (to_inj _ _ HT); auto. rewrite E. symmetry. by apply Hfp. }
  split.
  - apply (to_pow _ _ HT).
  - intros j Hj Hjf. destruct (Z.eq_dec j i) as [->|Hji].
    + unfold T'. rewrite tslot_set_eq. simpl. rewrite lookup_insert_eq. f_equal. lia.
    + unfold full, T' in *. rewrite tslot_set_ne in * by done.
      rewrite lookup_insert_ne by (intros E; by apply (Hother j Hj Hji Hjf)). by apply (to_slot _ _ HT).
  - intros g t Hg. destruct (Z.eq_dec g f) as [->|Hgf].
    + rewrite lookup_insert_eq in Hg. simplify_eq. exists i. unfold T'. rewrite tslot_set_eq.
      split_and!; auto. by apply (run_full_mono T).
    + rewrite lookup_insert_ne in Hg by done.
      destruct (to_find _ _ HT _ _ Hg) as (j & Hj & Hsj & Hrj). exists j.
      pose proof (to_start _ _ HT _ _ Hg).
      assert (Hji : j <> i).
      { intros ->. apply Hgf. rewrite Hsj in Hfp. simpl in Hfp. apply Hfp. unfold full. rewrite Hsj. simpl. lia. }
      unfold T'. rewrite tslot_set_ne by done. split_and!; auto. by apply (run_full_mono T).
  - intros g t Hg. destruct (Z.eq_dec g f) as [->|Hgf].
    + rewrite lookup_insert_eq in Hg. by simplify_eq.
    + rewrite lookup_insert_ne in Hg by done. by apply (to_start _ _ HT g).
  - intros a b Ha Hb. unfold full, T'.
    destruct (Z.eq_dec a i) as [->|Hai], (Z.eq_dec b i) as [->|Hbi];
      rewrite ?tslot_set_eq, ?(tslot_set_ne T i _ u a), ?(tslot_set_ne T i _ u b) by done; simpl; auto.
    + intros _ Hf E. exfalso. by apply (Hother b).
    + intros Hf _ E. exfalso. by apply (Hother a).
    + intros Haf Hbf E. by apply (to_inj _ _ HT).
Qed.

Lemma table_exchange_ok T M f s :
  tab_ok T M -> has_room T -> 0 <= s < 2 ^ 64 - 1 ->
  exists T', table_exchange_ T f s = Ok (from_option (fun t => t + 1) 0 (M !! f), T') /\
    tab_ok T' (<[f := s]> M) /\ table_mask_ T' = table_mask_ T.
Proof.
  intros HT Hroom Hs. destruct (probe_room T f (to_pow _ _ HT) Hroom) as (i & Hpr & Hi & Hfp & Hall).
  unfold table_exchange_. rewrite Hpr. cbn [rbind].
  rewrite wrap_small by lia.
  assert (Hrun : run_full T f i) by (intros x Hx Hlt; by apply Hall).
  pose proof (probe_finds T M f i HT Hi Hall) as Hnone.
  destruct (Z.eqb_spec (start_plus_one (tslot T i)) 0) as [E|E].
  - assert (Hnf : ~ full T i) by (unfold full; tauto).
    eexists. split; [by rewrite (Hnone Hnf)|]. split; [by apply tab_ok_put|done].
  - eexists. split; [|split; [by apply tab_ok_put|done]].
    pose proof (to_slot _ _ HT i Hi E) as HM. rewrite Hfp in HM by done. rewrite HM. simpl.
    do 2 f_equal. lia.
Qed.

(** ** Removal *)

(** The table in the middle of a removal: slot [hole] is still full, and the
    other slots are those of the map. *)
Record hole_ok (T : WindowTable) (M : gmap Z Z) (hole : Z) : Prop := {
  ho_pow : exists k, 0 <= k < 64 /\ tsize T = 2 ^ k;
  ho_in : in_table T hole;
  ho_full : full T hole;
  ho_slot i : in_table T i -> i <> hole -> full T i ->
    M !! fingerprint (tslot T i) = Some (start_plus_one (tslot T i) - 1);
  ho_find f s : M !! f = Some s ->
    exists i, in_table T i /\ i <> hole /\ tslot T i = mkTSlot (s + 1) f /\ run_full T f i;
  ho_start f s : M !! f = Some s -> 0 <= s < 2 ^ 64 - 1;
  ho_inj i j : in_table T i -> in_table T j -> i <> hole -> j <> hole -> full T i -> full T j ->
    fingerprint (tslot T i) = fingerprint (tslot T j) -> i = j;
}.

(** The slots after the hole up to [next] cannot move back into it. *)
Definition scanned (T : WindowTable) (hole next : Z) : Prop :=
  forall x, in_table T x -> x <> hole -> cyc (tsize T) hole x <= cyc (tsize T) hole next ->
    full T x /\ 1 <= cyc (tsize T) hole (home_slot_ T (fingerprint (tslot T x))) <= cyc (tsize T) hole x.

(** At the end of the run the hole can be emptied. *)
Lemma hole_close T M hole next next' u :
  hole_ok T M hole -> in_table T next -> in_table T next' -> scanned T hole next -> ~ full T next' ->
  (next' = next + 1 \/ (next + 1 = tsize T /\ next' = 0)) ->
  tab_ok (set_tslot T hole empty_slot u) M.
Proof.
  intros HT Hn Hn' Hsc He Hstep.
  set (T' := set_tslot T hole empty_slot u).
  assert (Hh : ~ full T' hole) by (unfold full, T'; rewrite tslot_set_eq; simpl; lia).
  assert (Hkeep : forall x, x <> hole -> tslot T' x = tslot T x) by (intros; by apply tslot_set_ne).
  assert (Hne : hole <> next') by (intros ->; apply He, HT).
  split.
  - apply (ho_pow _ _ _ HT).
  - intros i Hi Hf. destruct (Z.eq_dec i hole) as [->|Hih]; [done|].
    unfold full in Hf. rewrite Hkeep in * by done. by apply (ho_slot _ _ _ HT).
  - intros g s Hg. destruct (ho_find _ _ _ HT _ _ Hg) as (i & Hi & Hih & Hs & Hrun).
    pose proof (ho_start _ _ _ HT _ _ Hg) as Hs0.
    exists i. rewrite Hkeep by done. split_and!; auto. intros x Hx Hlt.
    change (tsize T') with (tsize T) in Hlt. change (home_slot_ T' g) with (home_slot_ T g) in Hlt.
    change (in_table T' x) with (in_table T x) in Hx.
    destruct (Z.eq_dec x hole) as [->|Hxh]; [|unfold full; rewrite Hkeep by done; by apply Hrun].
    exfalso. pose proof (home_in_table T (ho_pow _ _ _ HT) g) as Hhome.
    assert (Hif : full T i) by (unfold full; rewrite Hs; simpl; lia).
    assert (Hin : i <> next') by (intros ->; done).
    assert (Hcut : ~ cyc (tsize T) (home_slot_ T g) next' < cyc (tsize T) (home_slot_ T g) i)
      by (intros ?; by apply He, Hrun).
    assert (Hle : cyc (tsize T) hole i <= cyc (tsize T) hole next).
    { unfold in_table in *. clear - Hlt Hcut Hin Hih Hne Hstep Hi Hx Hn Hn' Hhome.
      remember (home_slot_ T g) as h. remember (tsize T) as n. cyc_lia. }
    destruct (Hsc i Hi Hih Hle) as [_ Hhm]. rewrite Hs in Hhm. simpl in Hhm.
    unfold in_table in *. clear - Hlt Hhm Hi Hx Hhome Hih.
    remember (home_slot_ T g) as h. remember (tsize T) as n. cyc_lia.
  - apply (ho_start _ _ _ HT).
  - intros i j Hi Hj Hif Hjf. destruct (Z.eq_dec i hole) as [->|Hih]; [done|].
    destruct (Z.eq_dec j hole) as [->|Hjh]; [done|].
    unfold full in *. rewrite !Hkeep in * by done. by apply (ho_inj _ _ _ HT).
Qed.

(** A slot whose home is not after the hole moves into it. *)
Lemma hole_move T M hole next u :
  hole_ok T M hole -> in_table T next -> next <> hole -> full T next ->
  ~ 1 <= cyc (tsize T) hole (home_slot_ T (fingerprint (tslot T next))) <= cyc (tsize T) hole next ->
  hole_ok (set_tslot T hole (tslot T next) u) M next.
Proof.
  intros HT Hn Hne Hf Hhome. set (T' := set_tslot T hole (tslot T next) u).
  assert (Hh : tslot T' hole = tslot T next) by apply tslot_set_eq.
  assert (Hkeep : forall x, x <> hole -> tslot T' x = tslot T x) by (intros; by apply tslot_set_ne).
  assert (Hmono : forall x, in_table T x -> full T x -> full T' x).
  { intros x Hx Hxf. unfold full. destruct (Z.eq_dec x hole) as [->|]; [by rewrite Hh|by rewrite Hkeep]. }
  split; auto.
  - apply (ho_pow _ _ _ HT).
  - intros i Hi Hin Hif. unfold full in Hif. destruct (Z.eq_dec i hole) as [->|Hih].
    + rewrite Hh in *. by apply (ho_slot _ _ _ HT).
    + rewrite Hkeep in * by done. by apply (ho_slot _ _ _ HT).
  - intros g s Hg. destruct (ho_find _ _ _ HT _ _ Hg) as (i & Hi & Hih & Hs & Hrun).
    destruct (Z.eq_dec i next) as [->|Hin].
    + exists hole. rewrite Hh. split_and!; auto; [apply HT|]. intros x Hx Hlt.
      apply Hmono; [done|]. apply Hrun; [done|]. rewrite Hs in Hhome. simpl in Hhome.
      pose proof (home_in_table T (ho_pow _ _ _ HT) g) as Hhg. pose proof (ho_in _ _ _ HT) as Hhi.
      unfold in_table in *. change (tsize T') with (tsize T) in *.
      change (home_slot_ T' g) with (home_slot_ T g) in *. clear - Hlt Hhome Hx Hhg Hhi Hn Hne.
      remember (home_slot_ T g) as h. remember (tsize T) as n. cyc_lia.
    + exists i. rewrite Hkeep by done. split_and!; auto. by apply (run_full_mono T).
  - apply (ho_start _ _ _ HT).
  - intros i j Hi Hj Hin Hjn. unfold full.
    destruct (Z.eq_dec i hole) as [->|Hih], (Z.eq_dec j hole) as [->|Hjh];
      rewrite ?Hh, ?(Hkeep i), ?(Hkeep j) by done; intros Hif Hjf E; auto.
    + destruct Hjn. symmetry. by apply (ho_inj _ _ _ HT).
    + destruct Hin. by apply (ho_inj _ _ _ HT).
    + by apply (ho_inj _ _ _ HT).
Qed.

Lemma home_test T hole next g :
  (exists k, 0 <= k < 64 /\ tsize T = 2 ^ k) -> in_table T hole -> in_table T next -> next <> hole ->
  (Z.land ((home_slot_ T g ⊟ hole) ⊟ 1)%u64 (table_mask_ T) <? Z.land (next ⊟ hole)%u64 (table_mask_ T)) = true
  <-> 1 <= cyc (tsize T) hole (home_slot_ T g) <= cyc (tsize T) hole next.
Proof.
  intros Hp Hh Hn Hne. rewrite Z.ltb_lt, (land_sub_cyc T Hp hole next) by done.
  pose proof (home_in_table T Hp g) as Hg.
  rewrite land_table_mask, u64_mod_tsize by done.
  rewrite <- (Zminus_mod_idemp_l (u64 _)), u64_mod_tsize by done.
  rewrite (cyc_mod (tsize T) hole) by done. unfold in_table in *.
  destruct (Z.eq_dec (cyc (tsize T) hole (home_slot_ T g)) 0) as [E|E].
  - rewrite E. rewrite <- (Z_mod_plus_full (0 - 1) 1), Z.mod_small by lia. cyc_lia.
  - rewrite Z.mod_small by cyc_lia. cyc_lia.
Qed.

Lemma shift_back_ok M e fuel : forall T hole next,
  hole_ok T M hole -> in_table T next -> scanned T hole next -> in_table T e -> ~ full T e ->
  cyc (tsize T) next e <= Z.of_nat fuel ->
  exists hole' T', shift_back fuel T hole next = Ok (hole', T') /\ table_mask_ T' = table_mask_ T /\
    forall u, tab_ok (set_tslot T' hole' empty_slot u) M.
Proof.
  induction fuel as [|fuel IH]; intros T hole next HT Hn Hsc He Hne Hf.
  { exfalso. assert (next = e) as -> by (unfold in_table in *; cyc_lia).
    destruct (Z.eq_dec e hole) as [->|Heh]; [by apply Hne, HT|]. apply Hne, (Hsc e); auto; lia. }
  pose proof (ho_pow _ _ _ HT) as Hp. pose proof (ho_in _ _ _ HT) as Hh.
  assert (Hnn : next <> e).
  { intros ->. destruct (Z.eq_dec e hole) as [->|Heh]; [by apply Hne, HT|]. apply Hne, (Hsc e); auto; lia. }
  assert (Heh : e <> hole) by (intros ->; by apply Hne, HT).
  assert (Hend : cyc (tsize T) hole next < cyc (tsize T) hole e).
  { destruct (Z_lt_le_dec (cyc (tsize T) hole next) (cyc (tsize T) hole e)); [done|].
    exfalso. apply Hne, (Hsc e); auto; lia. }
  simpl. rewrite next_slot_eq by done. set (n := if next + 1 =? tsize T then 0 else next + 1).
  assert (Hstep : in_table T n /\ (n = next + 1 \/ (next + 1 = tsize T /\ n = 0))).
  { unfold in_table in *. subst n. destruct (Z.eqb_spec (next + 1) (tsize T)); lia. }
  clearbody n. destruct Hstep as [Hn' Hstep].
  destruct (Z.eqb_spec (start_plus_one (tslot T n)) 0) as [E|E].
  { exists hole, T. split_and!; auto. intros u. apply (hole_close T M hole next n u); auto. }
  assert (Hnh : n <> hole) by (unfold in_table in *; cyc_lia).
  destruct (Z.land _ _ <? Z.land _ _) eqn:Et.
  - apply home_test in Et; auto. apply IH; auto; [|unfold in_table in *; cyc_lia].
    intros x Hx Hxh Hle. destruct (Z.eq_dec x n) as [->|Hxn]; [done|].
    apply Hsc; auto. unfold in_table in *. cyc_lia.
  - assert (Hhm : ~ 1 <= cyc (tsize T) hole (home_slot_ T (fingerprint (tslot T n))) <= cyc (tsize T) hole n).
    { intros Hc. apply home_test in Hc; auto. congruence. }
    apply (IH (set_tslot T hole (tslot T n) (table_used_ T))); [by apply hole_move|done| |done| |].
    + intros x Hx Hxn Hle. change (tsize (set_tslot T hole (tslot T n) (table_used_ T))) with (tsize T) in *.
      unfold in_table in *. cyc_lia.
    + unfold full. by rewrite tslot_set_ne.
    + change (tsize (set_tslot T hole (tslot T n) (table_used_ T))) with (tsize T).
      unfold in_table in *. cyc_lia.
Qed.

Lemma table_remove_newest_ok T M f s :
  tab_ok T M -> has_room T -> 0 <= s < 2 ^ 64 - 1 ->
  exists T', table_remove_newest_ T f s = Ok T' /\ table_mask_ T' = table_mask_ T /\
    tab_ok T' (if decide (M !! f = Some s) then delete f M else M).
Proof.
  intros HT Hroom Hs. destruct (probe_room T f (to_pow _ _ HT) Hroom) as (i & Hpr & Hi & Hfp & Hall).
  pose proof (probe_finds T M f i HT Hi Hall) as Hnone.
  unfold table_remove_newest_. rewrite Hpr. cbn [rbind]. rewrite wrap_small by lia.
  destruct (Z.eqb_spec (start_plus_one (tslot T i)) (s + 1)) as [E|E]; cbn [negb].
  - assert (Hf : full T i) by (unfold full; lia).
    pose proof (to_slot _ _ HT i Hi Hf) as HM. rewrite Hfp, E in HM by done.
    replace (s + 1 - 1) with s in HM by lia.
    rewrite decide_True by done. destruct Hroom as (e & He & Hne).
    destruct (shift_back_ok (delete f M) e (probe_fuel T) T i i) as (h & T' & Hsb & Hm & Hok); auto.
    + split; auto; [apply (to_pow _ _ HT)|..].
      * intros j Hj Hji Hjf. rewrite lookup_delete_ne; [by apply (to_slot _ _ HT)|].
        intros Ej. apply Hji, (to_inj _ _ HT); auto. rewrite <- Ej. symmetry. auto.
      * intros g t [Hgf Hg]%lookup_delete_Some. destruct (to_find _ _ HT _ _ Hg) as (j & Hj & Hsj & Hr).
        exists j. split_and!; auto. intros ->. apply Hgf. rewrite <- (Hfp Hf). by rewrite Hsj.
      * intros g t [Hgf Hg]%lookup_delete_Some. by apply (to_start _ _ HT g).
      * intros a b Ha Hb _ _. by apply (to_inj _ _ HT).
    + intros x Hx Hxi Hle. unfold in_table in *. cyc_lia.
    + unfold probe_fuel, in_table, tsize in *. cyc_lia.
    + rewrite Hsb. cbn [rbind]. eexists. split; [done|]. split; [done|apply Hok].
  - exists T. split_and!; auto. rewrite decide_False; [done|]. intros HM. apply E.
    destruct (Z.eq_dec (start_plus_one (tslot T i)) 0) as [Ez|Ez].
    + rewrite Hnone in HM; [done|]. unfold full. tauto.
    + pose proof (to_slot _ _ HT i Hi Ez) as HM'. rewrite Hfp in HM' by done. rewrite HM in HM'.
      simplify_eq. lia.
Qed.

Lemma new_table_ok size k : size = 2 ^ k -> 0 <= k < 64 -> tab_ok (new_table size) ∅ /\ tsize (new_table size) = size.
Proof.
  intros -> Hk. pose proof (Z.pow_pos_nonneg 2 k ltac:(lia) ltac:(lia)).
  pose proof (Z.pow_lt_mono_r 2 k 64 ltac:(lia) ltac:(lia) ltac:(lia)).
  assert (E : tsize (new_table (2 ^ k)) = 2 ^ k).
  { unfold tsize, new_table. simpl. rewrite wrap_small; lia. }
  split; [|done]. split; [by exists k| | | |].
  - intros i _ Hf. by unfold full, tslot in Hf.
  - intros f s Hf. by rewrite lookup_empty in Hf.
  - intros f s Hf. by rewrite lookup_empty in Hf.
  - intros i j _ _ Hf. by unfold full, tslot in Hf.
Qed.

(** A table whose map has fewer windows than the table has slots has room. *)
Lemma tab_ok_room T M : tab_ok T M -> Z.of_nat (size M) < tsize T -> has_room T.
Proof.
  intros HT Hsz.
  destruct (decide (Exists (fun i => ~ full T i) (seqZ 0 (tsize T)))) as [H|H].
  { apply Exists_exists in H as (e & He & Hne). exists e. apply elem_of_seqZ in He. split; [|done].
    unfold in_table. lia. }
  exfalso. rewrite <- Forall_Exists_neg in H.
  set (fps := (fun i => fingerprint (tslot T i)) <$> seqZ 0 (tsize T)).
  assert (Hfull : forall i, in_table T i -> full T i).
  { intros i Hi. rewrite Forall_forall in H. apply dec_stable, H, elem_of_seqZ. unfold in_table in Hi. lia. }
  assert (Hnd : NoDup fps).
  { apply NoDup_fmap_2_strong; [|apply NoDup_seqZ]. intros a b Ha Hb. rewrite !elem_of_seqZ in *.
    apply (to_inj _ _ HT); try apply Hfull; unfold in_table; lia. }
  assert (Hsub : list_to_set fps ⊆ (dom M : gset Z)).
  { intros f. rewrite elem_of_list_to_set. unfold fps. rewrite list_elem_of_fmap.
    intros (i & -> & Hi%elem_of_seqZ). apply elem_of_dom. eexists.
    apply (to_slot _ _ HT); try apply Hfull; unfold in_table; lia. }
  apply subseteq_size in Hsub. rewrite size_dom, size_list_to_set in Hsub by done.
  unfold fps in Hsub. rewrite length_fmap, length_seqZ in Hsub. lia.
Qed.

(** ** The specification: a map from fingerprints to newest starts *)

Inductive table_op := TExchange (f s : Z) | TRemove (f s : Z).

(** One member of the table, with the link that an exchange returns. *)
Definition run_table_op (T : WindowTable) (o : table_op) : result (Z * WindowTable) :=
  match o with
  | TExchange f s => table_exchange_ T f s
  | TRemove f s => let* T := table_remove_newest_ T f s in Ok (0, T)
  end.

Definition spec_table_op (M : gmap Z Z) (o : table_op) : Z * gmap Z Z :=
  match o with
  | TExchange f s => (from_option (fun t => t + 1) 0 (M !! f), <[f := s]> M)
  | TRemove f s => (0, if decide (M !! f = Some s) then delete f M else M)
  end.

Fixpoint run_table (T : WindowTable) (os : list table_op) : result (list Z * WindowTable) :=
  match os with
  | [] => Ok ([], T)
  | o :: os =>
      let* '(link, T) := run_table_op T o in
      let* '(links, T) := run_table T os in
      Ok (link :: links, T)
  end.

Fixpoint spec_table (M : gmap Z Z) (os : list table_op) : list Z * gmap Z Z :=
  match os with
  | [] => ([], M)
  | o :: os => let '(link, M) := spec_table_op M o in
               let '(links, M) := spec_table M os in (link :: links, M)
  end.

Definition op_start (o : table_op) : Z := match o with TExchange _ s | TRemove _ s => s end.

(** No more than [n] fingerprints are ever in the map. *)
Definition fits (n : Z) (os : list table_op) : Prop :=
  forall k, Z.of_nat (size (spec_table ∅ (take k os)).2) < n.

Lemma run_table_op_ok T M o :
  tab_ok T M -> Z.of_nat (size M) < tsize T -> 0 <= op_start o < 2 ^ 64 - 1 ->
  exists T', run_table_op T o = Ok ((spec_table_op M o).1, T') /\ tab_ok T' (spec_table_op M o).2 /\
    tsize T' = tsize T.
Proof.
  intros HT Hsz Hs. pose proof (tab_ok_room _ _ HT Hsz) as Hroom. unfold tsize. destruct o as [f s|f s]; simpl in *.
  - destruct (table_exchange_ok T M f s HT Hroom Hs) as (T' & E & HT' & Hm). exists T'. by rewrite Hm.
  - destruct (table_remove_newest_ok T M f s HT Hroom Hs) as (T' & E & Hm & HT'). exists T'. by rewrite E, Hm.
Qed.

Lemma run_table_ok os : forall T M,
  tab_ok T M -> (forall k, Z.of_nat (size (spec_table M (take k os)).2) < tsize T) ->
  Forall (fun o => 0 <= op_start o < 2 ^ 64 - 1) os ->
  exists T', run_table T os = Ok ((spec_table M os).1, T') /\ tab_ok T' (spec_table M os).2.
Proof.
  induction os as [|o os IH]; intros T M HT Hsz Hst; simpl; [eauto|].
  apply Forall_cons in Hst as [Ho Hst].
  destruct (run_table_op_ok T M o HT (Hsz 0%nat) Ho) as (T1 & -> & HT1 & Hs1). simpl.
  destruct (spec_table_op M o) as [link M1] eqn:E. simpl in *.
  destruct (IH T1 M1 HT1) as (T2 & -> & HT2); [|done|].
  { intros k. rewrite Hs1. specialize (Hsz (S k)). simpl in Hsz. rewrite E in Hsz.
    by destruct (spec_table M1 (take k os)). }
  simpl. destruct (spec_table M1 os). eauto.
Qed.

(** The table refines a finite map.  While the windows that it holds are
    fewer than its slots, every probe ends, and each member gives the result
    of the map: an exchange returns the earlier start of its fingerprint, and
    a removal that moves slots back loses no other entry. *)
Theorem window_table_refines_map k os :
  0 <= k < 64 -> fits (2 ^ k) os -> Forall (fun o => 0 <= op_start o < 2 ^ 64 - 1) os ->
  exists T', run_table (new_table (2 ^ k)) os = Ok ((spec_table ∅ os).1, T') /\
    forall f s, (spec_table ∅ os).2 !! f = Some s <->
      exists i, in_table T' i /\ tslot T' i = mkTSlot (s + 1) f /\ 0 <= s.
Proof.
  intros Hk Hfit Hst. destruct (new_table_ok (2 ^ k) k eq_refl Hk) as [HT Hsz].
  destruct (run_table_ok os _ _ HT) as (T' & Hr & HT'); [by rewrite Hsz|done|].
  exists T'. split; [done|]. intros f s. split.
  - intros Hf. destruct (to_find _ _ HT' _ _ Hf) as (i & Hi & Hs & _).
    exists i. pose proof (to_start _ _ HT' _ _ Hf). split_and!; auto; lia.
  - intros (i & Hi & Hs & Hpos). pose proof (to_slot _ _ HT' i Hi) as HM. rewrite Hs in HM. simpl in HM.
    replace (s + 1 - 1) with s in HM by lia. apply HM. unfold full. rewrite Hs. simpl. lia.
Qed.

(** Four windows in eight slots, one of them removed and recorded again. *)
Definition wit_ops : list table_op :=
  [TExchange 1 0; TExchange 2 1; TExchange 3 2; TExchange 4 3; TExchange 1 4; TRemove 2 1; TExchange 2 5].

Lemma window_table_refines_map_witness :
  exists T, run_table (new_table (2 ^ 3)) wit_ops = Ok ([0; 0; 0; 0; 1; 0; 0], T).
Proof.
  destruct (window_table_refines_map 3 wit_ops) as (T & HT & _).
  - lia.
  - intros k. do 8 (destruct k as [|k]; [vm_compute; reflexivity|]). vm_compute. reflexivity.
  - repeat constructor; vm_compute; congruence.
  - exists T. exact HT.
Defined.

(** A full table that lacks the fingerprint makes the probe of an exchange run
    forever: no number of further steps ends it. *)
Lemma full_table_probe_never_ends T f index fuel :
  (exists k, 0 <= k < 64 /\ tsize T = 2 ^ k) -> in_table T index ->
  (forall i, in_table T i -> full T i /\ fingerprint (tslot T i) <> f) ->
  probe fuel T f index = Fatal no_end.
Proof.
  intros Hp Hi Hall. revert index Hi. induction fuel as [|fuel IH]; intros index Hi; [done|]. simpl.
  destruct (Hall index Hi) as [Hf Hne]. unfold full in Hf.
  rewrite (proj2 (Z.eqb_neq _ _) Hf), (proj2 (Z.eqb_neq _ _) Hne). simpl.
  apply IH. rewrite next_slot_eq by done. unfold in_table in *.
  destruct (Z.eqb_spec (index + 1) (tsize T)); lia.
Qed.
