(* ===== verification/Detector.v ===== *)
(** * Detector.v: the iteration detector
    (include/crucible/IterationDetector.h)

    The detector receives one key for each recorded op and reports where an
    iteration ends.  The history is a ring of keys with their prefix
    fingerprints; each window of K keys is linked to the newest earlier window
    of the same fingerprint through the window table.  A ring array is a finite
    map from slots to words with 0 as default, as the buffers are
    value-initialized and each index is masked.  The members of the class are
    grouped in records that change together. *)

From stdpp Require Import base list gmap strings.
From Stdlib Require Import ZArith Lia.
From S2P Require Import Prelude Hash WindowTable.
#[local] Open Scope Z_scope.
#[local] Open Scope result_scope.

Definition K : Z := 5.
Definition REFUTED_CAPACITY : Z := 32.
Definition HISTORY_MIN_CAPACITY : Z := Z.shiftl 1 12.
Definition HISTORY_MAX_CAPACITY : Z := Z.shiftl 1 19.
Definition MAX_PERIOD : Z := (HISTORY_MAX_CAPACITY - K - 1) / 2.
Definition MAX_CANDIDATES : Z := 256.
Definition BREAKS_TO_REFUTE : Z := 2.
Definition POLY_BASE : Z := 0x9E3779B97F4A7C15.
Definition SUM_SALT : Z := 0xD6E8FEB86659FD93.

(** ** The state *)

Record RefutedPeriod := mkRefuted {
  r_period : Z;
  r_body_sum : Z;
  r_breaks : Z;
  broke_since_restart : bool;
}.

Record Refuted := mkRef {
  refuted_ : list RefutedPeriod;
  refuted_count_ : Z;
  refuted_next_ : Z;
}.

Record Accepted := mkAcc {
  confirmed : bool;
  phase_is_unique : bool;
  period_ : Z;
  period_body_sum_ : Z;
  current_period_reported_ : bool;
  next_boundary_ : Z;
}.

Record Counters := mkCnt {
  signature_len : Z;
  ops_since_boundary : Z;
  boundaries_detected : Z;
  last_completed_len : Z;
  periods_reported_ : Z;
}.

Record History := mkHist {
  keys_ : gmap Z Z;
  prefix_polys_ : gmap Z Z;
  prefix_sums_ : gmap Z Z;
  earlier_links_ : gmap Z Z;
  history_mask_ : Z;
}.

Record IterationDetector := mkDet {
  acc : Accepted;
  cnt : Counters;
  ref : Refuted;
  pos_ : Z;
  base_ : Z;
  hist : History;
  tab : WindowTable;
}.

Definition no_refuted : RefutedPeriod := mkRefuted 0 0 0 false.
Definition empty_refuted : Refuted := mkRef (replicate (Z.to_nat REFUTED_CAPACITY) no_refuted) 0 0.
Definition no_period : Accepted := mkAcc false false 0 0 false 0.

Definition new_detector : IterationDetector :=
  mkDet no_period (mkCnt 0 0 0 0 0) empty_refuted 0 0 (mkHist ∅ ∅ ∅ ∅ 0) (mkTable ∅ 0 0).

Definition set_acc D a := mkDet a (cnt D) (ref D) (pos_ D) (base_ D) (hist D) (tab D).
Definition set_cnt D c := mkDet (acc D) c (ref D) (pos_ D) (base_ D) (hist D) (tab D).
Definition set_ref D r := mkDet (acc D) (cnt D) r (pos_ D) (base_ D) (hist D) (tab D).
Definition set_pos D p := mkDet (acc D) (cnt D) (ref D) p (base_ D) (hist D) (tab D).
Definition set_base D b := mkDet (acc D) (cnt D) (ref D) (pos_ D) b (hist D) (tab D).
Definition set_hist D h := mkDet (acc D) (cnt D) (ref D) (pos_ D) (base_ D) h (tab D).
Definition set_tab D t := mkDet (acc D) (cnt D) (ref D) (pos_ D) (base_ D) (hist D) t.

(** ** Fingerprints *)

(** The loop of power_of_base_; an exponent of 64 bits ends it in 64 rounds. *)
Fixpoint power_loop (fuel : nat) (res factor exponent : Z) : Z :=
  match fuel with
  | O => res
  | S fuel =>
      if exponent =? 0 then res
      else
        let res := if negb (Z.land exponent 1 =? 0) then (res ⊠ factor)%u64 else res in
        power_loop fuel res (factor ⊠ factor)%u64 (Z.shiftr exponent 1)
  end.

Definition power_of_base_ (exponent : Z) : Z := power_loop 64 1 POLY_BASE exponent.

Definition key_of_ (schema shape : Z) : Z := fmix64 (Z.lxor schema (fmix64 (shape ⊞ POLY_BASE)%u64)).

(** The slot of the op at [p], and the word of a ring array there. *)
Definition ring_slot (h : History) (p : Z) : Z := Z.land p (history_mask_ h).
Definition word (m : gmap Z Z) (slot : Z) : Z := default 0 (m !! slot).
Definition key_at (h : History) (p : Z) : Z := word (keys_ h) (ring_slot h p).
Definition link_at (h : History) (p : Z) : Z := word (earlier_links_ h) (ring_slot h p).

Definition set_link (h : History) (p link : Z) : History :=
  {| keys_ := keys_ h; prefix_polys_ := prefix_polys_ h; prefix_sums_ := prefix_sums_ h;
     earlier_links_ := <[ring_slot h p := link]> (earlier_links_ h); history_mask_ := history_mask_ h |}.

Definition prefix_poly_before_ (h : History) (index : Z) : Z :=
  if index =? 0 then 0 else word (prefix_polys_ h) (ring_slot h (index ⊟ 1)%u64).

Definition prefix_sum_before_ (h : History) (index : Z) : Z :=
  if index =? 0 then 0 else word (prefix_sums_ h) (ring_slot h (index ⊟ 1)%u64).

Definition window_fingerprint_ (h : History) (start : Z) : Z :=
  (prefix_poly_before_ h (start ⊞ K) ⊟ (prefix_poly_before_ h start ⊠ power_of_base_ K))%u64.

Definition window_sum_ (h : History) (b e : Z) : Z :=
  (prefix_sum_before_ h e ⊟ prefix_sum_before_ h b)%u64.

(** The compare loop of windows_equal_. *)
Fixpoint keys_equal (h : History) (left right : Z) (n : nat) : bool :=
  match n with
  | O => true
  | S n =>
      if negb (key_at h left =? key_at h right) then false
      else keys_equal h (left ⊞ 1)%u64 (right ⊞ 1)%u64 n
  end.

Definition windows_equal_ (h : History) (left right length : Z) : bool :=
  let power := power_of_base_ length in
  let left_poly := (prefix_poly_before_ h (left ⊞ length) ⊟ (prefix_poly_before_ h left ⊠ power))%u64 in
  let right_poly := (prefix_poly_before_ h (right ⊞ length) ⊟ (prefix_poly_before_ h right ⊠ power))%u64 in
  if negb (left_poly =? right_poly) then false else keys_equal h left right (Z.to_nat length).

Definition is_square_ (h : History) (start period : Z) : bool :=
  windows_equal_ h (start ⊟ (2 ⊠ period))%u64 (start ⊟ period)%u64 period.

(** ** The history *)

Definition held_from_ (D : IterationDetector) : Z :=
  if base_ D =? 0 then 0 else (base_ D ⊟ 1)%u64.

Definition history_capacity (D : IterationDetector) : Z :=
  if history_mask_ (hist D) =? 0 then 0 else (history_mask_ (hist D) ⊞ 1)%u64.

(** The loop of rebuild_table_ over [n] windows from [start]. *)
Fixpoint link_windows (n : nat) (start : Z) (h : History) (T : WindowTable) : result (History * WindowTable) :=
  match n with
  | O => Ok (h, T)
  | S n =>
      let* '(link, T) := table_exchange_ T (window_fingerprint_ h start) start in
      link_windows n (start ⊞ 1)%u64 (set_link h start link) T
  end.

Definition rebuild_table_ (D : IterationDetector) (size end_start : Z) : result IterationDetector :=
  let* '(h, T) := link_windows (Z.to_nat (end_start - base_ D)) (base_ D) (hist D) (new_table size) in
  Ok (set_tab (set_hist D h) T).

(** The loop of forget_before_ over [n] windows from [start]. *)
Fixpoint forget_windows (n : nat) (start pos : Z) (h : History) (T : WindowTable) : result WindowTable :=
  match n with
  | O => Ok T
  | S n =>
      let* T := if (start ⊞ K)%u64 <=? pos
                then table_remove_newest_ T (window_fingerprint_ h start) start else Ok T in
      forget_windows n (start ⊞ 1)%u64 pos h T
  end.

Definition forget_before_ (D : IterationDetector) (new_base : Z) : result IterationDetector :=
  let* T := if period_ (acc D) =? 0
            then forget_windows (Z.to_nat (new_base - base_ D)) (base_ D) (pos_ D) (hist D) (tab D)
            else Ok (tab D) in
  Ok (set_base (set_tab D T) new_base).

(** The copy loop of grow_history_ for one array. *)
Definition move_words (h : History) (m : gmap Z Z) (new_mask from to : Z) : gmap Z Z :=
  foldl (fun m' p => <[Z.land p new_mask := word m (ring_slot h p)]> m') ∅ (seqZ from (to - from)).

Definition grow_history_ (D : IterationDetector) (new_capacity : Z) : result IterationDetector :=
  let h := hist D in
  let new_mask := (new_capacity ⊟ 1)%u64 in
  let move m := move_words h m new_mask (held_from_ D) (pos_ D) in
  let D := set_hist D {| keys_ := move (keys_ h); prefix_polys_ := move (prefix_polys_ h);
                         prefix_sums_ := move (prefix_sums_ h); earlier_links_ := move (earlier_links_ h);
                         history_mask_ := new_mask |} in
  if period_ (acc D) =? 0
  then rebuild_table_ D (new_capacity ⊠ 2)%u64
         (if K <? (pos_ D ⊞ 1)%u64 then ((pos_ D ⊞ 1) ⊟ K)%u64 else 0)
  else Ok D.

Definition make_room_ (D : IterationDetector) : result IterationDetector :=
  if history_mask_ (hist D) =? 0 then grow_history_ D HISTORY_MIN_CAPACITY
  else
    let capacity := (history_mask_ (hist D) ⊞ 1)%u64 in
    if ((pos_ D ⊞ 1) ⊟ held_from_ D)%u64 <=? capacity then Ok D
    else if capacity <? HISTORY_MAX_CAPACITY then grow_history_ D (capacity ⊠ 2)%u64
    else forget_before_ D ((pos_ D ⊞ 2) ⊟ capacity)%u64.

Definition append_ (D : IterationDetector) (key : Z) : result IterationDetector :=
  let* D := make_room_ D in
  let h := hist D in
  let slot := ring_slot h (pos_ D) in
  let poly_before := prefix_poly_before_ h (pos_ D) in
  let sum_before := prefix_sum_before_ h (pos_ D) in
  Ok (set_hist D
    {| keys_ := <[slot := key]> (keys_ h);
       prefix_polys_ := <[slot := ((poly_before ⊠ POLY_BASE) ⊞ key)%u64]> (prefix_polys_ h);
       prefix_sums_ := <[slot := (sum_before ⊞ fmix64 (Z.lxor key SUM_SALT))%u64]> (prefix_sums_ h);
       earlier_links_ := <[slot := 0]> (earlier_links_ h);
       history_mask_ := history_mask_ h |}).

Definition link_window_ (D : IterationDetector) (start : Z) : result (Z * IterationDetector) :=
  let* '(link, T) := table_exchange_ (tab D) (window_fingerprint_ (hist D) start) start in
  Ok (link, set_tab (set_hist D (set_link (hist D) start link)) T).

(** ** Refuted periods *)

Definition same_period (period body_sum : Z) (r : RefutedPeriod) : bool :=
  (r_period r =? period) && (r_body_sum r =? body_sum).

(** The entries in use. *)
Definition refuted_used (R : Refuted) : list RefutedPeriod := take (Z.to_nat (refuted_count_ R)) (refuted_ R).

Definition is_refuted (R : Refuted) (period body_sum : Z) : bool :=
  match List.find (same_period period body_sum) (refuted_used R) with
  | Some r => BREAKS_TO_REFUTE <=? r_breaks r
  | None => false
  end.

(** The entry of the period gets more breaks; None when there is no entry. *)
Fixpoint add_breaks (period body_sum breaks : Z) (l : list RefutedPeriod) : option (list RefutedPeriod) :=
  match l with
  | [] => None
  | r :: l =>
      if same_period period body_sum r
      then Some (mkRefuted (r_period r) (r_body_sum r)
                   (Z.min BREAKS_TO_REFUTE (u32 (r_breaks r + breaks))) (broke_since_restart r) :: l)
      else cons r <$> add_breaks period body_sum breaks l
  end.

Definition break_ (R : Refuted) (period body_sum breaks : Z) : Refuted :=
  match add_breaks period body_sum breaks (refuted_used R) with
  | Some l => mkRef (l ++ drop (Z.to_nat (refuted_count_ R)) (refuted_ R)) (refuted_count_ R) (refuted_next_ R)
  | None =>
      mkRef (aset (refuted_ R) (refuted_next_ R)
               (mkRefuted period body_sum (Z.min BREAKS_TO_REFUTE breaks) false))
        (if refuted_count_ R <? REFUTED_CAPACITY then refuted_count_ R + 1 else refuted_count_ R)
        ((refuted_next_ R + 1) mod REFUTED_CAPACITY)
  end.

(** Applies [f] to the entries in use. *)
Definition map_used (f : RefutedPeriod -> RefutedPeriod) (R : Refuted) : Refuted :=
  mkRef ((f <$> refuted_used R) ++ drop (Z.to_nat (refuted_count_ R)) (refuted_ R))
    (refuted_count_ R) (refuted_next_ R).

Definition mark_broke_since_restart_ (R : Refuted) (period body_sum : Z) : Refuted :=
  map_used (fun r => if same_period period body_sum r
                     then mkRefuted (r_period r) (r_body_sum r) (r_breaks r) true else r) R.

(** ** Boundaries *)

Definition trim_ (D : IterationDetector) (new_base : Z) : result IterationDetector :=
  if new_base <=? base_ D then Ok D else forget_before_ D new_base.

Definition fire_ (D : IterationDetector) : result (bool * IterationDetector) :=
  let a := acc D in
  let c := cnt D in
  let reported := if current_period_reported_ a then periods_reported_ c else u32 (periods_reported_ c + 1) in
  let* bd := monotonic_bump (boundaries_detected c) in
  let boundary := next_boundary_ a in
  let D := set_cnt D (mkCnt (signature_len c) K bd (period_ a) reported) in
  let D := set_acc D (mkAcc (confirmed a) (phase_is_unique a) (period_ a) (period_body_sum_ a) true
                        (boundary ⊞ period_ a)%u64) in
  let* D := trim_ D (boundary ⊟ period_ a)%u64 in
  Ok (true, D).

(** The while loop of accept_ that counts the copies of a window. *)
Fixpoint count_copies (fuel : nat) (h : History) (link length window_start copies : Z) : result Z :=
  match fuel with
  | O => Fatal no_end
  | S fuel =>
      if negb (link =? 0) && (window_start <? ((link ⊟ 1) ⊞ length)%u64)
      then count_copies fuel h (link_at h (link ⊟ 1)%u64) length window_start (copies ⊞ 1)%u64
      else Ok copies
  end.

(** The loop of accept_ over [n] phases from [phase]. *)
Fixpoint best_phase_loop (n : nat) (h : History) (body_begin length phase best_phase best_count : Z)
    : result (Z * Z) :=
  match n with
  | O => Ok (best_phase, best_count)
  | S n =>
      let window_start := (body_begin ⊞ phase)%u64 in
      let link := link_at h window_start in
      if negb (link =? 0) && (body_begin <=? (link ⊟ 1)%u64)
      then best_phase_loop n h body_begin length (phase + 1) best_phase best_count
      else
        let* copies := count_copies (S (Z.to_nat length)) h link length window_start 1 in
        if copies <? best_count
        then best_phase_loop n h body_begin length (phase + 1) phase copies
        else best_phase_loop n h body_begin length (phase + 1) best_phase best_count
  end.

Definition accept_ (D : IterationDetector) (start length body_sum : Z) : result (bool * IterationDetector) :=
  let body_begin := (start ⊟ length)%u64 in
  let* '(best_phase, best_count) :=
    best_phase_loop (Z.to_nat length) (hist D) body_begin length 0 0 UINT64_MAX in
  let D := set_acc D (mkAcc true (best_count =? 1) length body_sum false (start ⊞ best_phase)%u64) in
  if best_phase =? 0 then fire_ D else Ok (false, D).

(** mint_refined<kPeriodBound> *)
Definition mint_period (length : Z) : result Z :=
  let* _ := require ((K <=? length) && (length <=? MAX_PERIOD)) "in_range<K, MAX_PERIOD>" in Ok length.

(** The loop of search_, with [tries] candidates left. *)
Fixpoint search_loop (tries : nat) (D : IterationDetector) (start link : Z) : result (bool * IterationDetector) :=
  match tries with
  | O => Ok (false, D)
  | S tries =>
      if link =? 0 then Ok (false, D)
      else
        let earlier := (link ⊟ 1)%u64 in
        if earlier <? base_ D then Ok (false, D)
        else
          let period := (start ⊟ earlier)%u64 in
          if (start ⊟ base_ D)%u64 <? (2 ⊠ period)%u64 then Ok (false, D)
          else
            let body_sum := window_sum_ (hist D) (start ⊟ period)%u64 start in
            if (K <=? period) && is_square_ (hist D) start period
               && negb (is_refuted (ref D) (u32 period) body_sum)
            then let* length := mint_period (u32 period) in accept_ D start length body_sum
            else search_loop tries D start (link_at (hist D) earlier)
  end.

Definition search_ (D : IterationDetector) (start earlier_link : Z) : result (bool * IterationDetector) :=
  search_loop (Z.to_nat MAX_CANDIDATES) D start earlier_link.

Definition verify_boundary_ (D : IterationDetector) : result (bool * IterationDetector) :=
  let a := acc D in
  let boundary := next_boundary_ a in
  if is_square_ (hist D) boundary (period_ a)
     && windows_equal_ (hist D) (boundary ⊟ period_ a)%u64 boundary K
  then fire_ D
  else
    let R := break_ (ref D) (period_ a) (period_body_sum_ a) 1 in
    let R := if current_period_reported_ a
             then mark_broke_since_restart_ R (period_ a) (period_body_sum_ a) else R in
    let D := set_ref D R in
    let D := set_acc D (mkAcc false false 0 (period_body_sum_ a) (current_period_reported_ a)
                          (next_boundary_ a)) in
    let* D := rebuild_table_ D ((history_mask_ (hist D) ⊞ 1) ⊠ 2)%u64 ((pos_ D ⊞ 1) ⊟ K)%u64 in
    Ok (false, D).

(** The bounded counter of the newest window. *)
Definition bump_signature (len : Z) : Z := if len <? K then len + 1 else len.

Definition check (D : IterationDetector) (schema_hash shape_hash : Z) : result (bool * IterationDetector) :=
  let* osb := monotonic_bump (ops_since_boundary (cnt D)) in
  let c := cnt D in
  let D := set_cnt D (mkCnt (signature_len c) osb (boundaries_detected c) (last_completed_len c)
                        (periods_reported_ c)) in
  let* D := append_ D (key_of_ schema_hash shape_hash) in
  let op_index := pos_ D in
  let D := set_pos D (pos_ D ⊞ 1)%u64 in
  let c := cnt D in
  let D := set_cnt D (mkCnt (bump_signature (signature_len c)) (ops_since_boundary c) (boundaries_detected c)
                        (last_completed_len c) (periods_reported_ c)) in
  if signature_len (cnt D) <? K then Ok (false, D)
  else if negb (period_ (acc D) =? 0) then
    if (op_index ⊞ 1)%u64 =? (next_boundary_ (acc D) ⊞ K)%u64 then verify_boundary_ D else Ok (false, D)
  else
    let start := ((op_index ⊞ 1) ⊟ K)%u64 in
    let* '(link, D) := link_window_ D start in
    search_ D start link.

Definition oldest_claimable (D : IterationDetector) : Z :=
  let newest_start := if K <? pos_ D then (pos_ D ⊟ K)%u64 else 0 in
  let search_floor :=
    if base_ D <? newest_start then (base_ D ⊞ ((newest_start ⊟ base_ D)%u64 / 2))%u64 else base_ D in
  if period_ (acc D) =? 0 then search_floor
  else
    let next_iteration := (next_boundary_ (acc D) ⊟ period_ (acc D))%u64 in
    if next_iteration <? search_floor then next_iteration else search_floor.

(** ** Restarts *)

Definition restart_ (D : IterationDetector) : result IterationDetector :=
  let D := mkDet no_period (mkCnt 0 0 0 0 0) (ref D) 0 0 (hist D) (tab D) in
  if negb (table_mask_ (tab D) =? 0) then rebuild_table_ D (table_mask_ (tab D) ⊞ 1)%u64 0 else Ok D.

Definition reset (D : IterationDetector) : result IterationDetector :=
  let* D := restart_ D in Ok (set_ref D empty_refuted).

Definition restart_after_divergence (D : IterationDetector) : result IterationDetector :=
  let a := acc D in
  let diverged_at_this_period :=
    negb (period_ a =? 0) && current_period_reported_ a && (periods_reported_ (cnt D) =? 1) in
  let R := if diverged_at_this_period && phase_is_unique a
           then break_ (ref D) (period_ a) (period_body_sum_ a) BREAKS_TO_REFUTE else ref D in
  let R := map_used (fun r => mkRefuted (r_period r) (r_body_sum r)
                                (if broke_since_restart r then BREAKS_TO_REFUTE else r_breaks r) false) R in
  restart_ (set_ref D R).
