(* ===== verification/DetectorHist.v ===== *)
(** * DetectorHist.v: the history ring and the window links of the detector

    The fingerprints are polynomials in the keys; the difference of two
    prefixes is the fingerprint of the keys between them.  While the ring holds
    the keys of the stream from its base on, a comparison of two windows is
    exact, a new key keeps the ring, and so does a larger ring.  The second
    part is the links between windows of one fingerprint. *)

From stdpp Require Import base list gmap strings.
From Stdlib Require Import ZArith Lia.
From S2P Require Import Prelude.
From S2P Require Import Hash.
From S2P Require Import WindowTable.
From S2P Require Import Detector.
#[local] Open Scope Z_scope.
#[local] Open Scope result_scope.

Implicit Types ks : list Z.

(** ** Polynomial fingerprints *)

Definition poly (ks : list Z) : Z := foldl (fun a k => ((a ⊠ POLY_BASE) ⊞ k)%u64) 0 ks.
Definition ksum (ks : list Z) : Z := foldl (fun a k => (a ⊞ fmix64 (Z.lxor k SUM_SALT))%u64) 0 ks.

Definition slice ks (a n : Z) : list Z := take (Z.to_nat n) (drop (Z.to_nat a) ks).
Definition prefix ks (n : Z) : list Z := take (Z.to_nat n) ks.
Definition key_of_stream ks (p : Z) : Z := aget 0 ks p.

Lemma power_loop_spec fuel res factor e :
  0 <= e < 2 ^ Z.of_nat fuel -> power_loop fuel (u64 res) (u64 factor) e = u64 (res * factor ^ e).
Proof.
  revert res factor e. induction fuel as [|fuel IH]; intros res factor e He.
  { assert (e = 0) as -> by lia. simpl. f_equal. lia. }
  assert (Hp : 2 ^ Z.of_nat (S fuel) = 2 * 2 ^ Z.of_nat fuel)
    by (rewrite Nat2Z.inj_succ, Z.pow_succ_r; lia).
  simpl. destruct (Z.eqb_spec e 0) as [->|Hne]; [f_equal; lia|].
  rewrite Z.shiftr_div_pow2 by lia. change (2 ^ 1) with 2.
  replace (Z.land e 1) with (e mod 2) by (symmetry; apply (Z.land_ones e 1); lia).
  assert (Hsq : (u64 factor ⊠ u64 factor)%u64 = u64 (factor * factor)).
  { unfold wrap. by rewrite <- Z.mul_mod by lia. }
  rewrite Hsq.
  assert (Hres : (if negb (e mod 2 =? 0) then (u64 res ⊠ u64 factor)%u64 else u64 res)
    = u64 (if negb (e mod 2 =? 0) then res * factor else res)).
  { destruct (negb _); [|done]. unfold wrap. by rewrite <- Z.mul_mod by lia. }
  rewrite Hres, IH by (split; [apply Z.div_pos; lia|apply Z.div_lt_upper_bound; lia]).
  f_equal. rewrite <- Z.pow_2_r, <- Z.pow_mul_r by (try apply Z.div_pos; lia).
  pose proof (Z.div_mod e 2 ltac:(lia)) as Hdm. pose proof (Z.mod_pos_bound e 2 ltac:(lia)).
  destruct (Z.eqb_spec (e mod 2) 0) as [E|E]; simpl.
  - rewrite E in Hdm. f_equal. f_equal. lia.
  - assert (E1 : e mod 2 = 1) by lia. rewrite E1 in Hdm. rewrite Hdm at 2.
    rewrite Z.pow_add_r, Z.pow_1_r by (try apply Z.mul_nonneg_nonneg; try apply Z.div_pos; lia). ring.
Qed.

Lemma power_of_base_spec e : 0 <= e < 2 ^ 64 -> power_of_base_ e = u64 (POLY_BASE ^ e).
Proof.
  intros He. unfold power_of_base_. change 1 with (u64 1). change POLY_BASE with (u64 POLY_BASE) at 1.
  rewrite power_loop_spec by done. f_equal. lia.
Qed.

Lemma poly_snoc ks k : poly (ks ++ [k]) = ((poly ks ⊠ POLY_BASE) ⊞ k)%u64.
Proof. unfold poly. by rewrite foldl_app. Qed.

Lemma poly_range ks : 0 <= poly ks < 2 ^ 64.
Proof. induction ks as [|k ks _] using rev_ind; [done|]. rewrite poly_snoc. apply u64_range. Qed.

Lemma ksum_snoc ks k : ksum (ks ++ [k]) = (ksum ks ⊞ fmix64 (Z.lxor k SUM_SALT))%u64.
Proof. unfold ksum. by rewrite foldl_app. Qed.

Lemma poly_app ks1 ks2 :
  poly (ks1 ++ ks2) = u64 (poly ks1 * POLY_BASE ^ Z.of_nat (length ks2) + poly ks2).
Proof.
  induction ks2 as [|k ks2 IH] using rev_ind.
  - rewrite app_nil_r. simpl. rewrite Z.mul_1_r, Z.add_0_r. symmetry. apply wrap_small, poly_range.
  - rewrite app_assoc, !poly_snoc, IH, length_app, Nat2Z.inj_add. simpl.
    rewrite Z.pow_add_r, Z.pow_1_r by lia. unfold wrap.
    rewrite Z.mul_mod_idemp_l, Z.add_mod_idemp_l by lia.
    rewrite (Z.add_mod_idemp_l (poly ks2 * POLY_BASE)) by lia.
    rewrite Z.add_mod_idemp_r by lia. f_equal. ring.
Qed.

(** The difference of two prefixes is the fingerprint of the keys between. *)
Lemma poly_slice ks a n :
  0 <= a -> 0 <= n < 2 ^ 64 -> a + n <= Z.of_nat (length ks) ->
  (poly (prefix ks (a + n)) ⊟ (poly (prefix ks a) ⊠ power_of_base_ n))%u64 = poly (slice ks a n).
Proof.
  intros Ha Hn Hl. rewrite power_of_base_spec by done.
  assert (E : prefix ks (a + n) = prefix ks a ++ slice ks a n).
  { unfold prefix, slice. rewrite Z2Nat.inj_add by lia. by rewrite take_take_drop. }
  assert (Hlen : length (slice ks a n) = Z.to_nat n).
  { unfold slice. rewrite length_take, length_drop. lia. }
  rewrite E, poly_app, Hlen, Z2Nat.id by lia. unfold wrap.
  rewrite Zminus_mod_idemp_l, Zminus_mod_idemp_r.
  rewrite (Z.mul_comm (poly _) (POLY_BASE ^ n mod 2 ^ 64)).
  rewrite <- (Zminus_mod_idemp_r _ (POLY_BASE ^ n mod 2 ^ 64 * poly (prefix ks a))).
  rewrite Z.mul_mod_idemp_l, Zminus_mod_idemp_r by lia.
  replace (_ + _ - _) with (poly (slice ks a n)) by ring. apply Z.mod_small, poly_range.
Qed.

(** ** The ring *)

Abbreviation len ks := (Z.of_nat (length ks)).

Definition held (base : Z) : Z := if base =? 0 then 0 else base - 1.
Definition hcap (h : History) : Z := history_mask_ h + 1.

(** The ring holds the stream [ks] from [held base] on. *)
Record hist_ok ks (base : Z) (h : History) : Prop := {
  hk_pow : exists k, 12 <= k <= 19 /\ hcap h = 2 ^ k;
  hk_base : 0 <= base <= len ks;
  hk_room : len ks - held base <= hcap h;
  hk_word p : held base <= p < len ks ->
    word (keys_ h) (ring_slot h p) = key_of_stream ks p /\
    word (prefix_polys_ h) (ring_slot h p) = poly (prefix ks (p + 1)) /\
    word (prefix_sums_ h) (ring_slot h p) = ksum (prefix ks (p + 1));
}.

(** The fingerprint of the window that starts at [s]. *)
Definition wfp ks (s : Z) : Z := poly (slice ks s K).

Lemma held_bounds base : 0 <= base -> 0 <= held base <= base /\ base - 1 <= held base.
Proof. unfold held. destruct (Z.eqb_spec base 0); lia. Qed.

Lemma pow_cap k : 12 <= k <= 19 -> 2 ^ 12 <= 2 ^ k <= 2 ^ 19.
Proof. intros Hk. split; apply Z.pow_le_mono_r; lia. Qed.

Lemma hcap_bounds ks base h : hist_ok ks base h -> 2 ^ 12 <= hcap h <= 2 ^ 19.
Proof. intros Hh. destruct (hk_pow _ _ _ Hh) as (k & Hk & ->). by apply pow_cap. Qed.

Lemma ring_slot_mod h p : (exists k, 12 <= k <= 19 /\ hcap h = 2 ^ k) -> ring_slot h p = p mod hcap h.
Proof.
  intros (k & Hk & E). unfold ring_slot. replace (history_mask_ h) with (2 ^ k - 1) by (unfold hcap in E; lia).
  rewrite E. apply land_mask_mod. lia.
Qed.

(** Two positions less than a capacity apart have different slots. *)
Lemma mod_inj_near n p q : 0 < n -> - n < p - q < n -> p mod n = q mod n -> p = q.
Proof.
  intros Hn Hd E. assert (Hz : (p - q) mod n = 0) by (rewrite Zminus_mod, E, Z.sub_diag; done).
  apply Z.mod_divide in Hz as [c Hc]; [|lia]. clear E.
  assert (c = 0) as -> by nia. lia.
Qed.

Lemma ring_slot_near h p q :
  (exists k, 12 <= k <= 19 /\ hcap h = 2 ^ k) -> - hcap h < p - q < hcap h -> p <> q ->
  ring_slot h p <> ring_slot h q.
Proof.
  intros Hp Hd Hne E. rewrite !ring_slot_mod in E by done. apply Hne, (mod_inj_near (hcap h)); auto.
  destruct Hp as (k & Hk & ->). apply Z.pow_pos_nonneg; lia.
Qed.

Section Read.
Context ks base h (Hh : hist_ok ks base h) (Hlen : len ks < 2 ^ 63).
#[local] Set Default Proof Using "Hh Hlen".

Lemma before_word i : base <= i <= len ks -> i <> 0 -> held base <= u64 (i - 1) < len ks /\ u64 (i - 1) = i - 1.
Proof.
  intros Hi Hne. pose proof (hk_base _ _ _ Hh). pose proof (held_bounds base ltac:(lia)).
  rewrite wrap_small by lia. unfold held in *. destruct (Z.eqb_spec base 0); lia.
Qed.

Lemma prefix_poly_before_eq i : base <= i <= len ks -> prefix_poly_before_ h i = poly (prefix ks i).
Proof.
  intros Hi. unfold prefix_poly_before_. destruct (Z.eqb_spec i 0) as [->|Hne]; [done|].
  destruct (before_word i Hi Hne) as [Hw ->].
  destruct (before_word i Hi Hne) as [Hw' E]. rewrite E in Hw'.
  destruct (hk_word _ _ _ Hh (i - 1) Hw') as (_ & -> & _). do 2 f_equal. lia.
Qed.

Lemma prefix_sum_before_eq i : base <= i <= len ks -> prefix_sum_before_ h i = ksum (prefix ks i).
Proof.
  intros Hi. unfold prefix_sum_before_. destruct (Z.eqb_spec i 0) as [->|Hne]; [done|].
  destruct (before_word i Hi Hne) as [Hw E]. rewrite E in *.
  destruct (hk_word _ _ _ Hh (i - 1) Hw) as (_ & _ & ->). do 2 f_equal. lia.
Qed.

Lemma key_at_eq p : base <= p < len ks -> key_at h p = key_of_stream ks p.
Proof.
  intros Hp. pose proof (hk_base _ _ _ Hh). pose proof (held_bounds base ltac:(lia)).
  apply (hk_word _ _ _ Hh). lia.
Qed.

Lemma window_fingerprint_eq s : base <= s -> s + K <= len ks -> window_fingerprint_ h s = wfp ks s.
Proof.
  intros Hs Hl. unfold window_fingerprint_, wfp. unfold K in *. pose proof (hk_base _ _ _ Hh).
  rewrite (wrap_small 64 (s + 5)) by lia. rewrite !prefix_poly_before_eq by lia. apply poly_slice; lia.
Qed.

Lemma slice_cons a n : 0 <= a < len ks -> 0 <= n -> slice ks a (n + 1) = key_of_stream ks a :: slice ks (a + 1) n.
Proof using Type.
  intros Ha Hn. unfold slice, key_of_stream, aget.
  rewrite !Z2Nat.inj_add by lia. change (Z.to_nat 1) with 1%nat.
  destruct (lookup_lt_is_Some_2 ks (Z.to_nat a)) as [k Hk]; [lia|].
  rewrite (drop_S ks k (Z.to_nat a)) by done. rewrite Nat.add_1_r. simpl. by rewrite Hk, Nat.add_1_r.
Qed.

Lemma keys_equal_spec n : forall l r,
  base <= l -> base <= r -> l + Z.of_nat n <= len ks -> r + Z.of_nat n <= len ks ->
  keys_equal h l r n = true <-> slice ks l (Z.of_nat n) = slice ks r (Z.of_nat n).
Proof.
  pose proof (hk_base _ _ _ Hh).
  induction n as [|n IH]; intros l r Hl Hr Hln Hrn; [done|].
  simpl keys_equal. rewrite !key_at_eq by lia.
  rewrite (wrap_small 64 (l + 1)), (wrap_small 64 (r + 1)) by lia.
  rewrite Nat2Z.inj_succ. unfold Z.succ. rewrite !slice_cons by lia.
  destruct (Z.eqb_spec (key_of_stream ks l) (key_of_stream ks r)) as [->|Hne]; simpl.
  - rewrite IH by lia. split; [by intros ->|]. intros E. by simplify_eq.
  - split; [done|]. intros E. by simplify_eq.
Qed.

(** The comparison of two windows is exact: the fingerprints only reject. *)
Lemma windows_equal_spec l r n :
  base <= l -> base <= r -> 0 <= n -> l + n <= len ks -> r + n <= len ks ->
  windows_equal_ h l r n = bool_decide (slice ks l n = slice ks r n).
Proof.
  intros Hl Hr Hn Hln Hrn. pose proof (hk_base _ _ _ Hh). unfold windows_equal_.
  rewrite (wrap_small 64 (l + n)), (wrap_small 64 (r + n)) by lia.
  rewrite !prefix_poly_before_eq by lia. rewrite !poly_slice by lia.
  destruct (Z.eqb_spec (poly (slice ks l n)) (poly (slice ks r n))) as [E|E]; simpl.
  - apply eq_true_iff_eq. rewrite bool_decide_eq_true, keys_equal_spec by lia. by rewrite Z2Nat.id.
  - symmetry. apply bool_decide_eq_false. intros E'. by rewrite E' in E.
Qed.

Lemma is_square_spec s p :
  0 <= p -> base <= s - 2 * p -> s <= len ks ->
  is_square_ h s p = bool_decide (slice ks (s - 2 * p) p = slice ks (s - p) p).
Proof.
  intros Hp Hs Hl. pose proof (hk_base _ _ _ Hh). unfold is_square_.
  rewrite (wrap_small 64 (2 * p)), (wrap_small 64 (s - 2 * p)), (wrap_small 64 (s - p)) by lia.
  apply windows_equal_spec; lia.
Qed.
End Read.

(** ** The ring under the members that change it *)

Lemma word_insert m i j v : word (<[i := v]> m) j = if bool_decide (j = i) then v else word m j.
Proof.
  unfold word. case_bool_decide as E; [subst; by rewrite lookup_insert_eq|]. by rewrite lookup_insert_ne.
Qed.

Lemma word_insert_eq m i v : word (<[i := v]> m) i = v.
Proof. rewrite word_insert. by rewrite bool_decide_eq_true_2. Qed.

Lemma word_insert_ne m i j v : j <> i -> word (<[i := v]> m) j = word m j.
Proof. intros. rewrite word_insert. by rewrite bool_decide_eq_false_2. Qed.

Lemma held_mono b b' : 0 <= b <= b' -> held b <= held b'.
Proof. unfold held. destruct (Z.eqb_spec b 0), (Z.eqb_spec b' 0); lia. Qed.

Lemma hist_ok_base ks b b' h : hist_ok ks b h -> b <= b' <= len ks -> hist_ok ks b' h.
Proof.
  intros Hh Hb. pose proof (hk_base _ _ _ Hh). pose proof (held_mono b b' ltac:(lia)).
  split; [apply Hh|lia|pose proof (hk_room _ _ _ Hh); lia|]. intros p Hp. apply (hk_word _ _ _ Hh). lia.
Qed.

Lemma hist_ok_set_link ks b h p l : hist_ok ks b h -> hist_ok ks b (set_link h p l).
Proof. intros [? ? ? ?]. by split. Qed.

Lemma prefix_snoc ks k p : 0 <= p <= len ks -> prefix (ks ++ [k]) p = prefix ks p.
Proof. intros Hp. unfold prefix. apply take_app_le. lia. Qed.

Lemma prefix_full ks k : prefix (ks ++ [k]) (len ks + 1) = ks ++ [k].
Proof. unfold prefix. apply take_ge. rewrite length_app. simpl. lia. Qed.

Lemma key_of_stream_snoc ks k p : 0 <= p < len ks -> key_of_stream (ks ++ [k]) p = key_of_stream ks p.
Proof. intros Hp. unfold key_of_stream, aget. rewrite lookup_app_l by lia. done. Qed.

Lemma key_of_stream_last ks k : key_of_stream (ks ++ [k]) (len ks) = k.
Proof. unfold key_of_stream, aget. rewrite Nat2Z.id, lookup_app_r, Nat.sub_diag by lia. done. Qed.

(** The stores of append_. *)
Definition push_key (h : History) (pos key : Z) : History :=
  {| keys_ := <[ring_slot h pos := key]> (keys_ h);
     prefix_polys_ := <[ring_slot h pos := ((prefix_poly_before_ h pos ⊠ POLY_BASE) ⊞ key)%u64]> (prefix_polys_ h);
     prefix_sums_ := <[ring_slot h pos := (prefix_sum_before_ h pos ⊞ fmix64 (Z.lxor key SUM_SALT))%u64]>
       (prefix_sums_ h);
     earlier_links_ := <[ring_slot h pos := 0]> (earlier_links_ h);
     history_mask_ := history_mask_ h |}.

Lemma push_key_ok ks base h key :
  hist_ok ks base h -> len ks < 2 ^ 63 -> len ks + 1 - held base <= hcap h ->
  hist_ok (ks ++ [key]) base (push_key h (len ks) key).
Proof.
  intros Hh Hlen Hroom. pose proof (hk_base _ _ _ Hh) as Hb. pose proof (held_bounds base ltac:(lia)).
  pose proof (hcap_bounds _ _ _ Hh).
  split; rewrite ?length_app; simpl; [apply Hh|lia|unfold push_key, hcap in *; simpl; lia|].
  intros p Hp. unfold ring_slot in *. simpl.
  change (Z.land p (history_mask_ h)) with (ring_slot h p).
  change (Z.land (len ks) (history_mask_ h)) with (ring_slot h (len ks)).
  destruct (Z.eq_dec p (len ks)) as [->|Hne].
  - rewrite !word_insert_eq, key_of_stream_last, prefix_full.
    rewrite (prefix_poly_before_eq ks base h Hh Hlen), (prefix_sum_before_eq ks base h Hh Hlen) by lia.
    rewrite poly_snoc, ksum_snoc. unfold prefix. by rewrite Nat2Z.id, take_ge by lia.
  - assert (Hs : ring_slot h p <> ring_slot h (len ks)) by (apply ring_slot_near; [apply Hh|lia|lia]).
    rewrite !word_insert_ne by done. rewrite key_of_stream_snoc, prefix_snoc by lia.
    apply (hk_word _ _ _ Hh). lia.
Qed.

(** The words that a larger ring takes over. *)
Lemma move_words_spec h m nm from to p k :
  nm + 1 = 2 ^ k -> 0 <= k -> to - from <= 2 ^ k -> from <= p < to ->
  word (move_words h m nm from to) (Z.land p nm) = word m (ring_slot h p).
Proof.
  intros Hk Hk0 Hr Hp. unfold move_words.
  assert (Hmod : forall q, Z.land q nm = q mod 2 ^ k).
  { intros q. replace nm with (2 ^ k - 1) by lia. apply land_mask_mod. lia. }
  assert (Hn : 0 < 2 ^ k) by (apply Z.pow_pos_nonneg; lia).
  remember (Z.to_nat (to - from)) as n eqn:En. revert to Hr Hp En.
  induction n as [|n IH]; intros to Hr Hp En; [lia|].
  replace (seqZ from (to - from)) with (seqZ from (to - 1 - from) ++ [to - 1]).
  2: { replace (to - from) with ((to - 1 - from) + 1) by lia. rewrite seqZ_app by lia.
       f_equal. replace (from + (to - 1 - from)) with (to - 1) by lia. done. }
  rewrite foldl_app. simpl. destruct (Z.eq_dec p (to - 1)) as [->|Hne]; [apply word_insert_eq|].
  rewrite word_insert_ne; [apply IH; lia|]. rewrite !Hmod. intros E.
  apply Hne, (mod_inj_near (2 ^ k)); lia.
Qed.

(** The ring of new_capacity slots. *)
Definition moved_history (h : History) (new_mask from to : Z) : History :=
  {| keys_ := move_words h (keys_ h) new_mask from to; prefix_polys_ := move_words h (prefix_polys_ h) new_mask from to;
     prefix_sums_ := move_words h (prefix_sums_ h) new_mask from to;
     earlier_links_ := move_words h (earlier_links_ h) new_mask from to; history_mask_ := new_mask |}.

Lemma moved_history_ok ks base h nm k :
  hist_ok ks base h \/ (ks = [] /\ base = 0) ->
  12 <= k <= 19 -> nm + 1 = 2 ^ k -> len ks - held base <= 2 ^ k ->
  hist_ok ks base (moved_history h nm (held base) (len ks)).
Proof.
  intros Hh Hk Hnm Hr. split; [exists k; done| |unfold hcap; simpl; lia|].
  - destruct Hh as [Hh|[-> ->]]; [apply Hh|simpl; lia].
  - intros p Hp. destruct Hh as [Hh|[-> ->]]; [|simpl in Hp; unfold held in Hp; simpl in Hp; lia].
    unfold ring_slot, moved_history. simpl. rewrite !(move_words_spec h _ nm _ _ p k) by lia.
    by apply (hk_word _ _ _ Hh).
Qed.

(** * The links of the windows

    While the detector searches, the window table maps each fingerprint to the
    newest window of the history that has it, and each window is linked to the
    newest earlier one. *)

#[local] Open Scope result_scope.

(** [s] is the newest window before [lim] with fingerprint [f]. *)
Definition newest ks (base lim f s : Z) : Prop :=
  base <= s < lim /\ wfp ks s = f /\ forall t, s < t < lim -> wfp ks t <> f.

Definition map_ok ks (base lim : Z) (M : gmap Z Z) : Prop :=
  forall f s, M !! f = Some s <-> newest ks base lim f s.

(** The link of the window at [s]: to the newest earlier window of its
    fingerprint, or none. *)
Definition link_ok ks (base s l : Z) : Prop :=
  (l = 0 /\ forall t, base <= t < s -> wfp ks t <> wfp ks s) \/
  (exists t, l = t + 1 /\ 0 <= t < s /\ wfp ks t = wfp ks s /\ forall t', t < t' < s -> wfp ks t' <> wfp ks s).

Definition links_ok ks (base lim : Z) (h : History) : Prop :=
  forall s, base <= s < lim -> link_ok ks base s (link_at h s).

Lemma map_ok_none ks base lim M f t : map_ok ks base lim M -> M !! f = None -> base <= t < lim -> wfp ks t <> f.
Proof.
  intros HM Hf Ht. remember (Z.to_nat (lim - t)) as n eqn:En.
  revert t Ht En. induction (lt_wf n) as [n _ IH]. intros t Ht En E.
  enough (newest ks base lim f t) as Hn by (apply HM in Hn; congruence).
  split_and!; auto; try lia. intros t' Ht' E'. by apply (IH (Z.to_nat (lim - t')) ltac:(lia) t' ltac:(lia)).
Qed.

Lemma map_ok_empty ks base lim : lim <= base -> map_ok ks base lim ∅.
Proof. intros Hl f s. rewrite lookup_empty. split; [done|]. intros [? _]. lia. Qed.

Lemma map_ok_insert ks base s M :
  0 <= base <= s -> map_ok ks base s M ->
  map_ok ks base (s + 1) (<[wfp ks s := s]> M) /\
  link_ok ks base s (from_option (fun t => t + 1) 0 (M !! wfp ks s)).
Proof.
  intros Hb HM. split.
  - intros f t. destruct (Z.eq_dec f (wfp ks s)) as [->|Hne].
    + rewrite lookup_insert_eq. split.
      * intros [= <-]. split_and!; auto; lia.
      * intros (Ht & Hf & Hn). f_equal. destruct (Z.eq_dec t s); [done|]. destruct (Hn s); [lia|done].
    + rewrite lookup_insert_ne, (HM f t) by done. split; intros (Ht & Hf & Hn).
      * split_and!; auto; try lia. intros t' Ht'. destruct (Z.eq_dec t' s) as [->|]; [done|]. apply Hn. lia.
      * assert (t <> s) by (intros ->; done). split_and!; auto; try lia. intros t' Ht'. apply Hn. lia.
  - destruct (M !! wfp ks s) as [t|] eqn:E; simpl.
    + right. exists t. apply HM in E as (Ht & Hf & Hn). split_and!; auto; lia.
    + left. split; [done|]. intros t Ht. by apply (map_ok_none ks base s M).
Qed.

Lemma map_ok_remove ks base lim M :
  base < lim -> map_ok ks base lim M ->
  map_ok ks (base + 1) lim (if decide (M !! wfp ks base = Some base) then delete (wfp ks base) M else M).
Proof.
  intros Hb HM f s.
  assert (Hcase : newest ks (base + 1) lim f s <-> newest ks base lim f s /\ s <> base).
  { unfold newest. split; [intros (? & ? & ?); split_and!; auto; lia|].
    intros [(? & ? & ?) ?]. split_and!; auto; lia. }
  rewrite Hcase, <- (HM f s). case_decide as Hd.
  - rewrite lookup_delete_Some. split; [intros [Hne Hs]; split; [done|]|intros [Hs Hne]; split; [|done]].
    + intros ->. apply HM in Hs as (_ & Hf & _). by rewrite Hf in Hne.
    + intros <-. rewrite Hd in Hs. congruence.
  - split; [|by intros [? _]]. intros Hs. split; [done|]. intros ->.
    pose proof (proj1 (HM _ _) Hs) as (_ & Hf & _). by rewrite Hf in Hd.
Qed.

Lemma map_ok_skip ks base lim M : lim <= base -> map_ok ks base lim M -> map_ok ks (base + 1) lim M.
Proof. intros Hb HM f s. rewrite (HM f s). unfold newest. split; intros ([? ?] & _); lia. Qed.

Lemma list_to_set_size_le (l : list Z) : (size (list_to_set l : gset Z) <= length l)%nat.
Proof.
  induction l as [|x l IH].
  - rewrite list_to_set_nil, size_empty. simpl. lia.
  - rewrite list_to_set_cons, size_union_alt, size_singleton. simpl.
    pose proof (subseteq_size (list_to_set l ∖ {[x]} : gset Z) (list_to_set l) ltac:(set_solver)). lia.
Qed.

Lemma map_ok_size ks base lim M : map_ok ks base lim M -> Z.of_nat (size M) <= Z.max 0 (lim - base).
Proof.
  intros HM. assert (Hsub : (dom M : gset Z) ⊆ list_to_set (wfp ks <$> seqZ base (lim - base))).
  { intros f Hf. apply elem_of_dom in Hf as [s Hs]. apply HM in Hs as (Hs & <- & _).
    apply elem_of_list_to_set, list_elem_of_fmap. exists s. split; [done|]. apply elem_of_seqZ. lia. }
  apply subseteq_size in Hsub. rewrite size_dom in Hsub.
  assert (Hle : (size (list_to_set (wfp ks <$> seqZ base (lim - base)) : gset Z)
                 <= length (wfp ks <$> seqZ base (lim - base)))%nat).
  { apply list_to_set_size_le. }
  rewrite length_fmap, length_seqZ in Hle. lia.
Qed.

Lemma slice_snoc ks k a n : 0 <= a -> 0 <= n -> a + n <= len ks -> slice (ks ++ [k]) a n = slice ks a n.
Proof.
  intros Ha Hn Hl. unfold slice. rewrite drop_app_le by lia. apply take_app_le. rewrite length_drop. lia.
Qed.

Lemma wfp_snoc ks k s : 0 <= s -> s + K <= len ks -> wfp (ks ++ [k]) s = wfp ks s.
Proof. intros. unfold wfp. rewrite slice_snoc; unfold K in *; auto; lia. Qed.

Lemma map_ok_snoc ks k base lim M :
  0 <= base -> lim + K <= len ks + 1 -> map_ok ks base lim M -> map_ok (ks ++ [k]) base lim M.
Proof.
  intros Hb Hl HM f s. rewrite (HM f s). unfold newest.
  split; intros (Hs & Hf & Hn); (split; [done|split]).
  - rewrite wfp_snoc; [done|lia|lia].
  - intros t Ht. rewrite wfp_snoc; [by apply Hn|lia|lia].
  - by rewrite wfp_snoc in Hf by lia.
  - intros t Ht. specialize (Hn t Ht). by rewrite wfp_snoc in Hn by lia.
Qed.

Lemma link_ok_snoc ks k base s l :
  0 <= base <= s -> s + K <= len ks -> link_ok ks base s l -> link_ok (ks ++ [k]) base s l.
Proof.
  intros Hb Hl [[-> Hn]|(t & -> & Ht & Hf & Hn)].
  - left. split; [done|]. intros t Ht. rewrite !wfp_snoc; auto; lia.
  - right. exists t. rewrite !wfp_snoc by lia. split_and!; auto; try lia.
    intros t' Ht'. rewrite wfp_snoc by lia. auto.
Qed.

Lemma link_ok_base ks base base' s l : base <= base' -> link_ok ks base s l -> link_ok ks base' s l.
Proof. intros Hb [[-> Hn]|?]; [|by right]. left. split; [done|]. intros t Ht. apply Hn. lia. Qed.

(** ** The members that link and forget windows *)

Lemma link_at_set h p q l :
  link_at (set_link h p l) q = if bool_decide (ring_slot h q = ring_slot h p) then l else link_at h q.
Proof. unfold link_at, set_link, ring_slot. simpl. by rewrite word_insert. Qed.

(** The windows that are linked: the history, the table and the links. *)
Record linked ks (base lim : Z) (h : History) (T : WindowTable) : Prop := {
  ln_hist : hist_ok ks base h;
  ln_len : len ks < 2 ^ 63;
  ln_lim : lim + K <= len ks + 1 \/ lim <= base;
  ln_fits : hcap h <= tsize T;
  ln_tab : exists M, tab_ok T M /\ map_ok ks base lim M;
  ln_links : links_ok ks base lim h;
}.

(** A window of the history leaves room in a table of at least the ring's
    size. *)
Lemma linked_room ks base h T M lim :
  hist_ok ks base h -> hcap h <= tsize T -> tab_ok T M -> map_ok ks base lim M ->
  lim + K <= len ks + 1 \/ lim <= base -> has_room T.
Proof.
  intros Hh Hf HT HM Hl. pose proof (map_ok_size _ _ _ _ HM). pose proof (hk_room _ _ _ Hh).
  pose proof (hk_base _ _ _ Hh). pose proof (held_bounds base ltac:(lia)). pose proof (hcap_bounds _ _ _ Hh).
  apply (tab_ok_room T M HT). unfold K in *. lia.
Qed.

(** A new window goes into the table and gets its link. *)
Lemma link_one ks base s h T :
  linked ks base s h T -> base <= s -> s + K <= len ks ->
  exists l T', table_exchange_ T (window_fingerprint_ h s) s = Ok (l, T') /\
    linked ks base (s + 1) (set_link h s l) T' /\ tsize T' = tsize T.
Proof.
  intros [Hh Hlen Hlim Hfit (M & HT & HM) Hl] Hb Hs. pose proof (hk_base _ _ _ Hh) as Hb0.
  pose proof (linked_room _ _ _ _ _ _ Hh Hfit HT HM Hlim) as Hroom.
  destruct (table_exchange_ok T M (wfp ks s) s HT Hroom) as (T' & E & HT' & Hm); [unfold K in *; lia|].
  destruct (map_ok_insert ks base s M ltac:(lia) HM) as [HM' Hlk].
  rewrite (window_fingerprint_eq ks base h Hh Hlen) by lia. rewrite E.
  eexists _, T'. split; [done|]. assert (Hsz : tsize T' = tsize T) by (unfold tsize; by rewrite Hm).
  split; [|done]. split; auto; [by apply hist_ok_set_link|left; lia|by rewrite Hsz|eauto|].
  intros t Ht. rewrite link_at_set. destruct (Z.eq_dec t s) as [->|Hne].
  - by rewrite bool_decide_eq_true_2.
  - pose proof (hk_room _ _ _ Hh). pose proof (held_bounds base ltac:(lia)).
    rewrite bool_decide_eq_false_2; [apply Hl; lia|].
    apply ring_slot_near; [apply Hh|unfold K in *; lia|done].
Qed.

Lemma link_windows_ok ks base n : forall s h T,
  linked ks base s h T -> base <= s -> s + Z.of_nat n + K <= len ks + 1 \/ n = O ->
  exists h' T', link_windows n s h T = Ok (h', T') /\ linked ks base (s + Z.of_nat n) h' T' /\
    tsize T' = tsize T /\ history_mask_ h' = history_mask_ h.
Proof.
  induction n as [|n IH]; intros s h T HL Hb Hs; simpl.
  { exists h, T. rewrite Z.add_0_r. done. }
  destruct Hs as [Hs|]; [|done].
  destruct (link_one ks base s h T HL Hb ltac:(lia)) as (l & T1 & -> & HL1 & Hsz1). simpl.
  rewrite wrap_small by (pose proof (ln_len _ _ _ _ _ HL); pose proof (hk_base _ _ _ (ln_hist _ _ _ _ _ HL));
    unfold K in *; lia).
  destruct (IH (s + 1) (set_link h s l) T1 HL1) as (h' & T' & -> & HL' & Hsz & Hm); [lia|lia|].
  exists h', T'. split; [done|]. replace (s + Z.of_nat (S n)) with (s + 1 + Z.of_nat n) by lia.
  rewrite Hsz. done.
Qed.

(** The number of complete windows of a stream. *)
Definition windows ks : Z := len ks - K + 1.

(** A new table takes every complete window of the history. *)
Lemma rebuild_links ks base h size k end_start :
  hist_ok ks base h -> len ks < 2 ^ 63 -> size = 2 ^ k -> 0 <= k < 64 -> hcap h <= size ->
  end_start = Z.max 0 (windows ks) ->
  exists h' T', link_windows (Z.to_nat (end_start - base)) base h (new_table size) = Ok (h', T') /\
    linked ks base (Z.max base (windows ks)) h' T' /\ tsize T' = size /\ history_mask_ h' = history_mask_ h.
Proof.
  intros Hh Hlen Hsz Hk Hfit ->. destruct (new_table_ok size k Hsz Hk) as [HT HTs].
  pose proof (hk_base _ _ _ Hh) as Hb.
  assert (HL : linked ks base base h (new_table size)).
  { split; auto; [right; lia|lia|exists ∅; split; [done|apply map_ok_empty; lia]|]. intros s Hs. lia. }
  destruct (link_windows_ok ks base (Z.to_nat (Z.max 0 (windows ks) - base)) base h _ HL ltac:(lia))
    as (h' & T' & E & HL' & Hs & Hm); [unfold windows in *; lia|].
  exists h', T'. rewrite Hs, HTs. split; [done|]. split; [|done].
  replace (Z.max base (windows ks)) with (base + Z.of_nat (Z.to_nat (Z.max 0 (windows ks) - base))); [done|].
  unfold windows in *. lia.
Qed.

Lemma linked_base_step ks base h T T' M' lim :
  linked ks base lim h T -> base < len ks -> tsize T' = tsize T -> tab_ok T' M' -> map_ok ks (base + 1) lim M' ->
  linked ks (base + 1) lim h T'.
Proof.
  intros [Hh Hlen Hlim Hfit _ Hl] Hb Hsz HT HM. pose proof (hk_base _ _ _ Hh).
  split; auto; [apply (hist_ok_base _ base); auto; lia|lia|lia|eauto|].
  intros s Hs. apply (link_ok_base _ base); [lia|]. apply Hl. lia.
Qed.

Lemma forget_windows_ok ks n : forall base lim h T,
  linked ks base lim h T -> base + Z.of_nat n <= len ks -> lim = Z.max base (windows ks) ->
  exists T', forget_windows n base (len ks) h T = Ok T' /\
    linked ks (base + Z.of_nat n) (Z.max (base + Z.of_nat n) (windows ks)) h T' /\ tsize T' = tsize T.
Proof.
  induction n as [|n IH]; intros base lim h T HL Hn Hlim; simpl.
  { exists T. rewrite Z.add_0_r. subst. done. }
  pose proof (hk_base _ _ _ (ln_hist _ _ _ _ _ HL)) as Hb. pose proof (ln_len _ _ _ _ _ HL) as Hlen.
  destruct HL as [Hh Hlen' Hlim' Hfit (M & HT & HM) Hl] eqn:EHL.
  rewrite (wrap_small 64 (base + K)) by (unfold K; lia). rewrite (wrap_small 64 (base + 1)) by lia.
  replace (base + Z.of_nat (S n)) with (base + 1 + Z.of_nat n) by lia.
  destruct (Z.leb_spec (base + K) (len ks)) as [Hc|Hc].
  - assert (Hbl : base < lim) by (unfold windows in *; lia).
    pose proof (linked_room _ _ _ _ _ _ Hh Hfit HT HM Hlim') as Hroom.
    destruct (table_remove_newest_ok T M (wfp ks base) base HT Hroom) as (T1 & E & Hm & HT1); [lia|].
    rewrite (window_fingerprint_eq ks base h Hh Hlen) by lia. rewrite E. simpl.
    assert (Hsz : tsize T1 = tsize T) by (unfold tsize; by rewrite Hm). rewrite <- Hsz.
    apply (IH (base + 1) lim); [|lia|lia].
    apply (linked_base_step ks base h T T1 _ lim HL ltac:(lia) Hsz HT1). by apply map_ok_remove.
  - simpl. apply (IH (base + 1) (base + 1)); [|lia|unfold windows in *; lia].
    assert (lim = base) as Elim by (unfold windows in *; lia).
    assert (HM1 : map_ok ks (base + 1) (base + 1) M).
    { intros f s. rewrite (HM f s). unfold newest. split; intros ([? ?] & _); lia. }
    split; auto; [apply (hist_ok_base _ base); auto; lia|right; lia|eauto|]. intros s Hs. lia.
Qed.
