(* ===== verification/DetectorProofs.v ===== *)
(** * DetectorProofs.v: the invariant of the detector and the outcomes of a check

    Ties the state of the detector to the stream of keys since the last
    restart.  While it searches, every complete window of the history is
    linked; while a period holds, the history reaches back two periods before
    the next boundary.  One check keeps the invariant and has one of four
    outcomes. *)

From stdpp Require Import base list gmap strings.
From Stdlib Require Import ZArith Lia.
From S2P Require Import Prelude.
From S2P Require Import Hash.
From S2P Require Import WindowTable.
From S2P Require Import Detector.
From S2P Require Import DetectorHist.
#[local] Open Scope Z_scope.
#[local] Open Scope result_scope.

Implicit Types ks : list Z.

(** The length of a stream that the proofs cover. *)
Definition short ks : Prop := len ks < 2 ^ 62.

(** The history, the table and the links of a detector that searches or holds
    a period. *)
Record parts_ok ks (D : IterationDetector) : Prop := {
  po_hist : hist_ok ks (base_ D) (hist D);
  po_base : base_ D = 0 \/ base_ D <= windows ks;
  po_tab : exists k, 0 <= k < 64 /\ tsize (tab D) = 2 ^ k;
  po_search : period_ (acc D) = 0 ->
    linked ks (base_ D) (Z.max (base_ D) (windows ks)) (hist D) (tab D);
}.

(** The accepted period, while the next op is at most [next_boundary_ + K - 1]. *)
Definition hold_ok (D : IterationDetector) (pos : Z) : Prop :=
  period_ (acc D) <> 0 ->
  K <= period_ (acc D) <= MAX_PERIOD /\
  base_ D <= next_boundary_ (acc D) - 2 * period_ (acc D) /\
  pos < next_boundary_ (acc D) + K /\ next_boundary_ (acc D) <= pos + MAX_PERIOD.

(** The invariant without the counters. *)
Record core_inv ks (D : IterationDetector) : Prop := {
  ci_pos : pos_ D = len ks;
  ci_fresh : history_mask_ (hist D) = 0 ->
    ks = [] /\ base_ D = 0 /\ period_ (acc D) = 0 /\ tsize (tab D) = 1;
  ci_parts : history_mask_ (hist D) <> 0 -> parts_ok ks D;
  ci_hold : hold_ok D (len ks);
}.

Record det_inv ks (D : IterationDetector) : Prop := {
  di_core : core_inv ks D;
  di_sig : signature_len (cnt D) = Z.min K (len ks);
  di_osb : 0 <= ops_since_boundary (cnt D) <= len ks;
  di_bd : 0 <= boundaries_detected (cnt D) <= len ks;
}.

Lemma core_set_cnt ks D c : core_inv ks D -> core_inv ks (set_cnt D c).
Proof. intros [? ? HP ?]. split; auto. intros E. destruct (HP E). by split. Qed.

(** The fields that the members of the history do not touch. *)
Definition same_control (D D' : IterationDetector) : Prop :=
  acc D' = acc D /\ cnt D' = cnt D /\ ref D' = ref D /\ pos_ D' = pos_ D.

Lemma rebuild_table_ok ks D k :
  hist_ok ks (base_ D) (hist D) -> short ks -> (base_ D = 0 \/ base_ D <= windows ks) ->
  0 <= k < 64 -> hcap (hist D) <= 2 ^ k ->
  exists D', rebuild_table_ D (2 ^ k) (Z.max 0 (windows ks)) = Ok D' /\ parts_ok ks D' /\
    same_control D D' /\ base_ D' = base_ D /\ history_mask_ (hist D') = history_mask_ (hist D) /\
    tsize (tab D') = 2 ^ k.
Proof.
  unfold short. intros Hh Hs Hb Hk Hfit. unfold rebuild_table_.
  destruct (rebuild_links ks (base_ D) (hist D) (2 ^ k) k (Z.max 0 (windows ks)) Hh ltac:(lia) eq_refl Hk Hfit
    eq_refl) as (h & T & -> & HL & Hsz & Hm). simpl.
  eexists. split; [done|]. split_and!; auto; [|done..]. split; simpl; auto; [apply HL|eauto].
Qed.

(** The end of the windows that grow_history_ and verify_boundary_ compute. *)
Lemma end_start_eq ks pos : pos = len ks -> short ks ->
  (if K <? (pos ⊞ 1)%u64 then ((pos ⊞ 1) ⊟ K)%u64 else 0) = Z.max 0 (windows ks).
Proof.
  unfold short, windows. intros -> Hs. unfold K. rewrite (wrap_small 64 (len ks + 1)) by lia.
  destruct (Z.ltb_spec 5 (len ks + 1)); [rewrite wrap_small; lia|lia].
Qed.

Lemma grow_history_ok ks D k :
  (hist_ok ks (base_ D) (hist D) \/ (ks = [] /\ base_ D = 0)) -> pos_ D = len ks -> short ks ->
  (base_ D = 0 \/ base_ D <= windows ks) -> (exists k, 0 <= k < 64 /\ tsize (tab D) = 2 ^ k) ->
  12 <= k <= 19 -> len ks - held (base_ D) <= 2 ^ k ->
  exists D', grow_history_ D (2 ^ k) = Ok D' /\ parts_ok ks D' /\ same_control D D' /\
    base_ D' = base_ D /\ hcap (hist D') = 2 ^ k.
Proof.
  intros Hh Hpos Hs Hb Htab Hk Hroom. pose proof (pow_cap k Hk). unfold grow_history_.
  rewrite (wrap_small 64 (2 ^ k - 1)) by lia.
  assert (Hheld : held_from_ D = held (base_ D)).
  { unfold held_from_, held. destruct (Z.eqb_spec (base_ D) 0); [done|].
    assert (0 <= base_ D <= len ks) by (destruct Hh as [Hh|[-> ->]]; [apply Hh|simpl; lia]).
    unfold short in Hs. rewrite wrap_small; lia. }
  rewrite Hheld, Hpos.
  assert (Hh' : hist_ok ks (base_ D) (moved_history (hist D) (2 ^ k - 1) (held (base_ D)) (len ks)))
    by (apply (moved_history_ok ks _ _ _ k); auto; lia).
  cbn [acc set_hist pos_].
  destruct (Z.eqb_spec (period_ (acc D)) 0) as [Ep|Ep].
  - rewrite Hpos, (end_start_eq ks) by done. rewrite (wrap_small 64 (2 ^ k * 2)) by lia.
    replace (2 ^ k * 2) with (2 ^ (k + 1)) by (rewrite Z.pow_add_r; lia).
    set (D1 := set_hist D _).
    destruct (rebuild_table_ok ks D1 (k + 1)) as (D2 & -> & HP & HC & Hb2 & Hm2 & _); auto; [lia| |].
    { subst D1. simpl. unfold hcap. simpl. rewrite Z.pow_add_r by lia. lia. }
    exists D2. split; [done|]. split; [done|]. split; [done|]. split; [done|].
    unfold hcap. rewrite Hm2. subst D1. simpl. lia.
  - eexists. split; [done|]. split_and!; [|done..|unfold hcap; simpl; lia].
    split; simpl; auto. intros E. done.
Qed.

Lemma MAX_PERIOD_eq : MAX_PERIOD = 262141.
Proof. reflexivity. Qed.

Lemma held_from_eq ks D : 0 <= base_ D <= len ks -> short ks -> held_from_ D = held (base_ D).
Proof.
  intros Hb Hs. unfold short in Hs. unfold held_from_, held. destruct (Z.eqb_spec (base_ D) 0); [done|].
  rewrite wrap_small; lia.
Qed.

Lemma forget_before_ok ks D nb :
  parts_ok ks D -> pos_ D = len ks -> base_ D <= nb -> nb <= windows ks ->
  exists D', forget_before_ D nb = Ok D' /\ parts_ok ks D' /\ same_control D D' /\ base_ D' = nb /\
    hist D' = hist D.
Proof.
  intros [Hh Hb Htab HL] Hpos Hle Hw. unfold forget_before_. rewrite Hpos.
  pose proof (hk_base _ _ _ Hh). pose proof (hist_ok_base _ _ nb _ Hh ltac:(unfold windows, K in *; lia)) as Hh'.
  destruct (Z.eqb_spec (period_ (acc D)) 0) as [Ep|Ep].
  - destruct (forget_windows_ok ks (Z.to_nat (nb - base_ D)) _ _ _ _ (HL Ep)) as (T & -> & HL' & Hsz);
      [unfold windows, K in *; lia|done|]. simpl.
    replace (base_ D + Z.of_nat (Z.to_nat (nb - base_ D))) with nb in HL' by lia.
    eexists. split; [done|]. split_and!; [|done..]. split; simpl; auto. by rewrite Hsz.
  - eexists. split; [done|]. split_and!; [|done..]. split; simpl; auto. intros E. done.
Qed.

Lemma make_room_ok ks D :
  core_inv ks D -> short ks ->
  exists D', make_room_ D = Ok D' /\ parts_ok ks D' /\ same_control D D' /\ base_ D <= base_ D' /\
    len ks + 1 - held (base_ D') <= hcap (hist D') /\ hold_ok D' (len ks) /\
    (len ks + 1 - held (base_ D) <= HISTORY_MAX_CAPACITY -> base_ D' = base_ D).
Proof.
  intros [Hpos Hfresh Hparts Hhold] Hs. unfold make_room_.
  destruct (Z.eqb_spec (history_mask_ (hist D)) 0) as [Em|Em].
  - destruct (Hfresh Em) as (-> & Hb & Hp & Ht). change HISTORY_MIN_CAPACITY with (2 ^ 12).
    destruct (grow_history_ok [] D 12) as (D' & -> & HP & (Ha & HC) & Hb' & Hc); auto; try lia.
    { exists 0. by rewrite Ht. }
    { rewrite Hb. simpl. unfold held. simpl. lia. }
    exists D'. rewrite Hb', Hb, Hc. split; [done|]. split; [done|]. split; [done|]. split_and!; try done; try lia.
    intros Hne. by rewrite Ha, Hp in Hne.
  - pose proof (Hparts Em) as HP. destruct HP as [Hh Hb Htab HL] eqn:EHP. pose proof (hk_base _ _ _ Hh) as Hb0.
    pose proof (hcap_bounds _ _ _ Hh) as Hcb. pose proof (held_bounds (base_ D) ltac:(lia)) as Hhb.
    change (history_mask_ (hist D) + 1) with (hcap (hist D)).
    rewrite (wrap_small 64 (hcap (hist D))) by lia. rewrite Hpos, (held_from_eq ks) by done.
    unfold short in Hs. rewrite (wrap_small 64 (len ks + 1)), (wrap_small 64 (_ - _)) by lia.
    destruct (Z.leb_spec (len ks + 1 - held (base_ D)) (hcap (hist D))) as [Hfit|Hfull].
    { exists D. split; [done|]. split; [done|]. split; [done|]. split_and!; auto; lia. }
    destruct (hk_pow _ _ _ Hh) as (k & Hk & Ek). change HISTORY_MAX_CAPACITY with (2 ^ 19).
    destruct (Z.ltb_spec (hcap (hist D)) (2 ^ 19)) as [Hlt|Hge].
    + assert (k < 19). { destruct (Z.eq_dec k 19) as [->|]; lia. }
      assert (E2 : hcap (hist D) * 2 = 2 ^ (k + 1)) by (rewrite Ek, Z.pow_add_r; lia).
      rewrite (wrap_small 64 (hcap (hist D) * 2)), E2 by lia.
      destruct (grow_history_ok ks D (k + 1)) as (D' & -> & HP' & HC & Hb' & Hc); auto; try lia.
      { pose proof (hk_room _ _ _ Hh). lia. }
      exists D'. pose proof (hk_room _ _ _ Hh). rewrite Hb', Hc.
      split; [done|]. split; [done|]. split; [done|]. split_and!; [lia|lia| |done].
      intros Hne. destruct HC as (Ha & _). rewrite Ha, Hb' in *. by apply Hhold.
    + rewrite (wrap_small 64 (len ks + 2)), (wrap_small 64 (_ - _)) by lia.
      assert (hcap (hist D) = 2 ^ 19) as -> by lia.
      destruct (forget_before_ok ks D (len ks + 2 - 2 ^ 19)) as (D' & -> & HP' & HC & Hb' & Hh'); auto;
        [lia|unfold windows, K; lia|].
      exists D'. rewrite Hb', Hh'. split; [done|]. split; [done|]. split; [done|].
      assert (held (len ks + 2 - 2 ^ 19) = len ks + 1 - 2 ^ 19) as ->
        by (unfold held; destruct (Z.eqb_spec (len ks + 2 - 2 ^ 19) 0); lia).
      split_and!; [lia|lia| |change HISTORY_MAX_CAPACITY with (2 ^ 19); lia].
      intros Hne. destruct HC as (Ha & _). rewrite Ha, Hb' in *. specialize (Hhold Hne). rewrite MAX_PERIOD_eq in *. unfold K in *. lia.
Qed.

Lemma link_at_push h pos key s :
  ring_slot h s <> ring_slot h pos -> link_at (push_key h pos key) s = link_at h s.
Proof. intros Hne. unfold link_at, push_key, ring_slot in *. simpl. by rewrite word_insert_ne. Qed.

(** A new key keeps the links of the windows that were complete. *)
Lemma linked_push ks base h T key :
  linked ks base (Z.max base (windows ks)) h T -> len ks + 1 < 2 ^ 63 -> len ks + 1 - held base <= hcap h ->
  linked (ks ++ [key]) base (Z.max base (windows ks)) (push_key h (len ks) key) T.
Proof.
  intros [Hh Hlen Hlim Hfit (M & HT & HM) Hl] Hl2 Hroom. pose proof (hk_base _ _ _ Hh).
  pose proof (held_bounds base ltac:(lia)). pose proof (hcap_bounds _ _ _ Hh).
  split; rewrite ?length_app; simpl; [by apply push_key_ok|lia|unfold windows in *; lia|done| |].
  - exists M. split; [done|]. destruct Hlim as [Hlim|Hlim].
    + apply map_ok_snoc; auto; lia.
    + intros f s. rewrite (HM f s). unfold newest. split; intros ([? ?] & _); lia.
  - intros s Hs. unfold windows in Hs.
    rewrite link_at_push; [|apply ring_slot_near; [apply Hh|unfold K in *; lia|unfold K in *; lia]].
    apply link_ok_snoc; [lia|unfold K in *; lia|]. apply Hl. unfold windows. lia.
Qed.

(** The state of a check after the key is in the ring: the newest window is
    not linked yet. *)
Record pushed ks (key : Z) (D0 D : IterationDetector) : Prop := {
  pu_hist : hist_ok (ks ++ [key]) (base_ D) (hist D);
  pu_base : base_ D = 0 \/ base_ D <= windows ks;
  pu_mono : base_ D0 <= base_ D;
  pu_tab : exists k, 0 <= k < 64 /\ tsize (tab D) = 2 ^ k;
  pu_search : period_ (acc D) = 0 ->
    linked (ks ++ [key]) (base_ D) (Z.max (base_ D) (windows ks)) (hist D) (tab D);
  pu_hold : hold_ok D (len ks);
  pu_acc : acc D = acc D0;
  pu_keep : len ks + 1 - held (base_ D0) <= HISTORY_MAX_CAPACITY -> base_ D = base_ D0;
}.

Lemma append_ok ks D key :
  core_inv ks D -> short ks ->
  exists D', append_ D key = Ok D' /\ pushed ks key D D' /\ same_control D D'.
Proof.
  intros HD Hs. unfold append_.
  destruct (make_room_ok ks D HD Hs) as (D1 & -> & [Hh Hb Ht HL] & (Ha & Hc & Hr & Hp) & Hmono & Hroom & Hhold & Hkeep).
  cbn [rbind]. rewrite Hp, (ci_pos _ _ HD). unfold short in Hs.
  eexists. split; [done|]. split; [|done]. split; simpl; auto.
  - apply push_key_ok; auto; lia.
  - intros E. apply linked_push; auto; lia.
Qed.

Lemma monotonic_bump_ok v : v < UINT32_MAX -> monotonic_bump v = Ok (v + 1).
Proof. intros Hv. unfold monotonic_bump. destruct (Z.eqb_spec v UINT32_MAX); [lia|done]. Qed.

(** The report of a boundary. *)
Lemma fire_ok D :
  period_ (acc D) <> 0 -> 0 <= base_ D -> 0 < period_ (acc D) <= next_boundary_ (acc D) ->
  next_boundary_ (acc D) + period_ (acc D) < 2 ^ 64 -> boundaries_detected (cnt D) < UINT32_MAX ->
  exists D', fire_ D = Ok (true, D') /\
    period_ (acc D') = period_ (acc D) /\ next_boundary_ (acc D') = next_boundary_ (acc D) + period_ (acc D) /\
    base_ D' = Z.max (base_ D) (next_boundary_ (acc D) - period_ (acc D)) /\
    last_completed_len (cnt D') = period_ (acc D) /\
    ops_since_boundary (cnt D') = K /\ boundaries_detected (cnt D') = boundaries_detected (cnt D) + 1 /\
    signature_len (cnt D') = signature_len (cnt D) /\
    pos_ D' = pos_ D /\ hist D' = hist D /\ tab D' = tab D /\ ref D' = ref D /\
    phase_is_unique (acc D') = phase_is_unique (acc D).
Proof.
  intros Hp Hb HP Hnb Hbd. unfold fire_. rewrite monotonic_bump_ok by done. cbn [rbind].
  rewrite (wrap_small 64 (next_boundary_ (acc D) + _)), (wrap_small 64 (next_boundary_ (acc D) - _)) by lia.
  unfold trim_. cbn [base_ set_acc set_cnt].
  destruct (Z.leb_spec (next_boundary_ (acc D) - period_ (acc D)) (base_ D)) as [Hle|Hgt].
  - eexists. split; [done|]. simpl. split_and!; auto; lia.
  - unfold forget_before_. cbn [acc set_acc period_].
    destruct (Z.eqb_spec (period_ (acc D)) 0); [done|]. eexists. split; [done|]. simpl. split_and!; auto; lia.
Qed.

(** The windows that a run of links from [s] visits come before [s]. *)
Section Accept.
Context ks (D : IterationDetector) (lim : Z) (HL : linked ks (base_ D) lim (hist D) (tab D)) (Hs : short ks).
Context (Hlim : lim + K <= len ks + 1).
#[local] Set Default Proof Using "HL Hs Hlim".

Lemma count_copies_ok fuel : forall link P w copies,
  base_ D <= w - P -> 0 < P -> w < lim -> 0 <= copies -> copies + Z.max 0 (link - 1 + P - w) < 2 ^ 63 ->
  link = 0 \/ (exists t, link = t + 1 /\ 0 <= t < w) ->
  Z.max 0 (link - 1 + P - w) < Z.of_nat fuel ->
  exists c, count_copies fuel (hist D) link P w copies = Ok c /\ copies <= c /\
    (c = copies <-> link = 0 \/ link - 1 + P <= w).
Proof.
  pose proof (hk_base _ _ _ (ln_hist _ _ _ _ _ HL)) as Hb. unfold short in Hs.
  induction fuel as [|fuel IH]; intros link P w copies Hw HP Hwl Hc Hcb Hlink Hf; [lia|].
  assert (Hwb : w < 2 ^ 62) by (unfold K in *; lia). simpl.
  destruct Hlink as [->|(t & -> & Ht)].
  { simpl. exists copies. split_and!; auto; lia. }
  destruct (Z.eqb_spec (t + 1) 0); [lia|]. simpl.
  replace (t + 1 - 1) with t in * by lia. rewrite (wrap_small 64 t), (wrap_small 64 (t + P)) by lia.
  destruct (Z.ltb_spec w (t + P)) as [Hin|Hout].
  - rewrite (wrap_small 64 (copies + 1)) by lia.
    assert (Hlk := ln_links _ _ _ _ _ HL t ltac:(lia)).
    assert (Hnext : link_at (hist D) t = 0 \/ (exists t', link_at (hist D) t = t' + 1 /\ 0 <= t' < t)).
    { destruct Hlk as [[-> _]|(t' & -> & Ht' & _)]; [by left|right; eauto]. }
    destruct (IH (link_at (hist D) t) P w (copies + 1)) as (c & -> & Hge & Heq); auto; try lia.
    + destruct Hnext as [->|(t' & -> & Ht')]; lia.
    + destruct Hnext as [->|(t' & -> & Ht')]; [by left|]. right. exists t'. split; [done|lia].
    + destruct Hnext as [->|(t' & -> & Ht')]; lia.
    + exists c. split_and!; auto; lia.
  - exists copies. split_and!; auto; lia.
Qed.

(** The phase that accept_ picks: inside the body, and when it counts one copy,
    the window at the phase occurs nowhere else in the period that ends with
    it. *)
Definition lone_window (w P : Z) : Prop := forall t, w - P < t < w -> wfp ks t <> wfp ks w.

Lemma lone_link w P :
  base_ D <= w - P -> w < lim -> 0 < P ->
  link_at (hist D) w = 0 \/ link_at (hist D) w - 1 + P <= w <-> lone_window w P.
Proof.
  intros Hw Hwl HP. pose proof (hk_base _ _ _ (ln_hist _ _ _ _ _ HL)) as Hb.
  destruct (ln_links _ _ _ _ _ HL w ltac:(lia)) as [[-> Hn]|(t & -> & Ht & Hf & Hn)].
  - split; [|by left]. intros _ t Ht. apply Hn. lia.
  - split.
    + intros Hle t' Ht'. apply Hn. lia.
    + intros Hl. right. destruct (Z_le_gt_dec (t + 1 - 1 + P) w); [done|]. exfalso. apply (Hl t); [lia|done].
Qed.

Lemma best_phase_ok bb P n : forall phase bp bc,
  base_ D <= bb - P -> 0 < P -> bb + P <= lim -> phase + Z.of_nat n = P -> 0 <= phase ->
  0 <= bp < P -> 1 <= bc -> (bc = 1 -> lone_window (bb + bp) P) ->
  (lone_window bb P -> (phase = 0 /\ 1 < bc) \/ (bp = 0 /\ bc = 1)) ->
  exists bp' bc', best_phase_loop n (hist D) bb P phase bp bc = Ok (bp', bc') /\
    0 <= bp' < P /\ (bc' = 1 -> lone_window (bb + bp') P) /\
    (lone_window bb P -> bp' = 0).
Proof.
  pose proof (hk_base _ _ _ (ln_hist _ _ _ _ _ HL)) as Hb. unfold short in Hs.
  induction n as [|n IH]; intros phase bp bc Hbb HP Hbl Hn Hph Hbp Hbc Hlone H0; cbn [best_phase_loop].
  { exists bp, bc. split_and!; auto; try lia. intros Hl. specialize (H0 Hl). lia. }
  assert (Hwb : bb + P < 2 ^ 62) by (unfold K in *; lia).
  rewrite (wrap_small 64 (bb + phase)) by lia. set (w := bb + phase).
  pose proof (ln_links _ _ _ _ _ HL w ltac:(unfold w; lia)) as Hlk.
  assert (Hnext : link_at (hist D) w = 0 \/ (exists t, link_at (hist D) w = t + 1 /\ 0 <= t < w)).
  { destruct Hlk as [[-> _]|(t & -> & Ht & _)]; [by left|right; eauto]. }
  destruct (negb _ && _) eqn:Eskip.
  { apply IH; auto; try lia. intros Hl. destruct (H0 Hl) as [[-> ?]|?]; [|by right]. exfalso.
    reflect_bools. destruct Hnext as [E|(t & E & Ht)]; [lia|]. rewrite E in *. unfold w in *.
    rewrite wrap_small in *; lia. }
  destruct (count_copies_ok (S (Z.to_nat P)) (link_at (hist D) w) P w 1) as (c & -> & Hc & Hone);
    [unfold w; lia|lia|unfold w; lia|lia|destruct Hnext as [->|(t & -> & Ht)]; lia|done|
     destruct Hnext as [->|(t & -> & Ht)]; lia|].
  assert (Hiff : c = 1 <-> lone_window w P) by (rewrite Hone; apply (lone_link w P); auto; unfold w; lia).
  assert (Hz : phase = 0 -> w = bb) by (unfold w; lia).
  cbn [rbind]. destruct (Z.ltb_spec c bc) as [Hlt|Hge]; apply IH; auto; try lia.
  - intros E. by apply Hiff.
  - intros Hl. destruct (H0 Hl) as [[E ?]|[? ?]]; [|lia]. right. split; [done|]. apply Hiff. by rewrite (Hz E).
  - intros Hl. destruct (H0 Hl) as [[E ?]|?]; [|by right]. rewrite (Hz E) in Hiff. apply Hiff in Hl. lia.
Qed.
End Accept.

(** The keys [s - 2P, s) are two copies of one body. *)
Definition square ks (s P : Z) : Prop := slice ks (s - 2 * P) P = slice ks (s - P) P.

(** A new period [P] whose square ends at [s], with the boundary at phase
    [ph]; a phase of 0 reports it at once. *)
Record accepted ks (D : IterationDetector) (s P ph : Z) (b : bool) (D' : IterationDetector) : Prop := {
  ac_period : K <= P <= MAX_PERIOD;
  ac_hist : base_ D <= s - 2 * P;
  ac_square : square ks s P;
  ac_same : wfp ks (s - P) = wfp ks s;
  ac_phase : 0 <= ph < P;
  ac_first : lone_window ks (s - P) P -> ph = 0;
  ac_unrefuted : is_refuted (ref D) P (window_sum_ (hist D) (s - P) s) = false;
  ac_set : period_ (acc D') = P;
  ac_unique : phase_is_unique (acc D') = true -> lone_window ks (s - P + ph) P;
  ac_hist' : hist D' = hist D;
  ac_tab : tab D' = tab D;
  ac_ref : ref D' = ref D;
  ac_pos : pos_ D' = pos_ D;
  ac_sig : signature_len (cnt D') = signature_len (cnt D);
  ac_b : b = (ph =? 0);
  ac_now : ph = 0 -> next_boundary_ (acc D') = s + P /\ base_ D' = Z.max (base_ D) (s - P) /\
    last_completed_len (cnt D') = P /\ ops_since_boundary (cnt D') = K /\
    boundaries_detected (cnt D') = boundaries_detected (cnt D) + 1;
  ac_later : ph <> 0 -> next_boundary_ (acc D') = s + ph /\ base_ D' = base_ D /\ cnt D' = cnt D;
}.

Section Search.
Context ks (D : IterationDetector) (s : Z).
Context (HL : linked ks (base_ D) (s + 1) (hist D) (tab D)) (Hs : short ks) (Hw : s + K = len ks).
Context (Hb : base_ D <= s) (Hbd : boundaries_detected (cnt D) < UINT32_MAX).
#[local] Set Default Proof Using "HL Hs Hw Hb Hbd".

Lemma accept_ok P :
  K <= P <= MAX_PERIOD -> base_ D <= s - 2 * P -> square ks s P -> wfp ks (s - P) = wfp ks s ->
  is_refuted (ref D) P (window_sum_ (hist D) (s - P) s) = false ->
  exists b ph D', accept_ D s P (window_sum_ (hist D) (s - P) s) = Ok (b, D') /\ accepted ks D s P ph b D'.
Proof.
  intros HP Hbase Hsq Hsame Href. unfold accept_. unfold short in Hs.
  pose proof (hk_base _ _ _ (ln_hist _ _ _ _ _ HL)) as Hb0. rewrite MAX_PERIOD_eq in HP. unfold K in *.
  rewrite (wrap_small 64 (s - P)) by lia.
  destruct (best_phase_ok ks D (s + 1) HL Hs ltac:(unfold K; lia) (s - P) P (Z.to_nat P) 0 0 UINT64_MAX)
    as (ph & bc & -> & Hph & Hlone & Hfirst); try lia; try done; [by left|].
  cbn [rbind]. rewrite (wrap_small 64 (s + ph)) by lia.
  set (D1 := set_acc D _). exists (ph =? 0), ph. destruct (Z.eqb_spec ph 0) as [->|Hne].
  - destruct (fire_ok D1) as (D2 & -> & Hp2 & Hnb2 & Hb2 & Hll & Hosb & Hbd2 & Hsig & Hpos & Hh & Ht & Hr & Hu);
      try (subst D1; simpl; lia). subst D1. simpl in *.
    exists D2. split; [done|].
    split; rewrite ?MAX_PERIOD_eq; unfold K; auto; try lia.
    + rewrite Hu. intros E. by apply Hlone, Z.eqb_eq.
    + intros _. unfold K in Hosb. split_and!; lia.
  - eexists. split; [done|]. subst D1.
    split; rewrite ?MAX_PERIOD_eq; unfold K; simpl; auto; try lia.
    + intros E. by apply Hlone, Z.eqb_eq.
Qed.

Lemma search_loop_ok tries : forall link,
  link = 0 \/ (exists t, link = t + 1 /\ 0 <= t < s /\ wfp ks t = wfp ks s) ->
  exists b D', search_loop tries D s link = Ok (b, D') /\
    ((b = false /\ D' = D) \/ exists P ph, accepted ks D s P ph b D').
Proof.
  pose proof (hk_base _ _ _ (ln_hist _ _ _ _ _ HL)) as Hb0. unfold short in Hs.
  pose proof (hk_room _ _ _ (ln_hist _ _ _ _ _ HL)) as Hroom.
  pose proof (hcap_bounds _ _ _ (ln_hist _ _ _ _ _ HL)) as Hcb.
  pose proof (held_bounds (base_ D) ltac:(lia)) as Hhb.
  induction tries as [|tries IH]; intros link Hlink; cbn [search_loop]; [eauto 10|].
  destruct Hlink as [->|(t & -> & Ht & Hsame)]; [simpl; eauto 10|].
  destruct (Z.eqb_spec (t + 1) 0); [lia|]. replace (t + 1 - 1) with t by lia.
  unfold K in Hw. rewrite (wrap_small 64 t) by lia.
  destruct (Z.ltb_spec t (base_ D)); [eauto 10|].
  rewrite (wrap_small 64 (s - t)), (wrap_small 64 (s - base_ D)), (wrap_small 64 (2 * (s - t))) by lia.
  destruct (Z.ltb_spec (s - base_ D) (2 * (s - t))); [eauto 10|].
  set (P := s - t). rewrite (wrap_small 64 (s - P)) by (unfold P; lia).
  assert (HPm : P <= MAX_PERIOD).
  { rewrite MAX_PERIOD_eq. unfold held in *. destruct (Z.eqb_spec (base_ D) 0); unfold P; lia. }
  assert (E32 : u32 P = P) by (apply wrap_small; rewrite MAX_PERIOD_eq in HPm; unfold P in *; lia). rewrite E32.
  destruct (_ && _ && _) eqn:Etest.
  - reflect_bools. rewrite (is_square_spec ks (base_ D) (hist D) (ln_hist _ _ _ _ _ HL) ltac:(lia)) in *
      by (unfold P in *; lia).
    match goal with H : bool_decide _ = true |- _ => apply bool_decide_eq_true in H; rename H into Hsq end.
    unfold mint_period. rewrite (proj2 (Z.leb_le _ _)), (proj2 (Z.leb_le P _)) by done. cbn [andb require rbind].
    destruct (accept_ok P) as (b & ph & D' & E & Hacc);
      [done|unfold P; lia|done|unfold P; by replace (s - (s - t)) with t by lia|done|].
    rewrite E. exists b, D'. split; [done|]. right. eauto.
  - apply IH. destruct (ln_links _ _ _ _ _ HL t ltac:(lia)) as [[-> _]|(t' & -> & Ht' & Hf & _)]; [by left|].
    right. exists t'. split; [done|]. split; [lia|congruence].
Qed.

(** The nearest earlier copy of the newest window, when its period is good. *)
Record good_candidate (P : Z) : Prop := {
  gc_period : K <= P;
  gc_hist : base_ D <= s - 2 * P;
  gc_square : square ks s P;
  gc_same : wfp ks (s - P) = wfp ks s;
  gc_nearest : lone_window ks s P;
  gc_unrefuted : is_refuted (ref D) P (window_sum_ (hist D) (s - P) s) = false;
}.

Lemma search_takes_nearest P link :
  good_candidate P -> link_ok ks (base_ D) s link ->
  exists b ph D', search_ D s link = Ok (b, D') /\ accepted ks D s P ph b D'.
Proof.
  intros [HP Hbase Hsq Hsame Hnear Href] Hlink. pose proof (hk_base _ _ _ (ln_hist _ _ _ _ _ HL)) as Hb0.
  pose proof (hk_room _ _ _ (ln_hist _ _ _ _ _ HL)) as Hroom.
  pose proof (hcap_bounds _ _ _ (ln_hist _ _ _ _ _ HL)) as Hcb.
  pose proof (held_bounds (base_ D) ltac:(lia)) as Hhb. unfold short in Hs.
  assert (link = s - P + 1) as ->.
  { unfold K in HP. destruct Hlink as [[-> Hn]|(t & -> & Ht & Hf & Hn)]; [exfalso; apply (Hn (s - P)); [lia|done]|].
    destruct (Z.lt_trichotomy t (s - P)) as [Hlt|[->|Hgt]]; [|done|].
    - exfalso. apply (Hn (s - P)); [lia|done].
    - exfalso. apply (Hnear t); [lia|done]. }
  assert (HPm : P <= MAX_PERIOD).
  { rewrite MAX_PERIOD_eq. unfold held, K in *. destruct (Z.eqb_spec (base_ D) 0); lia. }
  unfold search_. destruct (Z.to_nat MAX_CANDIDATES) as [|tries] eqn:En; [vm_compute in En; discriminate|]. cbn [search_loop]. unfold K in Hw, HP.
  replace (s - P + 1 - 1) with (s - P) by lia. rewrite (wrap_small 64 (s - P)) by lia.
  replace (s - (s - P)) with P by lia.
  rewrite MAX_PERIOD_eq in HPm. rewrite (wrap_small 64 P), (wrap_small 64 (s - base_ D)), (wrap_small 64 (2 * P)) by lia.
  rewrite (wrap_small 64 (s - P)), (wrap_small 32 P) by lia.
  rewrite (proj2 (Z.eqb_neq (s - P + 1) 0)), (proj2 (Z.ltb_ge (s - P) (base_ D))) by lia.
  rewrite (proj2 (Z.ltb_ge (s - base_ D) (2 * P))) by lia.
  rewrite (is_square_spec ks (base_ D) (hist D) (ln_hist _ _ _ _ _ HL)) by lia.
  rewrite (bool_decide_eq_true_2 _ Hsq), Href, (proj2 (Z.leb_le K P)) by (unfold K; lia).
  cbn [andb negb]. unfold mint_period.
  rewrite (proj2 (Z.leb_le K P)), (proj2 (Z.leb_le P _)) by (rewrite ?MAX_PERIOD_eq; unfold K; lia).
  cbn [andb require rbind].
  destruct (accept_ok P) as (b & ph & D' & E & Hacc);
    [rewrite MAX_PERIOD_eq; unfold K; lia|done..|].
  rewrite E. eauto.
Qed.
End Search.

(** * The detector is sound, complete and always ends

    One check keeps the invariant and has one of four outcomes: nothing, a
    break of the accepted period, a new period, or the report of a boundary.
    From the outcomes follow the soundness of a report, the bound that
    oldest_claimable promises, and the end of every check. *)

#[local] Open Scope result_scope.

(** What a check that ends at stream [ks] did to [D]. *)
Inductive outcome ks (D D' : IterationDetector) : bool -> Prop :=
| out_quiet :
    period_ (acc D') = period_ (acc D) -> next_boundary_ (acc D') = next_boundary_ (acc D) -> ref D' = ref D ->
    (period_ (acc D) <> 0 -> len ks <> next_boundary_ (acc D) + K) ->
    (period_ (acc D) = 0 -> forall s P, s + K = len ks -> ~ good_candidate ks D' s P) ->
    (len ks - held (base_ D) <= HISTORY_MAX_CAPACITY -> base_ D' = base_ D) ->
    outcome ks D D' false
| out_break :
    period_ (acc D) <> 0 -> period_ (acc D') = 0 -> len ks = next_boundary_ (acc D) + K ->
    ~ (square ks (next_boundary_ (acc D)) (period_ (acc D)) /\
       slice ks (next_boundary_ (acc D) - period_ (acc D)) K = slice ks (next_boundary_ (acc D)) K) ->
    outcome ks D D' false
| out_accept s P ph :
    s + K = len ks -> period_ (acc D) = 0 -> period_ (acc D') = P -> K <= P <= MAX_PERIOD ->
    base_ D <= s - 2 * P -> 0 < ph < P -> square ks s P -> wfp ks (s - P) = wfp ks s -> ref D' = ref D ->
    ~ lone_window ks (s - P) P -> (phase_is_unique (acc D') = true -> lone_window ks (s - P + ph) P) ->
    next_boundary_ (acc D') = s + ph -> outcome ks D D' false
| out_report s P :
    s + K = len ks -> period_ (acc D') = P -> last_completed_len (cnt D') = P -> K <= P <= MAX_PERIOD ->
    0 <= base_ D <= s - 2 * P -> square ks s P -> next_boundary_ (acc D') = s + P -> ref D' = ref D ->
    ((period_ (acc D) = 0 /\ wfp ks (s - P) = wfp ks s) \/
     (period_ (acc D) = P /\ next_boundary_ (acc D) = s /\ slice ks (s - P) K = slice ks s K)) ->
    outcome ks D D' true.

(** The state of a check before the branch on the mode. *)
Record ready ks (key : Z) (D0 D : IterationDetector) : Prop := {
  rd_push : pushed ks key D0 D;
  rd_ref : ref D = ref D0;
  rd_pos : pos_ D = len ks + 1;
  rd_sig : signature_len (cnt D) = Z.min K (len ks + 1);
  rd_osb : 0 <= ops_since_boundary (cnt D) <= len ks + 1;
  rd_bd : 0 <= boundaries_detected (cnt D) <= len ks;
}.

Lemma len_snoc ks k : len (ks ++ [k]) = len ks + 1.
Proof. rewrite length_app. simpl. lia. Qed.

Lemma windows_snoc ks k : windows (ks ++ [k]) = windows ks + 1.
Proof. unfold windows. rewrite len_snoc. lia. Qed.

(** The invariant of a detector whose ring exists. *)
Lemma det_inv_intro ks D :
  parts_ok ks D -> pos_ D = len ks -> hold_ok D (len ks) -> signature_len (cnt D) = Z.min K (len ks) ->
  0 <= ops_since_boundary (cnt D) <= len ks -> 0 <= boundaries_detected (cnt D) <= len ks -> det_inv ks D.
Proof.
  intros HP Hpos Hhold Hsig Hosb Hbd. split; auto. split; auto. intros E. exfalso.
  pose proof (hcap_bounds _ _ _ (po_hist _ _ HP)) as Hcap. unfold hcap in Hcap. lia.
Qed.

Lemma verify_boundary_ok ks key D0 D :
  ready ks key D0 D -> short (ks ++ [key]) -> len ks < UINT32_MAX -> period_ (acc D) <> 0 ->
  len ks + 1 = next_boundary_ (acc D) + K ->
  exists b D', verify_boundary_ D = Ok (b, D') /\ det_inv (ks ++ [key]) D' /\ base_ D <= base_ D' /\
    outcome (ks ++ [key]) D D' b.
Proof.
  intros HR Hs Hsmall Hp Hnb. destruct HR as [[Hh Hb Hm Ht _ Hho _ _] _ Hpos Hsig Hosb Hbd].
  simpl in *. specialize (Hho Hp). simpl in Hho. rewrite MAX_PERIOD_eq in Hho.
  unfold short in Hs. rewrite len_snoc in Hs. pose proof (hk_base _ _ _ Hh) as Hb0. rewrite len_snoc in Hb0.
  unfold verify_boundary_. set (nb := next_boundary_ (acc D)) in *. set (P := period_ (acc D)) in *.
  unfold K in Hnb, Hho.
  rewrite (is_square_spec (ks ++ [key]) (base_ D) (hist D) Hh) by (rewrite ?len_snoc; lia).
  rewrite (wrap_small 64 (nb - P)) by lia.
  rewrite (windows_equal_spec (ks ++ [key]) (base_ D) (hist D) Hh) by (unfold K; rewrite ?len_snoc; lia).
  destruct (bool_decide _ && bool_decide _) eqn:E.
  - apply andb_prop in E as [Hsq Hwin]. apply bool_decide_eq_true in Hsq, Hwin.
    destruct (fire_ok D) as (D' & -> & Hp' & Hnb' & Hb' & Hll & Hosb' & Hbd' & Hsig' & Hpos' & Hh' & Ht' & Hr' & _);
      fold nb P; try lia. fold nb P in Hp', Hnb', Hb', Hll.
    exists true, D'. split; [done|]. split; [|split; [lia|]].
    + apply det_inv_intro; rewrite ?len_snoc, ?Hpos', ?Hsig', ?Hosb', ?Hbd'; auto; try (unfold K; lia).
      * split; rewrite ?Hb', ?Hh', ?Ht'; auto; [..|congruence].
        -- apply (hist_ok_base _ _ _ _ Hh). rewrite len_snoc. lia.
        -- right. rewrite windows_snoc. unfold windows, K. lia.
      * intros _. rewrite Hp', Hnb', Hb', MAX_PERIOD_eq. unfold K. lia.
    + apply (out_report _ _ _ nb P); rewrite ?len_snoc, ?MAX_PERIOD_eq; unfold K; auto; try lia.
  - set (D1 := set_acc _ _).
    destruct (hk_pow _ _ _ Hh) as (k & Hk & Ek). pose proof (pow_cap k Hk) as Hcap.
    assert (E2 : ((history_mask_ (hist D1) ⊞ 1) ⊠ 2)%u64 = 2 ^ (k + 1)).
    { subst D1. cbn [hist set_acc set_ref]. change (history_mask_ (hist D) + 1) with (hcap (hist D)).
      rewrite (wrap_small 64 (hcap _)), Ek, (wrap_small 64 (_ * 2)), Z.pow_add_r by lia. lia. }
    assert (Ee : ((pos_ D1 ⊞ 1) ⊟ K)%u64 = Z.max 0 (windows (ks ++ [key]))).
    { subst D1. cbn [pos_ set_acc set_ref]. rewrite Hpos, windows_snoc. unfold windows, K.
      rewrite (wrap_small 64 (_ + 1)), wrap_small by lia. lia. }
    rewrite E2, Ee.
    destruct (rebuild_table_ok (ks ++ [key]) D1 (k + 1)) as (D2 & -> & HP2 & (Ha2 & Hc2 & Hr2 & Hpos2) & Hb2 & Hm2 & _).
    { done. } { unfold short. rewrite len_snoc. lia. } { right. simpl. rewrite windows_snoc. unfold windows, K. lia. }
    { lia. } { subst D1. cbn [hist set_acc set_ref]. rewrite Ek, Z.pow_add_r by lia. lia. }
    cbn [rbind]. exists false, D2. split; [done|]. split; [|split; [subst D1; simpl in *; lia|]].
    + subst D1. simpl in *. apply det_inv_intro; rewrite ?len_snoc, ?Hc2, ?Hpos2; auto; try lia.
      intros Ez. by rewrite Ha2 in Ez.
    + apply out_break; auto; [by rewrite Ha2|by rewrite len_snoc|]. fold nb P. intros [Hsq Hwin].
      unfold square in Hsq. by rewrite (bool_decide_eq_true_2 _ Hsq), (bool_decide_eq_true_2 _ Hwin) in E.
Qed.

(** The branch of check that searches. *)
Lemma search_branch_ok ks key D0 D :
  ready ks key D0 D -> short (ks ++ [key]) -> len ks < UINT32_MAX -> period_ (acc D) = 0 -> 0 <= windows ks ->
  exists b D', (let* '(link, D) := link_window_ D (windows ks) in search_ D (windows ks) link) = Ok (b, D') /\
    det_inv (ks ++ [key]) D' /\ base_ D <= base_ D' /\ outcome (ks ++ [key]) D D' b.
Proof.
  intros HR Hs Hsmall Hp Hw. destruct HR as [[Hh Hb Hm Ht HL Hho Ha _] _ Hpos Hsig Hosb Hbd].
  simpl in *. specialize (HL Hp). pose proof (hk_base _ _ _ Hh) as Hb0.
  assert (Hbw : base_ D <= windows ks) by lia. rewrite Z.max_r in HL by done.
  assert (Hend : windows ks + K = len (ks ++ [key])) by (rewrite len_snoc; unfold windows; lia).
  destruct (link_one _ _ _ _ _ HL Hbw ltac:(lia)) as (l & T & E & HL' & Hsz).
  unfold link_window_. rewrite E. cbn [rbind].
  set (D1 := set_tab (set_hist D (set_link (hist D) (windows ks) l)) T).
  change (hist D1) with (set_link (hist D) (windows ks) l) in *.
  pose proof (ln_links _ _ _ _ _ HL' (windows ks) ltac:(lia)) as Hlk.
  rewrite link_at_set, bool_decide_eq_true_2 in Hlk by done.
  assert (Hlink : l = 0 \/ exists t, l = t + 1 /\ 0 <= t < windows ks /\ wfp (ks ++ [key]) t = wfp (ks ++ [key]) (windows ks)).
  { destruct Hlk as [[-> _]|(t & -> & ? & ? & _)]; [by left|right; eauto]. }
  destruct (search_loop_ok (ks ++ [key]) D1 (windows ks) HL' Hs Hend Hbw) with (tries := Z.to_nat MAX_CANDIDATES) (link := l)
    as (b & D' & Es & Hout); [simpl; lia|done|]. exists b, D'. split; [exact Es|]. clear E.
  assert (Hparts : forall D', hist D' = hist D1 -> tab D' = tab D1 -> base_ D <= base_ D' <= windows ks ->
    (period_ (acc D') = 0 -> base_ D' = base_ D) -> parts_ok (ks ++ [key]) D').
  { intros D2 Eh Et Hb2 Hz. split; rewrite ?Eh, ?Et, ?windows_snoc; simpl.
    - apply (hist_ok_base _ (base_ D)); [apply HL'|rewrite len_snoc; unfold windows, K in *; lia].
    - lia.
    - by rewrite Hsz.
    - intros E0. rewrite (Hz E0), Z.max_r by lia. done. }
  destruct Hout as [[-> ->]|(P & ph & Hacc)].
  - split; [|split; [done|apply out_quiet; auto; intros _ s P Hsk Hgood]].
    2: { assert (s = windows ks) as -> by lia.
         destruct (search_takes_nearest (ks ++ [key]) D1 (windows ks) HL' Hs Hend Hbw ltac:(simpl; lia) P l Hgood Hlk)
           as (b' & ph & D2 & E2 & Hacc). unfold search_ in E2. rewrite Es in E2. simplify_eq.
         pose proof (ac_set _ _ _ _ _ _ _ Hacc) as Hz. pose proof (ac_period _ _ _ _ _ _ _ Hacc).
         simpl in Hz. unfold K in *. lia. }
    clear Es. apply det_inv_intro; rewrite ?len_snoc; auto; [apply Hparts; auto; simpl; lia|by intros ?|simpl; lia].
  - clear Es. destruct Hacc as [HP Hhist Hsq Hsame Hph Hfirst Href Hset Huniq Hh' Ht' Hr' Hpos' Hsig' -> Hnow Hlater].
    rewrite MAX_PERIOD_eq in HP. subst D1. simpl in *. unfold K in HP.
    destruct (Z.eqb_spec ph 0) as [E0|E0].
    + destruct (Hnow E0) as (Hnb & Hb' & Hll & Hosb' & Hbd'). split; [|split; [lia|]].
      * apply det_inv_intro; rewrite ?len_snoc, ?Hpos', ?Hsig', ?Hosb', ?Hbd'; auto; try (unfold windows, K in *; lia).
        -- apply Hparts; auto; lia.
        -- intros _. rewrite Hset, Hnb, Hb', MAX_PERIOD_eq. unfold windows, K in *. lia.
      * apply (out_report _ _ _ (windows ks) P); rewrite ?MAX_PERIOD_eq; unfold K; auto; lia.
    + destruct (Hlater E0) as (Hnb & Hb' & Hcnt). split; [|split; [lia|]].
      * apply det_inv_intro; rewrite ?len_snoc, ?Hpos', ?Hcnt; auto; try lia.
        -- apply Hparts; auto; lia.
        -- intros _. rewrite Hset, Hnb, Hb', MAX_PERIOD_eq. unfold windows, K in *. lia.
      * apply (out_accept _ _ _ (windows ks) P ph); rewrite ?MAX_PERIOD_eq; unfold K; auto; lia || (intros Hl; apply E0, Hfirst, Hl).
Qed.

Lemma short_snoc ks k : len ks < UINT32_MAX -> short ks /\ short (ks ++ [k]).
Proof. unfold short, UINT32_MAX. rewrite len_snoc. lia. Qed.

(** A check that neither searches nor verifies. *)
Lemma quiet_inv ks key D0 D :
  ready ks key D0 D -> hold_ok D (len ks + 1) ->
  (period_ (acc D) = 0 ->
     linked (ks ++ [key]) (base_ D) (Z.max (base_ D) (windows (ks ++ [key]))) (hist D) (tab D)) ->
  det_inv (ks ++ [key]) D.
Proof.
  intros [[Hh Hb Hm Ht HL Hho Ha _] _ Hpos Hsig Hosb Hbd] Hhold Hlink.
  apply det_inv_intro; rewrite ?len_snoc; auto; [|lia]. split; auto. rewrite windows_snoc. lia.
Qed.

(** Before the first window is complete. *)
Lemma few_keys_inv ks key D0 D :
  ready ks key D0 D -> Z.min K (len ks + 1) < K -> det_inv (ks ++ [key]) D.
Proof.
  intros HR Hfew. destruct (rd_push _ _ _ _ HR) as [Hh Hb Hm Ht HL Hho Ha _].
  pose proof (hk_base _ _ _ Hh) as Hb0. assert (Hz : base_ D = 0) by (unfold windows, K in *; lia).
  apply (quiet_inv ks key D0); auto.
  - intros Hp. specialize (Hho Hp). unfold K in *. lia.
  - intros Hp. specialize (HL Hp). rewrite windows_snoc.
    replace (Z.max (base_ D) (windows ks + 1)) with (Z.max (base_ D) (windows ks)); [done|].
    unfold windows, K in *. lia.
Qed.

Lemma core_base_nonneg ks D : core_inv ks D -> 0 <= base_ D.
Proof.
  intros HD. destruct (Z.eq_dec (history_mask_ (hist D)) 0) as [E|E].
  - destruct (ci_fresh _ _ HD E) as (_ & -> & _). done.
  - apply (hk_base _ _ _ (po_hist _ _ (ci_parts _ _ HD E))).
Qed.

Lemma outcome_weaken ks D D1 D' b :
  acc D1 = acc D -> ref D1 = ref D -> 0 <= base_ D <= base_ D1 ->
  (len ks - held (base_ D) <= HISTORY_MAX_CAPACITY -> base_ D1 = base_ D) ->
  outcome ks D1 D' b -> outcome ks D D' b.
Proof.
  intros Ha Hr Hb Hkeep Ho. destruct Ho as [Hp Hn Href Hno Hcand Hbase|Hp Hp' Hl Hns|s P ph Hs Hp Hp' HP Hh Hph Hsq Hsm Hrf Hlw Hu Hn|
                  s P Hs Hp Hll HP Hh Hsq Hn Hrf Hprev]; rewrite ?Ha, ?Hr in *.
  - apply out_quiet; auto. intros Hle. rewrite <- (Hkeep Hle). apply Hbase. by rewrite (Hkeep Hle).
  - by apply out_break.
  - apply (out_accept _ _ _ s P ph); auto; lia.
  - apply (out_report _ _ _ s P); auto; lia.
Qed.

(** One check: it always ends, keeps the invariant, and has one of the
    outcomes. *)
Lemma check_ok ks D schema shape :
  det_inv ks D -> len ks < UINT32_MAX ->
  exists b D', check D schema shape = Ok (b, D') /\ det_inv (ks ++ [key_of_ schema shape]) D' /\
    base_ D <= base_ D' /\ outcome (ks ++ [key_of_ schema shape]) D D' b.
Proof.
  intros [HD Hsig Hosb Hbd] Hlt. destruct (short_snoc ks (key_of_ schema shape) Hlt) as [Hs Hs']. unfold check.
  set (key := key_of_ schema shape) in *.
  rewrite monotonic_bump_ok by lia. cbn [rbind]. set (D1 := set_cnt D _).
  destruct (append_ok ks D1 key (core_set_cnt _ _ _ HD) Hs) as (D2 & -> & HP & (Ha & Hc & Hrf & Hp)).
  cbn [rbind]. set (D3 := set_cnt (set_pos D2 _) _).
  assert (Hp3 : (pos_ D2 ⊞ 1)%u64 = len ks + 1).
  { rewrite Hp. subst D1. simpl. rewrite (ci_pos _ _ HD). unfold short in Hs. rewrite wrap_small; lia. }
  assert (HR : ready ks key D D3).
  { subst D3 D1. split; simpl; rewrite ?Hp3, ?Hc; simpl; auto; try lia.
    - destruct HP. by split.
    - rewrite Hsig. unfold bump_signature. destruct (Z.ltb_spec (Z.min K (len ks)) K); unfold K in *; lia. }
  assert (Hacc : acc D3 = acc D) by (subst D3 D1; simpl in *; by rewrite Ha).
  assert (Hb3 : base_ D <= base_ D3) by apply (pu_mono _ _ _ _ (rd_push _ _ _ _ HR)).
  clearbody D3. rewrite (rd_sig _ _ _ _ HR). cbn [pos_ set_pos]. rewrite Hp3.
  assert (Hout : forall b D', det_inv (ks ++ [key]) D' /\ base_ D3 <= base_ D' /\ outcome (ks ++ [key]) D3 D' b ->
    det_inv (ks ++ [key]) D' /\ base_ D <= base_ D' /\ outcome (ks ++ [key]) D D' b).
  { intros b D' (HI & Hle & Ho). split; [done|]. split; [lia|].
    apply (outcome_weaken _ D D3); auto; [apply HR|split; [by apply (core_base_nonneg ks)|done]|].
    rewrite len_snoc. apply HR. }
  destruct (Z.ltb_spec (Z.min K (len ks + 1)) K) as [Hfew|Hmany].
  - exists false, D3. split; [done|]. apply Hout. split; [by apply (few_keys_inv ks key D)|].
    split; [done|]. apply out_quiet; auto; rewrite ?len_snoc.
    + intros Ep. pose proof (pu_hold _ _ _ _ (rd_push _ _ _ _ HR) Ep) as Hho. pose proof (core_base_nonneg _ _ HD).
      unfold K in *. lia.
    + intros _ s P Hsk [HP1 HP2 _ _ _ _]. pose proof (core_base_nonneg _ _ HD). unfold K in *. lia.
  - destruct (Z.eqb_spec (period_ (acc D3)) 0) as [Ep|Ep]; cbn [negb].
    + rewrite (wrap_small 64 (_ - K)) by (unfold short, K in *; lia).
      replace (len ks + 1 - K) with (windows ks) by (unfold windows; lia).
      destruct (search_branch_ok ks key D D3 HR Hs' Hlt Ep) as (b & D' & -> & HI); [unfold windows, K in *; lia|].
      exists b, D'. split; [done|]. by apply Hout.
    + pose proof (pu_hold _ _ _ _ (rd_push _ _ _ _ HR) Ep) as Hho. rewrite MAX_PERIOD_eq in Hho.
      rewrite (wrap_small 64 (_ + K)) by (unfold short, K in *; lia).
      destruct (Z.eqb_spec (len ks + 1) (next_boundary_ (acc D3) + K)) as [Eb|Eb].
      * destruct (verify_boundary_ok ks key D D3 HR Hs' Hlt Ep Eb) as (b & D' & -> & HI).
        exists b, D'. split; [done|]. by apply Hout.
      * exists false, D3. split; [done|]. apply Hout. split; [|split; [done|apply out_quiet; auto; rewrite ?len_snoc; done]].
        apply (quiet_inv ks key D); auto; [|done]. intros _. rewrite MAX_PERIOD_eq. lia.
Qed.
