(* ===== verification/DetectorTheorems.v ===== *)
(** * DetectorTheorems.v: what the detector guarantees

    The properties of every reachable detector, and of the detector on a
    stream that repeats. *)

From stdpp Require Import base list gmap strings.
From Stdlib Require Import ZArith Lia.
From S2P Require Import Prelude Hash WindowTable Detector DetectorHist DetectorProofs.
#[local] Open Scope Z_scope.
#[local] Open Scope result_scope.

Implicit Types ks : list Z.

(** The table has at least a slot for each slot of the ring.  restart_ keeps
    the size of the table, and a ring that grew while a period was accepted
    can be larger. *)
Definition table_fits (D : IterationDetector) : Prop := hcap (hist D) <= tsize (tab D).

(** The detectors that checks and restarts reach, with the keys since the last
    restart. *)
Inductive det_reach : list Z -> IterationDetector -> Prop :=
| reach_new : det_reach [] new_detector
| reach_check ks D schema shape b D' :
    det_reach ks D -> len ks < UINT32_MAX -> check D schema shape = Ok (b, D') ->
    det_reach (ks ++ [key_of_ schema shape]) D'
| reach_restart ks D D' :
    det_reach ks D -> table_fits D -> restart_after_divergence D = Ok D' -> det_reach [] D'
| reach_reset ks D D' : det_reach ks D -> table_fits D -> reset D = Ok D' -> det_reach [] D'.

Lemma new_detector_inv : det_inv [] new_detector.
Proof. by split. Qed.

Lemma restart_ok ks D :
  core_inv ks D -> table_fits D -> exists D', restart_ D = Ok D' /\ det_inv [] D'.
Proof.
  intros HD Hfit. unfold restart_. set (D1 := mkDet _ _ _ _ _ _ _). unfold table_fits in Hfit.
  destruct (Z.eq_dec (history_mask_ (hist D)) 0) as [E|E].
  - destruct (ci_fresh _ _ HD E) as (_ & _ & _ & Ht). unfold tsize in Ht.
    replace (table_mask_ (tab D1)) with 0 by (subst D1; simpl; lia). simpl. exists D1. split; [done|].
    by split.
  - destruct (ci_parts _ _ HD E) as [Hh Hb (k & Hk & Ek) _]. pose proof (hcap_bounds _ _ _ Hh) as Hcb.
    assert (E1 : (table_mask_ (tab D1) =? 0) = false) by (apply Z.eqb_neq; subst D1; simpl; unfold tsize in *; lia).
    rewrite E1. cbn [negb].
    assert (E2 : (table_mask_ (tab D1) ⊞ 1)%u64 = 2 ^ k).
    { subst D1. simpl. change (table_mask_ (tab D) + 1) with (tsize (tab D)). rewrite Ek. apply wrap_small.
      split; [apply Z.pow_nonneg; lia|apply Z.pow_lt_mono_r; lia]. }
    rewrite E2. change 0 with (Z.max 0 (windows [])).
    assert (Hh1 : hist_ok [] (base_ D1) (hist D1)).
    { subst D1. split; simpl; [apply Hh|lia|unfold held; simpl; lia|]. unfold held. simpl. intros. lia. }
    destruct (rebuild_table_ok [] D1 k Hh1) as (D2 & -> & HP & (Ha & Hc & _ & Hp) & _);
      [unfold short; simpl; lia|by left|lia|subst D1; simpl; lia|].
    exists D2. split; [done|]. apply det_inv_intro; rewrite ?Hc, ?Hp; simpl; auto; try lia.
    intros Hne. by rewrite Ha in Hne.
Qed.

Lemma core_set_ref ks D r : core_inv ks D -> core_inv ks (set_ref D r).
Proof. intros [? ? HP ?]. split; auto. intros E. destruct (HP E). by split. Qed.

Lemma det_set_ref ks D r : det_inv ks D -> det_inv ks (set_ref D r).
Proof. intros [? ? ? ?]. split; auto. by apply core_set_ref. Qed.

Lemma det_reach_inv ks D : det_reach ks D -> det_inv ks D.
Proof.
  induction 1 as [|ks D sc sh b D' _ IH Hl E|ks D D' _ IH Hf E|ks D D' _ IH Hf E].
  - apply new_detector_inv.
  - destruct (check_ok ks D sc sh IH Hl) as (b' & D2 & E2 & HI & _). rewrite E in E2. by simplify_eq.
  - unfold restart_after_divergence in E.
    match type of E with restart_ (set_ref D ?r) = _ =>
      destruct (restart_ok ks (set_ref D r) (core_set_ref _ _ _ (di_core _ _ IH)) Hf) as (D2 & E2 & HI) end.
    rewrite E2 in E. by simplify_eq.
  - unfold reset in E. destruct (restart_ok ks D (di_core _ _ IH) Hf) as (D2 & E2 & HI).
    rewrite E2 in E. simpl in E. simplify_eq. by apply det_set_ref.
Qed.

(** ** Soundness and termination *)

(** C6: a reported boundary is the end of a repetition.  The last [P] keys
    before the boundary equal the [P] keys before them, where [P] is the
    reported length, and the K newest keys start the next iteration. *)
Theorem detector_report_is_repetition ks D schema shape D' :
  det_reach ks D -> len ks < UINT32_MAX -> check D schema shape = Ok (true, D') ->
  let keys := ks ++ [key_of_ schema shape] in
  let P := last_completed_len (cnt D') in
  let s := len keys - K in
  K <= P <= MAX_PERIOD /\ 2 * P <= s /\ slice keys (s - 2 * P) P = slice keys (s - P) P.
Proof.
  intros HR Hl E. destruct (check_ok ks D schema shape (det_reach_inv _ _ HR) Hl) as (b & D2 & E2 & _ & _ & Ho).
  rewrite E in E2. simplify_eq. cbv zeta.
  inversion Ho as [| | |s P Hs Hp Hll HP Hb Hsq Hn Hrf Hprev]; subst. rewrite Hll.
  replace (len (ks ++ [key_of_ schema shape]) - K) with s by lia. split_and!; auto; lia.
Qed.

(** Every check of a reachable detector ends, whatever the op, and the
    ring never has more than 2^19 slots. *)
Theorem detector_check_ends ks D schema shape :
  det_reach ks D -> len ks < UINT32_MAX ->
  exists b D', check D schema shape = Ok (b, D') /\ history_capacity D' <= HISTORY_MAX_CAPACITY.
Proof.
  intros HR Hl. destruct (check_ok ks D schema shape (det_reach_inv _ _ HR) Hl) as (b & D' & E & HI & _).
  exists b, D'. split; [done|]. unfold history_capacity. change HISTORY_MAX_CAPACITY with (2 ^ 19).
  destruct (Z.eqb_spec (history_mask_ (hist D')) 0) as [_|E0]; [lia|].
  pose proof (hcap_bounds _ _ _ (po_hist _ _ (ci_parts _ _ (di_core _ _ HI) E0))) as Hc.
  unfold hcap in Hc. rewrite wrap_small; lia.
Qed.

(** ** The oldest op that a report can claim *)

Lemma oldest_claimable_eq ks D :
  core_inv ks D -> len ks < 2 ^ 62 ->
  let floor := if base_ D <? Z.max 0 (len ks - K) then base_ D + (Z.max 0 (len ks - K) - base_ D) / 2 else base_ D in
  oldest_claimable D = (if period_ (acc D) =? 0 then floor
                        else Z.min (next_boundary_ (acc D) - period_ (acc D)) floor).
Proof.
  intros HD Hl. cbv zeta. unfold oldest_claimable. rewrite (ci_pos _ _ HD).
  pose proof (core_base_nonneg _ _ HD) as Hb. unfold K.
  assert (En : (if 5 <? len ks then (len ks ⊟ 5)%u64 else 0) = Z.max 0 (len ks - 5)).
  { destruct (Z.ltb_spec 5 (len ks)); [rewrite wrap_small; lia|lia]. }
  rewrite En. set (ns := Z.max 0 (len ks - 5)).
  assert (Ef : (if base_ D <? ns then (base_ D ⊞ ((ns ⊟ base_ D)%u64 / 2))%u64 else base_ D)
    = (if base_ D <? ns then base_ D + (ns - base_ D) / 2 else base_ D)).
  { destruct (Z.ltb_spec (base_ D) ns); [|done]. rewrite (wrap_small 64 (ns - _)) by lia.
    rewrite wrap_small; [done|]. pose proof (Z.div_pos (ns - base_ D) 2 ltac:(lia) ltac:(lia)).
    pose proof (Z.div_le_upper_bound (ns - base_ D) 2 ns). lia. }
  rewrite Ef. destruct (Z.eqb_spec (period_ (acc D)) 0) as [|Ep]; [done|].
  pose proof (ci_hold _ _ HD Ep) as Hho. rewrite MAX_PERIOD_eq in Hho. unfold K in Hho.
  rewrite wrap_small by lia. set (fl := if base_ D <? ns then _ else _).
  destruct (Z.ltb_spec (next_boundary_ (acc D) - period_ (acc D)) fl); lia.
Qed.

(** Splits the tests of oldest_claimable and halves. *)
Ltac claims :=
  repeat match goal with
  | |- context [?a <? ?b] => destruct (Z.ltb_spec a b)
  | |- context [?a =? ?b] => destruct (Z.eqb_spec a b)
  end; (split; [|first [intros; discriminate|intros _]]); Z.div_mod_to_equations; lia.

(** The oldest claimable op never moves back, and a report never starts its
    iteration before it. *)
Lemma check_claims ks D schema shape b D' :
  det_inv ks D -> len ks < UINT32_MAX -> check D schema shape = Ok (b, D') ->
  oldest_claimable D <= oldest_claimable D' /\
  (b = true -> oldest_claimable D <= len ks + 1 - K - last_completed_len (cnt D')).
Proof.
  intros HI Hl E. destruct (check_ok ks D schema shape HI Hl) as (b2 & D2 & E2 & HI' & Hb & Ho).
  rewrite E in E2. simplify_eq. pose proof (core_base_nonneg _ _ (di_core _ _ HI)).
  rewrite (oldest_claimable_eq ks), (oldest_claimable_eq (ks ++ [key_of_ schema shape]) D2);
    [|apply HI'|rewrite ?len_snoc; unfold UINT32_MAX in Hl; lia|apply HI|unfold UINT32_MAX in Hl; lia].
  rewrite len_snoc. unfold K.
  assert (Hho := ci_hold _ _ (di_core _ _ HI)). unfold hold_ok in Hho. rewrite MAX_PERIOD_eq in Hho. unfold K in Hho.
  inversion Ho as [Hp Hn Hrf Hq Hc Hbb|Hp Hp' Hbl Hns|s P ph Hs Hp Hp' HP Hh Hph Hsq Hsm Hrf Hlw Hu Hn|
                   s P Hs Hp Hll HP Hh Hsq Hn Hrf Hprev]; subst;
    rewrite ?len_snoc, ?MAX_PERIOD_eq in *; unfold K in *; claims.
Qed.

(** A run of checks, with the length of each reported iteration. *)
Fixpoint run_checks (D : IterationDetector) (ops : list (Z * Z)) : result (list (option Z) * IterationDetector) :=
  match ops with
  | [] => Ok ([], D)
  | o :: ops =>
      let* '(b, D) := check D o.1 o.2 in
      let* '(rs, D') := run_checks D ops in
      Ok ((if b : bool then Some (last_completed_len (cnt D)) else None) :: rs, D')
  end.

Definition keys_of (ops : list (Z * Z)) : list Z := (fun o => key_of_ o.1 o.2) <$> ops.

(** The detector names the ops that it can still claim.  Whatever ops
    come after, a later report of [P] ops starts its iteration at or after the
    oldest claimable op of now, so that the ops before it can be dropped. *)
Theorem detector_oldest_claimable_sound ks D ops rs D' i P :
  det_reach ks D -> len ks + len ops < UINT32_MAX -> run_checks D ops = Ok (rs, D') ->
  rs !! i = Some (Some P) -> oldest_claimable D <= len ks + Z.of_nat i + 1 - K - P.
Proof.
  intros HR. apply det_reach_inv in HR. revert ks D HR rs i.
  induction ops as [|[sc sh] ops IH]; intros ks D HI rs i Hl E Hi; simpl in E; [by simplify_eq|].
  apply rbind_ok in E as ([b D1] & Ec & E). apply rbind_ok in E as ([rs1 D2] & Er & E). simplify_eq. simpl in *.
  destruct (check_ok ks D sc sh HI ltac:(lia)) as (b2 & D3 & E2 & HI2 & _). rewrite Ec in E2. simplify_eq.
  destruct (check_claims ks D sc sh _ _ HI ltac:(lia) Ec) as [Hmono Hrep].
  destruct i as [|i]; simpl in Hi.
  - destruct b2; simplify_eq. specialize (Hrep eq_refl). lia.
  - eapply IH in Hi; [|exact HI2|rewrite len_snoc; lia|eassumption]. rewrite len_snoc in Hi. lia.
Qed.

(** ** Completeness on a stream that repeats *)

(** The stream repeats with period [P], and no window of K keys occurs twice
    in a period (as its fingerprint tells). *)
Record repeats (P : Z) ks : Prop := {
  rp_period i : 0 <= i -> i + P < len ks -> key_of_stream ks i = key_of_stream ks (i + P);
  rp_lone i j : 0 <= i < j -> j < i + P -> j + K <= len ks -> wfp ks i <> wfp ks j;
}.

Lemma repeats_prefix P ks k : repeats P (ks ++ [k]) -> 0 <= P -> repeats P ks.
Proof.
  intros [Hp Hl] HP. split.
  - intros i Hi Hip. specialize (Hp i Hi). rewrite len_snoc, !key_of_stream_snoc in Hp by lia. apply Hp. lia.
  - intros i j Hi Hj Hjl. specialize (Hl i j Hi Hj). rewrite len_snoc, !wfp_snoc in Hl by lia. apply Hl. lia.
Qed.

Section Repeats.
Context (P : Z) (HP : K <= P <= MAX_PERIOD).

Lemma slice_repeats ks n : forall a,
  repeats P ks -> 0 <= a -> a + P + Z.of_nat n <= len ks ->
  slice ks a (Z.of_nat n) = slice ks (a + P) (Z.of_nat n).
Proof using HP.
  unfold K in HP. induction n as [|n IH]; intros a HR Ha Hl; [done|].
  rewrite Nat2Z.inj_succ. unfold Z.succ. rewrite !slice_cons by lia.
  rewrite (rp_period _ _ HR a) by lia. f_equal. replace (a + P + 1) with (a + 1 + P) by lia. apply IH; auto; lia.
Qed.

Lemma slice_repeats_Z ks n a :
  repeats P ks -> 0 <= a -> 0 <= n -> a + P + n <= len ks -> slice ks a n = slice ks (a + P) n.
Proof using HP.
  intros HR Ha Hn Hl. rewrite <- (Z2Nat.id n) by done. apply slice_repeats; auto. lia.
Qed.

Lemma wfp_repeats ks a : repeats P ks -> 0 <= a -> a + P + K <= len ks -> wfp ks a = wfp ks (a + P).
Proof using HP. intros HR Ha Hl. unfold wfp. f_equal. apply slice_repeats_Z; auto. unfold K. lia. Qed.

Lemma square_repeats ks s : repeats P ks -> 2 * P <= s -> s <= len ks -> square ks s P.
Proof using HP.
  intros HR Hs Hl. unfold square. replace (s - P) with (s - 2 * P + P) by lia. unfold K in HP.
  apply slice_repeats_Z; auto; lia.
Qed.

(** The state after the keys [ks] of the stream. *)
Record repeat_inv ks (D : IterationDetector) : Prop := {
  ri_inv : det_inv ks D;
  ri_ref : ref D = empty_refuted;
  ri_search : len ks < 2 * P + K -> period_ (acc D) = 0 /\ base_ D = 0;
  ri_hold : 2 * P + K <= len ks ->
    period_ (acc D) = P /\ next_boundary_ (acc D) mod P = 0 /\ 2 * P < next_boundary_ (acc D) /\
    next_boundary_ (acc D) - P + K <= len ks < next_boundary_ (acc D) + K;
}.

(** What the check of the last key of [ks] reports. *)
Definition expected ks : bool := (2 * P + K <=? len ks) && ((len ks - K) mod P =? 0).

(** In the first two periods a shorter period would need a window twice. *)
Lemma no_shorter ks s P' :
  repeats P ks -> s + K <= len ks -> 0 < P' < P -> P' <= s -> wfp ks (s - P') <> wfp ks s.
Proof using HP. intros HR Hs HP' Hle. apply (rp_lone _ _ HR); lia. Qed.

Lemma search_step ks D D' b :
  repeats P ks -> ref D = empty_refuted -> period_ (acc D) = 0 -> base_ D = 0 -> len ks <= 2 * P + K ->
  outcome ks D D' b ->
  (len ks < 2 * P + K /\ b = false /\ period_ (acc D') = 0 /\ base_ D' = 0 /\ ref D' = empty_refuted) \/
  (len ks = 2 * P + K /\ b = true /\ period_ (acc D') = P /\ next_boundary_ (acc D') = 3 * P /\
   last_completed_len (cnt D') = P /\ ref D' = empty_refuted).
Proof using HP.
  intros HR Href Hp0 Hb0 Hl Ho. pose proof HP as HP'. rewrite MAX_PERIOD_eq in HP'. unfold K in HP'.
  destruct Ho as [Hp Hn Hrf Hq Hc Hbb|Hp Hp' Hbl Hns|s Q ph Hs Hp Hp' HQ Hh Hph Hsq Hsm Hrf Hlw Hu Hn|
                  s Q Hs Hp Hll HQ Hh Hsq Hn Hrf [[_ Hsm]|[Hc _]]]; rewrite ?Hb0 in *; unfold K in *; try lia.
  - assert (Hb' : base_ D' = 0).
    { apply Hbb. change HISTORY_MAX_CAPACITY with (2 ^ 19). unfold held. simpl. lia. }
    assert (Hlt : len ks < 2 * P + 5).
    { destruct (Z_lt_le_dec (len ks) (2 * P + 5)); [done|]. exfalso.
      apply (Hc Hp0 (2 * P) P); [unfold K; lia|]. split; unfold K; try lia.
      - apply square_repeats; auto; lia.
      - replace (2 * P - P) with P by lia. replace (2 * P) with (P + P) by lia.
        apply wfp_repeats; auto; unfold K; lia.
      - intros t Ht. apply (rp_lone _ _ HR); unfold K; lia.
      - by rewrite Hrf, Href. }
    left. split_and!; auto; congruence.
  - exfalso. destruct (Z.eq_dec Q P) as [->|Hne]; [|apply (no_shorter ks s Q HR); unfold K; auto; lia].
    apply Hlw. intros t Ht. apply (rp_lone _ _ HR); unfold K; lia.
  - destruct (Z.eq_dec Q P) as [->|Hne]; [|exfalso; apply (no_shorter ks s Q HR); unfold K; auto; lia].
    right. split_and!; auto; try lia; congruence.
Qed.

Lemma hold_step ks D D' b :
  repeats P ks -> period_ (acc D) = P -> 2 * P < next_boundary_ (acc D) -> len ks <= next_boundary_ (acc D) + K ->
  outcome ks D D' b ->
  ref D' = ref D /\ period_ (acc D') = P /\
  ((b = false /\ len ks < next_boundary_ (acc D) + K /\ next_boundary_ (acc D') = next_boundary_ (acc D)) \/
   (b = true /\ len ks = next_boundary_ (acc D) + K /\ next_boundary_ (acc D') = next_boundary_ (acc D) + P /\
    last_completed_len (cnt D') = P)).
Proof using HP.
  intros HR Hp0 Hnb Hl Ho. pose proof HP as HP'. rewrite MAX_PERIOD_eq in HP'. unfold K in HP'.
  destruct Ho as [Hp Hn Hrf Hq Hc Hbb|Hp Hp' Hbl Hns|s Q ph Hs Hp Hp' HQ Hh Hph Hsq Hsm Hrf Hlw Hu Hn|
                  s Q Hs Hp Hll HQ Hh Hsq Hn Hrf [[Hc _]|(Hc & Hnb' & _)]]; try (unfold K in *; lia).
  - split; [done|]. split; [congruence|]. left. specialize (Hq ltac:(lia)). split_and!; auto; lia.
  - exfalso. apply Hns. rewrite Hp0. split; [apply square_repeats; auto; unfold K in *; lia|].
    replace (next_boundary_ (acc D)) with (next_boundary_ (acc D) - P + P) at 2 by lia.
    apply slice_repeats_Z; auto; unfold K in *; lia.
  - assert (Q = P) as -> by congruence. split; [done|]. split; [done|]. right. split_and!; auto; unfold K in *; lia.
Qed.

Lemma repeat_step ks D schema shape :
  let ks' := ks ++ [key_of_ schema shape] in
  repeat_inv ks D -> repeats P ks' -> len ks < UINT32_MAX ->
  exists b D', check D schema shape = Ok (b, D') /\ repeat_inv ks' D' /\ b = expected ks' /\
    (b = true -> last_completed_len (cnt D') = P).
Proof using HP.
  cbv zeta. intros [HI Href Hse Hho] HR Hl. pose proof HP as HP'. rewrite MAX_PERIOD_eq in HP'.
  destruct (check_ok ks D schema shape HI Hl) as (b & D' & E & HI' & _ & Ho). set (ks' := ks ++ _) in *.
  assert (Hlen : len ks' = len ks + 1) by apply len_snoc.
  exists b, D'. split; [done|]. unfold expected. rewrite Hlen.
  destruct (Z_lt_le_dec (len ks) (2 * P + K)) as [Hlt|Hge].
  - destruct (Hse Hlt) as [Hp Hb].
    destruct (search_step ks' D D' b HR Href Hp Hb ltac:(lia) Ho)
      as [(Hc & -> & Hp' & Hb' & Hr')|(Hc & -> & Hp' & Hn' & Hll & Hr')].
    + split; [split; auto; lia|]. split; [|done]. destruct (Z.leb_spec (2 * P + K) (len ks + 1)); [lia|done].
    + split; [split; [done|done|lia|intros _; rewrite Hn', Hlen, Z_mod_mult; unfold K in *; lia]|].
      split; [|done]. destruct (Z.leb_spec (2 * P + K) (len ks + 1)); [|lia].
      replace (len ks + 1 - K) with (2 * P) by lia. by rewrite Z_mod_mult.
  - destruct (Hho Hge) as (Hp & Hm & H2 & Hr1 & Hr2).
    destruct (Z.leb_spec (2 * P + K) (len ks + 1)); [|lia]. cbn [andb].
    destruct (hold_step ks' D D' b HR Hp H2 ltac:(lia) Ho) as (Hr' & Hp' & [(-> & Hc & Hn')|(-> & Hc & Hn' & Hll)]).
    + split; [split; [done|congruence|lia|intros _; rewrite Hn'; split_and!; auto; lia]|].
      split; [|done]. symmetry. apply Z.eqb_neq. intros Ez.
      apply Z.mod_divide in Hm as [c Hcm]; [|unfold K in *; lia]. apply Z.mod_divide in Ez as [e He]; [|unfold K in *; lia].
      clear Hho Hse. rewrite Hlen in Hc. unfold K in *. assert (c - 1 < e < c) by nia. lia.
    + split; [split; [done|congruence|lia|]|].
      * intros _. rewrite Hn', <- (Zplus_mod_idemp_r P), Z_mod_same_full, Z.add_0_r. unfold K in *. split_and!; auto; lia.
      * split; [|done]. symmetry. apply Z.eqb_eq. replace (len ks + 1 - K) with (next_boundary_ (acc D)) by lia. done.
Qed.
End Repeats.

Lemma run_checks_snoc D ops o :
  run_checks D (ops ++ [o]) =
    (let* '(rs, D1) := run_checks D ops in
     let* '(b, D2) := check D1 o.1 o.2 in
     Ok (rs ++ [if b : bool then Some (last_completed_len (cnt D2)) else None], D2)).
Proof.
  revert D. induction ops as [|o' ops IH]; intros D; simpl.
  - destruct (check D o.1 o.2) as [[b D2]|]; done.
  - destruct (check D o'.1 o'.2) as [[b D2]|]; [|done]. simpl. rewrite IH.
    destruct (run_checks D2 ops) as [[rs D3]|]; [|done]. simpl.
    destruct (check D3 o.1 o.2) as [[b' D4]|]; done.
Qed.

Lemma run_repeats P ops :
  K <= P <= MAX_PERIOD -> len ops < UINT32_MAX -> repeats P (keys_of ops) ->
  exists D', run_checks new_detector ops =
    Ok ((fun i => if (2 * P + K <=? i + 1) && ((i + 1 - K) mod P =? 0) then Some P else None)
          <$> seqZ 0 (len ops), D') /\ repeat_inv P (keys_of ops) D'.
Proof.
  intros HP. induction ops as [|o ops IH] using rev_ind; intros Hl HR.
  { exists new_detector. split; [done|]. split; [apply new_detector_inv|done|done|]. simpl. unfold K in *. lia. }
  unfold keys_of in *. rewrite fmap_app, length_app in *. simpl in *.
  destruct IH as (D & E & HI); [lia|apply (repeats_prefix P _ (key_of_ o.1 o.2)); auto; unfold K in *; lia|].
  rewrite run_checks_snoc, E. cbn [rbind].
  destruct (repeat_step P HP _ D o.1 o.2 HI HR) as (b & D' & -> & HI' & Hb & Hlen); [rewrite length_fmap; lia|].
  cbn [rbind]. exists D'. split; [|done]. do 2 f_equal.
  replace (Z.of_nat (length ops + 1)) with (len ops + 1) by lia. rewrite seqZ_app, fmap_app by lia. f_equal.
  unfold expected in Hb. rewrite length_app, length_fmap in Hb. simpl in Hb.
  replace (Z.of_nat (length ops + 1)) with (len ops + 1) in Hb by lia. change (seqZ (0 + len ops) 1) with [0 + len ops].
  simpl. rewrite Z.add_0_l, <- Hb. destruct b; [|done]. by rewrite Hlen.
Qed.

(** C7: the detector finds a stream that repeats.  When the keys repeat with
    a period [P] between K and MAX_PERIOD and no window occurs twice in a
    period, the detector reports at op [2P + K] and then every [P] ops, each
    time with length [P], and never at another op. *)
Theorem detector_finds_period P ops :
  K <= P <= MAX_PERIOD -> len ops < UINT32_MAX -> repeats P (keys_of ops) ->
  exists D', run_checks new_detector ops =
    Ok ((fun i => if (2 * P + K <=? i + 1) && ((i + 1 - K) mod P =? 0) then Some P else None)
          <$> seqZ 0 (len ops), D').
Proof. intros HP Hl HR. destruct (run_repeats P ops HP Hl HR) as (D' & E & _). eauto. Qed.

(** ** The table after a restart

    A ring that grows while a period is accepted leaves the table as it is, and
    a restart keeps both sizes.  Two such restarts in a row make a ring that is
    larger than the table: [table_fits] fails, and a search with more windows
    than slots meets [full_table_probe_never_ends]. *)

Lemma held_growth_keeps_table D c D' :
  period_ (acc D) <> 0 -> grow_history_ D c = Ok D' ->
  tab D' = tab D /\ history_mask_ (hist D') = (c ⊟ 1)%u64.
Proof.
  intros Hp E. unfold grow_history_ in E. cbn [acc set_hist] in E.
  destruct (Z.eqb_spec (period_ (acc D)) 0); [done|]. injection E as <-. done.
Qed.

Lemma restart_keeps_sizes D D' :
  0 < table_mask_ (tab D) < 2 ^ 63 -> restart_ D = Ok D' ->
  tsize (tab D') = tsize (tab D) /\ hist D' = hist D.
Proof.
  intros Hm E. unfold restart_ in E. cbn [tab] in E.
  destruct (Z.eqb_spec (table_mask_ (tab D)) 0); [lia|]. unfold rebuild_table_ in E. simpl in E. injection E as <-.
  unfold tsize. simpl. rewrite (wrap_small 64 (table_mask_ (tab D) + 1)), wrap_small by lia. split; [lia|done].
Qed.

(** ** Witnesses *)

Lemma run_checks_reach ops : forall ks D rs D',
  det_reach ks D -> len ks + len ops <= UINT32_MAX -> run_checks D ops = Ok (rs, D') ->
  det_reach (ks ++ keys_of ops) D'.
Proof.
  induction ops as [|[sc sh] ops IH]; intros ks D rs D' HR Hl E; simpl in E.
  { simplify_eq. by rewrite app_nil_r. }
  apply rbind_ok in E as ([b D1] & Ec & E). apply rbind_ok in E as ([rs1 D2] & Er & E). simplify_eq. simpl in *.
  replace (ks ++ key_of_ sc sh :: keys_of ops) with ((ks ++ [key_of_ sc sh]) ++ keys_of ops) by (by rewrite <- app_assoc).
  eapply IH; [|rewrite len_snoc; lia|exact Er]. eapply reach_check; [done|lia|exact Ec].
Qed.

(** A decision of [repeats]. *)
Definition repeats_b (P : Z) ks : bool :=
  forallb (fun i => key_of_stream ks i =? key_of_stream ks (i + P)) (seqZ 0 (len ks - P)) &&
  forallb (fun i => forallb (fun d => negb (wfp ks i =? wfp ks (i + 1 + d)))
                      (seqZ 0 (Z.min (P - 1) (len ks - K - i)))) (seqZ 0 (len ks - K)).

Lemma repeats_b_spec P ks : 0 <= P -> repeats_b P ks = true -> repeats P ks.
Proof.
  intros HP [H1 H2]%andb_prop. rewrite forallb_forall in H1, H2. split.
  - intros i Hi Hl. apply Z.eqb_eq, H1, list_elem_of_In, elem_of_seqZ. lia.
  - intros i j Hi Hj Hl. specialize (H2 i). rewrite forallb_forall in H2.
    assert (Hin : In i (seqZ 0 (len ks - K))) by (apply list_elem_of_In, elem_of_seqZ; lia).
    specialize (H2 Hin (j - i - 1)). replace (i + 1 + (j - i - 1)) with j in H2 by lia.
    apply Z.eqb_neq, negb_true_iff, H2, list_elem_of_In, elem_of_seqZ. lia.
Qed.

(** A loop of five ops. *)
Definition wit_loop (n : Z) : list (Z * Z) := (fun i => (i mod 5 + 1, 7)) <$> seqZ 0 n.

Lemma wit_loop_repeats : repeats 5 (keys_of (wit_loop 15)).
Proof. apply repeats_b_spec; [lia|]. vm_compute. reflexivity. Qed.

Lemma wit_loop_last :
  last ((fun i => if (2 * 5 + K <=? i + 1) && ((i + 1 - K) mod 5 =? 0) then Some 5 else None)
          <$> seqZ 0 (len (wit_loop 15))) = Some (Some 5).
Proof. vm_compute. reflexivity. Qed.

(** The loop up to and with the op that completes it. *)
Lemma wit_loop_report : exists D D',
  det_reach (keys_of (wit_loop 14)) D /\ check D 5 7 = Ok (true, D') /\ last_completed_len (cnt D') = 5.
Proof.
  destruct (run_repeats 5 (wit_loop 15)) as (D' & E & _); [vm_compute; split; discriminate|done|apply wit_loop_repeats|].
  change (wit_loop 15) with (wit_loop 14 ++ [(5, 7)]) in E at 1. rewrite run_checks_snoc in E.
  apply rbind_ok in E as ([rs D] & Er & E). apply rbind_ok in E as ([b D2] & Ec & E).
  exists D, D2. split; [refine (run_checks_reach _ _ _ _ _ reach_new _ Er); vm_compute; discriminate|]. cbn [fst snd] in Ec.
  apply (f_equal (fun r => match r with Ok (l, _) => last l | Fatal _ => None end)) in E.
  cbv beta iota in E. rewrite last_snoc, wit_loop_last in E. clear Er. destruct b; [|discriminate E].
  injection E as E. split; [exact Ec|exact E].
Qed.

Lemma detector_report_is_repetition_witness : exists D D',
  check D 5 7 = Ok (true, D') /\
  slice (keys_of (wit_loop 15)) 0 5 = slice (keys_of (wit_loop 15)) 5 5.
Proof.
  destruct wit_loop_report as (D & D' & HR & Ec & Hll). exists D, D'. split; [exact Ec|].
  assert (Hl : len (keys_of (wit_loop 14)) < UINT32_MAX) by (vm_compute; reflexivity).
  pose proof (detector_report_is_repetition _ D 5 7 D' HR Hl Ec) as HT. cbv zeta in HT.
  rewrite Hll in HT. exact (proj2 (proj2 HT)).
Defined.

Lemma detector_check_ends_witness : exists D,
  det_reach (keys_of (wit_loop 14)) D /\
  exists b D', check D 9 9 = Ok (b, D') /\ history_capacity D' <= HISTORY_MAX_CAPACITY.
Proof.
  destruct wit_loop_report as (D & D' & HR & _). exists D. split; [exact HR|].
  apply (detector_check_ends _ D 9 9 HR). vm_compute. reflexivity.
Defined.

Lemma detector_oldest_claimable_sound_witness : exists D,
  det_reach (keys_of (wit_loop 14)) D /\ oldest_claimable D <= 5.
Proof.
  destruct wit_loop_report as (D & D' & HR & Ec & Hll). exists D. split; [exact HR|].
  assert (Er : run_checks D [(5, 7)] = Ok ([Some 5], D')) by (simpl; rewrite Ec; simpl; rewrite Hll; reflexivity).
  refine (detector_oldest_claimable_sound _ D [(5, 7)] [Some 5] D' 0 5 HR _ Er eq_refl). vm_compute. reflexivity.
Defined.

Lemma detector_finds_period_witness : exists D,
  run_checks new_detector (wit_loop 15) = Ok (replicate 14 None ++ [Some 5], D).
Proof.
  destruct (detector_finds_period 5 (wit_loop 15)) as (D & E).
  - vm_compute. split; discriminate.
  - vm_compute. reflexivity.
  - exact wit_loop_repeats.
  - exists D. exact E.
Defined.
