(* ===== verification/Clocks.v ===== *)
(** * Clocks.v: logical clocks and the causal order

    The interface of a logical clock, the message-passing executions in which
    such clocks run, and the property that a client of a clock relies on: an
    event that causally precedes another one has the smaller clock.  Hlc.v and
    VectorClock.v implement the interface. *)

From stdpp Require Import base list gmap.
From Stdlib Require Import ZArith Lia.
From S2P Require Import Prelude.

(** A clock of node [n] moves on at a local event and at a received message;
    [I] is what a member reads from outside, such as the wall clock.
    [clock_node] holds of the nodes that can have a clock, [clock_wf] of the
    clocks that the members build. *)
Class LogicalClock (C I : Type) := {
  clock_new : C;
  clock_node : nat -> Prop;
  clock_wf : C -> Prop;
  clock_tick : nat -> I -> C -> C;
  clock_recv : nat -> I -> C -> C -> C;
  clock_lt : C -> C -> Prop;
  clock_spent : C -> Prop;
}.

(** A clock that is not spent moves strictly up. *)
Class LogicalClockOk (C I : Type) `{LogicalClock C I} := {
  clock_lt_trans :: Transitive clock_lt;
  new_wf : clock_wf clock_new;
  new_not_spent : ~ clock_spent clock_new;
  tick_wf n i c : clock_node n -> clock_wf c -> clock_wf (clock_tick n i c);
  recv_wf n i c m : clock_node n -> clock_wf c -> clock_wf m -> clock_wf (clock_recv n i c m);
  tick_moves n i c : clock_node n -> clock_wf c -> ~ clock_spent c -> clock_lt c (clock_tick n i c);
  recv_moves n i c m : clock_node n -> clock_wf c -> clock_wf m -> ~ clock_spent c -> ~ clock_spent m ->
    clock_lt c (clock_recv n i c m) /\ clock_lt m (clock_recv n i c m);
}.

(** ** Executions *)

Section Executions.
Context {C I : Type} `{!LogicalClock C I}.

(** A view is a clock with the set of the events that it has seen, by their
    position in the execution; it is what a node holds and what a message
    carries. *)
Record view := mkView { v_clock : C; v_past : gset nat }.

Record event := mkEvent { ev_node : nat; ev_view : view }.

Record world := mkWorld {
  w_nodes : nat -> view;
  w_msgs : list view;
  w_events : list event;
}.

Definition first_world : world := mkWorld (fun _ => mkView clock_new ∅) [] [].

Definition set_node (f : nat -> view) (n : nat) (v : view) : nat -> view :=
  fun k => if decide (k = n) then v else f k.

(** The view of node [n] after its next event. *)
Definition tick_view (w : world) (n : nat) (i : I) : view :=
  let v := w_nodes w n in mkView (clock_tick n i (v_clock v)) ({[length (w_events w)]} ∪ v_past v).

Definition recv_view (w : world) (n : nat) (i : I) (m : view) : view :=
  let v := w_nodes w n in
  mkView (clock_recv n i (v_clock v) (v_clock m)) ({[length (w_events w)]} ∪ (v_past v ∪ v_past m)).

Definition after (w : world) (n : nat) (v : view) (msgs : list view) : world :=
  mkWorld (set_node (w_nodes w) n v) msgs (w_events w ++ [mkEvent n v]).

Inductive wstep : world -> world -> Prop :=
| w_local w n i : clock_node n -> wstep w (after w n (tick_view w n i) (w_msgs w))
| w_send w n i : clock_node n -> wstep w (after w n (tick_view w n i) (w_msgs w ++ [tick_view w n i]))
| w_recv w n i k m : clock_node n -> w_msgs w !! k = Some m ->
    wstep w (after w n (recv_view w n i m) (w_msgs w)).

Inductive execution : world -> Prop :=
| ex_first : execution first_world
| ex_step w w' : execution w -> wstep w w' -> execution w'.

(** Event [i] causally precedes event [j]. *)
Definition precedes (w : world) (i j : nat) : Prop :=
  exists e, w_events w !! j = Some e /\ i ∈ v_past (ev_view e) /\ i <> j.

Definition clock_at (w : world) (i : nat) : option C := v_clock ∘ ev_view <$> w_events w !! i.

Definition none_spent (w : world) : Prop :=
  forall i e, w_events w !! i = Some e -> ~ clock_spent (v_clock (ev_view e)).

(** The views of an execution. *)
Definition is_view (w : world) (v : view) : Prop :=
  (exists n, v = w_nodes w n) \/ v ∈ w_msgs w \/ (exists i e, w_events w !! i = Some e /\ v = ev_view e).

(** A step adds the event of one view; the other views stay. *)
Lemma wstep_inv w w' :
  wstep w w' ->
  exists n v, clock_node n /\ w_nodes w' = set_node (w_nodes w) n v /\ w_events w' = w_events w ++ [mkEvent n v] /\
    (forall u, is_view w' u -> u = v \/ is_view w u) /\
    ((exists i, v = tick_view w n i) \/ exists i m, is_view w m /\ v = recv_view w n i m).
Proof.
  assert (Hviews : forall n v msgs, (forall u, u ∈ msgs -> u = v \/ u ∈ w_msgs w) ->
    forall u, is_view (after w n v msgs) u -> u = v \/ is_view w u).
  { intros n v msgs Hm u [(k & ->)|[Hu|(i & e & He & ->)]]; simpl in *.
    - unfold set_node. case_decide; [by left|]. right. left. eauto.
    - destruct (Hm u Hu); [by left|]. right. right. by left.
    - apply lookup_app_Some in He as [He|[_ He]]; [right; right; right; eauto|].
      apply list_lookup_singleton_Some in He as [_ <-]. by left. }
  intros Hs. destruct Hs as [w n i Hn|w n i Hn|w n i k m Hn Hm]; exists n.
  - exists (tick_view w n i). split_and!; auto; [|left; eauto]. apply Hviews. auto.
  - exists (tick_view w n i). split_and!; auto; [|left; eauto]. apply Hviews.
    intros u [Hu|Hu%list_elem_of_singleton]%elem_of_app; auto.
  - exists (recv_view w n i m). split_and!; auto; [apply Hviews; auto|].
    right. exists i, m. split; [|done]. right. left. by eapply list_elem_of_lookup_2.
Qed.

(** ** The causal order of the clocks *)

Context `{!LogicalClockOk C I}.

Definition clock_le (a b : C) : Prop := a = b \/ clock_lt a b.

(** Each view has seen events with clocks at most its own, and its clock is
    the new one or that of an event. *)
Record causal (w : world) : Prop := {
  ca_seen u i : is_view w u -> i ∈ v_past u ->
    exists e, w_events w !! i = Some e /\ clock_le (v_clock (ev_view e)) (v_clock u);
  ca_event j e i : w_events w !! j = Some e -> i ∈ v_past (ev_view e) -> i <> j ->
    exists e', w_events w !! i = Some e' /\ clock_lt (v_clock (ev_view e')) (v_clock (ev_view e));
  ca_wf u : is_view w u -> clock_wf (v_clock u);
  ca_clock u : is_view w u ->
    v_clock u = clock_new \/ exists i e, w_events w !! i = Some e /\ v_clock u = v_clock (ev_view e);
}.

Lemma causal_not_spent w u : causal w -> none_spent w -> is_view w u -> ~ clock_spent (v_clock u).
Proof.
  intros Hc Hs Hu. destruct (ca_clock _ Hc u Hu) as [->|(i & e & He & ->)]; [apply new_not_spent|by eapply Hs].
Qed.

(** The new view of a step is above everything that it has seen. *)
Lemma new_view_above w n v i :
  causal w -> none_spent w -> clock_node n ->
  (exists k, v = tick_view w n k) \/ (exists k m, is_view w m /\ v = recv_view w n k m) ->
  i ∈ v_past v -> i <> length (w_events w) ->
  exists e, w_events w !! i = Some e /\ clock_lt (v_clock (ev_view e)) (v_clock v).
Proof.
  intros Hc Hs Hnode Hv Hi Hne.
  assert (Hn : is_view w (w_nodes w n)) by (left; eauto).
  assert (Habove : forall u, is_view w u -> i ∈ v_past u -> clock_lt (v_clock u) (v_clock v) ->
    exists e, w_events w !! i = Some e /\ clock_lt (v_clock (ev_view e)) (v_clock v)).
  { intros u Hu Hiu Hlt. destruct (ca_seen _ Hc u i Hu Hiu) as (e & He & Hle). exists e. split; [done|].
    destruct Hle as [->|Hle]; [done|by etrans]. }
  pose proof (causal_not_spent w _ Hc Hs Hn) as Hns.
  destruct Hv as [(k & ->)|(k & m & Hm & ->)]; simpl in Hi.
  - apply elem_of_union in Hi as [Hi|Hi]; [set_solver|]. apply (Habove _ Hn Hi). apply tick_moves; auto. by apply (ca_wf _ Hc).
  - pose proof (causal_not_spent w _ Hc Hs Hm) as Hms.
    destruct (recv_moves n k (v_clock (w_nodes w n)) (v_clock m)) as [H1 H2]; auto; [by apply (ca_wf _ Hc)..|].
    apply elem_of_union in Hi as [Hi|[Hi|Hi]%elem_of_union]; [set_solver|by apply (Habove _ Hn Hi)|by apply (Habove m)].
Qed.

Lemma none_spent_step w w' : wstep w w' -> none_spent w' -> none_spent w.
Proof.
  intros (n & v & _ & _ & He & _)%wstep_inv Hs i e Hi. apply (Hs i). rewrite He. by apply lookup_app_l_Some.
Qed.

Lemma causal_step w w' : causal w -> none_spent w -> wstep w w' -> causal w'.
Proof.
  intros Hc Hs Hst. destruct (wstep_inv _ _ Hst) as (n & v & Hnode & Hn & He & Hv & Hnew).
  assert (Hlast : w_events w' !! length (w_events w) = Some (mkEvent n v)).
  { rewrite He, lookup_app_r, Nat.sub_diag by lia. done. }
  assert (Hkeep : forall i e, w_events w !! i = Some e -> w_events w' !! i = Some e).
  { intros i e Hi. rewrite He. by apply lookup_app_l_Some. }
  split.
  - intros u i Hu Hi. destruct (Hv u Hu) as [->|Hu'].
    + destruct (decide (i = length (w_events w))) as [->|Hne]; [exists (mkEvent n v); split; [done|by left]|].
      destruct (new_view_above w n v i Hc Hs Hnode Hnew Hi Hne) as (e & Hie & Hlt).
      exists e. split; [by apply Hkeep|by right].
    + destruct (ca_seen _ Hc u i Hu' Hi) as (e & Hie & Hle). eauto.
  - intros j e i Hj Hi Hne. rewrite He in Hj. apply lookup_app_Some in Hj as [Hj|[Hj1 Hj]].
    + destruct (ca_event _ Hc j e i Hj Hi Hne) as (e' & He' & Hlt). eauto.
    + apply list_lookup_singleton_Some in Hj as [Hj0 <-].
      destruct (new_view_above w n v i Hc Hs Hnode Hnew Hi) as (e' & He' & Hlt); [lia|]. eauto.
  - intros u Hu. destruct (Hv u Hu) as [->|Hu']; [|by apply (ca_wf _ Hc)].
    destruct Hnew as [(k & ->)|(k & m & Hm & ->)]; [apply tick_wf|apply recv_wf]; auto; apply (ca_wf _ Hc);
      first [done|left; eauto].
  - intros u Hu. destruct (Hv u Hu) as [->|Hu']; [right; eauto|].
    destruct (ca_clock _ Hc u Hu') as [?|(i & e & Hie & ?)]; [by left|right; eauto].
Qed.

Lemma execution_causal w : execution w -> none_spent w -> causal w.
Proof.
  induction 1 as [|w w' _ IH Hst]; intros Hs.
  - split.
    + intros u i [(n & ->)|[Hu|(j & e & He & _)]] Hi; simpl in *; [set_solver..|done].
    + intros j e i Hj. done.
    + intros u [(n & ->)|[Hu|(j & e & He & _)]]; [apply new_wf|set_solver|done].
    + intros u [(n & ->)|[Hu|(j & e & He & _)]]; [by left|set_solver|done].
  - pose proof (none_spent_step _ _ Hst Hs) as Hs0. apply (causal_step w); auto.
Qed.

(** An event that precedes another one has the smaller clock. *)
Lemma precedes_clock_lt w i j ci cj :
  execution w -> none_spent w -> precedes w i j -> clock_at w i = Some ci -> clock_at w j = Some cj ->
  clock_lt ci cj.
Proof.
  intros Hw Hs (e & Hj & Hi & Hne) Hci Hcj.
  destruct (ca_event _ (execution_causal w Hw Hs) j e i Hj Hi Hne) as (e' & Hi' & Hlt).
  unfold clock_at in *. rewrite Hi', Hj in *. by simplify_eq/=.
Qed.
End Executions.

Arguments view C : clear implicits.
Arguments event C : clear implicits.
Arguments world C : clear implicits.
