(* ===== verification/Hlc.v ===== *)
(** * Hlc.v: the hybrid logical clock (include/crucible/canopy/Hlc.h)

    The timestamp and its order, its packing into the 128-bit cell, the two
    event rules, and the compare-exchange loops of now() and on_recv() as
    threads that interleave at each access of the cell. *)

From stdpp Require Import base list gmap sorting.
From Stdlib Require Import ZArith Lia.
From S2P Require Import Prelude.
From S2P Require Import Clocks.
#[local] Open Scope Z_scope.

Record HlcTimestamp := mkTs { physical_ns : Z; counter : Z }.

#[export] Instance HlcTimestamp_eq_dec : EqDecision HlcTimestamp.
Proof. solve_decision. Defined.

(** The defaulted operator<=>: the members in order. *)
Definition ts_compare (a b : HlcTimestamp) : comparison :=
  match physical_ns a ?= physical_ns b with
  | Eq => counter a ?= counter b
  | c => c
  end.

Definition ts_lt (a b : HlcTimestamp) : Prop := ts_compare a b = Lt.
Definition ts_le (a b : HlcTimestamp) : Prop := ts_lt a b \/ a = b.

Definition ts_wf (t : HlcTimestamp) : Prop := in_width 64 (physical_ns t) /\ in_width 32 (counter t).

Definition ts_max : HlcTimestamp := mkTs UINT64_MAX UINT32_MAX.

(** ** The packed cell *)

Definition pack_hlc_timestamp (t : HlcTimestamp) : Z :=
  Z.lor (Z.shiftl (physical_ns t) 64) (Z.shiftl (counter t) 32).

Definition unpack_hlc_timestamp (packed : Z) : HlcTimestamp :=
  mkTs (u64 (Z.shiftr packed 64)) (u32 (Z.land (Z.shiftr packed 32) (2 ^ 32 - 1))).

(** lock cmpxchg16b: the cell and RDX:RAX after it, and the zero flag. *)
Definition cmpxchg16b (cell expected desired : Z) : Z * Z * bool :=
  if cell =? expected then (desired, expected, true) else (cell, cell, false).

(** AtomicPackedHlcState::load: the cell after it and the value that it
    returns. *)
Definition packed_load (cell : Z) : Z * Z :=
  let '(cell', ax, _) := cmpxchg16b cell 0 0 in
  let lo := u64 ax in
  let hi := u64 (Z.shiftr ax 64) in
  (cell', Z.lor (Z.shiftl hi 64) lo).

(** AtomicPackedHlcState::compare_exchange: the cell, the caller's expected
    value and the verdict. *)
Definition packed_compare_exchange (cell expected desired : Z) : Z * Z * bool :=
  let expected_lo := u64 expected in
  let expected_hi := u64 (Z.shiftr expected 64) in
  let desired_lo := u64 desired in
  let desired_hi := u64 (Z.shiftr desired 64) in
  let '(cell', ax, ok) :=
    cmpxchg16b cell (Z.lor (Z.shiftl expected_hi 64) expected_lo) (Z.lor (Z.shiftl desired_hi 64) desired_lo) in
  (cell', Z.lor (Z.shiftl (u64 (Z.shiftr ax 64)) 64) (u64 ax), ok).

(** ** The event rules *)

Definition bumped_ (p c : Z) : HlcTimestamp :=
  if negb (c =? UINT32_MAX) then mkTs p (c + 1)
  else if negb (p =? UINT64_MAX) then mkTs (p + 1) 0
  else mkTs p c.

Definition local_event (old : HlcTimestamp) (physical_now : Z) : HlcTimestamp :=
  if physical_ns old <? physical_now then mkTs physical_now 0
  else bumped_ (physical_ns old) (counter old).

Definition recv_event (old peer : HlcTimestamp) (physical_now : Z) : HlcTimestamp :=
  let later_stamp := if physical_ns old <? physical_ns peer then physical_ns peer else physical_ns old in
  let l_new := if later_stamp <? physical_now then physical_now else later_stamp in
  if (l_new =? physical_ns old) && (l_new =? physical_ns peer) then
    bumped_ l_new (if counter old <? counter peer then counter peer else counter old)
  else if l_new =? physical_ns old then bumped_ l_new (counter old)
  else if l_new =? physical_ns peer then bumped_ l_new (counter peer)
  else mkTs l_new 0.

(** What clock_gettime reports: its status and the two fields it fills. *)
Record timespec_reading := mkReading { rd_status : Z; tv_sec : Z; tv_nsec : Z }.

Definition read_realtime_ns_ (r : timespec_reading) : Z :=
  if negb (rd_status r =? 0) then 1
  else
    let nanos := if 0 <? tv_nsec r then u64 (tv_nsec r) else 0 in
    if tv_sec r <=? 0 then (if nanos =? 0 then 1 else nanos)
    else
      let nanos_per_second := 1000000000 in
      let seconds := u64 (tv_sec r) in
      if (UINT64_MAX - nanos) / nanos_per_second <? seconds then UINT64_MAX
      else
        let total_ns := u64 (u64 (seconds * nanos_per_second) + nanos) in
        if total_ns =? 0 then 1 else total_ns.

(** ** Lemmas *)

Lemma ts_lt_spec a b :
  ts_lt a b <-> physical_ns a < physical_ns b \/ (physical_ns a = physical_ns b /\ counter a < counter b).
Proof.
  unfold ts_lt, ts_compare. destruct (Z.compare_spec (physical_ns a) (physical_ns b)).
  - rewrite Z.compare_lt_iff. lia.
  - intuition lia.
  - split; [done|lia].
Qed.

#[export] Instance ts_lt_transitive : Transitive ts_lt.
Proof. intros a b c. rewrite !ts_lt_spec. lia. Qed.

#[export] Instance ts_lt_irreflexive : Irreflexive ts_lt.
Proof. intros a. unfold complement. rewrite ts_lt_spec. lia. Qed.

Lemma ts_lt_total a b : ts_lt a b \/ a = b \/ ts_lt b a.
Proof.
  destruct a as [p c], b as [q d]. rewrite !ts_lt_spec. simpl.
  destruct (Z.lt_total p q) as [|[->|]], (Z.lt_total c d) as [|[->|]]; auto.
Qed.

Lemma ts_le_lt_trans a b c : ts_le a b -> ts_lt b c -> ts_lt a c.
Proof. intros [H| ->] ?; [by etrans|done]. Qed.

Lemma ts_lt_le_trans a b c : ts_lt a b -> ts_le b c -> ts_lt a c.
Proof. intros ? [H| <-]; [by etrans|done]. Qed.

Lemma ts_not_max t : ts_wf t -> t <> ts_max -> physical_ns t < UINT64_MAX \/ counter t < UINT32_MAX.
Proof.
  destruct t as [p c]. intros [Hp Hc] Hne. unfold in_width, UINT64_MAX, UINT32_MAX in *. simpl in *.
  destruct (decide (p = 2 ^ 64 - 1)) as [->|]; [|lia]. destruct (decide (c = 2 ^ 32 - 1)) as [->|]; [|lia].
  by destruct Hne.
Qed.

Lemma bumped_wf p c : in_width 64 p -> in_width 32 c -> ts_wf (bumped_ p c).
Proof.
  unfold ts_wf, in_width, bumped_, UINT64_MAX, UINT32_MAX. intros.
  destruct (Z.eqb_spec c (2 ^ 32 - 1)), (Z.eqb_spec p (2 ^ 64 - 1)); simpl; lia.
Qed.

Lemma bumped_ge p c : 0 <= c -> p <= physical_ns (bumped_ p c).
Proof. unfold bumped_. intros. repeat case_match; simpl; lia. Qed.

Lemma bumped_moves t p c :
  in_width 64 p -> in_width 32 c -> (p < UINT64_MAX \/ c < UINT32_MAX) ->
  physical_ns t < p \/ (physical_ns t = p /\ counter t <= c) ->
  ts_lt t (bumped_ p c).
Proof.
  unfold in_width, bumped_, UINT64_MAX, UINT32_MAX. intros. rewrite ts_lt_spec.
  destruct (Z.eqb_spec c (2 ^ 32 - 1)), (Z.eqb_spec p (2 ^ 64 - 1)); simpl; lia.
Qed.

Lemma local_event_wf old now : ts_wf old -> in_width 64 now -> ts_wf (local_event old now).
Proof.
  intros [Hp Hc] Hn. unfold local_event. case_match; [split; [done|unfold in_width; simpl; lia]|by apply bumped_wf].
Qed.

Lemma local_event_moves old now :
  ts_wf old -> in_width 64 now -> old <> ts_max ->
  ts_lt old (local_event old now) /\ now <= physical_ns (local_event old now).
Proof.
  intros Hw Hn Hm. pose proof (ts_not_max old Hw Hm). destruct Hw as [Hp Hc]. unfold local_event.
  destruct (Z.ltb_spec (physical_ns old) now); [rewrite ts_lt_spec; simpl; lia|]. split; [by apply bumped_moves; auto; lia|].
  pose proof (bumped_ge (physical_ns old) (counter old)). unfold in_width in *. lia.
Qed.

Lemma recv_event_wf old peer now :
  ts_wf old -> ts_wf peer -> in_width 64 now -> ts_wf (recv_event old peer now).
Proof.
  intros [Hp Hc] [Hq Hd] Hn. unfold recv_event.
  assert (in_width 32 0) by (unfold in_width; lia).
  destruct (physical_ns old <? physical_ns peer), (counter old <? counter peer); repeat case_match;
    first [by apply bumped_wf | by split].
Qed.

Lemma recv_event_moves old peer now :
  ts_wf old -> ts_wf peer -> in_width 64 now -> old <> ts_max -> peer <> ts_max ->
  ts_lt old (recv_event old peer now) /\ ts_lt peer (recv_event old peer now) /\
  now <= physical_ns (recv_event old peer now).
Proof.
  intros Hw Hq Hn Hm Hpm. pose proof (ts_not_max _ Hw Hm). pose proof (ts_not_max _ Hq Hpm).
  destruct Hw as [Hp Hc], Hq as [Hq Hd]. unfold recv_event.
  assert (forall p c, in_width 32 c -> p <= physical_ns (bumped_ p c)) as Hge
    by (intros; apply bumped_ge; unfold in_width in *; lia).
  destruct (Z.ltb_spec (physical_ns old) (physical_ns peer)), (Z.ltb_spec (counter old) (counter peer));
    repeat (case_match; reflect_bools); try lia; split_and!;
    first [ (apply bumped_moves; auto; lia) | (etrans; [|by apply Hge]; lia) | (rewrite ts_lt_spec; simpl; lia)
          | (simpl; lia) ].
Qed.

Lemma read_realtime_width r : in_width 64 (read_realtime_ns_ r).
Proof.
  unfold read_realtime_ns_, in_width. pose proof (u64_range (tv_nsec r)). pose proof (u64_range (tv_sec r)).
  pose proof (u64_range (u64 (u64 (tv_sec r) * 1000000000) + (if 0 <? tv_nsec r then u64 (tv_nsec r) else 0))).
  unfold UINT64_MAX in *. repeat case_match; lia.
Qed.

Lemma pack_value t : ts_wf t -> pack_hlc_timestamp t = physical_ns t * 2 ^ 64 + counter t * 2 ^ 32.
Proof.
  intros [Hp Hc]. unfold pack_hlc_timestamp, in_width in *.
  rewrite (Z.shiftl_mul_pow2 (counter t)), lor_shiftl_add; lia.
Qed.

Lemma pack_range t : ts_wf t -> 0 <= pack_hlc_timestamp t < 2 ^ 128.
Proof. intros Ht. rewrite pack_value by done. destruct Ht. unfold in_width in *. lia. Qed.

Lemma unpack_pack t : ts_wf t -> unpack_hlc_timestamp (pack_hlc_timestamp t) = t.
Proof.
  intros Ht. unfold unpack_hlc_timestamp. rewrite pack_value, land_mask_mod, !Z.shiftr_div_pow2 by (done || lia).
  destruct t as [p c], Ht as [Hp Hc]. unfold in_width, wrap in *. simpl in *. f_equal; mod_lia.
Qed.

Lemma unpack_wf x : ts_wf (unpack_hlc_timestamp x).
Proof. split; simpl; [apply u64_range|apply u32_range]. Qed.

(** Halves of a 128-bit value put together again. *)
Lemma halves x : 0 <= x < 2 ^ 128 -> Z.lor (Z.shiftl (u64 (Z.shiftr x 64)) 64) (u64 x) = x.
Proof.
  intros Hx. pose proof (u64_range x). rewrite lor_shiftl_add, Z.shiftr_div_pow2 by lia. unfold wrap in *. mod_lia.
Qed.

(** The read with a compare of zero returns the cell and leaves it. *)
Lemma packed_load_id cell : 0 <= cell < 2 ^ 128 -> packed_load cell = (cell, cell).
Proof.
  intros Hc. unfold packed_load, cmpxchg16b. destruct (Z.eqb_spec cell 0) as [->|_]; [done|]. by rewrite halves.
Qed.

Lemma packed_compare_exchange_spec cell e d :
  0 <= cell < 2 ^ 128 -> 0 <= e < 2 ^ 128 -> 0 <= d < 2 ^ 128 ->
  packed_compare_exchange cell e d = if cell =? e then (d, e, true) else (cell, cell, false).
Proof.
  intros Hc He Hd. unfold packed_compare_exchange, cmpxchg16b. rewrite (halves e), (halves d) by done.
  destruct (cell =? e); by rewrite halves.
Qed.

(** ** The threads

    A call of now() or on_recv() is a thread: it loads the cell, and then
    tries a compare-exchange until one succeeds.  [Exchange_fails] covers a
    weak compare-exchange, which may refuse for no reason. *)

Inductive hlc_call := Now (r : timespec_reading) | OnRecv (r : timespec_reading) (peer : HlcTimestamp).

(** The [desired] value of update_local_ and of update_recv_. *)
Definition call_event (c : hlc_call) (old : HlcTimestamp) : HlcTimestamp :=
  match c with
  | Now r => local_event old (read_realtime_ns_ r)
  | OnRecv r peer => recv_event old peer (read_realtime_ns_ r)
  end.

(** The width of the arguments of a call. *)
Definition call_wf (c : hlc_call) : Prop :=
  match c with Now _ => True | OnRecv _ peer => ts_wf peer end.

Inductive hlc_pc := AtLoad | AtTry (expected : Z) | Returned (desired : HlcTimestamp).

Record hlc_sys := mkSys {
  state_ : Z;
  threads : list (hlc_call * hlc_pc);
}.

Definition mint_hlc : hlc_sys := mkSys 0 [].

Inductive hlc_step : hlc_sys -> hlc_sys -> Prop :=
| Call s c :
    call_wf c ->
    hlc_step s (mkSys (state_ s) (threads s ++ [(c, AtLoad)]))
| Load s i c cell' v :
    threads s !! i = Some (c, AtLoad) ->
    packed_load (state_ s) = (cell', v) ->
    hlc_step s (mkSys cell' (<[i := (c, AtTry v)]> (threads s)))
| Exchange s i c e cell' e' :
    threads s !! i = Some (c, AtTry e) ->
    packed_compare_exchange (state_ s) e (pack_hlc_timestamp (call_event c (unpack_hlc_timestamp e)))
      = (cell', e', true) ->
    hlc_step s (mkSys cell' (<[i := (c, Returned (call_event c (unpack_hlc_timestamp e)))]> (threads s)))
| Exchange_refused s i c e cell' e' :
    threads s !! i = Some (c, AtTry e) ->
    packed_compare_exchange (state_ s) e (pack_hlc_timestamp (call_event c (unpack_hlc_timestamp e)))
      = (cell', e', false) ->
    hlc_step s (mkSys cell' (<[i := (c, AtTry e')]> (threads s)))
| Exchange_fails s i c e :
    threads s !! i = Some (c, AtTry e) ->
    hlc_step s (mkSys (state_ s) (<[i := (c, AtTry (state_ s))]> (threads s))).

Definition peek (s : hlc_sys) : HlcTimestamp := unpack_hlc_timestamp (packed_load (state_ s)).2.

Abbreviation hlc_steps := (rtc hlc_step).

(** What a call promises of its stamp: it is not before the wall clock that
    the call read, and it is after the stamp of the message. *)
Definition call_promise (c : hlc_call) (t : HlcTimestamp) : Prop :=
  match c with
  | Now r => read_realtime_ns_ r <= physical_ns t
  | OnRecv r peer => read_realtime_ns_ r <= physical_ns t /\ ts_lt peer t
  end.

(** ** The clock of a thread system *)

Lemma ts_le_max t : ts_wf t -> ts_le t ts_max.
Proof.
  intros Ht. destruct (decide (t = ts_max)) as [->|Hne]; [by right|left].
  pose proof (ts_not_max t Ht Hne). destruct Ht. rewrite ts_lt_spec. unfold in_width, UINT64_MAX, UINT32_MAX in *.
  simpl. unfold UINT64_MAX, UINT32_MAX. lia.
Qed.

Lemma max_least t : ts_wf t -> ts_le ts_max t -> t = ts_max.
Proof.
  intros Ht [Hlt| <-]; [|done]. destruct (ts_le_max t Ht) as [Hgt| ->]; [|done].
  destruct (ts_lt_irreflexive t). by etrans.
Qed.

(** A clock at its largest value stays there. *)
Lemma bumped_max : bumped_ UINT64_MAX UINT32_MAX = ts_max.
Proof. done. Qed.

Lemma local_event_max now : in_width 64 now -> local_event ts_max now = ts_max.
Proof.
  intros Hn. unfold local_event. simpl. destruct (Z.ltb_spec UINT64_MAX now); [|done].
  unfold in_width, UINT64_MAX in *. lia.
Qed.

Lemma recv_event_max old peer now :
  ts_wf old -> ts_wf peer -> in_width 64 now -> old = ts_max \/ peer = ts_max -> recv_event old peer now = ts_max.
Proof.
  intros [Hp Hc] [Hq Hd] Hn Hmax. unfold recv_event.
  assert (Hw : forall x, in_width 64 x -> x <= UINT64_MAX) by (unfold in_width, UINT64_MAX; lia).
  assert (Hv : forall x, in_width 32 x -> x <= UINT32_MAX) by (unfold in_width, UINT32_MAX; lia).
  apply Hw in Hp, Hq, Hn. apply Hv in Hc, Hd. rewrite <- bumped_max.
  destruct Hmax as [-> | ->]; unfold ts_max in *; simpl in *;
    repeat (case_match; reflect_bools); try lia; f_equal; lia.
Qed.

Lemma call_event_wf c old : call_wf c -> ts_wf old -> ts_wf (call_event c old).
Proof.
  destruct c as [r|r peer]; simpl; intros; [apply local_event_wf|apply recv_event_wf]; auto using read_realtime_width.
Qed.

Lemma call_event_moves c old :
  call_wf c -> ts_wf old -> call_event c old <> ts_max ->
  ts_lt old (call_event c old) /\ call_promise c (call_event c old).
Proof.
  intros Hc Ho Hne. destruct c as [r|r peer]; simpl in *; pose proof (read_realtime_width r) as Hr.
  - apply local_event_moves; auto. intros ->. apply Hne. by apply local_event_max.
  - destruct (recv_event_moves old peer (read_realtime_ns_ r)) as (?&?&?); auto;
      intros ->; apply Hne, recv_event_max; auto; by rewrite <- (unpack_pack ts_max).
Qed.

Lemma call_event_le c old : call_wf c -> ts_wf old -> ts_le old (call_event c old).
Proof.
  intros Hc Ho. destruct (decide (call_event c old = ts_max)) as [->|Hne]; [by apply ts_le_max|].
  left. by apply call_event_moves.
Qed.

Definition pc_ok (cell : Z) (t : hlc_call * hlc_pc) : Prop :=
  call_wf t.1 /\
  match t.2 with
  | AtLoad => True
  | AtTry e => exists u, ts_wf u /\ e = pack_hlc_timestamp u
  | Returned a => ts_le a (unpack_hlc_timestamp cell)
  end.

Record hlc_inv (s : hlc_sys) : Prop := {
  hi_cell : exists u, ts_wf u /\ state_ s = pack_hlc_timestamp u;
  hi_threads : Forall (pc_ok (state_ s)) (threads s);
}.

(** What a step does to the clock: it stays, or the thread that returns moves
    it to its stamp. *)
Definition clock_move (s s' : hlc_sys) : Prop :=
  ts_le (peek s) (peek s') /\
  forall j c b, threads s' !! j = Some (c, Returned b) ->
    threads s !! j = Some (c, Returned b) \/
    (b = call_event c (peek s) /\ call_wf c /\ ts_wf (peek s) /\ b = peek s').

Lemma peek_pack u l : ts_wf u -> peek (mkSys (pack_hlc_timestamp u) l) = u.
Proof. intros Hu. unfold peek. simpl. rewrite packed_load_id by by apply pack_range. by apply unpack_pack. Qed.

#[export] Instance ts_le_preorder : PreOrder ts_le.
Proof.
  split; [by right|]. intros a b c [Hab| ->] Hbc; [|done]. left. by eapply ts_lt_le_trans.
Qed.

(** A step that keeps the cell and moves one thread short of its return. *)
Lemma quiet_step s l :
  hlc_inv s ->
  (forall j t, l !! j = Some t -> threads s !! j = Some t \/ (pc_ok (state_ s) t /\ forall b, t.2 <> Returned b)) ->
  hlc_inv (mkSys (state_ s) l) /\ clock_move s (mkSys (state_ s) l).
Proof.
  intros [Hc Ht] Hl. split.
  - split; [done|]. simpl. apply Forall_lookup. intros j t Hj.
    destruct (Hl j t Hj) as [Hold|[? _]]; [by eapply Forall_lookup_1|done].
  - split; [by unfold peek|]. intros j c b Hj. destruct (Hl _ _ Hj) as [Hold|[_ Hnr]]; [by left|].
    by destruct (Hnr b).
Qed.

Lemma list_insert_cases {A} (l : list A) i j x y :
  <[i := x]> l !! j = Some y -> l !! j = Some y \/ (j = i /\ y = x).
Proof.
  rewrite list_lookup_insert_Some. intros [(-> & -> & _)|[_ H]]; auto.
Qed.

(** The successful exchange. *)
Lemma exchange_step s i c e l :
  hlc_inv s -> threads s !! i = Some (c, AtTry e) -> state_ s = e ->
  l = <[i := (c, Returned (call_event c (unpack_hlc_timestamp e)))]> (threads s) ->
  let s' := mkSys (pack_hlc_timestamp (call_event c (unpack_hlc_timestamp e))) l in
  hlc_inv s' /\ clock_move s s'.
Proof.
  intros [(u & Hu & Hcell) Ht] Hi He ->. rewrite Hcell in He. subst e.
  pose proof (Forall_lookup_1 _ _ _ _ Ht Hi) as [Hcw _]. simpl in Hcw.
  rewrite unpack_pack by done. set (d := call_event c u).
  assert (Hd : ts_wf d) by by apply call_event_wf.
  assert (Hpeek : peek s = u).
  { destruct s as [cell ths]. simpl in Hcell. subst cell. by apply peek_pack. }
  assert (Hle : ts_le u d) by by apply call_event_le.
  split.
  - split; [by exists d|]. simpl. apply Forall_lookup. intros j t [Hj|[-> ->]]%list_insert_cases.
    + destruct (Forall_lookup_1 _ _ _ _ Ht Hj) as [Hw Hp]. split; [done|].
      destruct t as [tc [|e'|a]]; simpl in *; auto. rewrite unpack_pack by done.
      rewrite Hcell, unpack_pack in Hp by done. by etrans.
    + split; [done|]. simpl. rewrite unpack_pack; done.
  - split; [by rewrite Hpeek, peek_pack|].
    intros j cj b [Hj|[-> [= -> ->]]]%list_insert_cases; [by left|right].
    rewrite Hpeek, peek_pack by done. done.
Qed.

Lemma hlc_step_ok s s' : hlc_inv s -> hlc_step s s' -> hlc_inv s' /\ clock_move s s'.
Proof.
  intros Hinv Hst. destruct (hi_cell _ Hinv) as (u & Hu & Hcell). pose proof (pack_range u Hu) as Hr.
  assert (Hcr : 0 <= state_ s < 2 ^ 128) by by rewrite Hcell.
  assert (Htry : forall j c e, threads s !! j = Some (c, AtTry e) ->
    call_wf c /\ 0 <= e < 2 ^ 128 /\ 0 <= pack_hlc_timestamp (call_event c (unpack_hlc_timestamp e)) < 2 ^ 128).
  { intros j c e Hj. destruct (Forall_lookup_1 _ _ _ _ (hi_threads _ Hinv) Hj) as [Hw (v & Hv & ->)].
    split; [done|]. rewrite unpack_pack by done. split; apply pack_range; [done|]. by apply call_event_wf. }
  assert (Hnew : forall c, call_wf c -> pc_ok (state_ s) (c, AtTry (state_ s)) /\
    forall b, (c, AtTry (state_ s)).2 <> Returned b) by (intros c Hc; repeat split; [done|by exists u|done]).
  destruct Hst as [s c Hc|s i c cell' v Hi Hl|s i c e cell' e' Hi Hx|s i c e cell' e' Hi Hx|s i c e Hi].
  - apply quiet_step; [done|]. intros j t [Hj|[_ Hj]]%lookup_app_Some; [by left|right].
    apply list_lookup_singleton_Some in Hj as [_ <-]. done.
  - rewrite packed_load_id in Hl by done. injection Hl as <- <-.
    apply quiet_step; [done|]. intros j t [Hj|[-> ->]]%list_insert_cases; [by left|right].
    destruct (Forall_lookup_1 _ _ _ _ (hi_threads _ Hinv) Hi) as [Hw _]. eauto.
  - destruct (Htry _ _ _ Hi) as (Hw & He & Hd). rewrite packed_compare_exchange_spec in Hx by done.
    destruct (Z.eqb_spec (state_ s) e) as [Heq|]; [|done]. injection Hx as <- _. by apply exchange_step with (i := i).
  - destruct (Htry _ _ _ Hi) as (Hw & He & Hd). rewrite packed_compare_exchange_spec in Hx by done.
    destruct (Z.eqb_spec (state_ s) e) as [Heq|]; [done|]. injection Hx as <- <-.
    apply quiet_step; [done|]. intros j t [Hj|[-> ->]]%list_insert_cases; [by left|right]. eauto.
  - destruct (Htry _ _ _ Hi) as (Hw & He & Hd).
    apply quiet_step; [done|]. intros j t [Hj|[-> ->]]%list_insert_cases; [by left|right]. eauto.
Qed.

Lemma mint_hlc_inv : hlc_inv mint_hlc.
Proof. split; [|constructor]. exists (mkTs 0 0). split; [|done]. unfold ts_wf, in_width. simpl. lia. Qed.

Lemma hlc_steps_inv s s' : hlc_inv s -> hlc_steps s s' -> hlc_inv s' /\ ts_le (peek s) (peek s').
Proof.
  intros Hi Hs. induction Hs as [s|s s1 s' Hst _ IH]; [done|].
  destruct (hlc_step_ok _ _ Hi Hst) as [Hi1 [Hle _]]. destruct (IH Hi1). split; [done|by etrans].
Qed.

Lemma peek_wf s : ts_wf (peek s).
Proof. apply unpack_wf. Qed.

Lemma returned_stays s s' j c b :
  hlc_steps s s' -> threads s !! j = Some (c, Returned b) -> threads s' !! j = Some (c, Returned b).
Proof.
  induction 1 as [s|s s1 s' Hst _ IH]; [done|]. intros Hj. apply IH.
  destruct Hst; simpl; [by apply lookup_app_l_Some|..];
    (rewrite list_lookup_insert_ne; [done|intros ->; congruence]).
Qed.

(** A call that has not returned yet gets a stamp above the clock. *)
Lemma later_stamp s s' j c b :
  hlc_inv s -> hlc_steps s s' -> (forall c' b', threads s !! j <> Some (c', Returned b')) ->
  threads s' !! j = Some (c, Returned b) -> peek s' <> ts_max ->
  ts_lt (peek s) b /\ call_promise c b.
Proof.
  intros Hi Hs. induction Hs as [s|s s1 s' Hst Hs IH]; intros Hnot Hj Hmax; [by destruct (Hnot c b)|].
  destruct (hlc_step_ok _ _ Hi Hst) as [Hi1 [Hle Hret]]. destruct (hlc_steps_inv _ _ Hi1 Hs) as [Hi' Hle'].
  destruct (threads s1 !! j) as [[c1 [|e1|b1]]|] eqn:Hj1.
  1,2,4: assert (ts_lt (peek s1) b /\ call_promise c b) as [Hlt Hp] by (apply IH; naive_solver);
    split; [by eapply ts_le_lt_trans|done].
  destruct (Hret _ _ _ Hj1) as [Hold|(Hb & Hcw & Hw & Hb')]; [by destruct (Hnot c1 b1)|].
  rewrite (returned_stays _ _ _ _ _ Hs Hj1) in Hj.
  injection Hj as <- <-. rewrite Hb. apply call_event_moves; auto.
  intros Heq. apply Hmax, max_least; [apply peek_wf|]. rewrite <- Heq, <- Hb, Hb'. done.
Qed.

(** C24: a call of the clock that returns after another call has returned gets
    the larger stamp, whatever the interleaving of the threads and whatever
    the wall clock reports, as long as the clock is below its largest value.
    Its stamp is not before the wall clock that it read, and a received
    message's stamp is before it. *)
Theorem hlc_stamps_increase s s' i j ci cj a b :
  hlc_steps mint_hlc s -> threads s !! i = Some (ci, Returned a) ->
  (forall c t, threads s !! j <> Some (c, Returned t)) ->
  hlc_steps s s' -> threads s' !! j = Some (cj, Returned b) -> peek s' <> ts_max ->
  ts_lt a b /\ call_promise cj b.
Proof.
  intros H0 Ha Hnot Hs Hb Hmax. destruct (hlc_steps_inv _ _ mint_hlc_inv H0) as [Hi _].
  destruct (later_stamp s s' j cj b) as [Hlt Hp]; auto. split; [|done].
  destruct (Forall_lookup_1 _ _ _ _ (hi_threads _ Hi) Ha) as [_ Hle]. simpl in Hle.
  eapply ts_le_lt_trans; [|done]. unfold peek. destruct (hi_cell _ Hi) as (u & Hu & Hcell).
  rewrite packed_load_id; [done|]. rewrite Hcell. by apply pack_range.
Qed.

(** Two calls race: the second one's exchange is refused and tried again. *)
Definition wall (sec : Z) : timespec_reading := mkReading 0 sec 0.

Definition race_0 : hlc_sys := mkSys 0 [(Now (wall 5), AtTry 0); (Now (wall 3), AtTry 0)].
Definition race_1 : hlc_sys :=
  mkSys (pack_hlc_timestamp (mkTs 5000000000 0)) [(Now (wall 5), Returned (mkTs 5000000000 0)); (Now (wall 3), AtTry 0)].
Definition race_2 : hlc_sys :=
  mkSys (pack_hlc_timestamp (mkTs 5000000000 1))
    [(Now (wall 5), Returned (mkTs 5000000000 0)); (Now (wall 3), Returned (mkTs 5000000000 1))].

Lemma race_starts : hlc_steps mint_hlc race_0.
Proof.
  eapply rtc_l; [by apply Call with (c := Now (wall 5))|].
  eapply rtc_l; [by apply Call with (c := Now (wall 3))|].
  eapply rtc_l; [by eapply Load with (i := 0%nat)|]. eapply rtc_l; [by eapply Load with (i := 1%nat)|].
  apply rtc_refl.
Qed.

Lemma race_first : hlc_steps race_0 race_1.
Proof. eapply rtc_l; [by eapply Exchange with (i := 0%nat)|]. apply rtc_refl. Qed.

Lemma race_second : hlc_steps race_1 race_2.
Proof.
  eapply rtc_l; [by eapply Exchange_refused with (i := 1%nat)|].
  eapply rtc_l; [by eapply Exchange with (i := 1%nat)|]. apply rtc_refl.
Qed.

Lemma hlc_stamps_increase_witness : ts_lt (mkTs 5000000000 0) (mkTs 5000000000 1) /\ call_promise (Now (wall 3)) (mkTs 5000000000 1).
Proof.
  apply (hlc_stamps_increase race_1 race_2 0 1 (Now (wall 5)) (Now (wall 3))).
  - transitivity race_0; [exact race_starts|exact race_first].
  - reflexivity.
  - intros c t H. discriminate H.
  - exact race_second.
  - reflexivity.
  - intros H. apply (f_equal counter) in H. discriminate H.
Defined.

(** The packed words compare as the timestamps do. *)
Lemma pack_compare a b :
  ts_wf a -> ts_wf b -> (pack_hlc_timestamp a ?= pack_hlc_timestamp b) = ts_compare a b.
Proof.
  intros Ha Hb. rewrite !pack_value by done. destruct Ha, Hb. unfold in_width in *.
  unfold ts_compare. destruct (Z.compare_spec (physical_ns a) (physical_ns b)) as [Heq|Hlt|Hgt].
  - destruct (Z.compare_spec (counter a) (counter b)); [apply Z.compare_eq_iff|apply Z.compare_lt_iff|apply Z.compare_gt_iff]; lia.
  - apply Z.compare_lt_iff. lia.
  - apply Z.compare_gt_iff. lia.
Qed.

(** ** The clock of a message-passing system *)

#[export] Instance Hlc_clock : LogicalClock HlcTimestamp timespec_reading := {
  clock_new := mkTs 0 0;
  clock_node _ := True;
  clock_wf := ts_wf;
  clock_tick _ r c := call_event (Now r) c;
  clock_recv _ r c m := call_event (OnRecv r m) c;
  clock_lt := ts_lt;
  clock_spent c := c = ts_max;
}.

#[export] Instance Hlc_clock_ok : LogicalClockOk HlcTimestamp timespec_reading.
Proof.
  split; simpl.
  - apply _.
  - unfold ts_wf, in_width. simpl. lia.
  - intros H. apply (f_equal counter) in H. discriminate H.
  - intros _ r c _ Hc. by apply (call_event_wf (Now r)).
  - intros _ r c m _ Hc Hm. by apply (call_event_wf (OnRecv r m)).
  - intros _ r c _ Hc Hs. apply local_event_moves; auto using read_realtime_width.
  - intros _ r c m _ Hc Hm Hcs Hms.
    destruct (recv_event_moves c m (read_realtime_ns_ r)) as (?&?&_); auto using read_realtime_width.
Qed.

(** In every execution of nodes that stamp their local events, sends and
    receives with the clock, whatever each node's wall clock reads, an event
    that causally precedes another one has the smaller stamp, as long as no
    stamp is the largest value. *)
Theorem hlc_respects_causality (w : world HlcTimestamp) i j a b :
  execution (I := timespec_reading) w -> none_spent (I := timespec_reading) w -> precedes w i j ->
  clock_at w i = Some a -> clock_at w j = Some b ->
  ts_lt a b.
Proof. exact (precedes_clock_lt (C := HlcTimestamp) (I := timespec_reading) w i j a b). Qed.

(** Node 0 sends at its second 9; node 1, whose wall clock reads 2, receives. *)
Definition skewed_sent : world HlcTimestamp :=
  let w := first_world (I := timespec_reading) in
  after w 0 (tick_view w 0 (wall 9)) [tick_view w 0 (wall 9)].
Definition skewed : world HlcTimestamp :=
  after skewed_sent 1 (recv_view skewed_sent 1 (wall 2) (tick_view (first_world (I := timespec_reading)) 0 (wall 9)))
    (w_msgs skewed_sent).

Lemma skewed_execution : execution (I := timespec_reading) skewed.
Proof.
  apply ex_step with skewed_sent.
  - apply ex_step with (first_world (I := timespec_reading)); [constructor|]. exact (w_send (first_world (I := timespec_reading)) 0 (wall 9) Logic.I).
  - by apply (w_recv skewed_sent 1 (wall 2) 0 (tick_view (first_world (I := timespec_reading)) 0 (wall 9))).
Qed.

Lemma hlc_respects_causality_witness : ts_lt (mkTs 9000000000 0) (mkTs 9000000000 1).
Proof.
  apply (hlc_respects_causality skewed 0 1).
  - exact skewed_execution.
  - intros [|[|i]] e He; try discriminate He; injection He as <-; intros H; apply (f_equal counter) in H; discriminate H.
  - eexists. split; [reflexivity|]. split; [apply (bool_decide_unpack _); vm_compute; exact Logic.I|discriminate].
  - reflexivity.
  - reflexivity.
Defined.
