(* ===== verification/VectorClock.v ===== *)
(** * VectorClock.v: the vector clock (include/crucible/canopy/VectorClock.h)

    Snapshots and their pointwise order, the sparse delta of a snapshot, the
    clock with its atomic slots, and the exact correspondence between the
    order of the snapshots and the causal order of the events.  The template
    argument MaxNodes is a section variable. *)

From stdpp Require Import base list gmap strings.
From Stdlib Require Import ZArith Lia.
From S2P Require Import Prelude.
From S2P Require Import Clocks.
#[local] Open Scope Z_scope.

(** An entry of an array of counts. *)
Definition entry (a : list Z) (i : nat) : Z := default 0 (a !! i).

Section VectorClocks.
Context (MaxNodes : nat).

(** ** The sparse delta *)

Record VectorClockDelta := mkDelta {
  node_ids : list nat;
  delta_values : list Z;
  count_ : nat;
}.

Definition new_delta : VectorClockDelta := mkDelta (replicate MaxNodes 0%nat) (replicate MaxNodes 0) 0.

Definition delta_empty (d : VectorClockDelta) : bool := (count_ d =? 0)%nat.

Definition node_at (d : VectorClockDelta) (slot : nat) : nat := default 0%nat (node_ids d !! slot).
Definition value_at (d : VectorClockDelta) (slot : nat) : Z := entry (delta_values d) slot.

(** The first slot below the count that holds a node id. *)
Definition find_slot (d : VectorClockDelta) (node : nat) : option nat :=
  List.find (fun i => (node_at d i =? node)%nat) (seq 0 (count_ d)).

Definition push (d : VectorClockDelta) (node : nat) (value : Z) : VectorClockDelta * bool :=
  if value =? 0 then (d, true)
  else
    match find_slot d node with
    | Some i =>
        (if value_at d i <? value then mkDelta (node_ids d) (<[i := value]> (delta_values d)) (count_ d) else d, true)
    | None =>
        if (count_ d =? MaxNodes)%nat then (d, false)
        else (mkDelta (<[count_ d := node]> (node_ids d)) (<[count_ d := value]> (delta_values d)) (S (count_ d)), true)
    end.

(** ** Snapshots: one 64-bit count for each node *)

Abbreviation snapshot_type := (list Z).

Definition new_snapshot : snapshot_type := replicate MaxNodes 0.

Definition snapshot_positive_at (s : snapshot_type) (node : nat) : option Z :=
  let value := entry s node in if value =? 0 then None else Some value.

Definition leq_ (lhs rhs : snapshot_type) : bool :=
  forallb (fun i => negb (entry rhs i <? entry lhs i)) (seq 0 MaxNodes).

(** The defaulted operator==. *)
Definition snapshot_eqb (lhs rhs : snapshot_type) : bool :=
  forallb (fun i => entry lhs i =? entry rhs i) (seq 0 MaxNodes).

Inductive partial_ordering := equivalent | less | greater | unordered.

Definition snapshot_compare (self other : snapshot_type) : partial_ordering :=
  let self_leq_other := leq_ self other in
  let other_leq_self := leq_ other self in
  if self_leq_other && other_leq_self then equivalent
  else if self_leq_other then less
  else if other_leq_self then greater
  else unordered.

Definition happens_before (self other : snapshot_type) : bool := leq_ self other && negb (snapshot_eqb self other).
Definition concurrent_with (self other : snapshot_type) : bool := negb (leq_ self other) && negb (leq_ other self).
Definition comparable_with (self other : snapshot_type) : bool := leq_ self other || leq_ other self.

Definition sparse_delta (s : snapshot_type) : VectorClockDelta :=
  fold_left (fun d i => (push d i (entry s i)).1) (seq 0 MaxNodes) new_delta.

Definition from_sparse_delta (d : VectorClockDelta) : snapshot_type :=
  fold_left (fun out i => <[node_at d i := value_at d i]> out) (seq 0 (count_ d)) new_snapshot.

(** ** The clock *)

Record VectorClock := mkClock { entries_ : list Z; self_id_ : nat }.

(** mint_vector_clock: the checked mint of the node id. *)
Definition mint_vector_clock (self_id : nat) : result VectorClock :=
  (let* _ := require (self_id <=? MaxNodes - 1)%nat "the node id is out of bound" in
   Ok (mkClock (replicate MaxNodes 0) self_id))%result.

(** The slot operations, as one thread alone runs them; see [slot_step] for
    threads that interleave. *)
Definition bump_slot_ (current : Z) : Z := if current =? UINT64_MAX then current else current + 1.
Definition atomic_max_ (current incoming : Z) : Z := if current <? incoming then incoming else current.

Definition on_local_event (c : VectorClock) : VectorClock :=
  mkClock (alter bump_slot_ (self_id_ c) (entries_ c)) (self_id_ c).

Definition snapshot (c : VectorClock) : snapshot_type := (fun i => entry (entries_ c) i) <$> seq 0 MaxNodes.

Definition merge_snapshot_ (c : VectorClock) (incoming : snapshot_type) : VectorClock :=
  mkClock (fold_left (fun a i => alter (fun cur => atomic_max_ cur (entry incoming i)) i a) (seq 0 MaxNodes) (entries_ c))
    (self_id_ c).

Definition on_send (c : VectorClock) : VectorClock * snapshot_type :=
  let c := on_local_event c in (c, snapshot c).

(** on_send(VectorClock&): the sender and the clock that takes the snapshot. *)
Definition on_send_to (c outgoing : VectorClock) : VectorClock * VectorClock :=
  let '(c, s) := on_send c in (c, merge_snapshot_ outgoing s).

Definition on_recv (c : VectorClock) (incoming : snapshot_type) : VectorClock :=
  on_local_event (merge_snapshot_ c incoming).

Definition on_recv_clock (c incoming : VectorClock) : VectorClock := on_recv c (snapshot incoming).
Definition on_recv_delta (c : VectorClock) (incoming : VectorClockDelta) : VectorClock :=
  on_recv c (from_sparse_delta incoming).

Definition apply_delta (c : VectorClock) (delta : VectorClockDelta) : VectorClock :=
  merge_snapshot_ c (from_sparse_delta delta).

(** ** Threads on one slot

    bump_slot_ and atomic_max_ load the slot and then try a weak
    compare-exchange, which loads the slot again when it fails and which may
    fail for no reason. *)

Inductive slot_call := Bump | Max (incoming : Z).
Inductive slot_pc := SlotLoad | SlotTry (current : Z) | SlotDone.

(** The value that a call wants to write over [current], if it does not
    return at once. *)
Definition slot_wants (c : slot_call) (current : Z) : option Z :=
  match c with
  | Bump => if current =? UINT64_MAX then None else Some (current + 1)
  | Max incoming => if current <? incoming then Some incoming else None
  end.

Record slot_sys := mkSlotSys { slot : Z; slot_threads : list (slot_call * slot_pc) }.

Inductive slot_step : slot_sys -> slot_sys -> Prop :=
| Slot_call s c :
    (forall v, c = Max v -> in_width 64 v) ->
    slot_step s (mkSlotSys (slot s) (slot_threads s ++ [(c, SlotLoad)]))
| Slot_load s i c :
    slot_threads s !! i = Some (c, SlotLoad) ->
    slot_step s (mkSlotSys (slot s) (<[i := (c, SlotTry (slot s))]> (slot_threads s)))
| Slot_return s i c current :
    slot_threads s !! i = Some (c, SlotTry current) -> slot_wants c current = None ->
    slot_step s (mkSlotSys (slot s) (<[i := (c, SlotDone)]> (slot_threads s)))
| Slot_exchange s i c next :
    slot_threads s !! i = Some (c, SlotTry (slot s)) -> slot_wants c (slot s) = Some next ->
    slot_step s (mkSlotSys next (<[i := (c, SlotDone)]> (slot_threads s)))
| Slot_fail s i c current next :
    slot_threads s !! i = Some (c, SlotTry current) -> slot_wants c current = Some next ->
    slot_step s (mkSlotSys (slot s) (<[i := (c, SlotTry (slot s))]> (slot_threads s))).

Definition is_done_bump (t : slot_call * slot_pc) : bool :=
  match t with (Bump, SlotDone) => true | _ => false end.

(** The bumps that have returned. *)
Definition done_bumps (s : slot_sys) : nat := length (List.filter is_done_bump (slot_threads s)).

(** The incoming values of the merges that have returned. *)
Definition done_max (s : slot_sys) (v : Z) : Prop := (Max v, SlotDone) ∈ slot_threads s.

(** ** Lemmas *)

Lemma seq_forallb (f : nat -> bool) n : forallb f (seq 0 n) = true <-> forall i, (i < n)%nat -> f i = true.
Proof.
  rewrite forallb_forall. setoid_rewrite in_seq. split; intros H i Hi; apply H; lia.
Qed.

Lemma leq_spec a b : leq_ a b = true <-> forall i, (i < MaxNodes)%nat -> entry a i <= entry b i.
Proof.
  unfold leq_. rewrite seq_forallb. split; intros H i Hi; specialize (H i Hi); [reflect_bools|apply negb_true_iff, Z.ltb_ge]; lia.
Qed.

Lemma snapshot_eqb_spec a b : snapshot_eqb a b = true <-> forall i, (i < MaxNodes)%nat -> entry a i = entry b i.
Proof. unfold snapshot_eqb. rewrite seq_forallb. by setoid_rewrite Z.eqb_eq. Qed.

Lemma entry_lookup a i : (i < length a)%nat -> a !! i = Some (entry a i).
Proof. intros Hi. apply lookup_lt_is_Some in Hi as [v Hv]. unfold entry. by rewrite Hv. Qed.

Lemma entries_eq a b :
  length a = MaxNodes -> length b = MaxNodes -> (forall i, (i < MaxNodes)%nat -> entry a i = entry b i) -> a = b.
Proof.
  intros Ha Hb H. apply list_eq. intros i. destruct (decide (i < MaxNodes)%nat) as [Hi|Hi].
  - rewrite !entry_lookup by lia. by rewrite H.
  - rewrite !lookup_ge_None_2 by lia. done.
Qed.

Lemma entry_alter f a i j : (i < length a)%nat -> entry (alter f i a) j = if decide (i = j) then f (entry a j) else entry a j.
Proof.
  intros Hi. unfold entry at 1. case_decide as Hij.
  - subst. rewrite list_lookup_alter_eq, entry_lookup by done. done.
  - by rewrite list_lookup_alter_ne.
Qed.

Lemma entry_insert a i j v : (i < length a)%nat -> entry (<[i := v]> a) j = if decide (i = j) then v else entry a j.
Proof.
  intros Hi. unfold entry at 1. case_decide as Hij.
  - subst. by rewrite list_lookup_insert_eq by done.
  - by rewrite list_lookup_insert_ne.
Qed.

Lemma entry_replicate n i : entry (replicate n 0) i = 0.
Proof. unfold entry. destruct (replicate n 0 !! i) eqn:H; [by apply lookup_replicate in H as [-> _]|done]. Qed.

(** ** The delta as a map *)

Record delta_wf (d : VectorClockDelta) : Prop := {
  dw_ids : length (node_ids d) = MaxNodes;
  dw_values : length (delta_values d) = MaxNodes;
  dw_count : (count_ d <= MaxNodes)%nat;
  dw_bound i : (i < count_ d)%nat -> (node_at d i < MaxNodes)%nat;
  dw_distinct i j : (i < count_ d)%nat -> (j < count_ d)%nat -> node_at d i = node_at d j -> i = j;
}.

Definition delta_get (d : VectorClockDelta) (node : nat) : Z :=
  match find_slot d node with Some i => value_at d i | None => 0 end.

Lemma find_slot_Some d node i : find_slot d node = Some i -> (i < count_ d)%nat /\ node_at d i = node.
Proof.
  intros H. apply find_some in H as [Hin Heq]. apply in_seq in Hin. apply Nat.eqb_eq in Heq. lia.
Qed.

Lemma find_slot_None d node i : find_slot d node = None -> (i < count_ d)%nat -> node_at d i <> node.
Proof.
  intros H Hi Heq. eapply find_none in H; [|apply in_seq; split; [apply Nat.le_0_l|exact Hi]].
  simpl in H. apply Nat.eqb_neq in H. done.
Qed.

(** The slot of an id is the one that holds it. *)
Lemma find_slot_eq d node i : delta_wf d -> (i < count_ d)%nat -> node_at d i = node -> find_slot d node = Some i.
Proof.
  intros Hd Hi Hn. destruct (find_slot d node) as [j|] eqn:Hf.
  - apply find_slot_Some in Hf as [Hj Hjn]. f_equal. apply (dw_distinct _ Hd); congruence.
  - by destruct (find_slot_None _ _ _ Hf Hi).
Qed.

Lemma delta_get_slot d i : delta_wf d -> (i < count_ d)%nat -> delta_get d (node_at d i) = value_at d i.
Proof. intros Hd Hi. unfold delta_get. by rewrite (find_slot_eq d _ i). Qed.

Lemma new_delta_wf : delta_wf new_delta.
Proof. split; simpl; try rewrite length_replicate; try lia. Qed.

(** Distinct ids below MaxNodes: a full delta has a slot for each node. *)
Lemma full_delta_finds d node : delta_wf d -> count_ d = MaxNodes -> (node < MaxNodes)%nat -> find_slot d node <> None.
Proof.
  intros Hd Hc Hn Hf.
  assert (Hnd : NoDup (node :: (node_at d <$> seq 0 MaxNodes))).
  { constructor.
    - intros (i & -> & Hi)%list_elem_of_fmap. apply elem_of_seq in Hi. apply (find_slot_None _ _ i Hf); [lia|done].
    - apply NoDup_fmap_2_strong; [|apply NoDup_seq]. intros i j Hi Hj. apply elem_of_seq in Hi, Hj.
      apply (dw_distinct _ Hd); lia. }
  assert (Hsub : node :: (node_at d <$> seq 0 MaxNodes) ⊆ seq 0 MaxNodes).
  { intros k Hk. apply elem_of_seq. apply elem_of_cons in Hk as [->|(i & -> & Hi)%list_elem_of_fmap]; [lia|].
    apply elem_of_seq in Hi. pose proof (dw_bound _ Hd i). lia. }
  pose proof (NoDup_submseteq _ _ Hnd Hsub) as Hlen%submseteq_length.
  simpl in Hlen. rewrite length_fmap, length_seq in Hlen. lia.
Qed.

(** A slot gets a new value. *)
Lemma raise_slot d i v :
  delta_wf d -> (i < count_ d)%nat ->
  let d' := mkDelta (node_ids d) (<[i := v]> (delta_values d)) (count_ d) in
  delta_wf d' /\ forall n, delta_get d' n = if decide (n = node_at d i) then v else delta_get d n.
Proof.
  intros Hd Hi d'. pose proof (dw_values _ Hd). pose proof (dw_count _ Hd).
  assert (Hw : delta_wf d') by (destruct Hd; split; simpl; rewrite ?length_insert; done).
  assert (Hval : forall j, value_at d' j = if decide (i = j) then v else value_at d j)
    by (intros j; apply entry_insert; lia).
  split; [done|]. intros n. case_decide as Hn.
  - subst n. change (node_at d i) with (node_at d' i). rewrite delta_get_slot, Hval by done. by rewrite decide_True.
  - unfold delta_get. change (find_slot d' n) with (find_slot d n).
    destruct (find_slot d n) as [j|] eqn:Hf; [|done]. apply find_slot_Some in Hf as [_ Hj].
    rewrite Hval, decide_False by congruence. done.
Qed.

(** A new slot for a node that has none. *)
Lemma append_slot d node v :
  delta_wf d -> (node < MaxNodes)%nat -> (count_ d < MaxNodes)%nat -> find_slot d node = None ->
  let d' := mkDelta (<[count_ d := node]> (node_ids d)) (<[count_ d := v]> (delta_values d)) (S (count_ d)) in
  delta_wf d' /\ forall n, delta_get d' n = if decide (n = node) then v else delta_get d n.
Proof.
  intros Hd Hn Hc Hf d'. pose proof (dw_ids _ Hd). pose proof (dw_values _ Hd).
  assert (Hat : forall i, (i < S (count_ d))%nat -> node_at d' i = if decide (count_ d = i) then node else node_at d i).
  { intros i Hi. unfold node_at. simpl. rewrite list_lookup_insert.
    repeat case_decide; try lia; done. }
  assert (Hval : forall i, value_at d' i = if decide (count_ d = i) then v else value_at d i)
    by (intros i; apply entry_insert; lia).
  assert (Hw : delta_wf d').
  { split; simpl; rewrite ?length_insert; try lia.
    - intros i Hi. rewrite Hat by done. case_decide; [done|]. apply (dw_bound _ Hd). lia.
    - intros i j Hi Hj. rewrite !Hat by done. repeat case_decide; intros Heq; try lia.
      + by destruct (find_slot_None _ _ j Hf); [lia|].
      + by destruct (find_slot_None _ _ i Hf); [lia|].
      + apply (dw_distinct _ Hd); [lia..|done]. }
  split; [done|]. intros n. case_decide as Hne.
  - subst n. assert (Hlast : node_at d' (count_ d) = node) by (rewrite Hat by lia; by rewrite decide_True).
    rewrite <- Hlast, delta_get_slot by (done || simpl; lia). rewrite Hval. by rewrite decide_True.
  - unfold delta_get. destruct (find_slot d n) as [i|] eqn:Hfi.
    + pose proof (find_slot_Some _ _ _ Hfi) as [Hi Hin].
      rewrite (find_slot_eq d' n i), Hval; [|done|simpl; lia|rewrite Hat by lia; case_decide; [lia|done]].
      case_decide; [lia|done].
    + destruct (find_slot d' n) as [j|] eqn:Hfj; [|done].
      apply find_slot_Some in Hfj as [Hj Hjn]. simpl in Hj. rewrite Hat in Hjn by done. case_decide; [congruence|].
      by destruct (find_slot_None _ _ j Hfi); [lia|].
Qed.

(** push never refuses, keeps the bounds and raises one entry. *)
Lemma push_spec d node value :
  delta_wf d -> (node < MaxNodes)%nat -> 0 <= value -> 0 <= delta_get d node ->
  (push d node value).2 = true /\ delta_wf (push d node value).1 /\
  forall n, delta_get (push d node value).1 n = if decide (n = node) then Z.max (delta_get d n) value else delta_get d n.
Proof.
  intros Hd Hn Hv Hpos. unfold push. destruct (Z.eqb_spec value 0) as [->|Hv0].
  { split_and!; [done..|]. intros n. case_decide; simpl; subst; lia. }
  destruct (find_slot d node) as [i|] eqn:Hf.
  - pose proof (find_slot_Some _ _ _ Hf) as [Hi Hni].
    assert (Hgi : delta_get d node = value_at d i) by (unfold delta_get; by rewrite Hf).
    destruct (Z.ltb_spec (value_at d i) value) as [Hlt|Hge]; simpl.
    + destruct (raise_slot d i value Hd Hi) as [Hw Hget]. split_and!; [done..|].
      intros n. rewrite Hget, Hni. case_decide; [subst; lia|done].
    + split_and!; [done..|]. intros n. case_decide as Hnn; [subst n; lia|done].
  - destruct (Nat.eqb_spec (count_ d) MaxNodes) as [Hc|Hc]; [by destruct (full_delta_finds d node)|]. simpl.
    pose proof (dw_count _ Hd). destruct (append_slot d node value) as [Hw Hget]; [done|done|lia|done|].
    split_and!; [done..|]. intros n. rewrite Hget. case_decide; [|done]. subst. unfold delta_get. rewrite Hf. lia.
Qed.

(** A sequence of pushes into a new delta, with the verdict of each. *)
Definition push_all (ops : list (nat * Z)) : VectorClockDelta * bool :=
  fold_left (fun '(d, ok) op => let '(d', b) := push d op.1 op.2 in (d', ok && b)) ops (new_delta, true).

(** The largest value that was pushed for a node. *)
Definition largest (ops : list (nat * Z)) (node : nat) : Z :=
  fold_right Z.max 0 (snd <$> List.filter (fun op => (op.1 =? node)%nat) ops).

Definition pushes_ok (ops : list (nat * Z)) : Prop := Forall (fun op => (op.1 < MaxNodes)%nat /\ in_width 64 op.2) ops.

Lemma largest_nonneg ops n : 0 <= largest ops n.
Proof. unfold largest. induction (snd <$> _); simpl; lia. Qed.

Lemma largest_snoc ops op n : largest (ops ++ [op]) n = if (op.1 =? n)%nat then Z.max (largest ops n) op.2 else largest ops n.
Proof.
  unfold largest. rewrite List.filter_app. simpl. destruct (op.1 =? n)%nat; simpl; [|by rewrite app_nil_r].
  rewrite fmap_app. induction (snd <$> _) as [|x l IH]; simpl in *; lia.
Qed.

Lemma push_all_spec ops :
  pushes_ok ops ->
  (push_all ops).2 = true /\ delta_wf (push_all ops).1 /\ forall n, delta_get (push_all ops).1 n = largest ops n.
Proof.
  induction ops as [|op ops IH] using rev_ind; intros Hok.
  - split_and!; [done|apply new_delta_wf|done].
  - apply Forall_app in Hok as [Hok [[Hb Hv] _]%Forall_cons]. destruct (IH Hok) as (H1 & H2 & H3).
    unfold push_all in *. rewrite fold_left_app. destruct (fold_left _ ops _) as [d ok]. simpl in *. subst ok.
    destruct (push_spec d op.1 op.2) as (Hp & Hw & Hget); [done|done|unfold in_width in *; lia|rewrite H3; apply largest_nonneg|].
    destruct (push d op.1 op.2) as [d' b]. simpl in *. split_and!; [by rewrite Hp|done|].
    intros n. rewrite Hget, largest_snoc, H3. destruct (Nat.eqb_spec op.1 n); case_decide; done || lia.
Qed.

(** Reading a delta writes the value of each id. *)
Lemma from_sparse_delta_get d :
  delta_wf d -> length (from_sparse_delta d) = MaxNodes /\
  forall n, (n < MaxNodes)%nat -> entry (from_sparse_delta d) n = delta_get d n.
Proof.
  intros Hd. unfold from_sparse_delta.
  assert (H : forall k, (k <= count_ d)%nat ->
    let out := fold_left (fun out i => <[node_at d i := value_at d i]> out) (seq 0 k) new_snapshot in
    length out = MaxNodes /\ forall n, (n < MaxNodes)%nat ->
      entry out n = match find_slot d n with Some i => if (i <? k)%nat then value_at d i else 0 | None => 0 end).
  { induction k as [|k IH]; intros Hk out.
    - subst out. simpl. split; [apply length_replicate|]. intros n Hn. unfold new_snapshot. rewrite entry_replicate.
      by destruct (find_slot d n).
    - subst out. destruct IH as [Hlen Hget]; [lia|]. rewrite seq_S, fold_left_app. simpl. rewrite length_insert.
      split; [done|]. pose proof (dw_bound _ Hd k). intros n Hn. rewrite entry_insert, Hget by lia.
      case_decide as Hkn.
      + rewrite (find_slot_eq d n k) by (done || lia). by rewrite (proj2 (Nat.ltb_lt k (S k))) by lia.
      + destruct (find_slot d n) as [i|] eqn:Hf; [|done]. apply find_slot_Some in Hf as [Hi Hin].
        destruct (Nat.ltb_spec i k), (Nat.ltb_spec i (S k)); try lia; try done.
        replace i with k in Hin by lia. done. }
  destruct (H (count_ d)) as [Hlen Hget]; [lia|]. split; [done|]. intros n Hn. rewrite Hget by done.
  unfold delta_get. destruct (find_slot d n) as [i|] eqn:Hf; [|done]. apply find_slot_Some in Hf as [Hi _].
  by rewrite (proj2 (Nat.ltb_lt i (count_ d))) by lia.
Qed.

Definition snapshot_wf (s : snapshot_type) : Prop := length s = MaxNodes /\ Forall (in_width 64) s.

Lemma sparse_delta_pushes s : sparse_delta s = (push_all ((fun i => (i, entry s i)) <$> seq 0 MaxNodes)).1.
Proof.
  unfold sparse_delta, push_all. generalize new_delta, true.
  induction (seq 0 MaxNodes) as [|i l IH]; intros d b; [done|]. simpl. destruct (push d i (entry s i)). apply IH.
Qed.

Lemma largest_entries s n :
  snapshot_wf s -> (n < MaxNodes)%nat -> largest ((fun i => (i, entry s i)) <$> seq 0 MaxNodes) n = entry s n.
Proof.
  intros [Hl Hs] Hn.
  assert (H : forall k, largest ((fun i => (i, entry s i)) <$> seq 0 k) n = if (n <? k)%nat then entry s n else 0).
  { induction k as [|k IH]; [done|]. rewrite seq_S, fmap_app. simpl. rewrite largest_snoc, IH. simpl.
    destruct (Nat.eqb_spec k n), (Nat.ltb_spec n k), (Nat.ltb_spec n (S k)); try lia. subst.
    assert (Hw : in_width 64 (entry s n)); [|unfold in_width in Hw; lia].
    apply (Forall_lookup_1 _ _ n _ Hs). by rewrite entry_lookup by lia. }
  rewrite H. by rewrite (proj2 (Nat.ltb_lt n MaxNodes)).
Qed.

(** No sequence of pushes takes a delta out of the types of its accessors:
    the count stays at most MaxNodes and every stored node id stays below it,
    as size() and node_at() claim without a check.  No push is refused, and
    the receiver reads the largest value that was pushed for each node. *)
Theorem delta_pushes_keep_bounds ops :
  pushes_ok ops ->
  (push_all ops).2 = true /\ (count_ (push_all ops).1 <= MaxNodes)%nat /\
  (forall slot, (slot < count_ (push_all ops).1)%nat -> (node_at (push_all ops).1 slot < MaxNodes)%nat) /\
  (forall n, (n < MaxNodes)%nat -> entry (from_sparse_delta (push_all ops).1) n = largest ops n).
Proof.
  intros Hok. destruct (push_all_spec ops Hok) as (H1 & Hw & Hget). split_and!; [done|apply Hw|apply Hw|].
  intros n Hn. rewrite <- Hget. by apply from_sparse_delta_get.
Qed.

Lemma snapshot_pushes_ok s : snapshot_wf s -> pushes_ok ((fun i => (i, entry s i)) <$> seq 0 MaxNodes).
Proof.
  intros [Hl Hs]. apply Forall_fmap, Forall_forall. intros i Hi%elem_of_seq. simpl. split; [lia|].
  apply (Forall_lookup_1 _ _ i _ Hs). by rewrite entry_lookup by lia.
Qed.

(** A snapshot sent as a sparse delta arrives as it was. *)
Theorem sparse_delta_roundtrip s : snapshot_wf s -> from_sparse_delta (sparse_delta s) = s.
Proof.
  intros Hs. destruct (push_all_spec _ (snapshot_pushes_ok s Hs)) as (_ & Hw & Hget). rewrite sparse_delta_pushes.
  destruct (from_sparse_delta_get _ Hw) as [Hl He]. apply entries_eq; [done|apply Hs|].
  intros i Hi. rewrite He, Hget by done. by apply largest_entries.
Qed.

(** ** The slot under threads *)

Definition slot_pc_ok (v : Z) (t : slot_call * slot_pc) : Prop :=
  (forall x, t.1 = Max x -> in_width 64 x) /\
  match t with
  | (_, SlotTry current) => current <= v
  | (Max x, SlotDone) => x <= v
  | _ => True
  end.

Definition slot_inv (s : slot_sys) : Prop := slot s <= UINT64_MAX /\ Forall (slot_pc_ok (slot s)) (slot_threads s).

Lemma slot_pc_ok_mono v v' t : v <= v' -> slot_pc_ok v t -> slot_pc_ok v' t.
Proof. destruct t as [[] []]; unfold slot_pc_ok; intuition lia. Qed.

Lemma count_insert {A} (f : A -> bool) l i x y :
  l !! i = Some y ->
  (length (List.filter f (<[i := x]> l)) + Nat.b2n (f y) = length (List.filter f l) + Nat.b2n (f x))%nat.
Proof.
  revert i. induction l as [|z l IH]; intros [|i] Hi; simplify_eq/=.
  - destruct (f x), (f y); simpl; lia.
  - specialize (IH i Hi). destruct (f z); simpl; lia.
Qed.

(** One thread moves, and the slot does not go down. *)
Lemma slot_move s i t t' v :
  slot_inv s -> slot_threads s !! i = Some t -> slot s <= v <= UINT64_MAX -> slot_pc_ok v t' -> is_done_bump t = false ->
  (is_done_bump t' = true -> slot s < v \/ v = UINT64_MAX) ->
  let s' := mkSlotSys v (<[i := t']> (slot_threads s)) in
  slot_inv s' /\ slot s <= v /\
  (Z.of_nat (done_bumps s') - Z.of_nat (done_bumps s) <= v - slot s \/ v = UINT64_MAX).
Proof.
  intros [Hmax Hth] Hi Hv Ht' Hnot Hdone s'. split_and!; [split; simpl; [lia|]|lia|].
  - apply Forall_insert; [|done]. eapply Forall_impl; [done|]. intros u. apply slot_pc_ok_mono. lia.
  - pose proof (count_insert is_done_bump (slot_threads s) i t' t Hi) as Hc. rewrite Hnot in Hc.
    unfold done_bumps. simpl in *. destruct (is_done_bump t'); simpl in Hc; [|left; lia].
    destruct Hdone; [done|left; lia|by right].
Qed.

Lemma slot_step_ok s s' :
  slot_inv s -> slot_step s s' ->
  slot_inv s' /\ slot s <= slot s' /\
  (Z.of_nat (done_bumps s') - Z.of_nat (done_bumps s) <= slot s' - slot s \/ slot s' = UINT64_MAX).
Proof.
  intros Hinv Hst. assert (Hle : slot s <= UINT64_MAX) by apply Hinv.
  assert (Hok : forall i t, slot_threads s !! i = Some t -> slot_pc_ok (slot s) t)
    by (intros i t; apply Forall_lookup_1, Hinv).
  destruct Hst as [s c Hc|s i c Hi|s i c cur Hi Hw|s i c next Hi Hw|s i c cur next Hi Hw].
  - simpl. split_and!; [split; [done|]|done|left].
    + apply Forall_app. split; [apply Hinv|]. apply Forall_singleton. split; [done|by destruct c].
    + unfold done_bumps. simpl. rewrite List.filter_app. simpl. destruct c; simpl; rewrite app_nil_r; lia.
  - destruct (Hok _ _ Hi) as [Hx _]. refine (slot_move s i (c, SlotLoad) (c, SlotTry (slot s)) (slot s) _ _ _ _ _ _); [done..|lia| |by destruct c|by destruct c].
    split; [done|by destruct c; simpl].
  - destruct (Hok _ _ Hi) as [Hx Hcur]. simpl in Hcur.
    refine (slot_move s i (c, SlotTry cur) (c, SlotDone) (slot s) _ _ _ _ _ _); [done..|lia|split; [done|]|by destruct c|];
      destruct c; simpl in *; try done; intros; case_match; reflect_bools; done || lia.
  - destruct (Hok _ _ Hi) as [Hx _].
    assert (slot s < next <= UINT64_MAX).
    { destruct c as [|x]; simpl in Hw.
      - destruct (Z.eqb_spec (slot s) UINT64_MAX); simplify_eq. lia.
      - specialize (Hx x eq_refl). unfold in_width, UINT64_MAX in *. destruct (Z.ltb_spec (slot s) x); simplify_eq. lia. }
    refine (slot_move s i (c, SlotTry (slot s)) (c, SlotDone) next _ _ _ _ _ _); [done..|lia|split; [done|]|by destruct c|by left; lia].
    destruct c as [|x]; [done|]. simpl in Hw. case_match; simplify_eq. lia.
  - destruct (Hok _ _ Hi) as [Hx _]. refine (slot_move s i (c, SlotTry cur) (c, SlotTry (slot s)) (slot s) _ _ _ _ _ _); [done..|lia| |by destruct c|by destruct c].
    split; [done|by destruct c; simpl].
Qed.

Abbreviation slot_steps := (rtc slot_step).

Lemma slot_steps_ok s s' :
  slot_inv s -> slot_steps s s' ->
  slot_inv s' /\ slot s <= slot s' /\
  (Z.of_nat (done_bumps s') - Z.of_nat (done_bumps s) <= slot s' - slot s \/ slot s' = UINT64_MAX).
Proof.
  intros Hi Hs. induction Hs as [s|s s1 s' Hst _ IH]; [split_and!; [done..|lia]|].
  destruct (slot_step_ok _ _ Hi Hst) as (Hi1 & H1 & H2). destruct (IH Hi1) as ([Hm Hf] & H3 & H4).
  split_and!; [done|lia|lia].
Qed.

(** Whatever the interleaving of local events and merges on one slot, the
    slot never goes down, every event that returned is counted (until the
    slot is at its largest value, where it stays), and every merge that
    returned left the slot at or above the merged count. *)
Theorem slot_counts_every_event s s' :
  slot_steps (mkSlotSys 0 []) s -> slot_steps s s' ->
  slot s <= slot s' /\
  (Z.of_nat (done_bumps s') - Z.of_nat (done_bumps s) <= slot s' - slot s \/ slot s' = UINT64_MAX) /\
  (forall v, done_max s' v -> v <= slot s').
Proof.
  intros H0 Hs. destruct (slot_steps_ok (mkSlotSys 0 []) s) as (Hi & _ & _); [|done|].
  { split; [by unfold UINT64_MAX|constructor]. }
  destruct (slot_steps_ok s s' Hi Hs) as ([_ Hf] & H1 & H2). split_and!; [done..|].
  intros v Hv. rewrite Forall_forall in Hf. by apply (Hf _ Hv).
Qed.

(** A thread alone on the slot returns after its load and one exchange, and
    leaves what the sequential operation gives. *)
Definition slot_result (c : slot_call) (current : Z) : Z :=
  match c with Bump => bump_slot_ current | Max incoming => atomic_max_ current incoming end.

Lemma slot_alone v c :
  (forall x, c = Max x -> in_width 64 x) ->
  slot_steps (mkSlotSys v []) (mkSlotSys (slot_result c v) [(c, SlotDone)]).
Proof.
  intros Hc. eapply rtc_l; [by apply Slot_call with (c := c)|]. eapply rtc_l; [by eapply Slot_load with (i := 0%nat)|].
  simpl. apply rtc_once. destruct (slot_wants c v) as [next|] eqn:Hw.
  - replace (slot_result c v) with next.
    + by apply (Slot_exchange (mkSlotSys v [(c, SlotTry v)]) 0 c).
    + destruct c; simpl in *; unfold bump_slot_, atomic_max_; case_match; simplify_eq; done.
  - replace (slot_result c v) with v.
    + by apply (Slot_return (mkSlotSys v [(c, SlotTry v)]) 0 c v).
    + destruct c; simpl in *; unfold bump_slot_, atomic_max_; case_match; simplify_eq; done.
Qed.

(** ** The entries after each operation *)

Lemma merge_entries_spec (a inc : list Z) k :
  let out := fold_left (fun a i => alter (fun cur => atomic_max_ cur (entry inc i)) i a) (seq 0 k) a in
  (k <= length a)%nat -> length out = length a /\
  forall i, entry out i = if (i <? k)%nat then Z.max (entry a i) (entry inc i) else entry a i.
Proof.
  induction k as [|k IH]; intros out Hk; [done|]. subst out. destruct IH as [Hl He]; [lia|].
  rewrite seq_S, fold_left_app. simpl. rewrite length_alter. split; [done|].
  intros i. rewrite entry_alter, He by lia. unfold atomic_max_.
  case_decide as Hki; [subst i|]; destruct (Nat.ltb_spec i k), (Nat.ltb_spec i (S k)) || destruct (Nat.ltb_spec k k), (Nat.ltb_spec k (S k));
    repeat case_match; reflect_bools; lia.
Qed.

Lemma snapshot_entries c : length (entries_ c) = MaxNodes -> snapshot c = entries_ c.
Proof.
  intros Hl. apply entries_eq; [unfold snapshot; by rewrite length_fmap, length_seq|done|].
  intros i Hi. unfold snapshot, entry at 1. rewrite list_lookup_fmap, lookup_seq_lt by done. done.
Qed.

Lemma on_local_event_entries c i :
  length (entries_ c) = MaxNodes -> (self_id_ c < MaxNodes)%nat ->
  length (entries_ (on_local_event c)) = MaxNodes /\
  entry (entries_ (on_local_event c)) i = if decide (self_id_ c = i) then bump_slot_ (entry (entries_ c) i) else entry (entries_ c) i.
Proof. intros Hl Hs. unfold on_local_event. simpl. rewrite length_alter, entry_alter by lia. done. Qed.

Lemma merge_snapshot_entries c inc i :
  length (entries_ c) = MaxNodes -> (i < MaxNodes)%nat ->
  length (entries_ (merge_snapshot_ c inc)) = MaxNodes /\
  entry (entries_ (merge_snapshot_ c inc)) i = Z.max (entry (entries_ c) i) (entry inc i).
Proof.
  intros Hl Hi. destruct (merge_entries_spec (entries_ c) inc MaxNodes) as [H1 H2]; [lia|]. split; [simpl; lia|].
  simpl. rewrite H2. by rewrite (proj2 (Nat.ltb_lt i MaxNodes)).
Qed.

(** ** The clock of a message-passing system *)

(** What a node at [n] with the counts [c] holds after an event. *)
Definition vc_tick (n : nat) (c : snapshot_type) : snapshot_type := (on_send (mkClock c n)).2.
Definition vc_recv (n : nat) (c m : snapshot_type) : snapshot_type := snapshot (on_recv (mkClock c n) m).

#[local] Instance VC_clock : LogicalClock snapshot_type unit := {
  clock_new := new_snapshot;
  clock_node n := (n < MaxNodes)%nat;
  clock_wf := snapshot_wf;
  clock_tick n _ c := vc_tick n c;
  clock_recv n _ c m := vc_recv n c m;
  clock_lt a b := happens_before a b = true;
  clock_spent c := UINT64_MAX ∈ c;
}.

Lemma vc_tick_entry n c i :
  length c = MaxNodes -> (n < MaxNodes)%nat ->
  length (vc_tick n c) = MaxNodes /\ entry (vc_tick n c) i = if decide (n = i) then bump_slot_ (entry c i) else entry c i.
Proof.
  intros Hl Hn. unfold vc_tick, on_send. simpl. destruct (on_local_event_entries (mkClock c n) i) as [H1 H2]; [done..|].
  rewrite snapshot_entries by done. done.
Qed.

Lemma vc_recv_entry n c m i :
  length c = MaxNodes -> (n < MaxNodes)%nat -> (i < MaxNodes)%nat ->
  length (vc_recv n c m) = MaxNodes /\
  entry (vc_recv n c m) i = let x := Z.max (entry c i) (entry m i) in if decide (n = i) then bump_slot_ x else x.
Proof.
  intros Hl Hn Hi. unfold vc_recv, on_recv. destruct (merge_snapshot_entries (mkClock c n) m i) as [H1 H2]; [done..|].
  destruct (on_local_event_entries (merge_snapshot_ (mkClock c n) m) i) as [H3 H4]; [done..|].
  rewrite snapshot_entries by done. split; [done|]. by rewrite H4, H2.
Qed.

Lemma wf_entry c i : snapshot_wf c -> 0 <= entry c i <= UINT64_MAX.
Proof.
  intros [_ Hf]. unfold entry. destruct (c !! i) as [v|] eqn:Hi; simpl; [|by unfold UINT64_MAX].
  pose proof (Forall_lookup_1 _ _ _ _ Hf Hi) as Hv. simpl in Hv. unfold in_width, UINT64_MAX in *. lia.
Qed.

Lemma entries_wf c :
  length c = MaxNodes -> (forall i, (i < MaxNodes)%nat -> 0 <= entry c i <= UINT64_MAX) -> snapshot_wf c.
Proof.
  intros Hl He. split; [done|]. apply Forall_lookup. intros i v Hi. pose proof (lookup_lt_Some _ _ _ Hi) as Hlt.
  specialize (He i). unfold entry in He. rewrite Hi in He. simpl in He. unfold in_width, UINT64_MAX in *. lia.
Qed.

Lemma not_spent_entry c i : snapshot_wf c -> UINT64_MAX ∉ c -> (i < MaxNodes)%nat -> entry c i < UINT64_MAX.
Proof.
  intros Hc Hs Hi. pose proof (wf_entry c i Hc). destruct (decide (entry c i = UINT64_MAX)) as [He|]; [|lia].
  destruct Hs. rewrite <- He. apply list_elem_of_lookup. exists i. apply entry_lookup. destruct Hc. lia.
Qed.

Lemma bump_range v : 0 <= v <= UINT64_MAX -> 0 <= bump_slot_ v <= UINT64_MAX.
Proof. unfold bump_slot_. intros. case_match; reflect_bools; lia. Qed.

Lemma bump_moves v : v < UINT64_MAX -> bump_slot_ v = v + 1.
Proof. unfold bump_slot_. intros. case_match; reflect_bools; lia. Qed.

(** One entry below and the others at most. *)
Lemma happens_before_intro a b n :
  (n < MaxNodes)%nat -> entry a n < entry b n -> (forall i, (i < MaxNodes)%nat -> entry a i <= entry b i) ->
  happens_before a b = true.
Proof.
  intros Hn Hlt Hle. unfold happens_before. rewrite (proj2 (leq_spec a b)) by done. simpl. apply negb_true_iff.
  destruct (snapshot_eqb a b) eqn:He; [|done]. rewrite snapshot_eqb_spec in He. specialize (He n Hn). lia.
Qed.

#[local] Instance happens_before_trans : Transitive (fun a b => happens_before a b = true).
Proof.
  intros a b c. unfold happens_before. intros [Hab Hne]%andb_prop [Hbc _]%andb_prop.
  rewrite leq_spec in Hab, Hbc. apply andb_true_iff. split; [apply leq_spec; intros i Hi; specialize (Hab i Hi); specialize (Hbc i Hi); lia|].
  apply negb_true_iff in Hne. apply negb_true_iff. destruct (snapshot_eqb a c) eqn:He; [|done]. rewrite snapshot_eqb_spec in He.
  rewrite <- Hne. symmetry. apply snapshot_eqb_spec. intros i Hi. specialize (Hab i Hi). specialize (Hbc i Hi). specialize (He i Hi). lia.
Qed.

#[local] Instance VC_clock_ok : LogicalClockOk snapshot_type unit.
Proof.
  split; simpl.
  - apply _.
  - apply entries_wf; [apply length_replicate|]. intros i _. unfold new_snapshot. rewrite entry_replicate. by unfold UINT64_MAX.
  - unfold new_snapshot. intros H%elem_of_replicate_inv. discriminate H.
  - intros n _ c Hn Hc. apply entries_wf; [by apply (vc_tick_entry n c 0); [apply Hc|]|].
    intros i Hi. rewrite (proj2 (vc_tick_entry n c i (proj1 Hc) Hn)). pose proof (wf_entry c i Hc).
    case_decide; [by apply bump_range|done].
  - intros n _ c m Hn Hc Hm. apply entries_wf; [by apply (vc_recv_entry n c m n); [apply Hc|..]|].
    intros i Hi. rewrite (proj2 (vc_recv_entry n c m i (proj1 Hc) Hn Hi)). pose proof (wf_entry c i Hc). pose proof (wf_entry m i Hm).
    simpl. case_decide; [apply bump_range|]; lia.
  - intros n _ c Hn Hc Hs. apply (happens_before_intro _ _ n Hn).
    + rewrite (proj2 (vc_tick_entry n c n (proj1 Hc) Hn)), decide_True by done. rewrite bump_moves; [lia|by apply not_spent_entry].
    + intros i Hi. rewrite (proj2 (vc_tick_entry n c i (proj1 Hc) Hn)). case_decide; [|done].
      rewrite bump_moves; [lia|by apply not_spent_entry].
  - intros n _ c m Hn Hc Hm Hcs Hms.
    assert (He : forall i, (i < MaxNodes)%nat -> entry (vc_recv n c m) i =
      Z.max (entry c i) (entry m i) + if decide (n = i) then 1 else 0).
    { intros i Hi. rewrite (proj2 (vc_recv_entry n c m i (proj1 Hc) Hn Hi)). simpl.
      pose proof (not_spent_entry c i Hc Hcs Hi). pose proof (not_spent_entry m i Hm Hms Hi).
      case_decide; [rewrite bump_moves|]; lia. }
    split; (apply (happens_before_intro _ _ n Hn); [|intros i Hi]; rewrite He by done; case_decide; done || lia).
Qed.

(** ** The causal order, exactly *)

(** Node [n] holds the largest count for [n], and a view has seen an event
    exactly when it has the count that the event's node had then. *)
Record vc_inv (w : world snapshot_type) : Prop := {
  vi_node i e : w_events w !! i = Some e -> (ev_node e < MaxNodes)%nat;
  vi_past u i : is_view w u -> i ∈ v_past u -> (i < length (w_events w))%nat;
  vi_own u n : is_view w u -> (n < MaxNodes)%nat -> entry (v_clock u) n <= entry (v_clock (w_nodes w n)) n;
  vi_seen u i e : is_view w u -> w_events w !! i = Some e ->
    i ∈ v_past u <-> entry (v_clock (ev_view e)) (ev_node e) <= entry (v_clock u) (ev_node e);
}.

(** A new view: node [n]'s view joined with one [m] that it received (its own
    for a local event), with one more event of node [n]. *)
Definition joins (w : world snapshot_type) (n : nat) (v m : view snapshot_type) : Prop :=
  let self := w_nodes w n in
  v_past v = {[length (w_events w)]} ∪ (v_past self ∪ v_past m) /\
  forall k, (k < MaxNodes)%nat ->
    entry (v_clock v) k = Z.max (entry (v_clock self) k) (entry (v_clock m) k) + if decide (n = k) then 1 else 0.

Lemma new_view_joins w n v :
  causal w -> none_spent w -> (n < MaxNodes)%nat ->
  (exists i, v = tick_view w n i) \/ (exists i m, is_view w m /\ v = recv_view w n i m) ->
  exists m, is_view w m /\ joins w n v m.
Proof.
  intros Hc Hs Hn Hv. assert (Hself : is_view w (w_nodes w n)) by (left; eauto).
  assert (Hok : forall u k, is_view w u -> (k < MaxNodes)%nat -> entry (v_clock u) k < UINT64_MAX).
  { intros u k Hu Hk. apply not_spent_entry; [exact (ca_wf _ Hc u Hu)|exact (causal_not_spent w u Hc Hs Hu)|done]. }
  pose proof (ca_wf _ Hc _ Hself) as [Hl _].
  destruct Hv as [(i & ->)|(i & m & Hm & ->)].
  - exists (w_nodes w n). split; [done|]. split; [simpl; set_solver|]. intros k Hk. simpl.
    rewrite (proj2 (vc_tick_entry n _ k Hl Hn)). specialize (Hok _ k Hself Hk). case_decide; [rewrite bump_moves|]; lia.
  - exists m. split; [done|]. split; [done|]. intros k Hk. simpl.
    rewrite (proj2 (vc_recv_entry n _ (v_clock m) k Hl Hn Hk)). pose proof (Hok _ k Hself Hk). pose proof (Hok _ k Hm Hk).
    simpl. case_decide; [rewrite bump_moves|]; lia.
Qed.

Lemma vc_inv_step w w' : vc_inv w -> causal w -> none_spent w -> wstep w w' -> vc_inv w'.
Proof.
  intros Hi Hc Hs Hst. destruct (wstep_inv _ _ Hst) as (n & v & Hn & Hnodes & Hev & Hviews & Hnew).
  destruct (new_view_joins w n v Hc Hs Hn Hnew) as (m & Hm & Hpast & Hent).
  assert (Hself : is_view w (w_nodes w n)) by (left; eauto).
  assert (Hv : entry (v_clock v) n = entry (v_clock (w_nodes w n)) n + 1).
  { pose proof (vi_own _ Hi m n Hm Hn). rewrite Hent, decide_True by done. lia. }
  assert (Hevents : forall i e, w_events w' !! i = Some e ->
    w_events w !! i = Some e \/ (i = length (w_events w) /\ e = mkEvent n v)).
  { intros i e Hie. rewrite Hev in Hie. apply lookup_app_Some in Hie as [?|[Hle Hie]]; [by left|right].
    apply list_lookup_singleton_Some in Hie as [? <-]. split; [lia|done]. }
  split.
  - intros i e [Hie|[_ ->]]%Hevents; [by eapply vi_node|done].
  - intros u i [->|Hu]%Hviews Hin; rewrite Hev, length_app; simpl.
    + rewrite Hpast in Hin. pose proof (vi_past _ Hi _ i Hself). pose proof (vi_past _ Hi _ i Hm).
      destruct (decide (i = length (w_events w))); [lia|]. enough (i < length (w_events w))%nat by lia. set_solver.
    + pose proof (vi_past _ Hi u i Hu Hin). lia.
  - intros u k Hu Hk. rewrite Hnodes. unfold set_node. case_decide as Hkn; [subst k|]; apply Hviews in Hu as [->|Hu].
    + done.
    + pose proof (vi_own _ Hi u n Hu Hn). lia.
    + rewrite Hent, decide_False by congruence. pose proof (vi_own _ Hi _ k Hself Hk). pose proof (vi_own _ Hi _ k Hm Hk). lia.
    + by apply (vi_own _ Hi).
  - intros u i e Hu [Hie|[-> ->]]%Hevents; apply Hviews in Hu as [->|Hu].
    + pose proof (lookup_lt_Some _ _ _ Hie) as Hlt. pose proof (vi_node _ Hi _ _ Hie) as Hne.
      pose proof (vi_seen _ Hi _ i e Hself Hie) as Hseen. pose proof (vi_seen _ Hi _ i e Hm Hie) as Hseenm.
      assert (He : is_view w (ev_view e)) by (right; right; eauto).
      pose proof (vi_own _ Hi _ _ He Hn) as Hown.
      rewrite Hpast, !elem_of_union, elem_of_singleton, Hseen, Hseenm, Hent by done.
      case_decide as Heq; [|lia]. rewrite <- Heq in *. lia.
    + by apply (vi_seen _ Hi).
    + simpl. rewrite Hpast. split; [done|set_solver].
    + simpl. rewrite Hv. pose proof (vi_own _ Hi u n Hu Hn). pose proof (vi_past _ Hi u (length (w_events w)) Hu) as Hnew'.
      split; [intros Hin%Hnew'; lia|lia].
Qed.

Lemma execution_vc_inv w : execution w -> none_spent w -> vc_inv w.
Proof.
  intros Hw. induction Hw as [|w w' Hw IH Hst]; intros Hs.
  - split.
    + intros i e Hi. discriminate Hi.
    + intros u i [(n & ->)|[Hu|(j & e & He & _)]] Hi; simpl in *; [set_solver..|done].
    + intros u n [(k & ->)|[Hu|(j & e & He & _)]] Hn; simpl in *; [done|set_solver|done].
    + intros u i e _ Hi. discriminate Hi.
  - pose proof (none_spent_step _ _ Hst Hs) as Hs0. apply (vc_inv_step w); auto. by apply execution_causal.
Qed.

(** The order of two events' snapshots says who has seen whom. *)
Lemma leq_seen w i j ei ej :
  execution w -> none_spent w -> w_events w !! i = Some ei -> w_events w !! j = Some ej ->
  leq_ (v_clock (ev_view ei)) (v_clock (ev_view ej)) = true <-> i ∈ v_past (ev_view ej).
Proof.
  intros Hw Hs Hi Hj. pose proof (execution_vc_inv w Hw Hs) as Hv.
  assert (Hvj : is_view w (ev_view ej)) by (right; right; eauto). rewrite (vi_seen _ Hv _ i ei Hvj Hi). split.
  - rewrite leq_spec. intros H. apply H. by apply (vi_node _ Hv i).
  - rewrite <- (vi_seen _ Hv _ i ei Hvj Hi). intros Hin. destruct (decide (i = j)) as [->|Hne].
    + rewrite Hi in Hj. injection Hj as ->. by apply leq_spec.
    + destruct (ca_event _ (execution_causal w Hw Hs) j ej i Hj Hin Hne) as (e' & He' & Hlt). rewrite Hi in He'.
      injection He' as <-. simpl in Hlt. by apply andb_prop in Hlt as [? _].
Qed.

(** C23: in every execution in which no count reaches its largest value,
    happens_before holds of the snapshots of two events exactly when the
    first event causally precedes the second one, and concurrent_with exactly
    when neither precedes the other. *)
Theorem vector_clock_is_causality (w : world snapshot_type) i j a b :
  execution w -> none_spent w -> clock_at w i = Some a -> clock_at w j = Some b ->
  (happens_before a b = true <-> precedes w i j) /\
  (concurrent_with a b = true <-> i <> j /\ ~ precedes w i j /\ ~ precedes w j i).
Proof.
  intros Hw Hs Ha Hb. unfold clock_at in *.
  destruct (w_events w !! i) as [ei|] eqn:Hi; [|done]. destruct (w_events w !! j) as [ej|] eqn:Hj; [|done].
  simpl in Ha, Hb. injection Ha as <-. injection Hb as <-.
  pose proof (leq_seen w i j ei ej Hw Hs Hi Hj) as Hij. pose proof (leq_seen w j i ej ei Hw Hs Hj Hi) as Hji.
  pose proof (leq_seen w i i ei ei Hw Hs Hi Hi) as Hii.
  assert (Hself : i ∈ v_past (ev_view ei)) by (apply Hii, leq_spec; done).
  assert (Hprec : forall k l el, w_events w !! l = Some el -> precedes w k l <-> k ∈ v_past (ev_view el) /\ k <> l).
  { intros k l el Hl. unfold precedes. rewrite Hl. naive_solver. }
  split.
  - rewrite (Hprec i j ej Hj). split.
    + intros H. split; [by apply Hij; apply andb_prop in H as [? _]|]. intros ->. rewrite Hi in Hj. injection Hj as ->.
      unfold happens_before in H. apply andb_prop in H as [_ H]. rewrite (proj2 (snapshot_eqb_spec _ _)) in H; done.
    + intros Hp. rewrite <- (Hprec i j ej Hj) in Hp.
      apply (precedes_clock_lt w i j _ _ Hw Hs Hp); unfold clock_at; [by rewrite Hi|by rewrite Hj].
  - unfold concurrent_with. rewrite andb_true_iff, !negb_true_iff, <- !not_true_iff_false, Hij, Hji.
    rewrite (Hprec i j ej Hj), (Hprec j i ei Hi). split.
    + intros [H1 H2]. split_and!; try tauto. intros ->. done.
    + intros (Hne & H1 & H2). split; [tauto|]. intros H. apply H2. done.
Qed.
End VectorClocks.

(** ** Concrete runs *)

Lemma delta_pushes_keep_bounds_witness :
  (push_all 2 [(1%nat, 7); (0%nat, 3); (1%nat, 4); (1%nat, 9)]).2 = true /\
  entry (from_sparse_delta 2 (push_all 2 [(1%nat, 7); (0%nat, 3); (1%nat, 4); (1%nat, 9)]).1) 1 = 9.
Proof.
  destruct (delta_pushes_keep_bounds 2 [(1%nat, 7); (0%nat, 3); (1%nat, 4); (1%nat, 9)]) as (H1 & _ & _ & H2).
  - repeat constructor; simpl; unfold in_width; lia.
  - split; [exact H1|]. apply (H2 1%nat). lia.
Defined.

Lemma sparse_delta_roundtrip_witness : from_sparse_delta 4 (sparse_delta 4 [0; 5; 0; UINT64_MAX]) = [0; 5; 0; UINT64_MAX].
Proof.
  apply sparse_delta_roundtrip. split; [reflexivity|]. repeat constructor; unfold in_width, UINT64_MAX; lia.
Defined.

(** Two bumps load 0; the second one's exchange fails and is tried again, and
    a merge of 1 has nothing to do. *)
Lemma slot_counts_every_event_witness :
  exists s, slot s = 2 /\ done_bumps s = 2%nat /\ done_max s 1 /\ 0 <= slot s /\ (2 - 0 <= slot s - 0 \/ slot s = UINT64_MAX).
Proof.
  set (s := mkSlotSys 2 [(Bump, SlotDone); (Bump, SlotDone); (Max 1, SlotDone)]).
  assert (Hs : rtc slot_step (mkSlotSys 0 []) s).
  { eapply rtc_l; [by apply Slot_call with (c := Bump)|]. eapply rtc_l; [by apply Slot_call with (c := Bump)|].
    eapply rtc_l; [apply Slot_call with (c := Max 1); intros v [= <-]; unfold in_width; lia|].
    eapply rtc_l; [by eapply Slot_load with (i := 0%nat)|]. eapply rtc_l; [by eapply Slot_load with (i := 1%nat)|].
    eapply rtc_l; [by eapply Slot_exchange with (i := 0%nat)|]. eapply rtc_l; [by eapply Slot_fail with (i := 1%nat)|].
    eapply rtc_l; [by eapply Slot_exchange with (i := 1%nat)|]. eapply rtc_l; [by eapply Slot_load with (i := 2%nat)|].
    eapply rtc_l; [by eapply Slot_return with (i := 2%nat)|]. apply rtc_refl. }
  exists s. destruct (slot_counts_every_event (mkSlotSys 0 []) s (rtc_refl _ _) Hs) as (H1 & H2 & _).
  split; [reflexivity|]. split; [reflexivity|]. split; [right; right; left|]. split; [exact H1|exact H2].
Defined.

(** Node 0 sends, node 1 receives, and node 0 has an event of its own. *)
Definition fork_0 : world (list Z) := @first_world _ _ (VC_clock 2).
Definition fork_1 : world (list Z) := after fork_0 0 (@tick_view _ _ (VC_clock 2) fork_0 0 tt) [@tick_view _ _ (VC_clock 2) fork_0 0 tt].
Definition fork_2 : world (list Z) :=
  after fork_1 1 (@recv_view _ _ (VC_clock 2) fork_1 1 tt (@tick_view _ _ (VC_clock 2) fork_0 0 tt)) (w_msgs fork_1).
Definition fork_3 : world (list Z) := after fork_2 0 (@tick_view _ _ (VC_clock 2) fork_2 0 tt) (w_msgs fork_2).

Lemma fork_execution : @execution _ _ (VC_clock 2) fork_3.
Proof.
  apply ex_step with fork_2; [apply ex_step with fork_1; [apply ex_step with fork_0; [constructor|]|]|].
  - exact (@w_send _ _ (VC_clock 2) fork_0 0 tt (Nat.lt_0_succ 1)).
  - exact (@w_recv _ _ (VC_clock 2) fork_1 1 tt 0 _ (Nat.lt_succ_diag_r 1) eq_refl).
  - exact (@w_local _ _ (VC_clock 2) fork_2 0 tt (Nat.lt_0_succ 1)).
Qed.

Lemma fork_none_spent : @none_spent _ _ (VC_clock 2) fork_3.
Proof.
  intros i e He. pose proof (list_elem_of_lookup_2 _ _ _ He) as Hin. change (w_events fork_3) with
    [mkEvent 0 (mkView [1; 0] {[0%nat]}); mkEvent 1 (mkView [1; 1] ({[1%nat]} ∪ (∅ ∪ {[0%nat]}))); mkEvent 0 (mkView [2; 0] ({[2%nat]} ∪ {[0%nat]}))] in Hin.
  simpl. unfold UINT64_MAX. rewrite !elem_of_cons, elem_of_nil in Hin.
  destruct Hin as [->|[->|[->|[]]]]; simpl; rewrite !elem_of_cons, elem_of_nil; lia.
Qed.

Lemma vector_clock_is_causality_witness :
  happens_before 2 [1; 0] [1; 1] = true /\ precedes fork_3 0 1 /\
  concurrent_with 2 [1; 1] [2; 0] = true /\ ~ precedes fork_3 1 2.
Proof.
  destruct (vector_clock_is_causality 2 fork_3 0 1 [1; 0] [1; 1] fork_execution fork_none_spent) as [H1 _];
    [reflexivity..|].
  destruct (vector_clock_is_causality 2 fork_3 1 2 [1; 1] [2; 0] fork_execution fork_none_spent) as [_ H2];
    [reflexivity..|].
  split; [reflexivity|]. split; [apply H1; reflexivity|]. split; [reflexivity|]. apply H2. reflexivity.
Defined.
