(* ===== verification/Crdt.v ===== *)
(** * Crdt.v: replicated data types (include/crucible/canopy/Crdt.h)

    The last-writer-wins register and the two counters are here; CrdtSets.v,
    CrdtMv.v and CrdtRga.v hold the other types.  What the seven types have in
    common is proved once, from laws that each of them meets: the laws are a
    device of the proofs and no part of the code. *)

From stdpp Require Import base list gmap strings.
From Stdlib Require Import ZArith Lia.
From S2P Require Import Prelude.
From S2P Require Import Clocks.
From S2P Require Import Hlc.
From S2P Require Import VectorClock.
#[local] Open Scope Z_scope.

(** ** The laws of a replicated type

    [S] is the state of a replica and [A] its abstract value.  A local write
    [U] and a merge report whether they took effect.  [Q] is a question about
    the state, such as contains, and [R] its answer. *)
Class Crdt (S A U Q R : Type) := {
  crdt_new : S;
  crdt_wf : S -> Prop;
  crdt_abs : S -> A;
  crdt_join : A -> A -> A;
  crdt_update : S -> U -> S * bool;
  crdt_merge : S -> S -> S * bool;
  crdt_ask : S -> Q -> R;
}.

(** A merge that takes effect joins the two values and one that is refused
    leaves the state; a local write only moves the value up; what a replica
    answers depends on its value alone. *)
Class CrdtOk (S A U Q R : Type) `{Crdt S A U Q R} := {
  join_comm :: Comm (=) crdt_join;
  join_assoc :: Assoc (=) crdt_join;
  join_idem s : crdt_wf s -> crdt_join (crdt_abs s) (crdt_abs s) = crdt_abs s;
  crdt_new_wf : crdt_wf crdt_new;
  update_wf s u : crdt_wf s -> crdt_wf (crdt_update s u).1;
  update_up s u : crdt_wf s ->
    crdt_join (crdt_abs s) (crdt_abs (crdt_update s u).1) = crdt_abs (crdt_update s u).1;
  update_refused s u : crdt_wf s -> (crdt_update s u).2 = false -> (crdt_update s u).1 = s;
  merge_wf a b : crdt_wf a -> crdt_wf b -> crdt_wf (crdt_merge a b).1;
  merge_join a b : crdt_wf a -> crdt_wf b -> (crdt_merge a b).2 = true ->
    crdt_abs (crdt_merge a b).1 = crdt_join (crdt_abs a) (crdt_abs b);
  merge_refused a b : crdt_wf a -> crdt_wf b -> (crdt_merge a b).2 = false -> (crdt_merge a b).1 = a;
  ask_abs a b q : crdt_wf a -> crdt_wf b -> crdt_abs a = crdt_abs b -> crdt_ask a q = crdt_ask b q;
}.

(** commit_merge: the incoming state folds into a copy of the target, and the
    target changes only when every step succeeded. *)
Definition commit_merge {S} (target incoming : S) (merge_into : S -> S -> S * bool) : S * bool :=
  let '(staged, ok) := merge_into target incoming in
  if ok then (staged, true) else (target, false).

(** crdt_count: the checked mint of a live count. *)
Definition crdt_count (Capacity live : nat) : result nat :=
  (let* _ := require (live <=? Capacity)%nat "the live count is out of bound" in Ok live)%result.

Lemma commit_merge_refused {S} (a b : S) f : (commit_merge a b f).2 = false -> (commit_merge a b f).1 = a.
Proof. unfold commit_merge. by destruct (f a b) as [s []]. Qed.

(** ** What a replicated type promises

    [new], [write], [merge] and [ask] are members of one type of the code. *)

Section Replicas.
Context {S U Q R : Type} (new : S) (write : S -> U -> S * bool) (merge : S -> S -> S * bool) (ask : S -> Q -> R).

(** A state that replicas reach with writes and with merges of each other. *)
Inductive replica_state : S -> Prop :=
| rs_new : replica_state new
| rs_write s u : replica_state s -> replica_state (write s u).1
| rs_merge s t : replica_state s -> replica_state t -> replica_state (merge s t).1.

(** The merges of [l] into [s], in order, up to the first that is refused. *)
Fixpoint merge_all (s : S) (l : list S) : S * bool :=
  match l with
  | [] => (s, true)
  | t :: l => let '(s', ok) := merge s t in if ok then merge_all s' l else (s', false)
  end.

(** Two replicas that hold the same states, their own included, in any order and
    with any repetition, answer alike; a refused write or merge changes nothing;
    after a write the state from before it has nothing to add. *)
Record converges : Prop := {
  cv_same s s' l l' q :
    Forall replica_state (s :: l) -> Forall replica_state (s' :: l') -> (forall t, t ∈ s :: l <-> t ∈ s' :: l') ->
    (merge_all s l).2 = true -> (merge_all s' l').2 = true -> ask (merge_all s l).1 q = ask (merge_all s' l').1 q;
  cv_merge_refused s t : replica_state s -> replica_state t -> (merge s t).2 = false -> (merge s t).1 = s;
  cv_write_refused s u : replica_state s -> (write s u).2 = false -> (write s u).1 = s;
  cv_write_up s u q : replica_state s -> (merge (write s u).1 s).2 = true -> ask (merge (write s u).1 s).1 q = ask (write s u).1 q;
}.
End Replicas.

Section Laws.
Context {S A U Q R : Type} `{!Crdt S A U Q R} `{!CrdtOk S A U Q R}.

Definition below (x y : A) : Prop := crdt_join x y = y.

Lemma below_antisymm x y : below x y -> below y x -> x = y.
Proof. unfold below. intros Hxy Hyx. by rewrite <- Hyx, (comm crdt_join). Qed.

Lemma join_below x y z : below x x -> below y y -> below (crdt_join x y) z <-> below x z /\ below y z.
Proof.
  unfold below. intros Hx Hy. split.
  - intros H. split; rewrite <- H; [by rewrite !(assoc crdt_join), Hx|].
    by rewrite (comm crdt_join x y), !(assoc crdt_join), Hy.
  - intros [H1 H2]. by rewrite <- (assoc crdt_join), H2.
Qed.

Lemma replica_state_wf s : replica_state crdt_new crdt_update crdt_merge s -> crdt_wf s.
Proof. induction 1; [apply crdt_new_wf|by apply update_wf|by apply merge_wf]. Qed.

(** The value after the merges is the least one above the values merged. *)
Lemma merge_all_least l : forall s z,
  crdt_wf s -> Forall crdt_wf l -> (merge_all crdt_merge s l).2 = true ->
  crdt_wf (merge_all crdt_merge s l).1 /\
  (below (crdt_abs (merge_all crdt_merge s l).1) z <-> forall t, t ∈ s :: l -> below (crdt_abs t) z).
Proof.
  induction l as [|t l IH]; intros s z Hs Hl Hok; cbn [merge_all] in *.
  { split; [done|]. cbn. split; [by intros ? ? ->%list_elem_of_singleton|]. intros H. apply H. left. }
  apply Forall_cons in Hl as [Ht Hl]. pose proof (merge_wf s t Hs Ht) as Hw. pose proof (merge_join s t Hs Ht) as Hj.
  destruct (crdt_merge s t) as [s' [|]]; [|done]. cbn in *. destruct (IH s' z Hw Hl Hok) as [Hw' Hz]. split; [done|]. rewrite Hz.
  specialize (Hj eq_refl). assert (Hst : below (crdt_abs s') z <-> below (crdt_abs s) z /\ below (crdt_abs t) z).
  { rewrite Hj. apply join_below; by apply join_idem. }
  setoid_rewrite elem_of_cons. split.
  - intros H u [->|[->|Hu]%elem_of_cons]; [by apply Hst, H; left|by apply Hst, H; left|apply H; by right].
  - intros H u [->|Hu]; [apply Hst; split; apply H; [by left|right; by left]|apply H; right; by right].
Qed.

Lemma laws_converge : converges crdt_new crdt_update crdt_merge crdt_ask.
Proof.
  split.
  - intros s s' l l' q [Hs Hl]%Forall_cons [Hs' Hl']%Forall_cons Hsame Hok Hok'.
    assert (Hwl : forall k, Forall (replica_state crdt_new crdt_update crdt_merge) k -> Forall crdt_wf k)
      by (intros k Hk; eapply Forall_impl; [exact Hk|apply replica_state_wf]).
    pose proof (fun z => merge_all_least l s z (replica_state_wf _ Hs) (Hwl _ Hl) Hok) as H1.
    pose proof (fun z => merge_all_least l' s' z (replica_state_wf _ Hs') (Hwl _ Hl') Hok') as H2.
    set (x := (merge_all crdt_merge s l).1) in *. set (y := (merge_all crdt_merge s' l').1) in *.
    apply ask_abs; [exact (proj1 (H1 (crdt_abs x)))|exact (proj1 (H2 (crdt_abs x)))|].
    assert (Hx : below (crdt_abs x) (crdt_abs x)) by (apply join_idem, (H1 (crdt_abs x))).
    assert (Hy : below (crdt_abs y) (crdt_abs y)) by (apply join_idem, (H2 (crdt_abs y))).
    apply below_antisymm; [apply (H1 (crdt_abs y)); intros t Ht; apply (proj1 (proj2 (H2 (crdt_abs y))) Hy), Hsame, Ht|].
    apply (H2 (crdt_abs x)). intros t Ht. apply (proj1 (proj2 (H1 (crdt_abs x))) Hx), Hsame, Ht.
  - intros s t Hs Ht. apply merge_refused; by apply replica_state_wf.
  - intros s u Hs. apply update_refused. by apply replica_state_wf.
  - intros s u q Hs Hok. apply replica_state_wf in Hs. pose proof (update_wf s u Hs) as Hw.
    apply ask_abs; [by apply merge_wf|done|]. rewrite merge_join by done. rewrite (comm crdt_join). by apply update_up.
Qed.
End Laws.

(** ** The last-writer-wins register

    LwwRegister<V, Clock> at an integer value and HlcTimestamp. *)

Record LwwRegisterState := mkLww { lww_value : Z; lww_clock : HlcTimestamp; has_value : bool }.

Definition new_lww : LwwRegisterState := mkLww 0 (mkTs 0 0) false.

Definition lww_merge_states (a b : LwwRegisterState) : LwwRegisterState :=
  if negb (has_value a) then b
  else if negb (has_value b) then a
  else
    match ts_compare (lww_clock a) (lww_clock b) with
    | Lt => b
    | Gt => a
    | Eq => if lww_value b <? lww_value a then a else b
    end.

Definition lww_assign (s : LwwRegisterState) (value : Z) (clock : HlcTimestamp) : LwwRegisterState * bool :=
  (lww_merge_states s (mkLww value clock true), true).

Definition lww_merge (s other : LwwRegisterState) : LwwRegisterState * bool := (lww_merge_states s other, true).

Definition lww_get (s : LwwRegisterState) : option Z := if negb (has_value s) then None else Some (lww_value s).

(** The write that a register holds, and the later of two writes: the larger
    clock, and the larger value at equal clocks. *)
Definition lww_abs (s : LwwRegisterState) : option (HlcTimestamp * Z) :=
  if has_value s then Some (lww_clock s, lww_value s) else None.

Definition later_write (x y : HlcTimestamp * Z) : HlcTimestamp * Z :=
  match ts_compare x.1 y.1 with
  | Lt => y
  | Gt => x
  | Eq => if y.2 <? x.2 then x else y
  end.

Definition lww_join (x y : option (HlcTimestamp * Z)) : option (HlcTimestamp * Z) := union_with (fun a b => Some (later_write a b)) x y.

Lemma ts_compare_cases a b :
  (ts_compare a b = Lt /\ ts_compare b a = Gt /\ ts_lt a b) \/ (ts_compare a b = Eq /\ ts_compare b a = Eq /\ a = b) \/
  (ts_compare a b = Gt /\ ts_compare b a = Lt /\ ts_lt b a).
Proof.
  assert (Hgt : forall x y, ts_lt x y -> ts_compare y x = Gt).
  { intros x y. rewrite ts_lt_spec. unfold ts_compare. intros H.
    destruct (Z.compare_spec (physical_ns y) (physical_ns x)); [apply Z.compare_gt_iff; lia|lia|done]. }
  destruct (ts_lt_total a b) as [H|[->|H]]; [left|right; left|right; right].
  - split_and!; auto.
  - assert (ts_compare b b = Eq) by (unfold ts_compare; by rewrite !Z.compare_refl). done.
  - split_and!; auto.
Qed.

(** A write is at or before another one, and [later_write] is the largest. *)
Definition write_le (x y : HlcTimestamp * Z) : Prop := ts_lt x.1 y.1 \/ (x.1 = y.1 /\ x.2 <= y.2).

Lemma later_write_spec x y : (write_le x y /\ later_write x y = y) \/ (write_le y x /\ later_write x y = x).
Proof.
  destruct x as [c v], y as [d w]. unfold later_write, write_le. simpl.
  destruct (ts_compare_cases c d) as [(-> & _ & ?)|[(-> & _ & ->)|(-> & _ & ?)]]; [auto| |auto].
  destruct (Z.ltb_spec w v); [right|left]; (split; [right; split; [done|lia]|done]).
Qed.

Lemma write_le_antisymm x y : write_le x y -> write_le y x -> x = y.
Proof.
  destruct x as [[p c] v], y as [[q d] w]. unfold write_le. simpl. rewrite !ts_lt_spec. simpl.
  intros [H|[H1 H]] [H'|[H1' H']]; simplify_eq; try lia; by replace w with v by lia.
Qed.

Lemma write_le_trans x y z : write_le x y -> write_le y z -> write_le x z.
Proof.
  unfold write_le. intros [H|[H1 H2]] [H'|[H1' H2']].
  - left. by etrans.
  - left. by rewrite <- H1'.
  - left. by rewrite H1.
  - right. split; [congruence|lia].
Qed.

#[export] Instance lww_join_comm : Comm (=) lww_join.
Proof.
  intros [x|] [y|]; try done. simpl. f_equal.
  destruct (later_write_spec x y) as [[? ->]|[? ->]], (later_write_spec y x) as [[? ->]|[? ->]];
    auto using write_le_antisymm.
Qed.

#[export] Instance lww_join_assoc : Assoc (=) lww_join.
Proof.
  intros [x|] [y|] [z|]; try done. simpl. f_equal.
  destruct (later_write_spec x y) as [[? H1]|[? H1]], (later_write_spec y z) as [[? H2]|[? H2]]; rewrite H1, H2, ?H1, ?H2; auto.
  - destruct (later_write_spec x z) as [[? ->]|[? ->]]; [done|].
    apply write_le_antisymm; [|done]. by eapply write_le_trans.
  - destruct (later_write_spec x z) as [[? ->]|[? ->]]; [|done]. apply write_le_antisymm; [done|]. by eapply write_le_trans.
Qed.

Lemma lww_merge_abs a b : lww_abs (lww_merge_states a b) = lww_join (lww_abs a) (lww_abs b).
Proof.
  destruct a as [v c [|]], b as [w d [|]]; try done. unfold lww_merge_states, lww_abs, lww_join, later_write. simpl.
  destruct (ts_compare c d); try done. by destruct (w <? v).
Qed.

Lemma later_write_idem x : later_write x x = x.
Proof. by destruct (later_write_spec x x) as [[_ ->]|[_ ->]]. Qed.

#[export] Instance Lww_crdt : Crdt LwwRegisterState (option (HlcTimestamp * Z)) (Z * HlcTimestamp) unit (option Z) := {
  crdt_new := new_lww;
  crdt_wf _ := True;
  crdt_abs := lww_abs;
  crdt_join := lww_join;
  crdt_update s u := lww_assign s u.1 u.2;
  crdt_merge := lww_merge;
  crdt_ask s _ := lww_get s;
}.

#[export] Instance Lww_crdt_ok : CrdtOk LwwRegisterState (option (HlcTimestamp * Z)) (Z * HlcTimestamp) unit (option Z).
Proof.
  assert (Hidem : forall s, lww_join (lww_abs s) (lww_abs s) = lww_abs s).
  { intros s. destruct (lww_abs s) as [x|]; [|done]. simpl. by rewrite later_write_idem. }
  split; simpl; try done; try apply _.
  - intros s u _. rewrite lww_merge_abs, (assoc lww_join), Hidem. done.
  - intros a b _ _ _. apply lww_merge_abs.
  - intros [v c [|]] [w d [|]] _ _ _; unfold lww_abs, lww_get; simpl; intros; simplify_eq; done.
Qed.

(** ** The counters *)

Section Counters.
Context (MaxReplicas : nat).

(** GCounterState and PNCounterState: one 64-bit count for each replica. *)
Abbreviation GCounterState := (list Z).
Record PNCounterState := mkPN { pn_positive : GCounterState; pn_negative : GCounterState }.

Definition new_gcounter : GCounterState := replicate MaxReplicas 0.
Definition new_pncounter : PNCounterState := mkPN new_gcounter new_gcounter.

Record CounterUpdate := mkUpdate { cu_replica : nat; cu_amount : Z }.

Definition admit_counter_update (replica : nat) (amount : Z) : option CounterUpdate :=
  if (MaxReplicas <=? replica)%nat || (amount =? 0) then None else Some (mkUpdate replica amount).

Definition gcounter_add (counts : GCounterState) (u : CounterUpdate) : GCounterState :=
  alter (fun slot => add_sat 64 slot (cu_amount u)) (cu_replica u) counts.

Definition saturating_total (counts : GCounterState) : Z :=
  fold_left (fun sum i => add_sat 64 sum (entry counts i)) (seq 0 MaxReplicas) 0.

Definition gcounter_increment (s : GCounterState) (u : CounterUpdate) : GCounterState * bool := (gcounter_add s u, true).

Definition gcounter_merge_states (a b : GCounterState) : GCounterState :=
  fold_left (fun a i => if entry a i <? entry b i then <[i := entry b i]> a else a) (seq 0 MaxReplicas) a.

Definition gcounter_merge (s other : GCounterState) : GCounterState * bool := (gcounter_merge_states s other, true).
Definition gcounter_value (s : GCounterState) : Z := saturating_total s.

Definition pn_increment (s : PNCounterState) (u : CounterUpdate) : PNCounterState * bool :=
  (mkPN (gcounter_add (pn_positive s) u) (pn_negative s), true).
Definition pn_decrement (s : PNCounterState) (u : CounterUpdate) : PNCounterState * bool :=
  (mkPN (pn_positive s) (gcounter_add (pn_negative s) u), true).

Definition pn_merge_states (a b : PNCounterState) : PNCounterState :=
  mkPN (gcounter_merge_states (pn_positive a) (pn_positive b)) (gcounter_merge_states (pn_negative a) (pn_negative b)).

Definition pn_merge (s other : PNCounterState) : PNCounterState * bool := (pn_merge_states s other, true).

Definition INT64_MAX : Z := 2 ^ 63 - 1.
Definition INT64_MIN : Z := - 2 ^ 63.

(** PNCounter::value, with the branches of the code. *)
Definition pn_value (s : PNCounterState) : Z :=
  let pos := saturating_total (pn_positive s) in
  let neg := saturating_total (pn_negative s) in
  if neg <=? pos then
    let diff := pos - neg in
    if INT64_MAX <? diff then INT64_MAX else diff
  else
    let diff := neg - pos in
    let min_abs := INT64_MAX + 1 in
    if min_abs <=? diff then INT64_MIN else - diff.

(** *** Lemmas *)

Definition counts_wf (s : GCounterState) : Prop := length s = MaxReplicas /\ Forall (in_width 64) s.

Lemma merge_states_zip a b :
  length a = MaxReplicas -> length b = MaxReplicas -> gcounter_merge_states a b = zip_with Z.max a b.
Proof.
  intros Ha Hb. unfold gcounter_merge_states.
  assert (H : forall k, (k <= MaxReplicas)%nat ->
    let out := fold_left (fun a i => if entry a i <? entry b i then <[i := entry b i]> a else a) (seq 0 k) a in
    length out = MaxReplicas /\
    forall i, entry out i = if (i <? k)%nat then Z.max (entry a i) (entry b i) else entry a i).
  { induction k as [|k IH]; intros Hk out; [done|]. subst out. destruct IH as [Hl He]; [lia|].
    rewrite seq_S, fold_left_app. simpl. split; [case_match; by rewrite ?length_insert|].
    pose proof (He k) as Hek. rewrite Nat.ltb_irrefl in Hek. rewrite Hek. intros i.
    destruct (Nat.eq_dec k i) as [<-|Hne].
    - rewrite (proj2 (Nat.ltb_lt k (S k))) by lia.
      destruct (Z.ltb_spec (entry a k) (entry b k)); [rewrite entry_insert, decide_True by lia|rewrite Hek]; lia.
    - replace (i <? S k)%nat with (i <? k)%nat by (destruct (Nat.ltb_spec i k), (Nat.ltb_spec i (S k)); lia).
      rewrite <- He. case_match; [|done]. by rewrite entry_insert, decide_False by lia. }
  destruct (H MaxReplicas) as [Hl He]; [lia|].
  apply (entries_eq MaxReplicas); [done|rewrite length_zip_with; lia|].
  intros i Hi. rewrite He, (proj2 (Nat.ltb_lt _ _)) by done. unfold entry at 3.
  rewrite lookup_zip_with, !entry_lookup by lia. done.
Qed.

#[local] Instance max_comm : Comm (=) Z.max := Z.max_comm.
#[local] Instance max_assoc : Assoc (=) Z.max := Z.max_assoc.

#[local] Instance zip_max_comm : Comm (=) (zip_with Z.max).
Proof. intros l. induction l as [|x l IH]; intros [|y k]; simpl; [done..|]. f_equal; [lia|apply IH]. Qed.

#[local] Instance zip_max_assoc : Assoc (=) (zip_with Z.max).
Proof. intros l. induction l as [|x l IH]; intros [|y k] [|z m]; simpl; [done..|]. f_equal; [lia|apply IH]. Qed.

Lemma zip_max_idem l : zip_with Z.max l l = l.
Proof. induction l; simpl; [done|]. f_equal; [lia|done]. Qed.

Lemma zip_max_wf a b : counts_wf a -> counts_wf b -> counts_wf (zip_with Z.max a b).
Proof.
  intros [Ha Fa] [Hb Fb]. split; [rewrite length_zip_with; lia|].
  apply Forall_lookup. intros i x (y & z & -> & Hy & Hz)%lookup_zip_with_Some.
  pose proof (Forall_lookup_1 _ _ _ _ Fa Hy) as H1. pose proof (Forall_lookup_1 _ _ _ _ Fb Hz) as H2.
  unfold in_width in *. lia.
Qed.

Lemma alter_add_wf s u : counts_wf s -> 0 <= cu_amount u -> counts_wf (gcounter_add s u).
Proof.
  intros [Hl Hf] Hu. unfold gcounter_add. split; [by rewrite length_alter|]. apply Forall_alter; [done|].
  intros x _ Hx. unfold in_width in *. apply add_sat_range; lia.
Qed.

Lemma alter_add_up s u : counts_wf s -> 0 <= cu_amount u -> zip_with Z.max s (gcounter_add s u) = gcounter_add s u.
Proof.
  intros [Hl Hf] Hu. unfold gcounter_add. apply list_eq. intros i.
  rewrite lookup_zip_with, list_lookup_alter. case_decide as Hi; [subst i|]; destruct (s !! _) as [x|] eqn:Hx; try done; cbn [fmap option_fmap option_map mbind option_bind].
  - pose proof (Forall_lookup_1 _ _ _ _ Hf Hx) as Hw. unfold in_width in Hw.
    assert (x <= add_sat 64 x (cu_amount u)) by (apply add_sat_ge; lia). f_equal. lia.
  - f_equal. lia.
Qed.

(** The sum of the counts. *)
Definition counts_sum (s : GCounterState) : Z := fold_right Z.add 0 s.

Lemma saturating_total_spec s : counts_wf s -> saturating_total s = Z.min (counts_sum s) UINT64_MAX.
Proof.
  intros [Hl Hf]. unfold saturating_total. rewrite <- Hl. clear Hl.
  assert (Hge : forall l, Forall (in_width 64) l -> 0 <= counts_sum l).
  { induction 1 as [|x l Hx _ IH]; simpl; [lia|]. unfold in_width in Hx. lia. }
  assert (H : forall k acc l, Forall (in_width 64) l -> 0 <= acc <= UINT64_MAX -> (forall i, entry s (k + i) = entry l i) ->
    fold_left (fun sum i => add_sat 64 sum (entry s i)) (seq k (length l)) acc = Z.min (acc + counts_sum l) UINT64_MAX).
  { intros k acc l Hl. revert k acc. induction Hl as [|x l Hx Hl IH]; intros k acc Hacc He; simpl; [lia|].
    pose proof (Hge l Hl). unfold in_width, UINT64_MAX in *. pose proof (He 0%nat) as H0. rewrite Nat.add_0_r in H0. simpl in H0.
    rewrite H0. unfold entry at 2. simpl. rewrite IH.
    - unfold add_sat. destruct (Z.ltb_spec (acc + x) (2 ^ 64)); lia.
    - unfold add_sat. destruct (Z.ltb_spec (acc + x) (2 ^ 64)); lia.
    - intros i. rewrite Nat.add_succ_comm. apply He. }
  rewrite H; [by rewrite Z.add_0_l|done|by unfold UINT64_MAX|done].
Qed.

(** The value of a PNCounter is the difference of its two sums, each
    limited to 64 unsigned bits, limited to 64 signed bits. *)
Theorem pncounter_value_clamped s :
  counts_wf (pn_positive s) -> counts_wf (pn_negative s) ->
  pn_value s =
    Z.max INT64_MIN (Z.min INT64_MAX
      (Z.min (counts_sum (pn_positive s)) UINT64_MAX - Z.min (counts_sum (pn_negative s)) UINT64_MAX)).
Proof.
  intros Hp Hn. unfold pn_value. rewrite !saturating_total_spec by done.
  generalize (Z.min (counts_sum (pn_positive s)) UINT64_MAX), (Z.min (counts_sum (pn_negative s)) UINT64_MAX).
  intros p n. unfold INT64_MAX, INT64_MIN.
  repeat case_match; reflect_bools; lia.
Qed.

(** *** The counters as replicated types *)

Lemma new_counts_wf : counts_wf new_gcounter.
Proof. split; [apply length_replicate|]. apply Forall_replicate. unfold in_width. lia. Qed.

Lemma admitted_amount replica amount cu : admit_counter_update replica (u64 amount) = Some cu -> 0 <= cu_amount cu.
Proof. unfold admit_counter_update. case_match; intros; simplify_eq. simpl. pose proof (u64_range amount). lia. Qed.

(** A caller's write: the replica and the amount, through the checked door. *)
Definition gcounter_write (s : GCounterState) (u : nat * Z) : GCounterState * bool :=
  match admit_counter_update u.1 (u64 u.2) with
  | None => (s, false)
  | Some cu => gcounter_increment s cu
  end.

#[local] Instance GC_crdt : Crdt GCounterState (list Z) (nat * Z) unit Z := {
  crdt_new := new_gcounter;
  crdt_wf := counts_wf;
  crdt_abs s := s;
  crdt_join := zip_with Z.max;
  crdt_update := gcounter_write;
  crdt_merge := gcounter_merge;
  crdt_ask s _ := gcounter_value s;
}.

#[local] Instance GC_crdt_ok : CrdtOk GCounterState (list Z) (nat * Z) unit Z.
Proof.
  split; simpl; try apply _; auto using zip_max_idem, new_counts_wf.
  - intros s u Hs. unfold gcounter_write. destruct (admit_counter_update _ _) as [cu|] eqn:Ha; [|done].
    apply admitted_amount in Ha. by apply alter_add_wf.
  - intros s u Hs. unfold gcounter_write. destruct (admit_counter_update _ _) as [cu|] eqn:Ha; [|apply zip_max_idem].
    apply admitted_amount in Ha. by apply alter_add_up.
  - intros s u _. unfold gcounter_write. by destruct (admit_counter_update _ _).
  - intros a b Ha Hb. rewrite merge_states_zip; [by apply zip_max_wf|apply Ha|apply Hb].
  - intros a b Ha Hb _. apply merge_states_zip; [apply Ha|apply Hb].
  - done.
  - intros a b _ _ _ ->. done.
Qed.

Definition pn_wf (s : PNCounterState) : Prop := counts_wf (pn_positive s) /\ counts_wf (pn_negative s).
Definition pn_abs (s : PNCounterState) : list Z * list Z := (pn_positive s, pn_negative s).
Definition pn_join (x y : list Z * list Z) : list Z * list Z := (zip_with Z.max x.1 y.1, zip_with Z.max x.2 y.2).

(** A caller's write: the sign, the replica and the amount, through the
    checked door. *)
Definition pn_write (s : PNCounterState) (u : bool * nat * Z) : PNCounterState * bool :=
  let '(up, replica, amount) := u in
  match admit_counter_update replica (u64 amount) with
  | None => (s, false)
  | Some cu => if up then pn_increment s cu else pn_decrement s cu
  end.

#[local] Instance PN_crdt : Crdt PNCounterState (list Z * list Z) (bool * nat * Z) unit Z := {
  crdt_new := new_pncounter;
  crdt_wf := pn_wf;
  crdt_abs := pn_abs;
  crdt_join := pn_join;
  crdt_update := pn_write;
  crdt_merge := pn_merge;
  crdt_ask s _ := pn_value s;
}.

Lemma pn_merge_abs a b : pn_wf a -> pn_wf b -> pn_abs (pn_merge_states a b) = pn_join (pn_abs a) (pn_abs b).
Proof.
  intros [[? _] [? _]] [[? _] [? _]]. unfold pn_abs, pn_merge_states, pn_join. simpl. by rewrite !merge_states_zip.
Qed.

Lemma pn_join_idem x : pn_join x x = x.
Proof. destruct x. unfold pn_join. simpl. by rewrite !zip_max_idem. Qed.

#[local] Instance PN_crdt_ok : CrdtOk PNCounterState (list Z * list Z) (bool * nat * Z) unit Z.
Proof.
  split; simpl.
  - intros [x1 x2] [y1 y2]. unfold pn_join. simpl. by rewrite (comm (zip_with Z.max) x1), (comm (zip_with Z.max) x2).
  - intros [x1 x2] [y1 y2] [z1 z2]. unfold pn_join. simpl. by rewrite !(assoc (zip_with Z.max)).
  - intros s _. apply pn_join_idem.
  - split; apply new_counts_wf.
  - intros s [[up r] a] [H1 H2]. unfold pn_write. destruct (admit_counter_update _ _) as [cu|] eqn:Ha; [|done].
    apply admitted_amount in Ha. destruct up; (split; simpl; [try done; by apply alter_add_wf|]); try done; by apply alter_add_wf.
  - intros s [[up r] a] [H1 H2]. unfold pn_write. destruct (admit_counter_update _ _) as [cu|] eqn:Ha; [|apply pn_join_idem].
    apply admitted_amount in Ha. destruct up; unfold pn_join, pn_abs; simpl; by rewrite alter_add_up, zip_max_idem.
  - intros s [[up r] a] _. unfold pn_write. destruct (admit_counter_update _ _); [by destruct up|done].
  - intros a b [Ha1 Ha2] [Hb1 Hb2]. split; simpl; (rewrite merge_states_zip; [by apply zip_max_wf|apply Ha1 || apply Ha2|apply Hb1 || apply Hb2]).
  - intros a b Ha Hb _. by apply pn_merge_abs.
  - done.
  - intros [p n] [p' n'] q _ _ [= -> ->]. done.
Qed.
End Counters.

Lemma pncounter_value_clamped_witness : pn_value 2 (mkPN [UINT64_MAX; 5] [1; 2]) = INT64_MAX.
Proof.
  rewrite (pncounter_value_clamped 2); [reflexivity|..]; (split; [reflexivity|]); repeat constructor; unfold UINT64_MAX; lia.
Defined.
