(* ===== verification/CrdtTable.v ===== *)
(** * CrdtTable.v: BoundedTaggedState (include/crucible/canopy/Crdt.h)

    The array with a count that OrSet and RgaList keep, as a finite map from
    the keys of its entries, and the shape that the two types' upsert and
    merge share. *)

From stdpp Require Import base list gmap.
From Stdlib Require Import ZArith Lia.
From S2P Require Import Prelude.

Record BoundedTaggedState (E : Type) := mkTagged { t_entries : list E; t_count : nat }.
Arguments mkTagged {E}.
Arguments t_entries {E}.
Arguments t_count {E}.

Definition tagged_well_formed {E} (Capacity : nat) (s : BoundedTaggedState E) : bool := (t_count s <=? Capacity)%nat.

(** The entries below the count. *)
Definition live {E} (s : BoundedTaggedState E) : list E := take (t_count s) (t_entries s).

(** The first index below the count whose entry passes a test. *)
Definition find_index {E} (f : E -> bool) (s : BoundedTaggedState E) : option nat :=
  fst <$> list_find (fun e => f e = true) (live s).

(** An entry is written over, changed in place, or written behind the last
    one. *)
Definition put {E} (s : BoundedTaggedState E) (i : nat) (e : E) : BoundedTaggedState E :=
  mkTagged (<[i := e]> (t_entries s)) (t_count s).
Definition modify {E} (s : BoundedTaggedState E) (i : nat) (f : E -> E) : BoundedTaggedState E :=
  mkTagged (alter f i (t_entries s)) (t_count s).
Definition append {E} (s : BoundedTaggedState E) (e : E) : BoundedTaggedState E :=
  mkTagged (<[t_count s := e]> (t_entries s)) (S (t_count s)).

(** merge_state_into_: upsert each live entry of the other state, until one is
    refused. *)
Fixpoint upsert_each {E} (upsert : BoundedTaggedState E -> E -> BoundedTaggedState E * bool)
    (target : BoundedTaggedState E) (l : list E) : BoundedTaggedState E * bool :=
  match l with
  | [] => (target, true)
  | e :: l =>
      let '(target, ok) := upsert target e in
      if ok then upsert_each upsert target l else (target, false)
  end.

Lemma live_lookup {E} (s : BoundedTaggedState E) i e : live s !! i = Some e <-> t_entries s !! i = Some e /\ (i < t_count s)%nat.
Proof. unfold live. apply lookup_take_Some. Qed.

Lemma find_index_Some {E} (s : BoundedTaggedState E) f i :
  find_index f s = Some i -> exists e, live s !! i = Some e /\ f e = true.
Proof.
  unfold find_index. intros ([j e] & Hf & ->)%fmap_Some.
  apply list_find_Some in Hf as (Hl & He & _). eauto.
Qed.

Lemma find_index_None {E} (s : BoundedTaggedState E) f e : find_index f s = None -> e ∈ live s -> f e = false.
Proof.
  unfold find_index. intros Hf%fmap_None. rewrite list_find_None, Forall_forall in Hf. intros He.
  specialize (Hf e He). by destruct (f e).
Qed.

Lemma modify_put {E} (s : BoundedTaggedState E) i e f : live s !! i = Some e -> modify s i f = put s i (f e).
Proof.
  intros [He _]%live_lookup. unfold modify, put. f_equal.
  apply list_eq. intros j. rewrite list_lookup_alter, list_lookup_insert. case_decide as Hij; [subst j|].
  - rewrite He. simpl. rewrite decide_True; [done|]. split; [done|by eapply lookup_lt_Some].
  - by rewrite decide_False by tauto.
Qed.

(** ** Maps joined key by key *)

Section Join.
Context {K V : Type} `{Countable K} (joinv : V -> V -> V).

Definition vjoin (x y : V) : option V := Some (joinv x y).
Definition table_join : gmap K V -> gmap K V -> gmap K V := union_with vjoin.

Lemma join_singleton k v (m : gmap K V) : m !! k = None -> table_join {[k := v]} m = <[k := v]> m.
Proof.
  intros Hk. apply map_eq. intros k'. unfold table_join. rewrite lookup_union_with, lookup_singleton, lookup_insert.
  case_decide; [subst; by rewrite Hk|]. by destruct (m !! k').
Qed.

Context `{!Comm (=) joinv, !Assoc (=) joinv, !IdemP (=) joinv}.

#[export] Instance table_join_comm : Comm (=) table_join.
Proof.
  intros m1 m2. apply map_eq. intros k. unfold table_join. rewrite !lookup_union_with.
  destruct (m1 !! k), (m2 !! k); simpl; try done. unfold vjoin. by rewrite (comm joinv).
Qed.

#[export] Instance table_join_assoc : Assoc (=) table_join.
Proof.
  intros m1 m2 m3. apply map_eq. intros k. unfold table_join. rewrite !lookup_union_with.
  destruct (m1 !! k), (m2 !! k), (m3 !! k); simpl; try done. unfold vjoin. by rewrite (assoc joinv).
Qed.

Lemma table_join_idem m : table_join m m = m.
Proof.
  apply map_eq. intros k. unfold table_join. rewrite !lookup_union_with.
  destruct (m !! k); simpl; [|done]. unfold vjoin. by rewrite (idemp joinv).
Qed.

End Join.

(** ** The table *)

Section Table.
Context {E K V : Type} `{Countable K}.
Context (Capacity : nat) (key : E -> K) (val : E -> V).
Implicit Types s : BoundedTaggedState E.

Record table_wf s : Prop := {
  tw_length : length (t_entries s) = Capacity;
  tw_count : (t_count s <= Capacity)%nat;
  tw_keys : NoDup (key <$> live s);
}.

(** The entries as a map from their keys. *)
Definition table_abs s : gmap K V := list_to_map ((fun e => (key e, val e)) <$> live s).

Lemma live_length s : table_wf s -> length (live s) = t_count s.
Proof. intros [Hl Hc _]. unfold live. rewrite length_take. lia. Qed.

Lemma abs_lookup s k v : table_wf s -> table_abs s !! k = Some v <-> exists e, e ∈ live s /\ key e = k /\ val e = v.
Proof.
  intros Hs. unfold table_abs. rewrite <- elem_of_list_to_map.
  - rewrite list_elem_of_fmap. naive_solver.
  - rewrite <- list_fmap_compose. apply (tw_keys _ Hs).
Qed.

Lemma abs_lookup_None s k : table_wf s -> table_abs s !! k = None <-> forall e, e ∈ live s -> key e <> k.
Proof.
  intros Hs. rewrite eq_None_not_Some. split.
  - intros Hn e He <-. apply Hn. exists (val e). apply abs_lookup; eauto.
  - intros Hn [v (e & He & Hk & _)%abs_lookup]; [|done]. by apply (Hn e).
Qed.

Context (joinv : V -> V -> V).
Abbreviation join := (table_join joinv).

(** An entry is replaced by one with the same key and the joined value. *)
Lemma put_spec s i e e' v :
  table_wf s -> live s !! i = Some e -> key e' = key e -> val e' = joinv (val e) v ->
  table_wf (put s i e') /\ table_abs (put s i e') = join (table_abs s) {[key e := v]}.
Proof using Type*.
  intros Hs Hi Hk Hv. pose proof (proj1 (live_lookup s i e) Hi) as [_ Hlt].
  assert (Hlive : live (put s i e') = <[i := e']> (live s)).
  { unfold live, put. simpl. by rewrite take_insert_lt. }
  assert (Hkeys : key <$> live (put s i e') = key <$> live s).
  { rewrite Hlive, list_fmap_insert, Hk. apply list_insert_id. by rewrite list_lookup_fmap, Hi. }
  assert (Hw : table_wf (put s i e')).
  { split; simpl; [by rewrite length_insert; apply Hs|apply Hs|]. rewrite Hkeys. apply Hs. }
  split; [done|]. apply map_eq. intros k. unfold table_join. rewrite lookup_union_with, lookup_singleton.
  assert (Hold : table_abs s !! key e = Some (val e)).
  { apply abs_lookup; [done|]. exists e. split_and!; [by eapply list_elem_of_lookup_2|done..]. }
  case_decide as Hkk.
  - subst k. rewrite Hold. simpl. unfold vjoin. apply abs_lookup; [done|]. exists e'. rewrite Hlive.
    split_and!; [|done..]. apply list_elem_of_lookup_2 with i. apply list_lookup_insert_eq. by eapply lookup_lt_Some.
  - replace (union_with (vjoin joinv) (table_abs s !! k) None) with (table_abs s !! k) by by destruct (table_abs s !! k).
    apply option_eq. intros x. rewrite !abs_lookup by done. rewrite Hlive. split.
    + intros (a & Ha & <- & <-). exists a. split_and!; [|done..]. apply list_elem_of_lookup in Ha as [j Hj].
      apply list_lookup_insert_Some in Hj as [(<- & <- & _)|[_ Hj]]; [by rewrite Hk in Hkk|]. by eapply list_elem_of_lookup_2.
    + intros (a & Ha & <- & <-). exists a. split_and!; [|done..]. apply list_elem_of_lookup in Ha as [j Hj].
      apply list_elem_of_lookup. exists j. rewrite list_lookup_insert_ne; [done|]. intros <-. congruence.
Qed.

(** A new key is written behind the last entry. *)
Lemma append_spec s e :
  table_wf s -> (t_count s < Capacity)%nat -> (forall a, a ∈ live s -> key a <> key e) ->
  table_wf (append s e) /\ table_abs (append s e) = join (table_abs s) {[key e := val e]}.
Proof using Type*.
  intros Hs Hc Hn.
  assert (Hlive : live (append s e) = live s ++ [e]).
  { unfold live, append. simpl. pose proof (tw_length _ Hs).
    rewrite (take_S_r _ _ e) by (apply list_lookup_insert_eq; lia). by rewrite take_insert_ge by lia. }
  assert (Hw : table_wf (append s e)).
  { split; simpl; [rewrite length_insert; apply Hs|lia|]. rewrite Hlive, fmap_app. apply NoDup_app. split_and!.
    - apply Hs.
    - intros k (a & -> & Ha)%list_elem_of_fmap Hk. simpl in Hk. apply list_elem_of_singleton in Hk. by apply (Hn a).
    - apply NoDup_singleton. }
  split; [done|]. apply map_eq. intros k. unfold table_join. rewrite lookup_union_with, lookup_singleton.
  case_decide as Hkk.
  - subst k. rewrite (proj2 (abs_lookup_None s (key e) Hs)) by done. simpl. apply abs_lookup; [done|].
    exists e. rewrite Hlive. split_and!; [|done..]. apply elem_of_app. right. by left.
  - replace (union_with (vjoin joinv) (table_abs s !! k) None) with (table_abs s !! k) by by destruct (table_abs s !! k).
    apply option_eq. intros x. rewrite !abs_lookup by done. rewrite Hlive. split.
    + intros (a & [Ha|Ha]%elem_of_app & <- & <-); [eauto|]. apply list_elem_of_singleton in Ha as ->. done.
    + intros (a & Ha & <- & <-). exists a. split_and!; [|done..]. apply elem_of_app. by left.
Qed.

Context `{!Comm (=) joinv, !Assoc (=) joinv, !IdemP (=) joinv}.

(** What an upsert does: it joins one entry into the map, or it is refused and
    the state stays. *)
Definition upsert_ok (upsert : BoundedTaggedState E -> E -> BoundedTaggedState E * bool) : Prop :=
  forall s e, table_wf s ->
    table_wf (upsert s e).1 /\
    ((upsert s e).2 = true -> table_abs (upsert s e).1 = join (table_abs s) {[key e := val e]}) /\
    ((upsert s e).2 = false -> (upsert s e).1 = s).

Lemma upsert_each_spec upsert l s :
  upsert_ok upsert -> table_wf s -> NoDup (key <$> l) ->
  table_wf (upsert_each upsert s l).1 /\
  ((upsert_each upsert s l).2 = true ->
    table_abs (upsert_each upsert s l).1 = join (table_abs s) (list_to_map ((fun e => (key e, val e)) <$> l))).
Proof using Type*.
  intros Hu. revert s. induction l as [|e l IH]; intros s Hs Hl; simpl.
  - split; [done|]. intros _. apply map_eq. intros k. unfold table_join. rewrite lookup_union_with, lookup_empty.
    by destruct (table_abs s !! k).
  - rewrite fmap_cons in Hl. apply NoDup_cons in Hl as [He Hl]. destruct (Hu s e Hs) as (Hw & Hok & Hno).
    destruct (upsert s e) as [s' [|]]; simpl in *; [|done]. destruct (IH s' Hw Hl) as [Hw' Habs]. split; [done|].
    intros Hres. rewrite (Habs Hres), Hok by done. rewrite <- (assoc join). f_equal. apply join_singleton.
    apply not_elem_of_list_to_map_1. rewrite <- list_fmap_compose. exact He.
Qed.

Lemma upsert_each_merge upsert a b :
  upsert_ok upsert -> table_wf a -> table_wf b ->
  table_wf (upsert_each upsert a (live b)).1 /\
  ((upsert_each upsert a (live b)).2 = true ->
    table_abs (upsert_each upsert a (live b)).1 = join (table_abs a) (table_abs b)).
Proof using Type*. intros Hu Ha Hb. apply upsert_each_spec; [done..|apply Hb]. Qed.

Lemma upsert_up upsert s e :
  upsert_ok upsert -> table_wf s -> join (table_abs s) (table_abs (upsert s e).1) = table_abs (upsert s e).1.
Proof using Type*.
  intros Hu Hs. destruct (Hu s e Hs) as (_ & Hok & Hno). destruct (upsert s e) as [s' [|]]; simpl in *.
  - by rewrite Hok, (assoc join), (table_join_idem joinv) by done.
  - rewrite Hno by done. apply (table_join_idem joinv).
Qed.
End Table.
