(* ===== verification/CrdtSets.v ===== *)
(** * CrdtSets.v: the two replicated sets (include/crucible/canopy/Crdt.h)

    OrSet<T, TagId, Capacity> and GSet<T, Capacity> at integer values and
    tags. *)

From stdpp Require Import base list gmap.
From Stdlib Require Import ZArith Lia.
From S2P Require Import Prelude.
From S2P Require Import Hash.
From S2P Require Import Clocks.
From S2P Require Import Crdt.
From S2P Require Import CrdtTable.
#[local] Open Scope Z_scope.

(** ** The observed-remove set *)

Record OrSetEntry := mkOr { or_value : Z; or_tag : Z; or_removed : bool }.

#[export] Instance OrSetEntry_eq_dec : EqDecision OrSetEntry.
Proof. solve_decision. Defined.

Abbreviation OrState := (BoundedTaggedState OrSetEntry).

Section OrSets.
Context (Capacity : nat).

Definition new_orset : OrState := mkTagged (replicate Capacity (mkOr 0 0 false)) 0.

Definition or_find_ (s : OrState) (value tag : Z) : option nat :=
  find_index (fun e => (or_value e =? value) && (or_tag e =? tag)) s.

Definition or_upsert_into_ (s : OrState) (incoming : OrSetEntry) : OrState * bool :=
  match or_find_ s (or_value incoming) (or_tag incoming) with
  | Some idx =>
      (modify s idx (fun e => mkOr (or_value e) (or_tag e) (or_removed e || or_removed incoming)), true)
  | None => if (Capacity <=? t_count s)%nat then (s, false) else (append s incoming, true)
  end.

Definition or_add (s : OrState) (value tag : Z) : OrState * bool := or_upsert_into_ s (mkOr value tag false).

Definition or_remove (s : OrState) (value : Z) : OrState * bool :=
  (mkTagged
     (imap (fun i e => if (i <? t_count s)%nat && (or_value e =? value) then mkOr (or_value e) (or_tag e) true else e)
        (t_entries s))
     (t_count s), true).

Definition or_contains (s : OrState) (value : Z) : bool :=
  existsb (fun e => (or_value e =? value) && negb (or_removed e)) (live s).

Definition or_merge_state_into_ (target other : OrState) : OrState * bool :=
  if negb (tagged_well_formed Capacity other) then (target, false)
  else upsert_each or_upsert_into_ target (live other).

Definition or_merge (s other : OrState) : OrState * bool := commit_merge s other or_merge_state_into_.

(** The static merge of two states, which checks both of them. *)
Definition or_merge_states (a b : OrState) : OrState :=
  if tagged_well_formed Capacity a then (commit_merge a b or_merge_state_into_).1 else a.

(** *** The set as a map from (value, tag) to removed *)

Definition or_key (e : OrSetEntry) : Z * Z := (or_value e, or_tag e).
Abbreviation or_wf := (table_wf Capacity or_key).
Abbreviation or_abs := (table_abs or_key or_removed).

#[local] Instance orb_comm_inst : Comm (=) orb := orb_comm.
#[local] Instance orb_assoc_inst : Assoc (=) orb := orb_assoc.
#[local] Instance orb_idem_inst : IdemP (=) orb := orb_diag.

Lemma new_orset_wf : or_wf new_orset.
Proof. split; simpl; [apply length_replicate|lia|]. unfold live. simpl. constructor. Qed.

Lemma or_upsert_ok : upsert_ok Capacity or_key or_removed orb or_upsert_into_.
Proof.
  intros s e Hs. unfold or_upsert_into_, or_find_. destruct (find_index _ s) as [i|] eqn:Hf; simpl.
  - apply find_index_Some in Hf as (a & Ha & Hk). reflect_bools.
    rewrite (modify_put s i a _ Ha).
    assert (Hkey : or_key a = or_key e) by (unfold or_key; f_equal; lia).
    destruct (put_spec Capacity or_key or_removed orb s i a
      (mkOr (or_value a) (or_tag a) (or_removed a || or_removed e)) (or_removed e)) as [Hw Habs]; [done..|].
    split_and!; [done|by rewrite <- Hkey|done].
  - destruct (Nat.leb_spec Capacity (t_count s)); simpl; [split_and!; done|].
    destruct (append_spec Capacity or_key or_removed orb s e) as [Hw Habs]; [done..| |split_and!; done].
    intros a Ha Hk. pose proof (find_index_None _ _ a Hf Ha) as Hn. unfold or_key in Hk. injection Hk as H1 H2.
    simpl in Hn. rewrite H1, H2, !Z.eqb_refl in Hn. done.
Qed.

Lemma or_remove_live s value :
  live (or_remove s value).1 = (fun e => if or_value e =? value then mkOr (or_value e) (or_tag e) true else e) <$> live s.
Proof.
  unfold or_remove, live. simpl. apply list_eq. intros i.
  rewrite list_lookup_fmap. destruct (decide (i < t_count s)%nat) as [Hi|Hi].
  - rewrite !lookup_take_lt, list_lookup_imap by done. by rewrite (proj2 (Nat.ltb_lt _ _)) by done.
  - rewrite !lookup_take_ge by lia. done.
Qed.

Lemma or_remove_spec s value :
  or_wf s -> or_wf (or_remove s value).1 /\
  forall k, or_abs (or_remove s value).1 !! k = (fun r => r || (k.1 =? value)) <$> or_abs s !! k.
Proof.
  intros Hs. assert (Hw : or_wf (or_remove s value).1).
  { split; simpl; [rewrite length_imap; apply Hs|apply Hs|]. change (live _) with (live (or_remove s value).1).
    rewrite or_remove_live, <- list_fmap_compose. erewrite list_fmap_ext; [apply (tw_keys _ _ _ Hs)|].
    intros i e _. unfold compose. by case_match. }
  split; [done|]. intros k. apply option_eq. intros r. rewrite abs_lookup by done. rewrite fmap_Some, or_remove_live. split.
  - intros (e & (a & -> & Ha)%list_elem_of_fmap & Hk & Hr). exists (or_removed a). split.
    + apply (abs_lookup Capacity _ _ s _ _ Hs). exists a. split; [done|]. split; [|done]. rewrite <- Hk. by case_match.
    + rewrite <- Hr, <- Hk. destruct (or_value a =? value) eqn:Hv; simpl; rewrite Hv; [by rewrite orb_true_r|by rewrite orb_false_r].
  - intros (r0 & (a & Ha & <- & <-)%(abs_lookup Capacity _ _ s _ _ Hs) & ->).
    exists (if or_value a =? value then mkOr (or_value a) (or_tag a) true else a).
    split; [apply list_elem_of_fmap; eauto|]. unfold or_key. simpl.
    destruct (or_value a =? value); simpl; [by rewrite orb_true_r|by rewrite orb_false_r].
Qed.

Lemma or_contains_spec s value : or_wf s -> or_contains s value = true <-> exists tag, or_abs s !! (value, tag) = Some false.
Proof.
  intros Hs. unfold or_contains. rewrite existsb_exists. split.
  - intros (e & He & Hb). reflect_bools. exists (or_tag e). apply (abs_lookup Capacity _ _ s _ _ Hs). exists e.
    split; [by apply list_elem_of_In|]. split; [unfold or_key; f_equal; lia|done].
  - intros (tag & (e & He & Hk & Hr)%(abs_lookup Capacity _ _ s _ _ Hs)). exists e. split; [by apply list_elem_of_In|].
    unfold or_key in Hk. injection Hk as -> _. by rewrite Z.eqb_refl, Hr.
Qed.

Lemma or_merge_spec a b :
  or_wf a -> or_wf b ->
  or_wf (or_merge a b).1 /\
  ((or_merge a b).2 = true -> or_abs (or_merge a b).1 = table_join orb (or_abs a) (or_abs b)).
Proof.
  intros Ha Hb. unfold or_merge, commit_merge, or_merge_state_into_.
  rewrite (proj2 (Nat.leb_le _ _) (tw_count _ _ _ Hb) : tagged_well_formed Capacity b = true). simpl.
  destruct (upsert_each_merge Capacity or_key or_removed orb _ a b or_upsert_ok Ha Hb) as [Hw Habs].
  destruct (upsert_each or_upsert_into_ a (live b)) as [s [|]]; simpl in *; [auto|done].
Qed.

(** A caller's write: an add with its tag, or a remove. *)
Inductive or_op := OrAdd (value tag : Z) | OrRemove (value : Z).

Definition or_write (s : OrState) (u : or_op) : OrState * bool :=
  match u with OrAdd v t => or_add s v t | OrRemove v => or_remove s v end.

#[local] Instance OrSet_crdt : Crdt OrState (gmap (Z * Z) bool) or_op Z bool := {
  crdt_new := new_orset;
  crdt_wf := or_wf;
  crdt_abs := or_abs;
  crdt_join := table_join orb;
  crdt_update := or_write;
  crdt_merge := or_merge;
  crdt_ask := or_contains;
}.

#[local] Instance OrSet_crdt_ok : CrdtOk OrState (gmap (Z * Z) bool) or_op Z bool.
Proof.
  split; simpl.
  - apply _.
  - apply _.
  - intros s Hs. by apply (table_join_idem orb).
  - apply new_orset_wf.
  - intros s [v t|v] Hs; simpl; [by apply (or_upsert_ok s)|by apply or_remove_spec].
  - intros s [v t|v] Hs; simpl; [exact (upsert_up Capacity or_key or_removed orb _ s (mkOr v t false) or_upsert_ok Hs)|].
    destruct (or_remove_spec s v Hs) as [_ Habs]. apply map_eq. intros k. unfold table_join.
    change (table_abs or_key or_removed _) with (or_abs (or_remove s v).1) at 2 3.
    rewrite lookup_union_with, Habs. destruct (or_abs s !! k) as [r|]; simpl; [|done]. unfold vjoin. f_equal.
    by destruct r.
  - intros s [v t|v] Hs; simpl; [by apply (or_upsert_ok s)|done].
  - intros a b Ha Hb. by apply or_merge_spec.
  - intros a b Ha Hb. by apply or_merge_spec.
  - intros a b _ _. apply commit_merge_refused.
  - intros a b v Ha Hb Heq. apply eq_true_iff_eq. rewrite !or_contains_spec by done. by rewrite Heq.
Qed.

(** The observed-remove set.  After a merge that takes effect a value is in
    the set exactly when one of its adds is in one of the two states and is
    removed in neither; a remove takes out its value, with every add that the
    replica has seen, and no other; an add with a tag that the replica has not
    seen puts its value in. *)
Theorem orset_observed_remove a b v :
  or_wf a -> or_wf b ->
  ((or_merge a b).2 = true ->
   (or_contains (or_merge a b).1 v = true <->
    (exists tag, (mkOr v tag false ∈ live a \/ mkOr v tag false ∈ live b) /\
                 mkOr v tag true ∉ live a /\ mkOr v tag true ∉ live b))) /\
  (forall u, or_contains (or_remove a v).1 u = or_contains a u && negb (u =? v)) /\
  (forall tag, (or_add a v tag).2 = true -> (forall r, mkOr v tag r ∉ live a) -> or_contains (or_add a v tag).1 v = true).
Proof.
  intros Ha Hb.
  assert (Hin : forall s, or_wf s -> forall u tag r, mkOr u tag r ∈ live s <-> or_abs s !! (u, tag) = Some r).
  { intros s Hs u tag r. rewrite (abs_lookup Capacity) by done. split; [eauto|].
    intros ([u' t' r'] & He & [= -> ->] & <-). done. }
  split_and!.
  - intros Hok. destruct (or_merge_spec a b Ha Hb) as [Hw Habs]. rewrite or_contains_spec, Habs by done. unfold table_join.
    setoid_rewrite Hin; [|done..]. setoid_rewrite lookup_union_with.
    split; intros (tag & Ht); exists tag; destruct (or_abs a !! (v, tag)) as [[]|], (or_abs b !! (v, tag)) as [[]|]; naive_solver.
  - intros u. destruct (or_remove_spec a v Ha) as [Hw Habs]. apply eq_true_iff_eq.
    rewrite andb_true_iff, negb_true_iff, Z.eqb_neq, !or_contains_spec by done. setoid_rewrite Habs. simpl.
    destruct (Z.eqb_spec u v); (split; [intros (t & Ht)|intros [(t & Ht) Hne]]).
    + destruct (or_abs a !! (u, t)) as [[]|]; done.
    + done.
    + destruct (or_abs a !! (u, t)) as [[]|] eqn:He; simpl in Ht; naive_solver.
    + exists t. by rewrite Ht.
  - intros tag Hok Hnew. destruct (or_upsert_ok a (mkOr v tag false) Ha) as (Hw & Habs & _). apply or_contains_spec; [done|].
    exists tag. unfold or_add in *. rewrite Habs by done. unfold table_join. rewrite lookup_union_with. simpl.
    rewrite lookup_singleton_eq. destruct (or_abs a !! (v, tag)) as [r|] eqn:He; [|done]. apply Hin in He; [|done]. by destruct (Hnew r).
Qed.
End OrSets.

(** Replica a removed 1 under the tag 10; replica b added it again as 20. *)
Definition or_a : OrState := mkTagged [mkOr 1 10 true; mkOr 2 11 false; mkOr 0 0 false; mkOr 0 0 false] 2.
Definition or_b : OrState := mkTagged [mkOr 1 10 false; mkOr 1 20 false; mkOr 0 0 false; mkOr 0 0 false] 2.

Lemma or_a_wf : table_wf 4 or_key or_a.
Proof. split; [done|simpl; lia|]. apply (bool_decide_unpack _). by vm_compute. Qed.

Lemma or_b_wf : table_wf 4 or_key or_b.
Proof. split; [done|simpl; lia|]. apply (bool_decide_unpack _). by vm_compute. Qed.

Lemma orset_observed_remove_witness :
  or_contains (or_merge 4 or_a or_b).1 1 = true /\ or_contains (or_remove or_a 2).1 2 = false.
Proof.
  destruct (orset_observed_remove 4 or_a or_b 1 or_a_wf or_b_wf) as (H1 & _ & _).
  destruct (orset_observed_remove 4 or_a or_b 2 or_a_wf or_b_wf) as (_ & H2 & _).
  split; [|rewrite H2; reflexivity].
  apply H1; [reflexivity|]. exists 20. split; [right|split]; apply (bool_decide_unpack _); vm_compute; exact Logic.I.
Defined.

(** ** The grow-only set

    BoundedHashSetState: open addressing with linear probing from the value's
    stable hash, modulo Capacity. *)

Record HashSlot := mkHSlot { hs_occupied : bool; hs_value : Z }.
Record BoundedHashSetState := mkHashSet { hs_slots : list HashSlot; hs_count : nat }.

Definition empty_slot : HashSlot := mkHSlot false 0.

Definition stable_hash (value : Z) : Z := fmix64 (u64 value).

Section GSets.
Context (Capacity : nat).

Definition new_gset : BoundedHashSetState := mkHashSet (replicate Capacity empty_slot) 0.

Definition slot_at (s : BoundedHashSetState) (i : nat) : HashSlot := default empty_slot (hs_slots s !! i).

(** The index that step [n] of a probe looks at. *)
Definition probe_idx (value : Z) (n : nat) : nat :=
  let start := (Z.to_nat (stable_hash value mod Z.of_nat Capacity))%nat in
  ((start + n) mod Capacity)%nat.

Definition gs_well_formed (s : BoundedHashSetState) : bool :=
  (length (List.filter (fun i => hs_occupied (slot_at s i)) (seq 0 Capacity)) =? hs_count s)%nat.

(** contains and insert: the loop from step [n] on, with [k] steps left. *)
Fixpoint contains_from (s : BoundedHashSetState) (value : Z) (n k : nat) : bool :=
  match k with
  | O => false
  | S k =>
      let idx := probe_idx value n in
      if negb (hs_occupied (slot_at s idx)) then false
      else if hs_value (slot_at s idx) =? value then true
      else contains_from s value (S n) k
  end.

Definition gs_contains (s : BoundedHashSetState) (value : Z) : bool := contains_from s value 0 Capacity.

Fixpoint insert_from (s : BoundedHashSetState) (value : Z) (n k : nat) : BoundedHashSetState * bool :=
  match k with
  | O => (s, false)
  | S k =>
      let idx := probe_idx value n in
      if hs_occupied (slot_at s idx) && (hs_value (slot_at s idx) =? value) then (s, true)
      else if negb (hs_occupied (slot_at s idx)) then
        if (Capacity <=? hs_count s)%nat then (s, false)
        else (mkHashSet (<[idx := mkHSlot true value]> (hs_slots s)) (S (hs_count s)), true)
      else insert_from s value (S n) k
  end.

Definition gs_insert (s : BoundedHashSetState) (value : Z) : BoundedHashSetState * bool := insert_from s value 0 Capacity.

(** BoundedHashSetState::merge, from slot [i] on. *)
Fixpoint merge_slots (s other : BoundedHashSetState) (idxs : list nat) : BoundedHashSetState * bool :=
  match idxs with
  | [] => (s, true)
  | i :: idxs =>
      if hs_occupied (slot_at other i) then
        let '(s, ok) := gs_insert s (hs_value (slot_at other i)) in
        if ok then merge_slots s other idxs else (s, false)
      else merge_slots s other idxs
  end.

Definition gs_merge_into (s other : BoundedHashSetState) : BoundedHashSetState * bool :=
  if negb (gs_well_formed other) then (s, false) else merge_slots s other (seq 0 Capacity).

(** operator==: equal counts, and each value of the first in the second. *)
Definition gs_eqb (a b : BoundedHashSetState) : bool :=
  if negb (hs_count a =? hs_count b)%nat then false
  else forallb (fun i => negb (hs_occupied (slot_at a i) && negb (gs_contains b (hs_value (slot_at a i))))) (seq 0 Capacity).

Definition gset_add (s : BoundedHashSetState) (value : Z) : BoundedHashSetState * bool := gs_insert s value.
Definition gset_merge (s other : BoundedHashSetState) : BoundedHashSetState * bool := commit_merge s other gs_merge_into.
Definition gset_merge_states (a b : BoundedHashSetState) : BoundedHashSetState :=
  if gs_well_formed a then (commit_merge a b gs_merge_into).1 else a.
Definition gset_size (s : BoundedHashSetState) : result nat := crdt_count Capacity (hs_count s).

(** *** The table as a finite set *)

Definition occupied_idx (s : BoundedHashSetState) : list nat := List.filter (fun i => hs_occupied (slot_at s i)) (seq 0 Capacity).

Definition gs_abs (s : BoundedHashSetState) : gset Z := list_to_set ((fun i => hs_value (slot_at s i)) <$> occupied_idx s).

(** The slots that a probe for [value] passes before step [n] hold other
    values. *)
Definition passes (s : BoundedHashSetState) (value : Z) (n : nat) : Prop :=
  forall m, (m < n)%nat -> hs_occupied (slot_at s (probe_idx value m)) = true /\ hs_value (slot_at s (probe_idx value m)) <> value.

Record gs_wf (s : BoundedHashSetState) : Prop := {
  gw_length : length (hs_slots s) = Capacity;
  gw_count : length (occupied_idx s) = hs_count s;
  gw_probe i : (i < Capacity)%nat -> hs_occupied (slot_at s i) = true ->
    exists n, (n < Capacity)%nat /\ probe_idx (hs_value (slot_at s i)) n = i /\ passes s (hs_value (slot_at s i)) n;
}.

Context (Cpos : (0 < Capacity)%nat).

Lemma probe_lt v n : (probe_idx v n < Capacity)%nat.
Proof using Type*. unfold probe_idx. apply Nat.mod_upper_bound. lia. Qed.

Lemma probe_onto v i : (i < Capacity)%nat -> exists n, (n < Capacity)%nat /\ probe_idx v n = i.
Proof using Type*.
  intros Hi. unfold probe_idx. set (start := Z.to_nat _).
  assert (Hs : (start < Capacity)%nat).
  { subst start. pose proof (Z.mod_pos_bound (stable_hash v) (Z.of_nat Capacity)). lia. }
  destruct (decide (start <= i)%nat).
  - exists (i - start)%nat. split; [lia|]. replace (start + (i - start))%nat with i by lia. by apply Nat.mod_small.
  - exists (i + Capacity - start)%nat. split; [lia|]. replace (start + (i + Capacity - start))%nat with (i + 1 * Capacity)%nat by lia.
    rewrite Nat.Div0.mod_add. by apply Nat.mod_small.
Qed.

Lemma elem_of_occupied s i : i ∈ occupied_idx s <-> (i < Capacity)%nat /\ hs_occupied (slot_at s i) = true.
Proof using Type*. unfold occupied_idx. rewrite list_elem_of_In, filter_In, <- list_elem_of_In, elem_of_seq. naive_solver lia. Qed.

Lemma elem_of_abs s v :
  v ∈ gs_abs s <-> exists i, (i < Capacity)%nat /\ hs_occupied (slot_at s i) = true /\ hs_value (slot_at s i) = v.
Proof using Type*.
  unfold gs_abs. rewrite elem_of_list_to_set, list_elem_of_fmap. setoid_rewrite elem_of_occupied. naive_solver.
Qed.

(** A value is in the table exactly when its probe meets it. *)
Lemma abs_probe s v :
  gs_wf s -> v ∈ gs_abs s <->
  exists n, (n < Capacity)%nat /\ passes s v n /\ hs_occupied (slot_at s (probe_idx v n)) = true /\
    hs_value (slot_at s (probe_idx v n)) = v.
Proof using Type*.
  intros Hs. rewrite elem_of_abs. split.
  - intros (i & Hi & Ho & <-). destruct (gw_probe _ Hs i Hi Ho) as (n & Hn & Hp & Hpass). exists n. rewrite Hp. done.
  - intros (n & _ & _ & Ho & Hv). exists (probe_idx v n). split; [apply probe_lt|done].
Qed.

Lemma passes_S s v n :
  passes s v n -> hs_occupied (slot_at s (probe_idx v n)) = true -> hs_value (slot_at s (probe_idx v n)) <> v -> passes s v (S n).
Proof using Type*. intros Hp Ho Hv m Hm. destruct (decide (m = n)) as [->|]; [done|]. apply Hp. lia. Qed.

Lemma contains_from_spec s v n k :
  gs_wf s -> passes s v n -> (n + k = Capacity)%nat -> contains_from s v n k = bool_decide (v ∈ gs_abs s).
Proof using Type*.
  intros Hs. revert n. induction k as [|k IH]; intros n Hp Hn; simpl.
  - symmetry. apply bool_decide_eq_false. intros (m & Hm & _ & _ & Hv)%abs_probe; [|done]. by destruct (Hp m ltac:(lia)).
  - destruct (hs_occupied (slot_at s (probe_idx v n))) eqn:Ho; simpl.
    + destruct (Z.eqb_spec (hs_value (slot_at s (probe_idx v n))) v) as [Hv|Hv].
      * symmetry. apply bool_decide_eq_true, abs_probe; [done|]. exists n. split; [lia|done].
      * apply IH; [by apply passes_S|lia].
    + symmetry. apply bool_decide_eq_false. intros (m & Hm & Hpm & Hom & Hv)%abs_probe; [|done].
      destruct (Nat.lt_trichotomy m n) as [Hlt|[->|Hgt]]; [by destruct (Hp m Hlt)|congruence|]. destruct (Hpm n Hgt). congruence.
Qed.

Lemma contains_spec s v : gs_wf s -> gs_contains s v = bool_decide (v ∈ gs_abs s).
Proof using Type*. intros Hs. apply contains_from_spec; [done| |lia]. intros m Hm. lia. Qed.

(** The table with a value written into a free slot. *)
Definition fill (s : BoundedHashSetState) (i : nat) (v : Z) : BoundedHashSetState :=
  mkHashSet (<[i := mkHSlot true v]> (hs_slots s)) (S (hs_count s)).

Lemma slot_at_fill s i v j :
  (i < length (hs_slots s))%nat -> slot_at (fill s i v) j = if decide (i = j) then mkHSlot true v else slot_at s j.
Proof using Type*.
  intros Hi. unfold slot_at, fill. simpl. case_decide as Hij; [subst; by rewrite list_lookup_insert_eq|by rewrite list_lookup_insert_ne].
Qed.

Lemma filter_flip {A} (f g : A -> bool) l a :
  NoDup l -> a ∈ l -> f a = false -> g a = true -> (forall b, b <> a -> g b = f b) ->
  length (List.filter g l) = S (length (List.filter f l)).
Proof using Type*.
  intros Hl. induction Hl as [|x l Hx Hl IH]; intros Ha Hf Hg Hfg; [by apply not_elem_of_nil in Ha|].
  assert (Hsame : a ∉ l -> List.filter g l = List.filter f l).
  { intros Hn. clear -Hn Hfg. induction l as [|y l IH]; [done|]. apply not_elem_of_cons in Hn as [Hy Hn]. simpl.
    rewrite Hfg by congruence. by rewrite IH. }
  simpl. apply elem_of_cons in Ha as [->|Ha].
  - rewrite Hf, Hg. simpl. by rewrite Hsame.
  - assert (x <> a) by (intros ->; done). rewrite Hfg by done. destruct (f x); simpl; by rewrite IH.
Qed.

Lemma fill_spec s v n :
  gs_wf s -> (n < Capacity)%nat -> passes s v n -> hs_occupied (slot_at s (probe_idx v n)) = false ->
  gs_wf (fill s (probe_idx v n) v) /\ gs_abs (fill s (probe_idx v n) v) = {[v]} ∪ gs_abs s.
Proof using Type*.
  intros Hs Hn Hp Ho. set (i := probe_idx v n) in *. pose proof (probe_lt v n) as Hi. fold i in Hi.
  pose proof (gw_length _ Hs) as Hl.
  assert (Hat : forall j, slot_at (fill s i v) j = if decide (i = j) then mkHSlot true v else slot_at s j)
    by (intros j; apply slot_at_fill; lia).
  assert (Hmono : forall w m, passes s w m -> passes (fill s i v) w m).
  { intros w m Hw k Hk. destruct (Hw k Hk) as [Hok Hvk]. rewrite Hat, decide_False by (intros Heq; rewrite <- Heq in *; congruence). done. }
  split.
  - split.
    + simpl. by rewrite length_insert.
    + simpl. rewrite <- (gw_count _ Hs). apply (filter_flip _ _ _ i).
      * apply NoDup_seq.
      * apply elem_of_seq. lia.
      * done.
      * by rewrite Hat, decide_True.
      * intros j Hj. by rewrite Hat, decide_False.
    + intros j Hj. rewrite Hat. case_decide as Hij.
      * intros _. simpl. exists n. split_and!; [done|done|]. by apply Hmono.
      * intros Hoj. destruct (gw_probe _ Hs j Hj Hoj) as (m & Hm & Hpm & Hpass). eauto.
  - apply set_eq. intros w. rewrite elem_of_union, elem_of_singleton, !elem_of_abs. split.
    + intros (j & Hj & Hoj & <-). rewrite Hat in *. case_decide; [by left|right; eauto].
    + intros [->|(j & Hj & Hoj & <-)]; [exists i|exists j]; rewrite Hat; [by rewrite decide_True|].
      rewrite decide_False by (intros ->; congruence). done.
Qed.

Lemma full_count s v : gs_wf s -> passes s v Capacity -> hs_count s = Capacity.
Proof using Type*.
  intros Hs Hp. rewrite <- (gw_count _ Hs). unfold occupied_idx. rewrite List.forallb_filter_id, length_seq; [done|].
  apply forallb_forall. intros i Hi%in_seq. destruct (probe_onto v i) as (n & Hn & <-); [lia|]. by apply Hp.
Qed.

Lemma free_slot_count s i : gs_wf s -> (i < Capacity)%nat -> hs_occupied (slot_at s i) = false -> (hs_count s < Capacity)%nat.
Proof using Type*.
  intros Hs Hi Ho. rewrite <- (gw_count _ Hs). unfold occupied_idx.
  pose proof (filter_length_le (fun j => hs_occupied (slot_at s j) || (j =? i)%nat) (seq 0 Capacity)) as Hle. rewrite length_seq in Hle.
  enough (length (List.filter (fun j => hs_occupied (slot_at s j) || (j =? i)%nat) (seq 0 Capacity)) =
    S (length (List.filter (fun j => hs_occupied (slot_at s j)) (seq 0 Capacity)))) by lia.
  apply (filter_flip _ _ _ i); [apply NoDup_seq|apply elem_of_seq; lia|done|by rewrite Nat.eqb_refl, orb_true_r|].
  intros j Hj. by rewrite (proj2 (Nat.eqb_neq j i) Hj), orb_false_r.
Qed.

Lemma gs_size s : gs_wf s -> size (gs_abs s) = hs_count s.
Proof using Type*.
  intros Hs. unfold gs_abs. rewrite size_list_to_set, length_fmap; [apply Hs|].
  apply NoDup_fmap_2_strong; [|apply NoDup_ListNoDup, List.NoDup_filter, NoDup_ListNoDup, NoDup_seq].
  intros i j [Hi Hoi]%elem_of_occupied [Hj Hoj]%elem_of_occupied Heq.
  destruct (gw_probe _ Hs i Hi Hoi) as (n & Hn & Hpn & Hpassn). destruct (gw_probe _ Hs j Hj Hoj) as (m & Hm & Hpm & Hpassm).
  rewrite Heq in Hpn, Hpassn.
  destruct (Nat.lt_trichotomy n m) as [Hlt|[->|Hgt]]; [|congruence|].
  - destruct (Hpassm n Hlt) as [_ Hne]. rewrite Hpn in Hne. congruence.
  - destruct (Hpassn m Hgt) as [_ Hne]. rewrite Hpm in Hne. congruence.
Qed.

Lemma gs_size_le s : gs_wf s -> (size (gs_abs s) <= Capacity)%nat.
Proof using Type*.
  intros Hs. rewrite gs_size by done. rewrite <- (gw_count _ Hs). unfold occupied_idx.
  etrans; [apply filter_length_le|]. by rewrite length_seq.
Qed.

(** An insert adds its value, or is refused because the table is full. *)
Lemma insert_from_spec s v n k :
  gs_wf s -> passes s v n -> (n + k = Capacity)%nat ->
  ((insert_from s v n k).2 = true /\ gs_wf (insert_from s v n k).1 /\ gs_abs (insert_from s v n k).1 = {[v]} ∪ gs_abs s) \/
  (insert_from s v n k = (s, false) /\ v ∉ gs_abs s /\ size (gs_abs s) = Capacity).
Proof using Type*.
  intros Hs. revert n. induction k as [|k IH]; intros n Hp Hn; simpl.
  - right. replace n with Capacity in Hp by lia. split_and!; [done| |rewrite gs_size by done; by eapply full_count].
    intros (m & Hm & _ & _ & Hv)%abs_probe; [|done]. by destruct (Hp m Hm).
  - destruct (hs_occupied (slot_at s (probe_idx v n))) eqn:Ho; simpl.
    + destruct (Z.eqb_spec (hs_value (slot_at s (probe_idx v n))) v) as [Hv|Hv].
      * left. split_and!; [done..|]. assert (v ∈ gs_abs s); [|set_solver].
        apply abs_probe; [done|]. exists n. split; [lia|done].
      * apply IH; [by apply passes_S|lia].
    + pose proof (free_slot_count s _ Hs (probe_lt v n) Ho) as Hc. rewrite (proj2 (Nat.leb_gt _ _)) by done. left. simpl.
      destruct (fill_spec s v n) as [Hw Habs]; [done|lia|done..|]. done.
Qed.

Lemma insert_spec s v :
  gs_wf s ->
  ((gs_insert s v).2 = true /\ gs_wf (gs_insert s v).1 /\ gs_abs (gs_insert s v).1 = {[v]} ∪ gs_abs s) \/
  (gs_insert s v = (s, false) /\ v ∉ gs_abs s /\ size (gs_abs s) = Capacity).
Proof using Type*. intros Hs. apply insert_from_spec; [done| |lia]. intros m Hm. lia. Qed.

(** The values of the occupied slots among [idxs]. *)
Definition values_at (s : BoundedHashSetState) (idxs : list nat) : gset Z :=
  list_to_set ((fun i => hs_value (slot_at s i)) <$> List.filter (fun i => hs_occupied (slot_at s i)) idxs).

Lemma values_at_cons s i idxs :
  values_at s (i :: idxs) = (if hs_occupied (slot_at s i) then {[hs_value (slot_at s i)]} else ∅) ∪ values_at s idxs.
Proof using All. unfold values_at. simpl. destruct (hs_occupied _); simpl; set_solver. Qed.

Lemma merge_slots_spec s other idxs :
  gs_wf s ->
  gs_wf (merge_slots s other idxs).1 /\
  (if (merge_slots s other idxs).2 then gs_abs (merge_slots s other idxs).1 = gs_abs s ∪ values_at other idxs
   else (Capacity < size (gs_abs s ∪ values_at other idxs))%nat).
Proof using Type*.
  revert s. induction idxs as [|i idxs IH]; intros s Hs; simpl.
  - split; [done|]. unfold values_at. simpl. set_solver.
  - rewrite values_at_cons. destruct (hs_occupied (slot_at other i)) eqn:Ho.
    + destruct (insert_spec s (hs_value (slot_at other i)) Hs) as [(H1 & H2 & H3)|(H1 & H2 & H3)].
      * destruct (gs_insert s _) as [s' ok]. simpl in *. subst ok. destruct (IH s' H2) as [Hw Hr]. split; [done|].
        rewrite H3 in Hr. replace (gs_abs s ∪ ({[hs_value (slot_at other i)]} ∪ values_at other idxs))
          with ({[hs_value (slot_at other i)]} ∪ gs_abs s ∪ values_at other idxs) by set_solver. done.
      * rewrite H1. simpl. split; [done|].
        assert (Hsub : {[hs_value (slot_at other i)]} ∪ gs_abs s ⊆ gs_abs s ∪ ({[hs_value (slot_at other i)]} ∪ values_at other idxs)) by set_solver.
        apply subseteq_size in Hsub. rewrite size_union, size_singleton in Hsub by set_solver. lia.
    + rewrite (left_id_L ∅ (∪)). by apply IH.
Qed.

Lemma gset_merge_spec a b :
  gs_wf a -> gs_wf b ->
  gs_wf (gset_merge a b).1 /\
  (gset_merge a b).2 = bool_decide (size (gs_abs a ∪ gs_abs b) <= Capacity)%nat /\
  ((gset_merge a b).2 = true -> gs_abs (gset_merge a b).1 = gs_abs a ∪ gs_abs b) /\
  ((gset_merge a b).2 = false -> (gset_merge a b).1 = a).
Proof using Type*.
  intros Ha Hb. split_and!; [| | |apply commit_merge_refused];
    unfold gset_merge, commit_merge, gs_merge_into, gs_well_formed;
    rewrite (gw_count _ Hb : length (List.filter _ _) = _), Nat.eqb_refl; simpl;
    destruct (merge_slots_spec a b (seq 0 Capacity) Ha) as [Hw Hr];
    change (values_at b (seq 0 Capacity)) with (gs_abs b) in Hr;
    destruct (merge_slots a b (seq 0 Capacity)) as [s [|]]; simpl in *; try done.
  - symmetry. apply bool_decide_eq_true. rewrite <- Hr. by apply gs_size_le.
  - symmetry. apply bool_decide_eq_false. lia.
Qed.

Lemma gs_eqb_spec a b : gs_wf a -> gs_wf b -> gs_eqb a b = bool_decide (gs_abs a = gs_abs b).
Proof using Type*.
  intros Ha Hb. unfold gs_eqb. destruct (Nat.eqb_spec (hs_count a) (hs_count b)) as [Hc|Hc]; simpl.
  - apply eq_true_iff_eq. rewrite bool_decide_eq_true, forallb_forall. setoid_rewrite in_seq.
    assert (Hiff : (forall x, (0 <= x < 0 + Capacity)%nat ->
        negb (hs_occupied (slot_at a x) && negb (gs_contains b (hs_value (slot_at a x)))) = true) <-> gs_abs a ⊆ gs_abs b).
    { split.
      - intros H v (i & Hi & Ho & <-)%elem_of_abs. specialize (H i ltac:(lia)). rewrite Ho in H. simpl in H. reflect_bools.
        rewrite contains_spec in H by done. by apply bool_decide_eq_true in H.
      - intros Hsub i Hi. rewrite contains_spec by done. destruct (hs_occupied (slot_at a i)) eqn:Ho; simpl; [|done].
        rewrite bool_decide_eq_true_2; [done|]. apply Hsub, elem_of_abs. exists i. split; [lia|done]. }
    rewrite Hiff. split; [|by intros ->]. intros Hsub. apply set_eq_subseteq. split; [done|].
    rewrite <- gs_size in Hc by done. rewrite <- gs_size in Hc by done.
    destruct (decide (gs_abs b ⊆ gs_abs a)) as [|Hn]; [done|]. exfalso.
    assert (gs_abs a ⊂ gs_abs b) as Hs by done. apply subset_size in Hs. lia.
  - symmetry. apply bool_decide_eq_false. intros Heq. rewrite <- !gs_size, Heq in Hc by done. done.
Qed.

Lemma new_gset_wf : gs_wf new_gset /\ gs_abs new_gset = ∅.
Proof using Type*.
  assert (Hat : forall i, slot_at new_gset i = empty_slot).
  { intros i. unfold slot_at, new_gset. simpl. destruct (replicate Capacity empty_slot !! i) eqn:He; [|done].
    by apply lookup_replicate in He as [-> _]. }
  assert (Hnil : occupied_idx new_gset = []).
  { unfold occupied_idx. induction (seq 0 Capacity) as [|i l IH]; [done|]. simpl. by rewrite Hat. }
  split; [split|].
  - apply length_replicate.
  - by rewrite Hnil.
  - intros i _. by rewrite Hat.
  - unfold gs_abs. by rewrite Hnil.
Qed.

Lemma gset_add_wf s v : gs_wf s -> gs_wf (gset_add s v).1.
Proof using Type*.
  intros Hs. destruct (insert_spec s v Hs) as [(_ & ? & _)|(H & _ & _)]; unfold gset_add; [done|by rewrite H].
Qed.

#[local] Instance GSet_crdt : Crdt BoundedHashSetState (gset Z) Z Z bool := {
  crdt_new := new_gset;
  crdt_wf := gs_wf;
  crdt_abs := gs_abs;
  crdt_join := (∪);
  crdt_update := gset_add;
  crdt_merge := gset_merge;
  crdt_ask := gs_contains;
}.

#[local] Instance GSet_crdt_ok : CrdtOk BoundedHashSetState (gset Z) Z Z bool.
Proof using Type*.
  split; simpl.
  - intros x y. apply (comm_L (∪)).
  - intros x y z. apply (assoc_L (∪)).
  - intros s _. apply (idemp_L (∪)).
  - apply new_gset_wf.
  - intros s v Hs. by apply gset_add_wf.
  - intros s v Hs. unfold gset_add. destruct (insert_spec s v Hs) as [(_ & _ & ->)|(H & _ & _)]; [set_solver|rewrite H; set_solver].
  - intros s v Hs. unfold gset_add. destruct (insert_spec s v Hs) as [(-> & _ & _)|(-> & _ & _)]; done.
  - intros a b Ha Hb. by apply gset_merge_spec.
  - intros a b Ha Hb. by apply gset_merge_spec.
  - intros a b Ha Hb. by apply gset_merge_spec.
  - intros a b v Ha Hb Heq. by rewrite !contains_spec, Heq by done.
Qed.

(** The hash table of a GSet is a set of at most Capacity values: contains
    is membership; an add puts its value in, and is refused exactly when the
    value is new and the set is full; a merge gives the union, and is refused,
    with the set as it was, exactly when the union has more than Capacity
    values; operator== is equality of the sets, wherever the values lie in
    the two tables; size() counts the values and its check never fails. *)
Theorem gset_refines_set a b v :
  gs_wf a -> gs_wf b ->
  gs_contains a v = bool_decide (v ∈ gs_abs a) /\
  gs_wf (gset_add a v).1 /\
  (if (gset_add a v).2 then gs_abs (gset_add a v).1 = {[v]} ∪ gs_abs a
   else (gset_add a v).1 = a /\ v ∉ gs_abs a /\ size (gs_abs a) = Capacity) /\
  gs_wf (gset_merge a b).1 /\
  (gset_merge a b).2 = bool_decide (size (gs_abs a ∪ gs_abs b) <= Capacity)%nat /\
  (if (gset_merge a b).2 then gs_abs (gset_merge a b).1 = gs_abs a ∪ gs_abs b else (gset_merge a b).1 = a) /\
  gs_eqb a b = bool_decide (gs_abs a = gs_abs b) /\
  gset_size a = Ok (size (gs_abs a)).
Proof using Type*.
  intros Ha Hb. destruct (gset_merge_spec a b Ha Hb) as (H1 & H2 & H3 & H4). unfold gset_add.
  split; [by apply contains_spec|]. split; [|split; [|split; [done|split; [done|split; [|split; [by apply gs_eqb_spec|]]]]]].
  - by apply gset_add_wf.
  - destruct (insert_spec a v Ha) as [(-> & _ & ?)|(-> & ? & ?)]; done.
  - destruct (gset_merge a b).2; auto.
  - unfold gset_size, crdt_count. pose proof (gs_size_le a Ha) as Hle. rewrite gs_size in Hle |- * by done.
    by rewrite (proj2 (Nat.leb_le _ _) Hle).
Qed.
End GSets.

(** Two sets of two values each, one in common, with room for three. *)
Definition gs_a : BoundedHashSetState := (gset_add 3 (gset_add 3 (new_gset 3) 5).1 9).1.
Definition gs_b : BoundedHashSetState := (gset_add 3 (gset_add 3 (new_gset 3) 9).1 12).1.

Lemma gs_a_wf : gs_wf 3 gs_a.
Proof. do 2 (apply gset_add_wf; [lia|]). apply new_gset_wf. lia. Qed.

Lemma gs_b_wf : gs_wf 3 gs_b.
Proof. do 2 (apply gset_add_wf; [lia|]). apply new_gset_wf. lia. Qed.

Lemma gset_refines_set_witness :
  gs_contains 3 gs_a 5 = true /\ (gset_merge 3 gs_a gs_b).2 = true /\
  gs_abs 3 (gset_merge 3 gs_a gs_b).1 = {[5; 9; 12]} /\ gs_eqb 3 gs_a gs_b = false.
Proof.
  assert (H3 : (0 < 3)%nat) by lia.
  destruct (gset_refines_set 3 H3 gs_a gs_b 5 gs_a_wf gs_b_wf) as (_ & _ & _ & _ & H1 & H2 & _).
  split; [vm_compute; reflexivity|]. split; [rewrite H1; vm_compute; reflexivity|]. split; [|vm_compute; reflexivity].
  vm_compute. reflexivity.
Defined.
