(* ===== verification/CrdtMv.v ===== *)
(** * CrdtMv.v: the multi-value register (include/crucible/canopy/Crdt.h)

    MVRegister<V, MaxVersions, MaxNodes> at an integer value: the versions
    that no other version's clock dominates, in a canonical order. *)

From stdpp Require Import base list gmap sets sorting.
From Stdlib Require Import ZArith Lia.
From S2P Require Import Prelude.
From S2P Require Import Clocks.
From S2P Require Import VectorClock.
From S2P Require Import Crdt.
#[local] Open Scope Z_scope.

(** MVRegisterVersion: the value and its clock. *)
Abbreviation version := (Z * list Z)%type.

Record MVRegisterState := mkMv { mv_versions : list version; mv_count : nat }.

Section MvRegisters.
Context (MaxVersions MaxNodes : nat).

Definition no_version : version := (0, new_snapshot MaxNodes).
Definition new_mv : MVRegisterState := mkMv (replicate MaxVersions no_version) 0.

Definition mv_well_formed (s : MVRegisterState) : bool := (mv_count s <=? MaxVersions)%nat.

Definition version_at (a : list version) (i : nat) : version := default no_version (a !! i).

Definition same_version_ (a b : version) : bool := (a.1 =? b.1) && snapshot_eqb MaxNodes a.2 b.2.

Fixpoint clock_less_from (a b : list Z) (idxs : list nat) : bool :=
  match idxs with
  | [] => false
  | i :: idxs =>
      if negb (entry a i =? entry b i) then entry a i <? entry b i
      else clock_less_from a b idxs
  end.

Definition clock_less_ (a b : version) : bool := clock_less_from a.2 b.2 (seq 0 MaxNodes).

Definition version_less_ (a b : version) : bool :=
  if clock_less_ a b then true
  else if clock_less_ b a then false
  else a.1 <? b.1.

(** The inner loop of canonicalize_: versions above [key] move up by one, and
    the key takes the free place. *)
Fixpoint shift_down (key : version) (a : list version) (j : nat) : list version :=
  match j with
  | O => <[0%nat := key]> a
  | S j' =>
      if version_less_ key (version_at a j') then shift_down key (<[S j' := version_at a j']> a) j'
      else <[S j' := key]> a
  end.

Definition canonicalize_ (s : MVRegisterState) : MVRegisterState :=
  mkMv (fold_left (fun a i => shift_down (version_at a i) a i) (seq 1 (mv_count s - 1)) (mv_versions s)) (mv_count s).

(** The versions that the loop of insert_version_into_ keeps, or nothing when
    it returns early because the incoming version brings nothing new. *)
Fixpoint kept_versions (l : list version) (incoming : version) : option (list version) :=
  match l with
  | [] => Some []
  | existing :: l =>
      if same_version_ existing incoming then None
      else if happens_before MaxNodes incoming.2 existing.2 then None
      else
        kept ← kept_versions l incoming;
        Some (if negb (happens_before MaxNodes existing.2 incoming.2) then existing :: kept else kept)
  end.

(** An array that holds [l] and default versions behind it. *)
Definition padded (l : list version) : list version := l ++ replicate (MaxVersions - length l) no_version.

Definition live_versions (s : MVRegisterState) : list version := take (mv_count s) (mv_versions s).

Definition insert_version_into_ (s : MVRegisterState) (incoming : version) : MVRegisterState * bool :=
  if negb (mv_well_formed s) then (s, false)
  else
    match kept_versions (live_versions s) incoming with
    | None => (s, true)
    | Some kept =>
        if (MaxVersions <=? length kept)%nat then (s, false)
        else (canonicalize_ (mkMv (padded (kept ++ [incoming])) (S (length kept))), true)
    end.

Fixpoint insert_each (target : MVRegisterState) (l : list version) : MVRegisterState * bool :=
  match l with
  | [] => (target, true)
  | x :: l =>
      let '(target, ok) := insert_version_into_ target x in
      if ok then insert_each target l else (target, false)
  end.

Definition mv_merge_state_into_ (target other : MVRegisterState) : MVRegisterState * bool :=
  if negb (mv_well_formed other) then (target, false) else insert_each target (live_versions other).

Definition mv_assign (s : MVRegisterState) (x : version) : MVRegisterState * bool := insert_version_into_ s x.
Definition mv_merge (s other : MVRegisterState) : MVRegisterState * bool := commit_merge s other mv_merge_state_into_.
Definition mv_merge_states (a b : MVRegisterState) : MVRegisterState :=
  if mv_well_formed a then (commit_merge a b mv_merge_state_into_).1 else a.

Definition mv_size (s : MVRegisterState) : result nat := crdt_count MaxVersions (mv_count s).

(** ** The canonical order *)

Fixpoint lex_lt (l k : list Z) : bool :=
  match l, k with
  | x :: l, y :: k => if x =? y then lex_lt l k else x <? y
  | _, _ => false
  end.

Definition version_key (x : version) : list Z := (entry x.2 <$> seq 0 MaxNodes) ++ [x.1].

Lemma lex_lt_irrefl l : lex_lt l l = false.
Proof. induction l; simpl; [done|]. by rewrite Z.eqb_refl. Qed.

Lemma lex_lt_asym l k : lex_lt l k = true -> lex_lt k l = false.
Proof.
  revert k. induction l as [|x l IH]; intros [|y k]; simpl; try done. rewrite (Z.eqb_sym y x).
  destruct (Z.eqb_spec x y); [apply IH|]. intros. reflect_bools. apply Z.ltb_ge. lia.
Qed.

Lemma lex_lt_total l k : length l = length k -> lex_lt l k = false -> lex_lt k l = false -> l = k.
Proof.
  revert k. induction l as [|x l IH]; intros [|y k] Hl; simpl in *; try lia; [done|]. rewrite (Z.eqb_sym y x).
  destruct (Z.eqb_spec x y) as [->|]; [|intros; reflect_bools; lia]. intros H1 H2. f_equal. apply IH; auto.
Qed.

(** Not after: the order that a sorted array has. *)
Lemma lex_nle_trans l k m :
  length l = length k -> length k = length m -> lex_lt k l = false -> lex_lt m k = false -> lex_lt m l = false.
Proof.
  revert k m. induction l as [|x l IH]; intros [|y k] [|z m] H1 H2; simpl in *; try lia; try done.
  destruct (Z.eqb_spec y x), (Z.eqb_spec z y), (Z.eqb_spec z x); intros; reflect_bools; subst; try lia;
    try (apply Z.ltb_ge; lia); eauto.
Qed.

Lemma lex_lt_app l k l' k' :
  length l = length k -> lex_lt (l ++ l') (k ++ k') = if lex_lt l k then true else if lex_lt k l then false else lex_lt l' k'.
Proof.
  revert k. induction l as [|x l IH]; intros [|y k] H; simpl in *; try lia; [done|]. rewrite (Z.eqb_sym y x).
  destruct (Z.eqb_spec x y); [apply IH; lia|]. destruct (Z.ltb_spec x y), (Z.ltb_spec y x); lia || done.
Qed.

Lemma version_less_key a b : version_less_ a b = lex_lt (version_key a) (version_key b).
Proof.
  assert (H : forall x y : version, clock_less_ x y = lex_lt (entry x.2 <$> seq 0 MaxNodes) (entry y.2 <$> seq 0 MaxNodes)).
  { intros x y. unfold clock_less_. induction (seq 0 MaxNodes) as [|i l IH]; [done|]. simpl.
    destruct (entry x.2 i =? entry y.2 i); [apply IH|done]. }
  unfold version_less_, version_key. rewrite lex_lt_app by by rewrite !length_fmap. rewrite !H. simpl.
  destruct (Z.eqb_spec a.1 b.1) as [->|]; [by rewrite Z.ltb_irrefl|done].
Qed.

Definition not_after (a b : version) : Prop := version_less_ b a = false.

Lemma version_key_length a : length (version_key a) = S MaxNodes.
Proof. unfold version_key. rewrite length_app, length_fmap, length_seq. simpl. lia. Qed.

#[local] Instance not_after_trans : Transitive not_after.
Proof.
  intros a b c. unfold not_after. rewrite !version_less_key. apply lex_nle_trans; by rewrite !version_key_length.
Qed.

Lemma less_not_after a b : version_less_ a b = true -> not_after a b.
Proof. unfold not_after. rewrite !version_less_key. apply lex_lt_asym. Qed.

(** Versions whose clocks have MaxNodes counts. *)
Definition version_wf (x : version) : Prop := length x.2 = MaxNodes.

Lemma not_after_antisymm a b : version_wf a -> version_wf b -> not_after a b -> not_after b a -> a = b.
Proof.
  unfold not_after, version_wf. rewrite !version_less_key. destruct a as [v c], b as [w d]. simpl. intros Hc Hd H1 H2.
  assert (Hk : version_key (v, c) = version_key (w, d)) by (apply lex_lt_total; [by rewrite !version_key_length|done..]).
  unfold version_key in Hk. simpl in Hk. apply app_inj_tail in Hk as [Hk ->]. f_equal. apply (entries_eq MaxNodes); [done..|].
  intros i Hi. apply (f_equal (fun l => l !! i)) in Hk. rewrite !list_lookup_fmap, lookup_seq_lt in Hk by done. by injection Hk.
Qed.

(** The key ends behind the last version that is not above it. *)
Lemma shift_down_spec key a j :
  (j < length a)%nat ->
  exists l r, take j a = l ++ r /\ shift_down key a j = (l ++ key :: r) ++ drop (S j) a /\
    Forall (fun x => version_less_ key x = true) r /\ (forall x, last l = Some x -> version_less_ key x = false).
Proof.
  revert a. induction j as [|j IH]; intros a Hj; simpl.
  - exists [], []. split; [done|]. destruct a as [|y a]; [simpl in Hj; lia|]. simpl. by rewrite drop_0.
  - destruct (lookup_lt_is_Some_2 a j) as [x Hx]; [lia|]. assert (Hat : version_at a j = x) by (unfold version_at; by rewrite Hx).
    rewrite Hat, (take_S_r _ _ _ Hx). destruct (version_less_ key x) eqn:Hless.
    + destruct (IH (<[S j := x]> a)) as (l & r & Ht & Hs & Hr & Hl); [rewrite length_insert; lia|].
      exists l, (r ++ [x]). rewrite Hs. rewrite take_insert_ge in Ht by lia. split_and!.
      * by rewrite Ht, (assoc_L (++)).
      * rewrite (drop_S _ x (S j)) by by apply list_lookup_insert_eq. rewrite drop_insert_lt by lia.
        rewrite <- !(assoc_L (++)). simpl. by rewrite <- (assoc_L (++)).
      * apply Forall_app. auto.
      * done.
    + exists (take j a ++ [x]), []. rewrite app_nil_r. split; [done|]. split_and!; [|done|].
      * rewrite insert_take_drop by done. rewrite (take_S_r _ _ _ Hx). by rewrite <- !(assoc_L (++)).
      * intros y. rewrite last_snoc. by intros [= <-].
Qed.

Abbreviation sorted_versions := (StronglySorted not_after).

Lemma insert_sorted l key r :
  sorted_versions (l ++ r) -> Forall (fun x => version_less_ key x = true) r ->
  (forall x, last l = Some x -> version_less_ key x = false) -> sorted_versions (l ++ key :: r).
Proof.
  intros Hs Hr Hl. apply StronglySorted_app in Hs as (Hlr & Hsl & Hsr).
  assert (Hlk : forall x, x ∈ l -> not_after x key).
  { destruct (last l) as [y|] eqn:Hlast; [|apply last_None in Hlast; subst; intros x Hx; set_solver].
    assert (Hy : not_after y key) by by apply Hl. apply last_Some in Hlast as [l' ->].
    intros x [Hx|Hx]%elem_of_app; [|apply list_elem_of_singleton in Hx as ->; done].
    apply (not_after_trans x y key); [|done]. apply (StronglySorted_app_1_elem_of _ l' [y]); [done..|set_solver]. }
  rewrite Forall_forall in Hr. apply StronglySorted_app. split_and!; [|done|].
  - intros x y Hx [->|Hy]%elem_of_cons; [by apply Hlk|by apply Hlr].
  - apply StronglySorted_cons. split; [|done]. apply Forall_forall. intros x Hx. by apply less_not_after, Hr.
Qed.

Lemma canonicalize_spec s :
  (mv_count s <= length (mv_versions s))%nat ->
  length (mv_versions (canonicalize_ s)) = length (mv_versions s) /\
  Permutation (live_versions (canonicalize_ s)) (live_versions s) /\ sorted_versions (live_versions (canonicalize_ s)).
Proof.
  intros Hc. unfold canonicalize_, live_versions. simpl.
  assert (H : forall k, (k < length (mv_versions s))%nat ->
    let a := fold_left (fun a i => shift_down (version_at a i) a i) (seq 1 k) (mv_versions s) in
    length a = length (mv_versions s) /\ Permutation (take (S k) a) (take (S k) (mv_versions s)) /\
    sorted_versions (take (S k) a) /\ drop (S k) a = drop (S k) (mv_versions s)).
  { induction k as [|k IH]; intros Hk a.
    - subst a. simpl. split_and!; [done..| |done]. destruct (mv_versions s); simpl; [constructor|]. rewrite take_0. by repeat constructor.
    - subst a. destruct IH as (Hl & Hp & Hs & Hd); [lia|]. rewrite seq_S, fold_left_app. cbn [fold_left]. change (1 + k)%nat with (S k).
      set (a := fold_left _ (seq 1 k) _) in *.
      destruct (lookup_lt_is_Some_2 a (S k)) as [x Hx]; [lia|]. assert (Hat : version_at a (S k) = x) by (unfold version_at; by rewrite Hx).
      rewrite Hat. destruct (shift_down_spec x a (S k)) as (l & r & Ht & -> & Hr & Hlast); [lia|].
      assert (Hlen : length (l ++ x :: r) = S (S k)).
      { apply (f_equal length) in Ht. rewrite length_take, length_app in Ht. rewrite length_app. simpl. lia. }
      assert (Hx' : mv_versions s !! S k = Some x).
      { rewrite <- (Nat.add_0_r (S k)), <- lookup_drop, <- Hd, lookup_drop, Nat.add_0_r. done. }
      rewrite <- Hlen, take_app_length, drop_app_length. split_and!.
      + rewrite length_app, Hlen, length_drop. lia.
      + rewrite Hlen, (take_S_r _ _ _ Hx'), <- Hp, Ht. by rewrite <- Permutation_middle, Permutation_cons_append.
      + apply insert_sorted; [by rewrite <- Ht|done..].
      + rewrite Hlen. apply (f_equal (drop 1)) in Hd. rewrite !drop_drop in Hd. by rewrite !Nat.add_1_r in Hd. }
  destruct (mv_count s) as [|n]; simpl; [split_and!; [done..|constructor]|]. rewrite Nat.sub_0_r.
  destruct (H n) as (Hl & Hp & Hs & _); [lia|]. done.
Qed.

(** ** The versions as a set *)

(** The clock of a version is before that of another one. *)
Definition hb (x y : version) : Prop := happens_before MaxNodes x.2 y.2 = true.

#[local] Instance hb_dec x y : Decision (hb x y).
Proof. unfold hb. apply _. Defined.

#[local] Instance hb_strict : StrictOrder hb.
Proof.
  split.
  - intros x. unfold complement, hb, happens_before. rewrite (proj2 (snapshot_eqb_spec MaxNodes x.2 x.2)) by done.
    by rewrite andb_false_r.
  - intros x y z. apply (happens_before_trans MaxNodes).
Qed.

(** The versions of a set that no other one is after. *)
Definition maximal (X : gset version) : gset version := filter (fun x => set_Forall (fun y => ~ hb x y) X) X.

Definition mv_join (X Y : gset version) : gset version := maximal (X ∪ Y).

Lemma elem_of_maximal X x : x ∈ maximal X <-> x ∈ X /\ forall y, y ∈ X -> ~ hb x y.
Proof. unfold maximal. rewrite elem_of_filter. unfold set_Forall. naive_solver. Qed.

(** Each version is maximal or is before a maximal one. *)
Lemma maximal_above X y : y ∈ X -> exists z, z ∈ maximal X /\ (z = y \/ hb y z).
Proof.
  intros Hy. set (Y := filter (fun z => z = y \/ hb y z) X : gset version).
  assert (Hne : Y <> ∅) by (intros He; assert (y ∈ Y) by (apply elem_of_filter; auto); set_solver).
  destruct (minimal_exists_elem_of_L (flip hb) Y Hne) as (z & Hz & Hmin).
  apply elem_of_filter in Hz as [Hyz Hz]. exists z. split; [|done]. apply elem_of_maximal. split; [done|].
  intros w Hw Hzw. assert (HwY : w ∈ Y).
  { apply elem_of_filter. split; [|done]. right. destruct Hyz as [->|Hyz]; [done|by etrans]. }
  destruct (irreflexivity hb z). transitivity w; [done|]. by apply (Hmin w HwY).
Qed.

Lemma maximal_union_l X Y : maximal (maximal X ∪ Y) = maximal (X ∪ Y).
Proof.
  apply set_eq. intros x. rewrite !elem_of_maximal. setoid_rewrite elem_of_union. split.
  - intros [Hx Hd]. split; [rewrite elem_of_maximal in Hx; tauto|]. intros y [Hy|Hy] Hxy; [|by apply (Hd y); auto].
    destruct (maximal_above X y Hy) as (z & Hz & Hyz). apply (Hd z); [by left|]. destruct Hyz as [->|Hyz]; [done|by etrans].
  - intros [Hx Hd]. split.
    + destruct Hx as [Hx|Hx]; [left|by right]. apply elem_of_maximal. split; [done|]. intros y Hy. apply Hd. auto.
    + intros y [Hy|Hy]; apply Hd; [|auto]. apply elem_of_maximal in Hy as [Hy _]. auto.
Qed.

#[local] Instance mv_join_comm : Comm (=) mv_join.
Proof. intros X Y. unfold mv_join. by rewrite (comm_L (∪)). Qed.

#[local] Instance mv_join_assoc : Assoc (=) mv_join.
Proof.
  intros X Y Z. unfold mv_join. rewrite maximal_union_l, (comm_L (∪) X (maximal _)), maximal_union_l. f_equal. set_solver.
Qed.

Definition antichain (X : gset version) : Prop := forall x y, x ∈ X -> y ∈ X -> ~ hb x y.

Lemma maximal_antichain X : antichain X -> maximal X = X.
Proof. intros HX. apply set_eq. intros x. rewrite elem_of_maximal. split; [tauto|]. intros Hx. split; [done|]. intros y Hy. by apply HX. Qed.

(** ** The state of a register *)

Definition mv_abs (s : MVRegisterState) : gset version := list_to_set (live_versions s).

Record mv_wf (s : MVRegisterState) : Prop := {
  mw_length : length (mv_versions s) = MaxVersions;
  mw_count : (mv_count s <= MaxVersions)%nat;
  mw_versions : Forall version_wf (live_versions s);
  mw_distinct : NoDup (live_versions s);
  mw_sorted : sorted_versions (live_versions s);
  mw_antichain : antichain (mv_abs s);
}.

Lemma same_version_eq x y : version_wf x -> version_wf y -> same_version_ x y = true <-> x = y.
Proof.
  destruct x as [v c], y as [w d]. unfold version_wf, same_version_. simpl. intros Hc Hd.
  rewrite andb_true_iff, Z.eqb_eq, snapshot_eqb_spec. split; [|by intros [= -> ->]].
  intros [-> He]. f_equal. by apply (entries_eq MaxNodes).
Qed.

(** What the loop keeps, and when it returns early. *)
Lemma kept_versions_spec l x :
  Forall version_wf l -> version_wf x ->
  match kept_versions l x with
  | None => x ∈ l \/ exists y, y ∈ l /\ hb x y
  | Some kept => x ∉ l /\ (forall y, y ∈ l -> ~ hb x y) /\ kept = filter (fun y => ~ hb y x) l
  end.
Proof.
  intros Hl Hx. induction Hl as [|e l He Hl IH]; simpl.
  - split_and!; [apply not_elem_of_nil|intros y Hy; by apply not_elem_of_nil in Hy|done].
  - destruct (same_version_ e x) eqn:Hs; [apply same_version_eq in Hs as ->; [left; by left|done..]|].
    destruct (happens_before MaxNodes x.2 e.2) eqn:Hb; [right; exists e; split; [by left|done]|].
    assert (Hne : x <> e) by (intros ->; rewrite (proj2 (same_version_eq e e He He)) in Hs; done).
    destruct (kept_versions l x) as [kept|]; simpl.
    + destruct IH as (Hn & Hd & ->). split_and!.
      * by apply not_elem_of_cons.
      * intros y [->|Hy]%elem_of_cons; [unfold hb; congruence|by apply Hd].
      * rewrite filter_cons. destruct (decide (hb e x)) as [Hh|Hh]; pose proof Hh as Hh'; unfold hb in Hh'.
        -- rewrite Hh'. by rewrite decide_False by tauto.
        -- apply not_true_is_false in Hh'. rewrite Hh'. by rewrite decide_True.
    + destruct IH as [Hin|(y & Hy & Hhb)]; [left; by right|right; exists y; split; [by right|done]].
Qed.

(** The set after a version is inserted. *)
Lemma insert_version_abs X x kept :
  antichain X -> x ∉ X -> (forall y, y ∈ X -> ~ hb x y) -> (forall y, y ∈ kept <-> y ∈ X /\ ~ hb y x) ->
  {[x]} ∪ kept = mv_join X {[x]}.
Proof.
  intros HX Hn Hd Hk. apply set_eq. intros z. unfold mv_join.
  rewrite elem_of_maximal, !elem_of_union, elem_of_singleton, Hk. setoid_rewrite elem_of_union. setoid_rewrite elem_of_singleton. split.
  - intros [->|[Hz Hzx]].
    + split; [by right|]. intros y [Hy| ->]; [by apply Hd|apply irreflexivity, _].
    + split; [by left|]. intros y [Hy| ->]; [by apply HX|done].
  - intros [[Hz| ->] Hm]; [right|by left]. split; [done|]. apply Hm. by right.
Qed.

Lemma insert_nothing_abs X x : antichain X -> x ∈ X \/ (exists y, y ∈ X /\ hb x y) -> mv_join X {[x]} = X.
Proof.
  intros HX Hx. apply set_eq. intros z. unfold mv_join. rewrite elem_of_maximal, elem_of_union, elem_of_singleton.
  setoid_rewrite elem_of_union. setoid_rewrite elem_of_singleton. split.
  - intros [[Hz| ->] Hm]; [done|]. destruct Hx as [Hx|(y & Hy & Hxy)]; [done|]. destruct (Hm y); auto.
  - intros Hz. split; [by left|]. intros y [Hy| ->]; [by apply HX|]. intros Hzx.
    destruct Hx as [Hx|(y & Hy & Hxy)]; [by apply (HX z x)|]. apply (HX z y); [done..|by etrans].
Qed.

Lemma maximal_is_antichain X : antichain (maximal X).
Proof. intros x y [_ Hx]%elem_of_maximal [Hy _]%elem_of_maximal. by apply Hx. Qed.

Lemma elem_of_mv_abs s x : x ∈ mv_abs s <-> x ∈ live_versions s.
Proof. apply elem_of_list_to_set. Qed.

(** A new state from the kept versions and the incoming one. *)
Lemma rebuild_spec s kept x :
  mv_wf s -> version_wf x -> x ∉ live_versions s -> (forall y, y ∈ live_versions s -> ~ hb x y) ->
  kept = filter (fun y => ~ hb y x) (live_versions s) -> (length kept < MaxVersions)%nat ->
  let s' := canonicalize_ (mkMv (padded (kept ++ [x])) (S (length kept))) in
  mv_wf s' /\ mv_abs s' = mv_join (mv_abs s) {[x]}.
Proof.
  intros Hs Hx Hn Hd Hk Hlen s'. set (s0 := mkMv (padded (kept ++ [x])) (S (length kept))) in *.
  assert (Hl0 : length (mv_versions s0) = MaxVersions).
  { simpl. unfold padded. rewrite length_app, length_replicate, length_app. simpl. lia. }
  assert (Hlive : live_versions s0 = kept ++ [x]).
  { unfold live_versions. simpl. unfold padded. apply take_app_length'. rewrite length_app. simpl. lia. }
  destruct (canonicalize_spec s0) as (Hl & Hp & Hsort); [simpl in *; lia|]. rewrite Hlive in Hp. fold s' in Hl, Hp, Hsort.
  assert (Hkin : forall y, y ∈ kept <-> y ∈ live_versions s /\ ~ hb y x) by (intros y; rewrite Hk, list_elem_of_filter; tauto).
  assert (Habs : mv_abs s' = mv_join (mv_abs s) {[x]}).
  { rewrite <- (insert_version_abs (mv_abs s) x (list_to_set kept)).
    - unfold mv_abs. rewrite Hp, list_to_set_app_L. simpl. set_solver.
    - apply Hs.
    - by rewrite elem_of_mv_abs.
    - intros y. rewrite elem_of_mv_abs. apply Hd.
    - intros y. rewrite elem_of_list_to_set, elem_of_mv_abs. apply Hkin. }
  split; [|done]. split.
  - lia.
  - simpl. lia.
  - rewrite Hp. apply Forall_app. split; [|by apply Forall_singleton]. apply Forall_forall. intros y [Hy _]%Hkin.
    by apply (proj1 (Forall_forall _ _) (mw_versions _ Hs)).
  - rewrite Hp. apply NoDup_app. split_and!.
    + rewrite Hk. apply NoDup_filter, Hs.
    + intros y [Hy _]%Hkin Hyx. apply list_elem_of_singleton in Hyx as ->. done.
    + apply NoDup_singleton.
  - done.
  - rewrite Habs. apply maximal_is_antichain.
Qed.

Lemma insert_version_spec s x :
  mv_wf s -> version_wf x ->
  mv_wf (insert_version_into_ s x).1 /\
  ((insert_version_into_ s x).2 = true -> mv_abs (insert_version_into_ s x).1 = mv_join (mv_abs s) {[x]}) /\
  ((insert_version_into_ s x).2 = false -> (insert_version_into_ s x).1 = s).
Proof.
  intros Hs Hx. unfold insert_version_into_, mv_well_formed. rewrite (proj2 (Nat.leb_le _ _) (mw_count _ Hs)). simpl.
  pose proof (kept_versions_spec (live_versions s) x (mw_versions _ Hs) Hx) as Hk.
  destruct (kept_versions (live_versions s) x) as [kept|]; simpl.
  - destruct Hk as (Hn & Hd & Hk). destruct (Nat.leb_spec MaxVersions (length kept)) as [|Hlt]; simpl; [done|].
    destruct (rebuild_spec s kept x Hs Hx Hn Hd Hk Hlt) as [Hw Habs]. done.
  - split_and!; [done| |done]. intros _. symmetry. apply insert_nothing_abs; [apply Hs|].
    destruct Hk as [Hin|(y & Hy & Hxy)]; [left|right; exists y; split; [|done]]; by rewrite elem_of_mv_abs.
Qed.

Lemma mv_join_abs_idem s : mv_wf s -> mv_join (mv_abs s) (mv_abs s) = mv_abs s.
Proof. intros Hs. unfold mv_join. rewrite (idemp_L (∪)). apply maximal_antichain, Hs. Qed.

Lemma insert_each_spec s l :
  mv_wf s -> Forall version_wf l ->
  mv_wf (insert_each s l).1 /\
  ((insert_each s l).2 = true -> mv_abs (insert_each s l).1 = mv_join (mv_abs s) (list_to_set l)).
Proof.
  intros Hs Hl. revert s Hs. induction Hl as [|x l Hx Hl IH]; intros s Hs; simpl.
  - split; [done|]. intros _. unfold mv_join. rewrite (right_id_L ∅ (∪)). symmetry. apply maximal_antichain, Hs.
  - destruct (insert_version_spec s x Hs Hx) as (Hw & Hok & _). destruct (insert_version_into_ s x) as [s' [|]]; simpl in *; [|done].
    destruct (IH s' Hw) as [Hw' Habs]. split; [done|]. intros Hr. rewrite (Habs Hr), Hok by done.
    unfold mv_join. rewrite maximal_union_l. f_equal. set_solver.
Qed.

Lemma mv_merge_spec a b :
  mv_wf a -> mv_wf b ->
  mv_wf (mv_merge a b).1 /\ ((mv_merge a b).2 = true -> mv_abs (mv_merge a b).1 = mv_join (mv_abs a) (mv_abs b)).
Proof.
  intros Ha Hb. unfold mv_merge, commit_merge, mv_merge_state_into_, mv_well_formed.
  rewrite (proj2 (Nat.leb_le _ _) (mw_count _ Hb)). simpl.
  destruct (insert_each_spec a (live_versions b) Ha (mw_versions _ Hb)) as [Hw Habs].
  destruct (insert_each a (live_versions b)) as [s [|]]; simpl in *; [auto|done].
Qed.

(** Equal sets of versions lie in equal arrays. *)
Lemma live_versions_unique a b : mv_wf a -> mv_wf b -> mv_abs a = mv_abs b -> live_versions a = live_versions b.
Proof.
  intros Ha Hb Heq. apply (StronglySorted_unique_strong not_after).
  - intros x y Hx Hy. apply not_after_antisymm; [apply (Forall_forall version_wf (live_versions a))|apply (Forall_forall version_wf (live_versions b))]; try done;
      [apply Ha|apply Hb].
  - apply Ha.
  - apply Hb.
  - apply NoDup_Permutation; [apply Ha|apply Hb|]. intros x. by rewrite <- !elem_of_mv_abs, Heq.
Qed.

(** A caller's write: a value at the counts of the writer's clock. *)
Definition mv_write (s : MVRegisterState) (u : Z * VectorClock) : MVRegisterState * bool :=
  mv_assign s (u.1, snapshot MaxNodes u.2).

Lemma snapshot_version_wf v c : version_wf (v, snapshot MaxNodes c).
Proof. unfold version_wf, snapshot. simpl. by rewrite length_fmap, length_seq. Qed.

Lemma new_mv_wf : mv_wf new_mv.
Proof. split; unfold mv_abs, live_versions; simpl; [apply length_replicate|lia|constructor..|]. intros x y Hx. set_solver. Qed.

#[local] Instance Mv_crdt : Crdt MVRegisterState (gset version) (Z * VectorClock) unit (list version) := {
  crdt_new := new_mv;
  crdt_wf := mv_wf;
  crdt_abs := mv_abs;
  crdt_join := mv_join;
  crdt_update := mv_write;
  crdt_merge := mv_merge;
  crdt_ask s _ := live_versions s;
}.

#[local] Instance Mv_crdt_ok : CrdtOk MVRegisterState (gset version) (Z * VectorClock) unit (list version).
Proof.
  split; simpl.
  - apply _.
  - apply _.
  - intros s Hs. by apply mv_join_abs_idem.
  - apply new_mv_wf.
  - intros s [v c] Hs. by apply insert_version_spec, snapshot_version_wf.
  - intros s [v c] Hs. unfold mv_write, mv_assign. simpl.
    destruct (insert_version_spec s (v, snapshot MaxNodes c) Hs (snapshot_version_wf v c)) as (_ & Hok & Hno).
    destruct (insert_version_into_ _ _) as [s' [|]]; simpl in *.
    + by rewrite Hok, (assoc mv_join), mv_join_abs_idem by done.
    + rewrite Hno by done. by apply mv_join_abs_idem.
  - intros s [v c] Hs. by apply insert_version_spec, snapshot_version_wf.
  - intros a b Ha Hb. by apply mv_merge_spec.
  - intros a b Ha Hb. by apply mv_merge_spec.
  - intros a b _ _. apply commit_merge_refused.
  - intros a b _ Ha Hb. by apply live_versions_unique.
Qed.

(** C26: the multi-value register.  After a merge that takes effect the register
    holds exactly the versions of the two states that no version of either
    comes after, and merging the other way round gives the same array of
    versions, element by element.  A write that takes effect is in the
    register, unless a version that is there comes after it. *)
Theorem mvregister_keeps_maximal a b x :
  mv_wf a -> mv_wf b -> version_wf x ->
  ((mv_merge a b).2 = true -> forall y,
     y ∈ live_versions (mv_merge a b).1 <->
     (y ∈ live_versions a \/ y ∈ live_versions b) /\
     forall z, z ∈ live_versions a \/ z ∈ live_versions b -> happens_before MaxNodes y.2 z.2 = false) /\
  ((mv_merge a b).2 = true -> (mv_merge b a).2 = true -> live_versions (mv_merge a b).1 = live_versions (mv_merge b a).1) /\
  ((mv_assign a x).2 = true ->
     x ∈ live_versions (mv_assign a x).1 \/ exists y, y ∈ live_versions a /\ happens_before MaxNodes x.2 y.2 = true).
Proof.
  intros Ha Hb Hx. destruct (mv_merge_spec a b Ha Hb) as [Hw Hok]. destruct (mv_merge_spec b a Hb Ha) as [Hw' Hok']. split_and!.
  - intros Hr y. rewrite <- elem_of_mv_abs, Hok by done. unfold mv_join. rewrite elem_of_maximal, elem_of_union, !elem_of_mv_abs.
    setoid_rewrite elem_of_union. setoid_rewrite elem_of_mv_abs. unfold hb. by setoid_rewrite not_true_iff_false.
  - intros Hr Hr'. apply live_versions_unique; [done..|]. by rewrite Hok, Hok', (comm mv_join).
  - intros Hr. destruct (insert_version_spec a x Ha Hx) as (_ & Habs & _). unfold mv_assign in *.
    rewrite <- elem_of_mv_abs, Habs by done. unfold mv_join. rewrite elem_of_maximal.
    destruct (decide (exists y, y ∈ mv_abs a /\ hb x y)) as [(y & Hy & Hxy)|Hno]; [right; exists y; by rewrite <- elem_of_mv_abs|left].
    split; [set_solver|]. intros y [Hy|Hy]%elem_of_union Hxy; [by apply Hno; eauto|].
    apply elem_of_singleton in Hy as ->. by apply (irreflexivity hb x).
Qed.
End MvRegisters.

(** Two writers that have not seen each other, and a third one that has seen
    the first. *)
Definition mv_a : MVRegisterState := mkMv [(5, [1; 0]); (0, [0; 0])] 1.
Definition mv_b : MVRegisterState := mkMv [(7, [0; 1]); (0, [0; 0])] 1.

Lemma mv_single_wf v c : length c = 2%nat -> mv_wf 2 2 (mkMv [(v, c); (0, [0; 0])] 1).
Proof.
  intros Hc. split; unfold mv_abs, live_versions; simpl.
  - done.
  - lia.
  - by repeat constructor.
  - apply NoDup_singleton.
  - repeat constructor.
  - intros x y Hx Hy. rewrite elem_of_union, elem_of_singleton in Hx, Hy.
    destruct Hx as [->|Hx], Hy as [->|Hy]; try set_solver. apply irreflexivity, hb_strict.
Qed.

Lemma mvregister_keeps_maximal_witness :
  live_versions (mv_merge 2 2 mv_a mv_b).1 = [(7, [0; 1]); (5, [1; 0])] /\
  live_versions (mv_merge 2 2 mv_a mv_b).1 = live_versions (mv_merge 2 2 mv_b mv_a).1 /\
  (9, [2; 0]) ∈ live_versions (mv_assign 2 2 mv_a (9, [2; 0])).1.
Proof.
  destruct (mvregister_keeps_maximal 2 2 mv_a mv_b (9, [2; 0])) as (_ & H2 & H3);
    [apply mv_single_wf; reflexivity|apply mv_single_wf; reflexivity|reflexivity|].
  split; [reflexivity|]. split; [apply H2; reflexivity|].
  destruct H3 as [H3|(y & Hy & Hlt)]; [reflexivity|exact H3|]. exfalso.
  unfold live_versions in Hy. simpl in Hy. apply list_elem_of_singleton in Hy. subst y. discriminate Hlt.
Defined.
