(* ===== verification/CrdtRga.v ===== *)
(** * CrdtRga.v: the replicated growable array (include/crucible/canopy/Crdt.h)

    RgaList<T, Id, Capacity> at integer values and ids: a list as a tree of
    nodes, each after another one, that materialize() walks in depth-first
    order.  At the end, what the seven replicated types have in common. *)

From stdpp Require Import base list gmap.
From Stdlib Require Import ZArith Lia.
From S2P Require Import Prelude.
From S2P Require Import Clocks.
From S2P Require Import Hlc.
From S2P Require Import VectorClock.
From S2P Require Import Crdt.
From S2P Require Import CrdtTable.
From S2P Require Import CrdtSets.
From S2P Require Import CrdtMv.
#[local] Open Scope Z_scope.

Record RgaNode := mkNode { rn_id : Z; rn_after : Z; rn_value : Z; rn_tombstone : bool }.
Record RgaMaterialized := mkMat { mt_values : list Z; mt_count : nat }.
Abbreviation RgaState := (BoundedTaggedState RgaNode).

(** Id{}: the id that the first nodes are after. *)
Definition root_id : Z := 0.

Definition no_node : RgaNode := mkNode 0 0 0 false.

Section Rga.
Context (Capacity : nat).

Definition new_rga : RgaState := mkTagged (replicate Capacity no_node) 0.

Definition node_of (s : RgaState) (i : nat) : RgaNode := default no_node (t_entries s !! i).

Definition rga_find_in_ (s : RgaState) (id : Z) : option nat := find_index (fun e => rn_id e =? id) s.

(** What an existing node becomes when a node with its id comes in. *)
Definition rga_meet (incoming existing : RgaNode) : RgaNode :=
  let incoming_preferred :=
    (rn_after incoming <? rn_after existing)
    || ((rn_after incoming =? rn_after existing) && (rn_value incoming <? rn_value existing)) in
  if incoming_preferred then
    let removed := rn_tombstone existing || rn_tombstone incoming in
    mkNode (rn_id incoming) (rn_after incoming) (rn_value incoming) removed
  else
    mkNode (rn_id existing) (rn_after existing) (rn_value existing) (rn_tombstone existing || rn_tombstone incoming).

Definition rga_upsert_into_ (s : RgaState) (incoming : RgaNode) : RgaState * bool :=
  match rga_find_in_ s (rn_id incoming) with
  | Some idx => (modify s idx (rga_meet incoming), true)
  | None => if (Capacity <=? t_count s)%nat then (s, false) else (append s incoming, true)
  end.

Definition rga_insert_after (s : RgaState) (id after value : Z) : RgaState * bool :=
  rga_upsert_into_ s (mkNode id after value false).

Definition rga_erase (s : RgaState) (id : Z) : RgaState * bool :=
  match rga_find_in_ s id with
  | Some idx => (modify s idx (fun e => mkNode (rn_id e) (rn_after e) (rn_value e) true), true)
  | None => (s, false)
  end.

Definition rga_merge_state_into_ (target other : RgaState) : RgaState * bool :=
  if negb (tagged_well_formed Capacity other) then (target, false)
  else upsert_each rga_upsert_into_ target (live other).

Definition rga_merge (s other : RgaState) : RgaState * bool := commit_merge s other rga_merge_state_into_.
Definition rga_merge_states (a b : RgaState) : RgaState :=
  if tagged_well_formed Capacity a then (commit_merge a b rga_merge_state_into_).1 else a.

(** *** materialize() *)

Definition is_visited (visited : list bool) (i : nat) : bool := default false (visited !! i).

(** The unvisited node after [parent] with the smallest id. *)
Definition pick_next (s : RgaState) (visited : list bool) (parent : Z) : option nat :=
  fold_left
    (fun next i =>
       if is_visited visited i || negb (rn_after (node_of s i) =? parent) then next
       else
         match next with
         | None => Some i
         | Some j => if rn_id (node_of s i) <? rn_id (node_of s j) then Some i else next
         end)
    (seq 0 (t_count s)) None.

Definition emit (out : RgaMaterialized) (node : RgaNode) : RgaMaterialized :=
  if negb (rn_tombstone node) && (mt_count out <? Capacity)%nat
  then mkMat (<[mt_count out := rn_value node]> (mt_values out)) (S (mt_count out))
  else out.

(** emit_after_: a turn of the loop and a call both use one unit of fuel. *)
Fixpoint emit_after_ (fuel : nat) (s : RgaState) (parent : Z) (visited : list bool) (out : RgaMaterialized)
    : option (list bool * RgaMaterialized) :=
  match fuel with
  | O => None
  | S fuel =>
      match pick_next s visited parent with
      | None => Some (visited, out)
      | Some next =>
          let visited := <[next := true]> visited in
          let node := node_of s next in
          '(visited, out) ← emit_after_ fuel s (rn_id node) visited (emit out node);
          emit_after_ fuel s parent visited out
      end
  end.

(** Each turn and each call visits a node first, so the count bounds both. *)
Definition materialize (s : RgaState) : option RgaMaterialized :=
  snd <$> emit_after_ (S (t_count s)) s root_id (replicate Capacity false) (mkMat (replicate Capacity 0) 0).

Definition mt_list (out : RgaMaterialized) : list Z := take (mt_count out) (mt_values out).

(** ** The nodes as a map *)

Definition rga_val (e : RgaNode) : Z * Z * bool := (rn_after e, rn_value e, rn_tombstone e).

Definition rga_joinv (x y : Z * Z * bool) : Z * Z * bool :=
  let '(a, v, t) := x in
  let '(b, w, u) := y in
  if (b <? a) || ((b =? a) && (w <? v)) then (b, w, t || u) else (a, v, t || u).

(** The smaller of two places, an anchor and a value, in lexicographic order. *)
Definition place_le (p q : Z * Z) : Prop := p.1 < q.1 \/ (p.1 = q.1 /\ p.2 <= q.2).
Definition place_min (p q : Z * Z) : Z * Z := if (q.1 <? p.1) || ((q.1 =? p.1) && (q.2 <? p.2)) then q else p.

Lemma place_min_spec p q : (place_le p q /\ place_min p q = p) \/ (place_le q p /\ place_min p q = q).
Proof.
  unfold place_le, place_min. destruct (Z.ltb_spec q.1 p.1), (Z.eqb_spec q.1 p.1), (Z.ltb_spec q.2 p.2); simpl; lia || auto with lia.
Qed.

Lemma place_le_antisymm p q : place_le p q -> place_le q p -> p = q.
Proof. destruct p, q. unfold place_le. simpl. intros. f_equal; lia. Qed.

Lemma place_le_trans p q r : place_le p q -> place_le q r -> place_le p r.
Proof. unfold place_le. lia. Qed.

Lemma place_min_comm p q : place_min p q = place_min q p.
Proof.
  destruct (place_min_spec p q) as [[? ->]|[? ->]], (place_min_spec q p) as [[? ->]|[? ->]]; auto using place_le_antisymm.
Qed.

Lemma place_min_assoc p q r : place_min p (place_min q r) = place_min (place_min p q) r.
Proof.
  destruct (place_min_spec p q) as [[? H1]|[? H1]], (place_min_spec q r) as [[? H2]|[? H2]]; rewrite H1, H2, ?H1, ?H2; auto.
  - destruct (place_min_spec p r) as [[? ->]|[? ->]]; [done|].
    apply place_le_antisymm; [|done]. by eapply place_le_trans.
  - destruct (place_min_spec p r) as [[? ->]|[? ->]]; [|done]. apply place_le_antisymm; [done|]. by eapply place_le_trans.
Qed.

Lemma rga_joinv_place x y : rga_joinv x y = (place_min x.1 y.1, x.2 || y.2).
Proof. destruct x as [[a v] t], y as [[b w] u]. unfold rga_joinv, place_min. simpl. by case_match. Qed.

#[local] Instance rga_joinv_comm : Comm (=) rga_joinv.
Proof. intros x y. rewrite !rga_joinv_place. by rewrite place_min_comm, orb_comm. Qed.

#[local] Instance rga_joinv_assoc : Assoc (=) rga_joinv.
Proof. intros x y z. rewrite !rga_joinv_place. simpl. by rewrite place_min_assoc, orb_assoc. Qed.

#[local] Instance rga_joinv_idem : IdemP (=) rga_joinv.
Proof. intros [[a v] t]. unfold rga_joinv. rewrite Z.ltb_irrefl, Z.eqb_refl, Z.ltb_irrefl. simpl. by destruct t. Qed.

Abbreviation rga_wf := (table_wf Capacity rn_id).
Abbreviation rga_abs := (table_abs rn_id rga_val).

Lemma rga_upsert_ok : upsert_ok Capacity rn_id rga_val rga_joinv rga_upsert_into_.
Proof.
  intros s e Hs. unfold rga_upsert_into_, rga_find_in_. destruct (find_index _ s) as [i|] eqn:Hf; simpl.
  - apply find_index_Some in Hf as (a & Ha & Hk). reflect_bools. rewrite (modify_put s i a _ Ha).
    destruct (put_spec Capacity rn_id rga_val rga_joinv s i a (rga_meet e a) (rga_val e)) as [Hw Habs]; [done..| | |].
    + unfold rga_meet. by case_match.
    + unfold rga_meet, rga_val, rga_joinv. by case_match.
    + split_and!; [done|by rewrite <- Hk|done].
  - destruct (Nat.leb_spec Capacity (t_count s)); simpl; [split_and!; done|].
    destruct (append_spec Capacity rn_id rga_val rga_joinv s e) as [Hw Habs]; [done..| |split_and!; done].
    intros a Ha Hk. pose proof (find_index_None _ _ a Hf Ha) as Hn. simpl in Hn. rewrite Hk, Z.eqb_refl in Hn. done.
Qed.

Lemma rga_erase_spec s id :
  rga_wf s -> rga_wf (rga_erase s id).1 /\
  table_join rga_joinv (rga_abs s) (rga_abs (rga_erase s id).1) = rga_abs (rga_erase s id).1 /\
  ((rga_erase s id).2 = false -> (rga_erase s id).1 = s).
Proof.
  intros Hs. unfold rga_erase, rga_find_in_. destruct (find_index _ s) as [i|] eqn:Hf; simpl.
  - apply find_index_Some in Hf as (a & Ha & Hk). rewrite (modify_put s i a _ Ha).
    destruct (put_spec Capacity rn_id rga_val rga_joinv s i a (mkNode (rn_id a) (rn_after a) (rn_value a) true)
      (rn_after a, rn_value a, true)) as [Hw Habs]; [done..| |].
    { unfold rga_val, rga_joinv. simpl. rewrite Z.ltb_irrefl, Z.eqb_refl, Z.ltb_irrefl. simpl. by rewrite orb_true_r. }
    split_and!; [done| |done]. by rewrite Habs, (assoc (table_join rga_joinv)), (table_join_idem rga_joinv).
  - split_and!; [done|apply (table_join_idem rga_joinv)|done].
Qed.

Lemma rga_merge_spec a b :
  rga_wf a -> rga_wf b ->
  rga_wf (rga_merge a b).1 /\
  ((rga_merge a b).2 = true -> rga_abs (rga_merge a b).1 = table_join rga_joinv (rga_abs a) (rga_abs b)).
Proof.
  intros Ha Hb. unfold rga_merge, commit_merge, rga_merge_state_into_.
  rewrite (proj2 (Nat.leb_le _ _) (tw_count _ _ _ Hb) : tagged_well_formed Capacity b = true). simpl.
  destruct (upsert_each_merge Capacity rn_id rga_val rga_joinv _ a b rga_upsert_ok Ha Hb) as [Hw Habs].
  destruct (upsert_each rga_upsert_into_ a (live b)) as [s [|]]; simpl in *; [auto|done].
Qed.

(** ** The order of the list, from the map alone *)

Abbreviation tree := (gmap Z (Z * Z * bool)).

Definition anchor (m : tree) (k : Z) : option Z := (fun n => n.1.1) <$> m !! k.

Definition smaller (x : Z) (o : option Z) : option Z :=
  match o with None => Some x | Some y => Some (Z.min x y) end.

(** The smallest id of an unvisited node after [parent]. *)
Definition next_id (m : tree) (seen : gset Z) (parent : Z) : option Z :=
  fold_right smaller None (filter (fun k => k ∉ seen /\ anchor m k = Some parent) (elements (dom m))).

(** The ids in the order of the walk, and all the ids seen at its end. *)
Fixpoint order_after (fuel : nat) (m : tree) (parent : Z) (seen : gset Z) : option (gset Z * list Z) :=
  match fuel with
  | O => None
  | S fuel =>
      match next_id m seen parent with
      | None => Some (seen, [])
      | Some k =>
          '(seen, l1) ← order_after fuel m k ({[k]} ∪ seen);
          '(seen, l2) ← order_after fuel m parent seen;
          Some (seen, k :: l1 ++ l2)
      end
  end.

(** The values of the nodes of an order that are not erased. *)
Definition visible (m : tree) (l : list Z) : list Z :=
  omap (fun k => match m !! k with Some (_, v, false) => Some v | _ => None end) l.

Definition candidate (m : tree) (seen : gset Z) (parent k : Z) : Prop := k ∉ seen /\ anchor m k = Some parent.

Lemma fold_smaller l : match fold_right smaller None l with None => l = [] | Some x => x ∈ l /\ forall y, y ∈ l -> x <= y end.
Proof.
  induction l as [|x l IH]; simpl; [done|]. destruct (fold_right smaller None l) as [y|]; simpl.
  - destruct IH as [Hy Hmin]. split.
    + destruct (Z.min_spec x y) as [[_ ->]|[_ ->]]; [by left|by right].
    + intros z [->|Hz]%elem_of_cons; [lia|]. specialize (Hmin z Hz). lia.
  - subst l. split; [by left|]. intros y [->|Hy]%elem_of_cons; [lia|]. by apply not_elem_of_nil in Hy.
Qed.

Lemma next_id_spec m seen parent :
  match next_id m seen parent with
  | None => forall k, ~ candidate m seen parent k
  | Some k => candidate m seen parent k /\ forall k', candidate m seen parent k' -> k <= k'
  end.
Proof.
  unfold next_id. set (l := filter _ _).
  assert (Hl : forall k, k ∈ l <-> candidate m seen parent k).
  { intros k. subst l. rewrite list_elem_of_filter, elem_of_elements, elem_of_dom. unfold candidate, anchor. split; [tauto|].
    intros [H1 H2]. split; [done|]. destruct (m !! k); [by eexists|done]. }
  pose proof (fold_smaller l) as Hf. destruct (fold_right smaller None l) as [k|].
  - destruct Hf as [Hk Hmin]. split; [by apply Hl|]. intros k' Hk'. by apply Hmin, Hl.
  - intros k Hk%Hl. rewrite Hf in Hk. by apply not_elem_of_nil in Hk.
Qed.

(** *** The walk ends *)

Lemma candidate_dom m seen parent k : candidate m seen parent k -> k ∈ dom m ∖ seen.
Proof.
  intros [Hn Ha]. unfold anchor in Ha. destruct (m !! k) eqn:Hk; [|done]. apply elem_of_difference. split; [|done].
  apply elem_of_dom. eauto.
Qed.

Lemma order_after_total fuel m parent seen :
  (size (dom m ∖ seen) < fuel)%nat -> exists seen' l, order_after fuel m parent seen = Some (seen', l) /\ seen ⊆ seen'.
Proof.
  revert parent seen. induction fuel as [|fuel IH]; intros parent seen Hf; [lia|]. simpl.
  pose proof (next_id_spec m seen parent) as Hn. destruct (next_id m seen parent) as [k|]; [|by exists seen, []].
  destruct Hn as [Hk _]. apply candidate_dom in Hk.
  assert (Hsz : (size (dom m ∖ ({[k]} ∪ seen)) < size (dom m ∖ seen))%nat) by (apply subset_size; set_solver).
  destruct (IH k ({[k]} ∪ seen)) as (s1 & l1 & -> & Hs1); [lia|]. simpl.
  assert (Hsz1 : (size (dom m ∖ s1) <= size (dom m ∖ ({[k]} ∪ seen)))%nat) by (apply subseteq_size; set_solver).
  destruct (IH parent s1) as (s2 & l2 & -> & Hs2); [lia|]. simpl. exists s2, (k :: l1 ++ l2). split; [done|set_solver].
Qed.

(** *** What the walk visits *)

(** Each node of a list comes after its anchor, or its anchor is [parent]. *)
Definition anchored (m : tree) (parent : Z) (l : list Z) : Prop :=
  forall l1 k l2, l = l1 ++ k :: l2 -> exists a, anchor m k = Some a /\ (a = parent \/ a ∈ l1).

Lemma anchored_cons m parent k l1 l2 :
  anchor m k = Some parent -> anchored m k l1 -> anchored m parent l2 -> anchored m parent (k :: l1 ++ l2).
Proof.
  intros Hk H1 H2 p x q Heq. destruct p as [|y p]; simpl in Heq; injection Heq as Hy Heq; [subst x; exists parent; auto|]. subst y.
  apply app_eq_inv in Heq as [(t & Hp & Ht)|(t & Hp & Ht)].
  - destruct t as [|y t]; simpl in Ht.
    + destruct (H2 [] x q) as (a & Ha & [->|Hin]); [done|exists parent; auto|by apply not_elem_of_nil in Hin].
    + injection Ht as -> Ht. destruct (H1 p y t Hp) as (a & Ha & [->|Hin]); [exists k|exists a]; (split; [done|right]); [by left|by right].
  - destruct (H2 t x q Ht) as (a & Ha & [->|Hin]); [exists parent; auto|]. exists a. split; [done|right].
    rewrite Hp. right. apply elem_of_app. by right.
Qed.

Record walk_ok (m : tree) (parent : Z) (seen seen' : gset Z) (l : list Z) : Prop := {
  wk_seen : seen' = seen ∪ list_to_set l;
  wk_once : NoDup l;
  wk_new k : k ∈ l -> k ∉ seen /\ k ∈ dom m;
  wk_anchor : anchored m parent l;
  wk_closed k a : anchor m k = Some a -> a = parent \/ a ∈ l -> k ∈ seen';
}.

Lemma order_after_ok fuel m parent seen seen' l :
  order_after fuel m parent seen = Some (seen', l) -> walk_ok m parent seen seen' l.
Proof.
  revert parent seen seen' l. induction fuel as [|fuel IH]; intros parent seen seen' l; simpl; [done|].
  pose proof (next_id_spec m seen parent) as Hn. destruct (next_id m seen parent) as [k|].
  - destruct Hn as [Hk _]. pose proof (candidate_dom _ _ _ _ Hk) as Hd. destruct Hk as [Hks Hka].
    destruct (order_after fuel m k ({[k]} ∪ seen)) as [[s1 l1]|] eqn:H1; simpl; [|done].
    destruct (order_after fuel m parent s1) as [[s2 l2]|] eqn:H2; simpl; [|done]. intros [= <- <-].
    apply IH in H1 as [Hs1 Hn1 Hnew1 Han1 Hcl1]. apply IH in H2 as [Hs2 Hn2 Hnew2 Han2 Hcl2]. split.
    + rewrite Hs2, Hs1. simpl. rewrite list_to_set_app_L. set_solver.
    + apply NoDup_cons. split; [intros [Hin|Hin]%elem_of_app; [apply Hnew1 in Hin|apply Hnew2 in Hin]; set_solver|].
      apply NoDup_app. split_and!; [done| |done]. intros x Hx1 Hx2. apply Hnew2 in Hx2 as [Hx2 _]. apply Hx2. rewrite Hs1. set_solver.
    + intros x [->|[Hx|Hx]%elem_of_app]%elem_of_cons; [set_solver|apply Hnew1 in Hx; set_solver|apply Hnew2 in Hx; set_solver].
    + by apply anchored_cons.
    + intros x a Ha [->|Hin]; [apply (Hcl2 x parent); auto|]. rewrite Hs2. apply elem_of_cons in Hin as [->|[Hin|Hin]%elem_of_app].
      * apply elem_of_union_l. apply (Hcl1 x k); auto.
      * apply elem_of_union_l. apply (Hcl1 x a); auto.
      * rewrite <- Hs2. apply (Hcl2 x a); auto.
  - intros [= <- <-]. split.
    + set_solver.
    + constructor.
    + set_solver.
    + intros l1 k l2 Heq. by apply app_cons_not_nil in Heq.
    + intros k a Ha [->|Hin]; [|set_solver]. destruct (decide (k ∈ seen)); [done|]. by destruct (Hn k).
Qed.

(** *** The code walks in this order *)

Lemma node_of_live s i e : live s !! i = Some e -> node_of s i = e.
Proof. intros [He _]%live_lookup. unfold node_of. by rewrite He. Qed.

Lemma live_node s i : rga_wf s -> (i < t_count s)%nat -> live s !! i = Some (node_of s i).
Proof.
  intros Hs Hi. destruct (lookup_lt_is_Some_2 (live s) i) as [e He]; [by rewrite (live_length _ _ _ Hs)|].
  by rewrite (node_of_live s i e He).
Qed.

Lemma abs_node s i : rga_wf s -> (i < t_count s)%nat -> rga_abs s !! rn_id (node_of s i) = Some (rga_val (node_of s i)).
Proof.
  intros Hs Hi. apply (abs_lookup Capacity rn_id rga_val s _ _ Hs). exists (node_of s i).
  split; [|done]. by eapply list_elem_of_lookup_2, live_node.
Qed.

Lemma abs_size s : rga_wf s -> size (dom (rga_abs s)) = t_count s.
Proof.
  intros Hs. rewrite size_dom. unfold table_abs. rewrite map_size_list_to_map; [by rewrite length_fmap, (live_length _ _ _ Hs)|].
  rewrite <- list_fmap_compose. apply Hs.
Qed.

(** A node that the loop may pick. *)
Definition pickable (s : RgaState) (visited : list bool) (parent : Z) (i : nat) : Prop :=
  is_visited visited i = false /\ rn_after (node_of s i) = parent.

Lemma pick_next_spec s visited parent :
  match pick_next s visited parent with
  | None => forall i, (i < t_count s)%nat -> ~ pickable s visited parent i
  | Some i => (i < t_count s)%nat /\ pickable s visited parent i /\
      forall j, (j < t_count s)%nat -> pickable s visited parent j -> rn_id (node_of s i) <= rn_id (node_of s j)
  end.
Proof.
  unfold pick_next. induction (t_count s) as [|k IH]; [simpl; intros; lia|]. rewrite seq_S, fold_left_app. simpl.
  set (next := fold_left _ (seq 0 k) None) in *. clearbody next.
  destruct (is_visited visited k) eqn:Hv; [|destruct (Z.eqb_spec (rn_after (node_of s k)) parent) as [Ha|Ha]]; simpl.
  - destruct next as [i|]; [destruct IH as (Hi & Hp & Hm); split_and!; [lia|done|]|]; intros j Hj;
      (destruct (decide (j = k)) as [->|]; [unfold pickable; intuition congruence|]); [apply Hm|apply IH]; lia.
  - destruct next as [i|].
    + destruct IH as (Hi & Hp & Hm). destruct (Z.ltb_spec (rn_id (node_of s k)) (rn_id (node_of s i))); (split_and!; [lia|done|]);
        intros j Hj Hpj; (destruct (decide (j = k)) as [->|]; [lia|]); (specialize (Hm j ltac:(lia) Hpj); lia).
    + split_and!; [lia|done|]. intros j Hj Hpj. destruct (decide (j = k)) as [->|]; [done|]. by destruct (IH j ltac:(lia)).
  - destruct next as [i|]; [destruct IH as (Hi & Hp & Hm); split_and!; [lia|done|]|]; intros j Hj;
      (destruct (decide (j = k)) as [->|]; [unfold pickable; intuition congruence|]); [apply Hm|apply IH]; lia.
Qed.

(** The flags say which ids are seen. *)
Record flags_ok (s : RgaState) (visited : list bool) (seen : gset Z) : Prop := {
  fo_length : length visited = Capacity;
  fo_dom : seen ⊆ dom (rga_abs s);
  fo_flag i : (i < t_count s)%nat -> is_visited visited i = true <-> rn_id (node_of s i) ∈ seen;
}.

Lemma pickable_candidate s visited seen parent i :
  rga_wf s -> flags_ok s visited seen -> (i < t_count s)%nat ->
  pickable s visited parent i <-> candidate (rga_abs s) seen parent (rn_id (node_of s i)).
Proof.
  intros Hs Hf Hi. unfold pickable, candidate, anchor. rewrite abs_node by done. simpl.
  rewrite <- (fo_flag _ _ _ Hf i Hi), not_true_iff_false. naive_solver.
Qed.

Lemma candidate_pickable s visited seen parent k :
  rga_wf s -> flags_ok s visited seen -> candidate (rga_abs s) seen parent k ->
  exists i, (i < t_count s)%nat /\ rn_id (node_of s i) = k /\ pickable s visited parent i.
Proof.
  intros Hs Hf Hc. pose proof (candidate_dom _ _ _ _ Hc) as Hd. apply elem_of_difference in Hd as [[v Hv]%elem_of_dom _].
  apply (abs_lookup Capacity rn_id rga_val s _ _ Hs) in Hv as (e & He & <- & _). apply list_elem_of_lookup in He as [i Hi].
  assert (Hlt : (i < t_count s)%nat) by (by apply live_lookup in Hi as [_ ?]). exists i.
  rewrite (pickable_candidate s visited seen) by done. rewrite (node_of_live s i e Hi). done.
Qed.

(** The index that the loop picks is that of the next id. *)
Lemma pick_is_next s visited seen parent :
  rga_wf s -> flags_ok s visited seen ->
  match pick_next s visited parent with
  | None => next_id (rga_abs s) seen parent = None
  | Some i => (i < t_count s)%nat /\ pickable s visited parent i /\ next_id (rga_abs s) seen parent = Some (rn_id (node_of s i))
  end.
Proof.
  intros Hs Hf. pose proof (pick_next_spec s visited parent) as Hp. pose proof (next_id_spec (rga_abs s) seen parent) as Hn.
  destruct (pick_next s visited parent) as [i|], (next_id (rga_abs s) seen parent) as [k|]; try done.
  - destruct Hp as (Hi & Hpi & Hmin), Hn as [Hk Hmin']. split_and!; [done..|]. f_equal.
    destruct (candidate_pickable s visited seen parent k Hs Hf Hk) as (j & Hj & <- & Hpj). specialize (Hmin j Hj Hpj).
    specialize (Hmin' (rn_id (node_of s i))). rewrite <- (pickable_candidate s visited) in Hmin' by done. specialize (Hmin' Hpi). lia.
  - destruct Hp as (Hi & Hpi & _). apply (pickable_candidate s visited seen) in Hpi; [|done..]. by destruct (Hn (rn_id (node_of s i))).
  - destruct Hn as [Hk _]. destruct (candidate_pickable s visited seen parent k Hs Hf Hk) as (j & Hj & _ & Hpj). by destruct (Hp j Hj).
Qed.

Lemma ids_unique s i j : rga_wf s -> (i < t_count s)%nat -> (j < t_count s)%nat -> rn_id (node_of s i) = rn_id (node_of s j) -> i = j.
Proof.
  intros Hs Hi Hj Heq. apply (NoDup_lookup (rn_id <$> live s) i j (rn_id (node_of s i)) (tw_keys _ _ _ Hs)).
  - by rewrite list_lookup_fmap, live_node.
  - by rewrite list_lookup_fmap, live_node, Heq.
Qed.

Lemma visit_flags s visited seen i :
  rga_wf s -> flags_ok s visited seen -> (i < t_count s)%nat ->
  flags_ok s (<[i := true]> visited) ({[rn_id (node_of s i)]} ∪ seen).
Proof.
  intros Hs Hf Hi. pose proof (fo_length _ _ _ Hf) as Hl. pose proof (tw_count _ _ _ Hs) as Hc. split.
  - by rewrite length_insert.
  - apply union_subseteq. split; [|apply Hf]. apply singleton_subseteq_l, elem_of_dom. rewrite abs_node by done. eauto.
  - intros j Hj. unfold is_visited. destruct (decide (i = j)) as [<-|Hne].
    + rewrite list_lookup_insert_eq by lia. simpl. set_solver.
    + rewrite list_lookup_insert_ne by done. change (default false (visited !! j)) with (is_visited visited j).
      rewrite (fo_flag _ _ _ Hf j Hj), elem_of_union, elem_of_singleton. split; [by right|]. intros [Heq|?]; [|done].
      destruct Hne. symmetry. by apply (ids_unique s).
Qed.

(** The output array holds no more values than there are ids seen. *)
Definition out_ok (out : RgaMaterialized) (seen : gset Z) : Prop :=
  length (mt_values out) = Capacity /\ (mt_count out <= size seen)%nat.

Lemma emit_spec out seen node :
  out_ok out seen -> (size seen < Capacity)%nat -> rn_id node ∉ seen ->
  out_ok (emit out node) ({[rn_id node]} ∪ seen) /\
  mt_list (emit out node) = mt_list out ++ (if rn_tombstone node then [] else [rn_value node]).
Proof.
  intros [Hl Hc] Hsz Hnew. unfold emit, out_ok. rewrite size_union, size_singleton by set_solver.
  destruct (rn_tombstone node); simpl; [split; [split; [done|lia]|by rewrite app_nil_r]|].
  rewrite (proj2 (Nat.ltb_lt _ _)) by lia. simpl. rewrite length_insert. split; [split; [done|lia]|].
  unfold mt_list. simpl. rewrite (take_S_r _ _ (rn_value node)) by (apply list_lookup_insert_eq; lia).
  by rewrite take_insert_ge.
Qed.

Lemma visible_cons m k l :
  visible m (k :: l) = (match m !! k with Some (_, v, false) => [v] | _ => [] end) ++ visible m l.
Proof. unfold visible. simpl. by destruct (m !! k) as [[[a v] []]|]. Qed.

Lemma visible_app m l k : visible m (l ++ k) = visible m l ++ visible m k.
Proof. apply omap_app. Qed.

#[local] Arguments visible : simpl never.

(** The walk of the code and the order go in step. *)
Lemma emit_after_order fuel s parent visited seen out :
  rga_wf s -> flags_ok s visited seen -> out_ok out seen ->
  match order_after fuel (rga_abs s) parent seen with
  | None => emit_after_ fuel s parent visited out = None
  | Some (seen', l) => exists visited' out',
      emit_after_ fuel s parent visited out = Some (visited', out') /\
      flags_ok s visited' seen' /\ out_ok out' seen' /\ mt_list out' = mt_list out ++ visible (rga_abs s) l
  end.
Proof.
  intros Hs. revert parent visited seen out. induction fuel as [|fuel IH]; intros parent visited seen out Hf Ho; simpl; [done|].
  pose proof (pick_is_next s visited seen parent Hs Hf) as Hp. destruct (pick_next s visited parent) as [i|].
  - destruct Hp as (Hi & Hpi & ->). apply (pickable_candidate s visited seen) in Hpi; [|done..].
    pose proof (candidate_dom _ _ _ _ Hpi) as Hd. destruct Hpi as [Hnew _].
    assert (Hsz : (size seen < Capacity)%nat).
    { pose proof (tw_count _ _ _ Hs) as Hc. rewrite <- (abs_size s Hs) in Hc. pose proof (fo_dom _ _ _ Hf).
      enough (size seen < size (dom (rga_abs s)))%nat by lia. apply subset_size. set_solver. }
    destruct (emit_spec out seen (node_of s i) Ho Hsz Hnew) as [Ho1 Hl1]. pose proof (visit_flags s visited seen i Hs Hf Hi) as Hf1.
    specialize (IH (rn_id (node_of s i)) (<[i := true]> visited) _ (emit out (node_of s i)) Hf1 Ho1) as IH1.
    destruct (order_after fuel (rga_abs s) (rn_id (node_of s i)) _) as [[s1 l1]|]; simpl; [|by rewrite IH1].
    destruct IH1 as (v1 & o1 & -> & Hf2 & Ho2 & Hl2). simpl.
    specialize (IH parent v1 s1 o1 Hf2 Ho2). destruct (order_after fuel (rga_abs s) parent s1) as [[s2 l2]|]; simpl; [|done].
    destruct IH as (v2 & o2 & -> & Hf3 & Ho3 & Hl3). exists v2, o2. split_and!; [done..|].
    rewrite Hl3, Hl2, Hl1, visible_cons, visible_app, abs_node by done. unfold rga_val.
    destruct (rn_tombstone (node_of s i)); simpl; by rewrite <- ?(assoc_L (++)).
  - rewrite Hp. exists visited, out. split_and!; [done..|]. by rewrite app_nil_r.
Qed.

(** The list in the order of the map. *)
Definition rga_order (m : tree) : list Z := default [] (snd <$> order_after (S (size (dom m))) m root_id ∅).

Lemma rga_order_ok m : exists seen, walk_ok m root_id ∅ seen (rga_order m).
Proof.
  destruct (order_after_total (S (size (dom m))) m root_id ∅) as (seen & l & Ho & _).
  { enough (size (dom m ∖ ∅) <= size (dom m))%nat by lia. apply subseteq_size. set_solver. }
  exists seen. unfold rga_order. rewrite Ho. by eapply order_after_ok.
Qed.

Lemma materialize_order s : rga_wf s -> exists out, materialize s = Some out /\ mt_list out = visible (rga_abs s) (rga_order (rga_abs s)).
Proof.
  intros Hs. unfold materialize, rga_order. rewrite abs_size by done.
  assert (Hf : flags_ok s (replicate Capacity false) ∅).
  { split; [apply length_replicate|set_solver|]. intros i Hi. unfold is_visited. split; [|set_solver].
    destruct (replicate Capacity false !! i) eqn:He; simpl; [|done]. by apply lookup_replicate in He as [-> _]. }
  assert (Ho : out_ok (mkMat (replicate Capacity 0) 0) ∅) by (split; simpl; [apply length_replicate|lia]).
  pose proof (emit_after_order (S (t_count s)) s root_id _ _ _ Hs Hf Ho) as He.
  destruct (order_after_total (S (t_count s)) (rga_abs s) root_id ∅) as (seen & l & Hord & _).
  { rewrite <- (abs_size s Hs). enough (size (dom (rga_abs s) ∖ ∅) <= size (dom (rga_abs s)))%nat by lia. apply subseteq_size. set_solver. }
  rewrite Hord in He. destruct He as (v & out & -> & _ & _ & Hl). exists out. split; [done|]. rewrite Hord. exact Hl.
Qed.

(** ** The list as a replicated type *)

Inductive rga_op := RgaInsert (id after value : Z) | RgaErase (id : Z).

Definition rga_write (s : RgaState) (u : rga_op) : RgaState * bool :=
  match u with RgaInsert id after value => rga_insert_after s id after value | RgaErase id => rga_erase s id end.

Lemma new_rga_wf : rga_wf new_rga.
Proof. split; simpl; [apply length_replicate|lia|]. unfold live. simpl. constructor. Qed.

#[local] Instance Rga_crdt : Crdt RgaState tree rga_op unit (option (list Z)) := {
  crdt_new := new_rga;
  crdt_wf := rga_wf;
  crdt_abs := rga_abs;
  crdt_join := table_join rga_joinv;
  crdt_update := rga_write;
  crdt_merge := rga_merge;
  crdt_ask s _ := mt_list <$> materialize s;
}.

#[local] Instance Rga_crdt_ok : CrdtOk RgaState tree rga_op unit (option (list Z)).
Proof.
  split; simpl.
  - apply _.
  - apply _.
  - intros s _. apply (table_join_idem rga_joinv).
  - apply new_rga_wf.
  - intros s [id after value|id] Hs; [by apply (rga_upsert_ok s)|by apply rga_erase_spec].
  - intros s [id after value|id] Hs; [|by apply rga_erase_spec].
    exact (upsert_up Capacity rn_id rga_val rga_joinv _ s (mkNode id after value false) rga_upsert_ok Hs).
  - intros s [id after value|id] Hs; [by apply (rga_upsert_ok s)|by apply rga_erase_spec].
  - intros a b Ha Hb. by apply rga_merge_spec.
  - intros a b Ha Hb. by apply rga_merge_spec.
  - intros a b _ _. apply commit_merge_refused.
  - intros a b _ Ha Hb Heq. destruct (materialize_order a Ha) as (o & -> & Ho). destruct (materialize_order b Hb) as (o' & -> & Ho').
    simpl. by rewrite Ho, Ho', Heq.
Qed.

(** C25: materialize() ends on every state, cycles of anchors included, and
    reads the list off the map of the nodes: its values are those of the
    nodes that are not erased, in an order of ids that names no node twice,
    puts each node behind the node that it was inserted after, and holds
    every node whose anchors lead to the root; states with equal maps give
    equal lists. *)
Theorem rga_materialize_walks_tree s :
  rga_wf s ->
  exists out l, materialize s = Some out /\ l = rga_order (rga_abs s) /\ mt_list out = visible (rga_abs s) l /\ NoDup l /\
    (forall l1 k l2, l = l1 ++ k :: l2 -> exists a, anchor (rga_abs s) k = Some a /\ (a = root_id \/ a ∈ l1)) /\
    (forall k a, anchor (rga_abs s) k = Some a -> a = root_id \/ a ∈ l -> k ∈ l).
Proof.
  intros Hs. destruct (materialize_order s Hs) as (out & Hm & Hl). destruct (rga_order_ok (rga_abs s)) as (seen & [Hseen Hn Hnew Han Hcl]).
  exists out, (rga_order (rga_abs s)). split_and!; try done. intros k a Ha Hor. specialize (Hcl k a Ha Hor).
  rewrite Hseen in Hcl. set_solver.
Qed.
End Rga.

(** 1 first, then 2 and its follower 4, with 3 erased, and two nodes that are
    after each other. *)
Definition rga_small : RgaState :=
  mkTagged [mkNode 4 2 40 false; mkNode 1 0 10 false; mkNode 3 1 30 true; mkNode 2 1 20 false; mkNode 8 9 80 false; mkNode 9 8 90 false;
            no_node; no_node] 6.

Lemma rga_small_wf : table_wf 8 rn_id rga_small.
Proof. split; [done|simpl; lia|]. apply (bool_decide_unpack _). by vm_compute. Qed.

Lemma rga_materialize_walks_tree_witness :
  mt_list <$> materialize 8 rga_small = Some [10; 20; 40] /\
  exists l, NoDup l /\ [10; 20; 40] = visible (table_abs rn_id rga_val rga_small) l.
Proof.
  destruct (rga_materialize_walks_tree 8 rga_small rga_small_wf) as (out & l & Hm & _ & Hl & Hn & _).
  assert (Hv : mt_list <$> materialize 8 rga_small = Some [10; 20; 40]) by (vm_compute; reflexivity).
  split; [exact Hv|]. exists l. split; [exact Hn|]. rewrite Hm in Hv. simpl in Hv. injection Hv as Hv. rewrite <- Hv. exact Hl.
Defined.

(** ** The seven types *)

(** C22: the replicated types converge.  For each of LwwRegister, GCounter,
    PNCounter, OrSet, GSet, MVRegister and RgaList, at every capacity: two
    replicas that merge the same states, their own included, in any order and
    with any repetition, give the same answer to every question (get, value,
    contains, the versions, the materialized list), provided that none of the
    merges is refused for want of room; a refused merge and a refused write leave
    the state as it was; and merging back the state from before a write adds
    nothing to what the write left. *)
Theorem replicated_types_converge replicas or_cap gset_cap versions nodes rga_cap :
  (0 < gset_cap)%nat ->
  converges new_lww (fun s u => lww_assign s u.1 u.2) lww_merge (fun s (_ : unit) => lww_get s) /\
  converges (new_gcounter replicas) (gcounter_write replicas) (gcounter_merge replicas) (fun s (_ : unit) => gcounter_value replicas s) /\
  converges (new_pncounter replicas) (pn_write replicas) (pn_merge replicas) (fun s (_ : unit) => pn_value replicas s) /\
  converges (new_orset or_cap) (or_write or_cap) (or_merge or_cap) or_contains /\
  converges (new_gset gset_cap) (gset_add gset_cap) (gset_merge gset_cap) (gs_contains gset_cap) /\
  converges (new_mv versions nodes) (mv_write versions nodes) (mv_merge versions nodes) (fun s (_ : unit) => live_versions s) /\
  converges (new_rga rga_cap) (rga_write rga_cap) (rga_merge rga_cap) (fun s (_ : unit) => mt_list <$> materialize rga_cap s).
Proof.
  intros Hg. split_and!.
  - exact (laws_converge (CrdtOk0 := Lww_crdt_ok)).
  - exact (laws_converge (CrdtOk0 := GC_crdt_ok replicas)).
  - exact (laws_converge (CrdtOk0 := PN_crdt_ok replicas)).
  - exact (laws_converge (CrdtOk0 := OrSet_crdt_ok or_cap)).
  - exact (laws_converge (CrdtOk0 := GSet_crdt_ok gset_cap Hg)).
  - exact (laws_converge (CrdtOk0 := Mv_crdt_ok versions nodes)).
  - exact (laws_converge (CrdtOk0 := Rga_crdt_ok rga_cap)).
Qed.

(** Two registers written at one clock, merged both ways. *)
Lemma replicated_types_converge_witness :
  let a := (lww_assign new_lww 5 (mkTs 1 0)).1 in
  let b := (lww_assign new_lww 7 (mkTs 1 0)).1 in
  lww_get (merge_all lww_merge a [b; a; b]).1 = Some 7 /\
  lww_get (merge_all lww_merge a [b; a; b]).1 = lww_get (merge_all lww_merge b [a]).1.
Proof.
  intros a b. split; [reflexivity|]. destruct (replicated_types_converge 2 4 3 2 2 8 ltac:(lia)) as (Hlww & _).
  assert (Ha : replica_state new_lww (fun s u => lww_assign s u.1 u.2) lww_merge a) by exact (rs_write new_lww _ lww_merge new_lww (5, mkTs 1 0) (rs_new _ _ _)).
  assert (Hb : replica_state new_lww (fun s u => lww_assign s u.1 u.2) lww_merge b) by exact (rs_write new_lww _ lww_merge new_lww (7, mkTs 1 0) (rs_new _ _ _)).
  apply (cv_same _ _ _ _ Hlww a b [b; a; b] [a] tt); [repeat constructor; done..| |reflexivity|reflexivity].
  intros t. rewrite !elem_of_cons, elem_of_nil. tauto.
Defined.
