(* ===== verification/ContentHash.v ===== *)
(** * ContentHash.v: the content hash of a region
    (include/crucible/DimHash.h and ContentHashFold of MerkleDag.h)

    The per-tensor hash of extents and strides in its vector form and in its
    scalar reference form, and the fold over the ops of a region. *)

From stdpp Require Import base list strings.
From Stdlib Require Import ZArith Lia.
From S2P Require Import Prelude.
From S2P Require Import Types.
From S2P Require Import Hash.
#[local] Open Scope Z_scope.

(** ** The hash of the dimensions *)

Definition kMaxTensorNDim : nat := 8.

Definition kDimMix (d : nat) : Z := u64 (GOLDEN * (Z.of_nat d + 1)).

(** A lane of a block. *)
Definition lane (block : list Z) (d : nat) : Z := default 0 (block !! d).

(** reduce_xor of eight lanes. *)
Definition reduce_xor (v : nat -> Z) : Z := fold_left (fun acc i => Z.lxor acc (v i)) (seq 1 7) (v 0%nat).

(** The products of the two vectors, lane by lane, masked to the rank. *)
Definition combined_lane (m : TensorMeta) (i : nat) : Z :=
  Z.lxor (u64 (u64 (lane (sizes m) i) * kDimMix i)) (u64 (u64 (lane (strides m) i) * kDimMix (i + 8))).

Definition dim_hash_simd (m : TensorMeta) : Z :=
  reduce_xor (fun i => if Z.of_nat i <? ndim m then combined_lane m i else 0).

Definition dim_hash_scalar (m : TensorMeta) : Z :=
  fold_left
    (fun result d =>
       let result := Z.lxor result (u64 (u64 (lane (sizes m) d) * kDimMix d)) in
       Z.lxor result (u64 (u64 (lane (strides m) d) * kDimMix (d + 8))))
    (seq 0 (Z.to_nat (ndim m))) 0.

(** ** The fold *)

Definition kSeed : Z := 0x9E3779B97F4A7C15.

(** The start of a fold: no recipe, or the hash of one. *)
Definition fold_start (recipe : option Z) : result Z :=
  match recipe with
  | None => Ok kSeed
  | Some h =>
      (let* _ := require (negb (h =? 0)) "the recipe is not interned" in
       let* _ := require (negb (h =? UINT64_MAX)) "the recipe hash is the sentinel" in
       Ok (combine_ids kSeed h))%result
  end.

Definition meta_packed (m : TensorMeta) : Z :=
  Z.lor
    (Z.lor (u64 (scalar_type_ordinal (dtype m))) (u64 (Z.shiftl (u64 (device_type_ordinal (device_type m))) 8)))
    (u64 (Z.shiftl (u8 (device_idx m)) 16)).

Definition fold_meta (state : Z) (m : TensorMeta) : Z :=
  combine_ids state (Z.lxor (dim_hash_simd m) (meta_packed m)).

Definition fold_entry_ (state : Z) (te : TraceEntry) : Z :=
  let state := combine_ids state (schema_hash te) in
  let state := fold_left fold_meta (take (Z.to_nat (num_inputs te)) (default [] (input_metas te))) state in
  let state := combine_ids state (u64 (num_scalar_args te)) in
  match scalar_args te with
  | None => state
  | Some args => fold_left (fun state x => combine_ids state (u64 x)) (take (Z.to_nat (num_scalar_args te)) args) state
  end.

Definition compute_content_hash (ops : list TraceEntry) (recipe : option Z) : result Z :=
  (let* state := fold_start recipe in Ok (fmix64 (fold_left fold_entry_ ops state)))%result.

(** ** The vector form is the reference form *)

Lemma masked_fold f n k :
  0 <= n ->
  fold_left (fun acc i => Z.lxor acc (if Z.of_nat i <? n then f i else 0)) (seq 0 k) 0 =
  fold_left (fun acc i => Z.lxor acc (f i)) (seq 0 (Nat.min (Z.to_nat n) k)) 0.
Proof.
  intros Hn. induction k as [|k IH]; [by rewrite Nat.min_0_r|]. rewrite seq_S, fold_left_app, IH. simpl.
  destruct (Z.ltb_spec (Z.of_nat k) n).
  - replace (Nat.min (Z.to_nat n) (S k)) with (S (Nat.min (Z.to_nat n) k)) by lia. rewrite seq_S, fold_left_app. simpl.
    by replace (Nat.min (Z.to_nat n) k) with k by lia.
  - replace (Nat.min (Z.to_nat n) (S k)) with (Nat.min (Z.to_nat n) k) by lia. by rewrite Z.lxor_0_r.
Qed.

Lemma reduce_xor_fold v : reduce_xor v = fold_left (fun acc i => Z.lxor acc (v i)) (seq 0 8) 0.
Proof. unfold reduce_xor. change (seq 0 8) with (0%nat :: seq 1 7). cbn [fold_left]. by rewrite Z.lxor_0_l. Qed.

(** On every descriptor of rank at most eight the vector routine and the
    scalar routine give the same hash of the dimensions, whatever the lanes
    past the rank hold. *)
Theorem dim_hash_simd_is_scalar m :
  0 <= ndim m <= Z.of_nat kMaxTensorNDim -> dim_hash_simd m = dim_hash_scalar m.
Proof.
  intros Hn. unfold dim_hash_simd, dim_hash_scalar. rewrite reduce_xor_fold.
  rewrite masked_fold by lia. replace (Nat.min (Z.to_nat (ndim m)) 8) with (Z.to_nat (ndim m)) by (unfold kMaxTensorNDim in Hn; lia).
  generalize 0. induction (seq 0 (Z.to_nat (ndim m))) as [|d l IH]; intros acc; [done|]. cbn [fold_left].
  rewrite IH. f_equal. unfold combined_lane. by rewrite Z.lxor_assoc.
Qed.

(** The empty region has a content hash like any other one. *)
Lemma empty_region_hash : exists h, compute_content_hash [] None = Ok h /\ h <> 0.
Proof. eexists. split; [reflexivity|]. vm_compute. discriminate. Qed.

(** ** Witness *)

Definition wit_dims : TensorMeta :=
  mkMeta [3; 5; 7; 11; 13; 17; 19; 23] [1; -2; 3; -4; 5; 6; 7; 8] 0 3 Float CPU 0 Strided false 0 0 0 0 0 0.

Lemma dim_hash_simd_is_scalar_witness : dim_hash_simd wit_dims = dim_hash_scalar wit_dims /\ dim_hash_scalar wit_dims <> 0.
Proof. split; [apply (dim_hash_simd_is_scalar wit_dims); unfold kMaxTensorNDim; simpl; lia|vm_compute; discriminate]. Defined.
