(* ===== verification/Serialize.v ===== *)
(** * Serialize.v: the image of a region and of a branch
    (include/crucible/Serialize.h, with Guard and BranchNode of MerkleDag.h)

    A byte is a [Z] between 0 and 255.  The writer keeps the bytes that it has
    written and the reader the bytes that are left; a reader function can
    leave the whole parse, which is [None]. *)

From stdpp Require Import base list strings.
From Stdlib Require Import ZArith Lia.
From S2P Require Import Prelude.
From S2P Require Import Types.
From S2P Require Import Pool.
From S2P Require Import TraceRing.
From S2P Require Import Hash.
From S2P Require Import ContentHash.
#[local] Open Scope Z_scope.

Definition CDAG_MAGIC : Z := 0x43444147.
Definition CDAG_VERSION : Z := 10.
Definition CDAG_MAX_OPS : Z := Z.shiftl 1 22.
Definition CDAG_MAX_SLOTS : Z := kMaxNumSlots.
Definition CDAG_MAX_INPUTS : Z := 1024.
Definition CDAG_MAX_OUTPUTS : Z := 1024.
Definition CDAG_MAX_SCALAR_ARGS : Z := 256.
Definition CDAG_MAX_BRANCH_ARMS : Z := Z.shiftl 1 16.
Definition kTensorSlotWireBytes : Z := 40.
Definition kTraceEntryMinWireBytes : Z := 40.
Definition kArmWireBytes : Z := 16.
Definition kMaxTensorDimExtent : Z := (2 ^ 63 - 1) / 16.

(** CKernelId::NUM_KERNELS *)
Definition NUM_KERNELS : Z := 147.

(** ** Integers as bytes, least significant first *)

Fixpoint le_bytes (n : nat) (v : Z) : list Z :=
  match n with O => [] | S n => v mod 256 :: le_bytes n (v / 256) end.

Fixpoint le_read (bs : list Z) : Z :=
  match bs with [] => 0 | b :: bs => b + 256 * le_read bs end.

Definition to_signed (n : nat) (v : Z) : Z := if v <? 2 ^ (8 * Z.of_nat n - 1) then v else v - 2 ^ (8 * Z.of_nat n).

(** ** The writer *)

Record Writer := mkWriter { w_buf : list Z; w_max : Z; w_ok : bool }.

Definition w_pos (w : Writer) : Z := Z.of_nat (length (w_buf w)).

Definition write_bytes (bs : list Z) (w : Writer) : Writer :=
  if w_max w <? w_pos w + Z.of_nat (length bs) then mkWriter (w_buf w) (w_max w) false
  else mkWriter (w_buf w ++ bs) (w_max w) (w_ok w).

(** Writer::w of an integer of [n] bytes, of a bool. *)
Definition w_int (n : nat) (v : Z) : Writer -> Writer := write_bytes (le_bytes n v).
Definition w_bool (b : bool) : Writer -> Writer := write_bytes [if b then 1 else 0].

Declare Scope writer_scope.
Delimit Scope writer_scope with writer.
Definition wseq (f g : Writer -> Writer) : Writer -> Writer := fun w => g (f w).
Notation "f >>> g" := (wseq f g) (at level 60, right associativity) : writer_scope.

Fixpoint w_each {A} (f : A -> Writer -> Writer) (l : list A) (w : Writer) : Writer :=
  match l with [] => w | x :: l => w_each f l (f x w) end.

(** ** The reader *)

Record Reader := mkReader { rd_rest : list Z; rd_ok : bool }.

Definition rd (A : Type) : Type := Reader -> option (A * Reader).

Definition rret {A} (a : A) : rd A := fun r => Some (a, r).
Definition rfail {A} : rd A := fun _ => None.
Definition rdbind {A B} (m : rd A) (k : A -> rd B) : rd B := fun r => '(a, r) ← m r; k a r.

Declare Scope reader_scope.
Delimit Scope reader_scope with reader.
Notation "'let^' x := m 'in' k" := (rdbind m (fun x => k))
  (at level 10, x name, m at level 100, k at level 200) : reader_scope.
Notation "'run^' m 'in' k" := (rdbind m (fun _ => k)) (at level 10, m at level 100, k at level 200) : reader_scope.
#[local] Open Scope reader_scope.

(** read_bytes: a read past the end clears [ok] and leaves zeros. *)
Definition read_bytes (n : nat) : rd (list Z) := fun r =>
  if (length (rd_rest r) <? n)%nat then Some (replicate n 0, mkReader (rd_rest r) false)
  else Some (take n (rd_rest r), mkReader (drop n (rd_rest r)) (rd_ok r)).

Definition r_uint (n : nat) : rd Z := let^ bs := read_bytes n in rret (le_read bs).
Definition r_int (n : nat) : rd Z := let^ bs := read_bytes n in rret (to_signed n (le_read bs)).

Definition clear_ok : rd unit := fun r => Some (tt, mkReader (rd_rest r) false).

(** read_gated: a value that the predicate refuses clears [ok] and becomes the
    substitute. *)
Definition read_gated (m : rd Z) (pred : Z -> bool) (valid_substitute : Z) : rd Z :=
  let^ v := m in if pred v then rret v else run^ clear_ok in rret valid_substitute.

Definition read_bool : rd bool := let^ b := read_gated (r_uint 1) (fun b => b <=? 1) 0 in rret (negb (b =? 0)).

Definition read_zero_pad (n : nat) : rd unit :=
  let^ wire := read_bytes n in if forallb (fun b => b =? 0) wire then rret tt else clear_ok.

Definition remaining : rd Z := fun r => Some (Z.of_nat (length (rd_rest r)), r).
Definition reader_ok : rd bool := fun r => Some (rd_ok r, r).

(** if (!cond) return nullopt; *)
Definition check (b : bool) : rd unit := if b then rret tt else rfail.

Fixpoint read_n {A} (n : nat) (m : rd A) : rd (list A) :=
  match n with
  | O => rret []
  | S n => let^ x := m in let^ l := read_n n m in rret (x :: l)
  end.

(** The enumerations that a gated read of their ordinal gives. *)
Definition read_dtype : rd ScalarType :=
  let^ raw := read_gated (r_int 1) valid_scalar_type 0 in rret (default Byte (scalar_type_of raw)).
Definition read_device_type : rd DeviceType :=
  let^ raw := read_gated (r_int 1) valid_device_type 0 in rret (default CPU (device_type_of raw)).
Definition read_layout : rd Layout :=
  let^ raw := read_gated (r_int 1) valid_layout 0 in rret (default Strided (layout_of raw)).

(** ** Tensors and slots *)

Definition write_meta (m : TensorMeta) : Writer -> Writer :=
  (write_bytes (sizes m ≫= le_bytes 8) >>>
   write_bytes (strides m ≫= le_bytes 8) >>>
   w_int 8 0 >>>
   w_int 1 (ndim m) >>>
   w_int 1 (scalar_type_ordinal (dtype m)) >>>
   w_int 1 (device_type_ordinal (device_type m)) >>>
   w_int 1 (device_idx m) >>>
   w_int 1 (layout_ordinal (layout m)) >>>
   w_bool (requires_grad m) >>>
   w_int 1 (flags m) >>>
   w_int 1 (output_nr m) >>>
   w_int 8 (storage_offset m) >>>
   w_int 4 (version m) >>>
   w_int 4 (storage_nbytes m) >>>
   w_int 8 0)%writer.

Definition dim_ok (v : Z) : bool := v <=? kMaxTensorDimExtent.

Definition read_meta : rd TensorMeta :=
  let^ sizes := read_n kMaxTensorNDim (read_gated (r_int 8) dim_ok 0) in
  let^ strides := read_n kMaxTensorNDim (read_gated (r_int 8) dim_ok 0) in
  run^ r_uint 8 in
  let^ ndim := read_gated (r_uint 1) (fun v => v <=? Z.of_nat kMaxTensorNDim) 0 in
  let^ dtype := read_dtype in
  let^ device_type := read_device_type in
  let^ device_idx := r_int 1 in
  let^ layout := read_layout in
  let^ requires_grad := read_bool in
  let^ flags := r_uint 1 in
  let^ output_nr := r_uint 1 in
  let^ storage_offset := r_int 8 in
  let^ version := r_uint 4 in
  let^ storage_nbytes := r_uint 4 in
  run^ r_uint 8 in
  rret (mkMeta sizes strides 0 ndim dtype device_type device_idx layout requires_grad flags output_nr
          storage_offset version storage_nbytes 0).

Definition write_slot (s : TensorSlot) : Writer -> Writer :=
  (w_int 8 (offset_bytes s) >>>
   w_int 8 (nbytes s) >>>
   w_int 4 (birth_op s) >>>
   w_int 4 (death_op s) >>>
   w_int 1 (scalar_type_ordinal (slot_dtype s)) >>>
   w_int 1 (device_type_ordinal (slot_device_type s)) >>>
   w_int 1 (slot_device_idx s) >>>
   w_int 1 (layout_ordinal (slot_layout s)) >>>
   w_bool (is_external s) >>>
   write_bytes (replicate 3 0) >>>
   w_int 4 (slot_id s) >>>
   write_bytes (replicate 4 0))%writer.

Definition read_slot : rd TensorSlot :=
  let^ offset_bytes := r_uint 8 in
  let^ nbytes := r_uint 8 in
  let^ birth_op := r_uint 4 in
  let^ death_op := r_uint 4 in
  let^ dtype := read_dtype in
  let^ device_type := read_device_type in
  let^ device_idx := r_int 1 in
  let^ layout := read_layout in
  let^ is_external := read_bool in
  run^ read_zero_pad 3 in
  let^ slot_id := r_uint 4 in
  run^ read_zero_pad 4 in
  rret (mkSlot offset_bytes nbytes birth_op death_op dtype device_type device_idx layout is_external slot_id).

(** ** Headers *)

Record Header := mkHeader { h_magic : Z; h_version : Z; h_kind : TraceNodeKind; h_merkle : Z; h_content : Z }.

Definition write_header (kind : TraceNodeKind) (merkle_hash content_hash : Z) : Writer -> Writer :=
  (w_int 4 CDAG_MAGIC >>>
   w_int 4 CDAG_VERSION >>>
   w_int 1 (node_kind_ordinal kind) >>>
   write_bytes (replicate 7 0) >>>
   w_int 8 merkle_hash >>>
   w_int 8 content_hash)%writer.

Definition read_header : rd Header :=
  let^ magic := r_uint 4 in
  let^ version := r_uint 4 in
  let^ kind := read_gated (r_uint 1) (fun v => v <=? node_kind_ordinal TERMINAL) 0 in
  run^ read_zero_pad 7 in
  let^ merkle := r_uint 8 in
  let^ content := r_uint 8 in
  rret (mkHeader magic version (node_kind_of kind) merkle content).

(** ** Regions *)

(** What the image of a region holds: the region and the fields of its node
    that are not in [RegionNode].  measured_ms is the 32-bit pattern of the
    float. *)
Record RegionImage := mkImage {
  im_region : RegionNode;
  im_merkle_hash : Z;
  im_first_op_schema : Z;
  im_measured_ms : Z;
  im_variant_id : Z;
}.

(** ms >= 0 and ms <= the largest float, on the bits: the finite values with a
    clear sign, and minus zero. *)
Definition measured_ok (bits : Z) : bool := (bits <=? 0x7f7fffff) || (bits =? 0x80000000).

Definition default_meta : TensorMeta :=
  mkMeta (replicate 8 0) (replicate 8 0) 0 0 UndefinedType CPU (-1) Strided false 0 0 0 0 0 0.

(** Element [j] of an array behind a pointer, or a default when it is null. *)
Definition arr_at {A} (d : A) (o : option (list A)) (j : nat) : A :=
  match o with None => d | Some l => default d (l !! j) end.

Definition OF_INFERENCE_MODE : Z := Z.shiftl 1 0.
Definition OF_IS_MUTABLE : Z := Z.shiftl 1 1.
Definition OF_PHASE_MASK : Z := Z.shiftl 3 2.
Definition OF_PHASE_SHIFT : Z := 2.
Definition OF_TORCH_FUNCTION : Z := Z.shiftl 1 4.

(** The flag byte of an entry. *)
Definition entry_flags (te : TraceEntry) : Z :=
  let flags := 0 in
  let flags := if inference_mode te then Z.lor flags OF_INFERENCE_MODE else flags in
  let flags := if is_mutable te then Z.lor flags OF_IS_MUTABLE else flags in
  let flags := Z.lor flags (Z.shiftl (Z.land (training_phase_ordinal (training_phase te)) 3) OF_PHASE_SHIFT) in
  if torch_function te then Z.lor flags OF_TORCH_FUNCTION else flags.

Definition write_plan (plan : MemoryPlan) : Writer -> Writer :=
  (w_int 8 (pool_bytes plan) >>>
   w_int 4 (num_slots plan) >>>
   w_int 4 (num_external plan) >>>
   w_int 1 (device_type_ordinal (plan_device_type plan)) >>>
   w_int 1 (plan_device_idx plan) >>>
   write_bytes (replicate 2 0) >>>
   w_int 8 (device_capability plan) >>>
   w_int 4 (plan_rank plan) >>>
   w_int 4 (plan_world_size plan) >>>
   w_each (fun s => write_slot s) (take (Z.to_nat (num_slots plan)) (plan_slots plan)))%writer.

Definition write_entry (te : TraceEntry) : Writer -> Writer :=
  let ins := seq 0 (Z.to_nat (num_inputs te)) in
  let outs := seq 0 (Z.to_nat (num_outputs te)) in
  (w_int 8 (schema_hash te) >>>
   w_int 8 (shape_hash te) >>>
   w_int 8 (scope_hash te) >>>
   w_int 8 (callsite_hash te) >>>
   w_int 2 (num_inputs te) >>>
   w_int 2 (num_outputs te) >>>
   w_int 2 (num_scalar_args te) >>>
   w_bool (grad_enabled te) >>>
   w_int 1 (entry_flags te) >>>
   w_int 1 (kernel_id te) >>>
   w_each (fun j => write_meta (arr_at default_meta (input_metas te) j)) ins >>>
   w_each (fun j => write_meta (arr_at default_meta (output_metas te) j)) outs >>>
   w_each (fun j => w_int 8 (arr_at 0 (scalar_args te) j)) (seq 0 (Z.to_nat (num_scalar_args te))) >>>
   w_each (fun j => w_int 4 (arr_at UINT32_MAX (input_trace_indices te) j)) ins >>>
   w_each (fun j => w_int 4 (arr_at UINT32_MAX (input_slot_ids te) j)) ins >>>
   w_each (fun j => w_int 4 (arr_at UINT32_MAX (output_slot_ids te) j)) outs)%writer.

Definition write_region (img : RegionImage) : Writer -> Writer :=
  let region := im_region img in
  (write_header REGION (im_merkle_hash img) (region_content_hash region) >>>
   w_int 4 (Z.of_nat (length (region_ops region))) >>>
   w_int 8 (im_first_op_schema img) >>>
   w_int 4 (im_measured_ms img) >>>
   w_int 4 (im_variant_id img) >>>
   (match region_plan region with
    | None => w_bool false
    | Some plan => w_bool true >>> write_plan plan
    end) >>>
   w_each write_entry (region_ops region))%writer.

(** serialize_region into a buffer of [max] bytes: the count that it returns
    and the bytes of the buffer that it has written. *)
Definition serialize_region (img : RegionImage) (max : Z) : Z * list Z :=
  let w := write_region img (mkWriter [] max true) in
  (if w_ok w then w_pos w else 0, w_buf w).

Definition read_slots (n : nat) (pool : Z) : rd (list TensorSlot) :=
  read_n n (let^ s := read_slot in run^ check (can_serve_slot s pool) in rret s).

Definition read_plan : rd MemoryPlan :=
  let^ pool_bytes := r_uint 8 in
  run^ check (pool_bytes <=? kMaxPoolBytes) in
  let^ num_slots := r_uint 4 in
  run^ check (num_slots <=? CDAG_MAX_SLOTS) in
  let^ num_external := r_uint 4 in
  run^ check (num_external <=? num_slots) in
  let^ device_type := read_device_type in
  let^ device_idx := r_int 1 in
  run^ read_zero_pad 2 in
  let^ device_capability := r_uint 8 in
  let^ rank := r_int 4 in
  let^ world_size := r_int 4 in
  let^ left := remaining in
  run^ check ((num_slots =? 0) || (num_slots * kTensorSlotWireBytes <=? left)) in
  let^ slots := read_slots (Z.to_nat num_slots) pool_bytes in
  rret (mkPlan slots pool_bytes num_slots num_external device_type device_idx device_capability rank world_size).

(** An array of the arena: null when it has no elements. *)
Definition arena_array {A} (l : list A) : option (list A) := match l with [] => None | _ => Some l end.

Definition read_sid (plan : option MemoryPlan) : rd Z :=
  let^ sid := r_uint 4 in
  run^ check (match plan with
              | None => true
              | Some plan => negb (is_valid32 sid && (num_slots plan <=? sid))
              end) in
  rret sid.

Definition kWrittenFlags : Z := Z.lor (Z.lor (Z.lor OF_INFERENCE_MODE OF_IS_MUTABLE) OF_PHASE_MASK) OF_TORCH_FUNCTION.

Definition phase_of (v : Z) : TrainingPhase :=
  if v =? 0 then FORWARD else if v =? 1 then BACKWARD else if v =? 2 then OPTIMIZER else OTHER.

Definition read_entry (plan : option MemoryPlan) : rd TraceEntry :=
  let^ schema_hash := r_uint 8 in
  let^ shape_hash := r_uint 8 in
  let^ scope_hash := r_uint 8 in
  let^ callsite_hash := r_uint 8 in
  let^ num_inputs := r_uint 2 in
  let^ num_outputs := r_uint 2 in
  let^ num_scalar_args := r_uint 2 in
  run^ check (num_inputs <=? CDAG_MAX_INPUTS) in
  run^ check (num_outputs <=? CDAG_MAX_OUTPUTS) in
  run^ check (num_scalar_args <=? CDAG_MAX_SCALAR_ARGS) in
  let^ grad_enabled := read_bool in
  let^ flags := read_gated (r_uint 1) (fun b => Z.land b (u8 (Z.lnot kWrittenFlags)) =? 0) 0 in
  let^ kernel_id := r_uint 1 in
  run^ check (kernel_id <? NUM_KERNELS) in
  let^ input_metas := read_n (Z.to_nat num_inputs) read_meta in
  let^ output_metas := read_n (Z.to_nat num_outputs) read_meta in
  let^ scalar_args := read_n (Z.to_nat num_scalar_args) (r_int 8) in
  let^ input_trace_indices := read_n (Z.to_nat num_inputs) (r_uint 4) in
  let^ input_slot_ids := read_n (Z.to_nat num_inputs) (read_sid plan) in
  let^ output_slot_ids := read_n (Z.to_nat num_outputs) (read_sid plan) in
  rret (mkEntry schema_hash shape_hash scope_hash callsite_hash (arena_array input_metas) (arena_array output_metas)
          num_inputs num_outputs (arena_array scalar_args) num_scalar_args grad_enabled
          (negb (Z.land flags OF_INFERENCE_MODE =? 0)) kernel_id (negb (Z.land flags OF_IS_MUTABLE =? 0))
          (phase_of (Z.shiftr (Z.land flags OF_PHASE_MASK) OF_PHASE_SHIFT)) (negb (Z.land flags OF_TORCH_FUNCTION =? 0))
          (arena_array input_trace_indices) (arena_array input_slot_ids) (arena_array output_slot_ids)).

Definition result_is (m : result Z) (v : Z) : bool := match m with Ok h => h =? v | Fatal _ => false end.

Definition header_ok (hdr : Header) (kind : TraceNodeKind) : bool :=
  (h_magic hdr =? CDAG_MAGIC) && (h_version hdr =? CDAG_VERSION) && bool_decide (h_kind hdr = kind).

Definition read_region : rd RegionImage :=
  let^ hdr := read_header in
  let^ ok := reader_ok in
  run^ check (ok && header_ok hdr REGION) in
  let^ num_ops := r_uint 4 in
  run^ check (num_ops <=? CDAG_MAX_OPS) in
  let^ first_op_schema := r_uint 8 in
  let^ measured_ms := read_gated (r_uint 4) measured_ok 0 in
  let^ variant_id := r_uint 4 in
  let^ has_plan := read_bool in
  let^ plan := (if has_plan then let^ p := read_plan in rret (Some p) else rret None) in
  let^ left := remaining in
  run^ check ((num_ops =? 0) || (num_ops * kTraceEntryMinWireBytes <=? left)) in
  let^ ops := read_n (Z.to_nat num_ops) (read_entry plan) in
  let^ ok := reader_ok in
  run^ check ok in
  run^ check (result_is (compute_content_hash ops None) (h_content hdr)) in
  run^ check (first_op_schema =? match ops with [] => 0 | te :: _ => schema_hash te end) in
  rret (mkImage (mkRegion (h_content hdr) ops plan) (h_merkle hdr) first_op_schema measured_ms variant_id).

(** deserialize_region: the region that a buffer holds. *)
Definition deserialize_region (buf : list Z) : option RegionImage := fst <$> read_region (mkReader buf true).

(** ** Branches *)

(** The branch node over the nodes [N] that its pointers reach, [None] for a
    null pointer; an arm is a guard value with its target. *)
Record BranchNode (N : Type) := mkBranch {
  b_merkle : Z;
  b_next : option N;
  b_guard : Guard;
  b_arms : list (Z * option N);
}.
Arguments mkBranch {N}.
Arguments b_merkle {N}.
Arguments b_next {N}.
Arguments b_guard {N}.
Arguments b_arms {N}.

Definition write_guard (g : Guard) : Writer -> Writer :=
  (w_int 1 (guard_kind_ordinal (g_kind g)) >>>
   write_bytes (replicate 3 0) >>>
   w_int 4 (g_op_index g) >>>
   w_int 2 (g_arg_index g) >>>
   w_int 2 (g_dim_index g))%writer.

Definition read_guard : rd Guard :=
  let^ raw := read_gated (r_uint 1) (fun v => is_Some_b (guard_kind_of v)) (guard_kind_ordinal SHAPE_DIM) in
  run^ read_zero_pad 3 in
  let^ op_index := r_uint 4 in
  let^ arg_index := r_uint 2 in
  let^ dim_index := r_uint 2 in
  rret (mkGuard (default SHAPE_DIM (guard_kind_of raw)) op_index arg_index dim_index).

Fixpoint are_arms_sorted_by_value {N} (arms : list (Z * option N)) : bool :=
  match arms with
  | a :: ((b :: _) as arms') => negb (b.1 <? a.1) && are_arms_sorted_by_value arms'
  | _ => true
  end.

Section Branch.
Context {N : Type}.

(** The merkle hash of a node, and the node that the caller's resolver finds
    for a merkle hash. *)
Variable merkle_of : N -> Z.
Variable resolve : Z -> option N.

Definition target_hash (o : option N) : Z := match o with None => 0 | Some node => merkle_of node end.

Definition write_branch (b : BranchNode N) : Writer -> Writer :=
  (write_header BRANCH (b_merkle b) (target_hash (b_next b)) >>>
   write_guard (b_guard b) >>>
   w_int 4 (Z.of_nat (length (b_arms b))) >>>
   w_each (fun arm => w_int 8 arm.1 >>> w_int 8 (target_hash arm.2))%writer (b_arms b))%writer.

Definition serialize_branch (b : BranchNode N) (max : Z) : Z * list Z :=
  let w := write_branch b (mkWriter [] max true) in
  (if w_ok w then w_pos w else 0, w_buf w).

(** The arms are read and resolved one by one; the continuation is the
    caller's. *)
Definition read_branch : rd (BranchNode N) :=
  let^ hdr := read_header in
  let^ ok := reader_ok in
  run^ check (ok && header_ok hdr BRANCH) in
  let^ guard := read_guard in
  let^ num_arms := r_uint 4 in
  run^ check (num_arms <=? CDAG_MAX_BRANCH_ARMS) in
  let^ left := remaining in
  run^ check ((num_arms =? 0) || (num_arms * kArmWireBytes <=? left)) in
  let^ arms := read_n (Z.to_nat num_arms) (let^ v := r_int 8 in let^ t := r_uint 8 in rret (v, resolve t)) in
  let^ ok := reader_ok in
  run^ check (ok && are_arms_sorted_by_value arms) in
  rret (mkBranch (h_merkle hdr) None guard arms).

Definition deserialize_branch (buf : list Z) : option (BranchNode N) := fst <$> read_branch (mkReader buf true).
End Branch.
