(* ===== verification/SerializeProofs.v ===== *)
(** * SerializeProofs.v: the images of Serialize.v round-trip

    A [codec] is a writer function and a reader function that agree on one run
    of bytes; codecs compose along the code of the two sides. *)

From stdpp Require Import base list strings.
From Stdlib Require Import ZArith Lia.
From S2P Require Import Prelude.
From S2P Require Import Types.
From S2P Require Import Pool.
From S2P Require Import Hash.
From S2P Require Import ContentHash.
From S2P Require Import Serialize.
#[local] Open Scope Z_scope.
#[local] Open Scope reader_scope.

(** ** Bytes *)

Lemma le_bytes_length n v : length (le_bytes n v) = n.
Proof. revert v. induction n; intros v; simpl; [done|]. by rewrite IHn. Qed.

Lemma le_read_bytes n v : le_read (le_bytes n v) = v mod 256 ^ Z.of_nat n.
Proof.
  revert v. induction n as [|n IH]; intros v; simpl le_bytes; simpl le_read; [by rewrite Z.mod_1_r|]. rewrite IH.
  rewrite Nat2Z.inj_succ, Z.pow_succ_r by lia. rewrite Z.rem_mul_r by lia. lia.
Qed.

Lemma pow_256 n : 256 ^ Z.of_nat n = 2 ^ (8 * Z.of_nat n).
Proof. rewrite Z.pow_mul_r by lia. done. Qed.

(** ** Codecs *)

(** The writer appends [bs] exactly when they fit. *)
Definition writes (f : Writer -> Writer) (bs : list Z) : Prop := forall w,
  w_pos w <= w_max w ->
  w_ok (f w) = w_ok w && (w_pos w + Z.of_nat (length bs) <=? w_max w) /\ w_max (f w) = w_max w /\
  w_pos (f w) <= w_max w /\ (w_ok (f w) = true -> w_buf (f w) = w_buf w ++ bs).

(** The reader takes [bs] off a good input and gives [v]. *)
Definition reads {A} (m : rd A) (bs : list Z) (v : A) : Prop := forall rest,
  m (mkReader (bs ++ rest) true) = Some (v, mkReader rest true).

Definition codec {A} (f : Writer -> Writer) (m : rd A) (v : A) (n : nat) : Prop :=
  exists bs, writes f bs /\ reads m bs v /\ length bs = n.

Lemma writes_bytes bs : writes (write_bytes bs) bs.
Proof.
  intros w Hp. unfold write_bytes. destruct (Z.ltb_spec (w_max w) (w_pos w + Z.of_nat (length bs))); simpl.
  - rewrite (proj2 (Z.leb_gt _ _)) by lia. by rewrite andb_false_r.
  - rewrite (proj2 (Z.leb_le _ _)) by lia. rewrite andb_true_r. split_and!; try done.
    unfold w_pos in *. simpl. rewrite length_app, Nat2Z.inj_add. lia.
Qed.

Lemma writes_seq f g b1 b2 : writes f b1 -> writes g b2 -> writes (wseq f g) (b1 ++ b2).
Proof.
  intros Hf Hg w Hp. unfold wseq. destruct (Hf w Hp) as (H1 & H2 & H3 & H4).
  destruct (Hg (f w)) as (G1 & G2 & G3 & G4); [by rewrite H2|]. rewrite H2 in *. split_and!; [|done|done|].
  - rewrite G1, length_app, Nat2Z.inj_add. destruct (w_ok (f w)) eqn:Hok; simpl.
    + symmetry in H1. apply andb_prop in H1 as [-> _]. unfold w_pos. rewrite H4, length_app, Nat2Z.inj_add by done. simpl.
      f_equal. lia.
    + symmetry in H1. apply andb_false_iff in H1 as [->|Hle]; [done|]. apply Z.leb_gt in Hle. symmetry.
      apply andb_false_iff. right. apply Z.leb_gt. lia.
  - intros Hok. rewrite G4 by done. rewrite G1 in Hok. apply andb_prop in Hok as [Hok _]. by rewrite H4, (assoc_L (++)).
Qed.

Lemma writes_nothing : writes (fun w => w) [].
Proof.
  intros w Hp. rewrite app_nil_r. split_and!; [|done..]. simpl. rewrite Z.add_0_r, (proj2 (Z.leb_le _ _)) by done.
  by rewrite andb_true_r.
Qed.

Lemma reads_bind {A B} (m : rd A) (k : A -> rd B) b1 b2 a v :
  reads m b1 a -> reads (k a) b2 v -> reads (rdbind m k) (b1 ++ b2) v.
Proof. intros Hm Hk rest. unfold rdbind. rewrite <- (assoc_L (++)), Hm. simpl. apply Hk. Qed.

Lemma reads_ret {A} (v : A) : reads (rret v) [] v.
Proof. intros rest. done. Qed.

Lemma reads_bytes bs : reads (read_bytes (length bs)) bs bs.
Proof.
  intros rest. unfold read_bytes. simpl. rewrite (proj2 (Nat.ltb_ge _ _)) by (rewrite length_app; lia).
  by rewrite take_app_length, drop_app_length.
Qed.

(** The bind of the reader, along a step of the writer, and the end of a
    record. *)
Lemma codec_bind {A B} f g (m : rd A) (k : A -> rd B) a v n1 n2 :
  codec f m a n1 -> codec g (k a) v n2 -> codec (wseq f g) (rdbind m k) v (n1 + n2).
Proof.
  intros (b1 & Hw1 & Hr1 & H1) (b2 & Hw2 & Hr2 & H2). exists (b1 ++ b2).
  split_and!; [by apply writes_seq|by eapply reads_bind|rewrite length_app; lia].
Qed.

Lemma codec_last {A B} f (m : rd A) (k : A -> rd B) a v n :
  codec f m a n -> k a = rret v -> codec f (rdbind m k) v n.
Proof.
  intros (b1 & Hw1 & Hr1 & H1) Hk. exists b1. split_and!; [done| |done]. rewrite <- (app_nil_r b1).
  apply (reads_bind _ _ _ _ a); [done|]. rewrite Hk. apply reads_ret.
Qed.

(** Tests that the image passes. *)
Lemma codec_check {B} f (k : unit -> rd B) (b : bool) v n : b = true -> codec f (k tt) v n -> codec f (rdbind (check b) k) v n.
Proof.
  intros -> (b1 & Hw1 & Hr1 & H1). exists b1. split_and!; [done| |done]. apply (reads_bind (check true) k [] b1 tt); [apply reads_ret|done].
Qed.

Lemma codec_reader_ok {B} f (k : bool -> rd B) v n : codec f (k true) v n -> codec f (rdbind reader_ok k) v n.
Proof.
  intros (b1 & Hw1 & Hr1 & H1). exists b1. split_and!; [done| |done]. by apply (reads_bind reader_ok k [] b1 true).
Qed.

Lemma codec_remaining {B} f (m : rd B) (c : bool) need v n :
  need <= Z.of_nat n -> codec f m v n ->
  codec f (let^ left := remaining in run^ check (c || (need <=? left)) in m) v n.
Proof.
  intros Hneed (b1 & Hw1 & Hr1 & H1). exists b1. split_and!; [done| |done]. intros rest. unfold rdbind, remaining. simpl.
  rewrite length_app, (proj2 (Z.leb_le need _)) by lia. rewrite orb_true_r. simpl. apply Hr1.
Qed.

(** ** Primitive fields *)

Lemma codec_uint n v : 0 <= v < 2 ^ (8 * Z.of_nat n) -> codec (w_int n v) (r_uint n) v n.
Proof.
  intros Hv. exists (le_bytes n v). split_and!; [apply writes_bytes| |apply le_bytes_length].
  unfold r_uint. rewrite <- (app_nil_r (le_bytes n v)). rewrite <- (le_bytes_length n v) at 1.
  eapply reads_bind; [apply reads_bytes|]. rewrite le_read_bytes, pow_256, Z.mod_small by done. apply reads_ret.
Qed.

Lemma reads_int n v :
  (0 < n)%nat -> - 2 ^ (8 * Z.of_nat n - 1) <= v < 2 ^ (8 * Z.of_nat n - 1) -> reads (r_int n) (le_bytes n v) v.
Proof.
  intros Hn Hv. unfold r_int. rewrite <- (app_nil_r (le_bytes n v)). rewrite <- (le_bytes_length n v) at 1.
  eapply reads_bind; [apply reads_bytes|]. rewrite le_read_bytes, pow_256.
  replace (to_signed n (v mod 2 ^ (8 * Z.of_nat n))) with v; [apply reads_ret|]. unfold to_signed.
  assert (Hp : 2 ^ (8 * Z.of_nat n) = 2 * 2 ^ (8 * Z.of_nat n - 1)) by (rewrite <- Z.pow_succ_r by lia; f_equal; lia).
  destruct (Z.lt_ge_cases v 0).
  - rewrite <- (Z.mod_unique_pos v (2 ^ (8 * Z.of_nat n)) (-1) (v + 2 ^ (8 * Z.of_nat n))) by lia.
    rewrite (proj2 (Z.ltb_ge _ _)) by lia. lia.
  - rewrite Z.mod_small by lia. rewrite (proj2 (Z.ltb_lt _ _)) by lia. done.
Qed.

Lemma codec_int n v :
  (0 < n)%nat -> - 2 ^ (8 * Z.of_nat n - 1) <= v < 2 ^ (8 * Z.of_nat n - 1) -> codec (w_int n v) (r_int n) v n.
Proof.
  intros Hn Hv. exists (le_bytes n v). split_and!; [apply writes_bytes|by apply reads_int|apply le_bytes_length].
Qed.

Lemma reads_gated m bs pred sub v : reads m bs v -> pred v = true -> reads (read_gated m pred sub) bs v.
Proof.
  intros Hm Hp. unfold read_gated. rewrite <- (app_nil_r bs). eapply reads_bind; [exact Hm|]. rewrite Hp. apply reads_ret.
Qed.

(** A block that is written in one piece and read element by element. *)
Lemma codec_block {A} (enc : A -> list Z) (m : rd A) (k : nat) l :
  Forall (fun x => reads m (enc x) x /\ length (enc x) = k) l ->
  codec (write_bytes (l ≫= enc)) (read_n (length l) m) l (length l * k).
Proof.
  intros Hf. exists (l ≫= enc). split_and!; [apply writes_bytes| |].
  - induction Hf as [|x l [Hx _] _ IH]; [apply reads_ret|]. rewrite bind_cons. cbn [read_n length].
    eapply reads_bind; [exact Hx|]. rewrite <- (app_nil_r (l ≫= enc)). eapply reads_bind; [exact IH|apply reads_ret].
  - induction Hf as [|x l [_ Hx] _ IH]; [done|]. rewrite bind_cons, length_app, Hx, IH. simpl. lia.
Qed.

Lemma codec_gated f m pred sub v n : codec f m v n -> pred v = true -> codec f (read_gated m pred sub) v n.
Proof. intros Hc Hp. eapply codec_last; [exact Hc|]. cbv beta. by rewrite Hp. Qed.

Lemma codec_bool b : codec (w_bool b) read_bool b 1.
Proof.
  assert (Hw : w_bool b = w_int 1 (if b then 1 else 0)) by (unfold w_bool, w_int; by destruct b).
  rewrite Hw. apply (codec_last _ _ _ (if b then 1 else 0)); [|by destruct b]. apply codec_gated; [|by destruct b]. apply codec_uint. destruct b; simpl; lia.
Qed.

Lemma codec_zero_pad n : codec (write_bytes (replicate n 0)) (read_zero_pad n) tt n.
Proof.
  exists (replicate n 0). split_and!; [apply writes_bytes| |apply length_replicate].
  unfold read_zero_pad. rewrite <- (app_nil_r (replicate n 0)). rewrite <- (length_replicate n 0) at 1.
  eapply reads_bind; [apply reads_bytes|].
  rewrite (proj2 (forallb_forall _ _)); [apply reads_ret|]. intros b Hb. apply list_elem_of_In, elem_of_replicate_inv in Hb. by subst.
Qed.

Lemma ordinal_range_scalar t : -128 <= scalar_type_ordinal t < 128.
Proof. destruct t; simpl; lia. Qed.
Lemma ordinal_range_device t : -128 <= device_type_ordinal t < 128.
Proof. destruct t; simpl; lia. Qed.
Lemma ordinal_range_layout t : -128 <= layout_ordinal t < 128.
Proof. destruct t; simpl; lia. Qed.

Lemma codec_dtype t : codec (w_int 1 (scalar_type_ordinal t)) read_dtype t 1.
Proof.
  eapply codec_last; [apply codec_gated; [apply codec_int; [lia|apply ordinal_range_scalar]|]|].
  - unfold valid_scalar_type. by rewrite scalar_type_of_ordinal.
  - by rewrite scalar_type_of_ordinal.
Qed.

Lemma codec_device_type t : codec (w_int 1 (device_type_ordinal t)) read_device_type t 1.
Proof.
  eapply codec_last; [apply codec_gated; [apply codec_int; [lia|apply ordinal_range_device]|]|].
  - unfold valid_device_type. by rewrite device_type_of_ordinal.
  - by rewrite device_type_of_ordinal.
Qed.

Lemma codec_layout t : codec (w_int 1 (layout_ordinal t)) read_layout t 1.
Proof.
  eapply codec_last; [apply codec_gated; [apply codec_int; [lia|apply ordinal_range_layout]|]|].
  - unfold valid_layout. by rewrite layout_of_ordinal.
  - by rewrite layout_of_ordinal.
Qed.

(** A loop on both sides. *)
Lemma codec_each {A B} (f : A -> Writer -> Writer) (m : rd B) (g : A -> B) (n : nat) l :
  Forall (fun x => codec (f x) m (g x) n) l -> codec (w_each f l) (read_n (length l) m) (g <$> l) (length l * n).
Proof.
  induction 1 as [|x l Hx _ IH]; simpl.
  - exists []. split_and!; [apply writes_nothing|apply reads_ret|done].
  - change (fun w => w_each f l (f x w)) with (wseq (f x) (w_each f l)). eapply codec_bind; [exact Hx|].
    eapply codec_last; [exact IH|done].
Qed.

(** ** Codecs of at least a length *)

Definition codec_ge {A} (f : Writer -> Writer) (m : rd A) (v : A) (n : nat) : Prop := exists k, (n <= k)%nat /\ codec f m v k.

Lemma codec_codec_ge {A} f (m : rd A) v n : codec f m v n -> codec_ge f m v n.
Proof. intros H. by exists n. Qed.

Lemma codec_ge_le {A} f (m : rd A) v n n' : codec_ge f m v n -> (n' <= n)%nat -> codec_ge f m v n'.
Proof. intros (k & Hk & H) Hn. exists k. split; [lia|done]. Qed.

Lemma codec_ge_bind {A B} f g (m : rd A) (k : A -> rd B) a v n1 n2 :
  codec_ge f m a n1 -> codec_ge g (k a) v n2 -> codec_ge (wseq f g) (rdbind m k) v (n1 + n2).
Proof. intros (k1 & Hk1 & H1) (k2 & Hk2 & H2). exists (k1 + k2)%nat. split; [lia|]. by eapply codec_bind. Qed.

Lemma codec_ge_last {A B} f (m : rd A) (k : A -> rd B) a v n :
  codec_ge f m a n -> k a = rret v -> codec_ge f (rdbind m k) v n.
Proof. intros (k1 & Hk1 & H1) H2. exists k1. split; [done|]. by eapply codec_last. Qed.

Lemma codec_ge_check {B} f (k : unit -> rd B) (b : bool) v n :
  b = true -> codec_ge f (k tt) v n -> codec_ge f (rdbind (check b) k) v n.
Proof. intros Hb (k1 & Hk1 & H1). exists k1. split; [done|]. by apply codec_check. Qed.

Lemma codec_ge_reader_ok {B} f (k : bool -> rd B) v n : codec_ge f (k true) v n -> codec_ge f (rdbind reader_ok k) v n.
Proof. intros (k1 & Hk1 & H1). exists k1. split; [done|]. by apply codec_reader_ok. Qed.

Lemma codec_ge_remaining {B} f (m : rd B) (c : bool) need v n :
  need <= Z.of_nat n -> codec_ge f m v n ->
  codec_ge f (let^ left := remaining in run^ check (c || (need <=? left)) in m) v n.
Proof. intros Hneed (k1 & Hk1 & H1). exists k1. split; [done|]. apply codec_remaining; [lia|done]. Qed.

(** A loop over elements of different lengths. *)
Lemma codec_ge_each {A B} (f : A -> Writer -> Writer) (m : rd B) (g : A -> B) (n : nat) l :
  Forall (fun x => codec_ge (f x) m (g x) n) l -> codec_ge (w_each f l) (read_n (length l) m) (g <$> l) (length l * n).
Proof.
  induction 1 as [|x l Hx _ IH]; simpl.
  - apply codec_codec_ge, (codec_each f m g n []). constructor.
  - change (fun w => w_each f l (f x w)) with (wseq (f x) (w_each f l)). eapply codec_ge_bind; [exact Hx|].
    eapply codec_ge_last; [exact IH|done].
Qed.

(** ** Tensors and slots *)

Definition int_width (n : nat) (v : Z) : Prop := - 2 ^ (8 * Z.of_nat n - 1) <= v < 2 ^ (8 * Z.of_nat n - 1).
Definition uint_width (n : nat) (v : Z) : Prop := 0 <= v < 2 ^ (8 * Z.of_nat n).

(** A descriptor whose fields have the widths of their types, with extents
    within the bound and a rank that fits the blocks. *)
Record meta_ok (m : TensorMeta) : Prop := {
  mo_sizes : length (sizes m) = kMaxTensorNDim /\ Forall (fun d => int_width 8 d /\ dim_ok d = true) (sizes m);
  mo_strides : length (strides m) = kMaxTensorNDim /\ Forall (fun d => int_width 8 d /\ dim_ok d = true) (strides m);
  mo_ndim : 0 <= ndim m <= Z.of_nat kMaxTensorNDim;
  mo_device_idx : int_width 1 (device_idx m);
  mo_flags : uint_width 1 (flags m);
  mo_output_nr : uint_width 1 (output_nr m);
  mo_storage_offset : int_width 8 (storage_offset m);
  mo_version : uint_width 4 (version m);
  mo_storage_nbytes : uint_width 4 (storage_nbytes m);
}.

(** What a loaded descriptor is: the two process-local fields are gone. *)
Definition loaded_meta (m : TensorMeta) : TensorMeta :=
  mkMeta (sizes m) (strides m) 0 (ndim m) (dtype m) (device_type m) (device_idx m) (layout m) (requires_grad m) (flags m)
    (output_nr m) (storage_offset m) (version m) (storage_nbytes m) 0.

(** One step along a record: the fields by their kinds. *)
Ltac codec_field :=
  first
    [ apply codec_dtype | apply codec_device_type | apply codec_layout | apply codec_bool | apply codec_zero_pad
    | apply codec_gated; [apply codec_int; [lia|]|] | apply codec_gated; [apply codec_uint|]
    | apply codec_int; [lia|] | apply codec_uint ].

Ltac codec_record := repeat (eapply codec_bind; [codec_field|]).

Lemma codec_dims l :
  length l = kMaxTensorNDim -> Forall (fun d => int_width 8 d /\ dim_ok d = true) l ->
  codec (write_bytes (l ≫= le_bytes 8)) (read_n kMaxTensorNDim (read_gated (r_int 8) dim_ok 0)) l 64.
Proof.
  intros Hl Hf. rewrite <- Hl. replace 64%nat with (length l * 8)%nat by (rewrite Hl; done).
  apply codec_block. eapply Forall_impl; [exact Hf|]. intros d [Hd Hok]. split; [|apply le_bytes_length].
  apply reads_gated; [apply reads_int; [lia|exact Hd]|exact Hok].
Qed.

Lemma codec_meta m : meta_ok m -> codec (write_meta m) read_meta (loaded_meta m) 168.
Proof.
  intros Hm. replace 168%nat with (64 + (64 + (8 + (1 + (1 + (1 + (1 + (1 + (1 + (1 + (1 + (8 + (4 + (4 + 8))))))))))))))%nat by lia.
  unfold write_meta, read_meta.
  eapply codec_bind; [apply codec_dims; apply Hm|]. eapply codec_bind; [apply codec_dims; apply Hm|].
  codec_record; try apply Hm; try done.
  - destruct (mo_ndim _ Hm) as [? Hn]. unfold kMaxTensorNDim in Hn. simpl in *. lia.
  - destruct (mo_ndim _ Hm) as [? Hn]. by apply Z.leb_le.
  - eapply codec_last; [apply codec_uint; done|done].
Qed.

(** A slot with fields of their widths. *)
Record slot_ok (s : TensorSlot) : Prop := {
  so_offset : uint_width 8 (offset_bytes s);
  so_nbytes : uint_width 8 (nbytes s);
  so_birth : uint_width 4 (birth_op s);
  so_death : uint_width 4 (death_op s);
  so_device_idx : int_width 1 (slot_device_idx s);
  so_slot_id : uint_width 4 (slot_id s);
}.

Lemma codec_slot s : slot_ok s -> codec (write_slot s) read_slot s 40.
Proof.
  intros Hs. replace 40%nat with (8 + (8 + (4 + (4 + (1 + (1 + (1 + (1 + (1 + (3 + (4 + 4)))))))))))%nat by lia.
  unfold write_slot, read_slot. codec_record; try apply Hs.
  eapply codec_last; [apply codec_zero_pad|]. by destruct s.
Qed.

(** ** Headers, plans and guards *)

Lemma codec_header kind merkle content :
  uint_width 8 merkle -> uint_width 8 content ->
  codec (write_header kind merkle content) read_header (mkHeader CDAG_MAGIC CDAG_VERSION kind merkle content) 32.
Proof.
  intros Hm Hc. replace 32%nat with (4 + (4 + (1 + (7 + (8 + 8)))))%nat by lia.
  unfold write_header, read_header. codec_record; try done; try by destruct kind.
  eapply codec_last; [by apply codec_uint|]. by destruct kind.
Qed.

(** A plan that the pool serves, with fields of their widths. *)
Record plan_ok (plan : MemoryPlan) : Prop := {
  po_slots : Z.of_nat (length (plan_slots plan)) = num_slots plan;
  po_count : num_slots plan <= CDAG_MAX_SLOTS;
  po_external : 0 <= num_external plan <= num_slots plan;
  po_pool : 0 <= pool_bytes plan <= kMaxPoolBytes;
  po_device_idx : int_width 1 (plan_device_idx plan);
  po_capability : uint_width 8 (device_capability plan);
  po_rank : int_width 4 (plan_rank plan);
  po_world_size : int_width 4 (plan_world_size plan);
  po_served : Forall (fun s => slot_ok s /\ can_serve_slot s (pool_bytes plan) = true) (plan_slots plan);
}.

Lemma codec_slots l pool :
  Forall (fun s => slot_ok s /\ can_serve_slot s pool = true) l ->
  codec (w_each (fun s => write_slot s) l) (read_slots (length l) pool) l (length l * 40).
Proof.
  intros Hf. rewrite <- (list_fmap_id l) at 3. unfold read_slots. apply codec_each.
  eapply Forall_impl; [exact Hf|]. intros s [Hs Hserve]. eapply codec_last; [by apply codec_slot|]. simpl. by rewrite Hserve.
Qed.

Lemma codec_plan plan : plan_ok plan -> codec_ge (write_plan plan) read_plan plan 0.
Proof.
  intros Hp. pose proof (po_slots _ Hp) as Hlen. pose proof (po_count _ Hp) as Hcnt. unfold CDAG_MAX_SLOTS in Hcnt.
  assert (Hmax : kMaxNumSlots < 2 ^ 32) by done. assert (Hpool : kMaxPoolBytes < 2 ^ 64) by done.
  destruct (po_external _ Hp). destruct (po_pool _ Hp). eapply codec_ge_le; [eapply codec_codec_ge|lia].
  unfold write_plan, read_plan.
  eapply codec_bind; [apply codec_uint; lia|]. apply codec_check; [by apply Z.leb_le|].
  eapply codec_bind; [apply codec_uint; lia|]. apply codec_check; [by apply Z.leb_le|].
  eapply codec_bind; [apply codec_uint; lia|]. apply codec_check; [by apply Z.leb_le|].
  codec_record; try apply Hp.
  rewrite take_ge by lia. apply codec_remaining with (n := (length (plan_slots plan) * 40)%nat).
  - unfold kTensorSlotWireBytes. lia.
  - replace (Z.to_nat (num_slots plan)) with (length (plan_slots plan)) by lia.
    eapply codec_last; [by apply codec_slots, Hp|]. by destruct plan.
Qed.

(** A guard with fields of their widths. *)
Record guard_ok (g : Guard) : Prop := {
  go_op : uint_width 4 (g_op_index g);
  go_arg : uint_width 2 (g_arg_index g);
  go_dim : uint_width 2 (g_dim_index g);
}.

Lemma codec_guard g : guard_ok g -> codec (write_guard g) read_guard g 12.
Proof.
  intros Hg. replace 12%nat with (1 + (3 + (4 + (2 + 2))))%nat by lia.
  unfold write_guard, read_guard. codec_record; try apply Hg; try by destruct g as [[] ? ? ?].
  eapply codec_last; [apply codec_uint; apply Hg|]. by destruct g as [[] ? ? ?].
Qed.

(** ** Entries *)

(** The [n] elements that the writer takes from an array, and the array that
    a load gives for them. *)
Definition arr_elems {A} (d : A) (o : option (list A)) (n : Z) : list A := (fun j => arr_at d o j) <$> seq 0 (Z.to_nat n).

Lemma arr_elems_length {A} (d : A) o n : length (arr_elems d o n) = Z.to_nat n.
Proof. unfold arr_elems. by rewrite length_fmap, length_seq. Qed.

Lemma arr_elems_take {A} (d : A) l n : (Z.to_nat n <= length l)%nat -> arr_elems d (Some l) n = take (Z.to_nat n) l.
Proof.
  intros Hn. apply list_eq_same_length with (n := Z.to_nat n); [rewrite length_take; lia|apply arr_elems_length|].
  intros i x y Hi Hx Hy. unfold arr_elems in Hx. apply list_lookup_fmap_Some in Hx as (j & -> & Hj).
  apply lookup_seq in Hj as [-> Hj]. rewrite lookup_take_lt in Hy by done. simpl. simpl in Hy. by rewrite Hy.
Qed.

Lemma codec_array {A B} (f : A -> Writer -> Writer) (m : rd B) (g : A -> B) (k : nat) d o n :
  Forall (fun x => codec (f x) m (g x) k) (arr_elems d o n) ->
  codec_ge (w_each (fun j => f (arr_at d o j)) (seq 0 (Z.to_nat n))) (read_n (Z.to_nat n) m) (g <$> arr_elems d o n) 0.
Proof.
  intros Hf. eapply codec_ge_le; [apply codec_codec_ge|apply Nat.le_0_l]. unfold arr_elems in *. rewrite <- list_fmap_compose.
  rewrite <- (length_seq (Z.to_nat n) 0) at 2. apply (codec_each (fun j => f (arr_at d o j)) m (g ∘ (fun j => arr_at d o j)) k).
  exact (proj1 (Forall_fmap _ _ _) Hf).
Qed.

(** A slot identifier that the table of the plan holds. *)
Definition sid_ok (plan : option MemoryPlan) (sid : Z) : Prop :=
  uint_width 4 sid /\ (forall p, plan = Some p -> sid = none32 \/ sid < num_slots p).

Record entry_ok (plan : option MemoryPlan) (te : TraceEntry) : Prop := {
  eo_schema : uint_width 8 (schema_hash te);
  eo_shape : uint_width 8 (shape_hash te);
  eo_scope : uint_width 8 (scope_hash te);
  eo_callsite : uint_width 8 (callsite_hash te);
  eo_num_inputs : 0 <= num_inputs te <= CDAG_MAX_INPUTS;
  eo_num_outputs : 0 <= num_outputs te <= CDAG_MAX_OUTPUTS;
  eo_num_scalar_args : 0 <= num_scalar_args te <= CDAG_MAX_SCALAR_ARGS;
  eo_kernel_id : 0 <= kernel_id te < NUM_KERNELS;
  eo_input_metas : Forall meta_ok (arr_elems default_meta (input_metas te) (num_inputs te));
  eo_output_metas : Forall meta_ok (arr_elems default_meta (output_metas te) (num_outputs te));
  eo_scalar_args : Forall (int_width 8) (arr_elems 0 (scalar_args te) (num_scalar_args te));
  eo_input_trace : Forall (uint_width 4) (arr_elems UINT32_MAX (input_trace_indices te) (num_inputs te));
  eo_input_slots : Forall (sid_ok plan) (arr_elems UINT32_MAX (input_slot_ids te) (num_inputs te));
  eo_output_slots : Forall (sid_ok plan) (arr_elems UINT32_MAX (output_slot_ids te) (num_outputs te));
}.

(** What a loaded entry is: every array has as many elements as its count
    says, and none is allocated for a count of zero. *)
Definition loaded_entry (te : TraceEntry) : TraceEntry :=
  mkEntry (schema_hash te) (shape_hash te) (scope_hash te) (callsite_hash te)
    (arena_array (loaded_meta <$> arr_elems default_meta (input_metas te) (num_inputs te)))
    (arena_array (loaded_meta <$> arr_elems default_meta (output_metas te) (num_outputs te)))
    (num_inputs te) (num_outputs te) (arena_array (arr_elems 0 (scalar_args te) (num_scalar_args te)))
    (num_scalar_args te) (grad_enabled te) (inference_mode te) (kernel_id te) (is_mutable te)
    (training_phase te) (torch_function te)
    (arena_array (arr_elems UINT32_MAX (input_trace_indices te) (num_inputs te)))
    (arena_array (arr_elems UINT32_MAX (input_slot_ids te) (num_inputs te)))
    (arena_array (arr_elems UINT32_MAX (output_slot_ids te) (num_outputs te))).

(** The flag byte of an entry, its bounds and what a reader takes from it. *)
Lemma entry_flags_read te (f := entry_flags te) :
  uint_width 1 f /\ (Z.land f (u8 (Z.lnot kWrittenFlags)) =? 0) = true /\
  negb (Z.land f OF_INFERENCE_MODE =? 0) = inference_mode te /\
  negb (Z.land f OF_IS_MUTABLE =? 0) = is_mutable te /\
  phase_of (Z.shiftr (Z.land f OF_PHASE_MASK) OF_PHASE_SHIFT) = training_phase te /\
  negb (Z.land f OF_TORCH_FUNCTION =? 0) = torch_function te.
Proof.
  subst f. unfold entry_flags. destruct (inference_mode te), (is_mutable te), (training_phase te), (torch_function te); by vm_compute.
Qed.

Lemma codec_sid plan sid : sid_ok plan sid -> codec (w_int 4 sid) (read_sid plan) sid 4.
Proof.
  intros [Hw Hp]. eapply codec_last; [by apply codec_uint|]. cbv beta. destruct plan as [p|]; [|done].
  destruct (Hp p eq_refl) as [->|Hlt]; [done|]. rewrite (proj2 (Z.leb_gt _ _)) by done. by rewrite andb_false_r.
Qed.

(** An array of primitive elements comes back as it is. *)
Lemma codec_prim_array {A} (f : A -> Writer -> Writer) (m : rd A) (k : nat) (P : A -> Prop) d o n :
  (forall x, P x -> codec (f x) m x k) -> Forall P (arr_elems d o n) ->
  codec_ge (w_each (fun j => f (arr_at d o j)) (seq 0 (Z.to_nat n))) (read_n (Z.to_nat n) m) (arr_elems d o n) 0.
Proof.
  intros Hc Hf. rewrite <- (list_fmap_id (arr_elems d o n)). apply (codec_array f m id k). eapply Forall_impl; [exact Hf|exact Hc].
Qed.

Ltac codec_ge_record := repeat (eapply codec_ge_bind; [apply codec_codec_ge; codec_field|]).

Lemma codec_entry plan te :
  entry_ok plan te -> codec_ge (write_entry te) (read_entry plan) (loaded_entry te) 40.
Proof.
  intros He. destruct (eo_num_inputs _ _ He), (eo_num_outputs _ _ He), (eo_num_scalar_args _ _ He), (eo_kernel_id _ _ He).
  unfold CDAG_MAX_INPUTS, CDAG_MAX_OUTPUTS, CDAG_MAX_SCALAR_ARGS, NUM_KERNELS in *.
  destruct (entry_flags_read te) as (Hf1 & Hf2 & Hf3 & Hf4 & Hf5 & Hf6).
  eapply codec_ge_le.
  - unfold write_entry, read_entry. cbv zeta. do 4 (eapply codec_ge_bind; [apply codec_codec_ge, codec_uint, He|]).
    do 3 (eapply codec_ge_bind; [apply codec_codec_ge, codec_uint; simpl; lia|]).
    do 3 (apply codec_ge_check; [by apply Z.leb_le|]).
    eapply codec_ge_bind; [apply codec_codec_ge, codec_bool|].
    eapply codec_ge_bind; [apply codec_codec_ge, codec_gated; [apply codec_uint, Hf1|exact Hf2]|].
    eapply codec_ge_bind; [apply codec_codec_ge, codec_uint; simpl; lia|]. apply codec_ge_check; [by apply Z.ltb_lt|].
    do 2 (eapply codec_ge_bind;
      [eapply (codec_array write_meta); eapply Forall_impl; [apply He|intros m; apply codec_meta]|]).
    eapply codec_ge_bind; [apply (codec_prim_array (w_int 8) _ 8 (int_width 8)); [|apply He]|].
    { intros x Hx. apply codec_int; [lia|exact Hx]. }
    eapply codec_ge_bind; [apply (codec_prim_array (w_int 4) _ 4 (uint_width 4)); [|apply He]|].
    { intros x Hx. apply codec_uint, Hx. }
    eapply codec_ge_bind; [apply (codec_prim_array (w_int 4) _ 4 (sid_ok plan)); [apply codec_sid|apply He]|].
    eapply codec_ge_last; [apply (codec_prim_array (w_int 4) _ 4 (sid_ok plan)); [apply codec_sid|apply He]|].
    cbv beta. by rewrite Hf3, Hf4, Hf5, Hf6.
  - simpl. lia.
Qed.
