(* ===== verification/SerializeTheorems.v ===== *)
(** * SerializeTheorems.v: what an image of a region or of a branch gives back

    The whole images as codecs, and the theorems on the two functions of each
    direction; then what a load accepts from bytes of any origin. *)

From stdpp Require Import base list strings.
From Stdlib Require Import ZArith Lia.
From S2P Require Import Prelude.
From S2P Require Import Types.
From S2P Require Import Pool.
From S2P Require Import PoolProofs.
From S2P Require Import Hash.
From S2P Require Import ContentHash.
From S2P Require Import Serialize.
From S2P Require Import SerializeProofs.
#[local] Open Scope Z_scope.
#[local] Open Scope reader_scope.

(** ** From a codec to the two functions *)

Lemma codec_buffer {A} f (m : rd A) v n :
  codec f m v n ->
  exists bs,
    (forall max, Z.of_nat (length bs) <= max ->
       w_ok (f (mkWriter [] max true)) = true /\ w_buf (f (mkWriter [] max true)) = bs) /\
    (forall max, 0 <= max < Z.of_nat (length bs) -> w_ok (f (mkWriter [] max true)) = false) /\
    (forall rest, fst <$> m (mkReader (bs ++ rest) true) = Some v).
Proof.
  intros (bs & Hw & Hr & _). exists bs. split_and!.
  - intros max Hmax. destruct (Hw (mkWriter [] max true)) as (H1 & _ & _ & H4); [unfold w_pos; simpl; lia|].
    unfold w_pos in H1. simpl in H1. rewrite (proj2 (Z.leb_le _ _)) in H1 by lia. split; [done|]. by apply H4.
  - intros max Hmax. destruct (Hw (mkWriter [] max true)) as (H1 & _); [unfold w_pos; simpl; lia|].
    unfold w_pos in H1. simpl in H1. by rewrite (proj2 (Z.leb_gt _ _)) in H1 by lia.
  - intros rest. by rewrite Hr.
Qed.

(** ** Regions *)

(** The array that a count of [n] needs. *)
Definition array_there {A} (o : option (list A)) (n : Z) : Prop :=
  n = 0 \/ exists l, o = Some l /\ n <= Z.of_nat (length l).

Lemma default_arena_array {A} (l : list A) : default [] (arena_array l) = l.
Proof. by destruct l. Qed.

Lemma array_there_loaded {A B} (d : A) (f : A -> B) o n :
  array_there o n ->
  take (Z.to_nat n) (default [] (arena_array (f <$> arr_elems d o n))) = f <$> take (Z.to_nat n) (default [] o).
Proof.
  rewrite default_arena_array. intros [->|(l & -> & Hn)]; [done|]. rewrite arr_elems_take by lia. simpl.
  rewrite take_ge; [done|]. rewrite length_fmap, length_take. lia.
Qed.

Lemma fold_meta_loaded state m : fold_meta state (loaded_meta m) = fold_meta state m.
Proof.
  unfold fold_meta. assert (Hd : dim_hash_simd (loaded_meta m) = dim_hash_simd m) by (unfold dim_hash_simd, combined_lane; cbn [loaded_meta sizes strides ndim]; reflexivity).
  assert (Hp : meta_packed (loaded_meta m) = meta_packed m) by (destruct m; reflexivity). by rewrite Hd, Hp.
Qed.

Lemma fold_metas_loaded l state : fold_left fold_meta (loaded_meta <$> l) state = fold_left fold_meta l state.
Proof.
  revert state. induction l as [|m l IH]; intros state; [reflexivity|]. cbn [fmap list_fmap fold_left].
  by rewrite fold_meta_loaded, IH.
Qed.

(** The scalar arguments, whose fold tests the pointer. *)
Lemma fold_args_there o n state (g : Z -> Z -> Z) :
  match o with None => state | Some args => fold_left g (take (Z.to_nat n) args) state end =
  fold_left g (take (Z.to_nat n) (default [] o)) state.
Proof. destruct o; simpl; [done|]. by rewrite take_nil. Qed.

(** A load keeps what an entry adds to the content hash. *)
Lemma fold_entry_loaded te state :
  array_there (input_metas te) (num_inputs te) -> array_there (scalar_args te) (num_scalar_args te) ->
  fold_entry_ state (loaded_entry te) = fold_entry_ state te.
Proof.
  intros Hi Hs. unfold fold_entry_. rewrite !fold_args_there. cbn [loaded_entry schema_hash input_metas num_inputs scalar_args num_scalar_args].
  rewrite (array_there_loaded default_meta loaded_meta) by done. rewrite fold_metas_loaded.
  rewrite <- (list_fmap_id (arr_elems 0 _ _)), (array_there_loaded 0 id) by done. by rewrite list_fmap_id.
Qed.

Record image_ok (img : RegionImage) : Prop := {
  io_merkle : uint_width 8 (im_merkle_hash img);
  io_count : Z.of_nat (length (region_ops (im_region img))) <= CDAG_MAX_OPS;
  io_first : im_first_op_schema img = match region_ops (im_region img) with [] => 0 | te :: _ => schema_hash te end;
  io_measured : uint_width 4 (im_measured_ms img) /\ measured_ok (im_measured_ms img) = true;
  io_variant : uint_width 4 (im_variant_id img);
  io_plan : forall plan, region_plan (im_region img) = Some plan -> plan_ok plan;
  io_ops : Forall (entry_ok (region_plan (im_region img))) (region_ops (im_region img));
  io_arrays : Forall (fun te => array_there (input_metas te) (num_inputs te) /\
                                array_there (scalar_args te) (num_scalar_args te)) (region_ops (im_region img));
  io_hash : compute_content_hash (region_ops (im_region img)) None = Ok (region_content_hash (im_region img));
}.

Definition loaded_image (img : RegionImage) : RegionImage :=
  mkImage
    (mkRegion (region_content_hash (im_region img)) (loaded_entry <$> region_ops (im_region img)) (region_plan (im_region img)))
    (im_merkle_hash img) (im_first_op_schema img) (im_measured_ms img) (im_variant_id img).

Lemma loaded_content_hash ops recipe :
  Forall (fun te => array_there (input_metas te) (num_inputs te) /\ array_there (scalar_args te) (num_scalar_args te)) ops ->
  compute_content_hash (loaded_entry <$> ops) recipe = compute_content_hash ops recipe.
Proof.
  intros Hf. unfold compute_content_hash. destruct (fold_start recipe) as [st|]; [|done]. simpl. do 2 f_equal.
  revert st. induction Hf as [|te ops [Hi Hs] _ IH]; intros st; [done|].
  cbn [fmap list_fmap fold_left]. by rewrite fold_entry_loaded, IH.
Qed.

Lemma codec_opt_plan region :
  (forall plan, region_plan region = Some plan -> plan_ok plan) ->
  codec_ge (match region_plan region with None => w_bool false | Some plan => wseq (w_bool true) (write_plan plan) end)
    (let^ has_plan := read_bool in if has_plan then let^ p := read_plan in rret (Some p) else rret None)
    (region_plan region) 0.
Proof.
  intros Hp. destruct (region_plan region) as [plan|].
  - eapply codec_ge_le; [|apply Nat.le_0_l]. eapply codec_ge_bind; [apply codec_codec_ge, codec_bool|].
    eapply codec_ge_last; [by apply codec_plan, Hp|done].
  - eapply codec_ge_le; [|apply Nat.le_0_l]. eapply codec_ge_last; [apply codec_codec_ge, codec_bool|done].
Qed.

(** The parse without the nested bind of the plan. *)
Lemma rdbind_assoc {A B C} (m : rd A) (k : A -> rd B) (h : B -> rd C) r :
  rdbind m (fun x => rdbind (k x) h) r = rdbind (rdbind m k) h r.
Proof. unfold rdbind. by destruct (m r) as [[a r']|]. Qed.

Lemma codec_ge_assoc {A B C} f (m : rd A) (k : A -> rd B) (h : B -> rd C) v n :
  codec_ge f (rdbind (rdbind m k) h) v n -> codec_ge f (rdbind m (fun x => rdbind (k x) h)) v n.
Proof.
  intros (k' & Hk & bs & Hw & Hr & Hl). exists k'. split; [done|]. exists bs. split_and!; [done| |done].
  intros rest. rewrite rdbind_assoc. apply Hr.
Qed.

(** Tests after the last byte. *)
Lemma codec_ge_final {A B} f (m : rd A) (k : A -> rd B) a v n :
  codec_ge f m a n -> (forall r, rd_ok r = true -> k a r = Some (v, r)) -> codec_ge f (rdbind m k) v n.
Proof.
  intros (k' & Hk & bs & Hw & Hr & Hl) Hfin. exists k'. split; [done|]. exists bs. split_and!; [done| |done].
  intros rest. unfold rdbind. rewrite Hr. simpl. by apply Hfin.
Qed.

Lemma fmix64_uint k : uint_width 8 (fmix64 k).
Proof. unfold fmix64. apply xorshift_width, u64_range. Qed.

Lemma codec_region_ops region :
  Forall (entry_ok (region_plan region)) (region_ops region) ->
  codec_ge (w_each write_entry (region_ops region))
    (read_n (Z.to_nat (Z.of_nat (length (region_ops region)))) (read_entry (region_plan region)))
    (loaded_entry <$> region_ops region) (length (region_ops region) * 40).
Proof.
  intros Hf. rewrite Nat2Z.id. apply codec_ge_each. eapply Forall_impl; [exact Hf|]. intros te. apply codec_entry.
Qed.

Lemma head_schema_loaded ops :
  match loaded_entry <$> ops with [] => 0 | te :: _ => schema_hash te end =
  match ops with [] => 0 | te :: _ => schema_hash te end.
Proof. by destruct ops. Qed.

Lemma codec_region img : image_ok img -> codec_ge (write_region img) read_region (loaded_image img) 0.
Proof.
  intros Hi. pose proof (io_count _ Hi) as Hcnt. destruct (io_measured _ Hi) as [Hm1 Hm2].
  assert (Hmax : CDAG_MAX_OPS < 2 ^ 32) by done.
  assert (Hch : uint_width 8 (region_content_hash (im_region img))).
  { pose proof (io_hash _ Hi) as Hh. unfold compute_content_hash in Hh. simpl in Hh. injection Hh as <-. apply fmix64_uint. }
  eapply codec_ge_le; [|apply Nat.le_0_l]. unfold write_region, read_region. cbv zeta.
  eapply codec_ge_bind; [apply codec_codec_ge, codec_header; [apply Hi|exact Hch]|].
  apply codec_ge_reader_ok, codec_ge_check; [done|].
  eapply codec_ge_bind; [apply codec_codec_ge, codec_uint; lia|]. apply codec_ge_check; [by apply Z.leb_le|].
  eapply codec_ge_bind; [apply codec_codec_ge, codec_uint|].
  { rewrite (io_first _ Hi). destruct (region_ops (im_region img)) as [|te ops] eqn:Hops; [simpl; lia|].
    pose proof (io_ops _ Hi) as Ho. rewrite Hops in Ho. apply Forall_cons in Ho as [Ho _]. apply Ho. }
  eapply codec_ge_bind; [apply codec_codec_ge, codec_gated; [apply codec_uint, Hm1|exact Hm2]|].
  eapply codec_ge_bind; [apply codec_codec_ge, codec_uint; apply Hi|].
  apply codec_ge_assoc. eapply codec_ge_bind; [apply codec_opt_plan, Hi|].
  eapply codec_ge_remaining; [|eapply codec_ge_final; [apply codec_region_ops, Hi|]].
  - unfold kTraceEntryMinWireBytes. lia.
  - intros r Hr. unfold rdbind at 1, reader_ok. cbn [mbind option_bind]. rewrite Hr.
    rewrite loaded_content_hash by apply Hi. rewrite (io_hash _ Hi). unfold result_is. cbn [h_content]. rewrite Z.eqb_refl.
    rewrite head_schema_loaded, <- (io_first _ Hi), Z.eqb_refl. reflexivity.
Qed.

(** C17: an image that holds a region is written whole when the buffer is long
    enough and reported as not written when it is not, and a load of it, with
    whatever follows it in the buffer, gives the region back: the same hashes,
    plan and operations, without the process-local addresses and with every
    array allocated to its count. *)
Theorem serialize_region_roundtrip img :
  image_ok img ->
  exists bs,
    (forall max, Z.of_nat (length bs) <= max -> serialize_region img max = (Z.of_nat (length bs), bs)) /\
    (forall max, 0 <= max < Z.of_nat (length bs) -> (serialize_region img max).1 = 0) /\
    (forall rest, deserialize_region (bs ++ rest) = Some (loaded_image img)).
Proof.
  intros Hi. destruct (codec_region img Hi) as (n & _ & Hc). destruct (codec_buffer _ _ _ _ Hc) as (bs & H1 & H2 & H3).
  exists bs. split_and!; [| |exact H3].
  - intros max Hmax. destruct (H1 max Hmax) as [Hok Hbuf]. unfold serialize_region, w_pos. by rewrite Hok, Hbuf.
  - intros max Hmax. unfold serialize_region. by rewrite H2.
Qed.

(** ** Branches *)

Section Branch.
Context {N : Type}.
Variable merkle_of : N -> Z.
Variable resolve : Z -> option N.

Record branch_ok (b : BranchNode N) : Prop := {
  bo_merkle : uint_width 8 (b_merkle b);
  bo_next : uint_width 8 (target_hash merkle_of (b_next b));
  bo_guard : guard_ok (b_guard b);
  bo_count : Z.of_nat (length (b_arms b)) <= CDAG_MAX_BRANCH_ARMS;
  bo_arms : Forall (fun arm => int_width 8 arm.1 /\ uint_width 8 (target_hash merkle_of arm.2)) (b_arms b);
  bo_sorted : are_arms_sorted_by_value (b_arms b) = true;
}.

(** The arms with the targets that the resolver finds. *)
Definition resolved_arms (arms : list (Z * option N)) : list (Z * option N) :=
  (fun arm => (arm.1, resolve (target_hash merkle_of arm.2))) <$> arms.

Lemma sorted_resolved arms : are_arms_sorted_by_value (resolved_arms arms) = are_arms_sorted_by_value arms.
Proof.
  induction arms as [|a arms IH]; [done|]. destruct arms as [|b arms]; [done|]. simpl in *. by rewrite IH.
Qed.

Lemma codec_arms arms :
  Forall (fun arm => int_width 8 arm.1 /\ uint_width 8 (target_hash merkle_of arm.2)) arms ->
  codec (w_each (fun arm => wseq (w_int 8 arm.1) (w_int 8 (target_hash merkle_of arm.2))) arms)
    (read_n (length arms) (let^ v := r_int 8 in let^ t := r_uint 8 in rret (v, resolve t))) (resolved_arms arms)
    (length arms * 16).
Proof.
  intros Hf. unfold resolved_arms. apply codec_each. eapply Forall_impl; [exact Hf|]. intros arm [Hv Ht].
  replace 16%nat with (8 + 8)%nat by lia. eapply codec_bind; [apply codec_int; [lia|exact Hv]|].
  eapply codec_last; [by apply codec_uint|done].
Qed.

Lemma codec_branch b :
  branch_ok b ->
  codec_ge (write_branch merkle_of b) (read_branch resolve)
    (mkBranch (b_merkle b) None (b_guard b) (resolved_arms (b_arms b))) 0.
Proof.
  intros Hb. pose proof (bo_count _ Hb) as Hcnt. assert (Hmax : CDAG_MAX_BRANCH_ARMS < 2 ^ 32) by done.
  eapply codec_ge_le; [|apply Nat.le_0_l]. unfold write_branch, read_branch.
  eapply codec_ge_bind; [apply codec_codec_ge, codec_header; apply Hb|].
  apply codec_ge_reader_ok, codec_ge_check; [done|].
  eapply codec_ge_bind; [apply codec_codec_ge, codec_guard, Hb|].
  eapply codec_ge_bind; [apply codec_codec_ge, codec_uint; lia|]. apply codec_ge_check; [by apply Z.leb_le|].
  eapply codec_ge_remaining; [|rewrite Nat2Z.id; eapply codec_ge_final; [apply codec_codec_ge, codec_arms, Hb|]].
  - unfold kArmWireBytes. lia.
  - intros r Hr. unfold rdbind at 1, reader_ok. cbn [mbind option_bind]. rewrite Hr, sorted_resolved, (bo_sorted _ Hb). done.
Qed.

(** The image of a branch gives the branch back, each target as the
    resolver finds it for the merkle hash that the image holds, and with the
    continuation left to the caller; a buffer that is too short is reported
    as such. *)
Theorem serialize_branch_roundtrip b :
  branch_ok b ->
  exists bs,
    (forall max, Z.of_nat (length bs) <= max -> serialize_branch merkle_of b max = (Z.of_nat (length bs), bs)) /\
    (forall max, 0 <= max < Z.of_nat (length bs) -> (serialize_branch merkle_of b max).1 = 0) /\
    (forall rest, deserialize_branch resolve (bs ++ rest) =
                  Some (mkBranch (b_merkle b) None (b_guard b) (resolved_arms (b_arms b)))).
Proof.
  intros Hb. destruct (codec_branch b Hb) as (n & _ & Hc). destruct (codec_buffer _ _ _ _ Hc) as (bs & H1 & H2 & H3).
  exists bs. split_and!; [| |exact H3].
  - intros max Hmax. destruct (H1 max Hmax) as [Hok Hbuf]. unfold serialize_branch, w_pos. by rewrite Hok, Hbuf.
  - intros max Hmax. unfold serialize_branch. by rewrite H2.
Qed.
End Branch.

(** ** Witnesses *)

Definition wit_branch : BranchNode Z := mkBranch 41 (Some 43) (mkGuard SCALAR_VALUE 7 1 0) [(-5, Some 51); (0, None); (9, Some 52)].

Lemma serialize_branch_roundtrip_witness :
  exists bs, serialize_branch id wit_branch 96 = (96, bs) /\
    deserialize_branch (fun h => if h =? 0 then None else Some h) bs = Some (mkBranch 41 None (b_guard wit_branch) (b_arms wit_branch)).
Proof.
  destruct (serialize_branch_roundtrip id (fun h => if h =? 0 then None else Some h) wit_branch) as (bs & H1 & H2 & H3).
  - split; try (unfold uint_width; simpl; lia); try done.
    repeat (constructor; [split; unfold int_width, uint_width; simpl; lia|]). constructor.
  - assert (Hlen : Z.of_nat (length bs) = 96).
    { destruct (Z.le_gt_cases (Z.of_nat (length bs)) 96) as [Hl|Hl].
      - pose proof (f_equal fst (H1 96 Hl)) as Hf. etransitivity; [symmetry; exact Hf|vm_compute; reflexivity].
      - specialize (H2 96 ltac:(lia)). vm_compute in H2. discriminate. }
    exists bs. rewrite H1 by lia. rewrite Hlen. split; [done|]. rewrite <- (app_nil_r bs). apply H3.
Defined.

(** * What a load accepts

    A buffer comes from outside.  Every region that a load builds from one is
    well formed, whatever the bytes are: its plan has only slots that the pool
    serves, its slot identifiers are in the table of that plan, its
    descriptors have a rank that fits the blocks, and its content hash is the
    one of its operations. *)

#[local] Open Scope reader_scope.

(** ** Readers that keep the state of the input *)

Definition byte_ok (b : Z) : Prop := 0 <= b < 256.
Definition bytes_ok (r : Reader) : Prop := Forall byte_ok (rd_rest r).

(** No reader sets [ok] again or adds to the input. *)
Definition mono {A} (m : rd A) : Prop := forall r v r',
  m r = Some (v, r') -> (rd_ok r' = true -> rd_ok r = true) /\ (bytes_ok r -> bytes_ok r').

(** A reader whose input is still good afterwards has read a value in [P]. *)
Definition gives {A} (m : rd A) (P : A -> Prop) : Prop := forall r v r',
  bytes_ok r -> m r = Some (v, r') -> rd_ok r' = true -> P v.

Create HintDb reader.

Lemma mono_ret {A} (a : A) : mono (rret a).
Proof. intros r v r' [= <- <-]. done. Qed.
Lemma mono_bind {A B} (m : rd A) (k : A -> rd B) : mono m -> (forall a, mono (k a)) -> mono (rdbind m k).
Proof.
  intros Hm Hk r v r'. unfold rdbind. destruct (m r) as [[a r1]|] eqn:Hr; [|done]. simpl. intros Hr'.
  destruct (Hm _ _ _ Hr), (Hk _ _ _ _ Hr'). auto.
Qed.
Lemma mono_read_bytes n : mono (read_bytes n).
Proof.
  intros r v r'. unfold read_bytes. destruct (_ <? _)%nat; intros [= <- <-]; simpl; [done|].
  split; [done|]. unfold bytes_ok. simpl. apply Forall_drop.
Qed.
Lemma mono_clear_ok : mono clear_ok.
Proof. by intros r v r' [= <- <-]. Qed.
Lemma mono_remaining : mono remaining.
Proof. by intros r v r' [= <- <-]. Qed.
Lemma mono_reader_ok : mono reader_ok.
Proof. by intros r v r' [= <- <-]. Qed.
Lemma mono_check b : mono (check b).
Proof. destruct b; [apply mono_ret|done]. Qed.
Lemma mono_if {A} (b : bool) (m1 m2 : rd A) : mono m1 -> mono m2 -> mono (if b then m1 else m2).
Proof. by destruct b. Qed.
Lemma mono_read_n {A} n (m : rd A) : mono m -> mono (read_n n m).
Proof.
  intros Hm. induction n as [|n IH]; [apply mono_ret|]. simpl. apply mono_bind; [done|]. intros x.
  apply mono_bind; [done|]. intros l. apply mono_ret.
Qed.
#[export] Hint Resolve mono_ret mono_bind mono_read_bytes mono_clear_ok mono_remaining mono_reader_ok mono_check mono_if
  mono_read_n : reader.

Lemma mono_uint n : mono (r_uint n).
Proof. unfold r_uint. auto with reader. Qed.
Lemma mono_int n : mono (r_int n).
Proof. unfold r_int. auto with reader. Qed.
#[export] Hint Resolve mono_uint mono_int : reader.
Lemma mono_gated m pred s : mono m -> mono (read_gated m pred s).
Proof. unfold read_gated. auto with reader. Qed.
#[export] Hint Resolve mono_gated : reader.
Lemma mono_bool : mono read_bool.
Proof. unfold read_bool. auto with reader. Qed.
Lemma mono_zero_pad n : mono (read_zero_pad n).
Proof. unfold read_zero_pad. auto with reader. Qed.
Lemma mono_dtype : mono read_dtype.
Proof. unfold read_dtype. auto with reader. Qed.
Lemma mono_device_type : mono read_device_type.
Proof. unfold read_device_type. auto with reader. Qed.
Lemma mono_layout : mono read_layout.
Proof. unfold read_layout. auto with reader. Qed.
Lemma mono_sid plan : mono (read_sid plan).
Proof. unfold read_sid. auto with reader. Qed.
#[export] Hint Resolve mono_bool mono_zero_pad mono_dtype mono_device_type mono_layout mono_sid : reader.
Lemma mono_meta : mono read_meta.
Proof. unfold read_meta. auto 40 with reader. Qed.
Lemma mono_slot : mono read_slot.
Proof. unfold read_slot. auto 40 with reader. Qed.
#[export] Hint Resolve mono_meta mono_slot : reader.
Lemma mono_slots n pool : mono (read_slots n pool).
Proof. unfold read_slots. auto with reader. Qed.
#[export] Hint Resolve mono_slots : reader.
Lemma mono_plan : mono read_plan.
Proof. unfold read_plan. auto 40 with reader. Qed.
Lemma mono_entry plan : mono (read_entry plan).
Proof. unfold read_entry. auto 60 with reader. Qed.
#[export] Hint Resolve mono_plan mono_entry : reader.

(** ** What a reader gives *)

Lemma gives_ret {A} (a : A) (P : A -> Prop) : P a -> gives (rret a) P.
Proof. intros Ha r v r' _ [= <- <-] _. done. Qed.

Lemma gives_bind {A B} (m : rd A) (k : A -> rd B) P Q :
  gives m P -> mono m -> (forall a, mono (k a)) -> (forall a, P a -> gives (k a) Q) -> gives (rdbind m k) Q.
Proof.
  intros Hg Hm Hk Hq r v r' Hb. unfold rdbind. destruct (m r) as [[a r1]|] eqn:Hr; [|done]. simpl. intros Hr' Hok.
  destruct (Hm _ _ _ Hr) as [_ Hb1]. destruct (Hk _ _ _ _ Hr') as [Hok1 _]. exact (Hq a (Hg _ _ _ Hb Hr (Hok1 Hok)) r1 v r' (Hb1 Hb) Hr' Hok).
Qed.

Lemma gives_weaken {A} (m : rd A) (P Q : A -> Prop) : gives m P -> (forall a, P a -> Q a) -> gives m Q.
Proof. intros Hg HPQ r v r' Hb Hr Hok. eauto. Qed.

Lemma gives_any {A} (m : rd A) : gives m (fun _ => True).
Proof. done. Qed.

Lemma gives_bytes n : gives (read_bytes n) (fun bs => length bs = n /\ Forall byte_ok bs).
Proof.
  intros r v r' Hb. unfold read_bytes. destruct (Nat.ltb_spec (length (rd_rest r)) n); intros [= <- <-]; simpl; [done|].
  intros _. split; [rewrite length_take; lia|by apply Forall_take].
Qed.

Lemma le_read_range bs : Forall byte_ok bs -> 0 <= le_read bs < 2 ^ (8 * Z.of_nat (length bs)).
Proof.
  induction 1 as [|b bs Hb _ IH]; [done|]. cbn [le_read length]. rewrite Nat2Z.inj_succ.
  replace (8 * Z.succ (Z.of_nat (length bs))) with (8 + 8 * Z.of_nat (length bs)) by lia. rewrite Z.pow_add_r by lia.
  unfold byte_ok in Hb. lia.
Qed.

Lemma gives_uint n : gives (r_uint n) (uint_width n).
Proof.
  eapply gives_bind; [apply gives_bytes|auto with reader..|]. intros bs [<- Hf]. apply gives_ret. by apply le_read_range.
Qed.

Lemma gives_int n : (0 < n)%nat -> gives (r_int n) (int_width n).
Proof.
  intros Hn. eapply gives_bind; [apply gives_bytes|auto with reader..|]. intros bs [Hl Hf]. apply gives_ret.
  pose proof (le_read_range _ Hf) as Hr. rewrite Hl in Hr. unfold int_width, to_signed.
  assert (Hp : 2 ^ (8 * Z.of_nat n) = 2 * 2 ^ (8 * Z.of_nat n - 1)) by (rewrite <- Z.pow_succ_r by lia; f_equal; lia).
  destruct (Z.ltb_spec (le_read bs) (2 ^ (8 * Z.of_nat n - 1))); lia.
Qed.

Lemma gives_clear {A} (k : unit -> rd A) P : (forall u, mono (k u)) -> gives (rdbind clear_ok k) P.
Proof.
  intros Hk r v r' Hb. unfold rdbind, clear_ok. simpl. intros Hr Hok. destruct (Hk _ _ _ _ Hr) as [Hok1 _]. by apply Hok1 in Hok.
Qed.

Lemma gives_gated m pred s P : gives m P -> mono m -> gives (read_gated m pred s) (fun v => P v /\ pred v = true).
Proof.
  intros Hg Hm. eapply gives_bind; [exact Hg|auto with reader..|]. intros v Hv. destruct (pred v) eqn:Hp.
  - by apply gives_ret.
  - apply gives_clear. auto with reader.
Qed.

Lemma gives_check b : gives (check b) (fun _ => b = true).
Proof. destruct b; [|done]. by apply gives_ret. Qed.

Lemma gives_read_n {A} n (m : rd A) P : gives m P -> mono m -> gives (read_n n m) (fun l => length l = n /\ Forall P l).
Proof.
  intros Hg Hm. induction n as [|n IH]; simpl; [by apply gives_ret|].
  eapply gives_bind; [exact Hg|auto with reader..|]. intros x Hx. eapply gives_bind; [exact IH|auto with reader..|].
  intros l [Hl Hf]. apply gives_ret. simpl. split; [lia|by constructor].
Qed.

(** One step along a record. *)
Ltac gives_field :=
  first
    [ apply gives_check
    | apply gives_gated; [gives_field|solve [auto with reader]]
    | apply gives_read_n; [gives_field|solve [auto with reader]]
    | apply gives_int; lia | apply gives_uint | apply gives_any ].
Ltac gives_step x H := eapply gives_bind; [gives_field|solve [auto 80 with reader]|intros; solve [auto 80 with reader]|intros x H].
Ltac gives_skip := eapply gives_bind; [apply gives_any|solve [auto 80 with reader]|intros; solve [auto 80 with reader]|intros ? _].

(** ** Tensors, slots and plans *)

Lemma gives_meta : gives read_meta (fun m => meta_ok m /\ loaded_meta m = m).
Proof.
  unfold read_meta. gives_step szs Hszs. gives_step sts Hsts. gives_skip. gives_step n Hn. do 2 gives_skip.
  gives_step di Hdi. do 2 gives_skip. gives_step fl Hfl. gives_step onr Honr. gives_step so Hso. gives_step ve Hve.
  gives_step sn Hsn. gives_skip. apply gives_ret. split; [|done]. destruct Hn as [[Hn0 _] Hn%Z.leb_le].
  split; simpl; try done.
Qed.

Lemma gives_slot : gives read_slot slot_ok.
Proof.
  unfold read_slot. gives_step o Ho. gives_step nb Hnb. gives_step b Hb. gives_step d Hd. do 2 gives_skip.
  gives_step di Hdi. do 3 gives_skip. gives_step sid Hsid. gives_skip. apply gives_ret. by split.
Qed.

Lemma gives_slots n pool :
  gives (read_slots n pool) (fun l => length l = n /\ Forall (fun s => slot_ok s /\ can_serve_slot s pool = true) l).
Proof.
  apply gives_read_n; [|auto with reader]. eapply gives_bind; [apply gives_slot|auto with reader..|]. intros s Hs.
  gives_step u Hu. by apply gives_ret.
Qed.

Lemma gives_plan : gives read_plan plan_ok.
Proof.
  unfold read_plan. gives_step pb Hpb. gives_step u1 Hu1. gives_step ns Hns. gives_step u2 Hu2. gives_step ne Hne.
  gives_step u3 Hu3. gives_skip. gives_step di Hdi. gives_skip. gives_step dc Hdc. gives_step rk Hrk. gives_step ws Hws.
  do 2 gives_skip. eapply gives_bind; [apply gives_slots|auto with reader..|]. intros l [Hl Hf]. apply gives_ret.
  apply Z.leb_le in Hu1, Hu2, Hu3. destruct Hpb, Hns, Hne. split; simpl; try done; lia.
Qed.

Lemma gives_sid plan : gives (read_sid plan) (sid_ok plan).
Proof.
  unfold read_sid. gives_step sid Hsid. gives_step u Hu. apply gives_ret. split; [done|]. intros p ->.
  apply negb_true_iff, andb_false_iff in Hu as [Hv|Hlt].
  - left. apply negb_false_iff, Z.eqb_eq in Hv. done.
  - right. by apply Z.leb_gt.
Qed.

(** ** Entries and regions *)

Lemma arr_elems_arena {A} (d : A) l n : length l = Z.to_nat n -> arr_elems d (arena_array l) n = l.
Proof.
  intros Hl. destruct l as [|x l].
  - unfold arr_elems. by rewrite <- Hl.
  - simpl arena_array. rewrite arr_elems_take by lia. apply take_ge. lia.
Qed.

Lemma array_there_arena {A} (l : list A) n : 0 <= n -> length l = Z.to_nat n -> array_there (arena_array l) n.
Proof. intros Hn Hl. destruct l as [|x l]; [left; simpl in Hl; lia|]. right. exists (x :: l). split; [done|]. lia. Qed.

Definition entry_loaded (plan : option MemoryPlan) (te : TraceEntry) : Prop :=
  entry_ok plan te /\ loaded_entry te = te /\ array_there (input_metas te) (num_inputs te) /\
  array_there (scalar_args te) (num_scalar_args te).

Lemma loaded_metas_id l : Forall (fun m => meta_ok m /\ loaded_meta m = m) l -> loaded_meta <$> l = l.
Proof. induction 1 as [|m l [_ Hm] _ IH]; [done|]. rewrite fmap_cons. by rewrite Hm, IH. Qed.

Lemma gives_entry plan : gives (read_entry plan) (entry_loaded plan).
Proof.
  unfold read_entry. gives_step sc Hsc. gives_step sh Hsh. gives_step sco Hsco. gives_step ca Hca. gives_step ni Hni.
  gives_step no Hno. gives_step na Hna. gives_step u1 Hu1. gives_step u2 Hu2. gives_step u3 Hu3. gives_skip. gives_skip.
  gives_step kid Hkid. gives_step u4 Hu4.
  do 2 (eapply gives_bind; [apply gives_read_n; [apply gives_meta|auto with reader]|solve [auto 80 with reader]|intros; solve [auto 80 with reader]|intros ? [? ?]]).
  gives_step args Hargs. gives_step idx Hidx.
  do 2 (eapply gives_bind; [apply gives_read_n; [apply gives_sid|auto with reader]|solve [auto 80 with reader]|intros; solve [auto 80 with reader]|intros ? [? ?]]).
  apply gives_ret. destruct Hargs, Hidx. apply Z.leb_le in Hu1, Hu2, Hu3. apply Z.ltb_lt in Hu4.
  destruct Hni, Hno, Hna, Hkid. unfold entry_loaded. split_and!; [split|..]; simpl; try done; try lia.
  all: rewrite ?arr_elems_arena by done; rewrite ?loaded_metas_id by done; try done.
  1, 2: eapply Forall_impl; [eassumption|]; by intros m [? ?].
  1: unfold loaded_entry; simpl; rewrite !arr_elems_arena by done; by rewrite !loaded_metas_id.
  all: by apply array_there_arena.
Qed.

Lemma mono_header : mono read_header.
Proof. unfold read_header. auto 40 with reader. Qed.
#[export] Hint Resolve mono_header : reader.

Lemma gives_header : gives read_header (fun h => uint_width 8 (h_merkle h) /\ uint_width 8 (h_content h)).
Proof.
  unfold read_header. do 4 gives_skip. gives_step m Hm. gives_step c Hc. by apply gives_ret.
Qed.

Definition image_loaded (img : RegionImage) : Prop := image_ok img /\ loaded_image img = img.

Lemma gives_opt_plan (b : bool) :
  gives (if b then let^ p := read_plan in rret (Some p) else rret None) (fun o => forall plan, o = Some plan -> plan_ok plan).
Proof.
  destruct b; [|by apply gives_ret]. eapply gives_bind; [apply gives_plan|auto with reader..|]. intros p Hp. apply gives_ret.
  by intros plan [= <-].
Qed.

Lemma loaded_entries_id plan l : Forall (entry_loaded plan) l -> loaded_entry <$> l = l.
Proof. induction 1 as [|te l (_ & Ht & _) _ IH]; [done|]. rewrite fmap_cons. by rewrite Ht, IH. Qed.

Lemma result_is_ok m v : result_is m v = true -> m = Ok v.
Proof. destruct m as [h|]; [|done]. intros ->%Z.eqb_eq. done. Qed.

Lemma gives_region : gives read_region image_loaded.
Proof.
  unfold read_region. eapply gives_bind; [apply gives_header|auto with reader|intros; auto 80 with reader|].
  intros h [Hm Hc]. gives_skip. gives_skip. gives_step n Hn. gives_step u1 Hu1. gives_skip. gives_step ms Hms. gives_step vi Hvi.
  gives_skip. eapply gives_bind; [apply gives_opt_plan|auto with reader|intros; auto 80 with reader|]. intros plan Hplan.
  do 2 gives_skip. eapply gives_bind; [apply gives_read_n; [apply gives_entry|auto with reader]|auto with reader|intros; auto 80 with reader|].
  intros ops [Hl Hops]. gives_skip. gives_skip. gives_step u2 Hu2. gives_step u3 Hu3. apply gives_ret.
  apply result_is_ok in Hu2. apply Z.eqb_eq in Hu3. apply Z.leb_le in Hu1. destruct Hn as [Hn _].
  split; [split|]; simpl; try done; try lia.
  - eapply Forall_impl; [exact Hops|]. by intros te [? _].
  - eapply Forall_impl; [exact Hops|]. by intros te (_ & _ & ? & ?).
  - unfold loaded_image. simpl. by rewrite (loaded_entries_id plan).
Qed.

(** ** A load ends on a good input *)

Definition ends_ok {A} (m : rd A) : Prop := forall r v r', m r = Some (v, r') -> rd_ok r' = true.
Definition reads_nothing {A} (m : rd A) : Prop := forall r v r', m r = Some (v, r') -> r' = r.

Lemma ends_ok_bind {A B} (m : rd A) (k : A -> rd B) : (forall a, ends_ok (k a)) -> ends_ok (rdbind m k).
Proof. intros Hk r v r'. unfold rdbind. destruct (m r) as [[a r1]|]; [|done]. apply Hk. Qed.

Lemma reads_nothing_ret {A} (a : A) : reads_nothing (rret a).
Proof. by intros r v r' [= <- <-]. Qed.

Lemma reads_nothing_check {A} b (k : unit -> rd A) : reads_nothing (k tt) -> reads_nothing (rdbind (check b) k).
Proof. intros Hk r v r'. unfold rdbind. destruct b; simpl; [apply Hk|done]. Qed.

Lemma ends_ok_test {A} (c : bool -> bool) (m : bool -> rd A) :
  c false = false -> (forall ok, reads_nothing (m ok)) -> ends_ok (let^ ok := reader_ok in run^ check (c ok) in m ok).
Proof.
  intros Hc Hm r v r'. unfold rdbind, reader_ok. simpl. destruct (rd_ok r) eqn:Hok; simpl.
  - destruct (c true); simpl; [|done]. intros Hr. by rewrite (Hm _ _ _ _ Hr).
  - by rewrite Hc.
Qed.

Lemma ends_ok_region : ends_ok read_region.
Proof.
  unfold read_region. do 13 (apply ends_ok_bind; intros ?). apply (ends_ok_test (fun ok => ok)); [done|]. intros _.
  do 2 apply reads_nothing_check. apply reads_nothing_ret.
Qed.

Lemma deserialize_region_loaded buf img :
  Forall byte_ok buf -> deserialize_region buf = Some img -> image_loaded img.
Proof.
  unfold deserialize_region. intros Hb Hd. apply fmap_Some in Hd as ([v r'] & Hr & ->).
  exact (gives_region (mkReader buf true) v r' Hb Hr (ends_ok_region _ _ _ Hr)).
Qed.

(** C16: whatever bytes a buffer holds, a region that a load builds from it is
    well formed: the widths, counts and ranks are in their bounds, the pool
    serves every slot of the plan, every slot identifier is none or in the
    plan's table, and the content hash is the one of the operations.  The
    region is also what a further round through an image gives. *)
Theorem deserialize_region_safe buf img :
  Forall byte_ok buf -> deserialize_region buf = Some img ->
  image_ok img /\
  exists bs, serialize_region img (Z.of_nat (length bs)) = (Z.of_nat (length bs), bs) /\ deserialize_region bs = Some img.
Proof.
  intros Hb Hd. destruct (deserialize_region_loaded buf img Hb Hd) as [Hok Hid]. split; [done|].
  destruct (codec_region img Hok) as (n & _ & Hc). destruct (codec_buffer _ _ _ _ Hc) as (bs & H1 & _ & H3).
  exists bs. destruct (H1 _ (Z.le_refl _)) as [Hw Hbuf]. unfold serialize_region, w_pos. rewrite Hw, Hbuf. split; [done|].
  rewrite <- Hid at 1. rewrite <- (H3 []). by rewrite app_nil_r.
Qed.

(** ** The pool of a loaded region *)

Section Pool.
Context `{M : PoolMem}.

(** The slot identifiers that replay looks up for an entry. *)
Definition entry_sids (te : TraceEntry) : list Z := default [] (input_slot_ids te) ++ default [] (output_slot_ids te).

Lemma entry_sids_ok plan te sid : entry_loaded plan te -> sid ∈ entry_sids te -> sid_ok plan sid.
Proof.
  intros (He & Hid & _) Hin. unfold entry_sids in Hin. rewrite <- Hid in Hin. cbn [loaded_entry input_slot_ids output_slot_ids] in Hin.
  rewrite !default_arena_array in Hin. apply elem_of_app in Hin as [Hin|Hin].
  - exact (proj1 (Forall_forall _ _) (eo_input_slots _ _ He) sid Hin).
  - exact (proj1 (Forall_forall _ _) (eo_output_slots _ _ He) sid Hin).
Qed.

Lemma region_entries buf img :
  Forall byte_ok buf -> deserialize_region buf = Some img ->
  Forall (entry_loaded (region_plan (im_region img))) (region_ops (im_region img)).
Proof.
  intros Hb Hd. destruct (deserialize_region_loaded buf img Hb Hd) as [Hok Hid]. apply Forall_forall. intros te Hte.
  assert (Hl : loaded_entry <$> region_ops (im_region img) = region_ops (im_region img)).
  { apply (f_equal (fun i => region_ops (im_region i))) in Hid. exact Hid. }
  pose proof (proj1 (Forall_forall _ _) (io_ops _ Hok) te Hte). pose proof (proj1 (Forall_forall _ _) (io_arrays _ Hok) te Hte) as [? ?].
  split_and!; try done. apply list_elem_of_lookup in Hte as [i Hi]. pose proof Hi as Hi'. rewrite <- Hl, list_lookup_fmap, Hi in Hi'.
  by injection Hi'.
Qed.

(** No image from outside can make the pool stop or send replay past its
    table: a plan that a load accepts initialises an empty pool whenever the
    host grants the memory, and every slot identifier of the region's
    operations that is not none has an entry in the table of that pool. *)
Theorem loaded_region_fits_pool buf img plan w :
  Forall byte_ok buf -> deserialize_region buf = Some img -> region_plan (im_region img) = Some plan -> host_grants w plan ->
  exists P' w', pool_init new_pool w plan = Ok (P', w') /\
    forall te sid, te ∈ region_ops (im_region img) -> sid ∈ entry_sids te -> is_valid32 sid = true ->
      exists p, slot_ptr P' sid = Ok p.
Proof.
  intros Hb Hd Hpl Hg. destruct (deserialize_region_loaded buf img Hb Hd) as [Hok _]. pose proof (io_plan _ Hok _ Hpl) as Hp.
  pose proof (po_slots _ Hp) as Hns. destruct (po_external _ Hp). pose proof (po_served _ Hp) as Hserved.
  assert (Hi : is_ok (pool_init new_pool w plan) = true).
  { apply pool_init_grants; [pose proof (po_count _ Hp); unfold CDAG_MAX_SLOTS in *; lia|apply Hp|lia| |exact Hg].
    eapply Forall_impl; [exact Hserved|]. by intros s [_ ?]. }
  destruct (pool_init new_pool w plan) as [[P' w']|] eqn:Hinit; [|done]. exists P', w'. split; [done|].
  intros te sid Hte Hsid Hv. pose proof (region_entries buf img Hb Hd) as Hent. rewrite Forall_forall in Hent.
  destruct (entry_sids_ok _ _ _ (Hent te Hte) Hsid) as [[Hsid0 _] Hlt]. destruct (Hlt plan Hpl) as [->|Hlt']; [done|].
  destruct (pool_init_ok _ _ _ _ _ Hinit) as (t & tbl & Ht & Hf & Hn & _); [lia|]. apply fill_table_ok, Forall2_length in Hf.
  destruct (lookup_lt_is_Some_2 tbl (Z.to_nat sid)) as [p Hpp]; [lia|]. exists p.
  rewrite <- (Z2Nat.id sid) by lia. eapply slot_ptr_entry; [exact Ht|lia|exact Hpp].
Qed.
End Pool.

(** ** Witnesses *)

(** A region of one operation that reads an external tensor and writes a slot
    of its plan. *)
Definition wit_meta : TensorMeta :=
  mkMeta [4; 16; 0; 0; 0; 0; 0; 0] [16; 1; 0; 0; 0; 0; 0; 0] 0x7f00 2 Float CUDA 0 Strided true 0 0 0 1 256 0xbeef.

Definition wit_entry : TraceEntry :=
  mkEntry 77 88 99 111 (Some [wit_meta]) (Some [wit_meta]) 1 1 (Some [-3]) 1 true false 5 true BACKWARD false (Some [UINT32_MAX])
    (Some [2]) (Some [0]).

Definition wit_ops_hash : Z := match compute_content_hash [wit_entry] None with Ok h => h | Fatal _ => 0 end.

Definition wit_image : RegionImage := mkImage (mkRegion wit_ops_hash [wit_entry] (Some wit_plan)) 12345 77 0x3f800000 3.

Ltac width := unfold uint_width, int_width; split; [apply Z.leb_le|apply Z.ltb_lt]; vm_compute; reflexivity.

Lemma wit_meta_ok : meta_ok wit_meta.
Proof.
  split; try width; try (split; [reflexivity|]; repeat (constructor; [split; [width|reflexivity]|]); constructor).
  split; apply Z.leb_le; reflexivity.
Qed.

Lemma wit_plan_ok : plan_ok wit_plan.
Proof.
  split; try width; try reflexivity; try (split; apply Z.leb_le; vm_compute; reflexivity).
  - apply Z.leb_le. vm_compute. reflexivity.
  - assert (Hs : plan_slots wit_plan = ltac:(let x := eval vm_compute in (plan_slots wit_plan) in exact x)) by (vm_compute; reflexivity).
    rewrite Hs. repeat (constructor; [split; [split; width|vm_compute; reflexivity]|]). constructor.
Qed.

Lemma wit_plan_slots : num_slots wit_plan = 5.
Proof. vm_compute. reflexivity. Qed.

Lemma wit_entry_ok : entry_ok (Some wit_plan) wit_entry.
Proof.
  assert (Hsid : forall sid, 0 <= sid < 3 -> sid_ok (Some wit_plan) sid).
  { intros sid Hs. split; [unfold uint_width; simpl; lia|]. intros p Hp. apply (inj Some) in Hp as <-. right.
    rewrite wit_plan_slots. lia. }
  split; try width; try (split; apply Z.leb_le; reflexivity).
  1, 2: constructor; [exact wit_meta_ok|constructor].
  1, 2: constructor; [width|constructor].
  all: constructor; [apply Hsid; simpl; lia|constructor].
Qed.

Lemma wit_image_ok : image_ok wit_image.
Proof.
  split; try width; try reflexivity.
  - apply Z.leb_le. reflexivity.
  - split; [width|reflexivity].
  - intros plan Hp. apply (inj Some) in Hp as <-. exact wit_plan_ok.
  - constructor; [exact wit_entry_ok|constructor].
  - constructor; [|constructor]. split; right; eexists; (split; [reflexivity|apply Z.leb_le; reflexivity]).
Qed.

Lemma serialize_region_roundtrip_witness :
  exists bs, serialize_region wit_image 1024 = (Z.of_nat (length bs), bs) /\ deserialize_region bs = Some (loaded_image wit_image).
Proof.
  destruct (serialize_region_roundtrip wit_image wit_image_ok) as (bs & H1 & H2 & H3). exists bs.
  assert (Hlen : Z.of_nat (length bs) <= 1024).
  { destruct (Z.le_gt_cases (Z.of_nat (length bs)) 1024); [done|]. specialize (H2 1024 ltac:(lia)). vm_compute in H2. discriminate. }
  split; [by apply H1|]. rewrite <- (app_nil_r bs) at 1. apply H3.
Defined.

Definition wit_bytes : list Z := (serialize_region wit_image 1024).2.
Definition wit_loaded : RegionImage := loaded_image wit_image.

Lemma wit_bytes_ok : Forall byte_ok wit_bytes.
Proof.
  assert (Hf : forallb (fun b => (0 <=? b) && (b <? 256)) wit_bytes = true) by (vm_compute; reflexivity).
  apply Forall_forall. intros b Hb. rewrite forallb_forall in Hf. specialize (Hf b (proj1 (list_elem_of_In _ _) Hb)).
  apply andb_prop in Hf as [?%Z.leb_le ?%Z.ltb_lt]. by split.
Qed.

Lemma wit_loads : deserialize_region wit_bytes = Some wit_loaded.
Proof. vm_compute. reflexivity. Qed.

Lemma deserialize_region_safe_witness : length wit_bytes = 686%nat /\ image_ok wit_loaded.
Proof. split; [vm_compute; reflexivity|]. apply (deserialize_region_safe wit_bytes wit_loaded wit_bytes_ok wit_loads). Defined.

Lemma loaded_region_fits_pool_witness :
  exists P' w', pool_init (M := bump_pool_mem) new_pool wit_world wit_plan = Ok (P', w') /\ exists p, slot_ptr P' 2 = Ok p.
Proof.
  destruct (loaded_region_fits_pool (M := bump_pool_mem) wit_bytes wit_loaded wit_plan wit_world wit_bytes_ok wit_loads eq_refl)
    as (P' & w' & Hi & Hs).
  - split; [|by intros h; eexists]. eexists. vm_compute. split; reflexivity.
  - exists P', w'. split; [done|]. apply (Hs (loaded_entry wit_entry) 2); [left|left|reflexivity].
Defined.
