(* ===== verification/Dag.v ===== *)
(** * Dag.v: the dag of regions, branches and loops
    (include/crucible/MerkleDag.h, with the field hashes of Reflect.h)

    Nodes live in the arena and point at each other, and two nodes may share a
    continuation, so the dag is a store from addresses to nodes.  A walk that
    the code writes as a loop or as a recursion over pointers takes fuel.  A
    walk gives [None] when its fuel ends, when it reads through a null or
    dangling pointer, and when a contract of the code stops it. *)

From stdpp Require Import base list strings gmap.
From Stdlib Require Import ZArith Lia.
From S2P Require Import Prelude.
From S2P Require Import Types.
From S2P Require Import Hash.
From S2P Require Import ContentHash.
From S2P Require Import Serialize.
#[local] Open Scope Z_scope.

(** ** Hashes of plain structs (Reflect.h) *)

(** hash_field of an enumerator, an integer or the bits of a float. *)
Definition hash_int (v : Z) : Z := fmix64 (u64 v).

(** hash_field of an array. *)
Definition hash_array (elems : list Z) : Z :=
  fmix64 (fold_left (fun h e => Z.lxor (u64 (h * 0x100000001b3)) e) elems 0).

(** reflect_hash over the hashes of the members. *)
Definition reflect_hash (members : list Z) : Z :=
  fmix64 (fold_left (fun h e => Z.lxor (u64 (h * GOLDEN)) e) members GOLDEN).

(** reflect_fmix_fold over the packed members. *)
Definition reflect_fmix_fold (seed : Z) (members : list Z) : Z :=
  fold_left (fun h e => fmix64 (Z.lxor h (u64 e))) members seed.

(** Guard::hash: kind, pad, op_index (a class of one word), arg_index and
    dim_index. *)
Definition guard_hash (g : Guard) : Z :=
  reflect_hash
    [hash_int (guard_kind_ordinal (g_kind g)); hash_array (hash_int <$> replicate 3 0);
     reflect_hash [hash_int (g_op_index g)]; hash_int (g_arg_index g); hash_int (g_dim_index g)].

(** ** Nodes *)

Record FeedbackEdge := mkEdge { output_idx : Z; input_idx : Z }.

Inductive LoopTermKind := REPEAT | UNTIL.
Definition term_kind_ordinal (k : LoopTermKind) : Z := match k with REPEAT => 0 | UNTIL => 1 end.

#[export] Instance FeedbackEdge_eq_dec : EqDecision FeedbackEdge.
Proof. solve_decision. Defined.
#[export] Instance LoopTermKind_eq_dec : EqDecision LoopTermKind.
Proof. solve_decision. Defined.

(** The fields of a loop besides its body.  epsilon is the 32-bit pattern of
    the float. *)
Record LoopSpec := mkLoop {
  body_content_hash : Z;
  feedback_edges : list FeedbackEdge;
  term_kind : LoopTermKind;
  repeat_count : Z;
  epsilon : Z;
}.

#[export] Instance LoopSpec_eq_dec : EqDecision LoopSpec.
Proof. solve_decision. Defined.

Abbreviation loc := positive.

(** What the kinds of a node add to its common fields; a pointer is null or
    an address. *)
Inductive NodeData :=
| NRegion (region : RegionNode)
| NBranch (guard : Guard) (arms : list (Z * option loc))
| NLoop (spec : LoopSpec) (body : option loc)
| NTerminal.

Record TraceNode := mkNode { merkle_hash : Z; next : option loc; data : NodeData }.

Definition kind_of (d : NodeData) : TraceNodeKind :=
  match d with NRegion _ => REGION | NBranch _ _ => BRANCH | NLoop _ _ => LOOP | NTerminal => TERMINAL end.

Abbreviation store := (gmap loc TraceNode).

(** A read of a node through a pointer that may be null. *)
Definition deref (s : store) (p : option loc) : option TraceNode := p ≫= fun l => s !! l.

(** ** Hashes of nodes *)

Definition kFeedbackSeed : Z := 0x6665656462616B73.

Definition edge_hash (e : FeedbackEdge) : Z := reflect_hash [hash_int (output_idx e); hash_int (input_idx e)].

Definition feedback_signature (edges : list FeedbackEdge) : Z :=
  match edges with
  | [] => 0
  | _ =>
      let signature_state := fold_left (fun st e => combine_ids st (edge_hash e)) edges kFeedbackSeed in
      combine_ids signature_state (u64 (Z.of_nat (length edges)))
  end.

Definition kTermSeed : Z := 0x7465726D696E6174.

Definition loopterm_hash (l : LoopSpec) : Z :=
  reflect_fmix_fold kTermSeed [term_kind_ordinal (term_kind l); repeat_count l; epsilon l].

Fixpoint walk_body (fuel : nat) (s : store) (walk : option loc) (state : Z) : option Z :=
  match walk with
  | None => Some state
  | Some l =>
      match fuel with
      | O => None
      | S fuel =>
          n ← s !! l;
          let state := match data n with NRegion r => combine_ids state (region_content_hash r) | _ => state end in
          walk_body fuel s (next n) state
      end
  end.

Definition compute_body_content_hash (fuel : nat) (s : store) (body : option loc) : option Z :=
  fmix64 <$> walk_body fuel s body GOLDEN.

Definition kLoopSalt : Z := 0x4C4F4F504E4F4445.
Definition kFbSalt : Z := 0x6665656462616B00.

(** The fold of one arm into the state of a branch. *)
Definition fold_arm (state target_hash : Z) : Z := u64 (Z.lxor state (fmix64 target_hash) * GOLDEN).

Fixpoint fold_arms (s : store) (arms : list (Z * option loc)) (state : Z) : option Z :=
  match arms with
  | [] => Some state
  | (_, target) :: arms => n ← deref s target; fold_arms s arms (fold_arm state (merkle_hash n))
  end.

Definition loop_state (l : LoopSpec) : Z :=
  let state := fmix64 (Z.lxor (body_content_hash l) kLoopSalt) in
  let state := Z.lxor state (fmix64 (Z.lxor (feedback_signature (feedback_edges l)) kFbSalt)) in
  Z.lxor state (loopterm_hash l).

(** The last step: the continuation, when there is one. *)
Definition fold_next (s : store) (next : option loc) (state : Z) : option Z :=
  match next with
  | None => Some state
  | Some l => n ← s !! l; Some (fmix64 (Z.lxor state (merkle_hash n)))
  end.

Definition compute_merkle_hash (s : store) (node : option loc) : option Z :=
  match node with
  | None => Some 0
  | Some l =>
      n ← s !! l;
      match data n with
      | NTerminal => Some 0
      | NRegion r => fold_next s (next n) (region_content_hash r)
      | NBranch g arms => state ← fold_arms s arms (fmix64 (guard_hash g)); fold_next s (next n) state
      | NLoop spec _ => fold_next s (next n) (loop_state spec)
      end
  end.

Fixpoint fold_region_arms (s : store) (arms : list (Z * option loc)) (state : Z) : option Z :=
  match arms with
  | [] => Some state
  | (_, target) :: arms =>
      n ← deref s target;
      fold_region_arms s arms
        match data n with NRegion r => fold_arm state (region_content_hash r) | _ => state end
  end.

Definition branched_content_hash (s : store) (guard : Guard) (arms : list (Z * option loc)) : option Z :=
  fmix64 <$> fold_region_arms s arms (fmix64 (guard_hash guard)).

Definition set_merkle (h : Z) (n : TraceNode) : TraceNode := mkNode h (next n) (data n).

Definition store_hash (s : store) (l : loc) : option store :=
  h ← compute_merkle_hash s (Some l); Some (alter (set_merkle h) l s).

Fixpoint recompute_merkle (fuel : nat) (s : store) (node : option loc) : option store :=
  match node with
  | None => Some s
  | Some l =>
      match fuel with
      | O => None
      | S fuel =>
          n ← s !! l;
          s ← match data n with
              | NBranch _ arms => foldl (fun acc arm => s ← acc; recompute_merkle fuel s arm.2) (Some s) arms
              | NLoop _ body => recompute_merkle fuel s body
              | _ => Some s
              end;
          s ← recompute_merkle fuel s (next n);
          store_hash s l
      end
  end.

(** ** Walks *)

(** collect_regions into a span of [size] entries: the entries that are
    filled. *)
Fixpoint collect_regions (fuel : nat) (s : store) (node : option loc) (size : nat) (out : list loc) : option (list loc) :=
  match node with
  | None => Some out
  | Some l =>
      if (size <=? length out)%nat then Some out
      else
        match fuel with
        | O => None
        | S fuel =>
            n ← s !! l;
            out ← match data n with
                  | NRegion _ => Some (out ++ [l])
                  | NBranch _ arms => foldl (fun acc arm => out ← acc; collect_regions fuel s arm.2 size out) (Some out) arms
                  | NLoop _ body => collect_regions fuel s body size out
                  | NTerminal => Some out
                  end;
            collect_regions fuel s (next n) size out
        end
  end.

Fixpoint dag_node_count (fuel : nat) (s : store) (node : option loc) : option Z :=
  match node with
  | None => Some 0
  | Some l =>
      match fuel with
      | O => None
      | S fuel =>
          n ← s !! l;
          count ← match data n with
                  | NBranch _ arms => foldl (fun acc arm => c ← acc; k ← dag_node_count fuel s arm.2; Some (u32 (c + k))) (Some 1) arms
                  | NLoop _ body => k ← dag_node_count fuel s body; Some (u32 (1 + k))
                  | _ => Some 1
                  end;
          rest ← dag_node_count fuel s (next n);
          Some (u32 (count + rest))
      end
  end.

(** ** Replay *)

(** The binary search for the arm of a value: its target, which may be null. *)
Fixpoint find_arm (fuel : nat) (arms : list (Z * option loc)) (val : Z) (lo hi : nat) : option loc :=
  match fuel with
  | O => None
  | S fuel =>
      if (lo <? hi)%nat then
        let mid := (lo + (hi - lo) / 2)%nat in
        match arms !! mid with
        | None => None
        | Some (mid_val, target) =>
            if mid_val <? val then find_arm fuel arms val (mid + 1) hi
            else if val <? mid_val then find_arm fuel arms val lo mid
            else target
        end
      else None
  end.

Definition arm_of (arms : list (Z * option loc)) (val : Z) : option loc := find_arm (S (length arms)) arms val 0 (length arms).

Section Replay.
Context {St : Type}.

(** The two callbacks of the caller, over the caller's state. *)
Variable eval_guard : Guard -> St -> Z * St.
Variable exec_region : loc -> St -> St.

(** for (i = 0; i < n; i++) if (!body) return false; *)
Fixpoint repeat_body (body : St -> option (bool * St)) (n : nat) (st : St) : option (bool * St) :=
  match n with
  | O => Some (true, st)
  | S n => '(ok, st) ← body st; if ok : bool then repeat_body body n st else Some (false, st)
  end.

Fixpoint replay (fuel : nat) (s : store) (node : option loc) (st : St) : option (bool * St) :=
  match node with
  | None => Some (true, st)
  | Some l =>
      match fuel with
      | O => None
      | S fuel =>
          n ← s !! l;
          match data n with
          | NRegion _ => replay fuel s (next n) (exec_region l st)
          | NBranch g arms =>
              let '(val, st) := eval_guard g st in
              if are_arms_sorted_by_value arms then
                match arm_of arms val with
                | None => Some (false, st)
                | Some arm =>
                    '(ok, st) ← replay fuel s (Some arm) st;
                    if ok : bool then replay fuel s (next n) st else Some (false, st)
                end
              else None
          | NLoop spec body =>
              if is_Some_b body && (bool_decide (term_kind spec <> UNTIL) || (0 <? repeat_count spec)) then
                '(ok, st) ← repeat_body (replay fuel s body) (Z.to_nat (repeat_count spec)) st;
                if ok : bool then replay fuel s (next n) st else Some (false, st)
              else None
          | NTerminal => Some (true, st)
          end
      end
  end.
End Replay.

(** ** The difference of two dags *)

Inductive DiffKind :=
| IDENTICAL | KIND_MISMATCH | CONTENT_MISMATCH | BRANCH_MISMATCH | LOOP_MISMATCH | STRUCTURE_MISMATCH.

#[export] Instance DiffKind_eq_dec : EqDecision DiffKind.
Proof. solve_decision. Defined.

Record DagDiff := mkDiff { node_a : option loc; node_b : option loc; diff_depth : Z; diff_kind : DiffKind }.

Definition identical (depth : Z) : DagDiff := mkDiff None None depth IDENTICAL.

(** The comparison of the arms, in order; [None] inside when they agree. *)
Fixpoint diff_arms (diff : option loc -> option loc -> option DagDiff) (mismatch : DagDiff)
    (arms_a arms_b : list (Z * option loc)) : option (option DagDiff) :=
  match arms_a, arms_b with
  | (va, ta) :: arms_a, (vb, tb) :: arms_b =>
      if negb (va =? vb) then Some (Some mismatch)
      else
        arm_diff ← diff ta tb;
        if bool_decide (diff_kind arm_diff = IDENTICAL) then diff_arms diff mismatch arms_a arms_b else Some (Some arm_diff)
  | _, _ => Some None
  end.

Definition loops_differ (a b : LoopSpec) : bool :=
  negb ((body_content_hash a =? body_content_hash b) &&
        (length (feedback_edges a) =? length (feedback_edges b))%nat &&
        bool_decide (term_kind a = term_kind b) && (repeat_count a =? repeat_count b) && (epsilon a =? epsilon b) &&
        bool_decide (feedback_edges a = feedback_edges b)).

Fixpoint dag_diff (fuel : nat) (s : store) (a b : option loc) (depth : Z) : option DagDiff :=
  match a, b with
  | None, None => Some (identical depth)
  | Some la, Some lb =>
      match fuel with
      | O => None
      | S fuel =>
          na ← s !! la;
          nb ← s !! lb;
          if merkle_hash na =? merkle_hash nb then Some (identical depth)
          else if negb (bool_decide (kind_of (data na) = kind_of (data nb))) then Some (mkDiff a b depth KIND_MISMATCH)
          else
            match data na, data nb with
            | NRegion ra, NRegion rb =>
                if negb (region_content_hash ra =? region_content_hash rb) then Some (mkDiff a b depth CONTENT_MISMATCH)
                else dag_diff fuel s (next na) (next nb) (u32 (depth + 1))
            | NBranch ga arms_a, NBranch gb arms_b =>
                let mismatch := mkDiff a b depth BRANCH_MISMATCH in
                if negb (guard_hash ga =? guard_hash gb) || negb (length arms_a =? length arms_b)%nat then Some mismatch
                else
                  d ← diff_arms (fun ta tb => dag_diff fuel s ta tb (u32 (depth + 1))) mismatch arms_a arms_b;
                  match d with
                  | Some d => Some d
                  | None => dag_diff fuel s (next na) (next nb) (u32 (depth + 1))
                  end
            | NLoop spec_a body_a, NLoop spec_b body_b =>
                if loops_differ spec_a spec_b then Some (mkDiff a b depth LOOP_MISMATCH)
                else
                  body_diff ← dag_diff fuel s body_a body_b (u32 (depth + 1));
                  if bool_decide (diff_kind body_diff = IDENTICAL) then dag_diff fuel s (next na) (next nb) (u32 (depth + 1))
                  else Some body_diff
            | _, _ => Some (identical depth)
            end
      end
  | _, _ => Some (mkDiff a b depth STRUCTURE_MISMATCH)
  end.

(** ** Merge points *)

Definition MAX_REGIONS : nat := 1024.

(** The regions at the start of a chain, at most [n] of them. *)
Fixpoint leading_regions (n : nat) (s : store) (walk : option loc) : option (list (loc * RegionNode)) :=
  match n, walk with
  | S n, Some l =>
      nd ← s !! l;
      match data nd with
      | NRegion r => rs ← leading_regions n s (next nd); Some ((l, r) :: rs)
      | _ => Some []
      end
  | _, _ => Some []
  end.

(** The walk back over the regions, last one first. *)
Fixpoint match_back (new_ops : list TraceEntry) (recipe : option Z) (regions : list (loc * RegionNode)) (new_pos : nat)
    (merge : option loc) : result (option loc) :=
  match regions with
  | [] => Ok merge
  | (l, region) :: regions =>
      let num_ops := length (region_ops region) in
      if (new_pos =? 0)%nat then Ok merge
      else if (new_pos <? num_ops)%nat then Ok merge
      else
        (let* new_hash := compute_content_hash (take num_ops (drop (new_pos - num_ops) new_ops)) recipe in
         if new_hash =? region_content_hash region then match_back new_ops recipe regions (new_pos - num_ops) (Some l)
         else Ok merge)%result
  end.

Definition find_merge_point (s : store) (new_ops : list TraceEntry) (existing_continuation : option loc) (recipe : option Z)
    : result (option loc) :=
  (let* _ := fold_start recipe in
   match leading_regions MAX_REGIONS s existing_continuation with
   | None => Fatal "a pointer of the chain is dangling"
   | Some existing => match_back new_ops recipe (reverse existing) (length new_ops) None
   end)%result.

(** ** Factories: the node that the arena gives at an address *)

Definition make_region (l : loc) (ops : list TraceEntry) (recipe : option Z) (s : store) : result store :=
  (let* h := compute_content_hash ops recipe in
   let* _ := require ((Z.of_nat (length ops) <=? 0) || negb (h =? 0)) "num_ops > 0 implies content_hash != 0" in
   Ok (<[l := mkNode 0 None (NRegion (mkRegion h ops None))]> s))%result.

Definition make_terminal (l : loc) (s : store) : store := <[l := mkNode 0 None NTerminal]> s.

(** The test of epsilon, a finite float that is at least zero, is on its
    bits. *)
Definition make_loop (l : loc) (body : option loc) (spec : LoopSpec) (s : store) : result store :=
  (let* _ := require (is_Some_b body) "body != nullptr" in
   let* _ := require (measured_ok (epsilon spec)) "epsilon is finite and not negative" in
   let* _ := require (bool_decide (term_kind spec <> UNTIL) || (0 <? repeat_count spec)) "an UNTIL loop ran" in
   Ok (<[l := mkNode 0 None (NLoop spec body)]> s))%result.

(** init_region_node over a default-constructed node at [l], with a hash that
    the caller folded. *)
Definition init_region_node (l : loc) (ops : list TraceEntry) (precomputed_hash : Z) (s : store) : result store :=
  (let* _ := require (negb (precomputed_hash =? 0) || (Z.of_nat (length ops) =? 0)) "the hash of ops is set" in
   match s !! l with
   | Some (mkNode m nx (NRegion r)) =>
       let* _ := require (region_content_hash r =? 0) "the node is default-constructed" in
       Ok (<[l := mkNode m nx (NRegion (mkRegion precomputed_hash ops (region_plan r)))]> s)
   | _ => Fatal "no region node at this address"
   end)%result.
