(* ===== verification/DagProofs.v ===== *)
(** * DagProofs.v: the dag as the tree that it unfolds to

    A dag is acyclic when its unfolding from a root ends.  The walks of Dag.v
    are compared with structural functions on that tree, which has no
    pointers, no sharing and no fuel. *)

From stdpp Require Import base list strings gmap relations.
From Stdlib Require Import ZArith Lia.
From S2P Require Import Prelude.
From S2P Require Import Types.
From S2P Require Import Hash.
From S2P Require Import ContentHash.
From S2P Require Import Serialize.
From S2P Require Import Dag.
#[local] Open Scope Z_scope.

(** ** Unfoldings *)

Inductive tree :=
| TNil
| TRegion (l : loc) (r : RegionNode) (nx : tree)
| TBranch (g : Guard) (arms : list (Z * tree)) (nx : tree)
| TLoop (spec : LoopSpec) (body nx : tree)
| TTerminal (nx : tree).

Fixpoint unfold (fuel : nat) (s : store) (node : option loc) : option tree :=
  match node with
  | None => Some TNil
  | Some l =>
      match fuel with
      | O => None
      | S fuel =>
          n ← s !! l;
          nx ← unfold fuel s (next n);
          match data n with
          | NRegion r => Some (TRegion l r nx)
          | NBranch g arms => ts ← mapM (fun arm => pair arm.1 <$> unfold fuel s arm.2) arms; Some (TBranch g ts nx)
          | NLoop spec body => b ← unfold fuel s body; Some (TLoop spec b nx)
          | NTerminal => Some (TTerminal nx)
          end
      end
  end.

(** The pointers that a node holds. *)
Definition children (n : TraceNode) : list (option loc) :=
  next n :: match data n with NBranch _ arms => arms.*2 | NLoop _ body => [body] | _ => [] end.

Lemma unfold_step fuel s l t :
  unfold (S fuel) s (Some l) = Some t ->
  exists n nx, s !! l = Some n /\ unfold fuel s (next n) = Some nx /\
    match data n with
    | NRegion r => t = TRegion l r nx
    | NBranch g arms => exists ts, Forall2 (fun arm at_ => at_.1 = arm.1 /\ unfold fuel s arm.2 = Some at_.2) arms ts /\ t = TBranch g ts nx
    | NLoop spec body => exists b, unfold fuel s body = Some b /\ t = TLoop spec b nx
    | NTerminal => t = TTerminal nx
    end.
Proof.
  cbn [unfold]. destruct (s !! l) as [n|]; [|done]. cbn [mbind option_bind].
  destruct (unfold fuel s (next n)) as [nx|] eqn:Hnx; [|done]. cbn [mbind option_bind]. intros Ht. exists n, nx. split_and!; [done|done|].
  destruct (data n) as [r|g arms|spec body|]; try by simplify_eq.
  - apply bind_Some in Ht as (ts & Hts & [= <-]). exists ts. split; [|done]. apply mapM_Some in Hts.
    eapply Forall2_impl; [exact Hts|]. intros [v p] [v' t'] (t0 & Ht0 & [= -> ->])%fmap_Some. done.
  - apply bind_Some in Ht as (b & Hb & [= <-]). by exists b.
Qed.

Lemma unfold_found fuel s l t : unfold fuel s (Some l) = Some t -> exists n, s !! l = Some n.
Proof. destruct fuel; [done|]. intros (n & _ & Hn & _)%unfold_step. by exists n. Qed.

Lemma unfold_child fuel s l n t p :
  unfold (S fuel) s (Some l) = Some t -> s !! l = Some n -> p ∈ children n -> exists t', unfold fuel s p = Some t'.
Proof.
  intros Hu Hn Hp. apply unfold_step in Hu as (n' & nx & Hn' & Hnx & Ht). assert (n' = n) as -> by congruence.
  unfold children in Hp. apply elem_of_cons in Hp as [->|Hp]; [by exists nx|].
  destruct (data n) as [r|g arms|spec body|]; try by apply not_elem_of_nil in Hp.
  - destruct Ht as (ts & Hts & _). apply list_elem_of_fmap in Hp as (arm & -> & Harm).
    apply list_elem_of_lookup in Harm as [i Hi]. destruct (Forall2_lookup_l _ _ _ _ _ Hts Hi) as (at_ & _ & _ & Hat). by exists at_.2.
  - destruct Ht as (b & Hb & _). apply list_elem_of_singleton in Hp as ->. by exists b.
Qed.

(** More fuel gives the same tree. *)
Lemma unfold_mono fuel fuel' s p t : (fuel <= fuel')%nat -> unfold fuel s p = Some t -> unfold fuel' s p = Some t.
Proof.
  revert fuel' p t. induction fuel as [|fuel IH]; intros fuel' p t Hle Hu; destruct p as [l|]; try by (destruct fuel').
  destruct fuel' as [|fuel']; [lia|]. apply unfold_step in Hu as (n & nx & Hn & Hnx & Ht). cbn [unfold].
  rewrite Hn. cbn [mbind option_bind]. rewrite (IH fuel' _ nx) by (done || lia). cbn [mbind option_bind].
  destruct (data n) as [r|g arms|spec body|]; try by subst.
  - destruct Ht as (ts & Hts & ->). erewrite (proj2 (mapM_Some _ _ _)); [done|]. eapply Forall2_impl; [exact Hts|].
    intros [v p] [v' t'] [Hv Hu']. simpl in *. subst. by rewrite (IH fuel' _ t') by (done || lia).
  - destruct Ht as (b & Hb & ->). by rewrite (IH fuel' _ b) by (done || lia).
Qed.

Lemma unfold_det fuel fuel' s p t t' : unfold fuel s p = Some t -> unfold fuel' s p = Some t' -> t = t'.
Proof.
  intros H1 H2. destruct (Nat.le_ge_cases fuel fuel') as [Hle|Hle].
  - pose proof (unfold_mono _ _ _ _ _ Hle H1). congruence.
  - pose proof (unfold_mono _ _ _ _ _ Hle H2). congruence.
Qed.

(** ** Stores that differ in hashes only *)

Definition shape (n : TraceNode) : option loc * NodeData := (next n, data n).
Definition same_shape (s s' : store) : Prop := forall l, shape <$> s !! l = shape <$> s' !! l.

#[export] Instance same_shape_equiv : Equivalence same_shape.
Proof.
  split.
  - by intros s l.
  - intros s s' H l. by rewrite H.
  - intros s s' s'' H H' l. by rewrite H, H'.
Qed.

Lemma same_shape_lookup s s' l n :
  same_shape s s' -> s !! l = Some n -> exists n', s' !! l = Some n' /\ next n' = next n /\ data n' = data n.
Proof.
  intros Hs Hl. specialize (Hs l). rewrite Hl in Hs. simpl in Hs. symmetry in Hs. apply fmap_Some in Hs as (n' & Hn' & Heq).
  exists n'. unfold shape in Heq. split; [done|]. split; congruence.
Qed.

Lemma unfold_shape s s' : same_shape s s' -> forall fuel p t, unfold fuel s p = Some t -> unfold fuel s' p = Some t.
Proof.
  intros Hs fuel. induction fuel as [|fuel IH]; intros p t Hu; destruct p as [l|]; try done.
  apply unfold_step in Hu as (n & nx & Hn & Hnx & Ht). destruct (same_shape_lookup _ _ _ _ Hs Hn) as (n' & Hn' & Hne & Hda).
  cbn [unfold]. rewrite Hn'. cbn [mbind option_bind]. rewrite Hne, (IH _ nx) by done. cbn [mbind option_bind]. rewrite Hda.
  destruct (data n) as [r|g arms|spec body|]; try by subst.
  - destruct Ht as (ts & Hts & ->). erewrite (proj2 (mapM_Some _ _ _)); [done|]. eapply Forall2_impl; [exact Hts|].
    intros [v p] [v' t'] [Hv Hu']. simpl in *. subst. by rewrite (IH _ t').
  - destruct Ht as (b & Hb & ->). by rewrite (IH _ b).
Qed.

#[export] Instance unfold_proper fuel : Proper (same_shape ==> eq ==> eq) (unfold fuel).
Proof.
  intros s s' Hs p ? <-. destruct (unfold fuel s p) as [t|] eqn:Hu.
  - symmetry. by apply (unfold_shape s s').
  - destruct (unfold fuel s' p) as [t|] eqn:Hu'; [|done]. symmetry in Hs. apply (unfold_shape s' s Hs) in Hu'. congruence.
Qed.

(** The nodes below a pointer. *)
Inductive below (s : store) : option loc -> loc -> Prop :=
| below_here l n : s !! l = Some n -> below s (Some l) l
| below_child l n p q : s !! l = Some n -> p ∈ children n -> below s p q -> below s (Some l) q.

Lemma below_shape s s' p q : same_shape s s' -> below s p q -> below s' p q.
Proof.
  intros Hs. induction 1 as [l n Hn|l n p q Hn Hp _ IH].
  - destruct (same_shape_lookup _ _ _ _ Hs Hn) as (n' & Hn' & _). by eapply below_here.
  - destruct (same_shape_lookup _ _ _ _ Hs Hn) as (n' & Hn' & Hne & Hda). eapply below_child; [done| |done].
    unfold children in *. by rewrite Hne, Hda.
Qed.

(** ** The hash of a tree *)

Definition is_nil (t : tree) : bool := match t with TNil => true | _ => false end.

Fixpoint tree_hash (t : tree) : Z :=
  let with_next nx state := if is_nil nx then state else fmix64 (Z.lxor state (tree_hash nx)) in
  match t with
  | TNil | TTerminal _ => 0
  | TRegion _ r nx => with_next nx (region_content_hash r)
  | TBranch g arms nx =>
      with_next nx
        ((fix go arms state := match arms with [] => state | (_, t) :: arms => go arms (fold_arm state (tree_hash t)) end)
           arms (fmix64 (guard_hash g)))
  | TLoop spec _ nx => with_next nx (loop_state spec)
  end.

Definition arms_hash (arms : list (Z * tree)) (state : Z) : Z := fold_left (fun st at_ => fold_arm st (tree_hash at_.2)) arms state.
Definition with_next (nx : tree) (state : Z) : Z := if is_nil nx then state else fmix64 (Z.lxor state (tree_hash nx)).

Lemma tree_hash_branch g arms nx : tree_hash (TBranch g arms nx) = with_next nx (arms_hash arms (fmix64 (guard_hash g))).
Proof.
  simpl. unfold with_next. generalize (fmix64 (guard_hash g)). intros st.
  assert (H : forall st, (fix go (arms : list (Z * tree)) (state : Z) {struct arms} : Z :=
       match arms with [] => state | (_, t) :: arms0 => go arms0 (fold_arm state (tree_hash t)) end) arms st = arms_hash arms st).
  { clear. induction arms as [|[v t] arms IH]; intros st; [done|]. simpl. by rewrite IH. }
  by rewrite H.
Qed.

(** Every arm has a target. *)
Fixpoint arms_set (t : tree) : bool :=
  match t with
  | TNil => true
  | TRegion _ _ nx | TTerminal nx => arms_set nx
  | TBranch _ arms nx => forallb (fun at_ => negb (is_nil at_.2) && arms_set at_.2) arms && arms_set nx
  | TLoop _ body nx => arms_set body && arms_set nx
  end.

(** A node that holds the hash of its unfolding. *)
Definition hashed (s : store) (l : loc) : Prop :=
  exists n fuel t, s !! l = Some n /\ unfold fuel s (Some l) = Some t /\ merkle_hash n = tree_hash t.

Lemma unfold_nil fuel s p t : unfold fuel s p = Some t -> is_nil t = bool_decide (p = None).
Proof.
  destruct p as [l|]; [|by destruct fuel; intros [= <-]]. destruct fuel as [|fuel]; [done|]. intros Hu.
  apply unfold_step in Hu as (n & nx & _ & _ & Ht). destruct (data n); naive_solver.
Qed.

Lemma hashed_get s l fuel t : hashed s l -> unfold fuel s (Some l) = Some t -> exists n, s !! l = Some n /\ merkle_hash n = tree_hash t.
Proof. intros (n & fuel' & t' & Hn & Hu & Hh) Hu'. rewrite (unfold_det _ _ _ _ _ _ Hu' Hu). by exists n. Qed.

Lemma fold_next_hashed s p nx fuel state :
  unfold fuel s p = Some nx -> (forall l, p = Some l -> hashed s l) -> fold_next s p state = Some (with_next nx state).
Proof.
  intros Hu Hh. unfold with_next. rewrite (unfold_nil _ _ _ _ Hu). destruct p as [l|]; simpl; [|done].
  destruct (hashed_get s l fuel nx (Hh l eq_refl) Hu) as (n & Hl & Hm). rewrite Hl. simpl. by rewrite Hm.
Qed.

Lemma fold_arms_hashed s fuel arms ts :
  Forall2 (fun arm at_ => at_.1 = arm.1 /\ unfold fuel s arm.2 = Some at_.2) arms ts ->
  Forall (fun at_ => is_nil at_.2 = false) ts -> (forall l, Some l ∈ arms.*2 -> hashed s l) ->
  forall state, fold_arms s arms state = Some (arms_hash ts state).
Proof.
  induction 1 as [|[v p] [v' t] arms ts [_ Hu] _ IH]; intros Hn Hh state; [done|]. simpl in *.
  apply Forall_cons in Hn as [Hnil Hn]. cbn [snd] in Hnil. rewrite (unfold_nil _ _ _ _ Hu) in Hnil. destruct p as [l|]; [|done].
  destruct (hashed_get s l fuel t) as (n & Hl & Hm); [apply Hh; left|done|]. simpl. rewrite Hl. simpl. rewrite Hm.
  apply IH; [done|]. intros l' Hl'. apply Hh. by right.
Qed.

(** A node whose children hold their hashes computes its own. *)
Lemma compute_merkle_hashed fuel s l n t :
  s !! l = Some n -> unfold (S fuel) s (Some l) = Some t -> arms_set t = true ->
  (forall q, Some q ∈ children n -> hashed s q) -> compute_merkle_hash s (Some l) = Some (tree_hash t).
Proof.
  intros Hn Hu Ha Hc. apply unfold_step in Hu as (n' & nx & Hn' & Hnx & Ht).
  assert (n' = n) as -> by congruence.
  assert (Hnext : forall st, fold_next s (next n) st = Some (with_next nx st)).
  { intros st. eapply fold_next_hashed; [done|]. intros q Hq. apply Hc. unfold children. rewrite Hq. left. }
  unfold compute_merkle_hash. rewrite Hn. cbn [mbind option_bind].
  destruct (data n) as [r|g arms|spec body|] eqn:Hd.
  - subst t. by rewrite Hnext.
  - destruct Ht as (ts & Hts & ->). rewrite tree_hash_branch. cbn [arms_set] in Ha. apply andb_prop in Ha as [Ha _].
    erewrite (fold_arms_hashed s fuel arms ts Hts); [simpl; apply Hnext| |].
    + apply Forall_forall. intros at_ Hin. rewrite forallb_forall in Ha.
      specialize (Ha at_ (proj1 (list_elem_of_In _ _) Hin)). by apply andb_prop in Ha as [?%negb_true_iff _].
    + intros q Hq. apply Hc. unfold children. rewrite Hd. by right.
  - destruct Ht as (b & Hb & ->). by rewrite Hnext.
  - by subst t.
Qed.

(** ** Recomputation *)

(** What a recomputation below some pointers does to the store. *)
Record recomputed (s : store) (ps : list (option loc)) (s' : store) : Prop := {
  rc_shape : same_shape s s';
  rc_keep : forall l, hashed s l -> hashed s' l;
  rc_done : forall p l, p ∈ ps -> below s p l -> hashed s' l;
  rc_frame : forall l, (forall p, p ∈ ps -> ~ below s p l) -> s' !! l = s !! l;
}.

Lemma recomputed_nil s : recomputed s [] s.
Proof. split; [done|done| |done]. intros p l Hp. by apply not_elem_of_nil in Hp. Qed.

Lemma recomputed_app s ps s1 qs s2 : recomputed s ps s1 -> recomputed s1 qs s2 -> recomputed s (ps ++ qs) s2.
Proof.
  intros [Hs1 Hk1 Hd1 Hf1] [Hs2 Hk2 Hd2 Hf2]. split.
  - by etransitivity.
  - intros l Hl. by apply Hk2, Hk1.
  - intros p l Hp Hb. apply elem_of_app in Hp as [Hp|Hp].
    + by eapply Hk2, Hd1.
    + eapply Hd2; [done|]. by eapply below_shape.
  - intros l Hl. rewrite Hf2, Hf1; [done| |].
    + intros p Hp. apply Hl, elem_of_app. by left.
    + intros p Hp Hb. apply (Hl p); [apply elem_of_app; by right|]. symmetry in Hs1. by eapply below_shape.
Qed.

Lemma hashed_shape s s' l :
  same_shape s s' -> hashed s l -> (merkle_hash <$> s' !! l = merkle_hash <$> s !! l) -> hashed s' l.
Proof.
  intros Hs (n & fuel & t & Hn & Hu & Hh) Hm. rewrite Hn in Hm. apply fmap_Some in Hm as (n' & Hn' & Heq).
  exists n', fuel, t. split_and!; [done|by apply (unfold_shape s s')|congruence].
Qed.

Lemma store_hash_recomputed fuel s l n t :
  s !! l = Some n -> unfold (S fuel) s (Some l) = Some t -> arms_set t = true ->
  (forall q, Some q ∈ children n -> hashed s q) ->
  exists s', store_hash s l = Some s' /\ same_shape s s' /\ (forall q, hashed s q -> hashed s' q) /\ hashed s' l /\
    (forall q, q <> l -> s' !! q = s !! q).
Proof.
  intros Hn Hu Ha Hc. unfold store_hash. rewrite (compute_merkle_hashed fuel s l n t Hn Hu Ha Hc). cbn [mbind option_bind].
  eexists. split; [reflexivity|].
  assert (Hsh : same_shape s (alter (set_merkle (tree_hash t)) l s)).
  { intros q. destruct (decide (q = l)) as [->|Hne]; [|by rewrite lookup_alter_ne]. rewrite lookup_alter_eq, Hn. done. }
  assert (Hl : hashed (alter (set_merkle (tree_hash t)) l s) l).
  { exists (set_merkle (tree_hash t) n), (S fuel), t. split_and!; [by rewrite lookup_alter_eq, Hn|by apply (unfold_shape s)|done]. }
  split_and!; [done| |done|].
  - intros q Hq. destruct (decide (q = l)) as [->|Hne]; [done|]. apply (hashed_shape s); [done|done|]. by rewrite lookup_alter_ne.
  - intros q Hne. by rewrite lookup_alter_ne.
Qed.

(** The recursion of recompute_merkle at one level of fuel. *)
Definition recompute_ok (fuel : nat) : Prop := forall s p t,
  unfold fuel s p = Some t -> arms_set t = true -> exists s', recompute_merkle fuel s p = Some s' /\ recomputed s [p] s'.

Lemma recompute_arms fuel arms : recompute_ok fuel -> forall s ts,
  Forall2 (fun arm at_ => at_.1 = arm.1 /\ unfold fuel s arm.2 = Some at_.2) arms ts ->
  Forall (fun at_ => arms_set at_.2 = true) ts ->
  exists s', foldl (fun (acc : option store) (arm : Z * option loc) => s ← acc; recompute_merkle fuel s arm.2) (Some s) arms = Some s' /\
    recomputed s arms.*2 s'.
Proof.
  intros Hok. induction arms as [|[v p] arms IH]; intros s ts Hts Ha; [exists s; split; [done|apply recomputed_nil]|].
  inversion Hts as [|? [v' t] ? ts' [_ Hu] Hts']; subst. apply Forall_cons in Ha as [Ha Has]. simpl in *.
  destruct (Hok s p t Hu Ha) as (s1 & Hr & Hrc). rewrite Hr. destruct (IH s1 ts') as (s2 & Hf & Hrc2); [|done|].
  - eapply Forall2_impl; [exact Hts'|]. intros arm at_ [? ?]. split; [done|]. eapply unfold_shape; [apply Hrc|done].
  - exists s2. split; [exact Hf|]. apply (recomputed_app s [p] s1 arms.*2 s2 Hrc Hrc2).
Qed.

Lemma below_self_or_child s l n q :
  s !! l = Some n -> below s (Some l) q -> q = l \/ exists p, p ∈ children n /\ below s p q.
Proof. intros Hn Hb. inversion Hb; subst; [by left|]. right. simplify_eq. eauto. Qed.

Lemma recompute_node fuel s l n t s1 ps :
  s !! l = Some n -> unfold (S fuel) s (Some l) = Some t -> arms_set t = true ->
  (forall p, p ∈ children n <-> p ∈ ps) -> recomputed s ps s1 ->
  exists s', store_hash s1 l = Some s' /\ recomputed s [Some l] s'.
Proof.
  intros Hn Hu Ha Hps Hrc. destruct (same_shape_lookup _ _ _ _ (rc_shape _ _ _ Hrc) Hn) as (n1 & Hn1 & Hne & Hda).
  assert (Hc1 : children n1 = children n) by (unfold children; by rewrite Hne, Hda).
  assert (Hdone : forall q, Some q ∈ children n -> hashed s1 q).
  { intros q Hq. apply (rc_done _ _ _ Hrc (Some q)); [by apply Hps|].
    assert (Hex : exists n', s !! q = Some n').
    { destruct (unfold_child _ _ _ _ _ _ Hu Hn Hq) as [t' Ht']. by eapply unfold_found. }
    destruct Hex as [n' Hn']. by eapply below_here. }
  destruct (store_hash_recomputed fuel s1 l n1 t) as (s' & Hst & Hsh & Hk & Hl & Hfr).
  - done.
  - eapply unfold_shape; [apply Hrc|done].
  - done.
  - by rewrite Hc1.
  - exists s'. split; [done|]. split.
    + etransitivity; [apply Hrc|done].
    + intros q Hq. by apply Hk, (rc_keep _ _ _ Hrc).
    + intros p q Hp Hb. apply list_elem_of_singleton in Hp as ->.
      destruct (below_self_or_child _ _ _ _ Hn Hb) as [->|(p & Hp & Hb')]; [done|]. apply Hk, (rc_done _ _ _ Hrc p); [by apply Hps|done].
    + intros q Hq. assert (q <> l). { intros ->. apply (Hq (Some l)); [left|]. by eapply below_here. }
      rewrite Hfr by done. apply (rc_frame _ _ _ Hrc). intros p Hp Hb. apply (Hq (Some l)); [left|].
      eapply below_child; [done|by apply Hps|done].
Qed.

Lemma arms_set_parts t :
  arms_set t = true ->
  match t with
  | TNil => True
  | TRegion _ _ nx | TTerminal nx => arms_set nx = true
  | TBranch _ arms nx => Forall (fun at_ => arms_set at_.2 = true) arms /\ arms_set nx = true
  | TLoop _ body nx => arms_set body = true /\ arms_set nx = true
  end.
Proof.
  destruct t as [|l r nx|g arms nx|spec body nx|nx]; simpl; try done; [|apply andb_prop].
  intros [Ha Hn]%andb_prop. split; [|done]. apply Forall_forall. intros at_ Hin. rewrite forallb_forall in Ha.
  specialize (Ha at_ (proj1 (list_elem_of_In _ _) Hin)). by apply andb_prop in Ha as [_ ?].
Qed.

Lemma recompute_fuel fuel : recompute_ok fuel.
Proof.
  induction fuel as [|fuel IH]; intros s p t Hu Ha; (destruct p as [l|]; [|exists s; split; [done|]]).
  - done.
  - split; try done. intros p l Hp. apply list_elem_of_singleton in Hp as ->. by inversion 1.
  - pose proof Hu as Hu'. apply unfold_step in Hu' as (n & nx & Hn & Hnx & Ht). cbn [recompute_merkle]. rewrite Hn.
    cbn [mbind option_bind].
    assert (Hparts : exists s1 qs, match data n with
              | NBranch _ arms => foldl (fun acc arm => s ← acc; recompute_merkle fuel s arm.2) (Some s) arms
              | NLoop _ body => recompute_merkle fuel s body
              | _ => Some s
              end = Some s1 /\ recomputed s qs s1 /\ arms_set nx = true /\ children n = next n :: qs).
    { apply arms_set_parts in Ha. unfold children. destruct (data n) as [r|g arms|spec body|].
      - subst t. exists s, []. split_and!; [done|apply recomputed_nil|done|done].
      - destruct Ht as (ts & Hts & ->). destruct Ha as [Ha Hanx].
        destruct (recompute_arms fuel arms IH s ts Hts Ha) as (s1 & Hs1 & Hrc). by exists s1, arms.*2.
      - destruct Ht as (b & Hb & ->). destruct Ha as [Ha Hanx]. destruct (IH s body b Hb Ha) as (s1 & Hs1 & Hrc). by exists s1, [body].
      - subst t. exists s, []. split_and!; [done|apply recomputed_nil|done|done]. }
    destruct Hparts as (s1 & qs & -> & Hrc1 & Hanx & Hch). cbn [mbind option_bind].
    destruct (IH s1 (next n) nx) as (s2 & -> & Hrc2); [eapply unfold_shape; [apply Hrc1|done]|done|]. cbn [mbind option_bind].
    eapply (recompute_node fuel s l n t s2 (qs ++ [next n])); [done..| |by eapply recomputed_app].
    intros p. rewrite Hch, elem_of_cons, elem_of_app, list_elem_of_singleton. tauto.
  - split; try done. intros p l Hp. apply list_elem_of_singleton in Hp as ->. by inversion 1.
Qed.


(** ** Differences *)

Lemma loops_same a b : loops_differ a b = false -> a = b.
Proof.
  unfold loops_differ. rewrite negb_false_iff, !andb_true_iff. intros [[[[[H1 _] H3] H4] H5] H6].
  apply Z.eqb_eq in H1, H4, H5. apply bool_decide_eq_true in H3, H6. destruct a, b; simpl in *. by subst.
Qed.

(** ** The first divergence *)

(** What the walk meets at one step: the end of a chain, a terminal, a region
    with its content, a branch with its guard and the number of its arms, the
    value of one arm, a loop with its fields. *)
Inductive mark :=
| MNull | MTerminal | MRegion (content : Z) | MBranch (guard : Z) (num_arms : nat) | MArm (value : Z) | MLoop (spec : LoopSpec).

#[export] Instance mark_eq_dec : EqDecision mark.
Proof. solve_decision. Defined.

(** A step with the node that it belongs to and its depth. *)
Record step := mkStep { step_mark : mark; step_node : option loc; step_depth : Z }.

(** The whole dag below a pointer, in the order of the walk: a node, then its
    arms from the first to the last or its body, then what follows it. *)
Fixpoint trail (fuel : nat) (s : store) (p : option loc) (depth : Z) : option (list step) :=
  match p with
  | None => Some [mkStep MNull None depth]
  | Some l =>
      match fuel with
      | O => None
      | S fuel =>
          n ← s !! l;
          let here m := mkStep m p depth in
          let below_ q := trail fuel s q (u32 (depth + 1)) in
          match data n with
          | NRegion r => rest ← below_ (next n); Some (here (MRegion (region_content_hash r)) :: rest)
          | NBranch g arms =>
              ts ← mapM (fun arm => cons (here (MArm arm.1)) <$> below_ arm.2) arms;
              rest ← below_ (next n);
              Some (here (MBranch (guard_hash g) (length arms)) :: concat ts ++ rest)
          | NLoop spec body => b ← below_ body; rest ← below_ (next n); Some (here (MLoop spec) :: b ++ rest)
          | NTerminal => Some [here MTerminal]
          end
      end
  end.

Definition mismatch_kind (x y : mark) : DiffKind :=
  match x, y with
  | MNull, _ | _, MNull => STRUCTURE_MISMATCH
  | MRegion _, MRegion _ => CONTENT_MISMATCH
  | MBranch _ _, MBranch _ _ | MArm _, MArm _ => BRANCH_MISMATCH
  | MLoop _, MLoop _ => LOOP_MISMATCH
  | _, _ => KIND_MISMATCH
  end.

(** The first step at which two walks differ. *)
Fixpoint first_divergence (xs ys : list step) : option DagDiff :=
  match xs, ys with
  | x :: xs, y :: ys =>
      if bool_decide (step_mark x = step_mark y) then first_divergence xs ys
      else Some (mkDiff (step_node x) (step_node y) (step_depth x) (mismatch_kind (step_mark x) (step_mark y)))
  | _, _ => None
  end.

(** The answer [d] for two walks: they agree to their ends and [d] says so, or
    [d] is their first divergence. *)
Definition reports (xs ys : list step) (d : DagDiff) : Prop :=
  (step_mark <$> xs = step_mark <$> ys /\ diff_kind d = IDENTICAL) \/ (first_divergence xs ys = Some d /\ diff_kind d <> IDENTICAL).

(** Two subtrees with one merkle hash have one content. *)
Definition hash_tells (s : store) (a b : option loc) : Prop :=
  forall x y nx ny fuel depth xs ys, below s a x -> below s b y -> s !! x = Some nx -> s !! y = Some ny -> merkle_hash nx = merkle_hash ny ->
    trail fuel s (Some x) depth = Some xs -> trail fuel s (Some y) depth = Some ys -> step_mark <$> xs = step_mark <$> ys.

Lemma first_divergence_same xs ys xs' ys' :
  step_mark <$> xs = step_mark <$> ys -> first_divergence (xs ++ xs') (ys ++ ys') = first_divergence xs' ys'.
Proof.
  revert ys. induction xs as [|x xs IH]; intros [|y ys] Heq; try done. injection Heq as Hx Heq. cbn [app first_divergence].
  rewrite bool_decide_true by done. by apply IH.
Qed.

Lemma first_divergence_app xs ys xs' ys' d : first_divergence xs ys = Some d -> first_divergence (xs ++ xs') (ys ++ ys') = Some d.
Proof.
  revert ys. induction xs as [|x xs IH]; intros [|y ys] Hd; try done. cbn [app first_divergence] in *. case_bool_decide; [by apply IH|done].
Qed.

(** An answer for two parts of the walks is one for the whole, when what comes
    before agrees and, should the parts agree, so does what comes after. *)
Lemma reports_app xs ys xs' ys' d d' :
  reports xs ys d -> (diff_kind d = IDENTICAL -> reports xs' ys' d') ->
  reports (xs ++ xs') (ys ++ ys') (if bool_decide (diff_kind d = IDENTICAL) then d' else d).
Proof.
  intros [[Heq Hk]|[Hf Hk]] Hrest.
  - rewrite bool_decide_true by done. destruct (Hrest Hk) as [[Heq' Hk']|[Hf' Hk']]; [left|right]; (split; [|done]).
    + by rewrite !fmap_app, Heq, Heq'.
    + by rewrite first_divergence_same.
  - rewrite bool_decide_false by done. right. split; [by apply first_divergence_app|done].
Qed.

Lemma reports_cons x y xs ys d : step_mark x = step_mark y -> reports xs ys d -> reports (x :: xs) (y :: ys) d.
Proof.
  intros Hm [[Heq Hk]|[Hf Hk]]; [left|right]; (split; [|done]); cbn; [by rewrite Hm, Heq|by rewrite bool_decide_true].
Qed.

Lemma reports_here m m' p q depth k xs ys :
  m <> m' -> mismatch_kind m m' = k -> reports (mkStep m p depth :: xs) (mkStep m' q depth :: ys) (mkDiff p q depth k).
Proof.
  intros Hm <-. right. cbn. rewrite bool_decide_false by done. split; [done|]. unfold mismatch_kind. by repeat case_match.
Qed.

Lemma loops_differ_iff a b : loops_differ a b = bool_decide (a <> b).
Proof.
  destruct (loops_differ a b) eqn:E; [rewrite bool_decide_true; [done|]|rewrite bool_decide_false; [done|]].
  - intros ->. unfold loops_differ in E. by rewrite !Z.eqb_refl, Nat.eqb_refl, !bool_decide_true in E.
  - apply loops_same in E. tauto.
Qed.

Lemma hash_tells_child s la lb na nb p q :
  hash_tells s (Some la) (Some lb) -> s !! la = Some na -> s !! lb = Some nb -> p ∈ children na -> q ∈ children nb -> hash_tells s p q.
Proof. intros Ht Ha Hb Hp Hq x y nx ny fuel d xs ys Hx Hy. apply Ht; by eapply below_child. Qed.

Definition walk_ok (fuel : nat) : Prop := forall s a b depth xs ys,
  hash_tells s a b -> trail fuel s a depth = Some xs -> trail fuel s b depth = Some ys ->
  exists d, dag_diff fuel s a b depth = Some d /\ reports xs ys d.

Lemma walk_arms_ok fuel s la lb depth arms_a arms_b tsa tsb :
  walk_ok fuel -> (forall p q, p ∈ arms_a.*2 -> q ∈ arms_b.*2 -> hash_tells s p q) -> length arms_a = length arms_b ->
  Forall2 (fun arm t => cons (mkStep (MArm arm.1) (Some la) depth) <$> trail fuel s arm.2 (u32 (depth + 1)) = Some t) arms_a tsa ->
  Forall2 (fun arm t => cons (mkStep (MArm arm.1) (Some lb) depth) <$> trail fuel s arm.2 (u32 (depth + 1)) = Some t) arms_b tsb ->
  exists d, diff_arms (fun ta tb => dag_diff fuel s ta tb (u32 (depth + 1))) (mkDiff (Some la) (Some lb) depth BRANCH_MISMATCH) arms_a arms_b = Some d /\
    reports (concat tsa) (concat tsb) (default (identical 0) d) /\ (is_Some d <-> diff_kind (default (identical 0) d) <> IDENTICAL).
Proof.
  intros Hok Ht Hlen Ha. revert arms_b tsb Ht Hlen. induction Ha as [|[va pa] ta arms_a tsa Hta _ IH]; intros arms_b tsb Ht Hlen Hb;
    destruct Hb as [|[vb pb] tb arms_b tsb Htb Hb]; try done.
  { exists None. split; [done|]. split; [by left|]. split; [by intros []|done]. }
  apply fmap_Some in Hta as (xs & Hxs & ->), Htb as (ys & Hys & ->). cbn [fst snd] in *. cbn [diff_arms].
  destruct (Z.eqb_spec va vb) as [<-|Hv]; cbn [negb].
  2: { eexists. split; [reflexivity|]. split; [|split; [done|by eexists]].
       apply reports_here; [congruence|done]. }
  destruct (Hok s pa pb (u32 (depth + 1)) xs ys) as (d & Hd & Hr); [apply Ht; left|done|done|]. rewrite Hd. cbn [mbind option_bind].
  destruct (IH arms_b tsb) as (d' & Hd' & Hr' & Hi'); [intros p q Hp Hq; apply Ht; by right|cbn in Hlen; lia|done|].
  pose proof (reports_app xs ys (concat tsa) (concat tsb) d (default (identical 0) d') Hr (fun _ => Hr')) as Hall.
  case_bool_decide as Hk.
  - exists d'. split; [done|]. split; [|done]. by apply reports_cons.
  - exists (Some d). split; [done|]. split; [by apply reports_cons|]. split; [done|by eexists].
Qed.

Lemma trail_head fuel s l depth xs :
  trail fuel s (Some l) depth = Some xs -> exists m rest, xs = mkStep m (Some l) depth :: rest /\ MNull <> m.
Proof.
  destruct fuel as [|fuel]; [done|]. cbn [trail]. destruct (s !! l) as [n|]; [|done]. cbn [mbind option_bind]. intros E.
  destruct (data n); repeat (apply bind_Some in E as (? & _ & E)); simplify_eq; by eexists _, _.
Qed.

Lemma walk_nodes fuel s la lb na nb depth xs ys :
  walk_ok fuel -> s !! la = Some na -> s !! lb = Some nb -> hash_tells s (Some la) (Some lb) -> merkle_hash na <> merkle_hash nb ->
  trail (S fuel) s (Some la) depth = Some xs -> trail (S fuel) s (Some lb) depth = Some ys ->
  exists d, dag_diff (S fuel) s (Some la) (Some lb) depth = Some d /\ reports xs ys d.
Proof.
  intros Hok Hna Hnb Ht Hm Hxs Hys. cbn [trail dag_diff] in *. rewrite Hna in Hxs |- *. cbn [mbind option_bind] in Hxs |- *. rewrite Hnb in Hys |- *.
  cbn [mbind option_bind] in Hys |- *. rewrite (proj2 (Z.eqb_neq _ _) Hm).
  assert (Hc : forall p q, p ∈ children na -> q ∈ children nb -> hash_tells s p q) by (intros; by eapply hash_tells_child).
  destruct (data na) as [ra|ga arms_a|spec_a body_a|] eqn:Hda, (data nb) as [rb|gb arms_b|spec_b body_b|] eqn:Hdb; cbn [kind_of];
    first [rewrite bool_decide_true by done|rewrite bool_decide_false by done]; cbn [negb];
    repeat match goal with E : _ ≫= _ = Some _ |- _ => apply bind_Some in E as (? & ? & E) end; simplify_eq.
  all: try (eexists; split; [reflexivity|]; by apply reports_here).
  - destruct (Z.eqb_spec (region_content_hash ra) (region_content_hash rb)) as [Hr|Hr]; cbn [negb].
    + destruct (Hok s (next na) (next nb) (u32 (depth + 1)) x0 x) as (d & Hd & Hrep); [apply Hc; left|done|done|]. exists d. split; [done|].
      apply reports_cons; [cbn; congruence|done].
    + eexists. split; [reflexivity|]. apply reports_here; [congruence|done].
  - match goal with H1 : mapM _ arms_a = Some ?t, H2 : mapM _ arms_b = Some ?u |- _ => rename t into tsa, u into tsb; apply mapM_Some in H1, H2; rename H1 into Hta, H2 into Htb end.
    destruct (Z.eqb_spec (guard_hash ga) (guard_hash gb)) as [Hg|Hg]; cbn [negb orb];
      [|eexists; split; [reflexivity|]; apply reports_here; [congruence|done]].
    destruct (Nat.eqb_spec (length arms_a) (length arms_b)) as [Hl|Hl]; cbn [negb];
      [|eexists; split; [reflexivity|]; apply reports_here; [congruence|done]].
    destruct (walk_arms_ok fuel s la lb depth arms_a arms_b tsa tsb Hok) as (d & Hd & Hr & Hi);
      [intros p q Hp Hq; apply Hc; unfold children; rewrite ?Hda, ?Hdb; by right|done..|].
    destruct (Hok s (next na) (next nb) (u32 (depth + 1)) x2 x0) as (d' & Hd' & Hr'); [apply Hc; left|done|done|]. rewrite Hd. cbn [mbind option_bind].
    pose proof (reports_app _ _ x2 x0 _ d' Hr (fun _ => Hr')) as Hall.
    exists (match d with Some d => d | None => d' end). split; [by destruct d|]. apply reports_cons; [cbn; congruence|].
    destruct d as [d|]; [|exact Hall]. cbn in Hall. rewrite bool_decide_false in Hall; [done|]. by apply Hi.
  - rewrite loops_differ_iff. case_bool_decide as Hsp; [eexists; split; [reflexivity|]; apply reports_here; [congruence|done]|].
    subst spec_b.
    destruct (Hok s body_a body_b (u32 (depth + 1)) x1 x) as (d & Hd & Hr);
      [apply Hc; unfold children; rewrite ?Hda, ?Hdb; right; left|done|done|].
    destruct (Hok s (next na) (next nb) (u32 (depth + 1)) x2 x0) as (d' & Hd' & Hr'); [apply Hc; left|done|done|]. rewrite Hd. cbn [mbind option_bind].
    exists (if bool_decide (diff_kind d = IDENTICAL) then d' else d). split; [by destruct (bool_decide _)|]. apply reports_cons; [done|].
    exact (reports_app _ _ _ _ d d' Hr (fun _ => Hr')).
  - exists (identical depth). split; [done|]. by left.
Qed.

Lemma walk_fuel fuel : walk_ok fuel.
Proof.
  induction fuel as [|fuel IH]; intros s [la|] [lb|] depth xs ys Ht Hxs Hys; try done.
  all: try (simpl in Hxs, Hys; simplify_eq; exists (identical depth); split; [done|by left]).
  all: try (simpl in Hxs; simplify_eq; apply trail_head in Hys as (m & rest & -> & Hm); eexists; split; [reflexivity|]; by apply reports_here).
  all: try (simpl in Hys; simplify_eq; apply trail_head in Hxs as (m & rest & -> & Hm); eexists; split; [reflexivity|]; apply reports_here; [done|by destruct m]).
  destruct (s !! la) as [na|] eqn:Hna; [|by cbn in Hxs; rewrite Hna in Hxs]. destruct (s !! lb) as [nb|] eqn:Hnb; [|by cbn in Hys; rewrite Hnb in Hys].
  destruct (decide (merkle_hash na = merkle_hash nb)) as [Heq|Hne]; [|by eapply walk_nodes].
  exists (identical depth). split; [cbn [dag_diff]; rewrite Hna; cbn [mbind option_bind]; rewrite Hnb; cbn [mbind option_bind]; by rewrite Heq, Z.eqb_refl|].
  left. split; [|done]. eapply Ht; [by eapply below_here|by eapply below_here|exact Hna|exact Hnb|exact Heq|exact Hxs|exact Hys].
Qed.

(** A decidable condition for [hash_tells]: two sets of nodes closed under the
    pointers, in which only a node and itself have one hash. *)
Definition closed_in (s : store) (S : list loc) : bool :=
  forallb (fun l => match s !! l with
                    | Some n => forallb (fun p => match p with Some q => bool_decide (q ∈ S) | None => true end) (children n)
                    | None => true
                    end) S.

Definition hashes_apart (s : store) (S T : list loc) : bool :=
  forallb (fun x => forallb (fun y => bool_decide (x = y) || negb (bool_decide (merkle_hash <$> s !! x = merkle_hash <$> s !! y))) T) S.

Lemma below_closed s S p q : closed_in s S = true -> (forall l, p = Some l -> l ∈ S) -> below s p q -> q ∈ S.
Proof.
  intros Hc Hp Hb. induction Hb as [l n Hl|l n p q Hl Hin Hb IH]; [by apply Hp|]. apply IH. intros l' ->.
  specialize (Hp l eq_refl). unfold closed_in in Hc. rewrite forallb_forall in Hc. apply list_elem_of_In, Hc in Hp. rewrite Hl in Hp.
  rewrite forallb_forall in Hp. apply list_elem_of_In, Hp in Hin. by apply bool_decide_eq_true in Hin.
Qed.

Lemma hash_tells_check s a b S T :
  closed_in s S = true -> closed_in s T = true -> a ∈ S -> b ∈ T -> hashes_apart s S T = true -> hash_tells s (Some a) (Some b).
Proof.
  intros HS HT Ha Hb Hd x y nx ny fuel depth xs ys Hx Hy Hnx Hny Hm Htx Hty.
  apply (below_closed s S) in Hx; [|done|by intros l [= <-]]. apply (below_closed s T) in Hy; [|done|by intros l [= <-]].
  unfold hashes_apart in Hd. rewrite forallb_forall in Hd. apply list_elem_of_In, Hd in Hx. rewrite forallb_forall in Hx. apply list_elem_of_In, Hx in Hy.
  apply orb_true_iff in Hy as [Hy|Hy]; [apply bool_decide_eq_true in Hy as ->; congruence|].
  rewrite Hnx, Hny in Hy. cbn in Hy. by rewrite bool_decide_true in Hy by congruence.
Qed.

(** C20: dag_diff reports the first divergence.  For two dags that end, in which
    the merkle hash tells subtrees with different contents apart (as the comment
    of the code takes for granted), dag_diff ends.  It answers IDENTICAL exactly
    when the two walks of the dags, node by node with the values of the arms and
    the fields of the loops, are the same to their ends; otherwise it gives the
    two nodes, the depth and the kind of the first step at which the walks
    differ.  The merkle hash leaves the values of the arms out, so dags in which
    two subtrees differ in nothing else do not meet the condition. *)
Theorem dag_diff_first_divergence fuel s a b depth xs ys :
  trail fuel s a depth = Some xs -> trail fuel s b depth = Some ys -> hash_tells s a b ->
  exists d, dag_diff fuel s a b depth = Some d /\
    (diff_kind d = IDENTICAL <-> step_mark <$> xs = step_mark <$> ys) /\
    (diff_kind d <> IDENTICAL -> first_divergence xs ys = Some d).
Proof.
  intros Hxs Hys Ht. destruct (walk_fuel fuel s a b depth xs ys Ht Hxs Hys) as (d & Hd & Hr). exists d. split; [done|].
  destruct Hr as [[Heq Hk]|[Hf Hk]]; [done|]. split; [|done]. split; [done|]. intros Heq.
  rewrite <- (app_nil_r xs), <- (app_nil_r ys), first_divergence_same in Hf by done. done.
Qed.
