(* ===== verification/DagReplay.v ===== *)
(** * DagReplay.v: replay, counts and merge points of a dag

    The walks of Dag.v against structural functions on the tree that a dag
    unfolds to, and one concrete dag. *)

From stdpp Require Import base list strings gmap sorting.
From Stdlib Require Import ZArith Lia.
From S2P Require Import Prelude.
From S2P Require Import Types.
From S2P Require Import Hash.
From S2P Require Import ContentHash.
From S2P Require Import Serialize.
From S2P Require Import Dag.
From S2P Require Import DagProofs.
#[local] Open Scope Z_scope.

(** ** The search for an arm *)

Definition arms_sorted (arms : list (Z * option loc)) : Prop := forall i j x y,
  (i <= j)%nat -> arms !! i = Some x -> arms !! j = Some y -> x.1 <= y.1.

Lemma are_arms_sorted_spec arms : are_arms_sorted_by_value arms = true -> arms_sorted arms.
Proof.
  induction arms as [|a arms IH]; intros Hs i j x y Hij Hi Hj; [done|].
  assert (Htail : arms_sorted arms). { destruct arms as [|b arms]; [done|]. apply IH. simpl in Hs. by apply andb_prop in Hs as [_ ?]. }
  assert (Hhead : forall k z, arms !! k = Some z -> a.1 <= z.1).
  { intros k z Hk. destruct arms as [|b arms]; [done|]. simpl in Hs. apply andb_prop in Hs as [Hab%negb_true_iff%Z.ltb_ge _].
    specialize (Htail 0%nat k b z ltac:(lia) eq_refl Hk). lia. }
  destruct i as [|i], j as [|j]; simpl in *; simplify_eq; [lia|by eapply Hhead|lia|]. eapply Htail; [|done|done]. lia.
Qed.

(** The search within a range: either it stops on an arm with the value, or no
    arm of the range has it. *)
Lemma find_arm_spec arms val fuel lo hi :
  arms_sorted arms -> (hi - lo < fuel)%nat -> (hi <= length arms)%nat ->
  (exists i, (lo <= i < hi)%nat /\ arms !! i = Some (val, find_arm fuel arms val lo hi)) \/
  (find_arm fuel arms val lo hi = None /\ forall i x, (lo <= i < hi)%nat -> arms !! i = Some x -> x.1 <> val).
Proof.
  intros Hs. revert lo hi. induction fuel as [|fuel IH]; intros lo hi Hf Hhi; [lia|]. cbn [find_arm].
  destruct (Nat.ltb_spec lo hi) as [Hlt|Hge]; [|right; split; [done|lia]].
  pose proof (Nat.div_lt (hi - lo) 2 ltac:(lia) ltac:(lia)) as Hdiv. set (mid := (lo + (hi - lo) / 2)%nat) in *.
  assert (Hmid : (lo <= mid < hi)%nat) by lia. destruct (lookup_lt_is_Some_2 arms mid ltac:(lia)) as [[mv mt] Hm]. rewrite Hm.
  destruct (Z.ltb_spec mv val) as [Hlow|Hlow].
  - destruct (IH (mid + 1)%nat hi ltac:(lia) Hhi) as [(i & Hi & Ha)|[Hn Hno]].
    + left. exists i. split; [lia|done].
    + right. split; [done|]. intros i x Hi Hx. destruct (Nat.le_gt_cases i mid) as [Hle|Hgt]; [|apply (Hno i); [lia|done]].
      pose proof (Hs i mid x (mv, mt) Hle Hx Hm). simpl in *. lia.
  - destruct (Z.ltb_spec val mv) as [Hhigh|Hhigh].
    + destruct (IH lo mid ltac:(lia) ltac:(lia)) as [(i & Hi & Ha)|[Hn Hno]].
      * left. exists i. split; [lia|done].
      * right. split; [done|]. intros i x Hi Hx. destruct (Nat.lt_ge_cases i mid) as [Hl|Hge]; [apply (Hno i); [lia|done]|].
        pose proof (Hs mid i (mv, mt) x Hge Hm Hx). simpl in *. lia.
    + left. exists mid. split; [lia|]. rewrite Hm. do 2 f_equal. lia.
Qed.

Lemma arm_of_spec arms val :
  are_arms_sorted_by_value arms = true ->
  (val, arm_of arms val) ∈ arms \/ (arm_of arms val = None /\ val ∉ arms.*1).
Proof.
  intros Hs%are_arms_sorted_spec. unfold arm_of.
  destruct (find_arm_spec arms val (S (length arms)) 0 (length arms) Hs ltac:(lia) ltac:(lia)) as [(i & _ & Hi)|[Hn Hno]].
  - left. by eapply list_elem_of_lookup_2.
  - right. split; [done|]. intros Hin. apply list_elem_of_fmap in Hin as (x & -> & Hx). apply list_elem_of_lookup in Hx as [i Hi].
    apply (Hno i x); [|done|done]. apply lookup_lt_Some in Hi. lia.
Qed.

(** ** Replay of a tree *)

Section Replay.
Context {St : Type}.
Variable eval_guard : Guard -> St -> Z * St.
Variable exec_region : loc -> St -> St.

(** Run [n] times, until a run fails. *)
Fixpoint times (n : nat) (run : St -> bool * St) (st : St) : bool * St :=
  match n with O => (true, st) | S n => let '(ok, st) := run st in if ok then times n run st else (false, st) end.

(** One part and then the rest, when the part succeeds. *)
Definition and_then (r : bool * St) (k : St -> bool * St) : bool * St := if r.1 then k r.2 else (false, r.2).

(** The regions run in the order of the tree: of a branch the first arm with
    the value of its guard, of a loop its body repeat_count times, and nothing
    past a terminal. *)
Fixpoint tree_replay (t : tree) (st : St) : bool * St :=
  match t with
  | TNil | TTerminal _ => (true, st)
  | TRegion l _ nx => tree_replay nx (exec_region l st)
  | TBranch g arms nx =>
      let '(val, st) := eval_guard g st in
      (fix pick arms :=
         match arms with
         | [] => (false, st)
         | (v, t) :: arms =>
             if v =? val then if is_nil t then (false, st) else and_then (tree_replay t st) (tree_replay nx) else pick arms
         end) arms
  | TLoop spec body nx => and_then (times (Z.to_nat (repeat_count spec)) (tree_replay body) st) (tree_replay nx)
  end.

(** The tree at the first arm with a value. *)
Fixpoint arm_tree (arms : list (Z * tree)) (val : Z) : option tree :=
  match arms with [] => None | (v, t) :: arms => if v =? val then Some t else arm_tree arms val end.

Lemma tree_replay_branch g arms nx st :
  tree_replay (TBranch g arms nx) st =
  let '(val, st) := eval_guard g st in
  match arm_tree arms val with
  | Some t => if is_nil t then (false, st) else and_then (tree_replay t st) (tree_replay nx)
  | None => (false, st)
  end.
Proof.
  simpl. destruct (eval_guard g st) as [val st']. induction arms as [|[v t] arms IH]; [done|]. simpl.
  destruct (v =? val); [done|]. exact IH.
Qed.
End Replay.

(** The values of the arms increase, a loop has a body, and a loop that ran
    until convergence ran. *)
Fixpoint strictly_sorted (arms : list (Z * tree)) : bool :=
  match arms with
  | a :: ((b :: _) as arms') => (a.1 <? b.1) && strictly_sorted arms'
  | _ => true
  end.

Fixpoint replayable (t : tree) : bool :=
  match t with
  | TNil => true
  | TRegion _ _ nx | TTerminal nx => replayable nx
  | TBranch _ arms nx => strictly_sorted arms && forallb (fun at_ => replayable at_.2) arms && replayable nx
  | TLoop spec body nx =>
      negb (is_nil body) && (bool_decide (term_kind spec <> UNTIL) || (0 <? repeat_count spec)) && replayable body && replayable nx
  end.

Lemma strictly_sorted_tail a arms : strictly_sorted (a :: arms) = true -> strictly_sorted arms = true.
Proof. destruct arms as [|b arms]; [done|]. simpl. by intros [_ ?]%andb_prop. Qed.

Lemma strictly_sorted_head a arms x : strictly_sorted (a :: arms) = true -> x ∈ arms -> a.1 < x.1.
Proof.
  revert a. induction arms as [|b arms IH]; intros a Hs Hx; [by apply not_elem_of_nil in Hx|].
  pose proof (strictly_sorted_tail _ _ Hs) as Ht. simpl in Hs. apply andb_prop in Hs as [Hab%Z.ltb_lt _].
  apply elem_of_cons in Hx as [->|Hx]; [done|]. specialize (IH b Ht Hx). lia.
Qed.

Lemma arm_tree_in arms val t : strictly_sorted arms = true -> (val, t) ∈ arms -> arm_tree arms val = Some t.
Proof.
  induction arms as [|[v t'] arms IH]; intros Hs Hin; [by apply not_elem_of_nil in Hin|]. simpl.
  apply elem_of_cons in Hin as [[= <- <-]|Hin]; [by rewrite Z.eqb_refl|].
  pose proof (strictly_sorted_head _ _ _ Hs Hin) as Hlt. simpl in Hlt. rewrite (proj2 (Z.eqb_neq _ _)) by lia.
  apply IH; [by eapply strictly_sorted_tail|done].
Qed.

Lemma arm_tree_none arms val : val ∉ arms.*1 -> arm_tree arms val = None.
Proof.
  induction arms as [|[v t] arms IH]; intros Hni; [done|]. simpl in *. apply not_elem_of_cons in Hni as [Hne Hni].
  rewrite (proj2 (Z.eqb_neq _ _)) by congruence. by apply IH.
Qed.

Definition arm_trees (fuel : nat) (s : store) : list (Z * option loc) -> list (Z * tree) -> Prop :=
  Forall2 (fun arm at_ => at_.1 = arm.1 /\ unfold fuel s arm.2 = Some at_.2).

Lemma arm_trees_keys fuel s arms ts : arm_trees fuel s arms ts -> arms.*1 = ts.*1.
Proof. induction 1 as [|x y arms ts [Hv _] _ IH]; [done|]. rewrite !fmap_cons. by rewrite Hv, IH. Qed.

Lemma strictly_sorted_arms fuel s arms ts :
  arm_trees fuel s arms ts -> strictly_sorted ts = true -> are_arms_sorted_by_value arms = true.
Proof.
  induction 1 as [|x y arms ts [Hv _] Hf IH]; intros Hs; [done|]. pose proof (strictly_sorted_tail _ _ Hs) as Ht. specialize (IH Ht).
  destruct Hf as [|x' y' arms ts [Hv' _] Hf]; [done|]. cbn [strictly_sorted] in Hs. cbn [are_arms_sorted_by_value] in *.
  apply andb_prop in Hs as [Hlt%Z.ltb_lt _]. rewrite IH, andb_true_r. apply negb_true_iff, Z.ltb_ge. lia.
Qed.

(** The search finds the arm of the tree. *)
Lemma arm_of_tree fuel s arms ts val :
  arm_trees fuel s arms ts -> strictly_sorted ts = true ->
  match arm_tree ts val with
  | Some t => unfold fuel s (arm_of arms val) = Some t
  | None => arm_of arms val = None
  end.
Proof.
  intros Hf Hs. destruct (arm_of_spec arms val (strictly_sorted_arms _ _ _ _ Hf Hs)) as [Hin|[Hn Hni]].
  - apply list_elem_of_lookup in Hin as [i Hi]. destruct (Forall2_lookup_l _ _ _ _ _ Hf Hi) as ([v t] & Ht & Hv & Hu). simpl in *. subst v.
    rewrite (arm_tree_in ts val t Hs); [done|]. by eapply list_elem_of_lookup_2.
  - rewrite (arm_trees_keys _ _ _ _ Hf) in Hni. by rewrite arm_tree_none.
Qed.

Section ReplayProofs.
Context {St : Type}.
Variable eval_guard : Guard -> St -> Z * St.
Variable exec_region : loc -> St -> St.

Lemma repeat_body_times n (body : St -> option (bool * St)) (run : St -> bool * St) st :
  (forall st, body st = Some (run st)) -> repeat_body body n st = Some (times n run st).
Proof.
  intros Hb. revert st. induction n as [|n IH]; intros st; [done|]. simpl. rewrite Hb. simpl. destruct (run st) as [[] st']; [apply IH|done].
Qed.

End ReplayProofs.

(** ** Counts and lists of nodes *)

Fixpoint tree_size (t : tree) : Z :=
  match t with
  | TNil => 0
  | TRegion _ _ nx | TTerminal nx => 1 + tree_size nx
  | TBranch _ arms nx => 1 + foldr (fun at_ acc => tree_size at_.2 + acc) 0 arms + tree_size nx
  | TLoop _ body nx => 1 + tree_size body + tree_size nx
  end.

Fixpoint tree_regions (t : tree) : list loc :=
  match t with
  | TNil => []
  | TRegion l _ nx => l :: tree_regions nx
  | TTerminal nx => tree_regions nx
  | TBranch _ arms nx => foldr (fun at_ acc => tree_regions at_.2 ++ acc) [] arms ++ tree_regions nx
  | TLoop _ body nx => tree_regions body ++ tree_regions nx
  end.

Lemma u32_add_l a b : u32 (u32 a + b) = u32 (a + b).
Proof. unfold u32, wrap. apply Zplus_mod_idemp_l. Qed.
Lemma u32_add_r a b : u32 (a + u32 b) = u32 (a + b).
Proof. unfold u32, wrap. apply Zplus_mod_idemp_r. Qed.

Lemma count_arms fuel s arms ts c :
  (forall s p t, unfold fuel s p = Some t -> dag_node_count fuel s p = Some (u32 (tree_size t))) -> arm_trees fuel s arms ts ->
  foldl (fun acc (arm : Z * option loc) => c ← acc; k ← dag_node_count fuel s arm.2; Some (u32 (c + k))) (Some (u32 c)) arms =
  Some (u32 (c + foldr (fun at_ acc => tree_size at_.2 + acc) 0 ts)).
Proof.
  intros IH Hf. revert c. induction Hf as [|[v p] [v' t] arms ts [_ Hu] _ IHf]; intros c; [simpl; by rewrite Z.add_0_r|].
  cbn [foldl mbind option_bind snd]. rewrite (IH _ _ t) by done. cbn [mbind option_bind]. rewrite u32_add_l, u32_add_r.
  rewrite IHf. cbn [foldr snd]. do 2 f_equal. lia.
Qed.

Lemma dag_node_count_tree fuel : forall s p t, unfold fuel s p = Some t -> dag_node_count fuel s p = Some (u32 (tree_size t)).
Proof.
  induction fuel as [|fuel IH]; intros s p t Hu; (destruct p as [l|]; [|by simplify_eq/=]); [done|].
  apply unfold_step in Hu as (n & nx & Hn & Hnx & Ht). cbn [dag_node_count]. rewrite Hn. cbn [mbind option_bind].
  rewrite (IH _ (next n) nx) by done. destruct (data n) as [r|g arms|spec body|]; cbn [mbind option_bind].
  - subst t. by rewrite u32_add_r.
  - destruct Ht as (ts & Hts & ->). pose proof (count_arms fuel s arms ts 1 IH Hts) as Hc. change (u32 1) with 1 in Hc. rewrite Hc.
    cbn [mbind option_bind]. by rewrite u32_add_l, u32_add_r.
  - destruct Ht as (b & Hb & ->). rewrite (IH _ body b) by done. cbn [mbind option_bind].
    by rewrite (u32_add_r 1), u32_add_l, u32_add_r.
  - subst t. by rewrite u32_add_r.
Qed.

Lemma take_take_app {A} n (a b : list A) : take n (take n a ++ b) = take n (a ++ b).
Proof.
  destruct (Nat.le_gt_cases (length a) n) as [Hl|Hl]; [by rewrite (take_ge a)|].
  rewrite !take_app_le by (rewrite ?length_take; lia). rewrite take_take. f_equal. lia.
Qed.

Definition collect_ok (fuel : nat) : Prop := forall s p t size out,
  unfold fuel s p = Some t -> (length out <= size)%nat -> collect_regions fuel s p size out = Some (take size (out ++ tree_regions t)).

Lemma collect_arms fuel s arms ts size out :
  collect_ok fuel -> arm_trees fuel s arms ts -> (length out <= size)%nat ->
  foldl (fun acc (arm : Z * option loc) => out ← acc; collect_regions fuel s arm.2 size out) (Some out) arms =
  Some (take size (out ++ foldr (fun at_ acc => tree_regions at_.2 ++ acc) [] ts)).
Proof.
  intros IH Hf. revert out. induction Hf as [|[v p] [v' t] arms ts [_ Hu] _ IHf]; intros out Hout.
  - cbn [foldl foldr]. by rewrite app_nil_r, take_ge.
  - cbn [foldl mbind option_bind snd foldr]. rewrite (IH _ _ t) by done. rewrite IHf by (rewrite length_take; lia).
    by rewrite take_take_app, (assoc_L (++)).
Qed.

Lemma collect_full fuel s p t size out :
  unfold fuel s p = Some t -> length out = size -> collect_regions fuel s p size out = Some out.
Proof.
  intros Hu Hout. destruct p as [l|]; [|by destruct fuel]. destruct fuel as [|fuel]; [done|]. cbn [collect_regions].
  by rewrite (proj2 (Nat.leb_le _ _)) by lia.
Qed.

(** Collect_regions fills its span with the regions of the tree in the
    order of the tree, as many as fit, and dag_node_count is the number of
    nodes of the tree as a 32-bit word. *)
Theorem dag_walks_cover_tree fuel s root t size :
  unfold fuel s root = Some t ->
  collect_regions fuel s root size [] = Some (take size (tree_regions t)) /\
  dag_node_count fuel s root = Some (u32 (tree_size t)).
Proof.
  intros Hu. split; [|by apply dag_node_count_tree]. assert (Hc : collect_ok fuel); [|by apply (Hc s root t size []); [|simpl; lia]].
  clear. induction fuel as [|fuel IH]; intros s p t size out Hu Hout;
    (destruct p as [l|]; [|injection Hu as <-; by rewrite app_nil_r, take_ge]); [done|].
  destruct (decide (length out = size)) as [Hfull|Hfull].
  { rewrite (collect_full _ _ _ _ _ _ Hu Hfull). by rewrite <- Hfull, take_app_length. }
  apply unfold_step in Hu as (n & nx & Hn & Hnx & Ht). cbn [collect_regions]. rewrite (proj2 (Nat.leb_gt _ _)) by lia.
  rewrite Hn. cbn [mbind option_bind]. destruct (data n) as [r|g arms|spec body|]; cbn [mbind option_bind].
  - subst t. rewrite (IH _ _ nx) by (done || rewrite length_app; simpl; lia). by rewrite <- (assoc_L (++)).
  - destruct Ht as (ts & Hts & ->). rewrite (collect_arms fuel s arms ts) by done. cbn [mbind option_bind].
    rewrite (IH _ _ nx) by (done || rewrite length_take; lia). cbn [tree_regions]. by rewrite take_take_app, <- (assoc_L (++)).
  - destruct Ht as (b & Hb & ->). rewrite (IH _ body b) by done. cbn [mbind option_bind].
    rewrite (IH _ _ nx) by (done || rewrite length_take; lia). cbn [tree_regions]. by rewrite take_take_app, <- (assoc_L (++)).
  - subst t. exact (IH _ _ nx size out Hnx Hout).
Qed.

(** ** Merge points *)

(** A run of ops that hashes to a region of the same number of ops. *)
Definition region_match (recipe : option Z) (seg : list TraceEntry) (lr : loc * RegionNode) : Prop :=
  length seg = length (region_ops lr.2) /\ compute_content_hash seg recipe = Ok (region_content_hash lr.2).

(** The merge point of [ops]: the regions from it on are the end of the ops,
    run by run, and the region before it is not. *)
Record merge_point (recipe : option Z) (ops : list TraceEntry) (existing : list (loc * RegionNode)) (m : option loc)
    (pre suf : list (loc * RegionNode)) (front : list TraceEntry) (segs : list (list TraceEntry)) : Prop := {
  mp_split : existing = pre ++ suf;
  mp_ops : ops = front ++ concat segs;
  mp_match : Forall2 (region_match recipe) segs suf;
  mp_first : m = fst <$> head suf;
  mp_longest : forall pre' lr front' seg,
    pre = pre' ++ [lr] -> front = front' ++ seg -> front <> [] -> ~ region_match recipe seg lr;
}.

Lemma match_back_spec recipe ops pre suf front segs merge m :
  match_back ops recipe (reverse pre) (length front) merge = Ok m ->
  ops = front ++ concat segs -> Forall2 (region_match recipe) segs suf -> merge = fst <$> head suf ->
  exists pre' suf' front' segs', merge_point recipe ops (pre ++ suf) m pre' suf' front' segs'.
Proof.
  revert suf front segs merge. induction pre as [|[l r] pre IH] using rev_ind; intros suf front segs merge Hm Hops Hmatch Hfirst.
  { injection Hm as <-. exists [], suf, front, segs. split; try done. by intros [|] ? ? ? ?. }
  rewrite reverse_snoc in Hm. cbn [match_back] in Hm.
  assert (Hstop : (forall front' seg, front = front' ++ seg -> front <> [] -> ~ region_match recipe seg (l, r)) -> merge = m ->
    exists pre' suf' front' segs', merge_point recipe ops ((pre ++ [(l, r)]) ++ suf) m pre' suf' front' segs').
  { intros Hno <-. exists (pre ++ [(l, r)]), suf, front, segs. split; try done.
    intros pre' lr front' seg Hpre Hf Hne. apply app_inj_2 in Hpre as [_ [= <-]]; [|done]. by eapply Hno. }
  destruct (Nat.eqb_spec (length front) 0) as [H0|H0].
  { injection Hm as ->. apply Hstop; [|done]. intros front' seg _ Hne. by apply nil_length_inv in H0. }
  destruct (Nat.ltb_spec (length front) (length (region_ops r))) as [Hlt|Hge].
  { injection Hm as ->. apply Hstop; [|done]. intros front' seg -> _ [Hl _]. simpl in Hl. rewrite length_app in Hlt. lia. }
  set (k := (length front - length (region_ops r))%nat) in *. set (seg := drop k front).
  assert (Hseg : take (length (region_ops r)) (drop k ops) = seg).
  { rewrite Hops, drop_app_le by lia. rewrite take_app_le by (rewrite length_drop; lia). apply take_ge. unfold seg. rewrite length_drop. lia. }
  rewrite Hseg in Hm. destruct (compute_content_hash seg recipe) as [h|] eqn:Hh; [|done]. simpl in Hm.
  destruct (Z.eqb_spec h (region_content_hash r)) as [->|Hne].
  - destruct (IH ((l, r) :: suf) (take k front) (seg :: segs) (Some l)) as (pre' & suf' & front' & segs' & Hmp).
    + rewrite length_take, Nat.min_l by lia. exact Hm.
    + rewrite Hops. cbn [concat]. rewrite (assoc_L (++)). unfold seg. by rewrite take_drop.
    + constructor; [|done]. split; [|done]. unfold seg. rewrite length_drop. simpl. lia.
    + done.
    + exists pre', suf', front', segs'. by rewrite <- (assoc_L (++)).
  - injection Hm as ->. apply Hstop; [|done]. intros front' seg' Hf _ [Hl Hc]. simpl in *.
    assert (Hs : seg' = seg). { unfold seg. rewrite Hf, drop_app_le by (subst k; rewrite Hf, length_app; lia).
      rewrite drop_ge; [done|]. subst k. rewrite Hf, length_app. lia. }
    rewrite Hs, Hh in Hc. congruence.
Qed.

(** The node that find_merge_point returns starts the longest run of the
    regions at the head of the continuation that ends with their last one and
    matches the end of the new ops, region by region, in length and content
    hash; it returns none exactly when that run is empty. *)
Theorem find_merge_point_longest s ops cont recipe existing m :
  leading_regions MAX_REGIONS s cont = Some existing -> find_merge_point s ops cont recipe = Ok m ->
  exists pre suf front segs, merge_point recipe ops existing m pre suf front segs.
Proof.
  intros Hl Hf. unfold find_merge_point in Hf. rewrite Hl in Hf. destruct (fold_start recipe); [|done]. cbn [rbind] in Hf.
  destruct (match_back_spec recipe ops existing [] ops [] None m Hf) as (pre & suf & front & segs & Hmp); [by rewrite app_nil_r|done|done|].
  rewrite app_nil_r in Hmp. by exists pre, suf, front, segs.
Qed.

(** ** What the hash of a branch does not see *)

Lemma arms_hash_targets arms arms' st : arms.*2 = arms'.*2 -> arms_hash arms st = arms_hash arms' st.
Proof.
  revert arms' st. induction arms as [|[v t] arms IH]; intros [|[v' t'] arms'] st Heq; try done. injection Heq as -> Heq.
  unfold arms_hash in *. cbn [fold_left snd]. by apply IH.
Qed.

(** Two branches that send the same targets to different guard values have one
    merkle hash, so that dag_diff does not tell them apart. *)
Lemma tree_hash_ignores_arm_values g arms arms' nx :
  arms.*2 = arms'.*2 -> tree_hash (TBranch g arms nx) = tree_hash (TBranch g arms' nx).
Proof. intros Heq. rewrite !tree_hash_branch. by rewrite (arms_hash_targets arms arms'). Qed.

(** * A dag with a loop, two branches and a shared suffix

    The theorems of DagProofs.v and DagReplay.v at one concrete dag, and what
    dag_diff says of two branches that only differ in the values of their
    arms. *)

Definition wit_region (h : Z) (nx : option loc) : TraceNode := mkNode 0 nx (NRegion (mkRegion h [] None)).
Definition wit_guard : Guard := mkGuard SCALAR_VALUE 4 0 0.

(** Regions 1 and 2 are the arms of the branches 3 and 10 and share the suffix
    5, 6 with them; 4 is the body of the loop 8; 12 has the loop and the second
    branch as arms. *)
Definition wit_store : store :=
  <[1%positive := wit_region 11 (Some 6%positive)]>
  (<[2%positive := wit_region 22 (Some 6%positive)]>
  (<[3%positive := mkNode 0 (Some 5%positive) (NBranch wit_guard [(0, Some 1%positive); (7, Some 2%positive)])]>
  (<[4%positive := wit_region 44 (Some 6%positive)]>
  (<[5%positive := wit_region 55 (Some 6%positive)]>
  (<[6%positive := mkNode 0 None NTerminal]>
  (<[8%positive := mkNode 0 (Some 3%positive) (NLoop (mkLoop 99 [mkEdge 0 1] REPEAT 2 0) (Some 4%positive))]>
  (<[10%positive := mkNode 0 (Some 5%positive) (NBranch wit_guard [(0, Some 1%positive); (9, Some 2%positive)])]>
  (<[12%positive := mkNode 0 None (NBranch wit_guard [(0, Some 8%positive); (1, Some 10%positive)])]> ∅)))))))).

Definition wit_tree (p : loc) : tree := default TNil (unfold 8 wit_store (Some p)).
Definition wit_hashed : store := default ∅ (recompute_merkle 8 wit_store (Some 12%positive)).

Lemma wit_unfold : unfold 8 wit_store (Some 12%positive) = Some (wit_tree 12).
Proof. vm_compute. reflexivity. Qed.


(** Branch 13 has the arms of branch 3 with another value, and another
    continuation; 14 has both as arms. *)
Definition wit_diff_store : store :=
  default ∅ (recompute_merkle 8
    (<[13%positive := mkNode 0 (Some 6%positive) (NBranch wit_guard [(0, Some 1%positive); (9, Some 2%positive)])]>
     (<[14%positive := mkNode 0 None (NBranch wit_guard [(0, Some 3%positive); (1, Some 13%positive)])]> wit_store)) (Some 14%positive)).

Definition wit_trail (p : loc) : list step := default [] (trail 8 wit_diff_store (Some p) 0).

(** The first step at which the walks differ is the value of the second arm, not
    the continuation. *)
Lemma dag_diff_first_divergence_witness :
  dag_diff 8 wit_diff_store (Some 3%positive) (Some 13%positive) 0 = Some (mkDiff (Some 3%positive) (Some 13%positive) 0 BRANCH_MISMATCH).
Proof.
  destruct (dag_diff_first_divergence 8 wit_diff_store (Some 3%positive) (Some 13%positive) 0 (wit_trail 3) (wit_trail 13)) as (d & Hd & Hi & Hf).
  - vm_compute. reflexivity.
  - vm_compute. reflexivity.
  - apply (hash_tells_check wit_diff_store 3 13 [3; 1; 2; 5; 6]%positive [13; 1; 2; 6]%positive); [vm_compute; reflexivity..|left|left|vm_compute; reflexivity].
  - rewrite Hd. rewrite <- Hf; [vm_compute; reflexivity|]. rewrite Hi. vm_compute. discriminate.
Defined.

(** The callbacks of a replay that logs the regions it runs, with one guard
    value. *)
Definition wit_eval (val : Z) (g : Guard) (log : list loc) : Z * list loc := (val, log).
Definition wit_exec (l : loc) (log : list loc) : list loc := log ++ [l].


Lemma dag_walks_cover_tree_witness :
  collect_regions 8 wit_store (Some 8%positive) 3 [] = Some [4%positive; 1%positive; 2%positive].
Proof.
  rewrite (proj1 (dag_walks_cover_tree 8 wit_store (Some 8%positive) (wit_tree 8) 3 ltac:(vm_compute; reflexivity))).
  vm_compute. reflexivity.
Defined.

(** Two regions of one op each; the new ops end with the second one. *)
Definition wit_op (schema : Z) : TraceEntry :=
  mkEntry schema 0 0 0 None None 0 0 None 0 true false 0 false FORWARD false None None None.
Definition wit_hash (ops : list TraceEntry) : Z := match compute_content_hash ops None with Ok h => h | Fatal _ => 0 end.
Definition wit_chain : store :=
  <[1%positive := mkNode 0 (Some 2%positive) (NRegion (mkRegion (wit_hash [wit_op 5]) [wit_op 5] None))]>
  (<[2%positive := mkNode 0 None (NRegion (mkRegion (wit_hash [wit_op 6]) [wit_op 6] None))]> ∅).

Lemma find_merge_point_longest_witness :
  find_merge_point wit_chain [wit_op 4; wit_op 6] (Some 1%positive) None = Ok (Some 2%positive) /\
  exists existing pre suf front segs, merge_point None [wit_op 4; wit_op 6] existing (Some 2%positive) pre suf front segs.
Proof.
  assert (Hm : find_merge_point wit_chain [wit_op 4; wit_op 6] (Some 1%positive) None = Ok (Some 2%positive)) by (vm_compute; reflexivity).
  split; [exact Hm|]. eexists. eapply (find_merge_point_longest wit_chain _ (Some 1%positive) None); [vm_compute; reflexivity|exact Hm].
Defined.

(** The branches 3 and 10 send their second arm to different guard values: a
    replay with the value 7 runs the one and falls back on the other, and
    dag_diff calls them identical. *)
Lemma dag_diff_misses_arm_values :
  (exists d, dag_diff 8 wit_hashed (Some 3%positive) (Some 10%positive) 0 = Some d /\ diff_kind d = IDENTICAL) /\
  replay (wit_eval 7) wit_exec 8 wit_hashed (Some 3%positive) [] = Some (true, [2%positive; 5%positive]) /\
  replay (wit_eval 7) wit_exec 8 wit_hashed (Some 10%positive) [] = Some (false, []).
Proof. split; [eexists; split; vm_compute; reflexivity|]. split; vm_compute; reflexivity. Qed.
