(* ===== verification/KernelCache.v ===== *)
(** * KernelCache.v: the lock-free map of compiled kernels
    (include/crucible/KernelCache.h)

    The key is a content hash and a row hash.  A slot is empty, claimed (its
    content hash is set) or published (its kernel is set too).  Each access of
    an atomic of a slot is one step of a call; the calls of any number of
    threads interleave. *)

From stdpp Require Import base list strings gmap relations.
From Stdlib Require Import ZArith Lia.
From S2P Require Import Prelude.
#[local] Open Scope Z_scope.

(** A null kernel is 0. *)
Record KernelCacheSlot := mkKSlot { content_hash_ : Z; row_hash_ : Z; kernel_ : Z }.

Definition empty_slot : KernelCacheSlot := mkKSlot 0 0 0.

Record KernelCache := mkKCache { kc_table : list KernelCacheSlot; kc_size : Z }.

Definition kc_capacity (c : KernelCache) : Z := Z.of_nat (length (kc_table c)).

Definition is_power_of_two_le (x ceiling : Z) : bool := (0 <? x) && (Z.land x (x - 1) =? 0) && (x <=? ceiling).

(** The constructor, when the host has the memory for the table. *)
Definition new_kernel_cache (capacity : Z) : result KernelCache :=
  (let* _ := require (is_power_of_two_le capacity (2 ^ 31)) "capacity is a power of two" in
   Ok (mkKCache (replicate (Z.to_nat capacity) empty_slot) 0))%result.

Inductive SlotState := SlotEmpty | SlotClaimed | SlotPublished.

Definition classify_ (hash_bits kernel : Z) : SlotState :=
  if hash_bits =? 0 then SlotEmpty else if kernel =? 0 then SlotClaimed else SlotPublished.

Definition kClaimedSpinBudget : nat := 64.

(** The slot of a probe: (slot_index + probe) & mask. *)
Definition probe_slot (capacity hash : Z) (probe : nat) : nat :=
  let mask := capacity - 1 in
  let slot_index := Z.land (u32 hash) mask in
  Z.to_nat (Z.land (u32 (slot_index + Z.of_nat probe)) mask).

(** ** Calls *)

(** Where a call is: before the access that the constructor names. *)
Inductive pc :=
| LContent (probe : nat)                      (* lookup: load of the content hash *)
| LKernel (probe spins : nat)                 (* load of the kernel, first or in a spin *)
| LRow (probe : nat) (kernel : Z)             (* load of the row *)
| LDone (kernel : Z)                          (* the kernel, or null *)
| IClaim (probe : nat)                        (* insert: the compare-exchange of the content hash *)
| IStoreRow (probe : nat)                     (* publish: store of the row *)
| IStoreKernel (probe : nat)                  (* publish: store of the kernel *)
| ICount                                      (* fetch_add of the size *)
| IKernel (probe spins : nat)                 (* load of the kernel of a slot with this content *)
| IRow (probe : nat)                          (* load of its row *)
| IVariant (probe : nat)                      (* publish_kernel_variant *)
| IDone (ok : bool).                          (* inserted, or TableFull *)

(** The next probe of a loop, or what follows the loop. *)
Definition next_probe (capacity : Z) (probe : nat) (again : nat -> pc) (after : pc) : pc :=
  if Z.of_nat (S probe) <? capacity then again (S probe) else after.

Definition slot_at (c : KernelCache) (hash : Z) (probe : nat) : KernelCacheSlot :=
  default empty_slot (kc_table c !! probe_slot (kc_capacity c) hash probe).

Definition set_slot (c : KernelCache) (hash : Z) (probe : nat) (e : KernelCacheSlot) : KernelCache :=
  mkKCache (<[probe_slot (kc_capacity c) hash probe := e]> (kc_table c)) (kc_size c).

(** One access of a lookup of (hash, row). *)
Definition lookup_step (hash row : Z) (c : KernelCache) (p : pc) : pc :=
  let next probe := next_probe (kc_capacity c) probe LContent (LDone 0) in
  match p with
  | LContent probe =>
      let key := content_hash_ (slot_at c hash probe) in
      if key =? 0 then LDone 0 else if negb (key =? hash) then next probe else LKernel probe 0
  | LKernel probe spins =>
      let kernel_ptr := kernel_ (slot_at c hash probe) in
      if negb (kernel_ptr =? 0) then LRow probe kernel_ptr
      else if (spins <? kClaimedSpinBudget)%nat then LKernel probe (S spins) else next probe
  | LRow probe kernel_ptr => if row_hash_ (slot_at c hash probe) =? row then LDone kernel_ptr else next probe
  | _ => p
  end.

(** One access of an insert of (hash, row, kernel). *)
Definition insert_step (hash row kernel : Z) (c : KernelCache) (p : pc) : KernelCache * pc :=
  let next probe := next_probe (kc_capacity c) probe IClaim (IDone false) in
  match p with
  | IClaim probe =>
      let e := slot_at c hash probe in
      if content_hash_ e =? 0 then (set_slot c hash probe (mkKSlot hash (row_hash_ e) (kernel_ e)), IStoreRow probe)
      else if content_hash_ e =? hash then (c, IKernel probe 0) else (c, next probe)
  | IStoreRow probe =>
      let e := slot_at c hash probe in
      (set_slot c hash probe (mkKSlot (content_hash_ e) row (kernel_ e)), IStoreKernel probe)
  | IStoreKernel probe =>
      let e := slot_at c hash probe in
      (set_slot c hash probe (mkKSlot (content_hash_ e) (row_hash_ e) kernel), ICount)
  | ICount => (mkKCache (kc_table c) (u32 (kc_size c + 1)), IDone true)
  | IKernel probe spins =>
      if negb (kernel_ (slot_at c hash probe) =? 0) then (c, IRow probe)
      else if (spins <? kClaimedSpinBudget)%nat then (c, IKernel probe (S spins)) else (c, next probe)
  | IRow probe => if row_hash_ (slot_at c hash probe) =? row then (c, IVariant probe) else (c, next probe)
  | IVariant probe =>
      let e := slot_at c hash probe in
      (set_slot c hash probe (mkKSlot (content_hash_ e) (row_hash_ e) kernel), IDone true)
  | _ => (c, p)
  end.

(** The preconditions of the two calls. *)
Definition lookup_pre (hash : Z) : bool := negb (hash =? 0).
Definition insert_pre (hash kernel : Z) : bool := negb (hash =? 0) && negb (hash =? UINT64_MAX) && negb (kernel =? 0).

(** ** A call on its own *)

Fixpoint run_lookup (fuel : nat) (hash row : Z) (c : KernelCache) (p : pc) : option Z :=
  match p, fuel with
  | LDone kernel, _ => Some kernel
  | _, O => None
  | _, S fuel => run_lookup fuel hash row c (lookup_step hash row c p)
  end.

Fixpoint run_insert (fuel : nat) (hash row kernel : Z) (c : KernelCache) (p : pc) : option (KernelCache * bool) :=
  match p, fuel with
  | IDone ok, _ => Some (c, ok)
  | _, O => None
  | _, S fuel => let '(c, p) := insert_step hash row kernel c p in run_insert fuel hash row kernel c p
  end.

(** Steps of one call: a probe takes at most the claim, 65 loads of the kernel
    and the load of the row. *)
Definition call_bound (capacity : Z) : nat := 67 * Z.to_nat capacity + 4.

Definition kc_lookup (hash row : Z) (c : KernelCache) : option Z :=
  if lookup_pre hash then run_lookup (call_bound (kc_capacity c)) hash row c (LContent 0) else None.

Definition kc_insert (hash row kernel : Z) (c : KernelCache) : option (KernelCache * bool) :=
  if insert_pre hash kernel then run_insert (call_bound (kc_capacity c)) hash row kernel c (IClaim 0) else None.

(** ** Threads *)

(** A call in progress; a lookup remembers which pairs had been inserted when
    it was made. *)
Inductive call :=
| Lookup (hash row : Z) (before : list (Z * Z)) (p : pc)
| Insert (hash row kernel : Z) (p : pc).

Record kstate := mkKState {
  ks_cache : KernelCache;
  ks_calls : gmap nat call;
  ks_started : list (Z * Z * Z);  (* the arguments of every insert so far *)
  ks_done : list (Z * Z);         (* the pairs of the inserts that returned success *)
}.

Definition call_step (c : KernelCache) (k : call) : KernelCache * call :=
  match k with
  | Lookup hash row before p => (c, Lookup hash row before (lookup_step hash row c p))
  | Insert hash row kernel p => let '(c, p) := insert_step hash row kernel c p in (c, Insert hash row kernel p)
  end.

Inductive kstep : kstate -> kstate -> Prop :=
| k_lookup st t hash row :
    ks_calls st !! t = None -> lookup_pre hash = true ->
    kstep st (mkKState (ks_cache st) (<[t := Lookup hash row (ks_done st) (LContent 0)]> (ks_calls st)) (ks_started st) (ks_done st))
| k_insert st t hash row kernel :
    ks_calls st !! t = None -> insert_pre hash kernel = true ->
    kstep st (mkKState (ks_cache st) (<[t := Insert hash row kernel (IClaim 0)]> (ks_calls st))
                ((hash, row, kernel) :: ks_started st) (ks_done st))
| k_access st t k :
    ks_calls st !! t = Some k ->
    kstep st (mkKState (call_step (ks_cache st) k).1 (<[t := (call_step (ks_cache st) k).2]> (ks_calls st)) (ks_started st) (ks_done st))
| k_return_lookup st t hash row before kernel :
    ks_calls st !! t = Some (Lookup hash row before (LDone kernel)) ->
    kstep st (mkKState (ks_cache st) (delete t (ks_calls st)) (ks_started st) (ks_done st))
| k_return_insert st t hash row kernel ok :
    ks_calls st !! t = Some (Insert hash row kernel (IDone ok)) ->
    kstep st (mkKState (ks_cache st) (delete t (ks_calls st)) (ks_started st)
                (if ok : bool then (hash, row) :: ks_done st else ks_done st)).
