(* ===== verification/KernelCacheProofs.v ===== *)
(** * KernelCacheProofs.v: the map of kernels under every interleaving

    The invariant of the calls in progress ties a claimed slot to the one call
    that publishes it; every other fact about a slot is stable, because a slot
    only moves from empty to claimed to published. *)

From stdpp Require Import base list strings gmap relations.
From Stdlib Require Import ZArith Lia.
From S2P Require Import Prelude.
From S2P Require Import KernelCache.
#[local] Open Scope Z_scope.

(** The states that some interleaving reaches from a new cache. *)
Definition kreachable (capacity : Z) (st : kstate) : Prop :=
  exists c, new_kernel_cache capacity = Ok c /\ rtc kstep (mkKState c ∅ [] []) st.

(** ** Probes *)

Lemma power_of_two_pow x : 0 < x -> Z.land x (x - 1) = 0 -> exists k, 0 <= k /\ x = 2 ^ k.
Proof.
  intros Hx Hl. exists (Z.log2 x). split; [apply Z.log2_nonneg|]. destruct (Z.log2_spec x Hx) as [Hlo Hhi].
  destruct (Z.eq_dec x (2 ^ Z.log2 x)) as [|Hne]; [done|]. exfalso.
  assert (Hlog : Z.log2 (x - 1) = Z.log2 x). { apply Z.log2_unique; [apply Z.log2_nonneg|]. lia. }
  assert (Hpow : 0 < 2 ^ Z.log2 x) by (apply Z.pow_pos_nonneg; [lia|apply Z.log2_nonneg]).
  assert (Hb : Z.testbit (Z.land x (x - 1)) (Z.log2 x) = true).
  { rewrite Z.land_spec, (Z.bit_log2 x) by lia. rewrite <- Hlog at 1. rewrite Z.bit_log2 by lia. done. }
  rewrite Hl, Z.bits_0 in Hb. done.
Qed.

Definition cap_ok (capacity : Z) : Prop := exists k, 0 <= k <= 31 /\ capacity = 2 ^ k.

Lemma cap_ok_test x : is_power_of_two_le x (2 ^ 31) = true -> cap_ok x.
Proof.
  unfold is_power_of_two_le. intros [[H1%Z.ltb_lt H2%Z.eqb_eq]%andb_prop H3%Z.leb_le]%andb_prop.
  destruct (power_of_two_pow x H1 H2) as (k & Hk & ->). exists k. split; [|done]. split; [done|].
  apply Z.pow_le_mono_r_iff in H3; lia.
Qed.

Lemma probe_slot_mod capacity hash probe :
  cap_ok capacity -> (Z.of_nat probe < capacity) -> probe_slot capacity hash probe = Z.to_nat ((hash + Z.of_nat probe) mod capacity).
Proof.
  intros (k & Hk & ->) Hp. unfold probe_slot. cbv zeta. rewrite !land_mask_mod by lia. f_equal.
  assert (Hle : 2 ^ k <= 2 ^ 31) by (apply Z.pow_le_mono_r; lia). assert (Hpos : 0 < 2 ^ k) by (apply Z.pow_pos_nonneg; lia).
  pose proof (Z.mod_pos_bound (u32 hash) (2 ^ k) Hpos). rewrite (wrap_small 32 (u32 hash mod 2 ^ k + Z.of_nat probe)) by lia. rewrite Zplus_mod_idemp_l.
  rewrite <- (Zplus_mod_idemp_l (u32 hash)), <- (Zplus_mod_idemp_l hash). f_equal. f_equal. unfold wrap. symmetry.
  apply Znumtheory.Zmod_div_mod; [lia|lia|]. exists (2 ^ (32 - k)). rewrite <- Z.pow_add_r by lia. f_equal. lia.
Qed.

Lemma cap_ok_pos capacity : cap_ok capacity -> 0 < capacity.
Proof. intros (k & Hk & ->). apply Z.pow_pos_nonneg; lia. Qed.

Lemma probe_slot_lt capacity hash probe :
  cap_ok capacity -> (Z.of_nat probe < capacity) -> (probe_slot capacity hash probe < Z.to_nat capacity)%nat.
Proof.
  intros Hc Hp. rewrite probe_slot_mod by done. pose proof (cap_ok_pos _ Hc).
  pose proof (Z.mod_pos_bound (hash + Z.of_nat probe) capacity). lia.
Qed.

(** The probes of a hash reach every slot. *)
Lemma probe_slot_surj capacity hash i :
  cap_ok capacity -> (i < Z.to_nat capacity)%nat -> exists probe, Z.of_nat probe < capacity /\ probe_slot capacity hash probe = i.
Proof.
  intros Hc Hi. pose proof (cap_ok_pos _ Hc) as Hpos. pose proof (Z.mod_pos_bound (Z.of_nat i - hash) capacity Hpos).
  exists (Z.to_nat ((Z.of_nat i - hash) mod capacity)). split; [lia|]. rewrite probe_slot_mod by (done || lia).
  rewrite Z2Nat.id by lia. rewrite Zplus_mod_idemp_r. replace (hash + (Z.of_nat i - hash)) with (Z.of_nat i) by lia.
  rewrite Z.mod_small by lia. lia.
Qed.

(** ** How slots move *)

Definition ent (c : KernelCache) (i : nat) : KernelCacheSlot := default empty_slot (kc_table c !! i).

Definition slot_evolves (e e' : KernelCacheSlot) : Prop :=
  (content_hash_ e <> 0 -> content_hash_ e' = content_hash_ e) /\
  (kernel_ e <> 0 -> kernel_ e' <> 0 /\ row_hash_ e' = row_hash_ e).

Definition evolves (c c' : KernelCache) : Prop := kc_capacity c' = kc_capacity c /\ forall i, slot_evolves (ent c i) (ent c' i).

Lemma slot_evolves_refl e : slot_evolves e e.
Proof. by split. Qed.
Lemma evolves_refl c : evolves c c.
Proof. split; [done|]. intros i. apply slot_evolves_refl. Qed.

Lemma kc_capacity_set c h p e : kc_capacity (set_slot c h p e) = kc_capacity c.
Proof. unfold kc_capacity, set_slot. simpl. by rewrite length_insert. Qed.

Lemma ent_set c h p e i :
  cap_ok (kc_capacity c) -> Z.of_nat p < kc_capacity c ->
  ent (set_slot c h p e) i = if decide (i = probe_slot (kc_capacity c) h p) then e else ent c i.
Proof.
  intros Hc Hp. pose proof (probe_slot_lt _ h _ Hc Hp) as Hlt. unfold ent, set_slot. simpl. destruct (decide _) as [->|Hne].
  - rewrite list_lookup_insert_eq; [done|]. unfold kc_capacity in Hlt at 2. lia.
  - by rewrite list_lookup_insert_ne.
Qed.

Lemma slot_at_ent c h p : slot_at c h p = ent c (probe_slot (kc_capacity c) h p).
Proof. done. Qed.

Lemma set_slot_evolves c h p e :
  cap_ok (kc_capacity c) -> Z.of_nat p < kc_capacity c -> slot_evolves (slot_at c h p) e -> evolves c (set_slot c h p e).
Proof.
  intros Hc Hp He. split; [apply kc_capacity_set|]. intros i. rewrite ent_set by done. destruct (decide _) as [->|]; [done|].
  apply slot_evolves_refl.
Qed.

Lemma evolves_slot_at c c' h p : evolves c c' -> slot_evolves (slot_at c h p) (slot_at c' h p).
Proof. intros [Hc He]. rewrite !slot_at_ent, Hc. apply He. Qed.

(** ** The invariant *)

(** The slots before a probe are taken. *)
Definition taken (c : KernelCache) (h : Z) (p : nat) : Prop := forall q, (q < p)%nat -> content_hash_ (slot_at c h q) <> 0.

Definition published (c : KernelCache) (h r : Z) (p : nat) : Prop :=
  content_hash_ (slot_at c h p) = h /\ row_hash_ (slot_at c h p) = r /\ kernel_ (slot_at c h p) <> 0.

(** The pair is published at a probe from [from] on that a lookup reaches. *)
Definition placed (c : KernelCache) (h r : Z) (from : nat) : Prop :=
  exists p, (from <= p)%nat /\ Z.of_nat p < kc_capacity c /\ published c h r p /\ taken c h p.

Section Inv.
Variable started : list (Z * Z * Z).

(** Every published slot holds what some insert asked for. *)
Definition slots_ok (c : KernelCache) : Prop := forall i,
  kernel_ (ent c i) <> 0 ->
  content_hash_ (ent c i) <> 0 /\ (content_hash_ (ent c i), row_hash_ (ent c i), kernel_ (ent c i)) ∈ started.

Definition in_cap (c : KernelCache) (p : nat) : Prop := Z.of_nat p < kc_capacity c.

Definition lookup_ok (c : KernelCache) (h r : Z) (before : list (Z * Z)) (p : pc) : Prop :=
  let later q := (h, r) ∈ before -> placed c h r q in
  match p with
  | LContent q => in_cap c q /\ later q
  | LKernel q _ => in_cap c q /\ content_hash_ (slot_at c h q) = h /\ later q
  | LRow q k =>
      in_cap c q /\ content_hash_ (slot_at c h q) = h /\ kernel_ (slot_at c h q) <> 0 /\ k <> 0 /\
      (h, row_hash_ (slot_at c h q), k) ∈ started /\ later q
  | LDone k => (k <> 0 -> (h, r, k) ∈ started) /\ (k = 0 -> (h, r) ∉ before)
  | _ => False
  end.

Definition insert_ok (c : KernelCache) (h r : Z) (p : pc) : Prop :=
  match p with
  | IClaim q => in_cap c q /\ taken c h q
  | IStoreRow q => in_cap c q /\ taken c h q /\ content_hash_ (slot_at c h q) = h /\ kernel_ (slot_at c h q) = 0
  | IStoreKernel q =>
      in_cap c q /\ taken c h q /\ content_hash_ (slot_at c h q) = h /\ kernel_ (slot_at c h q) = 0 /\ row_hash_ (slot_at c h q) = r
  | ICount => placed c h r 0
  | IKernel q _ => in_cap c q /\ taken c h q /\ content_hash_ (slot_at c h q) = h
  | IRow q => in_cap c q /\ taken c h q /\ content_hash_ (slot_at c h q) = h /\ kernel_ (slot_at c h q) <> 0
  | IVariant q => in_cap c q /\ taken c h q /\ published c h r q
  | IDone true => placed c h r 0
  | IDone false => forall q, Z.of_nat q < kc_capacity c -> content_hash_ (slot_at c h q) <> 0
  | _ => False
  end.

Definition call_ok (c : KernelCache) (k : call) : Prop :=
  match k with
  | Lookup h r before p => h <> 0 /\ lookup_ok c h r before p
  | Insert h r k p => h <> 0 /\ k <> 0 /\ (h, r, k) ∈ started /\ insert_ok c h r p
  end.

(** The slot that a call has claimed and not published. *)
Definition owns (c : KernelCache) (k : call) : option nat :=
  match k with
  | Insert h _ _ (IStoreRow q) | Insert h _ _ (IStoreKernel q) => Some (probe_slot (kc_capacity c) h q)
  | _ => None
  end.

(** ** Stable facts *)

Lemma taken_stable c c' h p : evolves c c' -> taken c h p -> taken c' h p.
Proof. intros He Ht q Hq. destruct (evolves_slot_at c c' h q He) as [Hc _]. specialize (Ht q Hq). by rewrite (Hc Ht). Qed.

Lemma published_stable c c' h r p : h <> 0 -> evolves c c' -> published c h r p -> published c' h r p.
Proof.
  intros Hh He (H1 & H2 & H3). destruct (evolves_slot_at c c' h p He) as [Hc Hk]. destruct (Hk H3) as [Hk' Hr].
  unfold published. rewrite (Hc ltac:(congruence)), Hr. done.
Qed.

Lemma placed_stable c c' h r p : h <> 0 -> evolves c c' -> placed c h r p -> placed c' h r p.
Proof.
  intros Hh He (q & Hq & Hcap & Hp & Ht). exists q. destruct He as [Hcap' He']. rewrite Hcap'.
  split_and!; [done|done|by apply (published_stable c)|by apply (taken_stable c)].
Qed.

Lemma in_cap_stable c c' p : evolves c c' -> in_cap c p -> in_cap c' p.
Proof. intros [Hc _]. unfold in_cap. by rewrite Hc. Qed.

Lemma content_stable c c' h p : h <> 0 -> evolves c c' -> content_hash_ (slot_at c h p) = h -> content_hash_ (slot_at c' h p) = h.
Proof. intros Hh He Hc. destruct (evolves_slot_at c c' h p He) as [H1 _]. rewrite H1; congruence. Qed.

Lemma kernel_stable c c' h p : evolves c c' -> kernel_ (slot_at c h p) <> 0 ->
  kernel_ (slot_at c' h p) <> 0 /\ row_hash_ (slot_at c' h p) = row_hash_ (slot_at c h p).
Proof. intros He Hk. destruct (evolves_slot_at c c' h p He) as [_ H2]. by apply H2. Qed.

#[local] Hint Resolve taken_stable published_stable placed_stable in_cap_stable content_stable : kcache.

(** A call keeps its assertion when the others move, as long as they leave its
    claimed slot alone. *)
Lemma call_ok_stable c c' k :
  evolves c c' -> (forall i, owns c k = Some i -> ent c' i = ent c i) -> call_ok c k -> call_ok c' k.
Proof.
  intros He Hown. assert (Hcap : kc_capacity c' = kc_capacity c) by apply He.
  assert (Hat : forall h q i, probe_slot (kc_capacity c) h q = i -> ent c' i = ent c i -> slot_at c' h q = slot_at c h q).
  { intros h q i <- Hi. by rewrite !slot_at_ent, Hcap. }
  destruct k as [h r before p|h r k p]; simpl.
  - intros [Hh Hp]. split; [done|]. destruct p as [q|q n|q k|k| | | | | | | |]; simpl in *; try done.
    + destruct Hp as [H1 H2]. eauto with kcache.
    + destruct Hp as (H1 & H2 & H3). split_and!; eauto with kcache.
    + destruct Hp as (H1 & H2 & H3 & H4 & H5 & H6). destruct (kernel_stable _ _ _ _ He H3) as [H3' Hr]. rewrite Hr.
      split_and!; eauto with kcache.
  - intros (Hh & Hk & Hs & Hp). split_and!; try done. destruct p as [| | | |q|q|q| |q n|q|q|[]]; simpl in *; try done.
    + destruct Hp as [H1 H2]. eauto with kcache.
    + rewrite (Hat h q _ eq_refl (Hown _ eq_refl)). destruct Hp as (H1 & H2 & H3 & H4). split_and!; eauto with kcache.
    + rewrite (Hat h q _ eq_refl (Hown _ eq_refl)). destruct Hp as (H1 & H2 & H3 & H4 & H5). split_and!; eauto with kcache.
    + eauto with kcache.
    + destruct Hp as (H1 & H2 & H3). split_and!; eauto with kcache.
    + destruct Hp as (H1 & H2 & H3 & H4). destruct (kernel_stable _ _ _ _ He H4) as [H4' _]. split_and!; eauto with kcache.
    + destruct Hp as (H1 & H2 & H3). split_and!; eauto with kcache.
    + eauto with kcache.
    + intros q Hq. rewrite Hcap in Hq. specialize (Hp q Hq). destruct (evolves_slot_at c c' h q He) as [H1 _]. by rewrite (H1 Hp).
Qed.

(** ** One access *)

Lemma placed_next c h r q : placed c h r q -> ~ published c h r q -> placed c h r (S q) /\ in_cap c (S q).
Proof.
  intros (p & Hq & Hcap & Hp & Ht) Hno. assert (p <> q) by (intros ->; done). split; [exists p; split_and!; try done; lia|].
  unfold in_cap. lia.
Qed.

Lemma lookup_next c h r before q :
  ((h, r) ∈ before -> placed c h r q) -> ~ published c h r q ->
  lookup_ok c h r before (next_probe (kc_capacity c) q LContent (LDone 0)).
Proof.
  intros Hl Hno. unfold next_probe. destruct (Z.ltb_spec (Z.of_nat (S q)) (kc_capacity c)) as [Hlt|Hge].
  - split; [done|]. intros Hb. exact (proj1 (placed_next _ _ _ _ (Hl Hb) Hno)).
  - split; [done|]. intros _ Hb. destruct (placed_next _ _ _ _ (Hl Hb) Hno) as [_ Hin]. unfold in_cap in Hin. lia.
Qed.

Lemma lookup_step_ok c h r before p :
  h <> 0 -> slots_ok c -> lookup_ok c h r before p -> lookup_ok c h r before (lookup_step h r c p).
Proof.
  intros Hh Hs Hp. destruct p as [q|q n|q k|k| | | | | | | |]; try done; cbn [lookup_step]; cbv zeta.
  - destruct Hp as [Hcap Hl]. destruct (Z.eqb_spec (content_hash_ (slot_at c h q)) 0) as [H0|H0].
    { split; [done|]. intros _ Hb. destruct (Hl Hb) as (p & Hq & _ & (Hpub & _) & Ht). destruct (decide (p = q)) as [->|Hne]; [congruence|].
      apply (Ht q); [lia|done]. }
    destruct (Z.eqb_spec (content_hash_ (slot_at c h q)) h) as [Heq|Hne]; cbn [negb]; [done|]. apply lookup_next; [done|]. by intros [? _].
  - destruct Hp as (Hcap & Hc & Hl). destruct (Z.eqb_spec (kernel_ (slot_at c h q)) 0) as [H0|H0]; cbn [negb].
    + destruct (n <? kClaimedSpinBudget)%nat; [done|]. apply lookup_next; [done|]. by intros (_ & _ & ?).
    + destruct (Hs _ H0) as [_ Hin]. rewrite <- slot_at_ent, Hc in Hin. done.
  - destruct Hp as (Hcap & Hc & Hk & Hk0 & Hin & Hl). destruct (Z.eqb_spec (row_hash_ (slot_at c h q)) r) as [<-|Hne]; [done|].
    apply lookup_next; [done|]. by intros (_ & ? & _).
Qed.

(** What a step of an insert may do to the table. *)
Record step_ok (c : KernelCache) (k : call) (c' : KernelCache) (k' : call) : Prop := {
  so_evolves : evolves c c';
  so_slots : slots_ok c';
  so_call : call_ok c' k';
  so_owner : forall i, owns c' k' = Some i -> owns c k = Some i \/ content_hash_ (ent c i) = 0;
  so_local : forall i, ent c' i <> ent c i -> owns c k = Some i \/ content_hash_ (ent c i) = 0 \/ kernel_ (ent c i) <> 0;
}.

Lemma step_ok_same c k k' : slots_ok c -> call_ok c k' -> owns c k' = None -> step_ok c k c k'.
Proof. intros Hs Hk Ho. split; [apply evolves_refl|done|done|congruence|done]. Qed.

Lemma insert_next c h r k k0 q :
  h <> 0 -> k <> 0 -> (h, r, k) ∈ started -> slots_ok c -> taken c h (S q) -> in_cap c q ->
  step_ok c k0 c (Insert h r k (next_probe (kc_capacity c) q IClaim (IDone false))).
Proof.
  intros Hh Hk Hin Hs Ht Hcap. unfold next_probe, in_cap in *. destruct (Z.ltb_spec (Z.of_nat (S q)) (kc_capacity c)) as [Hlt|Hge].
  - by apply step_ok_same.
  - apply step_ok_same; [done| |done]. split_and!; try done. intros q' Hq'. apply Ht. lia.
Qed.

Lemma taken_S c h q : taken c h q -> content_hash_ (slot_at c h q) <> 0 -> taken c h (S q).
Proof. intros Ht Hq q' Hq'. destruct (decide (q' = q)) as [->|]; [done|]. apply Ht. lia. Qed.

Lemma slots_ok_set c h p e :
  cap_ok (kc_capacity c) -> in_cap c p -> slots_ok c ->
  (kernel_ e <> 0 -> content_hash_ e <> 0 /\ (content_hash_ e, row_hash_ e, kernel_ e) ∈ started) -> slots_ok (set_slot c h p e).
Proof. intros Hc Hp Hs He i. rewrite ent_set by done. destruct (decide _); [done|apply Hs]. Qed.

Lemma slot_at_set c h p e : cap_ok (kc_capacity c) -> in_cap c p -> slot_at (set_slot c h p e) h p = e.
Proof. intros Hc Hp. rewrite slot_at_ent, kc_capacity_set, ent_set by done. by rewrite decide_True. Qed.

Lemma set_slot_local c h p e i :
  cap_ok (kc_capacity c) -> in_cap c p -> ent (set_slot c h p e) i <> ent c i -> i = probe_slot (kc_capacity c) h p.
Proof. intros Hc Hp. rewrite ent_set by done. by destruct (decide _). Qed.

(** A write of the slot of a probe. *)
Lemma step_ok_write c h r k q e k0 p' :
  cap_ok (kc_capacity c) -> in_cap c q -> slots_ok c -> slot_evolves (slot_at c h q) e ->
  (kernel_ e <> 0 -> content_hash_ e <> 0 /\ (content_hash_ e, row_hash_ e, kernel_ e) ∈ started) ->
  (evolves c (set_slot c h q e) -> slot_at (set_slot c h q e) h q = e -> call_ok (set_slot c h q e) (Insert h r k p')) ->
  (forall i, owns c (Insert h r k p') = Some i -> i = probe_slot (kc_capacity c) h q) ->
  owns c k0 = Some (probe_slot (kc_capacity c) h q) \/ content_hash_ (slot_at c h q) = 0 \/
    (kernel_ (slot_at c h q) <> 0 /\ owns c (Insert h r k p') = None) ->
  step_ok c k0 (set_slot c h q e) (Insert h r k p').
Proof.
  intros Hc Hcap Hs He Hstarted Hcall Howner Hwhy.
  assert (Hev : evolves c (set_slot c h q e)) by by apply set_slot_evolves.
  assert (Hown : owns (set_slot c h q e) (Insert h r k p') = owns c (Insert h r k p')).
  { unfold owns. by rewrite kc_capacity_set. }
  split; [done|by apply slots_ok_set|apply Hcall; [done|by apply slot_at_set]| |].
  - intros i Hi. rewrite Hown in Hi. pose proof (Howner i Hi) as ->. destruct Hwhy as [Ho|[H0|[_ Hn]]]; [by left|by right|congruence].
  - intros i Hi. apply set_slot_local in Hi as ->; [|done|done]. destruct Hwhy as [Ho|[H0|[Hk _]]]; auto.
Qed.

Lemma insert_step_ok c h r k p :
  cap_ok (kc_capacity c) -> slots_ok c -> call_ok c (Insert h r k p) ->
  let '(c', p') := insert_step h r k c p in step_ok c (Insert h r k p) c' (Insert h r k p').
Proof.
  intros Hc Hs (Hh & Hk & Hin & Hp). destruct p as [| | | |q|q|q| |q n|q|q|ok]; try done; cbn [insert_step]; cbv zeta.
  - destruct Hp as [Hcap Ht]. destruct (Z.eqb_spec (content_hash_ (slot_at c h q)) 0) as [H0|H0].
    + assert (Hk0 : kernel_ (slot_at c h q) = 0). { destruct (Z.eq_dec (kernel_ (slot_at c h q)) 0); [done|]. by destruct (Hs _ n). }
      apply step_ok_write; try done.
      * intros Hev Hat. split_and!; try done. cbn [insert_ok]. rewrite Hat. split_and!; [by apply (in_cap_stable c)|by apply (taken_stable c)|done|done].
      * intros i [= <-]. done.
      * by right; left.
    + destruct (Z.eqb_spec (content_hash_ (slot_at c h q)) h) as [Heq|Hne]; [by apply step_ok_same|]. apply insert_next; try done. by apply taken_S.
  - destruct Hp as (Hcap & Ht & Hct & Hk0). apply step_ok_write; try done.
    + intros Hev Hat. split_and!; try done. cbn [insert_ok]. rewrite Hat.
      split_and!; [by apply (in_cap_stable c)|by apply (taken_stable c)|done|done|done].
    + intros i [= <-]. done.
    + by left.
  - destruct Hp as (Hcap & Ht & Hct & Hk0 & Hr). apply step_ok_write; try done.
    + intros _. cbn. by rewrite Hct, Hr.
    + intros Hev Hat. split_and!; try done. exists q. split_and!; [lia|by apply (in_cap_stable c)| |by apply (taken_stable c)].
      unfold published. rewrite Hat. done.
    + by left.
  - destruct Hp as (Hcap & Ht & Hct). destruct (Z.eqb_spec (kernel_ (slot_at c h q)) 0) as [H0|H0]; cbn [negb].
    + destruct (n <? kClaimedSpinBudget)%nat; [by apply step_ok_same|]. apply insert_next; try done. apply taken_S; [done|congruence].
    + by apply step_ok_same.
  - destruct Hp as (Hcap & Ht & Hct & Hk0). destruct (Z.eqb_spec (row_hash_ (slot_at c h q)) r) as [Hr|Hr].
    + by apply step_ok_same.
    + apply insert_next; try done. apply taken_S; [done|congruence].
  - destruct Hp as (Hcap & Ht & Hct & Hr & Hk0). apply step_ok_write; try done.
    + intros _. cbn. by rewrite Hct, Hr.
    + intros Hev Hat. split_and!; try done. exists q. split_and!; [lia|by apply (in_cap_stable c)| |by apply (taken_stable c)].
      unfold published. rewrite Hat. done.
    + right. right. done.
Qed.

Lemma call_step_ok c k :
  cap_ok (kc_capacity c) -> slots_ok c -> call_ok c k -> step_ok c k (call_step c k).1 (call_step c k).2.
Proof.
  intros Hc Hs Hk. destruct k as [h r before p|h r k p]; cbn [call_step].
  - apply step_ok_same; [done| |done]. destruct Hk as [Hh Hp]. split; [done|]. by apply lookup_step_ok.
  - pose proof (insert_step_ok c h r k p Hc Hs Hk) as H. by destruct (insert_step h r k c p).
Qed.
End Inv.

(** ** Reachable states *)

Record kinv (capacity : Z) (st : kstate) : Prop := {
  ki_cap : kc_capacity (ks_cache st) = capacity;
  ki_slots : slots_ok (ks_started st) (ks_cache st);
  ki_calls : forall t k, ks_calls st !! t = Some k -> call_ok (ks_started st) (ks_cache st) k;
  ki_unique : forall t t' k k' i,
    ks_calls st !! t = Some k -> ks_calls st !! t' = Some k' -> t <> t' ->
    owns (ks_cache st) k = Some i -> owns (ks_cache st) k' = Some i -> False;
  ki_done : forall h r, (h, r) ∈ ks_done st -> h <> 0 /\ placed (ks_cache st) h r 0;
}.

Lemma call_ok_more started x c k : call_ok started c k -> call_ok (x :: started) c k.
Proof.
  destruct k as [h r before p|h r k p]; simpl.
  - intros [Hh Hp]. split; [done|]. destruct p; simpl in *; try done.
    + destruct Hp as (? & ? & ? & ? & ? & ?). split_and!; try done. by right.
    + destruct Hp as [H1 H2]. split; [|done]. intros Hk. right. auto.
  - intros (? & ? & ? & ?). split_and!; try done. by right.
Qed.

Lemma slots_ok_more started x c : slots_ok started c -> slots_ok (x :: started) c.
Proof. intros Hs i Hk. destruct (Hs i Hk) as [H1 H2]. split; [done|]. by right. Qed.

(** A claimed slot has a content hash and no kernel. *)
Lemma owns_claimed started c k i : call_ok started c k -> owns c k = Some i -> content_hash_ (ent c i) <> 0 /\ kernel_ (ent c i) = 0.
Proof.
  destruct k as [h r before p|h r k p]; [done|]. intros (Hh & _ & _ & Hp) Ho. destruct p; try done; injection Ho as <-; simpl in Hp;
    rewrite <- slot_at_ent; destruct Hp as (_ & _ & Hc & Hk); [|destruct Hk as [Hk _]]; by rewrite Hc.
Qed.

Lemma owns_capacity c c' k : kc_capacity c' = kc_capacity c -> owns c' k = owns c k.
Proof. intros Hc. destruct k as [|h r k p]; [done|]. destruct p; simpl; by rewrite ?Hc. Qed.

(** A new call owns nothing. *)
Lemma kinv_new_call capacity st t k started' :
  kinv capacity st -> ks_calls st !! t = None -> owns (ks_cache st) k = None -> call_ok started' (ks_cache st) k ->
  (forall k, call_ok (ks_started st) (ks_cache st) k -> call_ok started' (ks_cache st) k) ->
  slots_ok started' (ks_cache st) ->
  kinv capacity (mkKState (ks_cache st) (<[t := k]> (ks_calls st)) started' (ks_done st)).
Proof.
  intros [Hcap Hs Hcalls Huniq Hdone] Ht Ho Hk Hmore Hs'. split; simpl; try done.
  - intros t' k' Hk'. destruct (decide (t' = t)) as [->|Hne]; [rewrite lookup_insert_eq in Hk'; by simplify_eq|].
    rewrite lookup_insert_ne in Hk' by done. eauto.
  - intros t1 t2 k1 k2 i H1 H2 Hne Ho1 Ho2.
    destruct (decide (t1 = t)) as [->|Hn1]; [rewrite lookup_insert_eq in H1; simplify_eq; congruence|].
    destruct (decide (t2 = t)) as [->|Hn2]; [rewrite lookup_insert_eq in H2; simplify_eq; congruence|].
    rewrite lookup_insert_ne in H1 by done. rewrite lookup_insert_ne in H2 by done. eauto.
Qed.

Lemma kinv_return capacity st t done' :
  kinv capacity st -> (forall h r, (h, r) ∈ done' -> h <> 0 /\ placed (ks_cache st) h r 0) ->
  kinv capacity (mkKState (ks_cache st) (delete t (ks_calls st)) (ks_started st) done').
Proof.
  intros [Hcap Hs Hcalls Huniq Hdone] Hd. split; simpl; try done.
  - intros t' k' [_ Hk']%lookup_delete_Some. eauto.
  - intros t1 t2 k1 k2 i [_ H1]%lookup_delete_Some [_ H2]%lookup_delete_Some. eauto.
Qed.

Lemma kinv_access capacity st t k :
  cap_ok capacity -> kinv capacity st -> ks_calls st !! t = Some k ->
  kinv capacity (mkKState (call_step (ks_cache st) k).1 (<[t := (call_step (ks_cache st) k).2]> (ks_calls st)) (ks_started st) (ks_done st)).
Proof.
  intros Hc [Hcap Hs Hcalls Huniq Hdone] Ht. pose proof (Hcalls t k Ht) as Hk. rewrite <- Hcap in Hc.
  destruct (call_step_ok (ks_started st) (ks_cache st) k Hc Hs Hk) as [Hev Hs' Hk' Hown Hloc].
  set (c' := (call_step (ks_cache st) k).1) in *. set (k2 := (call_step (ks_cache st) k).2) in *.
  assert (Hcap' : kc_capacity c' = kc_capacity (ks_cache st)) by apply Hev.
  assert (Hother : forall t' k' i, t' <> t -> ks_calls st !! t' = Some k' -> owns (ks_cache st) k' = Some i -> ent c' i = ent (ks_cache st) i).
  { intros t' k' i Hne Hk1 Ho. destruct (owns_claimed _ _ _ _ (Hcalls _ _ Hk1) Ho) as [Hc0 Hk0].
    destruct (decide (content_hash_ (ent c' i) = content_hash_ (ent (ks_cache st) i) /\ row_hash_ (ent c' i) = row_hash_ (ent (ks_cache st) i)
      /\ kernel_ (ent c' i) = kernel_ (ent (ks_cache st) i))) as [(E1 & E2 & E3)|Hdiff].
    { destruct (ent c' i), (ent (ks_cache st) i). simpl in *. by subst. }
    exfalso. destruct (Hloc i) as [Ho'|[H0|Hk1']]; [intros Heq; rewrite Heq in Hdiff; tauto| |done|done].
    exact (Huniq t' t k' k i Hk1 Ht Hne Ho Ho'). }
  split; simpl; [congruence|done| | |].
  - intros t' k' Hk1. destruct (decide (t' = t)) as [->|Hne]; [rewrite lookup_insert_eq in Hk1; by simplify_eq|].
    rewrite lookup_insert_ne in Hk1 by done. apply (call_ok_stable _ (ks_cache st)); [done| |by eapply Hcalls]. eauto.
  - assert (Hfresh : forall t' k' i, t' <> t -> ks_calls st !! t' = Some k' -> owns c' k2 = Some i -> owns c' k' = Some i -> False).
    { intros t' k' i Hne Hk1 Ho1 Ho2. rewrite (owns_capacity _ _ _ Hcap') in Ho2. destruct (Hown i Ho1) as [Ho|H0].
      - exact (Huniq t' t k' k i Hk1 Ht Hne Ho2 Ho).
      - destruct (owns_claimed _ _ _ _ (Hcalls _ _ Hk1) Ho2). done. }
    intros t1 t2 k1 k2' i H1 H2 Hne Ho1 Ho2.
    destruct (decide (t1 = t)) as [->|Hn1].
    + rewrite lookup_insert_eq in H1. injection H1 as <-. rewrite lookup_insert_ne in H2 by done.
      exact (Hfresh t2 k2' i (not_eq_sym Hne) H2 Ho1 Ho2).
    + rewrite lookup_insert_ne in H1 by done. destruct (decide (t2 = t)) as [->|Hn2].
      * rewrite lookup_insert_eq in H2. injection H2 as <-. exact (Hfresh t1 k1 i Hn1 H1 Ho2 Ho1).
      * rewrite lookup_insert_ne in H2 by done. rewrite (owns_capacity _ _ k1 Hcap') in Ho1. rewrite (owns_capacity _ _ k2' Hcap') in Ho2.
        exact (Huniq t1 t2 k1 k2' i H1 H2 Hne Ho1 Ho2).
  - intros h r Hin. destruct (Hdone h r Hin) as [Hh Hp]. split; [done|]. by apply (placed_stable (ks_cache st)).
Qed.

Lemma kstep_inv capacity st st' : cap_ok capacity -> kinv capacity st -> kstep st st' -> kinv capacity st'.
Proof.
  intros Hc Hi Hst. destruct Hst as [st t h r Ht Hp|st t h r k Ht Hp|st t k Ht|st t h r before k Ht|st t h r k ok Ht].
  - apply kinv_new_call; try done; [|apply Hi]. apply negb_true_iff, Z.eqb_neq in Hp. split; [done|]. split.
    + unfold in_cap. rewrite (ki_cap _ _ Hi). pose proof (cap_ok_pos _ Hc). simpl. lia.
    + intros Hb. by apply (ki_done _ _ Hi).
  - unfold insert_pre in Hp. rewrite !andb_true_iff, !negb_true_iff, !Z.eqb_neq in Hp. destruct Hp as [[Hh _] Hk].
    apply kinv_new_call; try done.
    + split_and!; try done; [left|]. split; [|intros q Hq; lia]. unfold in_cap. rewrite (ki_cap _ _ Hi). pose proof (cap_ok_pos _ Hc). simpl. lia.
    + intros k'. apply call_ok_more.
    + apply slots_ok_more, Hi.
  - by apply kinv_access.
  - apply kinv_return; [done|apply Hi].
  - apply kinv_return; [done|]. intros h' r' Hin. destruct ok; [|by apply Hi].
    apply elem_of_cons in Hin as [[= -> ->]|Hin]; [|by apply Hi]. destruct (ki_calls _ _ Hi _ _ Ht) as (Hh & _ & _ & Hp). by split.
Qed.

Lemma kinv_init capacity c : new_kernel_cache capacity = Ok c -> cap_ok capacity /\ kinv capacity (mkKState c ∅ [] []).
Proof.
  unfold new_kernel_cache. intros Hn. inv_ok. simplify_eq. assert (Hc : cap_ok capacity) by (apply cap_ok_test; done). split; [done|].
  pose proof (cap_ok_pos _ Hc). split; simpl.
  - unfold kc_capacity. simpl. rewrite length_replicate. lia.
  - intros i Hk. exfalso. apply Hk. unfold ent. simpl. destruct (replicate _ _ !! i) as [e|] eqn:He; [|done].
    apply lookup_replicate in He as [-> _]. done.
  - intros t k Hk. by rewrite lookup_empty in Hk.
  - intros t t' k k' i Hk. by rewrite lookup_empty in Hk.
  - intros h r Hin. by apply not_elem_of_nil in Hin.
Qed.

Lemma kreachable_inv capacity st : kreachable capacity st -> cap_ok capacity /\ kinv capacity st.
Proof.
  intros (c & Hn & Hr). destruct (kinv_init _ _ Hn) as [Hc Hi]. split; [done|]. clear Hn. revert Hi.
  induction Hr as [|st1 st2 st3 Hst _ IH]; intros Hi; [done|]. apply IH. by eapply kstep_inv.
Qed.

(** C21: under every interleaving of lookups and inserts, a lookup never gives
    a kernel under another content hash or row: what it returns is a kernel
    that an insert of the same pair asked for.  No insert that reported success
    is lost: a lookup that was made after such an insert of its pair returned
    finds a kernel, although slots are claimed and published in separate
    stores. *)
Theorem kernel_cache_lookup_sound capacity st t h r before kernel :
  kreachable capacity st -> ks_calls st !! t = Some (Lookup h r before (LDone kernel)) ->
  (kernel <> 0 -> (h, r, kernel) ∈ ks_started st) /\ ((h, r) ∈ before -> kernel <> 0).
Proof.
  intros Hr Ht. destruct (kreachable_inv _ _ Hr) as [_ Hi]. destruct (ki_calls _ _ Hi _ _ Ht) as [_ [H1 H2]]. split; [done|].
  intros Hb Hk. by apply H2.
Qed.

(** An insert reports a full table only when every slot is claimed. *)
Theorem kernel_cache_full_only_when_claimed capacity st t h r kernel i :
  kreachable capacity st -> ks_calls st !! t = Some (Insert h r kernel (IDone false)) -> (i < length (kc_table (ks_cache st)))%nat ->
  classify_ (content_hash_ (ent (ks_cache st) i)) (kernel_ (ent (ks_cache st) i)) <> SlotEmpty.
Proof.
  intros Hr Ht Hlt. destruct (kreachable_inv _ _ Hr) as [Hc Hi]. destruct (ki_calls _ _ Hi _ _ Ht) as (_ & _ & _ & Hp).
  rewrite <- (ki_cap _ _ Hi) in Hc. destruct (probe_slot_surj (kc_capacity (ks_cache st)) h i Hc) as (q & Hq & <-).
  { unfold kc_capacity. lia. }
  specialize (Hp q Hq). rewrite slot_at_ent in Hp. unfold classify_. rewrite (proj2 (Z.eqb_neq _ _) Hp). by destruct (_ =? _).
Qed.

(** ** Every call ends *)

(** The accesses that a call has left, at most: 67 for each probe that is
    left. *)
Definition accesses_left (capacity : Z) (p : pc) : nat :=
  let probes q := (67 * (Z.to_nat capacity - q))%nat in
  match p with
  | LContent q | IClaim q => probes q + 4
  | LKernel q n | IKernel q n => probes (S q) + 70 - n
  | LRow q _ | IRow q => probes (S q) + 5
  | IStoreRow _ => 3
  | IStoreKernel _ => 2
  | ICount | IVariant _ => 1
  | LDone _ | IDone _ => 0
  end.

Definition is_done (p : pc) : bool := match p with LDone _ | IDone _ => true | _ => false end.

Definition probe_in (capacity : Z) (p : pc) : Prop :=
  match p with
  | LContent q | IClaim q | LRow q _ | IRow q => Z.of_nat q < capacity
  | LKernel q n | IKernel q n => Z.of_nat q < capacity /\ (n <= kClaimedSpinBudget)%nat
  | _ => True
  end.

Lemma next_probe_left capacity q (again : nat -> pc) after :
  probe_in capacity after -> accesses_left capacity after = 0%nat ->
  (forall q, accesses_left capacity (again q) = (67 * (Z.to_nat capacity - q) + 4)%nat) ->
  (forall q, probe_in capacity (again q) <-> Z.of_nat q < capacity) ->
  probe_in capacity (next_probe capacity q again after) /\
  (accesses_left capacity (next_probe capacity q again after) <= 67 * (Z.to_nat capacity - S q) + 4)%nat.
Proof.
  intros Hin H0 Hl Hp. unfold next_probe. destruct (Z.ltb_spec (Z.of_nat (S q)) capacity); [|rewrite H0; split; [done|lia]].
  split; [by apply Hp|]. rewrite Hl. lia.
Qed.

Lemma lookup_step_left h r c p :
  probe_in (kc_capacity c) p -> is_done p = false -> (match p with LContent _ | LKernel _ _ | LRow _ _ => True | _ => False end) ->
  probe_in (kc_capacity c) (lookup_step h r c p) /\
  (accesses_left (kc_capacity c) (lookup_step h r c p) < accesses_left (kc_capacity c) p)%nat.
Proof.
  intros Hp Hd Hk. pose proof (fun q => next_probe_left (kc_capacity c) q LContent (LDone 0) I eq_refl (fun _ => eq_refl) (fun _ => iff_refl _)) as Hn.
  destruct p as [q|q n|q k|k| | | | | | | |]; try done; cbn [lookup_step]; cbv zeta; specialize (Hn q); simpl in Hp.
  - destruct (_ =? 0); [split; [done|simpl; lia]|]. destruct (negb _); [split; [apply Hn|]|]; simpl.
    + destruct Hn as [_ Hn]. simpl in *. lia.
    + unfold kClaimedSpinBudget. split; [lia|]. lia.
  - unfold kClaimedSpinBudget in *. destruct (negb _); [simpl; split; lia|]. destruct (Nat.ltb_spec n 64); [simpl; unfold kClaimedSpinBudget; lia|].
    destruct Hn as [Hn1 Hn2]. split; [done|]. simpl in *. lia.
  - destruct (_ =? r); [split; [done|simpl; lia]|]. destruct Hn as [Hn1 Hn2]. split; [done|]. simpl in *. lia.
Qed.

Lemma insert_step_left h r k c p :
  probe_in (kc_capacity c) p -> is_done p = false -> (match p with LContent _ | LKernel _ _ | LRow _ _ => False | _ => True end) ->
  probe_in (kc_capacity c) (insert_step h r k c p).2 /\
  (accesses_left (kc_capacity c) (insert_step h r k c p).2 < accesses_left (kc_capacity c) p)%nat.
Proof.
  intros Hp Hd Hk. pose proof (fun q => next_probe_left (kc_capacity c) q IClaim (IDone false) I eq_refl (fun _ => eq_refl) (fun _ => iff_refl _)) as Hn.
  destruct p as [| | | |q|q|q| |q n|q|q|ok]; try done; cbn [insert_step]; cbv zeta; simpl in Hp; try (simpl; split; [done|lia]); specialize (Hn q).
  - destruct (_ =? 0); [split; [done|simpl; lia]|]. destruct (_ =? h); simpl.
    + unfold kClaimedSpinBudget. split; lia.
    + destruct Hn as [Hn1 Hn2]. split; [done|]. lia.
  - unfold kClaimedSpinBudget in *. destruct (negb _); [simpl; split; lia|]. destruct (Nat.ltb_spec n 64); [simpl; unfold kClaimedSpinBudget; lia|].
    destruct Hn as [Hn1 Hn2]. split; [done|]. simpl in *. lia.
  - destruct (_ =? r); [split; [done|simpl; lia]|]. destruct Hn as [Hn1 Hn2]. split; [done|]. simpl in *. lia.
Qed.

(** The kind of a call does not change. *)
Definition is_lookup_pc (p : pc) : bool := match p with LContent _ | LKernel _ _ | LRow _ _ | LDone _ => true | _ => false end.

Lemma lookup_step_kind h r c p : is_lookup_pc p = true -> is_lookup_pc (lookup_step h r c p) = true.
Proof.
  destruct p; try done; simpl; unfold next_probe; intros _; repeat (case_match; try done).
Qed.

Lemma insert_step_kind h r k c p : is_lookup_pc p = false -> is_lookup_pc (insert_step h r k c p).2 = false.
Proof. destruct p; try done; simpl; unfold next_probe; intros _; repeat (case_match; try done). Qed.

Lemma calls_end_gen capacity (step : KernelCache -> pc -> pc) (kind : bool) caches p :
  (forall c p, kc_capacity c = capacity -> is_lookup_pc p = kind -> probe_in capacity p -> is_done p = false ->
     is_lookup_pc (step c p) = kind /\ probe_in capacity (step c p) /\ (accesses_left capacity (step c p) < accesses_left capacity p)%nat) ->
  (forall c p, is_lookup_pc p = kind -> is_done p = true -> step c p = p) ->
  Forall (fun c => kc_capacity c = capacity) caches -> is_lookup_pc p = kind -> probe_in capacity p ->
  (accesses_left capacity p <= length caches)%nat -> is_done (fold_left (fun p c => step c p) caches p) = true.
Proof.
  intros Hstep Hdone Hc. revert p. induction Hc as [|c caches Hcap _ IH]; intros p Hk Hp Hl; simpl in *.
  - destruct p; simpl in *; unfold kClaimedSpinBudget in *; try done; lia.
  - destruct (is_done p) eqn:Hd.
    + rewrite Hdone by done. clear -Hd Hdone Hk. induction caches as [|c' caches IH]; [done|]. simpl. by rewrite Hdone.
    + destruct (Hstep c p Hcap Hk Hp Hd) as (H1 & H2 & H3). apply IH; [done|done|lia].
Qed.

(** Every lookup and every insert ends after at most 67 accesses for each
    slot of the table and four more, whatever the table holds at each of its
    accesses: no call waits for another one without a bound. *)
Theorem kernel_cache_calls_end capacity h r kernel caches :
  0 < capacity -> Forall (fun c => kc_capacity c = capacity) caches -> (call_bound capacity <= length caches)%nat ->
  is_done (fold_left (fun p c => lookup_step h r c p) caches (LContent 0)) = true /\
  is_done (fold_left (fun p c => (insert_step h r kernel c p).2) caches (IClaim 0)) = true.
Proof.
  intros Hpos Hc Hl. unfold call_bound in Hl. split.
  - eapply (calls_end_gen capacity (fun c p => lookup_step h r c p) true); try done; [| |simpl; lia].
    + intros c p <- Hk Hp Hd. split; [by apply lookup_step_kind|]. apply lookup_step_left; [done|done|]. by destruct p.
    + intros c p Hk Hd. by destruct p.
  - eapply (calls_end_gen capacity (fun c p => (insert_step h r kernel c p).2) false); try done; [| |simpl; lia].
    + intros c p <- Hk Hp Hd. split; [by apply insert_step_kind|]. apply insert_step_left; [done|done|]. by destruct p.
    + intros c p Hk Hd. by destruct p.
Qed.

(** ** Witnesses *)

(** A run of the threads from a list of events. *)
Inductive kevent := ELookup (t : nat) (h r : Z) | EInsert (t : nat) (h r k : Z) | EAccess (t : nat) | EReturn (t : nat).

Definition do_event (st : kstate) (e : kevent) : option kstate :=
  match e with
  | ELookup t h r =>
      match ks_calls st !! t with
      | None =>
          if lookup_pre h then
            Some (mkKState (ks_cache st) (<[t := Lookup h r (ks_done st) (LContent 0)]> (ks_calls st)) (ks_started st) (ks_done st))
          else None
      | Some _ => None
      end
  | EInsert t h r k =>
      match ks_calls st !! t with
      | None =>
          if insert_pre h k then
            Some (mkKState (ks_cache st) (<[t := Insert h r k (IClaim 0)]> (ks_calls st)) ((h, r, k) :: ks_started st) (ks_done st))
          else None
      | Some _ => None
      end
  | EAccess t =>
      k ← ks_calls st !! t;
      Some (mkKState (call_step (ks_cache st) k).1 (<[t := (call_step (ks_cache st) k).2]> (ks_calls st)) (ks_started st) (ks_done st))
  | EReturn t =>
      match ks_calls st !! t with
      | Some (Lookup h r before (LDone k)) => Some (mkKState (ks_cache st) (delete t (ks_calls st)) (ks_started st) (ks_done st))
      | Some (Insert h r k (IDone ok)) =>
          Some (mkKState (ks_cache st) (delete t (ks_calls st)) (ks_started st) (if ok then (h, r) :: ks_done st else ks_done st))
      | _ => None
      end
  end.

Fixpoint do_events (st : kstate) (es : list kevent) : option kstate :=
  match es with [] => Some st | e :: es => st ← do_event st e; do_events st es end.

Lemma do_event_step st e st' : do_event st e = Some st' -> kstep st st'.
Proof.
  destruct e as [t h r|t h r k|t|t]; simpl.
  - destruct (ks_calls st !! t) eqn:Ht; [done|]. destruct (lookup_pre h) eqn:Hp; [|done]. intros [= <-]. by apply k_lookup.
  - destruct (ks_calls st !! t) eqn:Ht; [done|]. destruct (insert_pre h k) eqn:Hp; [|done]. intros [= <-]. by apply k_insert.
  - destruct (ks_calls st !! t) as [k|] eqn:Ht; [|done]. intros [= <-]. by apply k_access.
  - destruct (ks_calls st !! t) as [[h r before []|h r k []]|] eqn:Ht; try done; intros [= <-].
    + by eapply k_return_lookup.
    + by eapply k_return_insert.
Qed.

Lemma do_events_steps st es st' : do_events st es = Some st' -> rtc kstep st st'.
Proof.
  revert st. induction es as [|e es IH]; intros st; simpl; [intros [= <-]; constructor|].
  destruct (do_event st e) as [st1|] eqn:He; [|done]. simpl. intros Hes. econstructor; [by eapply do_event_step|by apply IH].
Qed.

(** Thread 1 inserts, thread 2 claims the next slot for another row of the same
    hash and stalls, and thread 3 looks the first pair up. *)
Definition wit_cache : KernelCache := mkKCache (replicate 2 empty_slot) 0.
Definition wit_events : list kevent :=
  [EInsert 1 5 0 9; EInsert 2 5 7 8; EAccess 1; EAccess 1; EAccess 1; EAccess 1; EReturn 1; EAccess 2; EAccess 2; EAccess 2;
   EAccess 2; ELookup 3 5 0; EAccess 3; EAccess 3; EAccess 3].
Definition wit_kstate : kstate := default (mkKState wit_cache ∅ [] []) (do_events (mkKState wit_cache ∅ [] []) wit_events).

Lemma wit_kreachable : kreachable 2 wit_kstate.
Proof.
  exists wit_cache. split; [reflexivity|]. apply (do_events_steps _ wit_events). vm_compute. reflexivity.
Qed.

Lemma kernel_cache_lookup_sound_witness :
  ks_calls wit_kstate !! 3%nat = Some (Lookup 5 0 [(5, 0)] (LDone 9)) /\ (5, 0, 9) ∈ ks_started wit_kstate.
Proof.
  assert (Hc : ks_calls wit_kstate !! 3%nat = Some (Lookup 5 0 [(5, 0)] (LDone 9))) by (vm_compute; reflexivity).
  split; [exact Hc|]. apply (kernel_cache_lookup_sound 2 wit_kstate 3 5 0 [(5, 0)] 9 wit_kreachable Hc). discriminate.
Defined.

Lemma kernel_cache_calls_end_witness :
  is_done (fold_left (fun p c => lookup_step 5 0 c p) (replicate 71 (mkKCache [mkKSlot 5 0 0] 1)) (LContent 0)) = true.
Proof.
  apply (kernel_cache_calls_end 1 5 0 9 (replicate 71 (mkKCache [mkKSlot 5 0 0] 1))).
  - lia.
  - apply Forall_replicate. reflexivity.
  - vm_compute. lia.
Defined.
