(* ===== verification/AddBranch.v ===== *)
(** * AddBranch.v: a branch at a divergence
    (add_branch of include/crucible/KernelCache.h)

    The one client of the kernel cache while a dag is built.  The addresses of
    the two new nodes are what the arena gives. *)

From stdpp Require Import base list strings gmap.
From Stdlib Require Import ZArith Lia.
From S2P Require Import Prelude.
From S2P Require Import Types.
From S2P Require Import Hash.
From S2P Require Import ContentHash.
From S2P Require Import Serialize.
From S2P Require Import KernelCache.
From S2P Require Import Dag.
From S2P Require Import DagProofs.
From S2P Require Import DagReplay.
#[local] Open Scope Z_scope.

(** The arms, sorted by value. *)
Definition two_arms (old_value new_value : Z) (old new : loc) : list (Z * option loc) :=
  if old_value <=? new_value then [(old_value, Some old); (new_value, Some new)]
  else [(new_value, Some new); (old_value, Some old)].

Definition set_next (nx : option loc) (n : TraceNode) : TraceNode := mkNode (merkle_hash n) nx (data n).

(** The store with the two new nodes, and the kernel that is published in the
    new region, 0 for none. *)
Definition add_branch (fuel : nat) (kernel_cache : KernelCache) (l_region l_branch divergence_point : loc)
    (new_ops : list TraceEntry) (old_guard_value new_guard_value : Z) (guard : Guard) (existing_suffix : option loc)
    (recipe : option Z) (s : store) : result (store * Z) :=
  (let* _ := require (negb (old_guard_value =? new_guard_value)) "old_guard_value != new_guard_value" in
   let* s := make_region l_region new_ops recipe s in
   let* merge := find_merge_point s new_ops existing_suffix recipe in
   let s := alter (set_next merge) l_region s in
   let* h := compute_content_hash new_ops recipe in
   match kc_lookup h 0 kernel_cache with
   | None => Fatal "lookup of the zero hash"
   | Some cached_kernel =>
       let s := <[l_branch := mkNode 0 merge (NBranch guard (two_arms old_guard_value new_guard_value divergence_point l_region))]> s in
       match recompute_merkle fuel s (Some l_branch) with
       | Some s => Ok (s, cached_kernel)
       | None => Fatal "the dag is not acyclic"
       end
   end)%result.

Lemma two_arms_sorted old_value new_value old new : are_arms_sorted_by_value (two_arms old_value new_value old new) = true.
Proof.
  unfold two_arms. destruct (Z.leb_spec old_value new_value); simpl; rewrite andb_true_r; apply negb_true_iff, Z.ltb_ge; lia.
Qed.

(** Each guard value has its own target. *)
Lemma two_arms_targets old_value new_value old new :
  old_value <> new_value ->
  arm_of (two_arms old_value new_value old new) old_value = Some old /\
  arm_of (two_arms old_value new_value old new) new_value = Some new.
Proof.
  intros Hne. pose proof (two_arms_sorted old_value new_value old new) as Hs.
  assert (Hin : forall v t, (v, t) ∈ two_arms old_value new_value old new -> (v = old_value /\ t = Some old) \/ (v = new_value /\ t = Some new)).
  { intros v t Ht. unfold two_arms in Ht. destruct (_ <=? _); apply elem_of_cons in Ht as [[= -> ->]|Ht%list_elem_of_singleton]; auto;
      injection Ht as -> ->; auto. }
  assert (Hkeys : forall v, v = old_value \/ v = new_value -> v ∈ (two_arms old_value new_value old new).*1).
  { intros v Hv. unfold two_arms. destruct (_ <=? _); simpl; destruct Hv as [-> | ->]; set_solver. }
  split.
  - destruct (arm_of_spec _ old_value Hs) as [Ha|[_ Hno]]; [|exfalso; apply Hno, Hkeys; auto]. apply Hin in Ha as [[_ ->]|[? _]]; [done|congruence].
  - destruct (arm_of_spec _ new_value Hs) as [Ha|[_ Hno]]; [|exfalso; apply Hno, Hkeys; auto]. apply Hin in Ha as [[? _]|[_ ->]]; [congruence|done].
Qed.

(** ** What replay does with the shared suffix *)

(** A trace of two regions and a terminal; the new ops end with the ops of the
    second region, which is therefore the merge point. *)
Definition wit_trace : store :=
  <[1%positive := mkNode 0 (Some 2%positive) (NRegion (mkRegion (wit_hash [wit_op 5]) [wit_op 5] None))]>
  (<[2%positive := mkNode 0 (Some 3%positive) (NRegion (mkRegion (wit_hash [wit_op 6]) [wit_op 6] None))]>
  (<[3%positive := mkNode 0 None NTerminal]> ∅)).

Definition wit_branched : store :=
  match add_branch 8 (mkKCache [empty_slot] 0) 4 5 1 [wit_op 4; wit_op 6] 0 1 wit_guard (Some 2%positive) None wit_trace with
  | Ok (s, _) => s
  | Fatal _ => ∅
  end.

(** The arms of the branch run on into the suffix, and the continuation of the
    branch is the suffix again: replay runs the merge region twice with either
    guard value, and once before the branch was added. *)
Lemma add_branch_suffix_runs_twice :
  replay (wit_eval 0) wit_exec 8 wit_trace (Some 1%positive) [] = Some (true, [1%positive; 2%positive]) /\
  replay (wit_eval 0) wit_exec 8 wit_branched (Some 5%positive) [] = Some (true, [1%positive; 2%positive; 2%positive]) /\
  replay (wit_eval 1) wit_exec 8 wit_branched (Some 5%positive) [] = Some (true, [4%positive; 2%positive; 2%positive]).
Proof. split_and!; vm_compute; reflexivity. Qed.
