(* ===== verification/RegionCache.v ===== *)
(** * RegionCache.v: the regions of earlier shapes
    (include/crucible/RegionCache.h, with Cyclic and BoundedMonotonic of fixy/)

    Eight slots that the newest insert overwrites in turn.  A region is an
    address; what the cache reads of a region at an insert is in the record
    that the insert takes, and find_alternate reads the plan of the region as
    it is at the call. *)

From stdpp Require Import base list strings.
From Stdlib Require Import ZArith Lia.
From S2P Require Import Prelude.
From S2P Require Import Types.
#[local] Open Scope Z_scope.

Definition CAP : Z := 8.

Record RegionCache := mkRCache {
  regions_ : list Z;            (* addresses, 0 for an empty slot *)
  content_hashes_ : list Z;
  ops_ : list (list TraceEntry);
  num_ops_ : list Z;
  head_ : Z;                    (* the free-running counter of Cyclic *)
  count_ : Z;
}.

Definition new_region_cache : RegionCache :=
  mkRCache (replicate 8 0) (replicate 8 0) (replicate 8 []) (replicate 8 0) 0 0.

(** Cyclic: index, index_back and advance. *)
Definition cyc_index (counter : Z) : Z := Z.land counter (CAP - 1).
Definition cyc_index_back (counter i : Z) : Z := Z.land (u32 (u32 (counter - 1) - i)) (CAP - 1).
Definition cyc_advance (counter : Z) : Z := u32 (counter + 1).

(** The ages that a scan visits, newest first. *)
Definition ages (c : RegionCache) : list Z := Z.of_nat <$> seq 0 (Z.to_nat (count_ c)).

(** insert of the region at [addr]: its content hash and its ops are those of
    [region]. *)
Definition rc_insert (addr : Z) (region : RegionNode) (c : RegionCache) : result RegionCache :=
  (let* _ := require (negb (addr =? 0)) "region != nullptr" in
   let hash := region_content_hash region in
   if existsb (fun i => aget 0 (content_hashes_ c) (cyc_index_back (head_ c) i) =? hash) (ages c) then Ok c
   else
     let slot := cyc_index (head_ c) in
     Ok (mkRCache (aset (regions_ c) slot addr) (aset (content_hashes_ c) slot hash)
           (aset (ops_ c) slot (region_ops region)) (aset (num_ops_ c) slot (Z.of_nat (length (region_ops region))))
           (cyc_advance (head_ c)) (if count_ c <? CAP then count_ c + 1 else count_ c)))%result.

(** The region of a slot that a divergence at [pos] can switch to. *)
Definition alternate_at (has_plan : Z -> bool) (pos schema shape exclude : Z) (c : RegionCache) (idx : Z) : bool :=
  let candidate := aget 0 (regions_ c) idx in
  if (candidate =? 0) || (candidate =? exclude) then false
  else if negb (has_plan candidate) then false
  else if aget 0 (num_ops_ c) idx <=? pos then false
  else
    match aget [] (ops_ c) idx !! Z.to_nat pos with
    | Some te => (schema_hash te =? schema) && (shape_hash te =? shape)
    | None => false
    end.

Fixpoint first_age (test : Z -> bool) (l : list Z) : option Z :=
  match l with [] => None | i :: l => if test i then Some i else first_age test l end.

(** find_alternate and find: an address, or null. *)
Definition find_alternate (has_plan : Z -> bool) (pos schema shape exclude : Z) (c : RegionCache) : Z :=
  match first_age (fun i => alternate_at has_plan pos schema shape exclude c (cyc_index_back (head_ c) i)) (ages c) with
  | Some i => aget 0 (regions_ c) (cyc_index_back (head_ c) i)
  | None => 0
  end.

Definition rc_find (hash : Z) (c : RegionCache) : Z :=
  match first_age (fun i => aget 0 (content_hashes_ c) (cyc_index_back (head_ c) i) =? hash) (ages c) with
  | Some i => aget 0 (regions_ c) (cyc_index_back (head_ c) i)
  | None => 0
  end.

Definition region_at (age : Z) (c : RegionCache) : Z :=
  if count_ c <=? age then 0 else aget 0 (regions_ c) (cyc_index_back (head_ c) age).

(** ** The abstract cache: the newest regions with different hashes *)

Record entry := mkREntry { re_addr : Z; re_hash : Z; re_ops : list TraceEntry }.

Definition spec_insert (addr : Z) (region : RegionNode) (l : list entry) : list entry :=
  if existsb (fun e => re_hash e =? region_content_hash region) l then l
  else take 8 (mkREntry addr (region_content_hash region) (region_ops region) :: l).

Definition spec_alternate (has_plan : Z -> bool) (pos schema shape exclude : Z) (e : entry) : bool :=
  negb (re_addr e =? exclude) && has_plan (re_addr e) &&
  match re_ops e !! Z.to_nat pos with Some te => (schema_hash te =? schema) && (shape_hash te =? shape) | None => false end.

Definition addr_of (o : option entry) : Z := match o with Some e => re_addr e | None => 0 end.

Fixpoint first_entry (test : entry -> bool) (l : list entry) : option entry :=
  match l with [] => None | e :: l => if test e then Some e else first_entry test l end.

(** ** Refinement *)

(** The slot of an age holds an entry. *)
Definition holds (c : RegionCache) (i : nat) (e : entry) : Prop :=
  let idx := cyc_index_back (head_ c) (Z.of_nat i) in
  aget 0 (regions_ c) idx = re_addr e /\ aget 0 (content_hashes_ c) idx = re_hash e /\
  aget [] (ops_ c) idx = re_ops e /\ aget 0 (num_ops_ c) idx = Z.of_nat (length (re_ops e)) /\ re_addr e <> 0.

Record rep (c : RegionCache) (l : list entry) : Prop := {
  rp_lengths : length (regions_ c) = 8%nat /\ length (content_hashes_ c) = 8%nat /\ length (ops_ c) = 8%nat /\ length (num_ops_ c) = 8%nat;
  rp_head : 0 <= head_ c < 2 ^ 32;
  rp_count : count_ c = Z.of_nat (length l) /\ (length l <= 8)%nat;
  rp_holds : forall i e, l !! i = Some e -> holds c i e;
}.

Lemma cyc_index_back_mod h i : 0 <= h < 2 ^ 32 -> cyc_index_back h i = (h - 1 - i) mod 8.
Proof.
  intros Hh. unfold cyc_index_back, CAP. change (8 - 1) with (2 ^ 3 - 1). rewrite land_mask_mod by lia. change (2 ^ 3) with 8.
  unfold wrap. rewrite Zminus_mod_idemp_l. symmetry. apply Znumtheory.Zmod_div_mod; [lia|lia|]. exists (2 ^ 29). done.
Qed.

Lemma cyc_index_mod h : cyc_index h = h mod 8.
Proof. unfold cyc_index, CAP. change (8 - 1) with (2 ^ 3 - 1). by rewrite land_mask_mod by lia. Qed.

Lemma cyc_advance_back h i :
  0 <= h < 2 ^ 32 -> cyc_index_back (cyc_advance h) i = (h - i) mod 8.
Proof.
  intros Hh. pose proof (u32_range (h + 1)). unfold cyc_advance. rewrite cyc_index_back_mod by done. unfold wrap.
  rewrite <- Z.sub_add_distr. rewrite <- Zminus_mod_idemp_l. rewrite <- (Znumtheory.Zmod_div_mod 8 (2 ^ 32)); [|lia|lia|by exists (2 ^ 29)].
  rewrite Zminus_mod_idemp_l. f_equal. lia.
Qed.

Lemma first_age_entry (test : Z -> bool) (ptest : entry -> bool) (F : Z -> Z) l k :
  (forall i e, l !! i = Some e -> test (Z.of_nat (k + i)) = ptest e /\ F (Z.of_nat (k + i)) = re_addr e) ->
  match first_age test (Z.of_nat <$> seq k (length l)) with Some i => F i | None => 0 end = addr_of (first_entry ptest l).
Proof.
  revert k. induction l as [|e l IH]; intros k Hl; [done|]. cbn [length seq]. rewrite fmap_cons. cbn [first_age first_entry].
  destruct (Hl 0%nat e eq_refl) as [Ht Hf]. rewrite Nat.add_0_r in Ht, Hf. rewrite Ht. destruct (ptest e); [done|].
  apply (IH (S k)). intros i e' Hi. replace (S k + i)%nat with (k + S i)%nat by lia. by apply Hl.
Qed.

Lemma rep_ages c l : rep c l -> ages c = Z.of_nat <$> seq 0 (length l).
Proof. intros Hr. unfold ages. destruct (rp_count _ _ Hr) as [-> _]. by rewrite Nat2Z.id. Qed.

Lemma existsb_ages (test : Z -> bool) (ptest : entry -> bool) l k :
  (forall i e, l !! i = Some e -> test (Z.of_nat (k + i)) = ptest e) -> existsb test (Z.of_nat <$> seq k (length l)) = existsb ptest l.
Proof.
  revert k. induction l as [|e l IH]; intros k Hl; [done|]. cbn [length seq]. rewrite fmap_cons. cbn [existsb].
  rewrite <- (Hl 0%nat e eq_refl), Nat.add_0_r. f_equal. apply (IH (S k)). intros i e' Hi.
  replace (S k + i)%nat with (k + S i)%nat by lia. by apply Hl.
Qed.

Lemma rep_new : rep new_region_cache [].
Proof. split; simpl; try done; try lia. Qed.

(** The slots of the ages below seven are not the slot of the next write. *)
Lemma index_back_fresh h i : 0 <= h < 2 ^ 32 -> (i < 7)%nat -> cyc_index_back h (Z.of_nat i) <> cyc_index h.
Proof. intros Hh Hi. rewrite cyc_index_back_mod, cyc_index_mod by done. mod_lia. Qed.

Lemma rep_insert addr region c l :
  rep c l -> addr <> 0 -> exists c', rc_insert addr region c = Ok c' /\ rep c' (spec_insert addr region l).
Proof.
  intros Hr Ha. unfold rc_insert, spec_insert. rewrite (proj2 (Z.eqb_neq _ _) Ha). cbn [negb require rbind].
  rewrite (rep_ages _ _ Hr), (existsb_ages _ (fun e => re_hash e =? region_content_hash region)).
  2: { intros i e Hi. destruct (rp_holds _ _ Hr i e Hi) as (_ & Hh & _). simpl. by rewrite Hh. }
  destruct (existsb _ l); [by exists c|]. eexists. split; [reflexivity|].
  destruct (rp_lengths _ _ Hr) as (L1 & L2 & L3 & L4). destruct (rp_count _ _ Hr) as [Hc Hle]. pose proof (rp_head _ _ Hr) as Hh.
  assert (Hidx : 0 <= cyc_index (head_ c) < 8) by (rewrite cyc_index_mod; mod_lia).
  split; cbn [regions_ content_hashes_ ops_ num_ops_ head_ count_].
  - unfold aset. by rewrite !length_insert.
  - apply u32_range.
  - rewrite length_take. cbn [length]. unfold CAP. destruct (Z.ltb_spec (count_ c) 8); lia.
  - intros i e Hi. apply lookup_take_Some in Hi as [Hi Hi8].
    unfold holds. cbn [regions_ content_hashes_ ops_ num_ops_ head_]. rewrite cyc_advance_back by done.
    assert (0 <= (head_ c - Z.of_nat i) mod 8) by mod_lia.
    rewrite !aget_aset by (rewrite ?L1, ?L2, ?L3, ?L4; done). destruct i as [|i]; cbn in Hi.
    + injection Hi as <-. rewrite !decide_True by (symmetry; rewrite cyc_index_mod; f_equal; simpl; lia). done.
    + destruct (rp_holds _ _ Hr i e Hi) as (H1 & H2 & H3 & H4 & H5).
      replace ((head_ c - Z.of_nat (S i)) mod 8) with (cyc_index_back (head_ c) (Z.of_nat i)) by (rewrite cyc_index_back_mod by done; f_equal; lia).
      rewrite !decide_False by (apply not_eq_sym, index_back_fresh; [done|lia]). done.
Qed.

Lemma spec_alternate_slot has_plan pos schema shape exclude c i e :
  holds c i e -> 0 <= pos ->
  alternate_at has_plan pos schema shape exclude c (cyc_index_back (head_ c) (Z.of_nat i)) =
  spec_alternate has_plan pos schema shape exclude e.
Proof.
  intros (H1 & _ & H3 & H4 & H5) Hpos. unfold alternate_at, spec_alternate. rewrite H1, H3, H4, (proj2 (Z.eqb_neq _ _) H5). cbn [orb].
  destruct (re_addr e =? exclude); [done|]. cbn [negb andb]. destruct (has_plan (re_addr e)); [|done]. cbn [negb andb].
  destruct (Z.leb_spec (Z.of_nat (length (re_ops e))) pos); [|done]. by rewrite lookup_ge_None_2 by lia.
Qed.

(** What a sequence of inserts leaves. *)
Fixpoint run_inserts (rs : list (Z * RegionNode)) (c : RegionCache) : result RegionCache :=
  match rs with [] => Ok c | (a, r) :: rs => (let* c := rc_insert a r c in run_inserts rs c)%result end.

Definition spec_inserts (rs : list (Z * RegionNode)) : list entry := fold_left (fun l ar => spec_insert ar.1 ar.2 l) rs [].

Lemma run_inserts_rep rs c l :
  rep c l -> Forall (fun ar => ar.1 <> 0) rs ->
  exists c', run_inserts rs c = Ok c' /\ rep c' (fold_left (fun l ar => spec_insert ar.1 ar.2 l) rs l).
Proof.
  revert c l. induction rs as [|[a r] rs IH]; intros c l Hr Hn; [by exists c|]. apply Forall_cons in Hn as [Ha Hn].
  destruct (rep_insert a r c l Hr Ha) as (c1 & Hc1 & Hr1). cbn [run_inserts fold_left]. rewrite Hc1. cbn [rbind]. by apply IH.
Qed.

(** After any inserts the cache is the list of the eight newest regions
    with different content hashes: find gives the region of a hash,
    find_alternate the newest region with a plan, other than the excluded one,
    whose op at the position matches, whatever the plans are at the call, and
    region_at the region of an age; the counter of the slots wraps without
    effect. *)
Theorem region_cache_refines_list rs :
  Forall (fun ar => ar.1 <> 0) rs ->
  exists c, run_inserts rs new_region_cache = Ok c /\
    (length (spec_inserts rs) <= 8)%nat /\
    (forall hash, rc_find hash c = addr_of (first_entry (fun e => re_hash e =? hash) (spec_inserts rs))) /\
    (forall has_plan pos schema shape exclude, 0 <= pos ->
       find_alternate has_plan pos schema shape exclude c =
       addr_of (first_entry (spec_alternate has_plan pos schema shape exclude) (spec_inserts rs))) /\
    (forall age, region_at (Z.of_nat age) c = addr_of (spec_inserts rs !! age)).
Proof.
  intros Hn. destruct (run_inserts_rep rs new_region_cache [] rep_new Hn) as (c & Hc & Hr). exists c.
  fold (spec_inserts rs) in Hr. split_and!; [done|apply Hr| | |].
  - intros hash. unfold rc_find. rewrite (rep_ages _ _ Hr).
    apply (first_age_entry _ _ (fun i => aget 0 (regions_ c) (cyc_index_back (head_ c) i)) _ 0). intros i e Hi.
    destruct (rp_holds _ _ Hr i e Hi) as (H1 & H2 & _). simpl. by rewrite H1, H2.
  - intros has_plan pos schema shape exclude Hpos. unfold find_alternate. rewrite (rep_ages _ _ Hr).
    apply (first_age_entry _ _ (fun i => aget 0 (regions_ c) (cyc_index_back (head_ c) i)) _ 0). intros i e Hi.
    pose proof (rp_holds _ _ Hr i e Hi) as Hh. split; [by apply spec_alternate_slot|]. by destruct Hh as (H1 & _).
  - intros age. unfold region_at. destruct (rp_count _ _ Hr) as [-> _]. destruct (Z.leb_spec (Z.of_nat (length (spec_inserts rs))) (Z.of_nat age)).
    + by rewrite lookup_ge_None_2 by lia.
    + destruct (lookup_lt_is_Some_2 (spec_inserts rs) age ltac:(lia)) as [e He]. rewrite He.
      by destruct (rp_holds _ _ Hr age e He) as (H1 & _).
Qed.

(** ** Witness *)

Definition wit_cached (h : Z) : RegionNode := mkRegion h [] None.

Lemma region_cache_refines_list_witness :
  exists c, run_inserts [(100, wit_cached 1); (200, wit_cached 2); (300, wit_cached 1)] new_region_cache = Ok c /\ rc_find 1 c = 100.
Proof.
  destruct (region_cache_refines_list [(100, wit_cached 1); (200, wit_cached 2); (300, wit_cached 1)]) as (c & Hc & _ & Hf & _).
  - repeat (constructor; [discriminate|]). constructor.
  - exists c. split; [exact Hc|]. rewrite Hf. vm_compute. reflexivity.
Defined.
