(* ===== verification/StorageNbytes.v ===== *)
(** * StorageNbytes.v: the bytes that a tensor covers
    (include/crucible/StorageNbytes.h, with compute_storage_nbytes of
    MerkleDag.h)

    The scalar routine, the screen and the vector routine.  A stride can be
    negative, so the span is the distance between the lowest and the highest
    offset.  The offsets of the tensor, over its index tuples, are the
    reference. *)

From stdpp Require Import base list strings.
From Stdlib Require Import ZArith Lia.
From S2P Require Import Prelude.
From S2P Require Import Types.
From S2P Require Import ContentHash.
#[local] Open Scope Z_scope.

(** ** Signed 64-bit arithmetic *)

Definition INT64_MAX : Z := 2 ^ 63 - 1.
Definition INT64_MIN : Z := - 2 ^ 63.

(** The value of a signed operation that wraps. *)
Definition i64 (x : Z) : Z := (x + 2 ^ 63) mod 2 ^ 64 - 2 ^ 63.

Definition fits_i64 (x : Z) : bool := (INT64_MIN <=? x) && (x <=? INT64_MAX).

(** __builtin_add_overflow and its kin: [None] on overflow. *)
Definition checked_i64 (x : Z) : option Z := if fits_i64 x then Some x else None.
Definition checked_u64 (x : Z) : option Z := if (0 <=? x) && (x <=? UINT64_MAX) then Some x else None.

(** ** Saturated *)

Record Saturated := mkSat { sat_value : Z; was_clamped : bool }.

Definition Sat (v : Z) : Saturated := mkSat v false.
Definition sat_overflow : Saturated := mkSat UINT64_MAX true.

(** ** The routines *)

(** One extent joins the running offsets. *)
Definition add_extent (mx mn e : Z) : option (Z * Z) :=
  if 0 <? e then (fun v => (v, mn)) <$> checked_i64 (mx + e)
  else (fun v => (mx, v)) <$> checked_i64 (mn + e).

(** The code behind both loops: the span, and its bytes. *)
Definition finish_span (mx mn elem : Z) : Saturated :=
  match checked_i64 (mx - mn) with
  | None => sat_overflow
  | Some span =>
    match checked_i64 (span + 1) with
    | None => sat_overflow
    | Some span =>
      match checked_u64 (u64 span * elem) with
      | None => sat_overflow
      | Some total => Sat total
      end
    end
  end.

(** The loop over the dimensions: [inl] is a return from inside the loop. *)
Fixpoint scan_dims (dims : list (Z * Z)) (mx mn : Z) : Saturated + Z * Z :=
  match dims with
  | [] => inr (mx, mn)
  | (size, stride) :: rest =>
    if size =? 0 then inl (Sat 0)
    else
      match checked_i64 (i64 (size - 1) * stride) with
      | None => inl sat_overflow
      | Some e =>
        match add_extent mx mn e with
        | None => inl sat_overflow
        | Some (mx, mn) => scan_dims rest mx mn
        end
      end
  end.

(** The live dimensions of a descriptor. *)
Definition live_dims (m : TensorMeta) : list (Z * Z) :=
  (fun d => (lane (sizes m) d, lane (strides m) d)) <$> seq 0 (Z.to_nat (ndim m)).

Definition compute_storage_nbytes_scalar (m : TensorMeta) : Saturated :=
  if ndim m =? 0 then Sat (element_size (dtype m))
  else
    match scan_dims (live_dims m) 0 0 with
    | inl r => r
    | inr (mx, mn) => finish_span mx mn (element_size (dtype m))
    end.

Definition compute_storage_nbytes (m : TensorMeta) : result Saturated :=
  (let* _ := require (ndim m <=? 8) "in_range(ndim, 0, 8)" in
   Ok (compute_storage_nbytes_scalar m))%result.

(** *** The vector routine

    A vector of eight lanes is a function of the lane. *)

Definition valid_lane (m : TensorMeta) (d : nat) : bool := Z.of_nat d <? ndim m.
Definition live_size (m : TensorMeta) (d : nat) : Z := if valid_lane m d then lane (sizes m) d else 1.
Definition live_stride (m : TensorMeta) (d : nat) : Z := if valid_lane m d then lane (strides m) d else 0.

Definition lanes : list nat := seq 0 kMaxTensorNDim.
Definition any_of (p : nat -> bool) : bool := existsb p lanes.
Definition reduce_max (v : nat -> Z) : Z := fold_left (fun acc d => Z.max acc (v d)) (seq 1 7) (v 0%nat).

Definition stride_abs (m : TensorMeta) (d : nat) : Z :=
  let clamped := Z.max (live_stride m d) (- INT64_MAX) in
  if 0 <=? clamped then clamped else - clamped.

Definition storage_nbytes_simd_safe_ (m : TensorMeta) : bool :=
  let every_size_positive := negb (any_of (fun d => live_size m d <? 1)) in
  let max_smo := reduce_max (fun d => Z.max (live_size m d) 1 - 1) in
  let max_str := reduce_max (stride_abs m) in
  every_size_positive && is_Some_b (checked_i64 (max_smo * max_str)).

Definition extent_lane (m : TensorMeta) (d : nat) : Z := i64 (i64 (live_size m d - 1) * live_stride m d).

Fixpoint scan_extents (es : list Z) (mx mn : Z) : option (Z * Z) :=
  match es with
  | [] => Some (mx, mn)
  | e :: rest =>
    match add_extent mx mn e with
    | None => None
    | Some (mx, mn) => scan_extents rest mx mn
    end
  end.

Definition compute_storage_nbytes_simd (m : TensorMeta) : Saturated :=
  if ndim m =? 0 then Sat (element_size (dtype m))
  else if any_of (fun d => (lane (sizes m) d =? 0) && valid_lane m d) then Sat 0
  else if negb (storage_nbytes_simd_safe_ m) then compute_storage_nbytes_scalar m
  else
    match scan_extents (extent_lane m <$> seq 0 (Z.to_nat (ndim m))) 0 0 with
    | None => sat_overflow
    | Some (mx, mn) => finish_span mx mn (element_size (dtype m))
    end.

(** ** The reference: the offsets of the index tuples *)

Definition index_ok (dims : list (Z * Z)) (idx : list Z) : Prop := Forall2 (fun d i => 0 <= i < d.1) dims idx.

Fixpoint offset_of (dims : list (Z * Z)) (idx : list Z) : Z :=
  match dims, idx with
  | d :: dims, i :: idx => i * d.2 + offset_of dims idx
  | _, _ => 0
  end.

(** The elements between two offsets, both included. *)
Definition elements_between (lo hi : Z) : Z := hi - lo + 1.

(** The highest and the lowest offset. *)
Fixpoint hi_offset (dims : list (Z * Z)) : Z :=
  match dims with [] => 0 | d :: dims => Z.max 0 ((d.1 - 1) * d.2) + hi_offset dims end.
Fixpoint lo_offset (dims : list (Z * Z)) : Z :=
  match dims with [] => 0 | d :: dims => Z.min 0 ((d.1 - 1) * d.2) + lo_offset dims end.

Definition live_sizes_positive (m : TensorMeta) : Prop := Forall (fun d => 1 <= d.1 <= INT64_MAX) (live_dims m).

(** A descriptor whose lanes are 64-bit integers. *)
Definition lanes_i64 (m : TensorMeta) : Prop :=
  forall d, INT64_MIN <= lane (sizes m) d <= INT64_MAX /\ INT64_MIN <= lane (strides m) d <= INT64_MAX.

Lemma i64_small x : INT64_MIN <= x <= INT64_MAX -> i64 x = x.
Proof. unfold INT64_MIN, INT64_MAX, i64. intros. rewrite Z.mod_small; lia. Qed.

Lemma fits_i64_spec x : fits_i64 x = true <-> INT64_MIN <= x <= INT64_MAX.
Proof. unfold fits_i64. rewrite andb_true_iff, !Z.leb_le. done. Qed.

Lemma checked_i64_cases x :
  (INT64_MIN <= x <= INT64_MAX /\ checked_i64 x = Some x) \/ (~ (INT64_MIN <= x <= INT64_MAX) /\ checked_i64 x = None).
Proof.
  unfold checked_i64. destruct (fits_i64 x) eqn:E; [left|right]; (split; [|done]).
  - by apply fits_i64_spec.
  - intros H%fits_i64_spec. congruence.
Qed.

Lemma offset_bounds dims idx : index_ok dims idx -> lo_offset dims <= offset_of dims idx <= hi_offset dims.
Proof.
  induction 1 as [|d i dims idx Hi _ IH]; cbn; [lia|].
  assert (Z.min 0 ((d.1 - 1) * d.2) <= i * d.2 <= Z.max 0 ((d.1 - 1) * d.2)); [|lia].
  destruct (Z.le_gt_cases 0 d.2).
  - assert (0 <= i * d.2 <= (d.1 - 1) * d.2) by nia. lia.
  - assert ((d.1 - 1) * d.2 <= i * d.2 <= 0) by nia. lia.
Qed.

Lemma bounds_sign dims : lo_offset dims <= 0 <= hi_offset dims.
Proof. induction dims; cbn; lia. Qed.

Lemma hi_attained dims : Forall (fun d => 1 <= d.1 <= INT64_MAX) dims -> exists idx, index_ok dims idx /\ offset_of dims idx = hi_offset dims.
Proof.
  induction 1 as [|d dims Hd _ (idx & Hi & He)]; [exists []; split; [constructor|done]|].
  exists ((if 0 <? d.2 then d.1 - 1 else 0) :: idx). split; [apply Forall2_cons; split; [|done]|cbn; rewrite He].
  - destruct (Z.ltb_spec 0 d.2); lia.
  - assert (0 <= d.1 - 1) by lia. destruct (Z.ltb_spec 0 d.2); nia.
Qed.

Lemma lo_attained dims : Forall (fun d => 1 <= d.1 <= INT64_MAX) dims -> exists idx, index_ok dims idx /\ offset_of dims idx = lo_offset dims.
Proof.
  induction 1 as [|d dims Hd _ (idx & Hi & He)]; [exists []; split; [constructor|done]|].
  exists ((if 0 <? d.2 then 0 else d.1 - 1) :: idx). split; [apply Forall2_cons; split; [|done]|cbn; rewrite He].
  - destruct (Z.ltb_spec 0 d.2); lia.
  - assert (0 <= d.1 - 1) by lia. destruct (Z.ltb_spec 0 d.2); nia.
Qed.

Lemma add_extent_cases mx mn e : INT64_MIN <= mn <= 0 -> 0 <= mx <= INT64_MAX ->
  (add_extent mx mn e = Some (mx + Z.max 0 e, mn + Z.min 0 e) /\ mx + Z.max 0 e <= INT64_MAX /\ INT64_MIN <= mn + Z.min 0 e) \/
  (add_extent mx mn e = None /\ (INT64_MAX < mx + Z.max 0 e \/ mn + Z.min 0 e < INT64_MIN)).
Proof.
  intros Hn Hx. unfold add_extent. destruct (Z.ltb_spec 0 e).
  - destruct (checked_i64_cases (mx + e)) as [[Hr ->]|[Hr ->]]; [left|right]; cbn; repeat split; try lia. f_equal. f_equal; lia.
  - destruct (checked_i64_cases (mn + e)) as [[Hr ->]|[Hr ->]]; [left|right]; cbn; repeat split; try lia. f_equal. f_equal; lia.
Qed.

(** With no empty dimension the loop ends with the two extreme offsets, or
    stops because one of them does not fit. *)
Lemma scan_dims_spec dims mx mn : Forall (fun d => 1 <= d.1 <= INT64_MAX) dims -> INT64_MIN <= mn <= 0 -> 0 <= mx <= INT64_MAX ->
  (scan_dims dims mx mn = inr (mx + hi_offset dims, mn + lo_offset dims) /\ mx + hi_offset dims <= INT64_MAX /\ INT64_MIN <= mn + lo_offset dims) \/
  (scan_dims dims mx mn = inl sat_overflow /\ (INT64_MAX < mx + hi_offset dims \/ mn + lo_offset dims < INT64_MIN)).
Proof.
  intros Hd. revert mx mn. induction Hd as [|[size stride] dims Hs _ IH]; intros mx mn Hn Hx; cbn in *.
  { left. rewrite !Z.add_0_r. repeat split; lia. }
  pose proof (bounds_sign dims) as [Hlo Hhi]. rewrite (proj2 (Z.eqb_neq size 0)) by lia.
  rewrite i64_small by (unfold INT64_MIN, INT64_MAX in *; lia).
  destruct (checked_i64_cases ((size - 1) * stride)) as [[Hr ->]|[Hr ->]].
  - destruct (add_extent_cases mx mn ((size - 1) * stride) Hn Hx) as [(-> & H1 & H2)|(-> & H1)].
    + destruct (IH (mx + Z.max 0 ((size - 1) * stride)) (mn + Z.min 0 ((size - 1) * stride))) as [(-> & ?)|(-> & ?)]; [lia..| |].
      * left. repeat split; [|lia..]. f_equal. f_equal; lia.
      * right. split; [done|]. lia.
    + right. split; [done|]. lia.
  - right. split; [done|]. unfold INT64_MIN, INT64_MAX in *. lia.
Qed.

Lemma finish_span_spec mx mn elem : INT64_MIN <= mn <= 0 -> 0 <= mx <= INT64_MAX -> 0 <= elem ->
  (finish_span mx mn elem = Sat (elements_between mn mx * elem)) \/
  (finish_span mx mn elem = sat_overflow /\ (INT64_MAX < elements_between mn mx \/ UINT64_MAX < elements_between mn mx * elem)).
Proof.
  intros Hn Hx He. unfold finish_span, elements_between. unfold INT64_MIN, INT64_MAX in *.
  destruct (checked_i64_cases (mx - mn)) as [[Hr ->]|[Hr ->]]; [|right; split; [done|]; unfold INT64_MIN, INT64_MAX in *; lia].
  destruct (checked_i64_cases (mx - mn + 1)) as [[Hr2 ->]|[Hr2 ->]]; [|right; split; [done|]; unfold INT64_MIN, INT64_MAX in *; lia].
  unfold INT64_MIN, INT64_MAX in *.
  rewrite wrap_small by lia. unfold checked_u64.
  destruct (Z.leb_spec 0 ((mx - mn + 1) * elem)); [|nia]. cbn [andb].
  destruct (Z.leb_spec ((mx - mn + 1) * elem) UINT64_MAX); [by left|right]. split; [done|lia].
Qed.

Lemma element_size_nonneg t : 0 <= element_size t.
Proof. destruct t; cbn; lia. Qed.

Lemma storage_nbytes_range m : in_width 64 (sat_value (compute_storage_nbytes_scalar m)).
Proof.
  assert (Ho : in_width 64 (sat_value sat_overflow)) by (unfold in_width; cbn [sat_overflow sat_value]; unfold UINT64_MAX; lia).
  assert (Hf : forall mx mn elem, in_width 64 (sat_value (finish_span mx mn elem))).
  { intros. unfold finish_span. destruct (checked_i64 _); [|done]. destruct (checked_i64 _); [|done].
    unfold checked_u64. destruct (_ && _) eqn:E; [|done]. reflect_bools. unfold UINT64_MAX, in_width in *. cbn [Sat sat_value]. lia. }
  assert (Hs : forall dims mx mn r, scan_dims dims mx mn = inl r -> in_width 64 (sat_value r)).
  { induction dims as [|[size stride] dims IH]; intros mx mn r H; [done|]. cbn in H.
    destruct (size =? 0); [by injection H as <-|]. destruct (checked_i64 _); [|by injection H as <-].
    destruct (add_extent _ _ _) as [[mx' mn']|]; [by eapply IH|by injection H as <-]. }
  unfold compute_storage_nbytes_scalar. destruct (_ =? 0); [by destruct (dtype m)|].
  destruct (scan_dims _ _ _) as [r|[mx mn]] eqn:E; [by eapply Hs|apply Hf].
Qed.

(** For a tensor with no empty dimension the routine is exact.  A result
    that is not clamped is the bytes between the lowest and the highest element
    that an index tuple reaches: no two elements lie further apart, and two
    elements reach it.  A result that is clamped is the largest value, and two
    elements lie so far apart that their distance or its bytes do not fit. *)
Theorem storage_nbytes_is_span m :
  live_sizes_positive m ->
  let elem := element_size (dtype m) in
  let bytes i j := elements_between (offset_of (live_dims m) i) (offset_of (live_dims m) j) * elem in
  let r := compute_storage_nbytes_scalar m in
  if was_clamped r
  then sat_value r = UINT64_MAX /\
    exists i j, index_ok (live_dims m) i /\ index_ok (live_dims m) j /\
      (INT64_MAX < elements_between (offset_of (live_dims m) i) (offset_of (live_dims m) j) \/ UINT64_MAX < bytes i j)
  else (forall i j, index_ok (live_dims m) i -> index_ok (live_dims m) j -> bytes i j <= sat_value r) /\
    exists i j, index_ok (live_dims m) i /\ index_ok (live_dims m) j /\ bytes i j = sat_value r.
Proof.
  intros Hd elem bytes r. pose proof (element_size_nonneg (dtype m)) as He. fold elem in He.
  destruct (hi_attained _ Hd) as (jx & Hjx & Ejx). destruct (lo_attained _ Hd) as (ix & Hix & Eix).
  assert (Hin : forall i j, index_ok (live_dims m) i -> index_ok (live_dims m) j ->
    bytes i j <= elements_between (lo_offset (live_dims m)) (hi_offset (live_dims m)) * elem).
  { intros i j Hi%offset_bounds Hj%offset_bounds. unfold bytes, elements_between. apply Z.mul_le_mono_nonneg_r; lia. }
  assert (Hr : r = Sat (elements_between (lo_offset (live_dims m)) (hi_offset (live_dims m)) * elem) \/
    r = sat_overflow /\ (INT64_MAX < elements_between (lo_offset (live_dims m)) (hi_offset (live_dims m)) \/
      UINT64_MAX < elements_between (lo_offset (live_dims m)) (hi_offset (live_dims m)) * elem)).
  { unfold r, compute_storage_nbytes_scalar. destruct (Z.eqb_spec (ndim m) 0) as [E|_].
    { left. unfold live_dims. rewrite E. cbn [Z.to_nat seq fmap list_fmap hi_offset lo_offset]. unfold elements_between. rewrite Z.sub_diag, Z.add_0_l, Z.mul_1_l. reflexivity. }
    destruct (scan_dims_spec (live_dims m) 0 0 Hd) as [(-> & H1 & H2)|(-> & H)]; [unfold INT64_MIN; lia|unfold INT64_MAX; lia| |].
    - pose proof (bounds_sign (live_dims m)). rewrite !Z.add_0_l in *. apply finish_span_spec; lia.
    - right. split; [done|]. left. pose proof (bounds_sign (live_dims m)). unfold elements_between, INT64_MIN, INT64_MAX in *. lia. }
  destruct Hr as [->|(-> & Hover)]; cbn [was_clamped sat_value Sat sat_overflow].
  - split; [done|]. exists ix, jx. repeat split; [done..|]. unfold bytes. by rewrite Eix, Ejx.
  - split; [done|]. exists ix, jx. unfold bytes. rewrite Eix, Ejx. done.
Qed.

(** ** The vector routine is the scalar one *)

Lemma reduce_max_ge v d : (d < kMaxTensorNDim)%nat -> v d <= reduce_max v.
Proof.
  intros Hd. unfold kMaxTensorNDim in Hd. unfold reduce_max. cbn [seq fold_left].
  do 8 (destruct d as [|d]; [lia|]). lia.
Qed.

Lemma any_of_false p d : any_of p = false -> (d < kMaxTensorNDim)%nat -> p d = false.
Proof.
  unfold any_of. intros H Hd. destruct (p d) eqn:E; [|done].
  assert (existsb p lanes = true); [|congruence]. apply existsb_exists. exists d. split; [|done]. apply in_seq. lia.
Qed.

(** What the screen accepts: each live size is positive, and each product of
    a live lane fits. *)
Lemma simd_safe_extent m d :
  lanes_i64 m -> (d < kMaxTensorNDim)%nat -> valid_lane m d = true -> storage_nbytes_simd_safe_ m = true ->
  1 <= lane (sizes m) d /\ INT64_MIN <= (lane (sizes m) d - 1) * lane (strides m) d <= INT64_MAX.
Proof.
  intros Hl Hd Hv [Hp%negb_true_iff Hb]%andb_prop. destruct (Hl d) as [Hs Ht].
  pose proof (any_of_false _ _ Hp Hd) as Hpos. cbn beta in Hpos. unfold live_size in Hpos. rewrite Hv in Hpos. apply Z.ltb_ge in Hpos.
  split; [done|]. pose proof (reduce_max_ge (fun d => Z.max (live_size m d) 1 - 1) d Hd) as H1. pose proof (reduce_max_ge (stride_abs m) d Hd) as H2.
  set (A := reduce_max _) in *. set (B := reduce_max (stride_abs m)) in *.
  destruct (checked_i64_cases (A * B)) as [[Hr _]|[_ E]]; [|by rewrite E in Hb].
  unfold live_size in H1. unfold stride_abs, live_stride in H2. rewrite Hv in H1, H2. cbn zeta in H2.
  unfold INT64_MIN, INT64_MAX in *. set (s := lane (sizes m) d) in *. set (t := lane (strides m) d) in *.
  assert (Hs1 : 0 <= s - 1 <= A) by lia.
  assert (Ht1 : Z.abs (Z.max t (- (2 ^ 63 - 1))) <= B) by (destruct (Z.leb_spec 0 (Z.max t (- (2 ^ 63 - 1)))); lia).
  destruct (Z.eq_dec (s - 1) 0) as [->|Hne]; [lia|].
  destruct (Z.eq_dec t (- 2 ^ 63)) as [->|Hmin].
  - assert (Hb1 : 2 ^ 63 - 1 <= B) by lia. assert (A = 1) as HA by nia. assert (s - 1 = 1) as -> by lia. lia.
  - assert (Z.abs t <= B) by lia. assert (Z.abs ((s - 1) * t) <= A * B) by (rewrite Z.abs_mul; nia). lia.
Qed.

Lemma scan_extents_dims m ds mx mn :
  (forall d, In d ds -> lane (sizes m) d <> 0 /\ INT64_MIN <= lane (sizes m) d - 1 <= INT64_MAX /\
    INT64_MIN <= (lane (sizes m) d - 1) * lane (strides m) d <= INT64_MAX /\ valid_lane m d = true) ->
  scan_dims ((fun d => (lane (sizes m) d, lane (strides m) d)) <$> ds) mx mn =
  match scan_extents (extent_lane m <$> ds) mx mn with None => inl sat_overflow | Some o => inr o end.
Proof.
  revert mx mn. induction ds as [|d ds IH]; intros mx mn H; [done|]. cbn [fmap list_fmap scan_dims scan_extents].
  destruct (H d (or_introl eq_refl)) as (Hz & Hs & He & Hv). rewrite (proj2 (Z.eqb_neq _ _) Hz).
  unfold extent_lane at 1, live_size, live_stride. rewrite Hv. rewrite (i64_small (lane (sizes m) d - 1)), (i64_small (_ * _)) by done.
  destruct (checked_i64_cases ((lane (sizes m) d - 1) * lane (strides m) d)) as [[_ ->]|[Hn _]]; [|lia].
  destruct (add_extent _ _ _) as [[mx' mn']|]; [|done]. apply IH. intros d' Hd'. apply H. by right.
Qed.

Definition has_empty_dim (m : TensorMeta) : bool := existsb (fun d => d.1 =? 0) (live_dims m).

Lemma any_zero_empty_dim m : 0 <= ndim m <= 8 ->
  any_of (fun d => (lane (sizes m) d =? 0) && valid_lane m d) = has_empty_dim m.
Proof.
  intros Hn. apply eq_true_iff_eq. unfold any_of, has_empty_dim, live_dims. rewrite !existsb_exists. split.
  - intros (d & Hd & [Hz Hv]%andb_prop). apply Z.ltb_lt in Hv. exists (lane (sizes m) d, lane (strides m) d). split; [|done].
    apply in_map_iff. exists d. split; [done|]. apply in_seq. lia.
  - intros (p & (d & <- & Hd)%in_map_iff & Hz). apply in_seq in Hd. exists d. split; [apply in_seq; unfold kMaxTensorNDim; lia|].
    cbn in Hz. rewrite Hz. cbn. apply Z.ltb_lt. lia.
Qed.

(** A scan that meets an empty dimension ends there with zero, or before it
    with an overflow. *)
Lemma scan_dims_empty dims : forall mx mn,
  existsb (fun d => d.1 =? 0) dims = true -> scan_dims dims mx mn = inl (Sat 0) \/ scan_dims dims mx mn = inl sat_overflow.
Proof.
  induction dims as [|[size stride] dims IH]; intros mx mn He; [done|]. cbn in *. destruct (size =? 0); [by left|]. cbn in He.
  destruct (checked_i64 _); [|by right]. destruct (add_extent mx mn _) as [[mx' mn']|]; [by apply IH|by right].
Qed.

(** With no empty dimension the screen and the fold compute what the scalar
    loop does. *)
Lemma simd_full m : lanes_i64 m -> 0 <= ndim m <= 8 -> has_empty_dim m = false -> compute_storage_nbytes_simd m = compute_storage_nbytes_scalar m.
Proof.
  intros Hl Hn Hz. unfold compute_storage_nbytes_simd. rewrite any_zero_empty_dim, Hz by done.
  destruct (Z.eqb_spec (ndim m) 0) as [E|Hne]; [unfold compute_storage_nbytes_scalar; by rewrite E|].
  destruct (storage_nbytes_simd_safe_ m) eqn:Hs; [|done]. cbn [negb].
  unfold compute_storage_nbytes_scalar, live_dims. rewrite (proj2 (Z.eqb_neq _ _) Hne).
  rewrite scan_extents_dims; [by destruct (scan_extents _ _ _)|]. intros d Hd. apply in_seq in Hd.
  assert (Hv : valid_lane m d = true) by (apply Z.ltb_lt; lia).
  destruct (simd_safe_extent m d Hl) as [H1 H2]; [unfold kMaxTensorNDim; lia|done|done|].
  destruct (Hl d) as [H3 _]. unfold INT64_MIN, INT64_MAX in *. split_and!; try done; lia.
Qed.

(** C28: the vector routine gives the value and the flag of the scalar routine,
    bit for bit, for every descriptor of at most eight dimensions, whatever its
    64-bit lanes hold, the dead lanes included, under one condition: when a live
    dimension is empty, the scalar routine does not report an overflow (no
    overflow lies before the first empty dimension). *)
Theorem storage_nbytes_simd_is_scalar m :
  lanes_i64 m -> 0 <= ndim m <= 8 -> (has_empty_dim m = true -> was_clamped (compute_storage_nbytes_scalar m) = false) ->
  compute_storage_nbytes_simd m = compute_storage_nbytes_scalar m.
Proof.
  intros Hl Hn Hc. destruct (has_empty_dim m) eqn:Hz; [|by apply simd_full]. specialize (Hc eq_refl).
  unfold compute_storage_nbytes_simd. rewrite any_zero_empty_dim, Hz by done. unfold compute_storage_nbytes_scalar in *.
  destruct (ndim m =? 0); [done|]. destruct (scan_dims_empty (live_dims m) 0 0 Hz) as [E|E]; rewrite E in *; done.
Qed.

(** ** Witnesses *)

(** A transposed and reversed matrix: 3 x 5, strides -10 and 2. *)
Definition wit_view : TensorMeta :=
  mkMeta [3; 5; 0; 0; 0; 0; 0; 0] [-10; 2; 7; 0; 0; 0; 0; 0] 4096 2 Float CPU (-1) Strided false 0 0 0 0 0 0.

Lemma wit_view_lanes : lanes_i64 wit_view.
Proof. intros d. do 9 (destruct d as [|d]; [vm_compute; intuition discriminate|]). vm_compute; intuition discriminate. Qed.

Lemma storage_nbytes_is_span_witness :
  compute_storage_nbytes wit_view = Ok (Sat 116) /\
  exists i j, index_ok (live_dims wit_view) i /\ index_ok (live_dims wit_view) j /\
    elements_between (offset_of (live_dims wit_view) i) (offset_of (live_dims wit_view) j) * 4 = 116.
Proof.
  split; [vm_compute; reflexivity|].
  assert (H : live_sizes_positive wit_view) by (repeat constructor; vm_compute; discriminate).
  exact (proj2 (storage_nbytes_is_span wit_view H)).
Defined.

(** An empty dimension behind a full one. *)
Definition wit_empty : TensorMeta :=
  mkMeta [3; 0; 9; 0; 0; 0; 0; 0] [-10; 2; 7; 0; 0; 0; 0; 0] 4096 2 Float CPU (-1) Strided false 0 0 0 0 0 0.

Lemma storage_nbytes_simd_is_scalar_witness : compute_storage_nbytes_simd wit_view = Sat 116 /\ compute_storage_nbytes_simd wit_empty = Sat 0.
Proof.
  split; (rewrite storage_nbytes_simd_is_scalar; [vm_compute; reflexivity| |split; vm_compute; discriminate|vm_compute; reflexivity || done]).
  - exact wit_view_lanes.
  - intros d. do 9 (destruct d as [|d]; [vm_compute; intuition discriminate|]). vm_compute; intuition discriminate.
Defined.

(** The two routines differ when an overflow comes before an empty dimension:
    the scalar loop has returned, the vector screen has not started. *)
Definition wit_empty_late : TensorMeta :=
  mkMeta [2 ^ 62; 0; 0; 0; 0; 0; 0; 0] [4; 1; 0; 0; 0; 0; 0; 0] 4096 2 Float CPU (-1) Strided false 0 0 0 0 0 0.

Theorem storage_nbytes_routines_differ :
  compute_storage_nbytes_scalar wit_empty_late = sat_overflow /\ compute_storage_nbytes_simd wit_empty_late = Sat 0.
Proof. vm_compute. done. Qed.
