(* ===== verification/TraceGraph.v ===== *)
(** * TraceGraph.v: the graph of a trace (include/crucible/TraceGraph.h)

    The edges between the ops, and the two adjacency arrays that a counting
    sort makes.  A pointer into an edge array is an index. *)

From stdpp Require Import base list strings.
From Stdlib Require Import ZArith Lia.
From S2P Require Import Prelude.
From S2P Require Import Types.
From S2P Require Import MemoryPlan.
From S2P Require Import PlanSweep.
#[local] Open Scope Z_scope.

Inductive EdgeKind := DATA_FLOW | ALIAS | CONTROL_FLOW | SCALAR_FLOW.

Record Edge := mkEdge { e_src : Z; e_dst : Z; src_port : Z; dst_port : Z; e_kind : EdgeKind }.

Definition zero_edge : Edge := mkEdge none32 none32 0 0 DATA_FLOW.

Definition kMaxPort : Z := 63.

Definition set_src_port (e : Edge) (p : Z) : result Edge :=
  (let* _ := require ((0 <=? p) && (p <=? kMaxPort)) "in_range(p, 0, kMaxPort)" in
   Ok (mkEdge (e_src e) (e_dst e) p (dst_port e) (e_kind e)))%result.
Definition set_dst_port (e : Edge) (p : Z) : result Edge :=
  (let* _ := require ((0 <=? p) && (p <=? kMaxPort)) "in_range(p, 0, kMaxPort)" in
   Ok (mkEdge (e_src e) (e_dst e) (src_port e) p (e_kind e)))%result.

(** The arrays of a graph; the ops and the slots belong to the region. *)
Record TraceGraph := mkGraph {
  tg_num_ops : Z;
  fwd_edges : list Edge;
  fwd_offsets : list Z;
  rev_edges : list Edge;
  rev_offsets : list Z;
  tg_num_edges : Z;
}.

(** ** build_csr

    The two directions share no array, so each loop of the code is written
    once, over the end of the edge that it sorts by. *)

Definition csr_count (key : Edge -> Z) (num_ops : Z) (edges : list Edge) : list Z :=
  foldl (fun a e => bump a (u32 (key e + 1))) (replicate (Z.to_nat (num_ops + 1)) 0) edges.

(** The prefix sums, in place. *)
Definition csr_accumulate (num_ops : Z) (a : list Z) : list Z :=
  foldl (fun a i => aset a i (u32 (aget 0 a i + aget 0 a (i - 1)))) a (seqZ 1 num_ops).

Definition csr_scatter (key : Edge -> Z) (edges : list Edge) (oc : list Edge * list Z) : list Edge * list Z :=
  foldl (fun oc e => (aset oc.1 (aget 0 oc.2 (key e)) e, bump oc.2 (key e))) oc edges.

Definition csr_offsets (key : Edge -> Z) (num_ops : Z) (edges : list Edge) : list Z :=
  csr_accumulate num_ops (csr_count key num_ops edges).

Definition csr_edges (key : Edge -> Z) (num_ops : Z) (edges : list Edge) : list Edge :=
  (csr_scatter key edges (replicate (length edges) zero_edge, take (Z.to_nat num_ops) (csr_offsets key num_ops edges))).1.

Definition build_csr (edges : list Edge) (num_ops : Z) : TraceGraph :=
  let num_edges := Z.of_nat (length edges) in
  if num_ops =? 0 then mkGraph num_ops [] [] [] [] num_edges
  else mkGraph num_ops (csr_edges e_src num_ops edges) (csr_offsets e_src num_ops edges)
         (csr_edges e_dst num_ops edges) (csr_offsets e_dst num_ops edges) num_edges.

(** ** The accessors *)

Definition checked_index_ (g : TraceGraph) (i : Z) : result Z :=
  (let* _ := require (0 <? tg_num_ops g) "n_ops > 0" in
   let* _ := require ((0 <=? i) && (i <=? u32 (tg_num_ops g - 1))) "in_range(i, 0, n_ops - 1)" in
   Ok i)%result.

Definition fwd_begin (g : TraceGraph) (i : Z) : result Z :=
  (let* i := checked_index_ g i in Ok (aget 0 (fwd_offsets g) i))%result.
Definition fwd_end (g : TraceGraph) (i : Z) : result Z :=
  (let* i := checked_index_ g i in Ok (aget 0 (fwd_offsets g) (i + 1)))%result.
Definition out_degree (g : TraceGraph) (i : Z) : result Z :=
  (let* i := checked_index_ g i in Ok (u32 (aget 0 (fwd_offsets g) (i + 1) - aget 0 (fwd_offsets g) i)))%result.
Definition rev_begin (g : TraceGraph) (i : Z) : result Z :=
  (let* i := checked_index_ g i in Ok (aget 0 (rev_offsets g) i))%result.
Definition rev_end (g : TraceGraph) (i : Z) : result Z :=
  (let* i := checked_index_ g i in Ok (aget 0 (rev_offsets g) (i + 1)))%result.
Definition in_degree (g : TraceGraph) (i : Z) : result Z :=
  (let* i := checked_index_ g i in Ok (u32 (aget 0 (rev_offsets g) (i + 1) - aget 0 (rev_offsets g) i)))%result.

(** What a walk from [begin] to [end] reads. *)
Definition fwd_walk (g : TraceGraph) (i : Z) : result (list Edge) :=
  (let* b := fwd_begin g i in let* e := fwd_end g i in Ok (segment (fwd_edges g) b e))%result.
Definition rev_walk (g : TraceGraph) (i : Z) : result (list Edge) :=
  (let* b := rev_begin g i in let* e := rev_end g i in Ok (segment (rev_edges g) b e))%result.

(** ** The arrays hold the adjacency lists *)

(** The edges as events of the counting sort. *)
Definition edge_events (key : Edge -> Z) (edges : list Edge) : list (event Edge) := (fun e => (e, key e)) <$> edges.

Lemma count_shift key edges a0 a : Forall (fun e => 0 <= key e < 2 ^ 32 - 1) edges ->
  foldl (fun a e => bump a (u32 (key e + 1))) (a0 :: a) edges = a0 :: count_keys a (edge_events key edges).
Proof.
  intros Hk. revert a. induction Hk as [|e edges He _ IH]; intros a; [done|]. cbn [foldl edge_events fmap list_fmap count_keys].
  rewrite wrap_small by lia. unfold bump at 2, aset, aget at 1. rewrite Z2Nat.inj_add, Nat.add_1_r by lia. cbn [insert list_insert lookup list_lookup].
  rewrite IH. done.
Qed.

Lemma accumulate_prefix cs a0 pre :
  foldl (fun a i => aset a i (u32 (aget 0 a i + aget 0 a (i - 1)))) (pre ++ a0 :: cs) (seqZ (Z.of_nat (length pre) + 1) (Z.of_nat (length cs))) =
  pre ++ prefix_offsets a0 cs.
Proof.
  revert a0 pre. induction cs as [|c cs IH]; intros a0 pre; [done|]. cbn [length]. rewrite seqZ_cons by lia. cbn [foldl prefix_offsets].
  assert (E : aset (pre ++ a0 :: c :: cs) (Z.of_nat (length pre) + 1)
     (u32 (aget 0 (pre ++ a0 :: c :: cs) (Z.of_nat (length pre) + 1) + aget 0 (pre ++ a0 :: c :: cs) (Z.of_nat (length pre) + 1 - 1))) =
     (pre ++ [a0]) ++ u32 (a0 + c) :: cs).
  { unfold aset, aget. replace (Z.to_nat (Z.of_nat (length pre) + 1)) with (length pre + 1)%nat by lia.
    replace (Z.to_nat (Z.of_nat (length pre) + 1 - 1)) with (length pre + 0)%nat by lia.
    rewrite insert_app_r, !lookup_app_r, !Nat.add_sub' by lia. cbn. rewrite <- app_assoc. cbn. by rewrite (Z.add_comm c). }
  rewrite E. specialize (IH (u32 (a0 + c)) (pre ++ [a0])). rewrite length_app in IH. cbn [length] in IH.
  replace (Z.of_nat (length pre + 1) + 1) with (Z.succ (Z.of_nat (length pre) + 1)) in IH by lia.
  replace (Z.pred (Z.of_nat (S (length cs)))) with (Z.of_nat (length cs)) by lia.
  rewrite IH, <- app_assoc. done.
Qed.

Lemma csr_scatter_keys key edges oc : csr_scatter key edges oc = scatter_keys oc (edge_events key edges).
Proof. unfold csr_scatter, scatter_keys, edge_events. revert oc. induction edges as [|e edges IH]; intros oc; [done|]. apply IH. Qed.

Section Csr.
Context (key : Edge -> Z) (num_ops : Z) (edges : list Edge).
Hypothesis Hn : 0 < num_ops < 2 ^ 32.
Hypothesis Hkeys : Forall (fun e => 0 <= key e < num_ops) edges.
Hypothesis Hlen : Z.of_nat (length edges) < 2 ^ 32.

Lemma edge_events_keys : keys_in num_ops (edge_events key edges).
Proof using Hkeys. unfold keys_in, edge_events. apply Forall_fmap. eapply Forall_impl; [exact Hkeys|]. done. Qed.

Lemma bucket_edges k : bucket (edge_events key edges) k = filter (fun e => key e = k) edges.
Proof using Type.
  clear Hkeys Hlen. induction edges as [|e es IH]; [done|]. cbn [edge_events fmap list_fmap].
  rewrite bucket_cons, filter_cons. cbn. by rewrite <- IH.
Qed.

Lemma edge_events_length : length (edge_events key edges) = length edges.
Proof using Type. apply length_fmap. Qed.

Lemma csr_offsets_prefix :
  csr_offsets key num_ops edges = prefix_offsets 0 (count_keys (replicate (Z.to_nat num_ops) 0) (edge_events key edges)).
Proof using Hn Hkeys Hlen.
  unfold csr_offsets, csr_accumulate, csr_count. rewrite Z2Nat.inj_add, Nat.add_1_r by lia. cbn [replicate].
  rewrite count_shift by (eapply Forall_impl; [exact Hkeys|]; cbn; lia).
  rewrite count_keys_zeros by (try apply edge_events_keys; rewrite ?edge_events_length; lia).
  pose proof (accumulate_prefix (cnt (edge_events key edges) <$> seqZ 0 num_ops) 0 []) as H. cbn [length app] in H.
  rewrite length_fmap, length_seqZ, Z2Nat.id in H by lia. apply H.
Qed.

Lemma csr_segment k : 0 <= k < num_ops ->
  segment (csr_edges key num_ops edges) (aget 0 (csr_offsets key num_ops edges) k) (aget 0 (csr_offsets key num_ops edges) (k + 1)) =
  filter (fun e => key e = k) edges.
Proof using Hn Hkeys Hlen.
  intros Hk. unfold csr_edges. rewrite csr_scatter_keys, csr_offsets_prefix.
  rewrite counting_sort_segment by (try apply edge_events_keys; rewrite ?edge_events_length; done || lia).
  apply bucket_edges.
Qed.

Lemma csr_offset_offs k : 0 <= k <= num_ops ->
  aget 0 (csr_offsets key num_ops edges) k = offs (edge_events key edges) k.
Proof using Hn Hkeys Hlen.
  intros Hk. rewrite csr_offsets_prefix. rewrite count_keys_zeros by (try apply edge_events_keys; rewrite ?edge_events_length; lia).
  pose proof (prefix_offsets_spec (edge_events key edges) num_ops 0 ltac:(lia) ltac:(rewrite edge_events_length; lia)) as H.
  rewrite (offs_0 num_ops) in H by apply edge_events_keys. rewrite H. apply (aget_seqZ (offs (edge_events key edges))). lia.
Qed.

Lemma csr_degree k : 0 <= k < num_ops ->
  u32 (aget 0 (csr_offsets key num_ops edges) (k + 1) - aget 0 (csr_offsets key num_ops edges) k) =
  Z.of_nat (length (filter (fun e => key e = k) edges)).
Proof using Hn Hkeys Hlen.
  intros Hk. rewrite !csr_offset_offs, offs_succ by lia. pose proof (cnt_le (edge_events key edges) k) as Hc. rewrite edge_events_length in Hc.
  rewrite Z.add_simpl_l, wrap_small by lia. unfold cnt.
  by rewrite bucket_edges.
Qed.

End Csr.

Definition edges_in (num_ops : Z) (edges : list Edge) : Prop :=
  Forall (fun e => 0 <= e_src e < num_ops /\ 0 <= e_dst e < num_ops) edges.

(** The two adjacency arrays hold the graph.  For each op, the walk over
    the forward edges reads the edges that leave it, the walk over the reverse
    edges reads the edges that enter it, each in the order of the build and
    with nothing else between, and the degrees count them. *)
Theorem build_csr_adjacency edges num_ops i :
  0 <= i < num_ops -> num_ops < 2 ^ 32 -> edges_in num_ops edges -> Z.of_nat (length edges) < 2 ^ 32 ->
  let g := build_csr edges num_ops in
  fwd_walk g i = Ok (filter (fun e => e_src e = i) edges) /\
  rev_walk g i = Ok (filter (fun e => e_dst e = i) edges) /\
  out_degree g i = Ok (Z.of_nat (length (filter (fun e => e_src e = i) edges))) /\
  in_degree g i = Ok (Z.of_nat (length (filter (fun e => e_dst e = i) edges))).
Proof.
  intros Hi Hn He Hl g.
  assert (Hs : Forall (fun e => 0 <= e_src e < num_ops) edges) by (eapply Forall_impl; [exact He|]; cbn; tauto).
  assert (Hd : Forall (fun e => 0 <= e_dst e < num_ops) edges) by (eapply Forall_impl; [exact He|]; cbn; tauto).
  assert (Hc : checked_index_ g i = Ok i).
  { unfold checked_index_, g, build_csr. rewrite (proj2 (Z.eqb_neq num_ops 0)) by lia. cbn [tg_num_ops].
    rewrite (proj2 (Z.ltb_lt 0 num_ops)) by lia. cbn [require rbind]. rewrite wrap_small by lia.
    rewrite (proj2 (Z.leb_le 0 i)), (proj2 (Z.leb_le i (num_ops - 1))) by lia. done. }
  unfold fwd_walk, rev_walk, fwd_begin, fwd_end, rev_begin, rev_end, out_degree, in_degree. rewrite Hc. cbn [rbind].
  unfold g, build_csr. rewrite (proj2 (Z.eqb_neq num_ops 0)) by lia. cbn [fwd_edges fwd_offsets rev_edges rev_offsets].
  split_and!; f_equal; (apply csr_segment || apply csr_degree); (done || lia).
Qed.

Definition wit_edges : list Edge :=
  [mkEdge 0 1 0 0 DATA_FLOW; mkEdge 0 2 0 1 DATA_FLOW; mkEdge 1 2 0 0 DATA_FLOW; mkEdge 0 2 0 0 ALIAS].

Lemma build_csr_adjacency_witness :
  fwd_walk (build_csr wit_edges 3) 0 = Ok [mkEdge 0 1 0 0 DATA_FLOW; mkEdge 0 2 0 1 DATA_FLOW; mkEdge 0 2 0 0 ALIAS] /\
  in_degree (build_csr wit_edges 3) 2 = Ok 3.
Proof.
  assert (He : edges_in 3 wit_edges) by (repeat constructor; vm_compute; intuition discriminate).
  split.
  - refine (proj1 (build_csr_adjacency wit_edges 3 0 _ _ He _)); vm_compute; intuition discriminate.
  - refine (proj2 (proj2 (proj2 (build_csr_adjacency wit_edges 3 2 _ _ He _)))); vm_compute; intuition discriminate.
Defined.
