(* ===== verification/CKernel.v ===== *)
(** * CKernel.v: the registration tables (include/crucible/CKernel.h and
    SchemaTable.h, over RegistrationSeal.h)

    Both tables are a sorted prefix of a fixed array of entries, keyed by the
    schema hash: the kernel ids of CKernelTable, the names of SchemaTable.  A
    table is filled while it is open, then sealed, then read with no lock. *)

From stdpp Require Import base list strings gmap sorting.
From Stdlib Require Import ZArith Lia.
From S2P Require Import Prelude.
From S2P Require Import Types.
#[local] Open Scope Z_scope.

Definition CKERNEL_TABLE_CAP : nat := 256.
Definition SCHEMA_TABLE_CAP : nat := 512.

(** CKernelId::OPAQUE *)
Definition OPAQUE : Z := 0.

(** ** The table

    [entries] is the live prefix of the array: size_ is its length. *)

Section Table.
Context {V : Type}.
Implicit Types entries : list (Z * V).

Definition key_le (e f : Z * V) : Prop := e.1 <= f.1.

#[export] Instance key_le_dec : RelDecision key_le.
Proof. intros e f. unfold key_le. apply _. Defined.

(** The scan for an entry with the hash, and the write of its value. *)
Fixpoint replace_value entries (hash : Z) (v : V) : option (list (Z * V)) :=
  match entries with
  | [] => None
  | e :: entries =>
    if e.1 =? hash then Some ((e.1, v) :: entries) else cons e <$> replace_value entries hash v
  end.

(** write_op_ and write_name_: a new entry goes to the end, and a sort follows. *)
Definition write_entry (cap : nat) entries (hash : Z) (v : V) : result (list (Z * V)) :=
  match replace_value entries hash v with
  | Some entries => Ok entries
  | None =>
    if (cap <=? length entries)%nat then Fatal "the table is full"
    else Ok (merge_sort key_le (entries ++ [(hash, v)]))
  end.

(** The bisection of CKernelTable::classify and classify_static.  The fuel
    bounds the rounds, and the interval is halved in each. *)
Fixpoint bisect (fuel : nat) entries (hash : Z) (lo hi : nat) : option V :=
  match fuel with
  | O => None
  | S fuel =>
    if (hi <=? lo)%nat then None
    else
      let mid := (lo + (hi - lo) / 2)%nat in
      match entries !! mid with
      | None => None
      | Some e =>
        if e.1 =? hash then Some e.2
        else if e.1 <? hash then bisect fuel entries hash (S mid) hi
        else bisect fuel entries hash lo mid
      end
  end.

Definition bisect_all entries (hash : Z) : option V := bisect (S (length entries)) entries hash 0 (length entries).

(** lookup_entry_ of SchemaTable: std::ranges::lower_bound gives the first
    entry that is not below the hash. *)
Definition lower_bound_entry entries (hash : Z) : option V :=
  match List.find (fun e => negb (e.1 <? hash)) entries with
  | Some e => if e.1 =? hash then Some e.2 else None
  | None => None
  end.

End Table.

(** ** The kernel ids *)

Definition classify (entries : list (Z * Z)) (hash : Z) : Z := default OPAQUE (bisect_all entries hash).

(** The published array of an adapter, if one published. *)
Definition classify_static (published : option (list (Z * Z))) (hash : Z) : Z :=
  match published with None => OPAQUE | Some entries => default OPAQUE (bisect_all entries hash) end.

Definition classify_kernel (published : option (list (Z * Z))) (entries : list (Z * Z)) (hash : Z) : Z :=
  let from_static := classify_static published hash in
  if negb (from_static =? OPAQUE) then from_static else classify entries hash.

(** ** The map that a table holds *)

Section TableSpec.
Context {V : Type}.
Implicit Types (entries : list (Z * V)) (m : gmap Z V).

Definition table_sorted entries : Prop := StronglySorted Z.lt entries.*1.

Record table_ok entries m : Prop := {
  to_sorted : table_sorted entries;
  to_map : list_to_map entries = m;
}.

Lemma sorted_nodup entries : table_sorted entries -> NoDup entries.*1.
Proof.
  unfold table_sorted. induction 1 as [|k ks Hs IH Hall]; constructor; [|done].
  intros Hin. rewrite Forall_forall in Hall. specialize (Hall k Hin). lia.
Qed.

Lemma table_lookup entries h v : table_sorted entries -> (h, v) ∈ entries <-> (list_to_map entries : gmap Z V) !! h = Some v.
Proof. intros Hs%sorted_nodup. by apply elem_of_list_to_map. Qed.

Lemma sorted_lookup entries i j e f : table_sorted entries -> entries !! i = Some e -> entries !! j = Some f -> (i < j)%nat -> e.1 < f.1.
Proof.
  intros Hs He Hf Hij. unfold table_sorted in Hs. assert (Hi : entries.*1 !! i = Some e.1) by (by rewrite list_lookup_fmap, He).
  assert (Hj : entries.*1 !! j = Some f.1) by (by rewrite list_lookup_fmap, Hf). clear He Hf. revert i j Hi Hj Hij.
  induction Hs as [|k ks Hs IH Hall]; intros i j Hi Hj Hij; [done|]. destruct j as [|j]; [lia|]. destruct i as [|i]; cbn in Hi, Hj.
  - injection Hi as ->. rewrite Forall_forall in Hall. apply Hall. by eapply list_elem_of_lookup_2.
  - apply (IH i j Hi Hj). lia.
Qed.

(** The bisection keeps the entry of the hash inside its interval. *)
Lemma bisect_spec fuel entries hash lo hi : table_sorted entries ->
  (hi <= length entries)%nat -> (hi - lo < fuel)%nat ->
  (forall i e, entries !! i = Some e -> e.1 = hash -> (lo <= i < hi)%nat) ->
  bisect fuel entries hash lo hi = (list_to_map entries : gmap Z V) !! hash.
Proof.
  intros Hs. revert lo hi. induction fuel as [|fuel IH]; intros lo hi Hhi Hf Hin; [lia|]. cbn [bisect].
  destruct (Nat.leb_spec hi lo) as [Hle|Hlt].
  { symmetry. destruct (_ !! hash) as [v|] eqn:E; [|done]. apply table_lookup in E; [|done].
    apply list_elem_of_lookup in E as [i Hi]. specialize (Hin i _ Hi eq_refl). lia. }
  cbv zeta. set (mid := (lo + (hi - lo) / 2)%nat).
  assert (Hmid : (lo <= mid < hi)%nat).
  { pose proof (Nat.div_lt (hi - lo) 2). unfold mid. lia. }
  destruct (lookup_lt_is_Some_2 entries mid) as [e He]; [lia|]. rewrite He. destruct (Z.eqb_spec e.1 hash) as [<-|Hne].
  { symmetry. apply table_lookup; [done|]. rewrite <- surjective_pairing. by eapply list_elem_of_lookup_2. }
  destruct (Z.ltb_spec e.1 hash).
  - apply IH; [lia..|]. intros i f Hf' <-. specialize (Hin i f Hf' eq_refl). split; [|lia].
    destruct (Nat.le_gt_cases (S mid) i); [done|]. destruct (decide (i = mid)) as [->|]; [congruence|].
    pose proof (sorted_lookup _ i mid _ _ Hs Hf' He). lia.
  - apply IH; [lia..|]. intros i f Hf' <-. specialize (Hin i f Hf' eq_refl). split; [lia|].
    destruct (Nat.le_gt_cases mid i); [|done]. destruct (decide (i = mid)) as [->|]; [congruence|].
    pose proof (sorted_lookup _ mid i _ _ Hs He Hf'). lia.
Qed.

Lemma bisect_all_spec entries m hash : table_ok entries m -> bisect_all entries hash = m !! hash.
Proof.
  intros [Hs <-]. apply bisect_spec; [done|lia..|]. intros i e He%lookup_lt_Some _. lia.
Qed.

Lemma lower_bound_spec entries m hash : table_ok entries m -> lower_bound_entry entries hash = m !! hash.
Proof.
  intros [Hs <-]. unfold lower_bound_entry, table_sorted in *. induction entries as [|[k v] entries IH]; [done|].
  cbn [fmap list_fmap fst] in Hs. apply StronglySorted_inv in Hs as [Hs Hall]. cbn [List.find fst list_to_map foldr].
  change (list_to_map ((k, v) :: entries)) with (<[k := v]> (list_to_map entries : gmap Z V)).
  destruct (Z.ltb_spec k hash) as [Hlt|Hge]; cbn [negb].
  - rewrite lookup_insert_ne by lia. by apply IH.
  - cbn. destruct (Z.eqb_spec k hash) as [->|Hne]; [by rewrite lookup_insert_eq|]. rewrite lookup_insert_ne by done.
    symmetry. apply not_elem_of_list_to_map. intros Hin. rewrite Forall_forall in Hall. specialize (Hall hash Hin). lia.
Qed.

Lemma replace_value_spec entries hash v :
  match replace_value entries hash v with
  | Some entries' => entries'.*1 = entries.*1 /\ (list_to_map entries' : gmap Z V) = <[hash := v]> (list_to_map entries) /\ hash ∈ entries.*1
  | None => hash ∉ entries.*1
  end.
Proof.
  induction entries as [|[k w] entries IH]; [apply not_elem_of_nil|]. cbn [replace_value fst].
  destruct (Z.eqb_spec k hash) as [->|Hne].
  - cbn. split_and!; [done|by rewrite insert_insert_eq|left].
  - destruct (replace_value entries hash v) as [entries'|]; cbn in *.
    + destruct IH as (-> & -> & Hin). split_and!; [done|by apply insert_insert_ne|by right].
    + by rewrite not_elem_of_cons.
Qed.

Lemma merge_sorted_keys entries : NoDup entries.*1 -> table_sorted (merge_sort key_le entries).
Proof.
  intros Hnd. unfold table_sorted. assert (Htot : Total (key_le (V := V))) by (intros e f; unfold key_le; lia).
  assert (Htr : Transitive (key_le (V := V))) by (intros e f g; unfold key_le; lia).
  assert (Hs : StronglySorted key_le (merge_sort key_le entries)) by (by apply (StronglySorted_merge_sort key_le)).
  assert (Hp : Permutation (merge_sort key_le entries).*1 entries.*1) by (by rewrite (merge_sort_Permutation key_le entries)).
  rewrite <- Hp in Hnd. clear Hp. induction Hs as [|e es Hs IH Hall]; [constructor|]. cbn in *. apply NoDup_cons in Hnd as [Hni Hnd].
  constructor; [by apply IH|]. apply Forall_fmap. rewrite Forall_forall in Hall |- *. intros f Hf. specialize (Hall f Hf). unfold key_le in Hall. cbn.
  assert (e.1 <> f.1); [|lia]. intros E. apply Hni. rewrite E. by apply list_elem_of_fmap_2.
Qed.

(** A write puts the pair into the map, and a full table refuses only a new
    hash. *)
Lemma write_entry_ok cap entries m hash v : table_ok entries m -> (length entries <= cap)%nat ->
  (exists entries', write_entry cap entries hash v = Ok entries' /\ table_ok entries' (<[hash := v]> m) /\ (length entries' <= cap)%nat) \/
  (exists why, write_entry cap entries hash v = Fatal why /\ size m = cap /\ m !! hash = None).
Proof.
  intros [Hs Hm] Hcap. unfold write_entry. pose proof (replace_value_spec entries hash v) as H.
  destruct (replace_value entries hash v) as [entries'|].
  - left. destruct H as (Hk & He & _). exists entries'. split; [done|]. split; [split|].
    + unfold table_sorted. by rewrite Hk.
    + by rewrite He, Hm.
    + apply (f_equal length) in Hk. rewrite !length_fmap in Hk. lia.
  - assert (Hnd : NoDup (entries ++ [(hash, v)]).*1).
    { rewrite fmap_app. apply NoDup_app. split_and!; [by apply sorted_nodup| |apply NoDup_singleton]. intros k Hk Hk'. apply list_elem_of_singleton in Hk' as ->. done. }
    destruct (Nat.leb_spec cap (length entries)) as [Hle|Hlt].
    + right. eexists. split; [done|]. subst m. split; [|by apply not_elem_of_list_to_map].
      rewrite map_size_list_to_map by (by apply sorted_nodup). lia.
    + left. eexists. split; [done|]. split; [split|].
      * by apply merge_sorted_keys.
      * subst m. rewrite <- (list_to_map_proper (entries ++ [(hash, v)]) (merge_sort key_le (entries ++ [(hash, v)]))); [|done|by rewrite merge_sort_Permutation].
        rewrite list_to_map_app. cbn. rewrite <- insert_union_r by (by apply not_elem_of_list_to_map). by rewrite map_union_empty.
      * rewrite (Permutation_length (merge_sort_Permutation _ _)), length_app. cbn. lia.
Qed.

End TableSpec.
