(* ===== verification/PtrMap.v ===== *)
(** * PtrMap.v: the map from storage addresses to their last writers
    (the PtrSlot table of include/crucible/BackgroundThread.h)

    An open-addressing table with linear probing.  A slot whose generation is
    not the current one is empty, so a new generation clears the table. *)

From stdpp Require Import base list strings gmap.
From Stdlib Require Import ZArith Lia.
From S2P Require Import Prelude.
From S2P Require Import Types.
From S2P Require Import Hash.
#[local] Open Scope Z_scope.

Record PtrSlot := mkPtrSlot { ps_key : Z; ps_op : Z; ps_slot : Z; ps_port : Z; ps_gen : Z }.

Definition zero_ptr_slot : PtrSlot := mkPtrSlot 0 none32 none32 0 0.

Record InsertResult := mkInsert {
  ir_slot : option Z;     (* the index of the slot, none when the table is full *)
  was_alias : bool;
  old_op : Z;
  old_port : Z;
  old_slot : Z;
}.

Record PtrLookup := mkLookup { lk_op : Z; lk_slot : Z; lk_port : Z }.

Definition hash_ptr (ptr : Z) : Z := u32 (Z.shiftr (u64 (ptr * GOLDEN)) 32).

Definition bucket_index (mask key probe : Z) : Z := Z.land (u32 (Z.land (hash_ptr key) mask + probe)) mask.

(** The slot that a probe reads. *)
Definition ptr_slot_at (map : list PtrSlot) (i : Z) : PtrSlot := aget zero_ptr_slot map i.

(** The loop [for (probe = 0; probe <= mask; probe++)]: [n] probes are left. *)
Fixpoint insert_probe (n : nat) (map : list PtrSlot) (gen mask key op port slot probe : Z) : list PtrSlot * InsertResult :=
  match n with
  | O => (map, mkInsert None false none32 0 none32)
  | S n =>
    let idx := bucket_index mask key probe in
    let s := ptr_slot_at map idx in
    if negb (ps_gen s =? gen) then
      (aset map idx (mkPtrSlot key op slot port gen), mkInsert (Some idx) false none32 0 none32)
    else if ps_key s =? key then
      (aset map idx (mkPtrSlot (ps_key s) op (ps_slot s) port (ps_gen s)),
       mkInsert (Some idx) (negb (ps_op s =? op)) (ps_op s) (ps_port s) (ps_slot s))
    else insert_probe n map gen mask key op port slot (probe + 1)
  end.

Definition ptr_map_insert (map : list PtrSlot) (gen mask key op port slot : Z) : list PtrSlot * InsertResult :=
  insert_probe (Z.to_nat (mask + 1)) map gen mask key op port slot 0.

Definition lookup_miss : PtrLookup := mkLookup none32 none32 0.

Fixpoint lookup_probe (n : nat) (map : list PtrSlot) (gen mask key probe : Z) : PtrLookup :=
  match n with
  | O => lookup_miss
  | S n =>
    let s := ptr_slot_at map (bucket_index mask key probe) in
    if (ps_gen s =? gen) && (ps_key s =? key) then mkLookup (ps_op s) (ps_slot s) (ps_port s)
    else if negb (ps_gen s =? gen) then lookup_miss
    else lookup_probe n map gen mask key (probe + 1)
  end.

Definition ptr_map_lookup (map : list PtrSlot) (gen mask key : Z) : PtrLookup :=
  if key =? 0 then lookup_miss else lookup_probe (Z.to_nat (mask + 1)) map gen mask key 0.

(** [if (result.slot) result.slot->slot_id = new_slot] *)
Definition set_slot_id (map : list PtrSlot) (where_ : option Z) (slot : Z) : list PtrSlot :=
  match where_ with
  | None => map
  | Some idx => let s := ptr_slot_at map idx in aset map idx (mkPtrSlot (ps_key s) (ps_op s) slot (ps_port s) (ps_gen s))
  end.

(** ** The finite map that the table holds *)

(** What the map stores under an address. *)
Record pentry := mkPentry { pe_op : Z; pe_port : Z; pe_slot : Z }.

Definition entry_of (s : PtrSlot) : pentry := mkPentry (ps_op s) (ps_port s) (ps_slot s).

Section PtrMap.
Context (gen k : Z).
Hypothesis Hk : 0 <= k <= 30.
Implicit Types (map : list PtrSlot) (m : gmap Z pentry).

Let mask := 2 ^ k - 1.
Let cap := 2 ^ k.

Definition is_live map (i : Z) : Prop := ps_gen (ptr_slot_at map i) = gen.

#[local] Instance is_live_dec map i : Decision (is_live map i).
Proof using Type. unfold is_live. apply _. Defined.

(** The first probe of a key that meets an empty slot or the key. *)
Definition stops map (key probe : Z) : Prop :=
  ~ is_live map (bucket_index mask key probe) \/ ps_key (ptr_slot_at map (bucket_index mask key probe)) = key.

Definition first_stop map (key probe : Z) : Prop :=
  0 <= probe < cap /\ stops map key probe /\ forall q, 0 <= q < probe -> ~ stops map key q.

(** Each live slot is where the probes of its own key stop. *)
Record ptr_ok map m : Prop := {
  po_len : Z.of_nat (length map) = cap;
  po_reach i : 0 <= i < cap -> is_live map i -> exists p, first_stop map (ps_key (ptr_slot_at map i)) p /\ bucket_index mask (ps_key (ptr_slot_at map i)) p = i;
  po_map key e : m !! key = Some e <-> exists i, 0 <= i < cap /\ is_live map i /\ ps_key (ptr_slot_at map i) = key /\ entry_of (ptr_slot_at map i) = e;
}.

Lemma cap_bounds : 1 <= cap <= 2 ^ 30.
Proof using Hk. unfold cap. split; [apply Z.lt_pred_le, Z.pow_pos_nonneg; lia|]. apply Z.pow_le_mono_r; lia. Qed.

Lemma bucket_mod key p : 0 <= p < cap -> bucket_index mask key p = (hash_ptr key + p) mod cap.
Proof using Hk.
  intros Hp. pose proof cap_bounds. unfold bucket_index, mask. rewrite !land_mask_mod by lia. fold cap.
  pose proof (Z.mod_pos_bound (hash_ptr key) cap ltac:(lia)). rewrite wrap_small by lia. by rewrite Zplus_mod_idemp_l.
Qed.

Lemma bucket_range key p : 0 <= bucket_index mask key p < cap.
Proof using Hk. pose proof cap_bounds. unfold bucket_index, mask. rewrite land_mask_mod by lia. apply Z.mod_pos_bound. fold cap. lia. Qed.

Lemma bucket_inj key p q : 0 <= p < cap -> 0 <= q < cap -> bucket_index mask key p = bucket_index mask key q -> p = q.
Proof using Hk.
  intros Hp Hq. rewrite !bucket_mod by done. pose proof cap_bounds. intros E.
  assert (E2 : (p - q) mod cap = 0).
  { replace (p - q) with (hash_ptr key + p - (hash_ptr key + q)) by lia. by rewrite Zminus_mod, E, Z.sub_diag, Zmod_0_l. }
  apply Z.mod_divide in E2 as [z Hz]; [|lia]. assert (Hb : - cap < z * cap < cap) by lia. clearbody cap. assert (z = 0) as -> by nia. lia.
Qed.

Lemma bucket_surj key i : 0 <= i < cap -> exists p, 0 <= p < cap /\ bucket_index mask key p = i.
Proof using Hk.
  intros Hi. pose proof cap_bounds. exists ((i - hash_ptr key) mod cap). pose proof (Z.mod_pos_bound (i - hash_ptr key) cap ltac:(lia)).
  split; [lia|]. rewrite bucket_mod by lia. rewrite Zplus_mod_idemp_r. replace (hash_ptr key + (i - hash_ptr key)) with i by lia. by apply Z.mod_small.
Qed.

#[local] Instance stops_dec map key p : Decision (stops map key p).
Proof using Type. unfold stops. apply _. Defined.

(** Either some probe stops, and there is a first one, or every slot is live. *)
Lemma first_stop_or map key : (exists p, first_stop map key p) \/ forall q, 0 <= q < cap -> ~ stops map key q.
Proof using Hk.
  assert (H : forall n, 0 <= n -> n <= cap -> (exists p, p < n /\ first_stop map key p) \/ forall q, 0 <= q < n -> ~ stops map key q).
  { apply (natlike_ind (fun n => n <= cap -> _)); [right; lia|]. intros n Hn IH Hle. destruct IH as [(p & ? & ?)|IH]; [lia|left; exists p; split; [lia|done]|].
    destruct (decide (stops map key n)) as [Hs|Hs].
    - left. exists n. split; [lia|]. split; [lia|]. by split.
    - right. intros q Hq. destruct (decide (q = n)) as [->|]; [done|]. apply IH. lia. }
  destruct (H cap) as [(p & _ & Hp)|]; [pose proof cap_bounds; lia|lia|left; by exists p|by right].
Qed.

Lemma first_stop_unique map key p q : first_stop map key p -> first_stop map key q -> p = q.
Proof using Type.
  intros (Hp & Sp & Np) (Hq & Sq & Nq). destruct (Z.lt_total p q) as [?|[?|?]]; [|done|]; exfalso; [apply (Nq p)|apply (Np q)]; (lia || done).
Qed.

(** ** The two loops at the first stop *)

Lemma insert_probe_stop map key op port slot p n probe :
  first_stop map key p -> 0 <= probe <= p -> (Z.to_nat (p - probe) < n)%nat ->
  insert_probe n map gen mask key op port slot probe = insert_probe 1 map gen mask key op port slot p.
Proof using Hk.
  intros Hf. revert probe. induction n as [|n IH]; intros probe Hp Hn; [lia|]. destruct (Z.eq_dec probe p) as [->|Hne].
  - destruct Hf as (_ & Hs & _). cbn [insert_probe]. destruct (Z.eqb_spec (ps_gen (ptr_slot_at map (bucket_index mask key p))) gen) as [Hg|]; [|done].
    cbn [negb]. destruct Hs as [Hs|Hs]; [by destruct Hs|]. by rewrite (proj2 (Z.eqb_eq _ _) Hs).
  - cbn [insert_probe]. destruct Hf as (Hr & Hs & Hno). assert (Hns : ~ stops map key probe) by (apply Hno; lia). unfold stops in Hns.
    apply Decidable.not_or in Hns as [H1 H2]. destruct (decide (is_live map (bucket_index mask key probe))) as [Hl|]; [|done].
    unfold is_live in Hl. rewrite (proj2 (Z.eqb_eq _ _) Hl), (proj2 (Z.eqb_neq _ _) H2). cbn [negb]. apply IH; lia.
Qed.

Lemma lookup_probe_stop map key p n probe :
  first_stop map key p -> 0 <= probe <= p -> (Z.to_nat (p - probe) < n)%nat ->
  lookup_probe n map gen mask key probe = lookup_probe 1 map gen mask key p.
Proof using Hk.
  intros Hf. revert probe. induction n as [|n IH]; intros probe Hp Hn; [lia|]. destruct (Z.eq_dec probe p) as [->|Hne].
  - destruct Hf as (_ & Hs & _). cbn [lookup_probe]. destruct (Z.eqb_spec (ps_gen (ptr_slot_at map (bucket_index mask key p))) gen) as [Hg|]; [|done].
    cbn [negb andb]. destruct Hs as [Hs|Hs]; [by destruct Hs|]. by rewrite (proj2 (Z.eqb_eq _ _) Hs).
  - cbn [lookup_probe]. destruct Hf as (Hr & Hs & Hno). assert (Hns : ~ stops map key probe) by (apply Hno; lia). unfold stops in Hns.
    apply Decidable.not_or in Hns as [H1 H2]. destruct (decide (is_live map (bucket_index mask key probe))) as [Hl|]; [|done].
    unfold is_live in Hl. rewrite (proj2 (Z.eqb_eq _ _) Hl), (proj2 (Z.eqb_neq _ _) H2). cbn [negb andb]. apply IH; lia.
Qed.

Lemma lookup_probe_none map key n probe : (forall q, 0 <= q < cap -> ~ stops map key q) -> 0 <= probe -> probe + Z.of_nat n <= cap ->
  lookup_probe n map gen mask key probe = lookup_miss.
Proof using Hk.
  intros Hno. revert probe. induction n as [|n IH]; intros probe Hp Hle; [done|]. cbn [lookup_probe].
  assert (Hns : ~ stops map key probe) by (apply Hno; lia). unfold stops in Hns. apply Decidable.not_or in Hns as [H1 H2].
  destruct (decide (is_live map (bucket_index mask key probe))) as [Hl|]; [|done].
  unfold is_live in Hl. rewrite (proj2 (Z.eqb_eq _ _) Hl), (proj2 (Z.eqb_neq _ _) H2). cbn [negb andb]. apply IH; lia.
Qed.

(** A first stop at a live slot is the entry; at an empty slot there is none. *)
Lemma first_stop_map map m key p : ptr_ok map m -> first_stop map key p ->
  (is_live map (bucket_index mask key p) /\ ps_key (ptr_slot_at map (bucket_index mask key p)) = key /\ m !! key = Some (entry_of (ptr_slot_at map (bucket_index mask key p)))) \/
  (~ is_live map (bucket_index mask key p) /\ m !! key = None).
Proof using Hk.
  intros Hok Hf. destruct (decide (is_live map (bucket_index mask key p))) as [Hl|Hl].
  - left. destruct Hf as (_ & [Hs|Hs] & _); [done|]. split; [done|]. split; [done|]. apply (po_map _ _ Hok). exists (bucket_index mask key p).
    split; [apply bucket_range|done].
  - right. split; [done|]. destruct (m !! key) as [e|] eqn:E; [|done]. exfalso.
    apply (po_map _ _ Hok) in E as (i & Hi & Hli & <- & _). destruct (po_reach _ _ Hok i Hi Hli) as (q & Hq & Eq).
    assert (q = p) as -> by (by eapply first_stop_unique). by rewrite Eq in Hl.
Qed.

Lemma no_stop_map map m key : ptr_ok map m -> (forall q, 0 <= q < cap -> ~ stops map key q) -> m !! key = None.
Proof using Hk.
  intros Hok Hno. destruct (m !! key) as [e|] eqn:E; [|done]. exfalso.
  apply (po_map _ _ Hok) in E as (i & Hi & Hli & <- & _). destruct (po_reach _ _ Hok i Hi Hli) as (q & (Hq & Hs & _) & _).
  by apply (Hno q).
Qed.

Lemma ptr_map_lookup_spec map m key : ptr_ok map m -> key <> 0 ->
  ptr_map_lookup map gen mask key = match m !! key with Some e => mkLookup (pe_op e) (pe_slot e) (pe_port e) | None => lookup_miss end.
Proof using Hk.
  intros Hok Hkey. unfold ptr_map_lookup. rewrite (proj2 (Z.eqb_neq _ _) Hkey). pose proof cap_bounds.
  replace (mask + 1) with cap by (unfold mask, cap; lia). destruct (first_stop_or map key) as [[p Hf]|Hno].
  - rewrite (lookup_probe_stop map key p) by (try done; destruct Hf as (? & _); lia). cbn [lookup_probe].
    destruct (first_stop_map map m key p Hok Hf) as [(Hl & Hke & ->)|(Hl & ->)]; unfold is_live in Hl.
    + rewrite (proj2 (Z.eqb_eq _ _) Hl), (proj2 (Z.eqb_eq _ _) Hke). done.
    + by rewrite (proj2 (Z.eqb_neq _ _) Hl).
  - rewrite lookup_probe_none by (try done; lia). by rewrite (no_stop_map map m key).
Qed.

(** ** Writes *)

Lemma ptr_slot_set map i j s : Z.of_nat (length map) = cap -> 0 <= i < cap -> 0 <= j ->
  ptr_slot_at (aset map i s) j = if decide (i = j) then s else ptr_slot_at map j.
Proof using Hk. intros Hl Hi Hj. unfold ptr_slot_at. apply aget_aset; lia. Qed.

(** A write that keeps the key and the generation of a live slot. *)
Lemma ptr_ok_overwrite map m i s : ptr_ok map m -> 0 <= i < cap -> is_live map i ->
  ps_key s = ps_key (ptr_slot_at map i) -> ps_gen s = gen ->
  ptr_ok (aset map i s) (<[ps_key s := entry_of s]> m) /\ is_live (aset map i s) i.
Proof using Hk.
  intros [Hl Hr Hm] Hi Hli Hks Hg.
  assert (Hat : forall j, 0 <= j -> ptr_slot_at (aset map i s) j = if decide (i = j) then s else ptr_slot_at map j) by (intros; by apply ptr_slot_set).
  assert (Hsame : forall j, 0 <= j -> (is_live (aset map i s) j <-> is_live map j) /\ ps_key (ptr_slot_at (aset map i s) j) = ps_key (ptr_slot_at map j)).
  { intros j Hj. unfold is_live. rewrite Hat by done. destruct (decide (i = j)) as [<-|]; [|done]. unfold is_live in Hli. by rewrite Hg, Hli, Hks. }
  assert (Hst : forall key q, stops (aset map i s) key q <-> stops map key q).
  { intros key q. unfold stops. destruct (Hsame (bucket_index mask key q)) as [H1 H2]; [apply bucket_range|]. by rewrite H1, H2. }
  split; [split|].
  - by rewrite length_aset.
  - intros j Hj Hlj. destruct (Hsame j) as [H1 H2]; [lia|]. rewrite H2. destruct (Hr j Hj) as (p & (Hp & Hs & Hno) & E); [by apply H1|].
    exists p. split; [|done]. split_and!; [lia..|by apply Hst|]. intros q Hq. rewrite Hst. by apply Hno.
  - intros key e. destruct (decide (ps_key s = key)) as [<-|Hne].
    + rewrite lookup_insert_eq. split.
      * intros [= <-]. exists i. rewrite Hat, decide_True by (lia || done). split_and!; [lia..| |done|done]. by apply Hsame; [lia|].
      * intros (j & Hj & Hlj & Hkj & <-). destruct (decide (i = j)) as [<-|Hij]; [by rewrite Hat, decide_True by (lia || done)|]. exfalso.
        destruct (Hsame j) as [H1 H2]; [lia|]. rewrite H2 in Hkj. apply H1 in Hlj. destruct (Hr j Hj Hlj) as (p & Hp & E). destruct (Hr i Hi Hli) as (q & Hq & E').
        rewrite Hkj in Hp, E. rewrite <- Hks in Hq, E'. assert (p = q) as -> by (by eapply first_stop_unique). congruence.
    + rewrite lookup_insert_ne by done. rewrite Hm. split; intros (j & Hj & Hlj & Hkj & He); exists j; destruct (Hsame j) as [H1 H2]; try lia.
      * assert (i <> j) by congruence. rewrite Hat, decide_False by (lia || done). split_and!; [lia..| |done|done]. by apply H1.
      * assert (i <> j) by (intros <-; rewrite H2 in Hkj; congruence). rewrite Hat, decide_False in Hkj, He by (lia || done). split_and!; [lia..| |done|done]. by apply H1.
  - by apply Hsame; [lia|].
Qed.

(** A write to the empty slot where the probes of its key stop. *)
Lemma ptr_ok_claim map m s p : ptr_ok map m -> first_stop map (ps_key s) p -> ~ is_live map (bucket_index mask (ps_key s) p) -> ps_gen s = gen ->
  let i := bucket_index mask (ps_key s) p in
  ptr_ok (aset map i s) (<[ps_key s := entry_of s]> m) /\ is_live (aset map i s) i.
Proof using Hk.
  intros Hok Hf Hdead Hg i. pose proof Hok as [Hl Hr Hm]. pose proof (bucket_range (ps_key s) p) as Hi. fold i in Hi, Hdead.
  assert (Hat : forall j, 0 <= j -> ptr_slot_at (aset map i s) j = if decide (i = j) then s else ptr_slot_at map j) by (intros; by apply ptr_slot_set).
  assert (Hne : forall j, 0 <= j -> i <> j -> (is_live (aset map i s) j <-> is_live map j) /\ ptr_slot_at (aset map i s) j = ptr_slot_at map j).
  { intros j Hj Hij. unfold is_live. by rewrite Hat, decide_False by done. }
  assert (Hlive : is_live (aset map i s) i) by (unfold is_live; by rewrite Hat, decide_True by (lia || done)).
  assert (Hnone : m !! ps_key s = None) by (by destruct (first_stop_map map m _ p Hok Hf) as [(? & _)|[_ ?]]).
  assert (Hno : forall key q, ~ stops map key q -> ps_key s <> key \/ bucket_index mask key q <> i -> ~ stops (aset map i s) key q).
  { intros key q Hns Hor Hs. apply Hns. pose proof (bucket_range key q) as Hb. destruct (decide (i = bucket_index mask key q)) as [E|Hij].
    - left. by rewrite <- E.
    - destruct (Hne _ (proj1 Hb) Hij) as [H1 H2]. unfold stops in *. by rewrite <- H1, <- H2. }
  split; [split|done].
  - by rewrite length_aset.
  - intros j Hj Hlj. destruct (decide (i = j)) as [<-|Hij].
    + rewrite Hat, decide_True by (lia || done). destruct Hf as (Hp & Hs & Hb). exists p. split; [|done]. split_and!; [lia..| |].
      * right. fold i. by rewrite Hat, decide_True by (lia || done).
      * intros q Hq. apply Hno; [by apply Hb|]. right. intros E%bucket_inj; lia.
    + destruct (Hne j) as [H1 H2]; [lia|done|]. rewrite H2. destruct (Hr j Hj) as (q & (Hq & Hs & Hb) & E); [by apply H1|].
      exists q. split; [|done]. split_and!; [lia..| |].
      * right. by rewrite E, H2.
      * intros q' Hq'. apply Hno; [by apply Hb|]. right. intros E'. apply (Hb q' Hq'). left. by rewrite E'.
  - intros key e. destruct (decide (ps_key s = key)) as [<-|Hk'].
    + rewrite lookup_insert_eq. split.
      * intros [= <-]. exists i. rewrite Hat, decide_True by (lia || done). by split_and!; [lia..| | |].
      * intros (j & Hj & Hlj & Hkj & <-). destruct (decide (i = j)) as [<-|Hij]; [by rewrite Hat, decide_True by (lia || done)|]. exfalso.
        destruct (Hne j) as [H1 H2]; [lia|done|]. rewrite H2 in Hkj. assert (m !! ps_key s = Some (entry_of (ptr_slot_at map j))); [|congruence].
        apply Hm. exists j. split_and!; [lia..|by apply H1|done|done].
    + rewrite lookup_insert_ne by done. rewrite Hm. split; intros (j & Hj & Hlj & Hkj & He); exists j.
      * assert (i <> j) as Hij by (by intros <-). destruct (Hne j) as [H1 H2]; [lia|done|]. rewrite H2. split_and!; [lia..|by apply H1|done|done].
      * assert (i <> j) as Hij by (intros <-; rewrite Hat, decide_True in Hkj by (lia || done); congruence).
        destruct (Hne j) as [H1 H2]; [lia|done|]. rewrite H2 in Hkj, He. split_and!; [lia..|by apply H1|done|done].
Qed.

(** A table with no empty slot holds one key for each slot. *)
Lemma no_stop_full map m key : ptr_ok map m -> (forall q, 0 <= q < cap -> ~ stops map key q) -> (Z.to_nat cap <= size m)%nat.
Proof using Hk.
  intros Hok Hno. pose proof Hok as [Hl Hr Hm].
  assert (Hlive : forall i, 0 <= i < cap -> is_live map i).
  { intros i Hi. destruct (bucket_surj key i Hi) as (p & Hp & E). destruct (decide (is_live map i)) as [|Hd]; [done|].
    exfalso. apply (Hno p Hp). left. by rewrite E. }
  set (keys := (fun i => ps_key (ptr_slot_at map i)) <$> seqZ 0 cap).
  assert (Hnd : NoDup keys).
  { apply NoDup_fmap_2_strong; [|apply NoDup_seqZ]. intros i j Hi%elem_of_seqZ Hj%elem_of_seqZ E.
    destruct (Hr i) as (p & Hp & Ep); [lia|apply Hlive; lia|]. destruct (Hr j) as (q & Hq & Eq); [lia|apply Hlive; lia|].
    cbn beta in E. rewrite E in Hp, Ep. assert (p = q) as -> by (by eapply first_stop_unique). congruence. }
  assert (Hsub : list_to_set keys ⊆ dom m).
  { intros x Hx. apply elem_of_list_to_set in Hx. unfold keys in Hx. apply list_elem_of_fmap in Hx as (i & -> & Hi%elem_of_seqZ). apply elem_of_dom. eexists. apply Hm.
    exists i. split_and!; [lia..|apply Hlive; lia|done|done]. }
  apply subseteq_size in Hsub. rewrite size_list_to_set in Hsub by done. rewrite size_dom in Hsub.
  unfold keys in Hsub. rewrite length_fmap, length_seqZ in Hsub. done.
Qed.

(** The insert is the insert of the finite map; a known address keeps its slot
    and gives the entry that it replaces. *)
Lemma ptr_map_insert_spec map m key op port slot : ptr_ok map m -> (size m < Z.to_nat cap)%nat \/ is_Some (m !! key) ->
  exists map' r idx, ptr_map_insert map gen mask key op port slot = (map', r) /\
    0 <= idx < cap /\ ir_slot r = Some idx /\ is_live map' idx /\ ps_key (ptr_slot_at map' idx) = key /\
    match m !! key with
    | None => was_alias r = false /\ ptr_ok map' (<[key := mkPentry op port slot]> m)
    | Some e => was_alias r = negb (pe_op e =? op) /\ old_op r = pe_op e /\ old_port r = pe_port e /\ old_slot r = pe_slot e /\
        ptr_ok map' (<[key := mkPentry op port (pe_slot e)]> m)
    end.
Proof using Hk.
  intros Hok Hroom. pose proof cap_bounds. destruct (first_stop_or map key) as [[p Hf]|Hno].
  2: { exfalso. pose proof (no_stop_map map m key Hok Hno) as E. rewrite E in Hroom. pose proof (no_stop_full map m key Hok Hno).
       destruct Hroom as [|[? ?]]; [lia|done]. }
  unfold ptr_map_insert. replace (mask + 1) with cap by (unfold mask, cap; lia).
  rewrite (insert_probe_stop map key op port slot p) by (try done; destruct Hf as (? & _); lia). cbn [insert_probe].
  pose proof (bucket_range key p) as Hi. set (i := bucket_index mask key p) in *. pose proof (po_len _ _ Hok) as Hl.
  destruct (first_stop_map map m key p Hok Hf) as [(Hli & Hke & E)|(Hli & E)]; fold i in Hli; rewrite E; pose proof Hli as Hgen; unfold is_live in Hgen.
  - fold i in Hke. rewrite (proj2 (Z.eqb_eq _ _) Hgen), (proj2 (Z.eqb_eq _ _) Hke). cbn [negb].
    set (s := mkPtrSlot _ op _ port _). destruct (ptr_ok_overwrite map m i s Hok Hi Hli eq_refl Hgen) as [Hok' Hl'].
    eexists _, _, i. split; [done|]. split_and!; try done; try lia.
    + by rewrite ptr_slot_set, decide_True by (done || lia).
    + assert (ps_key s = key) as Hks by done. rewrite Hks in Hok'. done.
  - rewrite (proj2 (Z.eqb_neq _ _) Hgen). cbn [negb].
    destruct (ptr_ok_claim map m (mkPtrSlot key op slot port gen) p Hok Hf Hli eq_refl) as [Hok' Hl'].
    eexists _, _, i. split; [done|]. split_and!; try done; try lia.
    by rewrite ptr_slot_set, decide_True by (done || lia).
Qed.

Lemma set_slot_id_spec map m idx key e slot : ptr_ok map m -> 0 <= idx < cap -> is_live map idx -> ps_key (ptr_slot_at map idx) = key ->
  m !! key = Some e -> ptr_ok (set_slot_id map (Some idx) slot) (<[key := mkPentry (pe_op e) (pe_port e) slot]> m).
Proof using Hk.
  intros Hok Hi Hl Hke He. unfold set_slot_id. cbv zeta.
  assert (Hent : entry_of (ptr_slot_at map idx) = e).
  { assert (m !! key = Some (entry_of (ptr_slot_at map idx))) by (apply (po_map _ _ Hok); by exists idx). congruence. }
  destruct (ptr_ok_overwrite map m idx (mkPtrSlot (ps_key (ptr_slot_at map idx)) (ps_op (ptr_slot_at map idx)) slot (ps_port (ptr_slot_at map idx)) (ps_gen (ptr_slot_at map idx))) Hok Hi Hl) as [Hok' _]; [done|exact Hl|].
  cbn [ps_key] in Hok'. rewrite Hke in Hok' at 2. unfold entry_of in Hok'. cbn in Hok'. subst e. exact Hok'.
Qed.

(** With no live slot the map is empty. *)
Lemma ptr_ok_empty map : Z.of_nat (length map) = cap -> Forall (fun s => ps_gen s <> gen) map -> ptr_ok map ∅.
Proof using Hk.
  intros Hl Hall. assert (Hd : forall i, 0 <= i < cap -> ~ is_live map i).
  { intros i Hi. unfold is_live, ptr_slot_at, aget. destruct (lookup_lt_is_Some_2 map (Z.to_nat i)) as [s Hs]; [lia|]. rewrite Hs. cbn.
    rewrite Forall_forall in Hall. apply Hall. by eapply list_elem_of_lookup_2. }
  split; [done| |].
  - intros i Hi Hli. by destruct (Hd i Hi).
  - intros key e. rewrite lookup_empty. split; [done|]. intros (i & Hi & Hli & _). by destruct (Hd i Hi).
Qed.

End PtrMap.
