(* ===== verification/BuildTrace.v ===== *)
(** * BuildTrace.v: from recorded ops to a region
    (build_trace_from and ensure_scratch_buffers of src/BackgroundThread.cpp)

    The build reads the ops of one iteration with the metadata of their
    tensors, finds for each input the op that wrote its storage, gives each
    storage a slot with a lifetime, and makes the graph of the data flow. *)

From stdpp Require Import base list strings gmap.
From Stdlib Require Import ZArith Lia.
From S2P Require Import Prelude.
From S2P Require Import Types.
From S2P Require Import Hash.
From S2P Require Import ContentHash.
From S2P Require Import MetaLog.
From S2P Require Import TraceRing.
From S2P Require Import StorageNbytes.
From S2P Require Import TraceGraph.
From S2P Require Import CKernel.
From S2P Require Import PtrMap.
#[local] Open Scope Z_scope.
#[local] Open Scope result_scope.

(** ** Scratch *)

Definition MIN_PTR_MAP_CAP : Z := 4096.
Definition MIN_SCRATCH_SLOT_CAP : Z := 8192.
Definition MIN_SCRATCH_EDGE_CAP : Z := 16384.
Definition MAX_PTR_MAP_CAP : Z := Z.shiftl 1 30.

Record SlotInfo := mkInfo {
  si_nbytes : Z;
  si_birth : Z;
  si_death : Z;
  si_dtype : ScalarType;
  si_device_type : DeviceType;
  si_device_idx : Z;
  si_layout : Layout;
  si_external : bool;
}.

Definition zero_info : SlotInfo := mkInfo 0 none32 none32 UndefinedType CPU (-1) Strided false.

(** The buffers that stay between two builds.  The slots and the edges are
    written before they are read in each build, so only their counts stay. *)
Record Scratch := mkScratch {
  scratch_map_ : list PtrSlot;
  map_gen_ : Z;
  map_cap_ : Z;
  ptr_mask_ : Z;
  slot_cap_max_ : Z;
  edge_cap_max_ : Z;
}.

Definition new_scratch : Scratch := mkScratch [] 0 0 0 0 0.

(** std::bit_ceil: the smallest power of two that is not below [x]. *)
Definition bit_ceil (x : Z) : Z := if x <=? 1 then 1 else 2 ^ Z.log2_up x.

Definition ensure_scratch_buffers (sc : Scratch) (total_inputs total_outputs : Z) : Scratch :=
  let raw_map_size := Z.max MIN_PTR_MAP_CAP (mul_sat 32 (add_sat 32 total_outputs 256) 2) in
  let needed_map := if MAX_PTR_MAP_CAP <=? raw_map_size then MAX_PTR_MAP_CAP else bit_ceil raw_map_size in
  let needed_slots := Z.max MIN_SCRATCH_SLOT_CAP (add_sat 32 total_outputs 1024) in
  let needed_edges := Z.max MIN_SCRATCH_EDGE_CAP (add_sat 32 total_inputs total_outputs) in
  let sc :=
    if map_cap_ sc <? needed_map then
      mkScratch (replicate (Z.to_nat needed_map) zero_ptr_slot) 0 needed_map (u32 (needed_map - 1)) (slot_cap_max_ sc) (edge_cap_max_ sc)
    else sc in
  mkScratch (scratch_map_ sc) (map_gen_ sc) (map_cap_ sc) (ptr_mask_ sc)
    (Z.max (slot_cap_max_ sc) needed_slots) (Z.max (edge_cap_max_ sc) needed_edges).

(** ** The scan of the trace *)

Record totals := mkTotals { t_max_meta_end : Z; t_first_meta : Z; t_inputs : Z; t_outputs : Z; t_scalars : Z }.

Definition arity (re : Entry) : Z := e_num_inputs re + e_num_outputs re.

(** [inl e] is the overflow: an op with tensors and no metadata. *)
Fixpoint scan_items (its : list item) (t : totals) : Z + totals :=
  match its with
  | [] => inr t
  | it :: its =>
    let re := it_entry it in
    let ms := it_meta it in
    if negb (is_valid64 ms) && (0 <? arity re) then inl (t_max_meta_end t)
    else
      let meta_end := u64 (ms + e_num_inputs re + e_num_outputs re) in
      scan_items its
        (mkTotals
           (if is_valid64 ms && (t_max_meta_end t <? meta_end) then meta_end else t_max_meta_end t)
           (if is_valid64 ms && negb (is_valid64 (t_first_meta t)) then ms else t_first_meta t)
           (u32 (t_inputs t + e_num_inputs re)) (u32 (t_outputs t + e_num_outputs re))
           (u32 (t_scalars t + Z.min (e_num_scalar_args re) 5)))
  end.

Definition zero_totals : totals := mkTotals 0 none64 0 0 0.

(** ** The build of one op *)

Definition INFERENCE_MODE : Z := 1.
Definition IS_MUTABLE : Z := 2.
Definition PHASE_MASK : Z := 12.
Definition PHASE_SHIFT : Z := 2.
Definition TORCH_FUNCTION : Z := 16.
Definition GRAD_ENABLED : Z := 32.

Definition flag_set (flags bit : Z) : bool := negb (Z.land flags bit =? 0).

Definition phase_of (raw : Z) : TrainingPhase :=
  if raw =? 0 then FORWARD else if raw =? 1 then BACKWARD else if raw =? 2 then OPTIMIZER else OTHER.

(** What the loop over the ops carries.  [b_aux] is the cursor into the block of
    the side arrays, as an offset from its start. *)
Record bstate := mkBuild {
  b_map : list PtrSlot;
  b_slots : list SlotInfo;
  b_next : Z;
  b_edges : list Edge;
  b_aux : Z;
  b_fold : Z;
}.

Definition set_map (b : bstate) (m : list PtrSlot) : bstate := mkBuild m (b_slots b) (b_next b) (b_edges b) (b_aux b) (b_fold b).
Definition set_info (b : bstate) (id : Z) (f : SlotInfo -> SlotInfo) : bstate :=
  mkBuild (b_map b) (aset (b_slots b) id (f (aget zero_info (b_slots b) id))) (b_next b) (b_edges b) (b_aux b) (b_fold b).

(** The values that stay fixed in one build. *)
Record benv := mkEnv {
  env_gen : Z;
  env_mask : Z;
  env_slot_cap : Z;
  env_edge_cap : Z;
  env_published : option (list (Z * Z));   (* the table of the adapter *)
  env_ckernels : list (Z * Z);             (* the run-time table *)
}.

Definition push_edge (env : benv) (b : bstate) (e : Edge) : result bstate :=
  let* _ := require (Z.of_nat (length (b_edges b)) <? env_edge_cap env) "num_edges < edge_cap_max" in
  Ok (mkBuild (b_map b) (b_slots b) (b_next b) (b_edges b ++ [e]) (b_aux b) (b_fold b)).

Definition extend_death (i : Z) (s : SlotInfo) : SlotInfo :=
  mkInfo (si_nbytes s) (si_birth s) (Z.max (si_death s) i) (si_dtype s) (si_device_type s) (si_device_idx s) (si_layout s) (si_external s).

Definition extend_nbytes (n : Z) (s : SlotInfo) : SlotInfo :=
  mkInfo (Z.max (si_nbytes s) n) (si_birth s) (si_death s) (si_dtype s) (si_device_type s) (si_device_idx s) (si_layout s) (si_external s).

(** A new slot for the storage of a tensor. *)
Definition slot_of_meta (m : TensorMeta) (birth death nbytes : Z) (external : bool) : SlotInfo :=
  mkInfo nbytes birth death (dtype m) (device_type m) (device_idx m) (layout m) external.

Definition new_slot (b : bstate) (s : SlotInfo) : Z * bstate :=
  (b_next b, mkBuild (b_map b) (aset (b_slots b) (b_next b) s) (b_next b + 1) (b_edges b) (b_aux b) (b_fold b)).

(** The body of the loop over the inputs of op [i]: the trace index and the slot
    id of input [j]. *)
Definition build_input (env : benv) (i j : Z) (m : TensorMeta) (b : bstate) : result (Z * Z * bstate) :=
  let input_ptr := data_ptr m in
  let lookup := ptr_map_lookup (b_map b) (env_gen env) (env_mask env) input_ptr in
  if is_valid32 (lk_op lookup) then
    let* b := push_edge env b (mkEdge (lk_op lookup) i (lk_port lookup) (u8 j) DATA_FLOW) in
    let b := if lk_slot lookup <? env_slot_cap env then set_info b (lk_slot lookup) (extend_death i) else b in
    Ok (lk_op lookup, lk_slot lookup, b)
  else if negb (input_ptr =? 0) && (b_next b <? env_slot_cap env) then
    let* n := compute_storage_nbytes m in
    let '(id, b) := new_slot b (slot_of_meta m 0 i (sat_value n) true) in
    let '(map, _) := ptr_map_insert (b_map b) (env_gen env) (env_mask env) input_ptr none32 0 id in
    Ok (lk_op lookup, id, set_map b map)
  else Ok (lk_op lookup, none32, b).

Fixpoint build_inputs (env : benv) (i j : Z) (ms : list TensorMeta) (b : bstate) : result (list Z * list Z * bstate) :=
  match ms with
  | [] => Ok ([], [], b)
  | m :: ms =>
    let* '(idx, id, b) := build_input env i j m b in
    let* '(idxs, ids, b) := build_inputs env i (j + 1) ms b in
    Ok (idx :: idxs, id :: ids, b)
  end.

(** The body of the loop over the outputs of op [i]. *)
Definition build_output (env : benv) (i j : Z) (m : TensorMeta) (b : bstate) : result (Z * bstate) :=
  let output_ptr := data_ptr m in
  if output_ptr =? 0 then Ok (none32, b)
  else
    let '(map, r) := ptr_map_insert (b_map b) (env_gen env) (env_mask env) output_ptr i (u8 j) 0 in
    let b := set_map b map in
    if was_alias r then
      let* b :=
        if old_slot r <? env_slot_cap env then
          let b := set_info b (old_slot r) (extend_death i) in
          let* n := compute_storage_nbytes m in
          Ok (set_info b (old_slot r) (extend_nbytes (sat_value n)))
        else Ok b in
      let* b :=
        if is_valid32 (old_op r) then push_edge env b (mkEdge (old_op r) i (old_port r) (u8 j) ALIAS) else Ok b in
      Ok (old_slot r, b)
    else if b_next b <? env_slot_cap env then
      let* n := compute_storage_nbytes m in
      let '(id, b) := new_slot b (slot_of_meta m i i (sat_value n) false) in
      Ok (id, set_map b (set_slot_id (b_map b) (ir_slot r) id))
    else Ok (none32, b).

Fixpoint build_outputs (env : benv) (i j : Z) (ms : list TensorMeta) (b : bstate) : result (list Z * bstate) :=
  match ms with
  | [] => Ok ([], b)
  | m :: ms =>
    let* '(id, b) := build_output env i j m b in
    let* '(ids, b) := build_outputs env i (j + 1) ms b in
    Ok (id :: ids, b)
  end.

(** The fields of the entry of op [i] before its slots are known.  The fold of
    the content hash reads this entry. *)
Definition entry_of_item (env : benv) (metas : list TensorMeta) (first_meta : Z) (it : item) : TraceEntry :=
  let re := it_entry it in
  let n_scalars := Z.min (e_num_scalar_args re) 5 in
  let present := is_valid64 (it_meta it) in
  let off := Z.to_nat (u64 (it_meta it - first_meta)) in
  let n_in := Z.to_nat (e_num_inputs re) in
  {| schema_hash := e_schema_hash re; shape_hash := e_shape_hash re;
     scope_hash := it_scope it; callsite_hash := it_callsite it;
     input_metas := if present then Some (take n_in (drop off metas)) else None;
     output_metas := if present then Some (take (Z.to_nat (e_num_outputs re)) (drop (off + n_in) metas)) else None;
     num_inputs := if present then e_num_inputs re else 0;
     num_outputs := if present then e_num_outputs re else 0;
     scalar_args := if present && (0 <? n_scalars) then Some (take (Z.to_nat n_scalars) (scalar_values re)) else None;
     num_scalar_args := n_scalars;
     grad_enabled := flag_set (op_flags re) GRAD_ENABLED;
     inference_mode := flag_set (op_flags re) INFERENCE_MODE;
     kernel_id := classify_kernel (env_published env) (env_ckernels env) (e_schema_hash re);
     is_mutable := flag_set (op_flags re) IS_MUTABLE;
     training_phase := phase_of (Z.shiftr (Z.land (op_flags re) PHASE_MASK) PHASE_SHIFT);
     torch_function := flag_set (op_flags re) TORCH_FUNCTION;
     input_trace_indices := None; input_slot_ids := None; output_slot_ids := None |}.

(** The bytes of the side arrays of one op: its scalars, its trace indices and
    its slot ids, in this order. *)
Definition side_bytes (it : item) : Z :=
  if is_valid64 (it_meta it) then
    Z.min (e_num_scalar_args (it_entry it)) 5 * 8 + e_num_inputs (it_entry it) * 4 +
    e_num_inputs (it_entry it) * 4 + e_num_outputs (it_entry it) * 4
  else 0.

Definition with_slots (te : TraceEntry) (idxs ins outs : list Z) : TraceEntry :=
  let arr l := match input_metas te with Some _ => Some l | None => None end in
  {| schema_hash := schema_hash te; shape_hash := shape_hash te; scope_hash := scope_hash te; callsite_hash := callsite_hash te;
     input_metas := input_metas te; output_metas := output_metas te; num_inputs := num_inputs te; num_outputs := num_outputs te;
     scalar_args := scalar_args te; num_scalar_args := num_scalar_args te; grad_enabled := grad_enabled te;
     inference_mode := inference_mode te; kernel_id := kernel_id te; is_mutable := is_mutable te;
     training_phase := training_phase te; torch_function := torch_function te;
     input_trace_indices := arr idxs; input_slot_ids := arr ins; output_slot_ids := arr outs |}.

Definition build_op (env : benv) (metas : list TensorMeta) (first_meta i : Z) (it : item) (b : bstate) : result (TraceEntry * bstate) :=
  let* _ := require (e_num_scalar_args (it_entry it) <=? 5) "num_scalar_args <= 5" in
  let te := entry_of_item env metas first_meta it in
  let b := mkBuild (b_map b) (b_slots b) (b_next b) (b_edges b) (b_aux b + side_bytes it) (fold_entry_ (b_fold b) te) in
  let* '(idxs, ins, b) := build_inputs env i 0 (default [] (input_metas te)) b in
  let* '(outs, b) := build_outputs env i 0 (default [] (output_metas te)) b in
  Ok (with_slots te idxs ins outs, b).

Fixpoint build_ops (env : benv) (metas : list TensorMeta) (first_meta i : Z) (its : list item) (b : bstate) : result (list TraceEntry * bstate) :=
  match its with
  | [] => Ok ([], b)
  | it :: its =>
    let* '(te, b) := build_op env metas first_meta i it b in
    let* '(tes, b) := build_ops env metas first_meta (i + 1) its b in
    Ok (te :: tes, b)
  end.

(** ** The build *)

Record BuiltRegion := mkBuilt {
  br_ops : list TraceEntry;
  br_metas : list TensorMeta;
  br_side_bytes : Z;
  br_slots : list TensorSlot;
  br_content_hash : Z;
  br_max_meta_end : Z;
}.

Inductive TraceBuild := Overflow (meta_end : Z) | Built (graph : TraceGraph) (region : BuiltRegion).

Definition tensor_slot (id : Z) (s : SlotInfo) : TensorSlot :=
  mkSlot 0 (si_nbytes s) (si_birth s) (si_death s) (si_dtype s) (si_device_type s) (si_device_idx s) (si_layout s) (si_external s) id.

Definition tensor_slots (num_slots : Z) (infos : list SlotInfo) : list TensorSlot :=
  (fun id => tensor_slot id (aget zero_info infos id)) <$> seqZ 0 num_slots.

(** The bytes of the block of the side arrays. *)
Definition aux_bytes (t : totals) : Z :=
  t_scalars t * 8 + t_inputs t * 4 + t_inputs t * 4 + t_outputs t * 4.

(** A new generation of the map. *)
Definition next_generation (sc : Scratch) : Scratch :=
  let gen := u8 (map_gen_ sc + 1) in
  if gen =? 0 then mkScratch (replicate (Z.to_nat (map_cap_ sc)) zero_ptr_slot) 1 (map_cap_ sc) (ptr_mask_ sc) (slot_cap_max_ sc) (edge_cap_max_ sc)
  else mkScratch (scratch_map_ sc) gen (map_cap_ sc) (ptr_mask_ sc) (slot_cap_max_ sc) (edge_cap_max_ sc).

(** The copy of the run of the metadata log that the ops name. *)
Definition copy_metas (L : MetaLog) (t : totals) : result (list TensorMeta) :=
  if is_valid64 (t_first_meta t) then
    let run_length := u64 (t_max_meta_end t - t_first_meta t) in
    let* _ := require (run_length <=? META_CAPACITY) "run_length <= CAPACITY" in
    copy_run L (t_first_meta t) (u32 run_length)
  else Ok [].

(** The number of slots that a build can use. *)
Definition build_slot_cap (sc : Scratch) (t : totals) : Z :=
  Z.min (slot_cap_max_ sc) (Z.max 256 (u32 (t_inputs t + t_outputs t))).

Definition build_trace_from (L : MetaLog) (published : option (list (Z * Z))) (ckernels : list (Z * Z)) (sc : Scratch) (its : list item)
    : result (TraceBuild * Scratch) :=
  match scan_items its zero_totals with
  | inl meta_end => Ok (Overflow meta_end, sc)
  | inr t =>
    let sc := ensure_scratch_buffers sc (t_inputs t) (t_outputs t) in
    let* metas := copy_metas L t in
    let sc := next_generation sc in
    let slot_cap := build_slot_cap sc t in
    let env := mkEnv (map_gen_ sc) (ptr_mask_ sc) slot_cap (edge_cap_max_ sc) published ckernels in
    let* '(ops, b) :=
      build_ops env metas (t_first_meta t) 0 its
        (mkBuild (scratch_map_ sc) (replicate (Z.to_nat slot_cap) zero_info) 0 [] 0 kSeed) in
    let num_slots := Z.min (b_next b) slot_cap in
    let slots := tensor_slots num_slots (b_slots b) in
    Ok (Built (build_csr (b_edges b) (Z.of_nat (length its)))
          (mkBuilt ops metas (aux_bytes t) slots (fmix64 (b_fold b)) (t_max_meta_end t)),
        mkScratch (b_map b) (map_gen_ sc) (map_cap_ sc) (ptr_mask_ sc) (slot_cap_max_ sc) (edge_cap_max_ sc))
  end.
