(* ===== verification/BuildProofs.v ===== *)
(** * BuildProofs.v: what a built region says about the recorded ops

    A write is an output of an op on a storage.  The reference is the last
    write to the storage of an input: its op is the trace index of the input,
    its slot is the slot of the input, and the slot is alive from the write to
    the read. *)

From stdpp Require Import base list strings gmap.
From Stdlib Require Import ZArith Lia.
From S2P Require Import Prelude.
From S2P Require Import Types.
From S2P Require Import ContentHash.
From S2P Require Import MetaLog.
From S2P Require Import TraceRing.
From S2P Require Import StorageNbytes.
From S2P Require Import TraceGraph.
From S2P Require Import CKernel.
From S2P Require Import PtrMap.
From S2P Require Import BuildTrace.
#[local] Open Scope Z_scope.

(** ** Writes *)

Record write := mkWrite { w_ptr : Z; w_op : Z; w_port : Z; w_slot : Z }.

(** The writes are in the order of the trace. *)
Definition last_write (ws : list write) (p : Z) : option write :=
  foldl (fun acc w => if w_ptr w =? p then Some w else acc) None ws.

(** The outputs of op [i], from port [j] on. *)
Fixpoint output_writes (i j : Z) (ms : list TensorMeta) (ids : list Z) : list write :=
  match ms, ids with
  | m :: ms, id :: ids => mkWrite (data_ptr m) i j id :: output_writes i (j + 1) ms ids
  | _, _ => []
  end.

Definition op_writes (i : Z) (te : TraceEntry) : list write :=
  output_writes i 0 (default [] (output_metas te)) (default [] (output_slot_ids te)).

(** The writes of a list of ops, the first of which is op [i]. *)
Fixpoint trace_writes (i : Z) (tes : list TraceEntry) : list write :=
  match tes with [] => [] | te :: tes => op_writes i te ++ trace_writes (i + 1) tes end.

(** ** Edges *)

Fixpoint input_edges (ws : list write) (i j : Z) (ms : list TensorMeta) : list Edge :=
  match ms with
  | [] => []
  | m :: ms =>
    (if data_ptr m =? 0 then []
     else match last_write ws (data_ptr m) with
          | Some w => [mkEdge (w_op w) i (u8 (w_port w)) (u8 j) DATA_FLOW]
          | None => []
          end) ++ input_edges ws i (j + 1) ms
  end.

Fixpoint output_edges (ws : list write) (i j : Z) (ms : list TensorMeta) (ids : list Z) : list Edge :=
  match ms, ids with
  | m :: ms, id :: ids =>
    (if data_ptr m =? 0 then []
     else match last_write ws (data_ptr m) with
          | Some w => if w_op w =? i then [] else [mkEdge (w_op w) i (u8 (w_port w)) (u8 j) ALIAS]
          | None => []
          end) ++ output_edges (ws ++ [mkWrite (data_ptr m) i j id]) i (j + 1) ms ids
  | _, _ => []
  end.

Definition op_edges (ws : list write) (i : Z) (te : TraceEntry) : list Edge :=
  input_edges ws i 0 (default [] (input_metas te)) ++
  output_edges ws i 0 (default [] (output_metas te)) (default [] (output_slot_ids te)).

Fixpoint trace_edges (ws : list write) (i : Z) (tes : list TraceEntry) : list Edge :=
  match tes with [] => [] | te :: tes => op_edges ws i te ++ trace_edges (ws ++ op_writes i te) (i + 1) tes end.

Lemma last_write_snoc ws w p : last_write (ws ++ [w]) p = if w_ptr w =? p then Some w else last_write ws p.
Proof. unfold last_write. by rewrite foldl_app. Qed.

Lemma last_write_in ws p w : last_write ws p = Some w -> w ∈ ws /\ w_ptr w = p.
Proof.
  induction ws as [|v ws IH] using rev_ind; [done|]. rewrite last_write_snoc. destruct (Z.eqb_spec (w_ptr v) p) as [<-|].
  - intros [= <-]. split; [|done]. apply elem_of_app. right. by apply list_elem_of_singleton.
  - intros [H1 H2]%IH. split; [|done]. apply elem_of_app. by left.
Qed.

(** The writes of op [i]. *)
Lemma output_writes_op i j ms ids : Forall (fun w => w_op w = i) (output_writes i j ms ids).
Proof. revert j ids. induction ms as [|m ms IH]; intros j [|id ids]; constructor; [done|apply IH]. Qed.

(** ** Slots *)

Abbreviation info slots s := (aget zero_info slots s).

(** A slot of the build that is alive at op [i]. *)
Definition covers (slots : list SlotInfo) (next s i : Z) : Prop :=
  0 <= s < next /\ si_birth (info slots s) <= i <= si_death (info slots s).

Record grows (b b' : bstate) : Prop := {
  gr_next : b_next b <= b_next b';
  gr_info s : 0 <= s < b_next b ->
    si_birth (info (b_slots b') s) = si_birth (info (b_slots b) s) /\
    si_external (info (b_slots b') s) = si_external (info (b_slots b) s) /\
    si_death (info (b_slots b) s) <= si_death (info (b_slots b') s) /\
    si_nbytes (info (b_slots b) s) <= si_nbytes (info (b_slots b') s);
}.

#[export] Instance grows_refl : Reflexive grows.
Proof. intros b. split; [lia|]. intros s _. split_and!; (done || lia). Qed.

#[export] Instance grows_trans : Transitive grows.
Proof.
  intros b1 b2 b3 [N1 H1] [N2 H2]. split; [lia|]. intros s Hs. destruct (H1 s Hs) as (E1 & E2 & ? & ?).
  destruct (H2 s ltac:(lia)) as (E3 & E4 & ? & ?); split_and!; (congruence || lia).
Qed.

Lemma covers_grows b b' s i : grows b b' -> covers (b_slots b) (b_next b) s i -> covers (b_slots b') (b_next b') s i.
Proof. intros [Hn Hi] [Hs Hc]. destruct (Hi s Hs) as (E & _ & H & _). split; [lia|]. rewrite E. lia. Qed.

(** What the build says of one input. *)
Definition input_ok (ws : list write) (i : Z) (b : bstate) (m : TensorMeta) (idx id : Z) : Prop :=
  if data_ptr m =? 0 then idx = none32 /\ id = none32
  else covers (b_slots b) (b_next b) id i /\
    match last_write ws (data_ptr m) with
    | Some w => idx = w_op w /\ id = w_slot w /\ w_op w < i
    | None => idx = none32 /\ si_external (info (b_slots b) id) = true
    end.

(** And of one output. *)
Definition output_ok (i : Z) (b : bstate) (m : TensorMeta) (id : Z) : Prop :=
  if data_ptr m =? 0 then id = none32
  else covers (b_slots b) (b_next b) id i /\ sat_value (compute_storage_nbytes_scalar m) <= si_nbytes (info (b_slots b) id).

Lemma input_ok_grows ws i b b' m idx id : grows b b' -> input_ok ws i b m idx id -> input_ok ws i b' m idx id.
Proof.
  intros Hg. unfold input_ok. destruct (data_ptr m =? 0); [done|]. intros [Hc H]. split; [by eapply covers_grows|].
  destruct (last_write ws (data_ptr m)); [done|]. destruct (gr_info _ _ Hg id) as (_ & -> & _); [apply Hc|done].
Qed.

Lemma output_ok_grows i b b' m id : grows b b' -> output_ok i b m id -> output_ok i b' m id.
Proof.
  intros Hg. unfold output_ok. destruct (data_ptr m =? 0); [done|]. intros [Hc H]. split; [by eapply covers_grows|].
  destruct (gr_info _ _ Hg id) as (_ & _ & _ & ?); [apply Hc|lia].
Qed.

#[export] Hint Resolve input_ok_grows output_ok_grows : crucible.

(** ** The invariant of the loop *)

Section Build.
#[local] Set Default Proof Using "All".
Context (env : benv) (k : Z).
Hypothesis Hk : 0 <= k <= 30.
Hypothesis Hmask : env_mask env = 2 ^ k - 1.
Hypothesis Hcap : 0 <= env_slot_cap env < none32.

(** The storages of the trace. *)
Context (ptrs : gset Z).
Hypothesis Hnull : 0 ∉ ptrs.
Hypothesis Hroom : Z.of_nat (size ptrs) <= 2 ^ k.

(** Op [i] is being built, the writes so far are [ws], and [n] operands are
    done; [m] is the content of the address map. *)
Record binv (i : Z) (ws : list write) (n : Z) (m : gmap Z pentry) (b : bstate) : Prop := {
  bi_ptr : ptr_ok (env_gen env) k (b_map b) m;
  bi_dom : dom m ⊆ ptrs;
  bi_len : Z.of_nat (length (b_slots b)) = env_slot_cap env;
  bi_next : 0 <= b_next b <= n;
  bi_edges : Z.of_nat (length (b_edges b)) <= n;
  bi_some p e : m !! p = Some e -> 0 <= pe_slot e < b_next b /\
    match last_write ws p with
    | Some w => pe_op e = w_op w /\ pe_slot e = w_slot w /\ pe_port e = u8 (w_port w)
    | None => pe_op e = none32 /\ si_external (info (b_slots b) (pe_slot e)) = true
    end;
  bi_none p : p <> 0 -> m !! p = None -> last_write ws p = None;
  bi_slots s : 0 <= s < b_next b -> 0 <= si_birth (info (b_slots b) s) <= i /\ si_birth (info (b_slots b) s) <= si_death (info (b_slots b) s) <= i;
  bi_bytes s : 0 <= s < b_next b -> in_width 64 (si_nbytes (info (b_slots b) s));
  bi_ws : Forall (fun w => 0 <= w_op w <= i) ws;
}.

Lemma room_for (m : gmap Z pentry) p : dom m ⊆ ptrs -> p ∈ ptrs -> (size m < Z.to_nat (2 ^ k))%nat \/ is_Some (m !! p).
Proof.
  intros Hd Hp. destruct (m !! p) as [e|] eqn:E; [right; eauto|left].
  assert (Hlt : (size (dom m) < size ptrs)%nat).
  { apply subset_size. split; [done|]. intros Hsub. specialize (Hsub p Hp). apply elem_of_dom in Hsub as [? ?]. congruence. }
  rewrite size_dom in Hlt. lia.
Qed.

Lemma info_set b id f s : Z.of_nat (length (b_slots b)) = env_slot_cap env -> 0 <= id < env_slot_cap env -> 0 <= s ->
  info (b_slots (set_info b id f)) s = if decide (id = s) then f (info (b_slots b) id) else info (b_slots b) s.
Proof. intros. cbn. apply aget_aset; lia. Qed.

(** A change of one slot that keeps its birth and its owner and moves its death
    at most to the current op. *)
Lemma binv_set_info i ws n m b id f :
  binv i ws n m b -> b_next b <= env_slot_cap env -> 0 <= id < b_next b ->
  (forall s, si_birth (f s) = si_birth s /\ si_external (f s) = si_external s /\ si_nbytes s <= si_nbytes (f s)) ->
  (forall s, si_death s <= i -> si_death s <= si_death (f s) <= i) ->
  (forall s, in_width 64 (si_nbytes s) -> in_width 64 (si_nbytes (f s))) ->
  binv i ws n m (set_info b id f) /\ grows b (set_info b id f).
Proof.
  intros Hb Hn Hid Hf Hd Hw. pose proof (bi_len _ _ _ _ _ Hb) as Hl.
  assert (Hat : forall s, 0 <= s -> info (b_slots (set_info b id f)) s = if decide (id = s) then f (info (b_slots b) id) else info (b_slots b) s) by (intros; apply info_set; lia).
  split.
  - destruct Hb. split; try done.
    + cbn. by rewrite length_aset.
    + intros p e He. destruct (bi_some0 p e He) as [Hs H]. split; [done|]. destruct (last_write ws p); [done|]. split; [apply H|].
      rewrite Hat by lia. destruct (decide (id = pe_slot e)) as [->|]; [|apply H]. destruct (Hf (info (b_slots b) (pe_slot e))) as (_ & -> & _). apply H.
    + intros s Hs. rewrite Hat by lia. change (b_next (set_info b id f)) with (b_next b) in Hs. destruct (bi_slots0 s Hs) as [H1 H2].
      destruct (decide (id = s)) as [->|]; [|done]. destruct (Hf (info (b_slots b) s)) as (-> & _). pose proof (Hd (info (b_slots b) s)). lia.
    + intros s Hs. rewrite Hat by lia. change (b_next (set_info b id f)) with (b_next b) in Hs. specialize (bi_bytes0 s Hs). destruct (decide (id = s)) as [->|]; auto.
  - split; [cbn; lia|]. intros s Hs. rewrite Hat by lia. destruct (decide (id = s)) as [->|]; [|split_and!; (done || lia)].
    destruct (Hf (info (b_slots b) s)) as (-> & -> & ?). destruct (bi_slots _ _ _ _ _ Hb s Hs) as [_ ?]. pose proof (Hd (info (b_slots b) s)). split_and!; (done || lia).
Qed.

(** A new slot, born at or before the current op, which it reaches. *)
Lemma binv_new_slot i ws n m b s : binv i ws n m b -> b_next b < env_slot_cap env ->
  0 <= si_birth s <= i -> si_death s = i -> in_width 64 (si_nbytes s) ->
  binv i ws (n + 1) m (new_slot b s).2 /\ grows b (new_slot b s).2 /\ info (b_slots (new_slot b s).2) (b_next b) = s.
Proof.
  intros Hb Hn Hbirth Hdeath Hbytes. pose proof (bi_len _ _ _ _ _ Hb) as Hl. pose proof (bi_next _ _ _ _ _ Hb) as Hnx.
  assert (Hat : forall t, 0 <= t -> info (b_slots (new_slot b s).2) t = if decide (b_next b = t) then s else info (b_slots b) t) by (intros; cbn; apply aget_aset; lia).
  assert (Hold : forall t, 0 <= t < b_next b -> info (b_slots (new_slot b s).2) t = info (b_slots b) t) by (intros; rewrite Hat, decide_False by lia; done).
  split_and!.
  - destruct Hb. split; try done.
    + cbn. by rewrite length_aset.
    + cbn. lia.
    + cbn. lia.
    + intros p e He. destruct (bi_some0 p e He) as [Hs H]. split; [cbn; lia|]. by rewrite Hold.
    + intros t Ht. cbn [new_slot snd b_next] in Ht. destruct (decide (b_next b = t)) as [<-|].
      * rewrite Hat, decide_True by (lia || done). lia.
      * rewrite Hold by lia. apply bi_slots0. lia.
    + intros t Ht. cbn [new_slot snd b_next] in Ht. destruct (decide (b_next b = t)) as [<-|].
      * by rewrite Hat, decide_True by (lia || done).
      * rewrite Hold by lia. apply bi_bytes0. lia.
  - split; [cbn; lia|]. intros t Ht. rewrite Hold by lia. split_and!; (done || lia).
  - rewrite Hat, decide_True by (lia || done). done.
Qed.

Lemma push_edge_ok i ws n m b e : binv i ws n m b -> n < env_edge_cap env ->
  exists b', push_edge env b e = Ok b' /\ binv i ws (n + 1) m b' /\ grows b b' /\ b_edges b' = b_edges b ++ [e] /\ b_slots b' = b_slots b /\ b_next b' = b_next b.
Proof.
  intros Hb Hn. unfold push_edge. pose proof (bi_edges _ _ _ _ _ Hb). rewrite (proj2 (Z.ltb_lt _ _)) by lia. eexists. split; [done|].
  split_and!; [|split; [cbn; lia|intros; split_and!; (done || lia)]|done..]. destruct Hb. split; try done; cbn; [lia|]. rewrite length_app. cbn. lia.
Qed.

Lemma binv_more i ws n n' m b : binv i ws n m b -> n <= n' -> binv i ws n' m b.
Proof. intros []. split; try done; lia. Qed.

(** An entry of the address map that the writes and the slots justify. *)
Lemma binv_put i ws ws' n m b p e map' :
  binv i ws n m b -> ptr_ok (env_gen env) k map' (<[p := e]> m) -> p ∈ ptrs ->
  (forall q, q <> p -> last_write ws' q = last_write ws q) -> Forall (fun w => 0 <= w_op w <= i) ws' ->
  0 <= pe_slot e < b_next b ->
  match last_write ws' p with
  | Some w => pe_op e = w_op w /\ pe_slot e = w_slot w /\ pe_port e = u8 (w_port w)
  | None => pe_op e = none32 /\ si_external (info (b_slots b) (pe_slot e)) = true
  end -> binv i ws' n (<[p := e]> m) (set_map b map').
Proof.
  intros [] Hp Hin Hq Hws He Hw. split; try done.
  - rewrite dom_insert. set_solver.
  - intros q f. destruct (decide (q = p)) as [->|Hne].
    + rewrite lookup_insert_eq. by intros [= <-].
    + rewrite lookup_insert_ne by done. intros Hf. destruct (bi_some0 q f Hf) as [H1 H2]. split; [done|]. by rewrite Hq.
  - intros q Hq0. destruct (decide (q = p)) as [->|Hne]; [by rewrite lookup_insert_eq|]. rewrite lookup_insert_ne, Hq by done. by apply bi_none0.
Qed.

(** ** One operand *)

Lemma valid_op x : 0 <= x < none32 -> is_valid32 x = true.
Proof. intros. unfold is_valid32. apply negb_true_iff, Z.eqb_neq. lia. Qed.

Lemma storage_ok meta : 0 <= ndim meta <= 8 -> compute_storage_nbytes meta = Ok (compute_storage_nbytes_scalar meta).
Proof. intros. unfold compute_storage_nbytes. rewrite (proj2 (Z.leb_le _ _)) by lia. done. Qed.

(** The read of a storage that no op wrote: a new external slot. *)
Lemma build_external_ok i j ws n m b meta :
  binv i ws n m b -> n < env_slot_cap env -> 0 <= i < none32 -> 0 <= ndim meta <= 8 ->
  data_ptr meta ∈ ptrs -> last_write ws (data_ptr meta) = None ->
  exists id b' m', build_input env i j meta b = Ok (none32, id, b') /\ binv i ws (n + 1) m' b' /\ grows b b' /\
    input_ok ws i b' meta none32 id /\ b_edges b' = b_edges b.
Proof.
  intros Hb Hn Hi Hnd Hp Hlw. assert (Hp0 : data_ptr meta <> 0) by (intros E; by rewrite E in Hp).
  pose proof (bi_next _ _ _ _ _ Hb) as Hnx. unfold build_input. rewrite Hmask.
  rewrite (ptr_map_lookup_spec (env_gen env) k Hk _ m) by (apply Hb || done).
  assert (Hlk : lk_op (match m !! data_ptr meta with Some e => mkLookup (pe_op e) (pe_slot e) (pe_port e) | None => lookup_miss end) = none32).
  { destruct (m !! data_ptr meta) as [e|] eqn:E; [|done]. destruct (bi_some _ _ _ _ _ Hb _ _ E) as [_ H]. rewrite Hlw in H. apply H. }
  cbv zeta. rewrite Hlk. change (is_valid32 none32) with false. cbv iota. rewrite (proj2 (Z.eqb_neq _ _) Hp0), (proj2 (Z.ltb_lt (b_next b) _)) by lia. cbn [negb andb].
  rewrite storage_ok by done. cbn [rbind].
  set (s := slot_of_meta meta 0 i _ true).
  destruct (binv_new_slot i ws n m b s Hb) as (Hb1 & Hg & Hinfo); [lia|cbn; lia|done|apply storage_nbytes_range|].
  destruct (new_slot b s) as [id b1] eqn:E1. assert (id = b_next b) as -> by (unfold new_slot in E1; congruence). cbn [snd] in *.
  assert (Hnx1 : b_next b1 = b_next b + 1) by (unfold new_slot in E1; injection E1 as <-; done).
  assert (Hed1 : b_edges b1 = b_edges b) by (unfold new_slot in E1; injection E1 as <-; done).
  destruct (ptr_map_insert_spec (env_gen env) k Hk (b_map b1) m (data_ptr meta) none32 0 (b_next b)) as (map' & r & idx & Hins & _ & _ & _ & _ & Hm); [apply Hb1|apply room_for; [apply Hb|done]|].
  assert (Hb2 : exists m', binv i ws (n + 1) m' (set_map b1 map')).
  { destruct (m !! data_ptr meta) as [e|] eqn:E.
    - destruct Hm as (_ & _ & _ & _ & Hm). destruct (bi_some _ _ _ _ _ Hb1 _ _ E) as [Hs He]. rewrite Hlw in He.
      eexists. eapply (binv_put i ws ws _ _ b1); try done; [apply Hb|]. cbn. rewrite Hlw. split; [done|apply He].
    - destruct Hm as [_ Hm]. eexists. eapply (binv_put i ws ws _ _ b1); try done; [apply Hb|cbn; lia|]. cbn. rewrite Hlw. split; [done|]. by rewrite Hinfo. }
  destruct Hb2 as [m' Hb2]. rewrite Hins. eexists _, _, m'. split; [done|]. split; [exact Hb2|]. split_and!.
  - etrans; [exact Hg|]. split; [cbn; lia|]. intros; split_and!; (done || cbn; lia).
  - unfold input_ok. rewrite (proj2 (Z.eqb_neq _ _) Hp0), Hlw. cbn [set_map b_slots b_next]. rewrite Hinfo. split; [|done].
    split; [lia|]. rewrite Hinfo. cbn. lia.
  - cbn. done.
Qed.

Lemma build_input_ok i j ws n m b meta :
  binv i ws n m b -> n < env_slot_cap env -> n < env_edge_cap env -> 0 <= i < none32 -> 0 <= ndim meta <= 8 ->
  (data_ptr meta = 0 \/ data_ptr meta ∈ ptrs) -> Forall (fun w => w_op w < i) ws ->
  exists idx id b' m', build_input env i j meta b = Ok (idx, id, b') /\ binv i ws (n + 1) m' b' /\ grows b b' /\
    input_ok ws i b' meta idx id /\ b_edges b' = b_edges b ++ input_edges ws i j [meta].
Proof.
  intros Hb Hn Hne Hi Hnd Hp Hlt. cbn [input_edges]. rewrite app_nil_r. destruct Hp as [Hp|Hp].
  { unfold build_input. rewrite Hp. cbn. eexists _, _, b, m. split; [done|]. split_and!; [|done| |by rewrite app_nil_r].
    - eapply binv_more; [done|lia].
    - unfold input_ok. by rewrite Hp. }
  assert (Hp0 : data_ptr meta <> 0) by (intros E; by rewrite E in Hp).
  rewrite (proj2 (Z.eqb_neq _ _) Hp0). destruct (last_write ws (data_ptr meta)) as [w|] eqn:Hlw.
  2: { destruct (build_external_ok i j ws n m b meta) as (id & b' & m' & H1 & H2 & H3 & H4 & H5); try done.
       exists none32, id, b', m'. rewrite H5, app_nil_r. done. }
  destruct (m !! data_ptr meta) as [e|] eqn:E; [|by rewrite (bi_none _ _ _ _ _ Hb _ Hp0 E) in Hlw].
  destruct (bi_some _ _ _ _ _ Hb _ _ E) as [Hs He]. rewrite Hlw in He. destruct He as (Eop & Esl & Epo).
  apply last_write_in in Hlw as Hin. destruct Hin as [Hin _]. rewrite Forall_forall in Hlt. specialize (Hlt w Hin).
  pose proof (bi_ws _ _ _ _ _ Hb) as Hws. rewrite Forall_forall in Hws. specialize (Hws w Hin).
  unfold build_input. rewrite Hmask, (ptr_map_lookup_spec (env_gen env) k Hk _ m) by (apply Hb || done). rewrite E. cbv zeta. cbn [lk_op lk_slot lk_port].
  rewrite Eop, valid_op by lia.
  destruct (push_edge_ok i ws n m b (mkEdge (w_op w) i (pe_port e) (u8 j) DATA_FLOW) Hb Hne) as (b1 & -> & Hb1 & Hg1 & Ee & Es & En). cbn [rbind].
  pose proof (bi_next _ _ _ _ _ Hb) as Hnx. rewrite (proj2 (Z.ltb_lt (pe_slot e) _)) by lia.
  destruct (binv_set_info i ws (n + 1) m b1 (pe_slot e) (extend_death i)) as [Hb2 Hg2]; [done|lia|lia|intros s; cbn; split_and!; (done || lia)|intros s ?; cbn; lia|done|].
  eexists _, _, _, m. split; [done|]. split; [done|]. split; [by etrans|]. split.
  - unfold input_ok. rewrite (proj2 (Z.eqb_neq _ _) Hp0), Hlw. split; [|done]. split; [cbn; lia|].
    pose proof (bi_len _ _ _ _ _ Hb1). rewrite info_set, decide_True by (done || lia). destruct (bi_slots _ _ _ _ _ Hb1 (pe_slot e)) as [? ?]; [lia|]. cbn. lia.
  - cbn. rewrite Ee, Epo. done.
Qed.

Lemma writes_snoc i ws w : Forall (fun w => 0 <= w_op w <= i) ws -> 0 <= w_op w <= i -> Forall (fun w => 0 <= w_op w <= i) (ws ++ [w]).
Proof. intros. apply Forall_app. split; [done|]. by apply Forall_singleton. Qed.

Lemma last_write_other ws w q : q <> w_ptr w -> last_write (ws ++ [w]) q = last_write ws q.
Proof. intros. rewrite last_write_snoc. by rewrite (proj2 (Z.eqb_neq _ _)). Qed.

Lemma binv_null_write i ws n m b j id : binv i ws n m b -> 0 <= i -> binv i (ws ++ [mkWrite 0 i j id]) n m b.
Proof.
  intros [] Hi. split; try done.
  - intros p e He. assert (p <> 0) by (intros ->; apply Hnull, bi_dom0; by eapply elem_of_dom_2). rewrite last_write_other by done. by apply bi_some0.
  - intros p Hp He. rewrite last_write_other by done. by apply bi_none0.
  - apply writes_snoc; [done|cbn; lia].
Qed.

(** An output on a storage that the op has not written: the first use of the
    storage, or a storage that the op itself wrote before. *)
Lemma build_fresh_ok i j ws n m b meta map' r idx e' :
  binv i ws n m b -> n < env_slot_cap env -> 0 <= i < none32 -> 0 <= ndim meta <= 8 -> data_ptr meta ∈ ptrs ->
  ptr_ok (env_gen env) k map' (<[data_ptr meta := e']> m) -> pe_op e' = i -> pe_port e' = u8 j ->
  0 <= idx < 2 ^ k -> ir_slot r = Some idx -> is_live (env_gen env) map' idx -> ps_key (ptr_slot_at map' idx) = data_ptr meta ->
  let s := slot_of_meta meta i i (sat_value (compute_storage_nbytes_scalar meta)) false in
  let b' := set_map (new_slot (set_map b map') s).2 (set_slot_id map' (ir_slot r) (b_next b)) in
  exists m', binv i (ws ++ [mkWrite (data_ptr meta) i j (b_next b)]) (n + 1) m' b' /\ grows b b' /\ output_ok i b' meta (b_next b) /\ b_edges b' = b_edges b.
Proof.
  intros Hb Hn Hi Hnd Hp Hok Eop Epo Hidx Hir Hlive Hkey s b'.
  assert (Hp0 : data_ptr meta <> 0) by (intros E; by rewrite E in Hp). pose proof (bi_next _ _ _ _ _ Hb) as Hnx.
  destruct (binv_new_slot i ws n m b s Hb) as (Hb1 & Hg & Hinfo); [lia|cbn; lia|done|apply storage_nbytes_range|].
  pose proof (set_slot_id_spec (env_gen env) k Hk map' _ idx _ e' (b_next b) Hok Hidx Hlive Hkey (lookup_insert_eq _ _ _)) as Hok2.
  rewrite insert_insert_eq, Eop, Epo, <- Hir in Hok2.
  eexists. split; [|split_and!].
  - apply (binv_put i ws _ (n + 1) m (new_slot b s).2 (data_ptr meta) _ _ Hb1 Hok2 Hp).
    + intros q Hq. by apply last_write_other.
    + apply writes_snoc; [apply Hb|cbn; lia].
    + cbn. lia.
    + rewrite last_write_snoc. cbn [w_ptr]. by rewrite Z.eqb_refl.
  - etrans; [exact Hg|]. split; [cbn; lia|]. intros; split_and!; (done || cbn; lia).
  - unfold output_ok. rewrite (proj2 (Z.eqb_neq _ _) Hp0). change (b_slots b') with (b_slots (new_slot b s).2). rewrite Hinfo. split; [|cbn; lia].
    split; [cbn; lia|]. rewrite Hinfo. cbn. lia.
  - done.
Qed.

(** An output on a storage that an earlier op wrote, or that is external. *)
Lemma build_alias_ok i j ws n m b meta map' e :
  binv i ws n m b -> n < env_slot_cap env -> n < env_edge_cap env -> 0 <= i < none32 -> 0 <= ndim meta <= 8 -> data_ptr meta ∈ ptrs ->
  m !! data_ptr meta = Some e -> pe_op e <> i ->
  ptr_ok (env_gen env) k map' (<[data_ptr meta := mkPentry i (u8 j) (pe_slot e)]> m) ->
  exists b' m',
    (let* b := (if pe_slot e <? env_slot_cap env then
         let b := set_info (set_map b map') (pe_slot e) (extend_death i) in
         let* n := compute_storage_nbytes meta in
         Ok (set_info b (pe_slot e) (extend_nbytes (sat_value n)))
       else Ok (set_map b map')) in
     let* b := (if is_valid32 (pe_op e) then push_edge env b (mkEdge (pe_op e) i (pe_port e) (u8 j) ALIAS) else Ok b) in
     Ok (pe_slot e, b))%result = Ok (pe_slot e, b') /\
    binv i (ws ++ [mkWrite (data_ptr meta) i j (pe_slot e)]) (n + 1) m' b' /\ grows b b' /\ output_ok i b' meta (pe_slot e) /\
    b_edges b' = b_edges b ++ output_edges ws i j [meta] [pe_slot e].
Proof.
  intros Hb Hn Hne Hi Hnd Hp E Hop Hok. assert (Hp0 : data_ptr meta <> 0) by (intros E0; by rewrite E0 in Hp).
  pose proof (bi_next _ _ _ _ _ Hb) as Hnx. destruct (bi_some _ _ _ _ _ Hb _ _ E) as [Hs He].
  rewrite (proj2 (Z.ltb_lt (pe_slot e) _)) by lia. rewrite storage_ok by done. cbn [rbind]. cbv zeta.
  set (ws' := ws ++ [mkWrite (data_ptr meta) i j (pe_slot e)]).
  assert (Hb1 : binv i ws' n (<[data_ptr meta := mkPentry i (u8 j) (pe_slot e)]> m) (set_map b map')).
  { apply (binv_put i ws); try done; [intros; by apply last_write_other|apply writes_snoc; [apply Hb|cbn; lia]|].
    unfold ws'. rewrite last_write_snoc. cbn [w_ptr]. by rewrite Z.eqb_refl. }
  destruct (binv_set_info i ws' n _ (set_map b map') (pe_slot e) (extend_death i) Hb1) as [Hb2 Hg2]; [cbn; lia|cbn; lia|intros x; cbn; split_and!; (done || lia)|intros x ?; cbn; lia|done|].
  set (b2 := set_info (set_map b map') (pe_slot e) (extend_death i)) in *. set (sz := sat_value (compute_storage_nbytes_scalar meta)).
  destruct (binv_set_info i ws' n _ b2 (pe_slot e) (extend_nbytes sz) Hb2) as [Hb3 Hg3]; [cbn; lia|cbn; lia|intros x; cbn; split_and!; (done || lia)|intros x ?; cbn; lia|
    intros x Hx; pose proof (storage_nbytes_range meta) as Hsz; fold sz in Hsz; unfold in_width in *; cbn; lia|].
  set (b3 := set_info b2 (pe_slot e) (extend_nbytes sz)) in *.
  assert (Hg13 : grows b b3).
  { etrans; [|etrans; [exact Hg2|exact Hg3]]. split; [cbn; lia|]. intros; split_and!; (done || cbn; lia). }
  assert (Hout : output_ok i b3 meta (pe_slot e)).
  { unfold output_ok. rewrite (proj2 (Z.eqb_neq _ _) Hp0). pose proof (bi_len _ _ _ _ _ Hb2). pose proof (bi_len _ _ _ _ _ Hb1).
    unfold covers, b3. rewrite !info_set, !decide_True by (done || lia). unfold b2. rewrite !info_set, !decide_True by (done || lia).
    destruct (bi_slots _ _ _ _ _ Hb1 (pe_slot e) Hs) as [? ?]. cbn in *. lia. }
  cbn [output_edges]. rewrite (proj2 (Z.eqb_neq _ _) Hp0), app_nil_r.
  destruct (last_write ws (data_ptr meta)) as [w|] eqn:Hlw.
  - destruct He as (Eo & Es & Ep). apply last_write_in in Hlw as [Hin _]. pose proof (bi_ws _ _ _ _ _ Hb) as Hws. rewrite Forall_forall in Hws. specialize (Hws w Hin).
    rewrite Eo in *. rewrite (proj2 (Z.eqb_neq _ _) Hop), valid_op by lia.
    destruct (push_edge_ok i ws' n _ b3 (mkEdge (w_op w) i (pe_port e) (u8 j) ALIAS) Hb3 Hne) as (b4 & -> & Hb4 & Hg4 & Ee & _). cbn [rbind].
    eexists b4, _. split; [done|]. split; [exact Hb4|]. split_and!; [by etrans|by eapply output_ok_grows|]. rewrite Ee, Ep. done.
  - destruct He as [Eo _]. rewrite Eo. change (is_valid32 none32) with false. cbn [rbind]. eexists b3, _. split; [done|]. split_and!; [|done|done|by rewrite app_nil_r].
    eapply binv_more; [exact Hb3|lia].
Qed.

Lemma build_output_ok i j ws n m b meta :
  binv i ws n m b -> n < env_slot_cap env -> n < env_edge_cap env -> 0 <= i < none32 -> 0 <= ndim meta <= 8 ->
  (data_ptr meta = 0 \/ data_ptr meta ∈ ptrs) ->
  exists id b' m', build_output env i j meta b = Ok (id, b') /\ binv i (ws ++ [mkWrite (data_ptr meta) i j id]) (n + 1) m' b' /\ grows b b' /\
    output_ok i b' meta id /\ b_edges b' = b_edges b ++ output_edges ws i j [meta] [id].
Proof.
  intros Hb Hn Hne Hi Hnd Hp. unfold build_output. destruct Hp as [Hp|Hp].
  { rewrite Hp. cbn. exists none32, b, m. rewrite Hp. cbn. split; [done|]. split_and!; [|done| |by rewrite app_nil_r].
    - apply binv_null_write; [|lia]. eapply binv_more; [done|lia].
    - unfold output_ok. by rewrite Hp. }
  assert (Hp0 : data_ptr meta <> 0) by (intros E; by rewrite E in Hp). pose proof (bi_next _ _ _ _ _ Hb) as Hnx.
  rewrite (proj2 (Z.eqb_neq _ _) Hp0), Hmask.
  destruct (ptr_map_insert_spec (env_gen env) k Hk (b_map b) m (data_ptr meta) i (u8 j) 0) as (map' & r & idx & -> & Hidx & Hir & Hlive & Hkey & Hm); [apply Hb|apply room_for; [apply Hb|done]|].
  assert (Hfresh : forall e', ptr_ok (env_gen env) k map' (<[data_ptr meta := e']> m) -> pe_op e' = i -> pe_port e' = u8 j ->
     (forall w, last_write ws (data_ptr meta) = Some w -> w_op w = i) -> was_alias r = false ->
     exists id b' m', (if was_alias r then Fatal "" else if b_next (set_map b map') <? env_slot_cap env then
        (let* n := compute_storage_nbytes meta in
         let '(id, b) := new_slot (set_map b map') (slot_of_meta meta i i (sat_value n) false) in
         Ok (id, set_map b (set_slot_id (b_map b) (ir_slot r) id)))%result
        else Ok (none32, set_map b map')) = Ok (id, b') /\
      binv i (ws ++ [mkWrite (data_ptr meta) i j id]) (n + 1) m' b' /\ grows b b' /\ output_ok i b' meta id /\ b_edges b' = b_edges b ++ output_edges ws i j [meta] [id]).
  { intros e' Hok Eo Ep Hw Ha. rewrite Ha. cbn [set_map b_next]. rewrite (proj2 (Z.ltb_lt (b_next b) _)) by lia. rewrite storage_ok by done. cbn [rbind].
    destruct (build_fresh_ok i j ws n m b meta map' r idx e') as (m' & H1 & H2 & H3 & H4); try done.
    eexists (b_next b), _, m'. split; [done|]. split_and!; [exact H1|exact H2|exact H3|]. cbn [output_edges]. rewrite (proj2 (Z.eqb_neq _ _) Hp0), app_nil_r.
    destruct (last_write ws (data_ptr meta)) as [w|]; [|by rewrite app_nil_r]. rewrite (Hw w eq_refl), Z.eqb_refl, app_nil_r. done. }
  destruct (m !! data_ptr meta) as [e|] eqn:E.
  - destruct Hm as (Ha & Eo & Epo & Esl & Hok). destruct (bi_some _ _ _ _ _ Hb _ _ E) as [Hs He].
    destruct (Z.eqb_spec (pe_op e) i) as [Eq|Hne2]; cbn [negb] in Ha.
    + destruct (Hfresh _ Hok eq_refl eq_refl) as (id & b' & m' & Heq & H); [|done|].
      { intros w Hw. rewrite Hw in He. destruct He as (<- & _). done. }
      rewrite Ha in *. exists id, b', m'. split; [exact Heq|exact H].
    + rewrite Ha, Eo, Epo, Esl. destruct (build_alias_ok i j ws n m b meta map' e) as (b' & m' & Heq & H); try done.
      exists (pe_slot e), b', m'. split; [exact Heq|exact H].
  - destruct Hm as [Ha Hok]. destruct (Hfresh _ Hok eq_refl eq_refl) as (id & b' & m' & Heq & H); [|done|].
    { intros w Hw. by rewrite (bi_none _ _ _ _ _ Hb _ Hp0 E) in Hw. }
    rewrite Ha in *. exists id, b', m'. split; [exact Heq|exact H].
Qed.

(** ** The operands of one op *)

Definition meta_ok (meta : TensorMeta) : Prop := 0 <= ndim meta <= 8 /\ (data_ptr meta = 0 \/ data_ptr meta ∈ ptrs).

Lemma build_inputs_ok i ws ms j n m b :
  binv i ws n m b -> n + Z.of_nat (length ms) <= env_slot_cap env -> n + Z.of_nat (length ms) <= env_edge_cap env -> 0 <= i < none32 ->
  Forall meta_ok ms -> Forall (fun w => w_op w < i) ws ->
  exists idxs ids b' m', build_inputs env i j ms b = Ok (idxs, ids, b') /\ binv i ws (n + Z.of_nat (length ms)) m' b' /\ grows b b' /\
    Forall3 (input_ok ws i b') ms idxs ids /\ b_edges b' = b_edges b ++ input_edges ws i j ms.
Proof.
  revert j n m b. induction ms as [|meta ms IH]; intros j n m b Hb Hn He Hi Hms Hlt.
  { exists [], [], b, m. cbn. rewrite app_nil_r, Z.add_0_r. split_and!; try done. constructor. }
  apply Forall_cons in Hms as [[Hnd Hp] Hms]. cbn [length] in *.
  destruct (build_input_ok i j ws n m b meta) as (idx & id & b1 & m1 & E1 & Hb1 & Hg1 & Hok & Ee1); try done; [lia..|].
  destruct (IH (j + 1) (n + 1) m1 b1) as (idxs & ids & b2 & m2 & E2 & Hb2 & Hg2 & Hoks & Ee2); try done; [lia..|].
  exists (idx :: idxs), (id :: ids), b2, m2. cbn [build_inputs]. rewrite E1. cbn [rbind]. rewrite E2. cbn [rbind]. split; [done|]. split_and!.
  - by replace (n + Z.of_nat (S (length ms))) with (n + 1 + Z.of_nat (length ms)) by lia.
  - by etrans.
  - constructor; [|done]. by eapply input_ok_grows.
  - rewrite Ee2, Ee1, <- app_assoc. cbn [input_edges]. by rewrite app_nil_r.
Qed.

Lemma build_outputs_ok i ws ms j n m b :
  binv i ws n m b -> n + Z.of_nat (length ms) <= env_slot_cap env -> n + Z.of_nat (length ms) <= env_edge_cap env -> 0 <= i < none32 ->
  Forall meta_ok ms ->
  exists ids b' m', build_outputs env i j ms b = Ok (ids, b') /\ binv i (ws ++ output_writes i j ms ids) (n + Z.of_nat (length ms)) m' b' /\ grows b b' /\
    Forall2 (output_ok i b') ms ids /\ b_edges b' = b_edges b ++ output_edges ws i j ms ids.
Proof.
  revert ws j n m b. induction ms as [|meta ms IH]; intros ws j n m b Hb Hn He Hi Hms.
  { exists [], b, m. cbn. rewrite !app_nil_r, Z.add_0_r. split_and!; try done. }
  apply Forall_cons in Hms as [[Hnd Hp] Hms]. cbn [length] in *.
  destruct (build_output_ok i j ws n m b meta) as (id & b1 & m1 & E1 & Hb1 & Hg1 & Hok & Ee1); try done; [lia..|].
  destruct (IH (ws ++ [mkWrite (data_ptr meta) i j id]) (j + 1) (n + 1) m1 b1) as (ids & b2 & m2 & E2 & Hb2 & Hg2 & Hoks & Ee2); try done; [lia..|].
  exists (id :: ids), b2, m2. cbn [build_outputs]. rewrite E1. cbn [rbind]. rewrite E2. cbn [rbind]. split; [done|]. split_and!.
  - replace (n + Z.of_nat (S (length ms))) with (n + 1 + Z.of_nat (length ms)) by lia. cbn [output_writes]. rewrite <- app_assoc in Hb2. exact Hb2.
  - by etrans.
  - constructor; [|done]. by eapply output_ok_grows.
  - rewrite Ee2, Ee1, <- app_assoc. cbn [output_edges]. by rewrite app_nil_r.
Qed.

(** ** One op, and the trace *)

Definition op_ok (ws : list write) (i : Z) (b : bstate) (te : TraceEntry) : Prop :=
  Forall3 (input_ok ws i b) (default [] (input_metas te)) (default [] (input_trace_indices te)) (default [] (input_slot_ids te)) /\
  Forall2 (output_ok i b) (default [] (output_metas te)) (default [] (output_slot_ids te)).

Lemma op_ok_grows ws i b b' te : grows b b' -> op_ok ws i b te -> op_ok ws i b' te.
Proof.
  intros Hg [Hin Hout]. split.
  - eapply Forall3_impl; [exact Hin|]. intros; by eapply input_ok_grows.
  - eapply Forall2_impl; [exact Hout|]. intros; by eapply output_ok_grows.
Qed.

Lemma binv_next_op i ws n m b : binv i ws n m b -> binv (i + 1) ws n m b.
Proof.
  intros []. split; try done.
  - intros s Hs. destruct (bi_slots0 s Hs). lia.
  - eapply Forall_impl; [done|]. cbn. lia.
Qed.

Definition operands (te : TraceEntry) : Z := Z.of_nat (length (default [] (input_metas te)) + length (default [] (output_metas te))).

Lemma entry_arrays te idxs ins outs : (input_metas te = None -> output_metas te = None) ->
  (input_metas te = None -> idxs = [] /\ ins = [] /\ outs = []) ->
  let te' := with_slots te idxs ins outs in
  default [] (input_trace_indices te') = idxs /\ default [] (input_slot_ids te') = ins /\ default [] (output_slot_ids te') = outs.
Proof. intros H1 H2. cbn. destruct (input_metas te); [done|]. destruct H2 as (-> & -> & ->); done. Qed.

Lemma build_op_ok metas first i it ws n m b :
  let te0 := entry_of_item env metas first it in
  binv i ws n m b -> n + operands te0 <= env_slot_cap env -> n + operands te0 <= env_edge_cap env -> 0 <= i < none32 ->
  Forall meta_ok metas -> Forall (fun w => w_op w < i) ws -> e_num_scalar_args (it_entry it) <= 5 ->
  exists idxs ins outs b' m', let te := with_slots te0 idxs ins outs in
    build_op env metas first i it b = Ok (te, b') /\ binv i (ws ++ op_writes i te) (n + operands te0) m' b' /\ grows b b' /\
    op_ok ws i b' te /\ b_edges b' = b_edges b ++ op_edges ws i te.
Proof.
  intros te0 Hb Hn He Hi Hms Hlt Hsc. unfold build_op. rewrite (proj2 (Z.leb_le _ _) Hsc). cbn [require rbind]. cbv zeta. fold te0.
  set (b0 := mkBuild _ _ _ _ _ _). assert (Hb0 : binv i ws n m b0) by (destruct Hb; by split).
  assert (Hg0 : grows b b0) by (split; [cbn; lia|intros; split_and!; (done || cbn; lia)]).
  assert (Hin : Forall meta_ok (default [] (input_metas te0))).
  { unfold te0, entry_of_item. cbn. destruct (is_valid64 _); cbn; [by apply Forall_take, Forall_drop|constructor]. }
  assert (Hout : Forall meta_ok (default [] (output_metas te0))).
  { unfold te0, entry_of_item. cbn. destruct (is_valid64 _); cbn; [by apply Forall_take, Forall_drop|constructor]. }
  unfold operands in *.
  destruct (build_inputs_ok i ws (default [] (input_metas te0)) 0 n m b0) as (idxs & ins & b1 & m1 & E1 & Hb1 & Hg1 & Hok1 & Ee1); try done; [lia..|].
  rewrite E1. cbn [rbind].
  destruct (build_outputs_ok i ws (default [] (output_metas te0)) 0 (n + Z.of_nat (length (default [] (input_metas te0)))) m1 b1) as (outs & b2 & m2 & E2 & Hb2 & Hg2 & Hok2 & Ee2); try done; [lia..|].
  rewrite E2. cbn [rbind]. exists idxs, ins, outs, b2, m2. cbv zeta. split; [done|].
  destruct (entry_arrays te0 idxs ins outs) as (A1 & A2 & A3).
  { unfold te0, entry_of_item. cbn. by destruct (is_valid64 _). }
  { intros E. assert (Eo : output_metas te0 = None) by (unfold te0, entry_of_item in E |- *; cbn in *; by destruct (is_valid64 _)).
    rewrite E in Hok1. rewrite Eo in Hok2. cbn in Hok1, Hok2. inversion Hok1. inversion Hok2. done. }
  unfold op_writes, op_ok, op_edges. rewrite A1, A2, A3. change (input_metas (with_slots te0 idxs ins outs)) with (input_metas te0).
  change (output_metas (with_slots te0 idxs ins outs)) with (output_metas te0). split_and!.
  - by replace (n + Z.of_nat (length (default [] (input_metas te0)) + length (default [] (output_metas te0)))) with
      (n + Z.of_nat (length (default [] (input_metas te0))) + Z.of_nat (length (default [] (output_metas te0)))) by lia.
  - etrans; [exact Hg0|]. by etrans.
  - eapply Forall3_impl; [exact Hok1|]. intros. by eapply input_ok_grows.
  - done.
  - rewrite Ee2, Ee1, <- app_assoc. done.
Qed.

(** The entry of an item with some slots in it. *)
Definition entry_for (metas : list TensorMeta) (first : Z) (it : item) (te : TraceEntry) : Prop :=
  exists idxs ins outs, te = with_slots (entry_of_item env metas first it) idxs ins outs.

Definition operands_of (metas : list TensorMeta) (first : Z) (its : list item) : Z :=
  foldr (fun it n => operands (entry_of_item env metas first it) + n) 0 its.

Lemma operands_of_nonneg metas first its : 0 <= operands_of metas first its.
Proof.
  unfold operands_of. induction its as [|it its IH]; cbn [foldr]; [lia|].
  assert (0 <= operands (entry_of_item env metas first it)) by (unfold operands; lia). lia.
Qed.

Lemma build_ops_ok metas first its i ws n m b :
  binv i ws n m b -> n + operands_of metas first its <= env_slot_cap env -> n + operands_of metas first its <= env_edge_cap env ->
  0 <= i -> i + Z.of_nat (length its) <= none32 -> Forall meta_ok metas -> Forall (fun w => w_op w < i) ws ->
  Forall (fun it => e_num_scalar_args (it_entry it) <= 5) its ->
  exists tes b' m', build_ops env metas first i its b = Ok (tes, b') /\
    binv (i + Z.of_nat (length its)) (ws ++ trace_writes i tes) (n + operands_of metas first its) m' b' /\ grows b b' /\
    (forall x te, tes !! x = Some te -> op_ok (ws ++ trace_writes i (take x tes)) (i + Z.of_nat x) b' te) /\
    Forall2 (entry_for metas first) its tes /\ b_edges b' = b_edges b ++ trace_edges ws i tes.
Proof.
  revert i ws n m b. induction its as [|it its IH]; intros i ws n m b Hb Hn He Hi Hlen Hms Hlt Hsc.
  { exists [], b, m. cbn. rewrite !app_nil_r, !Z.add_0_r. split_and!; try done. }
  cbn [length operands_of foldr] in *. fold (operands_of metas first its) in *. apply Forall_cons in Hsc as [Hsc1 Hsc].
  pose proof (operands_of_nonneg metas first its).
  destruct (build_op_ok metas first i it ws n m b) as (idxs & ins & outs & b1 & m1 & E1 & Hb1 & Hg1 & Hok1 & Ee1); try done; [lia..|].
  set (te := with_slots _ idxs ins outs) in *.
  destruct (IH (i + 1) (ws ++ op_writes i te) (n + operands (entry_of_item env metas first it)) m1 b1) as (tes & b2 & m2 & E2 & Hb2 & Hg2 & Hok2 & Hf2 & Ee2); try done; [by apply binv_next_op|lia..| |].
  { apply Forall_app. split; [eapply Forall_impl; [exact Hlt|]; cbn; lia|]. eapply Forall_impl; [apply output_writes_op|]. cbn. lia. }
  exists (te :: tes), b2, m2. cbn [build_ops]. rewrite E1. cbn [rbind]. rewrite E2. cbn [rbind]. split; [done|]. split_and!.
  - replace (i + Z.of_nat (S (length its))) with (i + 1 + Z.of_nat (length its)) by lia. rewrite Z.add_assoc. cbn [trace_writes]. rewrite app_assoc. exact Hb2.
  - by etrans.
  - intros [|x] te' Hx; cbn in Hx.
    + injection Hx as <-. cbn [take trace_writes]. rewrite app_nil_r, Z.add_0_r. by eapply op_ok_grows.
    + specialize (Hok2 x te' Hx). cbn [take trace_writes]. rewrite app_assoc. by replace (i + Z.of_nat (S x)) with (i + 1 + Z.of_nat x) by lia.
  - constructor; [|done]. by exists idxs, ins, outs.
  - rewrite Ee2, Ee1, <- app_assoc. done.
Qed.

End Build.
