(* ===== verification/BuildTheorems.v ===== *)
(** * BuildTheorems.v: the regions that a build makes

    The scratch of the build keeps its invariant from build to build; the
    region and the graph of each build are the ones that the trace says; and
    the memory plan of the region keeps each value until its last read. *)

From stdpp Require Import base list strings gmap.
From Stdlib Require Import ZArith Lia.
From S2P Require Import Prelude.
From S2P Require Import Types.
From S2P Require Import Hash.
From S2P Require Import ContentHash.
From S2P Require Import MetaLog.
From S2P Require Import TraceRing.
From S2P Require Import StorageNbytes.
From S2P Require Import TraceGraph.
From S2P Require Import CKernel.
From S2P Require Import PtrMap.
From S2P Require Import BuildTrace.
From S2P Require Import BuildProofs.
#[local] Open Scope Z_scope.

(** ** The scratch *)

Definition map_gens (g : Z) (map : list PtrSlot) : Prop := Forall (fun s => 0 <= ps_gen s <= g) map.

Record scratch_ok (sc : Scratch) : Prop := {
  so_map : (map_cap_ sc = 0 /\ scratch_map_ sc = []) \/
    exists k, 0 <= k <= 30 /\ map_cap_ sc = 2 ^ k /\ ptr_mask_ sc = 2 ^ k - 1 /\ Z.of_nat (length (scratch_map_ sc)) = 2 ^ k;
  so_gens : map_gens (map_gen_ sc) (scratch_map_ sc);
  so_gen : 0 <= map_gen_ sc < 256;
  so_caps : 0 <= slot_cap_max_ sc < 2 ^ 32 /\ 0 <= edge_cap_max_ sc < 2 ^ 32;
}.

Lemma new_scratch_ok : scratch_ok new_scratch.
Proof. split; cbn; [by left|constructor|lia|lia]. Qed.

(** The generation of no slot is the one of the next build. *)
Record scratch_ready (k : Z) (sc : Scratch) : Prop := {
  sr_k : 0 <= k <= 30;
  sr_cap : map_cap_ sc = 2 ^ k;
  sr_mask : ptr_mask_ sc = 2 ^ k - 1;
  sr_len : Z.of_nat (length (scratch_map_ sc)) = 2 ^ k;
  sr_fresh : Forall (fun s => ps_gen s <> map_gen_ sc) (scratch_map_ sc);
  sr_gens : map_gens (map_gen_ sc) (scratch_map_ sc);
  sr_gen : 0 <= map_gen_ sc < 256;
  sr_caps : 0 <= slot_cap_max_ sc < 2 ^ 32 /\ 0 <= edge_cap_max_ sc < 2 ^ 32;
}.

Lemma bit_ceil_pow x : 1 < x < 2 ^ 30 -> exists k, 0 <= k <= 30 /\ bit_ceil x = 2 ^ k.
Proof.
  intros Hx. unfold bit_ceil. rewrite (proj2 (Z.leb_gt _ _)) by lia. exists (Z.log2_up x). split; [|done]. split; [apply Z.log2_up_nonneg|].
  apply Z.log2_up_le_pow2; lia.
Qed.

Lemma needed_map_pow outputs : 0 <= outputs -> exists k, 0 <= k <= 30 /\
  (if MAX_PTR_MAP_CAP <=? Z.max MIN_PTR_MAP_CAP (mul_sat 32 (add_sat 32 outputs 256) 2) then MAX_PTR_MAP_CAP
   else bit_ceil (Z.max MIN_PTR_MAP_CAP (mul_sat 32 (add_sat 32 outputs 256) 2))) = 2 ^ k.
Proof.
  intros Ho. destruct (Z.leb_spec MAX_PTR_MAP_CAP (Z.max MIN_PTR_MAP_CAP (mul_sat 32 (add_sat 32 outputs 256) 2))) as [|Hlt].
  - exists 30. done.
  - apply bit_ceil_pow. change MAX_PTR_MAP_CAP with (2 ^ 30) in Hlt. unfold MIN_PTR_MAP_CAP in *. lia.
Qed.

Lemma pow2_pos k : 0 <= k -> 0 < 2 ^ k.
Proof. intros. by apply Z.pow_pos_nonneg. Qed.

Lemma ensure_ok sc ins outs : scratch_ok sc -> 0 <= ins < 2 ^ 32 -> 0 <= outs < 2 ^ 32 ->
  let sc' := ensure_scratch_buffers sc ins outs in
  (exists k, 0 <= k <= 30 /\ map_cap_ sc' = 2 ^ k /\ ptr_mask_ sc' = 2 ^ k - 1 /\ Z.of_nat (length (scratch_map_ sc')) = 2 ^ k) /\
  scratch_ok sc' /\ add_sat 32 ins outs <= edge_cap_max_ sc'.
Proof.
  intros [Hm Hgs Hg [Hs He]] Hi Ho sc'. unfold sc', ensure_scratch_buffers. clear sc'.
  pose proof (add_sat_range 32 outs 1024 ltac:(lia) ltac:(lia) ltac:(lia)). pose proof (add_sat_range 32 ins outs ltac:(lia) ltac:(lia) ltac:(lia)).
  destruct (needed_map_pow outs ltac:(lia)) as (k & Hk & Ek). cbv zeta. rewrite Ek. clear Ek. pose proof (pow2_pos k ltac:(lia)).
  assert (Hk2 : 2 ^ k <= 2 ^ 30) by (apply Z.pow_le_mono_r; lia).
  assert (Hcaps : forall a b, 0 <= a < 2 ^ 32 -> 0 <= b < 2 ^ 32 ->
     0 <= Z.max a (Z.max MIN_SCRATCH_SLOT_CAP (add_sat 32 outs 1024)) < 2 ^ 32 /\ 0 <= Z.max b (Z.max MIN_SCRATCH_EDGE_CAP (add_sat 32 ins outs)) < 2 ^ 32).
  { intros. unfold MIN_SCRATCH_SLOT_CAP, MIN_SCRATCH_EDGE_CAP. lia. }
  destruct (Z.ltb_spec (map_cap_ sc) (2 ^ k)) as [Hlt|Hge].
  - assert (Hex : exists k', 0 <= k' <= 30 /\ 2 ^ k = 2 ^ k' /\ u32 (2 ^ k - 1) = 2 ^ k' - 1 /\ Z.of_nat (length (replicate (Z.to_nat (2 ^ k)) zero_ptr_slot)) = 2 ^ k').
    { exists k. rewrite wrap_small, length_replicate by lia. split_and!; (done || lia). }
    split; [exact Hex|]. split; [|cbn; lia]. split; cbn; [by right| |lia|by apply Hcaps]. apply Forall_replicate. cbn. lia.
  - destruct Hm as [[E _]|Hm]; [lia|]. split; [exact Hm|]. split; [|cbn; lia]. split; cbn; [by right|done|done|by apply Hcaps].
Qed.

Lemma next_generation_ready sc k : scratch_ok sc -> 0 <= k <= 30 -> map_cap_ sc = 2 ^ k -> ptr_mask_ sc = 2 ^ k - 1 -> Z.of_nat (length (scratch_map_ sc)) = 2 ^ k ->
  scratch_ready k (next_generation sc).
Proof.
  intros [_ Hgs Hg Hc] Hk Ec Em El. unfold next_generation. cbv zeta. pose proof (pow2_pos k ltac:(lia)).
  destruct (Z.eqb_spec (u8 (map_gen_ sc + 1)) 0) as [E|Hne].
  - split; cbn; try done; rewrite ?length_replicate; try lia; apply Forall_replicate; cbn; lia.
  - assert (Hlt : map_gen_ sc < 255) by (destruct (Z.eq_dec (map_gen_ sc) 255) as [E|]; [by rewrite E in Hne|lia]).
    assert (Hr : u8 (map_gen_ sc + 1) = map_gen_ sc + 1) by (apply wrap_small; lia).
    rewrite Hr in *. split; cbn; try done; try lia; eapply Forall_impl; try exact Hgs; cbn; lia.
Qed.

(** ** What a build leaves of its state *)

Record bframe (g : Z) (b b' : bstate) : Prop := {
  fr_gens : map_gens g (b_map b) -> map_gens g (b_map b');
  fr_len : length (b_map b') = length (b_map b);
  fr_fold : b_fold b' = b_fold b;
  fr_aux : b_aux b' = b_aux b;
}.

#[export] Instance bframe_refl g : Reflexive (bframe g).
Proof. by split. Qed.
#[export] Instance bframe_trans g : Transitive (bframe g).
Proof. intros b1 b2 b3 [] []. split; [auto|congruence..]. Qed.

Lemma map_gens_at g map i : 0 <= g -> map_gens g map -> 0 <= ps_gen (ptr_slot_at map i) <= g.
Proof.
  intros Hg H. unfold ptr_slot_at, aget. destruct (map !! Z.to_nat i) as [s|] eqn:E; cbn; [|lia].
  unfold map_gens in H. rewrite Forall_forall in H. apply H. by eapply list_elem_of_lookup_2.
Qed.

Lemma insert_frame n map gen mask key op port slot probe : 0 <= gen ->
  let map' := (insert_probe n map gen mask key op port slot probe).1 in (map_gens gen map -> map_gens gen map') /\ length map' = length map.
Proof.
  intros Hg. revert probe. induction n as [|n IH]; intros probe; [done|]. cbn [insert_probe]. cbv zeta.
  destruct (negb _); [|destruct (_ =? key); [|apply IH]]; cbn; rewrite length_aset; split; try done; intros H; apply Forall_insert; (done || cbn; lia || by apply map_gens_at).
Qed.

Lemma set_slot_id_frame map w slot g : 0 <= g -> (map_gens g map -> map_gens g (set_slot_id map w slot)) /\ length (set_slot_id map w slot) = length map.
Proof.
  intros Hg. destruct w; [|done]. cbn. rewrite length_aset. split; [|done]. intros H. apply Forall_insert; [done|]. cbn. by apply map_gens_at.
Qed.

Lemma push_edge_frame g env b e b' : push_edge env b e = Ok b' -> bframe g b b'.
Proof. unfold push_edge. intros H. inv_ok. by split. Qed.

Lemma build_input_frame env i j m b x : 0 <= env_gen env -> build_input env i j m b = Ok x -> bframe (env_gen env) b x.2.
Proof.
  intros Hg H. unfold build_input in H. cbv zeta in H. destruct (is_valid32 _).
  - inv_ok. apply (push_edge_frame (env_gen env)) in Hok. destruct (_ <? _); [|done]. etrans; [exact Hok|]. by split.
  - destruct (_ && _); [|by inv_ok]. inv_ok. cbn [new_slot] in H.
    pose proof (insert_frame (Z.to_nat (env_mask env + 1)) (b_map b) (env_gen env) (env_mask env) (data_ptr m) none32 0 (b_next b) 0 Hg) as Hf.
    unfold ptr_map_insert in H. cbn [b_map] in H. destruct (insert_probe _ _ _ _ _ _ _ _ _) as [map' r]. inv_ok. split; cbn in *; try done; apply Hf.
Qed.

Lemma build_inputs_frame env i ms j b x : 0 <= env_gen env -> build_inputs env i j ms b = Ok x -> bframe (env_gen env) b x.2.
Proof.
  intros Hg. revert j b x. induction ms as [|m ms IH]; intros j b x H; cbn in H; [by inv_ok|].
  apply rbind_ok in H as ([[idx id] b1] & H1 & H). apply rbind_ok in H as ([[idxs ids] b2] & H2 & H). inv_ok.
  apply build_input_frame in H1; [|done]. apply IH in H2. by etrans.
Qed.

Lemma build_output_frame env i j m b x : 0 <= env_gen env -> build_output env i j m b = Ok x -> bframe (env_gen env) b x.2.
Proof.
  intros Hg H. unfold build_output in H. cbv zeta in H. destruct (_ =? 0); [by inv_ok|].
  pose proof (insert_frame (Z.to_nat (env_mask env + 1)) (b_map b) (env_gen env) (env_mask env) (data_ptr m) i (u8 j) 0 0 Hg) as Hf.
  unfold ptr_map_insert in H. destruct (insert_probe _ _ _ _ _ _ _ _ _) as [map' r]. cbn [fst] in Hf.
  assert (Hf1 : bframe (env_gen env) b (set_map b map')) by (split; cbn; try done; apply Hf).
  destruct (was_alias r).
  - apply rbind_ok in H as (b1 & H1 & H). apply rbind_ok in H as (b2 & H2 & H). inv_ok. cbn.
    assert (Hf2 : bframe (env_gen env) b b1) by (destruct (_ <? _); inv_ok; [etrans; [exact Hf1|]; by split|done]).
    destruct (is_valid32 _); [|by inv_ok]. apply (push_edge_frame (env_gen env)) in H2. by etrans.
  - destruct (_ <? _); [|by inv_ok]. inv_ok. cbn [new_slot] in H. inv_ok. pose proof (set_slot_id_frame map' (ir_slot r) (b_next b) (env_gen env) Hg) as [H1 H2].
    etrans; [exact Hf1|]. split; cbn; done.
Qed.

Lemma build_outputs_frame env i ms j b x : 0 <= env_gen env -> build_outputs env i j ms b = Ok x -> bframe (env_gen env) b x.2.
Proof.
  intros Hg. revert j b x. induction ms as [|m ms IH]; intros j b x H; cbn in H; [by inv_ok|].
  apply rbind_ok in H as ([id b1] & H1 & H). apply rbind_ok in H as ([ids b2] & H2 & H). inv_ok.
  apply build_output_frame in H1; [|done]. apply IH in H2. by etrans.
Qed.

(** The fold of the content hash does not read the slots of an entry. *)
Lemma fold_with_slots st te idxs ins outs : fold_entry_ st (with_slots te idxs ins outs) = fold_entry_ st te.
Proof. done. Qed.

(** The hash and the cursor after the ops. *)
Lemma build_ops_frame env metas first its i b x : 0 <= env_gen env -> build_ops env metas first i its b = Ok x ->
  (map_gens (env_gen env) (b_map b) -> map_gens (env_gen env) (b_map x.2)) /\ length (b_map x.2) = length (b_map b) /\
  b_fold x.2 = fold_left fold_entry_ x.1 (b_fold b) /\ b_aux x.2 = foldl (fun a it => a + side_bytes it) (b_aux b) its.
Proof.
  intros Hg. revert i b x. induction its as [|it its IH]; intros i b x H; cbn in H; [by inv_ok|].
  apply rbind_ok in H as ([te b1] & H1 & H). apply rbind_ok in H as ([tes b2] & H2 & H). inv_ok. cbn.
  apply IH in H2 as (G2 & L2 & F2 & A2). cbn in *. rewrite F2, L2, A2. unfold build_op in H1.
  apply rbind_ok in H1 as (u & _ & H1). cbv zeta in H1. apply rbind_ok in H1 as ([[idxs ins] b3] & H3 & H1). apply rbind_ok in H1 as ([outs b4] & H4 & H1). inv_ok.
  apply build_inputs_frame in H3; [|done]. apply build_outputs_frame in H4; [|done]. destruct H3 as [G3 L3 F3 A3], H4 as [G4 L4 F4 A4]. cbn in *.
  split_and!; [auto|congruence|by rewrite F4, F3|by rewrite A4, A3].
Qed.

(** ** The scan *)

Definition sum_by (f : item -> Z) (its : list item) : Z := foldr (fun it n => f it + n) 0 its.

Definition n_in (it : item) : Z := e_num_inputs (it_entry it).
Definition n_out (it : item) : Z := e_num_outputs (it_entry it).
Definition n_scalars (it : item) : Z := e_num_scalar_args (it_entry it).

(** An item as the recorder writes it. *)
Definition item_ok (it : item) : Prop := 0 <= n_in it /\ 0 <= n_out it /\ 0 <= n_scalars it <= 5.

Lemma sum_by_nonneg f its : Forall (fun it => 0 <= f it) its -> 0 <= sum_by f its.
Proof. unfold sum_by. induction 1; cbn [foldr]; lia. Qed.

Lemma sum_by_le f g its : Forall (fun it => f it <= g it) its -> sum_by f its <= sum_by g its.
Proof. unfold sum_by. induction 1; cbn [foldr]; lia. Qed.

Lemma sum_by_add f g its : sum_by (fun it => f it + g it) its = sum_by f its + sum_by g its.
Proof. unfold sum_by. induction its; cbn [foldr]; lia. Qed.

Lemma sum_by_mul c f its : sum_by (fun it => f it * c) its = sum_by f its * c.
Proof. unfold sum_by. induction its; cbn [foldr]; lia. Qed.

(** The metadata of an item that has some lies before the end of the run. *)
Definition item_in_run (t : totals) (it : item) : Prop :=
  if is_valid64 (it_meta it) then u64 (it_meta it + n_in it + n_out it) <= t_max_meta_end t else n_in it + n_out it <= 0.

Lemma scan_items_spec its t0 t : Forall item_ok its ->
  0 <= t_inputs t0 -> 0 <= t_outputs t0 -> 0 <= t_scalars t0 ->
  t_inputs t0 + sum_by n_in its < 2 ^ 32 -> t_outputs t0 + sum_by n_out its < 2 ^ 32 -> t_scalars t0 + sum_by n_scalars its < 2 ^ 32 ->
  scan_items its t0 = inr t ->
  t_inputs t = t_inputs t0 + sum_by n_in its /\ t_outputs t = t_outputs t0 + sum_by n_out its /\ t_scalars t = t_scalars t0 + sum_by n_scalars its /\
  t_max_meta_end t0 <= t_max_meta_end t /\ Forall (item_in_run t) its.
Proof.
  intros Hok. revert t0. induction Hok as [|it its (Hi & Ho & Hs) Hits IH]; intros t0 Hi0 Ho0 Hs0 Bi Bo Bs H; cbn in H.
  { injection H as <-. cbn. split_and!; (lia || constructor). }
  cbn [sum_by foldr] in *. fold (sum_by n_in its) (sum_by n_out its) (sum_by n_scalars its) in *.
  assert (0 <= sum_by n_in its) by (apply sum_by_nonneg; eapply Forall_impl; [exact Hits|]; unfold item_ok; tauto).
  assert (0 <= sum_by n_out its) by (apply sum_by_nonneg; eapply Forall_impl; [exact Hits|]; unfold item_ok; tauto).
  assert (0 <= sum_by n_scalars its) by (apply sum_by_nonneg; eapply Forall_impl; [exact Hits|]; unfold item_ok; intros ? ?; lia).
  destruct (negb (is_valid64 (it_meta it)) && (0 <? arity (it_entry it))) eqn:E; [done|].
  change (e_num_inputs (it_entry it)) with (n_in it) in *. change (e_num_outputs (it_entry it)) with (n_out it) in *.
  change (e_num_scalar_args (it_entry it)) with (n_scalars it) in *.
  rewrite (Z.min_l (n_scalars it) 5), (wrap_small 32 (t_inputs t0 + _)), (wrap_small 32 (t_outputs t0 + _)), (wrap_small 32 (t_scalars t0 + _)) in H by lia.
  apply IH in H; cbn [t_inputs t_outputs t_scalars t_max_meta_end] in *; [|lia..]. destruct H as (-> & -> & -> & Hm & Hall).
  split_and!; [lia..| |].
  - destruct (is_valid64 _ && _) eqn:E2; [|done]. reflect_bools. lia.
  - constructor; [|done]. unfold item_in_run. destruct (is_valid64 (it_meta it)); cbn [negb andb] in E.
    + cbn [andb] in Hm. destruct (Z.ltb_spec (t_max_meta_end t0) (u64 (it_meta it + n_in it + n_out it))); lia.
    + unfold arity in E. fold (n_in it) (n_out it) in E. reflect_bools. lia.
Qed.

(** ** The precondition of a build *)

(** The storages that the copied metadata names. *)
Definition storages (metas : list TensorMeta) : gset Z := list_to_set (filter (fun p => p <> 0) (data_ptr <$> metas)).

(** What the recorder and the metadata log give to a build, and the room that
    the scratch must have: one slot of the address map for each storage, and
    one slot of the plan for each operand. *)
Record buildable (L : MetaLog) (sc : Scratch) (its : list item) (t : totals) (metas : list TensorMeta) : Prop := {
  bp_scratch : scratch_ok sc;
  bp_items : Forall item_ok its;
  bp_count : Z.of_nat (length its) < 2 ^ 28;
  bp_operands : sum_by (fun it => n_in it + n_out it) its < 2 ^ 32 - 1;
  bp_scan : scan_items its zero_totals = inr t;
  bp_order : Forall (fun it => is_valid64 (it_meta it) = true -> 0 <= t_first_meta t <= it_meta it /\ it_meta it + n_in it + n_out it < 2 ^ 64) its;
  bp_metas : copy_metas L t = Ok metas;
  bp_ndim : Forall (fun m => 0 <= ndim m <= 8) metas;
  bp_storages : Z.of_nat (size (storages metas)) <= map_cap_ (ensure_scratch_buffers sc (t_inputs t) (t_outputs t));
  bp_slots : t_inputs t + t_outputs t <= slot_cap_max_ (ensure_scratch_buffers sc (t_inputs t) (t_outputs t));
}.

(** ** The region in the terms of the plan *)

Definition alive_at (slots : list TensorSlot) (id i : Z) (s : TensorSlot) : Prop :=
  0 <= id /\ slots !! Z.to_nat id = Some s /\ birth_op s <= i <= death_op s.

(** An input of op [i]: its trace index and its slot are those of the last write
    to its storage, and the slot is alive at the read.  A storage that no op
    wrote before has an external slot. *)
Definition input_resolved (slots : list TensorSlot) (ws : list write) (i : Z) (m : TensorMeta) (idx id : Z) : Prop :=
  if data_ptr m =? 0 then idx = none32 /\ id = none32
  else exists s, alive_at slots id i s /\
    match last_write ws (data_ptr m) with
    | Some w => idx = w_op w /\ id = w_slot w /\ w_op w < i
    | None => idx = none32 /\ is_external s = true
    end.

(** An output of op [i]: its slot is alive at the op and holds its bytes. *)
Definition output_placed (slots : list TensorSlot) (i : Z) (m : TensorMeta) (id : Z) : Prop :=
  if data_ptr m =? 0 then id = none32
  else exists s, alive_at slots id i s /\ sat_value (compute_storage_nbytes_scalar m) <= nbytes s.

Definition op_resolved (slots : list TensorSlot) (ws : list write) (i : Z) (te : TraceEntry) : Prop :=
  Forall3 (input_resolved slots ws i) (default [] (input_metas te)) (default [] (input_trace_indices te)) (default [] (input_slot_ids te)) /\
  Forall2 (output_placed slots i) (default [] (output_metas te)) (default [] (output_slot_ids te)) /\
  Z.of_nat (length (default [] (input_metas te))) = num_inputs te /\ Z.of_nat (length (default [] (output_metas te))) = num_outputs te.

Lemma tensor_slots_lookup n infos id : 0 <= id < n -> tensor_slots n infos !! Z.to_nat id = Some (tensor_slot id (info infos id)).
Proof. intros H. unfold tensor_slots. rewrite list_lookup_fmap, lookup_seqZ_lt by lia. cbn. by rewrite !Z2Nat.id by lia. Qed.

Lemma covers_alive b id i : covers (b_slots b) (b_next b) id i ->
  alive_at (tensor_slots (b_next b) (b_slots b)) id i (tensor_slot id (info (b_slots b) id)).
Proof. intros [Hid Hc]. split; [lia|]. split; [by apply tensor_slots_lookup|done]. Qed.

Lemma input_ok_resolved ws i b m idx id : input_ok ws i b m idx id -> input_resolved (tensor_slots (b_next b) (b_slots b)) ws i m idx id.
Proof.
  unfold input_ok, input_resolved. destruct (data_ptr m =? 0); [done|]. intros [Hc H]. eexists. split; [by apply covers_alive|].
  by destruct (last_write ws (data_ptr m)).
Qed.

Lemma output_ok_placed i b m id : output_ok i b m id -> output_placed (tensor_slots (b_next b) (b_slots b)) i m id.
Proof.
  unfold output_ok, output_placed. destruct (data_ptr m =? 0); [done|]. intros [Hc H]. eexists. split; [by apply covers_alive|done].
Qed.

(** ** Lengths *)

Lemma load_run_length f p n : length (load_run f p n) = Z.to_nat n.
Proof. unfold load_run. by rewrite length_fmap, length_seqZ. Qed.

Lemma copy_run_length L start count metas : 0 <= start -> copy_run L start count = Ok metas -> Z.of_nat (length metas) = count.
Proof.
  intros Hs H. unfold copy_run in H. apply rbind_ok in H as (u & Hu & H). apply require_ok in Hu. reflect_bools.
  destruct (Z.eqb_spec count 0) as [->|Hc]; [by inv_ok|]. cbv zeta in H. injection H as <-. rewrite length_app, load_run_length.
  assert (Hpos : 0 <= u32 (Z.land start META_MASK) < META_CAPACITY).
  { unfold META_MASK. change META_CAPACITY with (2 ^ 20). rewrite land_mask_mod by lia. pose proof (Z.mod_pos_bound start (2 ^ 20)). rewrite wrap_small; lia. }
  set (pos := u32 _) in *. clearbody pos. destruct (Z.leb_spec count (META_CAPACITY - pos)).
  - rewrite Z.ltb_irrefl. cbn. lia.
  - rewrite (proj2 (Z.ltb_lt _ _)) by lia. rewrite load_run_length. lia.
Qed.

Lemma scan_max_range its t0 t : t_max_meta_end t0 < 2 ^ 64 -> scan_items its t0 = inr t -> t_max_meta_end t < 2 ^ 64.
Proof.
  revert t0. induction its as [|it its IH]; intros t0 H0 H; cbn in H; [by injection H as <-|].
  destruct (negb _ && _); [done|]. apply IH in H; [done|]. cbn. destruct (is_valid64 _ && _); [apply u64_range|done].
Qed.

(** The totals of a buildable trace. *)
Lemma buildable_totals L sc its t metas : buildable L sc its t metas ->
  t_inputs t = sum_by n_in its /\ t_outputs t = sum_by n_out its /\ t_scalars t = sum_by n_scalars its /\ Forall (item_in_run t) its /\
  0 <= sum_by n_in its /\ 0 <= sum_by n_out its /\ sum_by n_in its + sum_by n_out its < 2 ^ 32 - 1.
Proof.
  intros []. rewrite sum_by_add in bp_operands0.
  assert (Hi : 0 <= sum_by n_in its) by (apply sum_by_nonneg; eapply Forall_impl; [exact bp_items0|]; unfold item_ok; tauto).
  assert (Ho : 0 <= sum_by n_out its) by (apply sum_by_nonneg; eapply Forall_impl; [exact bp_items0|]; unfold item_ok; tauto).
  assert (Hs : sum_by n_scalars its <= 5 * Z.of_nat (length its)).
  { clear -bp_items0. unfold sum_by. induction bp_items0 as [|x l (_ & _ & ?) _ IH]; cbn [foldr length]; lia. }
  destruct (scan_items_spec its zero_totals t) as (H1 & H2 & H3 & _ & H5); cbn in *; (done || lia).
Qed.

(** Each op of a buildable trace finds its metadata in the copy. *)
Lemma entry_lengths L sc its t metas env it : buildable L sc its t metas -> it ∈ its ->
  let te := entry_of_item env metas (t_first_meta t) it in
  Z.of_nat (length (default [] (input_metas te))) = num_inputs te /\ Z.of_nat (length (default [] (output_metas te))) = num_outputs te.
Proof.
  intros Hp Hin te. pose proof (buildable_totals _ _ _ _ _ Hp) as (_ & _ & _ & Hall & _). rewrite Forall_forall in Hall. pose proof (Hall it Hin) as Hrun. clear Hall.
  pose proof (scan_max_range _ zero_totals _ ltac:(done) (bp_scan _ _ _ _ _ Hp)) as Hmax. destruct Hp. rewrite Forall_forall in bp_order0, bp_items0. specialize (bp_order0 it Hin). destruct (bp_items0 it Hin) as (Hi & Ho & _).
  unfold te, entry_of_item. cbn. destruct (is_valid64 (it_meta it)) eqn:Hv; [|done]. destruct (bp_order0 eq_refl) as [Hf Hb]. clear bp_order0.
  unfold item_in_run in Hrun. rewrite Hv, wrap_small in Hrun by (unfold n_in, n_out in *; lia).
  unfold copy_metas in bp_metas0. destruct (is_valid64 (t_first_meta t)) eqn:Hfv.
  2: { unfold is_valid64, none64, UINT64_MAX in Hv, Hfv. reflect_bools. lia. }
  cbv zeta in bp_metas0. apply rbind_ok in bp_metas0 as (u & Hu & Hc). apply require_ok in Hu. reflect_bools. apply copy_run_length in Hc; [|lia].
  unfold n_in, n_out, META_CAPACITY in *. change (Z.shiftl 1 20) with (2 ^ 20) in Hu. rewrite wrap_small in Hu by lia. rewrite !wrap_small in Hc by (rewrite ?wrap_small; lia).
  cbn [from_option id]. rewrite !length_take, !length_drop, wrap_small by lia. lia.
Qed.

(** ** The build as a whole *)

(** The entry records the op: its hashes, its flags and its metadata. *)
Definition records (t : totals) (published : option (list (Z * Z))) (ckernels : list (Z * Z)) (metas : list TensorMeta) (it : item) (te : TraceEntry) : Prop :=
  exists env, env_published env = published /\ env_ckernels env = ckernels /\ entry_for env metas (t_first_meta t) it te.

Record built_ok (its : list item) (g : TraceGraph) (r : BuiltRegion) : Prop := {
  bo_len : length (br_ops r) = length its;
  bo_ops x te : br_ops r !! x = Some te ->
    op_resolved (br_slots r) (trace_writes 0 (take x (br_ops r))) (Z.of_nat x) te;
  bo_graph : g = build_csr (trace_edges [] 0 (br_ops r)) (Z.of_nat (length its));
  bo_slots n s : br_slots r !! n = Some s -> slot_id s = Z.of_nat n /\ 0 <= birth_op s <= death_op s /\ death_op s <= Z.of_nat (length its) /\ in_width 64 (nbytes s);
  bo_edges : Z.of_nat (length (trace_edges [] 0 (br_ops r))) < 2 ^ 32;
  bo_hash : compute_content_hash (br_ops r) None = Ok (br_content_hash r);
  bo_side : sum_by side_bytes its <= br_side_bytes r;
}.

Lemma sum_side its : foldl (fun a it => a + side_bytes it) 0 its = sum_by side_bytes its.
Proof.
  assert (H : forall a, foldl (fun a it => a + side_bytes it) a its = a + sum_by side_bytes its); [|by rewrite H].
  unfold sum_by. induction its as [|it its IH]; intros a; cbn [foldl foldr]; [lia|]. rewrite IH. lia.
Qed.

Lemma side_fits its t : Forall item_ok its -> t_inputs t = sum_by n_in its -> t_outputs t = sum_by n_out its -> t_scalars t = sum_by n_scalars its ->
  sum_by side_bytes its <= aux_bytes t.
Proof.
  intros Hok Hi Ho Hs. unfold aux_bytes. rewrite Hi, Ho, Hs, <- !sum_by_mul, <- !sum_by_add. apply sum_by_le. eapply Forall_impl; [exact Hok|].
  intros it (H1 & H2 & H3). unfold side_bytes, n_in, n_out, n_scalars in *. destruct (is_valid64 _); lia.
Qed.

Lemma storages_ok metas : Forall (fun m => 0 <= ndim m <= 8) metas -> Forall (meta_ok (storages metas)) metas.
Proof.
  intros H. rewrite Forall_forall in H |- *. intros m Hm. split; [by apply H|]. destruct (decide (data_ptr m = 0)) as [|Hne]; [by left|right].
  apply elem_of_list_to_set, list_elem_of_filter. split; [done|]. by apply list_elem_of_fmap_2.
Qed.

Lemma storages_null metas : 0 ∉ storages metas.
Proof. unfold storages. rewrite elem_of_list_to_set, list_elem_of_filter. intros [? _]. done. Qed.

Lemma operands_le env metas first its : Forall item_ok its -> operands_of env metas first its <= sum_by n_in its + sum_by n_out its.
Proof.
  intros H. rewrite <- sum_by_add. unfold operands_of, sum_by. induction H as [|it its (Hi & Ho & _) _ IH]; cbn [foldr]; [lia|].
  assert (operands (entry_of_item env metas first it) <= n_in it + n_out it); [|lia]. unfold operands, entry_of_item. cbn.
  destruct (is_valid64 _); cbn [from_option id length]; rewrite ?length_take; unfold n_in, n_out in *; lia.
Qed.

(** The state at the start of the loop. *)
Lemma binv_start env k map ptrs : 0 <= k <= 30 -> ptr_ok (env_gen env) k map ∅ -> 0 <= env_slot_cap env ->
  binv env k ptrs 0 [] 0 ∅ (mkBuild map (replicate (Z.to_nat (env_slot_cap env)) zero_info) 0 [] 0 kSeed).
Proof.
  intros Hk Hok Hc. split; cbn; rewrite ?length_replicate; try done; lia.
Qed.

(** The whole of what a build gives. *)
Lemma build_trace_built L published ckernels sc its t metas : buildable L sc its t metas ->
  exists g r sc', build_trace_from L published ckernels sc its = Ok (Built g r, sc') /\ scratch_ok sc' /\ built_ok its g r /\
    Forall2 (records t published ckernels metas) its (br_ops r) /\ br_max_meta_end r = t_max_meta_end t.
Proof.
  intros Hp. pose proof (buildable_totals _ _ _ _ _ Hp) as (Ei & Eo & Es & _ & Pi & Po & Pio). pose proof Hp as [].
  unfold build_trace_from. rewrite bp_scan0, bp_metas0. cbn [rbind]. cbv zeta.
  destruct (ensure_ok sc (t_inputs t) (t_outputs t) bp_scratch0) as ((k & Hk & Hc & Hm & Hl) & Hsc & Hedge); [lia..|].
  set (sc1 := ensure_scratch_buffers sc (t_inputs t) (t_outputs t)) in *.
  pose proof (next_generation_ready sc1 k Hsc Hk Hc Hm Hl) as [_ Rcap Rmask Rlen Rfresh Rgens Rgen [Rslot Redge]].
  assert (Ecaps : slot_cap_max_ (next_generation sc1) = slot_cap_max_ sc1 /\ edge_cap_max_ (next_generation sc1) = edge_cap_max_ sc1) by (unfold next_generation; cbv zeta; by destruct (_ =? 0)).
  destruct Ecaps as [Ecs Ece]. set (sc2 := next_generation sc1) in *. set (cap := build_slot_cap sc2 t).
  assert (Hcap : t_inputs t + t_outputs t <= cap < none32).
  { unfold cap, build_slot_cap. rewrite Ecs, wrap_small by lia. unfold none32, UINT32_MAX. lia. }
  set (env := mkEnv (map_gen_ sc2) (ptr_mask_ sc2) cap (edge_cap_max_ sc2) published ckernels).
  assert (Hedge2 : t_inputs t + t_outputs t <= env_edge_cap env) by (cbn; rewrite Ece; rewrite add_sat_exact in Hedge by lia; done).
  assert (Hb0 : binv env k (storages metas) 0 [] 0 ∅ (mkBuild (scratch_map_ sc2) (replicate (Z.to_nat cap) zero_info) 0 [] 0 kSeed)).
  { apply (binv_start env k); [done| |cbn; lia]. apply ptr_ok_empty; [done|done|]. exact Rfresh. }
  pose proof (operands_le env metas (t_first_meta t) its bp_items0) as Hops.
  destruct (build_ops_ok env k Hk Rmask ltac:(cbn; lia) (storages metas) (storages_null metas) ltac:(rewrite <- Hc; exact bp_storages0)
    metas (t_first_meta t) its 0 [] 0 ∅ _ Hb0) as (tes & b & m & Eb & Hbinv & _ & Hres & Hent & Hedges);
    [change (env_slot_cap env) with cap; lia|lia|lia|unfold none32, UINT32_MAX; lia|by apply storages_ok|constructor| |].
  { eapply Forall_impl; [exact bp_items0|]. unfold item_ok, n_scalars. lia. }
  rewrite Eb. cbn [rbind].
  destruct (build_ops_frame env _ _ _ _ _ _ ltac:(cbn; lia) Eb) as (Fg & Fl & Ff & Fa). cbn [fst snd b_map b_fold b_aux] in Fg, Fl, Ff, Fa.
  assert (Hnx : 0 <= b_next b <= cap) by (pose proof (bi_next _ _ _ _ _ _ _ _ Hbinv); lia).
  rewrite Z.min_l by lia. eexists _, _, _. split; [done|]. split; [|split; [|split; [|done]]].
  - split; cbn; [right; exists k; split_and!; (done || lia)|by apply Fg|lia|lia].
  - split; cbn.
    + by rewrite (Forall2_length _ _ _ Hent).
    + intros x te Hx. destruct (Hres x te Hx) as [H1 H2]. rewrite Z.add_0_l in *. rewrite app_nil_l in *.
      split; [|split].
      * eapply Forall3_impl; [exact H1|]. intros. by apply input_ok_resolved.
      * eapply Forall2_impl; [exact H2|]. intros. by apply output_ok_placed.
      * destruct (Forall2_lookup_r _ _ _ _ _ Hent Hx) as (it & Hit & idxs & ins & outs & ->).
        apply (entry_lengths L sc its t metas env it Hp). by eapply list_elem_of_lookup_2.
    + by rewrite Hedges.
    + intros n s Hs. assert (Hn : (n < Z.to_nat (b_next b))%nat) by (apply lookup_lt_Some in Hs; unfold tensor_slots in Hs; by rewrite length_fmap, length_seqZ in Hs).
      rewrite <- (Nat2Z.id n), tensor_slots_lookup in Hs by lia. injection Hs as <-. split; [done|].
      destruct (bi_slots _ _ _ _ _ _ _ _ Hbinv (Z.of_nat n)) as [? ?]; [lia|].
      pose proof (bi_bytes _ _ _ _ _ _ _ _ Hbinv (Z.of_nat n)) as Hw. cbn. rewrite Z.add_0_l in *. split_and!; try lia. apply Hw. lia.
    + pose proof (bi_edges _ _ _ _ _ _ _ _ Hbinv) as He. rewrite Hedges in He. cbn [b_edges app] in He. lia.
    + unfold compute_content_hash. cbn [fold_start rbind]. by rewrite Ff.
    + by apply side_fits.
  - eapply Forall2_impl; [exact Hent|]. intros it te He. by exists env.
Qed.

(** ** The edges of the graph *)

Lemma trace_writes_range i tes : Forall (fun w => i <= w_op w < i + Z.of_nat (length tes)) (trace_writes i tes).
Proof.
  revert i. induction tes as [|te tes IH]; intros i; [constructor|]. cbn [trace_writes length]. apply Forall_app. split.
  - eapply Forall_impl; [apply output_writes_op|]. cbn. lia.
  - eapply Forall_impl; [apply IH|]. cbn. lia.
Qed.

Lemma input_edges_ends ws i j ms : Forall (fun e => e_dst e = i /\ exists w, w ∈ ws /\ e_src e = w_op w) (input_edges ws i j ms).
Proof.
  revert j. induction ms as [|m ms IH]; intros j; cbn; [constructor|]. apply Forall_app. split; [|done]. destruct (data_ptr m =? 0); [constructor|].
  destruct (last_write ws (data_ptr m)) as [w|] eqn:E; [|constructor]. apply Forall_singleton. split; [done|]. exists w. split; [|done]. by apply last_write_in in E as [? _].
Qed.

Lemma output_edges_ends ws i j ms ids : Forall (fun w => 0 <= w_op w <= i) ws -> 0 <= i ->
  Forall (fun e => e_dst e = i /\ 0 <= e_src e <= i) (output_edges ws i j ms ids).
Proof.
  revert ws j ids. induction ms as [|m ms IH]; intros ws j [|id ids] Hws Hi; cbn; try constructor. apply Forall_app. split.
  - destruct (data_ptr m =? 0); [constructor|]. destruct (last_write ws (data_ptr m)) as [w|] eqn:E; [|constructor]. destruct (_ =? i); [constructor|].
    apply Forall_singleton. split; [done|]. apply last_write_in in E as [Hin _]. rewrite Forall_forall in Hws. by apply Hws.
  - apply IH; [|done]. apply Forall_app. split; [done|]. apply Forall_singleton. cbn. lia.
Qed.

(** The edges of op [i] enter it from no later op. *)
Lemma op_edges_ends ws i te : Forall (fun w => 0 <= w_op w < i) ws -> 0 <= i -> Forall (fun e => e_dst e = i /\ 0 <= e_src e <= i) (op_edges ws i te).
Proof.
  intros Hws Hi. apply Forall_app. split.
  - eapply Forall_impl; [apply input_edges_ends|]. cbn. intros e (-> & w & Hw & ->). rewrite Forall_forall in Hws. specialize (Hws w Hw). cbn in Hws. lia.
  - apply output_edges_ends; [|done]. eapply Forall_impl; [exact Hws|]. cbn. lia.
Qed.

Lemma writes_before ws i te : Forall (fun w => 0 <= w_op w < i) ws -> 0 <= i -> Forall (fun w => 0 <= w_op w < i + 1) (ws ++ op_writes i te).
Proof.
  intros Hws Hi. apply Forall_app. split; [eapply Forall_impl; [exact Hws|]; cbn; lia|]. eapply Forall_impl; [apply output_writes_op|]. cbn. lia.
Qed.

Lemma trace_edges_ends ws i tes : Forall (fun w => 0 <= w_op w < i) ws -> 0 <= i ->
  Forall (fun e => i <= e_dst e < i + Z.of_nat (length tes) /\ 0 <= e_src e < i + Z.of_nat (length tes)) (trace_edges ws i tes).
Proof.
  revert ws i. induction tes as [|te tes IH]; intros ws i Hws Hi; cbn [trace_edges length]; [constructor|]. apply Forall_app. split.
  - eapply Forall_impl; [by apply op_edges_ends|]. cbn. lia.
  - eapply Forall_impl; [apply IH; [by apply writes_before|lia]|]. cbn. lia.
Qed.

Lemma filter_all {A} (P : A -> Prop) `{!forall x, Decision (P x)} l : Forall P l -> filter P l = l.
Proof. induction 1; [done|]. by rewrite filter_cons, decide_True, IHForall. Qed.

Lemma filter_none {A} (P : A -> Prop) `{!forall x, Decision (P x)} l : Forall (fun x => ~ P x) l -> filter P l = [].
Proof. induction 1; [done|]. by rewrite filter_cons, decide_False. Qed.

(** The edges that enter op [i + x] are those of the op. *)
Lemma trace_edges_at tes ws i x te : Forall (fun w => 0 <= w_op w < i) ws -> 0 <= i -> tes !! x = Some te ->
  filter (fun e => e_dst e = i + Z.of_nat x) (trace_edges ws i tes) = op_edges (ws ++ trace_writes i (take x tes)) (i + Z.of_nat x) te.
Proof.
  revert ws i x. induction tes as [|te' tes IH]; intros ws i x Hws Hi Hx; [done|]. cbn [trace_edges]. rewrite filter_app. destruct x as [|x]; cbn in Hx.
  - injection Hx as ->. cbn [take trace_writes]. rewrite app_nil_r, Z.add_0_r.
    rewrite filter_all by (eapply Forall_impl; [by apply op_edges_ends|]; cbn; tauto).
    rewrite filter_none; [by rewrite app_nil_r|]. eapply Forall_impl; [apply trace_edges_ends; [by apply writes_before|lia]|]. cbn. lia.
  - rewrite filter_none by (eapply Forall_impl; [by apply op_edges_ends|]; cbn; lia). cbn [app take trace_writes].
    replace (i + Z.of_nat (S x)) with (i + 1 + Z.of_nat x) by lia. rewrite app_assoc. apply IH; [by apply writes_before|lia|done].
Qed.

(** The walk over the edges that enter an op of a built graph. *)
Lemma built_rev_walk its g r x te : built_ok its g r -> Z.of_nat (length its) < 2 ^ 32 -> br_ops r !! x = Some te ->
  rev_walk g (Z.of_nat x) = Ok (op_edges (trace_writes 0 (take x (br_ops r))) (Z.of_nat x) te).
Proof.
  intros [Hlen _ -> _ Hel _ _] Hn Hx. pose proof (lookup_lt_Some _ _ _ Hx) as Hlt.
  assert (Hends : Forall (fun e => 0 <= e_dst e < Z.of_nat (length its)) (trace_edges [] 0 (br_ops r))).
  { eapply Forall_impl; [apply trace_edges_ends; [constructor|lia]|]. cbn. rewrite Hlen. lia. }
  unfold rev_walk, rev_begin, rev_end, checked_index_, build_csr. rewrite (proj2 (Z.eqb_neq _ 0)) by lia. cbn [tg_num_ops rev_edges rev_offsets].
  rewrite (proj2 (Z.ltb_lt 0 _)) by lia. cbn [require rbind]. rewrite wrap_small by lia.
  rewrite (proj2 (Z.leb_le 0 _)), (proj2 (Z.leb_le _ (Z.of_nat (length its) - 1))) by lia. cbn [andb require rbind].
  rewrite csr_segment by (done || lia). f_equal.
  exact (trace_edges_at (br_ops r) [] 0 x te (Forall_nil_2 _) (Z.le_refl 0) Hx).
Qed.

(** ** The properties *)

(** C12: a build of a trace with room for its storages and its operands
    succeeds, and the region says what the trace does.  For each op, each input
    has the trace index and the slot of the last write to its storage before
    the op; a storage that no op wrote has an external slot; each slot is alive
    at each op that uses it and holds the bytes of each output; and the walk
    over the edges that enter the op reads one data-flow edge for each written
    input, then one alias edge for each output on a storage of another op. *)
Theorem build_trace_resolves_dataflow L published ckernels sc its t metas :
  buildable L sc its t metas ->
  exists g r sc', build_trace_from L published ckernels sc its = Ok (Built g r, sc') /\ scratch_ok sc' /\
    Forall2 (records t published ckernels metas) its (br_ops r) /\
    forall x te, br_ops r !! x = Some te ->
      let ws := trace_writes 0 (take x (br_ops r)) in
      op_resolved (br_slots r) ws (Z.of_nat x) te /\ rev_walk g (Z.of_nat x) = Ok (op_edges ws (Z.of_nat x) te).
Proof.
  intros Hp. destruct (build_trace_built L published ckernels sc its t metas Hp) as (g & r & sc' & E & Hsc & Hok & Hrec & _).
  exists g, r, sc'. split_and!; [done..|]. intros x te Hx. split; [by apply (bo_ops _ _ _ Hok)|].
  eapply built_rev_walk; [done| |done]. pose proof (bp_count _ _ _ _ _ Hp). lia.
Qed.

(** The content hash that the build folds op by op is the hash of the
    whole list of ops, and the side arrays of the ops fit the block that the
    totals of the scan sized. *)
Theorem build_trace_hash_and_block L published ckernels sc its t metas :
  buildable L sc its t metas ->
  exists g r sc', build_trace_from L published ckernels sc its = Ok (Built g r, sc') /\
    compute_content_hash (br_ops r) None = Ok (br_content_hash r) /\
    sum_by side_bytes its <= br_side_bytes r.
Proof.
  intros Hp. destruct (build_trace_built L published ckernels sc its t metas Hp) as (g & r & sc' & E & _ & Hok & _).
  exists g, r, sc'. split_and!; [done|apply Hok..].
Qed.
