(* ===== verification/BuildPlan.v ===== *)
(** * BuildPlan.v: the plan of a built region keeps the values of the trace

    The lifetimes that the build gives to the slots are the ones that the
    planner needs: between the op that writes a value and an op that reads it,
    no operand of another slot is placed on the bytes of the value.  The second
    part is one concrete trace, and the limits of the build. *)

From stdpp Require Import base list strings gmap.
From Stdlib Require Import ZArith Lia.
From S2P Require Import Prelude.
From S2P Require Import Types.
From S2P Require Import MemoryPlan.
From S2P Require Import PlanSweep.
From S2P Require Import PlanProofs.
From S2P Require Import TraceRing.
From S2P Require Import MetaLog.
From S2P Require Import ContentHash.
From S2P Require Import StorageNbytes.
From S2P Require Import TraceGraph.
From S2P Require Import CKernel.
From S2P Require Import PtrMap.
From S2P Require Import BuildTrace.
From S2P Require Import BuildProofs.
From S2P Require Import BuildTheorems.
#[local] Open Scope Z_scope.

(** The slots that the operands of an op use. *)
Definition operand_ids (te : TraceEntry) : list Z :=
  filter (fun id => id <> none32) (default [] (input_slot_ids te) ++ default [] (output_slot_ids te)).

(** Input [j] of op [i] reads the value that [w] wrote. *)
Definition reads_value (ops : list TraceEntry) (i j : nat) (w : write) : Prop :=
  exists te m, ops !! i = Some te /\ default [] (input_metas te) !! j = Some m /\ data_ptr m <> 0 /\
    last_write (trace_writes 0 (take i ops)) (data_ptr m) = Some w.

(** Each output write of a resolved trace has a slot that is alive at its op. *)
Lemma output_writes_at i j ms ids w : w ∈ output_writes i j ms ids -> exists n m, ms !! n = Some m /\ ids !! n = Some (w_slot w) /\ w_ptr w = data_ptr m /\ w_op w = i.
Proof.
  revert j ids. induction ms as [|m ms IH]; intros j [|id ids] H; cbn in H; try by apply not_elem_of_nil in H.
  apply elem_of_cons in H as [->|H]; [by exists 0%nat, m|]. destruct (IH _ _ H) as (n & m' & ?). by exists (S n), m'.
Qed.

Lemma trace_writes_at i tes w : w ∈ trace_writes i tes -> exists x te, tes !! x = Some te /\ w ∈ op_writes (i + Z.of_nat x) te.
Proof.
  revert i. induction tes as [|te tes IH]; intros i H; cbn in H; [by apply not_elem_of_nil in H|]. apply elem_of_app in H as [H|H].
  - exists 0%nat, te. by rewrite Z.add_0_r.
  - destruct (IH _ H) as (x & te' & Hx & Hw). exists (S x), te'. split; [done|]. by replace (i + Z.of_nat (S x)) with (i + 1 + Z.of_nat x) by lia.
Qed.

Section Built.
Context (its : list item) (g : TraceGraph) (r : BuiltRegion) (Hok : built_ok its g r).

Lemma write_alive n w : w ∈ trace_writes 0 (take n (br_ops r)) -> w_ptr w <> 0 -> exists s, alive_at (br_slots r) (w_slot w) (w_op w) s.
Proof using Hok.
  intros (x & te & Hx & Hw)%trace_writes_at Hp. rewrite Z.add_0_l in Hw. apply lookup_take_Some in Hx as [Hx _].
  destruct (bo_ops _ _ _ Hok x te Hx) as (_ & Hout & _). unfold op_writes in Hw. apply output_writes_at in Hw as (k & m & Hm & Hid & Eptr & Eop).
  rewrite Forall2_lookup in Hout. specialize (Hout k). rewrite Hm, Hid in Hout. inversion Hout as [? ? Ho|]; subst. unfold output_placed in Ho.
  rewrite <- Eptr, (proj2 (Z.eqb_neq _ _) Hp) in Ho. destruct Ho as (s & Hs & _). exists s. by rewrite Eop.
Qed.

(** Each slot of an operand is alive at its op. *)
Lemma operand_alive x te id : br_ops r !! x = Some te -> id ∈ operand_ids te -> exists s, alive_at (br_slots r) id (Z.of_nat x) s.
Proof using Hok.
  intros Hx [Hne [Hid|Hid]%elem_of_app]%list_elem_of_filter; destruct (bo_ops _ _ _ Hok x te Hx) as (Hin & Hout & _).
  - apply list_elem_of_lookup in Hid as [n Hn]. destruct (Forall3_lookup_r _ _ _ _ _ _ Hin Hn) as (m & idx & _ & _ & H). unfold input_resolved in H.
    destruct (data_ptr m =? 0); [by destruct H|]. destruct H as (s & Hs & _). by exists s.
  - apply list_elem_of_lookup in Hid as [n Hn]. destruct (Forall2_lookup_r _ _ _ _ _ Hout Hn) as (m & _ & H). unfold output_placed in H.
    destruct (data_ptr m =? 0); [done|]. destruct H as (s & Hs & _). by exists s.
Qed.

(** A value is alive from its write to its read. *)
Lemma value_alive i j w : reads_value (br_ops r) i j w ->
  exists s, 0 <= w_slot w /\ br_slots r !! Z.to_nat (w_slot w) = Some s /\ birth_op s <= w_op w /\ w_op w < Z.of_nat i <= death_op s.
Proof using Hok.
  intros (te & m & Hi & Hm & Hp & Hw). pose proof (last_write_in _ _ _ Hw) as [Hin Hptr].
  destruct (write_alive i w Hin ltac:(by rewrite Hptr)) as (s & Hs0 & Hs & Hs1).
  destruct (bo_ops _ _ _ Hok i te Hi) as (Hres & _). destruct (Forall3_lookup_l _ _ _ _ _ _ Hres Hm) as (idx & id & _ & _ & H).
  unfold input_resolved in H. rewrite (proj2 (Z.eqb_neq _ _) Hp), Hw in H. destruct H as (s' & (_ & Hs' & ?) & -> & -> & ?).
  assert (s' = s) as -> by congruence. exists s. split_and!; (done || lia).
Qed.

Lemma built_slots_plannable : Z.of_nat (length its) < 2 ^ 28 -> Forall slot_wf (br_slots r) /\ forallb lifetime_okb (br_slots r) = true.
Proof using Hok.
  intros Hn. assert (H : Forall (fun s => slot_wf s /\ lifetime_okb s = true) (br_slots r)).
  { apply Forall_lookup. intros n s Hs. destruct (bo_slots _ _ _ Hok n s Hs) as (_ & Hb & Hd & Hw). split.
    - unfold slot_wf, in_width in *. lia.
    - unfold lifetime_okb. apply orb_true_iff. right. unfold MAX_DEATH_OP, UINT32_MAX. apply andb_true_iff. rewrite !Z.leb_le. lia. }
  split; [eapply Forall_impl; [exact H|]; by intros ? [? _]|]. apply forallb_forall. intros s Hs. rewrite Forall_forall in H. apply H. by apply list_elem_of_In.
Qed.

End Built.

(** C13: the plan of a built region keeps every value until its reads.  The
    planner accepts the slots of the build, and from the op that writes a value
    to each op that reads it, no operand of another pooled slot has a byte in
    common with the value. *)
Theorem built_plan_keeps_values L published ckernels sc its t metas rank world_size capability g r sc' :
  buildable L sc its t metas -> build_trace_from L published ckernels sc its = Ok (Built g r, sc') ->
  Z.of_nat (length (br_slots r)) < 2 ^ 32 -> aligned_total (br_slots r) < 2 ^ 64 ->
  exists plan, compute_memory_plan rank world_size capability (br_slots r) = Ok plan /\
    forall i j w x te id s u, reads_value (br_ops r) i j w ->
      w_op w <= Z.of_nat x <= Z.of_nat i -> br_ops r !! x = Some te -> id ∈ operand_ids te -> id <> w_slot w ->
      plan_slots plan !! Z.to_nat (w_slot w) = Some s -> plan_slots plan !! Z.to_nat id = Some u ->
      is_external s = false -> is_external u = false -> rdisj (slot_range s) (slot_range u).
Proof.
  intros Hp E Hlen Htot. destruct (build_trace_built L published ckernels sc its t metas Hp) as (g' & r' & sc2 & E' & _ & Hok & _).
  rewrite E in E'. injection E' as <- <- <-. destruct (built_slots_plannable its g r Hok (bp_count _ _ _ _ _ Hp)) as [Hwf Hlife].
  pose proof (plan_is_ok rank world_size capability (br_slots r)) as Ht. rewrite Hlife in Ht.
  destruct (compute_memory_plan rank world_size capability (br_slots r)) as [plan|] eqn:Eplan; [|done]. exists plan. split; [done|].
  pose proof (compute_memory_plan_safe _ _ _ _ _ Hwf Hlen Htot Eplan) as [Hsl _ Hdis _].
  intros i j w x te id s u Hread Hx Hte Hid Hne Hs Hu Es Eu.
  destruct (value_alive its g r Hok i j w Hread) as (s0 & Hw0 & Hs0 & Hb & Hd). destruct (operand_alive its g r Hok x te id Hte Hid) as (u0 & Hid0 & Hu0 & Hul).
  eapply (Hdis _ _ _ _ Hs Hu); [lia|done..|].
  assert (birth_op s = birth_op s0 /\ death_op s = death_op s0) as [B1 D1] by (pose proof (Forall2_lookup_lr _ _ _ _ _ _ Hsl Hs0 Hs) as ->; done).
  assert (birth_op u = birth_op u0 /\ death_op u = death_op u0) as [B2 D2] by (pose proof (Forall2_lookup_lr _ _ _ _ _ _ Hsl Hu0 Hu) as ->; done).
  unfold overlap. lia.
Qed.

(** * One concrete trace, and the limits of the build

    Three ops on three storages: a read of an external tensor, a chain, and an
    update in place.  Then the traces on which the build does not do what its
    comments say. *)

Definition wit_tensor (ptr : Z) : TensorMeta :=
  mkMeta [4; 16; 0; 0; 0; 0; 0; 0] [16; 1; 0; 0; 0; 0; 0; 0] ptr 2 Float CPU (-1) Strided false 0 0 0 0 0 0.

Definition wit_item (schema n_in n_out scalars meta : Z) : item :=
  mkItem (mkRingEntry schema (schema + 100) n_in n_out scalars 0 32 [7; 0; 0; 0; 0]) meta 1 2.

(** A log that holds the metadata of the given storages. *)
Definition wit_log (ptrs : list Z) : MetaLog :=
  mkMetaLog (store_run (fun _ => zero_meta) 0 (wit_tensor <$> ptrs)) (Z.of_nat (length ptrs)) 0 0.

Definition wit_ptrs : list Z := [4096; 8192; 8192; 12288; 8192; 12288; 8192].
Definition wit_L : MetaLog := wit_log wit_ptrs.
Definition wit_items : list item := [wit_item 11 1 1 0 0; wit_item 12 1 1 1 2; wit_item 13 2 1 0 4].

Definition wit_totals : totals := mkTotals 7 0 4 3 1.

Lemma wit_buildable : buildable wit_L new_scratch wit_items wit_totals (wit_tensor <$> wit_ptrs).
Proof.
  split; [apply new_scratch_ok|repeat (apply Forall_cons_2; [vm_compute; intuition congruence|]); apply Forall_nil_2|vm_compute; congruence|vm_compute; congruence|vm_compute; reflexivity| |vm_compute; reflexivity| |vm_compute; congruence|vm_compute; congruence].
  - repeat (apply Forall_cons_2; [intros _; vm_compute; intuition congruence|]). apply Forall_nil_2.
  - repeat (apply Forall_cons_2; [vm_compute; intuition congruence|]). apply Forall_nil_2.
Qed.

(** The result of the build, for the witnesses that read it. *)
Definition wit_built : result (TraceBuild * Scratch) := build_trace_from wit_L None [] new_scratch wit_items.

Definition wit_graph : TraceGraph := match wit_built with Ok (Built g _, _) => g | _ => build_csr [] 0 end.
Definition wit_region : BuiltRegion := match wit_built with Ok (Built _ r, _) => r | _ => mkBuilt [] [] 0 [] 0 0 end.
Definition wit_scratch : Scratch := match wit_built with Ok (_, sc) => sc | _ => new_scratch end.

Lemma wit_built_eq : build_trace_from wit_L None [] new_scratch wit_items = Ok (Built wit_graph wit_region, wit_scratch).
Proof. vm_compute. reflexivity. Qed.

Lemma built_inj g r sc g' r' sc' : @Ok (TraceBuild * Scratch) (Built g r, sc) = Ok (Built g' r', sc') -> g = g' /\ r = r' /\ sc = sc'.
Proof. by intros [= -> -> ->]. Qed.

(** The last op reads the results of the first two, and writes in place. *)
Lemma build_trace_resolves_dataflow_witness :
  exists te, br_ops wit_region !! 2%nat = Some te /\ input_trace_indices te = Some [0; 1] /\
    input_slot_ids te = Some [1; 2] /\ output_slot_ids te = Some [1] /\
    rev_walk wit_graph 2 = Ok [mkEdge 0 2 0 0 DATA_FLOW; mkEdge 1 2 0 1 DATA_FLOW; mkEdge 0 2 0 0 ALIAS].
Proof.
  destruct (build_trace_resolves_dataflow wit_L None [] new_scratch wit_items _ _ wit_buildable) as (g & r & sc' & E & _ & _ & H).
  rewrite wit_built_eq in E. destruct (built_inj _ _ _ _ _ _ E) as (<- & <- & <-).
  assert (Hx : exists te, br_ops wit_region !! 2%nat = Some te) by (vm_compute; eexists; reflexivity). destruct Hx as [te Hx].
  pose proof (proj2 (H 2%nat te Hx)) as Hw. exists te. split; [done|].
  vm_compute in Hx. injection Hx as <-. split; [reflexivity|]. split; [reflexivity|]. split; [reflexivity|]. etransitivity; [exact Hw|]. vm_compute. reflexivity.
Defined.

Lemma build_trace_hash_and_block_witness :
  compute_content_hash (br_ops wit_region) None = Ok (br_content_hash wit_region) /\ sum_by side_bytes wit_items <= br_side_bytes wit_region.
Proof.
  destruct (build_trace_hash_and_block wit_L None [] new_scratch wit_items _ _ wit_buildable) as (g & r & sc' & E & H).
  rewrite wit_built_eq in E. destruct (built_inj _ _ _ _ _ _ E) as (<- & <- & <-). exact H.
Defined.

(** The value that op 0 writes is read by op 2; the result of op 1, between
    them, is elsewhere. *)
Lemma built_plan_keeps_values_witness :
  exists plan s u, compute_memory_plan 0 1 0 (br_slots wit_region) = Ok plan /\
    plan_slots plan !! 1%nat = Some s /\ plan_slots plan !! 2%nat = Some u /\ rdisj (slot_range s) (slot_range u).
Proof.
  destruct (built_plan_keeps_values wit_L None [] new_scratch wit_items _ _ 0 1 0 wit_graph wit_region wit_scratch wit_buildable wit_built_eq) as (plan & Ep & H);
    [vm_compute; reflexivity..|].
  assert (Hs : exists s u, plan_slots plan !! 1%nat = Some s /\ plan_slots plan !! 2%nat = Some u /\ is_external s = false /\ is_external u = false).
  { vm_compute in Ep. injection Ep as <-. vm_compute. eexists _, _. done. }
  destruct Hs as (s & u & Hs & Hu & Es & Eu). exists plan, s, u. split_and!; [done..|].
  assert (Hx : exists te, br_ops wit_region !! 1%nat = Some te /\ 2 ∈ operand_ids te).
  { vm_compute. eexists. split; [reflexivity|]. vm_compute. repeat constructor. }
  destruct Hx as (te & Hx & Hid).
  assert (Hr : reads_value (br_ops wit_region) 2 0 (mkWrite 8192 0 0 1)).
  { vm_compute. eexists _, _. split; [reflexivity|]. split; [reflexivity|]. split; [congruence|]. reflexivity. }
  exact (H 2%nat 0%nat _ 1%nat te 2 s u Hr ltac:(vm_compute; split; congruence) Hx Hid ltac:(vm_compute; congruence) Hs Hu Es Eu).
Defined.

(** ** The limits of the build *)

(** Two reads of one external tensor: the second read finds the entry of the
    first, whose op is none, and takes a slot of its own. *)
Definition ext_items : list item := [wit_item 11 1 1 0 0; wit_item 12 1 1 0 2].
Definition ext_log : MetaLog := wit_log [4096; 8192; 4096; 12288].

Theorem external_tensor_gets_slot_per_read :
  match build_trace_from ext_log None [] new_scratch ext_items with
  | Ok (Built _ r, _) => (input_slot_ids <$> br_ops r) = [Some [0]; Some [2]] /\ is_external <$> br_slots r = [true; false; true; false]
  | _ => False
  end.
Proof. vm_compute. done. Qed.

(** When the slots are used up, an output has no slot, but the address map
    keeps slot 0 for its storage: the next read of the storage gets slot 0. *)
Theorem used_up_slots_resolve_to_slot_zero env k i j meta b m :
  0 <= k <= 30 -> env_mask env = 2 ^ k - 1 -> ptr_ok (env_gen env) k (b_map b) m ->
  m !! data_ptr meta = None -> data_ptr meta <> 0 -> (size m < Z.to_nat (2 ^ k))%nat -> b_next b = env_slot_cap env ->
  exists b', build_output env i j meta b = Ok (none32, b') /\
    ptr_map_lookup (b_map b') (env_gen env) (env_mask env) (data_ptr meta) = mkLookup i 0 (u8 j).
Proof.
  intros Hk Hmask Hok Hm Hp Hsz Hn. unfold build_output. rewrite (proj2 (Z.eqb_neq _ _) Hp), Hmask.
  destruct (ptr_map_insert_spec (env_gen env) k Hk (b_map b) m (data_ptr meta) i (u8 j) 0 Hok (or_introl Hsz)) as (map' & r & idx & -> & _ & _ & _ & _ & H).
  rewrite Hm in H. destruct H as [Ha Hok']. rewrite Ha. cbn [set_map b_next]. rewrite Hn, Z.ltb_irrefl. eexists. split; [done|]. cbn [set_map b_map].
  rewrite (ptr_map_lookup_spec (env_gen env) k Hk _ _ _ Hok' Hp), lookup_insert_eq. done.
Qed.

(** A full address map takes no new storage, and reports nothing: the output
    keeps its slot, but the next read of the storage finds no writer. *)
Theorem full_map_forgets_writer gen k map m key op port slot :
  0 <= k <= 30 -> ptr_ok gen k map m -> key <> 0 -> (forall q, 0 <= q < 2 ^ k -> ~ stops gen k map key q) ->
  (ptr_map_insert map gen (2 ^ k - 1) key op port slot).1 = map /\
  ptr_map_lookup map gen (2 ^ k - 1) key = lookup_miss.
Proof.
  intros Hk Hok Hp Hno. split.
  - unfold ptr_map_insert. assert (H : forall n probe, 0 <= probe -> probe + Z.of_nat n <= 2 ^ k -> (insert_probe n map gen (2 ^ k - 1) key op port slot probe).1 = map).
    { induction n as [|n IH]; intros probe H0 Hn; [done|]. cbn [insert_probe]. cbv zeta. assert (Hs : ~ stops gen k map key probe) by (apply Hno; lia).
      unfold stops, is_live in Hs. apply Decidable.not_or in Hs as [H1 H2]. destruct (Z.eqb_spec (ps_gen (ptr_slot_at map (bucket_index (2 ^ k - 1) key probe))) gen); [|done].
      rewrite (proj2 (Z.eqb_neq _ _) H2). cbn [negb]. apply IH; lia. }
    pose proof (pow2_pos k ltac:(lia)). apply H; lia.
  - rewrite (ptr_map_lookup_spec gen k Hk map m key Hok Hp). by rewrite (no_stop_map gen k Hk map m key Hok Hno).
Qed.

(** The side arrays of the ops follow each other, so the scalars of an op start
    behind the slot ids of the op before it: here at byte 12 of the block. *)
Theorem scalars_of_side_block_misaligned :
  sum_by side_bytes (take 1 wit_items) = 12 /\ sum_by side_bytes (take 1 wit_items) mod 8 <> 0 /\
  (n_scalars <$> wit_items !! 1%nat) = Some 1.
Proof. vm_compute. split_and!; (done || congruence). Qed.

(** An op with scalars and no tensor keeps the count of its scalars and loses
    the scalars. *)
Theorem scalars_without_tensors_are_lost :
  let te := entry_of_item (mkEnv 1 4095 256 16384 None []) [] none64 (wit_item 11 0 0 1 none64) in
  num_scalar_args te = 1 /\ scalar_args te = None.
Proof. done. Qed.
