(* ===== verification/Transaction.v ===== *)
(** * Transaction.v: the log of the transactions
    (include/crucible/Transaction.h, with CyclicBuffer of fixy/)

    One iteration is one transaction.  The log keeps the sixteen newest in a
    ring, names the active one, and can go back to the one that the last
    activation displaced.  A transaction pointer is the index of its slot; the
    clock is an argument of each member that stamps.  The log refines a stack
    of slots: an activation pushes, a rollback pops, and a claim takes a slot
    that is not one of the top two. *)

From stdpp Require Import base list strings sets.
From Stdlib Require Import ZArith Lia Sorted.
From S2P Require Import Prelude.
#[local] Open Scope Z_scope.
#[local] Open Scope result_scope.

Inductive TxStatus := TX_RECORDING | TX_CLOSED | TX_COMMITTED | TX_ACTIVE | TX_SUPERSEDED | TX_ROLLED_BACK.

#[export] Instance TxStatus_eq_dec : EqDecision TxStatus.
Proof. solve_decision. Defined.

Record Transaction := mkTx {
  step_id : Z;
  displacement_order : Z;
  tx_content_hash : Z;
  merkle_root : Z;
  tx_region : Z;               (* an address, 0 for null *)
  ts_ns : option Z;
  status : TxStatus;
}.

Definition empty_tx : Transaction := mkTx 0 0 0 0 0 None TX_RECORDING.

(** stamp_transaction: a failed read of the clock is None. *)
Definition stamp_transaction (tx : Transaction) (reading : option Z) : Transaction :=
  mkTx (step_id tx) (displacement_order tx) (tx_content_hash tx) (merkle_root tx) (tx_region tx) reading (status tx).

Definition set_status (s : TxStatus) (tx : Transaction) : Transaction :=
  mkTx (step_id tx) (displacement_order tx) (tx_content_hash tx) (merkle_root tx) (tx_region tx) (ts_ns tx) s.

(** The capacity N of the log of Vigil. *)
Definition TX_N : Z := 16.

Record TransactionLog := mkTxLog {
  tx_storage : list Transaction;
  tx_cursor : Z;               (* the free-running counter of Cyclic *)
  tx_count : Z;
  active_tx : option Z;        (* a slot, None for null *)
  displacements : Z;
}.

Definition new_txlog : TransactionLog := mkTxLog (replicate 16 empty_tx) 0 0 None 0.

Definition tx_at (L : TransactionLog) (s : Z) : Transaction := aget empty_tx (tx_storage L) s.
Definition set_tx (L : TransactionLog) (s : Z) (tx : Transaction) : TransactionLog :=
  mkTxLog (aset (tx_storage L) s tx) (tx_cursor L) (tx_count L) (active_tx L) (displacements L).

(** ** CyclicBuffer *)

Definition ring_full (L : TransactionLog) : bool := tx_count L =? TX_N.
Definition ring_recent (L : TransactionLog) (i : Z) : Z := Z.land (u64 (u64 (tx_cursor L - 1) - i)) (TX_N - 1).

Definition ring_claim (L : TransactionLog) : Z * TransactionLog :=
  (Z.land (tx_cursor L) (TX_N - 1),
   mkTxLog (tx_storage L) (u64 (tx_cursor L + 1)) (if tx_count L <? TX_N then tx_count L + 1 else tx_count L)
     (active_tx L) (displacements L)).

(** The slots that a scan visits, newest first. *)
Definition recents (L : TransactionLog) : list Z := ring_recent L <$> seqZ 0 (tx_count L).

(** ** The members *)

(** The scan of previous. *)
Fixpoint newest_superseded (L : TransactionLog) (slots : list Z) (target : option Z) : option Z :=
  match slots with
  | [] => target
  | s :: slots =>
      let order := displacement_order (tx_at L s) in
      let is_newer_displacement :=
        bool_decide (status (tx_at L s) = TX_SUPERSEDED) &&
        match target with None => true | Some t => displacement_order (tx_at L t) <? order end in
      if negb is_newer_displacement then newest_superseded L slots target
      else if order =? displacements L then Some s
      else newest_superseded L slots (Some s)
  end.

Definition previous (L : TransactionLog) : option Z := newest_superseded L (recents L) None.

(** The passes of begin_tx, [n] left. *)
Fixpoint skip_kept (n : nat) (target : option Z) (L : TransactionLog) : TransactionLog :=
  match n with
  | O => L
  | S n =>
      if negb (ring_full L) then L
      else
        let oldest := Some (ring_recent L (TX_N - 1)) in
        if negb (bool_decide (oldest = active_tx L)) && negb (bool_decide (oldest = target)) then L
        else skip_kept n target (ring_claim L).2
  end.

Definition begin_tx (L : TransactionLog) (step : Z) (now : option Z) : result (Z * TransactionLog) :=
  let target := previous L in
  let '(s, L) := ring_claim (skip_kept 2 target L) in
  let L := set_tx L s (stamp_transaction (mkTx step 0 0 0 0 None TX_RECORDING) now) in
  let* _ := require (negb (bool_decide (Some s = active_tx L))) "tx != active_tx_" in
  let* _ := require (negb (bool_decide (Some s = target))) "tx != target" in
  Ok (s, L).

Definition tx_commit (L : TransactionLog) (s region content_hash root : Z) (now : option Z)
    : result (bool * TransactionLog) :=
  let* _ := require (negb (region =? 0)) "region != nullptr" in
  let* _ := require (negb (root =? 0)) "is_non_zero(merkle_root)" in
  let tx := tx_at L s in
  if negb (bool_decide (status tx = TX_RECORDING)) && negb (bool_decide (status tx = TX_CLOSED)) then Ok (false, L)
  else
    Ok (true, set_tx L s
      (stamp_transaction (mkTx (step_id tx) (displacement_order tx) content_hash root region (ts_ns tx) TX_COMMITTED) now)).

Definition displaced (tx : Transaction) (order : Z) : Transaction :=
  mkTx (step_id tx) order (tx_content_hash tx) (merkle_root tx) (tx_region tx) (ts_ns tx) TX_SUPERSEDED.

Definition set_active (L : TransactionLog) (s : Z) : TransactionLog :=
  mkTxLog (tx_storage L) (tx_cursor L) (tx_count L) (Some s) (displacements L).

Definition tx_activate (L : TransactionLog) (s : Z) (now1 now2 : option Z) : result (option Z * TransactionLog) :=
  if negb (bool_decide (status (tx_at L s) = TX_COMMITTED)) then Ok (None, L)
  else
    let* '(prev, L) :=
      match active_tx L with
      | None => Ok (None, L)
      | Some a =>
          let* d := monotonic_bump64 (displacements L) in
          let* order := monotonic_advance (displacement_order (tx_at L a)) d in
          let L := mkTxLog (tx_storage L) (tx_cursor L) (tx_count L) (active_tx L) d in
          Ok (Some a, set_tx L a (stamp_transaction (displaced (tx_at L a) order) now1))
      end in
    let L := set_tx L s (stamp_transaction (set_status TX_ACTIVE (tx_at L s)) now2) in
    Ok (prev, set_active L s).

Definition tx_rollback (L : TransactionLog) (now1 now2 : option Z) : bool * TransactionLog :=
  match previous L with
  | None => (false, L)
  | Some p =>
      let L := match active_tx L with
               | None => L
               | Some a => set_tx L a (stamp_transaction (set_status TX_ROLLED_BACK (tx_at L a)) now1)
               end in
      (true, set_active (set_tx L p (stamp_transaction (set_status TX_ACTIVE (tx_at L p)) now2)) p)
  end.

(** for_each_region: the regions it visits, in order. *)
Definition for_each_region (L : TransactionLog) : list Z :=
  filter (fun r => r <> 0) ((fun s => tx_region (tx_at L s)) <$> recents L).

(** The begin, commit and activate of one published region (Vigil::on_region_ready). *)
Definition tx_publish (L : TransactionLog) (step region content_hash root : Z) (now : option Z * option Z * option Z * option Z)
    : result TransactionLog :=
  let '(n1, n2, n3, n4) := now in
  let* '(s, L) := begin_tx L step n1 in
  let* '(_, L) := tx_commit L s region content_hash root n2 in
  let* '(_, L) := tx_activate L s n3 n4 in
  Ok L.

(** ** The stack *)

(** Slots, the active one on top, then the superseded ones, the last displaced
    first. *)
Record log_stack (L : TransactionLog) (st : list Z) : Prop := {
  ls_len : length (tx_storage L) = 16%nat;
  ls_count : 0 <= tx_count L <= 16;
  ls_cursor : 0 <= tx_cursor L < 2 ^ 64 /\ (tx_count L < 16 -> tx_cursor L = tx_count L);
  ls_nodup : NoDup st;
  ls_claimed : Forall (fun s => 0 <= s < tx_count L) st;
  ls_active : active_tx L = head st;
  ls_status : forall s, 0 <= s < 16 ->
    (status (tx_at L s) = TX_ACTIVE <-> head st = Some s) /\ (status (tx_at L s) = TX_SUPERSEDED <-> s ∈ tail st);
  ls_order : forall s, 0 <= s < 16 -> 0 <= displacement_order (tx_at L s) <= displacements L;
  ls_sorted : StronglySorted (fun s t => displacement_order (tx_at L t) < displacement_order (tx_at L s)) (tail st);
  ls_disp : 0 <= displacements L < 2 ^ 64;
}.

Lemma log_stack_new : log_stack new_txlog [].
Proof.
  assert (E : forall s, tx_at new_txlog s = empty_tx).
  { intros s. unfold tx_at, aget, new_txlog. cbn [tx_storage]. destruct (_ !! _) as [t|] eqn:Ht; [|done].
    by apply lookup_replicate in Ht as [-> _]. }
  split; try done; try (cbn; lia); try (by constructor); intros s _; rewrite E; cbn; [|lia].
  split; (split; [done|]); [done|intros H; by apply elem_of_nil in H].
Qed.

Lemma recent_mod L i : 0 <= tx_cursor L < 2 ^ 64 -> ring_recent L i = (tx_cursor L - 1 - i) mod 16.
Proof.
  intros Hc. unfold ring_recent, TX_N. change (16 - 1) with (2 ^ 4 - 1). rewrite land_mask_mod by lia. change (2 ^ 4) with 16.
  unfold wrap. rewrite Zminus_mod_idemp_l. symmetry. apply Znumtheory.Zmod_div_mod; [lia|lia|]. by exists (2 ^ 60).
Qed.

Lemma claim_slot_mod L : (ring_claim L).1 = tx_cursor L mod 16.
Proof. unfold ring_claim, TX_N. cbn [fst]. change (16 - 1) with (2 ^ 4 - 1). by rewrite land_mask_mod by lia. Qed.

Lemma claim_cursor_mod L : 0 <= tx_cursor L < 2 ^ 64 -> tx_cursor (ring_claim L).2 mod 16 = (tx_cursor L + 1) mod 16.
Proof. intros H. cbn. unfold wrap. symmetry. apply Znumtheory.Zmod_div_mod; [lia|lia|]. by exists (2 ^ 60). Qed.

Lemma elem_of_recents L st s : log_stack L st -> s ∈ recents L <-> 0 <= s < tx_count L.
Proof.
  intros [_ Hc [Hcur Hfew] _ _ _ _ _ _ _]. unfold recents. rewrite list_elem_of_fmap. setoid_rewrite elem_of_seqZ.
  destruct (Z.eq_dec (tx_count L) 16) as [E|E].
  - rewrite E. split; [intros (i & -> & Hi); rewrite recent_mod by done; mod_lia|]. intros Hs.
    exists ((tx_cursor L - 1 - s) mod 16). rewrite recent_mod by done. split; mod_lia.
  - specialize (Hfew ltac:(lia)). split; [intros (i & -> & Hi)|intros Hs; exists (tx_count L - 1 - s)];
      rewrite recent_mod, Hfew by done; (split; [|lia]) || idtac; mod_lia.
Qed.

(** The scan finds the maximum. *)
Lemma newest_superseded_max L slots m target :
  (target = None \/ target = Some m \/ exists t, target = Some t /\ displacement_order (tx_at L t) < displacement_order (tx_at L m)) ->
  status (tx_at L m) = TX_SUPERSEDED -> (m ∈ slots \/ target = Some m) ->
  (forall s, s ∈ slots -> displacement_order (tx_at L s) <= displacements L) ->
  displacement_order (tx_at L m) <= displacements L ->
  (forall s, s ∈ slots -> status (tx_at L s) = TX_SUPERSEDED -> s = m \/ displacement_order (tx_at L s) < displacement_order (tx_at L m)) ->
  newest_superseded L slots target = Some m.
Proof.
  revert target. induction slots as [|s slots IH]; intros target Ht Hm Hin Hle Hmd Hmax; cbn [newest_superseded].
  { destruct Hin as [H|H]; [by apply elem_of_nil in H|done]. }
  assert (Hmax' : forall s, s ∈ slots -> status (tx_at L s) = TX_SUPERSEDED -> s = m \/ displacement_order (tx_at L s) < displacement_order (tx_at L m))
    by (intros; apply Hmax; [by right|done]).
  assert (Hle' : forall s, s ∈ slots -> displacement_order (tx_at L s) <= displacements L) by (intros; apply Hle; by right).
  destruct (decide (s = m)) as [->|Hsm].
  - rewrite bool_decide_true by done. cbn [andb].
    destruct Ht as [->|[->|(t & -> & Ht)]]; cbn [negb].
    + destruct (_ =? _); [done|]. apply IH; auto.
    + rewrite Z.ltb_irrefl. cbn [negb]. apply IH; auto.
    + rewrite (proj2 (Z.ltb_lt _ _) Ht). cbn [negb]. destruct (_ =? _); [done|]. apply IH; auto.
  - destruct (bool_decide_reflect (status (tx_at L s) = TX_SUPERSEDED)) as [Hs|Hs]; cbn [andb negb].
    2: { apply IH; auto. destruct Hin as [H|H]; [|by right]. apply elem_of_cons in H as [->|H]; [done|by left]. }
    destruct (Hmax s ltac:(by left) Hs) as [->|Hlt]; [done|].
    assert (Hin' : m ∈ slots \/ target = Some m) by (destruct Hin as [H|H]; [|by right]; apply elem_of_cons in H as [->|H]; [done|by left]).
    destruct Ht as [->|[->|(t & -> & Ht)]]; cbn [negb].
    + destruct (Z.eqb_spec (displacement_order (tx_at L s)) (displacements L)); [lia|]. apply IH; auto.
      * right. right. by exists s.
      * destruct Hin' as [|]; [by left|done].
    + rewrite (proj2 (Z.ltb_ge _ _)) by lia. cbn [negb]. apply IH; auto.
    + destruct (_ <? _); cbn [negb].
      * destruct (Z.eqb_spec (displacement_order (tx_at L s)) (displacements L)); [lia|]. apply IH; auto.
        -- right. right. by exists s.
        -- destruct Hin' as [|[= ->]]; [by left|lia].
      * apply IH; auto. right. right. by exists t.
Qed.

Lemma newest_superseded_none L slots :
  (forall s, s ∈ slots -> status (tx_at L s) <> TX_SUPERSEDED) -> newest_superseded L slots None = None.
Proof.
  induction slots as [|s slots IH]; intros H; cbn [newest_superseded]; [done|].
  rewrite bool_decide_false by (apply H; by left). apply IH. intros. apply H. by right.
Qed.

(** The rollback target is the second slot of the stack. *)
Lemma previous_second L st : log_stack L st -> previous L = st !! 1%nat.
Proof.
  intros HL. unfold previous. destruct st as [|a [|m st]]; cbn [lookup list_lookup].
  1,2: apply newest_superseded_none; intros s Hs Hsup; apply (elem_of_recents _ _ _ HL) in Hs;
    apply (ls_status _ _ HL s) in Hsup; [by apply elem_of_nil in Hsup|pose proof (ls_count _ _ HL); lia].
  pose proof (ls_sorted _ _ HL) as Hst. cbn [tail] in Hst. apply StronglySorted_inv in Hst as [_ Hst].
  pose proof (ls_claimed _ _ HL) as Hcl. apply Forall_cons in Hcl as [_ Hcl]. apply Forall_cons in Hcl as [Hm _].
  pose proof (ls_count _ _ HL) as Hc.
  apply newest_superseded_max; [by left|apply (ls_status _ _ HL); [lia|by left]| | | |].
  - left. by apply (elem_of_recents _ _ _ HL).
  - intros s Hs. apply (elem_of_recents _ _ _ HL) in Hs. apply (ls_order _ _ HL). lia.
  - apply (ls_order _ _ HL). lia.
  - intros s Hs Hsup. apply (elem_of_recents _ _ _ HL) in Hs.
    apply (ls_status _ _ HL s ltac:(lia)) in Hsup. cbn [tail] in Hsup. apply elem_of_cons in Hsup as [->|Hsup]; [by left|right].
    by apply (proj1 (Forall_forall _ _) Hst).
Qed.

(** ** Each member keeps the stack *)

Lemma tx_at_set L s s' tx :
  length (tx_storage L) = 16%nat -> 0 <= s < 16 -> 0 <= s' ->
  tx_at (set_tx L s tx) s' = if decide (s = s') then tx else tx_at L s'.
Proof. intros Hl Hs Hs'. unfold tx_at, set_tx. cbn [tx_storage]. apply aget_aset; lia. Qed.

Lemma StronglySorted_impl {A} (R R' : A -> A -> Prop) l :
  (forall x y, x ∈ l -> y ∈ l -> R x y -> R' x y) -> StronglySorted R l -> StronglySorted R' l.
Proof.
  intros HR Hl. induction Hl as [|x l Hl IH Hx]; constructor.
  - apply IH. intros. apply HR; auto; by right.
  - apply Forall_forall. intros y Hy. apply HR; [by left|by right|]. by apply (proj1 (Forall_forall _ _) Hx).
Qed.

Lemma StronglySorted_filter {A} (R : A -> A -> Prop) (P : A -> Prop) `{!forall x, Decision (P x)} l :
  StronglySorted R l -> StronglySorted R (filter P l).
Proof.
  induction 1 as [|x l Hl IH Hx]; [constructor|]. rewrite filter_cons. case_decide; [|done]. constructor; [done|].
  apply Forall_forall. intros y Hy. apply list_elem_of_filter in Hy as [_ Hy]. by apply (proj1 (Forall_forall _ _) Hx).
Qed.

Lemma claim_stack L st : log_stack L st -> log_stack (ring_claim L).2 st.
Proof.
  intros [H1 H2 [H3 H4] H5 H6 H7 H8 H9 H10 H11]. unfold ring_claim, TX_N. cbn [snd].
  split; cbn [tx_storage tx_cursor tx_count active_tx displacements]; auto.
  - destruct (Z.ltb_spec (tx_count L) 16); lia.
  - split; [apply u64_range|]. destruct (Z.ltb_spec (tx_count L) 16) as [Hlt|Hge]; intros H; [|lia].
    rewrite (H4 Hlt). rewrite wrap_small; lia.
  - eapply Forall_impl; [exact H6|]. intros s Hs. cbn in Hs. destruct (Z.ltb_spec (tx_count L) 16); lia.
Qed.

(** A state in which a claim takes a slot below the top two. *)
Record claimable (st : list Z) (L L1 : TransactionLog) : Prop := {
  cl_stack : log_stack L1 st;
  cl_slot : (ring_claim L1).1 ∉ take 2 st;
  cl_same : forall s, tx_at L1 s = tx_at L s;
  cl_disp : displacements L1 = displacements L;
  cl_count : tx_count L1 = tx_count L;
}.

Lemma claim_range L st : log_stack L st -> 0 <= (ring_claim L).1 < 16 /\ (ring_claim L).1 < tx_count (ring_claim L).2.
Proof.
  intros [_ Hc1 [Hcu1 Hf1] _ _ _ _ _ _ _]. rewrite claim_slot_mod. cbn [ring_claim snd tx_count]. unfold TX_N.
  destruct (Z.ltb_spec (tx_count L) 16); [rewrite (Hf1 ltac:(lia)) in *|]; mod_lia.
Qed.

Lemma claim_new L st :
  log_stack L st -> forall s', s' < tx_count (ring_claim L).2 -> s' <> (ring_claim L).1 -> s' < tx_count L.
Proof.
  intros [_ Hc1 [Hcu1 Hf1] _ _ _ _ _ _ _] s'. rewrite claim_slot_mod. cbn [ring_claim snd tx_count]. unfold TX_N.
  destruct (Z.ltb_spec (tx_count L) 16); [rewrite (Hf1 ltac:(lia))|lia]. rewrite Z.mod_small; lia.
Qed.

Lemma not_in_top (st : list Z) n : Some n <> head st -> Some n <> st !! 1%nat -> n ∉ take 2 st.
Proof. intros Hh Ht. destruct st as [|a [|b st]]; cbn in *; set_solver. Qed.

Lemma claim_not_full L st : log_stack L st -> ring_full L = false -> (ring_claim L).1 ∉ take 2 st.
Proof.
  intros [_ Hc1 [Hcu1 Hf1] _ Hcl _ _ _ _ _] Hf. unfold ring_full, TX_N in Hf. apply Z.eqb_neq in Hf.
  rewrite claim_slot_mod, (Hf1 ltac:(lia)). intros Hin. apply (subseteq_take 2) in Hin.
  apply (proj1 (Forall_forall _ _) Hcl) in Hin. mod_lia.
Qed.

Lemma oldest_slot L st : log_stack L st -> ring_recent L (TX_N - 1) = tx_cursor L mod 16.
Proof. intros HL. rewrite recent_mod by apply HL. unfold TX_N. mod_lia. Qed.

Lemma claim_pass L st :
  log_stack L st -> negb (bool_decide (Some (ring_recent L (TX_N - 1)) = active_tx L)) &&
    negb (bool_decide (Some (ring_recent L (TX_N - 1)) = st !! 1%nat)) = true -> (ring_claim L).1 ∉ take 2 st.
Proof.
  intros HL Hk. apply andb_prop in Hk as [Hk1 Hk2]. apply negb_true_iff, bool_decide_eq_false in Hk1, Hk2.
  rewrite claim_slot_mod, <- (oldest_slot L st) by done. apply not_in_top; [by rewrite <- (ls_active _ _ HL)|done].
Qed.

(** After the passes of begin_tx the oldest slot is not a kept one. *)
Lemma skip_kept_claimable L st : log_stack L st -> claimable st L (skip_kept 2 (previous L) L).
Proof.
  intros HL. rewrite (previous_second _ _ HL). cbn [skip_kept].
  destruct (ring_full L) eqn:F1; cbn [negb]; [|by split; auto; eapply claim_not_full].
  destruct (negb _ && negb _) eqn:K1; [by split; auto; eapply claim_pass|].
  assert (HL1 := claim_stack _ _ HL). set (L1 := (ring_claim L).2) in *.
  assert (F2 : ring_full L1 = true) by (unfold ring_full, TX_N in *; subst L1; cbn; apply Z.eqb_eq in F1; by rewrite F1).
  rewrite F2. cbn [negb].
  assert (Hcnt1 : tx_count L1 = tx_count L) by (unfold ring_full, TX_N in F1; apply Z.eqb_eq in F1; subst L1; cbn; by rewrite F1).
  destruct (negb (bool_decide (Some (ring_recent L1 _) = _)) && _) eqn:K2; [by split; auto; eapply claim_pass|].
  assert (Hcnt : forall L0, ring_full L0 = true -> tx_count (ring_claim L0).2 = tx_count L0)
    by (intros L0 F0; unfold ring_full, TX_N in F0; apply Z.eqb_eq in F0; cbn; by rewrite F0).
  assert (HL2 := claim_stack _ _ HL1). split; auto; [|by rewrite !Hcnt]. rewrite claim_slot_mod.
  rewrite (oldest_slot L _ HL) in K1. rewrite (oldest_slot L1 _ HL1) in K2.
  pose proof (claim_cursor_mod L ltac:(apply HL)) as E1. fold L1 in E1.
  rewrite (claim_cursor_mod L1 ltac:(apply HL1)).
  apply andb_false_iff in K1, K2. rewrite !negb_false_iff, !bool_decide_eq_true in K1, K2.
  change (active_tx L1) with (active_tx L) in K2. rewrite (ls_active _ _ HL) in K1, K2.
  assert (Hd : tx_cursor L mod 16 <> tx_cursor L1 mod 16) by mod_lia.
  assert (Hd2 : (tx_cursor L1 + 1) mod 16 <> tx_cursor L1 mod 16) by mod_lia.
  assert (Hd3 : (tx_cursor L1 + 1) mod 16 <> tx_cursor L mod 16) by mod_lia.
  apply not_in_top; intros E3; destruct K1 as [K1|K1], K2 as [K2|K2]; congruence.
Qed.

Lemma stack_claimed L st s : Forall (fun s => 0 <= s < tx_count L) st -> s ∈ tail st -> 0 <= s < tx_count L.
Proof. intros Hf Hs. apply (proj1 (Forall_forall _ _) Hf). destruct st; [done|by right]. Qed.

Lemma head_filter (s : Z) st : s ∉ take 2 st -> head (filter (.≠ s) st) = head st /\ tail (filter (.≠ s) st) = filter (.≠ s) (tail st).
Proof. destruct st as [|a st]; [done|]. cbn [take]. intros H. rewrite filter_cons, decide_True by set_solver. done. Qed.

(** begin_tx: a fresh transaction in a slot that is not one of the top two;
    the other transactions stay. *)
Lemma begin_tx_ok L st step now :
  log_stack L st ->
  exists s L', begin_tx L step now = Ok (s, L') /\ log_stack L' (filter (.≠ s) st) /\ s ∉ take 2 st /\ 0 <= s < tx_count L' /\
    tx_at L' s = mkTx step 0 0 0 0 now TX_RECORDING /\ (forall s', 0 <= s' -> s' <> s -> tx_at L' s' = tx_at L s') /\
    displacements L' = displacements L /\ (forall s', s' < tx_count L' -> s' <> s -> s' < tx_count L).
Proof.
  intros HL. destruct (skip_kept_claimable L st HL) as [HL1 Hs Hsame Hd Hcnt]. unfold begin_tx.
  set (L1 := skip_kept 2 (previous L) L) in *. destruct (claim_range L1 st HL1) as [Hr Hr2].
  pose proof (claim_new L1 st HL1) as Hnew. assert (HL2 := claim_stack _ _ HL1). destruct (ring_claim L1) as [s L2] eqn:Ec. cbn [fst snd] in *.
  assert (Hsame2 : forall s', tx_at L2 s' = tx_at L s') by (intros s'; rewrite <- Hsame; unfold ring_claim in Ec; by simplify_eq).
  assert (Hn : Some s <> head st /\ Some s <> st !! 1%nat) by (destruct st as [|a [|b st]]; cbn in *; set_solver).
  destruct Hn as [Hn1 Hn2]. pose proof (ls_active _ _ HL2) as Ha2. cbn [active_tx set_tx].
  rewrite bool_decide_false by (by rewrite Ha2). cbn [negb require rbind].
  rewrite bool_decide_false by (by rewrite (previous_second _ _ HL)). cbn [negb require rbind].
  eexists _, _. split; [reflexivity|]. destruct (head_filter s st Hs) as [Eh Et].
  change (stamp_transaction _ now) with (mkTx step 0 0 0 0 now TX_RECORDING).
  assert (Hat : forall s', 0 <= s' -> s' <> s -> tx_at (set_tx L2 s (mkTx step 0 0 0 0 now TX_RECORDING)) s' = tx_at L s')
    by (intros s' H0 Hne; rewrite tx_at_set by (try apply HL2; lia); by rewrite decide_False by congruence).
  assert (Hats : tx_at (set_tx L2 s (mkTx step 0 0 0 0 now TX_RECORDING)) s = mkTx step 0 0 0 0 now TX_RECORDING)
    by (rewrite tx_at_set by (try apply HL2; lia); by rewrite decide_True).
  split_and!; auto; [|lia|unfold ring_claim in Ec; by simplify_eq|by rewrite <- Hcnt].
  destruct HL2 as [A1 A2 A3 A4 A5 A6 A7 A8 A9 A10]. split; auto.
  - cbn. by rewrite length_aset.
  - by apply NoDup_filter.
  - apply Forall_forall. intros s' Hs'. apply list_elem_of_filter in Hs' as [_ Hs']. by apply (proj1 (Forall_forall _ _) A5).
  - by rewrite Eh.
  - intros s' H'. rewrite Eh, Et. destruct (decide (s' = s)) as [->|Hne].
    + rewrite Hats. cbn. rewrite list_elem_of_filter. split; split; (done || congruence || tauto).
    + rewrite Hat by lia. rewrite <- Hsame2. rewrite list_elem_of_filter. destruct (A7 s' H') as [B1 B2]. split; [done|]. rewrite B2. tauto.
  - intros s' H'. destruct (decide (s' = s)) as [->|Hne]; [rewrite Hats; cbn; lia|]. rewrite Hat, <- Hsame2 by lia. cbn. by apply A8.
  - rewrite Et. apply (StronglySorted_impl (fun s t => displacement_order (tx_at L2 t) < displacement_order (tx_at L2 s)));
      [|by apply StronglySorted_filter].
    intros x y Hx Hy. apply list_elem_of_filter in Hx as [Hx0 Hx], Hy as [Hy0 Hy].
    apply (stack_claimed L2 st) in Hx, Hy; auto. rewrite !Hat, <- !Hsame2 by lia. done.
Qed.

(** A slot is in the stack exactly when its status says so. *)
Lemma in_stack_status L st s :
  log_stack L st -> 0 <= s < 16 -> s ∈ st -> status (tx_at L s) = TX_ACTIVE \/ status (tx_at L s) = TX_SUPERSEDED.
Proof.
  intros HL Hs Hin. destruct (ls_status _ _ HL s Hs) as [Ha Hsup]. destruct st as [|a st]; [by apply elem_of_nil in Hin|].
  apply elem_of_cons in Hin as [->|Hin]; [left; by apply Ha|right; by apply Hsup].
Qed.

Lemma tx_commit_ok L st s region ch root now :
  log_stack L st -> 0 <= s < 16 -> region <> 0 -> root <> 0 ->
  exists b L', tx_commit L s region ch root now = Ok (b, L') /\ log_stack L' st /\ tx_count L' = tx_count L /\
    b = (bool_decide (status (tx_at L s) = TX_RECORDING) || bool_decide (status (tx_at L s) = TX_CLOSED)) /\
    (b = false -> L' = L) /\
    (b = true -> tx_region (tx_at L' s) = region /\ status (tx_at L' s) = TX_COMMITTED /\ forall s', 0 <= s' -> s' <> s -> tx_at L' s' = tx_at L s').
Proof.
  intros HL Hs Hr Hroot. unfold tx_commit. rewrite (proj2 (Z.eqb_neq _ _) Hr), (proj2 (Z.eqb_neq _ _) Hroot). cbn [negb require rbind].
  rewrite <- negb_orb. destruct (_ || _) eqn:Eb; cbn [negb]; [|by exists false, L]. eexists _, _. split; [reflexivity|].
  apply orb_prop in Eb. rewrite !bool_decide_eq_true in Eb.
  set (tx := stamp_transaction _ _).
  assert (Hat : forall s', 0 <= s' -> s' <> s -> tx_at (set_tx L s tx) s' = tx_at L s')
    by (intros s' H0 Hne; rewrite tx_at_set by (try apply HL; lia); by rewrite decide_False by congruence).
  assert (Hats : tx_at (set_tx L s tx) s = tx) by (rewrite tx_at_set by (try apply HL; lia); by rewrite decide_True).
  split_and!; auto; [|done|rewrite !Hats; by subst tx].
  assert (Hnot : s ∉ st) by (intros Hin; destruct (in_stack_status L st s HL Hs Hin); destruct Eb; congruence).
  destruct HL as [A1 A2 A3 A4 A5 A6 A7 A8 A9 A10]. split; auto.
  - cbn. by rewrite length_aset.
  - intros s' H'. destruct (decide (s' = s)) as [->|Hne]; [|rewrite Hat by lia; by apply A7].
    rewrite Hats. subst tx. cbn. split; (split; [done|]); intros H; exfalso; apply Hnot.
    + destruct st; cbn in H; simplify_eq. by left.
    + destruct st; [done|by right].
  - intros s' H'. destruct (decide (s' = s)) as [->|Hne]; [rewrite Hats; subst tx; cbn; by apply A8|rewrite Hat by lia; cbn; by apply A8].
  - eapply StronglySorted_impl; [|exact A9]. intros x y Hx Hy. apply (stack_claimed L st) in Hx as Hx', Hy as Hy'; auto.
    rewrite !Hat; [done|lia| |lia|]; intros ->; apply Hnot; destruct st; done || by right.
Qed.

(** The regions of the slots do not change. *)
Definition same_regions (L L' : TransactionLog) : Prop := forall s, 0 <= s < 16 -> tx_region (tx_at L' s) = tx_region (tx_at L s).

Lemma not_in_stack L st s :
  log_stack L st -> 0 <= s < 16 -> status (tx_at L s) = TX_COMMITTED -> s ∉ st.
Proof. intros HL Hs Hc Hin. destruct (in_stack_status L st s HL Hs Hin); congruence. Qed.

(** Two equivalences on a status, the head and the tail of a stack. *)
Ltac stack_iff :=
  split; split; intros;
  repeat match goal with
  | H : _ ∈ [] |- _ => by apply elem_of_nil in H
  | H : _ ∈ _ :: _ |- _ => apply elem_of_cons in H as [->|H]
  end; first [done|congruence|by left|by right].

(** The log after an activation: [a], the active slot until now, is superseded. *)
Lemma activate_push L st s a st' order L' :
  log_stack L st -> st = a :: st' -> 0 <= s < tx_count L -> s ∉ st -> order = displacements L + 1 -> order < 2 ^ 64 ->
  length (tx_storage L') = 16%nat -> tx_cursor L' = tx_cursor L -> tx_count L' = tx_count L -> active_tx L' = Some s ->
  displacements L' = order -> status (tx_at L' s) = TX_ACTIVE -> displacement_order (tx_at L' s) = displacement_order (tx_at L s) ->
  status (tx_at L' a) = TX_SUPERSEDED -> displacement_order (tx_at L' a) = order ->
  (forall s', 0 <= s' < 16 -> s' <> s -> s' <> a -> tx_at L' s' = tx_at L s') ->
  log_stack L' (s :: st).
Proof.
  intros [A1 A2 A3 A4 A5 A6 A7 A8 A9 A10] -> Hs Hnot Eo Ho B1 B2 B3 B4 B5 B6 B7 B8 B9 B10.
  assert (Ha : 0 <= a < tx_count L) by (by apply Forall_cons in A5 as [? _]).
  apply NoDup_cons in A4 as [Ha4 A4]. apply not_elem_of_cons in Hnot as [Hsa Hnot].
  split; rewrite ?B2, ?B3, ?B5; auto.
  - apply NoDup_cons. split; [by apply not_elem_of_cons|]. by apply NoDup_cons.
  - intros s' H'. cbn [head tail]. destruct (A7 s' H') as [C1 C2]. cbn [head tail] in *.
    destruct (decide (s' = s)) as [->|N1]; [rewrite B6; stack_iff|].
    destruct (decide (s' = a)) as [->|N2]; [rewrite B8; stack_iff|].
    rewrite B10 by lia. rewrite C1, C2. stack_iff.
  - intros s' H'. destruct (decide (s' = s)) as [->|N1]; [rewrite B7; specialize (A8 s H'); lia|].
    destruct (decide (s' = a)) as [->|N2]; [rewrite B9; lia|]. rewrite B10 by lia. specialize (A8 s' H'). lia.
  - cbn [tail]. assert (Hin : forall x : Z, x ∈ st' -> 0 <= x < 16 /\ x <> s /\ x <> a)
      by (intros x Hx; pose proof (stack_claimed L (a :: st') x A5 Hx); split_and!; [lia|lia|by intros ->|by intros ->]).
    constructor.
    + eapply StronglySorted_impl; [|exact A9]. intros x y Hx Hy. apply Hin in Hx as (? & ? & ?), Hy as (? & ? & ?). by rewrite !B10.
    + apply Forall_forall. intros x Hx. apply Hin in Hx as (? & ? & ?). rewrite B9, B10 by done. specialize (A8 x ltac:(lia)). lia.
  - lia.
Qed.

Lemma tx_activate_ok L st s n1 n2 :
  log_stack L st -> 0 <= s < tx_count L -> displacements L < UINT64_MAX ->
  exists p L', tx_activate L s n1 n2 = Ok (p, L') /\
    if bool_decide (status (tx_at L s) = TX_COMMITTED)
    then log_stack L' (s :: st) /\ p = head st /\ tx_count L' = tx_count L /\ same_regions L L'
    else L' = L /\ p = None.
Proof.
  intros HL Hs Hd. unfold tx_activate. pose proof (ls_count _ _ HL) as Hcnt. pose proof (ls_len _ _ HL) as Hlen.
  case_bool_decide as Hc; cbn [negb]; [|by eexists _, _].
  pose proof (not_in_stack L st s HL ltac:(lia) Hc) as Hnot. rewrite (ls_active _ _ HL).
  destruct st as [|a st]; cbn [head rbind].
  - eexists _, _. split; [reflexivity|]. set (tx := stamp_transaction _ _).
    assert (Hat : forall s', 0 <= s' -> tx_at (set_active (set_tx L s tx) s) s' = if decide (s = s') then tx else tx_at L s')
      by (intros; change (tx_at (set_active ?X s) ?y) with (tx_at X y); apply tx_at_set; lia).
    split_and!; [|done..|intros s' H'; rewrite Hat by lia; by destruct (decide (s = s')) as [->|]].
    destruct HL as [A1 A2 A3 A4 A5 A6 A7 A8 A9 A10]. split; auto; [cbn; by rewrite length_aset|apply NoDup_singleton| | |constructor].
    + intros s' H'. rewrite Hat by lia. destruct (decide (s = s')) as [->|N]; cbn; [stack_iff|].
      destruct (A7 s' H') as [C1 C2]. rewrite C1, C2. cbn. stack_iff.
    + intros s' H'. rewrite Hat by lia. destruct (decide (s = s')) as [->|N]; cbn; by apply A8.
  - pose proof (ls_active _ _ HL) as Eact.
    assert (Ha : 0 <= a < 16) by (pose proof (ls_claimed _ _ HL) as Hf; apply Forall_cons in Hf as [? _]; lia).
    unfold monotonic_bump64, monotonic_advance. rewrite (proj2 (Z.eqb_neq _ _)) by lia. cbn [negb require rbind].
    pose proof (ls_order _ _ HL a Ha). rewrite (proj2 (Z.leb_le _ _)) by lia. cbn [negb require rbind].
    eexists _, _. split; [reflexivity|].
    assert (Hsa : s <> a) by (intros ->; apply Hnot; by left).
    set (L1 := mkTxLog _ _ _ _ _). set (tx1 := stamp_transaction (displaced _ _) _). set (tx2 := stamp_transaction (set_status _ _) _).
    assert (Hat : forall s', 0 <= s' -> tx_at (set_active (set_tx (set_tx L1 a tx1) s tx2) s) s' =
      if decide (s = s') then tx2 else if decide (a = s') then tx1 else tx_at L s').
    { intros s' H'. change (tx_at (set_active ?X s) ?y) with (tx_at X y). rewrite tx_at_set; [|cbn; by rewrite length_aset|lia|done].
      destruct (decide (s = s')); [done|]. change (tx_at L s') with (tx_at L1 s'). by apply tx_at_set. }
    assert (Es : tx_at (set_tx L1 a tx1) s = tx_at L s) by (rewrite tx_at_set by (done || lia); by rewrite decide_False by congruence).
    split_and!; [|done..|].
    + apply (activate_push L (a :: st) s a st (displacements L + 1)); auto; try (unfold UINT64_MAX in Hd; lia);
        rewrite ?Hat by lia; rewrite ?(decide_True (P := s = s)) by done; try done.
      * cbn. by rewrite !length_aset.
      * subst tx2. rewrite Es. done.
      * rewrite decide_False, decide_True by done. done.
      * rewrite decide_False, decide_True by done. done.
      * intros s' H' N1 N2. rewrite Hat, !decide_False by (congruence || lia). done.
    + intros s' H'. rewrite Hat by lia. destruct (decide (s = s')) as [<-|]; [subst tx2; rewrite Es; done|].
      by destruct (decide (a = s')) as [<-|].
Qed.

Lemma tx_rollback_ok L st n1 n2 :
  log_stack L st ->
  match st with
  | a :: p :: st' => exists L', tx_rollback L n1 n2 = (true, L') /\ log_stack L' (p :: st') /\ tx_count L' = tx_count L /\
      same_regions L L' /\ displacements L' = displacements L
  | _ => tx_rollback L n1 n2 = (false, L)
  end.
Proof.
  intros HL. unfold tx_rollback. rewrite (previous_second _ _ HL), (ls_active _ _ HL).
  destruct st as [|a [|p st]]; [done..|]. cbn [lookup list_lookup head]. eexists. split; [reflexivity|].
  pose proof (ls_len _ _ HL) as Hlen. destruct HL as [A1 A2 A3 A4 A5 A6 A7 A8 A9 A10].
  apply NoDup_cons in A4 as [Na A4]. apply not_elem_of_cons in Na as [Hap Na].
  assert (Hr : 0 <= a < tx_count L /\ 0 <= p < tx_count L) by (apply Forall_cons in A5 as [? A5]; by apply Forall_cons in A5 as [? _]).
  assert (Hap' : p <> a) by congruence.
  set (tx1 := stamp_transaction (set_status TX_ROLLED_BACK _) _). set (tx2 := stamp_transaction (set_status TX_ACTIVE _) _).
  assert (Hat : forall s', 0 <= s' -> tx_at (set_active (set_tx (set_tx L a tx1) p tx2) p) s' =
    if decide (p = s') then tx2 else if decide (a = s') then tx1 else tx_at L s').
  { intros s' H'. change (tx_at (set_active ?X p) ?y) with (tx_at X y). rewrite tx_at_set; [|cbn; by rewrite length_aset|lia|done].
    destruct (decide (p = s')); [done|]. apply tx_at_set; lia. }
  assert (Ep : tx_at (set_tx L a tx1) p = tx_at L p) by (rewrite tx_at_set by (done || lia); by rewrite decide_False by congruence).
  split_and!; [|done| |done].
  2: { intros s' H'. rewrite Hat by lia. destruct (decide (p = s')) as [<-|]; [subst tx2; by rewrite Ep|]. by destruct (decide (a = s')) as [<-|]. }
  assert (Ho : forall s', 0 <= s' -> displacement_order (tx_at (set_active (set_tx (set_tx L a tx1) p tx2) p) s') = displacement_order (tx_at L s')).
  { intros s' H'. rewrite Hat by done. destruct (decide (p = s')) as [<-|]; [subst tx2; by rewrite Ep|]. by destruct (decide (a = s')) as [<-|]. }
  apply NoDup_cons in A4 as Hnd. split; auto.
  - cbn. by rewrite !length_aset.
  - by apply Forall_cons in A5 as [_ A5].
  - intros s' H'. rewrite Hat by lia. destruct (A7 s' H') as [C1 C2]. cbn [head tail] in *.
    destruct (decide (p = s')) as [<-|N1]; [cbn; destruct Hnd; stack_iff|].
    destruct (decide (a = s')) as [<-|N2]; [cbn|rewrite C1, C2; stack_iff].
    split; split; intros; congruence || done.
  - intros s' H'. rewrite Ho by lia. by apply A8.
  - cbn [tail] in *. apply StronglySorted_inv in A9 as [A9 _]. eapply StronglySorted_impl; [|exact A9]. intros x y Hx Hy.
    assert (forall z : Z, z ∈ st -> 0 <= z) as Hz by (intros z Hz; apply (stack_claimed L (a :: p :: st) z A5); by right).
    by rewrite !Ho by auto.
Qed.

(** ** The regions of the log *)

Lemma elem_of_regions L st r :
  log_stack L st -> r ∈ for_each_region L <-> r <> 0 /\ exists s, 0 <= s < tx_count L /\ tx_region (tx_at L s) = r.
Proof.
  intros HL. unfold for_each_region. rewrite list_elem_of_filter, list_elem_of_fmap. split.
  - intros (Hr & s & -> & Hs). split; [done|]. exists s. split; [|done]. by apply (elem_of_recents L st).
  - intros (Hr & s & Hs & <-). split; [done|]. exists s. split; [done|]. by apply (elem_of_recents L st).
Qed.

Lemma regions_count L st : log_stack L st -> (length (for_each_region L) <= 16)%nat.
Proof.
  intros HL. unfold for_each_region. etransitivity; [apply length_filter|]. unfold recents. rewrite !length_fmap, length_seqZ.
  pose proof (ls_count _ _ HL). lia.
Qed.

(** A published region joins the log, and no other does. *)
Lemma tx_publish_ok L st step region ch root now :
  log_stack L st -> region <> 0 -> root <> 0 -> displacements L < UINT64_MAX ->
  exists L' st', tx_publish L step region ch root now = Ok L' /\ log_stack L' st' /\
    (forall r, r ∈ for_each_region L' -> r = region \/ r ∈ for_each_region L).
Proof.
  intros HL Hr Hroot Hd. destruct now as [[[n1 n2] n3] n4]. unfold tx_publish.
  destruct (begin_tx_ok L st step n1 HL) as (s & L1 & E1 & HL1 & _ & Hs1 & Hat1 & Hsame1 & Hd1 & Hcnt1). rewrite E1. cbn [rbind].
  pose proof (ls_count _ _ HL1) as Hc1.
  destruct (tx_commit_ok L1 _ s region ch root n2 HL1 ltac:(lia) Hr Hroot) as (b & L2 & E2 & HL2 & Hcnt2 & Hb & _ & Hb2). rewrite E2. cbn [rbind].
  assert (Hd2 : displacements L2 = displacements L).
  { rewrite <- Hd1. unfold tx_commit in E2. inv_ok. destruct (_ && _); inv_ok; by simplify_eq. }
  rewrite Hat1 in Hb. cbn in Hb. specialize (Hb2 Hb) as (Hr2 & Hst2 & Hsame2).
  destruct (tx_activate_ok L2 _ s n3 n4 HL2 ltac:(lia) ltac:(lia)) as (p & L3 & E3 & H3). rewrite E3. cbn [rbind].
  rewrite bool_decide_true in H3 by done. destruct H3 as (HL3 & _ & Hcnt3 & Hsame3).
  eexists _, _. split; [reflexivity|]. split; [exact HL3|]. intros r Hin.
  apply (elem_of_regions _ _ _ HL3) in Hin as (Hr0 & s' & Hs' & Hreg). rewrite Hcnt3, Hcnt2 in Hs'. rewrite Hsame3 in Hreg by lia.
  destruct (decide (s' = s)) as [->|Hne]; [left; congruence|right]. rewrite Hsame2, Hsame1 in Hreg by lia.
  apply (elem_of_regions _ _ _ HL). split; [done|]. exists s'. split; [|done]. specialize (Hcnt1 s' ltac:(lia) Hne). lia.
Qed.

(** The region of the active transaction. *)
Definition active_region_of (L : TransactionLog) : Z := match active_tx L with Some s => tx_region (tx_at L s) | None => 0 end.

Lemma active_region_logged L st : log_stack L st -> active_region_of L <> 0 -> active_region_of L ∈ for_each_region L.
Proof.
  intros HL Hr. apply (elem_of_regions _ _ _ HL). split; [done|]. unfold active_region_of in *. rewrite (ls_active _ _ HL) in *.
  destruct st as [|a st]; [done|]. exists a. split; [|done]. pose proof (ls_claimed _ _ HL) as Hc. by apply Forall_cons in Hc as [? _].
Qed.

Lemma tx_rollback_regions L st n1 n2 b L' :
  log_stack L st -> tx_rollback L n1 n2 = (b, L') -> exists st', log_stack L' st' /\ forall r, r ∈ for_each_region L' -> r ∈ for_each_region L.
Proof.
  intros HL E. pose proof (tx_rollback_ok L st n1 n2 HL) as Hr. rewrite E in Hr. pose proof (ls_count _ _ HL).
  destruct st as [|a [|p st]]; [injection Hr as _ ->; by exists []|injection Hr as _ ->; by exists [a]|].
  destruct Hr as (L1 & [= _ ->] & HL1 & Hc & Hsame & _). exists (p :: st). split; [done|]. intros r Hin.
  apply (elem_of_regions _ _ _ HL1) in Hin as (Hr0 & s & Hs & Hreg). apply (elem_of_regions _ _ _ HL). split; [done|].
  exists s. rewrite Hc in Hs. split; [done|]. by rewrite <- Hsame by lia.
Qed.

(** ** The theorem *)

Inductive tx_op :=
| TxBegin (step : Z) (now : option Z)
| TxCommit (s region content_hash root : Z) (now : option Z)
| TxActivate (s : Z) (n1 n2 : option Z)
| TxRollback (n1 n2 : option Z).

Definition run_tx_op (L : TransactionLog) (o : tx_op) : result TransactionLog :=
  match o with
  | TxBegin step now => let* '(_, L) := begin_tx L step now in Ok L
  | TxCommit s region ch root now => let* '(_, L) := tx_commit L s region ch root now in Ok L
  | TxActivate s n1 n2 => let* '(_, L) := tx_activate L s n1 n2 in Ok L
  | TxRollback n1 n2 => Ok (tx_rollback L n1 n2).2
  end.

(** A caller commits and activates only what begin_tx gave it, a region with
    its computed hash. *)
Definition tx_op_ok (L : TransactionLog) (o : tx_op) : Prop :=
  match o with
  | TxBegin _ _ | TxRollback _ _ => True
  | TxCommit s region _ root _ => 0 <= s < tx_count L /\ region <> 0 /\ root <> 0
  | TxActivate s _ _ => 0 <= s < tx_count L
  end.

(** The undo stack of an operation. *)
Inductive undo_step (L : TransactionLog) (st : list Z) : tx_op -> list Z -> Prop :=
| undo_begin step now s L' :
    begin_tx L step now = Ok (s, L') -> s ∉ take 2 st -> undo_step L st (TxBegin step now) (filter (.≠ s) st)
| undo_commit s region ch root now : undo_step L st (TxCommit s region ch root now) st
| undo_push s n1 n2 :
    status (tx_at L s) = TX_COMMITTED -> s ∉ st -> undo_step L st (TxActivate s n1 n2) (s :: st)
| undo_refuse s n1 n2 : status (tx_at L s) <> TX_COMMITTED -> undo_step L st (TxActivate s n1 n2) st
| undo_pop a p st' n1 n2 : st = a :: p :: st' -> undo_step L st (TxRollback n1 n2) (p :: st')
| undo_none n1 n2 : (length st < 2)%nat -> undo_step L st (TxRollback n1 n2) st.

(** The logs that the members reach, with their stacks. *)
Inductive tx_reach : TransactionLog -> list Z -> Prop :=
| txr_new : tx_reach new_txlog []
| txr_op L st o L' st' :
    tx_reach L st -> tx_op_ok L o -> displacements L < UINT64_MAX -> run_tx_op L o = Ok L' -> undo_step L st o st' ->
    tx_reach L' st'.

Lemma run_tx_op_ok L st o :
  log_stack L st -> tx_op_ok L o -> displacements L < UINT64_MAX ->
  exists L' st', run_tx_op L o = Ok L' /\ undo_step L st o st' /\ log_stack L' st'.
Proof.
  intros HL Ho Hd. pose proof (ls_count _ _ HL). destruct o as [step now|s region ch root now|s n1 n2|n1 n2]; cbn [run_tx_op tx_op_ok] in *.
  - destruct (begin_tx_ok L st step now HL) as (s & L' & E & HL' & Hs & _). rewrite E. eexists _, _. split; [reflexivity|].
    split; [by econstructor|done].
  - destruct Ho as (Hs & Hr & Hroot). destruct (tx_commit_ok L st s region ch root now HL ltac:(lia) Hr Hroot) as (b & L' & E & HL' & _).
    rewrite E. eexists _, _. split; [reflexivity|]. split; [constructor|done].
  - destruct (tx_activate_ok L st s n1 n2 HL Ho Hd) as (p & L' & E & Hb). rewrite E. case_bool_decide as Hc.
    + destruct Hb as (HL' & _). eexists _, _. split; [reflexivity|]. split; [constructor; [done|]|exact HL'].
      by apply (not_in_stack L st s HL ltac:(lia)).
    + destruct Hb as [-> _]. eexists _, _. split; [reflexivity|]. split; [by constructor|done].
  - pose proof (tx_rollback_ok L st n1 n2 HL) as Hr. destruct st as [|a [|p st]].
    1,2: rewrite Hr; eexists _, _; (split; [reflexivity|]); (split; [constructor; cbn; lia|done]).
    destruct Hr as (L' & E & HL' & _). rewrite E. eexists _, _. split; [reflexivity|]. split; [by econstructor|done].
Qed.

Lemma undo_step_det L st o st1 st2 : log_stack L st -> undo_step L st o st1 -> undo_step L st o st2 -> st1 = st2.
Proof.
  intros HL H1 H2. destruct H1 as [step now s L' E| | | | |]; inversion H2 as [? ? s2 L2 E2| | | | |]; subst; try done.
  - rewrite E in E2. by injection E2 as <- <-.
  - by simplify_eq.
  - cbn in *. lia.
  - cbn in *. lia.
Qed.

Lemma tx_reach_stack L st : tx_reach L st -> log_stack L st.
Proof.
  induction 1 as [|L st o L' st' _ IH Ho Hd E Hu]; [apply log_stack_new|].
  destruct (run_tx_op_ok L st o IH Ho Hd) as (L1 & st1 & E1 & Hu1 & HL1). rewrite E in E1. injection E1 as <-.
  by rewrite (undo_step_det L st o st' st1 IH Hu Hu1).
Qed.

(** C27: the log of the transactions is an undo stack.  Whatever the members
    did before, every member ends; begin_tx never takes the slot of the active
    transaction or of the rollback target, an activation puts the transaction
    on top, and a rollback makes the one below it active again. *)
Theorem txlog_is_undo_stack L st o :
  tx_reach L st -> tx_op_ok L o -> displacements L < UINT64_MAX ->
  exists L' st', run_tx_op L o = Ok L' /\ undo_step L st o st' /\
    active_tx L' = head st' /\ previous L' = st' !! 1%nat.
Proof.
  intros HR Ho Hd. destruct (run_tx_op_ok L st o (tx_reach_stack _ _ HR) Ho Hd) as (L' & st' & E & Hu & HL').
  exists L', st'. split_and!; auto; [by apply ls_active|by apply previous_second].
Qed.

(** ** Witness *)

(** Two transactions, the second active. *)
Definition wit_tx_ops : list tx_op :=
  [TxBegin 0 (Some 5); TxCommit 0 4096 11 12 (Some 6); TxActivate 0 None (Some 7);
   TxBegin 1 (Some 8); TxCommit 1 8192 21 22 None; TxActivate 1 (Some 9) (Some 9)].

Definition tx_op_okb (L : TransactionLog) (o : tx_op) : bool :=
  (displacements L <? UINT64_MAX) &&
  match o with
  | TxBegin _ _ | TxRollback _ _ => true
  | TxCommit s region _ root _ => (0 <=? s) && (s <? tx_count L) && negb (region =? 0) && negb (root =? 0)
  | TxActivate s _ _ => (0 <=? s) && (s <? tx_count L)
  end.

Fixpoint run_tx_ops (L : TransactionLog) (os : list tx_op) : result TransactionLog :=
  match os with
  | [] => Ok L
  | o :: os => let* _ := require (tx_op_okb L o) "tx_op_ok" in let* L := run_tx_op L o in run_tx_ops L os
  end.

Lemma run_tx_ops_reach os : forall L st L', tx_reach L st -> run_tx_ops L os = Ok L' -> exists st', tx_reach L' st'.
Proof.
  induction os as [|o os IH]; intros L st L' HR E; cbn [run_tx_ops] in E; [injection E as <-; eauto|].
  inv_ok. match goal with H : tx_op_okb _ _ = true |- _ => rename H into Hb end.
  unfold tx_op_okb in Hb. apply andb_prop in Hb as [Hd Hb]. apply Z.ltb_lt in Hd.
  assert (Ho : tx_op_ok L o) by (destruct o; cbn in *; auto; reflect_bools; auto).
  destruct (run_tx_op_ok L st o (tx_reach_stack _ _ HR) Ho Hd) as (L1 & st1 & E1 & Hu1 & _).
  match goal with H : run_tx_op L o = Ok _ |- _ => rewrite E1 in H; injection H as <- end.
  eapply IH; [|exact E]. by eapply txr_op.
Qed.

Definition wit_txlog : TransactionLog := match run_tx_ops new_txlog wit_tx_ops with Ok L => L | Fatal _ => new_txlog end.

Lemma wit_tx_reach : exists st, tx_reach wit_txlog st.
Proof. apply (run_tx_ops_reach wit_tx_ops new_txlog [] wit_txlog txr_new). vm_compute. reflexivity. Qed.

Lemma txlog_is_undo_stack_witness : exists st L' st',
  tx_reach wit_txlog st /\ run_tx_op wit_txlog (TxRollback None None) = Ok L' /\
  undo_step wit_txlog st (TxRollback None None) st' /\
  active_tx wit_txlog = Some 1 /\ active_tx L' = Some 0 /\ active_tx L' = head st' /\ previous L' = st' !! 1%nat.
Proof.
  destruct wit_tx_reach as [st HR].
  destruct (txlog_is_undo_stack wit_txlog st (TxRollback None None) HR I ltac:(vm_compute; reflexivity))
    as (L' & st' & E & Hu & Ha & Hp).
  exists st, L', st'. split_and!; auto.
  vm_compute in E. by injection E as <-.
Defined.
