(* ===== verification/RegionStore.v ===== *)
(** * RegionStore.v: the memory of the published regions
    (the publish stage of include/crucible/BackgroundThread.h and
    src/BackgroundThread.cpp)

    The store has 128 slots.  A publish puts a region into a free slot, tells
    the holders, and then releases each region that no holder names.  A region
    is named by the address of its node, 0 for null; the address of a new node
    is an argument, as the allocator chooses it. *)

From stdpp Require Import base list strings gmap.
From Stdlib Require Import ZArith Lia.
From S2P Require Import Prelude.
From S2P Require Import Types.
From S2P Require Import MemoryPlan.
From S2P Require Import MetaLog.
From S2P Require Import BuildTrace.
#[local] Open Scope Z_scope.
#[local] Open Scope result_scope.

(** ** The queue of the regions that no backend compiled *)

Definition UQ_CAP : Z := 64.

Record UncompiledRegionQueue := mkUq { uq_slots : list Z; uq_total : Z }.

Definition new_uq : UncompiledRegionQueue := mkUq (replicate 64 0) 0.

Definition uq_push (region : Z) (q : UncompiledRegionQueue) : UncompiledRegionQueue :=
  mkUq (aset (uq_slots q) (uq_total q mod UQ_CAP) region) (u64 (uq_total q + 1)).

Definition uq_size (q : UncompiledRegionQueue) : Z := if uq_total q <? UQ_CAP then uq_total q else UQ_CAP.

Definition uq_slot (q : UncompiledRegionQueue) (age : Z) : Z :=
  aget 0 (uq_slots q) (u64 (uq_total q + UQ_CAP - 1 - age) mod UQ_CAP).

Definition uq_at (q : UncompiledRegionQueue) (age : Z) : result Z :=
  let* _ := require (age <? uq_size q) "age < size()" in Ok (uq_slot q age).

(** The regions of the queue, newest first. *)
Definition uq_list (q : UncompiledRegionQueue) : list Z := uq_slot q <$> seqZ 0 (uq_size q).

(** ** The marks of the owner *)

Definition MARKS_CAP : Z := 32.

Record RegionMarks := mkMarks {
  marks_held : list Z;          (* held[0 .. count) *)
  marks_handed : Z;
  has_foreground : bool;
  foreground_generation : Z;
}.

Definition no_marks : RegionMarks := mkMarks [] 0 false 0.

Definition hold (m : RegionMarks) (region : Z) : result RegionMarks :=
  if region =? 0 then Ok m
  else
    let* _ := require (negb (Z.of_nat (length (marks_held m)) =? MARKS_CAP)) "the region marks of the pipeline are full" in
    Ok (mkMarks (marks_held m ++ [region]) (marks_handed m) (has_foreground m) (foreground_generation m)).

Fixpoint hold_all (m : RegionMarks) (regions : list Z) : result RegionMarks :=
  match regions with
  | [] => Ok m
  | r :: regions => let* m := hold m r in hold_all m regions
  end.

(** ** The store *)

Definition REGION_STORE_CAP : Z := 128.
Definition NOT_LEFT : Z := UINT64_MAX.

Record RegionMemory := mkMem {
  rm_addr : Z;                  (* the node, 0 when the slot is free *)
  rm_region : RegionNode;
  left_generation : Z;
}.

Definition free_memory : RegionMemory := mkMem 0 (mkRegion 0 [] None) NOT_LEFT.

(** The state that the publish stage owns, and the slot [active_region] that
    it writes. *)
Record Publisher := mkPub {
  region_store_ : list RegionMemory;
  last_published_ : Z;
  owner_marks_ : RegionMarks;
  regions_dropped_full_ : Z;
  uncompiled_regions : UncompiledRegionQueue;
  pub_active_region : Z;
}.

Definition new_publisher : Publisher := mkPub (replicate 128 free_memory) 0 no_marks 0 new_uq 0.

Definition set_store (B : Publisher) (st : list RegionMemory) : Publisher :=
  mkPub st (last_published_ B) (owner_marks_ B) (regions_dropped_full_ B) (uncompiled_regions B) (pub_active_region B).
Definition set_region_marks (B : Publisher) (m : RegionMarks) : Publisher :=
  mkPub (region_store_ B) (last_published_ B) m (regions_dropped_full_ B) (uncompiled_regions B) (pub_active_region B).

Definition is_held_ (B : Publisher) (region : Z) : bool :=
  existsb (fun r => r =? region) (marks_held (owner_marks_ B)) ||
  existsb (fun r => r =? region) (uq_list (uncompiled_regions B)).

(** One slot of sweep_regions_. *)
Definition sweep_slot (B : Publisher) (m : RegionMemory) : RegionMemory :=
  let marks := owner_marks_ B in
  if rm_addr m =? 0 then m
  else if (rm_addr m =? last_published_ B) || (rm_addr m =? marks_handed marks)
  then mkMem (rm_addr m) (rm_region m) NOT_LEFT
  else if has_foreground marks && (left_generation m =? NOT_LEFT)
  then mkMem (rm_addr m) (rm_region m) (foreground_generation marks)
  else if is_held_ B (rm_addr m) then m
  else if has_foreground marks && (foreground_generation marks <=? left_generation m) then m
  else free_memory.

Definition sweep_regions_ (B : Publisher) : Publisher := set_store B (sweep_slot B <$> region_store_ B).

(** The first slot of [region] gets a left generation of NOT_LEFT. *)
Fixpoint keep_in (region : Z) (st : list RegionMemory) : list RegionMemory :=
  match st with
  | [] => []
  | m :: st =>
      if rm_addr m =? 0 then m :: keep_in region st
      else if rm_addr m =? region then mkMem (rm_addr m) (rm_region m) NOT_LEFT :: st
      else m :: keep_in region st
  end.

Definition keep_region (B : Publisher) (region : Z) : Publisher := set_store B (keep_in region (region_store_ B)).

Definition region_count (B : Publisher) : Z :=
  Z.of_nat (length (filter (fun m => rm_addr m <> 0) (region_store_ B))).

(** ** Publication *)

Definition release_meta_log (L : MetaLog) (meta_end : Z) : result MetaLog :=
  if 0 <? meta_end then advance_tail L meta_end else Ok L.

Definition discard_region (L : MetaLog) (parts : BuiltRegion) : result MetaLog := release_meta_log L (br_max_meta_end parts).

(** init_region_node (MerkleDag.h): the node of the ops, with no plan yet. *)
Definition init_region_node (ops : list TraceEntry) (hash : Z) : result RegionNode :=
  let* _ := require (negb (hash =? 0) || (Z.of_nat (length ops) =? 0)) "is_non_zero(precomputed_hash) || num_ops == 0" in
  Ok (mkRegion hash ops None).

(** The first free slot. *)
Fixpoint free_index (st : list RegionMemory) : option nat :=
  match st with
  | [] => None
  | m :: st => if rm_addr m =? 0 then Some O else S <$> free_index st
  end.

(** publish_region up to the region callback; None when the store is full and
    the region is discarded. *)
Definition publish_begin (rank world_size capability : Z) (B : Publisher) (L : MetaLog) (addr : Z) (parts : BuiltRegion)
    : result (option RegionNode * Publisher * MetaLog) :=
  match free_index (region_store_ B) with
  | None =>
      let B := mkPub (region_store_ B) (last_published_ B) (owner_marks_ B) (u64 (regions_dropped_full_ B + 1))
                 (uncompiled_regions B) (pub_active_region B) in
      let* L := discard_region L parts in
      Ok (None, B, L)
  | Some i =>
      let* node := init_region_node (br_ops parts) (br_content_hash parts) in
      let* plan :=
        if 0 <? Z.of_nat (length (br_slots parts))
        then let* plan := compute_memory_plan rank world_size capability (br_slots parts) in Ok (Some plan)
        else Ok None in
      let region := mkRegion (region_content_hash node) (region_ops node) plan in
      let* L := release_meta_log L (br_max_meta_end parts) in
      Ok (Some region,
          mkPub (<[i := mkMem addr region NOT_LEFT]> (region_store_ B)) addr no_marks (regions_dropped_full_ B)
            (uq_push addr (uncompiled_regions B)) addr, L)
  end.

(** publish_region with the region callback [cb], which gives the marks. *)
Definition publish_region (rank world_size capability : Z) (cb : option (Z -> RegionNode -> result RegionMarks))
    (B : Publisher) (L : MetaLog) (addr : Z) (parts : BuiltRegion) : result (Publisher * MetaLog) :=
  let* '(r, B, L) := publish_begin rank world_size capability B L addr parts in
  match r with
  | None => Ok (B, L)
  | Some region =>
      let* B := match cb with
                | None => Ok B
                | Some cb => let* marks := cb addr region in Ok (set_region_marks B marks)
                end in
      Ok (sweep_regions_ B, L)
  end.

(** ** The queue *)

Record uq_ok (q : UncompiledRegionQueue) : Prop := {
  uqo_len : length (uq_slots q) = 64%nat;
  uqo_total : 0 <= uq_total q < 2 ^ 64;
}.

Lemma uq_ok_new : uq_ok new_uq.
Proof. by split. Qed.

Lemma u64_mod_cap x : u64 x mod UQ_CAP = x mod UQ_CAP.
Proof. unfold wrap, UQ_CAP. symmetry. apply Znumtheory.Zmod_div_mod; [lia|lia|]. by exists (2 ^ 58). Qed.

Lemma uq_ok_push r q : uq_ok q -> uq_ok (uq_push r q).
Proof. intros [Hl Ht]. split; cbn; [by rewrite length_aset|apply u64_range]. Qed.

(** A push adds its region and no other. *)
Lemma elem_of_uq_push r q a : uq_ok q -> a ∈ uq_list (uq_push r q) -> a = r \/ a ∈ uq_list q.
Proof.
  intros [Hl Ht] Hin. unfold uq_list in *. apply list_elem_of_fmap in Hin as (age & -> & Hage). apply elem_of_seqZ in Hage.
  unfold uq_slot in *. cbn [uq_push uq_slots uq_total] in *. rewrite !u64_mod_cap.
  assert (Hsz : uq_size (uq_push r q) <= uq_size q + 1 /\ uq_size (uq_push r q) <= 64 /\ uq_size q <= 64).
  { unfold uq_size, UQ_CAP. cbn [uq_push uq_total]. pose proof (u64_range (uq_total q + 1)).
    destruct (Z.eq_dec (uq_total q) (2 ^ 64 - 1)) as [E|E]; [rewrite E; change (u64 (2 ^ 64 - 1 + 1)) with 0; change (2 ^ 64 - 1 <? 64) with false; cbn; lia|]. rewrite (wrap_small 64) by lia.
    destruct (Z.ltb_spec (uq_total q) 64), (Z.ltb_spec (uq_total q + 1) 64); lia. }
  assert (Hidx : (u64 (uq_total q + 1) + UQ_CAP - 1 - age) mod UQ_CAP = (uq_total q - age) mod UQ_CAP).
  { unfold wrap, UQ_CAP. rewrite (Z.mod_eq (uq_total q + 1)) by lia. set (k := (uq_total q + 1) / 2 ^ 64).
    replace (uq_total q + 1 - 2 ^ 64 * k + 64 - 1 - age) with (uq_total q - age + (1 - 2 ^ 58 * k) * 64) by lia. apply Z_mod_plus_full. }
  rewrite Hidx. unfold UQ_CAP in *.
  rewrite aget_aset by mod_lia. case_decide as Hd; [by left|right].
  apply list_elem_of_fmap. exists (age - 1). split.
  - rewrite u64_mod_cap. unfold UQ_CAP. f_equal. replace (uq_total q + 64 - 1 - (age - 1)) with (uq_total q - age + 1 * 64) by lia. by rewrite Z_mod_plus_full.
  - apply elem_of_seqZ. destruct (Z.eq_dec age 0) as [->|]; [|lia]. exfalso. apply Hd. f_equal. lia.
Qed.

(** ** The sweep *)

Lemma is_held_iff B a : is_held_ B a = true <-> a ∈ marks_held (owner_marks_ B) \/ a ∈ uq_list (uncompiled_regions B).
Proof.
  unfold is_held_. rewrite orb_true_iff, !existsb_exists. split.
  - intros [(x & Hx & ->%Z.eqb_eq)|(x & Hx & ->%Z.eqb_eq)]; apply list_elem_of_In in Hx; auto.
  - intros [H|H]; [left|right]; exists a; (split; [by apply list_elem_of_In|apply Z.eqb_refl]).
Qed.

(** What the sweep makes of a slot: it stays, with the same region, or it is
    released, and then no holder named it after a write of the foreground. *)
Inductive swept (B : Publisher) (m : RegionMemory) : RegionMemory -> Prop :=
| swept_free : rm_addr m = 0 -> swept B m m
| swept_seen : rm_addr m <> 0 -> rm_addr m = last_published_ B \/ rm_addr m = marks_handed (owner_marks_ B) ->
    swept B m (mkMem (rm_addr m) (rm_region m) NOT_LEFT)
| swept_left : rm_addr m <> 0 -> rm_addr m <> last_published_ B -> rm_addr m <> marks_handed (owner_marks_ B) ->
    has_foreground (owner_marks_ B) = true -> left_generation m = NOT_LEFT ->
    swept B m (mkMem (rm_addr m) (rm_region m) (foreground_generation (owner_marks_ B)))
| swept_kept : rm_addr m <> 0 -> rm_addr m <> last_published_ B -> rm_addr m <> marks_handed (owner_marks_ B) ->
    (has_foreground (owner_marks_ B) = true -> left_generation m <> NOT_LEFT) -> swept B m m
| swept_released : rm_addr m <> 0 -> rm_addr m <> last_published_ B -> rm_addr m <> marks_handed (owner_marks_ B) ->
    rm_addr m ∉ marks_held (owner_marks_ B) -> rm_addr m ∉ uq_list (uncompiled_regions B) ->
    (has_foreground (owner_marks_ B) = true -> left_generation m <> NOT_LEFT /\ left_generation m < foreground_generation (owner_marks_ B)) ->
    swept B m free_memory.

Lemma sweep_slot_swept B m : swept B m (sweep_slot B m).
Proof.
  unfold sweep_slot. destruct (Z.eqb_spec (rm_addr m) 0) as [E0|E0]; [by apply swept_free|].
  destruct (Z.eqb_spec (rm_addr m) (last_published_ B)) as [E1|E1]; cbn [orb]; [apply swept_seen; auto|].
  destruct (Z.eqb_spec (rm_addr m) (marks_handed (owner_marks_ B))) as [E2|E2]; [apply swept_seen; auto|].
  destruct (has_foreground (owner_marks_ B)) eqn:Ef; cbn [andb].
  - destruct (Z.eqb_spec (left_generation m) NOT_LEFT) as [E3|E3]; [by apply swept_left|].
    destruct (is_held_ B (rm_addr m)) eqn:Eh; [by apply swept_kept|].
    destruct (Z.leb_spec (foreground_generation (owner_marks_ B)) (left_generation m)); [by apply swept_kept|].
    apply not_true_iff_false in Eh. rewrite is_held_iff in Eh. apply swept_released; auto.
  - destruct (is_held_ B (rm_addr m)) eqn:Eh; [apply swept_kept; auto; by rewrite Ef|].
    apply not_true_iff_false in Eh. rewrite is_held_iff in Eh. apply swept_released; auto. by rewrite Ef.
Qed.
