(* ===== verification/Vigil.v ===== *)
(** * Vigil.v: the foreground of the runtime
    (include/crucible/Vigil.h and src/Vigil.cpp)

    Each op of the adapter goes through dispatch_op: it is recorded into the
    metadata log and the ring, or it is checked against the region that the
    context replays.  A region that the background published is aligned to the
    stream of ops before its replay starts, and a divergence looks for a cached
    region before it falls back to recording.

    A region is the address of its node; [H] gives the node behind an address,
    and a read of an address with no node ends the run.  The context of
    Context.v holds the node itself, so its address is beside it. *)

From stdpp Require Import base list strings gmap.
From Stdlib Require Import ZArith Lia.
From S2P Require Import Prelude.
From S2P Require Import Types.
From S2P Require Import Arena.
From S2P Require Import Registry.
From S2P Require Import MemoryPlan.
From S2P Require Import Pool.
From S2P Require Import Replay.
From S2P Require Import Context.
From S2P Require Import MetaLog.
From S2P Require Import TraceRing.
From S2P Require Import RegionCache.
#[local] Open Scope Z_scope.
#[local] Open Scope result_scope.

(** ** The state *)

(** The mode that an observer reads (fixy/session/VigilModeCell.h). *)
Inductive Mode := MODE_RECORDING | MODE_COMPILED.

#[export] Instance Mode_eq_dec : EqDecision Mode.
Proof. solve_decision. Defined.

Definition ALIGNMENT_K : Z := 5.
Definition ALIGNMENT_POS_MAX : Z := 5.

(** alignment_pos_at: Refined<bounded_above<ALIGNMENT_POS_MAX>> *)
Definition alignment_pos_at (pos : Z) : result Z :=
  let* _ := require (pos <=? ALIGNMENT_POS_MAX) "bounded_above<ALIGNMENT_POS_MAX>" in Ok pos.

(** PublishSlot: publish is a store, observe a load, consume an exchange with
    null. *)
Record Vigil := mkVigil {
  v_ctx : CrucibleContext;
  v_active : Z;                 (* the address of the region of the context *)
  v_cache : RegionCache;
  pending_activation_ : Z;
  alignment_pos_ : Z;
  v_mode : Mode;
  pending_region_ : Z;          (* the publication slot *)
  reset_requested : bool;
  v_ring : TraceRing;
  v_meta : MetaLog;
  v_world : world;
  v_mem : mem;
}.

Definition set_ctx (V : Vigil) (c : CrucibleContext) (a : Z) (w : world) (m : mem) : Vigil :=
  mkVigil c a (v_cache V) (pending_activation_ V) (alignment_pos_ V) (v_mode V) (pending_region_ V) (reset_requested V)
    (v_ring V) (v_meta V) w m.
Definition set_cache (V : Vigil) (c : RegionCache) : Vigil :=
  mkVigil (v_ctx V) (v_active V) c (pending_activation_ V) (alignment_pos_ V) (v_mode V) (pending_region_ V) (reset_requested V)
    (v_ring V) (v_meta V) (v_world V) (v_mem V).
Definition set_walk (V : Vigil) (pending pos : Z) : Vigil :=
  mkVigil (v_ctx V) (v_active V) (v_cache V) pending pos (v_mode V) (pending_region_ V) (reset_requested V)
    (v_ring V) (v_meta V) (v_world V) (v_mem V).
Definition set_mode (V : Vigil) (m : Mode) : Vigil :=
  mkVigil (v_ctx V) (v_active V) (v_cache V) (pending_activation_ V) (alignment_pos_ V) m (pending_region_ V) (reset_requested V)
    (v_ring V) (v_meta V) (v_world V) (v_mem V).
Definition set_slot (V : Vigil) (s : Z) : Vigil :=
  mkVigil (v_ctx V) (v_active V) (v_cache V) (pending_activation_ V) (alignment_pos_ V) (v_mode V) s (reset_requested V)
    (v_ring V) (v_meta V) (v_world V) (v_mem V).
Definition signal_reset (V : Vigil) : Vigil :=
  mkVigil (v_ctx V) (v_active V) (v_cache V) (pending_activation_ V) (alignment_pos_ V) (v_mode V) (pending_region_ V) true
    (v_ring V) (v_meta V) (v_world V) (v_mem V).
Definition set_logs (V : Vigil) (r : TraceRing) (m : MetaLog) : Vigil :=
  mkVigil (v_ctx V) (v_active V) (v_cache V) (pending_activation_ V) (alignment_pos_ V) (v_mode V) (pending_region_ V) (reset_requested V)
    r m (v_world V) (v_mem V).

(** The context alone changes, the active region stays. *)
Definition step_ctx (V : Vigil) (c : CrucibleContext) : Vigil := set_ctx V c (v_active V) (v_world V) (v_mem V).

Definition ctx_is_compiled (V : Vigil) : bool := bool_decide (mode_ (v_ctx V) = COMPILED).

(** ** Recording *)

(** One op of the adapter: the certified entry, the metadata of its tensors and
    its two hashes. *)
Record op_request := mkOp { rq_entry : Entry; rq_metas : list TensorMeta; rq_scope : Z; rq_callsite : Z }.

Definition record_op (V : Vigil) (rq : op_request) : result (bool * Vigil) :=
  let* '(meta_start, L) :=
    if 0 <? Z.of_nat (length (rq_metas rq)) then meta_try_append (v_meta V) (rq_metas rq) else Ok (none64, v_meta V) in
  let* '(ok, R) := try_append (v_ring V) (mkItem (rq_entry rq) meta_start (rq_scope rq) (rq_callsite rq)) in
  Ok (ok, set_logs V R L).

(** ** Dispatch *)

Inductive Action := ACTION_RECORD | ACTION_COMPILED.

Record DispatchResult := mkDispatch { action : Action; dr_status : ReplayStatus; op_index : Z }.

Definition recorded : DispatchResult := mkDispatch ACTION_RECORD MATCH none32.

(** A region that the code reads. *)
Definition node_at (H : Z -> option RegionNode) (a : Z) : result RegionNode :=
  match H a with Some r => Ok r | None => Fatal "use of a region that is not there" end.

Definition has_plan (H : Z -> option RegionNode) (a : Z) : bool :=
  match H a with Some r => is_Some_b (region_plan r) | None => false end.

Section Dispatch.
Context `{M : PoolMem} (H : Z -> option RegionNode).

(** The scan of one op in register_externals_from_region_, from input [j], [n]
    inputs left. *)
Fixpoint input_of_slot (te : TraceEntry) (ids : list Z) (target : Z) (j n : nat) : result Z :=
  match n with
  | O => Ok 0
  | S n =>
      match ids !! j with
      | None => Fatal "read past the end of the slot ids"
      | Some id =>
          if id =? target
          then match default [] (input_metas te) !! j with
               | Some m => Ok (data_ptr m)
               | None => Fatal "read past the end of the metadata"
               end
          else input_of_slot te ids target (S j) n
      end
  end.

(** The first non-null pointer of a slot among the inputs of the ops. *)
Fixpoint external_ptr (ops : list TraceEntry) (target : Z) : result Z :=
  match ops with
  | [] => Ok 0
  | te :: ops =>
      let* ptr := match input_slot_ids te with
                  | None => Ok 0
                  | Some ids => input_of_slot te ids target 0 (Z.to_nat (num_inputs te))
                  end in
      if ptr =? 0 then external_ptr ops target else Ok ptr
  end.

Fixpoint register_externals (ops : list TraceEntry) (slots : list TensorSlot) (c : CrucibleContext) : result CrucibleContext :=
  match slots with
  | [] => Ok c
  | s :: slots =>
      if negb (is_external s) then register_externals ops slots c
      else
        let* ptr := external_ptr ops (slot_id s) in
        let* c := if ptr =? 0 then Ok c else ctx_register_external c (slot_id s) ptr in
        register_externals ops slots c
  end.

Definition register_externals_from_region_ (c : CrucibleContext) (region : RegionNode) : result CrucibleContext :=
  match region_plan region with
  | None => Ok c
  | Some plan => register_externals (region_ops region) (take (Z.to_nat (num_slots plan)) (plan_slots plan)) c
  end.

(** The replay of the ops that alignment matched, [n] left from op [i]. *)
Fixpoint skip_matched (ops : list TraceEntry) (i n : nat) (c : CrucibleContext) : result CrucibleContext :=
  match n with
  | O => Ok c
  | S n =>
      match ops !! i with
      | None => Fatal "read past the end of the ops"
      | Some te => let* '(_, c) := ctx_advance c (schema_hash te) (shape_hash te) in skip_matched ops (S i) n c
      end
  end.

Definition op_matches (schema shape : Z) (te : TraceEntry) : bool := (schema =? schema_hash te) && (shape =? shape_hash te).

(** The position after one more op of the stream. *)
Definition next_alignment (ops : list TraceEntry) (pos schema shape : Z) : result Z :=
  match ops !! Z.to_nat pos with
  | None => Fatal "read past the end of the ops"
  | Some te =>
      if op_matches schema shape te then alignment_pos_at (pos + 1)
      else
        let* zero := alignment_pos_at 0 in
        match ops !! 0%nat with
        | Some first => if op_matches schema shape first then alignment_pos_at 1 else Ok zero
        | None => Ok zero
        end
  end.

Definition alignment_threshold (ops : list TraceEntry) : Z :=
  if Z.of_nat (length ops) <? ALIGNMENT_K then Z.of_nat (length ops) else ALIGNMENT_K.

Definition try_align_ (V : Vigil) (schema shape : Z) : result Vigil :=
  let addr := pending_activation_ V in
  let* region := node_at H addr in
  let* pos := next_alignment (region_ops region) (alignment_pos_ V) schema shape in
  let V := set_walk V addr pos in
  if alignment_threshold (region_ops region) <=? pos then
    let* '(activated, c, w) := activate (v_ctx V) (v_world V) region in
    if negb activated then Ok (set_walk V 0 pos)
    else
      let* c := register_externals_from_region_ c region in
      let* cache := rc_insert addr region (v_cache V) in
      let* c := skip_matched (region_ops region) 0 (Z.to_nat pos) c in
      let V := set_cache (set_ctx V c addr w (v_mem V)) cache in
      Ok (set_walk (set_mode V MODE_COMPILED) 0 pos)
  else Ok V.

Definition consume_pending_region_ (V : Vigil) : result Vigil :=
  let addr := pending_region_ V in
  let V := set_slot V 0 in
  if addr =? 0 then Ok V
  else
    let* region := node_at H addr in
    if Z.of_nat (length (region_ops region)) =? 0 then Ok V
    else let* zero := alignment_pos_at 0 in Ok (set_walk V addr zero).

(** dispatch_transition_ before its publish_held_regions_. *)
Definition dispatch_transition_ (V : Vigil) (rq : op_request) : result (DispatchResult * Vigil) :=
  let* V := if negb (pending_region_ V =? 0) then consume_pending_region_ V else Ok V in
  let* V := if negb (pending_activation_ V =? 0)
            then try_align_ V (e_schema_hash (rq_entry rq)) (e_shape_hash (rq_entry rq))
            else let* '(_, V) := record_op V rq in Ok V in
  Ok (recorded, V).

(** The prefix test of try_switch_region_, [n] ops left from op [i]. *)
Fixpoint same_prefix (old_ops new_ops : list TraceEntry) (i n : nat) : result bool :=
  match n with
  | O => Ok true
  | S n =>
      match old_ops !! i, new_ops !! i with
      | Some o, Some a =>
          if op_matches (schema_hash o) (shape_hash o) a then same_prefix old_ops new_ops (S i) n else Ok false
      | _, _ => Fatal "read past the end of the ops"
      end
  end.

Definition try_switch_region_ (V : Vigil) (alt div_pos : Z) : result (bool * Vigil) :=
  let* _ := require (negb (alt =? 0)) "alt != nullptr" in
  let* region := node_at H alt in
  match region_plan region with
  | None => Ok (false, V)
  | Some _ =>
      let* same :=
        if 0 <? div_pos then
          let* old_region := node_at H (v_active V) in
          if Z.of_nat (length (region_ops region)) <? div_pos then Ok false
          else same_prefix (region_ops old_region) (region_ops region) 0 (Z.to_nat div_pos)
        else Ok true in
      if negb same then Ok (false, V)
      else
        let* '(switched, c, w, m) := switch_region (v_ctx V) (v_world V) (v_mem V) region div_pos in
        if negb switched then Ok (false, V)
        else
          let* c := register_externals_from_region_ c region in
          Ok (true, set_ctx V c alt w m)
  end.

(** The last part of handle_divergence_: back to recording. *)
Definition fall_back (V : Vigil) : Vigil :=
  let V := if ctx_is_compiled V
           then let '(c, w) := deactivate (v_ctx V) (v_world V) in set_ctx V c 0 w (v_mem V)
           else V in
  signal_reset (set_mode V MODE_RECORDING).

(** handle_divergence_ before its publish_held_regions_. *)
Definition handle_divergence_ (V : Vigil) (schema shape : Z) : result (DispatchResult * Vigil) :=
  let div_pos := ops_matched (engine_ (v_ctx V)) in
  let stale_pending := pending_region_ V in
  let V := set_slot V 0 in
  let* cache := if stale_pending =? 0 then Ok (v_cache V)
                else let* r := node_at H stale_pending in rc_insert stale_pending r (v_cache V) in
  let* zero := alignment_pos_at 0 in
  let V := set_walk (set_cache V cache) 0 zero in
  let* active := node_at H (v_active V) in
  let* cache := rc_insert (v_active V) active (v_cache V) in
  let V := set_cache V cache in
  let alt := find_alternate (has_plan H) div_pos schema shape (v_active V) (v_cache V) in
  let diverged V := Ok (mkDispatch ACTION_RECORD DIVERGED none32, fall_back V) in
  if alt =? 0 then diverged V
  else
    let* '(switched, V) := try_switch_region_ V alt div_pos in
    if negb switched then diverged V
    else
      let* '(status, c) := ctx_advance (v_ctx V) schema shape in
      let V := step_ctx V c in
      if bool_decide (status = DIVERGED) then diverged V
      else Ok (mkDispatch ACTION_COMPILED status (ops_matched (engine_ (v_ctx V))), V).

(** dispatch_op before the publish_held_regions_ of its cold paths; the boolean
    tells a cold path. *)
Definition dispatch_op (V : Vigil) (rq : op_request) : result (bool * DispatchResult * Vigil) :=
  let schema := e_schema_hash (rq_entry rq) in
  let shape := e_shape_hash (rq_entry rq) in
  if ctx_is_compiled V then
    let* '(status, c) := ctx_advance (v_ctx V) schema shape in
    let V := step_ctx V c in
    if bool_decide (status = DIVERGED)
    then let* '(r, V) := handle_divergence_ V schema shape in Ok (true, r, V)
    else Ok (false, mkDispatch ACTION_COMPILED status none32, V)
  else if negb (pending_region_ V =? 0) || negb (pending_activation_ V =? 0)
  then let* '(r, V) := dispatch_transition_ V rq in Ok (true, r, V)
  else let* '(_, V) := record_op V rq in Ok (false, recorded, V).

(** The foreground part of rollback, on the region that the log restored; the
    result names the new active_region of the background, when it changes. *)
Definition rollback_restore (V : Vigil) (restored : Z) : result Vigil :=
  let V := if ctx_is_compiled V
           then let '(c, w) := deactivate (v_ctx V) (v_world V) in set_ctx V c 0 w (v_mem V)
           else V in
  let V := set_mode V MODE_RECORDING in
  if restored =? 0 then Ok V
  else
    let* region := node_at H restored in
    let* '(activated, c, w) := activate (v_ctx V) (v_world V) region in
    if negb activated then Ok V
    else
      let* c := register_externals_from_region_ c region in
      Ok (set_mode (set_ctx V c restored w (v_mem V)) MODE_COMPILED).

(** load, after the store gave the region at [addr]. *)
Definition load_region (V : Vigil) (addr : Z) : result Vigil :=
  let* region := node_at H addr in
  let* '(activated, c, w) := activate (v_ctx V) (v_world V) region in
  if negb activated then Ok V
  else
    let* c := register_externals_from_region_ c region in
    let* cache := rc_insert addr region (v_cache V) in
    Ok (set_mode (set_cache (set_ctx V c addr w (v_mem V)) cache) MODE_COMPILED).
End Dispatch.

(** ** The regions that the foreground holds *)

(** The cells of held_regions_ that publish_held_regions_ writes, in order. *)
Definition held_regions (V : Vigil) : list Z :=
  pending_activation_ V :: v_active V :: ((fun age => region_at age (v_cache V)) <$> seqZ 0 RegionCache.CAP).
