(* ===== verification/VigilProofs.v ===== *)
(** * VigilProofs.v: the foreground keeps its parts in step

    The invariant of the foreground: the mode follows the context, the context
    replays the region behind the active address, the alignment walk is inside
    its region, and every region that the foreground names is there.  Every
    dispatch keeps it, and takes no region but the one in the publication
    slot. *)

From stdpp Require Import base list strings gmap sets.
From Stdlib Require Import ZArith Lia.
From S2P Require Import Prelude.
From S2P Require Import Types.
From S2P Require Import Arena.
From S2P Require Import Registry.
From S2P Require Import MemoryPlan.
From S2P Require Import Pool.
From S2P Require Import Replay.
From S2P Require Import Context.
From S2P Require Import ContextProofs.
From S2P Require Import MetaLog.
From S2P Require Import TraceRing.
From S2P Require Import RegionCache.
From S2P Require Import Vigil.
#[local] Open Scope Z_scope.
#[local] Open Scope result_scope.

(** A region as the publish stage makes it: each slot of the plan is at the
    index that its id names. *)
Definition region_wf (r : RegionNode) : Prop :=
  forall plan, region_plan r = Some plan -> plan_counted plan /\
    forall i s, plan_slots plan !! i = Some s -> slot_id s = Z.of_nat i.

Definition heap_wf (H : Z -> option RegionNode) : Prop := forall a r, H a = Some r -> region_wf r.

Lemma region_wf_counted r : region_wf r -> region_counted r.
Proof. intros Hr plan Hp. by apply Hr. Qed.

(** The entries of the cache are the regions behind their addresses. *)
Definition cache_at (H : Z -> option RegionNode) (c : RegionCache) : Prop :=
  exists l, rep c l /\ forall e, e ∈ l -> exists r, H (re_addr e) = Some r /\ re_ops e = region_ops r /\ re_hash e = region_content_hash r.

Record vigil_ok `{M : PoolMem} (H : Z -> option RegionNode) (V : Vigil) : Prop := {
  vo_ctx : ctx_ok (v_ctx V) (v_world V);
  vo_active : if ctx_is_compiled V then v_active V <> 0 /\ H (v_active V) = active_region_ (v_ctx V) else v_active V = 0;
  vo_mode : v_mode V = if ctx_is_compiled V then MODE_COMPILED else MODE_RECORDING;
  vo_pos : 0 <= alignment_pos_ V <= ALIGNMENT_POS_MAX;
  vo_walk : pending_activation_ V <> 0 ->
    exists r, H (pending_activation_ V) = Some r /\ alignment_pos_ V < alignment_threshold (region_ops r);
  vo_cache : cache_at H (v_cache V);
  vo_slot : pending_region_ V <> 0 -> is_Some (H (pending_region_ V));
}.

(** The regions that the foreground holds. *)
Definition fg_holds (V : Vigil) (a : Z) : Prop := a <> 0 /\ a ∈ held_regions V.

(** ** The cache *)

Lemma cache_addrs c l a : rep c l -> a <> 0 -> (a ∈ ((fun age => region_at age c) <$> seqZ 0 RegionCache.CAP) <-> exists e, e ∈ l /\ re_addr e = a).
Proof.
  intros Hr Ha. pose proof (rp_count _ _ Hr) as [Hc Hl].
  assert (Hat : forall i : nat, region_at (Z.of_nat i) c = addr_of (l !! i)).
  { intros i. unfold region_at. rewrite Hc. destruct (Z.leb_spec (Z.of_nat (length l)) (Z.of_nat i)).
    - by rewrite lookup_ge_None_2 by lia.
    - destruct (lookup_lt_is_Some_2 l i ltac:(lia)) as [e He]. rewrite He. by destruct (rp_holds _ _ Hr i e He) as (H1 & _). }
  rewrite list_elem_of_fmap. split.
  - intros (age & -> & Hage). apply elem_of_seqZ in Hage. rewrite <- (Z2Nat.id age) in Ha |- * by lia. rewrite Hat in *.
    destruct (l !! Z.to_nat age) as [e|] eqn:E; [|done]. exists e. split; [by eapply list_elem_of_lookup_2|done].
  - intros (e & He & <-). apply list_elem_of_lookup in He as [i Hi]. exists (Z.of_nat i). rewrite Hat, Hi. split; [done|].
    apply elem_of_seqZ. apply lookup_lt_Some in Hi. unfold RegionCache.CAP. lia.
Qed.

Lemma elem_of_spec_insert addr region l e :
  e ∈ spec_insert addr region l -> e ∈ l \/ e = mkREntry addr (region_content_hash region) (region_ops region).
Proof.
  unfold spec_insert. destruct (existsb _ _); [by left|]. intros He. apply (subseteq_take 8) in He.
  apply elem_of_cons in He as [->|He]; [by right|by left].
Qed.

Lemma cache_insert H c addr region c' :
  cache_at H c -> H addr = Some region -> rc_insert addr region c = Ok c' -> cache_at H c'.
Proof.
  intros (l & Hr & Hl) Ha E. assert (addr <> 0) as Hne by (unfold rc_insert in E; inv_ok; by reflect_bools).
  destruct (rep_insert addr region c l Hr Hne) as (c2 & E2 & Hr2). rewrite E in E2. injection E2 as <-.
  exists (spec_insert addr region l). split; [done|]. intros e He. apply elem_of_spec_insert in He as [He| ->]; [by apply Hl|]. by exists region.
Qed.

Lemma cache_insert_held c addr region c' a :
  (exists l, rep c l) -> rc_insert addr region c = Ok c' -> a <> 0 ->
  a ∈ ((fun age => region_at age c') <$> seqZ 0 RegionCache.CAP) ->
  a = addr \/ a ∈ ((fun age => region_at age c) <$> seqZ 0 RegionCache.CAP).
Proof.
  intros (l & Hr) E Ha Hin. assert (addr <> 0) as Hne by (unfold rc_insert in E; inv_ok; by reflect_bools).
  destruct (rep_insert addr region c l Hr Hne) as (c2 & E2 & Hr2). rewrite E in E2. injection E2 as <-.
  apply (cache_addrs _ _ _ Hr2 Ha) in Hin as (e & He & <-). apply elem_of_spec_insert in He as [He| ->]; [right|by left].
  apply (cache_addrs _ _ _ Hr Ha). eauto.
Qed.

(** ** The context *)

Section Ok.
Context `{M : PoolMem} {HM : PoolMemOk M}.

Lemma activate_result c w region b c' w' :
  activate c w region = Ok (b, c', w') ->
  (b = false /\ c' = c /\ w' = w) \/ (b = true /\ mode_ c' = COMPILED /\ active_region_ c' = Some region).
Proof using Type.
  unfold activate. intros E. destruct (region_plan region); [|inv_ok; simplify_eq; by left].
  destruct (if bool_decide (mode_ c = COMPILED) then deactivate c w else (c, w)) as [c1 w1]. inv_ok. destruct a as [P1 w2]. inv_ok.
  simplify_eq. by right.
Qed.

(** What the registration of an external leaves. *)
Definition same_replay (c c' : CrucibleContext) : Prop :=
  mode_ c' = mode_ c /\ active_region_ c' = active_region_ c /\ engine_ c' = engine_ c.

Lemma register_external_same c sid ptr c' : ctx_register_external c sid ptr = Ok c' -> same_replay c c'.
Proof using Type. intros E. unfold ctx_register_external in E. by inv_ok. Qed.

Lemma register_externals_ok ops slots : forall c c' w region plan,
  active_region_ c = Some region -> region_plan region = Some plan ->
  (forall s, s ∈ slots -> exists i, plan_slots plan !! i = Some s /\ slot_id s = Z.of_nat i) ->
  ctx_ok c w -> register_externals ops slots c = Ok c' -> ctx_ok c' w /\ same_replay c c'.
Proof using HM.
  induction slots as [|s slots IH]; intros c c' w region plan Ha Hp Hs Hok E; cbn [register_externals] in E; [by inv_ok|].
  assert (Hs' : forall u, u ∈ slots -> exists i, plan_slots plan !! i = Some u /\ slot_id u = Z.of_nat i) by (intros; apply Hs; by right).
  destruct (is_external s) eqn:Hx; cbn [negb] in E; [|by eapply IH]. inv_ok.
  destruct (a =? 0); [inv_ok; by eapply IH|].
  destruct (Hs s ltac:(by left)) as (i & Hi & Hid).
  match goal with H1 : ctx_register_external _ _ _ = Ok ?c1 |- _ =>
    pose proof (register_external_same _ _ _ _ H1) as (S1 & S2 & S3);
    assert (ctx_ok c1 w) as HokA by (eapply register_external_ok; [exact Hok| |exact H1]; exists region, plan, s;
      rewrite Hid, Nat2Z.id; split_and!; auto; lia) end.
  eapply IH in E as [H1 (T1 & T2 & T3)]; [|by rewrite S2|exact Hp|exact Hs'|exact HokA].
  split; [done|]. unfold same_replay. by rewrite T1, T2, T3.
Qed.

Lemma vigil_register_ok c c' w region :
  active_region_ c = Some region -> region_wf region -> ctx_ok c w ->
  register_externals_from_region_ c region = Ok c' -> ctx_ok c' w /\ same_replay c c'.
Proof using HM.
  intros Ha Hw Hok E. unfold register_externals_from_region_ in E. destruct (region_plan region) as [plan|] eqn:Hp; [|by inv_ok].
  destruct (Hw plan Hp) as [_ Hid]. eapply register_externals_ok; [exact Ha|exact Hp| |exact Hok|exact E].
  intros s Hs. apply (subseteq_take (Z.to_nat (num_slots plan))) in Hs. apply list_elem_of_lookup in Hs as [i Hi]. exists i. split; [done|by apply Hid].
Qed.

Lemma ctx_advance_same c schema shape s c' :
  ctx_advance c schema shape = Ok (s, c') -> mode_ c = COMPILED /\ mode_ c' = mode_ c /\ active_region_ c' = active_region_ c.
Proof using Type.
  unfold ctx_advance, advance_. intros E. inv_ok. destruct a0 as [s0 e0]. match goal with H : bool_decide _ = true |- _ => apply bool_decide_eq_true in H end.
  destruct s0; inv_ok; simplify_eq; done.
Qed.

Lemma skip_matched_ok ops n : forall i c c' w,
  ctx_ok c w -> skip_matched ops i n c = Ok c' -> ctx_ok c' w /\ mode_ c' = mode_ c /\ active_region_ c' = active_region_ c.
Proof using Type.
  induction n as [|n IH]; intros i c c' w Hok E; cbn [skip_matched] in E; [by inv_ok|].
  destruct (ops !! i) as [te|]; [|done]. inv_ok. destruct a as [s c1].
  match goal with H1 : ctx_advance _ _ _ = Ok _ |- _ => pose proof (ctx_advance_same _ _ _ _ _ H1) as (_ & S1 & S2); pose proof (advance_ok _ _ _ _ _ _ Hok H1) as Hok1 end.
  apply (IH _ _ _ _ Hok1) in E as (T1 & T2 & T3). split_and!; congruence || done.
Qed.
End Ok.

(** ** The dispatch *)

(** What a foreground step can take: the region of the slot, and no other. *)
Record takes (V V' : Vigil) : Prop := {
  tk_holds : forall a, fg_holds V' a -> fg_holds V a \/ a = pending_region_ V;
  tk_slot : pending_region_ V' = pending_region_ V \/ pending_region_ V' = 0;
}.

Lemma takes_refl V : takes V V.
Proof. split; auto. Qed.

Lemma takes_trans V1 V2 V3 : takes V1 V2 -> takes V2 V3 -> takes V1 V3.
Proof.
  intros [A1 A2] [B1 B2]. split.
  - intros a Ha. destruct (B1 a Ha) as [H| ->]; [by apply A1|]. destruct A2 as [E|E]; rewrite E in *; [by right|by destruct Ha].
  - destruct B2 as [->| ->]; [done|by right].
Qed.

Lemma fg_holds_iff V a :
  fg_holds V a <-> a <> 0 /\ (a = pending_activation_ V \/ a = v_active V \/ a ∈ ((fun age => region_at age (v_cache V)) <$> seqZ 0 RegionCache.CAP)).
Proof. unfold fg_holds, held_regions. by rewrite !elem_of_cons. Qed.

(** A step that keeps the slot, whose holders are among those of before. *)
Lemma takes_intro V V' :
  (pending_activation_ V' <> 0 -> fg_holds V (pending_activation_ V') \/ pending_activation_ V' = pending_region_ V) ->
  (v_active V' <> 0 -> fg_holds V (v_active V') \/ v_active V' = pending_region_ V) ->
  (forall a, a <> 0 -> a ∈ ((fun age => region_at age (v_cache V')) <$> seqZ 0 RegionCache.CAP) -> fg_holds V a \/ a = pending_region_ V) ->
  (pending_region_ V' = pending_region_ V \/ pending_region_ V' = 0) -> takes V V'.
Proof.
  intros H1 H2 H3 H4. split; [|done]. intros a Ha. apply fg_holds_iff in Ha as [Ha [->|[->|Hc]]]; auto.
Qed.

Lemma threshold_bounds ops : 0 <= alignment_threshold ops <= 5 /\ alignment_threshold ops <= Z.of_nat (length ops).
Proof. unfold alignment_threshold, ALIGNMENT_K. destruct (Z.ltb_spec (Z.of_nat (length ops)) 5); lia. Qed.

Lemma threshold_pos ops : Z.of_nat (length ops) <> 0 -> 0 < alignment_threshold ops.
Proof. intros. unfold alignment_threshold, ALIGNMENT_K. destruct (Z.ltb_spec (Z.of_nat (length ops)) 5); lia. Qed.

(** The position stays in the bound of its type, and the read in the ops. *)
Lemma next_alignment_ok ops pos schema shape :
  0 <= pos < alignment_threshold ops -> exists p, next_alignment ops pos schema shape = Ok p /\ 0 <= p <= alignment_threshold ops.
Proof.
  intros Hp. pose proof (threshold_bounds ops) as [Hb Hl]. unfold next_alignment.
  destruct (lookup_lt_is_Some_2 ops (Z.to_nat pos) ltac:(lia)) as [te ->].
  destruct (lookup_lt_is_Some_2 ops 0%nat ltac:(lia)) as [first ->]. unfold alignment_pos_at, ALIGNMENT_POS_MAX.
  destruct (op_matches schema shape te).
  - rewrite (proj2 (Z.leb_le _ _)) by lia. eexists. split; [reflexivity|lia].
  - cbn [Z.leb Z.compare require rbind]. destruct (op_matches schema shape first); eexists; (split; [reflexivity|lia]).
Qed.

Lemma compiled_iff V : ctx_is_compiled V = true <-> mode_ (v_ctx V) = COMPILED.
Proof. apply bool_decide_eq_true. Qed.

Lemma ops_matched_nonneg e : 0 <= ops_matched e.
Proof. unfold ops_matched. pose proof (u32_range (cursor_ e)). lia. Qed.

Section DispatchOk.
Context `{M : PoolMem} {HM : PoolMemOk M} (H : Z -> option RegionNode) (HW : heap_wf H).
#[local] Set Default Proof Using "HM HW".

Lemma record_op_ok V rq b V' : vigil_ok H V -> record_op V rq = Ok (b, V') -> vigil_ok H V' /\ takes V V' /\ held_regions V' = held_regions V.
Proof.
  intros [A1 A2 A3 A4 A5 A6 A7] E. unfold record_op in E. inv_ok. split_pairs. inv_ok. split_pairs. inv_ok. simplify_eq.
  split_and!; [by split|by split; auto|done].
Qed.

Lemma try_align_ok V schema shape V' :
  vigil_ok H V -> pending_activation_ V <> 0 -> try_align_ H V schema shape = Ok V' -> vigil_ok H V' /\ takes V V'.
Proof.
  intros [A1 A2 A3 A4 A5 A6 A7] Hp E. destruct (A5 Hp) as (r & Hr & Hpos). unfold try_align_, node_at in E. rewrite Hr in E. cbn [rbind] in E.
  destruct (next_alignment_ok (region_ops r) (alignment_pos_ V) schema shape ltac:(lia)) as (p & Ep & Hpr). rewrite Ep in E. cbn [rbind] in E.
  pose proof (threshold_bounds (region_ops r)) as [Hb _].
  assert (Hpend : fg_holds V (pending_activation_ V)) by (apply fg_holds_iff; auto).
  assert (Hact : v_active V <> 0 -> fg_holds V (v_active V)) by (intros; apply fg_holds_iff; auto).
  assert (Hcac : forall a, a <> 0 -> a ∈ ((fun age => region_at age (v_cache V)) <$> seqZ 0 RegionCache.CAP) -> fg_holds V a) by (intros; apply fg_holds_iff; auto).
  destruct (Z.leb_spec (alignment_threshold (region_ops r)) p) as [Ht|Ht]; cycle 1.
  { inv_ok. split; [split; auto; cbn; [unfold ALIGNMENT_POS_MAX; lia|]; intros _; exists r; auto|]. apply takes_intro; cbn; auto. }
  inv_ok. destruct a as [[b c] w]. cbn [set_walk v_ctx v_world v_cache v_mem] in *.
  destruct (activate_result _ _ _ _ _ _ Hok) as [(-> & -> & ->)|(-> & Hm & Ha)]; cbn [negb] in E.
  { inv_ok. split; [split; auto; cbn; [unfold ALIGNMENT_POS_MAX; lia|done]|]. apply takes_intro; cbn; auto; done. }
  inv_ok. rename a into c1, a0 into cache, a1 into c2.
  pose proof (activate_ok _ _ _ _ _ _ A1 (region_wf_counted _ (HW _ _ Hr)) Hok) as Hc.
  destruct (vigil_register_ok _ _ _ _ Ha (HW _ _ Hr) Hc Hok0) as [Hc1 (S1 & S2 & _)].
  destruct (skip_matched_ok _ _ _ _ _ _ Hc1 Hok2) as (Hc2 & T1 & T2).
  assert (Hcomp : mode_ c2 = COMPILED) by congruence.
  split.
  - split; cbn; auto; try done; try (unfold ctx_is_compiled; cbn; rewrite bool_decide_true by done).
    + split; [done|]. rewrite Hr. congruence.
    + done.
    + unfold ALIGNMENT_POS_MAX. lia.
    + by eapply cache_insert.
  - apply takes_intro; cbn; auto; try done. intros a Ha0 Hin.
    destruct A6 as (l & Hl & _). destruct (cache_insert_held _ _ _ _ a (ex_intro _ l Hl) Hok1 Ha0 Hin) as [->|Hin']; auto.
Qed.

Lemma consume_ok V V' : vigil_ok H V -> consume_pending_region_ H V = Ok V' -> vigil_ok H V' /\ takes V V'.
Proof.
  intros [A1 A2 A3 A4 A5 A6 A7] E. unfold consume_pending_region_ in E.
  assert (Hold : forall a, a <> 0 -> a = pending_activation_ V \/ a = v_active V \/ a ∈ ((fun age => region_at age (v_cache V)) <$> seqZ 0 RegionCache.CAP) -> fg_holds V a)
    by (intros; by apply fg_holds_iff).
  destruct (Z.eqb_spec (pending_region_ V) 0) as [E0|E0].
  { inv_ok. split; [by split|]. apply takes_intro; cbn; auto. }
  destruct (A7 E0) as [r Hr]. unfold node_at in E. rewrite Hr in E. cbn [rbind] in E.
  destruct (Z.eqb_spec (Z.of_nat (length (region_ops r))) 0) as [El|El].
  { inv_ok. split; [by split|]. apply takes_intro; cbn; auto. }
  cbn in E. inv_ok. split.
  - split; cbn; auto; try done. intros _. exists r. split; [done|]. by apply threshold_pos.
  - apply takes_intro; cbn; auto.
Qed.

Lemma transition_ok V rq r V' : vigil_ok H V -> dispatch_transition_ H V rq = Ok (r, V') -> vigil_ok H V' /\ takes V V'.
Proof.
  intros HV E. unfold dispatch_transition_ in E. inv_ok. rename a into V1. simplify_eq.
  assert (vigil_ok H V1 /\ takes V V1) as [HV1 T1].
  { destruct (negb (pending_region_ V =? 0)); [by apply consume_ok|]. inv_ok. split; [done|apply takes_refl]. }
  destruct (Z.eqb_spec (pending_activation_ V1) 0) as [E0|E0]; cbn [negb] in *.
  - inv_ok. destruct a as [b V3]. inv_ok. simplify_eq. destruct (record_op_ok _ _ _ _ HV1 Hok1) as (? & ? & _). split; [done|by eapply takes_trans].
  - simplify_eq. destruct (try_align_ok _ _ _ _ HV1 E0 Hok0) as [? ?]. split; [done|by eapply takes_trans].
Qed.

Lemma switch_result c w m alt d b c' w' m' :
  switch_region c w m alt d = Ok (b, c', w', m') ->
  mode_ c = COMPILED /\ (b = true -> mode_ c' = COMPILED /\ active_region_ c' = Some alt).
Proof.
  unfold switch_region. intros E. inv_ok. match goal with X : bool_decide _ = true |- _ => apply bool_decide_eq_true in X end. split; [done|].
  destruct (region_plan alt); [|inv_ok; by simplify_eq].
  destruct (d =? 0).
  { inv_ok. split_pairs. inv_ok. simplify_eq. intros ->. match goal with X : activate _ _ _ = Ok _ |- _ => destruct (activate_result _ _ _ _ _ _ X) as [(? & _)|(_ & ? & ?)] end; done. }
  destruct (active_region_ c); [|done]. destruct (region_plan _); [|done]. do 3 (inv_ok; split_pairs). by simplify_eq.
Qed.

Lemma try_switch_ok V alt d b V' :
  vigil_ok H V -> 0 <= d -> alt ∈ held_regions V -> try_switch_region_ H V alt d = Ok (b, V') -> vigil_ok H V' /\ takes V V'.
Proof.
  intros HV Hd Halt E. unfold try_switch_region_ in E.
  apply rbind_ok in E as (u & Hne & E). apply require_ok in Hne. reflect_bools.
  apply rbind_ok in E as (region & Hr & E). unfold node_at in Hr. destruct (H alt) as [r'|] eqn:Hr'; [|done]. injection Hr as ->. rename Hr' into Hr.
  assert (Hid : vigil_ok H V /\ takes V V) by (split; [done|apply takes_refl]).
  destruct (region_plan region) as [plan|] eqn:Hp; [|inv_ok; by simplify_eq].
  apply rbind_ok in E as (same & _ & E). destruct same; cbn [negb] in E; [|inv_ok; by simplify_eq].
  apply rbind_ok in E as ([[[sw c] w] m] & Hsw & E). destruct sw; cbn [negb] in E; [|inv_ok; by simplify_eq].
  apply rbind_ok in E as (c1 & Hreg & E). injection E as <- <-.
  destruct HV as [A1 A2 A3 A4 A5 A6 A7]. destruct (switch_result _ _ _ _ _ _ _ _ _ Hsw) as [Hm Hsw2]. destruct (Hsw2 eq_refl) as [Hm' Ha'].
  pose proof (switch_ok _ _ _ _ _ _ _ _ _ A1 (region_wf_counted _ (HW _ _ Hr)) Hd Hsw) as Hc.
  destruct (vigil_register_ok _ _ _ _ Ha' (HW _ _ Hr) Hc Hreg) as [Hc1 (S1 & S2 & _)].
  assert (Hcomp : mode_ c1 = COMPILED) by congruence.
  assert (Hold : forall a, a <> 0 -> a = pending_activation_ V \/ a = v_active V \/ a ∈ ((fun age => region_at age (v_cache V)) <$> seqZ 0 RegionCache.CAP) -> fg_holds V a)
    by (intros; by apply fg_holds_iff).
  split.
  - split; cbn; auto; unfold ctx_is_compiled; cbn; rewrite bool_decide_true by done.
    + split; [done|]. rewrite Hr. congruence.
    + rewrite A3. by rewrite (proj2 (compiled_iff V) Hm).
  - apply takes_intro; cbn; auto. intros _. left. by split.
Qed.

Lemma fall_back_ok V :
  vigil_ok H V -> vigil_ok H (fall_back V) /\ takes V (fall_back V).
Proof.
  intros [A1 A2 A3 A4 A5 A6 A7].
  assert (Hold : forall a, a <> 0 -> a = pending_activation_ V \/ a = v_active V \/ a ∈ ((fun age => region_at age (v_cache V)) <$> seqZ 0 RegionCache.CAP) -> fg_holds V a)
    by (intros; by apply fg_holds_iff).
  unfold fall_back. destruct (ctx_is_compiled V) eqn:Ec.
  - pose proof (deactivate_ok (v_ctx V) (v_world V)) as Hd. destruct (deactivate (v_ctx V) (v_world V)) as [c w] eqn:Ed. cbn [fst snd] in Hd.
    assert (mode_ c = RECORD) as Hm by (unfold deactivate in Ed; destruct (pool_destroy _ _); by simplify_eq).
    split; [split; cbn; auto; unfold ctx_is_compiled; cbn; by rewrite bool_decide_false by congruence|].
    apply takes_intro; cbn; auto; done.
  - split; [|apply takes_intro; cbn; auto].
    split; cbn; auto; unfold ctx_is_compiled in *; cbn; by rewrite Ec in *.
Qed.

Lemma set_parts_ok V cache a pos :
  vigil_ok H V -> cache_at H cache -> 0 <= pos <= ALIGNMENT_POS_MAX -> a = 0 \/ a = pending_region_ V ->
  vigil_ok H (set_walk (set_cache (set_slot V a) cache) 0 pos).
Proof. intros [A1 A2 A3 A4 A5 A6 A7] Hc Hp Ha. split; cbn; auto; [done|]. destruct Ha as [->| ->]; auto; done. Qed.

(** The alternate is one of the regions of the cache. *)
Lemma alternate_held V pos schema shape exclude :
  cache_at H (v_cache V) -> 0 <= pos ->
  find_alternate (has_plan H) pos schema shape exclude (v_cache V) <> 0 ->
  find_alternate (has_plan H) pos schema shape exclude (v_cache V) ∈ held_regions V.
Proof.
  intros (l & Hr & _) Hpos Hne. unfold held_regions. do 2 right. revert Hne. unfold find_alternate. rewrite (rep_ages _ _ Hr).
  rewrite (first_age_entry _ (spec_alternate (has_plan H) pos schema shape exclude)
    (fun i => aget 0 (regions_ (v_cache V)) (cyc_index_back (RegionCache.head_ (v_cache V)) i)) l 0).
  2: { intros i e Hi. pose proof (rp_holds _ _ Hr i e Hi) as Hh. split; [by apply spec_alternate_slot|]. by destruct Hh as (H1 & _). }
  intros Hne. apply (cache_addrs _ _ _ Hr Hne). destruct (first_entry _ l) as [e|] eqn:Ef; [|done]. exists e. split; [|done].
  clear -Ef. induction l as [|x l IH]; cbn in Ef; [done|]. destruct (spec_alternate _ _ _ _ _ x); [injection Ef as ->; by left|right; auto].
Qed.

Lemma advance_vigil_ok V schema shape s c :
  vigil_ok H V -> ctx_advance (v_ctx V) schema shape = Ok (s, c) -> vigil_ok H (step_ctx V c) /\ ctx_is_compiled (step_ctx V c) = true.
Proof.
  intros [A1 A2 A3 A4 A5 A6 A7] E. destruct (ctx_advance_same _ _ _ _ _ E) as (Hm & S1 & S2).
  assert (Hc : ctx_is_compiled (step_ctx V c) = true) by (apply bool_decide_true; cbn; congruence).
  rewrite (proj2 (compiled_iff V) Hm) in A2, A3. split; [|done]. split; auto; try (rewrite Hc).
  - by eapply advance_ok.
  - cbn. by rewrite S2.
  - done.
Qed.

Lemma divergence_ok V schema shape r V' :
  vigil_ok H V -> ctx_is_compiled V = true -> handle_divergence_ H V schema shape = Ok (r, V') -> vigil_ok H V' /\ takes V V'.
Proof.
  intros HV Hcomp E. unfold handle_divergence_ in E. cbv zeta in E.
  apply rbind_ok in E as (cache & Hc1 & E). apply rbind_ok in E as (zero & Hz & E). injection Hz as <-.
  apply rbind_ok in E as (active & Hact & E). apply rbind_ok in E as (cache2 & Hc2 & E).
  cbn [set_slot set_walk set_cache v_cache v_active v_ctx] in *.
  pose proof HV as [A1 A2 A3 A4 A5 A6 A7]. rewrite Hcomp in A2. destruct A2 as [Ane A2].
  assert (Ha : H (v_active V) = Some active) by (unfold node_at in Hact; destruct (H (v_active V)); [by injection Hact as ->|done]).
  assert (Hc : cache_at H cache /\ forall a, a <> 0 -> a ∈ ((fun age => region_at age cache) <$> seqZ 0 RegionCache.CAP) -> fg_holds V a \/ a = pending_region_ V).
  { destruct (pending_region_ V =? 0); [injection Hc1 as <-; split; [done|]; intros a H1 H2; left; apply fg_holds_iff; auto|].
    apply rbind_ok in Hc1 as (rs & Hrs & Hc1). unfold node_at in Hrs. destruct (H (pending_region_ V)) as [r'|] eqn:Hr; [injection Hrs as ->|done].
    split; [exact (cache_insert H _ _ _ _ A6 Hr Hc1)|]. intros a H1 H2. destruct A6 as (l & Hl & _).
    destruct (cache_insert_held _ _ _ _ a (ex_intro _ l Hl) Hc1 H1 H2) as [->|Hin]; [by right|left; apply fg_holds_iff; auto]. }
  destruct Hc as [Hca Hcb].
  assert (Hc2' : cache_at H cache2 /\ forall a, a <> 0 -> a ∈ ((fun age => region_at age cache2) <$> seqZ 0 RegionCache.CAP) -> fg_holds V a \/ a = pending_region_ V).
  { split; [exact (cache_insert H _ _ _ _ Hca Ha Hc2)|]. intros a H1 H2. destruct Hca as (l & Hl & _).
    destruct (cache_insert_held _ _ _ _ a (ex_intro _ l Hl) Hc2 H1 H2) as [->|Hin]; [left; apply fg_holds_iff; auto|auto]. }
  destruct Hc2' as [Hc2a Hc2b].
  set (V1 := set_cache (set_walk (set_cache (set_slot V 0) cache) 0 0) cache2) in *.
  assert (HV1 : vigil_ok H V1) by (apply (set_parts_ok V cache2 0 0 HV Hc2a); [unfold ALIGNMENT_POS_MAX; lia|by left]).
  assert (T1 : takes V V1) by (apply takes_intro; cbn; auto; [done|intros; left; apply fg_holds_iff; auto]).
  assert (Hfb : forall V2, vigil_ok H V2 -> takes V V2 -> vigil_ok H (fall_back V2) /\ takes V (fall_back V2)).
  { intros V2 HV2 HT2. destruct (fall_back_ok V2 HV2) as [B1 B2]. split; [done|by eapply takes_trans]. }
  destruct (Z.eqb_spec (find_alternate (has_plan H) (ops_matched (engine_ (v_ctx V))) schema shape (v_active V) cache2) 0) as [Ez|Enz].
  { injection E as <- <-. by apply Hfb. }
  apply rbind_ok in E as ([sw V2] & Hsw & E).
  pose proof (alternate_held V1 (ops_matched (engine_ (v_ctx V))) schema shape (v_active V) Hc2a (ops_matched_nonneg _) Enz) as Hheld.
  destruct (try_switch_ok V1 _ _ _ _ HV1 (ops_matched_nonneg _) Hheld Hsw) as [HV2 T2].
  assert (T12 : takes V V2) by (by eapply takes_trans).
  destruct sw; cbn [negb] in E; [|injection E as <- <-; by apply Hfb].
  apply rbind_ok in E as ([st c] & Hadv & E). destruct (advance_vigil_ok V2 _ _ _ _ HV2 Hadv) as [HV3 _].
  assert (T3 : takes V (step_ctx V2 c)) by (eapply takes_trans; [exact T12|]; split; auto).
  case_bool_decide; injection E as <- <-; [by apply Hfb|done].
Qed.

(** A dispatch keeps the invariant, takes no region but that of the slot, and
    outside its cold paths changes no holder. *)
Lemma dispatch_ok V rq cold r V' :
  vigil_ok H V -> dispatch_op H V rq = Ok (cold, r, V') ->
  vigil_ok H V' /\ takes V V' /\ (cold = false -> held_regions V' = held_regions V /\ pending_region_ V' = pending_region_ V).
Proof.
  intros HV E. unfold dispatch_op in E. destruct (ctx_is_compiled V) eqn:Hcomp.
  - apply rbind_ok in E as ([st c] & Hadv & E). destruct (advance_vigil_ok V _ _ _ _ HV Hadv) as [HV1 Hc1].
    case_bool_decide.
    + apply rbind_ok in E as ([r1 V2] & Hd & E). injection E as <- <- <-. destruct (divergence_ok _ _ _ _ _ HV1 Hc1 Hd) as [HV2 T2].
      split_and!; [done| |done]. eapply takes_trans; [|exact T2]. by split; auto.
    + injection E as <- <- <-. split_and!; [done|by split; auto|done].
  - destruct (_ || _).
    + apply rbind_ok in E as ([r1 V2] & Ht & E). injection E as <- <- <-. destruct (transition_ok _ _ _ _ HV Ht). split_and!; done.
    + apply rbind_ok in E as ([b V2] & Hr & E). injection E as <- <- <-. destruct (record_op_ok _ _ _ _ HV Hr) as (? & ? & ?).
      split_and!; auto. intros _. split; [done|]. unfold record_op in Hr. inv_ok. split_pairs. inv_ok. split_pairs. inv_ok. by simplify_eq.
Qed.

(** A rollback and a load take the region that they are given. *)
Lemma restore_ok V restored V' :
  vigil_ok H V -> rollback_restore H V restored = Ok V' ->
  vigil_ok H V' /\ pending_region_ V' = pending_region_ V /\ (forall a, fg_holds V' a -> fg_holds V a \/ a = restored).
Proof.
  intros HV E. unfold rollback_restore in E. destruct (fall_back_ok V HV) as [[B1 B2 B3 B4 B5 B6 B7] [T1 T2]]. unfold fall_back in *.
  set (V1 := if ctx_is_compiled V then _ else V) in *. cbv zeta in E.
  assert (Hs1 : pending_region_ V1 = pending_region_ V) by (subst V1; destruct (ctx_is_compiled V), (deactivate (v_ctx V) (v_world V)); done).
  assert (Hh1 : forall a, fg_holds V1 a -> fg_holds V a).
  { intros a Ha. apply fg_holds_iff in Ha as [Hne Ha]. apply fg_holds_iff. split; [done|]. subst V1.
    destruct (ctx_is_compiled V), (deactivate (v_ctx V) (v_world V)); cbn in *; tauto. }
  assert (HV1 : vigil_ok H (set_mode V1 MODE_RECORDING)) by (by split).
  destruct (Z.eqb_spec restored 0) as [->|Hne].
  { injection E as <-. split_and!; [done|done|]. intros a Ha. left. apply Hh1. done. }
  apply rbind_ok in E as (region & Hr & E). unfold node_at in Hr. destruct (H restored) as [r'|] eqn:Hr'; [injection Hr as ->|done].
  apply rbind_ok in E as ([[b c] w] & Hact & E). cbn [set_mode v_ctx v_world] in *.
  destruct b; cbn [negb] in E; cycle 1.
  { injection E as <-. split_and!; [done|done|]. intros a Ha. left. by apply Hh1. }
  apply rbind_ok in E as (c1 & Hreg & E). injection E as <-.
  destruct (activate_result _ _ _ _ _ _ Hact) as [(? & _)|(_ & Hm & Ha)]; [done|].
  pose proof (activate_ok _ _ _ _ _ _ B1 (region_wf_counted _ (HW _ _ Hr')) Hact) as Hc.
  destruct (vigil_register_ok _ _ _ _ Ha (HW _ _ Hr') Hc Hreg) as [Hc1 (S1 & S2 & _)].
  assert (Hcomp : mode_ c1 = COMPILED) by congruence.
  split_and!; [|done|].
  - split; cbn; auto; unfold ctx_is_compiled; cbn; rewrite bool_decide_true by done; [|done]. split; [done|]. rewrite Hr'. congruence.
  - intros a [Ha0 Hin]%fg_holds_iff. cbn in Hin. destruct Hin as [->|[->|Hin]]; [left|by right|left]; apply Hh1, fg_holds_iff; auto.
Qed.

Lemma load_ok V addr V' :
  vigil_ok H V -> load_region H V addr = Ok V' ->
  vigil_ok H V' /\ pending_region_ V' = pending_region_ V /\ (forall a, fg_holds V' a -> fg_holds V a \/ a = addr).
Proof.
  intros HV E. pose proof HV as [B1 B2 B3 B4 B5 B6 B7]. unfold load_region in E.
  apply rbind_ok in E as (region & Hr & E). unfold node_at in Hr. destruct (H addr) as [r'|] eqn:Hr'; [injection Hr as ->|done].
  apply rbind_ok in E as ([[b c] w] & Hact & E). destruct b; cbn [negb] in E; [|injection E as <-; auto].
  apply rbind_ok in E as (c1 & Hreg & E). apply rbind_ok in E as (cache & Hcache & E). injection E as <-.
  destruct (activate_result _ _ _ _ _ _ Hact) as [(? & _)|(_ & Hm & Ha)]; [done|].
  pose proof (activate_ok _ _ _ _ _ _ B1 (region_wf_counted _ (HW _ _ Hr')) Hact) as Hc.
  destruct (vigil_register_ok _ _ _ _ Ha (HW _ _ Hr') Hc Hreg) as [Hc1 (S1 & S2 & _)].
  assert (Hcomp : mode_ c1 = COMPILED) by congruence.
  assert (Hne : addr <> 0) by (unfold rc_insert in Hcache; inv_ok; by reflect_bools).
  split_and!; [|done|].
  - split; cbn; auto; try (unfold ctx_is_compiled; cbn; rewrite bool_decide_true by done); [|done|by eapply cache_insert]. split; [done|]. rewrite Hr'. congruence.
  - intros a [Ha0 Hin]%fg_holds_iff. cbn in Hin. destruct Hin as [->|[->|Hin]]; [left; apply fg_holds_iff; auto|by right|].
    destruct B6 as (l & Hl & _). destruct (cache_insert_held _ _ _ _ a (ex_intro _ l Hl) Hcache Ha0 Hin); [by right|left; apply fg_holds_iff; auto].
Qed.
End DispatchOk.
