(* ===== verification/VigilAlign.v ===== *)
(** * VigilAlign.v: the alignment of a published region with the stream

    While a region waits for its activation, each op of the stream moves a
    position in the first ops of the region.  When the walk ends, the last ops
    of the stream are the first ops of the region and the replay stands after
    them.  The walk finds the next start of the iteration when the first op of
    the region does not recur in the window; when it recurs, the walk can miss
    every start. *)

From stdpp Require Import base list strings gmap sets.
From Stdlib Require Import ZArith Lia.
From S2P Require Import Prelude.
From S2P Require Import Types.
From S2P Require Import Arena.
From S2P Require Import Registry.
From S2P Require Import MemoryPlan.
From S2P Require Import Pool.
From S2P Require Import PoolProofs.
From S2P Require Import Replay.
From S2P Require Import Context.
From S2P Require Import ContextProofs.
From S2P Require Import MetaLog.
From S2P Require Import TraceRing.
From S2P Require Import RegionCache.
From S2P Require Import Vigil.
From S2P Require Import VigilProofs.
#[local] Open Scope Z_scope.
#[local] Open Scope result_scope.

Definition rq_guard (rq : op_request) : Z * Z := (e_schema_hash (rq_entry rq), e_shape_hash (rq_entry rq)).
Definition guards (ops : list TraceEntry) : list (Z * Z) := op_guard <$> ops.

(** The last [k] elements. *)
Definition last_of {A} (k : Z) (l : list A) : list A := drop (length l - Z.to_nat k) l.

Lemma op_matches_guard schema shape te : op_matches schema shape te = bool_decide ((schema, shape) = op_guard te).
Proof.
  unfold op_matches, op_guard. destruct (Z.eqb_spec schema (schema_hash te)), (Z.eqb_spec shape (shape_hash te)); cbn;
    [rewrite bool_decide_true by congruence|rewrite bool_decide_false by congruence..]; done.
Qed.

Lemma last_of_snoc {A} (l : list A) x k : 0 <= k <= Z.of_nat (length l) -> last_of (k + 1) (l ++ [x]) = last_of k l ++ [x].
Proof.
  intros Hk. unfold last_of. rewrite length_app. cbn [length]. replace (length l + 1 - Z.to_nat (k + 1))%nat with (length l - Z.to_nat k)%nat by lia.
  rewrite drop_app_le by lia. done.
Qed.

(** One step of the walk. *)
Lemma next_alignment_cases ops pos g :
  0 <= pos < alignment_threshold ops ->
  next_alignment ops pos g.1 g.2 =
    Ok (if bool_decide (g = op_guard (op_at ops pos)) then pos + 1 else if bool_decide (g = op_guard (op_at ops 0)) then 1 else 0).
Proof.
  intros Hp. pose proof (threshold_bounds ops) as [Hb Hl]. unfold next_alignment, op_at, aget. destruct g as [sc sh]. cbn [fst snd].
  destruct (lookup_lt_is_Some_2 ops (Z.to_nat pos) ltac:(lia)) as [te ->].
  destruct (lookup_lt_is_Some_2 ops 0%nat ltac:(lia)) as [first Hf]. change (Z.to_nat 0) with 0%nat. rewrite Hf. cbn [default from_option id].
  rewrite !op_matches_guard. unfold alignment_pos_at, ALIGNMENT_POS_MAX.
  case_bool_decide; [rewrite (proj2 (Z.leb_le _ _)) by lia; done|]. cbn [Z.leb Z.compare require rbind]. by case_bool_decide.
Qed.

(** The walk at [pos] has seen the first [pos] ops as its last ops. *)
Definition seen (ops : list TraceEntry) (pos : Z) (gs : list (Z * Z)) : Prop :=
  0 <= pos <= Z.of_nat (length gs) /\ last_of pos gs = take (Z.to_nat pos) (guards ops).

Lemma seen_step ops pos gs g p :
  0 <= pos < alignment_threshold ops -> seen ops pos gs -> next_alignment ops pos g.1 g.2 = Ok p -> seen ops p (gs ++ [g]).
Proof.
  intros Hp [Hr Hs] E. rewrite next_alignment_cases in E by done. injection E as <-. pose proof (threshold_bounds ops) as [Hb Hl].
  assert (Hone : forall q gs', 0 <= q < Z.of_nat (length ops) -> 0 <= q <= Z.of_nat (length gs') -> last_of q gs' = take (Z.to_nat q) (guards ops) ->
    g = op_guard (op_at ops q) -> seen ops (q + 1) (gs' ++ [g])).
  { intros q gs' Hq Hq' Hs' ->. split; [rewrite length_app; cbn; lia|]. rewrite last_of_snoc, Hs' by done.
    destruct (lookup_lt_is_Some_2 ops (Z.to_nat q) ltac:(lia)) as [te Hte]. unfold op_at, aget. rewrite Hte. cbn.
    replace (Z.to_nat (q + 1)) with (S (Z.to_nat q)) by lia. symmetry. apply take_S_r. unfold guards. by rewrite list_lookup_fmap, Hte. }
  case_bool_decide; [apply Hone; auto; lia|]. case_bool_decide.
  - apply (Hone 0); [lia|lia| |done]. unfold last_of. cbn. by rewrite Nat.sub_0_r, drop_all.
  - split; [lia|]. unfold last_of. cbn. by rewrite Nat.sub_0_r, drop_all.
Qed.

(** The walk over a run of guards, while it is below the threshold. *)
Fixpoint align_walk (ops : list TraceEntry) (pos : Z) (gs : list (Z * Z)) : result Z :=
  match gs with
  | [] => Ok pos
  | g :: gs =>
      if alignment_threshold ops <=? pos then Ok pos
      else let* pos := next_alignment ops pos g.1 g.2 in align_walk ops pos gs
  end.

(** ** The foreground *)

Section Align.
Context `{M : PoolMem} {HM : PoolMemOk M} (H : Z -> option RegionNode) (HW : heap_wf H).

Fixpoint dispatch_run (V : Vigil) (rqs : list op_request) : result Vigil :=
  match rqs with
  | [] => Ok V
  | rq :: rqs => let* '(_, _, V) := dispatch_op H V rq in dispatch_run V rqs
  end.

(** The replay of the matched ops: the position goes around at the end. *)
Lemma skip_matched_at ops n : forall i c c',
  (i + n <= length ops)%nat -> (0 < length ops)%nat -> mode_ c = COMPILED -> engine_at ops (Z.of_nat i mod Z.of_nat (length ops)) (engine_ c) -> (i < length ops)%nat \/ n = 0%nat ->
  skip_matched ops i n c = Ok c' -> engine_at ops (Z.of_nat (i + n) mod Z.of_nat (length ops)) (engine_ c').
Proof using Type.
  induction n as [|n IH]; intros i c c' Hle Hpos Hm Hat Hi E; cbn [skip_matched] in E; [injection E as <-; by rewrite Nat.add_0_r|].
  destruct Hi as [Hi|]; [|done]. destruct (ops !! i) as [te|] eqn:Hte; [|done]. apply rbind_ok in E as ([s c1] & Ha & E).
  rewrite Z.mod_small in Hat by lia.
  destruct (advance_step c (mkRegion 0 ops None) (Z.of_nat i) (schema_hash te, shape_hash te) s c1 Hm Hat ltac:(by destruct ops) Ha) as (Hs & Hat1 & _ & _ & Hm1 & _).
  cbn [region_ops] in *. assert (Hg : (schema_hash te, shape_hash te) = op_guard (op_at ops (Z.of_nat i))) by (unfold op_at, aget; by rewrite Nat2Z.id, Hte).
  assert (Esp : spec_advance ops (Z.of_nat i) (schema_hash te, shape_hash te) =
    (if Z.of_nat i + 1 =? Z.of_nat (length ops) then COMPLETE else MATCH, Z.of_nat i + 1)) by (unfold spec_advance; by rewrite bool_decide_true).
  rewrite Esp in Hs, Hat1. cbn [fst snd] in *.
  replace (i + S n)%nat with (S i + n)%nat by lia. eapply IH; [lia|done|done| | |exact E].
  - destruct (Z.eqb_spec (Z.of_nat i + 1) (Z.of_nat (length ops))) as [El|El]; subst s.
    + replace (Z.of_nat (S i)) with (Z.of_nat (length ops)) by lia. rewrite Z.mod_same by lia. done.
    + rewrite Z.mod_small by lia. rewrite bool_decide_false in Hat1 by done. replace (Z.of_nat (S i)) with (Z.of_nat i + 1) by lia. done.
  - destruct (decide (n = 0%nat)); [by right|left; lia].
Qed.
(** What one dispatch does while the region at [a] waits: the walk goes on, or
    it ends with an activation or without one. *)
Inductive align_outcome (a : Z) (r : RegionNode) (V : Vigil) (p : Z) (V' : Vigil) : Prop :=
| align_on : p < alignment_threshold (region_ops r) -> ctx_is_compiled V' = false -> pending_activation_ V' = a -> alignment_pos_ V' = p ->
    align_outcome a r V p V'
| align_off : p = alignment_threshold (region_ops r) -> ctx_is_compiled V' = false -> pending_activation_ V' = 0 -> region_plan r = None ->
    align_outcome a r V p V'
| align_done : p = alignment_threshold (region_ops r) -> ctx_is_compiled V' = true -> v_active V' = a -> active_region_ (v_ctx V') = Some r ->
    cursor_ (engine_ (v_ctx V')) = alignment_threshold (region_ops r) mod Z.of_nat (length (region_ops r)) -> align_outcome a r V p V'.

Lemma activate_no_plan c w region c' w' : activate c w region = Ok (false, c', w') -> region_plan region = None.
Proof using Type.
  unfold activate. intros E. destruct (region_plan region); [|done].
  destruct (if bool_decide (mode_ c = COMPILED) then deactivate c w else (c, w)) as [c1 w1]. inv_ok. destruct a as [P1 w2]. inv_ok. by simplify_eq.
Qed.

Lemma activate_engine c w region c' w' :
  region_ops region <> [] -> activate c w region = Ok (true, c', w') -> engine_at (region_ops region) 0 (engine_ c').
Proof using Type.
  intros Hne E. unfold activate in E. destruct (region_plan region); [|by simplify_eq].
  destruct (if bool_decide (mode_ c = COMPILED) then deactivate c w else (c, w)) as [c1 w1]. inv_ok. destruct a as [P1 w2]. inv_ok. simplify_eq.
  by eapply engine_init_at.
Qed.

Lemma align_dispatch V rq cold res V' a r :
  vigil_ok H V -> ctx_is_compiled V = false -> pending_region_ V = 0 -> pending_activation_ V = a -> a <> 0 -> H a = Some r ->
  dispatch_op H V rq = Ok (cold, res, V') ->
  exists p, next_alignment (region_ops r) (alignment_pos_ V) (rq_guard rq).1 (rq_guard rq).2 = Ok p /\
    res = recorded /\ pending_region_ V' = 0 /\ align_outcome a r V p V'.
Proof using HM HW.
  intros HV Hc Hs Hp Ha Hr E. unfold dispatch_op in E. rewrite Hc, Hs, Hp, (proj2 (Z.eqb_neq _ _) Ha) in E. cbn [Z.eqb negb orb] in E.
  apply rbind_ok in E as ([r1 V1] & Et & E). injection E as <- <- <-. unfold dispatch_transition_ in Et. rewrite Hs in Et. cbn [Z.eqb negb rbind] in Et.
  rewrite Hp, (proj2 (Z.eqb_neq _ _) Ha) in Et. cbn [negb] in Et. apply rbind_ok in Et as (V2 & Et & E). injection E as <- <-.
  destruct (vo_walk _ _ HV ltac:(congruence)) as (r' & Hr' & Hpos). rewrite Hp, Hr in Hr'. injection Hr' as <-.
  pose proof (vo_pos _ _ HV) as Hpos0. pose proof (threshold_bounds (region_ops r)) as [Hb Hl].
  destruct (next_alignment_ok (region_ops r) (alignment_pos_ V) (e_schema_hash (rq_entry rq)) (e_shape_hash (rq_entry rq)) ltac:(lia)) as (p & Ep & Hpr).
  exists p. split; [exact Ep|]. split; [done|]. unfold try_align_, node_at in Et. rewrite Hp, Hr in Et. cbn [rbind] in Et. rewrite Ep in Et. cbn [rbind] in Et.
  destruct (Z.leb_spec (alignment_threshold (region_ops r)) p) as [Hge|Hlt].
  2: { injection Et as <-. split; [done|]. by apply align_on. }
  apply rbind_ok in Et as ([[b c] w] & Hact & Et). cbn [set_walk v_ctx v_world] in *. destruct b; cbn [negb] in Et.
  2: { injection Et as <-. split; [done|]. destruct (activate_result _ _ _ _ _ _ Hact) as [(_ & -> & ->)|(? & _)]; [|done].
       apply align_off; [lia|done|done|by eapply activate_no_plan]. }
  apply rbind_ok in Et as (c1 & Hreg & Et). apply rbind_ok in Et as (cache & Hcache & Et). apply rbind_ok in Et as (c2 & Hskip & Et). injection Et as <-.
  split; [done|]. destruct (activate_result _ _ _ _ _ _ Hact) as [(? & _)|(_ & Hm & Har)]; [done|].
  pose proof (activate_ok _ _ _ _ _ _ (vo_ctx _ _ HV) (region_wf_counted _ (HW _ _ Hr)) Hact) as Hcok.
  destruct (vigil_register_ok _ _ _ _ Har (HW _ _ Hr) Hcok Hreg) as [Hc1 (S1 & S2 & S3)].
  destruct (skip_matched_ok _ _ _ _ _ _ Hc1 Hskip) as (_ & T1 & T2).
  assert (Hne : region_ops r <> []) by (intros E0; rewrite E0 in *; cbn in Hl; lia).
  pose proof (activate_engine _ _ _ _ _ Hne Hact) as Hat. rewrite <- S3 in Hat.
  apply align_done; cbn; [lia|unfold ctx_is_compiled; cbn; by rewrite bool_decide_true by congruence|done|congruence|].
  replace p with (alignment_threshold (region_ops r)) in Hskip by lia.
  assert (0 < length (region_ops r))%nat by (destruct (region_ops r); cbn in *; [done|lia]).
  pose proof (skip_matched_at (region_ops r) (Z.to_nat (alignment_threshold (region_ops r))) 0 c1 c2 ltac:(lia) ltac:(lia) ltac:(congruence) Hat ltac:(left; lia) Hskip) as Hend.
  rewrite (ea_cursor _ _ _ Hend). cbn. f_equal. lia.
Qed.

(** The state of a walk over the guards [gs]. *)
Definition walking (a : Z) (r : RegionNode) (gs : list (Z * Z)) (V : Vigil) : Prop :=
  vigil_ok H V /\ ctx_is_compiled V = false /\ pending_region_ V = 0 /\ pending_activation_ V = a /\ seen (region_ops r) (alignment_pos_ V) gs.

(** No region waits and none is replayed. *)
Definition idle (V : Vigil) : Prop :=
  vigil_ok H V /\ ctx_is_compiled V = false /\ pending_region_ V = 0 /\ pending_activation_ V = 0.

(** What a dispatch that starts the replay of [r], at [a], leaves. *)
Definition replay_started (a : Z) (r : RegionNode) (V : Vigil) : Prop :=
  ctx_is_compiled V = true /\ v_active V = a /\ active_region_ (v_ctx V) = Some r /\
  cursor_ (engine_ (v_ctx V)) = alignment_threshold (region_ops r) mod Z.of_nat (length (region_ops r)).

Lemma walking_step a r gs V rq cold res V' :
  a <> 0 -> H a = Some r -> walking a r gs V -> dispatch_op H V rq = Ok (cold, res, V') ->
  walking a r (gs ++ [rq_guard rq]) V' \/ idle V' \/
  (last_of (alignment_threshold (region_ops r)) (gs ++ [rq_guard rq]) = take (Z.to_nat (alignment_threshold (region_ops r))) (guards (region_ops r)) /\
   replay_started a r V').
Proof using HM HW.
  intros Ha Hr (HV & Hc & Hs & Hp & Hseen) E. destruct (align_dispatch V rq cold res V' a r HV Hc Hs Hp Ha Hr E) as (p & Ep & _ & Hs' & Ho).
  destruct (vo_walk _ _ HV ltac:(congruence)) as (r' & Hr' & Hpos). rewrite Hp, Hr in Hr'. injection Hr' as <-.
  pose proof (vo_pos _ _ HV) as Hpos0. pose proof (seen_step _ _ _ _ _ (conj (proj1 Hpos0) Hpos) Hseen Ep) as Hseen'.
  destruct (dispatch_ok H HW _ _ _ _ _ HV E) as [HV' _].
  destruct Ho as [Hlt Hc' Hp' Epos| -> Hc' Hp' Hnp| -> Hc' Ha' Har Hcur]; [left|right; left|right; right].
  - split_and!; auto. by rewrite Epos.
  - by split_and!.
  - split; [apply Hseen'|by split_and!].
Qed.

Lemma idle_step V rq cold res V' : idle V -> dispatch_op H V rq = Ok (cold, res, V') -> idle V'.
Proof using HM HW.
  intros (HV & Hc & Hs & Hp) E. destruct (dispatch_ok H HW _ _ _ _ _ HV E) as [HV' _]. unfold dispatch_op in E. rewrite Hc, Hs, Hp in E. cbn [Z.eqb negb orb] in E.
  apply rbind_ok in E as ([b V1] & Er & E). injection E as <- <- <-. unfold record_op in Er. inv_ok. split_pairs. inv_ok. split_pairs. inv_ok. by simplify_eq.
Qed.

(** ** The publication slot *)

(** The region at [a] is there and has an op. *)
Definition has_ops (a : Z) : bool :=
  negb (a =? 0) && match H a with Some r => negb (Z.of_nat (length (region_ops r)) =? 0) | None => false end.

(** A dispatch first takes the region of the slot: it is the dispatch from the
    state that consume_pending_region_ leaves, on a cold path when the slot held
    a region.  A region with ops replaces the one that waited, and its walk
    starts at its first op. *)
Lemma dispatch_consumes V :
  vigil_ok H V -> ctx_is_compiled V = false ->
  exists V1, consume_pending_region_ H V = Ok V1 /\ vigil_ok H V1 /\ ctx_is_compiled V1 = false /\ pending_region_ V1 = 0 /\
    v_ctx V1 = v_ctx V /\ v_world V1 = v_world V /\
    (pending_activation_ V1, alignment_pos_ V1) =
      (if has_ops (pending_region_ V) then (pending_region_ V, 0) else (pending_activation_ V, alignment_pos_ V)) /\
    forall rq, dispatch_op H V rq =
      if pending_region_ V =? 0 then dispatch_op H V1 rq else let* '(_, res, V2) := dispatch_op H V1 rq in Ok (true, res, V2).
Proof using HM HW.
  intros HV Hc. unfold has_ops. destruct (Z.eqb_spec (pending_region_ V) 0) as [E0|E0]; cbn [negb andb].
  { exists V. assert (Ec : consume_pending_region_ H V = Ok V) by (unfold consume_pending_region_; rewrite E0; cbn; rewrite <- E0; by destruct V).
    by split_and!. }
  destruct (vo_slot _ _ HV E0) as [r Hr]. rewrite Hr.
  assert (Ed : forall V1 rq, consume_pending_region_ H V = Ok V1 -> ctx_is_compiled V1 = false -> pending_region_ V1 = 0 ->
    dispatch_op H V rq = let* '(_, res, V2) := dispatch_op H V1 rq in Ok (true, res, V2)).
  { intros V1 rq Ec Hc1 Hs1. unfold dispatch_op at 1. rewrite Hc, (proj2 (Z.eqb_neq _ _) E0). cbn [negb orb].
    unfold dispatch_transition_ at 1. rewrite (proj2 (Z.eqb_neq _ _) E0), Ec. cbn [negb rbind].
    unfold dispatch_op. rewrite Hc1, Hs1. cbn [Z.eqb negb orb]. destruct (Z.eqb_spec (pending_activation_ V1) 0) as [Ep|Ep]; cbn [negb].
    - by destruct (record_op V1 rq) as [[? ?]|].
    - unfold dispatch_transition_. rewrite Hs1. cbn [Z.eqb negb rbind]. rewrite (proj2 (Z.eqb_neq _ _) Ep). cbn [negb].
      by destruct (try_align_ H V1 (e_schema_hash (rq_entry rq)) (e_shape_hash (rq_entry rq))). }
  assert (exists V1, consume_pending_region_ H V = Ok V1 /\ ctx_is_compiled V1 = false /\ pending_region_ V1 = 0 /\ v_ctx V1 = v_ctx V /\ v_world V1 = v_world V /\
    (pending_activation_ V1, alignment_pos_ V1) =
      (if negb (Z.of_nat (length (region_ops r)) =? 0) then (pending_region_ V, 0) else (pending_activation_ V, alignment_pos_ V))) as (V1 & Ec & Hrest).
  { unfold consume_pending_region_, node_at. rewrite (proj2 (Z.eqb_neq _ _) E0), Hr. cbn [rbind].
    destruct (_ =? 0); cbn [negb rbind alignment_pos_at require Z.leb Z.compare]; (eexists; split; [reflexivity|by split_and!]). }
  destruct Hrest as (H1 & H2 & H3 & H4 & H5). exists V1. destruct (consume_ok H HW _ _ HV Ec) as [HV1 _]. split_and!; auto.
Qed.

(** ** The run of a foreground *)

(** What reaches a foreground that replays nothing: a publication of the
    background, or an op of the adapter. *)
Inductive stream_event := Published (a : Z) | Dispatched (g : Z * Z).

(** The ops of a run. *)
Definition stream (es : list stream_event) : list (Z * Z) :=
  omap (fun e => match e with Published _ => None | Dispatched g => Some g end) es.

(** A run of publications and of dispatches that start no replay. *)
Inductive eager_run (V : Vigil) : list stream_event -> Vigil -> Prop :=
| er_nil : eager_run V [] V
| er_publish es V1 a :
    eager_run V es V1 -> is_Some (H a) -> eager_run V (es ++ [Published a]) (set_slot V1 a)
| er_dispatch es V1 rq cold res V2 :
    eager_run V es V1 -> dispatch_op H V1 rq = Ok (cold, res, V2) -> ctx_is_compiled V2 = false ->
    eager_run V (es ++ [Dispatched (rq_guard rq)]) V2.

(** An observer of the run: the region in the slot, the last region with ops
    that a dispatch found there, and the ops dispatched since then. *)
Record watch := mkWatch { in_slot : Z; waiting : Z; since : list (Z * Z) }.

Definition watch_step (w : watch) (e : stream_event) : watch :=
  match e with
  | Published a => mkWatch a (waiting w) (since w)
  | Dispatched g => if has_ops (in_slot w) then mkWatch 0 (in_slot w) [g] else mkWatch 0 (waiting w) (since w ++ [g])
  end.

Definition watched (V : Vigil) (es : list stream_event) : watch :=
  fold_left watch_step es (mkWatch (pending_region_ V) (pending_activation_ V) []).

Lemma watched_snoc V es e : watched V (es ++ [e]) = watch_step (watched V es) e.
Proof using Type. unfold watched. by rewrite fold_left_app. Qed.

(** The ops of the observer are the last ops of the stream. *)
Lemma since_suffix V es : since (watched V es) `suffix_of` stream es.
Proof using Type.
  induction es as [|e es IH] using rev_ind; [done|]. rewrite watched_snoc. unfold stream in *. rewrite omap_app. destruct e as [a|g]; cbn.
  - by rewrite app_nil_r.
  - destruct (has_ops _); cbn; [by eexists|]. destruct IH as [k ->]. exists k. by rewrite app_assoc.
Qed.

(** The foreground follows the observer: it walks the region that the observer
    names over the ops since then, or it walks nothing. *)
Definition tracks (w : watch) (V : Vigil) : Prop :=
  vigil_ok H V /\ ctx_is_compiled V = false /\ pending_region_ V = in_slot w /\
  (pending_activation_ V <> 0 ->
     pending_activation_ V = waiting w /\ forall r, H (waiting w) = Some r -> seen (region_ops r) (alignment_pos_ V) (since w)).

Lemma tracks_step w V rq cold res V' :
  tracks w V -> dispatch_op H V rq = Ok (cold, res, V') ->
  let w' := watch_step w (Dispatched (rq_guard rq)) in
  tracks w' V' \/
  exists r, H (waiting w') = Some r /\ waiting w' <> 0 /\
    last_of (alignment_threshold (region_ops r)) (since w') = take (Z.to_nat (alignment_threshold (region_ops r))) (guards (region_ops r)) /\
    replay_started (waiting w') r V'.
Proof using HM HW.
  intros (HV & Hc & Hs & Hw) E w'. destruct (dispatch_consumes V HV Hc) as (V1 & _ & HV1 & Hc1 & Hs1 & _ & _ & Hpp & Hd). rewrite Hs in Hpp.
  assert (exists cold1, dispatch_op H V1 rq = Ok (cold1, res, V')) as (cold1 & E1).
  { rewrite Hd in E. destruct (_ =? 0); [by eexists|]. apply rbind_ok in E as ([[c1 r1] V2] & Ed & E). injection E as _ <- <-. by eexists. }
  assert (Hidle : idle V' -> tracks w' V').
  { intros (A1 & A2 & A3 & A4). split_and!; [done|done| |by intros]. subst w'. cbn. by destruct (has_ops _). }
  destruct (Z.eq_dec (pending_activation_ V1) 0) as [Ep|Ep].
  { left. apply Hidle. eapply idle_step; [|exact E1]. by split_and!. }
  destruct (vo_walk _ _ HV1 Ep) as (r & Hr & Hpos).
  assert (exists gs, waiting w' = pending_activation_ V1 /\ since w' = gs ++ [rq_guard rq] /\ seen (region_ops r) (alignment_pos_ V1) gs) as (gs & Ew & Eg & Hseen).
  { subst w'. cbn. destruct (has_ops (in_slot w)); injection Hpp as Ha Hp.
    - exists []. rewrite Hp. split_and!; [done..|]. split; cbn; [lia|done].
    - exists (since w). rewrite Ha in *. destruct (Hw Ep) as [Ew Hsn]. split_and!; [done..|]. rewrite Hp. apply Hsn. by rewrite <- Ew. }
  destruct (walking_step (pending_activation_ V1) r gs V1 rq cold1 res V' Ep Hr ltac:(by split_and!) E1) as [(B1 & B2 & B3 & B4 & B5)|[Hi|[Hl Hst]]].
  - left. split_and!; [done|done| |].
    + rewrite B3. subst w'. cbn. by destruct (has_ops _).
    + intros _. rewrite B4, Ew, Eg. split; [done|]. intros r' Hr'. by simplify_eq.
  - left. by apply Hidle.
  - right. exists r. rewrite Ew, Eg. by split_and!.
Qed.

Lemma eager_tracks V es V1 :
  vigil_ok H V -> ctx_is_compiled V = false -> (pending_activation_ V <> 0 -> alignment_pos_ V = 0) ->
  eager_run V es V1 -> tracks (watched V es) V1.
Proof using HM HW.
  intros HV Hc Hp Hrun. induction Hrun as [|es V1 a _ IH Ha|es V1 rq cold res V2 _ IH E Hc2].
  - split_and!; auto. intros Hne. split; [done|]. intros r _. rewrite (Hp Hne). split; cbn; [lia|done].
  - rewrite watched_snoc. destruct IH as ([A1 A2 A3 A4 A5 A6 A7] & B2 & B3 & B4). split_and!; [by split|done|done|done].
  - rewrite watched_snoc. destruct (tracks_step _ _ _ _ _ _ IH E) as [?|(r & _ & _ & _ & Hc3 & _)]; [done|congruence].
Qed.

(** C14: the alignment is sound.  The foreground starts from any state that
    replays nothing and is not in the middle of a walk; from there the
    background publishes regions at any time, also while another region waits,
    and the adapter dispatches ops.  When a dispatch then starts a replay, the
    region replayed is the last region with ops that a dispatch found in the
    slot (or the one that waited from the start); as many ops as the window
    holds were dispatched since that region was taken, and the last of them, the
    last ops of the stream, are the first ops of the region; the replay stands
    right after them.  A walk that an earlier region had begun counts for
    nothing. *)
Theorem alignment_is_sound V es V1 rq cold res V2 :
  vigil_ok H V -> ctx_is_compiled V = false -> (pending_activation_ V <> 0 -> alignment_pos_ V = 0) ->
  eager_run V es V1 -> dispatch_op H V1 rq = Ok (cold, res, V2) -> ctx_is_compiled V2 = true ->
  let w := watched V (es ++ [Dispatched (rq_guard rq)]) in
  exists r, H (waiting w) = Some r /\ waiting w <> 0 /\ replay_started (waiting w) r V2 /\
    since w `suffix_of` stream es ++ [rq_guard rq] /\
    last_of (alignment_threshold (region_ops r)) (since w) = take (Z.to_nat (alignment_threshold (region_ops r))) (guards (region_ops r)).
Proof using HM HW.
  intros HV Hc Hp Hrun E Hc2 w. pose proof (eager_tracks V es V1 HV Hc Hp Hrun) as Ht. subst w.
  pose proof (since_suffix V (es ++ [Dispatched (rq_guard rq)])) as Hsuf. unfold stream in Hsuf. rewrite omap_app in Hsuf.
  rewrite watched_snoc in *. destruct (tracks_step _ _ _ _ _ _ Ht E) as [(_ & Hc3 & _)|(r & H1 & H2 & H3 & H4)]; [congruence|].
  exists r. by split_and!.
Qed.

(** The first op of the region does not recur in the window. *)
Definition first_unique (ops : list TraceEntry) : Prop :=
  forall i, 0 < i < alignment_threshold ops -> op_guard (op_at ops i) <> op_guard (op_at ops 0).

Lemma walk_from_first ops pos n :
  first_unique ops -> 0 <= pos < alignment_threshold ops -> (0 < n)%nat -> Z.of_nat n <= alignment_threshold ops ->
  align_walk ops pos (take n (guards ops)) = Ok (Z.of_nat n).
Proof using Type.
  intros Hu Hp Hn Hle. pose proof (threshold_bounds ops) as [Hb Hl].
  assert (Hrest : forall m i, (0 < i)%nat -> Z.of_nat (i + m) <= alignment_threshold ops ->
    align_walk ops (Z.of_nat i) (take m (drop i (guards ops))) = Ok (Z.of_nat (i + m))).
  { intros m. induction m as [|m IH]; intros i Hi Hm; [cbn; by rewrite Nat.add_0_r|].
    destruct (lookup_lt_is_Some_2 ops i ltac:(lia)) as [te Hte].
    assert (Hg : guards ops !! i = Some (op_guard te)) by (unfold guards; by rewrite list_lookup_fmap, Hte).
    rewrite (drop_S _ _ _ Hg). cbn [take align_walk]. rewrite (proj2 (Z.leb_gt _ _)) by lia.
    rewrite next_alignment_cases by lia. unfold op_at, aget. rewrite Nat2Z.id, Hte. cbn [default from_option id rbind].
    rewrite bool_decide_true by done. cbn [rbind]. replace (Z.of_nat i + 1) with (Z.of_nat (S i)) by lia.
    rewrite IH by lia. do 2 f_equal. lia. }
  destruct n as [|n]; [lia|]. destruct (lookup_lt_is_Some_2 ops 0%nat ltac:(lia)) as [te Hte].
  assert (Hg : guards ops !! 0%nat = Some (op_guard te)) by (unfold guards; by rewrite list_lookup_fmap, Hte).
  rewrite <- (drop_0 (guards ops)), (drop_S _ _ _ Hg). cbn [take align_walk]. rewrite (proj2 (Z.leb_gt _ _)) by lia.
  rewrite next_alignment_cases by lia. cbn [rbind].
  assert (E0 : op_guard (op_at ops 0) = op_guard te) by (unfold op_at, aget; change (Z.to_nat 0) with 0%nat; by rewrite Hte).
  assert (E1 : (if bool_decide (op_guard te = op_guard (op_at ops pos)) then pos + 1 else if bool_decide (op_guard te = op_guard (op_at ops 0)) then 1 else 0) = 1).
  { case_bool_decide as Hm; [|by rewrite bool_decide_true by done]. destruct (Z.eq_dec pos 0) as [->|]; [done|].
    exfalso. apply (Hu pos ltac:(lia)). by rewrite E0, <- Hm. }
  rewrite E1. apply (Hrest n 1%nat); lia.
Qed.

(** A dispatch that keeps the walk below the threshold always returns. *)
Lemma align_dispatch_on V rq a r p :
  ctx_is_compiled V = false -> pending_region_ V = 0 -> pending_activation_ V = a -> a <> 0 -> H a = Some r ->
  next_alignment (region_ops r) (alignment_pos_ V) (rq_guard rq).1 (rq_guard rq).2 = Ok p -> p < alignment_threshold (region_ops r) ->
  dispatch_op H V rq = Ok (true, recorded, set_walk V a p).
Proof using Type.
  intros Hc Hs Hp Ha Hr Ep Hlt. unfold dispatch_op, dispatch_transition_, try_align_, node_at.
  rewrite Hc, Hs, Hp, (proj2 (Z.eqb_neq _ _) Ha). cbn [Z.eqb negb orb rbind]. rewrite Hp, (proj2 (Z.eqb_neq _ _) Ha). cbn [negb].
  rewrite Hr. cbn [rbind]. unfold rq_guard in Ep. cbn [fst snd] in Ep. rewrite Ep. cbn [rbind]. by rewrite (proj2 (Z.leb_gt _ _)) by lia.
Qed.

Lemma align_walk_snoc ops g gs : forall pos,
  align_walk ops pos (gs ++ [g]) =
  let* p := align_walk ops pos gs in if alignment_threshold ops <=? p then Ok p else next_alignment ops p g.1 g.2.
Proof using Type.
  induction gs as [|x gs IH]; intros pos; cbn [app align_walk rbind].
  - destruct (_ <=? _); [done|]. by destruct (next_alignment ops pos g.1 g.2).
  - destruct (alignment_threshold ops <=? pos) eqn:E; cbn [rbind]; [by rewrite E|]. destruct (next_alignment ops pos x.1 x.2); cbn [rbind]; [apply IH|done].
Qed.

Lemma align_run_on rqs : forall V a r p,
  vigil_ok H V -> ctx_is_compiled V = false -> pending_region_ V = 0 -> pending_activation_ V = a -> a <> 0 -> H a = Some r ->
  (forall n, (n <= length rqs)%nat -> exists q, align_walk (region_ops r) (alignment_pos_ V) (take n (rq_guard <$> rqs)) = Ok q /\ q < alignment_threshold (region_ops r)) ->
  align_walk (region_ops r) (alignment_pos_ V) (rq_guard <$> rqs) = Ok p ->
  dispatch_run V rqs = Ok (set_walk V a p).
Proof using HM HW.
  induction rqs as [|rq rqs IH]; intros V a r p HV Hc Hs Hp Ha Hr Hw E; cbn [dispatch_run fmap list_fmap align_walk] in *.
  { injection E as <-. f_equal. rewrite <- Hp. by destruct V. }
  destruct (Hw 0%nat ltac:(lia)) as (q0 & E0 & H0). cbn in E0. injection E0 as <-.
  pose proof (vo_pos _ _ HV) as Hpos.
  destruct (next_alignment_ok (region_ops r) (alignment_pos_ V) (rq_guard rq).1 (rq_guard rq).2 ltac:(lia)) as (p1 & Ep1 & Hp1).
  rewrite (proj2 (Z.leb_gt _ _)), Ep1 in E by lia. cbn [rbind] in E.
  destruct (Hw 1%nat ltac:(cbn; lia)) as (q1 & E1 & H1). cbn [take] in E1. cbn [align_walk] in E1. rewrite (proj2 (Z.leb_gt _ _)), Ep1 in E1 by lia.
  cbn [rbind] in E1. rewrite take_0 in E1. cbn [align_walk] in E1. injection E1 as <-.
  pose proof (align_dispatch_on V rq a r p1 Hc Hs Hp Ha Hr Ep1 H1) as Ed. rewrite Ed. cbn [rbind].
  destruct (dispatch_ok H HW _ _ _ _ _ HV Ed) as [HV1 _].
  erewrite (IH (set_walk V a p1) a r p); [done|done|done|done|done|done|done| |exact E].
  intros n Hn. destruct (Hw (S n) ltac:(cbn; lia)) as (q & Eq & Hq). exists q. split; [|done].
  cbn [take] in Eq. cbn [align_walk] in Eq. rewrite (proj2 (Z.leb_gt _ _)), Ep1 in Eq by lia. exact Eq.
Qed.

(** The walk of the first ops of the region, from any position below the window:
    all but the last op are dispatched and the last op ends the walk. *)
Lemma align_run_start V a r rqs rq :
  vigil_ok H V -> ctx_is_compiled V = false -> pending_region_ V = 0 -> pending_activation_ V = a -> a <> 0 -> H a = Some r ->
  first_unique (region_ops r) ->
  rq_guard <$> (rqs ++ [rq]) = take (Z.to_nat (alignment_threshold (region_ops r))) (guards (region_ops r)) ->
  exists p, dispatch_run V rqs = Ok (set_walk V a p) /\ (rqs <> [] -> p = Z.of_nat (length rqs)) /\
    vigil_ok H (set_walk V a p) /\ next_alignment (region_ops r) p (rq_guard rq).1 (rq_guard rq).2 = Ok (alignment_threshold (region_ops r)).
Proof using HM HW.
  intros HV Hc Hs Hp Ha Hr Hu Hg. destruct (vo_walk _ _ HV ltac:(congruence)) as (r' & Hr' & Hpos). rewrite Hp, Hr in Hr'. injection Hr' as <-.
  pose proof (vo_pos _ _ HV) as Hpos0. set (ops := region_ops r) in *. pose proof (threshold_bounds ops) as [Hb Hl].
  assert (Hlen : Z.of_nat (length rqs) + 1 = alignment_threshold ops).
  { apply (f_equal length) in Hg. rewrite length_fmap, length_app, length_take in Hg. unfold guards in Hg. rewrite length_fmap in Hg. cbn in Hg. lia. }
  assert (Hpre : forall n, (n <= length rqs)%nat -> take n (rq_guard <$> rqs) = take n (guards ops)).
  { intros n Hn. transitivity (take n (rq_guard <$> (rqs ++ [rq]))).
    - rewrite fmap_app, take_app_le by (rewrite length_fmap; lia). done.
    - rewrite Hg, take_take. f_equal. lia. }
  assert (Hwalk : forall n, (n <= length rqs)%nat ->
    align_walk ops (alignment_pos_ V) (take n (rq_guard <$> rqs)) = Ok (if decide (n = 0%nat) then alignment_pos_ V else Z.of_nat n)).
  { intros n Hn. rewrite Hpre by done. case_decide; [by subst|]. apply walk_from_first; auto; lia. }
  set (p := if decide (length rqs = 0%nat) then alignment_pos_ V else Z.of_nat (length rqs)).
  assert (Hpw : align_walk ops (alignment_pos_ V) (rq_guard <$> rqs) = Ok p).
  { specialize (Hwalk (length rqs) ltac:(lia)). rewrite take_ge in Hwalk by (rewrite length_fmap; lia). done. }
  assert (Hlt : forall n, (n <= length rqs)%nat -> (if decide (n = 0%nat) then alignment_pos_ V else Z.of_nat n) < alignment_threshold ops)
    by (intros n Hn; case_decide; lia).
  assert (Hrun : dispatch_run V rqs = Ok (set_walk V a p)) by (eapply (align_run_on rqs V a r p); eauto).
  assert (Hp2 : p < alignment_threshold ops) by apply (Hlt (length rqs) ltac:(lia)).
  assert (Hp0 : 0 <= p) by (subst p; case_decide; lia).
  exists p. split; [exact Hrun|]. split; [intros Hne; subst p; rewrite decide_False; [done|by destruct rqs]|]. split.
  { destruct HV as [A1 A2 A3 A4 A5 A6 A7]. split; cbn; auto; [unfold ALIGNMENT_POS_MAX; lia|]. intros _. by exists r. }
  assert (Hfull : align_walk ops (alignment_pos_ V) (rq_guard <$> (rqs ++ [rq])) = Ok (alignment_threshold ops)).
  { rewrite Hg. rewrite walk_from_first by (auto; lia). f_equal. lia. }
  rewrite fmap_app in Hfull. change (rq_guard <$> [rq]) with [rq_guard rq] in Hfull. rewrite align_walk_snoc, Hpw in Hfull. cbn [rbind] in Hfull.
  by rewrite (proj2 (Z.leb_gt _ _)) in Hfull by lia.
Qed.

(** ** The start of a replay *)

(** What the start of a replay of [r] needs besides the ops: the pool of its
    plan can be built, with a slot, the inputs of its ops have their metadata,
    and the count of iterations is not at its end. *)
Record can_start (V : Vigil) (r : RegionNode) (plan : MemoryPlan) : Prop := {
  cs_pool : is_ok (pool_init new_pool (v_world V) plan) = true;
  cs_slots : 0 < num_slots plan;
  cs_inputs : forall te ids, te ∈ region_ops r -> input_slot_ids te = Some ids ->
    (Z.to_nat (num_inputs te) <= length ids)%nat /\ (Z.to_nat (num_inputs te) <= length (default [] (input_metas te)))%nat;
  cs_count : compiled_iterations_ (v_ctx V) < UINT32_MAX;
}.

Lemma input_of_slot_total te ids target n : forall j,
  (j + n <= length ids)%nat -> (j + n <= length (default [] (input_metas te)))%nat -> is_ok (input_of_slot te ids target j n) = true.
Proof using Type.
  induction n as [|n IH]; intros j H1 H2; cbn [input_of_slot]; [done|]. destruct (lookup_lt_is_Some_2 ids j ltac:(lia)) as [id ->].
  destruct (lookup_lt_is_Some_2 (default [] (input_metas te)) j ltac:(lia)) as [m ->]. destruct (id =? target); [done|]. apply IH; lia.
Qed.

Lemma external_ptr_total ops target :
  (forall te ids, te ∈ ops -> input_slot_ids te = Some ids ->
    (Z.to_nat (num_inputs te) <= length ids)%nat /\ (Z.to_nat (num_inputs te) <= length (default [] (input_metas te)))%nat) ->
  is_ok (external_ptr ops target) = true.
Proof using Type.
  induction ops as [|te ops IH]; intros Hin; cbn [external_ptr]; [done|].
  assert (Hok : is_ok (match input_slot_ids te with None => Ok 0 | Some ids => input_of_slot te ids target 0 (Z.to_nat (num_inputs te)) end) = true).
  { destruct (input_slot_ids te) as [ids|] eqn:Hids; [|done]. destruct (Hin te ids ltac:(left) Hids). by apply input_of_slot_total. }
  destruct (match input_slot_ids te with None => _ | Some _ => _ end); [|done]. cbn [rbind]. destruct (_ =? 0); [|done].
  apply IH. intros te' ids Hte. apply Hin. by right.
Qed.

(** A context that takes the externals of a plan of [n] slots. *)
Definition registrable (n : Z) (c : CrucibleContext) : Prop :=
  mode_ c = COMPILED /\ is_Some (ptr_table_ (ctx_pool_ c)) /\ num_slots_ (ctx_pool_ c) = n.

Lemma register_total n c sid ptr : registrable n c -> 0 <= sid < n -> exists c', ctx_register_external c sid ptr = Ok c' /\ registrable n c' /\ compiled_iterations_ c' = compiled_iterations_ c.
Proof using Type.
  intros (Hm & [[t tbl] Ht] & Hn) Hs. unfold ctx_register_external, pool_register_external, initialized_view, in_range.
  rewrite bool_decide_true, Ht, Hn by done. cbn [require rbind].
  rewrite (proj2 (Z.ltb_lt 0 n)), (proj2 (Z.leb_le 0 sid)), (proj2 (Z.leb_le sid (n - 1))) by lia. cbn [require rbind andb].
  eexists. split; [reflexivity|]. by split.
Qed.

Lemma register_externals_total ops n slots : forall c,
  (forall te ids, te ∈ ops -> input_slot_ids te = Some ids ->
    (Z.to_nat (num_inputs te) <= length ids)%nat /\ (Z.to_nat (num_inputs te) <= length (default [] (input_metas te)))%nat) ->
  (forall s, s ∈ slots -> 0 <= slot_id s < n) -> registrable n c ->
  exists c', register_externals ops slots c = Ok c' /\ compiled_iterations_ c' = compiled_iterations_ c.
Proof using Type.
  induction slots as [|s slots IH]; intros c Hin Hs Hc; cbn [register_externals]; [by exists c|].
  assert (Hs' : forall u, u ∈ slots -> 0 <= slot_id u < n) by (intros; apply Hs; by right).
  destruct (is_external s); cbn [negb]; [|by apply IH]. pose proof (external_ptr_total ops (slot_id s) Hin) as Hp.
  destruct (external_ptr ops (slot_id s)) as [ptr|]; [|done]. cbn [rbind]. destruct (ptr =? 0); [by apply IH|].
  destruct (register_total n c (slot_id s) ptr Hc (Hs s ltac:(left))) as (c1 & -> & Hc1 & E1). cbn [rbind].
  destruct (IH c1 Hin Hs' Hc1) as (c2 & -> & E2). exists c2. split; [done|congruence].
Qed.

(** The ops that the alignment matched are replayed, at most to the end of the
    region. *)
Lemma skip_matched_total ops n : forall i c,
  (i + n <= length ops)%nat -> mode_ c = COMPILED -> engine_at ops (Z.of_nat i) (engine_ c) -> compiled_iterations_ c < UINT32_MAX ->
  exists c', skip_matched ops i n c = Ok c'.
Proof using Type.
  induction n as [|n IH]; intros i c Hle Hm Hat Hci; cbn [skip_matched]; [by exists c|].
  destruct (lookup_lt_is_Some_2 ops i ltac:(lia)) as [te Hte]. rewrite Hte.
  assert (Hg : (schema_hash te, shape_hash te) = op_guard (op_at ops (Z.of_nat i))) by (unfold op_at, aget; by rewrite Nat2Z.id, Hte).
  destruct (engine_advance_at ops (Z.of_nat i) (engine_ c) (schema_hash te, shape_hash te) Hat ltac:(lia)) as (e' & He & Hat' & _).
  assert (Esp : spec_advance ops (Z.of_nat i) (schema_hash te, shape_hash te) =
    (if Z.of_nat i + 1 =? Z.of_nat (length ops) then COMPLETE else MATCH, Z.of_nat i + 1)) by (unfold spec_advance; by rewrite bool_decide_true).
  rewrite Esp in He, Hat'. cbn [fst snd] in *. unfold ctx_advance, advance_. rewrite bool_decide_true, He by done. cbn [require rbind].
  destruct (Z.eqb_spec (Z.of_nat i + 1) (Z.of_nat (length ops))) as [El|El].
  - unfold monotonic_bump. rewrite (proj2 (Z.eqb_neq _ _)) by lia. cbn. replace n with 0%nat by lia. cbn [skip_matched]. by eexists.
  - cbn [rbind]. apply IH; [lia|done| |done]. cbn. by replace (Z.of_nat (S i)) with (Z.of_nat i + 1) by lia.
Qed.

(** The activation of the region, with its pool granted. *)
Lemma activate_total V r plan :
  vigil_ok H V -> ctx_is_compiled V = false -> region_plan r = Some plan -> can_start V r plan ->
  exists c w, activate (v_ctx V) (v_world V) r = Ok (true, c, w) /\ compiled_iterations_ c = compiled_iterations_ (v_ctx V).
Proof using Type.
  intros HV Hc Hp Hcs. pose proof (vo_ctx _ _ HV) as Hok. unfold ctx_ok in Hok. unfold ctx_is_compiled in Hc.
  apply bool_decide_eq_false in Hc. destruct (mode_ (v_ctx V)) eqn:Hm; [|done]. destruct Hok as [Hpool _].
  unfold activate. rewrite Hp, Hm, bool_decide_false by done. rewrite Hpool. pose proof (cs_pool _ _ _ Hcs) as Hi.
  destruct (pool_init new_pool (v_world V) plan) as [[P w]|] eqn:Hinit; [|done]. cbn [rbind].
  destruct (pool_init_ok _ _ _ _ _ Hinit (cs_slots _ _ _ Hcs)) as (t & tbl & Ht & _). unfold engine_init, initialized_view. rewrite Ht. cbn [rbind].
  eexists _, w. split; reflexivity.
Qed.

(** A dispatch that ends the walk returns: without a plan the walk is dropped,
    with one the replay starts. *)
Lemma align_dispatch_end V rq a r :
  vigil_ok H V -> ctx_is_compiled V = false -> pending_region_ V = 0 -> pending_activation_ V = a -> a <> 0 -> H a = Some r ->
  next_alignment (region_ops r) (alignment_pos_ V) (rq_guard rq).1 (rq_guard rq).2 = Ok (alignment_threshold (region_ops r)) ->
  (region_plan r = None \/ exists plan, region_plan r = Some plan /\ can_start V r plan) ->
  exists V', dispatch_op H V rq = Ok (true, recorded, V').
Proof using HM HW.
  intros HV Hc Hs Hp Ha Hr Ep Hpl. unfold dispatch_op, dispatch_transition_, try_align_, node_at.
  rewrite Hc, Hs, Hp, (proj2 (Z.eqb_neq _ _) Ha). cbn [Z.eqb negb orb rbind]. rewrite Hp, (proj2 (Z.eqb_neq _ _) Ha). cbn [negb].
  rewrite Hr. cbn [rbind]. unfold rq_guard in Ep. cbn [fst snd] in Ep. rewrite Ep. cbn [rbind]. rewrite Z.leb_refl. cbn [set_walk v_ctx v_world v_cache v_mem].
  destruct Hpl as [Hn|(plan & Hpl & Hcs)]; [unfold activate; rewrite Hn; cbn [rbind negb]; by eexists|].
  destruct (activate_total V r plan HV Hc Hpl Hcs) as (c & w & Hact & Hci). rewrite Hact. cbn [rbind negb].
  destruct (activate_result _ _ _ _ _ _ Hact) as [(? & _)|(_ & Hm & Har)]; [done|]. pose proof (HW _ _ Hr plan Hpl) as [Hcnt Hid].
  pose proof (activate_ok _ _ _ _ _ _ (vo_ctx _ _ HV) (region_wf_counted _ (HW _ _ Hr)) Hact) as Hcok. pose proof Hcok as Hcok'.
  unfold ctx_ok in Hcok'. rewrite Hm in Hcok'. destruct Hcok' as (r' & plan' & t & tbl & Har' & Hpl' & _ & Hh & _). rewrite Har in Har'. injection Har' as <-.
  rewrite Hpl in Hpl'. injection Hpl' as <-.
  assert (Hreg : registrable (num_slots plan) c) by (split_and!; [done|by rewrite (ph_table _ _ _ _ _ Hh)|by rewrite (ph_slots _ _ _ _ _ Hh)]).
  destruct (register_externals_total (region_ops r) (num_slots plan) (take (Z.to_nat (num_slots plan)) (plan_slots plan)) c (cs_inputs _ _ _ Hcs)) as (c1 & Hc1 & Hci1); [|exact Hreg|].
  { intros s Hin. apply (subseteq_take (Z.to_nat (num_slots plan))) in Hin. apply list_elem_of_lookup in Hin as [i Hi]. rewrite (Hid i s Hi).
    apply lookup_lt_Some in Hi. rewrite Hcnt. lia. }
  assert (Hre : register_externals_from_region_ c r = Ok c1) by (unfold register_externals_from_region_; by rewrite Hpl). rewrite Hre. cbn [rbind].
  destruct (vo_cache _ _ HV) as (l & Hl & _). destruct (rep_insert a r (v_cache V) l Hl Ha) as (cache & -> & _). cbn [rbind].
  destruct (vigil_register_ok _ _ _ _ Har (HW _ _ Hr) Hcok Hre) as [_ (S1 & S2 & S3)]. pose proof (threshold_bounds (region_ops r)) as [Hb Hle].
  assert (Hne : region_ops r <> []).
  { destruct (vo_walk _ _ HV ltac:(congruence)) as (r' & Hr' & Hpos). rewrite Hp, Hr in Hr'. injection Hr' as <-. pose proof (vo_pos _ _ HV).
    intros E0. rewrite E0 in *. cbn in *. lia. }
  pose proof (activate_engine _ _ _ _ _ Hne Hact) as Hat. rewrite <- S3 in Hat. pose proof (cs_count _ _ _ Hcs).
  destruct (skip_matched_total (region_ops r) (Z.to_nat (alignment_threshold (region_ops r))) 0 c1 ltac:(lia) ltac:(congruence) Hat ltac:(lia)) as (c2 & ->).
  cbn [rbind]. by eexists.
Qed.

(** The region at [a] waits: it is in the slot, with an op, or its walk is
    under way. *)
Definition waits (V : Vigil) (a : Z) : Prop :=
  (pending_region_ V = a /\ has_ops a = true) \/ (pending_region_ V = 0 /\ pending_activation_ V = a /\ a <> 0).

(** What a dispatch that drops the walk of a region leaves. *)
Definition walk_dropped (V : Vigil) : Prop := ctx_is_compiled V = false /\ pending_activation_ V = 0 /\ pending_region_ V = 0.

Lemma finds_start_walking V a r rqs rq :
  vigil_ok H V -> ctx_is_compiled V = false -> pending_region_ V = 0 -> pending_activation_ V = a -> a <> 0 -> H a = Some r -> first_unique (region_ops r) ->
  rq_guard <$> (rqs ++ [rq]) = take (Z.to_nat (alignment_threshold (region_ops r))) (guards (region_ops r)) ->
  exists p, dispatch_run V rqs = Ok (set_walk V a p) /\ (rqs <> [] -> p = Z.of_nat (length rqs)) /\
    (region_plan r = None -> exists V2, dispatch_op H (set_walk V a p) rq = Ok (true, recorded, V2) /\ walk_dropped V2) /\
    (forall plan, region_plan r = Some plan -> can_start V r plan -> exists V2, dispatch_op H (set_walk V a p) rq = Ok (true, recorded, V2) /\ replay_started a r V2).
Proof using HM HW.
  intros HV Hc Hs Hp Ha Hr Hu Hg. destruct (align_run_start V a r rqs rq HV Hc Hs Hp Ha Hr Hu Hg) as (p & Hrun & Hpos & HV1 & Hend).
  exists p. split; [done|]. split; [done|].
  assert (Hlast : (region_plan r = None \/ exists plan, region_plan r = Some plan /\ can_start V r plan) ->
    exists V2, dispatch_op H (set_walk V a p) rq = Ok (true, recorded, V2) /\ pending_region_ V2 = 0 /\ align_outcome a r (set_walk V a p) (alignment_threshold (region_ops r)) V2).
  { intros Hpl. destruct (align_dispatch_end (set_walk V a p) rq a r HV1 Hc Hs eq_refl Ha Hr Hend) as (V2 & E).
    { destruct Hpl as [?|(plan & Hpl & [C1 C2 C3 C4])]; [by left|right]. exists plan. by split. }
    exists V2. destruct (align_dispatch _ _ _ _ _ a r HV1 Hc Hs eq_refl Ha Hr E) as (q & Eq & _ & Hs2 & Ho).
    cbn [alignment_pos_ set_walk] in Eq. rewrite Hend in Eq. injection Eq as <-. by split_and!. }
  split.
  - intros Hn. destruct (Hlast (or_introl Hn)) as (V2 & E & Hs2 & Ho). exists V2. split; [done|].
    destruct Ho as [Hlt _ _ _|_ ? ? _|_ Hc2 _ Har _]; [lia|done|exfalso].
    destruct (dispatch_ok H HW _ _ _ _ _ HV1 E) as [HV2 _]. pose proof (vo_ctx _ _ HV2) as Hok. unfold ctx_ok in Hok.
    apply compiled_iff in Hc2. rewrite Hc2, Har in Hok. destruct Hok as (r' & plan & t & tbl & [= <-] & Hpl & _). congruence.
  - intros plan Hpl Hcs. destruct (Hlast (or_intror (ex_intro _ plan (conj Hpl Hcs)))) as (V2 & E & Hs2 & Ho). exists V2. split; [done|].
    destruct Ho as [Hlt _ _ _|_ _ _ Hn|_ ? ? ? ?]; [lia|congruence|by split_and!].
Qed.

(** C15: the alignment finds the next start of the iteration.  A region waits,
    in the publication slot or with its walk at any position, and its first op
    does not recur in the window.  Then the ops of the window, dispatched one
    after the other, end the walk: all but the last are dispatched without a
    replay, each moves the walk by one, and the last one returns.  For a region
    with a plan it starts the replay of that region, right after these ops, when
    the pool of the plan can be built and has a slot, the inputs of the ops have
    their metadata, and the count of compiled iterations is below its end; for a
    region without a plan it drops the walk and starts no replay. *)
Theorem alignment_finds_start V a r rqs rq :
  vigil_ok H V -> ctx_is_compiled V = false -> waits V a -> H a = Some r -> first_unique (region_ops r) ->
  rq_guard <$> (rqs ++ [rq]) = take (Z.to_nat (alignment_threshold (region_ops r))) (guards (region_ops r)) ->
  exists V1, dispatch_run V rqs = Ok V1 /\ ctx_is_compiled V1 = false /\
    (rqs <> [] -> pending_activation_ V1 = a /\ alignment_pos_ V1 = Z.of_nat (length rqs)) /\
    (forall plan, region_plan r = Some plan -> can_start V r plan ->
       exists V2, dispatch_op H V1 rq = Ok (true, recorded, V2) /\ replay_started a r V2) /\
    (region_plan r = None -> exists V2, dispatch_op H V1 rq = Ok (true, recorded, V2) /\ walk_dropped V2).
Proof using HM HW.
  intros HV Hc Hw Hr Hu Hg. destruct Hw as [[Hs Hops]|(Hs & Hp & Ha)].
  - destruct (dispatch_consumes V HV Hc) as (V0 & _ & HV0 & Hc0 & Hs0 & Ec & Ew & Hpp & Hd). rewrite Hs, Hops in Hpp. injection Hpp as Hp0 _.
    assert (Ha : a <> 0) by (unfold has_ops in Hops; intros ->; done).
    destruct (finds_start_walking V0 a r rqs rq HV0 Hc0 Hs0 Hp0 Ha Hr Hu Hg) as (p & Hrun & Hpos & Hn & Hpl).
    assert (Hcs : forall plan, can_start V r plan -> can_start V0 r plan) by (intros plan [C1 C2 C3 C4]; split; rewrite ?Ec, ?Ew; done).
    destruct rqs as [|rq0 rqs].
    + injection Hrun as E0. rewrite <- E0 in *. exists V. split_and!; [done|done|done| |].
      * intros plan H1 H2. destruct (Hpl plan H1 (Hcs plan H2)) as (V2 & E & Hst). exists V2. rewrite Hd, Hs, (proj2 (Z.eqb_neq _ _) Ha), E. done.
      * intros H1. destruct (Hn H1) as (V2 & E & Hst). exists V2. rewrite Hd, Hs, (proj2 (Z.eqb_neq _ _) Ha), E. done.
    + exists (set_walk V0 a p). split_and!; [|done|intros _; cbn; split; [done|by apply Hpos]|intros plan H1 H2; apply (Hpl plan H1), Hcs, H2|exact Hn].
      rewrite <- Hrun. cbn [dispatch_run]. rewrite Hd, Hs, (proj2 (Z.eqb_neq _ _) Ha). by destruct (dispatch_op H V0 rq0) as [[[? ?] ?]|].
  - destruct (finds_start_walking V a r rqs rq HV Hc Hs Hp Ha Hr Hu Hg) as (p & Hrun & Hpos & Hn & Hpl).
    exists (set_walk V a p). split_and!; [done|done|intros Hne; cbn; split; [done|by apply Hpos]|exact Hpl|exact Hn].
Qed.
End Align.

(** ** Witnesses *)

Definition wit_align_plan : MemoryPlan :=
  match compute_memory_plan (-1) 0 0 [wit_slot 512 0 1 false] with Ok p => p | Fatal _ => mkPlan [] 0 0 0 CPU (-1) 0 0 0 end.

Definition wit_align_region (gs : list (Z * Z)) : RegionNode :=
  mkRegion 77 ((fun g => wit_op g.1 g.2 []) <$> gs) (Some wit_align_plan).

Definition wit_heap (gs : list (Z * Z)) (a : Z) : option RegionNode := if a =? 65536 then Some (wit_align_region gs) else None.

Lemma wit_heap_wf gs : heap_wf (wit_heap gs).
Proof.
  intros a r Hr. unfold wit_heap in Hr. destruct (a =? 65536); [|done]. injection Hr as <-. intros plan Hp. injection Hp as <-.
  split; [vm_compute; reflexivity|]. intros [|[|i]] s Hs; vm_compute in Hs; [|done..]. by injection Hs as <-.
Qed.

(** A foreground with a region that waits. *)
Definition wit_vigil : Vigil :=
  mkVigil new_context 0 new_region_cache 65536 0 MODE_RECORDING 0 false new_ring new_metalog wit_world wit_mem.

(** A foreground that has just dropped a walk at its end, with the region in the
    publication slot. *)
Definition wit_vigil_slot : Vigil :=
  mkVigil new_context 0 new_region_cache 0 5 MODE_RECORDING 65536 false new_ring new_metalog wit_world wit_mem.

Definition wit_rq (g : Z * Z) : op_request := mkOp (mkRingEntry g.1 g.2 0 0 0 0 0 [0; 0; 0; 0; 0]) [] 0 0.

Definition wit_gs : list (Z * Z) := [(11, 1); (12, 2); (13, 3); (14, 4); (15, 5); (16, 6)].

(** A second region, which the background publishes later. *)
Definition wit_gs2 : list (Z * Z) := [(21, 1); (22, 2); (23, 3); (24, 4); (25, 5); (26, 6)].
Definition wit_heap2 (a : Z) : option RegionNode := if a =? 131072 then Some (wit_align_region wit_gs2) else wit_heap wit_gs a.

Lemma wit_heap2_wf : heap_wf wit_heap2.
Proof.
  intros a r Hr. unfold wit_heap2 in Hr. destruct (a =? 131072); [|by eapply wit_heap_wf]. injection Hr as <-.
  exact (wit_heap_wf wit_gs2 65536 (wit_align_region wit_gs2) eq_refl).
Qed.

Lemma wit_vigil_slot_ok H : is_Some (H 65536) -> vigil_ok (M := bump_pool_mem) H wit_vigil_slot.
Proof.
  intros HH. split; cbn; try done. exists []. split; [apply rep_new|]. intros e He. by apply elem_of_nil in He.
Qed.

(** The run of a list of events, while nothing is replayed. *)
Fixpoint wit_runs (V : Vigil) (es : list stream_event) : option Vigil :=
  match es with
  | [] => Some V
  | Published a :: es => if bool_decide (is_Some (wit_heap2 a)) then wit_runs (set_slot V a) es else None
  | Dispatched g :: es =>
      match dispatch_op (M := bump_pool_mem) wit_heap2 V (wit_rq g) with
      | Ok (_, _, V) => if ctx_is_compiled V then None else wit_runs V es
      | Fatal _ => None
      end
  end.

Lemma wit_runs_eager es : forall V0 es0 V V',
  eager_run (M := bump_pool_mem) wit_heap2 V0 es0 V -> wit_runs V es = Some V' -> eager_run (M := bump_pool_mem) wit_heap2 V0 (es0 ++ es) V'.
Proof.
  induction es as [|[a|g] es IH]; intros V0 es0 V V' HR E; cbn [wit_runs] in E; [injection E as <-; by rewrite app_nil_r|..];
    rewrite (cons_middle _ es0 es), app_assoc.
  - case_bool_decide; [|done]. eapply IH; [|exact E]. by apply er_publish.
  - destruct (dispatch_op _ V (wit_rq g)) as [[[b r] V1]|] eqn:Ed; [|done]. destruct (ctx_is_compiled V1) eqn:Ec; [done|]. eapply IH; [|exact E].
    replace g with (rq_guard (wit_rq g)) at 1 by (by destruct g). by eapply er_dispatch.
Qed.

(** The first region is walked for three ops, then the second is published; the
    stream is inside its iteration, and its next start follows. *)
Definition wit_events : list stream_event :=
  [Dispatched (11, 1); Dispatched (12, 2); Dispatched (13, 3); Published 131072; Dispatched (24, 4); Dispatched (25, 5);
   Dispatched (26, 6); Dispatched (21, 1); Dispatched (22, 2); Dispatched (23, 3); Dispatched (24, 4)].

Definition wit_before : Vigil := match wit_runs wit_vigil_slot wit_events with Some V => V | None => wit_vigil end.
Definition wit_after : Vigil :=
  match dispatch_op (M := bump_pool_mem) wit_heap2 wit_before (wit_rq (25, 5)) with Ok (_, _, V) => V | Fatal _ => wit_vigil end.

Lemma wit_events_eager : eager_run (M := bump_pool_mem) wit_heap2 wit_vigil_slot wit_events wit_before.
Proof. apply (wit_runs_eager wit_events wit_vigil_slot [] wit_vigil_slot); [apply er_nil|vm_compute; reflexivity]. Qed.

Lemma alignment_is_sound_witness : v_active wit_after = 131072 /\ cursor_ (engine_ (v_ctx wit_after)) = 5.
Proof.
  destruct (alignment_is_sound (M := bump_pool_mem) (HM := bump_pool_mem_ok) wit_heap2 wit_heap2_wf wit_vigil_slot wit_events wit_before
    (wit_rq (25, 5)) true recorded wit_after (wit_vigil_slot_ok wit_heap2 ltac:(by eexists)) eq_refl ltac:(done) wit_events_eager) as (r & Hr & _ & (_ & H1 & _ & H2) & _).
  - vm_compute. reflexivity.
  - vm_compute. reflexivity.
  - split; [exact H1|]. rewrite H2. vm_compute in Hr. injection Hr as <-. reflexivity.
Defined.

Lemma wit_can_start V : v_world V = wit_world -> compiled_iterations_ (v_ctx V) = 0 ->
  can_start (M := bump_pool_mem) V (wit_align_region wit_gs) wit_align_plan.
Proof.
  intros Hw Hc. split; [rewrite Hw; vm_compute; reflexivity|vm_compute; reflexivity| |rewrite Hc; done].
  intros te ids Hte Hids. change (region_ops _) with ((fun g : Z * Z => wit_op g.1 g.2 []) <$> wit_gs) in Hte. apply list_elem_of_fmap in Hte as (g & -> & _). done.
Qed.

Lemma alignment_finds_start_witness : exists V1 V2,
  dispatch_run (M := bump_pool_mem) (wit_heap wit_gs) wit_vigil_slot (wit_rq <$> [(11, 1); (12, 2); (13, 3); (14, 4)]) = Ok V1 /\
  dispatch_op (M := bump_pool_mem) (wit_heap wit_gs) V1 (wit_rq (15, 5)) = Ok (true, recorded, V2) /\
  ctx_is_compiled V2 = true /\ v_active V2 = 65536 /\ cursor_ (engine_ (v_ctx V2)) = 5.
Proof.
  destruct (alignment_finds_start (M := bump_pool_mem) (HM := bump_pool_mem_ok) (wit_heap wit_gs) (wit_heap_wf wit_gs) wit_vigil_slot 65536
    (wit_align_region wit_gs) (wit_rq <$> [(11, 1); (12, 2); (13, 3); (14, 4)]) (wit_rq (15, 5)) (wit_vigil_slot_ok (wit_heap wit_gs) ltac:(by eexists))
    eq_refl (or_introl (conj eq_refl eq_refl)) eq_refl) as (V1 & H1 & _ & _ & H2 & _).
  - intros i Hi. change (alignment_threshold _) with 5 in Hi. assert (i = 1 \/ i = 2 \/ i = 3 \/ i = 4) as [->|[->|[->| ->]]] by lia; vm_compute; congruence.
  - vm_compute. reflexivity.
  - destruct (H2 wit_align_plan eq_refl (wit_can_start wit_vigil_slot eq_refl eq_refl)) as (V2 & E & S1 & S2 & _ & S4).
    exists V1, V2. split; [exact H1|]. split; [exact E|]. split; [exact S1|]. split; [exact S2|exact S4].
Defined.

(** ** A region that is never aligned *)

(** An iteration a, a, b, c, a, and the stream from its second op on. *)
Definition starve_gs : list (Z * Z) := [(1, 1); (1, 1); (2, 2); (3, 3); (1, 1)].
Definition starve_period : list op_request := wit_rq <$> [(1, 1); (2, 2); (3, 3); (1, 1); (1, 1)].

Lemma starve_round p : (p = 0 \/ p = 2) ->
  dispatch_run (M := bump_pool_mem) (wit_heap starve_gs) (set_walk wit_vigil 65536 p) starve_period = Ok (set_walk wit_vigil 65536 2).
Proof. intros [->| ->]; vm_compute; reflexivity. Qed.

Lemma dispatch_run_app `{M : PoolMem} H l1 : forall V l2, dispatch_run H V (l1 ++ l2) = (let* V := dispatch_run H V l1 in dispatch_run H V l2).
Proof.
  induction l1 as [|rq l1 IH]; intros V l2; cbn [app dispatch_run rbind]; [done|]. destruct (dispatch_op H V rq) as [[[? ?] V1]|]; cbn [rbind]; [apply IH|done].
Qed.

(** A stream that repeats the region forever never aligns with it, and records
    nothing, when the last op of the iteration is its first two. *)
Theorem alignment_can_starve n : exists V,
  dispatch_run (M := bump_pool_mem) (wit_heap starve_gs) wit_vigil (List.concat (replicate n starve_period)) = Ok V /\
  ctx_is_compiled V = false /\ pending_activation_ V = 65536 /\ v_ring V = new_ring.
Proof.
  assert (Hgo : forall p, p = 0 \/ p = 2 -> exists q, (q = 0 \/ q = 2) /\
    dispatch_run (M := bump_pool_mem) (wit_heap starve_gs) (set_walk wit_vigil 65536 p) (List.concat (replicate n starve_period)) = Ok (set_walk wit_vigil 65536 q)).
  { induction n as [|n IH]; intros p Hp; [by exists p|]. cbn [replicate List.concat].
    destruct (IH 2 ltac:(by right)) as (q & Hq & E). exists q. split; [done|].
    rewrite dispatch_run_app, starve_round by done. cbn [rbind]. exact E. }
  destruct (Hgo 0 ltac:(by left)) as (q & _ & E). exists (set_walk wit_vigil 65536 q). split; [exact E|]. done.
Qed.
