(* ===== verification/Reclaim.v ===== *)
(** * Reclaim.v: the foreground and the publish stage share the regions

    Two threads run at the same time.  The foreground dispatches ops, takes the
    published region out of its slot, and writes the regions that it holds into
    ten cells under a sequence counter.  The publish stage puts new regions
    into the store, reads those cells between two equal even values of the
    counter, and releases what no holder names.  A step of the system is one
    access to what the threads share, with the private work around it:

    - the dispatch up to its publish_held_regions_ is one step: its only write
      to the slot is one exchange, and the loads before it only choose the
      branch;
    - each store of publish_held_regions_ and each load of mark_held_regions_
      is a step;
    - the sweep touches only what the publish stage owns.

    A rollback runs its job on the publish stage between two publications, and
    the foreground goes on with the region that the job restored. *)

From stdpp Require Import base list strings gmap sets.
From Stdlib Require Import ZArith Lia.
From S2P Require Import Prelude.
From S2P Require Import Types.
From S2P Require Import Arena.
From S2P Require Import Registry.
From S2P Require Import MemoryPlan.
From S2P Require Import PlanSweep.
From S2P Require Import PlanProofs.
From S2P Require Import Pool.
From S2P Require Import Replay.
From S2P Require Import Context.
From S2P Require Import ContextProofs.
From S2P Require Import MetaLog.
From S2P Require Import TraceRing.
From S2P Require Import RegionCache.
From S2P Require Import BuildTrace.
From S2P Require Import Vigil.
From S2P Require Import VigilProofs.
From S2P Require Import Transaction.
From S2P Require Import RegionStore.
#[local] Open Scope Z_scope.
#[local] Open Scope result_scope.

(** ** The system *)

(** Where the foreground is: outside its cold paths, after the job of a
    rollback with the region it restored, before publish_held_regions_, or in
    it with the cells below the index written. *)
Inductive fg_pc := FIdle | FRestored (restored : Z) | FCold | FWrite (i : nat).

(** Where the publish stage is: between two publications, before the region
    callback, after the publication of the slot, with the marks of the log and
    the slot, in mark_held_regions_ with the cells below the index read, or
    before the sweep. *)
Inductive bg_pc :=
| BIdle
| BCallback (addr : Z) (region : RegionNode)
| BPublished
| BMark (m : RegionMarks)
| BRead (m : RegionMarks) (before : Z) (i : nat) (read : RegionMarks)
| BSweep.

Record Sys := mkSys {
  s_fg : Vigil;
  s_seq : Z;                    (* held_regions_.sequence *)
  s_cells : list Z;             (* held_regions_.cells *)
  s_pub : Publisher;
  s_tx : TransactionLog;
  s_step : Z;
  s_loaded : list (Z * RegionNode);   (* the regions of the load arena *)
  s_fpc : fg_pc;
  s_bpc : bg_pc;
}.

Definition HELD_CAP : Z := 2 + RegionCache.CAP.

(** The node behind an address. *)
Fixpoint find_region (st : list RegionMemory) (a : Z) : option RegionNode :=
  match st with
  | [] => None
  | m :: st => if rm_addr m =? a then Some (rm_region m) else find_region st a
  end.

Fixpoint find_loaded (l : list (Z * RegionNode)) (a : Z) : option RegionNode :=
  match l with [] => None | (b, r) :: l => if b =? a then Some r else find_loaded l a end.

Definition nodes (st : list RegionMemory) (loaded : list (Z * RegionNode)) (a : Z) : option RegionNode :=
  if a =? 0 then None
  else match find_region st a with Some r => Some r | None => find_loaded loaded a end.

Definition s_heap (S : Sys) : Z -> option RegionNode := nodes (region_store_ (s_pub S)) (s_loaded S).

Definition set_fg (S : Sys) (V : Vigil) (pc : fg_pc) : Sys :=
  mkSys V (s_seq S) (s_cells S) (s_pub S) (s_tx S) (s_step S) (s_loaded S) pc (s_bpc S).
Definition set_held (S : Sys) (seq : Z) (cells : list Z) (pc : fg_pc) : Sys :=
  mkSys (s_fg S) seq cells (s_pub S) (s_tx S) (s_step S) (s_loaded S) pc (s_bpc S).
Definition set_bg (S : Sys) (B : Publisher) (pc : bg_pc) : Sys :=
  mkSys (s_fg S) (s_seq S) (s_cells S) B (s_tx S) (s_step S) (s_loaded S) (s_fpc S) pc.

Definition set_active_region (B : Publisher) (a : Z) : Publisher :=
  mkPub (region_store_ B) (last_published_ B) (owner_marks_ B) (regions_dropped_full_ B) (uncompiled_regions B) a.

Definition set_handed (m : RegionMarks) (a : Z) : RegionMarks := mkMarks (marks_held m) a (has_foreground m) (foreground_generation m).
Definition set_foreground (m : RegionMarks) (g : Z) : RegionMarks := mkMarks (marks_held m) (marks_handed m) true g.

(** The parts of a region that the build stage makes (BuildTheorems.v). *)
Record publishable (parts : BuiltRegion) : Prop := {
  pb_wf : Forall slot_wf (br_slots parts);
  pb_count : Z.of_nat (length (br_slots parts)) < 2 ^ 32;
  pb_bytes : aligned_total (br_slots parts) < 2 ^ 64;
  pb_ids : forall i s, br_slots parts !! i = Some s -> slot_id s = Z.of_nat i;
}.

Section System.
Context `{M : PoolMem} (rank world_size capability : Z).

(** *** The foreground *)

Inductive fg_step (S : Sys) : Sys -> Prop :=
| st_dispatch rq cold res V :
    s_fpc S = FIdle -> dispatch_op (s_heap S) (s_fg S) rq = Ok (cold, res, V) ->
    fg_step S (set_fg S V (if cold then FCold else FIdle))
| st_load a r V :
    s_fpc S = FIdle -> a <> 0 -> s_heap S a = None -> region_wf r ->
    load_region (nodes (region_store_ (s_pub S)) ((a, r) :: s_loaded S)) (s_fg S) a = Ok V ->
    fg_step S (mkSys V (s_seq S) (s_cells S) (set_active_region (s_pub S) a) (s_tx S) (s_step S) ((a, r) :: s_loaded S) FCold (s_bpc S))
| st_rollback n1 n2 L :
    s_fpc S = FIdle -> s_bpc S = BIdle -> tx_rollback (s_tx S) n1 n2 = (true, L) ->
    fg_step S (mkSys (s_fg S) (s_seq S) (s_cells S) (keep_region (s_pub S) (active_region_of L)) L (s_step S) (s_loaded S)
                 (FRestored (active_region_of L)) BIdle)
| st_restore r V :
    s_fpc S = FRestored r -> rollback_restore (s_heap S) (s_fg S) r = Ok V ->
    fg_step S (mkSys V (s_seq S) (s_cells S) (if r =? 0 then s_pub S else set_active_region (s_pub S) r) (s_tx S) (s_step S)
                 (s_loaded S) FCold (s_bpc S))
| st_write_begin :
    s_fpc S = FCold -> s_seq S + 2 < 2 ^ 64 -> fg_step S (set_held S (s_seq S + 1) (s_cells S) (FWrite 0))
| st_write_cell i a :
    s_fpc S = FWrite i -> held_regions (s_fg S) !! i = Some a ->
    fg_step S (set_held S (s_seq S) (<[i := a]> (s_cells S)) (FWrite (Datatypes.S i)))
| st_write_end i :
    s_fpc S = FWrite i -> Z.of_nat i = HELD_CAP -> fg_step S (set_held S (s_seq S + 1) (s_cells S) FIdle).

(** *** The publish stage *)

Inductive bg_step (S : Sys) : Sys -> Prop :=
| st_publish a parts region B L :
    s_bpc S = BIdle -> a <> 0 -> s_heap S a = None -> publishable parts ->
    publish_begin rank world_size capability (s_pub S) (v_meta (s_fg S)) a parts = Ok (Some region, B, L) ->
    bg_step S (mkSys (set_logs (s_fg S) (v_ring (s_fg S)) L) (s_seq S) (s_cells S) B (s_tx S) (s_step S) (s_loaded S) (s_fpc S)
                 (BCallback a region))
| st_discard a parts B L :
    s_bpc S = BIdle ->
    publish_begin rank world_size capability (s_pub S) (v_meta (s_fg S)) a parts = Ok (None, B, L) ->
    bg_step S (mkSys (set_logs (s_fg S) (v_ring (s_fg S)) L) (s_seq S) (s_cells S) B (s_tx S) (s_step S) (s_loaded S) (s_fpc S) BIdle)
| st_commit a region now L :
    s_bpc S = BCallback a region -> displacements (s_tx S) < UINT64_MAX ->
    tx_publish (s_tx S) (s_step S) a (region_content_hash region) (region_content_hash region) now = Ok L ->
    bg_step S (mkSys (set_slot (s_fg S) a) (s_seq S) (s_cells S) (s_pub S) L (s_step S + 1) (s_loaded S) (s_fpc S) BPublished)
| st_observe m :
    s_bpc S = BPublished -> hold_all no_marks (for_each_region (s_tx S)) = Ok m ->
    bg_step S (set_bg S (s_pub S) (BMark (set_handed m (pending_region_ (s_fg S)))))
| st_read_begin m :
    s_bpc S = BMark m -> Z.land (s_seq S) 1 = 0 -> bg_step S (set_bg S (s_pub S) (BRead m (s_seq S) 0 m))
| st_read_cell m before i read c read' :
    s_bpc S = BRead m before i read -> s_cells S !! i = Some c -> hold read c = Ok read' ->
    bg_step S (set_bg S (s_pub S) (BRead m before (Datatypes.S i) read'))
| st_read_done m before i read :
    s_bpc S = BRead m before i read -> Z.of_nat i = HELD_CAP -> s_seq S = before ->
    bg_step S (set_bg S (set_region_marks (s_pub S) (set_foreground read (before / 2))) BSweep)
| st_read_again m before i read :
    s_bpc S = BRead m before i read -> Z.of_nat i = HELD_CAP -> s_seq S <> before -> bg_step S (set_bg S (s_pub S) (BMark m))
| st_sweep : s_bpc S = BSweep -> bg_step S (set_bg S (sweep_regions_ (s_pub S)) BIdle)
| st_drain R L : bg_step S (mkSys (set_logs (s_fg S) R L) (s_seq S) (s_cells S) (s_pub S) (s_tx S) (s_step S) (s_loaded S) (s_fpc S) (s_bpc S)).

Definition new_vigil (w : world) (m : mem) : Vigil :=
  mkVigil new_context 0 new_region_cache 0 0 MODE_RECORDING 0 false new_ring new_metalog w m.

Definition new_sys (w : world) (m : mem) : Sys :=
  mkSys (new_vigil w m) 0 (replicate 10 0) new_publisher new_txlog 0 [] FIdle BIdle.

Inductive sys_reach (w : world) (m : mem) : Sys -> Prop :=
| sr_new : sys_reach w m (new_sys w m)
| sr_fg S S' : sys_reach w m S -> fg_step S S' -> sys_reach w m S'
| sr_bg S S' : sys_reach w m S -> bg_step S S' -> sys_reach w m S'.
End System.
