(* ===== verification/ReclaimProofs.v ===== *)
(** * ReclaimProofs.v: no region is released while it can be read

    The invariant of the system of Reclaim.v.  A region that left the view of
    the foreground carries the generation of the sweep that saw it leave; the
    foreground holds such a region only if a write after that generation named
    it, or no write is complete since. *)

From stdpp Require Import base list strings gmap sets.
From Stdlib Require Import ZArith Lia.
From S2P Require Import Prelude.
From S2P Require Import Types.
From S2P Require Import Arena.
From S2P Require Import Registry.
From S2P Require Import MemoryPlan.
From S2P Require Import PlanSweep.
From S2P Require Import PlanProofs.
From S2P Require Import Pool.
From S2P Require Import Replay.
From S2P Require Import Context.
From S2P Require Import ContextProofs.
From S2P Require Import MetaLog.
From S2P Require Import TraceRing.
From S2P Require Import RegionCache.
From S2P Require Import BuildTrace.
From S2P Require Import Vigil.
From S2P Require Import VigilProofs.
From S2P Require Import Transaction.
From S2P Require Import RegionStore.
From S2P Require Import Reclaim.
#[local] Open Scope Z_scope.
#[local] Open Scope result_scope.

(** ** The store *)

(** No two slots have one address. *)
Definition unique_addrs (st : list RegionMemory) : Prop :=
  forall i j m n, st !! i = Some m -> st !! j = Some n -> rm_addr m = rm_addr n -> rm_addr m <> 0 -> i = j.

Lemma find_region_none st a : a <> 0 -> find_region st a = None -> forall m, m ∈ st -> rm_addr m <> a.
Proof.
  intros Ha. induction st as [|m st IH]; intros E n Hn; [by apply elem_of_nil in Hn|]. cbn [find_region] in E.
  destruct (Z.eqb_spec (rm_addr m) a); [done|]. apply elem_of_cons in Hn as [->|Hn]; auto.
Qed.

Lemma find_region_some st a r : find_region st a = Some r -> exists m, m ∈ st /\ rm_addr m = a /\ rm_region m = r.
Proof.
  induction st as [|m st IH]; cbn [find_region]; [done|]. destruct (Z.eqb_spec (rm_addr m) a).
  - intros [= <-]. exists m. split; [by left|done].
  - intros E. destruct (IH E) as (n' & Hn & ?). exists n'. split; [by right|done].
Qed.

Lemma find_region_in st m : unique_addrs st -> m ∈ st -> rm_addr m <> 0 -> find_region st (rm_addr m) = Some (rm_region m).
Proof.
  intros Hu Hm Ha. destruct (find_region st (rm_addr m)) as [r|] eqn:E; [|by eapply find_region_none in E].
  destruct (find_region_some _ _ _ E) as (n & Hn & Hna & <-). apply list_elem_of_lookup in Hm as [i Hi], Hn as [j Hj].
  assert (i = j) as -> by (eapply (Hu i j); eauto). by simplify_eq.
Qed.

(** A store whose slots changed one by one, keeping or freeing their region. *)
Lemma mapped_unique st f :
  unique_addrs st -> (forall m, m ∈ st -> rm_addr (f m) = rm_addr m \/ rm_addr (f m) = 0) -> unique_addrs (f <$> st).
Proof.
  intros Hu Hf i j m n Hi Hj E Ha. rewrite list_lookup_fmap in Hi, Hj.
  destruct (st !! i) as [m0|] eqn:Hi0; [|done]. destruct (st !! j) as [n0|] eqn:Hj0; [|done]. injection Hi as <-. injection Hj as <-.
  apply (Hu i j m0 n0); auto; pose proof (Hf m0 ltac:(by eapply list_elem_of_lookup_2)); pose proof (Hf n0 ltac:(by eapply list_elem_of_lookup_2)); lia.
Qed.

Lemma keep_in_elem region st m : m ∈ keep_in region st -> exists n, n ∈ st /\ rm_addr n = rm_addr m /\ rm_region n = rm_region m /\
  (m = n \/ left_generation m = NOT_LEFT).
Proof.
  induction st as [|n st IH]; cbn [keep_in]; [by intros ?%elem_of_nil|].
  destruct (rm_addr n =? 0); [|destruct (rm_addr n =? region)]; intros Hm; apply elem_of_cons in Hm as [->|Hm];
    try (exists n; split; [by left|]; cbn; auto; fail); try (destruct (IH Hm) as (n' & ? & ?); exists n'; split; [by right|done]).
  exists m. split; [by right|auto].
Qed.

Lemma keep_in_lookup region st i m : keep_in region st !! i = Some m -> exists n, st !! i = Some n /\ rm_addr n = rm_addr m /\ rm_region n = rm_region m.
Proof.
  revert i. induction st as [|n st IH]; intros i Hi; cbn [keep_in] in Hi; [done|].
  destruct (rm_addr n =? 0); [|destruct (rm_addr n =? region)]; destruct i as [|i]; cbn in *; simplify_eq/=; eauto.
Qed.

Lemma keep_in_kept region st m : unique_addrs st -> m ∈ keep_in region st -> rm_addr m = region -> region <> 0 -> left_generation m = NOT_LEFT.
Proof.
  intros Hu. induction st as [|n st IH]; cbn [keep_in]; intros Hm Ha Hr; [by apply elem_of_nil in Hm|].
  assert (Hu' : unique_addrs st) by (intros i j x y Hi Hj E H0; assert (S i = S j) by (eapply (Hu (S i) (S j)); eauto); lia).
  destruct (Z.eqb_spec (rm_addr n) 0) as [E0|E0]; [apply elem_of_cons in Hm as [->|Hm]; [congruence|auto]|].
  destruct (Z.eqb_spec (rm_addr n) region) as [E1|E1]; apply elem_of_cons in Hm as [->|Hm]; auto; try congruence.
  exfalso. apply list_elem_of_lookup in Hm as [i Hi]. assert (0%nat = S i) by (eapply (Hu 0%nat (S i)); eauto; congruence). lia.
Qed.

Lemma keep_in_find region st a : find_region (keep_in region st) a = find_region st a.
Proof.
  induction st as [|m st IH]; cbn [keep_in find_region]; [done|].
  destruct (rm_addr m =? 0); [|destruct (rm_addr m =? region)]; cbn [find_region rm_addr rm_region]; destruct (rm_addr m =? a); auto.
Qed.

Lemma free_index_spec st i : free_index st = Some i -> exists m, st !! i = Some m /\ rm_addr m = 0.
Proof.
  revert i. induction st as [|m st IH]; intros i E; cbn [free_index] in E; [done|]. destruct (Z.eqb_spec (rm_addr m) 0).
  - injection E as <-. by exists m.
  - destruct (free_index st) as [j|]; [|done]. injection E as <-. by apply IH.
Qed.

(** A new region in a free slot. *)
Lemma find_region_insert st i m0 a r : unique_addrs st -> st !! i = Some m0 -> rm_addr m0 = 0 -> a <> 0 -> find_region st a = None ->
  unique_addrs (<[i := mkMem a r NOT_LEFT]> st) /\
  forall b, b <> 0 -> find_region (<[i := mkMem a r NOT_LEFT]> st) b = if decide (b = a) then Some r else find_region st b.
Proof.
  intros Hu Hi H0 Ha Hf. pose proof (lookup_lt_Some _ _ _ Hi) as Hlt. pose proof (find_region_none st a Ha Hf) as Hnone.
  assert (Hu' : unique_addrs (<[i := mkMem a r NOT_LEFT]> st)).
  { intros j k m n Hj Hk E Hm. apply list_lookup_insert_Some in Hj as [(-> & <- & _)|(Nj & Hj)], Hk as [(-> & <- & _)|(Nk & Hk)]; cbn in *.
    - done.
    - exfalso. apply (Hnone n); [by eapply list_elem_of_lookup_2|done].
    - exfalso. apply (Hnone m); [by eapply list_elem_of_lookup_2|done].
    - by eapply (Hu j k). }
  split; [done|]. intros b Hb. case_decide as Hba.
  - subst b. apply (find_region_in _ (mkMem a r NOT_LEFT) Hu'); [|done]. eapply list_elem_of_lookup_2. by apply list_lookup_insert_eq.
  - destruct (find_region st b) as [r'|] eqn:E.
    + destruct (find_region_some _ _ _ E) as (m & Hm & <- & <-). apply find_region_in; [done| |done].
      apply list_elem_of_lookup in Hm as [j Hj]. apply (list_elem_of_lookup_2 _ j). rewrite list_lookup_insert_ne; [done|]. intros ->. congruence.
    + destruct (find_region (<[i := _]> st) b) as [r'|] eqn:E2; [|done]. destruct (find_region_some _ _ _ E2) as (m & Hm & <- & _).
      apply list_elem_of_lookup in Hm as [j Hj]. apply list_lookup_insert_Some in Hj as [(-> & <- & _)|(_ & Hj)]; [done|].
      exfalso. apply (find_region_none st (rm_addr m) Hb E m); [by eapply list_elem_of_lookup_2|done].
Qed.

(** ** The invariant *)

(** What the foreground can read: what it holds, and the region of a rollback
    in progress. *)
Definition fg_uses (S : Sys) (a : Z) : Prop := fg_holds (s_fg S) a \/ (a <> 0 /\ s_fpc S = FRestored a).

Definition is_writing (S : Sys) : Prop := match s_fpc S with FWrite _ => True | _ => False end.

Definition generation (S : Sys) : Z := s_seq S / 2.

(** The marks before the cells are read: they name the slot and the log. *)
Record marks_base (S : Sys) (m : RegionMarks) : Prop := {
  mb_slot : pending_region_ (s_fg S) = 0 \/ pending_region_ (s_fg S) = marks_handed m;
  mb_tx : forall a, a ∈ for_each_region (s_tx S) -> a ∈ marks_held m;
}.

Definition fpc_ok (S : Sys) : Prop :=
  match s_fpc S with
  | FIdle => Z.Even (s_seq S) /\ s_cells S = held_regions (s_fg S)
  | FRestored _ | FCold => Z.Even (s_seq S)
  | FWrite i => Z.Odd (s_seq S) /\ s_seq S + 1 < 2 ^ 64 /\ (i <= 10)%nat /\ take i (s_cells S) = take i (held_regions (s_fg S))
  end.

Record read_ok (S : Sys) (m : RegionMarks) (before : Z) (i : nat) (read : RegionMarks) : Prop := {
  ro_base : marks_base S m;
  ro_small : (length (marks_held m) <= 16)%nat;
  ro_handed : marks_handed read = marks_handed m;
  ro_more : forall a, a ∈ marks_held m -> a ∈ marks_held read;
  ro_len : (length (marks_held read) <= 16 + i)%nat;
  ro_i : (i <= 10)%nat;
  ro_before : Z.Even before /\ 0 <= before <= s_seq S;
  ro_cells : s_seq S = before -> forall c, c ∈ take i (s_cells S) -> c <> 0 -> c ∈ marks_held read;
}.

Record sweep_ok (S : Sys) (m : RegionMarks) : Prop := {
  so_base : marks_base S m;
  so_fg : has_foreground m = true;
  so_gen : foreground_generation m <= generation S /\ foreground_generation m <> NOT_LEFT;
  so_named : forall x, x ∈ region_store_ (s_pub S) -> rm_addr x <> 0 -> fg_uses S (rm_addr x) ->
    rm_addr x ∈ marks_held m \/ rm_addr x = marks_handed m \/ left_generation x = NOT_LEFT \/ foreground_generation m <= left_generation x;
  so_late : ~ is_writing S -> forall x, x ∈ region_store_ (s_pub S) -> rm_addr x <> 0 -> fg_uses S (rm_addr x) ->
    rm_addr x ∈ s_cells S \/ rm_addr x = marks_handed m \/ generation S <= foreground_generation m;
}.

Definition bpc_ok (S : Sys) : Prop :=
  match s_bpc S with
  | BIdle | BPublished => True
  | BCallback a region => a <> 0 /\ s_heap S a = Some region /\
      forall x, x ∈ region_store_ (s_pub S) -> rm_addr x = a -> left_generation x = NOT_LEFT
  | BMark m => marks_base S m /\ (length (marks_held m) <= 16)%nat
  | BRead m before i read => read_ok S m before i read
  | BSweep => sweep_ok S (owner_marks_ (s_pub S))
  end.

Definition left_ok (S : Sys) : Prop :=
  forall x, x ∈ region_store_ (s_pub S) -> rm_addr x <> 0 -> left_generation x <> NOT_LEFT ->
    pending_region_ (s_fg S) <> rm_addr x /\
    (~ is_writing S -> fg_uses S (rm_addr x) -> rm_addr x ∈ s_cells S \/ generation S <= left_generation x).

Record sys_inv `{M : PoolMem} (S : Sys) : Prop := {
  iv_unique : unique_addrs (region_store_ (s_pub S));
  iv_loaded : forall a r, (a, r) ∈ s_loaded S -> a <> 0 /\ find_region (region_store_ (s_pub S)) a = None;
  iv_wf : heap_wf (s_heap S);
  iv_vigil : vigil_ok (s_heap S) (s_fg S);
  iv_restored : forall a, a <> 0 -> s_fpc S = FRestored a -> is_Some (s_heap S a);
  iv_log : exists st, log_stack (s_tx S) st;
  iv_tx : forall a, a ∈ for_each_region (s_tx S) -> is_Some (s_heap S a);
  iv_uq : uq_ok (uncompiled_regions (s_pub S));
  iv_queue : forall a, a ∈ uq_list (uncompiled_regions (s_pub S)) -> is_Some (s_heap S a);
  iv_seq : 0 <= s_seq S < 2 ^ 64 /\ length (s_cells S) = 10%nat;
  iv_fpc : fpc_ok S;
  iv_left : left_ok S;
  iv_bpc : bpc_ok S;
}.

Lemma vigil_live `{M : PoolMem} H V a : vigil_ok H V -> fg_holds V a -> is_Some (H a).
Proof.
  intros [A1 A2 A3 A4 A5 A6 A7] Ha. apply fg_holds_iff in Ha as [Hne [->|[->|Hin]]].
  - destruct (A5 Hne) as (r & -> & _). eauto.
  - destruct (ctx_is_compiled V) eqn:Ec; [|done]. destruct A2 as [_ ->]. apply compiled_iff in Ec. unfold ctx_ok in A1. rewrite Ec in A1.
    destruct A1 as (r & ? & ? & ? & -> & _). eauto.
  - destruct A6 as (l & Hl & He). apply (cache_addrs _ _ _ Hl Hne) in Hin as (e & Hin & <-). destruct (He e Hin) as (r & -> & _). eauto.
Qed.

(** The foreground depends on the nodes that it names. *)
Lemma vigil_ok_heap `{M : PoolMem} H H' V :
  vigil_ok H V -> (forall a, fg_holds V a \/ (a <> 0 /\ a = pending_region_ V) -> H' a = H a) -> vigil_ok H' V.
Proof.
  intros HV Heq. pose proof HV as [A1 A2 A3 A4 A5 A6 A7]. split; auto.
  - destruct (ctx_is_compiled V); [|done]. destruct A2 as [Hne E]. split; [done|]. rewrite Heq; [done|]. left. apply fg_holds_iff. auto.
  - intros Hp. destruct (A5 Hp) as (r & Hr & Hlt). exists r. split; [|done]. rewrite Heq; [done|]. left. apply fg_holds_iff. auto.
  - destruct A6 as (l & Hl & He). exists l. split; [done|]. intros e Hin. destruct (He e Hin) as (r & Hr & ?). exists r. split; [|done].
    assert (re_addr e <> 0) as Hne by (apply list_elem_of_lookup in Hin as [i Hi]; apply (rp_holds _ _ Hl i e Hi)).
    rewrite Heq; [done|]. left. apply fg_holds_iff. split; [done|]. do 2 right. apply (cache_addrs _ _ _ Hl Hne). eauto.
  - intros Hs. rewrite Heq by auto. auto.
Qed.

Lemma new_sys_inv `{M : PoolMem} w m : sys_inv (new_sys w m).
Proof.
  assert (Hst : forall x, x ∈ region_store_ (s_pub (new_sys w m)) -> x = free_memory) by (intros x Hx; by apply elem_of_replicate_inv in Hx).
  assert (Hh : forall a, s_heap (new_sys w m) a = None).
  { intros a. unfold s_heap, nodes. destruct (Z.eqb_spec a 0); [done|]. destruct (find_region _ a) as [r|] eqn:E; [|done].
    destruct (find_region_some _ _ _ E) as (x & Hx & <- & _). by rewrite (Hst x Hx) in *. }
  split.
  - intros i j x y Hi _ _ Hx. apply list_elem_of_lookup_2 in Hi. by rewrite (Hst x Hi) in Hx.
  - intros a r Hin. by apply elem_of_nil in Hin.
  - intros a r E. by rewrite Hh in E.
  - split; try done. exists []. split; [apply rep_new|]. intros e He. by apply elem_of_nil in He.
  - done.
  - exists []. apply log_stack_new.
  - intros a Ha. by apply elem_of_nil in Ha.
  - apply uq_ok_new.
  - intros a Ha. by apply elem_of_nil in Ha.
  - done.
  - split; [by exists 0|vm_compute; reflexivity].
  - intros x Hx Hne. by rewrite (Hst x Hx) in Hne.
  - exact I.
Qed.

(** ** The foreground *)

(** A step of the foreground outside publish_held_regions_. *)
Record local_step (S : Sys) (S' : Sys) : Prop := {
  lc_from : s_fpc S = FIdle \/ exists r, s_fpc S = FRestored r;
  lc_to : s_fpc S' = FIdle /\ s_fpc S = FIdle /\ held_regions (s_fg S') = held_regions (s_fg S) \/ s_fpc S' = FCold;
  lc_seq : s_seq S' = s_seq S;
  lc_cells : s_cells S' = s_cells S;
  lc_store : region_store_ (s_pub S') = region_store_ (s_pub S);
  lc_marks : owner_marks_ (s_pub S') = owner_marks_ (s_pub S);
  lc_uq : uncompiled_regions (s_pub S') = uncompiled_regions (s_pub S);
  lc_tx : s_tx S' = s_tx S;
  lc_bpc : s_bpc S' = s_bpc S;
  lc_loaded : forall a r, (a, r) ∈ s_loaded S' -> a <> 0 /\ find_region (region_store_ (s_pub S)) a = None;
  lc_heap : forall a, is_Some (s_heap S a) -> s_heap S' a = s_heap S a;
  lc_wf : heap_wf (s_heap S');
  lc_slot : pending_region_ (s_fg S') = pending_region_ (s_fg S) \/ pending_region_ (s_fg S') = 0;
  lc_holds : forall a, fg_holds (s_fg S') a ->
    fg_uses S a \/ a = pending_region_ (s_fg S) \/ find_region (region_store_ (s_pub S)) a = None;
}.

Lemma in_store_found st x : unique_addrs st -> x ∈ st -> rm_addr x <> 0 -> find_region st (rm_addr x) <> None.
Proof. intros Hu Hx Hn. by rewrite (find_region_in st x Hu Hx Hn). Qed.

(** Before the step, what the foreground uses of the store is in the cells or
    is the region of the rollback. *)
Lemma local_marks S S' m : local_step S S' -> marks_base S m -> marks_base S' m.
Proof.
  intros HL [Hs Ht]. split; [|by rewrite (lc_tx _ _ HL)]. destruct (lc_slot _ _ HL) as [->| ->]; auto.
Qed.

Lemma local_uses `{M : PoolMem} S S' x : local_step S S' -> sys_inv S -> x ∈ region_store_ (s_pub S) -> rm_addr x <> 0 ->
  fg_uses S' (rm_addr x) -> fg_uses S (rm_addr x) \/ rm_addr x = pending_region_ (s_fg S).
Proof.
  intros HL HI Hx Hne [Hh|[_ Hp]].
  - destruct (lc_holds _ _ HL _ Hh) as [?|[?|Hn]]; auto. exfalso. by apply (in_store_found _ x (iv_unique _ HI) Hx Hne).
  - destruct (lc_to _ _ HL) as [(E & _)|E]; congruence.
Qed.

Lemma local_not_writing S S' : local_step S S' -> ~ is_writing S.
Proof. intros HL. unfold is_writing. destruct (lc_from _ _ HL) as [->|[r ->]]; tauto. Qed.

Lemma local_inv `{M : PoolMem} S S' : sys_inv S -> local_step S S' -> vigil_ok (s_heap S') (s_fg S') -> sys_inv S'.
Proof.
  intros HI HL HV. pose proof HL as [L1 L2 L3 L4 L5 L6 L7 L8 L9 L10 L11 L12 L13 L14].
  assert (Hlive : forall a, is_Some (s_heap S a) -> is_Some (s_heap S' a)) by (intros a Ha; by rewrite L11).
  pose proof (local_not_writing _ _ HL) as Hnw.
  split; rewrite ?L5, ?L7, ?L8; auto.
  - apply HI.
  - intros a Hne E. destruct L2 as [(E2 & _)|E2]; congruence.
  - apply HI.
  - intros a Ha. apply Hlive, (iv_tx _ HI), Ha.
  - apply HI.
  - intros a Ha. apply Hlive, (iv_queue _ HI), Ha.
  - rewrite L3, L4. apply HI.
  - pose proof (iv_fpc _ HI) as Hf. unfold fpc_ok in *. rewrite L3, L4. destruct L2 as [(-> & E & ->)| ->]; [by rewrite E in Hf|].
    destruct L1 as [E|[r E]]; rewrite E in Hf; tauto.
  - intros x Hx Hne Hl. rewrite L5 in Hx. destruct (iv_left _ HI x Hx Hne Hl) as [H1 H2]. split; [destruct L13 as [->| ->]; congruence|].
    intros _ Hu. unfold generation. rewrite L3, L4. destruct (local_uses S S' x HL HI Hx Hne Hu) as [Hu'|E]; [by apply H2|congruence].
  - pose proof (iv_bpc _ HI) as Hb. unfold bpc_ok in *. rewrite L9. destruct (s_bpc S); auto.
    + destruct Hb as (H1 & H2 & H3). rewrite L5. split_and!; [done| |done]. rewrite L11; [done|]. eauto.
    + destruct Hb as [H1 H2]. split; [by eapply local_marks|done].
    + destruct Hb as [H1 H2 H3 H4 H5 H6 H7 H8]. split; auto; [by eapply local_marks|by rewrite L3|by rewrite L3, L4].
    + rewrite L6. destruct Hb as [H1 H2 H3 H4 H5]. destruct H1 as [Hs Ht].
      assert (Hhand : forall x, x ∈ region_store_ (s_pub S) -> rm_addr x <> 0 -> rm_addr x = pending_region_ (s_fg S) -> rm_addr x = marks_handed (owner_marks_ (s_pub S)))
        by (intros x Hx Hne E; destruct Hs as [Hs|Hs]; congruence).
      split; auto; [eapply local_marks; [exact HL|by split]|unfold generation; by rewrite L3| |].
      * rewrite L5. intros x Hx Hne Hu. destruct (local_uses S S' x HL HI Hx Hne Hu) as [Hu'|E]; auto.
      * rewrite L5. intros _ x Hx Hne Hu. unfold generation. rewrite L3, L4. destruct (local_uses S S' x HL HI Hx Hne Hu) as [Hu'|E]; [by apply H5|auto].
Qed.

Lemma nodes_load st loaded a r b : a <> 0 -> nodes st loaded a = None ->
  nodes st ((a, r) :: loaded) b = if decide (b = a) then Some r else nodes st loaded b.
Proof.
  intros Ha Hn. unfold nodes in *. rewrite (proj2 (Z.eqb_neq _ _) Ha) in Hn. destruct (find_region st a) eqn:E; [done|].
  destruct (Z.eqb_spec b 0) as [->|Hb]; [by rewrite decide_False by congruence|]. cbn [find_loaded].
  case_decide as Hd; [subst b; by rewrite E, Z.eqb_refl|]. destruct (find_region st b); [done|]. by rewrite (proj2 (Z.eqb_neq a b)) by congruence.
Qed.

Section Steps.
Context `{M : PoolMem} {HM : PoolMemOk M} (rank world_size capability : Z).
#[local] Set Default Proof Using "HM".

Lemma dispatch_inv S rq cold res V :
  sys_inv S -> s_fpc S = FIdle -> dispatch_op (s_heap S) (s_fg S) rq = Ok (cold, res, V) ->
  sys_inv (set_fg S V (if cold then FCold else FIdle)).
Proof.
  intros HI Hpc E. destruct (dispatch_ok (s_heap S) (iv_wf _ HI) _ _ _ _ _ (iv_vigil _ HI) E) as (HV & [T1 T2] & Hcold).
  apply (local_inv S); [done| |done]. split; cbn; auto.
  - destruct cold; [by right|left]. destruct (Hcold eq_refl). done.
  - apply HI.
  - apply HI.
  - intros a Ha. destruct (T1 a Ha) as [?|?]; [left; by left|auto].
Qed.

Lemma load_inv S a r V :
  sys_inv S -> s_fpc S = FIdle -> a <> 0 -> s_heap S a = None -> region_wf r ->
  load_region (nodes (region_store_ (s_pub S)) ((a, r) :: s_loaded S)) (s_fg S) a = Ok V ->
  sys_inv (mkSys V (s_seq S) (s_cells S) (set_active_region (s_pub S) a) (s_tx S) (s_step S) ((a, r) :: s_loaded S) FCold (s_bpc S)).
Proof.
  intros HI Hpc Ha Hn Hr E. set (H' := nodes (region_store_ (s_pub S)) ((a, r) :: s_loaded S)) in *.
  assert (HH : forall b, H' b = if decide (b = a) then Some r else s_heap S b) by (intros; by apply nodes_load).
  assert (Hsame : forall b, is_Some (s_heap S b) -> H' b = s_heap S b) by (intros b [x Hb]; rewrite HH; case_decide; [subst b; congruence|done]).
  assert (HW : heap_wf H') by (intros b x Hb; rewrite HH in Hb; case_decide; [by injection Hb as <-|by eapply (iv_wf _ HI)]).
  assert (HV0 : vigil_ok H' (s_fg S)).
  { apply (vigil_ok_heap (s_heap S)); [apply HI|]. intros b [Hb|[Hb ->]]; apply Hsame; [eapply vigil_live; [apply HI|done]|by apply (vo_slot _ _ (iv_vigil _ HI))]. }
  destruct (load_ok H' HW _ _ _ HV0 E) as (HV & Hs & Hh).
  assert (Hnf : find_region (region_store_ (s_pub S)) a = None).
  { unfold s_heap, nodes in Hn. rewrite (proj2 (Z.eqb_neq _ _) Ha) in Hn. by destruct (find_region _ a). }
  apply (local_inv S); [done| |exact HV]. split; cbn; auto.
  - intros b x Hin. apply elem_of_cons in Hin as [[= -> ->]|Hin]; [done|by apply (iv_loaded _ HI) in Hin].
  - intros b Hb. destruct (Hh b Hb) as [?| ->]; [left; by left|auto].
Qed.

Lemma restore_inv S r V :
  sys_inv S -> s_fpc S = FRestored r -> rollback_restore (s_heap S) (s_fg S) r = Ok V ->
  sys_inv (mkSys V (s_seq S) (s_cells S) (if r =? 0 then s_pub S else set_active_region (s_pub S) r) (s_tx S) (s_step S) (s_loaded S) FCold (s_bpc S)).
Proof.
  intros HI Hpc E. destruct (restore_ok (s_heap S) (iv_wf _ HI) _ _ _ (iv_vigil _ HI) E) as (HV & Hs & Hh).
  set (B := if r =? 0 then s_pub S else set_active_region (s_pub S) r).
  assert (HB : region_store_ B = region_store_ (s_pub S) /\ owner_marks_ B = owner_marks_ (s_pub S) /\ uncompiled_regions B = uncompiled_regions (s_pub S))
    by (subst B; by destruct (r =? 0)).
  destruct HB as (B1 & B2 & B3).
  assert (HH : forall a, s_heap (mkSys V (s_seq S) (s_cells S) B (s_tx S) (s_step S) (s_loaded S) FCold (s_bpc S)) a = s_heap S a)
    by (intros a; unfold s_heap; cbn; by rewrite B1).
  apply (local_inv S); [done| |]; cycle 1.
  { eapply vigil_ok_heap; [exact HV|]. intros a _. by rewrite HH. }
  split; cbn; auto.
  - right. by exists r.
  - apply HI.
  - intros a x Hx. rewrite HH in Hx. by eapply (iv_wf _ HI).
  - intros a Ha. destruct (Hh a Ha) as [?| ->]; left; [by left|right]. by destruct Ha.
Qed.

Lemma rollback_inv S n1 n2 L :
  sys_inv S -> s_fpc S = FIdle -> s_bpc S = BIdle -> tx_rollback (s_tx S) n1 n2 = (true, L) ->
  sys_inv (mkSys (s_fg S) (s_seq S) (s_cells S) (keep_region (s_pub S) (active_region_of L)) L (s_step S) (s_loaded S) (FRestored (active_region_of L)) BIdle).
Proof.
  intros HI Hpc Hb E. destruct (iv_log _ HI) as [st HL]. destruct (tx_rollback_regions _ _ _ _ _ _ HL E) as (st' & HL' & Hreg).
  set (r := active_region_of L) in *.
  assert (HH : forall a, nodes (keep_in r (region_store_ (s_pub S))) (s_loaded S) a = s_heap S a) by (intros a; unfold s_heap, nodes; by rewrite keep_in_find).
  set (S' := mkSys _ _ _ _ _ _ _ _ _). assert (HH' : forall a, s_heap S' a = s_heap S a) by (intros a; apply HH).
  split; cbn [s_pub s_fg s_tx s_loaded s_seq s_cells S']; try (change (uncompiled_regions (keep_region _ _)) with (uncompiled_regions (s_pub S))).
  - intros i j x y Hi Hj. apply keep_in_lookup in Hi as (x' & Hi & <- & _), Hj as (y' & Hj & <- & _). by apply (iv_unique _ HI).
  - intros a x Hin. cbn. rewrite keep_in_find. by apply (iv_loaded _ HI) in Hin.
  - intros a x Hx. rewrite HH' in Hx. by eapply (iv_wf _ HI).
  - eapply vigil_ok_heap; [apply HI|]. intros a _. by rewrite HH'.
  - intros a Ha Epc. cbn in Epc. injection Epc as <-. rewrite HH'. apply (iv_tx _ HI), Hreg. by apply (active_region_logged L st').
  - by exists st'.
  - intros a Ha. rewrite HH'. apply (iv_tx _ HI), Hreg, Ha.
  - apply HI.
  - intros a Ha. rewrite HH'. by apply (iv_queue _ HI).
  - apply HI.
  - pose proof (iv_fpc _ HI) as Hf. unfold fpc_ok in *. rewrite Hpc in Hf. apply Hf.
  - intros x Hx Hne Hl. cbn [S' s_pub keep_region set_store region_store_] in Hx. apply keep_in_elem in Hx as Hx'. destruct Hx' as (y & Hy & Ea & _ & [->|?]); [|done].
    destruct (iv_left _ HI y Hy Hne Hl) as [H1 H2]. split; [done|]. intros _ [Hu|[_ Hu]].
    + apply H2; [unfold is_writing; rewrite Hpc; tauto|by left].
    + exfalso. apply Hl. cbn in Hu. injection Hu as Hu. apply (keep_in_kept r (region_store_ (s_pub S))); [apply HI|done|done|congruence].
  - exact I.
Qed.

Lemma held_length V : length (held_regions V) = 10%nat.
Proof. unfold held_regions. cbn [length]. by rewrite length_fmap, length_seqZ. Qed.

(** A step of publish_held_regions_: only the cells and the counter change. *)
Lemma held_inv S seq cells pc :
  sys_inv S -> s_seq S <= seq < 2 ^ 64 -> length cells = 10%nat -> (forall r, pc <> FRestored r) -> (forall r, s_fpc S <> FRestored r) ->
  fpc_ok (set_held S seq cells pc) ->
  (seq = s_seq S -> Z.Odd seq) ->
  (match pc with FWrite _ => True | _ => cells = held_regions (s_fg S) end) ->
  sys_inv (set_held S seq cells pc).
Proof.
  intros HI Hseq Hlen Hpc0 Hpc1 Hf Hodd Hw.
  assert (Huses : forall a, fg_uses (set_held S seq cells pc) a -> fg_holds (s_fg S) a) by (intros a [Ha|[_ Ha]]; [done|by destruct (Hpc0 a)]).
  assert (Huses1 : forall a, fg_uses (set_held S seq cells pc) a -> fg_uses S a) by (intros a Ha; left; auto).
  assert (Hin : ~ is_writing (set_held S seq cells pc) -> forall a, fg_uses (set_held S seq cells pc) a -> a ∈ cells).
  { intros Hnw a Ha. unfold is_writing in Hnw. cbn in Hnw. destruct pc; try (rewrite Hw; by destruct (Huses a Ha)). tauto. }
  split; try apply HI; auto.
  - intros a _ E. cbn in E. by destruct (Hpc0 a).
  - split; [pose proof (iv_seq _ HI); cbn; lia|done].
  - intros x Hx Hne Hl. destruct (iv_left _ HI x Hx Hne Hl) as [H1 _]. split; [done|]. intros Hnw Hu. left. by apply Hin.
  - pose proof (iv_bpc _ HI) as Hb. unfold bpc_ok in *. cbn [set_held s_bpc]. destruct (s_bpc S); auto.
    + destruct Hb as [[H1 H2] H3]. by split.
    + destruct Hb as [[Ha Hb] H2 H3 H4 H5 H6 [H7 H7'] H8]. split; [by split|done|done|done|done|done|split; [done|cbn; lia]|].
      cbn. intros E. assert (seq = s_seq S) as E2 by lia. exfalso. specialize (Hodd E2). subst before. apply (Z.Even_Odd_False seq); [done|by rewrite E2 in *].
    + destruct Hb as [[Ha Hb] H2 [H3 H3'] H4 H5]. split; [by split|done| |intros x Hx Hne Hu; apply H4; auto|].
      * split; [|done]. etransitivity; [exact H3|]. unfold generation. cbn. apply Z.div_le_mono; lia.
      * intros Hnw x Hx Hne Hu. left. by apply Hin.
Qed.

Lemma write_begin_inv S : sys_inv S -> s_fpc S = FCold -> s_seq S + 2 < 2 ^ 64 -> sys_inv (set_held S (s_seq S + 1) (s_cells S) (FWrite 0)).
Proof.
  intros HI Hpc Hlt. pose proof (iv_fpc _ HI) as Hf. unfold fpc_ok in Hf. rewrite Hpc in Hf. apply held_inv; auto; try lia; try congruence; try done.
  - apply HI.
  - cbn. split_and!; [|lia|lia|done]. destruct Hf as [k Hk]. exists k. lia.
Qed.

Lemma write_cell_inv S i a :
  sys_inv S -> s_fpc S = FWrite i -> held_regions (s_fg S) !! i = Some a -> sys_inv (set_held S (s_seq S) (<[i := a]> (s_cells S)) (FWrite (Datatypes.S i))).
Proof.
  intros HI Hpc Ha. pose proof (iv_fpc _ HI) as Hf. unfold fpc_ok in Hf. rewrite Hpc in Hf. destruct Hf as (Ho & Hmax & Hi & Et).
  pose proof (lookup_lt_Some _ _ _ Ha) as Hlt. rewrite held_length in Hlt. pose proof (iv_seq _ HI) as [Hs Hl].
  apply held_inv; auto; try lia; try congruence; try done.
  - by rewrite length_insert.
  - unfold fpc_ok. cbn [set_held s_fpc s_seq s_cells s_fg]. split_and!; [done|done|lia|].
    rewrite (take_S_r (<[i := a]> (s_cells S)) i a), (take_S_r (held_regions (s_fg S)) i a) by (auto; apply list_lookup_insert_eq; lia).
    by rewrite take_insert_ge, Et by lia.
Qed.

Lemma write_end_inv S i : sys_inv S -> s_fpc S = FWrite i -> Z.of_nat i = HELD_CAP -> sys_inv (set_held S (s_seq S + 1) (s_cells S) FIdle).
Proof.
  intros HI Hpc Hi. pose proof (iv_fpc _ HI) as Hf. unfold fpc_ok in Hf. rewrite Hpc in Hf. destruct Hf as (Ho & Hmax & _ & Et).
  pose proof (iv_seq _ HI) as [Hs Hl]. assert (i = 10%nat) as -> by (unfold HELD_CAP, RegionCache.CAP in Hi; lia).
  rewrite !take_ge in Et by (rewrite ?held_length, ?Hl; lia).
  assert (Hev : Z.Even (s_seq S + 1)) by (destruct Ho as [k Hk]; exists (k + 1); lia).
  apply held_inv; auto; try lia; try congruence; try done.
Qed.

(** ** The publish stage *)

Lemma set_logs_ok H V R L : vigil_ok H V -> vigil_ok H (set_logs V R L).
Proof. intros [A1 A2 A3 A4 A5 A6 A7]. by split. Qed.

Lemma plan_num_slots slots plan : compute_memory_plan rank world_size capability slots = Ok plan -> num_slots plan = Z.of_nat (length slots).
Proof.
  unfold compute_memory_plan. intros E. destruct (_ =? 0); [by inv_ok|]. inv_ok. destruct (_ =? 0); [by inv_ok|].
  destruct (count_events _ _ _ _) as [bc dc]. inv_ok. by split_pairs; inv_ok.
Qed.

Lemma published_wf parts plan hash ops :
  publishable parts -> compute_memory_plan rank world_size capability (br_slots parts) = Ok plan -> region_wf (mkRegion hash ops (Some plan)).
Proof.
  intros [P1 P2 P3 P4] E p [= <-]. pose proof (compute_memory_plan_safe _ _ _ _ _ P1 P2 P3 E) as [Hs _ _ _]. split.
  - unfold plan_counted. rewrite (plan_num_slots _ _ E). by rewrite (Forall2_length _ _ _ Hs).
  - intros i s Hi. destruct (Forall2_lookup_r _ _ _ _ _ Hs Hi) as (s0 & Hs0 & ->). cbn. by apply P4.
Qed.

Lemma publish_begin_some S a parts region B L :
  publishable parts -> publish_begin rank world_size capability (s_pub S) (v_meta (s_fg S)) a parts = Ok (Some region, B, L) ->
  exists i m0, region_store_ (s_pub S) !! i = Some m0 /\ rm_addr m0 = 0 /\ region_wf region /\
    region_store_ B = <[i := mkMem a region NOT_LEFT]> (region_store_ (s_pub S)) /\ uncompiled_regions B = uq_push a (uncompiled_regions (s_pub S)).
Proof.
  intros HP E. unfold publish_begin in E. destruct (free_index _) as [i|] eqn:Ei; [|inv_ok; by simplify_eq].
  destruct (free_index_spec _ _ Ei) as (m0 & Hm0 & H0). exists i, m0.
  apply rbind_ok in E as (node & Hnode & E). apply rbind_ok in E as (plan & Hplan & E). apply rbind_ok in E as (L1 & _ & E). injection E as <- <- _.
  split_and!; auto. destruct (0 <? _); [|injection Hplan as <-; by intros p].
  apply rbind_ok in Hplan as (p & Ep & Hplan). injection Hplan as <-. by eapply published_wf.
Qed.

Lemma publish_inv S a parts region B L :
  sys_inv S -> s_bpc S = BIdle -> a <> 0 -> s_heap S a = None -> publishable parts ->
  publish_begin rank world_size capability (s_pub S) (v_meta (s_fg S)) a parts = Ok (Some region, B, L) ->
  sys_inv (mkSys (set_logs (s_fg S) (v_ring (s_fg S)) L) (s_seq S) (s_cells S) B (s_tx S) (s_step S) (s_loaded S) (s_fpc S) (BCallback a region)).
Proof.
  intros HI Hb Ha Hn HP E. destruct (publish_begin_some S a parts region B L HP E) as (i & m0 & Hi & H0 & Hwf & EB & EU).
  set (S' := mkSys _ _ _ _ _ _ _ _ _).
  assert (Hnf : find_region (region_store_ (s_pub S)) a = None).
  { unfold s_heap, nodes in Hn. rewrite (proj2 (Z.eqb_neq _ _) Ha) in Hn. by destruct (find_region _ a). }
  destruct (find_region_insert _ i m0 a region (iv_unique _ HI) Hi H0 Ha Hnf) as [Hu Hf].
  assert (HH : forall b, s_heap S' b = if decide (b = a) then Some region else s_heap S b).
  { intros b. unfold s_heap, nodes. cbn [S' s_pub s_loaded]. rewrite EB. destruct (Z.eqb_spec b 0) as [->|Hb0]; [by rewrite decide_False by congruence|].
    rewrite Hf by done. by case_decide. }
  assert (Hlive : forall b, is_Some (s_heap S b) -> s_heap S' b = s_heap S b) by (intros b [x Hx]; rewrite HH; case_decide; [subst b; congruence|done]).
  assert (Hlive' : forall b, is_Some (s_heap S b) -> is_Some (s_heap S' b)) by (intros b Hx; by rewrite Hlive).
  split.
  - cbn [S' s_pub]. by rewrite EB.
  - intros b r Hin. destruct (iv_loaded _ HI b r Hin) as [Hb0 Hbn]. cbn [S' s_pub]. rewrite EB, Hf by done. split; [done|]. case_decide as Hd; [|done].
    subst b. exfalso. unfold s_heap, nodes in Hn. rewrite (proj2 (Z.eqb_neq _ _) Ha), Hnf in Hn. clear -Hin Hn. cbn in Hin.
    induction (s_loaded S) as [|[b r'] l IH]; [by apply elem_of_nil in Hin|]. cbn in Hn. destruct (Z.eqb_spec b a); [done|].
    apply elem_of_cons in Hin as [[= -> ->]|Hin]; [done|auto].
  - intros b r Hr. rewrite HH in Hr. case_decide; [by injection Hr as <-|by eapply (iv_wf _ HI)].
  - apply (vigil_ok_heap (s_heap S)); [apply set_logs_ok, HI|]. intros b [Hb'|[Hb' ->]]; apply Hlive; [eapply vigil_live; [apply HI|exact Hb']|by apply (vo_slot _ _ (iv_vigil _ HI))].
  - intros b Hb0 Hpc. apply Hlive', (iv_restored _ HI); done.
  - apply HI.
  - intros b Hin. apply Hlive', (iv_tx _ HI), Hin.
  - cbn [S' s_pub]. rewrite EU. apply uq_ok_push, HI.
  - cbn [S' s_pub]. rewrite EU. intros b Hin. apply elem_of_uq_push in Hin as [->|Hin]; [rewrite HH, decide_True by done; eauto|apply Hlive', (iv_queue _ HI), Hin|apply HI].
  - apply HI.
  - apply (iv_fpc _ HI).
  - intros x Hx Hne Hl. cbn [S' s_pub] in Hx. rewrite EB in Hx. apply list_elem_of_lookup in Hx as [j Hj].
    apply list_lookup_insert_Some in Hj as [(-> & <- & _)|(_ & Hj)]; [done|]. apply (iv_left _ HI x ltac:(by eapply list_elem_of_lookup_2) Hne Hl).
  - split; [done|]. rewrite HH, decide_True by done. split; [done|]. intros x Hx Hxa. cbn [S' s_pub] in Hx. rewrite EB in Hx.
    apply list_elem_of_lookup in Hx as [j Hj]. apply list_lookup_insert_Some in Hj as [(-> & <- & _)|(_ & Hj)]; [done|].
    exfalso. apply (find_region_none _ a Ha Hnf x); [by eapply list_elem_of_lookup_2|done].
Qed.
End Steps.
