(* ===== verification/ReclaimTheorems.v ===== *)
(** * ReclaimTheorems.v: the sweep of the publish stage is safe, and it ends

    The steps of the publish stage after the publication keep the invariant of
    ReclaimProofs.v.  So no region that the foreground, the log or the queue
    can read is released, the marks of the owner never overflow, and a
    publication that the foreground does not disturb ends. *)

From stdpp Require Import base list strings gmap sets.
From Stdlib Require Import ZArith Lia.
From S2P Require Import Prelude.
From S2P Require Import Types.
From S2P Require Import Arena.
From S2P Require Import Registry.
From S2P Require Import MemoryPlan.
From S2P Require Import Pool.
From S2P Require Import PoolProofs.
From S2P Require Import Context.
From S2P Require Import ContextProofs.
From S2P Require Import MetaLog.
From S2P Require Import TraceRing.
From S2P Require Import RegionCache.
From S2P Require Import BuildTrace.
From S2P Require Import Vigil.
From S2P Require Import VigilProofs.
From S2P Require Import VigilAlign.
From S2P Require Import Transaction.
From S2P Require Import RegionStore.
From S2P Require Import Reclaim.
From S2P Require Import ReclaimProofs.
#[local] Open Scope Z_scope.
#[local] Open Scope result_scope.

(** ** The marks *)

Lemma hold_ok m r m' : hold m r = Ok m' ->
  marks_handed m' = marks_handed m /\ (length (marks_held m') <= S (length (marks_held m)))%nat /\
  (forall a, a ∈ marks_held m -> a ∈ marks_held m') /\ (r <> 0 -> r ∈ marks_held m').
Proof.
  unfold hold. intros E. destruct (Z.eqb_spec r 0) as [->|Hr]; inv_ok; cbn.
  - split_and!; auto. done.
  - rewrite length_app. cbn. split_and!; [done|lia| |]; set_solver.
Qed.

Lemma hold_fits m r : (length (marks_held m) < 32)%nat -> exists m', hold m r = Ok m'.
Proof.
  intros Hl. unfold hold. destruct (r =? 0); [eauto|]. unfold MARKS_CAP. rewrite (proj2 (Z.eqb_neq _ _)) by lia. cbn. eauto.
Qed.

Lemma hold_all_ok l : forall m m', hold_all m l = Ok m' ->
  marks_handed m' = marks_handed m /\ (length (marks_held m') <= length l + length (marks_held m))%nat /\
  (forall a, a ∈ marks_held m -> a ∈ marks_held m') /\ (forall a, a <> 0 -> a ∈ l -> a ∈ marks_held m').
Proof.
  induction l as [|r l IH]; intros m m' E; cbn [hold_all] in E.
  { injection E as <-. split_and!; auto. intros a _ Ha. by apply elem_of_nil in Ha. }
  apply rbind_ok in E as (m1 & E1 & E). destruct (hold_ok _ _ _ E1) as (A1 & A2 & A3 & A4). destruct (IH _ _ E) as (B1 & B2 & B3 & B4).
  cbn [length]. split_and!; [congruence|lia|auto|]. intros a Ha [->|Hin]%elem_of_cons; auto.
Qed.

Lemma hold_all_fits l : forall m, (length l + length (marks_held m) <= 32)%nat -> exists m', hold_all m l = Ok m'.
Proof.
  induction l as [|r l IH]; intros m Hl; cbn [hold_all length] in *; [eauto|]. destruct (hold_fits m r ltac:(lia)) as [m1 E1].
  rewrite E1. cbn [rbind]. apply IH. destruct (hold_ok _ _ _ E1) as (_ & ? & _). lia.
Qed.

(** ** The swept store *)

Definition keeps_or_frees (f : RegionMemory -> RegionMemory) (st : list RegionMemory) : Prop :=
  forall m, m ∈ st -> (rm_addr (f m) = rm_addr m /\ rm_region (f m) = rm_region m) \/ rm_addr (f m) = 0.

Lemma mapped_find_some st f a r : unique_addrs st -> keeps_or_frees f st -> a <> 0 -> find_region (f <$> st) a = Some r -> find_region st a = Some r.
Proof.
  intros Hu Hf Ha E. destruct (find_region_some _ _ _ E) as (x & Hx & <- & <-). apply list_elem_of_fmap in Hx as (m & -> & Hm).
  destruct (Hf m Hm) as [[E1 E2]|E0]; [|done]. rewrite E1, E2 in *. by apply find_region_in.
Qed.

Lemma mapped_find_kept st f a : unique_addrs st -> keeps_or_frees f st -> a <> 0 -> (forall m, m ∈ st -> rm_addr m = a -> rm_addr (f m) <> 0) ->
  find_region (f <$> st) a = find_region st a.
Proof.
  intros Hu Hf Ha Hk. destruct (find_region st a) as [r|] eqn:E.
  - destruct (find_region_some _ _ _ E) as (m & Hm & <- & <-). destruct (Hf m Hm) as [[E1 E2]|E0]; [|by destruct (Hk m Hm eq_refl)].
    rewrite <- E1, <- E2. apply find_region_in; [|by apply list_elem_of_fmap_2|congruence].
    apply mapped_unique; [done|]. intros n Hn. destruct (Hf n Hn) as [[? _]|?]; auto.
  - destruct (find_region (f <$> st) a) as [r|] eqn:E2; [|done]. apply mapped_find_some in E2; [congruence|done..].
Qed.

Lemma sweep_keeps_or_frees B st : keeps_or_frees (sweep_slot B) st.
Proof. intros m _. destruct (sweep_slot_swept B m); auto. Qed.

Lemma find_loaded_in l a r : find_loaded l a = Some r -> (a, r) ∈ l.
Proof.
  induction l as [|[b x] l IH]; cbn; [done|]. destruct (Z.eqb_spec b a) as [->|]; [intros [= ->]; by left|right; auto].
Qed.

(** ** The steps that keep the store *)

(** A step of the publish stage that keeps the store and the queue, and what
    the foreground holds. *)
Record quiet_step `{M : PoolMem} (S S' : Sys) : Prop := {
  qs_seq : s_seq S' = s_seq S;
  qs_cells : s_cells S' = s_cells S;
  qs_fpc : s_fpc S' = s_fpc S;
  qs_loaded : s_loaded S' = s_loaded S;
  qs_store : region_store_ (s_pub S') = region_store_ (s_pub S);
  qs_uq : uncompiled_regions (s_pub S') = uncompiled_regions (s_pub S);
  qs_held : held_regions (s_fg S') = held_regions (s_fg S);
  qs_vigil : vigil_ok (s_heap S) (s_fg S');
  qs_slot : forall x, x ∈ region_store_ (s_pub S) -> rm_addr x <> 0 -> left_generation x <> NOT_LEFT -> pending_region_ (s_fg S') <> rm_addr x;
  qs_log : exists st, log_stack (s_tx S') st;
  qs_tx : forall a, a ∈ for_each_region (s_tx S') -> is_Some (s_heap S a);
}.

Lemma quiet_step_inv `{M : PoolMem} S S' : sys_inv S -> quiet_step S S' -> bpc_ok S' -> sys_inv S'.
Proof.
  intros HI [Q1 Q2 Q3 Q4 Q5 Q6 Q7 Q8 Q9 Q10 Q11] Hb.
  assert (HH : forall a, s_heap S' a = s_heap S a) by (intros a; unfold s_heap; by rewrite Q5, Q4).
  assert (Hw : is_writing S' <-> is_writing S) by (unfold is_writing; by rewrite Q3).
  assert (Hu : forall a, fg_uses S' a -> fg_uses S a) by (intros a [Ha|Ha]; [left|right]; unfold fg_holds in *; by rewrite ?Q7, ?Q3 in Ha).
  split; rewrite ?Q5, ?Q6, ?Q4, ?Q1, ?Q2; try apply HI; auto.
  - intros a r. rewrite HH. apply HI.
  - eapply vigil_ok_heap; [exact Q8|]. intros. by rewrite HH.
  - intros a Ha E. rewrite HH. apply (iv_restored _ HI); congruence.
  - intros a Ha. rewrite HH. auto.
  - intros a Ha. rewrite HH. by apply (iv_queue _ HI).
  - pose proof (iv_fpc _ HI) as Hf. unfold fpc_ok in *. by rewrite Q3, Q1, Q2, Q7.
  - intros x. rewrite Q5. intros Hx Hne Hl. destruct (iv_left _ HI x Hx Hne Hl) as [_ H2]. split; [auto|]. unfold generation. rewrite Q1, Q2.
    intros Hnw Hux. apply H2; [by rewrite <- Hw|auto].
Qed.

(** The publish stage changes its marks and its place only. *)
Lemma set_bg_quiet `{M : PoolMem} S B pc : sys_inv S -> region_store_ B = region_store_ (s_pub S) -> uncompiled_regions B = uncompiled_regions (s_pub S) ->
  quiet_step S (set_bg S B pc).
Proof. intros HI E1 E2. split; try done; apply HI. Qed.

Lemma even_not_writing `{M : PoolMem} S : sys_inv S -> Z.Even (s_seq S) -> ~ is_writing S.
Proof.
  intros HI He Hw. pose proof (iv_fpc _ HI) as Hf. unfold is_writing, fpc_ok in *. destruct (s_fpc S); try done.
  apply (Z.Even_Odd_False (s_seq S)); [done|apply Hf].
Qed.

Lemma not_writing_even `{M : PoolMem} S : sys_inv S -> ~ is_writing S -> Z.Even (s_seq S).
Proof. intros HI Hw. pose proof (iv_fpc _ HI) as Hf. unfold is_writing, fpc_ok in *. destruct (s_fpc S); tauto. Qed.

Section Steps.
Context `{M : PoolMem} {HM : PoolMemOk M} (rank world_size capability : Z).
#[local] Set Default Proof Using "HM".

Lemma logs_bpc S R L : bpc_ok S -> bpc_ok (mkSys (set_logs (s_fg S) R L) (s_seq S) (s_cells S) (s_pub S) (s_tx S) (s_step S) (s_loaded S) (s_fpc S) (s_bpc S)).
Proof.
  intros Hb. unfold bpc_ok in *. cbn [s_bpc]. destruct (s_bpc S); auto.
  - destruct Hb as [[H1 H2] H3]. by split.
  - destruct Hb as [[H0 H0'] H2 H3 H4 H5 H6 H7 H8]. by split.
  - destruct Hb as [[H0 H0'] H2 H3 H4 H5]. by split.
Qed.

Lemma logs_quiet S R L B pc : sys_inv S -> region_store_ B = region_store_ (s_pub S) -> uncompiled_regions B = uncompiled_regions (s_pub S) ->
  quiet_step S (mkSys (set_logs (s_fg S) R L) (s_seq S) (s_cells S) B (s_tx S) (s_step S) (s_loaded S) (s_fpc S) pc).
Proof.
  intros HI E1 E2. split; try done; try apply HI. apply set_logs_ok, HI.
Qed.

Lemma drain_inv S R L : sys_inv S ->
  sys_inv (mkSys (set_logs (s_fg S) R L) (s_seq S) (s_cells S) (s_pub S) (s_tx S) (s_step S) (s_loaded S) (s_fpc S) (s_bpc S)).
Proof. intros HI. apply (quiet_step_inv S); [done|by apply logs_quiet|apply logs_bpc, HI]. Qed.

Lemma discard_inv S a parts B L : sys_inv S -> s_bpc S = BIdle ->
  publish_begin rank world_size capability (s_pub S) (v_meta (s_fg S)) a parts = Ok (None, B, L) ->
  sys_inv (mkSys (set_logs (s_fg S) (v_ring (s_fg S)) L) (s_seq S) (s_cells S) B (s_tx S) (s_step S) (s_loaded S) (s_fpc S) BIdle).
Proof.
  intros HI Hb E. assert (EB : region_store_ B = region_store_ (s_pub S) /\ uncompiled_regions B = uncompiled_regions (s_pub S)).
  { unfold publish_begin in E. destruct (free_index _); inv_ok; by simplify_eq. }
  destruct EB. apply (quiet_step_inv S); [done|by apply logs_quiet|exact I].
Qed.

(** The merkle root of a region without a continuation is its content hash. *)
Lemma commit_inv S a region now L : sys_inv S -> s_bpc S = BCallback a region -> displacements (s_tx S) < UINT64_MAX ->
  tx_publish (s_tx S) (s_step S) a (region_content_hash region) (region_content_hash region) now = Ok L ->
  sys_inv (mkSys (set_slot (s_fg S) a) (s_seq S) (s_cells S) (s_pub S) L (s_step S + 1) (s_loaded S) (s_fpc S) BPublished).
Proof.
  intros HI Hb Hd E. pose proof (iv_bpc _ HI) as Hc. unfold bpc_ok in Hc. rewrite Hb in Hc. destruct Hc as (Ha & Hh & Hleft).
  destruct (iv_log _ HI) as [st HL].
  assert (Hroot : region_content_hash region <> 0).
  { intros Hz. rewrite Hz in E. unfold tx_publish in E. destruct now as [[[n1 n2] n3] n4]. apply rbind_ok in E as ([s L1] & _ & E).
    apply rbind_ok in E as ([b L2] & E2 & _). unfold tx_commit in E2. by destruct (negb (a =? 0)). }
  destruct (tx_publish_ok _ st (s_step S) a (region_content_hash region) _ now HL Ha Hroot Hd) as (L' & st' & E' & HL' & Hreg).
  rewrite E in E'. injection E' as <-. apply (quiet_step_inv S); [done| |exact I]. split; try done; cbn.
  - pose proof (mk_is_Some _ _ Hh) as Hs. pose proof (iv_vigil _ HI) as [A1 A2 A3 A4 A5 A6 A7]. split; auto.
  - intros x Hx Hne Hl E1. apply Hl, Hleft; [done|congruence].
  - eauto.
  - intros b Hin. destruct (Hreg b Hin) as [->|Hin']; [rewrite Hh; eauto|by apply (iv_tx _ HI)].
Qed.

Lemma observe_inv S m : sys_inv S -> s_bpc S = BPublished -> hold_all no_marks (for_each_region (s_tx S)) = Ok m ->
  sys_inv (set_bg S (s_pub S) (BMark (set_handed m (pending_region_ (s_fg S))))).
Proof.
  intros HI Hb E. apply (quiet_step_inv S); [done|by apply set_bg_quiet|]. destruct (hold_all_ok _ _ _ E) as (_ & Hlen & _ & Hin).
  destruct (iv_log _ HI) as [st HL]. pose proof (regions_count _ _ HL) as Hc. split; [split; [by right|]|cbn in *; lia].
  cbn. intros a Ha. apply Hin; [|done]. unfold for_each_region in Ha. by apply list_elem_of_filter in Ha as [? _].
Qed.

Lemma land_1_even x : Z.land x 1 = 0 -> Z.Even x.
Proof. intros E. change 1 with (Z.ones 1) in E. rewrite Z.land_ones in E by lia. change (2 ^ 1) with 2 in E. exists (x / 2). pose proof (Z.div_mod x 2). lia. Qed.

Lemma read_begin_inv S m : sys_inv S -> s_bpc S = BMark m -> Z.land (s_seq S) 1 = 0 -> sys_inv (set_bg S (s_pub S) (BRead m (s_seq S) 0 m)).
Proof.
  intros HI Hb He. apply (quiet_step_inv S); [done|by apply set_bg_quiet|]. pose proof (iv_bpc _ HI) as Hm. unfold bpc_ok in Hm. rewrite Hb in Hm.
  destruct Hm as [[H1 H2] H3]. pose proof (iv_seq _ HI) as [Hs _]. split; cbn; auto; try lia.
  - by split.
  - split; [by apply land_1_even|lia].
  - intros _ c Hc. by apply elem_of_nil in Hc.
Qed.

Lemma read_cell_inv S m before i read c read' :
  sys_inv S -> s_bpc S = BRead m before i read -> s_cells S !! i = Some c -> hold read c = Ok read' ->
  sys_inv (set_bg S (s_pub S) (BRead m before (Datatypes.S i) read')).
Proof.
  intros HI Hb Hi E. apply (quiet_step_inv S); [done|by apply set_bg_quiet|]. pose proof (iv_bpc _ HI) as Hm. unfold bpc_ok in Hm. rewrite Hb in Hm.
  destruct Hm as [[H0 H0'] H1 H2 H3 H4 H5 H6 H7]. destruct (hold_ok _ _ _ E) as (A1 & A2 & A3 & A4).
  pose proof (lookup_lt_Some _ _ _ Hi) as Hlt. pose proof (iv_seq _ HI) as [_ Hlen].
  split; cbn; auto; try lia; [by split|]. intros Eb d Hd Hne.
  rewrite (take_S_r _ _ c Hi) in Hd. apply elem_of_app in Hd as [Hd|Hd]; [auto|]. apply list_elem_of_singleton in Hd as ->. auto.
Qed.

Lemma read_again_inv S m before i read : sys_inv S -> s_bpc S = BRead m before i read -> sys_inv (set_bg S (s_pub S) (BMark m)).
Proof.
  intros HI Hb. apply (quiet_step_inv S); [done|by apply set_bg_quiet|]. pose proof (iv_bpc _ HI) as Hm. unfold bpc_ok in Hm. rewrite Hb in Hm.
  destruct Hm as [[H0 H0'] H1 H2 H3 H4 H5 H6 H7]. by split.
Qed.

(** Equal even values of the counter around the reads: the marks name each
    region that the foreground can read and that left its view before. *)
Lemma read_done_inv S m before i read :
  sys_inv S -> s_bpc S = BRead m before i read -> Z.of_nat i = HELD_CAP -> s_seq S = before ->
  sys_inv (set_bg S (set_region_marks (s_pub S) (set_foreground read (before / 2))) BSweep).
Proof.
  intros HI Hb Hi Eb. apply (quiet_step_inv S); [done|by apply set_bg_quiet|]. pose proof (iv_bpc _ HI) as Hm. unfold bpc_ok in Hm. rewrite Hb in Hm.
  destruct Hm as [[H0 H0'] H1 H2 H3 H4 H5 [H6 H6'] H7]. pose proof (iv_seq _ HI) as [Hs Hlen].
  assert (Hnw : ~ is_writing S) by (apply even_not_writing; [done|by rewrite Eb]).
  rewrite take_ge in H7 by (unfold HELD_CAP, RegionCache.CAP in Hi; lia). cbn [bpc_ok set_bg s_bpc s_pub set_region_marks owner_marks_].
  split; cbn [set_foreground marks_held marks_handed has_foreground foreground_generation]; auto.
  - split; cbn; [by rewrite H2|auto].
  - unfold generation. cbn. rewrite Eb. split; [lia|]. unfold NOT_LEFT, UINT64_MAX. pose proof (Z.div_le_upper_bound before 2 (2 ^ 63) ltac:(lia) ltac:(lia)). lia.
  - intros x Hx Hne Hu. destruct (decide (left_generation x = NOT_LEFT)) as [|Hl]; [auto|].
    destruct (iv_left _ HI x Hx Hne Hl) as [_ H]. destruct (H Hnw Hu) as [Hc|Hg]; [left; auto|]. unfold generation in Hg. rewrite Eb in Hg. auto.
  - intros _ x Hx Hne Hu. right. right. unfold generation. cbn. rewrite Eb. lia.
Qed.

(** ** The sweep *)

(** What a holder can name. *)
Definition named (S : Sys) (a : Z) : Prop :=
  fg_uses S a \/ a = pending_region_ (s_fg S) \/ a ∈ for_each_region (s_tx S) \/ a ∈ uq_list (uncompiled_regions (s_pub S)).

Lemma sweep_keeps_named S x : sweep_ok S (owner_marks_ (s_pub S)) -> x ∈ region_store_ (s_pub S) -> rm_addr x <> 0 -> named S (rm_addr x) ->
  rm_addr (sweep_slot (s_pub S) x) <> 0.
Proof.
  intros [[H1 H1'] H2 H3 H4 _] Hx Hne Hn. destruct (sweep_slot_swept (s_pub S) x) as [| | | |K1 K2 K3 K4 K5 K6]; try done.
  exfalso. destruct (K6 H2) as [K7 K8]. destruct Hn as [Hu|[Hp|[Ht|Hq]]]; auto.
  - destruct (H4 x Hx Hne Hu) as [?|[?|[?|?]]]; auto. lia.
  - destruct H1 as [?|?]; congruence.
Qed.

Lemma sweep_heap S a : sys_inv S -> s_bpc S = BSweep -> a <> 0 -> named S a -> s_heap (set_bg S (sweep_regions_ (s_pub S)) BIdle) a = s_heap S a.
Proof.
  intros HI Hb Ha Hn. pose proof (iv_bpc _ HI) as Hm. unfold bpc_ok in Hm. rewrite Hb in Hm. unfold s_heap, nodes.
  cbn [set_bg s_pub s_loaded sweep_regions_ set_store region_store_]. destruct (a =? 0); [done|].
  rewrite mapped_find_kept; [done|apply HI|apply sweep_keeps_or_frees|done|]. intros x Hx <-. by apply sweep_keeps_named.
Qed.

Lemma sweep_heap_some S a r : sys_inv S -> s_heap (set_bg S (sweep_regions_ (s_pub S)) BIdle) a = Some r -> s_heap S a = Some r.
Proof.
  intros HI. unfold s_heap, nodes. cbn [set_bg s_pub s_loaded sweep_regions_ set_store region_store_]. destruct (Z.eqb_spec a 0) as [|Ha]; [done|].
  destruct (find_region (_ <$> _) a) as [r'|] eqn:E.
  - intros [= <-]. apply mapped_find_some in E; [by rewrite E|apply HI|apply sweep_keeps_or_frees|done].
  - intros Hl. pose proof (find_loaded_in _ _ _ Hl) as Hin. by rewrite (proj2 (iv_loaded _ HI _ _ Hin)).
Qed.

Lemma sweep_left S : sys_inv S -> s_bpc S = BSweep -> left_ok (set_bg S (sweep_regions_ (s_pub S)) BIdle).
Proof.
  intros HI Hb y Hy Hne Hl. pose proof (iv_bpc _ HI) as Hm. unfold bpc_ok in Hm. rewrite Hb in Hm. destruct Hm as [[H1 H1'] H2 H3 _ H5].
  cbn [set_bg s_pub sweep_regions_ set_store region_store_] in Hy. apply list_elem_of_fmap in Hy as (x & -> & Hx).
  destruct (sweep_slot_swept (s_pub S) x) as [E|E _|K1 K2 K3 K4 K5|K1 K2 K3 K4|]; try done; cbn [rm_addr left_generation] in *; try done.
  - split; [cbn [set_bg s_fg]; destruct H1; congruence|]. intros Hnw Hu. destruct (H5 Hnw x Hx Hne Hu) as [?|[?|?]]; auto. done.
  - apply (iv_left _ HI x Hx Hne Hl).
Qed.

Lemma sweep_inv S : sys_inv S -> s_bpc S = BSweep -> sys_inv (set_bg S (sweep_regions_ (s_pub S)) BIdle).
Proof.
  intros HI Hb. pose proof (fun a => sweep_heap S a HI Hb) as HH.
  assert (Hlive : forall a, is_Some (s_heap S a) -> named S a -> is_Some (s_heap (set_bg S (sweep_regions_ (s_pub S)) BIdle) a)).
  { intros a [r Ha] Hn. rewrite HH; [eauto| |done]. intros ->. by unfold s_heap, nodes in Ha. }
  split; try (apply HI); cbn [set_bg s_pub s_fg s_tx s_fpc].
  - apply mapped_unique; [apply HI|]. intros m Hm. destruct (sweep_keeps_or_frees (s_pub S) _ m Hm) as [[? _]|?]; auto.
  - intros a r Hin. destruct (iv_loaded _ HI a r Hin) as [Ha Hn]. split; [done|].
    destruct (find_region (sweep_slot (s_pub S) <$> region_store_ (s_pub S)) a) as [r'|] eqn:E; [|exact E].
    apply mapped_find_some in E; [congruence|apply HI|apply sweep_keeps_or_frees|done].
  - intros a r Hr. by apply (iv_wf _ HI a), sweep_heap_some.
  - apply (vigil_ok_heap (s_heap S)); [apply HI|]. intros a [Ha|[Ha ->]]; apply HH; auto.
    + apply Ha.
    + left. by left.
    + right. by left.
  - intros a Ha E. apply Hlive; [by apply (iv_restored _ HI)|]. left. by right.
  - intros a Ha. apply Hlive; [by apply (iv_tx _ HI)|]. right. right. by left.
  - intros a Ha. apply Hlive; [by apply (iv_queue _ HI)|]. right. right. by right.
  - by apply sweep_left.
  - exact I.
Qed.

(** ** Every reachable state *)

Lemma fg_step_inv S S' : sys_inv S -> fg_step S S' -> sys_inv S'.
Proof.
  intros HI [rq cold res V ? E|a r V ? ? ? ? E|n1 n2 L ? ? E|r V ? E|? ?|i a ? ?|i ? ?].
  - by eapply dispatch_inv.
  - by eapply load_inv.
  - by eapply rollback_inv.
  - by eapply restore_inv.
  - by apply write_begin_inv.
  - by eapply write_cell_inv.
  - by eapply write_end_inv.
Qed.

Lemma bg_step_inv S S' : sys_inv S -> bg_step rank world_size capability S S' -> sys_inv S'.
Proof.
  intros HI [].
  - by eapply publish_inv.
  - by eapply discard_inv.
  - by eapply commit_inv.
  - by eapply observe_inv.
  - by apply read_begin_inv.
  - by eapply read_cell_inv.
  - by eapply read_done_inv.
  - by eapply read_again_inv.
  - by apply sweep_inv.
  - by apply drain_inv.
Qed.

Lemma sys_reach_inv w m S : sys_reach rank world_size capability w m S -> sys_inv S.
Proof. induction 1; [apply new_sys_inv|by eapply fg_step_inv|by eapply bg_step_inv]. Qed.
Lemma named_live S a : sys_inv S -> a <> 0 -> named S a -> is_Some (s_heap S a).
Proof.
  intros HI Ha [[Hu|[_ Hu]]|[->|[Hu|Hu]]]; [by eapply vigil_live; [apply HI|]|by apply (iv_restored _ HI)|by apply (vo_slot _ _ (iv_vigil _ HI))|
        by apply (iv_tx _ HI)|by apply (iv_queue _ HI)].
Qed.

(** A step of the publish stage changes no node that a holder names. *)
Lemma bg_step_heap S S' a : sys_inv S -> bg_step rank world_size capability S S' -> a <> 0 -> named S a -> s_heap S' a = s_heap S a.
Proof.
  intros HI Hs Ha Hn. destruct Hs as [b parts region B L Hb Hb0 Hnone HP E|b parts B L Hb E| | | | | | |Hb|]; try done.
  - pose proof (named_live S a HI Ha Hn) as Hlive.
    destruct (publish_begin_some rank world_size capability S b parts region B L HP E) as (i & m0 & Hi & H0 & _ & EB & _).
    assert (Hnf : find_region (region_store_ (s_pub S)) b = None).
    { unfold s_heap, nodes in Hnone. rewrite (proj2 (Z.eqb_neq _ _) Hb0) in Hnone. by destruct (find_region _ b). }
    destruct (find_region_insert _ i m0 b region (iv_unique _ HI) Hi H0 Hb0 Hnf) as [_ Hf].
    unfold s_heap, nodes in *. cbn [s_pub s_loaded]. rewrite EB, Hf by done. case_decide; [subst a|done].
    rewrite Hnone in Hlive. by destruct Hlive.
  - unfold publish_begin in E. unfold s_heap. cbn [s_pub s_loaded]. destruct (free_index _); inv_ok; by simplify_eq.
  - by apply sweep_heap.
Qed.

(** ** The end of a publication *)

Definition bg_steps : Sys -> Sys -> Prop := rtc (bg_step rank world_size capability).

Lemma sweep_ends S : s_bpc S = BSweep -> exists S', bg_steps S S' /\ s_bpc S' = BIdle.
Proof. intros Hb. eexists. split; [by apply rtc_once, st_sweep|done]. Qed.

Lemma sweep_after S S1 : bg_step rank world_size capability S S1 -> s_bpc S1 = BSweep -> exists S', bg_steps S S' /\ s_bpc S' = BIdle.
Proof. intros Hs Hb. destruct (sweep_ends S1 Hb) as (S' & ? & ?). exists S'. split; [by eapply rtc_l|done]. Qed.

(** The reads of the cells end, with the marks in their bound. *)
Lemma reads_end S m before i read : sys_inv S -> s_bpc S = BRead m before i read ->
  exists read', bg_steps S (set_bg S (s_pub S) (BRead m before 10 read')) /\ sys_inv (set_bg S (s_pub S) (BRead m before 10 read')).
Proof.
  intros HI Hb. remember (10 - i)%nat as n eqn:En. revert S i read En HI Hb. induction n as [|n IH]; intros S i read En HI Hb;
    pose proof (iv_bpc _ HI) as Hm; unfold bpc_ok in Hm; rewrite Hb in Hm; pose proof (ro_i _ _ _ _ _ Hm) as Hi.
  - assert (i = 10%nat) as -> by lia. exists read.
    assert (E : set_bg S (s_pub S) (BRead m before 10 read) = S) by (rewrite <- Hb; by destruct S). rewrite E. split; [apply rtc_refl|done].
  - assert (is_Some (s_cells S !! i)) as [c Hc] by (apply lookup_lt_is_Some; rewrite (proj2 (iv_seq _ HI)); lia).
    pose proof (ro_len _ _ _ _ _ Hm). destruct (hold_fits read c ltac:(lia)) as [read1 E1].
    assert (Hst := st_read_cell rank world_size capability S m before i read c read1 Hb Hc E1).
    set (S1 := set_bg S (s_pub S) (BRead m before (Datatypes.S i) read1)) in *.
    destruct (IH S1 (Datatypes.S i) read1 ltac:(lia)) as (read' & Hr & HI'); [by eapply bg_step_inv|done|].
    exists read'. split; [by eapply rtc_l|exact HI'].
Qed.

Lemma even_land_1 x : Z.Even x -> Z.land x 1 = 0.
Proof. intros [k ->]. change 1 with (Z.ones 1). rewrite Z.land_ones by lia. change (2 ^ 1) with 2. by rewrite Z.mul_comm, Z.mod_mul. Qed.

Lemma mark_ends S m : sys_inv S -> ~ is_writing S -> s_bpc S = BMark m -> exists S', bg_steps S S' /\ s_bpc S' = BIdle.
Proof.
  intros HI Hnw Hb. assert (Hst := st_read_begin rank world_size capability S m Hb (even_land_1 _ (not_writing_even S HI Hnw))).
  destruct (reads_end _ _ _ _ _ (bg_step_inv _ _ HI Hst) eq_refl) as (read & Hr & HI').
  assert (Hd := st_read_done rank world_size capability (set_bg S (s_pub S) (BRead m (s_seq S) 10 read)) m (s_seq S) 10 read eq_refl eq_refl eq_refl).
  destruct (sweep_after _ _ Hd eq_refl) as (S' & Hs & Hi).
  exists S'. split; [|exact Hi]. eapply rtc_l; [exact Hst|]. etransitivity; [exact Hr|exact Hs].
Qed.

Lemma read_ends S m before i read : sys_inv S -> ~ is_writing S -> s_bpc S = BRead m before i read -> exists S', bg_steps S S' /\ s_bpc S' = BIdle.
Proof.
  intros HI Hnw Hb. destruct (reads_end _ _ _ _ _ HI Hb) as (read' & Hr & HI'). destruct (decide (s_seq S = before)) as [E|E].
  - assert (Hd := st_read_done rank world_size capability (set_bg S (s_pub S) (BRead m before 10 read')) m before 10 read' eq_refl eq_refl E).
    destruct (sweep_after _ _ Hd eq_refl) as (S' & Hs & Hi).
    exists S'. split; [|exact Hi]. etransitivity; [exact Hr|exact Hs].
  - assert (Hd := st_read_again rank world_size capability (set_bg S (s_pub S) (BRead m before 10 read')) m before 10 read' eq_refl eq_refl E).
    destruct (mark_ends _ m (bg_step_inv _ _ HI' Hd) Hnw eq_refl) as (S' & Hs & Hi).
    exists S'. split; [|done]. etransitivity; [exact Hr|]. by eapply rtc_l.
Qed.

Lemma published_ends S : sys_inv S -> ~ is_writing S -> s_bpc S = BPublished -> exists S', bg_steps S S' /\ s_bpc S' = BIdle.
Proof.
  intros HI Hnw Hb. destruct (iv_log _ HI) as [st HL]. pose proof (regions_count _ _ HL) as Hc.
  destruct (hold_all_fits (for_each_region (s_tx S)) no_marks) as [m E]; [cbn; lia|].
  assert (Hst := st_observe rank world_size capability S m Hb E).
  destruct (mark_ends _ _ (bg_step_inv _ _ HI Hst) Hnw eq_refl) as (S' & Hs & Hi). exists S'. split; [by eapply rtc_l|done].
Qed.

Lemma callback_ends S a region : sys_inv S -> ~ is_writing S -> s_bpc S = BCallback a region -> region_content_hash region <> 0 ->
  displacements (s_tx S) < UINT64_MAX -> exists S', bg_steps S S' /\ s_bpc S' = BIdle.
Proof.
  intros HI Hnw Hb Hr Hd. destruct (iv_log _ HI) as [st HL]. pose proof (iv_bpc _ HI) as Hm. unfold bpc_ok in Hm. rewrite Hb in Hm.
  destruct (tx_publish_ok _ st (s_step S) a (region_content_hash region) _ (None, None, None, None) HL (proj1 Hm) Hr Hd) as (L & _ & E & _).
  assert (Hst := st_commit rank world_size capability S a region _ L Hb Hd E).
  destruct (published_ends _ (bg_step_inv _ _ HI Hst) Hnw eq_refl) as (S' & Hs & Hi). exists S'. split; [by eapply rtc_l|done].
Qed.

(** C10: in every reachable state of the two threads, each region that a holder can name (the foreground's active region,
    its region in alignment, its cache, the region of a rollback, the publication slot, the transaction log, the queue of
    uncompiled regions) has its node in memory, the foreground is well formed over those nodes, and the next step of the
    publish stage, its sweep included, changes no such node. *)
Theorem no_region_released_while_read w m S :
  sys_reach rank world_size capability w m S ->
  vigil_ok (s_heap S) (s_fg S) /\
  forall a, a <> 0 -> named S a ->
    is_Some (s_heap S a) /\ forall S', bg_step rank world_size capability S S' -> s_heap S' a = s_heap S a.
Proof.
  intros HR%sys_reach_inv. split; [apply HR|]. intros a Ha Hn. split; [by apply named_live|]. intros S' Hs. by apply bg_step_heap.
Qed.

(** C11: from every reachable state in which the foreground is not between the two increments of its counter, the publish
    stage alone finishes the publication in progress: the marks of the owner never overflow, the read of the held regions
    succeeds, and the sweep runs. *)
Theorem publication_ends w m S :
  sys_reach rank world_size capability w m S -> ~ is_writing S ->
  (forall a region, s_bpc S = BCallback a region -> region_content_hash region <> 0 /\ displacements (s_tx S) < UINT64_MAX) ->
  exists S', bg_steps S S' /\ s_bpc S' = BIdle.
Proof.
  intros HI%sys_reach_inv Hnw Hcb. destruct (s_bpc S) as [|a region| |mk|mk before i read|] eqn:Hb.
  - exists S. split; [apply rtc_refl|done].
  - destruct (Hcb a region eq_refl). by eapply callback_ends.
  - by apply published_ends.
  - by eapply mark_ends.
  - by eapply read_ends.
  - by apply sweep_ends.
Qed.
End Steps.

(** ** A publication that meets a dispatch *)

Definition wit_parts : BuiltRegion :=
  mkBuilt (region_ops (wit_align_region wit_gs)) [] 0 [wit_slot 512 0 1 false] 77 0.

Definition wit_sys0 : Sys := new_sys wit_world wit_mem.

(** The region is published, and the foreground takes it before the publish
    stage looks at the slot. *)
Definition wit_sys1 : Sys :=
  match publish_begin 0 1 0 (s_pub wit_sys0) (v_meta (s_fg wit_sys0)) 65536 wit_parts with
  | Ok (Some region, B, L) =>
      mkSys (set_logs (s_fg wit_sys0) (v_ring (s_fg wit_sys0)) L) 0 (s_cells wit_sys0) B new_txlog 0 [] FIdle (BCallback 65536 region)
  | _ => wit_sys0
  end.
Definition wit_tx : TransactionLog :=
  match tx_publish new_txlog 0 65536 77 77 (None, None, None, None) with Ok L => L | Fatal _ => new_txlog end.
Definition wit_sys2 : Sys := mkSys (set_slot (s_fg wit_sys1) 65536) 0 (s_cells wit_sys1) (s_pub wit_sys1) wit_tx 1 [] FIdle BPublished.
Definition wit_sys3 : Sys :=
  match dispatch_op (M := bump_pool_mem) (s_heap wit_sys2) (s_fg wit_sys2) (wit_rq (11, 1)) with
  | Ok (_, _, V) => set_fg wit_sys2 V FCold
  | Fatal _ => wit_sys0
  end.

Lemma wit_publishable : publishable wit_parts.
Proof.
  split.
  - repeat constructor; vm_compute; congruence.
  - vm_compute. reflexivity.
  - vm_compute. reflexivity.
  - intros [|[|i]] s Hs; vm_compute in Hs; [|done..]. by injection Hs as <-.
Qed.

Lemma wit_sys3_reach : sys_reach (M := bump_pool_mem) 0 1 0 wit_world wit_mem wit_sys3.
Proof.
  assert (R1 : sys_reach (M := bump_pool_mem) 0 1 0 wit_world wit_mem wit_sys1).
  { eapply sr_bg; [apply sr_new|]. eapply (st_publish 0 1 0 wit_sys0 65536 wit_parts); [done|done|vm_compute; reflexivity|apply wit_publishable|vm_compute; reflexivity]. }
  assert (R2 : sys_reach (M := bump_pool_mem) 0 1 0 wit_world wit_mem wit_sys2).
  { eapply sr_bg; [exact R1|]. eapply (st_commit 0 1 0 wit_sys1 65536 _ (None, None, None, None)); vm_compute; reflexivity. }
  eapply sr_fg; [exact R2|]. eapply (st_dispatch wit_sys2 (wit_rq (11, 1)) true); [done|vm_compute; reflexivity].
Qed.

Lemma publication_ends_witness : exists S', bg_steps 0 1 0 wit_sys3 S' /\ s_bpc S' = BIdle /\ s_bpc wit_sys3 = BPublished.
Proof.
  destruct (publication_ends (M := bump_pool_mem) (HM := bump_pool_mem_ok) 0 1 0 wit_world wit_mem wit_sys3 wit_sys3_reach) as (S' & H1 & H2).
  - vm_compute. tauto.
  - intros a region E. vm_compute in E. discriminate.
  - exists S'. split; [exact H1|]. split; [exact H2|]. vm_compute. reflexivity.
Defined.

(** The publish stage then reads the cells, which name nothing yet, and stops
    before the sweep. *)
Definition wit_marks : RegionMarks := mkMarks [65536] 0 false 0.
Definition wit_sys4 (i : nat) : Sys := set_bg wit_sys3 (s_pub wit_sys3) (BRead wit_marks 0 i wit_marks).
Definition wit_sys5 : Sys := set_bg (wit_sys4 10) (set_region_marks (s_pub wit_sys3) (set_foreground wit_marks 0)) BSweep.

Lemma wit_sys4_reach i : (i <= 10)%nat -> sys_reach (M := bump_pool_mem) 0 1 0 wit_world wit_mem (wit_sys4 i).
Proof.
  induction i as [|i IH]; intros Hi.
  - eapply sr_bg; [|eapply (st_read_begin 0 1 0 (set_bg wit_sys3 (s_pub wit_sys3) (BMark wit_marks)))]; [|vm_compute; reflexivity..].
    eapply sr_bg; [apply wit_sys3_reach|]. apply (st_observe 0 1 0 wit_sys3 wit_marks); vm_compute; reflexivity.
  - eapply sr_bg; [apply IH; lia|]. eapply (st_read_cell 0 1 0 (wit_sys4 i) wit_marks 0 i wit_marks 0); [done| |done].
    do 10 (destruct i as [|i]; [vm_compute; reflexivity|]). lia.
Qed.

Lemma wit_sys5_reach : sys_reach (M := bump_pool_mem) 0 1 0 wit_world wit_mem wit_sys5.
Proof. eapply sr_bg; [apply (wit_sys4_reach 10); lia|]. by eapply (st_read_done 0 1 0 (wit_sys4 10) wit_marks 0 10 wit_marks). Qed.

Lemma no_region_released_while_read_witness :
  s_cells wit_sys5 = replicate 10 0 /\ pending_activation_ (s_fg wit_sys5) = 65536 /\
  s_heap (set_bg wit_sys5 (sweep_regions_ (s_pub wit_sys5)) BIdle) 65536 = s_heap wit_sys5 65536.
Proof.
  destruct (no_region_released_while_read (M := bump_pool_mem) (HM := bump_pool_mem_ok) 0 1 0 wit_world wit_mem wit_sys5 wit_sys5_reach) as [_ H].
  split; [vm_compute; reflexivity|]. split; [vm_compute; reflexivity|].
  apply (H 65536); [done| |by apply st_sweep]. left. left. split; [done|]. vm_compute. left.
Defined.
