(* ===== verification/SwissTable.v ===== *)
(** * SwissTable.v: the control groups of the hash tables
    (include/crucible/SwissTable.h)

    A table keeps one control byte for each slot: 0x80 for an empty slot, or
    the top seven bits of the hash.  A probe loads a group of control bytes and
    gets a bit mask of the bytes that can match.  The header has one arm for
    each instruction set, and the class [CtrlGroup] is what a table uses of the
    active one.  The vector arms are compare instructions, so they are exact.
    The portable arm computes on words.  Its gather of the high bits loses the
    last byte of each word, so its masks see seven slots of eight; the laws of
    the class leave room for that, and they hold for each arm. *)

From stdpp Require Import base list strings.
From Stdlib Require Import ZArith Lia.
From S2P Require Import Prelude.
#[local] Open Scope Z_scope.
#[local] Open Scope result_scope.

Definition kEmpty : Z := 128.

Definition h2_tag (hash : Z) : Z := Z.shiftr hash 57.

(** ** BitMask *)

(** std::countr_zero at 64 bits. *)
Definition countr_zero (m : Z) : Z := default 64 (list_find (fun i => Z.testbit m i = true) (seqZ 0 64) ≫= fun p => Some p.2).

Definition lowest (m : Z) : result Z :=
  let* _ := require (negb (m =? 0)) "raw() != 0" in Ok (countr_zero m).

Definition clear_lowest (m : Z) : Z := Z.land m (wrap 64 (m - 1)).

(** ** The interface of a group *)

(** [group_width] slots at a time; [match_ bytes h2] and [match_empty bytes]
    are the masks of one group. *)
Class CtrlGroup := {
  group_width : Z;
  match_ : list Z -> Z -> Z;
  match_empty : list Z -> Z;
}.

Definition group_bytes (W : Z) (bytes : list Z) : Prop :=
  Z.of_nat (length bytes) = W /\ Forall (fun b => 0 <= b < 256) bytes.

(** The slots that the masks see, at least seven of eight.  A mask of
    [match_empty] has exactly the empty slots that it sees.  A mask of [match_]
    has each slot with the tag that it sees, and no slot that is empty. *)
Class CtrlGroupOk (G : CtrlGroup) := {
  seen : Z -> bool;
  gw_width : group_width = 16 \/ group_width = 32 \/ group_width = 64;
  gw_seen : 7 * group_width <= 8 * Z.of_nat (length (filter (fun i => seen i = true) (seqZ 0 group_width)));
  gw_match_range bytes t : group_bytes group_width bytes -> 0 <= t < 128 -> 0 <= match_ bytes t < 2 ^ group_width;
  gw_empty_range bytes : group_bytes group_width bytes -> 0 <= match_empty bytes < 2 ^ group_width;
  gw_match bytes t i : group_bytes group_width bytes -> 0 <= t < 128 -> 0 <= i < group_width ->
    seen i = true -> aget 0 bytes i = t -> Z.testbit (match_ bytes t) i = true;
  gw_match_held bytes t i : group_bytes group_width bytes -> 0 <= t < 128 -> 0 <= i < group_width ->
    Z.testbit (match_ bytes t) i = true -> seen i = true /\ aget 0 bytes i < 128;
  gw_empty bytes i : group_bytes group_width bytes -> 0 <= i < group_width ->
    Z.testbit (match_empty bytes) i = seen i && (128 <=? aget 0 bytes i);
}.

(** ** The vector arms *)

(** One bit for each lane: the movemask of a lane-wise comparison. *)
Fixpoint movemask (lanes : list bool) : Z :=
  match lanes with [] => 0 | b :: lanes => Z.b2z b + 2 * movemask lanes end.

Definition vector_match (bytes : list Z) (h2 : Z) : Z := movemask ((fun b => b =? h2) <$> bytes).

(** The sign bit of each byte. *)
Definition vector_match_empty (bytes : list Z) : Z := movemask ((fun b => Z.testbit b 7) <$> bytes).

(** 64 with AVX-512BW, 32 with AVX2, 16 with SSE2 and NEON. *)
Definition vector_group (W : Z) : CtrlGroup := {| group_width := W; match_ := vector_match; match_empty := vector_match_empty |}.

(** ** The portable arm *)

(** The word that memcpy makes of eight bytes, the first byte lowest. *)
Fixpoint word_of (bytes : list Z) : Z := match bytes with [] => 0 | b :: bytes => b + 256 * word_of bytes end.

Definition hi_magic : Z := 0x8080808080808080.
Definition lo_magic : Z := 0x0101010101010101.

Definition extract_highbits (v : Z) : Z :=
  let bits := Z.land v hi_magic in
  Z.shiftr (bits ⊠ 0x0002040810204080)%u64 56.

(** Bit 7 of each byte of [x] that is zero. *)
Definition zero_bytes (x : Z) : Z := Z.land (Z.land (x ⊟ lo_magic)%u64 (lnot64 x)) hi_magic.

Definition swar_match (bytes : list Z) (h2 : Z) : Z :=
  let lo := word_of (take 8 bytes) in
  let hi := word_of (take 8 (drop 8 bytes)) in
  let needle := (h2 ⊠ lo_magic)%u64 in
  let xor_lo := Z.lxor lo needle in
  let xor_hi := Z.lxor hi needle in
  Z.lor (extract_highbits (zero_bytes xor_lo)) (wrap 64 (Z.shiftl (extract_highbits (zero_bytes xor_hi)) 8)).

Definition swar_match_empty (bytes : list Z) : Z :=
  let lo := word_of (take 8 bytes) in
  let hi := word_of (take 8 (drop 8 bytes)) in
  Z.lor (extract_highbits lo) (wrap 64 (Z.shiftl (extract_highbits hi) 8)).

Definition portable_group : CtrlGroup := {| group_width := 16; match_ := swar_match; match_empty := swar_match_empty |}.

(** ** Masks *)

Lemma countr_zero_spec m : 0 < m < 2 ^ 64 ->
  0 <= countr_zero m < 64 /\ Z.testbit m (countr_zero m) = true /\ forall i, 0 <= i < countr_zero m -> Z.testbit m i = false.
Proof.
  intros Hm. unfold countr_zero. destruct (list_find _ (seqZ 0 64)) as [[k i]|] eqn:E; cbn [mbind option_bind default].
  - apply list_find_Some in E as (Hk & Ht & Hlt). apply lookup_seqZ in Hk as [-> Hk]. rewrite Z.add_0_l in *. cbn [snd]. unfold id. split_and!; [lia|lia|done|].
    intros j Hj. specialize (Hlt (Z.to_nat j) j). rewrite lookup_seqZ in Hlt. specialize (Hlt ltac:(lia) ltac:(lia)). by destruct (Z.testbit m j).
  - exfalso. apply list_find_None in E. assert (Hl := Z.log2_spec m ltac:(lia)).
    assert (Hlog : 0 <= Z.log2 m < 64) by (split; [apply Z.log2_nonneg|apply Z.log2_lt_pow2; lia]).
    rewrite Forall_forall in E. apply (E (Z.log2 m)); [apply elem_of_seqZ; lia|]. apply Z.bit_log2. lia.
Qed.

(** A mask around its lowest set bit. *)
Lemma split_lowest m l : 0 <= l -> Z.testbit m l = true -> (forall i, 0 <= i < l -> Z.testbit m i = false) ->
  m = 2 ^ l + 2 ^ (l + 1) * (m / 2 ^ (l + 1)).
Proof.
  intros Hl Ht Hlow. rewrite (Z.div_mod m (2 ^ (l + 1))) at 1 by (apply Z.pow_nonzero; lia).
  enough (m mod 2 ^ (l + 1) = 2 ^ l) by lia. apply Z.bits_inj'. intros i Hi.
  rewrite Z.pow2_bits_eqb by lia. destruct (Z.lt_ge_cases i (l + 1)).
  - rewrite Z.mod_pow2_bits_low by lia. destruct (Z.eqb_spec l i) as [->|]; [done|]. apply Hlow. lia.
  - rewrite Z.mod_pow2_bits_high by lia. destruct (Z.eqb_spec l i); [lia|done].
Qed.

Lemma testbit_high a l q i : 0 <= l -> 0 <= a < 2 ^ (l + 1) -> l < i -> Z.testbit (a + 2 ^ (l + 1) * q) i = Z.testbit q (i - (l + 1)).
Proof.
  intros Hl Ha Hi. replace i with (i - (l + 1) + (l + 1)) at 1 by lia. rewrite <- Z.div_pow2_bits by lia.
  rewrite Z.mul_comm, Z.div_add, (Z.div_small a) by (try apply Z.pow_nonzero; lia). done.
Qed.

Lemma clear_lowest_bits m i : 0 < m < 2 ^ 64 -> 0 <= i -> Z.testbit (clear_lowest m) i = Z.testbit m i && negb (i =? countr_zero m).
Proof.
  intros Hm Hi. destruct (countr_zero_spec m Hm) as (Hl & Ht & Hlow). set (l := countr_zero m) in *.
  unfold clear_lowest. rewrite wrap_small by lia. rewrite Z.land_spec. pose proof (split_lowest m l ltac:(lia) Ht Hlow) as Em. set (q := m / 2 ^ (l + 1)) in *.
  assert (Hp : 0 < 2 ^ l) by (apply Z.pow_pos_nonneg; lia). assert (Hp2 : 2 ^ (l + 1) = 2 * 2 ^ l) by (rewrite Z.pow_add_r by lia; lia).
  destruct (Z.lt_trichotomy i l) as [H|[->|H]].
  - rewrite (Hlow i ltac:(lia)). done.
  - rewrite Ht, Z.eqb_refl. cbn. rewrite Z.testbit_odd, Z.shiftr_div_pow2 by lia.
    replace (m - 1) with (2 ^ l - 1 + 2 * q * 2 ^ l) by lia. rewrite Z.div_add, Z.div_small by lia. by rewrite Z.add_0_l, Z.odd_mul.
  - rewrite (proj2 (Z.eqb_neq i l)) by lia. cbn. rewrite Em at 1 2 3. replace (2 ^ l + 2 ^ (l + 1) * q - 1) with (2 ^ l - 1 + 2 ^ (l + 1) * q) by lia.
    rewrite !testbit_high by lia. by destruct (Z.testbit q _).
Qed.

Lemma clear_lowest_range m : 0 < m < 2 ^ 64 -> 0 <= clear_lowest m < m.
Proof.
  intros Hm. destruct (countr_zero_spec m Hm) as (Hl & Ht & Hlow). pose proof (split_lowest m _ (proj1 Hl) Ht Hlow) as Em.
  set (l := countr_zero m) in *. set (q := m / 2 ^ (l + 1)) in *. assert (Hp : 0 < 2 ^ l) by (apply Z.pow_pos_nonneg; lia).
  assert (Hq : 0 <= q) by (apply Z.div_pos; [lia|apply Z.pow_pos_nonneg; lia]).
  enough (clear_lowest m = 2 ^ (l + 1) * q) as E by (assert (0 <= 2 ^ (l + 1) * q) by (apply Z.mul_nonneg_nonneg; lia); lia).
  apply Z.bits_inj'. intros i Hi. rewrite clear_lowest_bits by done. fold l. destruct (Z.lt_ge_cases i (l + 1)).
  - rewrite Z.mul_comm, Z.mul_pow2_bits_low by lia. destruct (Z.eqb_spec i l) as [->|]; [by rewrite andb_false_r|]. by rewrite Hlow by lia.
  - rewrite (proj2 (Z.eqb_neq i l)), andb_true_r by lia. rewrite Em at 1. rewrite testbit_high; [|lia|rewrite Z.pow_add_r by lia; lia|lia].
    rewrite Z.mul_comm, Z.mul_pow2_bits by lia. done.
Qed.

Lemma movemask_range l : 0 <= movemask l < 2 ^ Z.of_nat (length l).
Proof.
  induction l as [|b l IH]; cbn [movemask length]; [cbn; lia|]. rewrite Nat2Z.inj_succ, Z.pow_succ_r by lia. destruct b; cbn; lia.
Qed.

Lemma movemask_bit l i : 0 <= i -> Z.testbit (movemask l) i = aget false l i.
Proof.
  revert i. induction l as [|b l IH]; intros i Hi; cbn [movemask]; [rewrite Z.bits_0; unfold aget; by rewrite lookup_nil|].
  rewrite Z.add_comm. destruct (Z.eq_dec i 0) as [->|Hne].
  - rewrite Z.add_comm, Z.add_b2z_double_bit0. done.
  - replace i with (Z.succ (i - 1)) by lia. rewrite Z.testbit_succ_r, IH by lia. unfold aget.
    replace (Z.to_nat (Z.succ (i - 1))) with (S (Z.to_nat (i - 1))) by lia. done.
Qed.

(** ** Bytes and words *)

Definition is_byte (b : Z) : Prop := 0 <= b < 256.

(** A statement on every byte, checked byte by byte. *)
Lemma all_bytes (P : Z -> bool) : forallb P (seqZ 0 256) = true -> forall b, is_byte b -> P b = true.
Proof. intros H b Hb. rewrite forallb_forall in H. apply H, list_elem_of_In, elem_of_seqZ. unfold is_byte in Hb. lia. Qed.

Lemma byte_bit7 b : is_byte b -> Z.testbit b 7 = (128 <=? b).
Proof.
  intros Hb. apply eqb_prop. revert b Hb. apply (all_bytes (fun b => eqb (Z.testbit b 7) (128 <=? b))). vm_compute. reflexivity.
Qed.

Lemma byte_below b x : 0 <= x -> (forall i, 8 <= i -> Z.testbit x i = false) -> b = x -> is_byte b.
Proof.
  intros Hx Hi ->. unfold is_byte. assert (E : x = x mod 2 ^ 8) by (apply Z.bits_inj'; intros i Hi0; destruct (Z.lt_ge_cases i 8);
    [by rewrite Z.mod_pow2_bits_low by lia|rewrite Z.mod_pow2_bits_high by lia; auto]).
  pose proof (Z.mod_pos_bound x (2 ^ 8)). lia.
Qed.

Lemma byte_high b i : is_byte b -> 8 <= i -> Z.testbit b i = false.
Proof.
  intros Hb Hi. destruct (Z.eq_dec b 0) as [->|]; [apply Z.bits_0|]. apply Z.bits_above_log2; [unfold is_byte in Hb; lia|].
  apply Z.log2_lt_pow2; [unfold is_byte in Hb; lia|]. pose proof (Z.pow_le_mono_r 2 8 i). unfold is_byte in Hb. lia.
Qed.

Lemma byte_land a b : is_byte a -> is_byte b -> is_byte (Z.land a b).
Proof.
  intros Ha Hb. eapply byte_below; [| |reflexivity]; [apply Z.land_nonneg; left; apply Ha|]. intros i Hi. by rewrite Z.land_spec, byte_high.
Qed.

Lemma byte_lxor a b : is_byte a -> is_byte b -> is_byte (Z.lxor a b).
Proof.
  intros Ha Hb. eapply byte_below; [| |reflexivity]; [apply Z.lxor_nonneg; unfold is_byte in *; lia|].
  intros i Hi. by rewrite Z.lxor_spec, (byte_high a), (byte_high b).
Qed.

Lemma cons_bit b w i : is_byte b -> 0 <= i -> Z.testbit (b + 256 * w) i = if i <? 8 then Z.testbit b i else Z.testbit w (i - 8).
Proof.
  intros Hb Hi. destruct (Z.ltb_spec i 8).
  - assert (E : b = (b + 256 * w) mod 2 ^ 8) by (change (2 ^ 8) with 256; rewrite Z.mul_comm, Z.mod_add, Z.mod_small; [done|apply Hb|done]).
    rewrite E at 2. by rewrite Z.mod_pow2_bits_low by lia.
  - change 256 with (2 ^ (7 + 1)). rewrite testbit_high; [f_equal; lia|lia|apply Hb|lia].
Qed.

Lemma land_cons b c w v : is_byte b -> is_byte c -> Z.land (b + 256 * w) (c + 256 * v) = Z.land b c + 256 * Z.land w v.
Proof.
  intros Hb Hc. apply Z.bits_inj'. intros i Hi. rewrite Z.land_spec, !cons_bit by auto using byte_land. destruct (i <? 8); by rewrite Z.land_spec.
Qed.

Lemma lxor_cons b c w v : is_byte b -> is_byte c -> Z.lxor (b + 256 * w) (c + 256 * v) = Z.lxor b c + 256 * Z.lxor w v.
Proof.
  intros Hb Hc. apply Z.bits_inj'. intros i Hi. rewrite Z.lxor_spec, !cons_bit by auto using byte_lxor. destruct (i <? 8); by rewrite Z.lxor_spec.
Qed.

Abbreviation bytes_ok := (Forall is_byte).

Lemma word_range bs : bytes_ok bs -> 0 <= word_of bs < 256 ^ Z.of_nat (length bs).
Proof.
  induction 1 as [|b bs Hb _ IH]; cbn [word_of length]; [cbn; lia|]. rewrite Nat2Z.inj_succ, Z.pow_succ_r by lia. unfold is_byte in Hb. lia.
Qed.

Lemma word_land bs cs : bytes_ok bs -> bytes_ok cs -> length bs = length cs -> Z.land (word_of bs) (word_of cs) = word_of (zip_with Z.land bs cs).
Proof.
  intros Hb. revert cs. induction Hb as [|b bs Hb _ IH]; intros [|c cs] Hc El; try done. apply Forall_cons in Hc as [Hc Hcs].
  cbn [word_of zip_with]. rewrite land_cons, IH by (auto; cbn in El; lia). done.
Qed.

Lemma word_lxor bs cs : bytes_ok bs -> bytes_ok cs -> length bs = length cs -> Z.lxor (word_of bs) (word_of cs) = word_of (zip_with Z.lxor bs cs).
Proof.
  intros Hb. revert cs. induction Hb as [|b bs Hb _ IH]; intros [|c cs] Hc El; try done. apply Forall_cons in Hc as [Hc Hcs].
  cbn [word_of zip_with]. rewrite lxor_cons, IH by (auto; cbn in El; lia). done.
Qed.

Lemma word_not bs : word_of ((fun b => 255 - b) <$> bs) = 256 ^ Z.of_nat (length bs) - 1 - word_of bs.
Proof.
  induction bs as [|b bs IH]; [done|]. rewrite fmap_cons. cbn [word_of length]. rewrite IH, Nat2Z.inj_succ, Z.pow_succ_r by lia. lia.
Qed.

(** The bytes of [word_of bs - lo_magic], with the borrow [c] into the first. *)
Fixpoint minus_ones (bs : list Z) (c : Z) : list Z :=
  match bs with [] => [] | b :: bs => (b - 1 - c) mod 256 :: minus_ones bs (if b <? 1 + c then 1 else 0) end.

Lemma minus_ones_ok bs c : bytes_ok (minus_ones bs c) /\ length (minus_ones bs c) = length bs.
Proof.
  revert c. induction bs as [|b bs IH]; intros c; cbn [minus_ones length]; [done|]. destruct (IH (if b <? 1 + c then 1 else 0)) as [? ->].
  split; [constructor; [apply Z.mod_pos_bound; lia|done]|done].
Qed.

Lemma word_minus_ones bs c : bytes_ok bs -> c = 0 \/ c = 1 ->
  (word_of bs - word_of (replicate (length bs) 1) - c) mod 256 ^ Z.of_nat (length bs) = word_of (minus_ones bs c).
Proof.
  intros Hb. revert c. induction Hb as [|b bs Hb _ IH]; intros c Hc; cbn [word_of minus_ones length replicate]; [by rewrite Z.mod_1_r|].
  rewrite Nat2Z.inj_succ, Z.pow_succ_r by lia. rewrite <- IH by (destruct (b <? 1 + c); auto).
  set (w := word_of bs). set (v := word_of (replicate _ 1)). set (N := 256 ^ Z.of_nat (length bs)).
  assert (HN : 0 < N) by (apply Z.pow_pos_nonneg; lia). set (c' := if b <? 1 + c then 1 else 0).
  assert (E : b + 256 * w - (1 + 256 * v) - c = (b - 1 - c) mod 256 + 256 * (w - v - c')).
  { unfold is_byte in Hb. subst c'. destruct (Z.ltb_spec b (1 + c)).
    - rewrite <- (Z.mod_unique_pos (b - 1 - c) 256 (-1) (b - 1 - c + 256)) by lia. lia.
    - rewrite Z.mod_small by lia. lia. }
  rewrite E. pose proof (Z.mod_pos_bound (b - 1 - c) 256 ltac:(lia)). pose proof (Z.mod_pos_bound (w - v - c') N HN).
  symmetry. apply (Z.mod_unique_pos _ _ ((w - v - c') / N)); [lia|]. pose proof (Z.div_mod (w - v - c') N ltac:(lia)). lia.
Qed.

(** ** The portable masks *)

(** The bytes of [zero_bytes]: bit 7 where the byte is zero, or is one below a
    borrow. *)
Fixpoint zero_chain (bs : list Z) (c : Z) : list bool :=
  match bs with [] => [] | b :: bs => ((b <? 128) && (b <? 1 + c)) :: zero_chain bs (if b <? 1 + c then 1 else 0) end.

Lemma zero_byte b c : is_byte b -> c = 0 \/ c = 1 ->
  Z.land (Z.land ((b - 1 - c) mod 256) (255 - b)) 128 = 128 * Z.b2z ((b <? 128) && (b <? 1 + c)).
Proof.
  intros Hb Hc. apply Z.eqb_eq. revert b Hb. destruct Hc as [->| ->].
  - apply (all_bytes (fun b => Z.land (Z.land ((b - 1 - 0) mod 256) (255 - b)) 128 =? 128 * Z.b2z ((b <? 128) && (b <? 1 + 0)))). vm_compute. reflexivity.
  - apply (all_bytes (fun b => Z.land (Z.land ((b - 1 - 1) mod 256) (255 - b)) 128 =? 128 * Z.b2z ((b <? 128) && (b <? 1 + 1)))). vm_compute. reflexivity.
Qed.

Lemma zero_chain_bytes bs c : bytes_ok bs -> c = 0 \/ c = 1 ->
  zip_with Z.land (zip_with Z.land (minus_ones bs c) ((fun b => 255 - b) <$> bs)) (replicate (length bs) 128) = (fun h => 128 * Z.b2z h) <$> zero_chain bs c.
Proof.
  intros Hb. revert c. induction Hb as [|b bs Hb _ IH]; intros c Hc; cbn [minus_ones zip_with replicate length zero_chain fmap list_fmap]; [done|].
  rewrite zero_byte by done. f_equal. apply IH. destruct (b <? 1 + c); auto.
Qed.

Lemma length_zero_chain bs c : length (zero_chain bs c) = length bs.
Proof. revert c. induction bs as [|b bs IH]; intros c; cbn; [done|]. by rewrite IH. Qed.

Lemma byte_ok_bits l : bytes_ok ((fun h => 128 * Z.b2z h) <$> l).
Proof. induction l as [|[] l IH]; constructor; try done. Qed.

Lemma word8_range bs : bytes_ok bs -> length bs = 8%nat -> 0 <= word_of bs < 2 ^ 64.
Proof. intros Hb El. pose proof (word_range bs Hb) as H. rewrite El in H. change (256 ^ Z.of_nat 8) with (2 ^ 64) in H. done. Qed.

Lemma zero_bytes_word bs : bytes_ok bs -> length bs = 8%nat ->
  zero_bytes (word_of bs) = word_of ((fun h => 128 * Z.b2z h) <$> zero_chain bs 0).
Proof.
  intros Hb El. rewrite <- zero_chain_bytes by auto. pose proof (minus_ones_ok bs 0) as [Hm Hml]. pose proof (word8_range bs Hb El).
  assert (Hnb : bytes_ok ((fun b => 255 - b) <$> bs)) by (apply Forall_fmap; eapply Forall_impl; [exact Hb|]; unfold is_byte; cbn; lia).
  rewrite <- !word_land; auto.
  - assert (E1 : (word_of bs ⊟ lo_magic)%u64 = word_of (minus_ones bs 0)).
    { rewrite <- (word_minus_ones bs 0) by auto. rewrite El. unfold wrap. by rewrite Z.sub_0_r. }
    assert (E2 : lnot64 (word_of bs) = word_of ((fun b => 255 - b) <$> bs)).
    { rewrite word_not, El. unfold lnot64, wrap. change (256 ^ Z.of_nat 8) with (2 ^ 64).
      rewrite <- (Z.mod_unique_pos _ _ (-1) (2 ^ 64 - 1 - word_of bs)); unfold Z.lnot; lia. }
    unfold zero_bytes. by rewrite E1, E2, El.
  - by rewrite Hml, length_fmap.
  - apply Forall_lookup. intros i x Hx. apply lookup_zip_with_Some in Hx as (y & z & -> & Hy & Hz).
    apply byte_land; [by eapply (proj1 (Forall_lookup _ _) Hm)|by eapply (proj1 (Forall_lookup _ _) Hnb)].
  - by apply Forall_replicate.
  - rewrite length_zip_with, Hml, length_fmap, length_replicate. lia.
Qed.

(** The gather of the high bits keeps the first seven of the eight. *)
Lemma extract_bools h0 h1 h2 h3 h4 h5 h6 h7 :
  extract_highbits (word_of ((fun h => 128 * Z.b2z h) <$> [h0; h1; h2; h3; h4; h5; h6; h7])) = movemask [h0; h1; h2; h3; h4; h5; h6].
Proof. destruct h0, h1, h2, h3, h4, h5, h6, h7; vm_compute; reflexivity. Qed.

Lemma extract_flags hs : length hs = 8%nat -> extract_highbits (word_of ((fun h => 128 * Z.b2z h) <$> hs)) = movemask (take 7 hs).
Proof. intros El. do 8 (destruct hs as [|? hs]; [done|]). destruct hs; [|done]. apply extract_bools. Qed.

Lemma byte_land_128 b : is_byte b -> Z.land b 128 = 128 * Z.b2z (128 <=? b).
Proof.
  intros Hb. apply Z.eqb_eq. revert b Hb. apply (all_bytes (fun b => Z.land b 128 =? 128 * Z.b2z (128 <=? b))). vm_compute. reflexivity.
Qed.

Lemma land_hi_magic bs : bytes_ok bs -> length bs = 8%nat -> Z.land (word_of bs) hi_magic = word_of ((fun h => 128 * Z.b2z h) <$> ((fun b => 128 <=? b) <$> bs)).
Proof.
  intros Hb El. change hi_magic with (word_of (replicate 8 128)). rewrite word_land by (auto; by apply Forall_replicate). f_equal. rewrite <- El. clear El.
  induction Hb as [|b bs Hb _ IH]; cbn [length replicate zip_with fmap list_fmap]; [done|]. f_equal; [by apply byte_land_128|exact IH].
Qed.

Lemma extract_word bs : bytes_ok bs -> length bs = 8%nat -> extract_highbits (word_of bs) = movemask ((fun b => 128 <=? b) <$> take 7 bs).
Proof.
  intros Hb El. rewrite fmap_take, <- extract_flags by (by rewrite length_fmap). unfold extract_highbits. rewrite <- land_hi_magic by done.
  by rewrite <- Z.land_assoc, Z.land_diag.
Qed.

(** The mask of the two halves. *)
Lemma join_halves (a b : list bool) i : length a = 7%nat -> length b = 7%nat -> 0 <= i < 16 ->
  Z.testbit (Z.lor (movemask a) (wrap 64 (Z.shiftl (movemask b) 8))) i = if i <? 8 then aget false a i else aget false b (i - 8).
Proof.
  intros Ha Hb Hi. pose proof (movemask_range a) as Ra. pose proof (movemask_range b) as Rb. rewrite Ha in Ra. rewrite Hb in Rb. change (2 ^ Z.of_nat 7) with 128 in *.
  rewrite wrap_small by (rewrite Z.shiftl_mul_pow2 by lia; lia). rewrite Z.lor_spec, Z.shiftl_spec by lia. rewrite movemask_bit by lia.
  destruct (Z.ltb_spec i 8).
  - rewrite (Z.testbit_neg_r _ (i - 8)) by lia. by rewrite orb_false_r.
  - rewrite movemask_bit by lia. unfold aget at 1. rewrite lookup_ge_None_2 by lia. done.
Qed.

Lemma join_range (a b : list bool) : length a = 7%nat -> length b = 7%nat -> 0 <= Z.lor (movemask a) (wrap 64 (Z.shiftl (movemask b) 8)) < 2 ^ 16.
Proof.
  intros Ha Hb. pose proof (movemask_range a) as Ra. pose proof (movemask_range b) as Rb. rewrite Ha in Ra. rewrite Hb in Rb. change (2 ^ Z.of_nat 7) with 128 in *.
  assert (Es : Z.shiftl (movemask b) 8 = 256 * movemask b) by (rewrite Z.shiftl_mul_pow2 by lia; change (2 ^ 8) with 256; lia).
  rewrite wrap_small by lia. assert (E : Z.lor (movemask a) (Z.shiftl (movemask b) 8) = movemask a + 256 * movemask b); [|lia].
  rewrite <- Z.lxor_lor, <- Z.add_nocarry_lxor, Es; [done|..]; apply Z.bits_inj'; intros i Hi; rewrite Z.land_spec, Z.shiftl_spec, Z.bits_0 by lia;
    (destruct (Z.lt_ge_cases i 8); [by rewrite (Z.testbit_neg_r _ (i - 8)), andb_false_r by lia|rewrite byte_high by (unfold is_byte; lia); done]).
Qed.

Lemma zero_chain_at bs c i b : c = 0 \/ c = 1 -> bytes_ok bs -> bs !! i = Some b ->
  exists h, zero_chain bs c !! i = Some h /\ (b = 0 -> h = true) /\ (h = true -> b < 128).
Proof.
  intros Hc Hb. revert c i Hc. induction Hb as [|b0 bs Hb0 _ IH]; intros c i Hc Hi; [done|]. destruct i as [|i]; cbn in Hi.
  - injection Hi as <-. eexists. split; [reflexivity|]. split.
    + intros ->. rewrite (proj2 (Z.ltb_lt 0 128)), (proj2 (Z.ltb_lt 0 (1 + c))) by lia. done.
    + intros [H1 _]%andb_prop. by apply Z.ltb_lt.
  - apply IH; [destruct (b0 <? 1 + c); auto|done].
Qed.

Lemma lxor_below b t : is_byte b -> 0 <= t < 128 -> Z.lxor b t < 128 -> b < 128.
Proof.
  intros Hb Ht Hx. assert (Hxb : is_byte (Z.lxor b t)) by (apply byte_lxor; [done|unfold is_byte; lia]).
  apply Z.leb_gt. rewrite <- byte_bit7 by done. apply Z.leb_gt in Hx. rewrite <- byte_bit7, Z.lxor_spec in Hx by done.
  rewrite (byte_bit7 t) in Hx by (unfold is_byte; lia). rewrite (proj2 (Z.leb_gt 128 t)) in Hx by lia. by rewrite xorb_false_r in Hx.
Qed.

(** One half of the portable match: the flags of eight bytes. *)
Definition half_flags (bs : list Z) (t : Z) : list bool := zero_chain (zip_with Z.lxor bs (replicate 8 t)) 0.

Lemma needle_word t : 0 <= t < 128 -> (t ⊠ lo_magic)%u64 = word_of (replicate 8 t).
Proof. intros Ht. unfold lo_magic. rewrite wrap_small by lia. cbn [replicate word_of]. lia. Qed.

Lemma xor_bytes_ok bs t : bytes_ok bs -> 0 <= t < 128 -> bytes_ok (zip_with Z.lxor bs (replicate 8 t)).
Proof.
  intros Hb Ht. apply Forall_lookup. intros i x Hx. apply lookup_zip_with_Some in Hx as (y & z & -> & Hy & Hz).
  apply lookup_replicate in Hz as [-> _]. apply byte_lxor; [by eapply (proj1 (Forall_lookup _ _) Hb)|unfold is_byte; lia].
Qed.

Lemma half_mask bs t : bytes_ok bs -> length bs = 8%nat -> 0 <= t < 128 ->
  extract_highbits (zero_bytes (Z.lxor (word_of bs) (t ⊠ lo_magic)%u64)) = movemask (take 7 (half_flags bs t)) /\ length (half_flags bs t) = 8%nat.
Proof.
  intros Hb El Ht. assert (Hl : length (zip_with Z.lxor bs (replicate 8 t)) = 8%nat) by (rewrite length_zip_with, El, length_replicate; lia).
  unfold half_flags. rewrite needle_word by done. rewrite word_lxor; [|done|apply Forall_replicate; unfold is_byte; lia|by rewrite length_replicate].
  rewrite zero_bytes_word, extract_flags by (auto using xor_bytes_ok; by rewrite length_zero_chain). by rewrite length_zero_chain.
Qed.

Lemma half_flag bs t i b : bytes_ok bs -> length bs = 8%nat -> 0 <= t < 128 -> bs !! i = Some b ->
  exists h, half_flags bs t !! i = Some h /\ (b = t -> h = true) /\ (h = true -> b < 128).
Proof.
  intros Hb El Ht Hi. pose proof (lookup_lt_Some _ _ _ Hi) as Hlt.
  destruct (zero_chain_at (zip_with Z.lxor bs (replicate 8 t)) 0 i (Z.lxor b t)) as (h & H1 & H2 & H3); [by left|by apply xor_bytes_ok| |].
  - apply lookup_zip_with_Some. exists b, t. split_and!; [done|done|]. apply lookup_replicate_2. lia.
  - exists h. split; [done|]. split; [intros ->; apply H2, Z.lxor_nilpotent|]. intros Hh. apply (lxor_below b t); [by eapply (proj1 (Forall_lookup _ _) Hb)|done|auto].
Qed.

Lemma halves_ok bytes : group_bytes 16 bytes -> bytes_ok (take 8 bytes) /\ length (take 8 bytes) = 8%nat /\ bytes_ok (take 8 (drop 8 bytes)) /\ length (take 8 (drop 8 bytes)) = 8%nat.
Proof.
  intros [El Hb]. rewrite !length_take, length_drop. split_and!; [by apply Forall_take|lia|by apply Forall_take, Forall_drop|lia].
Qed.

(** A byte of the group in its half. *)
Lemma half_lookup bytes i : group_bytes 16 bytes -> 0 <= i < 16 ->
  (if i <? 8 then take 8 bytes !! Z.to_nat i else take 8 (drop 8 bytes) !! Z.to_nat (i - 8)) = Some (aget 0 bytes i).
Proof.
  intros [El Hb] Hi. unfold aget. destruct (lookup_lt_is_Some_2 bytes (Z.to_nat i)) as [b E]; [lia|]. rewrite E. cbn.
  destruct (Z.ltb_spec i 8); rewrite lookup_take_lt by lia; [done|]. rewrite lookup_drop. replace (8 + Z.to_nat (i - 8))%nat with (Z.to_nat i) by lia. done.
Qed.

Definition portable_seen (i : Z) : bool := negb (i mod 8 =? 7).

Lemma aget_take7 (l : list bool) h i : l !! Z.to_nat i = Some h -> 0 <= i < 8 -> aget false (take 7 l) i = negb (i =? 7) && h.
Proof.
  intros Hl Hi. unfold aget. destruct (Z.eqb_spec i 7) as [->|].
  - rewrite lookup_ge_None_2; [done|]. rewrite length_take. lia.
  - rewrite lookup_take_lt by lia. by rewrite Hl.
Qed.

Lemma portable_seen_half i : 0 <= i < 16 -> portable_seen i = if i <? 8 then negb (i =? 7) else negb (i - 8 =? 7).
Proof.
  intros Hi. unfold portable_seen. destruct (Z.ltb_spec i 8); [by rewrite Z.mod_small by lia|].
  replace (i mod 8) with (i - 8) by mod_lia. done.
Qed.

Lemma swar_match_bit bytes t i : group_bytes 16 bytes -> 0 <= t < 128 -> 0 <= i < 16 ->
  exists h, Z.testbit (swar_match bytes t) i = portable_seen i && h /\ (aget 0 bytes i = t -> h = true) /\ (h = true -> aget 0 bytes i < 128).
Proof.
  intros HG Ht Hi. destruct (halves_ok _ HG) as (A1 & A2 & B1 & B2). unfold swar_match.
  destruct (half_mask _ t A1 A2 Ht) as [-> La]. destruct (half_mask _ t B1 B2 Ht) as [-> Lb].
  rewrite join_halves by (rewrite ?length_take; lia). rewrite portable_seen_half by done. pose proof (half_lookup bytes i HG Hi) as Hl. destruct (Z.ltb_spec i 8).
  - destruct (half_flag _ t _ _ A1 A2 Ht Hl) as (h & H1 & H2). exists h. by rewrite (aget_take7 _ h) by (auto; lia).
  - destruct (half_flag _ t _ _ B1 B2 Ht Hl) as (h & H1 & H2). exists h. by rewrite (aget_take7 _ h) by (auto; lia).
Qed.

Lemma swar_empty_bit bytes i : group_bytes 16 bytes -> 0 <= i < 16 -> Z.testbit (swar_match_empty bytes) i = portable_seen i && (128 <=? aget 0 bytes i).
Proof.
  intros HG Hi. destruct (halves_ok _ HG) as (A1 & A2 & B1 & B2). unfold swar_match_empty. rewrite !extract_word by done.
  rewrite join_halves by (rewrite ?length_fmap, ?(length_take (take 8 _)), ?A2, ?B2; lia). rewrite portable_seen_half by done.
  pose proof (half_lookup bytes i HG Hi) as Hl. destruct (Z.ltb_spec i 8); rewrite fmap_take; (erewrite aget_take7; [reflexivity| |lia]); by rewrite list_lookup_fmap, Hl.
Qed.

#[export] Program Instance portable_group_ok : CtrlGroupOk portable_group := {| seen := portable_seen |}.
Next Obligation. by left. Qed.
Next Obligation. vm_compute. congruence. Qed.
Next Obligation.
  intros bytes t HG Ht. destruct (halves_ok _ HG) as (A1 & A2 & B1 & B2). cbn. unfold swar_match.
  destruct (half_mask _ t A1 A2 Ht) as [-> La]. destruct (half_mask _ t B1 B2 Ht) as [-> Lb]. apply join_range; rewrite length_take; lia.
Qed.
Next Obligation.
  intros bytes HG. destruct (halves_ok _ HG) as (A1 & A2 & B1 & B2). cbn. unfold swar_match_empty. rewrite !extract_word by done.
  apply join_range; rewrite length_fmap, length_take; lia.
Qed.
Next Obligation.
  intros bytes t i HG Ht Hi Hs Hb. cbn in *. destruct (swar_match_bit bytes t i HG Ht Hi) as (h & -> & H1 & _). by rewrite Hs, H1.
Qed.
Next Obligation.
  intros bytes t i HG Ht Hi Hb. cbn in *. destruct (swar_match_bit bytes t i HG Ht Hi) as (h & E & _ & H2). rewrite E in Hb. apply andb_prop in Hb as [? ?]. auto.
Qed.
Next Obligation. intros bytes i HG Hi. by apply swar_empty_bit. Qed.

Section Vector.
Context (W : Z) (HW : W = 16 \/ W = 32 \/ W = 64).

#[export] Program Instance vector_group_ok : CtrlGroupOk (vector_group W) := {| seen := fun _ => true |}.
Next Obligation. exact HW. Qed.
Next Obligation. destruct HW as [->|[->| ->]]; vm_compute; congruence. Qed.
Next Obligation.
  intros bytes t [El _] _. cbn. unfold vector_match. pose proof (movemask_range ((fun b => b =? t) <$> bytes)) as H.
  rewrite length_fmap, El in H. exact H.
Qed.
Next Obligation.
  intros bytes [El _]. cbn. unfold vector_match_empty. pose proof (movemask_range ((fun b => Z.testbit b 7) <$> bytes)) as H.
  rewrite length_fmap, El in H. exact H.
Qed.
Next Obligation.
  intros bytes t i [El _] _ Hi _ Hb. cbn in *. unfold vector_match. rewrite movemask_bit by lia. unfold aget in *. rewrite list_lookup_fmap.
  destruct (lookup_lt_is_Some_2 bytes (Z.to_nat i)) as [b E]; [lia|]. rewrite E in *. cbn in *. by apply Z.eqb_eq.
Qed.
Next Obligation.
  intros bytes t i [El _] Ht Hi Hb. cbn in *. split; [done|]. unfold vector_match in Hb. rewrite movemask_bit in Hb by lia. unfold aget in *. rewrite list_lookup_fmap in Hb.
  destruct (lookup_lt_is_Some_2 bytes (Z.to_nat i)) as [b E]; [lia|]. rewrite E in *. cbn in *. apply Z.eqb_eq in Hb. unfold id. lia.
Qed.
Next Obligation.
  intros bytes i [El Hb] Hi. cbn in *. unfold vector_match_empty. rewrite movemask_bit by lia. unfold aget. rewrite list_lookup_fmap.
  destruct (lookup_lt_is_Some_2 bytes (Z.to_nat i)) as [b E]; [lia|]. rewrite E. cbn. unfold id. apply byte_bit7. by eapply (proj1 (Forall_lookup _ _) Hb).
Qed.
End Vector.

(** The gather of the portable arm does not see the high bit of the last byte
    of a word, although its comment names the bits 0 through 7. *)
Example gather_loses_last_byte : extract_highbits (word_of [0; 0; 0; 0; 0; 0; 0; 128]) = 0.
Proof. reflexivity. Qed.
