(* ===== verification/Expr.v ===== *)
(** * Expr.v: the nodes of the symbolic expressions
    (include/crucible/Ops.h, Expr.h, and namespace detail of ExprPool.h)

    A node names its children by their addresses.  Two nodes with one structure
    are one object, so the address is the identity of an expression.  This file
    has the operations, the node, its hash, its flags and its arity, and the
    arithmetic of the doubles that a node keeps by their bits. *)

From stdpp Require Import base list strings gmap.
From Stdlib Require Import ZArith Lia SpecFloat.
From S2P Require Import Prelude.
From S2P Require Import Types.
From S2P Require Import Hash.
#[local] Open Scope Z_scope.
#[local] Open Scope result_scope.

(** ** The operations *)

Module Op.
Inductive t :=
| INTEGER | FLOAT | SYMBOL | BOOL_TRUE | BOOL_FALSE | ADD | MUL | POW | EQ | NE | LT | LE | GT | GE | AND |
OR | NOT | FLOOR_DIV | CLEAN_DIV | CEIL_DIV | INT_TRUE_DIV | FLOAT_TRUE_DIV | MOD | PYTHON_MOD |
MODULAR_INDEXING | CEIL_TO_INT | FLOOR_TO_INT | TRUNC_TO_FLOAT | TRUNC_TO_INT | ROUND_TO_INT |
ROUND_DECIMAL | TO_FLOAT | LSHIFT | RSHIFT | POW_BY_NATURAL | FLOAT_POW | WHERE | IDENTITY | MIN | MAX |
IS_NON_OVERLAPPING_AND_DENSE | SQRT | COS | COSH | SIN | SINH | TAN | TANH | ASIN | ACOS | ATAN | EXP | LOG |
ASINH | LOG2 | ABS | BITWISE_AND | BITWISE_OR | BITWISE_XOR | NEG | NUM_OPS.

(** The underlying byte. *)
Definition code (o : t) : Z :=
  match o with
  | INTEGER => 0 | FLOAT => 1 | SYMBOL => 2 | BOOL_TRUE => 3 | BOOL_FALSE => 4 | ADD => 5 | MUL => 6 | POW => 7
  | EQ => 8 | NE => 9 | LT => 10 | LE => 11 | GT => 12 | GE => 13 | AND => 14 | OR => 15 | NOT => 16
  | FLOOR_DIV => 17 | CLEAN_DIV => 18 | CEIL_DIV => 19 | INT_TRUE_DIV => 20 | FLOAT_TRUE_DIV => 21 | MOD => 22
  | PYTHON_MOD => 23 | MODULAR_INDEXING => 24 | CEIL_TO_INT => 25 | FLOOR_TO_INT => 26 | TRUNC_TO_FLOAT => 27
  | TRUNC_TO_INT => 28 | ROUND_TO_INT => 29 | ROUND_DECIMAL => 30 | TO_FLOAT => 31 | LSHIFT => 32
  | RSHIFT => 33 | POW_BY_NATURAL => 34 | FLOAT_POW => 35 | WHERE => 36 | IDENTITY => 37 | MIN => 38
  | MAX => 39 | IS_NON_OVERLAPPING_AND_DENSE => 40 | SQRT => 41 | COS => 42 | COSH => 43 | SIN => 44
  | SINH => 45 | TAN => 46 | TANH => 47 | ASIN => 48 | ACOS => 49 | ATAN => 50 | EXP => 51 | LOG => 52
  | ASINH => 53 | LOG2 => 54 | ABS => 55 | BITWISE_AND => 56 | BITWISE_OR => 57 | BITWISE_XOR => 58 | NEG => 59
  | NUM_OPS => 60
  end.

Definition of_code (c : Z) : option t :=
  match c with
  | 0 => Some INTEGER | 1 => Some FLOAT | 2 => Some SYMBOL | 3 => Some BOOL_TRUE | 4 => Some BOOL_FALSE
  | 5 => Some ADD | 6 => Some MUL | 7 => Some POW | 8 => Some EQ | 9 => Some NE | 10 => Some LT | 11 => Some LE
  | 12 => Some GT | 13 => Some GE | 14 => Some AND | 15 => Some OR | 16 => Some NOT | 17 => Some FLOOR_DIV
  | 18 => Some CLEAN_DIV | 19 => Some CEIL_DIV | 20 => Some INT_TRUE_DIV | 21 => Some FLOAT_TRUE_DIV
  | 22 => Some MOD | 23 => Some PYTHON_MOD | 24 => Some MODULAR_INDEXING | 25 => Some CEIL_TO_INT
  | 26 => Some FLOOR_TO_INT | 27 => Some TRUNC_TO_FLOAT | 28 => Some TRUNC_TO_INT | 29 => Some ROUND_TO_INT
  | 30 => Some ROUND_DECIMAL | 31 => Some TO_FLOAT | 32 => Some LSHIFT | 33 => Some RSHIFT
  | 34 => Some POW_BY_NATURAL | 35 => Some FLOAT_POW | 36 => Some WHERE | 37 => Some IDENTITY | 38 => Some MIN
  | 39 => Some MAX | 40 => Some IS_NON_OVERLAPPING_AND_DENSE | 41 => Some SQRT | 42 => Some COS
  | 43 => Some COSH | 44 => Some SIN | 45 => Some SINH | 46 => Some TAN | 47 => Some TANH | 48 => Some ASIN
  | 49 => Some ACOS | 50 => Some ATAN | 51 => Some EXP | 52 => Some LOG | 53 => Some ASINH | 54 => Some LOG2
  | 55 => Some ABS | 56 => Some BITWISE_AND | 57 => Some BITWISE_OR | 58 => Some BITWISE_XOR | 59 => Some NEG
  | 60 => Some NUM_OPS
  | _ => None
  end.

Lemma of_code_code o : of_code (code o) = Some o.
Proof. by destruct o. Qed.

Lemma code_inj o o' : code o = code o' -> o = o'.
Proof. intros E. pose proof (of_code_code o) as H. rewrite E, of_code_code in H. by injection H. Qed.

#[global] Instance eq_dec : EqDecision t.
Proof. intros o o'. destruct (decide (code o = code o')) as [E|E]; [left; by apply code_inj|right; congruence]. Defined.

Lemma code_range o : 0 <= code o < 256.
Proof. destruct o; cbn; lia. Qed.
End Op.

(** ** The flags *)

Module ExprFlags.
Definition IS_INTEGER : Z := Z.shiftl 1 0.
Definition IS_REAL : Z := Z.shiftl 1 1.
Definition IS_FINITE : Z := Z.shiftl 1 2.
Definition IS_POSITIVE : Z := Z.shiftl 1 3.
Definition IS_NEGATIVE : Z := Z.shiftl 1 4.
Definition IS_NONNEGATIVE : Z := Z.shiftl 1 5.
Definition IS_NONPOSITIVE : Z := Z.shiftl 1 6.
Definition IS_ZERO : Z := Z.shiftl 1 7.
Definition IS_EVEN : Z := Z.shiftl 1 8.
Definition IS_ODD : Z := Z.shiftl 1 9.
Definition IS_NUMBER : Z := Z.shiftl 1 10.
Definition IS_SYMBOL : Z := Z.shiftl 1 11.
Definition IS_BOOLEAN : Z := Z.shiftl 1 12.
End ExprFlags.
Import ExprFlags.

(** ** The node *)

Definition kMaxArgs : Z := 255.

(** [e_args] is the child array, empty for a null pointer; nargs is its length. *)
Record Expr := mkExpr {
  e_op : Op.t;
  e_flags : Z;
  e_symbol : Z;
  e_hash : Z;
  e_payload : Z;
  e_args : list Z;
}.

Definition nargs (e : Expr) : Z := Z.of_nat (length (e_args e)).

Definition has_flag (e : Expr) (f : Z) : bool := negb (Z.land (e_flags e) f =? 0).

Definition is_positive (e : Expr) : bool := has_flag e IS_POSITIVE.
Definition is_nonnegative (e : Expr) : bool := has_flag e IS_NONNEGATIVE.
Definition is_even (e : Expr) : bool := has_flag e IS_EVEN.
Definition is_odd (e : Expr) : bool := has_flag e IS_ODD.

Definition is_op (o : Op.t) (e : Expr) : bool := bool_decide (e_op e = o).
Definition is_int (n : Z) (e : Expr) : bool := is_op Op.INTEGER e && (e_payload e =? n).
Definition is_one : Expr -> bool := is_int 1.
Definition is_neg_one : Expr -> bool := is_int (-1).
Definition is_zero_int : Expr -> bool := is_int 0.

(** Expr::arg *)
Definition arg (e : Expr) (i : Z) : result Z :=
  let* _ := require (0 <? nargs e) "nargs > 0" in
  let* _ := require ((0 <=? i) && (i <=? nargs e - 1)) "in_range(i, 0, nargs - 1)" in
  Ok (aget 0 (e_args e) i).

(** ** The hash *)

(** The four small fields in one word. *)
Definition packed_metadata (op : Op.t) (nargs flags symbol : Z) : Z :=
  Z.lor (Z.lor (Z.lor (Op.code op) (wrap 64 (Z.shiftl nargs 8))) (wrap 64 (Z.shiftl flags 16))) (wrap 64 (Z.shiftl symbol 32)).

Definition expr_hash (op : Op.t) (payload symbol flags : Z) (args : list Z) : Z :=
  let packed := packed_metadata op (Z.of_nat (length args)) flags symbol in
  let mixed_hash := fmix64 (Z.lxor (Z.lxor packed 0x9E3779B97F4A7C15) (Z.lxor (u64 payload) 0x517CC1B727220A95)) in
  match args with
  | [] => mixed_hash
  | [a0] => combine_ids mixed_hash a0
  | [a0; a1] => combine_ids (combine_ids mixed_hash a0) a1
  | _ => foldl combine_ids mixed_hash args
  end.

#[local] Opaque combine_ids fmix64.

Lemma expr_hash_fold op payload symbol flags args :
  expr_hash op payload symbol flags args =
    foldl combine_ids (fmix64 (Z.lxor (Z.lxor (packed_metadata op (Z.of_nat (length args)) flags symbol) 0x9E3779B97F4A7C15)
      (Z.lxor (u64 payload) 0x517CC1B727220A95))) args.
Proof. unfold expr_hash. by destruct args as [|? [|? [|? ?]]]. Qed.

(** ** The flags of a node *)

Definition numeric_kind : Z := Z.lor (Z.lor (Z.lor IS_INTEGER IS_REAL) IS_FINITE) IS_NUMBER.
Definition real_kind : Z := Z.lor (Z.lor IS_REAL IS_FINITE) IS_NUMBER.

Definition integer_flags (val : Z) : Z :=
  let f := numeric_kind in
  let f := if 0 <? val then Z.lor f (Z.lor IS_POSITIVE IS_NONNEGATIVE)
           else if val <? 0 then Z.lor f (Z.lor IS_NEGATIVE IS_NONPOSITIVE)
           else Z.lor f (Z.lor (Z.lor IS_ZERO IS_NONNEGATIVE) IS_NONPOSITIVE) in
  Z.lor f (if Z.rem val 2 =? 0 then IS_EVEN else IS_ODD).

(** composite_flags, from the flags of the children. *)
Definition composite_flags (op : Op.t) (fs : list Z) : result Z :=
  match op with
  | Op.ADD | Op.MUL | Op.MIN | Op.MAX => Ok (Z.land (foldl Z.land 0xFFFF fs) numeric_kind)
  | Op.POW => Ok (Z.land (Z.land (aget 0 fs 0) (aget 0 fs 1)) (Z.lor IS_REAL IS_FINITE))
  | Op.EQ | Op.NE | Op.LT | Op.LE | Op.GT | Op.GE | Op.AND | Op.OR | Op.NOT => Ok IS_BOOLEAN
  | Op.FLOOR_DIV | Op.CLEAN_DIV | Op.CEIL_DIV | Op.MOD | Op.PYTHON_MOD | Op.MODULAR_INDEXING | Op.LSHIFT | Op.RSHIFT
  | Op.CEIL_TO_INT | Op.FLOOR_TO_INT | Op.TRUNC_TO_INT | Op.ROUND_TO_INT | Op.BITWISE_AND | Op.BITWISE_OR
  | Op.POW_BY_NATURAL | Op.IS_NON_OVERLAPPING_AND_DENSE => Ok numeric_kind
  | Op.FLOAT_TRUE_DIV | Op.INT_TRUE_DIV | Op.TO_FLOAT | Op.TRUNC_TO_FLOAT | Op.FLOAT_POW | Op.ROUND_DECIMAL | Op.SQRT
  | Op.COS | Op.SIN | Op.TAN | Op.COSH | Op.SINH | Op.TANH | Op.ASIN | Op.ACOS | Op.ATAN | Op.EXP | Op.LOG | Op.ASINH
  | Op.LOG2 => Ok real_kind
  | Op.WHERE => if (3 <=? length fs)%nat then Ok (Z.land (Z.land (aget 0 fs 1) (aget 0 fs 2)) numeric_kind) else Ok 0
  | Op.IDENTITY => if (1 <=? length fs)%nat then Ok (aget 0 fs 0) else Ok 0
  | Op.NEG => if (1 <=? length fs)%nat then Ok (Z.land (aget 0 fs 0) numeric_kind) else Ok 0
  | Op.ABS => if (1 <=? length fs)%nat then Ok (Z.lor (Z.land (aget 0 fs 0) numeric_kind) IS_NONNEGATIVE) else Ok 0
  | Op.BITWISE_XOR => Ok numeric_kind
  | Op.INTEGER | Op.FLOAT | Op.SYMBOL | Op.BOOL_TRUE | Op.BOOL_FALSE | Op.NUM_OPS => Fatal "unreachable"
  end.

(** ** Arity *)

Record ArityBand := mkBand { band_min : Z; band_max : Z }.

Definition op_arity_band (op : Op.t) : ArityBand :=
  match op with
  | Op.ADD | Op.MUL | Op.AND | Op.OR | Op.MIN | Op.MAX | Op.IS_NON_OVERLAPPING_AND_DENSE => mkBand 1 kMaxArgs
  | Op.NOT | Op.NEG | Op.IDENTITY | Op.ABS | Op.CEIL_TO_INT | Op.FLOOR_TO_INT | Op.TRUNC_TO_FLOAT | Op.TRUNC_TO_INT
  | Op.ROUND_TO_INT | Op.TO_FLOAT | Op.SQRT | Op.COS | Op.COSH | Op.SIN | Op.SINH | Op.TAN | Op.TANH | Op.ASIN | Op.ACOS
  | Op.ATAN | Op.EXP | Op.LOG | Op.ASINH | Op.LOG2 => mkBand 1 1
  | Op.POW | Op.EQ | Op.NE | Op.LT | Op.LE | Op.GT | Op.GE | Op.FLOOR_DIV | Op.CLEAN_DIV | Op.CEIL_DIV | Op.INT_TRUE_DIV
  | Op.FLOAT_TRUE_DIV | Op.MOD | Op.PYTHON_MOD | Op.ROUND_DECIMAL | Op.LSHIFT | Op.RSHIFT | Op.POW_BY_NATURAL | Op.FLOAT_POW
  | Op.BITWISE_AND | Op.BITWISE_OR | Op.BITWISE_XOR => mkBand 2 2
  | Op.MODULAR_INDEXING | Op.WHERE => mkBand 3 3
  | Op.INTEGER | Op.FLOAT | Op.SYMBOL | Op.BOOL_TRUE | Op.BOOL_FALSE | Op.NUM_OPS => mkBand 1 0
  end.

(** * The doubles of the expressions, by their bits

    A node keeps a double as its bit pattern.  The sum and the product are those
    of IEEE 754 binary64, rounded to the nearest with ties to even, through the
    specification floats of the Standard Library.  IEEE 754 leaves the bits of a
    NaN result open, so they are an interface. *)

(** The NaN that an operation on two words returns. *)
Class NanBits := nan_bits : Z -> Z -> Z.

Definition to_i64 (x : Z) : Z := (x + 2 ^ 63) mod 2 ^ 64 - 2 ^ 63.

Definition sign_of (bits : Z) : bool := Z.testbit bits 63.
Definition exponent_of (bits : Z) : Z := Z.land (Z.shiftr bits 52) 2047.
Definition mantissa_of (bits : Z) : Z := bits mod 2 ^ 52.

Definition sf_of_bits (bits : Z) : spec_float :=
  let s := sign_of bits in
  let e := exponent_of bits in
  let m := mantissa_of bits in
  if e =? 2047 then (if m =? 0 then S754_infinity s else S754_nan)
  else if e =? 0 then match m with Z.pos p => S754_finite s p (-1074) | _ => S754_zero s end
  else match m + 2 ^ 52 with Z.pos p => S754_finite s p (e - 1075) | _ => S754_zero s end.

Definition sign_bits (s : bool) : Z := if s then 2 ^ 63 else 0.

Definition bits_of_sf (f : spec_float) (nan : Z) : Z :=
  match f with
  | S754_zero s => sign_bits s
  | S754_infinity s => sign_bits s + 2047 * 2 ^ 52
  | S754_nan => nan
  | S754_finite s m e =>
      if Z.pos m <? 2 ^ 52 then sign_bits s + Z.pos m
      else sign_bits s + (e + 1075) * 2 ^ 52 + (Z.pos m - 2 ^ 52)
  end.

Definition double_add `{NanBits} (a b : Z) : Z := bits_of_sf (SFadd 53 1024 (sf_of_bits a) (sf_of_bits b)) (nan_bits a b).
Definition double_mul `{NanBits} (a b : Z) : Z := bits_of_sf (SFmul 53 1024 (sf_of_bits a) (sf_of_bits b)) (nan_bits a b).
Definition double_neg (a : Z) : Z := Z.lxor a (2 ^ 63).

Definition double_positive (bits : Z) : bool :=
  match sf_of_bits bits with S754_infinity s => negb s | S754_finite s _ _ => negb s | _ => false end.
Definition double_negative (bits : Z) : bool :=
  match sf_of_bits bits with S754_infinity s => s | S754_finite s _ _ => s | _ => false end.

(** 1.5 + 2.25 = 3.75, 0.1 + 0.2, and a sum that overflows. *)
Example double_add_examples (H : NanBits) :
  double_add 0x3FF8000000000000 0x4002000000000000 = 0x400E000000000000 /\
  double_add 0x3FB999999999999A 0x3FC999999999999A = 0x3FD3333333333334 /\
  double_add 0x7FEFFFFFFFFFFFFF 0x7FEFFFFFFFFFFFFF = 0x7FF0000000000000 /\
  double_mul 0xBFF8000000000000 0x4002000000000000 = 0xC00B000000000000.
Proof. vm_compute. done. Qed.
