(* ===== verification/ExprPool.v ===== *)
(** * ExprPool.v: the intern table of the expressions
    (the table and the atoms of include/crucible/ExprPool.h)

    The pool places each node in its arena and finds it again through a table
    of control bytes and slots.  The arena is an interface, [ExprArena]: what
    the pool uses of Arena.h is that an allocation returns an address that is
    not in use.  The control groups are the interface of SwissTable.v.

    A probe walks the groups of the table in triangular steps.  Its model has
    fuel for one visit of each group; the proofs show that it ends before. *)

From stdpp Require Import base list strings gmap.
From Stdlib Require Import ZArith Lia.
From S2P Require Import Prelude.
From S2P Require Import Types.
From S2P Require Import Hash.
From S2P Require Import SwissTable.
From S2P Require Import Expr.
#[local] Open Scope Z_scope.
#[local] Open Scope result_scope.

(** ** The arena of the pool *)

(** [ea_alloc st size align] *)
Class ExprArena := {
  ea_state : Type;
  ea_alloc : ea_state -> Z -> Z -> result (Z * ea_state);
}.

(** [ea_inv st live]: [st] gave the addresses [live].  An allocation of at
    least one byte has an address that no earlier one has. *)
Class ExprArenaOk (E : ExprArena) := {
  ea_inv : ea_state -> list Z -> Prop;
  ea_fresh st live n al p st' : ea_inv st live -> 0 < n < 2 ^ 32 -> (al = 1 \/ al = 8) -> ea_alloc st n al = Ok (p, st') ->
    0 < p < 2 ^ 64 /\ p ∉ live /\ ea_inv st' (p :: live);
}.

(** sizeof(Expr), sizeof(const Expr* ) and their alignment. *)
Definition SIZEOF_EXPR : Z := 32.
Definition SIZEOF_PTR : Z := 8.

Section Pool.
Context `{G : CtrlGroup} `{E : ExprArena}.

(** [p_nodes] is the memory of the arena, by address; [symbol_names_] has the
    address of each name and its characters. *)
Record ExprPool := mkPool {
  p_arena : ea_state;
  p_nodes : gmap Z Expr;
  ctrl_ : list Z;
  slots_ : list Z;
  capacity_ : Z;
  intern_count_ : Z;
  symbol_names_ : list (option (Z * string));
  symbol_exprs_ : list Z;
  int_cache_ : list Z;
  true_ : Z;
  false_ : Z;
}.

Definition set_tables (P : ExprPool) (ctrl slots : list Z) (cap count : Z) : ExprPool :=
  mkPool (p_arena P) (p_nodes P) ctrl slots cap count (symbol_names_ P) (symbol_exprs_ P) (int_cache_ P) (true_ P) (false_ P).
Definition set_nodes (P : ExprPool) (st : ea_state) (nodes : gmap Z Expr) : ExprPool :=
  mkPool st nodes (ctrl_ P) (slots_ P) (capacity_ P) (intern_count_ P) (symbol_names_ P) (symbol_exprs_ P) (int_cache_ P) (true_ P) (false_ P).
Definition set_symbols (P : ExprPool) (names : list (option (Z * string))) (exprs : list Z) : ExprPool :=
  mkPool (p_arena P) (p_nodes P) (ctrl_ P) (slots_ P) (capacity_ P) (intern_count_ P) names exprs (int_cache_ P) (true_ P) (false_ P).
Definition set_cache (P : ExprPool) (cache : list Z) : ExprPool :=
  mkPool (p_arena P) (p_nodes P) (ctrl_ P) (slots_ P) (capacity_ P) (intern_count_ P) (symbol_names_ P) (symbol_exprs_ P) cache (true_ P) (false_ P).
Definition set_bools (P : ExprPool) (t f : Z) : ExprPool :=
  mkPool (p_arena P) (p_nodes P) (ctrl_ P) (slots_ P) (capacity_ P) (intern_count_ P) (symbol_names_ P) (symbol_exprs_ P) (int_cache_ P) t f.

(** The read of a node through its pointer. *)
Definition node_at (P : ExprPool) (a : Z) : result Expr :=
  match p_nodes P !! a with Some e => Ok e | None => Fatal "read through a pointer to no node" end.

(** ** The tables *)

Definition swiss_table_group_width : Z := 16.
Definition swiss_table_max_capacity : Z := Z.shiftl 1 30.

Definition has_single_bit (x : Z) : bool := (0 <? x) && (2 ^ Z.log2 x =? x).

Definition is_swiss_table_capacity (capacity : Z) : bool :=
  if capacity =? 0 then true
  else has_single_bit capacity && (swiss_table_group_width <=? capacity) && (capacity <=? swiss_table_max_capacity).

Definition why_capacity : string := "is_swiss_table_capacity(capacity)".

Definition alloc_tables_ (cap : Z) : result (list Z * list Z) :=
  let* _ := require (is_swiss_table_capacity cap) why_capacity in
  Ok (replicate (Z.to_nat cap) kEmpty, replicate (Z.to_nat cap) 0).

Definition load_group (ctrl : list Z) (base : Z) : list Z := take (Z.to_nat group_width) (drop (Z.to_nat base) ctrl).

(** The slot of the first group of a hash. *)
Definition first_base (hash slot_mask : Z) : Z := Z.land (wrap 64 (hash * group_width)) slot_mask.

(** The next group, [iteration] already counted. *)
Definition next_base (base iteration slot_mask : Z) : Z := Z.land (wrap 64 (base + wrap 64 (iteration * group_width))) slot_mask.

Definition why_probe : string := "probe_base_slot + group_width() <= cap".
Definition why_fuel : string := "the probe met every group".

(** The probe of grow_to_: the first slot that is empty. *)
Fixpoint free_slot (fuel : nat) (ctrl : list Z) (cap base iteration : Z) : result Z :=
  match fuel with
  | O => Fatal why_fuel
  | S fuel =>
      let* _ := require (base + group_width <=? cap) why_probe in
      let empties := match_empty (load_group ctrl base) in
      if negb (empties =? 0) then let* l := lowest empties in Ok (base + l)
      else free_slot fuel ctrl cap (next_base base (iteration + 1) (cap - 1)) (iteration + 1)
  end.

Definition groups (cap : Z) : nat := Z.to_nat (cap / group_width).

(** One pass of the loop of grow_to_ over the old table. *)
Fixpoint reinsert (nodes : gmap Z Expr) (cap : Z) (old : list (Z * Z)) (ctrl slots : list Z) (reinserted : Z) : result (list Z * list Z * Z) :=
  match old with
  | [] => Ok (ctrl, slots, reinserted)
  | (c, a) :: old =>
      if c =? kEmpty then reinsert nodes cap old ctrl slots reinserted
      else
        match nodes !! a with
        | None => Fatal "read through a pointer to no node"
        | Some e =>
            let* i := free_slot (groups cap) ctrl cap (first_base (e_hash e) (cap - 1)) 0 in
            reinsert nodes cap old (aset ctrl i (h2_tag (e_hash e))) (aset slots i a) (reinserted + 1)
        end
  end.

Definition grow_to_ (P : ExprPool) (new_capacity : Z) : result ExprPool :=
  let* _ := require (is_swiss_table_capacity new_capacity) why_capacity in
  let* _ := require (group_width <=? new_capacity) "new_capacity >= group_width()" in
  let* '(ctrl, slots) := alloc_tables_ new_capacity in
  let* '(ctrl, slots, reinserted) := reinsert (p_nodes P) new_capacity (zip (ctrl_ P) (slots_ P)) ctrl slots 0 in
  let* _ := require (reinserted =? intern_count_ P) "reinserted == old_count" in
  Ok (set_tables P ctrl slots new_capacity reinserted).

Definition rehash (P : ExprPool) : result ExprPool := grow_to_ P (capacity_ P * 2).

(** ** Interning *)

(** What a caller asks for. *)
Record shape := mkShape { sh_op : Op.t; sh_args : list Z; sh_flags : Z; sh_symbol : Z; sh_payload : Z }.

Definition shape_hash (s : shape) : Z := expr_hash (sh_op s) (sh_payload s) (sh_symbol s) (sh_flags s) (sh_args s).

(** The comparison of a node with the query. *)
Definition same_node (s : shape) (hash : Z) (e : Expr) : bool :=
  (e_hash e =? hash) && (e_payload e =? sh_payload s) &&
  (packed_metadata (e_op e) (nargs e) (e_flags e) (e_symbol e) =?
   packed_metadata (sh_op s) (Z.of_nat (length (sh_args s))) (sh_flags s) (sh_symbol s)) &&
  forallb (fun i => aget 0 (e_args e) i =? aget 0 (sh_args s) i) (seqZ 0 (Z.of_nat (length (sh_args s)))).

(** The loop over the tag matches of one group. *)
Fixpoint find_match (fuel : nat) (P : ExprPool) (s : shape) (hash base matches : Z) : result (option Z) :=
  if matches =? 0 then Ok None
  else
    match fuel with
    | O => Fatal why_fuel
    | S fuel =>
        let* l := lowest matches in
        let existing := aget 0 (slots_ P) (base + l) in
        let* e := node_at P existing in
        if same_node s hash e then Ok (Some existing) else find_match fuel P s hash base (clear_lowest matches)
    end.

(** Where the probe ends: at a node, or at the slot for a new one. *)
Inductive probe_end := Found (a : Z) | Vacant (slot : Z).

Fixpoint probe (fuel : nat) (P : ExprPool) (s : shape) (hash base iteration : Z) : result probe_end :=
  match fuel with
  | O => Fatal why_fuel
  | S fuel =>
      let* _ := require (base + group_width <=? capacity_ P) why_probe in
      let group := load_group (ctrl_ P) base in
      let* found := find_match 64 P s hash base (match_ group (h2_tag hash)) in
      match found with
      | Some a => Ok (Found a)
      | None =>
          let empties := match_empty group in
          if negb (empties =? 0) then let* l := lowest empties in Ok (Vacant (base + l))
          else probe fuel P s hash (next_base base (iteration + 1) (capacity_ P - 1)) (iteration + 1)
      end
  end.

(** The allocations of a new node: its child array, then the node. *)
Definition place_node (st : ea_state) (s : shape) : result (Z * ea_state) :=
  let* st := match sh_args s with
             | [] => Ok st
             | _ => let* '(_, st) := ea_alloc st (Z.of_nat (length (sh_args s)) * SIZEOF_PTR) SIZEOF_PTR in Ok st
             end in
  ea_alloc st SIZEOF_EXPR SIZEOF_PTR.

Definition node_of (s : shape) : Expr := mkExpr (sh_op s) (sh_flags s) (sh_symbol s) (shape_hash s) (sh_payload s) (sh_args s).

Definition intern_node (P : ExprPool) (s : shape) : result (Z * ExprPool) :=
  let* P := if capacity_ P * 7 <=? intern_count_ P * 8 then rehash P else Ok P in
  let hash := shape_hash s in
  let* r := probe (groups (capacity_ P)) P s hash (first_base hash (capacity_ P - 1)) 0 in
  match r with
  | Found a => Ok (a, P)
  | Vacant i =>
      let* '(a, st) := place_node (p_arena P) s in
      let* count := monotonic_bump64 (intern_count_ P) in
      Ok (a, set_tables (set_nodes P st (<[a := node_of s]> (p_nodes P))) (aset (ctrl_ P) i (h2_tag hash)) (aset (slots_ P) i a) (capacity_ P) count)
  end.

(** ** Sizes *)

(** The loop [while (target < needed) target <<= 1]. *)
Fixpoint double_until (fuel : nat) (target needed : Z) : result Z :=
  if needed <=? target then Ok target
  else match fuel with O => Fatal why_fuel | S fuel => double_until fuel (wrap 64 (Z.shiftl target 1)) needed end.

Definition rounded_capacity_ (initial_capacity : Z) : result Z := double_until 32 group_width initial_capacity.

Definition reserve (P : ExprPool) (n_entries : Z) : result ExprPool :=
  let* _ := require (n_entries <=? (Z.shiftl 1 30 * 7) / 8) "n_entries <= ((1 << 30) * 7) / 8" in
  let needed := (n_entries * 8 + 6) / 7 in
  let* target := double_until 32 group_width needed in
  let* P := if capacity_ P <? target then grow_to_ P target else Ok P in
  let* _ := require (n_entries * 8 <=? capacity_ P * 7) "n_entries * 8 <= capacity_ * 7" in
  Ok P.

(** ** Atoms *)

Definition atom (op : Op.t) (flags symbol payload : Z) : shape := mkShape op [] flags symbol payload.

(** The shape of a composite node. *)
Definition node (op : Op.t) (args : list Z) (f : Z) : shape := mkShape op args f none32 0.

Definition make_integer (P : ExprPool) (val : Z) : result (Z * ExprPool) :=
  intern_node P (atom Op.INTEGER (integer_flags val) none32 val).

Definition kIntCacheLow : Z := -128.
Definition kIntCacheHigh : Z := 127.

Definition cached_integer (P : ExprPool) (val : Z) : Z := aget 0 (int_cache_ P) (val - kIntCacheLow).

Definition integer (P : ExprPool) (val : Z) : result (Z * ExprPool) :=
  if (kIntCacheLow <=? val) && (val <=? kIntCacheHigh) then Ok (cached_integer P val, P) else make_integer P val.

Definition float_flags (bits : Z) : Z :=
  let f := real_kind in
  if double_positive bits then Z.lor f (Z.lor ExprFlags.IS_POSITIVE ExprFlags.IS_NONNEGATIVE)
  else if double_negative bits then Z.lor f (Z.lor ExprFlags.IS_NEGATIVE ExprFlags.IS_NONPOSITIVE)
  else if wrap 64 (Z.shiftl bits 1) =? 0
  then Z.lor f (Z.lor (Z.lor ExprFlags.IS_ZERO ExprFlags.IS_NONNEGATIVE) ExprFlags.IS_NONPOSITIVE)
  else f.

(** [bits] is the double as a 64-bit word; the payload is the same bits as an int64. *)
Definition float_ (P : ExprPool) (bits : Z) : result (Z * ExprPool) :=
  intern_node P (atom Op.FLOAT (float_flags bits) none32 (to_i64 bits)).

(** std::vector::resize to [n] elements. *)
Definition resize {A} (l : list A) (n : Z) (x : A) : list A := take (Z.to_nat n) l ++ replicate (Z.to_nat n - length l) x.

Definition symbol (P : ExprPool) (name : string) (id assumption_flags : Z) : result (Z * ExprPool) :=
  let names := if Z.of_nat (length (symbol_names_ P)) <=? id then resize (symbol_names_ P) (u32 (id + 1)) None else symbol_names_ P in
  let* '(names, st) :=
    match aget None names id with
    | Some _ => Ok (names, p_arena P)
    | None => let* '(p, st) := ea_alloc (p_arena P) (Z.of_nat (String.length name) + 1) 1 in Ok (aset names id (Some (p, name)), st)
    end in
  let P := set_symbols (set_nodes P st (p_nodes P)) names (symbol_exprs_ P) in
  let name_ptr := from_option fst 0 (aget None names id) in
  let* '(a, P) := intern_node P (atom Op.SYMBOL (Z.lor assumption_flags ExprFlags.IS_SYMBOL) id (to_i64 name_ptr)) in
  let exprs := if Z.of_nat (length (symbol_exprs_ P)) <=? id then resize (symbol_exprs_ P) (u32 (id + 1)) 0 else symbol_exprs_ P in
  Ok (a, set_symbols P (symbol_names_ P) (aset exprs id a)).

(** fast_symbol, 0 for nullptr. *)
Definition fast_symbol (P : ExprPool) (sid : Z) : Z :=
  if (sid <? Z.of_nat (length (symbol_exprs_ P))) && negb (aget 0 (symbol_exprs_ P) sid =? 0) then aget 0 (symbol_exprs_ P) sid else 0.

(** symbol_name, with the characters behind the pointer; [None] for nullptr. *)
Definition symbol_name (P : ExprPool) (id : Z) : option (Z * string) :=
  if id <? Z.of_nat (length (symbol_names_ P)) then aget None (symbol_names_ P) id else None.

(** ** The constructor *)

(** The loop that fills the integer cache, over the literals [vals]. *)
Fixpoint fill_cache (P : ExprPool) (vals : list Z) : result ExprPool :=
  match vals with
  | [] => Ok P
  | v :: vals =>
      let* '(a, P) := make_integer P v in
      fill_cache (set_cache P (aset (int_cache_ P) (v - kIntCacheLow) a)) vals
  end.

Definition empty_pool (st : ea_state) (ctrl slots : list Z) (cap : Z) : ExprPool :=
  mkPool st ∅ ctrl slots cap 0 [] [] (replicate 256 0) 0 0.

Definition new_pool (st : ea_state) (initial_capacity : Z) : result ExprPool :=
  let* _ := require (initial_capacity <=? Z.shiftl 1 30) "initial_capacity <= 1 << 30" in
  let* cap := rounded_capacity_ initial_capacity in
  let* '(ctrl, slots) := alloc_tables_ cap in
  let P := empty_pool st ctrl slots cap in
  let* '(t, P) := intern_node P (atom Op.BOOL_TRUE ExprFlags.IS_BOOLEAN none32 0) in
  let P := set_bools P t (false_ P) in
  let* '(f, P) := intern_node P (atom Op.BOOL_FALSE ExprFlags.IS_BOOLEAN none32 0) in
  let P := set_bools P (true_ P) f in
  fill_cache P (seqZ kIntCacheLow 256).
End Pool.
Arguments ExprPool : clear implicits.
Arguments ExprPool {_}.
