(* ===== verification/InternTable.v ===== *)
(** * InternTable.v: the path of a probe and the table of the pool

    The probe of the intern table steps by one group, then two, then three, in
    a table whose number of groups is a power of two.  The sequence meets every
    group once before it repeats.  The second part is the invariant of the
    control bytes and the slots. *)

From stdpp Require Import base list strings gmap.
From Stdlib Require Import ZArith Lia Znumtheory.
From S2P Require Import Prelude.
From S2P Require Import Types.
From S2P Require Import Hash.
From S2P Require Import SwissTable.
From S2P Require Import Expr.
From S2P Require Import ExprPool.
#[local] Open Scope Z_scope.

Fixpoint tri (i : nat) : Z := match i with O => 0 | S j => tri j + Z.of_nat i end.

(** The group of visit [i] from the group of [h], of [n] groups. *)
Definition path (n h : Z) (i : nat) : Z := (h + tri i) mod n.

Lemma tri_double i : 2 * tri i = Z.of_nat i * (Z.of_nat i + 1).
Proof. induction i as [|i IH]; [done|]. cbn [tri]. lia. Qed.

Lemma path_range n h i : 0 < n -> 0 <= path n h i < n.
Proof. intros Hn. by apply Z.mod_pos_bound. Qed.

Lemma path_next n h i : 0 < n -> path n h (S i) = (path n h i + Z.of_nat (S i)) mod n.
Proof. intros Hn. unfold path. rewrite Zplus_mod_idemp_l. f_equal. cbn [tri]. lia. Qed.

(** A power of two that divides a product with one odd factor divides the other. *)
Lemma pow2_divides_odd k a b : 0 <= k -> (2 ^ k | a * b) -> Z.odd a = true -> (2 ^ k | b).
Proof.
  intros Hk. revert b. pattern k. apply natlike_ind; [intros; apply Z.divide_1_l| |done]. clear k Hk. intros k Hk IH b Hd Ho.
  rewrite Z.pow_succ_r in * by done. destruct (Z.odd_spec a) as [Hs _]. destruct (Hs Ho) as [q Hq].
  destruct Hd as [d Hd]. set (t := 2 ^ k) in *. assert (Hb : b = 2 * (d * t - q * b)) by nia. set (c := d * t - q * b) in *.
  rewrite Hb. apply Z.mul_divide_mono_l, IH; [|done]. exists d. nia.
Qed.

Lemma path_lt_neq k h i j : 0 <= k -> Z.of_nat i < 2 ^ k -> (j < i)%nat -> path (2 ^ k) h i <> path (2 ^ k) h j.
Proof.
  intros Hk Hi Hlt E. assert (Hp : 0 < 2 ^ k) by (apply Z.pow_pos_nonneg; lia).
  assert (Hd : (2 ^ k | tri i - tri j)).
  { apply Z.mod_divide; [lia|]. unfold path in E. replace (tri i - tri j) with ((h + tri i) - (h + tri j)) by lia.
    rewrite Zminus_mod, E, Z.sub_diag. apply Z.mod_0_l. lia. }
  destruct Hd as [q Hq].
  assert (Hprod : (2 ^ (k + 1) | (Z.of_nat i - Z.of_nat j) * (Z.of_nat i + Z.of_nat j + 1))).
  { exists q. rewrite Z.pow_add_r by lia. pose proof (tri_double i). pose proof (tri_double j). change (2 ^ 1) with 2. nia. }
  assert (Hp1 : 2 ^ (k + 1) = 2 * 2 ^ k) by (rewrite Z.pow_add_r by lia; lia).
  destruct (Z.odd (Z.of_nat i - Z.of_nat j)) eqn:Ho.
  - apply (pow2_divides_odd (k + 1)) in Hprod; [|lia|done]. apply Z.divide_pos_le in Hprod; lia.
  - rewrite Z.mul_comm in Hprod. apply (pow2_divides_odd (k + 1)) in Hprod; [apply Z.divide_pos_le in Hprod; lia|lia|].
    rewrite <- Z.negb_even in *. apply negb_false_iff, Z.even_spec in Ho as [d Hd]. apply negb_true_iff, not_true_iff_false.
    intros [d' Hd']%Z.even_spec. lia.
Qed.

Lemma path_inj k h i j : 0 <= k -> Z.of_nat i < 2 ^ k -> Z.of_nat j < 2 ^ k -> path (2 ^ k) h i = path (2 ^ k) h j -> i = j.
Proof.
  intros Hk Hi Hj E. destruct (Nat.lt_trichotomy i j) as [H|[H|H]]; [|done|]; exfalso.
  - by apply (path_lt_neq k h j i).
  - by apply (path_lt_neq k h i j).
Qed.

(** Each group is met. *)
Lemma path_covers k h g : 0 <= k -> 0 <= g < 2 ^ k -> exists i, Z.of_nat i < 2 ^ k /\ path (2 ^ k) h i = g.
Proof.
  intros Hk Hg. set (n := Z.to_nat (2 ^ k)). assert (Hp : 0 < 2 ^ k) by (apply Z.pow_pos_nonneg; lia).
  assert (Hnd : NoDup (path (2 ^ k) h <$> seq 0 n)).
  { apply NoDup_fmap_2_strong; [|apply NoDup_seq]. intros i j Hi Hj E. apply elem_of_seq in Hi, Hj. apply (path_inj k h); auto; lia. }
  assert (Hsub : path (2 ^ k) h <$> seq 0 n ⊆ seqZ 0 (2 ^ k)).
  { intros x Hx. apply list_elem_of_fmap in Hx as (i & -> & _). apply elem_of_seqZ. pose proof (path_range (2 ^ k) h i Hp). lia. }
  assert (Hperm : path (2 ^ k) h <$> seq 0 n ≡ₚ seqZ 0 (2 ^ k)).
  { apply submseteq_length_Permutation; [by apply NoDup_submseteq|]. rewrite length_fmap, length_seq, length_seqZ. lia. }
  assert (Hin : g ∈ path (2 ^ k) h <$> seq 0 n) by (rewrite Hperm; apply elem_of_seqZ; lia).
  apply list_elem_of_fmap in Hin as (i & -> & Hi). apply elem_of_seq in Hi. exists i. split; [lia|done].
Qed.

(** * The table of the pool holds its nodes

    The invariant of the control bytes and the slots: each node has one slot,
    on the path of its hash, behind groups that are full.  A table that is not
    over its load has a free slot on each path, so every probe ends. *)

#[local] Open Scope result_scope.

(** ** Lists by index *)

Lemma filter_ext_in {A} (P Q : A -> Prop) `{!forall x, Decision (P x)} `{!forall x, Decision (Q x)} (l : list A) :
  (forall x, x ∈ l -> P x <-> Q x) -> filter P l = filter Q l.
Proof.
  induction l as [|x l IH]; intros He; [done|]. rewrite !filter_cons, IH by (intros y Hy; apply He; by right).
  assert (Hx := He x ltac:(by left)). destruct (decide (P x)), (decide (Q x)); tauto.
Qed.

Lemma filter_index_length {A} (d : A) (P : A -> Prop) `{!forall x, Decision (P x)} (l : list A) :
  length (filter (fun i => P (aget d l i)) (seqZ 0 (Z.of_nat (length l)))) = length (filter P l).
Proof.
  induction l as [|x l IH] using rev_ind; [done|]. rewrite filter_app, !length_app, <- IH. cbn [length].
  replace (Z.of_nat (length l + 1)) with (Z.of_nat (length l) + 1) by lia. rewrite seqZ_app, filter_app, length_app by lia. f_equal.
  - f_equal. apply filter_ext_in. intros i Hi. apply elem_of_seqZ in Hi. unfold aget. by rewrite lookup_app_l by lia.
  - rewrite seqZ_cons, seqZ_nil by lia. rewrite !filter_cons. unfold aget. rewrite lookup_app_r by lia.
    replace (Z.to_nat (0 + Z.of_nat (length l)) - length l)%nat with 0%nat by lia. cbn. unfold id. destruct (decide (P x)); done.
Qed.

Section Table.
Context `{G : CtrlGroup} {HG : CtrlGroupOk G}.
#[local] Set Default Proof Using "HG".
Abbreviation W := group_width.

Lemma width_pow : exists w, 4 <= w <= 6 /\ W = 2 ^ w.
Proof. destruct gw_width as [->|[->| ->]]; [exists 4|exists 5|exists 6]; lia. Qed.

Lemma width_pos : 16 <= W <= 64.
Proof. destruct gw_width as [->|[->| ->]]; lia. Qed.

(** A capacity is a power of two of groups. *)
Definition cap_ok (cap : Z) : Prop := exists k, 0 <= k /\ cap = W * 2 ^ k /\ cap <= 2 ^ 30.

Lemma capacity_cap_ok cap : is_swiss_table_capacity cap = true -> W <= cap -> cap_ok cap.
Proof.
  intros E Hw. pose proof width_pos. destruct width_pow as (w & Hw46 & Ew). unfold is_swiss_table_capacity in E. rewrite (proj2 (Z.eqb_neq cap 0)) in E by lia.
  apply andb_prop in E as [E E3]. apply andb_prop in E as [E1 _]. apply andb_prop in E1 as [_ E1]. apply Z.eqb_eq in E1. apply Z.leb_le in E3.
  change swiss_table_max_capacity with (2 ^ 30) in E3. set (m := Z.log2 cap) in *.
  assert (w <= m) by (apply (Z.pow_le_mono_r_iff 2); [lia|apply Z.log2_nonneg|lia]).
  exists (m - w). split_and!; [lia| |done]. rewrite Ew, <- Z.pow_add_r by lia. replace (w + (m - w)) with m by lia. done.
Qed.

Lemma intern_cap_bounds cap : cap_ok cap -> W <= cap <= 2 ^ 30 /\ cap = W * (cap / W) /\ exists k, 0 <= k /\ cap / W = 2 ^ k.
Proof.
  intros (k & Hk & -> & Hc). pose proof width_pos. assert (Hp : 0 < 2 ^ k) by (apply Z.pow_pos_nonneg; lia).
  assert (E : W * 2 ^ k / W = 2 ^ k) by (rewrite Z.mul_comm; apply Z.div_mul; lia). rewrite E. split_and!; [nia|done|done|eauto].
Qed.

Lemma cap_mask cap x : cap_ok cap -> Z.land (wrap 64 x) (cap - 1) = x mod cap.
Proof.
  intros (k & Hk & -> & Hc). destruct width_pow as (w & Hw & Ew). rewrite Ew in *. rewrite <- Z.pow_add_r in * by lia.
  rewrite land_mask_mod by lia. unfold wrap. symmetry. apply Znumtheory.Zmod_div_mod; [apply Z.pow_pos_nonneg; lia|lia|].
  assert (w + k <= 30) by (apply (Z.pow_le_mono_r_iff 2); lia). exists (2 ^ (64 - (w + k))). rewrite <- Z.pow_add_r by lia. f_equal. lia.
Qed.

Lemma cap_mod cap y : cap_ok cap -> (W * y) mod cap = W * (y mod (cap / W)).
Proof.
  intros Hc. destruct (intern_cap_bounds cap Hc) as (_ & E & k & Hk & Ek). pose proof width_pos.
  transitivity ((W * y) mod (W * (cap / W))); [by rewrite <- E|]. apply Z.mul_mod_distr_l; [rewrite Ek; apply Z.pow_nonzero|]; lia.
Qed.

Lemma first_base_path cap h : cap_ok cap -> first_base h (cap - 1) = W * path (cap / W) h 0.
Proof.
  intros Hc. unfold first_base. rewrite cap_mask, Z.mul_comm, cap_mod by done. unfold path. cbn [tri]. by rewrite Z.add_0_r.
Qed.

Lemma next_base_path cap h i : cap_ok cap -> next_base (W * path (cap / W) h i) (Z.of_nat i + 1) (cap - 1) = W * path (cap / W) h (S i).
Proof.
  intros Hc. unfold next_base. rewrite cap_mask by done. destruct (intern_cap_bounds cap Hc) as (Hb & _ & k & Hk & Ek).
  assert (Hn : 0 < cap / W) by (rewrite Ek; apply Z.pow_pos_nonneg; lia).
  assert (Hw : wrap 64 ((Z.of_nat i + 1) * W) mod cap = ((Z.of_nat i + 1) * W) mod cap).
  { rewrite <- (cap_mask cap (wrap 64 ((Z.of_nat i + 1) * W))), wrap_wrap, cap_mask by (done || lia). done. }
  rewrite Zplus_mod, Hw, <- Zplus_mod, path_next by done.
  replace (W * path (cap / W) h i + (Z.of_nat i + 1) * W) with (W * (path (cap / W) h i + Z.of_nat (S i))) by lia. by apply cap_mod.
Qed.

(** ** The invariant *)

Abbreviation byte ctrl i := (aget kEmpty ctrl i).

Definition full_group (ctrl : list Z) (g : Z) : Prop := forall off, 0 <= off < W -> seen off = true -> byte ctrl (W * g + off) <> kEmpty.

(** The addresses in the table. *)
Definition held (l : list (Z * Z)) : list Z := omap (fun p : Z * Z => if p.1 =? kEmpty then None else Some p.2) l.
Definition occ (ctrl slots : list Z) : list Z := held (zip ctrl slots).

Record placed (nodes : gmap Z Expr) (cap : Z) (ctrl slots : list Z) (i : Z) (e : Expr) : Prop := {
  pl_node : nodes !! aget 0 slots i = Some e;
  pl_hash : 0 <= e_hash e < 2 ^ 64;
  pl_tag : byte ctrl i = h2_tag (e_hash e);
  pl_seen : seen (i mod W) = true;
  pl_path : exists j, path (cap / W) (e_hash e) j = i / W /\ forall j', (j' < j)%nat -> full_group ctrl (path (cap / W) (e_hash e) j');
}.

Record table_ok (nodes : gmap Z Expr) (cap : Z) (ctrl slots : list Z) : Prop := {
  to_cap : cap_ok cap;
  to_len : Z.of_nat (length ctrl) = cap /\ Z.of_nat (length slots) = cap;
  to_byte : forall i, 0 <= i < cap -> 0 <= byte ctrl i <= kEmpty;
  to_slot : forall i, 0 <= i < cap -> byte ctrl i <> kEmpty -> exists e, placed nodes cap ctrl slots i e;
  to_nodup : NoDup (occ ctrl slots);
}.

Lemma tag_range h : 0 <= h < 2 ^ 64 -> 0 <= h2_tag h < 128.
Proof.
  intros Hh. unfold h2_tag. rewrite Z.shiftr_div_pow2 by lia. split; [apply Z.div_pos; lia|]. apply Z.div_lt_upper_bound; lia.
Qed.

Lemma elem_of_occ ctrl slots a : length ctrl = length slots ->
  a ∈ occ ctrl slots <-> exists i, 0 <= i < Z.of_nat (length ctrl) /\ byte ctrl i <> kEmpty /\ aget 0 slots i = a.
Proof.
  intros El. unfold occ, held. rewrite list_elem_of_omap. split.
  - intros ([c x] & Hin & E). cbn in E. destruct (Z.eqb_spec c kEmpty); [done|]. injection E as <-. apply list_elem_of_lookup in Hin as [i Hi].
    apply lookup_zip_with_Some in Hi as (c' & x' & [= <- <-] & Hc & Hx). pose proof (lookup_lt_Some _ _ _ Hc). exists (Z.of_nat i). unfold aget. rewrite Nat2Z.id, Hc, Hx. split; [lia|done].
  - intros (i & Hi & Hb & <-). destruct (lookup_lt_is_Some_2 ctrl (Z.to_nat i)) as [c Hc]; [lia|]. destruct (lookup_lt_is_Some_2 slots (Z.to_nat i)) as [x Hx]; [lia|].
    unfold aget in *. rewrite Hc in Hb. rewrite Hx. cbn in *. exists (c, x). split.
    + apply (list_elem_of_lookup_2 _ (Z.to_nat i)), lookup_zip_with_Some. by exists c, x.
    + cbn. by rewrite (proj2 (Z.eqb_neq _ _) Hb).
Qed.

Lemma occ_insert ctrl slots i t a : length ctrl = length slots -> 0 <= i < Z.of_nat (length ctrl) -> byte ctrl i = kEmpty -> t <> kEmpty ->
  occ (aset ctrl i t) (aset slots i a) ≡ₚ a :: occ ctrl slots.
Proof.
  intros El Hi Hb Ht. unfold occ, held, aset. rewrite <- insert_zip_with.
  destruct (lookup_lt_is_Some_2 ctrl (Z.to_nat i)) as [c Hc]; [lia|]. destruct (lookup_lt_is_Some_2 slots (Z.to_nat i)) as [x Hx]; [lia|].
  unfold aget in Hb. rewrite Hc in Hb. cbn in Hb. unfold id in Hb. subst c.
  assert (Hz : zip ctrl slots !! Z.to_nat i = Some (kEmpty, x)) by (apply lookup_zip_with_Some; eauto 6).
  rewrite (insert_take_drop _ _ _ ltac:(by eapply lookup_lt_Some)). rewrite <- (take_drop_middle _ _ _ Hz) at 3. rewrite !omap_app. cbn [omap list_omap fst snd].
  rewrite Z.eqb_refl, (proj2 (Z.eqb_neq _ _) Ht). symmetry. apply Permutation_middle.
Qed.

Lemma byte_aset ctrl i j t : 0 <= i < Z.of_nat (length ctrl) -> 0 <= j -> byte (aset ctrl i t) j = if decide (i = j) then t else byte ctrl j.
Proof. intros Hi Hj. apply aget_aset; lia. Qed.

Lemma full_group_aset ctrl i t g : 0 <= i < Z.of_nat (length ctrl) -> 0 <= g -> t <> kEmpty -> full_group ctrl g -> full_group (aset ctrl i t) g.
Proof.
  intros Hi Hg Ht Hf off Ho Hs. pose proof width_pos. rewrite byte_aset by lia. case_decide; [done|]. by apply Hf.
Qed.

(** A new node in a free slot of its path. *)
Lemma table_insert nodes nodes' cap ctrl slots i a e j :
  table_ok nodes cap ctrl slots -> nodes ⊆ nodes' -> nodes' !! a = Some e -> 0 <= e_hash e < 2 ^ 64 -> a ∉ occ ctrl slots ->
  0 <= i < cap -> byte ctrl i = kEmpty -> seen (i mod W) = true -> path (cap / W) (e_hash e) j = i / W ->
  (forall j', (j' < j)%nat -> full_group ctrl (path (cap / W) (e_hash e) j')) ->
  table_ok nodes' cap (aset ctrl i (h2_tag (e_hash e))) (aset slots i a) /\
  occ (aset ctrl i (h2_tag (e_hash e))) (aset slots i a) ≡ₚ a :: occ ctrl slots.
Proof.
  intros [T1 [T2 T2'] T3 T4 T5] Hsub Ha Hh Hnin Hi Hb Hs Hp Hfull. pose proof (tag_range _ Hh) as Ht.
  assert (Htne : h2_tag (e_hash e) <> kEmpty) by (unfold kEmpty; lia).
  assert (Hocc := occ_insert ctrl slots i (h2_tag (e_hash e)) a ltac:(lia) ltac:(lia) Hb Htne).
  assert (Hn : 0 < cap / W) by (destruct (intern_cap_bounds cap T1) as (_ & _ & k & Hk & ->); apply Z.pow_pos_nonneg; lia).
  assert (Hpl : forall e' x, (exists j0, path (cap / W) (e_hash e') j0 = x / W /\ forall j', (j' < j0)%nat -> full_group ctrl (path (cap / W) (e_hash e') j')) ->
    exists j0, path (cap / W) (e_hash e') j0 = x / W /\ forall j', (j' < j0)%nat -> full_group (aset ctrl i (h2_tag (e_hash e))) (path (cap / W) (e_hash e') j')).
  { intros e' x (j0 & H1 & H2). exists j0. split; [done|]. intros j' Hj'. apply full_group_aset; [lia|apply path_range; lia|done|auto]. }
  split; [|done]. split.
  - done.
  - by rewrite !length_aset.
  - intros x Hx. rewrite byte_aset by lia. case_decide; [unfold kEmpty; lia|by apply T3].
  - intros x Hx. rewrite byte_aset by lia. case_decide as Hd.
    + subst x. intros _. exists e. split; auto; [rewrite aget_aset by lia; by rewrite decide_True|by rewrite byte_aset, decide_True by lia|]. apply Hpl. eauto.
    + intros Hbx. destruct (T4 x Hx Hbx) as (e' & [P1 P2 P3 P4 P5]). exists e'. split; auto; [|by rewrite byte_aset, decide_False by lia].
      rewrite aget_aset, decide_False by lia. by eapply lookup_weaken.
  - rewrite Hocc. by constructor.
Qed.

Lemma table_empty cap : cap_ok cap -> table_ok ∅ cap (replicate (Z.to_nat cap) kEmpty) (replicate (Z.to_nat cap) 0) /\
  occ (replicate (Z.to_nat cap) kEmpty) (replicate (Z.to_nat cap) 0) = [].
Proof.
  intros Hc. destruct (intern_cap_bounds cap Hc) as ([Hw _] & _). pose proof width_pos.
  assert (Hb : forall i, byte (replicate (Z.to_nat cap) kEmpty) i = kEmpty).
  { intros i. unfold aget. destruct (_ !! _) as [b|] eqn:E; [|done]. by apply lookup_replicate in E as [-> _]. }
  assert (Ho : forall n, occ (replicate n kEmpty) (replicate n 0) = []) by (induction n as [|n IH]; [done|]; unfold occ, held in *; cbn; exact IH).
  rewrite Ho. split; [|done]. split; auto.
  - rewrite !length_replicate. lia.
  - intros i _. rewrite Hb. done.
  - intros i _ H0. by rewrite Hb in H0.
  - rewrite Ho. constructor.
Qed.

(** ** A free slot *)

Lemma length_occ ctrl slots : length ctrl = length slots -> length (occ ctrl slots) = length (filter (fun c => c <> kEmpty) ctrl).
Proof.
  unfold occ, held. revert slots. induction ctrl as [|c ctrl IH]; intros [|x slots] El; try done. cbn [zip_with omap list_omap fst snd]. injection El as El.
  rewrite filter_cons. destruct (Z.eqb_spec c kEmpty); [rewrite decide_False by (by intros ?)|rewrite decide_True by done]; cbn [length]; by rewrite <- (IH slots El).
Qed.

Lemma seen_slots (n : nat) : length (filter (fun i => seen (i mod W) = true) (seqZ 0 (W * Z.of_nat n))) =
  (n * length (filter (fun i => seen i = true) (seqZ 0 W)))%nat.
Proof.
  pose proof width_pos. induction n as [|n IH]; [by rewrite Z.mul_0_r|]. replace (W * Z.of_nat (S n)) with (W * Z.of_nat n + W) by lia.
  rewrite seqZ_app, filter_app, length_app, IH by lia. rewrite Z.add_0_l. cbn [Nat.mul]. rewrite Nat.add_comm. f_equal.
  replace (seqZ (W * Z.of_nat n) W) with ((fun i => i + W * Z.of_nat n) <$> seqZ 0 W).
  2: { apply list_eq. intros i. rewrite list_lookup_fmap.
       destruct (decide (Z.of_nat i < W)) as [Hlt|Hge].
       - rewrite (proj2 (lookup_seqZ 0 W i (Z.of_nat i))) by lia. rewrite (proj2 (lookup_seqZ _ W i (W * Z.of_nat n + Z.of_nat i))) by lia. cbn. f_equal. lia.
       - rewrite !lookup_ge_None_2 by (rewrite length_seqZ; lia). done. }
  assert (Hgen : forall l, Forall (fun i => 0 <= i < W) l ->
    length (filter (fun i => seen (i mod W) = true) ((fun i => i + W * Z.of_nat n) <$> l)) = length (filter (fun i => seen i = true) l)).
  { intros l Hl. induction Hl as [|x l Hx _ IHl]; [done|]. rewrite fmap_cons, !filter_cons.
    replace ((x + W * Z.of_nat n) mod W) with x by (rewrite Z.mul_comm, Z.mod_add, Z.mod_small by lia; done).
    case_decide; cbn [length]; by rewrite IHl. }
  apply Hgen, Forall_forall. intros i Hi. apply elem_of_seqZ in Hi. lia.
Qed.

Lemma free_exists nodes cap ctrl slots : table_ok nodes cap ctrl slots -> Z.of_nat (length (occ ctrl slots)) * 8 < cap * 7 ->
  exists i, 0 <= i < cap /\ seen (i mod W) = true /\ byte ctrl i = kEmpty.
Proof.
  intros [T1 [T2 T2'] T3 T4 T5] Hlt. destruct (intern_cap_bounds cap T1) as (Hb & Ecap & k & Hk & Ek). pose proof width_pos.
  destruct (decide (Exists (fun i => seen (i mod W) = true /\ byte ctrl i = kEmpty) (seqZ 0 cap))) as [He|Hn].
  { apply Exists_exists in He as (i & Hi & Hs & Hbi). apply elem_of_seqZ in Hi. exists i. split; [lia|done]. }
  exfalso. rewrite length_occ, <- (filter_index_length kEmpty), T2 in Hlt by lia.
  assert (Hsub : filter (fun i => seen (i mod W) = true) (seqZ 0 cap) ⊆+ filter (fun i => byte ctrl i <> kEmpty) (seqZ 0 cap)).
  { apply NoDup_submseteq; [apply NoDup_filter, NoDup_seqZ|]. intros i Hi. apply list_elem_of_filter in Hi as [Hs Hi]. apply list_elem_of_filter. split; [|done].
    intros Hbi. apply Hn, Exists_exists. eauto. }
  apply submseteq_length in Hsub. rewrite Ecap in Hsub at 1. rewrite <- (Z2Nat.id (cap / W)) in Hsub by (rewrite Ek; apply Z.pow_nonneg; lia).
  rewrite seen_slots in Hsub. pose proof gw_seen as Hseen. set (v := length (filter _ (seqZ 0 W))) in *. set (n := Z.to_nat (cap / W)) in *.
  assert (Z.of_nat n = cap / W) by (subst n; rewrite Z2Nat.id; [done|rewrite Ek; apply Z.pow_nonneg; lia]). nia.
Qed.

(** ** The bytes of a group *)

Lemma group_byte ctrl g off : 0 <= g -> 0 <= off < W -> W * g + W <= Z.of_nat (length ctrl) -> aget 0 (load_group ctrl (W * g)) off = byte ctrl (W * g + off).
Proof.
  intros Hg Ho Hl. pose proof width_pos. unfold aget, load_group. rewrite lookup_take_lt, lookup_drop by lia.
  replace (Z.to_nat (W * g) + Z.to_nat off)%nat with (Z.to_nat (W * g + off)) by lia.
  destruct (lookup_lt_is_Some_2 ctrl (Z.to_nat (W * g + off))) as [b ->]; [lia|done].
Qed.

Lemma group_bytes_ok ctrl g : 0 <= g -> W * g + W <= Z.of_nat (length ctrl) -> (forall i, 0 <= i < Z.of_nat (length ctrl) -> 0 <= byte ctrl i <= kEmpty) ->
  group_bytes W (load_group ctrl (W * g)).
Proof.
  intros Hg Hl Hb. pose proof width_pos. assert (El : Z.of_nat (length (load_group ctrl (W * g))) = W) by (unfold load_group; rewrite length_take, length_drop; lia).
  split; [done|]. apply Forall_lookup. intros i b Hi. pose proof (lookup_lt_Some _ _ _ Hi) as Hlt. pose proof (group_byte ctrl g (Z.of_nat i) Hg ltac:(lia) Hl) as E.
  assert (Eb : aget 0 (load_group ctrl (W * g)) (Z.of_nat i) = b) by (unfold aget; by rewrite Nat2Z.id, Hi).
  assert (0 <= W * g) by nia. assert (Z.of_nat i < W) by (clear Hb E Eb; lia).
  assert (Hr : 0 <= W * g + Z.of_nat i < Z.of_nat (length ctrl)) by (split; lia). apply Hb in Hr. rewrite <- E, Eb in Hr. unfold kEmpty in Hr. lia.
Qed.

Lemma path_group nodes cap ctrl slots h j : table_ok nodes cap ctrl slots -> let g := path (cap / W) h j in
  0 <= g /\ 0 <= W * g /\ W * g + W <= Z.of_nat (length ctrl) /\ W * g + W <= cap /\ group_bytes W (load_group ctrl (W * g)).
Proof.
  intros [T1 [T2 T2'] T3 _ _] g. destruct (intern_cap_bounds cap T1) as (Hb & Ecap & k & Hk & Ek). pose proof width_pos.
  assert (Hg : 0 <= g < cap / W) by (apply path_range; rewrite Ek; apply Z.pow_pos_nonneg; lia).
  assert (W * g + W <= cap) by nia. split_and!; [lia|nia|lia|done|]. apply group_bytes_ok; [lia|lia|]. intros i Hi. apply T3. lia.
Qed.

Lemma empties_full nodes cap ctrl slots h j : table_ok nodes cap ctrl slots -> let g := path (cap / W) h j in
  match_empty (load_group ctrl (W * g)) = 0 -> full_group ctrl g.
Proof.
  intros HT g E off Ho Hs Hb. destruct (path_group _ _ _ _ h j HT) as (Hg & _ & Hl & _ & HB). pose proof (gw_empty _ off HB Ho) as Ht. fold g in Ht.
  rewrite E, Z.bits_0, Hs, group_byte, Hb in Ht by (done || lia). done.
Qed.

(** The lowest bit of the empties is a free slot that the masks see. *)
Lemma empties_lowest nodes cap ctrl slots h j : table_ok nodes cap ctrl slots -> let g := path (cap / W) h j in
  match_empty (load_group ctrl (W * g)) <> 0 ->
  exists l, lowest (match_empty (load_group ctrl (W * g))) = Ok l /\ 0 <= l < W /\ seen l = true /\ byte ctrl (W * g + l) = kEmpty.
Proof.
  intros HT g Hne. destruct (path_group _ _ _ _ h j HT) as (Hg & Hg2 & Hl & Hc & HB). set (m := match_empty _) in *. pose proof width_pos.
  pose proof (gw_empty_range _ HB) as Hr. fold g m in Hr. assert (Hm : 0 < m < 2 ^ 64) by (pose proof (Z.pow_le_mono_r 2 W 64); lia).
  destruct (countr_zero_spec m Hm) as (Hz & Ht & _). exists (countr_zero m). unfold lowest. rewrite (proj2 (Z.eqb_neq m 0)) by lia. split; [done|].
  assert (Hlt : countr_zero m < W).
  { destruct (Z.lt_ge_cases (countr_zero m) W) as [|Hge]; [done|]. rewrite Z.bits_above_log2 in Ht; [done|lia|]. apply Z.log2_lt_pow2; [lia|].
    pose proof (Z.pow_le_mono_r 2 W (countr_zero m)). lia. }
  split; [lia|]. pose proof (gw_empty _ (countr_zero m) HB ltac:(lia)) as Hb. fold g m in Hb. rewrite Ht in Hb. symmetry in Hb. apply andb_prop in Hb as [Hs Hb].
  rewrite group_byte in Hb by lia. apply Z.leb_le in Hb. split; [done|]. fold g in Hc, Hg2. assert (Hr2 : 0 <= W * g + countr_zero m < cap) by (split; lia).
  apply (to_byte _ _ _ _ HT) in Hr2. unfold kEmpty in *. lia.
Qed.

Lemma slot_group g l : 0 <= l < W -> (W * g + l) mod W = l /\ (W * g + l) / W = g.
Proof. intros Hl. pose proof width_pos. rewrite Z.add_comm, Z.mul_comm, Z.mod_add, Z.div_add, Z.mod_small, Z.div_small by lia. lia. Qed.

(** A free slot on the path of a hash. *)
Record free_on (cap : Z) (ctrl : list Z) (h i : Z) : Prop := {
  fo_range : 0 <= i < cap;
  fo_empty : byte ctrl i = kEmpty;
  fo_seen : seen (i mod W) = true;
  fo_path : exists j, path (cap / W) h j = i / W /\ forall j', (j' < j)%nat -> full_group ctrl (path (cap / W) h j');
}.

Lemma lowest_free_on nodes cap ctrl slots h j : table_ok nodes cap ctrl slots -> let g := path (cap / W) h j in
  (forall j', (j' < j)%nat -> full_group ctrl (path (cap / W) h j')) -> match_empty (load_group ctrl (W * g)) <> 0 ->
  exists l, lowest (match_empty (load_group ctrl (W * g))) = Ok l /\ free_on cap ctrl h (W * g + l).
Proof.
  intros HT g Hf Hne. destruct (empties_lowest _ _ _ _ h j HT Hne) as (l & E & Hl & Hs & Hb). exists l. split; [done|].
  destruct (path_group _ _ _ _ h j HT) as (_ & Hg2 & _ & Hc & _). destruct (slot_group g l Hl) as [E1 E2]. fold g in Hg2, Hc. split.
  - lia.
  - done.
  - by rewrite E1.
  - exists j. by rewrite E2.
Qed.

(** Not every group of a path is full in a table under its load. *)
Lemma path_not_full nodes cap ctrl slots h j : table_ok nodes cap ctrl slots -> Z.of_nat (length (occ ctrl slots)) * 8 < cap * 7 ->
  (groups cap <= j)%nat -> ~ (forall j', (j' < j)%nat -> full_group ctrl (path (cap / W) h j')).
Proof.
  intros HT Hlt Hj Hf. destruct (free_exists _ _ _ _ HT Hlt) as (i & Hi & Hs & Hb). pose proof (to_cap _ _ _ _ HT) as Hcap.
  destruct (intern_cap_bounds cap Hcap) as (Hbd & Ecap & k & Hk & Ek). pose proof width_pos.
  assert (Hg : 0 <= i / W < 2 ^ k) by (rewrite <- Ek; split; [apply Z.div_pos; lia|apply Z.div_lt_upper_bound; lia]).
  destruct (path_covers k h (i / W) Hk Hg) as (j' & Hj' & E). rewrite <- Ek in Hj', E. unfold groups in Hj.
  assert (Hm : 0 <= i mod W < W) by (apply Z.mod_pos_bound; lia). assert (Hjj : (j' < j)%nat) by lia. apply (Hf j' Hjj (i mod W)); [lia|done|]. rewrite E. rewrite <- Z.div_mod by lia. done.
Qed.

Lemma free_slot_from nodes cap ctrl slots h : table_ok nodes cap ctrl slots -> Z.of_nat (length (occ ctrl slots)) * 8 < cap * 7 ->
  forall fuel j, (groups cap <= fuel + j)%nat -> (forall j', (j' < j)%nat -> full_group ctrl (path (cap / W) h j')) ->
  exists i, free_slot fuel ctrl cap (W * path (cap / W) h j) (Z.of_nat j) = Ok i /\ free_on cap ctrl h i.
Proof.
  intros HT Hlt. induction fuel as [|fuel IH]; intros j Hj Hf.
  { exfalso. by apply (path_not_full _ _ _ _ h j HT Hlt). }
  cbn [free_slot]. destruct (path_group _ _ _ _ h j HT) as (_ & _ & _ & Hc & _). rewrite (proj2 (Z.leb_le _ _) Hc). cbn [require rbind].
  destruct (Z.eqb_spec (match_empty (load_group ctrl (W * path (cap / W) h j))) 0) as [E|E]; cbn [negb].
  - rewrite next_base_path by apply HT. replace (Z.of_nat j + 1) with (Z.of_nat (S j)) by lia. apply IH; [lia|]. intros j' Hj'.
    destruct (Nat.eq_dec j' j) as [->|]; [by eapply empties_full|apply Hf; lia].
  - destruct (lowest_free_on _ _ _ _ h j HT Hf E) as (l & -> & Hl). cbn [rbind]. eauto.
Qed.

Lemma free_slot_ok nodes cap ctrl slots h : table_ok nodes cap ctrl slots -> Z.of_nat (length (occ ctrl slots)) * 8 < cap * 7 ->
  exists i, free_slot (groups cap) ctrl cap (first_base h (cap - 1)) 0 = Ok i /\ free_on cap ctrl h i.
Proof.
  intros HT Hlt. rewrite first_base_path by apply HT. apply (free_slot_from _ _ _ _ h HT Hlt (groups cap) 0); [lia|]. intros j' Hj'. lia.
Qed.

(** ** The move to a new table *)

Lemma free_insert nodes nodes' cap ctrl slots i a e :
  table_ok nodes cap ctrl slots -> nodes ⊆ nodes' -> nodes' !! a = Some e -> 0 <= e_hash e < 2 ^ 64 -> a ∉ occ ctrl slots ->
  free_on cap ctrl (e_hash e) i ->
  table_ok nodes' cap (aset ctrl i (h2_tag (e_hash e))) (aset slots i a) /\
  occ (aset ctrl i (h2_tag (e_hash e))) (aset slots i a) ≡ₚ a :: occ ctrl slots.
Proof. intros HT Hsub Ha Hh Hnin [F1 F2 F3 (j & F4 & F5)]. by eapply table_insert. Qed.

Lemma reinsert_ok nodes cap old : forall ctrl slots r,
  table_ok nodes cap ctrl slots ->
  Forall (fun p : Z * Z => p.1 <> kEmpty -> exists e, nodes !! p.2 = Some e /\ 0 <= e_hash e < 2 ^ 64) old ->
  NoDup (held old ++ occ ctrl slots) -> Z.of_nat (length (held old ++ occ ctrl slots)) * 8 <= cap * 7 ->
  exists ctrl' slots', reinsert nodes cap old ctrl slots r = Ok (ctrl', slots', r + Z.of_nat (length (held old))) /\
    table_ok nodes cap ctrl' slots' /\ occ ctrl' slots' ≡ₚ held old ++ occ ctrl slots.
Proof.
  induction old as [|[c a] old IH]; intros ctrl slots r HT Hf Hnd Hlen.
  { exists ctrl, slots. cbn. by rewrite Z.add_0_r. }
  apply Forall_cons in Hf as [Ha Hf]. unfold held in Hnd, Hlen |- *. cbn [reinsert omap list_omap fst snd] in *. fold (held old) in *.
  destruct (Z.eqb_spec c kEmpty) as [E|E].
  { by apply IH. }
  destruct (Ha E) as (e & He & Hh). rewrite He. change ((a :: held old) ++ occ ctrl slots) with (a :: (held old ++ occ ctrl slots)) in *.
  apply NoDup_cons in Hnd as [Hnin Hnd]. cbn [length] in Hlen. rewrite length_app in Hlen.
  destruct (free_slot_ok nodes cap ctrl slots (e_hash e) HT ltac:(lia)) as (i & -> & Hi). cbn [rbind].
  destruct (free_insert nodes nodes cap ctrl slots i a e HT ltac:(done) He Hh ltac:(set_solver) Hi) as [HT' Hocc].
  destruct (IH _ _ (r + 1) HT' Hf) as (ctrl' & slots' & E1 & HT2 & Hocc2).
  - rewrite Hocc, <- Permutation_middle. by constructor.
  - rewrite Hocc, length_app. cbn [length]. lia.
  - exists ctrl', slots'. rewrite E1. split; [cbn [length]; do 2 f_equal; lia|]. split; [done|]. rewrite Hocc2, Hocc. symmetry. apply Permutation_middle.
Qed.
End Table.
