(* ===== verification/InternTheorems.v ===== *)
(** * InternTheorems.v: interning is a finite map, and what the pool promises

    The pool invariant: the table holds each node once, no two nodes have one
    structure, and each node has the hash of its structure.  A call of
    intern_node returns the node of a structure, the one that exists or a new
    one, and it ends at a contract only when the table cannot grow or the
    arena has no memory.  The second part is the properties of the pool. *)

From stdpp Require Import base list strings gmap.
From Stdlib Require Import ZArith Lia.
From S2P Require Import Prelude.
From S2P Require Import Types.
From S2P Require Import Arena.
From S2P Require Import Hash.
From S2P Require Import SwissTable.
From S2P Require Import Expr.
From S2P Require Import ExprPool.
From S2P Require Import InternTable.
#[local] Open Scope Z_scope.
#[local] Open Scope result_scope.

(** ** The packed word determines its fields *)


Lemma packed_value op n f sy : 0 <= n < 256 -> 0 <= f < 2 ^ 16 -> 0 <= sy < 2 ^ 32 ->
  packed_metadata op n f sy = Op.code op + n * 2 ^ 8 + f * 2 ^ 16 + sy * 2 ^ 32.
Proof.
  intros Hn Hf Hs. pose proof (Op.code_range op). unfold packed_metadata. rewrite !wrap_small by (rewrite Z.shiftl_mul_pow2 by lia; lia).
  rewrite (Z.lor_comm (Op.code op)), (lor_shiftl_add 8), (Z.lor_comm _ (Z.shiftl f 16)), (lor_shiftl_add 16), (Z.lor_comm _ (Z.shiftl sy 32)), (lor_shiftl_add 32) by lia. lia.
Qed.

Lemma packed_inj op n f sy op' n' f' sy' :
  0 <= n < 256 -> 0 <= f < 2 ^ 16 -> 0 <= sy < 2 ^ 32 -> 0 <= n' < 256 -> 0 <= f' < 2 ^ 16 -> 0 <= sy' < 2 ^ 32 ->
  packed_metadata op n f sy = packed_metadata op' n' f' sy' -> op = op' /\ n = n' /\ f = f' /\ sy = sy'.
Proof.
  intros. rewrite !packed_value in * by lia. pose proof (Op.code_range op). pose proof (Op.code_range op'). split; [apply Op.code_inj|]; lia.
Qed.

(** ** A node and its shape *)

Definition shape_of (e : Expr) : shape := mkShape (e_op e) (e_args e) (e_flags e) (e_symbol e) (e_payload e).

(** What a caller of intern_node gives: fields in their widths, children in the pool. *)
Record shape_ok (nodes : gmap Z Expr) (s : shape) : Prop := {
  so_args : (length (sh_args s) <= 255)%nat;
  so_flags : 0 <= sh_flags s < 2 ^ 16;
  so_symbol : 0 <= sh_symbol s < 2 ^ 32;
  so_payload : - 2 ^ 63 <= sh_payload s < 2 ^ 63;
  so_children : Forall (fun a => is_Some (nodes !! a)) (sh_args s);
}.

Lemma shape_ok_mono nodes nodes' s : nodes ⊆ nodes' -> shape_ok nodes s -> shape_ok nodes' s.
Proof.
  intros Hsub [? ? ? ? H]. split; auto. eapply Forall_impl; [exact H|]. intros a [e He]. exists e. by eapply lookup_weaken.
Qed.

#[local] Opaque fmix64 combine_ids.

Lemma shape_hash_width nodes s : shape_ok nodes s -> 0 <= shape_hash s < 2 ^ 64.
Proof.
  intros [H1 H2 H3 H4 _]. unfold shape_hash. rewrite expr_hash_fold.
  assert (Hm : in_width 64 (fmix64 (Z.lxor (Z.lxor (packed_metadata (sh_op s) (Z.of_nat (length (sh_args s))) (sh_flags s) (sh_symbol s)) 0x9E3779B97F4A7C15)
      (Z.lxor (u64 (sh_payload s)) 0x517CC1B727220A95)))).
  { apply fmix64_width, lxor_width; [lia|apply lxor_width; [lia| |by compute]|apply lxor_width; [lia|apply u64_range|by compute]].
    unfold in_width. pose proof (Op.code_range (sh_op s)). rewrite packed_value by lia. lia. }
  clear H1 H2 H3 H4. revert Hm. generalize (fmix64 (Z.lxor (Z.lxor (packed_metadata (sh_op s) (Z.of_nat (length (sh_args s))) (sh_flags s) (sh_symbol s)) 0x9E3779B97F4A7C15)
      (Z.lxor (u64 (sh_payload s)) 0x517CC1B727220A95))).
  induction (sh_args s) as [|a l IH]; intros m Hm; [done|]. cbn [foldl]. apply IH. by apply combine_ids_width.
Qed.

Lemma forallb_aget_eq (l l' : list Z) : length l = length l' ->
  forallb (fun i => aget 0 l i =? aget 0 l' i) (seqZ 0 (Z.of_nat (length l'))) = true <-> l = l'.
Proof.
  intros El. rewrite forallb_forall. split.
  - intros H. apply list_eq. intros i. destruct (decide (i < length l')%nat) as [Hi|Hi]; [|by rewrite !lookup_ge_None_2 by lia].
    assert (Hin : List.In (Z.of_nat i) (seqZ 0 (Z.of_nat (length l')))) by (apply list_elem_of_In, elem_of_seqZ; lia).
    apply H, Z.eqb_eq in Hin. unfold aget in Hin. rewrite Nat2Z.id in Hin.
    destruct (lookup_lt_is_Some_2 l i) as [x Hx]; [lia|]. destruct (lookup_lt_is_Some_2 l' i) as [y Hy]; [lia|]. rewrite Hx, Hy in *. cbn in Hin. unfold id in Hin. by subst.
  - intros -> i _. apply Z.eqb_refl.
Qed.

Lemma same_node_spec nodes nodes' s e : shape_ok nodes s -> shape_ok nodes' (shape_of e) -> e_hash e = shape_hash (shape_of e) ->
  same_node s (shape_hash s) e = true <-> shape_of e = s.
Proof.
  intros [S1 S2 S3 S4 _] [E1 E2 E3 E4 _] Hh. cbn [shape_of sh_args sh_flags sh_symbol sh_payload] in *. unfold same_node, nargs. split.
  - intros H. apply andb_prop in H as [H Ha]. apply andb_prop in H as [H Hp]. apply andb_prop in H as [_ Hpay]. apply Z.eqb_eq in Hp, Hpay.
    apply packed_inj in Hp as (Ho & Hl & Hf & Hs); try lia. apply forallb_aget_eq in Ha; [|lia]. destruct s; cbn in *. by subst.
  - intros <-. cbn [shape_of sh_op sh_args sh_flags sh_symbol sh_payload]. rewrite Hh, !Z.eqb_refl. cbn. by apply forallb_aget_eq.
Qed.

(** ** The invariant of the pool *)

Section Intern.
Context `{G : CtrlGroup} {HG : CtrlGroupOk G} `{E : ExprArena} {HE : ExprArenaOk E}.
#[local] Set Default Proof Using "HG".
Abbreviation W := group_width.
Abbreviation byte ctrl i := (aget kEmpty ctrl i).

(** [rank] says that the children of a node are older than the node. *)
Record nodes_ok (nodes : gmap Z Expr) : Prop := {
  no_addr : forall a e, nodes !! a = Some e -> 0 < a < 2 ^ 64;
  no_hash : forall a e, nodes !! a = Some e -> e_hash e = shape_hash (shape_of e);
  no_shape : forall a e, nodes !! a = Some e -> shape_ok nodes (shape_of e);
  no_unique : forall a b e e', nodes !! a = Some e -> nodes !! b = Some e' -> shape_of e = shape_of e' -> a = b;
  no_rank : exists rank : Z -> nat, forall a e c, nodes !! a = Some e -> c ∈ e_args e -> (rank c < rank a)%nat;
}.

Record pool_ok (P : ExprPool) : Prop := {
  po_table : table_ok (p_nodes P) (capacity_ P) (ctrl_ P) (slots_ P);
  po_occ : forall a, a ∈ occ (ctrl_ P) (slots_ P) <-> is_Some (p_nodes P !! a);
  po_count : intern_count_ P = Z.of_nat (length (occ (ctrl_ P) (slots_ P)));
  po_load : intern_count_ P * 8 <= capacity_ P * 7;
  po_nodes : nodes_ok (p_nodes P);
  po_arena : exists live, ea_inv (p_arena P) live /\ forall a, is_Some (p_nodes P !! a) -> a ∈ live;
}.

(** ** The probe *)

Lemma find_match_ok P s base : shape_ok (p_nodes P) s -> nodes_ok (p_nodes P) ->
  forall fuel l m, 0 <= l -> 0 <= m < 2 ^ 64 -> 64 - l <= Z.of_nat fuel -> (forall i, 0 <= i < l -> Z.testbit m i = false) ->
  (forall i, 0 <= i -> Z.testbit m i = true -> is_Some (p_nodes P !! aget 0 (slots_ P) (base + i))) ->
  exists r, find_match fuel P s (shape_hash s) base m = Ok r /\
  match r with
  | Some a => exists e, p_nodes P !! a = Some e /\ shape_of e = s
  | None => forall i e, 0 <= i -> Z.testbit m i = true -> p_nodes P !! aget 0 (slots_ P) (base + i) = Some e -> shape_of e <> s
  end.
Proof.
  intros Hs HN. induction fuel as [|fuel IH]; intros l m Hl Hm Hfuel Hlow Hnodes.
  all: cbn [find_match]; destruct (Z.eqb_spec m 0) as [->|Hne]; [exists None; split; [done|]; intros i e _ Hb; by rewrite Z.bits_0 in Hb|].
  all: destruct (countr_zero_spec m ltac:(lia)) as (Hc & Ht & Hb); assert (Hlc : l <= countr_zero m) by
    (destruct (Z.lt_ge_cases (countr_zero m) l); [rewrite Hlow in Ht by lia; done|lia]).
  { lia. }
  unfold lowest. rewrite (proj2 (Z.eqb_neq m 0)) by lia. cbn [negb require rbind].
  destruct (Hnodes _ (proj1 Hc) Ht) as [e He]. unfold node_at. rewrite He. cbn [rbind].
  pose proof (same_node_spec _ _ s e Hs (no_shape _ HN _ _ He) (no_hash _ HN _ _ He)) as Hsame.
  destruct (same_node s (shape_hash s) e) eqn:Es; [exists (Some (aget 0 (slots_ P) (base + countr_zero m))); split; [done|]; exists e; split; [done|by apply Hsame]|].
  pose proof (clear_lowest_range m ltac:(lia)). destruct (IH (countr_zero m + 1) (clear_lowest m)) as (r & -> & Hr); try lia.
  - intros i Hi. rewrite clear_lowest_bits by lia. destruct (Z.eq_dec i (countr_zero m)) as [->|]; [by rewrite Z.eqb_refl, andb_false_r|by rewrite Hb by lia].
  - intros i Hi Hbi. rewrite clear_lowest_bits in Hbi by lia. apply andb_prop in Hbi as [Hbi _]. auto.
  - exists r. split; [done|]. destruct r; [done|]. intros i e' Hi Hbi He'. destruct (Z.eq_dec i (countr_zero m)) as [->|Hne'].
    + rewrite He in He'. injection He' as <-. intros Heq. apply Hsame in Heq. congruence.
    + apply (Hr i); [done| |done]. rewrite clear_lowest_bits, Hbi, (proj2 (Z.eqb_neq _ _)) by lia. done.
Qed.

(** No slot of the group [g] that the masks see has a node of the shape [s]. *)
Definition absent (P : ExprPool) (s : shape) (g : Z) : Prop :=
  forall off e, 0 <= off < W -> seen off = true -> byte (ctrl_ P) (W * g + off) <> kEmpty ->
  p_nodes P !! aget 0 (slots_ P) (W * g + off) = Some e -> shape_of e <> s.

(** The search of one group. *)
Lemma find_match_group P s h j : shape_ok (p_nodes P) s -> nodes_ok (p_nodes P) -> table_ok (p_nodes P) (capacity_ P) (ctrl_ P) (slots_ P) ->
  let g := path (capacity_ P / W) h j in
  exists r, find_match 64 P s (shape_hash s) (W * g) (match_ (load_group (ctrl_ P) (W * g)) (h2_tag (shape_hash s))) = Ok r /\
  match r with
  | Some a => exists e, p_nodes P !! a = Some e /\ shape_of e = s
  | None => absent P s g
  end.
Proof.
  intros Hs HN HT g. destruct (path_group _ _ _ _ h j HT) as (Hg & Hg2 & Hl & Hc & HB). fold g in Hg, Hg2, Hl, Hc, HB. pose proof width_pos.
  assert (Ht : 0 <= h2_tag (shape_hash s) < 128) by (by eapply tag_range, shape_hash_width).
  pose proof (gw_match_range _ _ HB Ht) as Hr. pose proof (Z.pow_le_mono_r 2 W 64). set (m := match_ _ _) in *.
  assert (Hbit : forall i, 0 <= i -> Z.testbit m i = true -> 0 <= i < W).
  { intros i Hi Hb. destruct (Z.lt_ge_cases i W); [done|]. destruct (Z.eq_dec m 0) as [E0|]; [by rewrite E0, Z.bits_0 in Hb|].
    rewrite Z.bits_above_log2 in Hb; [done|lia|]. pose proof (Z.pow_le_mono_r 2 W i). apply Z.log2_lt_pow2; lia. }
  destruct (find_match_ok P s (W * g) Hs HN 64 0 m) as (r & Er & Hres); try lia.
  - intros i Hi Hb. specialize (Hbit i Hi Hb). destruct (gw_match_held _ _ i HB Ht Hbit Hb) as [_ Hlt]. rewrite group_byte in Hlt by lia.
    assert (Hi2 : 0 <= W * g + i < capacity_ P) by (split; lia). destruct (to_slot _ _ _ _ HT _ Hi2) as (e & Hp); [unfold kEmpty in *; lia|].
    exists e. by apply (pl_node _ _ _ _ _ _ Hp).
  - exists r. split; [done|]. destruct r; [done|]. intros off e Ho Hseen Hb He Heq.
    apply (Hres off e); [lia| |done|done]. apply gw_match; [done|done|done|done|]. rewrite group_byte by lia.
    assert (Hi2 : 0 <= W * g + off < capacity_ P) by (split; lia). destruct (to_slot _ _ _ _ HT _ Hi2 Hb) as (e' & Hp).
    assert (Ee : e' = e) by (rewrite (pl_node _ _ _ _ _ _ Hp) in He; by injection He). subst e'.
    rewrite (pl_tag _ _ _ _ _ _ Hp), (no_hash _ HN _ _ He), Heq. done.
Qed.

(** A probe that ended at a free slot passed every node of its shape. *)
Lemma absent_all P s j : nodes_ok (p_nodes P) -> table_ok (p_nodes P) (capacity_ P) (ctrl_ P) (slots_ P) ->
  (forall a, a ∈ occ (ctrl_ P) (slots_ P) <-> is_Some (p_nodes P !! a)) ->
  (forall j', (j' <= j)%nat -> absent P s (path (capacity_ P / W) (shape_hash s) j')) ->
  ~ full_group (ctrl_ P) (path (capacity_ P / W) (shape_hash s) j) ->
  forall a e, p_nodes P !! a = Some e -> shape_of e <> s.
Proof.
  intros HN HT Hocc Habs Hnf a e He Heq. destruct (to_len _ _ _ _ HT) as [L1 L2]. pose proof width_pos.
  destruct (proj1 (elem_of_occ (ctrl_ P) (slots_ P) a ltac:(lia)) (proj2 (Hocc a) (mk_is_Some _ _ He))) as (i & Hi & Hb & Ea).
  destruct (to_slot _ _ _ _ HT i ltac:(lia) Hb) as (e' & [P1 P2 P3 P4 (j0 & P5 & P6)]). rewrite Ea, He in P1. injection P1 as <-.
  assert (Eh : e_hash e = shape_hash s) by (rewrite (no_hash _ HN _ _ He); by rewrite Heq). rewrite Eh in *.
  destruct (Nat.le_gt_cases j0 j) as [Hle|Hgt]; [|by apply Hnf, P6].
  assert (Hm : 0 <= i mod W < W) by (apply Z.mod_pos_bound; lia). assert (Ei : W * (i / W) + i mod W = i) by (symmetry; apply Z.div_mod; lia).
  apply (Habs j0 Hle (i mod W) e); [done|done| | |done]; rewrite P5, Ei; [done|by rewrite Ea].
Qed.

Definition probe_post (P : ExprPool) (s : shape) (r : probe_end) : Prop :=
  match r with
  | Found a => exists e, p_nodes P !! a = Some e /\ shape_of e = s
  | Vacant i => free_on (capacity_ P) (ctrl_ P) (shape_hash s) i /\ forall a e, p_nodes P !! a = Some e -> shape_of e <> s
  end.

Lemma probe_from P s : shape_ok (p_nodes P) s -> pool_ok P -> intern_count_ P * 8 < capacity_ P * 7 ->
  forall fuel j, (groups (capacity_ P) <= fuel + j)%nat ->
  (forall j', (j' < j)%nat -> full_group (ctrl_ P) (path (capacity_ P / W) (shape_hash s) j') /\ absent P s (path (capacity_ P / W) (shape_hash s) j')) ->
  exists r, probe fuel P s (shape_hash s) (W * path (capacity_ P / W) (shape_hash s) j) (Z.of_nat j) = Ok r /\ probe_post P s r.
Proof.
  intros Hs [HT Hocc Hcnt _ HN _] Hlt. rewrite Hcnt in Hlt. induction fuel as [|fuel IH]; intros j Hj Hf.
  { exfalso. apply (path_not_full _ _ _ _ (shape_hash s) j HT Hlt Hj). intros j' Hj'. by apply Hf. }
  cbn [probe]. destruct (path_group _ _ _ _ (shape_hash s) j HT) as (_ & _ & _ & Hc & _). rewrite (proj2 (Z.leb_le _ _) Hc). cbn [require rbind].
  destruct (find_match_group P s (shape_hash s) j Hs HN HT) as (r & -> & Hr). cbn [rbind]. destruct r as [a|]; [by exists (Found a)|].
  destruct (Z.eqb_spec (match_empty (load_group (ctrl_ P) (W * path (capacity_ P / W) (shape_hash s) j))) 0) as [E0|E0]; cbn [negb].
  - rewrite next_base_path by apply HT. replace (Z.of_nat j + 1) with (Z.of_nat (S j)) by lia. apply IH; [lia|]. intros j' Hj'.
    destruct (Nat.eq_dec j' j) as [->|]; [split; [by eapply empties_full|done]|apply Hf; lia].
  - assert (Hfull : forall j', (j' < j)%nat -> full_group (ctrl_ P) (path (capacity_ P / W) (shape_hash s) j')) by (intros j' Hj'; by apply Hf).
    destruct (lowest_free_on _ _ _ _ (shape_hash s) j HT Hfull E0) as (l & El & Hl). rewrite El. cbn [rbind]. eexists. split; [done|]. split; [done|].
    apply (absent_all P s j HN HT Hocc); [intros j' Hj'; destruct (Nat.eq_dec j' j) as [->|]; [done|by apply Hf; lia]|].
    intros Hfg. destruct (empties_lowest _ _ _ _ (shape_hash s) j HT E0) as (l' & _ & Hl' & Hs' & Hb'). by apply (Hfg l').
Qed.

Lemma probe_ok P s : shape_ok (p_nodes P) s -> pool_ok P -> intern_count_ P * 8 < capacity_ P * 7 ->
  exists r, probe (groups (capacity_ P)) P s (shape_hash s) (first_base (shape_hash s) (capacity_ P - 1)) 0 = Ok r /\ probe_post P s r.
Proof.
  intros Hs HP Hlt. rewrite first_base_path by apply HP. apply (probe_from P s Hs HP Hlt _ 0); [lia|]. intros j' Hj'. lia.
Qed.

(** ** A new node *)

Lemma nodes_insert nodes a s : nodes_ok nodes -> 0 < a < 2 ^ 64 -> nodes !! a = None -> shape_ok nodes s -> (forall b e, nodes !! b = Some e -> shape_of e <> s) ->
  nodes_ok (<[a := node_of s]> nodes).
Proof using Type.
  intros [N0 N1 N2 N3 (rank & N4)] Hpos Ha Hs Hnew. assert (Hsub : nodes ⊆ <[a := node_of s]> nodes) by (by apply insert_subseteq).
  assert (Es : shape_of (node_of s) = s) by (by destruct s).
  assert (Hch : Forall (fun c => is_Some (nodes !! c)) (sh_args s)) by apply Hs. split.
  - intros b e [[<- <-]|[Hne Hb]]%lookup_insert_Some; [done|eauto].
  - intros b e [[<- <-]|[Hne Hb]]%lookup_insert_Some; [by rewrite Es|eauto].
  - intros b e [[<- <-]|[Hne Hb]]%lookup_insert_Some; (eapply shape_ok_mono; [exact Hsub|]); [by rewrite Es|eauto].
  - intros b c e e' [[<- <-]|[Hne Hb]]%lookup_insert_Some [[<- <-]|[Hne' Hc]]%lookup_insert_Some; rewrite ?Es; intros Heq; [done| | |eauto].
    + symmetry in Heq. by apply Hnew in Hc.
    + by apply Hnew in Hb.
  - exists (fun x => if decide (x = a) then S (max_list (rank <$> sh_args s)) else rank x).
    assert (Hold : forall c, is_Some (nodes !! c) -> c <> a) by (intros c [e He] ->; congruence).
    intros b e c [[<- <-]|[Hne Hb]]%lookup_insert_Some Hc.
    + cbn in Hc. rewrite Forall_forall in Hch. rewrite decide_False, decide_True by auto.
      assert (rank c <= max_list (rank <$> sh_args s))%nat by (apply max_list_elem_of_le, list_elem_of_fmap; eauto). lia.
    + pose proof (so_children _ _ (N2 b e Hb)) as Hch2. rewrite Forall_forall in Hch2. rewrite decide_False by (by apply Hold, Hch2). rewrite decide_False by auto. eauto.
Qed.

Lemma place_node_fresh st live s a st' : ea_inv st live -> (length (sh_args s) <= 255)%nat -> place_node st s = Ok (a, st') ->
  0 < a < 2 ^ 64 /\ a ∉ live /\ exists live', ea_inv st' live' /\ forall x, x ∈ a :: live -> x ∈ live'.
Proof using HE.
  intros Hinv Hlen H. unfold place_node in H. inv_ok. rename a0 into st1, Hok into E1.
  assert (Hst : exists live1, ea_inv st1 live1 /\ forall x, x ∈ live -> x ∈ live1).
  { destruct (sh_args s) as [|c l] eqn:El; [injection E1 as <-; eauto|]. inv_ok. destruct a0 as [p st2]. injection E1 as <-.
    unfold SIZEOF_PTR in *. destruct (ea_fresh _ _ (Z.of_nat (length (c :: l)) * 8) 8 _ _ Hinv ltac:(cbn [length] in *; lia) ltac:(by right) Hok) as (_ & _ & Hinv2).
    exists (p :: live). split; [done|]. intros x Hx. by right. }
  destruct Hst as (live1 & Hinv1 & Hsub). destruct (ea_fresh _ _ SIZEOF_EXPR SIZEOF_PTR _ _ Hinv1 ltac:(by compute) ltac:(by right) H) as (Ha & Hn & Hinv2).
  split; [done|]. split; [intros Hin; by apply Hn, Hsub|]. exists (a :: live1). split; [done|]. intros x. rewrite !elem_of_cons. intros [->|Hx]; auto.
Qed.

(** ** The growth of the table *)

Lemma old_held nodes cap ctrl slots : table_ok nodes cap ctrl slots ->
  Forall (fun p : Z * Z => p.1 <> kEmpty -> exists e, nodes !! p.2 = Some e /\ 0 <= e_hash e < 2 ^ 64) (zip ctrl slots).
Proof.
  intros HT. destruct (to_len _ _ _ _ HT) as [L1 L2]. apply Forall_lookup. intros i [c x] Hi Hne. cbn in *.
  apply lookup_zip_with_Some in Hi as (c' & x' & [= <- <-] & Hc & Hx). pose proof (lookup_lt_Some _ _ _ Hc).
  assert (Eb : byte ctrl (Z.of_nat i) = c) by (unfold aget; by rewrite Nat2Z.id, Hc).
  destruct (to_slot _ _ _ _ HT (Z.of_nat i) ltac:(lia)) as (e & [P1 P2 _ _ _]); [by rewrite Eb|]. exists e. split; [|done].
  unfold aget in P1. by rewrite Nat2Z.id, Hx in P1.
Qed.

Lemma alloc_tables_ok n : is_swiss_table_capacity n = true -> alloc_tables_ n = Ok (replicate (Z.to_nat n) kEmpty, replicate (Z.to_nat n) 0).
Proof using Type. intros E0. unfold alloc_tables_. by rewrite E0. Qed.

Lemma grow_to_ok P n : pool_ok P -> is_swiss_table_capacity n = true -> W <= n -> intern_count_ P * 8 <= n * 7 ->
  exists ctrl slots, grow_to_ P n = Ok (set_tables P ctrl slots n (intern_count_ P)) /\ pool_ok (set_tables P ctrl slots n (intern_count_ P)).
Proof.
  intros [HT Hocc Hcnt Hload HN Har] Hn Hw Hl. unfold grow_to_. rewrite Hn, (proj2 (Z.leb_le _ _) Hw), (alloc_tables_ok n Hn). cbn [require rbind].
  destruct (table_empty n (capacity_cap_ok n Hn Hw)) as [[T1 T2 T3 T4 T5] Ho].
  assert (HT0 : table_ok (p_nodes P) n (replicate (Z.to_nat n) kEmpty) (replicate (Z.to_nat n) 0)).
  { split; auto. intros i Hi Hb. exfalso. apply Hb. unfold aget. destruct (_ !! _) as [b|] eqn:Eb; [|done]. by apply lookup_replicate in Eb as [-> _]. }
  destruct (reinsert_ok (p_nodes P) n (zip (ctrl_ P) (slots_ P)) _ _ 0 HT0 (old_held _ _ _ _ HT)) as (ctrl & slots & -> & HT' & Hocc').
  - rewrite Ho, app_nil_r. apply HT.
  - rewrite Ho, app_nil_r. fold (occ (ctrl_ P) (slots_ P)). lia.
  - rewrite Ho, app_nil_r in Hocc'. fold (occ (ctrl_ P) (slots_ P)) in Hocc' |- *. cbn [rbind]. rewrite Z.add_0_l, <- Hcnt, Z.eqb_refl. cbn [require rbind].
    exists ctrl, slots. split; [done|]. split; cbn; auto.
    + intros a. by rewrite Hocc'.
    + by rewrite Hocc'.
Qed.

Lemma capacity_double cap : cap_ok cap -> is_swiss_table_capacity (cap * 2) = (cap * 2 <=? 2 ^ 30).
Proof.
  intros Hc. pose proof Hc as (k & Hk & E0 & Hle). destruct width_pow as (w & Hw & Ew). pose proof width_pos.
  assert (E1 : cap * 2 = 2 ^ (w + k + 1)) by (rewrite !Z.pow_add_r by lia; rewrite E0, Ew; lia).
  destruct (intern_cap_bounds cap Hc) as (Hb & _). unfold is_swiss_table_capacity, has_single_bit. rewrite (proj2 (Z.eqb_neq (cap * 2) 0)) by lia.
  rewrite E1 at 2. rewrite Z.log2_pow2, <- E1, Z.eqb_refl by lia. unfold swiss_table_group_width. change swiss_table_max_capacity with (2 ^ 30).
  rewrite (proj2 (Z.ltb_lt _ _)), (proj2 (Z.leb_le 16 _)) by lia. done.
Qed.

(** rehash gives room for one more node, or the capacity is at its limit. *)
Lemma make_room P : pool_ok P ->
  (exists ctrl slots cap, let P' := set_tables P ctrl slots cap (intern_count_ P) in
    (if capacity_ P * 7 <=? intern_count_ P * 8 then rehash P else Ok P) = Ok P' /\ pool_ok P' /\ intern_count_ P' * 8 < capacity_ P' * 7) \/
  (if capacity_ P * 7 <=? intern_count_ P * 8 then rehash P else Ok P) = Fatal why_capacity /\
    2 ^ 30 < capacity_ P * 2 /\ intern_count_ P * 8 = capacity_ P * 7.
Proof.
  intros HP. pose proof (po_load _ HP). pose proof (to_cap _ _ _ _ (po_table _ HP)) as Hc. destruct (intern_cap_bounds _ Hc) as (Hb & _). pose proof width_pos.
  destruct (Z.leb_spec (capacity_ P * 7) (intern_count_ P * 8)) as [Hfull|Hroom].
  - destruct (Z.leb_spec (capacity_ P * 2) (2 ^ 30)) as [Hle|Hgt].
    + left. assert (Hn : is_swiss_table_capacity (capacity_ P * 2) = true) by (rewrite capacity_double by done; by apply Z.leb_le).
      destruct (grow_to_ok P (capacity_ P * 2) HP Hn ltac:(lia) ltac:(lia)) as (ctrl & slots & E1 & HP'). exists ctrl, slots, (capacity_ P * 2).
      split_and!; [exact E1|done|cbn; lia].
    + right. split; [|lia]. unfold rehash, grow_to_. rewrite capacity_double, (proj2 (Z.leb_gt _ _) Hgt) by done. done.
  - left. exists (ctrl_ P), (slots_ P), (capacity_ P). cbn. destruct P. split_and!; [done|done|cbn in *; lia].
Qed.
End Intern.

(** * What the pool promises its callers

    intern_node against its specification on the set of nodes, the agreement
    of addresses with structure over any sequence of calls, the constructor
    with its caches, and an arena for the pool from Arena.v. *)

#[local] Open Scope result_scope.
#[local] Opaque fmix64 combine_ids.

(** ** The specification *)

(** [a] is the node of the shape [s]. *)
Definition interned (nodes : gmap Z Expr) (s : shape) (a : Z) : Prop := exists e, nodes !! a = Some e /\ shape_of e = s.

(** The node of [s] exists and nothing changes, or exactly one node is added. *)
Definition intern_spec (nodes : gmap Z Expr) (s : shape) (a : Z) (nodes' : gmap Z Expr) : Prop :=
  interned nodes s a /\ nodes' = nodes \/
  (forall b, ~ interned nodes s b) /\ nodes !! a = None /\ nodes' = <[a := node_of s]> nodes.

Lemma interned_mono nodes nodes' s a : nodes ⊆ nodes' -> interned nodes s a -> interned nodes' s a.
Proof. intros Hsub (e & He & Es). exists e. split; [by eapply lookup_weaken|done]. Qed.

Lemma spec_interned nodes s a nodes' : intern_spec nodes s a nodes' -> interned nodes' s a.
Proof.
  intros [[H ->]|(_ & _ & ->)]; [done|]. exists (node_of s). rewrite lookup_insert_eq. split; [done|by destruct s].
Qed.

Lemma spec_sub nodes s a nodes' : intern_spec nodes s a nodes' -> nodes ⊆ nodes'.
Proof. intros [[_ ->]|(_ & Hn & ->)]; [done|by apply insert_subseteq]. Qed.

Section Theorems.
Context `{G : CtrlGroup} {HG : CtrlGroupOk G} `{E : ExprArena} {HE : ExprArenaOk E}.
#[local] Set Default Proof Using "HG HE".

Lemma interned_unique nodes s a b : nodes_ok nodes -> interned nodes s a -> interned nodes s b -> a = b.
Proof using Type. intros HN (e & He & <-) (e' & He' & E'). eapply no_unique; [exact HN|exact He|exact He'|done]. Qed.

Lemma interned_shape nodes s s' a : interned nodes s a -> interned nodes s' a -> s = s'.
Proof using Type. intros (e & He & <-) (e' & He' & <-). by rewrite He in He'; injection He' as ->. Qed.

(** No node has operands. *)
Definition atoms_only (nodes : gmap Z Expr) : Prop := forall a e, nodes !! a = Some e -> e_args e = [].

Lemma spec_atoms nodes s a nodes' : intern_spec nodes s a nodes' -> sh_args s = [] -> atoms_only nodes -> atoms_only nodes'.
Proof using Type. intros [[_ ->]|(_ & _ & ->)] Hs Ha; [done|]. intros b e [[<- <-]|[_ Hb]]%lookup_insert_Some; [done|eauto]. Qed.

(** The fields that interning leaves as they are. *)
Definition same_caches (P P' : ExprPool) : Prop :=
  symbol_names_ P' = symbol_names_ P /\ symbol_exprs_ P' = symbol_exprs_ P /\ int_cache_ P' = int_cache_ P /\
  true_ P' = true_ P /\ false_ P' = false_ P.

(** The state of a table that cannot take one more node. *)
Definition table_full (P : ExprPool) : Prop := 2 ^ 30 < capacity_ P * 2 /\ intern_count_ P * 8 = capacity_ P * 7.

(** The outcomes of intern_node. *)
Definition intern_post (P : ExprPool) (s : shape) (r : result (Z * ExprPool)) : Prop :=
  match r with
  | Ok (a, P') => pool_ok P' /\ intern_spec (p_nodes P) s a (p_nodes P') /\ same_caches P P'
  | Fatal why => table_full P /\ why = why_capacity \/ (forall b, ~ interned (p_nodes P) s b) /\ place_node (p_arena P) s = Fatal why
  end.

Lemma cap_eight cap : cap_ok cap -> exists q, cap = 8 * q.
Proof using HG.
  intros Hc. destruct (intern_cap_bounds cap Hc) as (_ & E0 & _). destruct gw_width as [Ew|[Ew|Ew]]; rewrite Ew in E0; [exists (2 * (cap / 16))|exists (4 * (cap / 32))|exists (8 * (cap / 64))]; lia.
Qed.

Lemma add_node_ok P s i a st live' : pool_ok P -> shape_ok (p_nodes P) s -> intern_count_ P * 8 < capacity_ P * 7 ->
  free_on (capacity_ P) (ctrl_ P) (shape_hash s) i -> (forall b e, p_nodes P !! b = Some e -> shape_of e <> s) ->
  0 < a < 2 ^ 64 -> p_nodes P !! a = None -> ea_inv st live' -> (forall x, x = a \/ is_Some (p_nodes P !! x) -> x ∈ live') ->
  pool_ok (set_tables (set_nodes P st (<[a := node_of s]> (p_nodes P))) (aset (ctrl_ P) i (h2_tag (shape_hash s))) (aset (slots_ P) i a) (capacity_ P) (intern_count_ P + 1)).
Proof.
  intros [HT Hocc Hcnt Hload HN _] Hs Hlt Hfree Hnew Hpos Ha Hinv Hlive. assert (Hsub : p_nodes P ⊆ <[a := node_of s]> (p_nodes P)) by (by apply insert_subseteq).
  assert (Hnin : a ∉ occ (ctrl_ P) (slots_ P)) by (intros Hin; apply Hocc in Hin as [e He]; congruence).
  assert (Hh := shape_hash_width _ _ Hs). destruct (free_insert _ _ _ _ _ i a (node_of s) HT Hsub (lookup_insert_eq _ _ _) Hh Hnin Hfree) as [HT' Ho].
  split; cbn.
  - exact HT'.
  - intros x. change (e_hash (node_of s)) with (shape_hash s) in Ho. rewrite Ho, elem_of_cons, Hocc, lookup_insert_is_Some'. split; intros [?|?]; auto.
  - change (e_hash (node_of s)) with (shape_hash s) in Ho. rewrite Ho, Hcnt. cbn [length]. lia.
  - destruct (cap_eight _ (to_cap _ _ _ _ HT)) as [q Hq]. lia.
  - by apply nodes_insert.
  - exists live'. split; [done|]. intros x Hx. apply lookup_insert_is_Some' in Hx. apply Hlive. destruct Hx; auto.
Qed.

(** Interning with room in the table. *)
Lemma intern_with_room P s : pool_ok P -> shape_ok (p_nodes P) s -> intern_count_ P * 8 < capacity_ P * 7 ->
  intern_post P s (let* r := probe (groups (capacity_ P)) P s (shape_hash s) (first_base (shape_hash s) (capacity_ P - 1)) 0 in
    match r with
    | Found a => Ok (a, P)
    | Vacant i =>
        let* '(a, st) := place_node (p_arena P) s in
        let* count := monotonic_bump64 (intern_count_ P) in
        Ok (a, set_tables (set_nodes P st (<[a := node_of s]> (p_nodes P))) (aset (ctrl_ P) i (h2_tag (shape_hash s))) (aset (slots_ P) i a) (capacity_ P) count)
    end).
Proof.
  intros HP Hs Hlt. destruct (probe_ok P s Hs HP Hlt) as (r & -> & Hr). cbn [rbind]. destruct r as [a|i].
  { cbn. split; [done|]. split; [left; by split|done]. }
  destruct Hr as [Hfree Hnew]. assert (Hno : forall b, ~ interned (p_nodes P) s b) by (intros b (e & He & Es); by apply (Hnew b e)).
  destruct (place_node (p_arena P) s) as [[a st]|why] eqn:Ep; cbn [rbind]; [|by right].
  destruct (po_arena _ HP) as (live & Hinv & Hl). destruct (place_node_fresh _ _ _ _ _ Hinv (so_args _ _ Hs) Ep) as (Hr & Hn & live' & Hinv' & Hl').
  destruct (intern_cap_bounds _ (to_cap _ _ _ _ (po_table _ HP))) as (Hcap & _). unfold monotonic_bump64, UINT64_MAX.
  assert (Ha : p_nodes P !! a = None) by (apply eq_None_not_Some; intros Hx; by apply Hn, Hl).
  rewrite (proj2 (Z.eqb_neq (intern_count_ P) _)) by lia. cbn [negb require rbind]. split; [|by split; [right|]].
  apply (add_node_ok P s i a st live'); auto. intros x [->|Hx]; apply Hl', elem_of_cons; auto.
Qed.

Lemma intern_node_ok P s : pool_ok P -> shape_ok (p_nodes P) s -> intern_post P s (intern_node P s).
Proof.
  intros HP Hs. unfold intern_node. destruct (make_room P HP) as [(ctrl & slots & cap & E1 & HP' & Hlt)|(E1 & Hfull)].
  - rewrite E1. cbn [rbind]. pose proof (intern_with_room _ s HP' Hs Hlt) as H. destruct (rbind _ _) as [[a P']|why]; [done|].
    destruct H as [[Hf _]|H]; [|by right]. exfalso. destruct Hf as [_ Hf]. lia.
  - rewrite E1. cbn. by left.
Qed.

(** ** Addresses are structures *)

(** A sequence of calls, each shape with its result. *)
Inductive intern_run : ExprPool -> list (shape * Z) -> ExprPool -> Prop :=
| run_nil P : intern_run P [] P
| run_cons P s a P' l P'' : shape_ok (p_nodes P) s -> intern_node P s = Ok (a, P') -> intern_run P' l P'' -> intern_run P ((s, a) :: l) P''.

Lemma intern_node_post P s a P' : pool_ok P -> shape_ok (p_nodes P) s -> intern_node P s = Ok (a, P') ->
  pool_ok P' /\ intern_spec (p_nodes P) s a (p_nodes P') /\ same_caches P P'.
Proof. intros HP Hs Er. pose proof (intern_node_ok P s HP Hs) as H. by rewrite Er in H. Qed.

Lemma run_post P l P' : intern_run P l P' -> pool_ok P -> pool_ok P' /\ p_nodes P ⊆ p_nodes P' /\ Forall (fun p => interned (p_nodes P') p.1 p.2) l.
Proof.
  induction 1 as [P|P s a P' l P'' Hs Er _ IH]; intros HP; [done|]. destruct (intern_node_post P s a P' HP Hs Er) as (HP' & Hspec & _).
  destruct (IH HP') as (HP'' & Hsub & Hl). split; [done|]. split; [etrans; [by eapply spec_sub|done]|]. constructor; [|done].
  cbn. eapply interned_mono; [exact Hsub|]. by eapply spec_interned.
Qed.

(** ** The count *)

Lemma count_size P : pool_ok P -> intern_count_ P = Z.of_nat (size (p_nodes P)).
Proof using Type.
  intros [HT Hocc Hcnt _ _ _]. rewrite Hcnt, <- (size_dom (D := gset Z)). f_equal. unfold size, set_size. cbn. apply Permutation_length.
  apply NoDup_Permutation; [apply HT|apply NoDup_elements|]. intros x. by rewrite Hocc, elem_of_elements, elem_of_dom.
Qed.

Lemma spec_size nodes s a nodes' : intern_spec nodes s a nodes' -> (size nodes' <= S (size nodes))%nat.
Proof using Type. intros [[_ ->]|(_ & Hn & ->)]; [lia|]. by rewrite map_size_insert_None. Qed.

(** ** The caches *)

Definition int_shape (v : Z) : shape := atom Op.INTEGER (integer_flags v) none32 v.

Record caches_ok (P : ExprPool) : Prop := {
  co_true : interned (p_nodes P) (atom Op.BOOL_TRUE ExprFlags.IS_BOOLEAN none32 0) (true_ P);
  co_false : interned (p_nodes P) (atom Op.BOOL_FALSE ExprFlags.IS_BOOLEAN none32 0) (false_ P);
  co_ints : forall v, kIntCacheLow <= v <= kIntCacheHigh -> interned (p_nodes P) (int_shape v) (cached_integer P v);
}.

Lemma caches_mono P P' : p_nodes P ⊆ p_nodes P' -> same_caches P P' -> caches_ok P -> caches_ok P'.
Proof using Type.
  intros Hsub (_ & _ & Hi & Ht & Hf) [C1 C2 C3]. split; [rewrite Ht|rewrite Hf|]; [by eapply interned_mono..|].
  intros v Hv. unfold cached_integer. rewrite Hi. by eapply interned_mono, C3.
Qed.

Lemma atom_ok nodes op f sy v : 0 <= f < 2 ^ 16 -> 0 <= sy < 2 ^ 32 -> - 2 ^ 63 <= v < 2 ^ 63 -> shape_ok nodes (atom op f sy v).
Proof using Type. intros. split; cbn; auto; lia. Qed.

Lemma node_ok nodes op args f : 0 <= f < 2 ^ 16 -> (length args <= 255)%nat -> Forall (fun a => is_Some (nodes !! a)) args -> shape_ok nodes (node op args f).
Proof using Type. intros. by split. Qed.

Lemma integer_flags_range v : 0 <= integer_flags v < 2 ^ 16.
Proof using Type. unfold integer_flags. repeat case_match; by compute. Qed.

Lemma int_shape_ok nodes v : - 2 ^ 63 <= v < 2 ^ 63 -> shape_ok nodes (int_shape v).
Proof using Type. intros Hv. apply atom_ok; [apply integer_flags_range|by compute|done]. Qed.

(** integer with its cache is make_integer. *)
Lemma integer_ok P v : pool_ok P -> caches_ok P -> - 2 ^ 63 <= v < 2 ^ 63 -> intern_post P (int_shape v) (integer P v).
Proof.
  intros HP HC Hv. unfold integer. destruct (_ && _) eqn:Ec; [|by apply intern_node_ok, int_shape_ok]. reflect_bools.
  cbn. split; [done|]. split; [left; split; [apply HC; lia|done]|done].
Qed.

(** A sum of a new literal and a cached one. *)
Lemma sum_shape_ok P v w a P' : pool_ok P -> caches_ok P -> - 2 ^ 63 <= v <= 2 ^ 63 - 1 -> kIntCacheLow <= w <= kIntCacheHigh ->
  intern_node P (int_shape v) = Ok (a, P') -> pool_ok P' /\ shape_ok (p_nodes P') (node Op.ADD [cached_integer P w; a] numeric_kind).
Proof.
  intros HP HC Hv Hw Er. destruct (intern_node_post P (int_shape v) _ _ HP (int_shape_ok _ v ltac:(lia)) Er) as (HP' & Hspec & _).
  split; [done|]. apply node_ok; [by compute|cbn; lia|]. apply Forall_cons. split; [|apply Forall_singleton].
  - destruct (co_ints _ HC w Hw) as (e & He & _). exists e. eapply lookup_weaken; [exact He|by eapply spec_sub].
  - destruct (spec_interned _ _ _ _ Hspec) as (e & He & _). by exists e.
Qed.

(** ** The constructor *)

Lemma cap_ok_capacity cap : cap_ok cap -> is_swiss_table_capacity cap = true.
Proof using HG.
  intros Hc. pose proof Hc as (k & Hk & E0 & Hle). destruct width_pow as (w & Hw & Ew). pose proof width_pos.
  assert (E1 : cap = 2 ^ (w + k)) by (rewrite Z.pow_add_r by lia; rewrite E0, Ew; lia). destruct (intern_cap_bounds cap Hc) as (Hb & _).
  unfold is_swiss_table_capacity, has_single_bit. rewrite (proj2 (Z.eqb_neq cap 0)) by lia. rewrite E1 at 2. rewrite Z.log2_pow2, <- E1, Z.eqb_refl by lia.
  unfold swiss_table_group_width. change swiss_table_max_capacity with (2 ^ 30). rewrite (proj2 (Z.ltb_lt _ _)), (proj2 (Z.leb_le 16 _)), (proj2 (Z.leb_le _ _) Hle) by lia. done.
Qed.

Lemma double_until_ok needed : needed <= 2 ^ 30 -> forall fuel target, cap_ok target -> 2 ^ 30 <= target * 2 ^ Z.of_nat fuel ->
  exists t, double_until fuel target needed = Ok t /\ cap_ok t /\ needed <= t.
Proof using HG.
  intros Hn. induction fuel as [|fuel IH]; intros target Hc Hf; cbn [double_until]; destruct (Z.leb_spec needed target) as [Hle|Hgt]; eauto.
  { cbn in Hf. lia. }
  destruct (intern_cap_bounds target Hc) as (Hb & _). pose proof width_pos. rewrite Z.shiftl_mul_pow2, wrap_small by lia. change (2 ^ 1) with 2. apply IH.
  - destruct Hc as (k & Hk & E0 & Hle). exists (k + 1). rewrite Z.pow_add_r by lia. split_and!; [lia|lia|].
    destruct width_pow as (w & Hw & Ew). assert (E1 : target = 2 ^ (w + k)) by (rewrite Z.pow_add_r by lia; rewrite E0, Ew; lia).
    assert (w + k < 30) by (apply (Z.pow_lt_mono_r_iff 2); lia). replace (target * 2) with (2 ^ (w + k + 1)) by (rewrite (Z.pow_add_r 2 (w + k)) by lia; lia).
    apply Z.pow_le_mono_r; lia.
  - replace (Z.of_nat (S fuel)) with (1 + Z.of_nat fuel) in Hf by lia. rewrite Z.pow_add_r in Hf by lia. lia.
Qed.

Lemma width_cap_ok : cap_ok group_width.
Proof using HG. pose proof width_pos. exists 0. lia. Qed.

Lemma rounded_capacity_ok n : n <= 2 ^ 30 -> exists cap, rounded_capacity_ n = Ok cap /\ cap_ok cap /\ n <= cap.
Proof using HG. intros Hn. apply double_until_ok; [done|apply width_cap_ok|]. pose proof width_pos. cbn. lia. Qed.

Lemma empty_pool_ok st live cap : ea_inv st live -> cap_ok cap ->
  pool_ok (empty_pool st (replicate (Z.to_nat cap) kEmpty) (replicate (Z.to_nat cap) 0) cap).
Proof.
  intros Hinv Hc. destruct (table_empty cap Hc) as [HT Ho]. destruct (intern_cap_bounds cap Hc) as (Hb & _). pose proof width_pos.
  split; cbn [empty_pool p_nodes ctrl_ slots_ capacity_ intern_count_ p_arena].
  - done.
  - intros a. rewrite Ho, lookup_empty. split; [by intros ?%not_elem_of_nil|by intros []].
  - by rewrite Ho.
  - lia.
  - split; [by intros a e..|by intros a b e e'|]. exists (fun _ => 0%nat). by intros a e c.
  - exists live. split; [done|]. intros a. by rewrite lookup_empty; intros [].
Qed.

(** One of the first nodes of a pool. *)
Lemma seed_node P s (n : nat) : pool_ok P -> atoms_only (p_nodes P) -> sh_args s = [] -> shape_ok (p_nodes P) s -> (size (p_nodes P) <= n)%nat -> (n <= 1000)%nat ->
  match intern_node P s with
  | Ok (a, P') => pool_ok P' /\ p_nodes P ⊆ p_nodes P' /\ interned (p_nodes P') s a /\ same_caches P P' /\ (size (p_nodes P') <= S n)%nat /\ atoms_only (p_nodes P')
  | Fatal why => exists st, place_node st s = Fatal why
  end.
Proof.
  intros HP Hat Hargs Hs Hsz Hn. pose proof (intern_node_ok P s HP Hs) as H. destruct (intern_node P s) as [[a P']|why].
  - destruct H as (HP' & Hspec & Hsame). split_and!; [done|by eapply spec_sub|by eapply spec_interned|done| |by eapply spec_atoms]. pose proof (spec_size _ _ _ _ Hspec). lia.
  - destruct H as [[[H1 H2] _]|[_ H]]; [|eauto]. pose proof (count_size P HP). lia.
Qed.

Lemma fill_cache_ok vals : forall P (n : nat) (D : Z -> Prop), pool_ok P -> atoms_only (p_nodes P) -> (size (p_nodes P) <= n)%nat -> (n + length vals <= 1000)%nat -> length (int_cache_ P) = 256%nat ->
  Forall (fun v => kIntCacheLow <= v <= kIntCacheHigh) vals -> (forall v, D v -> kIntCacheLow <= v <= kIntCacheHigh /\ interned (p_nodes P) (int_shape v) (cached_integer P v)) ->
  match fill_cache P vals with
  | Ok P' => pool_ok P' /\ atoms_only (p_nodes P') /\ p_nodes P ⊆ p_nodes P' /\ true_ P' = true_ P /\ false_ P' = false_ P /\
      (forall v, D v \/ v ∈ vals -> interned (p_nodes P') (int_shape v) (cached_integer P' v))
  | Fatal why => exists st s, place_node st s = Fatal why
  end.
Proof.
  induction vals as [|v vals IH]; intros P n D HP Hat Hsz Hn Hlen Hf HD; cbn [fill_cache].
  { split_and!; try done. intros v [Hv|Hv%not_elem_of_nil]; [by apply HD|done]. }
  apply Forall_cons in Hf as [Hv Hf]. cbn [length] in Hn. unfold kIntCacheLow, kIntCacheHigh in *.
  pose proof (seed_node P (int_shape v) n HP Hat eq_refl (int_shape_ok _ v ltac:(lia)) Hsz ltac:(lia)) as H. unfold make_integer. fold (int_shape v).
  destruct (intern_node P (int_shape v)) as [[a P1]|why]; cbn [rbind]; [|destruct H as [st H]; eauto].
  destruct H as (HP1 & Hsub1 & Hint & (_ & _ & Hc1 & Ht1 & Hf1) & Hsz1 & Hat1). set (P2 := set_cache P1 _).
  assert (Hget : forall x, -128 <= x -> cached_integer P2 x = if decide (v = x) then a else cached_integer P x).
  { intros x Hx. unfold cached_integer, P2, kIntCacheLow. cbn. rewrite aget_aset by (rewrite ?Hc1; lia). rewrite Hc1. repeat case_decide; done || lia. }
  assert (HD2 : forall x, D x \/ x = v -> -128 <= x <= 127 /\ interned (p_nodes P2) (int_shape x) (cached_integer P2 x)).
  { intros x Hx. assert (Hr : -128 <= x <= 127) by (destruct Hx as [Hx| ->]; [by apply HD|done]). split; [done|]. rewrite Hget by lia.
    case_decide; [by subst|]. destruct Hx as [Hx| ->]; [|done]. eapply interned_mono; [exact Hsub1|]. by apply HD. }
  assert (HP2 : pool_ok P2) by (destruct HP1; by split).
  assert (Hlen2 : length (int_cache_ P2) = 256%nat) by (unfold P2; cbn [set_cache int_cache_]; by rewrite length_aset, Hc1).
  specialize (IH P2 (S n) (fun x => D x \/ x = v) HP2 Hat1 Hsz1 ltac:(lia) Hlen2 Hf HD2).
  destruct (fill_cache P2 vals) as [P'|why]; [|done]. destruct IH as (HP' & Hat' & Hsub & Ht & Hf' & Hall).
  split_and!; [done|done|by etrans|by rewrite Ht|by rewrite Hf'|]. intros x Hx. apply Hall. rewrite elem_of_cons in Hx. tauto.
Qed.

(** The loop of the constructor. *)
Lemma fill_all P f : pool_ok P -> atoms_only (p_nodes P) -> (size (p_nodes P) <= 2)%nat -> length (int_cache_ P) = 256%nat ->
  match fill_cache (set_bools P (true_ P) f) (seqZ kIntCacheLow 256) with
  | Ok P' => pool_ok P' /\ atoms_only (p_nodes P') /\ p_nodes P ⊆ p_nodes P' /\ true_ P' = true_ P /\ false_ P' = f /\
      (forall v, kIntCacheLow <= v <= kIntCacheHigh -> interned (p_nodes P') (int_shape v) (cached_integer P' v))
  | Fatal why => exists st s, place_node st s = Fatal why
  end.
Proof.
  intros HP Hat Hz Hlen. set (P4 := set_bools P _ _). assert (HP4 : pool_ok P4) by (destruct HP; by split).
  assert (Hrange : Forall (fun v => kIntCacheLow <= v <= kIntCacheHigh) (seqZ kIntCacheLow 256)).
  { apply Forall_forall. intros v Hv%elem_of_seqZ. unfold kIntCacheLow, kIntCacheHigh in *. lia. }
  assert (Hl256 : length (seqZ kIntCacheLow 256) = 256%nat) by by rewrite length_seqZ.
  pose proof (fill_cache_ok (seqZ kIntCacheLow 256) P4 2 (fun _ => False) HP4 Hat Hz ltac:(lia) Hlen Hrange ltac:(done)) as H.
  destruct (fill_cache P4 _) as [P'|why]; [|done]. destruct H as (HP' & Hat' & Hsub & Ht4 & Hf4 & Hall). split_and!; try done.
  intros v Hv. apply Hall. right. apply elem_of_seqZ. unfold kIntCacheLow, kIntCacheHigh in *. lia.
Qed.

(** The outcomes of the constructor. *)
Definition new_pool_post (initial_capacity : Z) (r : result ExprPool) : Prop :=
  match r with
  | Ok P => pool_ok P /\ caches_ok P /\ atoms_only (p_nodes P)
  | Fatal why => 2 ^ 30 < initial_capacity \/ exists st s, place_node st s = Fatal why
  end.

Lemma boolean_ok nodes op : shape_ok nodes (atom op ExprFlags.IS_BOOLEAN none32 0).
Proof using Type. apply atom_ok; by compute. Qed.

Lemma seed_pool_ok n P0 vals : vals = seqZ kIntCacheLow 256 -> pool_ok P0 -> p_nodes P0 = ∅ -> length (int_cache_ P0) = 256%nat ->
  new_pool_post n (let* '(t, P1) := intern_node P0 (atom Op.BOOL_TRUE ExprFlags.IS_BOOLEAN none32 0) in
    let P2 := set_bools P1 t (false_ P1) in
    let* '(f, P3) := intern_node P2 (atom Op.BOOL_FALSE ExprFlags.IS_BOOLEAN none32 0) in
    let P4 := set_bools P3 (true_ P3) f in
    fill_cache P4 vals).
Proof.
  intros Hvals HP0 Hemp Hlen0. assert (Hz0 : (size (p_nodes P0) <= 0)%nat) by (by rewrite Hemp, map_size_empty).
  assert (Hat0 : atoms_only (p_nodes P0)) by (rewrite Hemp; by intros a e).
  pose proof (seed_node P0 (atom Op.BOOL_TRUE ExprFlags.IS_BOOLEAN none32 0) 0 HP0 Hat0 eq_refl (boolean_ok _ Op.BOOL_TRUE) Hz0 ltac:(lia)) as H1.
  destruct (intern_node P0 _) as [[t P1]|why]; cbn [rbind]; [|right; destruct H1 as [st H1]; by exists st, (atom Op.BOOL_TRUE ExprFlags.IS_BOOLEAN none32 0)]. destruct H1 as (HP1 & Hs1 & Ht & (_ & _ & Hc1 & _ & Hf1) & Hz1 & Hat1).
  cbv zeta. set (P2 := set_bools P1 _ _). assert (HP2 : pool_ok P2) by (destruct HP1; by split).
  pose proof (seed_node P2 (atom Op.BOOL_FALSE ExprFlags.IS_BOOLEAN none32 0) 1 HP2 Hat1 eq_refl (boolean_ok _ Op.BOOL_FALSE) Hz1 ltac:(lia)) as H3.
  destruct (intern_node P2 _) as [[f P3]|why]; cbn [rbind]; [|right; destruct H3 as [st H3]; by exists st, (atom Op.BOOL_FALSE ExprFlags.IS_BOOLEAN none32 0)]. destruct H3 as (HP3 & Hs3 & Hf & (_ & _ & Hc3 & Ht3 & _) & Hz3 & Hat3).
  assert (Hlen : length (int_cache_ P3) = 256%nat) by (rewrite Hc3; unfold P2; cbn [set_bools int_cache_]; by rewrite Hc1).
  pose proof (fill_all P3 f HP3 Hat3 Hz3 Hlen) as H. rewrite <- Hvals in H. destruct (fill_cache _ _) as [P|why]; [|by right]. destruct H as (HP & Hat & Hsub & Ht4 & Hf4 & Hall).
  split; [done|]. split; [|done]. split; [|rewrite Hf4; by eapply interned_mono|done].
  rewrite Ht4, Ht3. eapply interned_mono; [exact Hsub|]. eapply interned_mono; [exact Hs3|done].
Qed.

Lemma new_pool_ok st live n : ea_inv st live -> new_pool_post n (new_pool st n).
Proof.
  intros Hinv. unfold new_pool. change (Z.shiftl 1 30) with (2 ^ 30). destruct (Z.leb_spec n (2 ^ 30)) as [Hn|Hn]; [|by left]. cbn [require rbind].
  destruct (rounded_capacity_ok n Hn) as (cap & -> & Hc & _). cbn [rbind]. rewrite (alloc_tables_ok cap (cap_ok_capacity cap Hc)). cbn [rbind].
  apply seed_pool_ok; [done|by apply (empty_pool_ok st live)|done|done].
Qed.
End Theorems.

(** ** The arena of Arena.v serves the pool *)

Section ArenaServes.
Context `{M : Malloc, !MallocOk M}.
#[local] Set Default Proof Using "Type*".

#[export] Instance arena_serves : ExprArena := {|
  ea_state := Arena * heap;
  ea_alloc := fun '(A, h) n al => let* '(p, A, h) := alloc A h n al in Ok (p, (A, h));
|}.

Definition given (st : Arena * heap) (live : list Z) : Prop :=
  arena_inv st.1 st.2 /\ Forall (fun p => exists u, u ∈ used st.1 /\ u.1 <= p < u.1 + u.2) live.

#[export] Program Instance arena_serves_ok : ExprArenaOk arena_serves := {| ea_inv := given |}.
Next Obligation.
  intros [A h] live n al p [A' h'] [Hinv Hl] Hn Hal H. cbn in H. inv_ok. destruct a as [[p' A1] h1]. simplify_eq.
  assert (Hreq : good_req n al) by (split_and!; [lia|lia|]; destruct Hal as [->| ->]; [exists 0|exists 3]; lia).
  destruct (alloc_ok_post A h n al p A' h' Hinv Hreq Hok) as [I1 _ _ I4 (u & I5 & I6) _ I7]. cbn in *.
  assert (Hp : 0 < p /\ p + n <= 2 ^ 63).
  { destruct (used_in_block A' h' u I1 I5) as (k & b & _ & Hb & Hin). destruct (bo_block _ _ _ (inv_blocks _ _ I1) k b Hb) as (B1 & _ & _ & B4 & _).
    unfold rinside in *. cbn in *. lia. }
  split; [lia|]. split.
  - intros Hin. rewrite Forall_forall in Hl. rewrite Forall_forall in I4. destruct (Hl p Hin) as (v & Hv & Hr). specialize (I4 v Hv). unfold rdisj in I4. cbn in I4. lia.
  - split; [done|]. constructor.
    + exists u. split; [done|]. unfold rinside in I6. cbn in *. lia.
    + eapply Forall_impl; [exact Hl|]. intros x (v & Hv & Hr). destruct (I7 v Hv) as (v' & Hv' & Hin). exists v'. split; [done|]. unfold rinside in Hin. lia.
Qed.
End ArenaServes.

(** ** The properties *)

Section Claims.
Context `{G : CtrlGroup} {HG : CtrlGroupOk G} `{E : ExprArena} {HE : ExprArenaOk E}.

(** C30: A call of intern_node returns the address of the one node with the
    structure that it asks for.  When the node exists the call changes no node;
    otherwise it adds exactly one, at an address that no node has.  The table
    invariant holds after it: every node has one slot that its probe reaches,
    and at most seven of eight slots are in use.  The probe always ends, and
    the call ends at a contract only when the table is at its largest capacity
    and full, or when the arena has no memory for a new node. *)
Theorem intern_node_refines_map P s : pool_ok P -> shape_ok (p_nodes P) s -> intern_post P s (intern_node P s).
Proof using HG HE. apply intern_node_ok. Qed.

(** C31: In a pool from its constructor, after any sequence of calls of
    intern_node with any growth of the table between them, two calls returned
    one pointer exactly when they asked for one structure (operation, flags,
    symbol, payload and children). *)
Theorem pointer_equality_is_structural st live n P l P' s a s' a' :
  ea_inv st live -> new_pool st n = Ok P -> intern_run P l P' -> (s, a) ∈ l -> (s', a') ∈ l -> a = a' <-> s = s'.
Proof using HG HE.
  intros Hinv Hnew Hrun Hin Hin'. pose proof (new_pool_ok st live n Hinv) as H. rewrite Hnew in H. destruct H as [HP _].
  destruct (run_post P l P' Hrun HP) as (HP' & _ & Hl). rewrite Forall_forall in Hl. pose proof (Hl _ Hin) as H1. pose proof (Hl _ Hin') as H2. cbn in H1, H2.
  split; intros <-; [by eapply interned_shape|eapply interned_unique; [apply HP'|done..]].
Qed.

(** The constructor gives a pool with its table invariant, the two boolean
    nodes and the integer cache.  A request for a small integer, answered from
    the cache, and a request for any other integer have the outcome of the
    interning of that integer. *)
Theorem pool_construction st live n v : ea_inv st live -> - 2 ^ 63 <= v < 2 ^ 63 ->
  match new_pool st n with
  | Ok P => pool_ok P /\ caches_ok P /\ intern_post P (int_shape v) (integer P v)
  | Fatal why => 2 ^ 30 < n \/ exists st' s, place_node st' s = Fatal why
  end.
Proof using HG HE.
  intros Hinv Hv. pose proof (new_pool_ok st live n Hinv) as H. destruct (new_pool st n) as [P|why]; [|done]. destruct H as (HP & HC & _).
  split_and!; [done|done|by apply integer_ok].
Qed.
End Claims.

(** ** A concrete pool

    Groups of 16 slots, the arena of Arena.v, and a table that starts at one
    group and grows to 512 slots while the constructor fills the cache. *)

#[local] Transparent fmix64 combine_ids.

Definition wit_group : CtrlGroup := vector_group 16.
#[local] Instance wit_group_ok : CtrlGroupOk wit_group := vector_group_ok 16 (or_introl eq_refl).
#[local] Existing Instance wit_group.

Definition wit_st : Arena * heap := ok_or (empty_arena 0, []) (new_arena [] 65536).
Definition wit_pool : ExprPool := ok_or (empty_pool wit_st [] [] 0) (new_pool wit_st 16).

Lemma wit_st_inv : ea_inv wit_st [].
Proof.
  split; [|constructor]. apply (new_arena_inv [] 65536 wit_st.1 wit_st.2); [lia|]. vm_compute. reflexivity.
Qed.

Lemma is_ok_or {A} (d : A) m : is_ok m = true -> m = Ok (ok_or d m).
Proof. by destruct m. Qed.

Lemma wit_pool_new : new_pool wit_st 16 = Ok wit_pool.
Proof. apply is_ok_or. vm_compute. reflexivity. Qed.

Lemma wit_pool_ok : pool_ok wit_pool /\ caches_ok wit_pool /\ atoms_only (p_nodes wit_pool).
Proof. pose proof (new_pool_ok wit_st [] 16 wit_st_inv) as H. by rewrite wit_pool_new in H. Qed.

#[local] Opaque wit_pool.

(** The leaf 500, and an ADD of two leaves. *)
Definition wit_500 : Z * ExprPool := ok_or (0, wit_pool) (intern_node wit_pool (int_shape 500)).
#[local] Opaque wit_500.
Definition wit_add : shape := node Op.ADD [cached_integer wit_pool 3; wit_500.1] numeric_kind.

Lemma wit_500_new : intern_node wit_pool (int_shape 500) = Ok wit_500.
Proof. apply (is_ok_or (0, wit_pool)). vm_compute. reflexivity. Qed.

Lemma wit_500_ok : pool_ok wit_500.2 /\ shape_ok (p_nodes wit_500.2) wit_add.
Proof.
  apply (sum_shape_ok wit_pool 500 3); [apply wit_pool_ok|apply wit_pool_ok|split; discriminate|split; discriminate|]. rewrite <- (surjective_pairing wit_500). exact wit_500_new.
Qed.

Lemma intern_node_refines_map_witness : intern_post wit_500.2 wit_add (intern_node wit_500.2 wit_add) /\
  is_ok (intern_node wit_500.2 wit_add) = true /\ intern_count_ wit_500.2 = 259.
Proof. split; [apply intern_node_refines_map; apply wit_500_ok|]. split; vm_compute; reflexivity. Defined.

Lemma pointer_equality_is_structural_witness : intern_run wit_pool [(int_shape 500, wit_500.1)] wit_500.2 /\ (wit_500.1 = wit_500.1 <-> int_shape 500 = int_shape 500).
Proof.
  assert (Hrun : intern_run wit_pool [(int_shape 500, wit_500.1)] wit_500.2).
  { eapply run_cons; [apply int_shape_ok; lia| |apply run_nil]. rewrite <- (surjective_pairing wit_500). exact wit_500_new. }
  split; [exact Hrun|]. apply (pointer_equality_is_structural (E := arena_serves) wit_st [] 16 wit_pool _ _ _ _ _ _ wit_st_inv wit_pool_new Hrun); left.
Defined.

Lemma pool_construction_witness : pool_ok wit_pool /\ fst <$> (match integer wit_pool 7 with Ok r => Some r | Fatal _ => None end) = Some (cached_integer wit_pool 7).
Proof.
  pose proof (pool_construction (E := arena_serves) wit_st [] 16 7 wit_st_inv ltac:(lia)) as H. rewrite wit_pool_new in H. split; [apply H|]. vm_compute. reflexivity.
Defined.
