(* ===== verification/ExprOps.v ===== *)
(** * ExprOps.v: the simplifying constructors of the pool
    (the operations of include/crucible/ExprPool.h)

    Each constructor reads its operands through their addresses, folds what it
    can and interns the rest.  The order of addresses is the canonical order of
    the operands of a commutative operation.  std::ranges::sort is an interface,
    [AddressSort]: the code relies on a permutation in ascending order and on no
    order between equal keys. *)

From stdpp Require Import base list strings gmap sorting.
From Stdlib Require Import ZArith Lia.
From S2P Require Import Prelude.
From S2P Require Import Types.
From S2P Require Import Hash.
From S2P Require Import SwissTable.
From S2P Require Import Expr.
From S2P Require Import ExprPool.
#[local] Open Scope Z_scope.
#[local] Open Scope result_scope.

(** ** Signed saturation (foundation/Saturate.h at int64_t) *)

Definition INT64_MIN : Z := - 2 ^ 63.
Definition INT64_MAX : Z := 2 ^ 63 - 1.

Definition clamp64 (x : Z) : Z := if x <? INT64_MIN then INT64_MIN else if INT64_MAX <? x then INT64_MAX else x.
Definition add_sat64 (x y : Z) : Z := clamp64 (x + y).
Definition sub_sat64 (x y : Z) : Z := clamp64 (x - y).
Definition mul_sat64 (x y : Z) : Z := clamp64 (x * y).

(** ** The sorts *)

Class AddressSort := {
  sort_addresses : list Z -> list Z;
  sort_bases : list (Z * Z) -> list (Z * Z);
}.

Class AddressSortOk (S : AddressSort) := {
  sort_addresses_perm l : sort_addresses l ≡ₚ l;
  sort_addresses_sorted l : Sorted Z.le (sort_addresses l);
  sort_bases_perm l : sort_bases l ≡ₚ l;
  sort_bases_sorted l : Sorted (fun p q : Z * Z => p.2 <= q.2) (sort_bases l);
}.

Section Ops.
Context `{G : CtrlGroup} `{E : ExprArena} `{S : AddressSort} `{N : NanBits}.

Abbreviation pool_op := (result (Z * ExprPool)).

Definition kScratchArgs : Z := kMaxArgs.
Definition kScratchCollect : Z := kScratchArgs + 1.

Abbreviation len l := (Z.of_nat (length l)).

(** ** Composite nodes *)

Fixpoint flags_of (P : ExprPool) (args : list Z) : result (list Z) :=
  match args with
  | [] => Ok []
  | a :: args => let* e := node_at P a in let* fs := flags_of P args in Ok (e_flags e :: fs)
  end.

(** intern_node with the flags of composite_flags. *)
Definition intern_composite (P : ExprPool) (op : Op.t) (args : list Z) : pool_op :=
  let* fs := flags_of P args in
  let* f := composite_flags op fs in
  intern_node P (node op args f).

(** The two operands in the order of their addresses. *)
Definition ordered (lhs rhs : Z) : list Z := if rhs <? lhs then [rhs; lhs] else [lhs; rhs].

Definition nest_folded_constant_ (P : ExprPool) (op : Op.t) (terms : list Z) (folded_constant : Z) : pool_op :=
  let* '(inner, P) := intern_composite P op terms in
  let* '(constant, P) := integer P folded_constant in
  intern_composite P op (ordered inner constant).

(** ** The n-ary constructors: collection

    [collect] is the first loop of add_n and of mul_n: it takes the operands
    of a nested node of the same operation, folds the integers with [fold], and
    keeps room for one slot for each input after the current one. *)

Fixpoint take_children (P : ExprPool) (fold : Z -> Z -> Z) (args terms : list Z) (acc : Z) : result (list Z * Z) :=
  match args with
  | [] => Ok (terms, acc)
  | c :: args =>
      let* e := node_at P c in
      if is_op Op.INTEGER e then take_children P fold args terms (fold acc (e_payload e))
      else
        let* _ := require (len terms <? kScratchArgs) "num_args < kScratchArgs" in
        take_children P fold args (terms ++ [c]) acc
  end.

Fixpoint collect (P : ExprPool) (op : Op.t) (fold : Z -> Z -> Z) (inputs terms : list Z) (acc : Z) : result (list Z * Z) :=
  match inputs with
  | [] => Ok (terms, acc)
  | a :: inputs =>
      let* e := node_at P a in
      let reserved := len inputs in
      if is_op op e && (len terms + nargs e + reserved <=? kScratchArgs) then
        let* '(terms, acc) := take_children P fold (e_args e) terms acc in
        collect P op fold inputs terms acc
      else if is_op Op.INTEGER e then collect P op fold inputs terms (fold acc (e_payload e))
      else
        let* _ := require (len terms + reserved <? kScratchArgs) "num_args + reserved < kScratchArgs" in
        collect P op fold inputs (terms ++ [a]) acc
  end.

Definition why_inputs : string := "inputs.size() <= kScratchArgs".

(** The end of add_n and of mul_n: one operand is the result itself. *)
Definition intern_sorted (P : ExprPool) (op : Op.t) (terms : list Z) : pool_op :=
  if len terms =? 1 then Ok (aget 0 terms 0, P)
  else
    let terms := sort_addresses terms in
    let* _ := require (len terms <=? kScratchArgs) "num_args <= kScratchArgs" in
    intern_composite P op terms.

(** The folded constant as one more operand, or above a full operand list. *)
Definition reattach (P : ExprPool) (op : Op.t) (terms : list Z) (constant : Z) (needed : bool) : pool_op :=
  if needed then
    if len terms =? kScratchArgs then nest_folded_constant_ P op (sort_addresses terms) constant
    else
      let* _ := require (len terms <? kScratchCollect) "num_args < kScratchCollect" in
      let* '(c, P) := integer P constant in
      intern_sorted P op (terms ++ [c])
  else intern_sorted P op terms.

Definition mul_n (P : ExprPool) (inputs : list Z) : pool_op :=
  let* _ := require (len inputs <=? kScratchArgs) why_inputs in
  let* '(factors, int_prod) := collect P Op.MUL mul_sat64 inputs [] 1 in
  if int_prod =? 0 then integer P 0
  else reattach P Op.MUL factors int_prod (negb (int_prod =? 1) || (len factors =? 0)).

(** ** add_n: like terms *)

(** The factors of a MUL without its integer, and the integer, 1 if it has none. *)
Fixpoint split_factors (P : ExprPool) (args factors : list Z) (coefficient : Z) : result (list Z * Z) :=
  match args with
  | [] => Ok (factors, coefficient)
  | c :: args =>
      let* e := node_at P c in
      if is_op Op.INTEGER e then split_factors P args factors (e_payload e)
      else
        let* _ := require (len factors <? kScratchArgs) "num_factors < kScratchArgs" in
        split_factors P args (factors ++ [c]) coefficient
  end.

(** The loop over the terms; an entry is a coefficient and a base. *)
Fixpoint decompose (P : ExprPool) (terms : list Z) (decomposed : list (Z * Z)) (int_sum : Z) : result (list (Z * Z) * Z * ExprPool) :=
  match terms with
  | [] => Ok (decomposed, int_sum, P)
  | t :: terms =>
      let* e := node_at P t in
      let* '(entry, int_sum, P) :=
        if is_op Op.MUL e then
          let* '(factors, coefficient) := split_factors P (e_args e) [] 1 in
          match factors with
          | [] => Ok (None, add_sat64 int_sum coefficient, P)
          | [f] => Ok (Some (coefficient, f), int_sum, P)
          | _ => let* '(base, P) := intern_composite P Op.MUL factors in Ok (Some (coefficient, base), int_sum, P)
          end
        else Ok (Some (1, t), int_sum, P) in
      match entry with
      | None => decompose P terms decomposed int_sum
      | Some d =>
          let* _ := require (len decomposed <? kScratchArgs) "num_decomposed < kScratchArgs" in
          decompose P terms (decomposed ++ [d]) int_sum
      end
  end.

Definition why_collected : string := "num_collected < kScratchCollect".

(** One group of equal bases. *)
Definition emit_term (P : ExprPool) (total base : Z) (collected : list Z) : result (list Z * ExprPool) :=
  if total =? 0 then Ok (collected, P)
  else if total =? 1 then
    let* _ := require (len collected <? kScratchCollect) why_collected in Ok (collected ++ [base], P)
  else
    let* '(c, P) := integer P total in
    let* _ := require (len collected <? kScratchCollect) why_collected in
    let* '(t, P) := mul_n P [c; base] in
    Ok (collected ++ [t], P).

(** The pass over the sorted entries; [total] and [base] are the group so far. *)
Fixpoint merge_terms (P : ExprPool) (total base : Z) (entries : list (Z * Z)) (collected : list Z) : result (list Z * ExprPool) :=
  match entries with
  | [] => emit_term P total base collected
  | (c, b) :: entries =>
      if b =? base then merge_terms P (add_sat64 total c) base entries collected
      else
        let* '(collected, P) := emit_term P total base collected in
        merge_terms P c b entries collected
  end.

Definition merge_all (P : ExprPool) (entries : list (Z * Z)) : result (list Z * ExprPool) :=
  match entries with [] => Ok ([], P) | (c, b) :: entries => merge_terms P c b entries [] end.

Definition add_n (P : ExprPool) (inputs : list Z) : pool_op :=
  let* _ := require (len inputs <=? kScratchArgs) why_inputs in
  let* '(terms, int_sum) := collect P Op.ADD add_sat64 inputs [] 0 in
  match terms with
  | [] => integer P int_sum
  | _ =>
      let* '(entries, int_sum, P) := decompose P terms [] int_sum in
      let* '(collected, P) := merge_all P (sort_bases entries) in
      reattach P Op.ADD collected int_sum (negb (int_sum =? 0) || (len collected =? 0))
  end.

(** ** Arithmetic *)

Definition is_plain (e : Expr) : bool := negb (is_op Op.MUL e) && negb (is_op Op.INTEGER e) && negb (is_op Op.FLOAT e).

Definition mul (P : ExprPool) (lhs rhs : Z) : pool_op :=
  let* l := node_at P lhs in
  let* r := node_at P rhs in
  if is_plain l && is_plain r then intern_composite P Op.MUL (ordered lhs rhs)
  else if is_op Op.INTEGER l && is_op Op.INTEGER r then integer P (mul_sat64 (e_payload l) (e_payload r))
  else if is_op Op.FLOAT l && is_op Op.FLOAT r then float_ P (double_mul (u64 (e_payload l)) (u64 (e_payload r)))
  else if is_zero_int l || is_zero_int r then integer P 0
  else if is_one l then Ok (rhs, P)
  else if is_one r then Ok (lhs, P)
  else mul_n P [lhs; rhs].

Definition add (P : ExprPool) (lhs rhs : Z) : pool_op :=
  let* l := node_at P lhs in
  let* r := node_at P rhs in
  if negb (is_op Op.ADD l) && negb (is_op Op.ADD r) && is_plain l && is_plain r then
    if lhs =? rhs then let* '(two, P) := integer P 2 in mul P two lhs
    else intern_composite P Op.ADD (ordered lhs rhs)
  else if is_op Op.INTEGER l && is_op Op.INTEGER r then integer P (add_sat64 (e_payload l) (e_payload r))
  else if is_op Op.FLOAT l && is_op Op.FLOAT r then float_ P (double_add (u64 (e_payload l)) (u64 (e_payload r)))
  else if is_zero_int l then Ok (rhs, P)
  else if is_zero_int r then Ok (lhs, P)
  else add_n P [lhs; rhs].

Definition power_fold (base exponent : Z) : Z := Nat.iter (Z.to_nat exponent) (fun acc => mul_sat64 acc base) 1.

Definition pow (P : ExprPool) (base exp : Z) : pool_op :=
  let* b := node_at P base in
  let* x := node_at P exp in
  if is_zero_int x then integer P 1
  else if is_one x then Ok (base, P)
  else if is_op Op.INTEGER b && is_op Op.INTEGER x && (0 <=? e_payload x) && (e_payload x <=? 62)
  then integer P (power_fold (e_payload b) (e_payload x))
  else intern_composite P Op.POW [base; exp].

Definition neg (P : ExprPool) (expr : Z) : pool_op :=
  let* e := node_at P expr in
  if is_op Op.INTEGER e then integer P (sub_sat64 0 (e_payload e))
  else if is_op Op.FLOAT e then float_ P (double_neg (u64 (e_payload e)))
  else let* '(m, P) := integer P (-1) in mul P m expr.

(** ** Relations *)

Definition truth (P : ExprPool) (b : bool) : Z := if b then true_ P else false_ P.

Definition boolean_node (P : ExprPool) (op : Op.t) (args : list Z) : pool_op := intern_node P (node op args ExprFlags.IS_BOOLEAN).

(** [same] is the answer for one pointer, [test] the test of two literals;
    [args] are the operands of the node. *)
Definition relation (P : ExprPool) (op : Op.t) (same : bool) (test : Z -> Z -> bool) (args : list Z) (lhs rhs : Z) : pool_op :=
  if lhs =? rhs then Ok (truth P same, P)
  else
    let* l := node_at P lhs in
    let* r := node_at P rhs in
    if is_op Op.INTEGER l && is_op Op.INTEGER r then Ok (truth P (test (e_payload l) (e_payload r)), P)
    else boolean_node P op args.

Definition eq (P : ExprPool) (lhs rhs : Z) : pool_op := relation P Op.EQ true Z.eqb (ordered lhs rhs) lhs rhs.
Definition ne (P : ExprPool) (lhs rhs : Z) : pool_op := relation P Op.NE false (fun x y => negb (x =? y)) (ordered lhs rhs) lhs rhs.
Definition lt (P : ExprPool) (lhs rhs : Z) : pool_op := relation P Op.LT false Z.ltb [lhs; rhs] lhs rhs.
Definition le (P : ExprPool) (lhs rhs : Z) : pool_op := relation P Op.LE true Z.leb [lhs; rhs] lhs rhs.
Definition gt (P : ExprPool) (lhs rhs : Z) : pool_op := relation P Op.GT false Z.gtb [lhs; rhs] lhs rhs.
Definition ge (P : ExprPool) (lhs rhs : Z) : pool_op := relation P Op.GE true Z.geb [lhs; rhs] lhs rhs.

(** ** Logic

    and_n and or_n have one body: [unit_] is the operand that is skipped and
    [zero] the operand that is the result.  [None] is the early return. *)

Fixpoint take_operands (unit_ zero : Z) (args operands : list Z) : result (option (list Z)) :=
  match args with
  | [] => Ok (Some operands)
  | c :: args =>
      if c =? zero then Ok None
      else if c =? unit_ then take_operands unit_ zero args operands
      else
        let* _ := require (len operands <? kScratchArgs) "num_operands < kScratchArgs" in
        take_operands unit_ zero args (operands ++ [c])
  end.

Fixpoint collect_operands (P : ExprPool) (op : Op.t) (unit_ zero : Z) (inputs operands : list Z) : result (option (list Z)) :=
  match inputs with
  | [] => Ok (Some operands)
  | a :: inputs =>
      if a =? zero then Ok None
      else if a =? unit_ then collect_operands P op unit_ zero inputs operands
      else
        let* e := node_at P a in
        let reserved := len inputs in
        if is_op op e && (len operands + nargs e + reserved <=? kScratchArgs) then
          let* found := take_operands unit_ zero (e_args e) operands in
          match found with None => Ok None | Some operands => collect_operands P op unit_ zero inputs operands end
        else
          let* _ := require (len operands + reserved <? kScratchArgs) "num_operands + reserved < kScratchArgs" in
          collect_operands P op unit_ zero inputs (operands ++ [a])
  end.

Definition logic_n (P : ExprPool) (op : Op.t) (unit_ zero : Z) (inputs : list Z) : pool_op :=
  let* _ := require (len inputs <=? kScratchArgs) why_inputs in
  let* found := collect_operands P op unit_ zero inputs [] in
  match found with
  | None => Ok (zero, P)
  | Some [] => Ok (unit_, P)
  | Some [a] => Ok (a, P)
  | Some operands =>
      let operands := sort_addresses operands in
      let* _ := require (len operands <=? kScratchArgs) "num_operands <= kScratchArgs" in
      boolean_node P op operands
  end.

Definition and_n (P : ExprPool) (inputs : list Z) : pool_op := logic_n P Op.AND (true_ P) (false_ P) inputs.
Definition or_n (P : ExprPool) (inputs : list Z) : pool_op := logic_n P Op.OR (false_ P) (true_ P) inputs.

Definition logic (P : ExprPool) (unit_ zero lhs rhs : Z) (n_ary : pool_op) : pool_op :=
  if (lhs =? zero) || (rhs =? zero) then Ok (zero, P)
  else if lhs =? unit_ then Ok (rhs, P)
  else if rhs =? unit_ then Ok (lhs, P)
  else if lhs =? rhs then Ok (lhs, P)
  else n_ary.

Definition and_ (P : ExprPool) (lhs rhs : Z) : pool_op := logic P (true_ P) (false_ P) lhs rhs (and_n P [lhs; rhs]).
Definition or_ (P : ExprPool) (lhs rhs : Z) : pool_op := logic P (false_ P) (true_ P) lhs rhs (or_n P [lhs; rhs]).

Definition not_ (P : ExprPool) (expr : Z) : pool_op :=
  if expr =? true_ P then Ok (false_ P, P)
  else if expr =? false_ P then Ok (true_ P, P)
  else
    let* e := node_at P expr in
    if is_op Op.NOT e then Ok (aget 0 (e_args e) 0, P) else boolean_node P Op.NOT [expr].

(** ** Conditional, minimum and maximum *)

Definition where_ (P : ExprPool) (cond then_branch else_branch : Z) : pool_op :=
  if cond =? true_ P then Ok (then_branch, P)
  else if cond =? false_ P then Ok (else_branch, P)
  else if then_branch =? else_branch then Ok (then_branch, P)
  else
    let* t := node_at P then_branch in
    let* f := node_at P else_branch in
    intern_node P (node Op.WHERE [cond; then_branch; else_branch] (Z.land (e_flags t) (e_flags f))).

(** The first loop of min_n and of max_n. *)
Fixpoint flatten_n (P : ExprPool) (op : Op.t) (inputs args : list Z) : result (list Z) :=
  match inputs with
  | [] => Ok args
  | a :: inputs =>
      let* e := node_at P a in
      let reserved := len inputs in
      if is_op op e && (len args + nargs e + reserved <=? kScratchArgs) then flatten_n P op inputs (args ++ e_args e)
      else
        let* _ := require (len args + reserved <? kScratchArgs) "num_args + reserved < kScratchArgs" in
        flatten_n P op inputs (args ++ [a])
  end.

(** The pass over the sorted operands; [last] is the last one kept. *)
Fixpoint drop_equal (last : Z) (args : list Z) : list Z :=
  match args with
  | [] => []
  | a :: args => if a =? last then drop_equal last args else a :: drop_equal a args
  end.

Definition unique (args : list Z) : list Z := match args with [] => [] | a :: args => a :: drop_equal a args end.

Definition extremum_n (P : ExprPool) (op : Op.t) (inputs : list Z) : pool_op :=
  let* _ := require (negb (len inputs =? 0)) "!inputs.empty()" in
  let* _ := require (len inputs <=? kScratchArgs) why_inputs in
  let* args := flatten_n P op inputs [] in
  let* _ := require (negb (len args =? 0)) "read of a slot that was never written" in
  let args := unique (sort_addresses args) in
  if len args =? 1 then Ok (aget 0 args 0, P)
  else
    let* _ := require (len args <=? kScratchArgs) "num_unique <= kScratchArgs" in
    intern_composite P op args.

Definition min_n (P : ExprPool) (inputs : list Z) : pool_op := extremum_n P Op.MIN inputs.
Definition max_n (P : ExprPool) (inputs : list Z) : pool_op := extremum_n P Op.MAX inputs.

Definition extremum (P : ExprPool) (pick : Z -> Z -> Z) (lhs rhs : Z) (n_ary : pool_op) : pool_op :=
  if lhs =? rhs then Ok (lhs, P)
  else
    let* l := node_at P lhs in
    let* r := node_at P rhs in
    if is_op Op.INTEGER l && is_op Op.INTEGER r then integer P (pick (e_payload l) (e_payload r)) else n_ary.

Definition min_expr (P : ExprPool) (lhs rhs : Z) : pool_op := extremum P Z.min lhs rhs (min_n P [lhs; rhs]).
Definition max_expr (P : ExprPool) (lhs rhs : Z) : pool_op := extremum P Z.max lhs rhs (max_n P [lhs; rhs]).

(** ** Division and modulus *)

Definition is_foldable_division_ (dividend divisor : Z) : bool :=
  negb (divisor =? 0) && negb ((dividend =? INT64_MIN) && (divisor =? -1)).

(** [(x ^ y) < 0] on int64. *)
Definition signs_differ (x y : Z) : bool := Z.lxor x y <? 0.

(** The fold of floor_div: the C quotient with its adjustment. *)
Definition floor_fold (dividend divisor : Z) : Z :=
  let quotient := Z.quot dividend divisor in
  let remainder := Z.rem dividend divisor in
  if negb (remainder =? 0) && signs_differ remainder divisor then quotient - 1 else quotient.

(** The fold of ceil_div. *)
Definition ceil_fold (dividend divisor : Z) : Z :=
  let quotient := Z.quot dividend divisor in
  let remainder := Z.rem dividend divisor in
  if negb (remainder =? 0) && (0 <? Z.lxor remainder divisor) then quotient + 1 else quotient.

Definition literals (l r : Expr) : bool := is_op Op.INTEGER l && is_op Op.INTEGER r.

(** The rules that mod and python_mod share, and the node behind them. *)
Definition mod_rules (P : ExprPool) (op : Op.t) (f lhs rhs : Z) (l r : Expr) : pool_op :=
  if is_zero_int l || (lhs =? rhs) || is_one r then integer P 0
  else if is_int 2 r && is_even l then integer P 0
  else if is_int 2 r && is_odd l then integer P 1
  else intern_node P (node op [lhs; rhs] f).

Definition mod_ (P : ExprPool) (lhs rhs : Z) : pool_op :=
  let* l := node_at P lhs in
  let* r := node_at P rhs in
  if literals l r && (0 <? e_payload r) then integer P (Z.rem (e_payload l) (e_payload r))
  else mod_rules P Op.MOD (Z.lor ExprFlags.IS_INTEGER ExprFlags.IS_NONNEGATIVE) lhs rhs l r.

Definition python_mod_fold (dividend divisor : Z) : Z :=
  let remainder := Z.rem dividend divisor in
  if negb (remainder =? 0) && signs_differ remainder divisor then add_sat64 remainder divisor else remainder.

Definition python_mod (P : ExprPool) (lhs rhs : Z) : pool_op :=
  let* l := node_at P lhs in
  let* r := node_at P rhs in
  if literals l r && is_foldable_division_ (e_payload l) (e_payload r) then integer P (python_mod_fold (e_payload l) (e_payload r))
  else mod_rules P Op.PYTHON_MOD ExprFlags.IS_INTEGER lhs rhs l r.

(** ** Coefficients *)

Definition safe_abs_ (value : Z) : Z := if value =? INT64_MIN then INT64_MAX else if value <? 0 then - value else value.

Fixpoint gcd_loop (fuel : nat) (a b : Z) : result Z :=
  if b =? 0 then Ok a else match fuel with O => Fatal why_fuel | Datatypes.S fuel => gcd_loop fuel b (Z.rem a b) end.

Definition gcd_ (a b : Z) : result Z := gcd_loop 128 (safe_abs_ a) (safe_abs_ b).

(** The first integer of the operands, and its index. *)
Fixpoint first_integer (P : ExprPool) (args : list Z) (i : Z) : result (option (Z * Z)) :=
  match args with
  | [] => Ok None
  | c :: args => let* e := node_at P c in if is_op Op.INTEGER e then Ok (Some (i, e_payload e)) else first_integer P args (i + 1)
  end.

Definition integer_coefficient_ (P : ExprPool) (expr : Z) : result Z :=
  let* e := node_at P expr in
  if is_op Op.INTEGER e then Ok (e_payload e)
  else if is_op Op.MUL e then
    let* found := first_integer P (e_args e) 0 in
    Ok (match found with Some (_, v) => v | None => 1 end)
  else Ok 1.

Fixpoint gcd_terms (P : ExprPool) (args : list Z) (accumulated_gcd : Z) : result Z :=
  match args with
  | [] => Ok accumulated_gcd
  | c :: args =>
      let* v := integer_coefficient_ P c in
      let* g := if accumulated_gcd =? 0 then Ok (safe_abs_ v) else gcd_ accumulated_gcd (safe_abs_ v) in
      gcd_terms P args g
  end.

Definition integer_factor_ (P : ExprPool) (expr : Z) : result Z :=
  let* e := node_at P expr in
  if is_op Op.ADD e then let* g := gcd_terms P (e_args e) 0 in Ok (if g =? 0 then 1 else g)
  else let* v := integer_coefficient_ P expr in Ok (safe_abs_ v).

(** The fuel of divide_coefficients_ bounds the depth of nested sums. *)
Fixpoint divide_coefficients_ (fuel : nat) (P : ExprPool) (expr divisor : Z) : pool_op :=
  if divisor <=? 1 then Ok (expr, P)
  else
    let* e := node_at P expr in
    if is_op Op.INTEGER e then integer P (Z.quot (e_payload e) divisor)
    else if is_op Op.MUL e then
      let* found := first_integer P (e_args e) 0 in
      match found with
      | None => Ok (expr, P)
      | Some (i, v) =>
          let new_coeff := Z.quot v divisor in
          if (new_coeff =? 1) && (nargs e =? 2) then Ok (aget 0 (e_args e) (1 - i), P)
          else
            let* _ := require (nargs e <=? kScratchArgs) "num_rebuilt < kScratchArgs" in
            let* '(c, P) := integer P new_coeff in
            mul_n P (aset (e_args e) i c)
      end
    else if is_op Op.ADD e then
      match fuel with
      | O => Fatal why_fuel
      | Datatypes.S fuel =>
          let* _ := require (nargs e <=? kScratchArgs) "expr->nargs <= kScratchArgs" in
          let* '(terms, P) :=
            (fix go (P : ExprPool) (args terms : list Z) : result (list Z * ExprPool) :=
               match args with
               | [] => Ok (terms, P)
               | c :: args => let* '(t, P) := divide_coefficients_ fuel P c divisor in go P args (terms ++ [t])
               end) P (e_args e) [] in
          add_n P terms
      end
    else Ok (expr, P).

(** ** floor_div *)

(** The terms of a sum that the divisor divides, each divided, and the others. *)
Fixpoint split_divisible (fuel : nat) (P : ExprPool) (args : list Z) (divisor : Z) (quotients remainders : list Z)
    : result (list Z * list Z * ExprPool) :=
  match args with
  | [] => Ok (quotients, remainders, P)
  | c :: args =>
      let* coeff := integer_coefficient_ P c in
      let* _ := require ((len quotients <? kScratchArgs) && (len remainders <? kScratchArgs)) "num_quotients < kScratchArgs && num_remainders < kScratchArgs" in
      if negb (coeff =? 0) && is_foldable_division_ coeff divisor && (Z.rem coeff divisor =? 0) then
        let* '(q, P) := divide_coefficients_ fuel P c divisor in
        split_divisible fuel P args divisor (quotients ++ [q]) remainders
      else split_divisible fuel P args divisor quotients (remainders ++ [c])
  end.

(** The sum of a part of the terms. *)
Definition part_sum (P : ExprPool) (terms : list Z) : pool_op :=
  match terms with [t] => Ok (t, P) | _ => add_n P terms end.

Definition floor_div_flags (l r : Expr) : Z :=
  if is_nonnegative l && is_positive r then Z.lor ExprFlags.IS_INTEGER ExprFlags.IS_NONNEGATIVE else ExprFlags.IS_INTEGER.

(** The cancellation of common factors, and the node; [again] is the recursive call. *)
Definition floor_div_cancel (again : ExprPool -> Z -> Z -> pool_op) (fuel : nat) (P : ExprPool) (lhs rhs : Z) (l r : Expr) : pool_op :=
  let* fl := integer_factor_ P lhs in
  let* fr := integer_factor_ P rhs in
  let* common_divisor := gcd_ fl fr in
  if 1 <? common_divisor then
    let* '(lhs, P) := divide_coefficients_ fuel P lhs common_divisor in
    let* '(rhs, P) := divide_coefficients_ fuel P rhs common_divisor in
    again P lhs rhs
  else intern_node P (node Op.FLOOR_DIV [lhs; rhs] (floor_div_flags l r)).

Fixpoint floor_div (fuel : nat) (P : ExprPool) (lhs rhs : Z) : pool_op :=
  match fuel with
  | O => Fatal why_fuel
  | Datatypes.S fuel =>
      let* l := node_at P lhs in
      let* r := node_at P rhs in
      if literals l r && is_foldable_division_ (e_payload l) (e_payload r) then integer P (floor_fold (e_payload l) (e_payload r))
      else if is_zero_int l then integer P 0
      else if is_one r then Ok (lhs, P)
      else if is_neg_one r then neg P lhs
      else if lhs =? rhs then integer P 1
      else if is_op Op.FLOOR_DIV l || is_op Op.CLEAN_DIV l then
        let* x := arg l 0 in
        let* d := arg l 1 in
        let* '(m, P) := mul P d rhs in
        floor_div fuel P x m
      else if is_op Op.ADD l && is_op Op.INTEGER r && negb (e_payload r =? 0) then
        let* '(quotients, remainders, P) := split_divisible fuel P (e_args l) (e_payload r) [] [] in
        match quotients, remainders with
        | [], _ => floor_div_cancel (floor_div fuel) fuel P lhs rhs l r
        | _, [] => part_sum P quotients
        | _, _ =>
            let* '(q, P) := part_sum P quotients in
            let* '(s, P) := part_sum P remainders in
            let* '(d, P) := floor_div fuel P s rhs in
            add P q d
        end
      else floor_div_cancel (floor_div fuel) fuel P lhs rhs l r
  end.

Definition clean_div : nat -> ExprPool -> Z -> Z -> pool_op := floor_div.

Definition ceil_div (fuel : nat) (P : ExprPool) (lhs rhs : Z) : pool_op :=
  let* l := node_at P lhs in
  let* r := node_at P rhs in
  if literals l r && is_foldable_division_ (e_payload l) (e_payload r) then integer P (ceil_fold (e_payload l) (e_payload r))
  else
    let* '(m, P) := integer P (-1) in
    let* '(s, P) := add P rhs m in
    let* '(t, P) := add P lhs s in
    floor_div fuel P t rhs.

(** ** modular_indexing *)

(** The fold of three literals; [None] when the second division does not fold. *)
Definition modular_fold (base divisor modulus : Z) : option Z :=
  let quotient := floor_fold base divisor in
  if is_foldable_division_ quotient modulus then
    let mod_result := Z.rem quotient modulus in
    Some (if mod_result <? 0 then add_sat64 mod_result modulus else mod_result)
  else None.

(** The terms of a sum that [product] does not divide. *)
Fixpoint kept_terms (P : ExprPool) (args : list Z) (product : Z) (kept : list Z) : result (list Z) :=
  match args with
  | [] => Ok kept
  | c :: args =>
      let* coeff := integer_coefficient_ P c in
      let* _ := require (len kept <? kScratchArgs) "num_kept < kScratchArgs" in
      if negb (coeff =? 0) && (Z.rem coeff product =? 0) then kept_terms P args product kept
      else kept_terms P args product (kept ++ [c])
  end.

Definition is_division (e : Expr) : bool := is_op Op.FLOOR_DIV e || is_op Op.CLEAN_DIV e.

(** The last two rules, and the node; [again] is the recursive call. *)
Definition modular_rest (again : ExprPool -> Z -> Z -> Z -> pool_op) (P : ExprPool) (base div modulus : Z) (b : Expr) : pool_op :=
  if is_division b then
    let* x := arg b 0 in
    let* d := arg b 1 in
    let* '(m, P) := mul P d div in
    again P x m modulus
  else intern_node P (node Op.MODULAR_INDEXING [base; div; modulus] (Z.lor ExprFlags.IS_INTEGER ExprFlags.IS_NONNEGATIVE)).

Definition modular_drop (again : ExprPool -> Z -> Z -> Z -> pool_op) (P : ExprPool) (base div modulus : Z) (b d m : Expr) : pool_op :=
  let product := mul_sat64 (e_payload m) (e_payload d) in
  if is_op Op.ADD b && literals m d && (0 <? product) then
    let* kept := kept_terms P (e_args b) product [] in
    if len kept =? nargs b then modular_rest again P base div modulus b
    else match kept with
         | [] => integer P 0
         | _ => let* '(reduced, P) := part_sum P kept in again P reduced div modulus
         end
  else modular_rest again P base div modulus b.

Definition modular_cancel (again : ExprPool -> Z -> Z -> Z -> pool_op) (fuel : nat) (P : ExprPool) (base div modulus : Z) (b d m : Expr) : pool_op :=
  if is_one d then modular_drop again P base div modulus b d m
  else
    let* fb := integer_factor_ P base in
    let* fd := integer_factor_ P div in
    let* common_divisor := gcd_ fb fd in
    if 1 <? common_divisor then
      let* '(base, P) := divide_coefficients_ fuel P base common_divisor in
      let* '(div, P) := divide_coefficients_ fuel P div common_divisor in
      again P base div modulus
    else modular_drop again P base div modulus b d m.

Fixpoint modular_indexing (fuel : nat) (P : ExprPool) (base div modulus : Z) : pool_op :=
  match fuel with
  | O => Fatal why_fuel
  | Datatypes.S fuel =>
      let* b := node_at P base in
      let* d := node_at P div in
      let* m := node_at P modulus in
      if is_zero_int b || is_one m then integer P 0
      else
        let folded := if literals b d && is_op Op.INTEGER m && is_foldable_division_ (e_payload b) (e_payload d)
                      then modular_fold (e_payload b) (e_payload d) (e_payload m) else None in
        match folded with
        | Some v => integer P v
        | None => modular_cancel (modular_indexing fuel) fuel P base div modulus b d m
        end
  end.

(** ** The generic factory *)

Definition in_band (op : Op.t) (n : Z) : bool := (band_min (op_arity_band op) <=? n) && (n <=? band_max (op_arity_band op)).

Definition make_raw_ (fuel : nat) (P : ExprPool) (op : Op.t) (args : list Z) : pool_op :=
  let* _ := require (in_band op (len args)) "args.size() in the band of the operation" in
  let a0 := aget 0 args 0 in
  let a1 := aget 0 args 1 in
  let a2 := aget 0 args 2 in
  let two := len args =? 2 in
  match op with
  | Op.ADD => if two then add P a0 a1 else add_n P args
  | Op.MUL => if two then mul P a0 a1 else mul_n P args
  | Op.AND => if two then and_ P a0 a1 else and_n P args
  | Op.OR => if two then or_ P a0 a1 else or_n P args
  | Op.POW => pow P a0 a1
  | Op.NEG => neg P a0
  | Op.EQ => eq P a0 a1
  | Op.NE => ne P a0 a1
  | Op.LT => lt P a0 a1
  | Op.LE => le P a0 a1
  | Op.GT => gt P a0 a1
  | Op.GE => ge P a0 a1
  | Op.NOT => not_ P a0
  | Op.FLOOR_DIV => floor_div fuel P a0 a1
  | Op.CLEAN_DIV => clean_div fuel P a0 a1
  | Op.CEIL_DIV => ceil_div fuel P a0 a1
  | Op.MOD => mod_ P a0 a1
  | Op.PYTHON_MOD => python_mod P a0 a1
  | Op.MODULAR_INDEXING => modular_indexing fuel P a0 a1 a2
  | Op.WHERE => where_ P a0 a1 a2
  | Op.MIN => if two then min_expr P a0 a1 else min_n P args
  | Op.MAX => if two then max_expr P a0 a1 else max_n P args
  | Op.INTEGER | Op.FLOAT | Op.SYMBOL | Op.BOOL_TRUE | Op.BOOL_FALSE | Op.NUM_OPS => Fatal "unreachable"
  | _ => intern_composite P op args
  end.
End Ops.
