(* ===== verification/ExprEval.v ===== *)
(** * ExprEval.v: the value of an expression

    A node has a value in an environment of its symbols: an integer or a
    boolean, as the operation says (Ops.h).  Nodes with a float or an opaque
    operation have none.  The weight of a node bounds the constants that a
    constructor can fold out of it.  The last part is the rule that the proofs
    of the constructors use for a call of the pool. *)

From stdpp Require Import base list strings gmap.
From Stdlib Require Import ZArith Lia.
From S2P Require Import Prelude.
From S2P Require Import Types.
From S2P Require Import Hash.
From S2P Require Import SwissTable.
From S2P Require Import Expr.
From S2P Require Import ExprPool.
From S2P Require Import InternTable.
From S2P Require Import InternTheorems.
From S2P Require Import ExprOps.
#[local] Open Scope Z_scope.
#[local] Open Scope result_scope.

(** ** Values *)

Inductive value := VInt (z : Z) | VBool (b : bool).

Definition as_int (v : value) : option Z := match v with VInt z => Some z | VBool _ => None end.
Definition as_bool (v : value) : option bool := match v with VBool b => Some b | VInt _ => None end.

Definition sum_of (l : list Z) : Z := foldr Z.add 0 l.
Definition product_of (l : list Z) : Z := foldr Z.mul 1 l.

Definition compare_with (test : Z -> Z -> bool) (vs : list value) : option value :=
  match vs with [VInt x; VInt y] => Some (VBool (test x y)) | _ => None end.

(** The least and the greatest of a list that is not empty. *)
Definition extreme (pick : Z -> Z -> Z) (l : list Z) : option value :=
  match l with [] => None | x :: l => Some (VInt (foldr pick x l)) end.

(** What an operation computes; [None] where it has no value. *)
Definition eval_op (op : Op.t) (vs : list value) : option value :=
  match op with
  | Op.ADD => l ← mapM as_int vs; Some (VInt (sum_of l))
  | Op.MUL => l ← mapM as_int vs; Some (VInt (product_of l))
  | Op.NEG => match vs with [VInt x] => Some (VInt (- x)) | _ => None end
  | Op.POW => match vs with [VInt x; VInt n] => if 0 <=? n then Some (VInt (x ^ n)) else None | _ => None end
  | Op.EQ => compare_with Z.eqb vs
  | Op.NE => compare_with (fun x y => negb (x =? y)) vs
  | Op.LT => compare_with Z.ltb vs
  | Op.LE => compare_with Z.leb vs
  | Op.GT => compare_with Z.gtb vs
  | Op.GE => compare_with Z.geb vs
  | Op.AND => l ← mapM as_bool vs; Some (VBool (forallb id l))
  | Op.OR => l ← mapM as_bool vs; Some (VBool (existsb id l))
  | Op.NOT => match vs with [VBool b] => Some (VBool (negb b)) | _ => None end
  | Op.FLOOR_DIV | Op.CLEAN_DIV => match vs with [VInt x; VInt y] => if y =? 0 then None else Some (VInt (x / y)) | _ => None end
  | Op.CEIL_DIV => match vs with [VInt x; VInt y] => if y =? 0 then None else Some (VInt (- (- x / y))) | _ => None end
  | Op.MOD => match vs with [VInt x; VInt y] => if 0 <? y then Some (VInt (x mod y)) else None | _ => None end
  | Op.PYTHON_MOD => match vs with [VInt x; VInt y] => if y =? 0 then None else Some (VInt (x mod y)) | _ => None end
  | Op.MODULAR_INDEXING =>
      match vs with [VInt x; VInt d; VInt m] => if (d =? 0) || (m <=? 0) then None else Some (VInt ((x / d) mod m)) | _ => None end
  | Op.WHERE => match vs with [VBool c; v; w] => Some (if c then v else w) | _ => None end
  | Op.MIN => l ← mapM as_int vs; extreme Z.min l
  | Op.MAX => l ← mapM as_int vs; extreme Z.max l
  | _ => None
  end.

(** The value of an atom. *)
Definition eval_atom (env : Z -> Z) (e : Expr) : option value :=
  match e_op e with
  | Op.INTEGER => Some (VInt (e_payload e))
  | Op.SYMBOL => Some (VInt (env (e_symbol e)))
  | Op.BOOL_TRUE => Some (VBool true)
  | Op.BOOL_FALSE => Some (VBool false)
  | _ => None
  end.

(** [n] bounds the depth. *)
Fixpoint eval (n : nat) (nodes : gmap Z Expr) (env : Z -> Z) (a : Z) : option value :=
  match n with
  | O => None
  | S n =>
      e ← nodes !! a;
      match eval_atom env e with
      | Some v => Some v
      | None => vs ← mapM (eval n nodes env) (e_args e); eval_op (e_op e) vs
      end
  end.

Definition evals (nodes : gmap Z Expr) (env : Z -> Z) (a : Z) (v : value) : Prop := exists n, eval n nodes env a = Some v.

(** ** Weights *)

Fixpoint weight (n : nat) (nodes : gmap Z Expr) (a : Z) : option Z :=
  match n with
  | O => None
  | S n =>
      e ← nodes !! a;
      match e_op e with
      | Op.INTEGER => Some (Z.max 1 (Z.abs (e_payload e)))
      | Op.ADD => ws ← mapM (weight n nodes) (e_args e); Some (Z.max 1 (sum_of ws))
      | Op.MUL => ws ← mapM (weight n nodes) (e_args e); Some (Z.max 1 (product_of ws))
      | _ => Some 1
      end
  end.

Definition weighs (nodes : gmap Z Expr) (a w : Z) : Prop := exists n, weight n nodes a = Some w.

(** ** Evaluation *)

Lemma mapM_mono {A B} (f g : A -> option B) l k : (forall x y, f x = Some y -> g x = Some y) -> mapM f l = Some k -> mapM g l = Some k.
Proof. intros Hfg. rewrite !mapM_Some. intros H. eapply Forall2_impl; [exact H|]. auto. Qed.

Lemma eval_mono n m nodes nodes' env a v : (n <= m)%nat -> nodes ⊆ nodes' -> eval n nodes env a = Some v -> eval m nodes' env a = Some v.
Proof.
  intros Hle Hsub. revert m a v Hle. induction n as [|n IH]; intros m a v Hle; [done|]. destruct m as [|m]; [lia|]. cbn [eval].
  destruct (nodes !! a) as [e|] eqn:He; [|done]. rewrite (lookup_weaken _ _ _ _ He Hsub). cbn. destruct (eval_atom env e); [done|].
  destruct (mapM (eval n nodes env) (e_args e)) as [vs|] eqn:Em; [|done]. cbn. rewrite (mapM_mono _ (eval m nodes' env) _ _ (fun x y => IH m x y ltac:(lia)) Em). done.
Qed.

Lemma evals_mono nodes nodes' env a v : nodes ⊆ nodes' -> evals nodes env a v -> evals nodes' env a v.
Proof. intros Hsub [n H]. exists n. by eapply eval_mono. Qed.

Lemma evals_det nodes env a v v' : evals nodes env a v -> evals nodes env a v' -> v = v'.
Proof.
  intros [n H] [n' H']. apply (eval_mono n (n + n') nodes nodes) in H; [|lia|done]. apply (eval_mono n' (n + n') nodes nodes) in H'; [|lia|done]. congruence.
Qed.

Lemma evals_all nodes env args vs : Forall2 (evals nodes env) args vs -> exists n, mapM (eval n nodes env) args = Some vs.
Proof.
  induction 1 as [|a v args vs [n Hn] _ [m Hm]]; [by exists 0%nat|]. exists (n + m)%nat. apply mapM_Some in Hm. apply mapM_Some. constructor.
  - eapply eval_mono; [|done|exact Hn]. lia.
  - eapply Forall2_impl; [exact Hm|]. intros x y H. eapply eval_mono; [|done|exact H]. lia.
Qed.

Lemma evals_atom nodes env a e v : nodes !! a = Some e -> eval_atom env e = Some v -> evals nodes env a v.
Proof. intros He Hv. exists 1%nat. cbn. rewrite He. cbn. by rewrite Hv. Qed.

Lemma evals_inv nodes env a e v : nodes !! a = Some e -> evals nodes env a v ->
  eval_atom env e = Some v \/ eval_atom env e = None /\ exists vs, Forall2 (evals nodes env) (e_args e) vs /\ eval_op (e_op e) vs = Some v.
Proof.
  intros He [[|n] H]; [done|]. cbn in H. rewrite He in H. cbn in H. destruct (eval_atom env e) as [v'|] eqn:Ea; [by left; injection H as ->|]. right. split; [done|].
  destruct (mapM _ _) as [vs|] eqn:Em; [|done]. exists vs. split; [|done]. apply mapM_Some in Em. eapply Forall2_impl; [exact Em|]. intros x y Hx. by exists n.
Qed.

Lemma evals_node nodes env a e vs v : nodes !! a = Some e -> eval_atom env e = None -> Forall2 (evals nodes env) (e_args e) vs -> eval_op (e_op e) vs = Some v -> evals nodes env a v.
Proof.
  intros He Ha Hvs Hv. destruct (evals_all _ _ _ _ Hvs) as [n Hn]. exists (S n). cbn. rewrite He. cbn. by rewrite Ha, Hn.
Qed.

Lemma evals_some nodes env a v : evals nodes env a v -> exists e, nodes !! a = Some e.
Proof. intros [[|n] H]; [done|]. cbn in H. destruct (nodes !! a) as [e|]; [eauto|done]. Qed.

Lemma weight_mono n m nodes nodes' a w : (n <= m)%nat -> nodes ⊆ nodes' -> weight n nodes a = Some w -> weight m nodes' a = Some w.
Proof.
  intros Hle Hsub. revert m a w Hle. induction n as [|n IH]; intros m a w Hle; [done|]. destruct m as [|m]; [lia|]. cbn [weight].
  destruct (nodes !! a) as [e|] eqn:He; [|done]. rewrite (lookup_weaken _ _ _ _ He Hsub). cbn.
  destruct (mapM (weight n nodes) (e_args e)) as [ws|] eqn:Em.
  - by rewrite (mapM_mono _ (weight m nodes') _ _ (fun x y => IH m x y ltac:(lia)) Em).
  - by destruct (e_op e).
Qed.

Lemma weighs_mono nodes nodes' a w : nodes ⊆ nodes' -> weighs nodes a w -> weighs nodes' a w.
Proof. intros Hsub [n H]. exists n. by eapply weight_mono. Qed.

Lemma weighs_det nodes a w w' : weighs nodes a w -> weighs nodes a w' -> w = w'.
Proof.
  intros [n H] [n' H']. apply (weight_mono n (n + n') nodes nodes) in H; [|lia|done]. apply (weight_mono n' (n + n') nodes nodes) in H'; [|lia|done]. congruence.
Qed.

Lemma weighs_all nodes args ws : Forall2 (weighs nodes) args ws -> exists n, mapM (weight n nodes) args = Some ws.
Proof.
  induction 1 as [|a v args vs [n Hn] _ [m Hm]]; [by exists 0%nat|]. exists (n + m)%nat. apply mapM_Some in Hm. apply mapM_Some. constructor.
  - eapply weight_mono; [|done|exact Hn]. lia.
  - eapply Forall2_impl; [exact Hm|]. intros x y H. eapply weight_mono; [|done|exact H]. lia.
Qed.

(** How the weight of a node comes from those of its operands. *)
Definition weigh_op (op : Op.t) (ws : list Z) : option Z :=
  match op with Op.ADD => Some (Z.max 1 (sum_of ws)) | Op.MUL => Some (Z.max 1 (product_of ws)) | _ => None end.

Lemma weighs_node nodes a e ws w : nodes !! a = Some e -> Forall2 (weighs nodes) (e_args e) ws -> weigh_op (e_op e) ws = Some w -> weighs nodes a w.
Proof.
  intros He Hws Hw. destruct (weighs_all _ _ _ Hws) as [n Hn]. exists (S n). cbn. rewrite He. cbn. destruct (e_op e); try done; cbn in Hw; rewrite Hn; exact Hw.
Qed.

Lemma weighs_inv nodes a e w : nodes !! a = Some e -> weighs nodes a w ->
  match e_op e with
  | Op.INTEGER => w = Z.max 1 (Z.abs (e_payload e))
  | Op.ADD | Op.MUL => exists ws, Forall2 (weighs nodes) (e_args e) ws /\ weigh_op (e_op e) ws = Some w
  | _ => w = 1
  end.
Proof.
  intros He [[|n] H]; [done|]. cbn in H. rewrite He in H. cbn in H.
  assert (Hm : forall f, (ws ← mapM (weight n nodes) (e_args e); Some (f ws)) = Some w -> exists ws, Forall2 (weighs nodes) (e_args e) ws /\ Some (f ws) = Some w).
  { intros f Hf. destruct (mapM _ _) as [ws|] eqn:Em; [|done]. exists ws. split; [|done]. apply mapM_Some in Em. eapply Forall2_impl; [exact Em|]. intros x y Hx. by exists n. }
  destruct (e_op e); try (by injection H as <-); [apply (Hm (fun ws => Z.max 1 (sum_of ws)) H)|apply (Hm (fun ws => Z.max 1 (product_of ws)) H)].
Qed.

Lemma weighs_pos nodes a w : weighs nodes a w -> 1 <= w.
Proof.
  intros H. pose proof H as [[|n] Hn]; [done|]. cbn in Hn. destruct (nodes !! a) as [e|] eqn:He; [|done]. pose proof (weighs_inv nodes a e w He H) as Hi.
  destruct (e_op e); try (subst w; lia); destruct Hi as (ws & _ & Hw); cbn in Hw; injection Hw as <-; lia.
Qed.

(** ** The calls of the pool *)

Section Calls.
Context `{G : CtrlGroup} {HG : CtrlGroupOk G} `{E : ExprArena} {HE : ExprArenaOk E}.
#[local] Set Default Proof Using "HG HE".

Definition int_node (nodes : gmap Z Expr) (a : Z) : bool := match nodes !! a with Some e => is_op Op.INTEGER e | None => false end.

(** At most one operand of a MUL is an integer. *)
Definition one_integer (nodes : gmap Z Expr) (args : list Z) : Prop := (length (filter (fun c => int_node nodes c = true) args) <= 1)%nat.

Record pool_inv (P : ExprPool) : Prop := {
  pi_ok : pool_ok P;
  pi_caches : caches_ok P;
  pi_mul : forall a e, p_nodes P !! a = Some e -> e_op e = Op.MUL -> one_integer (p_nodes P) (e_args e);
}.

(** A call can fail where interning does, and nowhere else. *)
Definition intern_failure (why : string) : Prop := why = why_capacity \/ exists st s, place_node st s = Fatal why.

Definition post {A} (P : ExprPool) (r : result (A * ExprPool)) (Q : ExprPool -> A -> Prop) : Prop :=
  match r with
  | Ok (a, P') => pool_inv P' /\ p_nodes P ⊆ p_nodes P' /\ same_caches P P' /\ Q P' a
  | Fatal why => intern_failure why
  end.

Lemma same_caches_trans P P' P'' : same_caches P P' -> same_caches P' P'' -> same_caches P P''.
Proof using Type. unfold same_caches. intros (-> & -> & -> & -> & ->) (-> & -> & -> & -> & ->). done. Qed.

Lemma post_ret {A} P (a : A) (Q : ExprPool -> A -> Prop) : pool_inv P -> Q P a -> post P (Ok (a, P)) Q.
Proof using Type. intros HP HQ. unfold post. split_and!; done. Qed.

Lemma post_bind {A B} P (m : result (A * ExprPool)) (k : A -> ExprPool -> result (B * ExprPool)) (Q : ExprPool -> A -> Prop) (R : ExprPool -> B -> Prop) :
  post P m Q -> (forall a P', pool_inv P' -> p_nodes P ⊆ p_nodes P' -> same_caches P P' -> Q P' a -> post P' (k a P') R) ->
  post P (let* '(a, P') := m in k a P') R.
Proof using Type.
  destruct m as [[a P']|why]; cbn [rbind]; [|done]. intros (HP & Hsub & Hc & HQ) Hk. specialize (Hk a P' HP Hsub Hc HQ). unfold post in *.
  destruct (k a P') as [[b P'']|why]; [|done]. destruct Hk as (HP2 & Hsub2 & Hc2 & HR). split_and!; [done|by etrans|by eapply same_caches_trans|done].
Qed.

Lemma post_mono {A} P (r : result (A * ExprPool)) (Q R : ExprPool -> A -> Prop) :
  post P r Q -> (forall P' a, pool_inv P' -> p_nodes P ⊆ p_nodes P' -> Q P' a -> R P' a) -> post P r R.
Proof using Type. destruct r as [[a P']|why]; cbn; [|done]. intros (HP & Hsub & Hc & HQ) H. split_and!; auto. Qed.

Lemma int_node_mono nodes nodes' a : nodes ⊆ nodes' -> is_Some (nodes !! a) -> int_node nodes' a = int_node nodes a.
Proof using Type. intros Hsub [e He]. unfold int_node. by rewrite He, (lookup_weaken _ _ _ _ He Hsub). Qed.

Lemma one_integer_mono nodes nodes' args : nodes ⊆ nodes' -> Forall (fun a => is_Some (nodes !! a)) args -> one_integer nodes args -> one_integer nodes' args.
Proof using Type.
  intros Hsub Hargs. unfold one_integer. replace (filter (fun c => int_node nodes' c = true) args) with (filter (fun c => int_node nodes c = true) args); [done|].
  apply filter_ext_in. intros c Hc. rewrite Forall_forall in Hargs. rewrite (int_node_mono nodes nodes' c Hsub) by auto. done.
Qed.

(** Interning, as a call. *)
Lemma intern_call P s : pool_inv P -> shape_ok (p_nodes P) s -> (sh_op s = Op.MUL -> one_integer (p_nodes P) (sh_args s)) ->
  post P (intern_node P s) (fun P' a => interned (p_nodes P') s a).
Proof.
  intros [HP HC HM] Hs Hmul. pose proof (intern_node_ok P s HP Hs) as H. destruct (intern_node P s) as [[a P']|why]; cbn.
  - destruct H as (HP' & Hspec & Hsame). pose proof (spec_sub _ _ _ _ Hspec) as Hsub. split_and!; [|done|done|by eapply spec_interned].
    split; [done|by eapply caches_mono|]. intros b e Hb Ho. destruct Hspec as [[_ Heq]|(_ & Hn & Heq)].
    + rewrite Heq in *. eauto.
    + rewrite Heq in Hb. apply lookup_insert_Some in Hb as [[<- <-]|[Hne Hb]].
      * apply (one_integer_mono (p_nodes P)); [done|apply Hs|by apply Hmul].
      * apply (one_integer_mono (p_nodes P)); [done| |eauto]. apply (so_children _ (shape_of e)). by apply (no_shape _ (po_nodes _ HP) b).
  - destruct H as [[_ ->]|[_ H]]; [by left|right; eauto].
Qed.

Lemma integer_call P v : pool_inv P -> INT64_MIN <= v <= INT64_MAX -> post P (integer P v) (fun P' a => interned (p_nodes P') (int_shape v) a).
Proof.
  intros HP Hv. unfold INT64_MIN, INT64_MAX in Hv. unfold integer. destruct (_ && _) eqn:Ec.
  - reflect_bools. apply post_ret; [done|]. apply HP. lia.
  - apply intern_call; [done|apply int_shape_ok; lia|done].
Qed.

(** ** Composite nodes *)

Definition is_composite (op : Op.t) : bool :=
  match op with Op.INTEGER | Op.FLOAT | Op.SYMBOL | Op.BOOL_TRUE | Op.BOOL_FALSE | Op.NUM_OPS => false | _ => true end.

Lemma composite_not_atom env e : is_composite (e_op e) = true -> eval_atom env e = None.
Proof using Type. unfold eval_atom. by destruct (e_op e). Qed.

Lemma land_range f g : 0 <= f -> 0 <= g < 2 ^ 16 -> 0 <= Z.land f g < 2 ^ 16.
Proof using Type.
  intros Hf Hg. split; [by apply Z.land_nonneg; left|]. destruct (Z.eq_dec (Z.land f g) 0) as [->|]; [lia|].
  assert (0 <= Z.land f g) by (apply Z.land_nonneg; by left). apply Z.log2_lt_pow2; [lia|]. pose proof (Z.log2_land f g Hf ltac:(lia)).
  assert (Z.log2 g < 16); [|lia]. destruct (Z.eq_dec g 0) as [->|]; [cbn; lia|]. apply Z.log2_lt_pow2; lia.
Qed.

Lemma aget_range fs i : Forall (fun f => 0 <= f < 2 ^ 16) fs -> 0 <= aget 0 fs i < 2 ^ 16.
Proof using Type. intros Hf. unfold aget. destruct (fs !! _) as [f|] eqn:Ef; [|cbn; lia]. by apply (Forall_lookup_1 _ _ _ _ Hf Ef). Qed.

Lemma land_all_nonneg fs x : 0 <= x -> Forall (fun f => 0 <= f < 2 ^ 16) fs -> 0 <= foldl Z.land x fs.
Proof using Type. intros Hx Hf. revert x Hx. induction Hf as [|f fs Hf0 _ IH]; intros x Hx; [done|]. cbn. apply IH, Z.land_nonneg. by left. Qed.

Lemma lor_bit_range f : 0 <= f < 2 ^ 16 -> 0 <= Z.lor f ExprFlags.IS_NONNEGATIVE < 2 ^ 16.
Proof using Type.
  intros Hf. split; [apply Z.lor_nonneg; split; [lia|by compute]|]. destruct (Z.eq_dec (Z.lor f ExprFlags.IS_NONNEGATIVE) 0) as [->|]; [lia|].
  assert (0 <= Z.lor f ExprFlags.IS_NONNEGATIVE) by (apply Z.lor_nonneg; split; [lia|by compute]). apply Z.log2_lt_pow2; [lia|].
  rewrite Z.log2_lor by (done || lia). apply Z.max_lub_lt; [|by compute]. destruct (Z.eq_dec f 0) as [->|]; [by compute|]. apply Z.log2_lt_pow2; lia.
Qed.

Lemma composite_flags_ok op fs : is_composite op = true -> Forall (fun f => 0 <= f < 2 ^ 16) fs -> exists f, composite_flags op fs = Ok f /\ 0 <= f < 2 ^ 16.
Proof using Type.
  intros Hc Hf. pose proof (fun i => aget_range fs i Hf) as Hg. pose proof (land_all_nonneg fs 0xFFFF ltac:(lia) Hf) as Hl.
  assert (Hk : 0 <= numeric_kind < 2 ^ 16) by (by compute).
  assert (Hnk : forall f, 0 <= f -> 0 <= Z.land f numeric_kind < 2 ^ 16) by (intros; by apply land_range).
  assert (Hgn : forall i, 0 <= aget 0 fs i) by (intros i; apply Hg). assert (Hg2 : forall i j, 0 <= Z.land (aget 0 fs i) (aget 0 fs j)) by (intros; apply Z.land_nonneg; auto).
  assert (H0 : 0 <= 0 < 2 ^ 16) by lia.
  destruct op; try done; cbn [composite_flags]; try case_match; eexists; (split; [reflexivity|]); auto; try (by compute); try (apply land_range; [auto|by compute]).
  apply lor_bit_range, Hnk, Hgn.
Qed.

Lemma flags_of_ok P args : nodes_ok (p_nodes P) -> Forall (fun a => is_Some (p_nodes P !! a)) args -> exists fs, flags_of P args = Ok fs /\ Forall (fun f => 0 <= f < 2 ^ 16) fs.
Proof using Type.
  intros HN. induction 1 as [|a args [e He] _ (fs & IH & Hf)]; [by exists []|]. cbn. unfold node_at. rewrite He. cbn. rewrite IH. cbn. eexists. split; [done|].
  constructor; [|done]. apply (so_flags (p_nodes P) (shape_of e)). by apply (no_shape _ HN a).
Qed.

Lemma composite_call P op args : pool_inv P -> is_composite op = true -> Forall (fun a => is_Some (p_nodes P !! a)) args -> (length args <= 255)%nat ->
  (op = Op.MUL -> one_integer (p_nodes P) args) -> post P (intern_composite P op args) (fun P' a => exists f, interned (p_nodes P') (node op args f) a).
Proof.
  intros HP Hc Hargs Hlen Hmul. unfold intern_composite. destruct (flags_of_ok P args (po_nodes _ (pi_ok _ HP)) Hargs) as (fs & -> & Hfs). cbn [rbind].
  destruct (composite_flags_ok op fs Hc Hfs) as (f & -> & Hf). cbn [rbind]. eapply post_mono; [apply intern_call; [done|by apply node_ok|done]|]. cbn. eauto.
Qed.

(** The value and the weight of an interned node. *)
Lemma node_evals nodes env op args f a vs v : interned nodes (node op args f) a -> is_composite op = true -> Forall2 (evals nodes env) args vs ->
  eval_op op vs = Some v -> evals nodes env a v.
Proof using Type.
  intros (e & He & Es) Hc Hvs Hv. assert (Eo : e_op e = op) by (by apply (f_equal sh_op) in Es). assert (Ea : e_args e = args) by (by apply (f_equal sh_args) in Es).
  eapply evals_node; [done|apply composite_not_atom; by rewrite Eo|by rewrite Ea|by rewrite Eo].
Qed.

Lemma node_weighs nodes op args f a ws w : interned nodes (node op args f) a -> Forall2 (weighs nodes) args ws -> weigh_op op ws = Some w -> weighs nodes a w.
Proof using Type.
  intros (e & He & Es) Hws Hw. assert (Eo : e_op e = op) by (by apply (f_equal sh_op) in Es). assert (Ea : e_args e = args) by (by apply (f_equal sh_args) in Es).
  eapply weighs_node; [done|by rewrite Ea|by rewrite Eo].
Qed.

Lemma interned_op nodes s a : interned nodes s a -> exists e, nodes !! a = Some e /\ e_op e = sh_op s /\ e_args e = sh_args s /\ e_payload e = sh_payload s.
Proof using Type. intros (e & He & <-). by exists e. Qed.

Lemma int_evals nodes env v a : interned nodes (int_shape v) a -> evals nodes env a (VInt v).
Proof using Type. intros (e & He & Eo & _ & Ep)%interned_op. eapply evals_atom; [done|]. unfold eval_atom. by rewrite Eo, Ep. Qed.

Lemma int_weighs nodes v a : interned nodes (int_shape v) a -> weighs nodes a (Z.max 1 (Z.abs v)).
Proof using Type. intros (e & He & Eo & _ & Ep)%interned_op. exists 1%nat. cbn. rewrite He. cbn. by rewrite Eo, Ep. Qed.

Lemma op_int_node nodes a e : nodes !! a = Some e -> int_node nodes a = is_op Op.INTEGER e.
Proof using Type. intros He. unfold int_node. by rewrite He. Qed.

Lemma evals_integer nodes env a e v : nodes !! a = Some e -> is_op Op.INTEGER e = true -> evals nodes env a v -> v = VInt (e_payload e).
Proof using Type.
  intros He Ho%bool_decide_eq_true Hv. apply (evals_det nodes env a); [done|]. eapply evals_atom; [done|]. unfold eval_atom. by rewrite Ho.
Qed.
End Calls.
