(* ===== verification/ExprArith.v ===== *)
(** * ExprArith.v: add, mul and neg keep values

    add_n and mul_n share the loop that folds constants.  Its proof is once,
    over the interface [FoldOk], which sums and products meet.  The weight of
    the operands bounds every constant of the run, so no fold saturates. *)

From stdpp Require Import base list strings gmap sorting.
From Stdlib Require Import ZArith Lia.
From S2P Require Import Prelude.
From S2P Require Import Types.
From S2P Require Import Hash.
From S2P Require Import SwissTable.
From S2P Require Import Expr.
From S2P Require Import ExprPool.
From S2P Require Import InternTable.
From S2P Require Import InternTheorems.
From S2P Require Import ExprOps.
From S2P Require Import ExprEval.
#[local] Open Scope Z_scope.
#[local] Open Scope result_scope.

(** ** Folds *)

(** [cm] is the exact operation of the operation [op], and [fold] its
    saturating form in the code. *)
Class FoldOk (op : Op.t) (fold cm : Z -> Z -> Z) (unit_ : Z) := {
  fo_fold x y : fold x y = clamp64 (cm x y);
  fo_assoc x y z : cm x (cm y z) = cm (cm x y) z;
  fo_comm x y : cm x y = cm y x;
  fo_unit x : cm unit_ x = x;
  fo_abs x y : Z.abs (cm x y) <= cm (Z.abs x) (Z.abs y);
  fo_mono x x' y y' : 0 <= x <= x' -> 0 <= y <= y' -> 0 <= cm x y <= cm x' y';
  fo_ge x y : 0 <= x -> 1 <= y -> x <= cm x y;
  fo_eval vs l : mapM as_int vs = Some l -> eval_op op vs = Some (VInt (foldr cm unit_ l));
  fo_eval_inv vs v : eval_op op vs = Some v -> exists l, mapM as_int vs = Some l /\ v = VInt (foldr cm unit_ l);
  fo_weigh ws : weigh_op op ws = Some (Z.max 1 (foldr cm unit_ ws));
  fo_composite : is_composite op = true;
  fo_start : 0 <= unit_ <= 1;
}.

#[export] Instance sum_fold : FoldOk Op.ADD add_sat64 Z.add 0.
Proof.
  split; try (intros; lia); try done.
  - intros vs l E. cbn. by rewrite E.
  - intros vs v E. cbn in E. destruct (mapM as_int vs) as [l|]; [|done]. cbn in E. injection E as <-. by exists l.
Qed.

#[export] Instance product_fold : FoldOk Op.MUL mul_sat64 Z.mul 1.
Proof.
  split; try (intros; nia); try done.
  - intros vs l E. cbn. by rewrite E.
  - intros vs v E. cbn in E. destruct (mapM as_int vs) as [l|]; [|done]. cbn in E. injection E as <-. by exists l.
Qed.

Lemma clamp_exact x : Z.abs x <= INT64_MAX -> clamp64 x = x.
Proof. unfold clamp64, INT64_MAX, INT64_MIN. intros H. repeat case_match; reflect_bools; lia. Qed.

Lemma as_int_all vs l : mapM as_int vs = Some l <-> vs = VInt <$> l.
Proof.
  rewrite mapM_Some. split.
  - induction 1 as [|[z|b] y vs l E _ IH]; [done| |done]. injection E as ->. cbn. by f_equal.
  - intros ->. induction l; constructor; auto.
Qed.

(** An operand with its value and its weight. *)
Definition term_ok (nodes : gmap Z Expr) (env : Z -> Z) (a : Z) (uw : Z * Z) : Prop := evals nodes env a (VInt uw.1) /\ weighs nodes a uw.2.

Lemma term_ok_mono nodes nodes' env l uws : nodes ⊆ nodes' -> Forall2 (term_ok nodes env) l uws -> Forall2 (term_ok nodes' env) l uws.
Proof. intros Hsub H. eapply Forall2_impl; [exact H|]. intros a uw [H1 H2]. split; [by eapply evals_mono|by eapply weighs_mono]. Qed.

Lemma terms_exist nodes env l uws : Forall2 (term_ok nodes env) l uws -> Forall (fun a => is_Some (nodes !! a)) l.
Proof. induction 1 as [|a uw l uws [H _] _ IH]; constructor; [|done]. apply evals_some in H as [e He]. by exists e. Qed.

Section Collect.
Context {op : Op.t} {fold cm : Z -> Z -> Z} {unit_ : Z} {HF : FoldOk op fold cm unit_}.
#[local] Set Default Proof Using "HF".

Abbreviation total l := (foldr cm unit_ l).

Lemma cm_assoc x y z : cm x (cm y z) = cm (cm x y) z.
Proof. apply fo_assoc. Qed.
Lemma cm_comm x y : cm x y = cm y x.
Proof. apply fo_comm. Qed.
Lemma cm_unit x : cm unit_ x = x.
Proof. apply fo_unit. Qed.
Lemma cm_unit_r x : cm x unit_ = x.
Proof. rewrite cm_comm. apply cm_unit. Qed.
Lemma total_pair x y : total [x; y] = cm x y.
Proof. cbn. by rewrite cm_unit_r. Qed.
Lemma total_snoc l x : total (l ++ [x]) = cm x (total l).
Proof. induction l as [|y l IH]; [done|]. cbn. rewrite IH, !cm_assoc, (cm_comm y). done. Qed.
Lemma cm_abs x y : Z.abs (cm x y) <= cm (Z.abs x) (Z.abs y).
Proof. apply fo_abs. Qed.
Lemma cm_mono x x' y y' : 0 <= x <= x' -> 0 <= y <= y' -> 0 <= cm x y <= cm x' y'.
Proof. apply fo_mono. Qed.
Lemma cm_ge x y : 0 <= x -> 1 <= y -> x <= cm x y.
Proof. apply fo_ge. Qed.

Lemma total_app l k : total (l ++ k) = cm (total l) (total k).
Proof. induction l as [|x l IH]; cbn; [by rewrite cm_unit|]. by rewrite IH, cm_assoc. Qed.

Lemma total_perm l k : l ≡ₚ k -> total l = total k.
Proof.
  induction 1 as [|x l k _ IH|x y l|l k m _ IH1 _ IH2]; [done| | |congruence].
  - cbn. by rewrite IH.
  - cbn. by rewrite !cm_assoc, (cm_comm x y).
Qed.

Lemma total_nonneg ws : Forall (fun w => 1 <= w) ws -> 0 <= total ws.
Proof.
  induction 1 as [|w ws Hw _ IH]; [apply fo_start|]. cbn. destruct (cm_mono 0 w 0 (total ws)) as [_ H]; [lia|lia|].
  destruct (cm_mono 0 0 0 0) as [H0 _]; lia.
Qed.

Lemma total_ge x ws : 0 <= x -> Forall (fun w => 1 <= w) ws -> x <= cm x (total ws).
Proof.
  intros Hx H. revert x Hx. induction H as [|w ws Hw _ IH]; intros x Hx; cbn; [by rewrite cm_comm, cm_unit|].
  rewrite cm_assoc. pose proof (cm_ge x w Hx Hw). etrans; [|apply IH; lia]. done.
Qed.

Lemma nonneg_cm x y : 0 <= x -> 0 <= y -> 0 <= cm x y.
Proof. intros Hx Hy. apply (cm_mono x x y y); lia. Qed.

(** Four values regrouped. *)
Lemma swap4 x y z : cm (cm x y) z = cm (cm x z) y.
Proof. by rewrite <- cm_assoc, (cm_comm y z), cm_assoc. Qed.

(** The state of the loop: the operands so far and the constant so far have
    the value [val], and the weight [wt] bounds the constant. *)
Record folded (nodes : gmap Z Expr) (env : Z -> Z) (terms : list Z) (acc val wt : Z) : Prop := {
  fd_terms : exists uws, Forall2 (term_ok nodes env) terms uws /\ cm acc (total (fst <$> uws)) = val /\ cm (Z.abs acc) (total (snd <$> uws)) <= wt;
  fd_plain : Forall (fun a => int_node nodes a = false) terms;
}.

Lemma weights_pos nodes env terms uws : Forall2 (term_ok nodes env) terms uws -> Forall (fun w => 1 <= w) (snd <$> uws).
Proof using Type. induction 1 as [|a uw terms uws [_ H] _ IH]; constructor; [by apply weighs_pos in H|done]. Qed.

Lemma folded_bound nodes env terms acc val wt : folded nodes env terms acc val wt -> Z.abs acc <= wt /\ 0 <= wt.
Proof.
  intros [(uws & Ht & _ & Hb) _]. pose proof (weights_pos _ _ _ _ Ht) as Hp. pose proof (total_ge (Z.abs acc) _ ltac:(lia) Hp). lia.
Qed.

Lemma folded_int nodes env terms acc val wt p w : folded nodes env terms acc val wt -> w = Z.max 1 (Z.abs p) -> cm wt w <= INT64_MAX ->
  folded nodes env terms (fold acc p) (cm val p) (cm wt w).
Proof.
  intros H Hw Hb. pose proof (folded_bound _ _ _ _ _ _ H) as [Ha Hwt]. destruct H as [(uws & Ht & Hv & Hwb) Hp].
  assert (Hx : Z.abs (cm acc p) <= cm wt w). { etrans; [apply cm_abs|]. apply cm_mono; lia. }
  rewrite fo_fold, clamp_exact by lia. split; [|done]. exists uws. split_and!; [done|by rewrite <- Hv, swap4|].
  pose proof (weights_pos _ _ _ _ Ht) as Hpos. pose proof (total_nonneg _ Hpos) as Htn.
  etrans; [apply (cm_mono _ (cm (Z.abs acc) (Z.abs p)) _ (total (snd <$> uws))); [split; [lia|apply cm_abs]|lia]|]. rewrite swap4.
  apply cm_mono; [split; [apply nonneg_cm; lia|done]|lia].
Qed.

Lemma folded_term nodes env terms acc val wt a u w : folded nodes env terms acc val wt -> term_ok nodes env a (u, w) -> int_node nodes a = false ->
  folded nodes env (terms ++ [a]) acc (cm val u) (cm wt w).
Proof.
  intros [(uws & Ht & Hv & Hwb) Hp] Ha Hi. split; [|by apply Forall_app; split; [|apply Forall_singleton]].
  exists (uws ++ [(u, w)]). pose proof (weights_pos _ _ _ _ Ht) as Hpos. pose proof (total_nonneg _ Hpos). pose proof (weighs_pos _ _ _ (proj2 Ha)) as Hw. cbn in Hw.
  rewrite !fmap_app, !total_app. cbn. rewrite !(cm_comm _ unit_), !cm_unit, !cm_assoc. split_and!.
  - apply Forall2_app; [done|by repeat constructor; apply Ha].
  - by rewrite Hv.
  - apply cm_mono; [split; [apply nonneg_cm; lia|done]|lia].
Qed.
End Collect.

Lemma zip_terms nodes env args l ws : Forall2 (evals nodes env) args (VInt <$> l) -> Forall2 (weighs nodes) args ws ->
  Forall2 (term_ok nodes env) args (zip l ws) /\ (zip l ws).*1 = l /\ (zip l ws).*2 = ws.
Proof.
  intros H1 H2. pose proof (Forall2_length _ _ _ H1) as L1. pose proof (Forall2_length _ _ _ H2) as L2. rewrite length_fmap in L1.
  split; [|split; [apply fst_zip; lia|apply snd_zip; lia]]. clear L1 L2. revert l ws H1 H2.
  induction args as [|a args IH]; intros l ws H1 H2.
  - apply Forall2_nil_inv_l in H1. destruct l; [|done]. apply Forall2_nil_inv_l in H2 as ->. constructor.
  - apply Forall2_cons_inv_l in H1 as (v & k & Hv & Hk & Eb). apply Forall2_cons_inv_l in H2 as (w & ws' & Hw & Hws & ->). destruct l as [|u l]; [done|].
    injection Eb as <- <-. cbn. constructor; [by split|by apply IH].
Qed.

Lemma node_at_ok `{E : ExprArena} (P : ExprPool) a e : p_nodes P !! a = Some e -> node_at P a = Ok e.
Proof. intros He. unfold node_at. by rewrite He. Qed.

Section NAry.
Context `{G : CtrlGroup} {HG : CtrlGroupOk G} `{E : ExprArena} {HE : ExprArenaOk E} `{S : AddressSort} {HS : AddressSortOk S}.
Context {op : Op.t} {fold cm : Z -> Z -> Z} {unit_ : Z} {HF : FoldOk op fold cm unit_}.
#[local] Set Default Proof Using "HG HE HS HF".

Abbreviation total l := (foldr cm unit_ l).
Abbreviation folded := (folded (cm := cm) (unit_ := unit_)).

Lemma folding_ops : op = Op.ADD \/ op = Op.MUL.
Proof using HF. pose proof (fo_weigh []) as H. destruct op; auto; done. Qed.

(** The operands of a nested node. *)
Lemma nested_terms nodes env a e u w : nodes !! a = Some e -> e_op e = op -> term_ok nodes env a (u, w) ->
  exists cws, Forall2 (term_ok nodes env) (e_args e) cws /\ u = total cws.*1 /\ total cws.*2 <= w.
Proof using HF.
  intros He Ho [Hu Hw]. cbn in *. destruct (evals_inv _ _ _ _ _ He Hu) as [Ha|(_ & vs & Hvs & Hv)].
  { rewrite composite_not_atom in Ha by (rewrite Ho; apply fo_composite). done. }
  rewrite Ho in Hv. apply fo_eval_inv in Hv as (l & El & Eu). apply as_int_all in El as ->. injection Eu as ->.
  pose proof (weighs_inv _ _ _ _ He Hw) as Hi. assert (Hws : exists ws, Forall2 (weighs nodes) (e_args e) ws /\ weigh_op op ws = Some w).
  { rewrite Ho in Hi. destruct folding_ops as [Eo|Eo]; rewrite Eo in Hi |- *; exact Hi. }
  destruct Hws as (ws & Hws & Ew). rewrite fo_weigh in Ew. injection Ew as <-. destruct (zip_terms _ _ _ _ _ Hvs Hws) as (H1 & H2 & H3).
  exists (zip l ws). rewrite H2, H3. split_and!; [done|done|lia].
Qed.

Lemma total_cons_le wt (w : Z) ws : 0 <= wt -> Forall (fun w => 1 <= w) (w :: ws) -> cm wt w <= cm wt (total (w :: ws)) /\ cm wt (total (w :: ws)) = cm (cm wt w) (total ws).
Proof using HF.
  intros Hwt [Hw Hws]%Forall_cons. cbn. rewrite cm_assoc. split; [|done]. apply total_ge; [|done]. apply nonneg_cm; lia.
Qed.

Lemma take_children_ok P env args : forall cws terms acc val wt, Forall2 (term_ok (p_nodes P) env) args cws -> folded (p_nodes P) env terms acc val wt ->
  cm wt (total cws.*2) <= INT64_MAX -> (length terms + length args <= 255)%nat ->
  exists terms' acc', take_children P fold args terms acc = Ok (terms', acc') /\ (length terms' <= length terms + length args)%nat /\
    folded (p_nodes P) env terms' acc' (cm val (total cws.*1)) (cm wt (total cws.*2)).
Proof using HF.
  induction args as [|c args IH]; intros cws terms acc val wt Hc Hf Hb Hn; inversion Hc as [|? [u w] ? cws' Hu Hcs]; subst; cbn [take_children fmap list_fmap fst snd] in *.
  { exists terms, acc. cbn. rewrite !(cm_comm _ unit_), !cm_unit. split_and!; [done|lia|done]. }
  destruct (evals_some _ _ _ _ (proj1 Hu)) as [e He]. rewrite (node_at_ok _ _ _ He). cbn [rbind]. pose proof (folded_bound _ _ _ _ _ _ Hf) as [_ Hwt].
  pose proof (weights_pos _ _ _ _ Hc) as Hpos. destruct (total_cons_le wt w cws'.*2 Hwt Hpos) as [Hle Heq]. rewrite Heq in Hb, Hle. cbn [length] in Hn.
  cbn [foldr]. rewrite !(cm_assoc val), !(cm_assoc wt). pose proof (op_int_node _ _ _ He) as Hi. destruct (is_op Op.INTEGER e) eqn:Ho.
  - pose proof (evals_integer _ _ _ _ _ He Ho (proj1 Hu)) as Eu. cbn in Eu. injection Eu as ->.
    assert (Ew : w = Z.max 1 (Z.abs (e_payload e))). { pose proof (weighs_inv _ _ _ _ He (proj2 Hu)) as Hw. apply bool_decide_eq_true in Ho. by rewrite Ho in Hw. }
    destruct (IH cws' terms (fold acc (e_payload e)) _ _ Hcs (folded_int _ _ _ _ _ _ _ _ Hf Ew ltac:(lia)) Hb ltac:(lia)) as (t & ac & -> & Hl & Hfd).
    exists t, ac. split_and!; [done|cbn; lia|done].
  - rewrite (proj2 (Z.ltb_lt _ _)) by (unfold kScratchArgs, kMaxArgs; lia). cbn [require rbind].
    destruct (IH cws' (terms ++ [c]) acc _ _ Hcs (folded_term _ _ _ _ _ _ _ _ _ Hf Hu Hi) Hb ltac:(rewrite length_app; cbn; lia)) as (t & ac & -> & Hl & Hfd).
    rewrite length_app in Hl. cbn in Hl. exists t, ac. split_and!; [done|cbn; lia|done].
Qed.

Lemma collect_ok P env inputs : forall uws terms acc val wt, Forall2 (term_ok (p_nodes P) env) inputs uws -> folded (p_nodes P) env terms acc val wt ->
  cm wt (total uws.*2) <= INT64_MAX -> (length terms + length inputs <= 255)%nat ->
  exists terms' acc', collect P op fold inputs terms acc = Ok (terms', acc') /\ (length terms' <= 255)%nat /\
    folded (p_nodes P) env terms' acc' (cm val (total uws.*1)) (cm wt (total uws.*2)).
Proof using HF.
  induction inputs as [|a inputs IH]; intros uws terms acc val wt Hc Hf Hb Hn; inversion Hc as [|? [u w] ? uws' Hu Hcs]; subst; cbn [collect fmap list_fmap fst snd] in *.
  { exists terms, acc. cbn. rewrite !(cm_comm _ unit_), !cm_unit. split_and!; [done|cbn in Hn; lia|done]. }
  destruct (evals_some _ _ _ _ (proj1 Hu)) as [e He]. rewrite (node_at_ok _ _ _ He). cbn [rbind]. pose proof (folded_bound _ _ _ _ _ _ Hf) as [_ Hwt].
  pose proof (weights_pos _ _ _ _ Hc) as Hpos. destruct (total_cons_le wt w uws'.*2 Hwt Hpos) as [Hle Heq]. rewrite Heq in Hb, Hle. cbn [length] in Hn.
  cbn [foldr]. rewrite !(cm_assoc val), !(cm_assoc wt). pose proof (op_int_node _ _ _ He) as Hi. unfold kScratchArgs, kMaxArgs, nargs.
  destruct (is_op op e && _) eqn:Hop.
  { apply andb_prop in Hop as [Ho%bool_decide_eq_true Hroom%Z.leb_le]. destruct (nested_terms _ _ _ _ _ _ He Ho Hu) as (cws & Hcw & -> & Hcl).
    assert (Hwc : cm wt (total cws.*2) <= cm wt w) by (apply cm_mono; [lia|]; split; [apply total_nonneg, (weights_pos _ _ _ _ Hcw)|done]).
    destruct (take_children_ok P env (e_args e) cws terms acc val wt Hcw Hf ltac:(lia) ltac:(lia)) as (t & ac & -> & Hl & [(tws & Ht & Hv & Hw) Hp]). cbn [rbind].
    apply (IH uws' t ac _ _ Hcs); [|done|lia]. split; [|done]. exists tws. split_and!; [done|done|lia]. }
  destruct (is_op Op.INTEGER e) eqn:Ho.
  - pose proof (evals_integer _ _ _ _ _ He Ho (proj1 Hu)) as Eu. cbn in Eu. injection Eu as ->.
    assert (Ew : w = Z.max 1 (Z.abs (e_payload e))). { pose proof (weighs_inv _ _ _ _ He (proj2 Hu)) as Hw. apply bool_decide_eq_true in Ho. by rewrite Ho in Hw. }
    apply (IH uws' terms _ _ _ Hcs (folded_int _ _ _ _ _ _ _ _ Hf Ew ltac:(lia)) Hb ltac:(lia)).
  - rewrite (proj2 (Z.ltb_lt _ _)) by lia. cbn [require rbind].
    apply (IH uws' (terms ++ [a]) acc _ _ Hcs (folded_term _ _ _ _ _ _ _ _ _ Hf Hu Hi) Hb). rewrite length_app. cbn. lia.
Qed.

(** ** The end of the n-ary constructors *)

Abbreviation values nodes env l ts := (Forall2 (evals nodes env) l (VInt <$> ts)).

Lemma values_mono nodes nodes' env l vs : nodes ⊆ nodes' -> Forall2 (evals nodes env) l vs -> Forall2 (evals nodes' env) l vs.
Proof using Type. intros Hsub H. eapply Forall2_impl; [exact H|]. intros a v Hv. by eapply evals_mono. Qed.

Lemma values_exist nodes env l vs : Forall2 (evals nodes env) l vs -> Forall (fun a => is_Some (nodes !! a)) l.
Proof using Type. induction 1 as [|a v l vs H _ IH]; constructor; [|done]. apply evals_some in H as [e He]. by exists e. Qed.

Lemma values_perm nodes env l l' ts : values nodes env l ts -> l' ≡ₚ l -> exists ts', values nodes env l' ts' /\ ts' ≡ₚ ts.
Proof using Type.
  intros H Hp. symmetry in Hp. destruct (Permutation_Forall2 Hp H) as (vs & Hvs & Hf). symmetry in Hvs. apply Permutation_map_inv in Hvs as (ts' & -> & Hts). by exists ts'.
Qed.

Lemma one_integer_perm nodes l l' : l' ≡ₚ l -> one_integer nodes l -> one_integer nodes l'.
Proof using Type. unfold one_integer. intros ->. done. Qed.

Lemma plain_filter nodes l : Forall (fun a => int_node nodes a = false) l -> filter (fun c => int_node nodes c = true) l = [].
Proof using Type. induction 1 as [|a l Ha _ IH]; [done|]. rewrite filter_cons, decide_False by congruence. done. Qed.

Lemma plain_one_integer nodes l c : Forall (fun a => int_node nodes a = false) l -> one_integer nodes (l ++ [c]).
Proof using Type.
  intros H. unfold one_integer. rewrite filter_app, (plain_filter _ _ H). cbn [app]. pose proof (length_filter (fun c => int_node nodes c = true) [c]) as Hl. cbn in Hl |- *. lia.
Qed.

Lemma plain_mono nodes nodes' l : nodes ⊆ nodes' -> Forall (fun a => is_Some (nodes !! a)) l -> Forall (fun a => int_node nodes a = false) l -> Forall (fun a => int_node nodes' a = false) l.
Proof using Type.
  intros Hsub Hs Hp. rewrite Forall_forall in *. intros a Ha. rewrite (int_node_mono nodes nodes' a Hsub) by auto. auto.
Qed.

Lemma fold_composite P env args ts : pool_inv P -> values (p_nodes P) env args ts -> (length args <= 255)%nat -> (op = Op.MUL -> one_integer (p_nodes P) args) ->
  post P (intern_composite P op args) (fun P' a => evals (p_nodes P') env a (VInt (total ts)) /\ int_node (p_nodes P') a = false).
Proof.
  intros HP Hv Hl Hm. eapply post_mono; [apply composite_call; [done|apply fo_composite|by eapply values_exist|done|done]|].
  intros P' a HP' Hsub (f & Hf). split.
  - eapply node_evals; [exact Hf|apply fo_composite|by eapply values_mono|]. apply fo_eval, as_int_all. done.
  - destruct (interned_op _ _ _ Hf) as (e & He & Eo & _). rewrite (op_int_node _ _ _ He). apply bool_decide_eq_false. cbn in Eo. rewrite Eo. by destruct folding_ops as [->| ->].
Qed.

Lemma intern_sorted_ok P env terms ts : pool_inv P -> values (p_nodes P) env terms ts -> (1 <= length terms <= 255)%nat -> (op = Op.MUL -> one_integer (p_nodes P) terms) ->
  post P (intern_sorted P op terms) (fun P' a => evals (p_nodes P') env a (VInt (total ts))).
Proof.
  intros HP Hv Hl Hm. unfold intern_sorted. destruct (Z.eqb_spec (Z.of_nat (length terms)) 1) as [E1|E1].
  - destruct terms as [|t [|]]; cbn in E1; try lia. apply Forall2_cons_inv_l in Hv as (v & vs & Hv & Hvs & Ets). apply Forall2_nil_inv_l in Hvs as ->.
    destruct ts as [|u [|]]; [done| |done]. injection Ets as <-. apply post_ret; [done|]. cbn. rewrite (cm_unit_r (HF := HF)). done.
  - pose proof (sort_addresses_perm terms) as Hp. destruct (values_perm _ _ _ _ _ Hv Hp) as (ts' & Hv' & Hts). rewrite <- (total_perm _ _ Hts).
    cbv zeta. rewrite Hp, (proj2 (Z.leb_le _ _)) by (unfold kScratchArgs, kMaxArgs; lia). cbn [require rbind].
    eapply post_mono; [apply (fold_composite P env _ ts'); [done|done|rewrite Hp; lia|]|by intros P' a _ _ [H _]].
    intros Hop. eapply one_integer_perm; [exact Hp|auto].
Qed.

Lemma nest_ok P env terms ts c : pool_inv P -> values (p_nodes P) env terms ts -> (length terms <= 255)%nat -> Z.abs c <= INT64_MAX ->
  (op = Op.MUL -> Forall (fun a => int_node (p_nodes P) a = false) terms) ->
  post P (nest_folded_constant_ P op terms c) (fun P' a => evals (p_nodes P') env a (VInt (cm c (total ts)))).
Proof.
  intros HP Hv Hl Hc Hm. unfold nest_folded_constant_. eapply post_bind.
  { apply (fold_composite P env _ ts); [done|done|done|]. intros Hop. unfold one_integer. rewrite plain_filter by auto. cbn. lia. }
  intros inner P1 HP1 Hs1 Hc1 [Hi Hni]. cbn beta. eapply post_bind; [apply integer_call; [done|unfold INT64_MIN, INT64_MAX in *; lia]|].
  intros k P2 HP2 Hs2 Hc2 Hk. cbn beta. pose proof (evals_mono _ _ _ _ _ Hs2 Hi) as Hi2. pose proof (int_evals _ env _ _ Hk) as Hk2.
  assert (Hni2 : int_node (p_nodes P2) inner = false) by (destruct (evals_some _ _ _ _ Hi) as [e He]; by rewrite (int_node_mono (p_nodes P1)) by eauto).
  assert (Hone : one_integer (p_nodes P2) [inner; k]) by (apply (plain_one_integer _ [inner] k); by constructor).
  eapply post_mono; [apply (fold_composite P2 env _ (if k <? inner then [c; total ts] else [total ts; c])); [done| | |]|].
  - unfold ordered. destruct (k <? inner); repeat constructor; done.
  - unfold ordered. destruct (k <? inner); cbn; lia.
  - intros _. unfold ordered. destruct (k <? inner); [|done]. eapply one_integer_perm; [|exact Hone]. constructor.
  - intros P3 a _ _ [He _]. replace (cm c (total ts)) with (total (if k <? inner then [c; total ts] else [total ts; c])); [done|].
    destruct (k <? inner); rewrite (total_pair (HF := HF)); [done|apply (cm_comm (HF := HF))].
Qed.

Lemma reattach_ok P env terms ts c needed : pool_inv P -> values (p_nodes P) env terms ts -> (length terms <= 255)%nat -> Z.abs c <= INT64_MAX ->
  (op = Op.MUL -> Forall (fun a => int_node (p_nodes P) a = false) terms) -> (needed = false -> c = unit_ /\ (1 <= length terms)%nat) ->
  post P (reattach P op terms c needed) (fun P' a => evals (p_nodes P') env a (VInt (cm c (total ts)))).
Proof.
  intros HP Hv Hl Hc Hm Hn. unfold reattach. destruct needed.
  - destruct (Z.eqb_spec (Z.of_nat (length terms)) kScratchArgs) as [E1|E1].
    + pose proof (sort_addresses_perm terms) as Hp. destruct (values_perm _ _ _ _ _ Hv Hp) as (ts' & Hv' & Hts). rewrite <- (total_perm _ _ Hts).
      apply nest_ok; [done|done|by rewrite Hp|done|]. intros Hop. rewrite Hp. auto.
    + unfold kScratchArgs, kScratchCollect, kMaxArgs in *. rewrite (proj2 (Z.ltb_lt _ _)) by (unfold kScratchArgs, kMaxArgs; lia). cbn [require rbind].
      eapply post_bind; [apply integer_call; [done|unfold INT64_MIN, INT64_MAX in *; lia]|]. intros k P1 HP1 Hs1 Hc1 Hk. cbn beta.
      replace (cm c (total ts)) with (total (ts ++ [c])) by (apply (total_snoc (HF := HF))).
      apply intern_sorted_ok; [done| |rewrite length_app; cbn; lia|].
      * rewrite fmap_app. apply Forall2_app; [by eapply values_mono|]. repeat constructor. by apply int_evals.
      * intros Hop. apply plain_one_integer. eapply plain_mono; [exact Hs1|by eapply values_exist|auto].
  - destruct (Hn eq_refl) as [-> Hl1]. rewrite (cm_unit (HF := HF)). apply intern_sorted_ok; [done|done|lia|]. intros Hop. unfold one_integer. rewrite plain_filter by auto. cbn. lia.
Qed.
End NAry.

(** ** Products and sums *)

Section Arith.
Context `{G : CtrlGroup} {HG : CtrlGroupOk G} `{E : ExprArena} {HE : ExprArenaOk E} `{S : AddressSort} {HS : AddressSortOk S} `{N : NanBits}.
#[local] Set Default Proof Using "HG HE HS".

Abbreviation values nodes env l ts := (Forall2 (evals nodes env) l (VInt <$> ts)).
Abbreviation int_value nodes env a v := (evals nodes env a (VInt v)).

Lemma terms_values nodes env l uws : Forall2 (term_ok nodes env) l uws -> values nodes env l uws.*1.
Proof using Type. induction 1 as [|a uw l uws [H _] _ IH]; constructor; done. Qed.

Lemma folded_start op fold cm unit_ `{!FoldOk op fold cm unit_} nodes env : folded (cm := cm) (unit_ := unit_) nodes env [] unit_ unit_ unit_.
Proof using Type.
  pose proof fo_start as Hs. split; [|done]. exists []. cbn. rewrite cm_unit. split_and!; [done|done|]. rewrite Z.abs_eq by lia. rewrite cm_unit. lia.
Qed.

Lemma mul_n_ok P env inputs uws : pool_inv P -> Forall2 (term_ok (p_nodes P) env) inputs uws -> product_of uws.*2 <= INT64_MAX -> (length inputs <= 255)%nat ->
  post P (mul_n P inputs) (fun P' a => int_value (p_nodes P') env a (product_of uws.*1)).
Proof.
  intros HP Hin Hb Hl. unfold mul_n. rewrite (proj2 (Z.leb_le _ _)) by (unfold kScratchArgs, kMaxArgs; lia). cbn [require rbind].
  destruct (collect_ok (op := Op.MUL) (fold := mul_sat64) P env inputs uws [] 1 1 1 Hin (folded_start Op.MUL _ _ _ _ _)) as (t & acc & -> & Hlt & Hf); [by rewrite Z.mul_1_l|done|].
  cbn [rbind]. pose proof (folded_bound _ _ _ _ _ _ Hf) as [Hacc _]. rewrite Z.mul_1_l in Hacc. change (foldr Z.mul 1) with product_of in *. rewrite !Z.mul_1_l in Hf.
  destruct Hf as [(tws & Ht & Hv & _) Hp]. destruct (Z.eqb_spec acc 0) as [->|Hne].
  - eapply post_mono; [apply integer_call; [done|by compute]|]. intros P' a _ _ Ha. rewrite Z.mul_0_l in Hv. rewrite <- Hv. by apply int_evals.
  - rewrite <- Hv. apply (reattach_ok (op := Op.MUL) (fold := mul_sat64)); [done|by apply terms_values|done|lia|done|].
    intros Hn. apply orb_false_elim in Hn as [Hn1 Hn2]. apply negb_false_iff, Z.eqb_eq in Hn1. apply Z.eqb_neq in Hn2. split; [done|lia].
Qed.

(** ** Like terms *)

Lemma split_factors_ok P env args : forall cws factors fws coefficient, Forall2 (term_ok (p_nodes P) env) args cws -> Forall2 (term_ok (p_nodes P) env) factors fws ->
  Forall (fun a => int_node (p_nodes P) a = false) factors -> (length factors + length args <= 255)%nat ->
  one_integer (p_nodes P) args -> (coefficient <> 1 -> Forall (fun a => int_node (p_nodes P) a = false) args) ->
  exists factors' fws' c, split_factors P args factors coefficient = Ok (factors', c) /\ Forall2 (term_ok (p_nodes P) env) factors' fws' /\
    Forall (fun a => int_node (p_nodes P) a = false) factors' /\ (length factors' <= length factors + length args)%nat /\
    c * product_of fws'.*1 = coefficient * product_of fws.*1 * product_of cws.*1 /\
    Z.max 1 (Z.abs c) * product_of fws'.*2 = Z.max 1 (Z.abs coefficient) * product_of fws.*2 * product_of cws.*2.
Proof using Type.
  induction args as [|a args IH]; intros cws factors fws coefficient Hc Hf Hp Hn Hone Hco.
  { apply Forall2_nil_inv_l in Hc as ->. exists factors, fws, coefficient. cbn. split_and!; (done || lia). }
  apply Forall2_cons_inv_l in Hc as ([u w] & cws' & Hu & Hcs & ->). cbn [split_factors fmap list_fmap fst snd]. cbn [length] in Hn.
  destruct (evals_some _ _ _ _ (proj1 Hu)) as [e He]. rewrite (node_at_ok _ _ _ He). cbn [rbind]. pose proof (op_int_node _ _ _ He) as Hi.
  unfold one_integer in Hone. rewrite filter_cons in Hone. destruct (is_op Op.INTEGER e) eqn:Ho.
  - rewrite decide_True in Hone by done. cbn [length] in Hone.
    assert (Hc1 : coefficient = 1). { destruct (Z.eq_dec coefficient 1) as [|Hne]; [done|]. apply Hco, Forall_cons in Hne as [Hx _]. congruence. }
    assert (Hplain : Forall (fun a => int_node (p_nodes P) a = false) args).
    { apply Forall_forall. intros x Hx. destruct (int_node (p_nodes P) x) eqn:Ex; [|done]. exfalso.
      assert (Hin : x ∈ filter (fun c => int_node (p_nodes P) c = true) args) by (by apply list_elem_of_filter). destruct (filter _ args); [by apply elem_of_nil in Hin|cbn in Hone; lia]. }
    pose proof (evals_integer _ _ _ _ _ He Ho (proj1 Hu)) as Eu. cbn in Eu. injection Eu as ->.
    assert (Ew : w = Z.max 1 (Z.abs (e_payload e))). { pose proof (weighs_inv _ _ _ _ He (proj2 Hu)) as Hw. apply bool_decide_eq_true in Ho. by rewrite Ho in Hw. }
    destruct (IH cws' factors fws (e_payload e) Hcs Hf Hp ltac:(lia)) as (f' & fws' & c & -> & H1 & H2 & H3 & H4 & H5); [unfold one_integer; lia|done|].
    exists f', fws', c. subst coefficient. cbn [product_of foldr]. split_and!; [done|done|done|cbn; lia| |].
    + change (foldr Z.mul 1) with product_of. rewrite H4. ring.
    + change (foldr Z.mul 1) with product_of. rewrite H5, Ew. change (Z.max 1 (Z.abs 1)) with 1. ring.
  - rewrite decide_False in Hone by congruence. rewrite (proj2 (Z.ltb_lt _ _)) by (unfold kScratchArgs, kMaxArgs; lia). cbn [require rbind].
    destruct (IH cws' (factors ++ [a]) (fws ++ [(u, w)]) coefficient Hcs) as (f' & fws' & c & -> & H1 & H2 & H3 & H4 & H5).
    + apply Forall2_app; [done|by repeat constructor; apply Hu].
    + apply Forall_app; split; [done|by apply Forall_singleton].
    + rewrite length_app. cbn. lia.
    + done.
    + intros Hne. apply Hco, Forall_cons in Hne as [_ Hx]. done.
    + exists f', fws', c. rewrite length_app in H3. cbn in H3. rewrite !fmap_app in H4, H5. unfold product_of in *. rewrite (total_app (op := Op.MUL) (fold := mul_sat64)) in H4, H5.
      cbn in H4, H5. cbn. split_and!; [done|done|done|lia|rewrite H4; ring|rewrite H5; ring].
Qed.

(** An entry: a coefficient and a base, with the value and the weight of the base. *)
Definition entry_ok (nodes : gmap Z Expr) (env : Z -> Z) (d vw : Z * Z) : Prop := term_ok nodes env d.2 vw.

Definition entry_value (dv : (Z * Z) * (Z * Z)) : Z := dv.1.1 * dv.2.1.
Definition entry_weight (dv : (Z * Z) * (Z * Z)) : Z := Z.max 1 (Z.abs dv.1.1) * dv.2.2.
Definition entries_value (l k : list (Z * Z)) : Z := sum_of (entry_value <$> zip l k).
Definition entries_weight (l k : list (Z * Z)) : Z := sum_of (entry_weight <$> zip l k).

Lemma sum_app l k : sum_of (l ++ k) = sum_of l + sum_of k.
Proof using Type. apply (total_app (op := Op.ADD) (fold := add_sat64)). Qed.

Lemma product_pos ws : Forall (fun w => 1 <= w) ws -> 1 <= product_of ws.
Proof using Type. induction 1; cbn; [lia|]. change (foldr Z.mul 1) with product_of. nia. Qed.

Lemma entries_snoc l k d vw : length l = length k -> entries_value (l ++ [d]) (k ++ [vw]) = entries_value l k + d.1 * vw.1 /\
  entries_weight (l ++ [d]) (k ++ [vw]) = entries_weight l k + Z.max 1 (Z.abs d.1) * vw.2.
Proof using Type.
  intros El. unfold entries_value, entries_weight. rewrite zip_with_app by done. rewrite !fmap_app, !sum_app. cbn. unfold entry_value, entry_weight. cbn. lia.
Qed.

Lemma entries_mono nodes nodes' env l k : nodes ⊆ nodes' -> Forall2 (entry_ok nodes env) l k -> Forall2 (entry_ok nodes' env) l k.
Proof using Type. intros Hsub H. eapply Forall2_impl; [exact H|]. intros d vw [H1 H2]. split; [by eapply evals_mono|by eapply weighs_mono]. Qed.

Lemma entries_weight_pos nodes env l k : Forall2 (entry_ok nodes env) l k -> 0 <= entries_weight l k.
Proof using Type.
  induction 1 as [|d vw l k [_ H] _ IH]; unfold entries_weight in *; cbn; [lia|]. pose proof (weighs_pos _ _ _ H). unfold entry_weight at 1. cbn. change (foldr Z.add 0) with sum_of. nia.
Qed.

(** The decomposition of one term: a constant, or an entry. *)
Definition split_of (nodes : gmap Z Expr) (env : Z -> Z) (u w int_sum : Z) (r : option (Z * Z) * Z) : Prop :=
  match r with
  | (None, i) => i = int_sum + u /\ Z.abs u <= w
  | (Some d, i) => i = int_sum /\ exists vw, entry_ok nodes env d vw /\ d.1 * vw.1 = u /\ Z.max 1 (Z.abs d.1) * vw.2 <= w
  end.

Lemma decompose_term P env t e u w int_sum : pool_inv P -> p_nodes P !! t = Some e -> term_ok (p_nodes P) env t (u, w) -> Z.abs int_sum + w <= INT64_MAX ->
  post P (if is_op Op.MUL e then
            let* '(factors, coefficient) := split_factors P (e_args e) [] 1 in
            match factors with
            | [] => Ok (None, add_sat64 int_sum coefficient, P)
            | [f] => Ok (Some (coefficient, f), int_sum, P)
            | _ => let* '(base, P) := intern_composite P Op.MUL factors in Ok (Some (coefficient, base), int_sum, P)
            end
          else Ok (Some (1, t), int_sum, P)) (fun P' r => split_of (p_nodes P') env u w int_sum r).
Proof.
  intros HP He Ht Hb. pose proof (weighs_pos _ _ _ (proj2 Ht)) as Hw1. cbn in Hw1. destruct (is_op Op.MUL e) eqn:Ho.
  2: { apply post_ret; [done|]. split; [done|]. exists (u, w). cbn. split_and!; [done|lia|lia]. }
  apply bool_decide_eq_true in Ho. destruct (nested_terms (op := Op.MUL) (fold := mul_sat64) _ _ _ _ _ _ He Ho Ht) as (cws & Hc & Eu & Hcw). change (foldr Z.mul 1) with product_of in *.
  assert (Hargs : (length (e_args e) <= 255)%nat) by (apply (so_args (p_nodes P) (shape_of e)), (no_shape _ (po_nodes _ (pi_ok _ HP)) _ _ He)).
  destruct (split_factors_ok P env (e_args e) cws [] [] 1 Hc ltac:(constructor) ltac:(constructor) ltac:(cbn; lia) (pi_mul _ HP _ _ He Ho) ltac:(done))
    as (fs & fws & c & -> & Hfs & Hp & Hl & Hv & Hw). cbn [rbind]. change (product_of ([] : list (Z * Z)).*1) with 1 in Hv. change (product_of ([] : list (Z * Z)).*2) with 1 in Hw.
  assert (Hv' : c * product_of fws.*1 = u) by lia. assert (Hw' : Z.max 1 (Z.abs c) * product_of fws.*2 <= w) by lia. clear Hv Hw.
  pose proof (weights_pos _ _ _ _ Hfs) as Hpos. pose proof (product_pos _ Hpos) as Hprod. destruct fs as [|f [|f2 fs]].
  - apply Forall2_nil_inv_l in Hfs as ->. cbn in Hv', Hw'. apply post_ret; [done|]. unfold split_of, add_sat64. rewrite clamp_exact by lia. lia.
  - apply Forall2_cons_inv_l in Hfs as ([v wf] & k & Hf & Hk & ->). apply Forall2_nil_inv_l in Hk as ->. cbn in Hv', Hw'. apply post_ret; [done|]. split; [done|].
    exists (v, wf). split_and!; [done|cbn; lia|cbn; lia].
  - set (args := f :: f2 :: fs) in *. eapply post_bind.
    { apply (composite_call P Op.MUL args); [done|done|by eapply terms_exist|cbn [length] in *; lia|]. intros _. unfold one_integer. rewrite plain_filter by done. cbn. lia. }
    intros base P1 HP1 Hs1 _ (fl & Hn). apply post_ret; [done|]. split; [done|]. exists (product_of fws.*1, product_of fws.*2). pose proof (term_ok_mono _ _ _ _ _ Hs1 Hfs) as Hfs1.
    split_and!; [split|done|done].
    + eapply node_evals; [exact Hn|done|by apply terms_values|]. by apply (fo_eval (op := Op.MUL)), as_int_all.
    + eapply (node_weighs _ _ _ _ _ fws.*2); [exact Hn| |cbn [weigh_op snd]; f_equal; lia]. clear -Hfs1. induction Hfs1 as [|a uw l uws [_ H] _ IH]; constructor; done.
Qed.

Lemma decompose_ok env terms : forall P uws decomposed vws int_sum, pool_inv P -> Forall2 (term_ok (p_nodes P) env) terms uws -> Forall2 (entry_ok (p_nodes P) env) decomposed vws ->
  (length decomposed + length terms <= 255)%nat -> Z.abs int_sum + entries_weight decomposed vws + sum_of uws.*2 <= INT64_MAX ->
  post P (decompose P terms decomposed int_sum) (fun P' r => exists vws', Forall2 (entry_ok (p_nodes P') env) r.1 vws' /\ (length r.1 <= 255)%nat /\
    r.2 + entries_value r.1 vws' = int_sum + entries_value decomposed vws + sum_of uws.*1 /\
    Z.abs r.2 + entries_weight r.1 vws' <= Z.abs int_sum + entries_weight decomposed vws + sum_of uws.*2).
Proof.
  induction terms as [|t terms IH]; intros P uws decomposed vws int_sum HP Hu Hd Hn Hb.
  { apply Forall2_nil_inv_l in Hu as ->. apply post_ret; [done|]. exists vws. change (sum_of ([] : list (Z * Z)).*1) with 0. change (sum_of ([] : list (Z * Z)).*2) with 0.
    cbn [fst snd length] in *. split_and!; [done|lia|lia|lia]. }
  apply Forall2_cons_inv_l in Hu as ([u w] & uws' & Hu & Hus & ->). cbn [decompose fmap list_fmap fst snd] in *. cbn [length] in Hn.
  destruct (evals_some _ _ _ _ (proj1 Hu)) as [e He]. rewrite (node_at_ok _ _ _ He). cbn [rbind].
  pose proof (weighs_pos _ _ _ (proj2 Hu)) as Hw1. cbn in Hw1. pose proof (entries_weight_pos _ _ _ _ Hd) as He0.
  assert (Hs0 : 0 <= sum_of uws'.*2) by (apply (total_nonneg (op := Op.ADD) (fold := add_sat64)); by eapply weights_pos).
  change (sum_of (w :: uws'.*2)) with (w + sum_of uws'.*2) in *. change (sum_of (u :: uws'.*1)) with (u + sum_of uws'.*1).
  eapply post_bind; [apply (decompose_term P env t e u w int_sum HP He Hu); lia|]. intros [[d|] i] P1 HP1 Hs1 _ Hr; cbn in Hr.
  - destruct Hr as (-> & vw & Hd1 & Hv1 & Hw2). rewrite (proj2 (Z.ltb_lt _ _)) by (unfold kScratchArgs, kMaxArgs; lia). cbn [require rbind].
    destruct (entries_snoc decomposed vws d vw (Forall2_length _ _ _ Hd)) as [Ev Ew].
    eapply post_mono; [apply (IH P1 uws' (decomposed ++ [d]) (vws ++ [vw]) int_sum HP1)|].
    + by eapply term_ok_mono.
    + apply Forall2_app; [by eapply entries_mono|by repeat constructor; apply Hd1].
    + rewrite length_app. cbn. lia.
    + lia.
    + intros P' r _ _ (vws' & H1 & H2 & H3 & H4). exists vws'. split_and!; [done|done|lia|lia].
  - destruct Hr as [-> Hau]. eapply post_mono; [apply (IH P1 uws' decomposed vws (int_sum + u) HP1); [by eapply term_ok_mono|by eapply entries_mono|lia|lia]|].
    intros P' r _ _ (vws' & H1 & H2 & H3 & H4). exists vws'. split_and!; [done|done|lia|lia].
Qed.

Lemma values_snoc nodes env l ts a v : values nodes env l ts -> int_value nodes env a v -> values nodes env (l ++ [a]) (ts ++ [v]).
Proof using Type. intros Hl Ha. rewrite fmap_app. apply Forall2_app; [done|]. by repeat constructor. Qed.

(** What a step of the pass adds to the collected terms. *)
Definition grown (env : Z -> Z) (collected : list Z) (ts : list Z) (v : Z) (k : nat) (P' : ExprPool) (r : list Z) : Prop :=
  exists ts', values (p_nodes P') env r ts' /\ sum_of ts' = sum_of ts + v /\ (length r <= length collected + k)%nat.

Lemma emit_term_ok P env total base v w collected ts : pool_inv P -> term_ok (p_nodes P) env base (v, w) -> Z.abs total * w <= INT64_MAX -> values (p_nodes P) env collected ts ->
  (length collected <= 255)%nat -> post P (emit_term P total base collected) (grown env collected ts (total * v) 1).
Proof.
  intros HP Hb Hw Hc Hl. unfold emit_term. pose proof (weighs_pos _ _ _ (proj2 Hb)) as Hw1. cbn in Hw1.
  assert (Hroom : Z.of_nat (length collected) <? kScratchCollect = true) by (apply Z.ltb_lt; unfold kScratchCollect, kScratchArgs, kMaxArgs; lia).
  destruct (Z.eqb_spec total 0) as [->|H0]; [apply post_ret; [done|]; exists ts; split_and!; [done|lia|lia]|].
  destruct (Z.eqb_spec total 1) as [->|H1]; rewrite Hroom.
  - cbn [require rbind]. apply post_ret; [done|]. exists (ts ++ [v]). rewrite sum_app, length_app. split_and!; [by apply values_snoc; [|apply Hb]|cbn; lia|done].
  - assert (Ht : Z.abs total <= INT64_MAX) by nia. eapply post_bind; [apply integer_call; [done|unfold INT64_MIN, INT64_MAX in *; lia]|]. intros c P1 HP1 Hs1 _ Hci.
    cbn [require rbind]. eapply post_bind.
    + apply (mul_n_ok P1 env [c; base] [(total, Z.abs total); (v, w)]); [done| |cbn; lia|cbn; lia]. apply int_weighs in Hci as Hcw. replace (Z.max 1 (Z.abs total)) with (Z.abs total) in Hcw by lia.
      repeat constructor; cbn; [by apply int_evals|done|eapply evals_mono; [exact Hs1|apply Hb]|eapply weighs_mono; [exact Hs1|apply Hb]].
    + intros t P2 HP2 Hs2 _ Hti. apply post_ret; [done|]. cbn in Hti. exists (ts ++ [total * (v * 1)]). rewrite sum_app, length_app. split_and!; [|cbn; lia|done].
      apply values_snoc; [|done]. eapply values_mono; [exact Hs2|]. by eapply values_mono.
Qed.

Lemma merge_terms_ok env entries : forall P total base v w vws collected ts, pool_inv P -> term_ok (p_nodes P) env base (v, w) -> Forall2 (entry_ok (p_nodes P) env) entries vws ->
  Z.abs total * w + entries_weight entries vws <= INT64_MAX -> values (p_nodes P) env collected ts -> (length collected + length entries <= 254)%nat ->
  post P (merge_terms P total base entries collected) (grown env collected ts (total * v + entries_value entries vws) (Datatypes.S (length entries))).
Proof.
  induction entries as [|[c b] entries IH]; intros P total base v w vws collected ts HP Hb He Hw Hc Hl; cbn [merge_terms].
  { apply Forall2_nil_inv_l in He as ->. cbn in Hl. eapply post_mono; [apply (emit_term_ok P env total base v w collected ts); (done || unfold entries_weight in Hw; cbn in Hw; lia)|].
    intros P' r _ _ (ts' & H1 & H2 & H3). exists ts'. unfold entries_value. cbn. split_and!; [done|lia|lia]. }
  pose proof (weighs_pos _ _ _ (proj2 Hb)) as Hw1. cbn in Hw1. apply Forall2_cons_inv_l in He as ([v2 w2] & vws' & Hd & He & ->). pose proof (entries_weight_pos _ _ _ _ He) as Hep.
  unfold entries_weight, entries_value in Hw |- *. cbn [zip_with fmap list_fmap] in Hw |- *. change (sum_of (?x :: ?l)) with (x + sum_of l) in *.
  fold (entries_weight entries vws') in *. fold (entries_value entries vws'). unfold entry_weight in Hw. unfold entry_value. cbn [fst snd length] in *.
  pose proof (weighs_pos _ _ _ (proj2 Hd)) as Hw2. cbn in Hw2. destruct (Z.eqb_spec b base) as [->|Hne].
  - assert (Ev : v2 = v) by (destruct Hd as [Hd _], Hb as [Hb _]; cbn in Hd, Hb; by injection (evals_det _ _ _ _ _ Hd Hb)).
    assert (Ew : w2 = w) by (destruct Hd as [_ Hd], Hb as [_ Hb]; cbn in Hd, Hb; by apply (weighs_det _ _ _ _ Hd Hb)). subst v2 w2.
    assert (Hsum : Z.abs (total + c) * w + entries_weight entries vws' <= INT64_MAX) by nia.
    assert (Hex : add_sat64 total c = total + c) by (apply clamp_exact; nia). rewrite Hex.
    eapply post_mono; [apply (IH P (total + c) base v w vws' collected ts); (done || lia)|]. intros P' r _ _ (ts' & H1 & H2 & H3). exists ts'. split_and!; [done|lia|cbn; lia].
  - eapply post_bind; [apply (emit_term_ok P env total base v w collected ts); (done || nia)|]. intros col P1 HP1 Hs1 _ (ts1 & H1 & H2 & H3).
    eapply post_mono; [apply (IH P1 c b v2 w2 vws' col ts1); [done| |by eapply entries_mono|nia|done|lia]|].
    + split; [eapply evals_mono; [exact Hs1|apply Hd]|eapply weighs_mono; [exact Hs1|apply Hd]].
    + intros P' r _ _ (ts' & H4 & H5 & H6). exists ts'. split_and!; [done|lia|cbn; lia].
Qed.

Lemma merge_all_ok P env entries vws : pool_inv P -> Forall2 (entry_ok (p_nodes P) env) entries vws -> entries_weight entries vws <= INT64_MAX -> (length entries <= 255)%nat ->
  post P (merge_all P entries) (grown env [] [] (entries_value entries vws) (length entries)).
Proof.
  intros HP He Hw Hl. unfold merge_all. destruct entries as [|[c b] entries].
  - apply Forall2_nil_inv_l in He as ->. apply post_ret; [done|]. exists []. cbn. split_and!; [constructor|done|lia].
  - apply Forall2_cons_inv_l in He as ([v w] & vws' & Hd & He & ->). pose proof (weighs_pos _ _ _ (proj2 Hd)) as Hw1. cbn in Hw1.
    unfold entries_weight, entries_value in Hw |- *. cbn [zip_with fmap list_fmap] in Hw |- *. change (sum_of (?x :: ?l)) with (x + sum_of l) in *.
    fold (entries_weight entries vws') in *. fold (entries_value entries vws'). unfold entry_weight in Hw. unfold entry_value. cbn [fst snd length] in *.
    apply (merge_terms_ok env entries P c b v w vws' [] []); [done|done|done|nia|constructor|cbn; lia].
Qed.

Lemma zip_perm {A B} (R : A -> B -> Prop) l l' : l ≡ₚ l' -> forall k, Forall2 R l k -> exists k', Forall2 R l' k' /\ zip l k ≡ₚ zip l' k'.
Proof using Type.
  induction 1 as [|x l l' _ IH|x y l|l l' l'' _ IH1 _ IH2]; intros k H.
  - apply Forall2_nil_inv_l in H as ->. by exists [].
  - apply Forall2_cons_inv_l in H as (b & k1 & Hb & Hk & ->). destruct (IH k1 Hk) as (k2 & H1 & H2). exists (b :: k2). split; [by constructor|]. cbn. by rewrite H2.
  - apply Forall2_cons_inv_l in H as (b & k1 & Hb & Hk & ->). apply Forall2_cons_inv_l in Hk as (b2 & k2 & Hb2 & Hk & ->).
    exists (b2 :: b :: k2). split; [by repeat constructor|]. cbn. constructor.
  - destruct (IH1 k H) as (k1 & H1 & E1). destruct (IH2 k1 H1) as (k2 & H2 & E2). exists k2. split; [done|by etrans].
Qed.

Lemma sum_perm l k : l ≡ₚ k -> sum_of l = sum_of k.
Proof using Type. apply (total_perm (op := Op.ADD) (fold := add_sat64)). Qed.

Lemma add_n_ok P env inputs uws : pool_inv P -> Forall2 (term_ok (p_nodes P) env) inputs uws -> sum_of uws.*2 <= INT64_MAX -> (length inputs <= 255)%nat ->
  post P (add_n P inputs) (fun P' a => int_value (p_nodes P') env a (sum_of uws.*1)).
Proof.
  intros HP Hin Hb Hl. unfold add_n. rewrite (proj2 (Z.leb_le _ _)) by (unfold kScratchArgs, kMaxArgs; lia). cbn [require rbind].
  destruct (collect_ok (op := Op.ADD) (fold := add_sat64) P env inputs uws [] 0 0 0 Hin (folded_start Op.ADD _ _ _ _ _)) as (t & acc & -> & Hlt & Hf); [by rewrite Z.add_0_l|done|].
  cbn [rbind]. pose proof (folded_bound _ _ _ _ _ _ Hf) as [Hacc _]. change (foldr Z.add 0) with sum_of in *. rewrite !Z.add_0_l in *.
  destruct Hf as [(tws & Ht & Hv & Hw) Hp]. change (foldr Z.add 0) with sum_of in *. destruct t as [|t0 t].
  - apply Forall2_nil_inv_l in Ht as ->. cbn in Hv. eapply post_mono; [apply integer_call; [done|unfold INT64_MIN, INT64_MAX in *; lia]|].
    intros P' a _ _ Ha. replace (sum_of uws.*1) with acc by lia. by apply int_evals.
  - set (terms := t0 :: t) in *. eapply post_bind.
    { apply (decompose_ok env terms P tws [] [] acc HP Ht); [constructor|cbn; done|unfold entries_weight; cbn [zip_with fmap list_fmap]; change (sum_of []) with 0; lia]. }
    intros [entries isum] P1 HP1 Hs1 _ (vws & He & Hle & Hval & Hwt). cbn [fst snd] in *. unfold entries_value at 2 in Hval. unfold entries_weight at 2 in Hwt. cbn [zip_with fmap list_fmap] in Hval, Hwt.
    change (sum_of []) with 0 in Hval, Hwt.
    pose proof (sort_bases_perm entries) as Hsp. destruct (zip_perm _ _ _ (symmetry Hsp) _ He) as (vws' & He' & Hz).
    assert (Ev : entries_value (sort_bases entries) vws' = entries_value entries vws) by (unfold entries_value; apply sum_perm; by rewrite Hz).
    assert (Ew : entries_weight (sort_bases entries) vws' = entries_weight entries vws) by (unfold entries_weight; apply sum_perm; by rewrite Hz).
    pose proof (entries_weight_pos _ _ _ _ He) as Hp0. eapply post_bind.
    { apply (merge_all_ok P1 env (sort_bases entries) vws'); [done|done|lia|by rewrite Hsp]. }
    intros col P2 HP2 Hs2 _ (ts & Hts & Hsum & Hcl). rewrite Hsp in Hcl. cbn in Hcl, Hsum. replace (sum_of uws.*1) with (isum + sum_of ts) by lia.
    apply (reattach_ok (op := Op.ADD) (fold := add_sat64)); [done|done|lia|lia|done|].
    intros Hn. apply orb_false_elim in Hn as [Hn1 Hn2]. apply negb_false_iff, Z.eqb_eq in Hn1. apply Z.eqb_neq in Hn2. split; [done|lia].
Qed.

(** ** The binary constructors *)

Lemma is_int_payload e n : is_int n e = true -> is_op Op.INTEGER e = true /\ e_payload e = n.
Proof using Type. intros [H1 H2%Z.eqb_eq]%andb_prop. done. Qed.

Lemma float_no_value nodes env a e v : nodes !! a = Some e -> is_op Op.FLOAT e = true -> ~ evals nodes env a v.
Proof using Type.
  intros He Ho%bool_decide_eq_true Hv. destruct (evals_inv _ _ _ _ _ He Hv) as [Ha|(_ & vs & _ & Hs)]; [unfold eval_atom in Ha; by rewrite Ho in Ha|by rewrite Ho in Hs].
Qed.

Lemma ordered_perm l r : ordered l r ≡ₚ [l; r].
Proof using Type. unfold ordered. destruct (r <? l); [constructor|done]. Qed.

Lemma pair_values nodes env l r u v : int_value nodes env l u -> int_value nodes env r v -> exists ts, values nodes env (ordered l r) ts /\ ts ≡ₚ [u; v].
Proof using Type.
  intros Hl Hr. unfold ordered. destruct (r <? l); [exists [v; u]|exists [u; v]]; (split; [by repeat constructor|]); [constructor|done].
Qed.

Lemma plain_not_int nodes a e : nodes !! a = Some e -> is_plain e = true -> int_node nodes a = false.
Proof using Type. intros He [[_ H]%andb_prop _]%andb_prop. rewrite (op_int_node _ _ _ He). by apply negb_true_iff. Qed.

Lemma mul_call P env lhs rhs u v w1 w2 : pool_inv P -> term_ok (p_nodes P) env lhs (u, w1) -> term_ok (p_nodes P) env rhs (v, w2) -> w1 * w2 <= INT64_MAX ->
  post P (mul P lhs rhs) (fun P' a => int_value (p_nodes P') env a (u * v)).
Proof.
  intros HP Hl Hr Hb. unfold mul. destruct (evals_some _ _ _ _ (proj1 Hl)) as [l El], (evals_some _ _ _ _ (proj1 Hr)) as [r Er].
  rewrite (node_at_ok _ _ _ El), (node_at_ok _ _ _ Er). cbn [rbind].
  assert (Hil : is_op Op.INTEGER l = true -> u = e_payload l) by (intros Ho; pose proof (evals_integer _ _ _ _ _ El Ho (proj1 Hl)) as H; by injection H).
  assert (Hir : is_op Op.INTEGER r = true -> v = e_payload r) by (intros Ho; pose proof (evals_integer _ _ _ _ _ Er Ho (proj1 Hr)) as H; by injection H).
  destruct (is_plain l && is_plain r) eqn:Hpl.
  { apply andb_prop in Hpl as [H1 H2]. destruct (pair_values _ _ _ _ _ _ (proj1 Hl) (proj1 Hr)) as (ts & Hts & Hpt).
    assert (Hplain : Forall (fun a => int_node (p_nodes P) a = false) (ordered lhs rhs)) by (rewrite ordered_perm; repeat constructor; [by eapply plain_not_int|by eapply plain_not_int]).
    eapply post_mono; [apply (fold_composite (op := Op.MUL) (fold := mul_sat64) P env _ ts); [done|done|rewrite ordered_perm; cbn; lia|]|].
    - intros _. unfold one_integer. rewrite plain_filter by done. cbn. lia.
    - intros P' a _ _ [H _]. cbn [fst]. replace (u * v) with (foldr Z.mul 1 ts); [done|]. rewrite (total_perm (op := Op.MUL) (fold := mul_sat64) _ _ Hpt). cbn. lia. }
  destruct (is_op Op.INTEGER l && is_op Op.INTEGER r) eqn:Hii.
  { apply andb_prop in Hii as [H1 H2]. rewrite <- Hil, <- Hir by done.
    pose proof (weighs_inv _ _ _ _ El (proj2 Hl)) as Hw1. pose proof (weighs_inv _ _ _ _ Er (proj2 Hr)) as Hw2. apply bool_decide_eq_true in H1, H2. rewrite H1 in Hw1. rewrite H2 in Hw2. cbn in Hw1, Hw2.
    assert (Z.abs (u * v) <= INT64_MAX). { rewrite Z.abs_mul. rewrite Hil, Hir by (by apply bool_decide_eq_true). nia. }
    unfold mul_sat64. rewrite clamp_exact by done. eapply post_mono; [apply integer_call; [done|unfold INT64_MIN, INT64_MAX in *; lia]|]. intros P' a _ _ Ha. by apply int_evals. }
  destruct (is_op Op.FLOAT l && is_op Op.FLOAT r) eqn:Hff; [apply andb_prop in Hff as [H1 _]; exfalso; by eapply float_no_value; [exact El|done|apply Hl]|].
  destruct (is_zero_int l || is_zero_int r) eqn:Hz.
  { assert (E0 : u * v = 0) by (apply orb_prop in Hz as [[Ho Hp]%is_int_payload|[Ho Hp]%is_int_payload]; [rewrite (Hil Ho), Hp|rewrite (Hir Ho), Hp]; lia).
    rewrite E0. eapply post_mono; [apply integer_call; [done|by compute]|]. intros P' a _ _ Ha. by apply int_evals. }
  destruct (is_one l) eqn:H1; [apply is_int_payload in H1 as [Ho Hp]; rewrite (Hil Ho), Hp, Z.mul_1_l; apply post_ret; [done|apply Hr]|].
  destruct (is_one r) eqn:H2; [apply is_int_payload in H2 as [Ho Hp]; rewrite (Hir Ho), Hp, Z.mul_1_r; apply post_ret; [done|apply Hl]|].
  eapply post_mono; [apply (mul_n_ok P env [lhs; rhs] [(u, w1); (v, w2)]); [done|by repeat constructor; apply Hl || apply Hr|cbn; lia|cbn; lia]|].
  intros P' a _ _ H. cbn in H. by replace (u * v) with (u * (v * 1)) by lia.
Qed.

Lemma int_payload nodes env a e u w : nodes !! a = Some e -> term_ok nodes env a (u, w) -> is_op Op.INTEGER e = true -> u = e_payload e /\ w = Z.max 1 (Z.abs (e_payload e)).
Proof using Type.
  intros He [Hu Hw] Ho. cbn in *. split; [by injection (evals_integer _ _ _ _ _ He Ho Hu)|]. pose proof (weighs_inv _ _ _ _ He Hw) as H. apply bool_decide_eq_true in Ho. by rewrite Ho in H.
Qed.

Lemma integer_value P env v w : pool_inv P -> Z.abs v <= w -> w <= INT64_MAX -> post P (integer P v) (fun P' a => int_value (p_nodes P') env a v).
Proof using HG HE.
  intros HP Hv Hw. eapply post_mono; [apply integer_call; [done|unfold INT64_MIN, INT64_MAX in *; lia]|]. intros P' a _ _ Ha. by apply int_evals.
Qed.

(** Two times an operand that is not a constant. *)
Lemma double_call P env a u w : pool_inv P -> term_ok (p_nodes P) env a (u, w) -> 2 * w <= INT64_MAX ->
  post P (let* '(two, P) := integer P 2 in mul P two a) (fun P' r => int_value (p_nodes P') env r (u + u)).
Proof.
  intros HP Ha Hb. eapply post_bind; [apply integer_call; [done|by compute]|]. intros t P1 HP1 Hs1 _ Ht. cbn beta.
  replace (u + u) with (2 * u) by lia. apply (mul_call P1 env t a 2 u 2 w); [done| | |lia].
  - split; [by apply int_evals|]. apply int_weighs in Ht. exact Ht.
  - split; [eapply evals_mono; [exact Hs1|apply Ha]|eapply weighs_mono; [exact Hs1|apply Ha]].
Qed.

Lemma add_call P env lhs rhs u v w1 w2 : pool_inv P -> term_ok (p_nodes P) env lhs (u, w1) -> term_ok (p_nodes P) env rhs (v, w2) -> w1 + w2 <= INT64_MAX ->
  post P (add P lhs rhs) (fun P' a => int_value (p_nodes P') env a (u + v)).
Proof.
  intros HP Hl Hr Hb. unfold add. destruct (evals_some _ _ _ _ (proj1 Hl)) as [l El], (evals_some _ _ _ _ (proj1 Hr)) as [r Er].
  rewrite (node_at_ok _ _ _ El), (node_at_ok _ _ _ Er). cbn [rbind].
  destruct (negb _ && _ && _ && _) eqn:Hpl.
  { destruct (Z.eqb_spec lhs rhs) as [->|Hne].
    - assert (v = u) by (destruct Hl as [Hl _], Hr as [Hr _]; cbn in *; by injection (evals_det _ _ _ _ _ Hr Hl)).
      assert (w2 = w1) by (destruct Hl as [_ Hl], Hr as [_ Hr]; cbn in *; by apply (weighs_det _ _ _ _ Hr Hl)). subst. apply (double_call P env rhs u w1); [done|done|lia].
    - destruct (pair_values _ _ _ _ _ _ (proj1 Hl) (proj1 Hr)) as (ts & Hts & Hpt).
      eapply post_mono; [apply (fold_composite (op := Op.ADD) (fold := add_sat64) P env _ ts); [done|done|rewrite ordered_perm; cbn; lia|done]|].
      intros P' a _ _ [H _]. cbn [fst]. replace (u + v) with (foldr Z.add 0 ts); [done|]. rewrite (total_perm (op := Op.ADD) (fold := add_sat64) _ _ Hpt). cbn. lia. }
  destruct (is_op Op.INTEGER l && is_op Op.INTEGER r) eqn:Hii.
  { apply andb_prop in Hii as [H1 H2]. destruct (int_payload _ _ _ _ _ _ El Hl H1) as [-> Hw1], (int_payload _ _ _ _ _ _ Er Hr H2) as [-> Hw2].
    unfold add_sat64. rewrite clamp_exact by lia. apply (integer_value P env _ (w1 + w2)); [done|lia|done]. }
  destruct (is_op Op.FLOAT l && is_op Op.FLOAT r) eqn:Hff; [apply andb_prop in Hff as [H1 _]; exfalso; by eapply float_no_value; [exact El|done|apply Hl]|].
  destruct (is_zero_int l) eqn:H1; [apply is_int_payload in H1 as [Ho Hp]; destruct (int_payload _ _ _ _ _ _ El Hl Ho) as [-> _]; rewrite Hp; apply post_ret; [done|apply Hr]|].
  destruct (is_zero_int r) eqn:H2; [apply is_int_payload in H2 as [Ho Hp]; destruct (int_payload _ _ _ _ _ _ Er Hr Ho) as [-> _]; rewrite Hp, Z.add_0_r; apply post_ret; [done|apply Hl]|].
  eapply post_mono; [apply (add_n_ok P env [lhs; rhs] [(u, w1); (v, w2)]); [done|by repeat constructor; apply Hl || apply Hr|cbn; lia|cbn; lia]|].
  intros P' a _ _ H. cbn in H. by replace (u + v) with (u + (v + 0)) by lia.
Qed.

Lemma neg_call P env a u w : pool_inv P -> term_ok (p_nodes P) env a (u, w) -> w <= INT64_MAX -> post P (neg P a) (fun P' r => int_value (p_nodes P') env r (- u)).
Proof.
  intros HP Ha Hb. unfold neg. destruct (evals_some _ _ _ _ (proj1 Ha)) as [e He]. rewrite (node_at_ok _ _ _ He). cbn [rbind]. destruct (is_op Op.INTEGER e) eqn:Ho.
  { destruct (int_payload _ _ _ _ _ _ He Ha Ho) as [-> Hw]. unfold sub_sat64. rewrite clamp_exact by lia. apply (integer_value P env _ w); [done|lia|done]. }
  destruct (is_op Op.FLOAT e) eqn:Hf; [exfalso; by eapply float_no_value; [exact He|done|apply Ha]|].
  eapply post_bind; [apply integer_call; [done|by compute]|]. intros m P1 HP1 Hs1 _ Hm. cbn beta. replace (- u) with (-1 * u) by lia.
  apply (mul_call P1 env m a (-1) u 1 w); [done| | |lia].
  - split; [by apply int_evals|]. apply int_weighs in Hm. exact Hm.
  - split; [eapply evals_mono; [exact Hs1|apply Ha]|eapply weighs_mono; [exact Hs1|apply Ha]].
Qed.
End Arith.
