(* ===== verification/ExprLogic.v ===== *)
(** * ExprLogic.v: the other constructors keep values

    Powers, relations, logic, the conditional, minimum and maximum, and the two
    remainders. *)

From stdpp Require Import base list strings gmap sorting.
From Stdlib Require Import ZArith Lia.
From S2P Require Import Prelude.
From S2P Require Import Types.
From S2P Require Import Hash.
From S2P Require Import SwissTable.
From S2P Require Import Expr.
From S2P Require Import ExprPool.
From S2P Require Import InternTable.
From S2P Require Import InternTheorems.
From S2P Require Import ExprOps.
From S2P Require Import ExprEval.
From S2P Require Import ExprArith.
#[local] Open Scope Z_scope.
#[local] Open Scope result_scope.

Section Values.
Context `{G : CtrlGroup} {HG : CtrlGroupOk G} `{E : ExprArena} {HE : ExprArenaOk E} `{S : AddressSort} {HS : AddressSortOk S} `{N : NanBits}.
#[local] Set Default Proof Using "HG HE".

Abbreviation int_value nodes env a v := (evals nodes env a (VInt v)).
Abbreviation keeps env v := (fun P' a => evals (p_nodes P') env a v).

(** ** Nodes that are interned as they are *)

Lemma composite_value P env op args vs v : pool_inv P -> is_composite op = true -> op <> Op.MUL -> Forall2 (evals (p_nodes P) env) args vs -> (length args <= 255)%nat ->
  eval_op op vs = Some v -> post P (intern_composite P op args) (keeps env v).
Proof.
  intros HP Hc Hm Hv Hl Ho. eapply post_mono; [apply composite_call; [done|done|by eapply values_exist|done|done]|].
  intros P' a _ Hsub (f & Hf). by eapply node_evals; [exact Hf|done|eapply values_mono|].
Qed.

Lemma node_value P env op args f vs v : pool_inv P -> is_composite op = true -> op <> Op.MUL -> 0 <= f < 2 ^ 16 -> Forall2 (evals (p_nodes P) env) args vs -> (length args <= 255)%nat ->
  eval_op op vs = Some v -> post P (intern_node P (node op args f)) (keeps env v).
Proof.
  intros HP Hc Hm Hf Hv Hl Ho. eapply post_mono; [apply intern_call; [done|apply node_ok; [done|done|by eapply values_exist]|done]|].
  intros P' a _ Hsub Hi. by eapply node_evals; [exact Hi|done|eapply values_mono|].
Qed.

(** ** Powers *)

Lemma power_fold_exact b (n : nat) : Z.abs b ^ Z.of_nat n <= INT64_MAX -> Nat.iter n (fun acc => mul_sat64 acc b) 1 = b ^ Z.of_nat n.
Proof using Type.
  induction n as [|n IH]; intros Hb; [done|]. rewrite Nat.iter_succ. replace (Z.of_nat (Datatypes.S n)) with (Z.of_nat n + 1) in * by lia.
  rewrite Z.pow_add_r, Z.pow_1_r in * by lia. assert (Hn : Z.abs b ^ Z.of_nat n <= INT64_MAX).
  { destruct (Z.eq_dec b 0) as [->|Hne]; [|pose proof (Z.pow_nonneg (Z.abs b) (Z.of_nat n)); nia].
    destruct n as [|n]; [by compute|]. rewrite Z.pow_0_l by lia. by compute. }
  rewrite IH by done. unfold mul_sat64. rewrite clamp_exact; [lia|]. rewrite Z.abs_mul, Z.abs_pow. done.
Qed.

Lemma pow_call P env base exp u n : pool_inv P -> int_value (p_nodes P) env base u -> int_value (p_nodes P) env exp n -> 0 <= n -> Z.abs u ^ n <= INT64_MAX ->
  post P (pow P base exp) (keeps env (VInt (u ^ n))).
Proof.
  intros HP Hu Hn Hn0 Hb. unfold pow. destruct (evals_some _ _ _ _ Hu) as [b Eb], (evals_some _ _ _ _ Hn) as [x Ex].
  rewrite (node_at_ok _ _ _ Eb), (node_at_ok _ _ _ Ex). cbn [rbind].
  assert (Hix : is_op Op.INTEGER x = true -> n = e_payload x) by (intros Ho; pose proof (evals_integer _ _ _ _ _ Ex Ho Hn) as H; by injection H).
  destruct (is_zero_int x) eqn:H0; [apply is_int_payload in H0 as [Ho Hp]; rewrite (Hix Ho), Hp; apply (integer_value P env _ 1); [done|done|by compute]|].
  destruct (is_one x) eqn:H1; [apply is_int_payload in H1 as [Ho Hp]; rewrite (Hix Ho), Hp, Z.pow_1_r; by apply post_ret|].
  destruct (_ && _) eqn:Hf.
  - apply andb_prop in Hf as [Hf _]. apply andb_prop in Hf as [Hf _]. apply andb_prop in Hf as [Hib Hix'].
    pose proof (evals_integer _ _ _ _ _ Eb Hib Hu) as Hub. injection Hub as Hub. rewrite <- Hub, <- (Hix Hix'). unfold power_fold.
    rewrite <- (Z2Nat.id n) in Hb |- * by lia. rewrite Nat2Z.id, power_fold_exact by done. apply (integer_value P env _ INT64_MAX); [done|by rewrite Z.abs_pow|done].
  - apply (composite_value P env Op.POW [base; exp] [VInt u; VInt n]); [done|done|done|by repeat constructor|cbn; lia|]. cbn. by rewrite (proj2 (Z.leb_le _ _) Hn0).
Qed.

(** ** Relations *)

Lemma truth_value P env b : pool_inv P -> evals (p_nodes P) env (truth P b) (VBool b).
Proof using Type.
  intros [_ [C1 C2 _] _]. destruct b; cbn; [destruct C1 as (e & He & Es)|destruct C2 as (e & He & Es)]; (eapply evals_atom; [exact He|]); unfold eval_atom;
    apply (f_equal sh_op) in Es; cbn in Es; by rewrite Es.
Qed.

(** The two arrangements of the operands of a relation. *)
Definition arranged (test : Z -> Z -> bool) (args : list Z) (lhs rhs : Z) : Prop :=
  args = [lhs; rhs] \/ args = ordered lhs rhs /\ forall x y, test x y = test y x.

Lemma relation_call P env op same test args lhs rhs x y : pool_inv P -> is_composite op = true -> op <> Op.MUL -> (forall vs, eval_op op vs = compare_with test vs) ->
  (forall z, test z z = same) -> arranged test args lhs rhs -> int_value (p_nodes P) env lhs x -> int_value (p_nodes P) env rhs y ->
  post P (relation P op same test args lhs rhs) (keeps env (VBool (test x y))).
Proof.
  intros HP Hc Hm Hop Hsame Harr Hx Hy. unfold relation. destruct (Z.eqb_spec lhs rhs) as [->|Hne].
  { pose proof (evals_det _ _ _ _ _ Hx Hy) as Exy. injection Exy as ->. rewrite Hsame. apply post_ret; [done|by apply truth_value]. }
  destruct (evals_some _ _ _ _ Hx) as [l El], (evals_some _ _ _ _ Hy) as [r Er]. rewrite (node_at_ok _ _ _ El), (node_at_ok _ _ _ Er). cbn [rbind].
  destruct (is_op Op.INTEGER l && is_op Op.INTEGER r) eqn:Hii.
  { apply andb_prop in Hii as [H1 H2]. pose proof (evals_integer _ _ _ _ _ El H1 Hx) as E1. pose proof (evals_integer _ _ _ _ _ Er H2 Hy) as E2. injection E1 as ->. injection E2 as ->.
    apply post_ret; [done|by apply truth_value]. }
  assert (Hv : exists vs, Forall2 (evals (p_nodes P) env) args vs /\ length args = 2%nat /\ compare_with test vs = Some (VBool (test x y))).
  { destruct Harr as [->|[-> Hsym]]; [exists [VInt x; VInt y]; split_and!; [by repeat constructor|done|done]|]. unfold ordered.
    destruct (rhs <? lhs); [exists [VInt y; VInt x]|exists [VInt x; VInt y]]; (split_and!; [by repeat constructor|done|]); cbn; [by rewrite Hsym|done]. }
  destruct Hv as (vs & Hvs & Hl & Hev). apply (node_value P env op args _ vs); [done|done|done|by compute|done|lia|by rewrite Hop].
Qed.

(** ** The conditional *)

Lemma where_call P env cond t f c v w : pool_inv P -> evals (p_nodes P) env cond (VBool c) -> evals (p_nodes P) env t v -> evals (p_nodes P) env f w ->
  post P (where_ P cond t f) (keeps env (if c then v else w)).
Proof.
  intros HP Hc Hv Hw. unfold where_. pose proof (truth_value P env true HP) as Ht. pose proof (truth_value P env false HP) as Hf. cbn [truth] in Ht, Hf.
  destruct (Z.eqb_spec cond (true_ P)) as [->|H1]; [pose proof (evals_det _ _ _ _ _ Hc Ht) as Ec; injection Ec as ->; by apply post_ret|].
  destruct (Z.eqb_spec cond (false_ P)) as [->|H2]; [pose proof (evals_det _ _ _ _ _ Hc Hf) as Ec; injection Ec as ->; by apply post_ret|].
  destruct (Z.eqb_spec t f) as [->|H3]; [rewrite (evals_det _ _ _ _ _ Hw Hv) in *; apply post_ret; [done|by destruct c]|].
  destruct (evals_some _ _ _ _ Hv) as [et Et], (evals_some _ _ _ _ Hw) as [ef Ef]. rewrite (node_at_ok _ _ _ Et), (node_at_ok _ _ _ Ef). cbn [rbind].
  apply (node_value P env Op.WHERE _ _ [VBool c; v; w]); [done|done|done| |by repeat constructor|cbn; lia|done].
  pose proof (no_shape _ (po_nodes _ (pi_ok _ HP))) as Hs. pose proof (so_flags _ _ (Hs _ _ Et)) as F1. pose proof (so_flags _ _ (Hs _ _ Ef)) as F2. cbn in F1, F2. apply land_range; lia.
Qed.

(** ** Logic *)

(** [comb] is the connective of [op], [bu] its unit and the negation of [bu] its zero. *)
Record connective (op : Op.t) (comb : bool -> bool -> bool) (bu : bool) : Prop := {
  cn_op : is_composite op = true /\ op <> Op.MUL;
  cn_unit b : comb bu b = b;
  cn_zero b : comb (negb bu) b = negb bu;
  cn_assoc x y z : comb x (comb y z) = comb (comb x y) z;
  cn_comm x y : comb x y = comb y x;
  cn_idem x : comb x x = x;
  cn_eval vs v : eval_op op vs = Some v <-> exists l, vs = VBool <$> l /\ v = VBool (foldr comb bu l);
}.

Lemma as_bool_all vs l : mapM as_bool vs = Some l <-> vs = VBool <$> l.
Proof using Type.
  rewrite mapM_Some. split.
  - induction 1 as [|[z|b] y vs l H _ IH]; [done|done|]. injection H as ->. cbn. by f_equal.
  - intros ->. induction l; constructor; auto.
Qed.

Lemma and_connective : connective Op.AND andb true.
Proof using Type.
  split; try done; try (intros []; done); try (intros [] []; done); try (intros [] [] []; done).
  intros vs v. cbn [eval_op]. assert (Hf : forall l, forallb id l = foldr andb true l) by (induction l; cbn; congruence). split.
  - destruct (mapM as_bool vs) as [l|] eqn:El; [|done]. apply as_bool_all in El. cbn. intros [= <-]. exists l. by rewrite Hf.
  - intros (l & Hl & ->). apply as_bool_all in Hl. rewrite Hl. cbn. by rewrite Hf.
Qed.

Lemma or_connective : connective Op.OR orb false.
Proof using Type.
  split; try done; try (intros []; done); try (intros [] []; done); try (intros [] [] []; done).
  intros vs v. cbn [eval_op]. assert (Hf : forall l, existsb id l = foldr orb false l) by (induction l; cbn; congruence). split.
  - destruct (mapM as_bool vs) as [l|] eqn:El; [|done]. apply as_bool_all in El. cbn. intros [= <-]. exists l. by rewrite Hf.
  - intros (l & Hl & ->). apply as_bool_all in Hl. rewrite Hl. cbn. by rewrite Hf.
Qed.

Section Connective.
Context {op : Op.t} {comb : bool -> bool -> bool} {bu : bool} (HC : connective op comb bu).
#[local] Set Default Proof Using "HG HE HC".

Abbreviation bools nodes env l bs := (Forall2 (evals nodes env) l (VBool <$> bs)).
Abbreviation all bs := (foldr comb bu bs).

Lemma all_app l k : all (l ++ k) = comb (all l) (all k).
Proof using HC. induction l as [|b l IH]; cbn; [by rewrite (cn_unit _ _ _ HC)|]. by rewrite IH, (cn_assoc _ _ _ HC). Qed.

Lemma all_perm l k : l ≡ₚ k -> all l = all k.
Proof using HC.
  induction 1 as [|x l k _ IH|x y l|l k m _ IH1 _ IH2]; cbn; [done|by rewrite IH| |congruence]. by rewrite !(cn_assoc _ _ _ HC), (cn_comm _ _ _ HC x y).
Qed.

Lemma zero_r b : comb b (negb bu) = negb bu.
Proof using HC. rewrite (cn_comm _ _ _ HC). apply (cn_zero _ _ _ HC). Qed.

(** The outcome of a collection: [None] when an operand is the zero. *)
Definition collected_as (nodes : gmap Z Expr) (env : Z -> Z) (total : bool) (n : nat) (found : option (list Z)) : Prop :=
  match found with
  | None => total = negb bu
  | Some l => exists bs, bools nodes env l bs /\ all bs = total /\ (length l <= n)%nat
  end.

Lemma bools_snoc nodes env l bs a b : bools nodes env l bs -> evals nodes env a (VBool b) -> bools nodes env (l ++ [a]) (bs ++ [b]).
Proof using Type. intros H Ha. rewrite fmap_app. apply Forall2_app; [done|]. by repeat constructor. Qed.

(** The two constants, as the arguments of a collection. *)
Definition constants (P : ExprPool) (env : Z -> Z) (unit_ zero : Z) : Prop := evals (p_nodes P) env unit_ (VBool bu) /\ evals (p_nodes P) env zero (VBool (negb bu)).

Lemma take_operands_ok P env unit_ zero args : constants P env unit_ zero -> forall cs operands bs, bools (p_nodes P) env args cs -> bools (p_nodes P) env operands bs ->
  (length operands + length args <= 255)%nat ->
  exists found, take_operands unit_ zero args operands = Ok found /\ collected_as (p_nodes P) env (comb (all bs) (all cs)) (length operands + length args) found.
Proof using HC.
  intros [Hu Hz]. induction args as [|a args IH]; intros cs operands bs Hc Ho Hn; cbn [take_operands].
  { apply Forall2_nil_inv_l in Hc. destruct cs; [|done]. eexists. split; [done|]. exists bs. cbn. rewrite (cn_comm _ _ _ HC), (cn_unit _ _ _ HC). split_and!; [done|done|lia]. }
  apply Forall2_cons_inv_l in Hc as (v & k & Ha & Hk & Ek). destruct cs as [|c cs]; [done|]. injection Ek as <- <-. cbn [length foldr] in *.
  destruct (Z.eqb_spec a zero) as [->|Hne].
  { pose proof (evals_det _ _ _ _ _ Ha Hz) as Ec. injection Ec as ->. eexists. split; [done|]. cbn. by rewrite (cn_zero _ _ _ HC), zero_r. }
  destruct (Z.eqb_spec a unit_) as [->|Hne2].
  { pose proof (evals_det _ _ _ _ _ Ha Hu) as Ec. injection Ec as ->. rewrite (cn_unit _ _ _ HC). destruct (IH cs operands bs Hk Ho ltac:(lia)) as (f & -> & Hf). exists f. split; [done|].
    destruct f; [|done]. destruct Hf as (bs' & H1 & H2 & H3). exists bs'. split_and!; [done|done|lia]. }
  rewrite (proj2 (Z.ltb_lt _ _)) by (unfold kScratchArgs, kMaxArgs; lia). cbn [require rbind].
  destruct (IH cs (operands ++ [a]) (bs ++ [c]) Hk (bools_snoc _ _ _ _ _ _ Ho Ha)) as (f & -> & Hf); [rewrite length_app; cbn; lia|]. exists f. split; [done|].
  assert (Ec : comb (all (bs ++ [c])) (all cs) = comb (all bs) (comb c (all cs))).
  { rewrite all_app. cbn. rewrite (cn_comm _ _ _ HC c bu), (cn_unit _ _ _ HC), (cn_assoc _ _ _ HC). done. }
  rewrite Ec in Hf. rewrite length_app in Hf. cbn in Hf. destruct f; [|done]. destruct Hf as (bs' & H1 & H2 & H3). exists bs'. split_and!; [done|done|lia].
Qed.

Lemma collect_operands_ok P env unit_ zero inputs : constants P env unit_ zero -> forall cs operands bs, bools (p_nodes P) env inputs cs -> bools (p_nodes P) env operands bs ->
  (length operands + length inputs <= 255)%nat ->
  exists found, collect_operands P op unit_ zero inputs operands = Ok found /\ collected_as (p_nodes P) env (comb (all bs) (all cs)) 255 found.
Proof using HC.
  intros Hk. pose proof Hk as [Hu Hz]. induction inputs as [|a inputs IH]; intros cs operands bs Hc Ho Hn; cbn [collect_operands].
  { apply Forall2_nil_inv_l in Hc. destruct cs; [|done]. eexists. split; [done|]. exists bs. cbn in *. rewrite (cn_comm _ _ _ HC), (cn_unit _ _ _ HC). split_and!; [done|done|lia]. }
  apply Forall2_cons_inv_l in Hc as (v & k & Ha & Hks & Ek). destruct cs as [|c cs]; [done|]. injection Ek as <- <-. cbn [length foldr] in *.
  destruct (Z.eqb_spec a zero) as [->|Hne].
  { pose proof (evals_det _ _ _ _ _ Ha Hz) as Ec. injection Ec as ->. eexists. split; [done|]. cbn. by rewrite (cn_zero _ _ _ HC), zero_r. }
  destruct (Z.eqb_spec a unit_) as [->|Hne2].
  { pose proof (evals_det _ _ _ _ _ Ha Hu) as Ec. injection Ec as ->. rewrite (cn_unit _ _ _ HC). apply IH; [done|done|lia]. }
  destruct (evals_some _ _ _ _ Ha) as [e He]. rewrite (node_at_ok _ _ _ He). cbn [rbind]. unfold kScratchArgs, kMaxArgs, nargs. rewrite (cn_assoc _ _ _ HC).
  destruct (is_op op e && _) eqn:Hop.
  - apply andb_prop in Hop as [Hop%bool_decide_eq_true Hroom%Z.leb_le].
    destruct (evals_inv _ _ _ _ _ He Ha) as [Hat|(_ & vs & Hvs & Hev)]; [rewrite composite_not_atom in Hat by (rewrite Hop; apply HC); done|].
    rewrite Hop in Hev. apply (cn_eval _ _ _ HC) in Hev as (ds & -> & Ec). injection Ec as ->.
    destruct (take_operands_ok P env unit_ zero (e_args e) Hk ds operands bs Hvs Ho ltac:(lia)) as (f & -> & Hf). cbn [rbind]. destruct f as [l|].
    + destruct Hf as (bs' & H1 & H2 & H3). rewrite <- H2. apply IH; [done|done|lia].
    + cbn in Hf. eexists. split; [done|]. cbn. by rewrite Hf, (cn_zero _ _ _ HC).
  - rewrite (proj2 (Z.ltb_lt _ _)) by lia. cbn [require rbind].
    replace (comb (all bs) c) with (all (bs ++ [c])) by (rewrite all_app; cbn; by rewrite (cn_comm _ _ _ HC c bu), (cn_unit _ _ _ HC)).
    apply IH; [done|by apply bools_snoc|rewrite length_app; cbn; lia].
Qed.

Lemma logic_n_ok P env unit_ zero inputs cs : pool_inv P -> constants P env unit_ zero -> bools (p_nodes P) env inputs cs -> (length inputs <= 255)%nat ->
  post P (logic_n P op unit_ zero inputs) (keeps env (VBool (all cs))).
Proof using HG HE HS HC.
  intros HP Hk Hc Hl. unfold logic_n. rewrite (proj2 (Z.leb_le _ _)) by (unfold kScratchArgs, kMaxArgs; lia). cbn [require rbind].
  destruct (collect_operands_ok P env unit_ zero inputs Hk cs [] [] Hc ltac:(constructor) ltac:(done)) as (f & -> & Hf). cbn [rbind foldr] in *. rewrite (cn_unit _ _ _ HC) in Hf.
  destruct Hk as [Hu Hz]. destruct f as [l|]; [|cbn in Hf; rewrite Hf; by apply post_ret]. destruct Hf as (bs & Hb & <- & Hn). destruct l as [|a [|b l]].
  - apply Forall2_nil_inv_l in Hb. destruct bs; [|done]. by apply post_ret.
  - apply Forall2_cons_inv_l in Hb as (v & k & Ha & Hk & Ek). apply Forall2_nil_inv_l in Hk as ->. destruct bs as [|c [|]]; [done| |done]. injection Ek as <-.
    apply post_ret; [done|]. cbn. by rewrite (cn_comm _ _ _ HC), (cn_unit _ _ _ HC).
  - set (ops := a :: b :: l) in *. cbv zeta. pose proof (sort_addresses_perm ops) as Hp. rewrite Hp, (proj2 (Z.leb_le _ _)) by (unfold kScratchArgs, kMaxArgs; lia). cbn [require rbind].
    destruct (Permutation_Forall2 (symmetry Hp) Hb) as (vs & Hvs & Hf). symmetry in Hvs. apply Permutation_map_inv in Hvs as (bs' & -> & Hbs).
    rewrite (all_perm _ _ Hbs). apply (node_value P env op _ _ (VBool <$> bs')); [done|apply HC|apply HC|by compute|done|by rewrite Hp|]. apply (cn_eval _ _ _ HC). by exists bs'.
Qed.

Lemma logic_call P env unit_ zero lhs rhs x y n_ary : pool_inv P -> constants P env unit_ zero -> evals (p_nodes P) env lhs (VBool x) -> evals (p_nodes P) env rhs (VBool y) ->
  post P n_ary (keeps env (VBool (comb x y))) -> post P (logic P unit_ zero lhs rhs n_ary) (keeps env (VBool (comb x y))).
Proof using HC.
  intros HP [Hu Hz] Hx Hy Hn. unfold logic.
  destruct (Z.eqb_spec lhs zero) as [->|H1]; [pose proof (evals_det _ _ _ _ _ Hx Hz) as Ec; injection Ec as ->; rewrite (cn_zero _ _ _ HC); by apply post_ret|].
  destruct (Z.eqb_spec rhs zero) as [->|H2]; [pose proof (evals_det _ _ _ _ _ Hy Hz) as Ec; injection Ec as ->; rewrite zero_r; by apply post_ret|].
  cbn [orb]. destruct (Z.eqb_spec lhs unit_) as [->|H3]; [pose proof (evals_det _ _ _ _ _ Hx Hu) as Ec; injection Ec as ->; rewrite (cn_unit _ _ _ HC); by apply post_ret|].
  destruct (Z.eqb_spec rhs unit_) as [->|H4]; [pose proof (evals_det _ _ _ _ _ Hy Hu) as Ec; injection Ec as ->; rewrite (cn_comm _ _ _ HC), (cn_unit _ _ _ HC); by apply post_ret|].
  destruct (Z.eqb_spec lhs rhs) as [->|H5]; [pose proof (evals_det _ _ _ _ _ Hx Hy) as Ec; injection Ec as ->; rewrite (cn_idem _ _ _ HC); by apply post_ret|done].
Qed.
End Connective.

Lemma and_constants P env : pool_inv P -> constants (bu := true) P env (true_ P) (false_ P).
Proof using Type. intros HP. split; [apply (truth_value P env true HP)|apply (truth_value P env false HP)]. Qed.

Lemma or_constants P env : pool_inv P -> constants (bu := false) P env (false_ P) (true_ P).
Proof using Type. intros HP. split; [apply (truth_value P env false HP)|apply (truth_value P env true HP)]. Qed.

Lemma not_call P env a b : pool_inv P -> evals (p_nodes P) env a (VBool b) -> post P (not_ P a) (keeps env (VBool (negb b))).
Proof.
  intros HP Ha. unfold not_. pose proof (truth_value P env true HP) as Ht. pose proof (truth_value P env false HP) as Hf. cbn [truth] in Ht, Hf.
  destruct (Z.eqb_spec a (true_ P)) as [->|H1]; [pose proof (evals_det _ _ _ _ _ Ha Ht) as Ec; injection Ec as ->; by apply post_ret|].
  destruct (Z.eqb_spec a (false_ P)) as [->|H2]; [pose proof (evals_det _ _ _ _ _ Ha Hf) as Ec; injection Ec as ->; by apply post_ret|].
  destruct (evals_some _ _ _ _ Ha) as [e He]. rewrite (node_at_ok _ _ _ He). cbn [rbind]. destruct (is_op Op.NOT e) eqn:Ho.
  - apply bool_decide_eq_true in Ho. apply post_ret; [done|].
    destruct (evals_inv _ _ _ _ _ He Ha) as [Hat|(_ & vs & Hvs & Hev)]; [unfold eval_atom in Hat; by rewrite Ho in Hat|]. rewrite Ho in Hev.
    destruct vs as [|[|c] [|]]; try done. injection Hev as <-. apply Forall2_cons_inv_r in Hvs as (x & k & Hx & Hk & Ea). rewrite Ea. cbn. by rewrite negb_involutive.
  - apply (node_value P env Op.NOT [a] _ [VBool b]); [done|done|done|by compute|by repeat constructor|cbn; lia|done].
Qed.

(** ** Minimum and maximum *)

(** [pick] takes the first of two values in the order [R]. *)
Record direction (op : Op.t) (pick : Z -> Z -> Z) (R : Z -> Z -> Prop) : Prop := {
  dr_op : is_composite op = true /\ op <> Op.MUL;
  dr_refl x : R x x;
  dr_trans x y z : R x y -> R y z -> R x z;
  dr_anti x y : R x y -> R y x -> x = y;
  dr_pick x y : (pick x y = x \/ pick x y = y) /\ R (pick x y) x /\ R (pick x y) y;
  dr_eval vs : eval_op op vs = (l ← mapM as_int vs; extreme pick l);
}.

Lemma min_direction : direction Op.MIN Z.min Z.le.
Proof using Type. split; try done; intros; lia. Qed.

Lemma max_direction : direction Op.MAX Z.max (fun x y => y <= x).
Proof using Type. split; try done; intros; lia. Qed.

Lemma drop_equal_in last l x : x ∈ drop_equal last l -> x ∈ l.
Proof using Type.
  revert last. induction l as [|a l IH]; intros last; cbn; [done|]. destruct (Z.eqb_spec a last); rewrite ?elem_of_cons; [intros H; right; by eapply IH|].
  intros [->|H]; [by left|right; by eapply IH].
Qed.

Lemma in_drop_equal last l x : x ∈ l -> x = last \/ x ∈ drop_equal last l.
Proof using Type.
  revert last. induction l as [|a l IH]; intros last; cbn; [by intros ?%not_elem_of_nil|]. rewrite elem_of_cons. intros [->|H]; destruct (Z.eqb_spec a last) as [->|Hne]; [by left|right; by left|auto|].
  destruct (IH a H) as [->|H2]; [right; by left|right; by right].
Qed.

Lemma unique_in l x : x ∈ unique l <-> x ∈ l.
Proof using Type.
  destruct l as [|a l]; [done|]. cbn. rewrite !elem_of_cons. split; (intros [->|H]; [by left|]); [right; by eapply drop_equal_in|]. destruct (in_drop_equal a l x H) as [->|H2]; auto.
Qed.

Lemma drop_equal_length last l : (length (drop_equal last l) <= length l)%nat.
Proof using Type. revert last. induction l as [|a l IH]; intros last; cbn; [done|]. destruct (a =? last); cbn; [specialize (IH last)|specialize (IH a)]; lia. Qed.

Lemma unique_length l : (length (unique l) <= length l)%nat.
Proof using Type. destruct l as [|a l]; [done|]. cbn. pose proof (drop_equal_length a l). lia. Qed.

Section Direction.
Context {op : Op.t} {pick : Z -> Z -> Z} {R : Z -> Z -> Prop} (HD : direction op pick R).
#[local] Set Default Proof Using "HG HE HD".

Abbreviation values nodes env l ts := (Forall2 (evals nodes env) l (VInt <$> ts)).

Definition first_of (l : list Z) (v : Z) : Prop := v ∈ l /\ forall x, x ∈ l -> R v x.

Lemma extreme_first l v : extreme pick l = Some (VInt v) <-> first_of l v.
Proof using HD.
  assert (Hf : forall x l, first_of (x :: l) (foldr pick x l)).
  { intros x k. induction k as [|y k [IH1 IH2]]; cbn; [split; [by left|]; intros z [->|Hz%not_elem_of_nil]%elem_of_cons; [apply (dr_refl _ _ _ HD)|done]|].
    destruct (dr_pick _ _ _ HD y (foldr pick x k)) as (Hp & H1 & H2). rewrite elem_of_cons in IH1. split.
    - rewrite !elem_of_cons. destruct Hp as [->| ->]; tauto.
    - intros z. rewrite !elem_of_cons. intros [->|[->|Hz]]; [|done|]; (eapply (dr_trans _ _ _ HD); [exact H2|]); apply IH2; rewrite elem_of_cons; auto. }
  destruct l as [|x l]; cbn; [split; [done|by intros [?%not_elem_of_nil _]]|]. specialize (Hf x l). split; [by intros [= <-]|]. intros [Hv Hall]. destruct Hf as [H1 H2].
  do 2 f_equal. apply (dr_anti _ _ _ HD); [by apply H2|by apply Hall].
Qed.

Lemma first_expand l cs k u v : first_of cs u -> first_of (l ++ u :: k) v -> first_of (l ++ cs ++ k) v.
Proof using HD.
  intros [Hu Hcs] [Hv Hall]. assert (Hvu : R v u) by (apply Hall; rewrite elem_of_app, elem_of_cons; auto). split.
  - rewrite !elem_of_app in *. rewrite elem_of_cons in Hv. destruct Hv as [?|[->|?]]; auto.
  - intros x. rewrite !elem_of_app. intros [Hx|[Hx|Hx]]; [|eapply (dr_trans _ _ _ HD); [exact Hvu|auto]|]; apply Hall; rewrite elem_of_app, elem_of_cons; auto.
Qed.

Lemma flatten_n_ok P env inputs : forall cs args us v, values (p_nodes P) env inputs cs -> values (p_nodes P) env args us -> first_of (us ++ cs) v ->
  (length args + length inputs <= 255)%nat -> exists args' us', flatten_n P op inputs args = Ok args' /\ values (p_nodes P) env args' us' /\ first_of us' v /\ (length args' <= 255)%nat.
Proof using HD.
  induction inputs as [|a inputs IH]; intros cs args us v Hc Ha Hf Hn; cbn [flatten_n].
  { apply Forall2_nil_inv_l in Hc. destruct cs; [|done]. rewrite app_nil_r in Hf. exists args, us. split_and!; [done|done|done|cbn in Hn; lia]. }
  apply Forall2_cons_inv_l in Hc as (w & k & Hw & Hk & Ek). destruct cs as [|c cs]; [done|]. injection Ek as <- <-. cbn [length] in Hn.
  destruct (evals_some _ _ _ _ Hw) as [e He]. rewrite (node_at_ok _ _ _ He). cbn [rbind]. unfold kScratchArgs, kMaxArgs, nargs. destruct (is_op op e && _) eqn:Hop.
  - apply andb_prop in Hop as [Hop%bool_decide_eq_true Hroom%Z.leb_le].
    destruct (evals_inv _ _ _ _ _ He Hw) as [Hat|(_ & vs & Hvs & Hev)]; [rewrite composite_not_atom in Hat by (rewrite Hop; apply HD); done|].
    rewrite Hop, (dr_eval _ _ _ HD) in Hev. destruct (mapM as_int vs) as [ds|] eqn:Eds; [|done]. apply as_int_all in Eds as ->. cbn in Hev. apply extreme_first in Hev.
    apply (IH cs (args ++ e_args e) (us ++ ds) v Hk); [rewrite fmap_app; by apply Forall2_app| |rewrite length_app; lia]. rewrite <- app_assoc. by eapply first_expand.
  - rewrite (proj2 (Z.ltb_lt _ _)) by lia. cbn [require rbind]. apply (IH cs (args ++ [a]) (us ++ [c]) v Hk).
    + rewrite fmap_app. apply Forall2_app; [done|by repeat constructor].
    + by rewrite <- app_assoc.
    + rewrite length_app. cbn. lia.
Qed.

(** The same operands in another arrangement. *)
Lemma same_operands nodes env l l' us v : (forall x, x ∈ l' <-> x ∈ l) -> values nodes env l us -> first_of us v -> exists us', values nodes env l' us' /\ first_of us' v.
Proof using Type.
  intros Hin Hv [Hf Hall]. assert (Hg : forall x, x ∈ l -> exists u, u ∈ us /\ int_value nodes env x u).
  { intros x (i & Hi)%list_elem_of_lookup. destruct (Forall2_lookup_l _ _ _ _ _ Hv Hi) as (w & Hw & Hx). apply list_lookup_fmap_Some in Hw as (u & -> & Hu). exists u. split; [by eapply list_elem_of_lookup_2|done]. }
  assert (Hex : exists us', values nodes env l' us' /\ forall u, u ∈ us' -> u ∈ us).
  { assert (Hl' : forall x, x ∈ l' -> x ∈ l) by (intros x; apply Hin). clear Hin Hf. induction l' as [|x l' IH]; [exists []; split; [constructor|by intros u ?%not_elem_of_nil]|].
    destruct IH as (us' & H1 & H2); [intros y Hy; apply Hl'; by right|]. destruct (Hg x (Hl' x ltac:(by left))) as (u & Hu & Hx). exists (u :: us'). split; [by constructor|].
    intros w [->|Hw]%elem_of_cons; auto. }
  destruct Hex as (us' & H1 & H2). exists us'. split; [done|]. split; [|by intros x Hx; apply Hall, H2].
  apply list_elem_of_lookup in Hf as (i & Hi). destruct (Forall2_lookup_r _ _ _ _ _ Hv (list_lookup_fmap_Some_2 VInt us i v Hi)) as (x & Hx & Hxv).
  apply list_elem_of_lookup_2, Hin, list_elem_of_lookup in Hx as (j & Hj). destruct (Forall2_lookup_l _ _ _ _ _ H1 Hj) as (w & Hw & Hxw). apply list_lookup_fmap_Some in Hw as (u & -> & Hu).
  pose proof (evals_det _ _ _ _ _ Hxv Hxw) as Ec. injection Ec as ->. by eapply list_elem_of_lookup_2.
Qed.

Lemma first_eval l v : first_of l v -> eval_op op (VInt <$> l) = Some (VInt v).
Proof using HD. intros Hf. rewrite (dr_eval _ _ _ HD), (proj2 (as_int_all _ l) eq_refl). cbn. by apply extreme_first. Qed.

Lemma extremum_n_ok P env inputs cs v : pool_inv P -> values (p_nodes P) env inputs cs -> first_of cs v -> (1 <= length inputs <= 255)%nat ->
  post P (extremum_n P op inputs) (keeps env (VInt v)).
Proof using HG HE HS HD.
  intros HP Hc Hf Hl. unfold extremum_n. rewrite (proj2 (Z.eqb_neq _ _)), (proj2 (Z.leb_le _ _)) by (unfold kScratchArgs, kMaxArgs; lia). cbn [negb require rbind].
  destruct (flatten_n_ok P env inputs cs [] [] v Hc ltac:(constructor) Hf ltac:(cbn; lia)) as (args & us & -> & Hv & Hfu & Hn). cbn [rbind].
  assert (Hin : forall x, x ∈ unique (sort_addresses args) <-> x ∈ args) by (intros x; by rewrite unique_in, sort_addresses_perm).
  destruct (same_operands _ _ _ _ _ _ Hin Hv Hfu) as (us' & Hv' & Hfu'). pose proof (unique_length (sort_addresses args)) as Hul. pose proof (Permutation_length (sort_addresses_perm args)) as Hsl.
  assert (Hne : args <> []) by (intros ->; apply Forall2_nil_inv_l in Hv; destruct us; [by destruct Hfu as [?%not_elem_of_nil _]|done]).
  rewrite (proj2 (Z.eqb_neq _ _)) by (destruct args; [done|cbn; lia]). cbn [negb require rbind]. set (kept := unique (sort_addresses args)) in *.
  destruct (Z.eqb_spec (Z.of_nat (length kept)) 1) as [E1|E1].
  - destruct kept as [|a [|]]; cbn in E1; try lia. apply Forall2_cons_inv_l in Hv' as (w & k & Hw & Hk & Ek). apply Forall2_nil_inv_l in Hk as ->.
    destruct us' as [|u [|]]; [done| |done]. injection Ek as <-. destruct Hfu' as [[->|?%not_elem_of_nil]%elem_of_cons _]; [|done]. by apply post_ret.
  - rewrite (proj2 (Z.leb_le _ _)) by (unfold kScratchArgs, kMaxArgs; lia). cbn [require rbind].
    apply (composite_value P env op _ (VInt <$> us')); [done|apply HD|apply HD|done|lia|by apply first_eval].
Qed.

Lemma extremum_call P env lhs rhs x y n_ary : pool_inv P -> int_value (p_nodes P) env lhs x -> int_value (p_nodes P) env rhs y ->
  post P n_ary (keeps env (VInt (pick x y))) -> post P (extremum P pick lhs rhs n_ary) (keeps env (VInt (pick x y))).
Proof.
  intros HP Hx Hy Hn. unfold extremum. destruct (Z.eqb_spec lhs rhs) as [->|Hne].
  { pose proof (evals_det _ _ _ _ _ Hx Hy) as Ec. injection Ec as ->. apply post_ret; [done|]. destruct (dr_pick _ _ _ HD y y) as ([->| ->] & _); done. }
  destruct (evals_some _ _ _ _ Hx) as [l El], (evals_some _ _ _ _ Hy) as [r Er]. rewrite (node_at_ok _ _ _ El), (node_at_ok _ _ _ Er). cbn [rbind].
  destruct (is_op Op.INTEGER l && is_op Op.INTEGER r) eqn:Hii; [|done]. apply andb_prop in Hii as [H1 H2].
  pose proof (evals_integer _ _ _ _ _ El H1 Hx) as E1. pose proof (evals_integer _ _ _ _ _ Er H2 Hy) as E2. injection E1 as ->. injection E2 as ->.
  pose proof (no_shape _ (po_nodes _ (pi_ok _ HP))) as Hs. pose proof (so_payload _ _ (Hs _ _ El)) as F1. pose proof (so_payload _ _ (Hs _ _ Er)) as F2. cbn in F1, F2.
  eapply post_mono; [apply integer_call; [done|]|intros P' a _ _ Ha; by apply int_evals]. unfold INT64_MIN, INT64_MAX. destruct (dr_pick _ _ _ HD (e_payload l) (e_payload r)) as ([->| ->] & _); lia.
Qed.
End Direction.

(** ** Remainders *)

(** The parity flags of a node are true of its value. *)
Definition parity_true (nodes : gmap Z Expr) (a u : Z) : Prop :=
  forall e, nodes !! a = Some e -> (is_even e = true -> u mod 2 = 0) /\ (is_odd e = true -> u mod 2 = 1).

(** The node, when it is a literal, is not negative. *)
Definition literal_nonneg (nodes : gmap Z Expr) (a : Z) : Prop := forall e, nodes !! a = Some e -> is_op Op.INTEGER e = true -> 0 <= e_payload e.

Lemma mod_rules_call P env op f lhs rhs l r x y : pool_inv P -> is_composite op = true -> op <> Op.MUL -> 0 <= f < 2 ^ 16 -> p_nodes P !! lhs = Some l -> p_nodes P !! rhs = Some r ->
  int_value (p_nodes P) env lhs x -> int_value (p_nodes P) env rhs y -> y <> 0 -> parity_true (p_nodes P) lhs x -> eval_op op [VInt x; VInt y] = Some (VInt (x mod y)) ->
  post P (mod_rules P op f lhs rhs l r) (keeps env (VInt (x mod y))).
Proof.
  intros HP Hc Hm Hf El Er Hx Hy Hy0 Hpar Hev. unfold mod_rules.
  assert (Hir : forall n, is_int n r = true -> y = n) by (intros n [Ho Hp]%is_int_payload; pose proof (evals_integer _ _ _ _ _ Er Ho Hy) as H; injection H as ->; done).
  assert (Hil : forall n, is_int n l = true -> x = n) by (intros n [Ho Hp]%is_int_payload; pose proof (evals_integer _ _ _ _ _ El Ho Hx) as H; injection H as ->; done).
  destruct (is_zero_int l || _ || _) eqn:Hz.
  { assert (E0 : x mod y = 0).
    { apply orb_prop in Hz as [[Hz|Hz%Z.eqb_eq]%orb_prop|Hz]; [rewrite (Hil _ Hz); by apply Zmod_0_l| |rewrite (Hir _ Hz); apply Z.mod_1_r].
      subst rhs. pose proof (evals_det _ _ _ _ _ Hx Hy) as Ec. injection Ec as ->. by apply Z.mod_same. }
    rewrite E0. apply (integer_value P env _ 0); [done|done|by compute]. }
  destruct (Hpar l El) as [He Ho]. destruct (is_int 2 r && is_even l) eqn:H1.
  { apply andb_prop in H1 as [H1 H2]. rewrite (Hir _ H1), He by done. apply (integer_value P env _ 0); [done|done|by compute]. }
  destruct (is_int 2 r && is_odd l) eqn:H2.
  { apply andb_prop in H2 as [H2 H3]. rewrite (Hir _ H2), Ho by done. apply (integer_value P env _ 1); [done|done|by compute]. }
  apply (node_value P env op _ _ [VInt x; VInt y]); [done|done|done|done|by repeat constructor|cbn; lia|done].
Qed.

Lemma literal_value nodes env a e x : nodes !! a = Some e -> int_value nodes env a x -> is_op Op.INTEGER e = true -> x = e_payload e.
Proof using Type. intros He Hx Ho. by injection (evals_integer _ _ _ _ _ He Ho Hx). Qed.

Lemma payload_range P a e : pool_inv P -> p_nodes P !! a = Some e -> - 2 ^ 63 <= e_payload e < 2 ^ 63.
Proof using Type. intros HP He. apply (so_payload _ _ (no_shape _ (po_nodes _ (pi_ok _ HP)) _ _ He)). Qed.

(** mod keeps the value when the dividend is not a negative literal. *)
Lemma mod_call P env lhs rhs x y : pool_inv P -> int_value (p_nodes P) env lhs x -> int_value (p_nodes P) env rhs y -> literal_nonneg (p_nodes P) lhs -> 0 < y -> parity_true (p_nodes P) lhs x ->
  post P (mod_ P lhs rhs) (keeps env (VInt (x mod y))).
Proof.
  intros HP Hx Hy Hx0 Hy0 Hpar. unfold mod_. destruct (evals_some _ _ _ _ Hx) as [l El], (evals_some _ _ _ _ Hy) as [r Er]. rewrite (node_at_ok _ _ _ El), (node_at_ok _ _ _ Er). cbn [rbind].
  destruct (literals l r && _) eqn:Hlit.
  - apply andb_prop in Hlit as [[H1 H2]%andb_prop _]. specialize (Hx0 l El H1).
    rewrite <- (literal_value _ _ _ _ _ El Hx H1) in *. rewrite <- (literal_value _ _ _ _ _ Er Hy H2). rewrite Z.rem_mod_nonneg by lia.
    pose proof (payload_range P _ _ HP Er) as Hr. rewrite <- (literal_value _ _ _ _ _ Er Hy H2) in Hr. pose proof (Z.mod_pos_bound x y Hy0).
    apply (integer_value P env _ y); [done|lia|unfold INT64_MAX; lia].
  - eapply mod_rules_call; try done; [lia|]. cbn. by rewrite (proj2 (Z.ltb_lt _ _) Hy0).
Qed.

Lemma signs_differ_spec x y : signs_differ x y = true <-> (0 <= x /\ y < 0) \/ (x < 0 /\ 0 <= y).
Proof using Type. unfold signs_differ. rewrite Z.ltb_lt. pose proof (Z.lxor_nonneg x y). lia. Qed.

Lemma python_mod_fold_spec x y : y <> 0 -> - 2 ^ 63 <= y < 2 ^ 63 -> python_mod_fold x y = x mod y.
Proof using Type.
  intros Hy Hr. unfold python_mod_fold. pose proof (signs_differ_spec (Z.rem x y) y) as Hs. pose proof (Z.quot_rem' x y) as Hq. pose proof (Z.rem_bound_abs x y Hy) as Hb.
  pose proof (Z.div_mod x y Hy) as Hd. assert (Hu : forall r q, x = y * q + r -> (0 <= r < y \/ y < r <= 0) -> r = x mod y) by (intros r q E0 Hrr; by apply (Z.mod_unique x y q)).
  destruct (Z.eqb_spec (Z.rem x y) 0) as [E0|E0]; cbn [negb andb].
  - rewrite E0 in *. apply (Hu 0 (Z.quot x y)); lia.
  - destruct (signs_differ (Z.rem x y) y).
    + unfold add_sat64. rewrite clamp_exact by (unfold INT64_MAX; lia). apply (Hu (Z.rem x y + y) (Z.quot x y - 1)); lia.
    + apply (Hu (Z.rem x y) (Z.quot x y)); [lia|]. assert (~ (0 <= Z.rem x y /\ y < 0 \/ Z.rem x y < 0 /\ 0 <= y)) by (intros H; by apply Hs in H). lia.
Qed.

Lemma python_mod_call P env lhs rhs x y : pool_inv P -> int_value (p_nodes P) env lhs x -> int_value (p_nodes P) env rhs y -> y <> 0 -> parity_true (p_nodes P) lhs x ->
  post P (python_mod P lhs rhs) (keeps env (VInt (x mod y))).
Proof.
  intros HP Hx Hy Hy0 Hpar. unfold python_mod. destruct (evals_some _ _ _ _ Hx) as [l El], (evals_some _ _ _ _ Hy) as [r Er]. rewrite (node_at_ok _ _ _ El), (node_at_ok _ _ _ Er). cbn [rbind].
  destruct (literals l r && _) eqn:Hlit.
  - apply andb_prop in Hlit as [[H1 H2]%andb_prop _]. pose proof (payload_range P _ _ HP Er) as Hr.
    rewrite <- (literal_value _ _ _ _ _ El Hx H1), <- (literal_value _ _ _ _ _ Er Hy H2) in *. rewrite python_mod_fold_spec by done.
    pose proof (Z.mod_pos_bound x y). pose proof (Z.mod_neg_bound x y). eapply post_mono; [apply integer_call; [done|unfold INT64_MIN, INT64_MAX; lia]|intros P' a _ _ Ha; by apply int_evals].
  - eapply mod_rules_call; try done. cbn. by rewrite (proj2 (Z.eqb_neq _ _) Hy0).
Qed.
End Values.
