(* ===== verification/ExprTheorems.v ===== *)
(** * ExprTheorems.v: the factory keeps the value of an expression

    The property of make over every operation with a value whose constructor
    is total, its witness, and the divisions of the pool that do not keep the
    value. *)

From stdpp Require Import base list strings gmap sorting.
From Stdlib Require Import ZArith Lia.
From S2P Require Import Prelude.
From S2P Require Import Types.
From S2P Require Import Hash.
From S2P Require Import Arena.
From S2P Require Import SwissTable.
From S2P Require Import Expr.
From S2P Require Import ExprPool.
From S2P Require Import InternTable.
From S2P Require Import InternTheorems.
From S2P Require Import ExprOps.
From S2P Require Import ExprEval.
From S2P Require Import ExprArith.
From S2P Require Import ExprLogic.
#[local] Open Scope Z_scope.
#[local] Open Scope result_scope.

(** ** A sort *)

Definition base_le (p q : Z * Z) : Prop := p.2 <= q.2.
#[local] Instance base_le_dec p q : Decision (base_le p q).
Proof. unfold base_le. apply _. Defined.
#[local] Instance base_le_total : Total base_le.
Proof. intros p q. unfold base_le. lia. Qed.

#[export] Instance merge_sorts : AddressSort := {| sort_addresses := merge_sort Z.le; sort_bases := merge_sort base_le |}.

#[export] Instance merge_sorts_ok : AddressSortOk merge_sorts.
Proof.
  split; intros l; cbn; [apply merge_sort_Permutation|apply Sorted_merge_sort, _|apply merge_sort_Permutation|apply (Sorted_merge_sort base_le)].
Qed.

(** ** The requests of the property *)

Section Make.
Context `{G : CtrlGroup} {HG : CtrlGroupOk G} `{E : ExprArena} {HE : ExprArenaOk E} `{S : AddressSort} {HS : AddressSortOk S} `{N : NanBits}.
#[local] Set Default Proof Using "HG HE HS".

(** What the operands meet: the weights of a sum or a product bound the
    constants that it folds, a power fits in 64 bits, the dividend of MOD is not
    a negative literal, and the parity flags of a dividend are true of its value.
    The relations, the logic, the conditional, the minimum and the maximum ask
    for nothing; the divisions are not among the operations. *)
Definition request_ok (nodes : gmap Z Expr) (op : Op.t) (args : list Z) (vs : list value) : Prop :=
  match op with
  | Op.ADD | Op.NEG => exists ws, Forall2 (weighs nodes) args ws /\ sum_of ws <= INT64_MAX
  | Op.MUL => exists ws, Forall2 (weighs nodes) args ws /\ product_of ws <= INT64_MAX
  | Op.POW => match vs with [VInt u; VInt n] => Z.abs u ^ n <= INT64_MAX | _ => False end
  | Op.MOD => match vs with [VInt x; _] => literal_nonneg nodes (aget 0 args 0) /\ parity_true nodes (aget 0 args 0) x | _ => False end
  | Op.PYTHON_MOD => match vs with [VInt x; _] => parity_true nodes (aget 0 args 0) x | _ => False end
  | Op.EQ | Op.NE | Op.LT | Op.LE | Op.GT | Op.GE | Op.AND | Op.OR | Op.NOT | Op.WHERE | Op.MIN | Op.MAX => True
  | _ => False
  end.

Abbreviation keeps env v := (fun P' a => evals (p_nodes P') env a v).

Lemma two_args nodes env args v w : Forall2 (evals nodes env) args [v; w] -> exists a b, args = [a; b] /\ evals nodes env a v /\ evals nodes env b w.
Proof using Type.
  intros H. apply Forall2_cons_inv_r in H as (a & k & Ha & H & ->). apply Forall2_cons_inv_r in H as (b & k2 & Hb & H & ->). apply Forall2_nil_inv_r in H as ->. eauto.
Qed.

Lemma one_arg nodes env args v : Forall2 (evals nodes env) args [v] -> exists a, args = [a] /\ evals nodes env a v.
Proof using Type. intros H. apply Forall2_cons_inv_r in H as (a & k & Ha & H & ->). apply Forall2_nil_inv_r in H as ->. eauto. Qed.

(** The two-operand form of an n-ary operation, and the general form. *)
Lemma two_or_more {A} (args : list Z) (two more : A) (Q : A -> Prop) :
  (forall a b, args = [a; b] -> Q two) -> (length args <> 2%nat -> Q more) -> Q (if Z.of_nat (length args) =? 2 then two else more).
Proof using Type.
  intros H1 H2. destruct (Z.eqb_spec (Z.of_nat (length args)) 2) as [E2|E2]; [|apply H2; lia]. destruct args as [|a [|b [|]]]; cbn in E2; try lia. by eapply H1.
Qed.

Lemma in_band_length op (args : list Z) : in_band op (Z.of_nat (length args)) = true -> (length args <= 255)%nat /\ (op_arity_band op = mkBand 1 kMaxArgs -> (1 <= length args)%nat).
Proof using Type.
  unfold in_band. intros [H1%Z.leb_le H2%Z.leb_le]%andb_prop. split; [destruct op; cbn in H1, H2; unfold kMaxArgs in *; lia|]. intros Eb. rewrite Eb in H1. cbn in H1. lia.
Qed.

Lemma make_sum fuel P env args vs v : pool_inv P -> Forall2 (evals (p_nodes P) env) args vs -> eval_op Op.ADD vs = Some v -> in_band Op.ADD (Z.of_nat (length args)) = true ->
  request_ok (p_nodes P) Op.ADD args vs -> post P (make_raw_ fuel P Op.ADD args) (keeps env v).
Proof.
  intros HP Hv Ho Hb (ws & Hw & Hs). unfold make_raw_. rewrite Hb. cbn [require rbind]. destruct (in_band_length _ _ Hb) as [Hl _]. apply fo_eval_inv in Ho as (l & El & ->).
  apply as_int_all in El as ->. destruct (zip_terms _ _ _ _ _ Hv Hw) as (Ht & E1 & E2). apply two_or_more.
  - intros a b ->. apply Forall2_cons_inv_l in Ht as ([u w1] & k & Hu & Ht & Ez). apply Forall2_cons_inv_l in Ht as ([x w2] & k2 & Hx & Ht & ->). apply Forall2_nil_inv_l in Ht as ->.
    rewrite Ez in E1, E2. cbn in E1, E2. subst l ws. cbn in Hs |- *. rewrite Z.add_0_r. apply (add_call P env a b u x w1 w2); [done|done|done|cbn in Hs; lia].
  - intros _. rewrite <- E1. apply add_n_ok; [done|done|by rewrite E2|done].
Qed.

Lemma make_product fuel P env args vs v : pool_inv P -> Forall2 (evals (p_nodes P) env) args vs -> eval_op Op.MUL vs = Some v -> in_band Op.MUL (Z.of_nat (length args)) = true ->
  request_ok (p_nodes P) Op.MUL args vs -> post P (make_raw_ fuel P Op.MUL args) (keeps env v).
Proof.
  intros HP Hv Ho Hb (ws & Hw & Hs). unfold make_raw_. rewrite Hb. cbn [require rbind]. destruct (in_band_length _ _ Hb) as [Hl _]. apply fo_eval_inv in Ho as (l & El & ->).
  apply as_int_all in El as ->. destruct (zip_terms _ _ _ _ _ Hv Hw) as (Ht & E1 & E2). apply two_or_more.
  - intros a b ->. apply Forall2_cons_inv_l in Ht as ([u w1] & k & Hu & Ht & Ez). apply Forall2_cons_inv_l in Ht as ([x w2] & k2 & Hx & Ht & ->). apply Forall2_nil_inv_l in Ht as ->.
    rewrite Ez in E1, E2. cbn in E1, E2. subst l ws. cbn in Hs |- *. rewrite Z.mul_1_r. apply (mul_call P env a b u x w1 w2); [done|done|done|cbn in Hs; lia].
  - intros _. rewrite <- E1. apply mul_n_ok; [done|done|by rewrite E2|done].
Qed.

Lemma make_logic fuel P env op comb bu args vs v : connective op comb bu -> op = Op.AND /\ comb = andb /\ bu = true \/ op = Op.OR /\ comb = orb /\ bu = false ->
  pool_inv P -> Forall2 (evals (p_nodes P) env) args vs -> eval_op op vs = Some v -> in_band op (Z.of_nat (length args)) = true -> post P (make_raw_ fuel P op args) (keeps env v).
Proof.
  intros HC Hop HP Hv Ho Hb. unfold make_raw_. rewrite Hb. cbn [require rbind]. destruct (in_band_length _ _ Hb) as [Hl _]. apply (cn_eval _ _ _ HC) in Ho as (l & -> & ->).
  assert (Hn : forall unit_ zero, constants (bu := bu) P env unit_ zero -> post P (logic_n P op unit_ zero args) (keeps env (VBool (foldr comb bu l)))) by (intros; by apply (logic_n_ok HC)).
  assert (H2 : forall a b unit_ zero, args = [a; b] -> constants (bu := bu) P env unit_ zero -> post P (logic P unit_ zero a b (logic_n P op unit_ zero [a; b])) (keeps env (VBool (foldr comb bu l)))).
  { intros a b unit_ zero -> Hk. apply Forall2_cons_inv_l in Hv as (x & k & Hx & Hk2 & Ez). apply Forall2_cons_inv_l in Hk2 as (y & k2 & Hy & Hk3 & ->). apply Forall2_nil_inv_l in Hk3 as ->.
    destruct l as [|p [|q [|]]]; try done. injection Ez as <- <-. specialize (Hn unit_ zero Hk). cbn [foldr] in Hn |- *. rewrite (cn_comm _ _ _ HC q bu), (cn_unit _ _ _ HC) in Hn |- *.
    by apply (logic_call HC). }
  destruct Hop as [(-> & -> & ->)|(-> & -> & ->)]; apply two_or_more.
  - intros a b Eab. rewrite Eab. apply H2; [done|by apply and_constants].
  - intros _. by apply Hn, and_constants.
  - intros a b Eab. rewrite Eab. apply H2; [done|by apply or_constants].
  - intros _. by apply Hn, or_constants.
Qed.

Lemma make_extremum fuel P env op pick R args vs v : direction op pick R -> op = Op.MIN /\ pick = Z.min \/ op = Op.MAX /\ pick = Z.max ->
  pool_inv P -> Forall2 (evals (p_nodes P) env) args vs -> eval_op op vs = Some v -> in_band op (Z.of_nat (length args)) = true -> post P (make_raw_ fuel P op args) (keeps env v).
Proof.
  intros HD Hop HP Hv Ho Hb. unfold make_raw_. rewrite Hb. cbn [require rbind]. destruct (in_band_length _ _ Hb) as [Hl Hl1]. rewrite (dr_eval _ _ _ HD) in Ho.
  destruct (mapM as_int vs) as [l|] eqn:El; [|done]. apply as_int_all in El as ->. cbn in Ho. destruct l as [|x l]; [done|]. pose proof Ho as Ho'. cbn in Ho'. injection Ho' as <-.
  apply (extreme_first HD) in Ho. assert (Hn : post P (extremum_n P op args) (keeps env (VInt (foldr pick x l)))).
  { apply (extremum_n_ok HD P env args (x :: l)); [done|done|done|]. split; [apply Hl1; by destruct Hop as [[-> _]|[-> _]]|done]. }
  assert (H2 : forall a b, args = [a; b] -> post P (extremum P pick a b (extremum_n P op args)) (keeps env (VInt (foldr pick x l)))).
  { intros a b ->. apply Forall2_cons_inv_l in Hv as (z & k & Hx & Hk2 & Ez). apply Forall2_cons_inv_l in Hk2 as (y & k2 & Hy & Hk3 & ->). apply Forall2_nil_inv_l in Hk3 as ->.
    destruct l as [|q [|]]; try done. injection Ez as <- <-. cbn [foldr] in *. assert (Ec : pick q x = pick x q) by (destruct Hop as [[_ ->]|[_ ->]]; lia). rewrite Ec in *. by apply (extremum_call HD). }
  destruct Hop as [(-> & ->)|(-> & ->)]; (apply two_or_more; [intros a b Eab; pose proof (H2 a b Eab) as H; by rewrite Eab in H |- *|done]).
Qed.

(** ** Symbols *)

Lemma inv_symbols P names exprs : pool_inv P -> pool_inv (set_symbols P names exprs).
Proof using Type. intros [[? ? ? ? ? ?] [? ? ?] ?]. split; [by split|by split|done]. Qed.

Lemma inv_arena P st live : pool_inv P -> ea_inv st live -> (forall a, is_Some (p_nodes P !! a) -> a ∈ live) -> pool_inv (set_nodes P st (p_nodes P)).
Proof using Type. intros [[? ? ? ? ? _] [? ? ?] ?] Hinv Hl. split; [split; try done; by exists live|by split|done]. Qed.

Lemma resize_get {A} (l : list A) n d i : Z.of_nat (length l) <= n -> 0 <= i -> aget d (resize l n d) i = aget d l i.
Proof using Type.
  intros Hl Hi. unfold resize, aget. rewrite take_ge by lia. destruct (decide (Z.to_nat i < length l)%nat); [by rewrite lookup_app_l|].
  rewrite lookup_app_r, (lookup_ge_None_2 l) by lia. destruct (_ !! _) as [x|] eqn:Ex; [by apply lookup_replicate in Ex as [-> _]|done].
Qed.

Lemma resize_length {A} (l : list A) n d : Z.of_nat (length l) <= n -> Z.of_nat (length (resize l n d)) = n.
Proof using Type. intros Hl. unfold resize. rewrite length_app, length_replicate, length_take. lia. Qed.

(** A table with room for [id]: as long as it was, or one more than [id]. *)
Definition with_room {A} (l : list A) (id : Z) (d : A) : list A := if Z.of_nat (length l) <=? id then resize l (u32 (id + 1)) d else l.

Lemma with_room_ok {A} (l : list A) id d : 0 <= id < 2 ^ 32 - 1 -> id < Z.of_nat (length (with_room l id d)) /\ forall i, 0 <= i -> aget d (with_room l id d) i = aget d l i.
Proof using Type.
  intros Hid. unfold with_room. destruct (Z.leb_spec (Z.of_nat (length l)) id); [|split; [lia|done]]. rewrite wrap_small by lia.
  split; [rewrite resize_length; lia|]. intros i Hi. apply resize_get; lia.
Qed.

(** The failures of symbol: those of interning, and no memory for the name. *)
Definition symbol_failure (why : string) : Prop := intern_failure why \/ exists st n, ea_alloc st n 1 = Fatal why.

Lemma fast_symbol_get P id : fast_symbol P id = if id <? Z.of_nat (length (symbol_exprs_ P)) then aget 0 (symbol_exprs_ P) id else 0.
Proof using Type. unfold fast_symbol. destruct (_ <? _); [|done]. cbn. by destruct (Z.eqb_spec (aget 0 (symbol_exprs_ P) id) 0) as [->|]. Qed.

Lemma aget_ge {A} (d : A) l i : Z.of_nat (length l) <= i -> aget d l i = d.
Proof using Type. intros H. unfold aget. by rewrite lookup_ge_None_2 by lia. Qed.

Lemma fast_symbol_aget P id : 0 <= id -> fast_symbol P id = aget 0 (symbol_exprs_ P) id.
Proof using Type. intros Hid. rewrite fast_symbol_get. destruct (Z.ltb_spec id (Z.of_nat (length (symbol_exprs_ P)))); [done|]. by rewrite aget_ge. Qed.

Lemma symbol_flags_range f : 0 <= f < 2 ^ 16 -> 0 <= Z.lor f ExprFlags.IS_SYMBOL < 2 ^ 16.
Proof using Type.
  intros Hf. assert (H0 : 0 <= Z.lor f ExprFlags.IS_SYMBOL) by (apply Z.lor_nonneg; split; [lia|by compute]). split; [done|].
  destruct (Z.eq_dec (Z.lor f ExprFlags.IS_SYMBOL) 0) as [->|]; [lia|]. apply Z.log2_lt_pow2; [lia|]. rewrite Z.log2_lor by (done || lia). apply Z.max_lub_lt; [|by compute].
  destruct (Z.eq_dec f 0) as [->|]; [by compute|]. apply Z.log2_lt_pow2; lia.
Qed.

Lemma to_i64_range x : - 2 ^ 63 <= to_i64 x < 2 ^ 63.
Proof using Type. unfold to_i64. pose proof (Z.mod_pos_bound (x + 2 ^ 63) (2 ^ 64)). lia. Qed.

(** The second half of symbol: the node and its entry. *)
Lemma symbol_tail P id f p : pool_inv P -> 0 <= id < 2 ^ 32 - 1 -> 0 <= f < 2 ^ 16 ->
  match (let* '(a, P) := intern_node P (atom Op.SYMBOL (Z.lor f ExprFlags.IS_SYMBOL) id (to_i64 p)) in
         Ok (a, set_symbols P (symbol_names_ P) (aset (with_room (symbol_exprs_ P) id 0) id a))) with
  | Ok (a, P') => pool_inv P' /\ p_nodes P ⊆ p_nodes P' /\ (forall env, evals (p_nodes P') env a (VInt (env id))) /\ symbol_names_ P' = symbol_names_ P /\
      forall i, 0 <= i -> fast_symbol P' i = if decide (i = id) then a else fast_symbol P i
  | Fatal why => intern_failure why
  end.
Proof using HG HE.
  intros HP Hid Hf. pose proof (intern_call P (atom Op.SYMBOL (Z.lor f ExprFlags.IS_SYMBOL) id (to_i64 p)) HP) as H.
  assert (Hs : shape_ok (p_nodes P) (atom Op.SYMBOL (Z.lor f ExprFlags.IS_SYMBOL) id (to_i64 p))) by (apply atom_ok; [by apply symbol_flags_range|lia|apply to_i64_range]).
  specialize (H Hs ltac:(done)). destruct (intern_node P _) as [[a P']|why]; cbn [rbind]; [|done]. destruct H as (HP' & Hsub & (Hn & Hx & _) & Hi).
  split_and!; [by apply inv_symbols|done| |by cbn|].
  - intros env. destruct (interned_op _ _ _ Hi) as (e & He & Eo & _). destruct Hi as (e' & He' & Es). rewrite He in He'. injection He' as <-. eapply evals_atom; [exact He|].
    unfold eval_atom. cbn in Eo. rewrite Eo. apply (f_equal sh_symbol) in Es. cbn in Es. by rewrite Es.
  - intros i Hi0. rewrite !fast_symbol_aget by done. cbn. rewrite Hx. destruct (with_room_ok (symbol_exprs_ P) id 0 Hid) as [Hl Hg]. rewrite aget_aset by lia.
    rewrite Hg by done. repeat case_decide; congruence.
Qed.

Lemma symbol_call P name id f : pool_inv P -> 0 <= id < 2 ^ 32 - 1 -> 0 <= f < 2 ^ 16 -> Z.of_nat (String.length name) < 2 ^ 31 ->
  match symbol P name id f with
  | Ok (a, P') => pool_inv P' /\ p_nodes P ⊆ p_nodes P' /\ (forall env, evals (p_nodes P') env a (VInt (env id))) /\
      (forall i, 0 <= i -> fast_symbol P' i = if decide (i = id) then a else fast_symbol P i) /\
      snd <$> symbol_name P' id = Some (from_option snd name (symbol_name P id))
  | Fatal why => symbol_failure why
  end.
Proof using HG HE.
  intros HP Hid Hf Hlen. unfold symbol. fold (with_room (symbol_names_ P) id (None : option (Z * string))). destruct (with_room_ok (symbol_names_ P) id None Hid) as [Hl Hg].
  assert (Hname : symbol_name P id = aget None (symbol_names_ P) id) by (unfold symbol_name; destruct (Z.ltb_spec id (Z.of_nat (length (symbol_names_ P)))); [done|by rewrite aget_ge]).
  rewrite Hg by lia. rewrite Hname. destruct (aget None (symbol_names_ P) id) as [[p n]|] eqn:En; cbn [rbind].
  - pose proof (symbol_tail (set_symbols (set_nodes P (p_arena P) (p_nodes P)) (with_room (symbol_names_ P) id None) (symbol_exprs_ P)) id f p) as H.
    rewrite Hg, En by lia. cbn [from_option fst]. destruct (po_arena _ (pi_ok _ HP)) as (live & Hinv & Hlv). specialize (H (inv_symbols _ _ _ (inv_arena P _ live HP Hinv Hlv)) Hid Hf).
    destruct (rbind _ _) as [[a P']|why]; [|by left]. destruct H as (H1 & H2 & H3 & H4 & H5). split_and!; [done|done|done|done|].
    unfold symbol_name. rewrite H4. cbn. rewrite (proj2 (Z.ltb_lt _ _) Hl), Hg, En by lia. done.
  - destruct (ea_alloc (p_arena P) _ 1) as [[p st]|why] eqn:Ea; cbn [rbind]; [|right; eauto]. destruct (po_arena _ (pi_ok _ HP)) as (live & Hinv & Hlv).
    assert (Hsize : 0 < Z.of_nat (String.length name) + 1 < 2 ^ 32) by lia. destruct (ea_fresh _ _ _ 1 _ _ Hinv Hsize (or_introl eq_refl) Ea) as (_ & _ & Hinv').
    pose proof (symbol_tail (set_symbols (set_nodes P st (p_nodes P)) (aset (with_room (symbol_names_ P) id None) id (Some (p, name))) (symbol_exprs_ P)) id f p) as H.
    rewrite aget_aset, decide_True by lia. cbn [from_option fst]. specialize (H (inv_symbols _ _ _ (inv_arena P _ (p :: live) HP Hinv' (fun a Ha => list_elem_of_further a p live (Hlv a Ha)))) Hid Hf).
    destruct (rbind _ _) as [[a P']|why]; [|by left]. destruct H as (H1 & H2 & H3 & H4 & H5). split_and!; [done|done|done|done|].
    unfold symbol_name. rewrite H4. cbn. rewrite length_aset, (proj2 (Z.ltb_lt _ _) Hl), aget_aset, decide_True by lia. done.
Qed.

Lemma make_unary fuel P env op args x : Forall2 (evals (p_nodes P) env) args [x] -> in_band op (Z.of_nat (length args)) = true -> op = Op.NEG \/ op = Op.NOT ->
  exists a, args = [a] /\ evals (p_nodes P) env a x /\ make_raw_ fuel P op args = if decide (op = Op.NEG) then neg P a else not_ P a.
Proof using Type.
  intros Hv Hb Hop. destruct (one_arg _ _ _ _ Hv) as (a & -> & Ha). exists a. split; [done|]. split; [done|]. unfold make_raw_. rewrite Hb. by destruct Hop as [->| ->].
Qed.

Lemma make_neg fuel P env args vs v : pool_inv P -> Forall2 (evals (p_nodes P) env) args vs -> eval_op Op.NEG vs = Some v -> in_band Op.NEG (Z.of_nat (length args)) = true ->
  request_ok (p_nodes P) Op.NEG args vs -> post P (make_raw_ fuel P Op.NEG args) (keeps env v).
Proof.
  intros HP Hv Ho Hb (ws & Hw & Hs). destruct vs as [|[u|] [|]]; try done. injection Ho as <-. destruct (make_unary fuel _ _ _ _ _ Hv Hb ltac:(by left)) as (a & -> & Ha & ->).
  rewrite decide_True by done. apply Forall2_cons_inv_l in Hw as (w & k & Hw & Hk & ->). apply Forall2_nil_inv_l in Hk as ->. cbn in Hs. apply (neg_call P env a u w); [done|by split|lia].
Qed.

Lemma make_not fuel P env args vs v : pool_inv P -> Forall2 (evals (p_nodes P) env) args vs -> eval_op Op.NOT vs = Some v -> in_band Op.NOT (Z.of_nat (length args)) = true ->
  post P (make_raw_ fuel P Op.NOT args) (keeps env v).
Proof using HG HE.
  intros HP Hv Ho Hb. destruct vs as [|[|b] [|]]; try done. injection Ho as <-. destruct (make_unary fuel _ _ _ _ _ Hv Hb ltac:(by right)) as (a & -> & Ha & ->).
  rewrite decide_False by done. by apply not_call.
Qed.

(** The constructors of two operands that are not n-ary. *)
Definition binary (P : ExprPool) (op : Op.t) (a b : Z) : option (result (Z * ExprPool)) :=
  match op with
  | Op.POW => Some (pow P a b) | Op.MOD => Some (mod_ P a b) | Op.PYTHON_MOD => Some (python_mod P a b)
  | Op.EQ => Some (eq P a b) | Op.NE => Some (ne P a b) | Op.LT => Some (lt P a b) | Op.LE => Some (le P a b) | Op.GT => Some (gt P a b) | Op.GE => Some (ge P a b)
  | _ => None
  end.

Lemma make_binary fuel P op a b r : binary P op a b = Some r -> make_raw_ fuel P op [a; b] = r.
Proof using Type. unfold make_raw_. destruct op; cbn [binary]; intros Er; try discriminate Er; injection Er as <-; reflexivity. Qed.

Lemma binary_keeps P env op a b x y v : pool_inv P -> evals (p_nodes P) env a (VInt x) -> evals (p_nodes P) env b (VInt y) -> eval_op op [VInt x; VInt y] = Some v ->
  request_ok (p_nodes P) op [a; b] [VInt x; VInt y] -> match binary P op a b with Some r => post P r (keeps env v) | None => True end.
Proof using HG HE.
  intros HP Ha Hb Ho Hr. destruct op; cbn in Ho, Hr |- *; try exact I.
  - destruct (Z.leb_spec 0 y); [|done]. injection Ho as <-. by apply pow_call.
  - injection Ho as <-. apply (relation_call P env Op.EQ true Z.eqb (ordered a b) a b x y HP eq_refl ltac:(discriminate) (fun vs => eq_refl)); [intros; apply Z.eqb_refl|right; split; [done|intros; apply Z.eqb_sym]|exact Ha|exact Hb].
  - injection Ho as <-. apply (relation_call P env Op.NE false (fun x y => negb (x =? y)) (ordered a b) a b x y HP eq_refl ltac:(discriminate) (fun vs => eq_refl)); [intros; by rewrite Z.eqb_refl|right; split; [done|intros; by rewrite Z.eqb_sym]|exact Ha|exact Hb].
  - injection Ho as <-. apply (relation_call P env Op.LT false Z.ltb [a; b] a b x y HP eq_refl ltac:(discriminate) (fun vs => eq_refl)); [intros; apply Z.ltb_irrefl|by left|exact Ha|exact Hb].
  - injection Ho as <-. apply (relation_call P env Op.LE true Z.leb [a; b] a b x y HP eq_refl ltac:(discriminate) (fun vs => eq_refl)); [intros; apply Z.leb_refl|by left|exact Ha|exact Hb].
  - injection Ho as <-. apply (relation_call P env Op.GT false Z.gtb [a; b] a b x y HP eq_refl ltac:(discriminate) (fun vs => eq_refl)); [intros; rewrite Z.gtb_ltb; apply Z.ltb_irrefl|by left|exact Ha|exact Hb].
  - injection Ho as <-. apply (relation_call P env Op.GE true Z.geb [a; b] a b x y HP eq_refl ltac:(discriminate) (fun vs => eq_refl)); [intros; rewrite Z.geb_leb; apply Z.leb_refl|by left|exact Ha|exact Hb].
  - destruct (Z.ltb_spec 0 y); [|done]. injection Ho as <-. destruct Hr as [Hr1 Hr2]. by apply mod_call.
  - destruct (Z.eqb_spec y 0); [done|]. injection Ho as <-. by apply python_mod_call.
Qed.

Lemma binary_values op vs v : op ∈ [Op.POW; Op.EQ; Op.NE; Op.LT; Op.LE; Op.GT; Op.GE; Op.MOD; Op.PYTHON_MOD] -> eval_op op vs = Some v -> exists x y, vs = [VInt x; VInt y].
Proof using Type.
  intros Hop Ho. repeat (apply elem_of_cons in Hop as [->|Hop]; [destruct vs as [|[x|] [|[y|] [|]]]; try done; by exists x, y|]). by apply elem_of_nil in Hop.
Qed.

Lemma make_two fuel P env op args vs v : op ∈ [Op.POW; Op.EQ; Op.NE; Op.LT; Op.LE; Op.GT; Op.GE; Op.MOD; Op.PYTHON_MOD] ->
  pool_inv P -> Forall2 (evals (p_nodes P) env) args vs -> eval_op op vs = Some v -> request_ok (p_nodes P) op args vs -> post P (make_raw_ fuel P op args) (keeps env v).
Proof using HG HE.
  intros Hop HP Hv Ho Hr. destruct (binary_values op vs v Hop Ho) as (x & y & ->). destruct (two_args _ _ _ _ _ Hv) as (a & b & -> & Ha & Hb).
  pose proof (binary_keeps P env op a b x y v HP Ha Hb Ho Hr) as H. destruct (binary P op a b) as [r|] eqn:Er; [by rewrite (make_binary fuel P op a b r Er)|].
  exfalso. clear H. repeat (apply elem_of_cons in Hop as [->|Hop]; [done|]). by apply elem_of_nil in Hop.
Qed.

Lemma make_where fuel P env args vs v : pool_inv P -> Forall2 (evals (p_nodes P) env) args vs -> eval_op Op.WHERE vs = Some v -> post P (make_raw_ fuel P Op.WHERE args) (keeps env v).
Proof using HG HE.
  intros HP Hv Ho. destruct vs as [|[|c] [|x [|y [|]]]]; try done. injection Ho as <-. apply Forall2_cons_inv_r in Hv as (a & k & Ha & Hv & ->). apply two_args in Hv as (b & d & -> & Hb & Hd).
  by apply where_call.
Qed.

(** ** The properties *)

(** C32: The factory keeps values.  make returns a node with the value that the
    operation gives to the values of its operands, whatever it folded, flattened,
    merged, sorted or dropped, for an operand list in the arity band of the
    operation, for the relations EQ, NE, LT, LE, GT and GE, for AND, OR, NOT,
    WHERE, MIN and MAX with no further condition, and
    - for ADD and NEG, and for MUL, when the sum, or the product, of the weights
      of the operands is at most 2^63 - 1 (the weight of a literal is its absolute
      value, that of a sum or product is the sum or product of the weights, any
      other node weighs 1), so that no folded constant saturates;
    - for POW, when the power of the absolute value fits in 64 bits;
    - for MOD, when the dividend is not a negative literal, and for MOD and
      PYTHON_MOD, when the parity flags of the dividend are true of its value.
    The divisions are not covered.  No internal check fails: the call ends at a
    contract only where interning does. *)
Theorem make_keeps_value fuel P env op args vs v :
  pool_inv P -> Forall2 (evals (p_nodes P) env) args vs -> eval_op op vs = Some v -> in_band op (Z.of_nat (length args)) = true -> request_ok (p_nodes P) op args vs ->
  post P (make_raw_ fuel P op args) (fun P' a => evals (p_nodes P') env a v).
Proof.
  intros HP Hv Ho Hb Hr.
  destruct op; try contradiction Hr; try (apply (make_two fuel P env _ args vs v); [solve [repeat (apply elem_of_cons; (left; reflexivity) || right)]|done..]).
  - by apply (make_sum fuel P env args vs v).
  - by apply (make_product fuel P env args vs v).
  - apply (make_logic fuel P env Op.AND andb true args vs v and_connective); auto.
  - apply (make_logic fuel P env Op.OR orb false args vs v or_connective); auto.
  - by apply (make_not fuel P env args vs v).
  - by apply (make_where fuel P env args vs v).
  - apply (make_extremum fuel P env Op.MIN Z.min Z.le args vs v min_direction); auto.
  - apply (make_extremum fuel P env Op.MAX Z.max (fun x y => y <= x) args vs v max_direction); auto.
  - by apply (make_neg fuel P env args vs v).
Qed.

(** A symbol is registered once.  A call of symbol returns a node whose
    value is the value of the symbol, keeps the pool invariant and every node,
    and from then on fast_symbol of the id gives that node; the answers for the
    other ids stay.  The first name of an id is kept by every later call. *)
Theorem symbol_registers P name id f : pool_inv P -> 0 <= id < 2 ^ 32 - 1 -> 0 <= f < 2 ^ 16 -> Z.of_nat (String.length name) < 2 ^ 31 ->
  match symbol P name id f with
  | Ok (a, P') => pool_inv P' /\ p_nodes P ⊆ p_nodes P' /\ (forall env, evals (p_nodes P') env a (VInt (env id))) /\
      (forall i, 0 <= i -> fast_symbol P' i = if decide (i = id) then a else fast_symbol P i) /\
      snd <$> symbol_name P' id = Some (from_option snd name (symbol_name P id))
  | Fatal why => symbol_failure why
  end.
Proof using HG HE. apply symbol_call. Qed.
End Make.

(** ** Witnesses

    The pool of InternTheorems.v with the symbols x (id 0) and y (id 1). *)

#[local] Transparent fmix64 combine_ids.
#[local] Existing Instance wit_group.
#[local] Instance wit_group_ok : CtrlGroupOk wit_group := vector_group_ok 16 (or_introl eq_refl).
#[local] Instance wit_nan : NanBits := fun _ _ => 0x7FF8000000000000.

(** Nodes of a new pool are atoms: no product is among them. *)
Lemma new_pool_inv `{G : CtrlGroup} `{E : ExprArena} {HE : ExprArenaOk E} P : pool_ok P -> caches_ok P -> atoms_only (p_nodes P) -> pool_inv P.
Proof. intros H1 H2 H3. split; [done|done|]. intros a e He Ho. rewrite (H3 a e He). unfold one_integer. cbn. lia. Qed.

(** A symbol call that succeeds. *)
Lemma symbol_made `{G : CtrlGroup} {HG : CtrlGroupOk G} `{E : ExprArena} {HE : ExprArenaOk E} P name id f r :
  pool_inv P -> 0 <= id < 2 ^ 32 - 1 -> 0 <= f < 2 ^ 16 -> Z.of_nat (String.length name) < 2 ^ 31 -> symbol P name id f = Ok r -> pool_inv r.2.
Proof. intros HP Hid Hf Hn Er. pose proof (symbol_call P name id f HP Hid Hf Hn) as H. rewrite Er in H. destruct r as [a P']. apply H. Qed.

Lemma wit_pool_inv : pool_inv wit_pool.
Proof. apply (new_pool_inv (E := arena_serves)); apply wit_pool_ok. Qed.

Definition wit_x : Z * ExprPool := ok_or (0, wit_pool) (symbol wit_pool "x" 0 ExprFlags.IS_INTEGER).
Definition wit_y : Z * ExprPool := ok_or (0, wit_pool) (symbol wit_x.2 "y" 1 ExprFlags.IS_INTEGER).
#[local] Opaque wit_pool wit_x wit_y.

Lemma wit_x_new : symbol wit_pool "x" 0 ExprFlags.IS_INTEGER = Ok wit_x.
Proof. apply (is_ok_or (0, wit_pool)). vm_compute. reflexivity. Qed.

Lemma wit_y_new : symbol wit_x.2 "y" 1 ExprFlags.IS_INTEGER = Ok wit_y.
Proof. apply (is_ok_or (0, wit_pool)). vm_compute. reflexivity. Qed.

Lemma integer_flag : 0 <= ExprFlags.IS_INTEGER < 2 ^ 16.
Proof. by compute. Qed.

Lemma short_name : Z.of_nat (String.length "x") < 2 ^ 31.
Proof. by compute. Qed.

Lemma wit_x_inv : pool_inv wit_x.2.
Proof. apply (symbol_made (E := arena_serves) wit_pool "x" 0 ExprFlags.IS_INTEGER wit_x wit_pool_inv); [split; reflexivity || discriminate|exact integer_flag|exact short_name|exact wit_x_new]. Qed.

Lemma wit_y_inv : pool_inv wit_y.2.
Proof. apply (symbol_made (E := arena_serves) wit_x.2 "y" 1 ExprFlags.IS_INTEGER wit_y wit_x_inv); [split; reflexivity || discriminate|exact integer_flag|exact short_name|exact wit_y_new]. Qed.

Definition wit_env (id : Z) : Z := 5 + id.
Definition wit_args : list Z := [wit_x.1; cached_integer wit_y.2 3; wit_y.1; wit_x.1; cached_integer wit_y.2 (-3)].

(** An evaluation and a weight at a depth, as tests. *)
Lemma evals_all_at n nodes env args vs : mapM (eval n nodes env) args = Some vs -> Forall2 (evals nodes env) args vs.
Proof. intros H. apply mapM_Some in H. eapply Forall2_impl; [exact H|]. intros a v Ha. by exists n. Qed.

Lemma weighs_all_at n nodes args ws : mapM (weight n nodes) args = Some ws -> Forall2 (weighs nodes) args ws.
Proof. intros H. apply mapM_Some in H. eapply Forall2_impl; [exact H|]. intros a v Ha. by exists n. Qed.

(** The value of the node that a call returns. *)
Definition value_of (env : Z -> Z) (m : result (Z * ExprPool)) : option value := match m with Ok (a, P) => eval 10 (p_nodes P) env a | Fatal _ => None end.

(** x + 3 + y + x - 3 is built as the sum of y and a product 2 * x; its value is 16. *)
Lemma make_keeps_value_witness :
  post wit_y.2 (make_raw_ 1 wit_y.2 Op.ADD wit_args) (fun P' a => evals (p_nodes P') wit_env a (VInt 16)) /\
  value_of wit_env (make_raw_ 1 wit_y.2 Op.ADD wit_args) = Some (VInt 16).
Proof.
  split; [|vm_compute; reflexivity].
  apply (make_keeps_value (E := arena_serves) 1 wit_y.2 wit_env Op.ADD wit_args [VInt 5; VInt 3; VInt 6; VInt 5; VInt (-3)] (VInt 16)).
  - exact wit_y_inv.
  - apply (evals_all_at 1). vm_compute. reflexivity.
  - reflexivity.
  - reflexivity.
  - exists [1; 3; 1; 1; 3]. split; [apply (weighs_all_at 1); vm_compute; reflexivity|]. vm_compute. discriminate.
Defined.

Lemma symbol_registers_witness : fast_symbol wit_y.2 1 = wit_y.1 /\ fast_symbol wit_y.2 0 = fast_symbol wit_x.2 0 /\ evals (p_nodes wit_y.2) wit_env wit_y.1 (VInt 6).
Proof.
  pose proof (symbol_registers (E := arena_serves) wit_x.2 "y" 1 ExprFlags.IS_INTEGER wit_x_inv ltac:(split; reflexivity || discriminate) integer_flag short_name) as H.
  rewrite wit_y_new, (surjective_pairing wit_y) in H. destruct H as (_ & _ & H1 & H2 & _).
  split; [apply (H2 1); discriminate|]. split; [apply (H2 0); discriminate|apply (H1 wit_env)].
Defined.

(** ** Divisions that change the value

    The divisions of make are outside the property above.  At these operands
    the node that the pool returns has another value than the operation. *)

(** A call after a call. *)
Definition then_ (m : result (Z * ExprPool)) (f : ExprPool -> Z -> result (Z * ExprPool)) : result (Z * ExprPool) := match m with Ok (a, P) => f P a | Fatal why => Fatal why end.

Definition lit (P : ExprPool) (v : Z) : Z := cached_integer P v.

(** FloorDiv(FloorDiv(x, 2), -3) at x = 1: one division by -6. *)
Example nested_floor_div_by_negative :
  value_of (fun _ => 1) (then_ (floor_div 9 wit_y.2 wit_x.1 (lit wit_y.2 2)) (fun P a => floor_div 9 P a (lit P (-3)))) = Some (VInt (-1)) /\
  eval_op Op.FLOOR_DIV [VInt (1 / 2); VInt (-3)] = Some (VInt 0).
Proof. vm_compute. split; reflexivity. Qed.

(** FloorDiv(4 * x + y, -2) at x = 5, y = 6: the term 4 * x is not divided. *)
Example floor_div_of_sum_by_negative :
  value_of wit_env (then_ (then_ (mul wit_y.2 (lit wit_y.2 4) wit_x.1) (fun P a => add P a wit_y.1)) (fun P a => floor_div 9 P a (lit P (-2)))) = Some (VInt 17) /\
  eval_op Op.FLOOR_DIV [VInt (4 * 5 + 6); VInt (-2)] = Some (VInt (-13)).
Proof. vm_compute. split; reflexivity. Qed.

(** CeilDiv(x, -2) at x = 1. *)
Example ceil_div_by_negative :
  value_of (fun _ => 1) (ceil_div 9 wit_y.2 wit_x.1 (lit wit_y.2 (-2))) = Some (VInt 1) /\ eval_op Op.CEIL_DIV [VInt 1; VInt (-2)] = Some (VInt 0).
Proof. vm_compute. split; reflexivity. Qed.

(** Mod(-3, 2) folds to -1, and Mod(x, 2) of the same value keeps the node
    that is flagged as not negative. *)
Example mod_of_negative_literal : value_of wit_env (mod_ wit_y.2 (lit wit_y.2 (-3)) (lit wit_y.2 2)) = Some (VInt (-1)) /\ eval_op Op.MOD [VInt (-3); VInt 2] = Some (VInt 1).
Proof. vm_compute. split; reflexivity. Qed.

(** The greatest common divisor of -2^63 and 7 is 1; the clamp makes it 7. *)
Example clamp_changes_gcd : gcd_ (- 2 ^ 63) 7 = Ok 7 /\ Z.gcd (- 2 ^ 63) 7 = 1.
Proof. vm_compute. split; reflexivity. Qed.
