(* ===== verification/Philox.v ===== *)
(** * Philox.v: counter-based random numbers (include/crucible/Philox.h, PhiloxSimd.h)

    The ten rounds of Philox4x32, the key of an op, and the batch of eight
    streams.  For each key the generator is injective in its counter, so that
    no block of a stream repeats, and each lane of the batch is the scalar
    generator. *)

From stdpp Require Import base list.
From Stdlib Require Import ZArith Lia.
From S2P Require Import Prelude.
From S2P Require Import Hash.
#[local] Open Scope Z_scope.

Definition PHILOX_W0 : Z := 0x9E3779B9.
Definition PHILOX_W1 : Z := 0xBB67AE85.
Definition PHILOX_M0 : Z := 0xD2511F53.
Definition PHILOX_M1 : Z := 0xCD9E8D57.

Record Ctr := mkCtr { ctr0 : Z; ctr1 : Z; ctr2 : Z; ctr3 : Z }.
Record Key := mkKey { key0 : Z; key1 : Z }.

Definition mulhi_ (a b : Z) : Z := u32 (Z.shiftr (u64 (a * b)) 32).

(** One turn of the loop. *)
Definition philox_round (s : Ctr * Key) : Ctr * Key :=
  let '(c, k) := s in
  let hi0 := mulhi_ PHILOX_M0 (ctr0 c) in
  let lo0 := u32 (ctr0 c * PHILOX_M0) in
  let hi1 := mulhi_ PHILOX_M1 (ctr2 c) in
  let lo1 := u32 (ctr2 c * PHILOX_M1) in
  (mkCtr (Z.lxor (Z.lxor hi1 (ctr1 c)) (key0 k)) lo1 (Z.lxor (Z.lxor hi0 (ctr3 c)) (key1 k)) lo0,
   mkKey (u32 (key0 k + PHILOX_W0)) (u32 (key1 k + PHILOX_W1))).

Definition ROUNDS : nat := 10.

Definition philox_rounds (c : Ctr) (k : Key) : Ctr := (Nat.iter ROUNDS philox_round (c, k)).1.

(** generate of an offset and a 64-bit key. *)
Definition philox_generate (offset key : Z) : Ctr :=
  philox_rounds (mkCtr (u32 offset) (u32 (Z.shiftr offset 32)) 0 0) (mkKey (u32 key) (u32 (Z.shiftr key 32))).

Definition fnv_mix_ (h v : Z) : Z :=
  fold_left (fun h i => u64 (Z.lxor h (Z.land (Z.shiftr v (i * 8)) 0xFF) * 0x100000001b3)) (seqZ 0 8) h.

Definition op_key_bytes_ (master_counter op_index content_hash : Z) : Z :=
  fnv_mix_ (fnv_mix_ (fnv_mix_ 0xcbf29ce484222325 master_counter) op_index) content_hash.

(** ** The batch

    A vector of eight words is the function of its lanes. *)

Definition lanes : Type := nat -> Z.
Definition lift2 (f : Z -> Z -> Z) (a b : lanes) : lanes := fun i => f (a i) (b i).
Definition broadcast (x : Z) : lanes := fun _ => x.

Record batch := mkBatch { b_ctr0 : lanes; b_ctr1 : lanes; b_ctr2 : lanes; b_ctr3 : lanes; b_key0 : lanes; b_key1 : lanes }.

Definition mul32 : lanes -> lanes -> lanes := lift2 (fun a b => u32 (a * b)).
Definition add32 : lanes -> lanes -> lanes := lift2 (fun a b => u32 (a + b)).
Definition xor32 : lanes -> lanes -> lanes := lift2 Z.lxor.
(** The widening product, its shift and the narrowing of the result. *)
Definition high32 (a b : lanes) : lanes := fun i => u32 (Z.shiftr (lift2 (fun x y => u64 (x * y)) a b i) 32).

Definition batch_round (s : batch) : batch :=
  let m0 := broadcast PHILOX_M0 in
  let m1 := broadcast PHILOX_M1 in
  let lo0 := mul32 (b_ctr0 s) m0 in
  let lo1 := mul32 (b_ctr2 s) m1 in
  let hi0 := high32 (b_ctr0 s) m0 in
  let hi1 := high32 (b_ctr2 s) m1 in
  mkBatch (xor32 (xor32 hi1 (b_ctr1 s)) (b_key0 s)) lo1 (xor32 (xor32 hi0 (b_ctr3 s)) (b_key1 s)) lo0
          (add32 (b_key0 s) (broadcast PHILOX_W0)) (add32 (b_key1 s) (broadcast PHILOX_W1)).

Definition philox_batch8 (s : batch) : batch := Nat.iter ROUNDS batch_round s.

(** The known answers of Philox4x32-10. *)
Example philox_known_answers :
  philox_generate 0 0 = mkCtr 0x6627e8d5 0xe169c58d 0xbc57ac4c 0x9b00dbd8 /\
  philox_rounds (mkCtr 0x243f6a88 0x85a308d3 0x13198a2e 0x03707344) (mkKey 0xa4093822 0x299f31d0)
    = mkCtr 0xd16cfe09 0x94fdcceb 0x5001e420 0x24126ea1.
Proof. split; vm_compute; reflexivity. Qed.

(** ** Injectivity *)

Record ctr_ok (c : Ctr) : Prop := {
  ok0 : in_width 32 (ctr0 c); ok1 : in_width 32 (ctr1 c); ok2 : in_width 32 (ctr2 c); ok3 : in_width 32 (ctr3 c);
}.

Record key_ok (k : Key) : Prop := { okk0 : in_width 32 (key0 k); okk1 : in_width 32 (key1 k) }.

(** A product with an odd multiplier keeps the word. *)
Lemma mul_inverse32 m i k : in_width 32 k -> (m * i) mod 2 ^ 32 = 1 -> u32 (u32 (k * m) * i) = k.
Proof.
  intros Hk Hmi. unfold wrap. rewrite Z.mul_mod_idemp_l by lia.
  rewrite <- Z.mul_assoc, <- Z.mul_mod_idemp_r, Hmi, Z.mul_1_r by lia. by apply Z.mod_small.
Qed.

Lemma mul_odd_inj m i a b : (m * i) mod 2 ^ 32 = 1 -> in_width 32 a -> in_width 32 b -> u32 (a * m) = u32 (b * m) -> a = b.
Proof. intros Hm Ha Hb E. rewrite <- (mul_inverse32 m i a), <- (mul_inverse32 m i b) by done. by rewrite E. Qed.

Lemma lxor_cancel_r a b c : Z.lxor b a = Z.lxor c a -> b = c.
Proof. rewrite !(Z.lxor_comm _ a). apply lxor_cancel. Qed.

Lemma round_ok c k : ctr_ok c -> key_ok k -> ctr_ok (philox_round (c, k)).1 /\ key_ok (philox_round (c, k)).2.
Proof.
  intros [H0 H1 H2 H3] [K0 K1]. split; split; cbn; try apply u32_range; (apply lxor_width; [lia| |done]); (apply lxor_width; [lia|apply u32_range|done]).
Qed.

Lemma round_inj c c' k : ctr_ok c -> ctr_ok c' -> philox_round (c, k) = philox_round (c', k) -> c = c'.
Proof.
  intros [H0 H1 H2 H3] [H0' H1' H2' H3'] E. cbn in E. injection E as E0 E1 E2 E3.
  apply (mul_odd_inj PHILOX_M1 0x6d7cae67) in E1; [|reflexivity|done|done]. apply (mul_odd_inj PHILOX_M0 0x991a7cdb) in E3; [|reflexivity|done|done].
  rewrite E1 in E0. rewrite E3 in E2. apply lxor_cancel_r, lxor_cancel in E0. apply lxor_cancel_r, lxor_cancel in E2.
  destruct c, c'. cbn in *. by subst.
Qed.

Lemma rounds_inj n c c' k : ctr_ok c -> ctr_ok c' -> key_ok k -> (Nat.iter n philox_round (c, k)).1 = (Nat.iter n philox_round (c', k)).1 -> c = c'.
Proof.
  revert c c' k. induction n as [|n IH]; intros c c' k Hc Hc' Hk; [done|]. rewrite !Nat.iter_succ_r. intros E.
  destruct (round_ok c k Hc Hk) as [H1 K1]. destruct (round_ok c' k Hc' Hk) as [H2 K2]. apply (round_inj c c' k Hc Hc').
  destruct (philox_round (c, k)) as [d j] eqn:Ed, (philox_round (c', k)) as [d' j'] eqn:Ed'. assert (Ej : j = j') by (cbn in Ed, Ed'; congruence). subst j'.
  cbn [fst snd] in *. by rewrite (IH d d' j H1 H2 K1 E).
Qed.

Lemma words_inj a b : in_width 64 a -> in_width 64 b -> u32 a = u32 b -> u32 (Z.shiftr a 32) = u32 (Z.shiftr b 32) -> a = b.
Proof. unfold in_width, wrap. intros Ha Hb. rewrite !Z.shiftr_div_pow2 by lia. intros E1 E2. mod_lia. Qed.

Lemma offset_ok x : ctr_ok (mkCtr (u32 x) (u32 (Z.shiftr x 32)) 0 0).
Proof. split; unfold ctr0, ctr1, ctr2, ctr3; [apply u32_range|apply u32_range|unfold in_width; lia|unfold in_width; lia]. Qed.

Lemma lane_round s i c k : (c, k) = (mkCtr (b_ctr0 s i) (b_ctr1 s i) (b_ctr2 s i) (b_ctr3 s i), mkKey (b_key0 s i) (b_key1 s i)) ->
  let s' := batch_round s in
  philox_round (c, k) = (mkCtr (b_ctr0 s' i) (b_ctr1 s' i) (b_ctr2 s' i) (b_ctr3 s' i), mkKey (b_key0 s' i) (b_key1 s' i)).
Proof. intros [= -> ->]. cbn. unfold mulhi_, high32, lift2, broadcast. by rewrite !(Z.mul_comm PHILOX_M0), !(Z.mul_comm PHILOX_M1). Qed.

Definition lane_ctr (s : batch) (i : nat) : Ctr := mkCtr (b_ctr0 s i) (b_ctr1 s i) (b_ctr2 s i) (b_ctr3 s i).
Definition lane_key (s : batch) (i : nat) : Key := mkKey (b_key0 s i) (b_key1 s i).

Lemma lane_rounds n s i : Nat.iter n philox_round (lane_ctr s i, lane_key s i) = (lane_ctr (Nat.iter n batch_round s) i, lane_key (Nat.iter n batch_round s) i).
Proof. induction n as [|n IH]; [done|]. rewrite !Nat.iter_succ, IH. by apply lane_round. Qed.

#[local] Opaque ROUNDS.

Lemma generate_inj key a b : in_width 64 key -> in_width 64 a -> in_width 64 b -> philox_generate a key = philox_generate b key -> a = b.
Proof.
  intros Hk Ha Hb E. assert (Hok : key_ok (mkKey (u32 key) (u32 (Z.shiftr key 32)))) by (split; apply u32_range).
  unfold philox_generate, philox_rounds in E. pose proof (rounds_inj ROUNDS _ _ _ (offset_ok a) (offset_ok b) Hok E) as Ec. apply words_inj; [done|done|exact (f_equal ctr0 Ec)|exact (f_equal ctr1 Ec)].
Qed.

Lemma batch_lane s i : lane_ctr (philox_batch8 s) i = philox_rounds (lane_ctr s i) (lane_key s i).
Proof. unfold philox_batch8, philox_rounds. rewrite lane_rounds. cbn [fst]. reflexivity. Qed.

(** The random blocks of one key do not repeat: two 64-bit offsets with the
    same block are one offset, so that the counter of a stream gives 2^64
    different blocks.  Each lane of the vector routine is the block that the
    scalar routine gives for the counter and the key of the lane. *)
Theorem philox_blocks_differ key a b s i : in_width 64 key -> in_width 64 a -> in_width 64 b ->
  (philox_generate a key = philox_generate b key -> a = b) /\
  lane_ctr (philox_batch8 s) i = philox_rounds (lane_ctr s i) (lane_key s i).
Proof. intros Hk Ha Hb. split; [by apply generate_inj|apply batch_lane]. Qed.

Lemma philox_blocks_differ_witness : in_width 64 7 /\ (philox_generate 3 7 = philox_generate 4 7 -> 3 = 4).
Proof. split; [by compute|]. apply (philox_blocks_differ 7 3 4 (mkBatch (broadcast 0) (broadcast 0) (broadcast 0) (broadcast 0) (broadcast 0) (broadcast 0)) 0); by compute. Defined.
