(* ===== verification/SlotTable.v ===== *)
(** * SlotTable.v: the slot tables of the canopy (include/crucible/canopy/SlotTable.h)

    The bounded count and the dense table that the membership protocols
    share, the identity of a peer (include/crucible/cog/CogIdentity.h), and
    the two loops that recur in them: the search of a live prefix and the
    shift of a queue to its front. *)

From stdpp Require Import base list strings.
From Stdlib Require Import ZArith Lia.
From S2P Require Import Prelude.
#[local] Open Scope Z_scope.

(** ** Identities *)

Record Uuid := mkUuid { hi : Z; lo : Z }.

#[export] Instance Uuid_eq_dec : EqDecision Uuid.
Proof. solve_decision. Defined.

Definition is_zero (u : Uuid) : bool := (hi u =? 0) && (lo u =? 0).
Definition zero_uuid : Uuid := mkUuid 0 0.

(** The pointers and the spans of an identity are addresses; the protocols
    copy them and read the uuid only. *)
Record CogIdentity := mkCog {
  uuid : Uuid; level : Z; kind : Z; vendor : string; model : string; firmware_revision : Z; bios_revision : Z;
  parent : Z; children : Z * Z; neighbors_l2 : Z * Z; neighbors_l3 : Z * Z;
}.

Definition no_cog : CogIdentity := mkCog zero_uuid 0 0 "" "" 0 0 0 (0, 0) (0, 0) (0, 0).

Lemma is_zero_true u : is_zero u = true <-> u = zero_uuid.
Proof. unfold is_zero. rewrite andb_true_iff, !Z.eqb_eq. destruct u; cbn. split; [intros [-> ->]; done|by intros [= -> ->]]. Qed.

Lemma is_zero_false u : is_zero u = false <-> u <> zero_uuid.
Proof. rewrite <- is_zero_true. by destruct (is_zero u). Qed.

(** ** The bounded count *)

Section Tables.
Context {T : Type} (Capacity : Z) (d : T).

(** SlotCapacity *)
Definition slot_capacity (n : Z) : Prop := 0 < n <= 65535.

Definition full (count : Z) : bool := Capacity <=? count.

(** The index of the reserved slot; the count after it is one more. *)
Definition reserve_next (count : Z) : option Z := if full count then None else Some count.

Record SlotTable := mkTable { slots : list T; count : Z }.

Definition empty_table : SlotTable := mkTable (replicate (Z.to_nat Capacity) d) 0.

Definition live (t : SlotTable) : list T := take (Z.to_nat (count t)) (slots t).

Definition push (t : SlotTable) (v : T) : SlotTable * bool :=
  match reserve_next (count t) with
  | None => (t, false)
  | Some slot => (mkTable (aset (slots t) slot v) (count t + 1), true)
  end.

Record table_ok (t : SlotTable) : Prop := { to_length : Z.of_nat (length (slots t)) = Capacity; to_count : 0 <= count t <= Capacity }.
End Tables.

Arguments SlotTable : clear implicits.

(** ** Live prefixes *)

Section Prefixes.
Context {T : Type}.
Implicit Types (arr l : list T) (n i : Z).

Definition front n arr : list T := take (Z.to_nat n) arr.

(** The first index of a live prefix whose value passes the test. *)
Fixpoint find_from (p : T -> bool) l i : option Z :=
  match l with [] => None | x :: l => if p x then Some i else find_from p l (i + 1) end.

Lemma find_from_some p l i j : find_from p l i = Some j -> exists x, i <= j /\ l !! Z.to_nat (j - i) = Some x /\ p x = true /\ forall y, y ∈ take (Z.to_nat (j - i)) l -> p y = false.
Proof.
  revert i. induction l as [|x l IH]; intros i; [done|]. cbn. destruct (p x) eqn:Ep.
  - intros [= ->]. exists x. rewrite Z.sub_diag. split; [lia|]. split; [done|]. split; [done|]. cbn. intros y Hy. by apply not_elem_of_nil in Hy.
  - intros H. destruct (IH _ H) as (y & Hle & Hl & Hp & Hn). exists y. replace (Z.to_nat (j - i)) with (S (Z.to_nat (j - (i + 1)))) by lia. split; [lia|]. split; [done|]. split; [done|].
    cbn. intros z [->|Hz]%elem_of_cons; [done|by apply Hn].
Qed.

Lemma find_from_none p l i : find_from p l i = None -> forall y, y ∈ l -> p y = false.
Proof. revert i. induction l as [|x l IH]; intros i; cbn; [intros _ y Hy; by apply not_elem_of_nil in Hy|]. destruct (p x) eqn:Ep; [done|]. intros H y [->|Hy]%elem_of_cons; [done|by eapply IH]. Qed.

Lemma find_from_is_none p l i : (forall y, y ∈ l -> p y = false) -> find_from p l i = None.
Proof. revert i. induction l as [|x l IH]; intros i H; [done|]. cbn. rewrite (H x) by apply elem_of_cons, or_introl, eq_refl. apply IH. intros y Hy. apply H. apply elem_of_cons. by right. Qed.

Lemma front_push arr n v : 0 <= n < Z.of_nat (length arr) -> front (n + 1) (aset arr n v) = front n arr ++ [v].
Proof.
  intros Hn. unfold front, aset. replace (Z.to_nat (n + 1)) with (S (Z.to_nat n)) by lia. rewrite (take_S_r _ _ v) by (apply list_lookup_insert_eq; lia). by rewrite take_insert_ge by lia.
Qed.

Lemma front_set arr n i v : 0 <= i < n -> front n (aset arr i v) = aset (front n arr) i v.
Proof. intros Hi. unfold front, aset. by rewrite take_insert_lt by lia. Qed.

Lemma front_length n arr : 0 <= n <= Z.of_nat (length arr) -> Z.of_nat (length (front n arr)) = n.
Proof. intros Hn. unfold front. rewrite length_take. lia. Qed.

Lemma front_lookup n arr (k : nat) : (k < Z.to_nat n)%nat -> front n arr !! k = arr !! k.
Proof. intros Hk. unfold front. by rewrite lookup_take_lt by lia. Qed.

(** The loop that moves the entries from [n] on to the front of a queue. *)
Fixpoint shift_loop (d : T) arr n i (k : nat) : list T :=
  match k with O => arr | S k => shift_loop d (aset arr (i - n) (aget d arr i)) n (i + 1) k end.

Definition shift_left (d : T) arr n (cnt : Z) : list T := shift_loop d arr n n (Z.to_nat (cnt - n)).

Lemma shift_loop_length d arr n i k : length (shift_loop d arr n i k) = length arr.
Proof. revert arr i. induction k as [|k IH]; intros arr i; [done|]. cbn. by rewrite IH, length_aset. Qed.

Lemma shift_loop_get d arr n i k j : 0 <= n <= i -> i + Z.of_nat k <= Z.of_nat (length arr) -> 0 <= j ->
  aget d (shift_loop d arr n i k) j = if decide (i - n <= j < i - n + Z.of_nat k) then aget d arr (j + n) else aget d arr j.
Proof.
  revert arr i. induction k as [|k IH]; intros arr i Hn Hl Hj; cbn [shift_loop]; [by rewrite decide_False by lia|].
  rewrite IH by (rewrite ?length_aset; lia). rewrite !aget_aset by lia. repeat case_decide; try lia; try done; f_equal; lia.
Qed.

Lemma shift_left_front d arr n cnt : 0 <= n <= cnt -> cnt <= Z.of_nat (length arr) -> front (cnt - n) (shift_left d arr n cnt) = drop (Z.to_nat n) (front cnt arr).
Proof.
  intros Hn Hl. apply list_eq_same_length with (n := Z.to_nat (cnt - n)).
  - rewrite length_drop. unfold front. rewrite length_take. lia.
  - unfold front, shift_left. rewrite length_take, shift_loop_length. lia.
  - intros i x y Hi Hx Hy. rewrite front_lookup in Hx by lia. rewrite lookup_drop, front_lookup in Hy by lia.
    pose proof (shift_loop_get d arr n n (Z.to_nat (cnt - n)) (Z.of_nat i) ltac:(lia) ltac:(lia) ltac:(lia)) as H. rewrite decide_True in H by lia.
    unfold aget, shift_left in *. rewrite Nat2Z.id, Hx in H. replace (Z.to_nat (Z.of_nat i + n)) with (Z.to_nat n + i)%nat in H by lia. rewrite Hy in H. exact H.
Qed.

(** ** A bounded queue

    The pending events of Swim.h and of Lifeguard.h: an append to a full queue
    drops the oldest entry. *)
Definition queue_append (cap : Z) (d : T) arr (cnt : Z) (v : T) : list T * Z :=
  let '(arr, cnt) := if cnt =? cap then (shift_left d arr 1 cnt, cnt - 1) else (arr, cnt) in
  (aset arr cnt v, cnt + 1).

Definition queue_drop (d : T) arr (cnt n : Z) : list T * Z :=
  let n := if cnt <? n then cnt else n in (shift_left d arr n cnt, cnt - n).

Record queue_ok (cap : Z) arr (cnt : Z) : Prop := { qo_length : Z.of_nat (length arr) = cap; qo_count : 0 <= cnt <= cap }.

(** The last [cap] of a list. *)
Definition last_entries (cap : Z) l : list T := drop (length l - Z.to_nat cap) l.

Lemma queue_append_ok cap d arr cnt v : 0 < cap -> queue_ok cap arr cnt ->
  let '(arr', cnt') := queue_append cap d arr cnt v in
  queue_ok cap arr' cnt' /\ front cnt' arr' = last_entries cap (front cnt arr ++ [v]).
Proof.
  intros Hcap [Hl Hc]. unfold queue_append. destruct (Z.eqb_spec cnt cap) as [->|Hne].
  - assert (E : front (cap - 1) (shift_left d arr 1 cap) = drop 1 (front cap arr)) by (apply shift_left_front; lia).
    split; [split; [unfold shift_left; rewrite length_aset, shift_loop_length; lia|lia]|].
    rewrite front_push by (unfold shift_left; rewrite shift_loop_length; lia). rewrite E. unfold last_entries.
    assert (El : length (front cap arr) = Z.to_nat cap) by (unfold front; rewrite length_take; lia). rewrite length_app, El. cbn [length].
    replace (Z.to_nat cap + 1 - Z.to_nat cap)%nat with 1%nat by lia. by rewrite drop_app_le by lia.
  - split; [split; [by rewrite length_aset|lia]|]. rewrite front_push by lia. unfold last_entries. rewrite length_app. cbn [length].
    assert (El : Z.of_nat (length (front cnt arr)) = cnt) by (apply front_length; lia). by replace (length (front cnt arr) + 1 - Z.to_nat cap)%nat with 0%nat by lia.
Qed.

Lemma queue_drop_ok cap d arr cnt n : 0 <= n -> queue_ok cap arr cnt ->
  let '(arr', cnt') := queue_drop d arr cnt n in queue_ok cap arr' cnt' /\ front cnt' arr' = drop (Z.to_nat n) (front cnt arr).
Proof.
  intros Hn [Hl Hc]. unfold queue_drop. destruct (Z.ltb_spec cnt n).
  - split; [split; [unfold shift_left; by rewrite shift_loop_length|lia]|]. rewrite shift_left_front by lia. assert (El : Z.of_nat (length (front cnt arr)) = cnt) by (apply front_length; lia). by rewrite !drop_ge by lia.
  - split; [split; [unfold shift_left; by rewrite shift_loop_length|lia]|]. by rewrite shift_left_front by lia.
Qed.
End Prefixes.

(** push appends to the live values, and refuses a full table. *)
Lemma push_ok {T} Capacity (t : SlotTable T) v : table_ok Capacity t ->
  let '(t', ok) := push Capacity t v in
  table_ok Capacity t' /\ ok = (Z.of_nat (length (live t)) <? Capacity) /\ live t' = if ok then live t ++ [v] else live t.
Proof.
  intros [Hl Hc]. unfold push, reserve_next, full. assert (El : Z.of_nat (length (live t)) = count t) by (apply front_length; lia). rewrite El.
  destruct (Z.leb_spec Capacity (count t)).
  - split; [by split|]. split; [|done]. symmetry. by apply Z.ltb_ge.
  - split; [split; cbn; [by rewrite length_aset|lia]|]. split; [symmetry; by apply Z.ltb_lt|]. unfold live. cbn. apply front_push. lia.
Qed.
