(* ===== verification/Swim.v ===== *)
(** * Swim.v: the failure detector (include/crucible/canopy/Swim.h)

    The membership table with its probes, its acknowledgements and timeouts,
    the queue of events that ride on other messages, and the rule by which a
    received event takes effect.  The properties are in SwimProofs.v. *)

From stdpp Require Import base list strings.
From Stdlib Require Import ZArith Lia.
From S2P Require Import Prelude.
From S2P Require Import SlotTable.
#[local] Open Scope Z_scope.

Inductive SwimState := Alive | Suspect | Dead.
#[export] Instance SwimState_eq_dec : EqDecision SwimState.
Proof. solve_decision. Defined.

Inductive SwimError := CapacityExceeded | DuplicatePeer | PeerNotFound | ZeroUuid.

Record SwimConfig := mkSwimConfig { period_ns : Z; ack_timeout_ns : Z; indirect_timeout_ns : Z; indirect_checks : Z; suspicion_misses : Z }.

Record PeerHealth := mkHealth { state : SwimState; last_heartbeat_ns : Z; consecutive_misses : Z; incarnation : Z }.
Definition no_health : PeerHealth := mkHealth Dead 0 0 0.

Record SwimEvent := mkEvent { ev_peer : CogIdentity; ev_state : SwimState; ev_misses : Z; ev_incarnation : Z; ev_sequence : Z }.
Definition no_event : SwimEvent := mkEvent no_cog Alive 0 0 0.

Record SwimProbe := mkProbe { pr_target : Uuid; pr_sequence : Z; pr_deadline_ns : Z }.

Record PeerSlot := mkPeer { identity : CogIdentity; health_ : PeerHealth; last_seen_sequence : Z }.
Definition no_peer : PeerSlot := mkPeer no_cog no_health 0.

Record Swim := mkSwim {
  config_ : SwimConfig; slots_ : list PeerSlot; count_ : Z; probe_cursor_ : Z; sequence_ : Z;
  piggyback_ : list SwimEvent; piggyback_count_ : Z; live_cache_ : list CogIdentity; live_count_ : Z;
}.

(** A call that can refuse. *)
Abbreviation expected A E := (E + A)%type.

Section Membership.
Context (MaxPeers MaxPiggyback : Z).

Definition set_slots (M : Swim) (s : list PeerSlot) (c : Z) : Swim :=
  mkSwim (config_ M) s c (probe_cursor_ M) (sequence_ M) (piggyback_ M) (piggyback_count_ M) (live_cache_ M) (live_count_ M).
Definition set_slot (M : Swim) (i : Z) (s : PeerSlot) : Swim := set_slots M (aset (slots_ M) i s) (count_ M).
Definition set_probe (M : Swim) (cursor sequence : Z) : Swim :=
  mkSwim (config_ M) (slots_ M) (count_ M) cursor sequence (piggyback_ M) (piggyback_count_ M) (live_cache_ M) (live_count_ M).
Definition set_piggyback (M : Swim) (sequence : Z) (q : list SwimEvent * Z) : Swim :=
  mkSwim (config_ M) (slots_ M) (count_ M) (probe_cursor_ M) sequence q.1 q.2 (live_cache_ M) (live_count_ M).
Definition set_live (M : Swim) (cache : list CogIdentity) (n : Z) : Swim :=
  mkSwim (config_ M) (slots_ M) (count_ M) (probe_cursor_ M) (sequence_ M) (piggyback_ M) (piggyback_count_ M) cache n.

Definition peers (M : Swim) : list PeerSlot := front (count_ M) (slots_ M).

Definition state_rank_ (s : SwimState) : Z := match s with Alive => 0 | Suspect => 1 | Dead => 2 end.

Definition saturated_add_ (a b : Z) : Z := if UINT64_MAX - b <? a then UINT64_MAX else a + b.

Definition find_index_ (M : Swim) (peer_id : Uuid) : option Z := find_from (fun s => bool_decide (uuid (identity s) = peer_id)) (peers M) 0.

Definition event_newer_ (incoming : SwimEvent) (slot : PeerSlot) : bool :=
  if ev_incarnation incoming =? incarnation (health_ slot) then state_rank_ (state (health_ slot)) <? state_rank_ (ev_state incoming)
  else incarnation (health_ slot) <? ev_incarnation incoming.

Definition append_event_ (M : Swim) (slot : PeerSlot) : Swim :=
  let sequence := u64 (sequence_ M + 1) in
  let event := mkEvent (identity slot) (state (health_ slot)) (consecutive_misses (health_ slot)) (incarnation (health_ slot)) sequence in
  set_piggyback M sequence (queue_append MaxPiggyback no_event (piggyback_ M) (piggyback_count_ M) event).

Definition add_peer (M : Swim) (id : CogIdentity) : expected unit SwimError * Swim :=
  if is_zero (uuid id) then (inl ZeroUuid, M)
  else match find_index_ M (uuid id) with
  | Some _ => (inl DuplicatePeer, M)
  | None =>
      match reserve_next MaxPeers (count_ M) with
      | None => (inl CapacityExceeded, M)
      | Some index =>
          let slot := mkPeer id (mkHealth Alive 0 0 1) (last_seen_sequence (aget no_peer (slots_ M) index)) in
          (inr tt, append_event_ (set_slots M (aset (slots_ M) index slot) (count_ M + 1)) slot)
      end
  end.

(** The shared end of the transitions: the slot with its new health is stored
    and its event is queued. *)
Definition update_slot (M : Swim) (idx : Z) (h : PeerHealth) : Swim :=
  let slot := mkPeer (identity (aget no_peer (slots_ M) idx)) h (sequence_ M) in
  append_event_ (set_slot M idx slot) slot.

Definition mark_alive_ (M : Swim) (idx now_ns : Z) : Swim :=
  let h := health_ (aget no_peer (slots_ M) idx) in
  update_slot M idx (mkHealth Alive now_ns 0 (u64 (incarnation h + 1))).

Definition mark_dead_ (M : Swim) (idx : Z) : Swim :=
  let h := health_ (aget no_peer (slots_ M) idx) in
  if bool_decide (state h = Dead) then M
  else update_slot M idx (mkHealth Dead (last_heartbeat_ns h) (consecutive_misses h) (u64 (incarnation h + 1))).

Definition miss_ (M : Swim) (idx : Z) : Swim :=
  let h := health_ (aget no_peer (slots_ M) idx) in
  if bool_decide (state h = Dead) then M
  else
    let misses := if consecutive_misses h =? UINT32_MAX then consecutive_misses h else consecutive_misses h + 1 in
    let st := if suspicion_misses (config_ M) <=? misses then Dead else Suspect in
    update_slot M idx (mkHealth st (last_heartbeat_ns h) misses (u64 (incarnation h + 1))).

Definition on_peer (M : Swim) (peer_id : Uuid) (f : Z -> Swim) : expected unit SwimError * Swim :=
  match find_index_ M peer_id with None => (inl PeerNotFound, M) | Some idx => (inr tt, f idx) end.

Definition remove_peer (M : Swim) (peer : CogIdentity) : expected unit SwimError * Swim := on_peer M (uuid peer) (mark_dead_ M).
Definition on_ack (M : Swim) (peer_id : Uuid) (now_ns : Z) : expected unit SwimError * Swim := on_peer M peer_id (fun idx => mark_alive_ M idx now_ns).
Definition on_ping_timeout (M : Swim) (peer_id : Uuid) : expected unit SwimError * Swim := on_peer M peer_id (miss_ M).
Definition on_indirect_ack (M : Swim) (suspect : Uuid) (now_ns : Z) : expected unit SwimError * Swim := on_ack M suspect now_ns.
Definition on_indirect_timeout (M : Swim) (suspect : Uuid) : expected unit SwimError * Swim := on_ping_timeout M suspect.

(** health, with the rounds of staleness; [None] is infinity. *)
Definition health (M : Swim) (peer_id : Uuid) : PeerHealth * option Z :=
  match find_index_ M peer_id with
  | None => (no_health, None)
  | Some idx =>
      let slot := aget no_peer (slots_ M) idx in
      (health_ slot, Some (if last_seen_sequence slot <=? sequence_ M then sequence_ M - last_seen_sequence slot else 0))
  end.

Definition is_dead (s : PeerSlot) : bool := bool_decide (state (health_ s) = Dead).

Fixpoint fill_live (l : list PeerSlot) (cache : list CogIdentity) (n : Z) : list CogIdentity * Z :=
  match l with
  | [] => (cache, n)
  | s :: l => if is_dead s then fill_live l cache n else fill_live l (aset cache n (identity s)) (n + 1)
  end.

(** live_peers, with the contents of the view that it returns. *)
Definition live_peers (M : Swim) : list CogIdentity * Swim :=
  let '(cache, n) := fill_live (peers M) (live_cache_ M) 0 in (front n cache, set_live M cache n).

(** The loop of next_probe; [tries] counts the attempts that remain. *)
Fixpoint probe_loop (M : Swim) (now_ns attempts : Z) (tries : nat) : option SwimProbe * Swim :=
  match tries with
  | O => (None, M)
  | S tries =>
      let idx := (probe_cursor_ M + attempts) mod count_ M in
      let slot := aget no_peer (slots_ M) idx in
      if is_dead slot then probe_loop M now_ns (attempts + 1) tries
      else
        let sequence := u64 (sequence_ M + 1) in
        (Some (mkProbe (uuid (identity slot)) sequence (saturated_add_ now_ns (ack_timeout_ns (config_ M)))),
         set_probe M ((idx + 1) mod count_ M) sequence)
  end.

Definition next_probe (M : Swim) (now_ns : Z) : option SwimProbe * Swim :=
  if count_ M =? 0 then (None, M) else probe_loop M now_ns 0 (Z.to_nat (count_ M)).

Fixpoint witness_loop (suspect : Uuid) (limit : Z) (l : list PeerSlot) (out : SlotTable Uuid) : SlotTable Uuid :=
  match l with
  | [] => out
  | s :: l =>
      if count out <? limit then
        if bool_decide (uuid (identity s) = suspect) || negb (bool_decide (state (health_ s) = Alive)) then witness_loop suspect limit l out
        else witness_loop suspect limit l (push MaxPeers out (uuid (identity s))).1
      else out
  end.

Definition indirect_witnesses (M : Swim) (suspect : Uuid) : SlotTable Uuid :=
  witness_loop suspect (indirect_checks (config_ M)) (peers M) (empty_table MaxPeers zero_uuid).

Definition piggyback_batch (M : Swim) : SlotTable SwimEvent :=
  fold_left (fun out e => (push MaxPiggyback out e).1) (front (piggyback_count_ M) (piggyback_ M)) (empty_table MaxPiggyback no_event).

Definition acknowledge_piggybacks (M : Swim) (n : Z) : Swim :=
  set_piggyback M (sequence_ M) (queue_drop no_event (piggyback_ M) (piggyback_count_ M) n).

Definition apply_gossip (M : Swim) (incoming : SwimEvent) (now_ns : Z) : expected unit SwimError * Swim :=
  let id := ev_peer incoming in
  if is_zero (uuid id) then (inl ZeroUuid, M)
  else match find_index_ M (uuid id) with
  | None =>
      match reserve_next MaxPeers (count_ M) with
      | None => (inl CapacityExceeded, M)
      | Some index =>
          let slot := mkPeer id (mkHealth (ev_state incoming) (if bool_decide (ev_state incoming = Alive) then now_ns else 0) (ev_misses incoming) (ev_incarnation incoming)) (sequence_ M) in
          (inr tt, append_event_ (set_slots M (aset (slots_ M) index slot) (count_ M + 1)) slot)
      end
  | Some idx =>
      let slot := aget no_peer (slots_ M) idx in
      if event_newer_ incoming slot then
        let heartbeat := if bool_decide (ev_state incoming = Alive) then now_ns else last_heartbeat_ns (health_ slot) in
        let slot := mkPeer id (mkHealth (ev_state incoming) heartbeat (ev_misses incoming) (ev_incarnation incoming)) (sequence_ M) in
        (inr tt, append_event_ (set_slot M idx slot) slot)
      else (inr tt, M)
  end.

Definition empty_swim (config : SwimConfig) : Swim :=
  mkSwim config (replicate (Z.to_nat MaxPeers) no_peer) 0 0 0 (replicate (Z.to_nat MaxPiggyback) no_event) 0 (replicate (Z.to_nat MaxPeers) no_cog) 0.

(** The constructor: each initial peer has to be accepted. *)
Fixpoint add_initial (M : Swim) (initial : list CogIdentity) : result Swim :=
  match initial with
  | [] => Ok M
  | p :: initial => match add_peer M p with (inr _, M) => add_initial M initial | (inl _, _) => Fatal "add_peer(peer).has_value()" end
  end.

Definition mint_swim_membership (initial : list CogIdentity) (config : SwimConfig) : result Swim := add_initial (empty_swim config) initial.
End Membership.
