(* ===== verification/SwimProofs.v ===== *)
(** * SwimProofs.v: what the failure detector keeps and reaches

    The invariant of the membership, the order in which the knowledge about
    a peer grows, the convergence of gossip, the round robin of the probes
    and the number of timeouts that a peer survives. *)

From stdpp Require Import base list strings.
From Stdlib Require Import ZArith Lia.
From S2P Require Import Prelude.
From S2P Require Import SlotTable.
From S2P Require Import Swim.
#[local] Open Scope Z_scope.

(** ** Peers by their uuid *)

Abbreviation uuid_of s := (uuid (identity s)).

Fixpoint peer_in (l : list PeerSlot) (u : Uuid) : option PeerSlot :=
  match l with [] => None | s :: l => if bool_decide (uuid_of s = u) then Some s else peer_in l u end.

Lemma peer_in_none l u : peer_in l u = None <-> u ∉ (fun s => uuid_of s) <$> l.
Proof.
  induction l as [|s l IH]; cbn; [split; [intros _; apply not_elem_of_nil|done]|]. case_bool_decide as E.
  - split; [done|]. intros H. exfalso. apply H. rewrite E. apply elem_of_cons. by left.
  - rewrite IH, not_elem_of_cons. split; [intros H; split; [congruence|done]|by intros [_ H]].
Qed.

Lemma peer_in_some l u s : peer_in l u = Some s -> s ∈ l /\ uuid_of s = u.
Proof.
  induction l as [|x l IH]; cbn; [done|]. case_bool_decide as E; [intros [= ->]; split; [apply elem_of_cons; by left|done]|].
  intros H. destruct (IH H). split; [apply elem_of_cons; by right|done].
Qed.

Lemma peer_in_app l s u : peer_in (l ++ [s]) u = match peer_in l u with Some x => Some x | None => if bool_decide (uuid_of s = u) then Some s else None end.
Proof. induction l as [|x l IH]; cbn; [done|]. destruct (bool_decide (uuid_of x = u)); [done|exact IH]. Qed.

Lemma peer_in_unique l i s : NoDup ((fun s => uuid_of s) <$> l) -> l !! i = Some s -> peer_in l (uuid_of s) = Some s.
Proof.
  revert i. induction l as [|x l IH]; intros i; [done|]. rewrite fmap_cons, NoDup_cons. intros [Hx Hl] Hi. cbn. destruct i as [|i]; cbn in Hi.
  - injection Hi as ->. by rewrite bool_decide_true.
  - rewrite bool_decide_false; [by apply (IH i)|]. intros E. apply Hx. rewrite E. apply list_elem_of_fmap. exists s. split; [done|]. by eapply list_elem_of_lookup_2.
Qed.

Lemma uuids_insert (l : list PeerSlot) i old s : l !! i = Some old -> uuid_of s = uuid_of old -> (fun s => uuid_of s) <$> <[i := s]> l = (fun s => uuid_of s) <$> l.
Proof. intros Hi E. rewrite list_fmap_insert. cbn. rewrite E. apply list_insert_id. by rewrite list_lookup_fmap, Hi. Qed.

Lemma peer_in_insert l i old s u : NoDup ((fun s => uuid_of s) <$> l) -> l !! i = Some old -> uuid_of s = uuid_of old ->
  peer_in (<[i := s]> l) u = if bool_decide (uuid_of s = u) then Some s else peer_in l u.
Proof.
  revert i. induction l as [|x l IH]; intros i; [done|]. rewrite fmap_cons, NoDup_cons. intros [Hx Hl] Hi E. destruct i as [|i]; cbn in Hi.
  - injection Hi as ->. change (<[0%nat := s]> (old :: l)) with (s :: l). cbn. rewrite <- E. by case_bool_decide.
  - change (<[S i := s]> (x :: l)) with (x :: <[i := s]> l). cbn [peer_in]. rewrite (IH i Hl Hi E). destruct (decide (uuid_of s = u)) as [Es|Es], (decide (uuid_of x = u)) as [Ex|Ex]; rewrite ?(bool_decide_true _ Es), ?(bool_decide_false _ Es), ?(bool_decide_true _ Ex), ?(bool_decide_false _ Ex); try done.
    exfalso. apply Hx. rewrite Ex, <- Es, E. apply list_elem_of_fmap. exists old. split; [done|]. by eapply list_elem_of_lookup_2.
Qed.

(** ** The order of the knowledge *)

Definition key_of (h : PeerHealth) : Z * Z := (incarnation h, state_rank_ (state h)).
Definition event_key (e : SwimEvent) : Z * Z := (ev_incarnation e, state_rank_ (ev_state e)).

Definition key_le (a b : Z * Z) : Prop := a.1 < b.1 \/ a.1 = b.1 /\ a.2 <= b.2.

#[export] Instance key_le_order : PartialOrder key_le.
Proof.
  split; [split; [intros [a b]; unfold key_le; cbn; lia|intros [a b] [c d] [e f]; unfold key_le; cbn; lia]|].
  intros [a b] [c d]. unfold key_le. cbn. intros H1 H2. f_equal; lia.
Qed.

(** What a membership knows about a peer. *)
Definition status (M : Swim) (u : Uuid) : option (Z * Z) := (fun s => key_of (health_ s)) <$> peer_in (peers M) u.

Definition known_le (a b : option (Z * Z)) : Prop := match a, b with None, _ => True | Some x, Some y => key_le x y | Some _, None => False end.

#[export] Instance known_le_preorder : PreOrder known_le.
Proof.
  split; [intros [x|]; cbn; [reflexivity|done]|]. intros [x|] [y|] [z|]; cbn; try done. apply transitivity.
Qed.

(** [o] is the greatest key of the set. *)
Definition greatest (K : Z * Z -> Prop) (o : option (Z * Z)) : Prop :=
  match o with None => forall k, ~ K k | Some k => K k /\ forall k', K k' -> key_le k' k end.

Lemma greatest_unique K o o' : greatest K o -> greatest K o' -> o = o'.
Proof.
  destruct o as [k|], o' as [k'|]; cbn; [|intros [H _] H'; by destruct (H' k)|intros H' [H _]; by destruct (H' k')|done].
  intros [H1 H2] [H3 H4]. f_equal. apply (anti_symm key_le); auto.
Qed.

Lemma greatest_ext K K' o : (forall k, K k <-> K' k) -> greatest K o -> greatest K' o.
Proof. intros E. destruct o as [k|]; cbn; [|intros H k; rewrite <- E; apply H]. intros [H1 H2]. split; [by apply E|]. intros k' Hk. apply H2. by apply E. Qed.

Lemma newer_spec e s : event_newer_ e s = true <-> ~ key_le (event_key e) (key_of (health_ s)).
Proof.
  unfold event_newer_, key_le, event_key, key_of. cbn. destruct (Z.eqb_spec (ev_incarnation e) (incarnation (health_ s))); rewrite Z.ltb_lt; lia.
Qed.

#[export] Instance key_le_dec a b : Decision (key_le a b).
Proof. unfold key_le. apply _. Defined.

Lemma key_le_total a b : key_le a b \/ key_le b a.
Proof. unfold key_le. lia. Qed.

(** ** The invariant *)

Section Proofs.
Context (MaxPeers MaxPiggyback : Z) (HP : slot_capacity MaxPeers) (HQ : slot_capacity MaxPiggyback).

Abbreviation uuids M := ((fun s => uuid_of s) <$> peers M).

Record swim_ok (M : Swim) : Prop := {
  so_length : Z.of_nat (length (slots_ M)) = MaxPeers;
  so_count : 0 <= count_ M <= MaxPeers;
  so_unique : NoDup (uuids M);
  so_named : zero_uuid ∉ uuids M;
  so_queue : queue_ok MaxPiggyback (piggyback_ M) (piggyback_count_ M);
  so_cursor : 0 <= probe_cursor_ M;
  so_cache : Z.of_nat (length (live_cache_ M)) = MaxPeers;
}.

Lemma peers_length M : swim_ok M -> Z.of_nat (length (peers M)) = count_ M.
Proof using Type. intros HM. apply front_length. destruct HM. lia. Qed.

Lemma peers_get M (i : nat) s : peers M !! i = Some s -> aget no_peer (slots_ M) (Z.of_nat i) = s.
Proof using Type.
  unfold peers, front, aget. intros H. pose proof (lookup_lt_Some _ _ _ H) as Hl. rewrite length_take in Hl. rewrite lookup_take_lt in H by lia. by rewrite Nat2Z.id, H.
Qed.

Lemma find_index_some M u i : find_index_ M u = Some i ->
  0 <= i /\ peers M !! Z.to_nat i = Some (aget no_peer (slots_ M) i) /\ uuid_of (aget no_peer (slots_ M) i) = u.
Proof using Type.
  intros H. apply find_from_some in H as (s & Hi & Hs & Hp & _). rewrite Z.sub_0_r in Hs. apply bool_decide_eq_true in Hp. pose proof (peers_get _ _ _ Hs) as E.
  rewrite Z2Nat.id in E by lia. by rewrite E.
Qed.

Lemma find_index_none M u : find_index_ M u = None <-> u ∉ uuids M.
Proof using Type.
  split.
  - intros H. apply peer_in_none. pose proof (find_from_none _ _ _ H) as Hn. clear H. induction (peers M) as [|s l IH]; [done|]. cbn. specialize (Hn s ltac:(apply elem_of_cons; by left)) as E.
    rewrite E. apply IH. intros y Hy. apply Hn. apply elem_of_cons. by right.
  - intros H. apply find_from_is_none. intros s Hs. apply bool_decide_eq_false. intros <-. apply H. apply list_elem_of_fmap. eauto.
Qed.

Lemma index_status M u i : swim_ok M -> find_index_ M u = Some i -> peer_in (peers M) u = Some (aget no_peer (slots_ M) i).
Proof using Type. intros HM H. apply find_index_some in H as (_ & Hs & <-). eapply peer_in_unique; [apply so_unique, HM|exact Hs]. Qed.

Lemma index_none M u : find_index_ M u = None -> peer_in (peers M) u = None.
Proof using Type. intros H. by apply peer_in_none, find_index_none. Qed.

(** ** What a call stores *)

Lemma append_event_ok M s : swim_ok M -> swim_ok (append_event_ MaxPiggyback M s).
Proof using HQ.
  intros [? ? ? ? Hq ? ?]. pose proof (queue_append_ok MaxPiggyback no_event (piggyback_ M) (piggyback_count_ M)) as Ha. split; try done. cbn.
  specialize (Ha (mkEvent (identity s) (state (health_ s)) (consecutive_misses (health_ s)) (incarnation (health_ s)) (u64 (sequence_ M + 1))) ltac:(destruct HQ; lia) Hq).
  destruct (queue_append _ _ _ _ _) as [arr cnt]. apply Ha.
Qed.

(** [M'] is a membership that knows [s] under its uuid, and the other peers as [M]. *)
Definition stored (M M' : Swim) (s : PeerSlot) : Prop :=
  swim_ok M' /\ config_ M' = config_ M /\ forall v, peer_in (peers M') v = if bool_decide (uuid_of s = v) then Some s else peer_in (peers M) v.

Lemma store_new M s : swim_ok M -> count_ M < MaxPeers -> uuid_of s <> zero_uuid -> find_index_ M (uuid_of s) = None ->
  stored M (append_event_ MaxPiggyback (set_slots M (aset (slots_ M) (count_ M) s) (count_ M + 1)) s) s.
Proof using HQ.
  intros HM Hc Hz Hf. pose proof HM as [Hl Hn Hu Hz' ? ? ?]. apply find_index_none in Hf.
  assert (E : peers (set_slots M (aset (slots_ M) (count_ M) s) (count_ M + 1)) = peers M ++ [s]) by (apply front_push; lia).
  split_and!; [|done|].
  - apply append_event_ok. split; try done; cbn.
    + by rewrite length_aset.
    + lia.
    + rewrite E, fmap_app. apply NoDup_app. split; [done|]. split; [|apply NoDup_singleton]. intros x Hx Hy. apply list_elem_of_singleton in Hy. subst x. done.
    + rewrite E, fmap_app, elem_of_app. intros [H|H]; [done|]. apply list_elem_of_singleton in H. congruence.
  - intros v. change (peers (append_event_ _ ?m _)) with (peers m). rewrite E, peer_in_app. case_bool_decide as Ev; [|by destruct (peer_in (peers M) v)].
    rewrite <- Ev. apply peer_in_none in Hf. by rewrite Hf.
Qed.

Lemma store_at M i u s : swim_ok M -> find_index_ M u = Some i -> uuid_of s = u -> stored M (append_event_ MaxPiggyback (set_slot M i s) s) s.
Proof using HQ.
  intros HM Hf Eu. pose proof HM as [Hl Hn Hu Hz ? ? ?]. pose proof (find_index_some M u i Hf) as (Hi & Hs & Hu'). pose proof (peers_length M HM) as Hp.
  pose proof (lookup_lt_Some _ _ _ Hs) as Hlt. assert (E : peers (set_slot M i s) = <[Z.to_nat i := s]> (peers M)) by (apply front_set; lia).
  assert (Eq : uuids (set_slot M i s) = uuids M) by (rewrite E; eapply uuids_insert; [exact Hs|congruence]).
  split_and!; [|done|].
  - apply append_event_ok. split; try done; cbn; [by rewrite length_aset|by rewrite Eq|by rewrite Eq].
  - intros v. change (peers (append_event_ _ ?m _)) with (peers m). rewrite E. eapply peer_in_insert; [done|exact Hs|congruence].
Qed.

Lemma update_stored M i u h : swim_ok M -> find_index_ M u = Some i ->
  stored M (update_slot MaxPiggyback M i h) (mkPeer (identity (aget no_peer (slots_ M) i)) h (sequence_ M)).
Proof using HQ. intros HM Hf. apply (store_at M i u); [done|done|]. by apply find_index_some in Hf as (_ & _ & ?). Qed.

(** How a call moves the knowledge: not at all, or to [k] for the peer [u]. *)
Definition moved (M M' : Swim) (u : Uuid) (k : Z * Z) : Prop :=
  swim_ok M' /\ config_ M' = config_ M /\ forall v, status M' v = if bool_decide (u = v) then Some k else status M v.

Lemma stored_moved M M' s u k : stored M M' s -> uuid_of s = u -> key_of (health_ s) = k -> moved M M' u k.
Proof using Type. intros (H1 & H2 & H3) <- <-. split_and!; [done|done|]. intros v. unfold status. rewrite H3. by case_bool_decide. Qed.

Lemma moved_self M k u : swim_ok M -> status M u = Some k -> moved M M u k.
Proof using Type. intros HM Hk. split_and!; [done|done|]. intros v. case_bool_decide; [by subst|done]. Qed.

(** ** Gossip *)

Lemma known_status M v : v ∈ uuids M <-> status M v <> None.
Proof using Type.
  unfold status. pose proof (peer_in_none (peers M) v) as H. destruct (peer_in (peers M) v) as [s|] eqn:Es; cbn.
  - split; [done|intros _]. apply peer_in_some in Es as [Hs <-]. apply list_elem_of_fmap. eauto.
  - split; [|done]. intros Hv. by destruct (proj1 H eq_refl).
Qed.

(** A peer that moves up to the key of an event, or that is there already. *)
Lemma greatest_moved M M' u k k' : moved M M' u k' -> (k' = k /\ known_le (status M u) (Some k') \/ status M u = Some k' /\ key_le k k') ->
  forall v, greatest (fun x => status M v = Some x \/ u = v /\ k = x) (status M' v).
Proof using Type.
  intros (_ & _ & Hs) Hk v. rewrite Hs. case_bool_decide as E; [subst v|].
  - cbn. destruct Hk as [[-> Hle]|[Hk Hle]].
    + split; [by right|]. intros x [Hx|[_ <-]]; [by rewrite Hx in Hle|reflexivity].
    + split; [by left|]. intros x [Hx|[_ <-]]; [|done]. rewrite Hk in Hx. injection Hx as ->. reflexivity.
  - destruct (status M v) as [x|]; cbn; [|intros x [Hx|[Hx _]]; done]. split; [by left|]. intros x' [[= ->]|[Hx _]]; [reflexivity|done].
Qed.

Lemma apply_gossip_ok M e now : swim_ok M -> uuid (ev_peer e) <> zero_uuid -> (uuid (ev_peer e) ∈ uuids M \/ count_ M < MaxPeers) ->
  exists M' k, apply_gossip MaxPeers MaxPiggyback M e now = (inr tt, M') /\ moved M M' (uuid (ev_peer e)) k /\
    (k = event_key e /\ known_le (status M (uuid (ev_peer e))) (Some k) \/ status M (uuid (ev_peer e)) = Some k /\ key_le (event_key e) k).
Proof using HQ.
  intros HM Hz Hroom. unfold apply_gossip. rewrite (proj2 (is_zero_false _) Hz). destruct (find_index_ M (uuid (ev_peer e))) as [i|] eqn:Ef.
  - pose proof (index_status M _ i HM Ef) as Hs. assert (Est : status M (uuid (ev_peer e)) = Some (key_of (health_ (aget no_peer (slots_ M) i)))) by (unfold status; by rewrite Hs).
    destruct (event_newer_ e _) eqn:En.
    + eexists _, (event_key e). split; [reflexivity|]. split; [eapply stored_moved; [by eapply store_at|done|done]|]. left. split; [done|]. rewrite Est. cbn.
      apply newer_spec in En. by destruct (key_le_total (event_key e) (key_of (health_ (aget no_peer (slots_ M) i)))).
    + eexists _, _. split; [reflexivity|]. split; [by apply moved_self|]. right. split; [done|]. destruct (decide (key_le (event_key e) (key_of (health_ (aget no_peer (slots_ M) i))))) as [H|H]; [done|].
      apply newer_spec in H. congruence.
  - pose proof (proj1 (find_index_none M _) Ef) as Hn. destruct Hroom as [?|Hroom]; [done|]. unfold reserve_next, full. rewrite (proj2 (Z.leb_gt _ _)) by lia.
    eexists _, (event_key e). split; [reflexivity|]. split; [eapply stored_moved; [by apply store_new|done|done]|]. left. split; [done|].
    unfold status. by rewrite (index_none M _ Ef).
Qed.
(** Events in the order of their arrival, each with the clock at that time: the
    answers of apply_gossip and the membership that they leave. *)
Fixpoint gossip_all (M : Swim) (es : list (SwimEvent * Z)) : list (expected unit SwimError) * Swim :=
  match es with
  | [] => ([], M)
  | (e, now) :: es =>
      let '(r, M) := apply_gossip MaxPeers MaxPiggyback M e now in
      let '(rs, M) := gossip_all M es in (r :: rs, M)
  end.

(** The answer to an event when the table has room: an event without a name is
    refused, and no other. *)
Definition gossip_answer (e : SwimEvent * Z) : expected unit SwimError := if is_zero (uuid (ev_peer e.1)) then inl ZeroUuid else inr tt.

(** What is known of a peer from a membership and from the events that name it. *)
Definition heard (M : Swim) (es : list (SwimEvent * Z)) (v : Uuid) (k : Z * Z) : Prop :=
  status M v = Some k \/ exists e now, (e, now) ∈ es /\ uuid (ev_peer e) = v /\ v <> zero_uuid /\ event_key e = k.

(** The peers that the membership knows and that the events name are among
    [names], and the table has a slot for each of these. *)
Record room_for (M : Swim) (es : list (SwimEvent * Z)) (names : list Uuid) : Prop := {
  rf_peers : forall v, v ∈ uuids M -> v ∈ names;
  rf_events : forall e now, (e, now) ∈ es -> uuid (ev_peer e) <> zero_uuid -> uuid (ev_peer e) ∈ names;
  rf_length : Z.of_nat (length names) <= MaxPeers;
}.

Lemma room_left M names u : swim_ok M -> (forall v, v ∈ uuids M -> v ∈ names) -> u ∈ names -> Z.of_nat (length names) <= MaxPeers -> u ∈ uuids M \/ count_ M < MaxPeers.
Proof using Type.
  intros HM Hn Hu Hl. destruct (decide (u ∈ uuids M)) as [H|H]; [by left|]. right. assert (Hd : NoDup (u :: uuids M)) by (apply NoDup_cons; split; [done|apply so_unique, HM]).
  assert (Hs : u :: uuids M ⊆+ names). { apply NoDup_submseteq; [done|]. intros v [->|Hv]%elem_of_cons; [done|by apply Hn]. }
  apply submseteq_length in Hs. cbn in Hs. rewrite length_fmap in Hs. pose proof (peers_length M HM). lia.
Qed.

Lemma greatest_trans M M' u e es v : uuid (ev_peer e.1) = u -> u <> zero_uuid ->
  greatest (fun x => status M v = Some x \/ u = v /\ event_key e.1 = x) (status M' v) -> forall o, greatest (heard M' es v) o -> greatest (heard M (e :: es) v) o.
Proof using Type.
  intros Hu Hnz H1 o H2. assert (Hsub : forall k, heard M (e :: es) v k -> exists k', heard M' es v k' /\ key_le k k').
  { intros k Hk. assert (Hd : (status M v = Some k \/ u = v /\ event_key e.1 = k) \/ exists e now, (e, now) ∈ es /\ uuid (ev_peer e) = v /\ v <> zero_uuid /\ event_key e = k).
    { destruct Hk as [Hk|(f & now & [Ef|Hf]%elem_of_cons & Hv & Hz & Hk)]; [by left; left|left; right; by subst|right; eauto 6]. }
    destruct Hd as [Hd|Hd]; [|exists k; split; [by right|reflexivity]]. destruct (status M' v) as [k'|] eqn:Es; [|by destruct (H1 k)].
    exists k'. split; [by left|by apply H1]. }
  assert (Hsup : forall k, heard M' es v k -> heard M (e :: es) v k).
  { intros k [Hk|(f & now & Hf & Hv & Hz & Hk)]; [|right; exists f, now; split; [by apply elem_of_cons; right|done]].
    rewrite Hk in H1. destruct H1 as [[H1|[H1 H1']] _]; [by left|]. right. exists e.1, e.2. rewrite <- surjective_pairing. split; [apply elem_of_cons; by left|]. split_and!; [congruence|congruence|done]. }
  destruct o as [k|]; cbn in *.
  - destruct H2 as [H2 H3]. split; [by apply Hsup|]. intros x Hx. destruct (Hsub x Hx) as (x' & Hx' & Hle). transitivity x'; [done|by apply H3].
  - intros k Hk. destruct (Hsub k Hk) as (k' & Hk' & _). by destruct (H2 k').
Qed.

(** An event without a name is refused and leaves the membership. *)
Lemma apply_gossip_zero M e now : uuid (ev_peer e) = zero_uuid -> apply_gossip MaxPeers MaxPiggyback M e now = (inl ZeroUuid, M).
Proof using Type. intros Hz. unfold apply_gossip. by rewrite Hz. Qed.

Lemma gossip_all_ok M es names : swim_ok M -> room_for M es names ->
  exists M', gossip_all M es = (gossip_answer <$> es, M') /\ swim_ok M' /\ forall v, greatest (heard M es v) (status M' v).
Proof using HQ.
  revert M. induction es as [|[e now] es IH]; intros M HM [Hn He Hl].
  { exists M. split; [done|]. split; [done|]. intros v. destruct (status M v) as [k|] eqn:Es; cbn.
    - split; [by left|]. intros k' [Hk|(? & ? & H & _)]; [rewrite Es in Hk; injection Hk as ->; reflexivity|by apply not_elem_of_nil in H].
    - intros k [Hk|(? & ? & H & _)]; [congruence|by apply not_elem_of_nil in H]. }
  assert (He' : forall f t, (f, t) ∈ es -> uuid (ev_peer f) <> zero_uuid -> uuid (ev_peer f) ∈ names) by (intros f t Hf; apply (He f t); by right).
  cbn [gossip_all fmap list_fmap]. unfold gossip_answer at 1. cbn [fst]. destruct (decide (uuid (ev_peer e) = zero_uuid)) as [Hz|Hz].
  - rewrite (apply_gossip_zero M e now Hz), Hz. destruct (IH M HM) as (M' & E' & HM' & Hg'); [by split|]. rewrite E'. exists M'. split; [done|]. split; [done|].
    intros v. eapply greatest_ext; [|apply Hg']. intros k. unfold heard. split; (intros [Hk|(f & t & Hf & Hv & Hnz & Hk)]; [by left|right]).
    + exists f, t. split; [by apply elem_of_cons; right|done].
    + apply elem_of_cons in Hf as [[= -> ->]|Hf]; [congruence|]. by exists f, t.
  - rewrite (proj2 (is_zero_false _) Hz). pose proof (He e now ltac:(left) Hz) as Hu.
    destruct (apply_gossip_ok M e now HM Hz (room_left M names _ HM Hn Hu Hl)) as (M1 & k & E1 & Hmv & Hk). rewrite E1.
    pose proof (greatest_moved M M1 _ _ _ Hmv Hk) as Hg. destruct Hmv as (HM1 & _ & Hs1). destruct (IH M1 HM1) as (M' & E' & HM' & Hg').
    { split; [|done|done]. intros v Hv. apply known_status in Hv. rewrite Hs1 in Hv. case_bool_decide as Ev; [by subst|]. by apply Hn, known_status. }
    rewrite E'. exists M'. split; [done|]. split; [done|]. intros v.
    apply (greatest_trans M M1 (uuid (ev_peer e)) (e, now)); [done|done|apply Hg|apply Hg'].
Qed.

(** C35: Gossip converges when the table has room.  Let two memberships know the
    same about each peer, and let the peers that they know and that the events
    name fit in the table ([names] holds them all and is at most MaxPeers long).
    Then, in whatever order, with whatever repetition and at whatever times the
    events arrive, an event with the zero uuid is refused with ZeroUuid and every
    other one is accepted; and when both have received the same events they know
    the same about each peer: the greatest pair of an incarnation and a state
    (alive, then suspect, then dead) that either of them knew or received. *)
Theorem swim_gossip_converges M1 M2 es1 es2 names : swim_ok M1 -> swim_ok M2 -> room_for M1 es1 names -> room_for M2 es2 names ->
  (forall v, status M1 v = status M2 v) -> (forall e, (exists now, (e, now) ∈ es1) <-> (exists now, (e, now) ∈ es2)) ->
  exists M1' M2', gossip_all M1 es1 = (gossip_answer <$> es1, M1') /\ gossip_all M2 es2 = (gossip_answer <$> es2, M2') /\ swim_ok M1' /\ swim_ok M2' /\
    forall v, status M1' v = status M2' v /\ greatest (heard M1 es1 v) (status M1' v).
Proof using HQ.
  intros H1 H2 R1 R2 Hs He. destruct (gossip_all_ok M1 es1 names H1 R1) as (M1' & E1 & O1 & G1). destruct (gossip_all_ok M2 es2 names H2 R2) as (M2' & E2 & O2 & G2).
  exists M1', M2'. split_and!; [done|done|done|done|]. intros v. split; [|apply G1]. eapply greatest_unique; [apply G1|]. eapply greatest_ext; [|apply (G2 v)].
  intros k. unfold heard. rewrite Hs. split; (intros [H|(e & now & H & Hr)]; [by left|]; right); [destruct (proj2 (He e) (ex_intro _ now H)) as [t Ht]|destruct (proj1 (He e) (ex_intro _ now H)) as [t Ht]]; eauto.
Qed.
(** ** The calls of a membership *)

Inductive swim_call :=
| CAdd (id : CogIdentity) | CRemove (id : CogIdentity) | CAck (u : Uuid) (now : Z) | CTimeout (u : Uuid)
| CGossip (e : SwimEvent) (now : Z) | CProbe (now : Z) | CSent (n : nat) | CLive.

Definition call (M : Swim) (c : swim_call) : Swim :=
  match c with
  | CAdd id => (add_peer MaxPeers MaxPiggyback M id).2
  | CRemove id => (remove_peer MaxPiggyback M id).2
  | CAck u now => (on_ack MaxPiggyback M u now).2
  | CTimeout u => (on_ping_timeout MaxPiggyback M u).2
  | CGossip e now => (apply_gossip MaxPeers MaxPiggyback M e now).2
  | CProbe now => (next_probe M now).2
  | CSent n => acknowledge_piggybacks M (Z.of_nat n)
  | CLive => (live_peers M).2
  end.

(** No incarnation is at its largest value. *)
Definition incarnations_fit (M : Swim) : Prop := forall v k, status M v = Some k -> 0 <= k.1 < 2 ^ 64 - 1.

Definition grows (M M' : Swim) : Prop := swim_ok M' /\ forall v, known_le (status M v) (status M' v).

Lemma grows_refl M : swim_ok M -> grows M M.
Proof using Type. intros HM. split; [done|]. intros v. reflexivity. Qed.

Lemma grows_same M M' : swim_ok M' -> peers M' = peers M -> grows M M'.
Proof using Type. intros HM E. split; [done|]. intros v. unfold status. rewrite E. reflexivity. Qed.

Lemma moved_grows M M' u k : moved M M' u k -> known_le (status M u) (Some k) -> grows M M'.
Proof using Type. intros (H1 & _ & H2) Hk. split; [done|]. intros v. rewrite H2. case_bool_decide; [by subst|reflexivity]. Qed.

(** A transition of a known peer to a health with the next incarnation. *)
Lemma next_incarnation M u i h : swim_ok M -> incarnations_fit M -> find_index_ M u = Some i ->
  incarnation h = u64 (incarnation (health_ (aget no_peer (slots_ M) i)) + 1) -> grows M (update_slot MaxPiggyback M i h).
Proof using HQ.
  intros HM Hfit Hf Eh. pose proof (index_status M u i HM Hf) as Hs. assert (Est : status M u = Some (key_of (health_ (aget no_peer (slots_ M) i)))) by (unfold status; by rewrite Hs).
  pose proof (Hfit u _ Est) as Hb. cbn in Hb. eapply moved_grows; [eapply stored_moved; [by eapply update_stored|by apply find_index_some in Hf as (_ & _ & ?)|reflexivity]|].
  rewrite Est. cbn. left. cbn. rewrite Eh, wrap_small by lia. lia.
Qed.

Lemma on_peer_grows M u f : swim_ok M -> (forall i, find_index_ M u = Some i -> grows M (f i)) -> grows M (on_peer M u f).2.
Proof using Type. intros HM H. unfold on_peer. destruct (find_index_ M u) as [i|] eqn:Ef; [by apply H|by apply grows_refl]. Qed.

Lemma fill_live_length l cache n : length (fill_live l cache n).1 = length cache.
Proof using Type. revert cache n. induction l as [|s l IH]; intros cache n; [done|]. cbn. destruct (is_dead s); [apply IH|]. by rewrite IH, length_aset. Qed.

(** ** Probes *)

(** The peers that are not dead, from the cursor on and around. *)
Definition is_live (s : PeerSlot) : Prop := is_dead s = false.
#[local] Instance is_live_dec s : Decision (is_live s).
Proof. unfold is_live. apply _. Defined.

Definition ring (M : Swim) : list PeerSlot := filter is_live (rotate (Z.to_nat (probe_cursor_ M)) (peers M)).

Lemma rotate_nil {A} n : rotate n (@nil A) = [].
Proof using Type. unfold rotate. by rewrite drop_nil, take_nil. Qed.

Lemma rotate_more {A} (l : list A) (n k : nat) : (k <= length l)%nat ->
  rotate (Z.to_nat ((Z.of_nat n + Z.of_nat k) mod Z.of_nat (length l))) l = drop k (rotate n l) ++ take k (rotate n l).
Proof using Type.
  intros Hk. destruct (decide (length l = 0%nat)) as [H0|H0]; [apply length_zero_iff_nil in H0 as ->; by rewrite !rotate_nil, drop_nil, take_nil|].
  apply list_eq_same_length with (n := length l); [rewrite length_app, length_drop, length_take, length_rotate; lia|apply length_rotate|].
  intros i x y Hi Hx Hy. rewrite lookup_rotate_r in Hx by lia. unfold rotate_nat_add in Hx. rewrite Z2Nat.id in Hx by (apply Z.mod_pos_bound; lia). rewrite Zplus_mod_idemp_l in Hx.
  destruct (decide (i < length l - k)%nat) as [Hlt|Hge].
  - rewrite lookup_app_l, lookup_drop, lookup_rotate_r in Hy by (rewrite ?length_drop, ?length_rotate; lia). unfold rotate_nat_add in Hy. rewrite Nat2Z.inj_add, Z.add_assoc in Hy. congruence.
  - rewrite lookup_app_r, length_drop, length_rotate, lookup_take_lt, lookup_rotate_r in Hy by (rewrite ?length_drop, ?length_rotate; lia). unfold rotate_nat_add in Hy.
    replace (Z.of_nat n + Z.of_nat k + Z.of_nat i) with (Z.of_nat n + Z.of_nat (i - (length l - k)) + 1 * Z.of_nat (length l)) in Hx by lia. rewrite Z.mod_add in Hx by lia. congruence.
Qed.

Lemma ring_permutation M : ring M ≡ₚ filter is_live (peers M).
Proof using Type. unfold ring, rotate. rewrite filter_app, Permutation_app_comm, <- filter_app, take_drop. done. Qed.

(** The slot of an attempt. *)
Lemma attempt_slot M (a : nat) x : swim_ok M -> rotate (Z.to_nat (probe_cursor_ M)) (peers M) !! a = Some x ->
  aget no_peer (slots_ M) ((probe_cursor_ M + Z.of_nat a) mod count_ M) = x.
Proof using Type.
  intros HM Hx. pose proof (so_cursor _ HM). pose proof (lookup_lt_Some _ _ _ Hx) as Hl. rewrite length_rotate in Hl. pose proof (peers_length M HM) as Hp. rewrite lookup_rotate_r in Hx by done.
  unfold rotate_nat_add in Hx. rewrite Z2Nat.id, Hp in Hx by lia. apply peers_get in Hx. rewrite Z2Nat.id in Hx; [done|]. apply Z.mod_pos_bound. lia.
Qed.

Definition probed (M M' : Swim) (now : Z) (pr : SwimProbe) (x : PeerSlot) (rest : list PeerSlot) : Prop :=
  pr = mkProbe (uuid_of x) (u64 (sequence_ M + 1)) (saturated_add_ now (ack_timeout_ns (config_ M))) /\ swim_ok M' /\ peers M' = peers M /\ ring M' = rest ++ [x].

Lemma probe_loop_ok M now (a tries : nat) pre post : swim_ok M -> rotate (Z.to_nat (probe_cursor_ M)) (peers M) = pre ++ post -> length pre = a -> length post = tries ->
  Forall (fun s => ~ is_live s) pre ->
  match filter is_live post with
  | [] => probe_loop M now (Z.of_nat a) tries = (None, M)
  | x :: rest => exists pr M', probe_loop M now (Z.of_nat a) tries = (Some pr, M') /\ probed M M' now pr x rest
  end.
Proof using Type.
  intros HM. revert a pre post. induction tries as [|tries IH]; intros a pre post ER Hpre Hpost Hd; [by apply length_zero_iff_nil in Hpost as ->|].
  destruct post as [|x post]; [done|]. injection Hpost as Hpost. cbn [probe_loop]. rewrite (attempt_slot M a x HM) by (rewrite ER, lookup_app_r by lia; rewrite Hpre, Nat.sub_diag; done).
  rewrite filter_cons. destruct (decide (is_live x)) as [Hx|Hx]; [rewrite Hx|assert (Ex : is_dead x = true) by (unfold is_live in Hx; by destruct (is_dead x)); rewrite Ex]; cycle 1.
  - replace (Z.of_nat a + 1) with (Z.of_nat (S a)) by lia. apply (IH (S a) (pre ++ [x])); [by rewrite <- app_assoc|rewrite length_app; cbn; lia|done|].
    apply Forall_app. split; [done|]. by constructor.
  - eexists _, _. split; [reflexivity|]. pose proof (so_cursor _ HM). pose proof (peers_length M HM) as Hp.
    assert (Hlen : length (peers M) = (a + S (length post))%nat) by (rewrite <- (length_rotate (peers M) (Z.to_nat (probe_cursor_ M))), ER, length_app; cbn; lia).
    split_and!; [done| |done|].
    + destruct HM. split; try done. apply Z.mod_pos_bound. lia.
    + unfold ring. cbn [probe_cursor_ set_probe]. change (peers (set_probe M _ _)) with (peers M).
      replace (((probe_cursor_ M + Z.of_nat a) mod count_ M + 1) mod count_ M) with ((Z.of_nat (Z.to_nat (probe_cursor_ M)) + Z.of_nat (S a)) mod Z.of_nat (length (peers M)))
        by (rewrite Hp, Zplus_mod_idemp_l; f_equal; lia).
      rewrite rotate_more by lia. rewrite ER. replace (pre ++ x :: post) with ((pre ++ [x]) ++ post) by (by rewrite <- app_assoc).
      rewrite drop_app_length', take_app_length' by (rewrite length_app; cbn; lia). rewrite !filter_app. f_equal. replace (filter is_live pre) with (@nil PeerSlot).
      * change (filter is_live [x] = [x]). by rewrite filter_cons, decide_True.
      * symmetry. clear - Hd. induction Hd; [done|]. rewrite filter_cons. by rewrite decide_False.
Qed.

Lemma next_probe_ok M now : swim_ok M ->
  match ring M with
  | [] => next_probe M now = (None, M)
  | x :: rest => exists pr M', next_probe M now = (Some pr, M') /\ probed M M' now pr x rest
  end.
Proof using Type.
  intros HM. pose proof (peers_length M HM) as Hp. unfold next_probe. destruct (Z.eqb_spec (count_ M) 0) as [E|E].
  - unfold ring. replace (peers M) with (@nil PeerSlot) by (symmetry; apply length_zero_iff_nil; lia). by rewrite rotate_nil.
  - apply (probe_loop_ok M now 0 (Z.to_nat (count_ M)) []); [done|done|done|rewrite length_rotate; lia|constructor].
Qed.

(** Probes at the given times, with no other call between them. *)
Fixpoint probe_run (M : Swim) (nows : list Z) : list (option Uuid) * Swim :=
  match nows with
  | [] => ([], M)
  | now :: nows => let '(pr, M) := next_probe M now in let '(targets, M) := probe_run M nows in ((pr_target <$> pr) :: targets, M)
  end.

Lemma probe_run_ok nows M first rest : swim_ok M -> ring M = first ++ rest -> length nows = length first ->
  exists M', probe_run M nows = ((fun s => Some (uuid_of s)) <$> first, M') /\ swim_ok M' /\ peers M' = peers M /\ ring M' = rest ++ first.
Proof using Type.
  revert M first rest. induction nows as [|now nows IH]; intros M first rest HM ER Hl; destruct first as [|x first]; try done.
  - exists M. split_and!; [done|done|done|by rewrite app_nil_r].
  - injection Hl as Hl. pose proof (next_probe_ok M now HM) as Hp. rewrite ER in Hp. cbn [app] in Hp. destruct Hp as (pr & M1 & E1 & -> & HM1 & Ep & Er).
    rewrite <- app_assoc in Er. destruct (IH M1 first (rest ++ [x]) HM1 Er Hl) as (M' & E' & HM' & Ep' & Er'). exists M'. cbn [probe_run]. rewrite E1, E'.
    split_and!; [done|done|congruence|]. by rewrite Er', <- app_assoc.
Qed.

(** C36: Probing is a fair round robin.  When there are as many probes as peers
    that are not dead, with no other call between them, each such peer is
    probed exactly once, and the next round takes them in the same order.  A
    dead peer is never probed, and no probe changes a peer. *)
Theorem swim_probes_round_robin M nows : swim_ok M -> length nows = length (filter is_live (peers M)) ->
  exists M' order, probe_run M nows = ((fun s => Some (uuid_of s)) <$> order, M') /\ order ≡ₚ filter is_live (peers M) /\
    swim_ok M' /\ peers M' = peers M /\ ring M' = order /\ ring M = order.
Proof using Type.
  intros HM Hl. rewrite <- (Permutation_length (ring_permutation M)) in Hl. destruct (probe_run_ok nows M (ring M) [] HM ltac:(by rewrite app_nil_r) Hl) as (M' & E & HM' & Ep & Er).
  exists M', (ring M). split_and!; [done|apply ring_permutation|done|done|done|done].
Qed.

(** ** The invariant and the growth of knowledge *)

Lemma add_peer_grows M id : swim_ok M -> grows M (add_peer MaxPeers MaxPiggyback M id).2.
Proof using HQ.
  intros HM. unfold add_peer. destruct (is_zero (uuid id)) eqn:Ez; [by apply grows_refl|]. destruct (find_index_ M (uuid id)) as [i|] eqn:Ef; [by apply grows_refl|].
  unfold reserve_next, full. destruct (Z.leb_spec MaxPeers (count_ M)); [by apply grows_refl|]. eapply moved_grows.
  - eapply (stored_moved _ _ _ (uuid id)); [apply store_new; [done|done|by apply is_zero_false|done]|done|reflexivity].
  - unfold status. by rewrite (index_none M _ Ef).
Qed.

Lemma apply_gossip_grows M e now : swim_ok M -> grows M (apply_gossip MaxPeers MaxPiggyback M e now).2.
Proof using HQ.
  intros HM. destruct (decide (uuid (ev_peer e) = zero_uuid)) as [Ez|Ez]; [unfold apply_gossip; rewrite (proj2 (is_zero_true _) Ez); by apply grows_refl|].
  destruct (decide (uuid (ev_peer e) ∈ uuids M \/ count_ M < MaxPeers)) as [Hr|Hr].
  - destruct (apply_gossip_ok M e now HM Ez Hr) as (M' & k & E & Hmv & Hk). rewrite E. eapply moved_grows; [exact Hmv|]. destruct Hk as [[_ Hk]|[-> _]]; [done|reflexivity].
  - unfold apply_gossip. rewrite (proj2 (is_zero_false _) Ez). rewrite (proj2 (find_index_none M _)) by (intros H; apply Hr; by left).
    unfold reserve_next, full. rewrite (proj2 (Z.leb_le _ _)) by (apply Z.nlt_ge; intros H; apply Hr; by right). by apply grows_refl.
Qed.

Lemma call_grows M c : swim_ok M -> incarnations_fit M -> grows M (call M c).
Proof using HP HQ.
  intros HM Hfit. destruct c as [id|id|u now|u|e now|now|n|]; cbn [call].
  - by apply add_peer_grows.
  - apply on_peer_grows; [done|]. intros i Hi. unfold mark_dead_. case_bool_decide; [by apply grows_refl|]. by eapply next_incarnation.
  - apply on_peer_grows; [done|]. intros i Hi. by eapply next_incarnation.
  - apply on_peer_grows; [done|]. intros i Hi. unfold miss_. case_bool_decide; [by apply grows_refl|]. by eapply next_incarnation.
  - by apply apply_gossip_grows.
  - pose proof (next_probe_ok M now HM) as Hp. destruct (ring M); [rewrite Hp; by apply grows_refl|]. destruct Hp as (pr & M' & -> & _ & HM' & Ep & _). by apply grows_same.
  - apply grows_same; [|done]. destruct HM as [? ? ? ? Hq ? ?]. pose proof (queue_drop_ok MaxPiggyback no_event (piggyback_ M) (piggyback_count_ M) (Z.of_nat n) ltac:(lia) Hq) as Hd.
    split; try done. unfold acknowledge_piggybacks, set_piggyback. cbn [piggyback_ piggyback_count_]. destruct (queue_drop _ _ _ _). apply Hd.
  - unfold live_peers. pose proof (fill_live_length (peers M) (live_cache_ M) 0) as Hl. destruct (fill_live _ _ _) as [cache n]. apply grows_same; [|done]. destruct HM. split; try done. cbn in *. lia.
Qed.

Lemma empty_swim_ok config : swim_ok (empty_swim MaxPeers MaxPiggyback config).
Proof using HP HQ.
  destruct HP, HQ. split; cbn.
  - rewrite length_replicate. lia.
  - lia.
  - constructor.
  - apply not_elem_of_nil.
  - split; [rewrite length_replicate|]; lia.
  - lia.
  - rewrite length_replicate. lia.
Qed.

(** A history of calls, with every incarnation below its largest value. *)
Inductive history : Swim -> list swim_call -> Swim -> Prop :=
| h_nil M : history M [] M
| h_cons M c cs M' : incarnations_fit M -> history (call M c) cs M' -> history M (c :: cs) M'.

Lemma grows_trans M1 M2 M3 : grows M1 M2 -> grows M2 M3 -> grows M1 M3.
Proof using Type. intros [_ H1] [H2 H3]. split; [done|]. intros v. by transitivity (status M2 v). Qed.

(** The membership stays well formed and forgets nothing.  From a new
    membership, after any history of calls, the table and the queue are
    inside their arrays, no two peers have one uuid and none has the zero
    uuid; and over any further calls what is known about a peer only moves
    up, from one incarnation to the next and from alive to suspect to dead
    inside an incarnation, while the incarnations are below 2^64 - 1. *)
Theorem swim_history_grows config before M after M' : history (empty_swim MaxPeers MaxPiggyback config) before M -> history M after M' ->
  swim_ok M' /\ forall v, known_le (status M v) (status M' v).
Proof using HP HQ.
  assert (Hrun : forall M cs M', history M cs M' -> swim_ok M -> grows M M').
  { induction 1 as [M1|M1 c cs M2 Hfit _ IH]; intros HM; [by apply grows_refl|]. pose proof (call_grows M1 c HM Hfit) as Hg. eapply grows_trans; [exact Hg|]. apply IH, Hg. }
  intros Hb Ha. destruct (Hrun _ _ _ Hb (empty_swim_ok config)) as [HM _]. exact (Hrun _ _ _ Ha HM).
Qed.

(** ** Timeouts *)

Definition timeout (M : Swim) (u : Uuid) : Swim := (on_ping_timeout MaxPiggyback M u).2.

Lemma timeout_ok M u s : swim_ok M -> peer_in (peers M) u = Some s -> is_dead s = false -> consecutive_misses (health_ s) < UINT32_MAX ->
  exists s', stored M (timeout M u) s' /\ uuid_of s' = u /\ consecutive_misses (health_ s') = consecutive_misses (health_ s) + 1 /\
    state (health_ s') = if suspicion_misses (config_ M) <=? consecutive_misses (health_ s) + 1 then Dead else Suspect.
Proof using HQ.
  intros HM Hs Hd Hm. unfold timeout, on_ping_timeout, on_peer. destruct (find_index_ M u) as [i|] eqn:Ef; [|apply index_none in Ef; congruence].
  pose proof (index_status M u i HM Ef) as Hi. rewrite Hs in Hi. injection Hi as Hi. cbn [snd]. unfold miss_. rewrite <- Hi. unfold is_dead in Hd. rewrite Hd.
  rewrite (proj2 (Z.eqb_neq _ _)) by lia. eexists. split; [by eapply update_stored|]. split_and!; [by apply find_index_some in Ef as (_ & _ & ?)|done|done].
Qed.

Lemma timeout_dead M u s : swim_ok M -> peer_in (peers M) u = Some s -> is_dead s = true -> timeout M u = M.
Proof using Type.
  intros HM Hs Hd. unfold timeout, on_ping_timeout, on_peer. destruct (find_index_ M u) as [i|] eqn:Ef; [|done].
  pose proof (index_status M u i HM Ef) as Hi. rewrite Hs in Hi. injection Hi as Hi. cbn [snd]. unfold miss_. rewrite <- Hi. unfold is_dead in Hd. by rewrite Hd.
Qed.

(** A silent peer is declared dead after exactly as many timeouts as the
    configuration says.  A peer that has been heard (no misses yet) is
    suspect after one to suspicion_misses - 1 timeouts in a row and dead
    after suspicion_misses of them and after any more; the other peers do
    not change. *)
Theorem swim_timeouts_kill M u s n : swim_ok M -> peer_in (peers M) u = Some s -> is_dead s = false -> consecutive_misses (health_ s) = 0 ->
  (0 < n)%nat -> Z.of_nat n <= UINT32_MAX ->
  exists s', peer_in (peers (Nat.iter n (fun M => timeout M u) M)) u = Some s' /\
    state (health_ s') = (if suspicion_misses (config_ M) <=? Z.of_nat n then Dead else Suspect) /\
    forall v, v <> u -> peer_in (peers (Nat.iter n (fun M => timeout M u) M)) v = peer_in (peers M) v.
Proof using HQ.
  intros HM Hs Hd Hm0 Hn Hmax. set (Q := fun k M' => swim_ok M' /\ config_ M' = config_ M /\ (forall v, v <> u -> peer_in (peers M') v = peer_in (peers M) v) /\
    exists s', peer_in (peers M') u = Some s' /\ (is_dead s' = false -> consecutive_misses (health_ s') = Z.of_nat k) /\ (k <> 0%nat -> state (health_ s') = if suspicion_misses (config_ M) <=? Z.of_nat k then Dead else Suspect)).
  assert (HQ' : forall k, (k <= n)%nat -> Q k (Nat.iter k (fun M => timeout M u) M)); [|destruct (HQ' n ltac:(lia)) as (_ & _ & Ho & s' & H1 & _ & H2); exists s'; split_and!; [done|apply H2; lia|done]].
  induction k as [|k IH]; intros Hk; [split_and!; [done|done|done|by exists s]|]. rewrite Nat.iter_succ. destruct (IH ltac:(lia)) as (HM1 & Ec & Ho & s1 & Hs1 & Hm1 & Hst). set (M1 := Nat.iter k _ M) in *.
  destruct (is_dead s1) eqn:Ed1.
  - rewrite (timeout_dead M1 u s1) by done. split_and!; [done|done|done|]. exists s1. split_and!; [done|congruence|]. intros _. unfold is_dead in Ed1. apply bool_decide_eq_true in Ed1. rewrite Ed1.
    destruct k; [cbn in M1; subst M1; rewrite Hs in Hs1; injection Hs1 as <-; unfold is_dead in Hd; apply bool_decide_eq_false in Hd; done|].
    rewrite Hst in Ed1 by done. destruct (Z.leb_spec (suspicion_misses (config_ M)) (Z.of_nat (S k))); [|done]. by rewrite (proj2 (Z.leb_le _ _)) by lia.
  - specialize (Hm1 eq_refl). destruct (timeout_ok M1 u s1 HM1 Hs1 Ed1 ltac:(lia)) as (s2 & (HM2 & Ec2 & Hs2) & Eu2 & Em2 & Est2). split_and!; [done|congruence| |].
    + intros v Hv. rewrite Hs2, bool_decide_false by congruence. by apply Ho.
    + exists s2. rewrite Hs2, Eu2, bool_decide_true by done. split_and!; [done|lia|]. intros _. rewrite Est2, Ec, Hm1. by replace (Z.of_nat k + 1) with (Z.of_nat (S k)) by lia.
Qed.

(** Executable forms of the hypotheses. *)
Definition fits_b (M : Swim) : bool := forallb (fun s => (0 <=? incarnation (health_ s)) && (incarnation (health_ s) <? 2 ^ 64 - 1)) (peers M).

Lemma fits_b_ok M : fits_b M = true -> incarnations_fit M.
Proof using Type.
  unfold fits_b. rewrite forallb_forall. intros H v k Hk. unfold status in Hk. destruct (peer_in (peers M) v) as [s|] eqn:Es; [|done]. injection Hk as <-.
  apply peer_in_some in Es as [Hs _]. apply list_elem_of_In in Hs. specialize (H s Hs). apply andb_true_iff in H as [H1 H2]. cbn. lia.
Qed.

Fixpoint history_b (M : Swim) (cs : list swim_call) : bool := match cs with [] => true | c :: cs => fits_b M && history_b (call M c) cs end.

Lemma history_b_ok M cs : history_b M cs = true -> history M cs (fold_left call cs M).
Proof using Type. revert M. induction cs as [|c cs IH]; intros M; [intros _; constructor|]. cbn. intros [H1 H2]%andb_prop. constructor; [by apply fits_b_ok|by apply IH]. Qed.

Lemma history_ok M cs M' : swim_ok M -> history M cs M' -> swim_ok M'.
Proof using HP HQ. intros HM H. revert HM. induction H as [|M1 c cs M2 Hfit _ IH]; intros HM; [done|]. apply IH. by apply call_grows. Qed.
End Proofs.

(** ** Witnesses

    Four peer slots and two queued events. *)

Definition wit_id (n : Z) : CogIdentity := mkCog (mkUuid 0 n) 0 0 "" "" 0 0 0 (0, 0) (0, 0) (0, 0).
Definition wit_config : SwimConfig := mkSwimConfig 1000 500 500 3 2.

Lemma wit_peers : slot_capacity 4.
Proof. split; [reflexivity|discriminate]. Qed.
Lemma wit_events : slot_capacity 2.
Proof. split; [reflexivity|discriminate]. Qed.

Definition wit_empty : Swim := empty_swim 4 2 wit_config.
Definition wit_suspect : SwimEvent := mkEvent (wit_id 1) Suspect 1 3 9.
Definition wit_alive : SwimEvent := mkEvent (wit_id 2) Alive 0 5 9.

(** An event without a name. *)
Definition wit_nameless : SwimEvent := mkEvent (wit_id 0) Dead 0 9 9.

Lemma wit_room es : (forall e now, (e, now) ∈ es -> e = wit_suspect \/ e = wit_alive \/ e = wit_nameless) -> room_for 4 wit_empty es [mkUuid 0 1; mkUuid 0 2].
Proof.
  intros H. split; [intros v Hv; by apply not_elem_of_nil in Hv| |cbn; lia].
  intros e now He Hz. destruct (H e now He) as [-> |[-> | ->]]; [cbn; rewrite !elem_of_cons; tauto..|by destruct Hz].
Qed.

Lemma swim_gossip_converges_witness :
  let es1 := [(wit_suspect, 5); (wit_nameless, 5); (wit_alive, 6)] in
  let es2 := [(wit_alive, 7); (wit_suspect, 8); (wit_alive, 9); (wit_nameless, 9)] in
  exists M1 M2, gossip_all 4 2 wit_empty es1 = ([inr tt; inl ZeroUuid; inr tt], M1) /\ gossip_all 4 2 wit_empty es2 = ([inr tt; inr tt; inr tt; inl ZeroUuid], M2) /\
    status M1 (mkUuid 0 1) = status M2 (mkUuid 0 1) /\ status M1 (mkUuid 0 1) = Some (3, 1).
Proof.
  intros es1 es2. assert (Hin : forall es, es = es1 \/ es = es2 -> forall e now, (e, now) ∈ es -> e = wit_suspect \/ e = wit_alive \/ e = wit_nameless).
  { intros es [-> | ->] e now He; unfold es1, es2 in He; rewrite !elem_of_cons, elem_of_nil in He; naive_solver. }
  destruct (swim_gossip_converges 4 2 wit_events wit_empty wit_empty es1 es2 [mkUuid 0 1; mkUuid 0 2]) as (M1 & M2 & E1 & E2 & _ & _ & Hs).
  - apply empty_swim_ok; [exact wit_peers|exact wit_events].
  - apply empty_swim_ok; [exact wit_peers|exact wit_events].
  - apply wit_room, Hin. by left.
  - apply wit_room, Hin. by right.
  - reflexivity.
  - intros e. split; intros [now H]; unfold es1, es2 in H |- *; rewrite !elem_of_cons, elem_of_nil in H; destruct_or?; simplify_eq; eexists; rewrite !elem_of_cons; naive_solver.
  - exists M1, M2. split; [exact E1|]. split; [exact E2|]. split; [apply Hs|]. vm_compute in E1. injection E1 as <-. vm_compute. reflexivity.
Defined.

(** Peers 1 to 3 with 2 dead, and the cursor past the first peer. *)
Definition wit_calls : list swim_call := [CAdd (wit_id 1); CAdd (wit_id 2); CAdd (wit_id 3); CTimeout (mkUuid 0 2); CTimeout (mkUuid 0 2); CProbe 10].
Definition wit_swim : Swim := fold_left (call 4 2) wit_calls wit_empty.

Lemma wit_history : history 4 2 wit_empty wit_calls wit_swim.
Proof. apply history_b_ok. vm_compute. reflexivity. Qed.

Lemma wit_swim_ok : swim_ok 4 2 wit_swim.
Proof. eapply history_ok; [exact wit_peers|exact wit_events| |exact wit_history]. apply empty_swim_ok; [exact wit_peers|exact wit_events]. Qed.

Lemma swim_probes_round_robin_witness : exists M' order, probe_run wit_swim [20; 30] = ((fun s => Some (uuid (identity s))) <$> order, M') /\ ring M' = order /\
  (probe_run wit_swim [20; 30]).1 = [Some (mkUuid 0 3); Some (mkUuid 0 1)].
Proof.
  destruct (swim_probes_round_robin 4 2 wit_swim [20; 30] wit_swim_ok) as (M' & order & E & _ & _ & _ & Er & _); [vm_compute; reflexivity|]. exists M', order.
  split; [exact E|]. split; [exact Er|]. vm_compute. reflexivity.
Defined.

Lemma swim_history_grows_witness : swim_ok 4 2 (call 4 2 wit_swim (CAck (mkUuid 0 2) 50)) /\ status wit_swim (mkUuid 0 2) = Some (3, 2) /\
  known_le (status wit_swim (mkUuid 0 2)) (status (call 4 2 wit_swim (CAck (mkUuid 0 2) 50)) (mkUuid 0 2)).
Proof.
  destruct (swim_history_grows 4 2 wit_peers wit_events wit_config wit_calls wit_swim [CAck (mkUuid 0 2) 50] (call 4 2 wit_swim (CAck (mkUuid 0 2) 50)) wit_history) as [H1 H2];
    [apply (history_b_ok 4 2 wit_swim [CAck (mkUuid 0 2) 50]); vm_compute; reflexivity|]. split; [exact H1|]. split; [vm_compute; reflexivity|exact (H2 (mkUuid 0 2))].
Defined.

Lemma swim_timeouts_kill_witness : exists s', peer_in (peers (Nat.iter 2 (fun M => timeout 2 M (mkUuid 0 3)) wit_swim)) (mkUuid 0 3) = Some s' /\ state (health_ s') = Dead.
Proof.
  destruct (swim_timeouts_kill 4 2 wit_events wit_swim (mkUuid 0 3) (mkPeer (wit_id 3) (mkHealth Alive 0 0 1) 0) 2 wit_swim_ok) as (s' & H1 & H2 & _);
    [vm_compute; reflexivity|reflexivity|reflexivity|lia|discriminate|]. exists s'. split; [exact H1|]. rewrite H2. reflexivity.
Defined.
