(* ===== verification/Lifeguard.v ===== *)
(** * Lifeguard.v: the adaptive failure detector (include/crucible/canopy/Lifeguard.h)

    A membership of Swim.v with a health multiplier and a window of
    round-trip times for each peer, and the plan by which a suspected node
    refutes the suspicion.  The two tables name the same peers, the
    multiplier and what is derived from it stay inside their bounds, and a
    refutation beats the suspicion that it answers. *)

From stdpp Require Import base list strings.
From Stdlib Require Import ZArith Lia.
From S2P Require Import Prelude.
From S2P Require Import SlotTable.
From S2P Require Import Swim.
From S2P Require Import SwimProofs.
#[local] Open Scope Z_scope.

Inductive LifeguardOutcome := OAck | OTimeout | OIndirectAck | OIndirectTimeout | ONoLossWindow.

Inductive LifeguardError := LCapacityExceeded | LDuplicatePeer | LInvalidConfig | LPeerNotFound | LZeroUuid.

Record LifeguardConfig := mkLgConfig {
  base_probe_timeout_ns : Z; min_indirect_checks : Z; max_indirect_checks : Z; min_lhm : Z; max_lhm : Z;
  lhm_timeout_penalty : Z; lhm_success_recovery : Z; rtt_safety_multiplier : Z;
}.

Record LifeguardEvent := mkLgEvent { le_peer : CogIdentity; le_outcome : LifeguardOutcome; prior_lhm : Z; next_lhm : Z; observed_rtt_ns : Z; le_sequence : Z }.
Definition no_lg_event : LifeguardEvent := mkLgEvent no_cog OAck 1 1 0 0.

Record LifeguardProbe := mkLgProbe { lp_target : Uuid; lp_sequence : Z; lp_deadline_ns : Z; lp_timeout_ns : Z; lp_indirect_checks : Z }.

(** The refutation to send, when there is one. *)
Record LifeguardRefutePlan := mkRefute { should_refute : bool; alive : SwimEvent }.
Definition no_refute : LifeguardRefutePlan := mkRefute false no_event.

Record Slot := mkSlot { sl_peer : CogIdentity; lhm : Z; rtt_ns : list Z; rtt_count : Z; rtt_cursor : Z }.

Record Lifeguard := mkLg {
  swim_ : Swim; local_ : CogIdentity; lifeguard_config_ : LifeguardConfig; lg_slots_ : list Slot; slot_count_ : Z;
  events_ : list LifeguardEvent; event_count_ : Z; lg_sequence_ : Z;
}.

Section Lifeguard.
Context (MaxPeers MaxPiggyback RttWindow MaxEvents : Z).

Definition no_slot : Slot := mkSlot no_cog 1 (replicate (Z.to_nat RttWindow) 0) 0 0.

Definition set_swim (L : Lifeguard) (M : Swim) : Lifeguard :=
  mkLg M (local_ L) (lifeguard_config_ L) (lg_slots_ L) (slot_count_ L) (events_ L) (event_count_ L) (lg_sequence_ L).
Definition set_lg_slots (L : Lifeguard) (s : list Slot) (n : Z) : Lifeguard :=
  mkLg (swim_ L) (local_ L) (lifeguard_config_ L) s n (events_ L) (event_count_ L) (lg_sequence_ L).
Definition set_events (L : Lifeguard) (sequence : Z) (q : list LifeguardEvent * Z) : Lifeguard :=
  mkLg (swim_ L) (local_ L) (lifeguard_config_ L) (lg_slots_ L) (slot_count_ L) q.1 q.2 sequence.

Definition lg_peers (L : Lifeguard) : list Slot := front (slot_count_ L) (lg_slots_ L).

Definition config_valid_ (L : Lifeguard) : bool :=
  let c := lifeguard_config_ L in
  negb (is_zero (uuid (local_ L))) && (min_lhm c <=? max_lhm c) && (min_indirect_checks c <=? max_indirect_checks c) && (max_indirect_checks c <=? MaxPeers).

Definition map_swim_error_ (e : SwimError) : LifeguardError :=
  match e with CapacityExceeded => LCapacityExceeded | DuplicatePeer => LDuplicatePeer | PeerNotFound => LPeerNotFound | ZeroUuid => LZeroUuid end.

Definition sat_mul_ (a b : Z) : Z := if (a =? 0) || (b =? 0) then 0 else if UINT64_MAX / b <? a then UINT64_MAX else a * b.

(** The pointer to a slot is its index. *)
Definition find_slot_ (L : Lifeguard) (peer : Uuid) : option Z := find_from (fun s => bool_decide (uuid (sl_peer s) = peer)) (lg_peers L) 0.

Definition ensure_slot_ (L : Lifeguard) (peer : CogIdentity) : bool * Lifeguard :=
  if is_zero (uuid peer) then (false, L)
  else match find_slot_ L (uuid peer) with
  | Some _ => (true, L)
  | None =>
      match reserve_next MaxPeers (slot_count_ L) with
      | None => (false, L)
      | Some index =>
          let s := mkSlot peer (min_lhm (lifeguard_config_ L)) (replicate (Z.to_nat RttWindow) 0) 0 0 in
          (true, set_lg_slots L (aset (lg_slots_ L) index s) (slot_count_ L + 1))
      end
  end.

Definition mean_rtt_ (L : Lifeguard) (s : Slot) : Z :=
  if rtt_count s =? 0 then base_probe_timeout_ns (lifeguard_config_ L)
  else
    let total := fold_left saturated_add_ (front (rtt_count s) (rtt_ns s)) 0 in
    let mean := total / rtt_count s in
    if mean =? 0 then 1 else mean.

Definition adaptive_indirect_count_ (L : Lifeguard) (peer : Uuid) : Z :=
  let c := lifeguard_config_ L in
  let l := match find_slot_ L peer with None => min_lhm c | Some i => lhm (aget no_slot (lg_slots_ L) i) end in
  let lhm_delta := if l <=? min_lhm c then 0 else u16 (l - min_lhm c) in
  let desired := u16 (min_indirect_checks c + Z.min lhm_delta (u16 (max_indirect_checks c - min_indirect_checks c))) in
  Z.min desired (max_indirect_checks c).

Definition record_rtt_ (s : Slot) (rtt : Z) : Slot :=
  mkSlot (sl_peer s) (lhm s) (aset (rtt_ns s) (rtt_cursor s) rtt) (if rtt_count s <? RttWindow then rtt_count s + 1 else rtt_count s) ((rtt_cursor s + 1) mod RttWindow).

Definition set_lhm (s : Slot) (l : Z) : Slot := mkSlot (sl_peer s) l (rtt_ns s) (rtt_count s) (rtt_cursor s).

Definition lg_append_event_ (L : Lifeguard) (s : Slot) (outcome : LifeguardOutcome) (prior observed : Z) : Lifeguard :=
  let sequence := u64 (lg_sequence_ L + 1) in
  set_events L sequence (queue_append MaxEvents no_lg_event (events_ L) (event_count_ L) (mkLgEvent (sl_peer s) outcome prior (lhm s) observed sequence)).

(** The multiplier of slot [i] moves to [l], and the event of the move is queued;
    [s] is the slot before. *)
Definition move_lhm (L : Lifeguard) (i : Z) (s : Slot) (l : Z) (outcome : LifeguardOutcome) (observed : Z) : Lifeguard :=
  let s' := set_lhm s l in
  lg_append_event_ (set_lg_slots L (aset (lg_slots_ L) i s') (slot_count_ L)) s' outcome (lhm s) observed.

Definition penalize_lhm_ (L : Lifeguard) (i : Z) (s : Slot) (outcome : LifeguardOutcome) : Lifeguard :=
  let c := lifeguard_config_ L in
  move_lhm L i s (u16 (Z.min (max_lhm c) (u32 (lhm s + lhm_timeout_penalty c)))) outcome 0.

Definition recover_lhm_ (L : Lifeguard) (i : Z) (s : Slot) (outcome : LifeguardOutcome) (observed : Z) : Lifeguard :=
  let c := lifeguard_config_ L in
  let l := if (lhm s <=? min_lhm c) || (u16 (lhm s - min_lhm c) <=? lhm_success_recovery c) then min_lhm c else u16 (lhm s - lhm_success_recovery c) in
  move_lhm L i s l outcome observed.

Definition lg_add_peer (L : Lifeguard) (peer : CogIdentity) : expected unit LifeguardError * Lifeguard :=
  match add_peer MaxPeers MaxPiggyback (swim_ L) peer with
  | (inl e, M) => (inl (map_swim_error_ e), set_swim L M)
  | (inr _, M) => let '(ok, L) := ensure_slot_ (set_swim L M) peer in (if ok then inr tt else inl LCapacityExceeded, L)
  end.

Definition local_health_multiplier (L : Lifeguard) (peer : Uuid) : expected Z LifeguardError :=
  match find_slot_ L peer with None => inl LPeerNotFound | Some i => inr (lhm (aget no_slot (lg_slots_ L) i)) end.

Definition adaptive_timeout (L : Lifeguard) (peer : Uuid) : expected Z LifeguardError :=
  match find_slot_ L peer with
  | None => inl LPeerNotFound
  | Some i =>
      let s := aget no_slot (lg_slots_ L) i in
      let by_lhm := sat_mul_ (base_probe_timeout_ns (lifeguard_config_ L)) (lhm s) in
      let by_rtt := if rtt_count s =? 0 then 0 else sat_mul_ (mean_rtt_ L s) (rtt_safety_multiplier (lifeguard_config_ L)) in
      let timeout := Z.max by_lhm by_rtt in
      inr (if timeout =? 0 then 1 else timeout)
  end.

Definition lg_next_probe (L : Lifeguard) (now_ns : Z) : option LifeguardProbe * Lifeguard :=
  match next_probe (swim_ L) now_ns with
  | (None, M) => (None, set_swim L M)
  | (Some probe, M) =>
      let L := set_swim L M in
      match adaptive_timeout L (pr_target probe) with
      | inl _ => (None, L)
      | inr timeout_ns =>
          (Some (mkLgProbe (pr_target probe) (pr_sequence probe) (saturated_add_ now_ns timeout_ns) timeout_ns (adaptive_indirect_count_ L (pr_target probe))), L)
      end
  end.

(** A handler: the call on the membership, and then a move of the multiplier. *)
Definition lg_handle (L : Lifeguard) (peer : Uuid) (r : expected unit SwimError * Swim) (f : Lifeguard -> Z -> Slot -> Lifeguard) : expected unit LifeguardError * Lifeguard :=
  match r with
  | (inl e, M) => (inl (map_swim_error_ e), set_swim L M)
  | (inr _, M) =>
      let L := set_swim L M in
      match find_slot_ L peer with None => (inl LPeerNotFound, L) | Some i => (inr tt, f L i (aget no_slot (lg_slots_ L) i)) end
  end.

Definition lg_on_ack (L : Lifeguard) (peer : Uuid) (now_ns rtt : Z) : expected unit LifeguardError * Lifeguard :=
  lg_handle L peer (on_ack MaxPiggyback (swim_ L) peer now_ns) (fun L i s => recover_lhm_ L i (record_rtt_ s rtt) OAck rtt).
Definition lg_on_ping_timeout (L : Lifeguard) (peer : Uuid) : expected unit LifeguardError * Lifeguard :=
  lg_handle L peer (on_ping_timeout MaxPiggyback (swim_ L) peer) (fun L i s => penalize_lhm_ L i s OTimeout).
Definition lg_on_indirect_ack (L : Lifeguard) (peer : Uuid) (now_ns rtt : Z) : expected unit LifeguardError * Lifeguard :=
  lg_handle L peer (on_indirect_ack MaxPiggyback (swim_ L) peer now_ns) (fun L i s => recover_lhm_ L i (record_rtt_ s rtt) OIndirectAck rtt).
Definition lg_on_indirect_timeout (L : Lifeguard) (peer : Uuid) : expected unit LifeguardError * Lifeguard :=
  lg_handle L peer (on_indirect_timeout MaxPiggyback (swim_ L) peer) (fun L i s => penalize_lhm_ L i s OIndirectTimeout).

Definition on_no_loss_window (L : Lifeguard) (peer : Uuid) : expected unit LifeguardError * Lifeguard :=
  match find_slot_ L peer with None => (inl LPeerNotFound, L) | Some i => (inr tt, recover_lhm_ L i (aget no_slot (lg_slots_ L) i) ONoLossWindow 0) end.

Fixpoint lg_witness_loop (suspect : Uuid) (limit : Z) (l : list CogIdentity) (out : SlotTable Uuid) : SlotTable Uuid :=
  match l with
  | [] => out
  | p :: l =>
      if count out <? limit then
        if bool_decide (uuid p = suspect) then lg_witness_loop suspect limit l out else lg_witness_loop suspect limit l (push MaxPeers out (uuid p)).1
      else out
  end.

(** indirect_witnesses, with the live view that it makes of the membership. *)
Definition lg_indirect_witnesses (L : Lifeguard) (suspect : Uuid) : SlotTable Uuid * Lifeguard :=
  let limit := adaptive_indirect_count_ L suspect in
  let '(view, M) := live_peers (swim_ L) in
  (lg_witness_loop suspect limit view (empty_table MaxPeers zero_uuid), set_swim L M).

Definition lg_apply_gossip (L : Lifeguard) (incoming : SwimEvent) (now_ns : Z) : expected LifeguardRefutePlan LifeguardError * Lifeguard :=
  let id := ev_peer incoming in
  if is_zero (uuid id) then (inl LZeroUuid, L)
  else if bool_decide (uuid id = uuid (local_ L)) && bool_decide (ev_state incoming = Suspect) then
    let sequence := u64 (lg_sequence_ L + 1) in
    (inr (mkRefute true (mkEvent (local_ L) Alive 0 (saturated_add_ (ev_incarnation incoming) 1) sequence)), set_events L sequence (events_ L, event_count_ L))
  else match apply_gossip MaxPeers MaxPiggyback (swim_ L) incoming now_ns with
  | (inl e, M) => (inl (map_swim_error_ e), set_swim L M)
  | (inr _, M) =>
      match ensure_slot_ (set_swim L M) id with
      | (false, L) => (inl LCapacityExceeded, L)
      | (true, L) =>
          let L := if bool_decide (ev_state incoming = Alive) then L
                   else match find_slot_ L (uuid id) with None => L | Some i => penalize_lhm_ L i (aget no_slot (lg_slots_ L) i) OTimeout end in
          (inr no_refute, L)
      end
  end.

Definition event_batch (L : Lifeguard) : SlotTable LifeguardEvent :=
  fold_left (fun out e => (push MaxEvents out e).1) (front (event_count_ L) (events_ L)) (empty_table MaxEvents no_lg_event).

Definition acknowledge_events (L : Lifeguard) (n : Z) : Lifeguard := set_events L (lg_sequence_ L) (queue_drop no_lg_event (events_ L) (event_count_ L) n).

Fixpoint lg_add_initial (L : Lifeguard) (initial : list CogIdentity) : result Lifeguard :=
  match initial with
  | [] => Ok L
  | p :: initial => match lg_add_peer L p with (inr _, L) => lg_add_initial L initial | (inl _, _) => Fatal "add_peer(peer).has_value()" end
  end.

Definition empty_lifeguard (local : CogIdentity) (config : LifeguardConfig) (swim_config : SwimConfig) : Lifeguard :=
  mkLg (empty_swim MaxPeers MaxPiggyback swim_config) local config (replicate (Z.to_nat MaxPeers) no_slot) 0 (replicate (Z.to_nat MaxEvents) no_lg_event) 0 0.

Definition mint_lifeguard_swim (local : CogIdentity) (initial : list CogIdentity) (config : LifeguardConfig) (swim_config : SwimConfig) : result Lifeguard :=
  let L := empty_lifeguard local config swim_config in
  (let* _ := require (config_valid_ L) "config_valid_()" in lg_add_initial L initial)%result.
End Lifeguard.
