(* ===== verification/LifeguardProofs.v ===== *)
(** * LifeguardProofs.v: the two tables in step, the bounds and the refutation

    The properties of Lifeguard.v. *)

From stdpp Require Import base list strings.
From Stdlib Require Import ZArith Lia.
From S2P Require Import Prelude.
From S2P Require Import SlotTable.
From S2P Require Import Swim.
From S2P Require Import SwimProofs.
From S2P Require Import Lifeguard.
#[local] Open Scope Z_scope.

(** ** The uuids of a membership *)

Section Uuids.
Context (MaxPeers MaxPiggyback : Z) (HQ : slot_capacity MaxPiggyback).
#[local] Set Default Proof Using "Type".

Abbreviation uuids M := ((fun s => uuid (identity s)) <$> peers M).

(** A call that keeps the peers, and one that adds a peer. *)
Definition keeps (M M' : Swim) : Prop := swim_ok MaxPeers MaxPiggyback M' /\ uuids M' = uuids M.
Definition adds (M M' : Swim) (u : Uuid) : Prop := swim_ok MaxPeers MaxPiggyback M' /\ uuids M' = uuids M ++ [u] /\ u ∉ uuids M /\ u <> zero_uuid /\ count_ M < MaxPeers.

Lemma keeps_refl M : swim_ok MaxPeers MaxPiggyback M -> keeps M M.
Proof. by split. Qed.

Lemma update_keeps M i u h : swim_ok MaxPeers MaxPiggyback M -> find_index_ M u = Some i -> keeps M (update_slot MaxPiggyback M i h).
Proof using HQ.
  intros HM Hf. pose proof (find_index_some M u i Hf) as (Hi & Hs & Hu). split; [by eapply update_stored|]. pose proof (lookup_lt_Some _ _ _ Hs) as Hl. pose proof (peers_length MaxPeers MaxPiggyback M HM).
  change (peers (update_slot MaxPiggyback M i h)) with (front (count_ M) (aset (slots_ M) i (mkPeer (identity (aget no_peer (slots_ M) i)) h (sequence_ M)))).
  rewrite front_set by lia. eapply uuids_insert; [exact Hs|done].
Qed.

Lemma on_peer_keeps M u f : swim_ok MaxPeers MaxPiggyback M -> (forall i, find_index_ M u = Some i -> keeps M (f i)) ->
  keeps M (on_peer M u f).2 /\ ((on_peer M u f).1 = inr tt /\ u ∈ uuids M \/ (on_peer M u f).1 = inl PeerNotFound /\ u ∉ uuids M).
Proof.
  intros HM H. unfold on_peer. destruct (find_index_ M u) as [i|] eqn:Ef; cbn.
  - split; [by apply H|]. left. split; [done|]. apply find_index_some in Ef as (_ & Hs & <-). apply list_elem_of_fmap. eexists. split; [done|]. by eapply list_elem_of_lookup_2.
  - split; [by apply keeps_refl|]. right. split; [done|]. by apply find_index_none.
Qed.

Lemma on_ack_keeps M u now : swim_ok MaxPeers MaxPiggyback M -> keeps M (on_ack MaxPiggyback M u now).2 /\
  ((on_ack MaxPiggyback M u now).1 = inr tt /\ u ∈ uuids M \/ (on_ack MaxPiggyback M u now).1 = inl PeerNotFound /\ u ∉ uuids M).
Proof using HQ. intros HM. apply on_peer_keeps; [done|]. intros i Hi. by eapply update_keeps. Qed.

Lemma on_timeout_keeps M u : swim_ok MaxPeers MaxPiggyback M -> keeps M (on_ping_timeout MaxPiggyback M u).2 /\
  ((on_ping_timeout MaxPiggyback M u).1 = inr tt /\ u ∈ uuids M \/ (on_ping_timeout MaxPiggyback M u).1 = inl PeerNotFound /\ u ∉ uuids M).
Proof using HQ. intros HM. apply on_peer_keeps; [done|]. intros i Hi. unfold miss_. case_bool_decide; [by apply keeps_refl|]. by eapply update_keeps. Qed.

Lemma new_adds M s : swim_ok MaxPeers MaxPiggyback M -> count_ M < MaxPeers -> uuid (identity s) <> zero_uuid -> find_index_ M (uuid (identity s)) = None ->
  adds M (append_event_ MaxPiggyback (set_slots M (aset (slots_ M) (count_ M) s) (count_ M + 1)) s) (uuid (identity s)).
Proof using HQ.
  intros HM Hc Hz Hf. split_and!; [by apply store_new| |by apply find_index_none|done|done].
  change (peers (append_event_ _ ?m _)) with (peers m). pose proof (so_count _ _ _ HM). pose proof (so_length _ _ _ HM).
  assert (E : peers (set_slots M (aset (slots_ M) (count_ M) s) (count_ M + 1)) = peers M ++ [s]) by (apply front_push; lia). by rewrite E, fmap_app.
Qed.

Lemma add_peer_adds M id : swim_ok MaxPeers MaxPiggyback M -> match add_peer MaxPeers MaxPiggyback M id with (inr _, M') => adds M M' (uuid id) | (inl _, M') => M' = M end.
Proof using HQ.
  intros HM. unfold add_peer. destruct (is_zero (uuid id)) eqn:Ez; [done|]. destruct (find_index_ M (uuid id)) as [i|] eqn:Ef; [done|].
  unfold reserve_next, full. destruct (Z.leb_spec MaxPeers (count_ M)); [done|]. apply (new_adds M (mkPeer id _ _)); [done|done|by apply is_zero_false|done].
Qed.

Lemma gossip_adds M e now : swim_ok MaxPeers MaxPiggyback M ->
  match apply_gossip MaxPeers MaxPiggyback M e now with
  | (inr _, M') => adds M M' (uuid (ev_peer e)) \/ keeps M M' /\ uuid (ev_peer e) ∈ uuids M
  | (inl _, M') => M' = M
  end.
Proof using HQ.
  intros HM. unfold apply_gossip. destruct (is_zero _) eqn:Ez; [done|]. destruct (find_index_ M _) as [i|] eqn:Ef.
  - pose proof (find_index_some M _ i Ef) as (Hi & Hs & Hu). assert (Hin : uuid (ev_peer e) ∈ uuids M) by (rewrite <- Hu; apply list_elem_of_fmap; eexists; split; [done|]; by eapply list_elem_of_lookup_2).
    destruct (event_newer_ _ _); right; (split; [|done]); [|by apply keeps_refl]. split; [by eapply (store_at _ _ HQ M i (uuid (ev_peer e)))|].
    pose proof (lookup_lt_Some _ _ _ Hs). pose proof (peers_length MaxPeers MaxPiggyback M HM). change (peers (append_event_ _ ?m _)) with (peers m).
    unfold peers at 1. cbn [slots_ count_ set_slot set_slots]. rewrite front_set by lia. eapply uuids_insert; [exact Hs|done].
  - unfold reserve_next, full. destruct (Z.leb_spec MaxPeers (count_ M)); [done|]. left. apply (new_adds M (mkPeer (ev_peer e) _ _)); [done|done|by apply is_zero_false|done].
Qed.

Lemma next_probe_keeps M now : swim_ok MaxPeers MaxPiggyback M -> keeps M (next_probe M now).2.
Proof.
  intros HM. pose proof (next_probe_ok MaxPeers MaxPiggyback M now HM) as Hp. destruct (ring M); [rewrite Hp; by apply keeps_refl|]. destruct Hp as (pr & M' & -> & _ & HM' & Ep & _). split; [done|]. cbn. by rewrite Ep.
Qed.

Lemma live_peers_keeps M : swim_ok MaxPeers MaxPiggyback M -> keeps M (live_peers M).2.
Proof.
  intros HM. unfold live_peers. pose proof (fill_live_length (peers M) (live_cache_ M) 0) as Hl. destruct (fill_live _ _ _) as [cache n]. split; [|done]. destruct HM. split; try done. cbn in *. lia.
Qed.
End Uuids.

(** A search by uuid. *)
Lemma find_uuid {T} (f : T -> Uuid) (l : list T) u :
  match find_from (fun s => bool_decide (f s = u)) l 0 with
  | Some i => 0 <= i /\ exists s, l !! Z.to_nat i = Some s /\ f s = u
  | None => u ∉ f <$> l
  end.
Proof.
  destruct (find_from _ _ _) as [i|] eqn:Ef.
  - apply find_from_some in Ef as (s & Hi & Hs & Hp & _). rewrite Z.sub_0_r in Hs. apply bool_decide_eq_true in Hp. split; [done|]. by exists s.
  - intros (s & -> & Hs)%list_elem_of_fmap. pose proof (find_from_none _ _ _ Ef s Hs) as H. by apply bool_decide_eq_false in H.
Qed.

(** ** The invariant *)

Section Invariant.
Context (MaxPeers MaxPiggyback RttWindow MaxEvents : Z).
Context (HP : slot_capacity MaxPeers) (HQ : slot_capacity MaxPiggyback) (HW : slot_capacity RttWindow /\ 1 < RttWindow) (HE : slot_capacity MaxEvents).

Abbreviation uuids M := ((fun s => uuid (identity s)) <$> peers M).
Abbreviation lg_uuids L := ((fun s => uuid (sl_peer s)) <$> lg_peers L).

Record lg_config_ok (c : LifeguardConfig) : Prop := {
  lc_base : 0 < base_probe_timeout_ns c < 2 ^ 64;
  lc_lhm : 0 < min_lhm c <= max_lhm c /\ max_lhm c < 2 ^ 16;
  lc_checks : 0 < min_indirect_checks c <= max_indirect_checks c /\ max_indirect_checks c <= MaxPeers;
  lc_steps : 0 < lhm_timeout_penalty c < 2 ^ 16 /\ 0 < lhm_success_recovery c < 2 ^ 16;
  lc_rtt : 0 < rtt_safety_multiplier c < 2 ^ 16;
}.

Record slot_ok (c : LifeguardConfig) (s : Slot) : Prop := {
  sl_lhm : min_lhm c <= lhm s <= max_lhm c;
  sl_length : Z.of_nat (length (rtt_ns s)) = RttWindow;
  sl_count : 0 <= rtt_count s <= RttWindow;
  sl_cursor : 0 <= rtt_cursor s < RttWindow;
}.

Record lg_ok (L : Lifeguard) : Prop := {
  lo_config : lg_config_ok (lifeguard_config_ L);
  lo_swim : swim_ok MaxPeers MaxPiggyback (swim_ L);
  lo_length : Z.of_nat (length (lg_slots_ L)) = MaxPeers;
  lo_count : 0 <= slot_count_ L <= MaxPeers;
  lo_same : lg_uuids L = uuids (swim_ L);
  lo_slots : Forall (slot_ok (lifeguard_config_ L)) (lg_peers L);
  lo_queue : queue_ok MaxEvents (events_ L) (event_count_ L);
}.

Lemma slot_count_same L : lg_ok L -> slot_count_ L = count_ (swim_ L).
Proof using Type.
  intros HL. pose proof (f_equal length (lo_same _ HL)) as E. rewrite !length_fmap in E. pose proof (peers_length _ _ _ (lo_swim _ HL)).
  pose proof (front_length (slot_count_ L) (lg_slots_ L) ltac:(pose proof (lo_count _ HL); pose proof (lo_length _ HL); lia)). unfold lg_peers in E. lia.
Qed.

Lemma find_slot_known L u : lg_ok L ->
  match find_slot_ L u with
  | Some i => u ∈ uuids (swim_ L) /\ 0 <= i < slot_count_ L /\ slot_ok (lifeguard_config_ L) (aget (no_slot RttWindow) (lg_slots_ L) i) /\ uuid (sl_peer (aget (no_slot RttWindow) (lg_slots_ L) i)) = u /\
      lg_peers L !! Z.to_nat i = Some (aget (no_slot RttWindow) (lg_slots_ L) i)
  | None => u ∉ uuids (swim_ L)
  end.
Proof using Type.
  intros HL. rewrite <- (lo_same _ HL). unfold find_slot_. pose proof (find_uuid (fun s => uuid (sl_peer s)) (lg_peers L) u) as H.
  destruct (find_from _ _ _) as [i|]; [|done]. destruct H as (Hi & s & Hs & Hu). pose proof (lookup_lt_Some _ _ _ Hs) as Hl.
  pose proof (front_length (slot_count_ L) (lg_slots_ L) ltac:(pose proof (lo_count _ HL); pose proof (lo_length _ HL); lia)) as Hf. fold (lg_peers L) in Hf.
  assert (E : aget (no_slot RttWindow) (lg_slots_ L) i = s). { unfold aget. unfold lg_peers in Hs. rewrite front_lookup in Hs by lia. by rewrite Hs. }
  rewrite E. split_and!; [rewrite <- Hu; apply list_elem_of_fmap; exists s; split; [done|by eapply list_elem_of_lookup_2]|lia|lia| |done|done].
  pose proof (lo_slots _ HL) as Hall. rewrite Forall_lookup in Hall. by eapply Hall.
Qed.

(** A slot that is stored again with its peer. *)
Lemma set_slot_ok L i s s' : lg_ok L -> lg_peers L !! Z.to_nat i = Some s -> 0 <= i -> sl_peer s' = sl_peer s -> slot_ok (lifeguard_config_ L) s' ->
  lg_ok (set_lg_slots L (aset (lg_slots_ L) i s') (slot_count_ L)).
Proof using Type.
  intros HL Hs Hi Ep Hok. pose proof (lookup_lt_Some _ _ _ Hs) as Hl. pose proof HL as [? ? Hlen Hc Hsame Hall ?].
  pose proof (front_length (slot_count_ L) (lg_slots_ L) ltac:(lia)) as Hf. fold (lg_peers L) in Hf.
  assert (E : lg_peers (set_lg_slots L (aset (lg_slots_ L) i s') (slot_count_ L)) = <[Z.to_nat i := s']> (lg_peers L)) by (apply front_set; lia).
  split; try done; cbn.
  - by rewrite length_aset.
  - rewrite E, list_fmap_insert, Ep. rewrite list_insert_id; [done|]. by rewrite list_lookup_fmap, Hs.
  - rewrite E. by apply Forall_insert.
Qed.

Lemma append_lg_ok L s o p r : lg_ok L -> lg_ok (lg_append_event_ MaxEvents L s o p r).
Proof using HE.
  intros [? ? ? ? ? ? Hq]. split; try done. unfold lg_append_event_, set_events. cbn [events_ event_count_].
  pose proof (queue_append_ok MaxEvents no_lg_event (events_ L) (event_count_ L) (mkLgEvent (sl_peer s) o p (lhm s) r (u64 (lg_sequence_ L + 1))) ltac:(destruct HE; lia) Hq) as Ha.
  destruct (queue_append _ _ _ _ _). apply Ha.
Qed.

(** A move of the multiplier of a known slot, after a change of its window. *)
Lemma move_lhm_ok L i s s' l o r : lg_ok L -> lg_peers L !! Z.to_nat i = Some s -> 0 <= i -> sl_peer s' = sl_peer s -> slot_ok (lifeguard_config_ L) s' ->
  min_lhm (lifeguard_config_ L) <= l <= max_lhm (lifeguard_config_ L) -> lg_ok (move_lhm MaxEvents L i s' l o r).
Proof using HE. intros HL Hs Hi Ep [? ? ? ?] Hlb. apply append_lg_ok, (set_slot_ok L i s); [done|done|done|done|by split]. Qed.

Lemma penalize_ok L i s o : lg_ok L -> lg_peers L !! Z.to_nat i = Some s -> 0 <= i -> slot_ok (lifeguard_config_ L) s -> lg_ok (penalize_lhm_ MaxEvents L i s o).
Proof using HE.
  intros HL Hs Hi Hok. eapply move_lhm_ok; [done|done|done|done|done|]. destruct (lo_config _ HL) as [_ [? ?] _ [? _] _], Hok as [? _ _ _].
  rewrite (wrap_small 32) by lia. rewrite wrap_small by lia. lia.
Qed.

Lemma recover_ok L i s s' o r : lg_ok L -> lg_peers L !! Z.to_nat i = Some s -> 0 <= i -> sl_peer s' = sl_peer s -> slot_ok (lifeguard_config_ L) s' -> lg_ok (recover_lhm_ MaxEvents L i s' o r).
Proof using HE.
  intros HL Hs Hi Ep Hok. eapply move_lhm_ok; [done|done|done|done|done|]. destruct (lo_config _ HL) as [_ [? ?] _ [_ ?] _], Hok as [? _ _ _].
  destruct (Z.leb_spec (lhm s') (min_lhm (lifeguard_config_ L))); cbn [orb]; [lia|]. rewrite wrap_small by lia. destruct (Z.leb_spec (lhm s' - min_lhm (lifeguard_config_ L)) (lhm_success_recovery (lifeguard_config_ L))); [lia|].
  rewrite wrap_small by lia. lia.
Qed.

Lemma record_ok c s r : slot_ok c s -> slot_ok c (record_rtt_ RttWindow s r).
Proof using HW.
  intros [? ? ? ?]. destruct HW as [_ ?]. split; cbn; [done|by rewrite length_aset| |apply Z.mod_pos_bound; lia]. destruct (Z.ltb_spec (rtt_count s) RttWindow); lia.
Qed.

Lemma set_swim_ok L M : lg_ok L -> keeps MaxPeers MaxPiggyback (swim_ L) M -> lg_ok (set_swim L M).
Proof using Type. intros [? ? ? ? Hs ? ?] [HM E]. split; try done. cbn. by rewrite E. Qed.

(** A slot for a peer that the membership has just added. *)
Lemma ensure_added L M peer : lg_ok L -> adds MaxPeers MaxPiggyback (swim_ L) M (uuid peer) ->
  exists L', ensure_slot_ MaxPeers RttWindow (set_swim L M) peer = (true, L') /\ lg_ok L'.
Proof using HW.
  intros HL (HM & Eu & Hn & Hz & Hc). unfold ensure_slot_. rewrite (proj2 (is_zero_false _) Hz). pose proof (find_slot_known L (uuid peer) HL) as Hf.
  change (find_slot_ (set_swim L M) (uuid peer)) with (find_slot_ L (uuid peer)). destruct (find_slot_ L (uuid peer)); [by destruct Hf|].
  pose proof (slot_count_same L HL) as Hsc. unfold reserve_next, full. cbn [slot_count_ set_swim]. rewrite (proj2 (Z.leb_gt _ _)) by lia. eexists. split; [reflexivity|].
  destruct HL as [Hcfg ? Hlen Hcnt Hsame Hall ?]. set (s := mkSlot peer _ _ _ _).
  assert (E : front (slot_count_ L + 1) (aset (lg_slots_ L) (slot_count_ L) s) = lg_peers L ++ [s]) by (apply front_push; lia).
  split; try done; cbn.
  - by rewrite length_aset.
  - lia.
  - unfold lg_peers at 1. cbn. rewrite E, fmap_app, Hsame, Eu. done.
  - unfold lg_peers. cbn. rewrite E. apply Forall_app. split; [done|]. constructor; [|constructor]. destruct HW as [? ?], (lc_lhm _ Hcfg). split; cbn; [lia|rewrite length_replicate; lia|lia|lia].
Qed.

Lemma ensure_known L M peer : lg_ok L -> keeps MaxPeers MaxPiggyback (swim_ L) M -> uuid peer ∈ uuids (swim_ L) ->
  exists L', ensure_slot_ MaxPeers RttWindow (set_swim L M) peer = (true, L') /\ lg_ok L'.
Proof using Type.
  intros HL HM Hu. unfold ensure_slot_. assert (Hz : uuid peer <> zero_uuid) by (intros E; rewrite E in Hu; by apply (so_named _ _ _ (lo_swim _ HL))). rewrite (proj2 (is_zero_false _) Hz).
  change (find_slot_ (set_swim L M) (uuid peer)) with (find_slot_ L (uuid peer)). pose proof (find_slot_known L (uuid peer) HL) as Hf. destruct (find_slot_ L (uuid peer)); [|done].
  eexists. split; [reflexivity|]. by apply set_swim_ok.
Qed.

(** ** The calls *)

Inductive lg_call :=
| LAdd (id : CogIdentity) | LAck (u : Uuid) (now rtt : Z) | LTimeout (u : Uuid) | LIndirectAck (u : Uuid) (now rtt : Z) | LIndirectTimeout (u : Uuid)
| LNoLoss (u : Uuid) | LGossip (e : SwimEvent) (now : Z) | LProbe (now : Z) | LWitnesses (u : Uuid) | LSent (n : nat).

Definition lg_run (L : Lifeguard) (c : lg_call) : Lifeguard :=
  match c with
  | LAdd id => (lg_add_peer MaxPeers MaxPiggyback RttWindow L id).2
  | LAck u now rtt => (lg_on_ack MaxPiggyback RttWindow MaxEvents L u now rtt).2
  | LTimeout u => (lg_on_ping_timeout MaxPiggyback RttWindow MaxEvents L u).2
  | LIndirectAck u now rtt => (lg_on_indirect_ack MaxPiggyback RttWindow MaxEvents L u now rtt).2
  | LIndirectTimeout u => (lg_on_indirect_timeout MaxPiggyback RttWindow MaxEvents L u).2
  | LNoLoss u => (on_no_loss_window RttWindow MaxEvents L u).2
  | LGossip e now => (lg_apply_gossip MaxPeers MaxPiggyback RttWindow MaxEvents L e now).2
  | LProbe now => (lg_next_probe RttWindow L now).2
  | LWitnesses u => (lg_indirect_witnesses MaxPeers RttWindow L u).2
  | LSent n => acknowledge_events L (Z.of_nat n)
  end.

(** A handler refuses exactly the peers that the membership does not know. *)
Lemma handle_ok L u r f : lg_ok L -> keeps MaxPeers MaxPiggyback (swim_ L) r.2 -> (r.1 = inr tt /\ u ∈ uuids (swim_ L) \/ r.1 = inl PeerNotFound /\ u ∉ uuids (swim_ L)) ->
  (forall L i s, lg_ok L -> lg_peers L !! Z.to_nat i = Some s -> 0 <= i -> slot_ok (lifeguard_config_ L) s -> lg_ok (f L i s)) -> lg_ok (lg_handle RttWindow L u r f).2.
Proof using Type.
  intros HL HM Hr Hf. destruct r as [[e|[]] M]; cbn in HM; unfold lg_handle; [by apply set_swim_ok|]. destruct Hr as [[_ Hu]|[Hr _]]; [|done].
  pose proof (set_swim_ok L M HL HM) as HL'. pose proof (find_slot_known _ u HL') as Hs. destruct (find_slot_ _ u) as [i|]; [|done]. destruct Hs as (_ & Hi & Hok & _ & Hl). apply Hf; [done|done|lia|done].
Qed.

Lemma lg_add_ok L id : lg_ok L -> lg_ok (lg_add_peer MaxPeers MaxPiggyback RttWindow L id).2.
Proof using HQ HW.
  intros HL. unfold lg_add_peer. pose proof (add_peer_adds MaxPeers MaxPiggyback HQ (swim_ L) id (lo_swim _ HL)) as Ha. destruct (add_peer _ _ _ _) as [[e|[]] M].
  - subst M. apply set_swim_ok; [done|by apply keeps_refl, lo_swim].
  - destruct (ensure_added L M id HL Ha) as (L' & -> & HL'). done.
Qed.

Lemma gossip_ok L e now : lg_ok L -> lg_ok (lg_apply_gossip MaxPeers MaxPiggyback RttWindow MaxEvents L e now).2.
Proof using HQ HW HE.
  intros HL. unfold lg_apply_gossip. destruct (is_zero _); [done|]. destruct (_ && _); [by destruct HL; split|].
  pose proof (gossip_adds MaxPeers MaxPiggyback HQ (swim_ L) e now (lo_swim _ HL)) as Ha. destruct (apply_gossip _ _ _ _ _) as [[er|[]] M]; [subst M; apply set_swim_ok; [done|by apply keeps_refl, lo_swim]|].
  assert (Hens : exists L', ensure_slot_ MaxPeers RttWindow (set_swim L M) (ev_peer e) = (true, L') /\ lg_ok L') by (destruct Ha as [Ha|[Hk Hu]]; [by apply ensure_added|by apply ensure_known]).
  destruct Hens as (L' & -> & HL'). cbn. case_bool_decide; [done|]. pose proof (find_slot_known L' (uuid (ev_peer e)) HL') as Hs. destruct (find_slot_ _ _) as [i|]; [|done].
  destruct Hs as (_ & Hi & Hok & _ & Hl). apply penalize_ok; [done|done|lia|done].
Qed.

Lemma lg_run_ok L c : lg_ok L -> lg_ok (lg_run L c).
Proof using HQ HW HE.
  intros HL. pose proof (lo_swim _ HL) as HM. destruct c as [id|u now rtt|u|u now rtt|u|u|e now|now|u|n]; cbn [lg_run].
  - by apply lg_add_ok.
  - destruct (on_ack_keeps MaxPeers MaxPiggyback HQ (swim_ L) u now HM) as [Hk Hr]. apply handle_ok; [done|exact Hk|exact Hr|]. intros L1 i s H1 Hs Hi Hok. eapply recover_ok; [done|done|done|done|by apply record_ok].
  - destruct (on_timeout_keeps MaxPeers MaxPiggyback HQ (swim_ L) u HM) as [Hk Hr]. apply handle_ok; [done|exact Hk|exact Hr|]. intros L1 i s H1 Hs Hi Hok. by apply penalize_ok.
  - destruct (on_ack_keeps MaxPeers MaxPiggyback HQ (swim_ L) u now HM) as [Hk Hr]. apply handle_ok; [done|exact Hk|exact Hr|]. intros L1 i s H1 Hs Hi Hok. eapply recover_ok; [done|done|done|done|by apply record_ok].
  - destruct (on_timeout_keeps MaxPeers MaxPiggyback HQ (swim_ L) u HM) as [Hk Hr]. apply handle_ok; [done|exact Hk|exact Hr|]. intros L1 i s H1 Hs Hi Hok. by apply penalize_ok.
  - unfold on_no_loss_window. pose proof (find_slot_known L u HL) as Hs. destruct (find_slot_ L u) as [i|]; [|done]. destruct Hs as (_ & Hi & Hok & _ & Hl). eapply recover_ok; [done|done|lia|done|done].
  - by apply gossip_ok.
  - unfold lg_next_probe. pose proof (next_probe_keeps MaxPeers MaxPiggyback (swim_ L) now HM) as Hk. destruct (next_probe _ _) as [[pr|] M]; [destruct (adaptive_timeout _ _ _)|]; by apply set_swim_ok.
  - unfold lg_indirect_witnesses. pose proof (live_peers_keeps MaxPeers MaxPiggyback (swim_ L) HM) as Hk. destruct (live_peers _) as [view M]. by apply set_swim_ok.
  - destruct HL as [? ? ? ? ? ? Hq]. split; try done. unfold acknowledge_events, set_events. cbn [events_ event_count_].
    pose proof (queue_drop_ok MaxEvents no_lg_event (events_ L) (event_count_ L) (Z.of_nat n) ltac:(lia) Hq) as Hd. destruct (queue_drop _ _ _ _). apply Hd.
Qed.

Lemma lg_calls_ok L cs : lg_ok L -> lg_ok (fold_left lg_run cs L).
Proof using HQ HW HE. revert L. induction cs as [|c cs IH]; intros L HL; [done|]. apply IH. by apply lg_run_ok. Qed.

(** ** The mint *)

(** What the types of the configuration say. *)
Record config_typed (c : LifeguardConfig) : Prop := {
  ct_base : 0 < base_probe_timeout_ns c < 2 ^ 64;
  ct_lhm : 0 < min_lhm c < 2 ^ 16 /\ 0 < max_lhm c < 2 ^ 16;
  ct_checks : 0 < min_indirect_checks c /\ 0 < max_indirect_checks c;
  ct_steps : 0 < lhm_timeout_penalty c < 2 ^ 16 /\ 0 < lhm_success_recovery c < 2 ^ 16;
  ct_rtt : 0 < rtt_safety_multiplier c < 2 ^ 16;
}.

Lemma add_initial_ok L initial L' : lg_ok L -> lg_add_initial MaxPeers MaxPiggyback RttWindow L initial = Ok L' -> lg_ok L'.
Proof using HQ HW.
  revert L. induction initial as [|p initial IH]; intros L HL; cbn; [by intros [= ->]|]. pose proof (lg_add_ok L p HL) as Ha. destruct (lg_add_peer _ _ _ _ _) as [[e|[]] L1]; [done|]. by apply IH.
Qed.

Lemma mint_ok local initial config swim_config L : config_typed config -> mint_lifeguard_swim MaxPeers MaxPiggyback RttWindow MaxEvents local initial config swim_config = Ok L -> lg_ok L.
Proof using HP HQ HW HE.
  intros [? ? ? ? ?] Hm. unfold mint_lifeguard_swim in Hm. apply rbind_ok in Hm as ([] & Hv & Hm). apply require_ok in Hv. unfold config_valid_ in Hv. cbn in Hv.
  repeat (apply andb_prop in Hv as [Hv ?]). eapply add_initial_ok; [|exact Hm]. destruct HP, HE. split; cbn.
  - split; lia.
  - by apply empty_swim_ok.
  - rewrite length_replicate. lia.
  - lia.
  - done.
  - constructor.
  - split; [rewrite length_replicate; lia|lia].
Qed.

(** ** The bounds *)

Lemma sat_mul_range a b : 0 <= a < 2 ^ 64 -> 0 < b < 2 ^ 64 -> 0 <= sat_mul_ a b < 2 ^ 64 /\ a <= sat_mul_ a b.
Proof using Type.
  intros Ha Hb. unfold sat_mul_, UINT64_MAX. destruct (Z.eqb_spec a 0) as [->|]; [cbn; lia|]. rewrite (proj2 (Z.eqb_neq b 0)) by lia. cbn [orb]. destruct (Z.ltb_spec ((2 ^ 64 - 1) / b) a) as [H|H]; [lia|].
  pose proof (Z.mul_div_le (2 ^ 64 - 1) b). nia.
Qed.

Lemma fold_sat_range l t : 0 <= t < 2 ^ 64 -> Forall (fun x => 0 <= x < 2 ^ 64) l -> 0 <= fold_left saturated_add_ l t < 2 ^ 64.
Proof using Type.
  intros Ht Hl. revert t Ht. induction Hl as [|x l Hx _ IH]; intros t Ht; [done|]. cbn. apply IH. unfold saturated_add_, UINT64_MAX. destruct (Z.ltb_spec (2 ^ 64 - 1 - x) t); lia.
Qed.

Definition bounded_peer (L : Lifeguard) (u : Uuid) : Prop :=
  let c := lifeguard_config_ L in
  exists l t, local_health_multiplier RttWindow L u = inr l /\ min_lhm c <= l <= max_lhm c /\
    adaptive_timeout RttWindow L u = inr t /\ base_probe_timeout_ns c <= sat_mul_ (base_probe_timeout_ns c) l <= t /\
    min_indirect_checks c <= adaptive_indirect_count_ RttWindow L u <= max_indirect_checks c.

Lemma known_bounded L u : lg_ok L -> u ∈ uuids (swim_ L) -> bounded_peer L u.
Proof using HP.
  intros HL Hu. pose proof (find_slot_known L u HL) as Hs. unfold bounded_peer, local_health_multiplier, adaptive_timeout, adaptive_indirect_count_. destruct (find_slot_ L u) as [i|]; [|done].
  destruct Hs as (_ & _ & [Hl _ _ _] & _ & _). destruct (lo_config _ HL) as [Hb Hlm Hch Hst Hr]. set (s := aget _ _ i) in *. set (c := lifeguard_config_ L) in *.
  pose proof (sat_mul_range (base_probe_timeout_ns c) (lhm s) ltac:(lia) ltac:(lia)) as [H1 H2]. eexists _, _. split_and!; [done|lia|lia|done|lia| | |].
  - set (r := if rtt_count s =? 0 then 0 else _). destruct (Z.eqb_spec (Z.max (sat_mul_ (base_probe_timeout_ns c) (lhm s)) r) 0); lia.
  - destruct HP as [_ HP']. rewrite !(wrap_small 16) by (destruct (Z.leb_spec (lhm s) (min_lhm c)); rewrite ?(wrap_small 16) by lia; lia). destruct (Z.leb_spec (lhm s) (min_lhm c)); rewrite ?(wrap_small 16) by lia; lia.
  - lia.
Qed.

Lemma probe_kept L now : lg_ok L -> (exists x, x ∈ peers (swim_ L) /\ is_live x) -> is_Some (lg_next_probe RttWindow L now).1.
Proof using HP.
  intros HL (x & Hx & Hlive). unfold lg_next_probe. pose proof (next_probe_ok MaxPeers MaxPiggyback (swim_ L) now (lo_swim _ HL)) as Hp. pose proof (next_probe_keeps MaxPeers MaxPiggyback (swim_ L) now (lo_swim _ HL)) as Hk.
  assert (Hr : x ∈ ring (swim_ L)) by (rewrite (ring_permutation (swim_ L)); apply list_elem_of_filter; done). pose proof (ring_permutation (swim_ L)) as Hperm.
  destruct (ring (swim_ L)) as [|y rest] eqn:Er; [by apply not_elem_of_nil in Hr|]. destruct Hp as (pr & M' & E & -> & _ & Ep & _). rewrite E in Hk |- *. cbn in Hk |- *.
  assert (Hy : uuid (identity y) ∈ uuids M'). { rewrite Ep. apply list_elem_of_fmap. exists y. split; [done|]. assert (Hyf : y ∈ filter is_live (peers (swim_ L))) by (rewrite <- Hperm; apply elem_of_cons; by left). by apply list_elem_of_filter in Hyf as [_ ?]. }
  destruct (known_bounded (set_swim L M') (uuid (identity y)) (set_swim_ok L M' HL Hk) Hy) as (l & t & _ & _ & Ht & _). rewrite Ht. done.
Qed.

(** C37: The two tables of a Lifeguard stay in step.  After any calls on a minted
    Lifeguard the membership and the table of the multipliers name the same
    peers in the same order, so that no handler loses a peer that the
    membership knows.  Each known peer has a multiplier between its bounds,
    a timeout that is at least the base timeout times the multiplier, and a
    number of indirect checks between its bounds; a probe is made whenever
    some peer is not dead. *)
Theorem lifeguard_in_step local initial config swim_config L0 cs : config_typed config ->
  mint_lifeguard_swim MaxPeers MaxPiggyback RttWindow MaxEvents local initial config swim_config = Ok L0 ->
  let L := fold_left lg_run cs L0 in
  lg_ok L /\ lg_uuids L = uuids (swim_ L) /\ (forall u, u ∈ uuids (swim_ L) -> bounded_peer L u) /\
  forall now, (exists x, x ∈ peers (swim_ L) /\ is_live x) -> is_Some (lg_next_probe RttWindow L now).1.
Proof using HP HQ HW HE.
  intros Hc Hm. pose proof (lg_calls_ok L0 cs (mint_ok _ _ _ _ _ Hc Hm)) as HL. split_and!; [done|by apply lo_same|intros u; by apply known_bounded|intros now; by apply probe_kept].
Qed.

(** A refutation wins.  A node that hears that it is suspected answers with
    an event that makes it alive in every membership that knows no more than
    the suspicion: the membership accepts the event, with the next
    incarnation, and shows the node as alive. *)
Theorem lifeguard_refutation_wins L e now out L' M t : lg_apply_gossip MaxPeers MaxPiggyback RttWindow MaxEvents L e now = (inr out, L') ->
  uuid (ev_peer e) = uuid (local_ L) -> ev_state e = Suspect -> 0 <= ev_incarnation e < UINT64_MAX ->
  swim_ok MaxPeers MaxPiggyback M -> known_le (status M (uuid (local_ L))) (Some (event_key e)) -> (uuid (local_ L) ∈ uuids M \/ count_ M < MaxPeers) ->
  should_refute out = true /\ swim_ L' = swim_ L /\
  exists M', apply_gossip MaxPeers MaxPiggyback M (alive out) t = (inr tt, M') /\ status M' (uuid (local_ L)) = Some (ev_incarnation e + 1, state_rank_ Alive).
Proof using HQ.
  intros Hg Hu Hs Hi HM Hk Hroom. unfold lg_apply_gossip in Hg. rewrite Hu in Hg. destruct (is_zero (uuid (local_ L))) eqn:Ez; [done|]. rewrite Hs, !bool_decide_true in Hg by done. cbn [andb] in Hg.
  injection Hg as <- <-. split; [done|]. split; [done|]. cbn [alive]. assert (Esat : saturated_add_ (ev_incarnation e) 1 = ev_incarnation e + 1) by (unfold saturated_add_; rewrite (proj2 (Z.ltb_ge _ _)) by lia; done).
  rewrite Esat. set (ev := mkEvent _ _ _ _ _). destruct (apply_gossip_ok MaxPeers MaxPiggyback HQ M ev t HM) as (M' & k & E & (HM' & _ & Hst) & Hcase); [by apply is_zero_false|done|].
  exists M'. split; [done|]. rewrite Hst, bool_decide_true by done. f_equal. destruct Hcase as [[-> _]|[Hk' Hle]]; [done|]. exfalso. cbn [ev_peer ev] in Hk', Hle. rewrite Hk' in Hk. cbn in Hk.
  unfold key_le, event_key in *. cbn in *. rewrite Hs in Hk. cbn in Hk. lia.
Qed.
End Invariant.

(** ** Witnesses *)

Definition wit_lg_config : LifeguardConfig := mkLgConfig 500 1 3 1 8 1 1 3.

Lemma wit_window : slot_capacity 2 /\ 1 < 2.
Proof. split; [split; [reflexivity|discriminate]|reflexivity]. Qed.

Lemma wit_lg_typed : config_typed wit_lg_config.
Proof. split; cbn; lia. Qed.

Definition wit_lg : Lifeguard :=
  match mint_lifeguard_swim 4 2 2 2 (wit_id 9) [wit_id 1; wit_id 2] wit_lg_config wit_config with Ok L => L | Fatal _ => empty_lifeguard 4 2 2 2 (wit_id 9) wit_lg_config wit_config end.
Definition wit_lg_calls : list lg_call := [LTimeout (mkUuid 0 1); LAck (mkUuid 0 2) 40 700; LGossip wit_suspect 50; LProbe 60].

Lemma lifeguard_in_step_witness :
  let L := fold_left (lg_run 4 2 2 2) wit_lg_calls wit_lg in
  bounded_peer 2 L (mkUuid 0 1) /\ local_health_multiplier 2 L (mkUuid 0 1) = inr 3 /\ adaptive_timeout 2 L (mkUuid 0 2) = inr 2100.
Proof.
  destruct (lifeguard_in_step 4 2 2 2 wit_peers wit_events wit_window wit_events (wit_id 9) [wit_id 1; wit_id 2] wit_lg_config wit_config wit_lg wit_lg_calls wit_lg_typed) as (_ & _ & H & _);
    [vm_compute; reflexivity|]. split; [apply H|split; vm_compute; reflexivity]. apply known_status. vm_compute. discriminate.
Defined.

Definition wit_self_suspect : SwimEvent := mkEvent (wit_id 9) Suspect 1 4 7.
Definition wit_remote : Swim := (apply_gossip 4 2 wit_swim wit_self_suspect 10).2.

Lemma wit_remote_ok : swim_ok 4 2 wit_remote.
Proof. exact (proj1 (apply_gossip_grows 4 2 wit_events wit_swim wit_self_suspect 10 wit_swim_ok)). Qed.

Lemma lifeguard_refutation_wins_witness : exists out L' M', lg_apply_gossip 4 2 2 2 wit_lg wit_self_suspect 20 = (inr out, L') /\
  apply_gossip 4 2 wit_remote (alive out) 30 = (inr tt, M') /\ status wit_remote (mkUuid 0 9) = Some (4, 1) /\ status M' (mkUuid 0 9) = Some (5, 0).
Proof.
  destruct (lg_apply_gossip 4 2 2 2 wit_lg wit_self_suspect 20) as [[er|out] L'] eqn:E; [exfalso; vm_compute in E; discriminate|].
  destruct (lifeguard_refutation_wins 4 2 2 2 wit_events wit_lg wit_self_suspect 20 out L' wit_remote 30 E) as (_ & _ & M' & E' & Hst);
    [reflexivity|reflexivity|split; [discriminate|reflexivity]|exact wit_remote_ok|right; vm_compute; split; [reflexivity|discriminate]|left; apply known_status; vm_compute; discriminate|].
  exists out, L', M'. split; [reflexivity|]. split; [exact E'|]. split; [vm_compute; reflexivity|exact Hst].
Defined.
