(* ===== verification/HyParView.v ===== *)
(** * HyParView.v: the overlay of partial views (include/crucible/canopy/HyParView.h)

    The active and the passive view of a node, with the random picks of
    Philox.v.  The properties are in HyParViewProofs.v. *)

From stdpp Require Import base list strings.
From Stdlib Require Import ZArith Lia.
From S2P Require Import Prelude.
From S2P Require Import Philox.
From S2P Require Import SlotTable.
From S2P Require Import Swim.
#[local] Open Scope Z_scope.

Inductive HyParViewError := HActiveViewFull | HDuplicatePeer | HEmptyActiveView | HInvalidConfig | HPassiveViewFull | HPeerNotFound | HZeroUuid.

Record HyParViewConfig := mkHyConfig {
  active_size : Z; passive_size : Z; active_random_walk_length : Z; passive_random_walk_length : Z; active_random_walk_acceptance : Z; shuffle_period_ns : Z;
}.

Record HyParView := mkHy {
  hy_config_ : HyParViewConfig; active_ : list CogIdentity; passive_ : list CogIdentity; active_count_ : Z; passive_count_ : Z; rng_seed_ : Z; rng_counter_ : Z;
}.

Record HyParViewShufflePlan := mkShufflePlan { sp_target : CogIdentity; sp_sample : SlotTable CogIdentity }.
Record HyParViewForwardJoinPlan := mkJoinPlan { jp_targets : SlotTable CogIdentity; jp_joining : CogIdentity; jp_ttl : Z }.

Section Overlay.
Context (MaxActive MaxPassive : Z).

Definition set_active (H : HyParView) (v : list CogIdentity * Z) : HyParView :=
  mkHy (hy_config_ H) v.1 (passive_ H) v.2 (passive_count_ H) (rng_seed_ H) (rng_counter_ H).
Definition set_passive (H : HyParView) (v : list CogIdentity * Z) : HyParView :=
  mkHy (hy_config_ H) (active_ H) v.1 (active_count_ H) v.2 (rng_seed_ H) (rng_counter_ H).
Definition set_rng (H : HyParView) (seed counter : Z) : HyParView :=
  mkHy (hy_config_ H) (active_ H) (passive_ H) (active_count_ H) (passive_count_ H) seed counter.

Definition active_view (H : HyParView) : list CogIdentity := front (active_count_ H) (active_ H).
Definition passive_view (H : HyParView) : list CogIdentity := front (passive_count_ H) (passive_ H).

Definition admit_hyparview_config (c : HyParViewConfig) : expected HyParViewConfig HyParViewError :=
  if (MaxActive <? active_size c) || (MaxPassive <? passive_size c) || (passive_size c <? active_size c) then inl HInvalidConfig else inr c.

Definition admit_hyparview_peer (p : CogIdentity) : expected CogIdentity HyParViewError := if is_zero (uuid p) then inl HZeroUuid else inr p.

Definition mix_uuid_seed_ (seed : Z) (u : Uuid) : Z :=
  let seed := u64 (Z.lxor seed (lo u) * 0x100000001b3) in u64 (Z.lxor seed (hi u) * 0x100000001b3).

Definition next_random_ (H : HyParView) : Ctr * HyParView :=
  (philox_generate (rng_counter_ H) (rng_seed_ H), set_rng H (rng_seed_ H) (u64 (rng_counter_ H + 1))).

Definition holds (u : Uuid) (l : list CogIdentity) : bool := existsb (fun p => bool_decide (uuid p = u)) l.

Definition contains_ (H : HyParView) (u : Uuid) : bool := holds u (active_view H) || holds u (passive_view H).

Definition add_passive_unique_ (H : HyParView) (peer : CogIdentity) : HyParView :=
  let H := set_rng H (mix_uuid_seed_ (rng_seed_ H) (uuid peer)) (rng_counter_ H) in
  if passive_count_ H <? passive_size (hy_config_ H) then set_passive H (aset (passive_ H) (passive_count_ H) peer, passive_count_ H + 1)
  else if passive_count_ H =? 0 then H
  else
    let '(rand, H) := next_random_ H in
    let idx := ctr0 rand mod passive_count_ H in
    set_passive H (aset (passive_ H) idx peer, passive_count_ H).

(** The view and its count after the removal, when the peer is there. *)
Definition remove_ (view : list CogIdentity) (cnt : Z) (u : Uuid) : option (list CogIdentity * Z) :=
  match find_from (fun p => bool_decide (uuid p = u)) (front cnt view) 0 with
  | None => None
  | Some i =>
      let last := cnt - 1 in
      Some (aset (aset view i (aget no_cog view last)) last no_cog, cnt - 1)
  end.

Definition join (H : HyParView) (id : CogIdentity) : expected unit HyParViewError * HyParView :=
  if is_zero (uuid id) then (inl HZeroUuid, H)
  else if contains_ H (uuid id) then (inl HDuplicatePeer, H)
  else if active_count_ H =? active_size (hy_config_ H) then (inl HActiveViewFull, H)
  else
    let H := set_rng H (mix_uuid_seed_ (rng_seed_ H) (uuid id)) (rng_counter_ H) in
    (inr tt, set_active H (aset (active_ H) (active_count_ H) id, active_count_ H + 1)).

Definition add_passive (H : HyParView) (id : CogIdentity) : expected unit HyParViewError * HyParView :=
  if is_zero (uuid id) then (inl HZeroUuid, H)
  else if contains_ H (uuid id) then (inl HDuplicatePeer, H)
  else (inr tt, add_passive_unique_ H id).

Definition promote_passive_ (H : HyParView) : HyParView :=
  if (passive_count_ H =? 0) || (active_count_ H =? active_size (hy_config_ H)) then H
  else
    let '(rand, H) := next_random_ H in
    let idx := ctr0 rand mod passive_count_ H in
    let promoted := aget no_cog (passive_ H) idx in
    let H := match remove_ (passive_ H) (passive_count_ H) (uuid promoted) with Some v => set_passive H v | None => H end in
    set_active H (aset (active_ H) (active_count_ H) promoted, active_count_ H + 1).

Definition mark_failed (H : HyParView) (u : Uuid) : expected unit HyParViewError * HyParView :=
  let ra := remove_ (active_ H) (active_count_ H) u in
  let rp := remove_ (passive_ H) (passive_count_ H) u in
  let H := match ra with Some v => set_active H v | None => H end in
  let H := match rp with Some v => set_passive H v | None => H end in
  match ra, rp with
  | None, None => (inl HPeerNotFound, H)
  | Some _, _ => (inr tt, promote_passive_ H)
  | None, Some _ => (inr tt, H)
  end.

Definition on_swim_event (H : HyParView) (raw : SwimEvent) : expected unit HyParViewError * HyParView :=
  if is_zero (uuid (ev_peer raw)) then (inl HZeroUuid, H)
  else if bool_decide (ev_state raw = Dead) then mark_failed H (uuid (ev_peer raw))
  else (inr tt, if contains_ H (uuid (ev_peer raw)) then H else add_passive_unique_ H (ev_peer raw)).

Fixpoint take_sample (H : HyParView) (start : Z) (ks : list Z) (out : SlotTable CogIdentity) : SlotTable CogIdentity :=
  match ks with
  | [] => out
  | i :: ks => take_sample H start ks (push MaxPassive out (aget no_cog (passive_ H) ((start + i) mod passive_count_ H))).1
  end.

Definition shuffle_plan (H : HyParView) : expected HyParViewShufflePlan HyParViewError * HyParView :=
  if active_count_ H =? 0 then (inl HEmptyActiveView, H)
  else
    let '(rand, H) := next_random_ H in
    let target := aget no_cog (active_ H) (ctr0 rand mod active_count_ H) in
    let limit := Z.min (passive_random_walk_length (hy_config_ H)) (passive_count_ H) in
    let out := empty_table MaxPassive no_cog in
    let sample := if limit =? 0 then out else take_sample H (ctr1 rand mod passive_count_ H) (seqZ 0 limit) out in
    (inr (mkShufflePlan target sample), H).

Fixpoint apply_peers (H : HyParView) (l : list CogIdentity) : expected unit HyParViewError * HyParView :=
  match l with
  | [] => (inr tt, H)
  | p :: l =>
      if is_zero (uuid p) then (inl HZeroUuid, H)
      else apply_peers (if contains_ H (uuid p) then H else add_passive_unique_ H p) l
  end.

Definition apply_shuffle (H : HyParView) (shuffle : SlotTable CogIdentity) : expected unit HyParViewError * HyParView := apply_peers H (live shuffle).

Fixpoint join_targets (joining : Uuid) (limit : Z) (l : list CogIdentity) (out : SlotTable CogIdentity) : SlotTable CogIdentity :=
  match l with
  | [] => out
  | p :: l =>
      if count out <? limit then join_targets joining limit l (if bool_decide (uuid p = joining) then out else (push MaxActive out p).1) else out
  end.

Definition forward_join_plan (H : HyParView) (joining : CogIdentity) : expected HyParViewForwardJoinPlan HyParViewError :=
  if is_zero (uuid joining) then inl HZeroUuid
  else
    let limit := Z.min (active_count_ H) (active_random_walk_acceptance (hy_config_ H)) in
    inr (mkJoinPlan (join_targets (uuid joining) limit (active_view H) (empty_table MaxActive no_cog)) joining (active_random_walk_length (hy_config_ H))).

(** ** populate_hyparview_membership *)

Definition check_peer (H : HyParView) (u : Uuid) (earlier : list CogIdentity) : option HyParViewError :=
  if is_zero u then Some HZeroUuid else if holds u earlier || (holds u (active_view H) || holds u (passive_view H)) then Some HDuplicatePeer else None.

(** [earlier] is the part of the list before [l]. *)
Fixpoint check_active (H : HyParView) (earlier l : list CogIdentity) : option HyParViewError :=
  match l with
  | [] => None
  | p :: l => match check_peer H (uuid p) earlier with Some e => Some e | None => check_active H (earlier ++ [p]) l end
  end.

Fixpoint check_passive (H : HyParView) (actives earlier l : list CogIdentity) : option HyParViewError :=
  match l with
  | [] => None
  | p :: l =>
      if holds (uuid p) actives then Some HDuplicatePeer
      else match check_peer H (uuid p) earlier with Some e => Some e | None => check_passive H actives (earlier ++ [p]) l end
  end.

Fixpoint insert_all (f : HyParView -> CogIdentity -> expected unit HyParViewError * HyParView) (why : string) (H : HyParView) (l : list CogIdentity) : result HyParView :=
  match l with
  | [] => Ok H
  | p :: l => match f H p with (inr _, H) => insert_all f why H l | (inl _, _) => Fatal why end
  end.

Definition populate_hyparview_membership (H : HyParView) (actives passives : list CogIdentity) : result (expected unit HyParViewError * HyParView) :=
  let c := hy_config_ H in
  if active_size c - active_count_ H <? Z.of_nat (length actives) then Ok (inl HActiveViewFull, H)
  else if passive_size c - passive_count_ H <? Z.of_nat (length passives) then Ok (inl HPassiveViewFull, H)
  else match check_active H [] actives with
  | Some e => Ok (inl e, H)
  | None =>
      match check_passive H actives [] passives with
      | Some e => Ok (inl e, H)
      | None =>
          (let* H := insert_all join "membership.join(peer).has_value()" H actives in
           let* H := insert_all add_passive "membership.add_passive(peer).has_value()" H passives in
           Ok (inr tt, H))%result
      end
  end.

Definition empty_hyparview (c : HyParViewConfig) : HyParView := mkHy c (replicate (Z.to_nat MaxActive) no_cog) (replicate (Z.to_nat MaxPassive) no_cog) 0 0 0 0.

Definition mint_hyparview (actives passives : list CogIdentity) (c : HyParViewConfig) : result HyParView :=
  (let* _ := require (match admit_hyparview_config c with inr _ => true | inl _ => false end) "admit_hyparview_config(config).has_value()" in
   let* '(r, H) := populate_hyparview_membership (empty_hyparview c) actives passives in
   let* _ := require (match r with inr _ => true | inl _ => false end) "populate_hyparview_membership(...).has_value()" in
   Ok H)%result.
End Overlay.
