(* ===== verification/HyParViewProofs.v ===== *)
(** * HyParViewProofs.v: the views stay disjoint and heal

    The properties of HyParView.v: the invariant of the two views, what a
    failure changes, and the insertion of a list of peers that happens whole
    or not at all. *)

From stdpp Require Import base list strings.
From Stdlib Require Import ZArith Lia.
From S2P Require Import Prelude.
From S2P Require Import Philox.
From S2P Require Import SlotTable.
From S2P Require Import Swim.
From S2P Require Import HyParView.
#[local] Open Scope Z_scope.

#[local] Opaque philox_generate.

(** ** Arrays *)

Lemma insert_swap {A} (l : list A) i x y : l !! i = Some x -> x :: <[i := y]> l ≡ₚ y :: l.
Proof.
  intros Hx. pose proof (lookup_lt_Some _ _ _ Hx) as Hl. rewrite <- (take_drop_middle l i x Hx) at 2. rewrite insert_take_drop by done.
  rewrite <- !Permutation_middle. apply perm_swap.
Qed.

Lemma front_set_ge {A} (l : list A) n i v : 0 <= n <= i -> front n (aset l i v) = front n l.
Proof. intros H. unfold front, aset. by rewrite take_insert_ge by lia. Qed.

Lemma front_snoc {A} (l : list A) n d : 0 < n <= Z.of_nat (length l) -> front n l = front (n - 1) l ++ [aget d l (n - 1)].
Proof.
  intros Hn. unfold front, aget. replace (Z.to_nat n) with (S (Z.to_nat (n - 1))) by lia.
  destruct (lookup_lt_is_Some_2 l (Z.to_nat (n - 1)) ltac:(lia)) as [x Hx]. rewrite (take_S_r _ _ x Hx), Hx. done.
Qed.

Lemma holds_spec u l : holds u l = true <-> u ∈ uuid <$> l.
Proof.
  unfold holds. rewrite existsb_exists, list_elem_of_fmap. split.
  - intros (p & Hp & Hu). exists p. apply bool_decide_eq_true in Hu. split; [done|]. by apply list_elem_of_In.
  - intros (p & -> & Hp). exists p. split; [by apply list_elem_of_In|by apply bool_decide_eq_true].
Qed.

Lemma holds_false u l : holds u l = false <-> u ∉ uuid <$> l.
Proof. rewrite <- holds_spec. by destruct (holds u l). Qed.

Lemma remove_ok view cnt u : 0 <= cnt <= Z.of_nat (length view) ->
  match remove_ view cnt u with
  | Some (view', cnt') => cnt' = cnt - 1 /\ 0 <= cnt' /\ length view' = length view /\ exists p, uuid p = u /\ front cnt view ≡ₚ p :: front cnt' view'
  | None => u ∉ uuid <$> front cnt view
  end.
Proof.
  intros Hc. unfold remove_. destruct (find_from _ _ _) as [i|] eqn:Ef.
  - apply find_from_some in Ef as (p & Hi & Hp & Hu & _). rewrite Z.sub_0_r in Hp. apply bool_decide_eq_true in Hu. pose proof (lookup_lt_Some _ _ _ Hp) as Hl. pose proof (front_length cnt view Hc) as Hf.
    split_and!; [done|lia|by rewrite !length_aset|]. exists p. split; [done|]. rewrite front_set_ge by lia. pose proof (front_snoc view cnt no_cog ltac:(lia)) as Es. set (y := aget no_cog view (cnt - 1)) in *.
    pose proof (front_length (cnt - 1) view ltac:(lia)) as Hf1. rewrite Es in Hp |- *. destruct (decide (i = cnt - 1)) as [->|Hne].
    + rewrite front_set_ge by lia. rewrite lookup_app_r in Hp by lia. replace (Z.to_nat (cnt - 1) - length (front (cnt - 1) view))%nat with 0%nat in Hp by lia. injection Hp as <-. by rewrite Permutation_app_comm.
    + rewrite lookup_app_l in Hp by lia. rewrite front_set by lia. unfold aset. rewrite insert_swap by done. by rewrite Permutation_app_comm.
  - pose proof (find_from_none _ _ _ Ef) as Hn. intros (p & -> & Hp)%list_elem_of_fmap. specialize (Hn p Hp). by apply bool_decide_eq_false in Hn.
Qed.

(** ** The invariant *)

Section Proofs.
Context (MaxActive MaxPassive : Z) (HA : slot_capacity MaxActive) (HPs : slot_capacity MaxPassive).
#[local] Set Default Proof Using "Type".

(** Every peer that the node knows. *)
Definition views (H : HyParView) : list CogIdentity := active_view H ++ passive_view H.

Definition sizes_ok (c : HyParViewConfig) : Prop := 0 < active_size c <= MaxActive /\ active_size c <= passive_size c <= MaxPassive.

Record hy_ok (H : HyParView) : Prop := {
  ho_config : sizes_ok (hy_config_ H);
  ho_active : Z.of_nat (length (active_ H)) = MaxActive;
  ho_passive : Z.of_nat (length (passive_ H)) = MaxPassive;
  ho_active_count : 0 <= active_count_ H <= active_size (hy_config_ H);
  ho_passive_count : 0 <= passive_count_ H <= passive_size (hy_config_ H);
  ho_unique : NoDup (uuid <$> views H);
  ho_named : zero_uuid ∉ uuid <$> views H;
}.

Lemma holds_view H u : contains_ H u = true <-> u ∈ uuid <$> views H.
Proof. unfold contains_, views. rewrite orb_true_iff, !holds_spec, fmap_app, elem_of_app. done. Qed.

Lemma contains_false H u : contains_ H u = false <-> u ∉ uuid <$> views H.
Proof. rewrite <- holds_view. by destruct (contains_ H u). Qed.

(** A node with the same configuration, arrays of the same length, counts in
    range, and a part of the peers. *)
Lemma hy_ok_part H H' gone : hy_ok H -> hy_config_ H' = hy_config_ H -> length (active_ H') = length (active_ H) -> length (passive_ H') = length (passive_ H) ->
  0 <= active_count_ H' <= active_size (hy_config_ H) -> 0 <= passive_count_ H' <= passive_size (hy_config_ H) -> views H ≡ₚ gone ++ views H' -> hy_ok H'.
Proof.
  intros [? ? ? ? ? Hu Hz] Ec E1 E2 H1 H2 Hv. split; rewrite ?Ec; try done; try lia.
  - rewrite Hv, fmap_app in Hu. by apply NoDup_app in Hu as (_ & _ & ?).
  - rewrite Hv, fmap_app, elem_of_app in Hz. tauto.
Qed.

Lemma hy_ok_more H H' p : hy_ok H -> hy_config_ H' = hy_config_ H -> length (active_ H') = length (active_ H) -> length (passive_ H') = length (passive_ H) ->
  0 <= active_count_ H' <= active_size (hy_config_ H) -> 0 <= passive_count_ H' <= passive_size (hy_config_ H) ->
  uuid p <> zero_uuid -> uuid p ∉ uuid <$> views H -> (exists gone, gone ++ views H' ≡ₚ p :: views H) -> hy_ok H'.
Proof.
  intros [? ? ? ? ? Hu Hz] Ec E1 E2 H1 H2 Hp Hn (gone & Hv).
  assert (Hu' : NoDup (uuid <$> (gone ++ views H'))) by (rewrite Hv; apply NoDup_cons; done).
  assert (Hz' : zero_uuid ∉ uuid <$> (gone ++ views H')) by (rewrite Hv; apply not_elem_of_cons; split; [congruence|done]).
  rewrite fmap_app in Hu', Hz'. rewrite elem_of_app in Hz'. apply NoDup_app in Hu' as (_ & _ & Hu'). split; rewrite ?Ec; try done; try lia. tauto.
Qed.

Lemma add_passive_ok H p : hy_ok H -> uuid p <> zero_uuid -> uuid p ∉ uuid <$> views H ->
  hy_ok (add_passive_unique_ H p) /\ active_view (add_passive_unique_ H p) = active_view H /\
  (passive_count_ H < passive_size (hy_config_ H) -> passive_view (add_passive_unique_ H p) = passive_view H ++ [p]) /\
  exists gone, (length gone <= 1)%nat /\ gone ++ passive_view (add_passive_unique_ H p) ≡ₚ p :: passive_view H.
Proof.
  intros HH Hz Hn. pose proof HH as [[Hs1 Hs2] Hla Hlp Hca Hcp _ _]. unfold add_passive_unique_. set (H1 := set_rng H _ _). assert (HH1 : hy_ok H1) by (by destruct HH; split).
  change (passive_count_ H1) with (passive_count_ H). change (hy_config_ H1) with (hy_config_ H). destruct (Z.ltb_spec (passive_count_ H) (passive_size (hy_config_ H))) as [Hlt|Hge].
  - assert (E : passive_view (set_passive H1 (aset (passive_ H1) (passive_count_ H) p, passive_count_ H + 1)) = passive_view H ++ [p]) by (apply front_push; lia).
    split_and!; [|done|done|exists []; split; [cbn; lia|rewrite E; cbn; by rewrite Permutation_app_comm]]. eapply (hy_ok_more H _ p); try done; [cbn; by rewrite length_aset|cbn; lia|].
    exists []. unfold views. rewrite E. change (active_view (set_passive H1 _)) with (active_view H). cbn. by rewrite app_assoc, Permutation_app_comm.
  - rewrite (proj2 (Z.eqb_neq _ _)) by lia. unfold next_random_. generalize (philox_generate (rng_counter_ H1) (rng_seed_ H1)) as rand. intros rand. cbv beta iota. set (H2 := set_rng H1 _ _). change (passive_count_ H2) with (passive_count_ H). change (passive_ H2) with (passive_ H).
    pose proof (Z.mod_pos_bound (ctr0 rand) (passive_count_ H) ltac:(lia)) as Hi. set (i := ctr0 rand mod passive_count_ H) in *.
    assert (E : passive_view (set_passive H2 (aset (passive_ H) i p, passive_count_ H)) = <[Z.to_nat i := p]> (passive_view H)) by (apply front_set; lia).
    pose proof (front_length (passive_count_ H) (passive_ H) ltac:(lia)) as Hf. fold (passive_view H) in Hf.
    destruct (lookup_lt_is_Some_2 (passive_view H) (Z.to_nat i) ltac:(lia)) as [x Hx]. pose proof (insert_swap _ _ _ p Hx) as Hs.
    split_and!; [|done|lia|exists [x]; split; [cbn; lia|by rewrite E]]. eapply (hy_ok_more H _ p); try done; [cbn; by rewrite length_aset|].
    exists [x]. unfold views. rewrite E. change (active_view (set_passive H2 _)) with (active_view H). cbn. by rewrite Permutation_middle, Hs, <- Permutation_middle.
Qed.

Lemma join_ok H p : hy_ok H -> match join H p with (inr _, H') => hy_ok H' /\ active_view H' = active_view H ++ [p] /\ passive_view H' = passive_view H | (inl _, H') => H' = H end.
Proof.
  intros HH. pose proof HH as [[Hs1 Hs2] Hla Hlp Hca Hcp _ _]. unfold join. destruct (is_zero (uuid p)) eqn:Ez; [done|]. destruct (contains_ H (uuid p)) eqn:Ec; [done|].
  destruct (Z.eqb_spec (active_count_ H) (active_size (hy_config_ H))); [done|]. set (H1 := set_rng H _ _).
  assert (E : active_view (set_active H1 (aset (active_ H1) (active_count_ H1) p, active_count_ H1 + 1)) = active_view H ++ [p]) by (apply front_push; cbn; lia).
  split_and!; [|done|done]. eapply (hy_ok_more H _ p); try done; [cbn; by rewrite length_aset|cbn; lia|by apply is_zero_false|by apply contains_false|].
  exists []. unfold views. rewrite E. change (passive_view (set_active H1 _)) with (passive_view H). cbn [app]. rewrite <- app_assoc. symmetry. apply Permutation_middle.
Qed.

(** ** Failures *)

Lemma promote_ok H : hy_ok H -> active_count_ H < active_size (hy_config_ H) -> passive_count_ H <> 0 ->
  hy_ok (promote_passive_ H) /\ views (promote_passive_ H) ≡ₚ views H /\ active_count_ (promote_passive_ H) = active_count_ H + 1 /\
  exists p, p ∈ passive_view H /\ active_view (promote_passive_ H) = active_view H ++ [p].
Proof.
  intros HH Hroom Hne. pose proof HH as [[Hs1 Hs2] Hla Hlp Hca Hcp Hu _]. unfold promote_passive_. rewrite (proj2 (Z.eqb_neq _ _)) by done. rewrite (proj2 (Z.eqb_neq _ _)) by lia. cbn [orb].
  unfold next_random_. generalize (philox_generate (rng_counter_ H) (rng_seed_ H)) as rand. intros rand. cbv beta iota zeta. set (H1 := set_rng H _ _). change (passive_count_ H1) with (passive_count_ H). change (passive_ H1) with (passive_ H).
  pose proof (Z.mod_pos_bound (ctr0 rand) (passive_count_ H) ltac:(lia)) as Hi. set (i := ctr0 rand mod passive_count_ H) in *. set (p := aget no_cog (passive_ H) i).
  pose proof (front_length (passive_count_ H) (passive_ H) ltac:(lia)) as Hf. fold (passive_view H) in Hf.
  assert (Hp : passive_view H !! Z.to_nat i = Some p). { destruct (lookup_lt_is_Some_2 (passive_view H) (Z.to_nat i) ltac:(lia)) as [x Hx]. rewrite Hx. f_equal. unfold p, aget. unfold passive_view in Hx. rewrite front_lookup in Hx by lia. by rewrite Hx. }
  assert (Hin : p ∈ passive_view H) by (by eapply list_elem_of_lookup_2). pose proof (remove_ok (passive_ H) (passive_count_ H) (uuid p) ltac:(lia)) as Hr.
  destruct (remove_ _ _ _) as [[v c]|]; [|destruct Hr; by apply list_elem_of_fmap_2]. destruct Hr as (-> & Hc0 & Hlen & q & Hq & Hperm).
  assert (Eq : q = p).
  { assert (Hqin : q ∈ passive_view H) by (unfold passive_view; rewrite Hperm; apply elem_of_cons; by left). unfold views in Hu. rewrite fmap_app in Hu. apply NoDup_app in Hu as (_ & _ & Hu).
    apply list_elem_of_lookup_1 in Hqin as [j Hj]. assert (j = Z.to_nat i) as ->; [|congruence]. eapply NoDup_lookup; [exact Hu|by rewrite list_lookup_fmap, Hj|by rewrite list_lookup_fmap, Hp; cbn; f_equal]. }
  subst q. set (H2 := set_passive H1 (v, passive_count_ H - 1)). change (active_ H2) with (active_ H). change (active_count_ H2) with (active_count_ H).
  assert (Ea : active_view (set_active H2 (aset (active_ H) (active_count_ H) p, active_count_ H + 1)) = active_view H ++ [p]) by (apply front_push; lia).
  assert (Hv : views (set_active H2 (aset (active_ H) (active_count_ H) p, active_count_ H + 1)) ≡ₚ views H).
  { unfold views. rewrite Ea, <- app_assoc. apply Permutation_app_head. unfold passive_view at 2. rewrite Hperm. done. }
  split_and!; [|done|done|by exists p]. eapply (hy_ok_part H _ []); try done; [cbn; by rewrite length_aset|cbn; lia|cbn; lia].
Qed.

Lemma active_gone H u v c : hy_ok H -> remove_ (active_ H) (active_count_ H) u = Some (v, c) ->
  hy_ok (set_active H (v, c)) /\ c = active_count_ H - 1 /\ exists p, uuid p = u /\ active_view H ≡ₚ p :: active_view (set_active H (v, c)).
Proof.
  intros HH Er. pose proof HH as [[Hs1 Hs2] Hla Hlp Hca Hcp _ _]. pose proof (remove_ok (active_ H) (active_count_ H) u ltac:(lia)) as Hr. rewrite Er in Hr. destruct Hr as (-> & Hc & Hl & p & Hp & Hperm).
  split_and!; [|done|by exists p]. eapply (hy_ok_part H _ [p]); try done; [cbn; lia|]. unfold views. unfold active_view at 1. by rewrite Hperm.
Qed.

Lemma passive_gone H u v c : hy_ok H -> remove_ (passive_ H) (passive_count_ H) u = Some (v, c) ->
  hy_ok (set_passive H (v, c)) /\ exists p, uuid p = u /\ passive_view H ≡ₚ p :: passive_view (set_passive H (v, c)).
Proof.
  intros HH Er. pose proof HH as [[Hs1 Hs2] Hla Hlp Hca Hcp _ _]. pose proof (remove_ok (passive_ H) (passive_count_ H) u ltac:(lia)) as Hr. rewrite Er in Hr. destruct Hr as (-> & Hc & Hl & p & Hp & Hperm).
  split; [|by exists p]. eapply (hy_ok_part H _ [p]); try done; [cbn; lia|]. unfold views. unfold passive_view at 1. rewrite Hperm. symmetry. exact (Permutation_middle (active_view H) _ p).
Qed.

Lemma none_gone view cnt u : 0 <= cnt <= Z.of_nat (length view) -> remove_ view cnt u = None <-> u ∉ uuid <$> front cnt view.
Proof.
  intros Hc. pose proof (remove_ok view cnt u Hc) as Hr. destruct (remove_ view cnt u) as [[v c]|]; [|done]. split; [done|]. destruct Hr as (_ & _ & _ & p & <- & Hperm). intros Hn. exfalso. apply Hn. rewrite Hperm. apply elem_of_cons. by left.
Qed.

Lemma views_disjoint H u : hy_ok H -> u ∈ uuid <$> active_view H -> u ∉ uuid <$> passive_view H.
Proof. intros HH Ha Hp. pose proof (ho_unique _ HH) as Hu. unfold views in Hu. rewrite fmap_app in Hu. apply NoDup_app in Hu as (_ & Hd & _). by eapply Hd. Qed.

(** What a failure of [u] leaves. *)
Definition failed_post (H : HyParView) (u : Uuid) (r : expected unit HyParViewError * HyParView) : Prop :=
  let '(res, H') := r in
  match res with
  | inl e => e = HPeerNotFound /\ H' = H /\ u ∉ uuid <$> views H
  | inr _ => hy_ok H' /\ (exists p, uuid p = u /\ views H ≡ₚ p :: views H') /\
      (u ∈ uuid <$> active_view H -> active_count_ H' = if passive_count_ H =? 0 then active_count_ H - 1 else active_count_ H) /\
      (u ∉ uuid <$> active_view H -> active_view H' = active_view H)
  end.

Lemma mark_failed_ok H u : hy_ok H -> failed_post H u (mark_failed H u).
Proof.
  intros HH. pose proof HH as [[Hs1 Hs2] Hla Hlp Hca Hcp _ _]. unfold mark_failed. destruct (remove_ (active_ H) (active_count_ H) u) as [[va ca]|] eqn:Ea.
  - destruct (active_gone H u va ca HH Ea) as (HH1 & -> & p & Hp & Hperm).
    assert (Hin : u ∈ uuid <$> active_view H) by (rewrite Hperm; apply elem_of_cons; left; by symmetry).
    assert (En : remove_ (passive_ H) (passive_count_ H) u = None) by (apply none_gone; [lia|by apply views_disjoint]). rewrite En.
    assert (Hv : views H ≡ₚ p :: views (set_active H (va, active_count_ H - 1))) by (unfold views; by rewrite Hperm). set (H1 := set_active H (va, active_count_ H - 1)) in *.
    assert (Hpos : 0 <= active_count_ H1) by (apply (ho_active_count H1 HH1)). change (active_count_ H1) with (active_count_ H - 1) in Hpos.
    destruct (Z.eqb_spec (passive_count_ H) 0) as [E0|E0].
    + assert (Epr : promote_passive_ H1 = H1) by (unfold promote_passive_; by rewrite (proj2 (Z.eqb_eq (passive_count_ H1) 0) E0)). unfold failed_post. rewrite Epr, (proj2 (Z.eqb_eq _ _) E0).
      split_and!; [done|by exists p|done|done].
    + destruct (promote_ok H1 HH1) as (HH2 & Hv2 & Hc2 & _); [cbn; lia|done|]. unfold failed_post. rewrite (proj2 (Z.eqb_neq _ _) E0). split_and!; [done|exists p; by rewrite Hv2|intros _; rewrite Hc2; cbn; lia|done].
  - apply none_gone in Ea; [|lia]. destruct (remove_ (passive_ H) (passive_count_ H) u) as [[vp cp]|] eqn:Ep.
    + destruct (passive_gone H u vp cp HH Ep) as (HH1 & p & Hp & Hperm). unfold failed_post. split_and!; [done| |done|done]. exists p. split; [done|]. unfold views at 1. rewrite Hperm. symmetry. exact (Permutation_middle (active_view H) _ p).
    + apply none_gone in Ep; [|lia]. unfold failed_post. split_and!; [done|done|]. unfold views. rewrite fmap_app, elem_of_app. tauto.
Qed.

(** ** The calls *)

Inductive hy_call := HJoin (p : CogIdentity) | HPassive (p : CogIdentity) | HEvent (e : SwimEvent) | HFailed (u : Uuid) | HShuffle | HApply (s : SlotTable CogIdentity).

Definition hy_run (H : HyParView) (c : hy_call) : HyParView :=
  match c with
  | HJoin p => (join H p).2
  | HPassive p => (add_passive H p).2
  | HEvent e => (on_swim_event H e).2
  | HFailed u => (mark_failed H u).2
  | HShuffle => (shuffle_plan MaxPassive H).2
  | HApply s => (apply_shuffle H s).2
  end.

Lemma learn_ok H p : hy_ok H -> is_zero (uuid p) = false -> hy_ok (if contains_ H (uuid p) then H else add_passive_unique_ H p).
Proof. intros HH Hz. destruct (contains_ H (uuid p)) eqn:Ec; [done|]. apply add_passive_ok; [done|by apply is_zero_false|by apply contains_false]. Qed.

Lemma apply_peers_ok H l : hy_ok H -> hy_ok (apply_peers H l).2.
Proof. revert H. induction l as [|p l IH]; intros H HH; [done|]. cbn. destruct (is_zero (uuid p)) eqn:Ez; [done|]. apply IH. by apply learn_ok. Qed.

Lemma failed_hy_ok H u : hy_ok H -> hy_ok (mark_failed H u).2.
Proof. intros HH. pose proof (mark_failed_ok H u HH) as Hf. destruct (mark_failed H u) as [[e|[]] H']; [by destruct Hf as (_ & -> & _)|apply Hf]. Qed.

Lemma hy_run_ok H c : hy_ok H -> hy_ok (hy_run H c).
Proof.
  intros HH. destruct c as [p|p|e|u| |s]; cbn [hy_run].
  - pose proof (join_ok H p HH) as Hj. destruct (join H p) as [[e|[]] H']; [by subst|apply Hj].
  - unfold add_passive. destruct (is_zero (uuid p)) eqn:Ez; [done|]. pose proof (learn_ok H p HH Ez) as Hl. by destruct (contains_ H (uuid p)).
  - unfold on_swim_event. destruct (is_zero _) eqn:Ez; [done|]. case_bool_decide; [by apply failed_hy_ok|by apply learn_ok].
  - by apply failed_hy_ok.
  - unfold shuffle_plan. destruct (_ =? 0); [done|]. unfold next_random_. destruct HH. by split.
  - by apply apply_peers_ok.
Qed.

Lemma hy_runs_ok H cs : hy_ok H -> hy_ok (fold_left hy_run cs H).
Proof. revert H. induction cs as [|c cs IH]; intros H HH; [done|]. apply IH. by apply hy_run_ok. Qed.

(** ** The insertion of lists *)

Lemma check_peer_none H u earlier : check_peer H u earlier = None <-> u <> zero_uuid /\ u ∉ uuid <$> earlier /\ u ∉ uuid <$> views H.
Proof.
  unfold check_peer. destruct (is_zero u) eqn:Ez; [apply is_zero_true in Ez; split; [done|tauto]|]. apply is_zero_false in Ez.
  destruct (holds u earlier || _) eqn:Eh; (split; [|]); try done.
  - intros (_ & H1 & H2). apply orb_true_iff in Eh as [Eh|Eh]; [by apply holds_spec in Eh|]. apply holds_view in Eh. done.
  - intros _. apply orb_false_iff in Eh as [E1 E2]. apply holds_false in E1. apply contains_false in E2. done.
Qed.

(** Peers that can be inserted together: named, distinct and not known. *)
Definition fresh_peers (known l : list CogIdentity) : Prop := Forall (fun p => uuid p <> zero_uuid) l /\ NoDup (uuid <$> l) /\ forall p, p ∈ l -> uuid p ∉ uuid <$> known.

Lemma fresh_cons known p l : fresh_peers known (p :: l) <-> uuid p <> zero_uuid /\ uuid p ∉ uuid <$> known /\ fresh_peers (p :: known) l.
Proof.
  unfold fresh_peers. rewrite Forall_cons, fmap_cons, NoDup_cons. split.
  - intros ((Hz & Hf) & (Hn & Hd) & Hk). split_and!; [done|apply Hk, elem_of_cons; by left|done|done|]. intros q Hq. apply not_elem_of_cons. split; [|apply Hk, elem_of_cons; by right].
    intros E. apply Hn. rewrite <- E. by apply list_elem_of_fmap_2.
  - intros (Hz & Hk & Hf & Hd & Hr). split_and!; [done|done| |done|].
    + intros (q & Hq & Hin)%list_elem_of_fmap. specialize (Hr q Hin). apply Hr. rewrite <- Hq. apply elem_of_cons. by left.
    + intros q [->|Hq]%elem_of_cons; [done|]. specialize (Hr q Hq). apply not_elem_of_cons in Hr. tauto.
Qed.

Lemma fresh_perm known known' l : known ≡ₚ known' -> fresh_peers known l <-> fresh_peers known' l.
Proof. intros E. unfold fresh_peers. by setoid_rewrite E. Qed.

Lemma check_active_none H earlier l : check_active H earlier l = None <-> fresh_peers (earlier ++ views H) l.
Proof.
  revert earlier. induction l as [|p l IH]; intros earlier; cbn; [split; [intros _; split_and!; [constructor|constructor|intros p Hp; by apply not_elem_of_nil in Hp]|done]|].
  rewrite fresh_cons. pose proof (check_peer_none H (uuid p) earlier) as Hc. rewrite fmap_app, not_elem_of_app. destruct (check_peer H (uuid p) earlier).
  - split; [done|]. intros (H1 & H2 & _). destruct (proj2 Hc); [tauto|done].
  - rewrite IH. assert (E : (earlier ++ [p]) ++ views H ≡ₚ p :: earlier ++ views H) by (rewrite <- app_assoc; symmetry; exact (Permutation_middle earlier _ p)). rewrite (fresh_perm _ _ _ E). destruct (proj1 Hc eq_refl) as (H1 & H2 & H3). tauto.
Qed.

Lemma check_passive_none H actives earlier l : check_passive H actives earlier l = None <-> fresh_peers (earlier ++ views H) l /\ forall p, p ∈ l -> uuid p ∉ uuid <$> actives.
Proof.
  rewrite <- check_active_none. revert earlier. induction l as [|p l IH]; intros earlier; cbn; [split; [intros _; split; [done|intros p Hp; by apply not_elem_of_nil in Hp]|done]|].
  destruct (holds (uuid p) actives) eqn:Eh.
  - apply holds_spec in Eh. split; [done|]. intros [_ Hn]. by destruct (Hn p ltac:(apply elem_of_cons; by left)).
  - apply holds_false in Eh. destruct (check_peer H (uuid p) earlier); [split; [done|by intros [? _]]|]. rewrite IH. split; intros [H1 H2]; (split; [done|]); [intros q [->|Hq]%elem_of_cons; auto|intros q Hq; apply H2, elem_of_cons; by right].
Qed.

Lemma join_all_ok why H l : hy_ok H -> fresh_peers (views H) l -> active_count_ H + Z.of_nat (length l) <= active_size (hy_config_ H) ->
  exists H', insert_all join why H l = Ok H' /\ hy_ok H' /\ active_view H' = active_view H ++ l /\ passive_view H' = passive_view H /\ hy_config_ H' = hy_config_ H /\ passive_count_ H' = passive_count_ H.
Proof.
  revert H. induction l as [|p l IH]; intros H HH Hf Hc; [exists H; split_and!; try done; by rewrite app_nil_r|]. apply fresh_cons in Hf as (Hz & Hn & Hf). cbn [insert_all]. pose proof (join_ok H p HH) as Hj.
  unfold join in *. rewrite (proj2 (is_zero_false _) Hz), (proj2 (contains_false _ _) Hn) in *. cbn [length] in Hc. rewrite (proj2 (Z.eqb_neq _ _)) in Hj |- * by lia. destruct Hj as (HH1 & Ea & Ep). set (H1 := set_active _ _) in *.
  assert (Hv : p :: views H ≡ₚ views H1) by (unfold views; rewrite Ea, Ep, <- app_assoc; exact (Permutation_middle (active_view H) _ p)).
  destruct (IH H1 HH1) as (H' & E & HH' & Ea' & Ep' & Ec' & Epc); [by apply (fresh_perm _ _ _ Hv)|cbn; lia|]. exists H'. rewrite Ea in Ea'. rewrite <- app_assoc in Ea'. split_and!; [done|done|done|congruence|done|done].
Qed.

Lemma add_all_ok why H l : hy_ok H -> fresh_peers (views H) l -> passive_count_ H + Z.of_nat (length l) <= passive_size (hy_config_ H) ->
  exists H', insert_all add_passive why H l = Ok H' /\ hy_ok H' /\ active_view H' = active_view H /\ passive_view H' = passive_view H ++ l.
Proof.
  revert H. induction l as [|p l IH]; intros H HH Hf Hc; [exists H; split_and!; try done; by rewrite app_nil_r|]. apply fresh_cons in Hf as (Hz & Hn & Hf). cbn [insert_all length] in *.
  destruct (add_passive_ok H p HH Hz Hn) as (HH1 & Ea & Ep & _). unfold add_passive at 1. rewrite (proj2 (is_zero_false _) Hz), (proj2 (contains_false _ _) Hn). specialize (Ep ltac:(lia)).
  assert (Hpc : passive_count_ (add_passive_unique_ H p) = passive_count_ H + 1) by (unfold add_passive_unique_; cbn; by rewrite (proj2 (Z.ltb_lt _ _)) by lia).
  assert (Hcf : hy_config_ (add_passive_unique_ H p) = hy_config_ H) by (unfold add_passive_unique_; cbn; by rewrite (proj2 (Z.ltb_lt _ _)) by lia). set (H1 := add_passive_unique_ H p) in *.
  assert (Hv : p :: views H ≡ₚ views H1) by (unfold views; rewrite Ea, Ep, app_assoc; apply Permutation_cons_append).
  destruct (IH H1 HH1) as (H' & E & HH' & Ea' & Ep'); [by apply (fresh_perm _ _ _ Hv)|rewrite Hpc, Hcf; lia|]. exists H'. rewrite Ep in Ep'. rewrite <- app_assoc in Ep'. split_and!; [done|done|congruence|done].
Qed.

Lemma hyparview_populate_ok H actives passives : hy_ok H ->
  exists r H', populate_hyparview_membership H actives passives = Ok (r, H') /\ hy_ok H' /\
    (r = inr tt <-> active_count_ H + Z.of_nat (length actives) <= active_size (hy_config_ H) /\ passive_count_ H + Z.of_nat (length passives) <= passive_size (hy_config_ H) /\
                    fresh_peers (views H) (actives ++ passives)) /\
    match r with inl _ => H' = H | inr _ => active_view H' = active_view H ++ actives /\ passive_view H' = passive_view H ++ passives end.
Proof.
  intros HH. unfold populate_hyparview_membership. destruct (Z.ltb_spec (active_size (hy_config_ H) - active_count_ H) (Z.of_nat (length actives))) as [Hroom1|Hroom1]; [eexists _, _; split; [done|]; split_and!; [done|split; [done|lia]|done]|].
  destruct (Z.ltb_spec (passive_size (hy_config_ H) - passive_count_ H) (Z.of_nat (length passives))) as [Hroom2|Hroom2]; [eexists _, _; split; [done|]; split_and!; [done|split; [done|lia]|done]|].
  assert (Hsplit : fresh_peers (views H) (actives ++ passives) <-> fresh_peers (views H) actives /\ fresh_peers (views H) passives /\ forall p, p ∈ passives -> uuid p ∉ uuid <$> actives).
  { unfold fresh_peers. rewrite Forall_app, fmap_app, NoDup_app. setoid_rewrite elem_of_app. setoid_rewrite list_elem_of_fmap. split; [intros ((? & ?) & (? & Hd & ?) & Hk); split_and!; eauto 10; intros p Hp (q & E & Hq); eapply (Hd (uuid p)); eauto|].
    intros ((? & ? & ?) & (? & ? & ?) & Hd). split_and!; eauto; [intros u (q & -> & Hq) (p & E & Hp); eapply (Hd p); eauto|intros p [?|?]; eauto]. }
  pose proof (check_active_none H [] actives) as Ha. destruct (check_active H [] actives) as [e|].
  { eexists _, _. split; [done|]. split_and!; [done| |done]. split; [done|]. intros (_ & _ & Hf). apply Hsplit in Hf as (Hf & _). by discriminate (proj2 Ha Hf). }
  pose proof (check_passive_none H actives [] passives) as Hp. destruct (check_passive H actives [] passives) as [e|].
  { eexists _, _. split; [done|]. split_and!; [done| |done]. split; [done|]. intros (_ & _ & Hf). apply Hsplit in Hf as (_ & Hf). by discriminate (proj2 Hp Hf). }
  destruct (proj1 Hp eq_refl) as [Hp1 Hp2]. pose proof (proj1 Ha eq_refl) as Ha1. cbn [app] in Ha1, Hp1.
  destruct (join_all_ok "membership.join(peer).has_value()" H actives HH Ha1 ltac:(lia)) as (H1 & E1 & HH1 & Ea & Ep & Ec & Epc). rewrite E1. cbn [rbind].
  assert (Hf1 : fresh_peers (views H1) passives).
  { destruct Hp1 as (H2 & H3 & H4). split_and!; [done|done|]. intros p Hin. unfold views. rewrite Ea, Ep, !fmap_app, !not_elem_of_app. specialize (H4 p Hin). unfold views in H4. rewrite fmap_app, not_elem_of_app in H4. split_and!; [tauto|by apply Hp2|tauto]. }
  destruct (add_all_ok "membership.add_passive(peer).has_value()" H1 passives HH1 Hf1 ltac:(rewrite Ec; lia)) as (H2 & E2 & HH2 & Ea2 & Ep2). rewrite E2. cbn [rbind].
  eexists _, _. split; [done|]. split_and!; [done| |congruence|congruence]. split; [intros _|done]. split_and!; [lia|lia|by apply Hsplit].
Qed.

(** A list of peers goes in whole or not at all.  populate always returns:
    no insertion after the checks is refused.  It accepts the two lists
    exactly when they fit in the two views and name distinct peers that the
    node does not know, and then appends each list to its view; otherwise
    the membership is as it was. *)
Theorem hyparview_populate_atomic H actives passives : hy_ok H ->
  exists r H', populate_hyparview_membership H actives passives = Ok (r, H') /\ hy_ok H' /\
    (r = inr tt <-> active_count_ H + Z.of_nat (length actives) <= active_size (hy_config_ H) /\ passive_count_ H + Z.of_nat (length passives) <= passive_size (hy_config_ H) /\
                    fresh_peers (views H) (actives ++ passives)) /\
    match r with inl _ => H' = H | inr _ => active_view H' = active_view H ++ actives /\ passive_view H' = passive_view H ++ passives end.
Proof. apply hyparview_populate_ok. Qed.

Lemma mint_hyparview_ok actives passives c H : 0 < active_size c -> mint_hyparview MaxActive MaxPassive actives passives c = Ok H -> hy_ok H.
Proof using HA HPs.
  intros Hpos Hm. unfold mint_hyparview in Hm. apply rbind_ok in Hm as ([] & Hc & Hm). apply require_ok in Hc. unfold admit_hyparview_config in Hc. destruct ((MaxActive <? _) || _ || _) eqn:Ec; [done|].
  apply orb_false_iff in Ec as [[E1%Z.ltb_ge E2%Z.ltb_ge]%orb_false_iff E3%Z.ltb_ge].
  assert (He : hy_ok (empty_hyparview MaxActive MaxPassive c)). { destruct HA, HPs. split; cbn; try rewrite length_replicate; try lia; [split; lia|constructor|apply not_elem_of_nil]. }
  destruct (hyparview_populate_ok _ actives passives He) as (r & H' & Ep & HH & _). rewrite Ep in Hm. cbn [rbind] in Hm. destruct (require _ _) as [[]|]; cbn in Hm; [|done]. by injection Hm as <-.
Qed.

(** C38: The overlay heals.  After any calls on a minted membership the two views
    are inside their configured sizes and no peer is in both or twice.  A
    failure takes exactly the failed peer out of the two views; when it was
    active and the passive view is not empty, the active view keeps its size
    with a peer that the passive view held; a peer that is in no view is
    refused and nothing changes. *)
Theorem hyparview_heals actives passives c H0 cs u : 0 < active_size c -> mint_hyparview MaxActive MaxPassive actives passives c = Ok H0 ->
  let H := fold_left hy_run cs H0 in hy_ok H /\ failed_post H u (mark_failed H u).
Proof using HA HPs.
  intros Hpos Hm. pose proof (hy_runs_ok H0 cs (mint_hyparview_ok _ _ _ _ Hpos Hm)) as HH. split; [done|by apply mark_failed_ok].
Qed.
End Proofs.

(** ** Witnesses *)

#[local] Transparent philox_generate.

Definition wit_hy_config : HyParViewConfig := mkHyConfig 2 3 6 6 3 1000.
Definition wit_cog (n : Z) : CogIdentity := mkCog (mkUuid 0 n) 0 0 "" "" 0 0 0 (0, 0) (0, 0) (0, 0).

Lemma wit_two : slot_capacity 2.
Proof. split; [reflexivity|discriminate]. Qed.
Lemma wit_four : slot_capacity 4.
Proof. split; [reflexivity|discriminate]. Qed.

Definition wit_hy : HyParView :=
  match mint_hyparview 2 4 [wit_cog 1; wit_cog 2] [wit_cog 3; wit_cog 4] wit_hy_config with Ok H => H | Fatal _ => empty_hyparview 2 4 wit_hy_config end.

Lemma wit_hy_new : mint_hyparview 2 4 [wit_cog 1; wit_cog 2] [wit_cog 3; wit_cog 4] wit_hy_config = Ok wit_hy.
Proof. vm_compute. reflexivity. Qed.

(** The seed of the random numbers decides which passive peer is promoted. *)
Lemma hyparview_heals_witness :
  let H := fold_left (hy_run 4) [HShuffle; HEvent (mkEvent (wit_cog 5) Alive 0 1 1)] wit_hy in
  failed_post 2 4 H (mkUuid 0 1) (mark_failed H (mkUuid 0 1)) /\ active_count_ (mark_failed H (mkUuid 0 1)).2 = 2 /\ passive_count_ (mark_failed H (mkUuid 0 1)).2 = 2.
Proof.
  intros H. split; [|split; vm_compute; reflexivity].
  exact (proj2 (hyparview_heals 2 4 wit_two wit_four [wit_cog 1; wit_cog 2] [wit_cog 3; wit_cog 4] wit_hy_config wit_hy [HShuffle; HEvent (mkEvent (wit_cog 5) Alive 0 1 1)] (mkUuid 0 1) eq_refl wit_hy_new)).
Defined.

Lemma wit_hy_ok : hy_ok 2 4 wit_hy.
Proof. exact (mint_hyparview_ok 2 4 wit_two wit_four [wit_cog 1; wit_cog 2] [wit_cog 3; wit_cog 4] wit_hy_config wit_hy eq_refl wit_hy_new). Qed.

Lemma hyparview_populate_atomic_witness : exists r H', populate_hyparview_membership wit_hy [] [wit_cog 7] = Ok (r, H') /\ r = inr tt /\ passive_count_ H' = 3.
Proof.
  destruct (hyparview_populate_atomic 2 4 wit_hy [] [wit_cog 7] wit_hy_ok) as (r & H' & E & _ & _ & _). exists r, H'. split; [exact E|].
  vm_compute in E. injection E as <- <-. split; vm_compute; reflexivity.
Defined.
