(* ===== verification/Integrity.v ===== *)
(** * Integrity.v: the end-to-end check of a payload (include/crucible/cntp/Integrity.h)

    The 64-bit xxHash of a byte string in one call, the streaming form that
    takes the bytes in chunks, and the wrapping of a payload with its hash.
    The streaming form gives the hash of the whole string, however the string
    is cut. *)

From stdpp Require Import base list.
From Stdlib Require Import ZArith Lia.
From S2P Require Import Prelude.
From S2P Require Import SlotTable.
From S2P Require Import Swim.
#[local] Open Scope Z_scope.

Inductive IntegrityError := HashMismatch | LengthOverflow | ZeroHash.

Definition xxh_prime64_1 : Z := 11400714785074694791.
Definition xxh_prime64_2 : Z := 14029467366897019727.
Definition xxh_prime64_3 : Z := 1609587929392839161.
Definition xxh_prime64_4 : Z := 9650029242287828579.
Definition xxh_prime64_5 : Z := 2870177450012600261.
Definition xxh_stripe_bytes : nat := 32.

(** A byte is a [Z]; the word of a little-endian byte string. *)
Definition load_le (bytes : list Z) : Z := foldr (fun b acc => b + 256 * acc) 0 bytes.
Definition load_le64 (ptr : list Z) : Z := load_le (take 8 ptr).
Definition load_le32 (ptr : list Z) : Z := load_le (take 4 ptr).

Definition rotl (x n : Z) : Z := Z.lor (u64 (Z.shiftl x n)) (Z.shiftr x (64 - n)).

Definition round64 (acc lane : Z) : Z := u64 (rotl (u64 (acc + u64 (lane * xxh_prime64_2))) 31 * xxh_prime64_1).

Definition merge_round64 (acc lane : Z) : Z := u64 (u64 (Z.lxor acc (round64 0 lane) * xxh_prime64_1) + xxh_prime64_4).

Definition avalanche64 (hash : Z) : Z :=
  let hash := Z.lxor hash (Z.shiftr hash 33) in
  let hash := u64 (hash * xxh_prime64_2) in
  let hash := Z.lxor hash (Z.shiftr hash 29) in
  let hash := u64 (hash * xxh_prime64_3) in
  Z.lxor hash (Z.shiftr hash 32).

Record lanes4 := mkLanes { v1 : Z; v2 : Z; v3 : Z; v4 : Z }.

Definition first_lanes (seed : Z) : lanes4 :=
  mkLanes (u64 (u64 (seed + xxh_prime64_1) + xxh_prime64_2)) (u64 (seed + xxh_prime64_2)) seed (u64 (seed - xxh_prime64_1)).

(** The four lanes of the vector take the four words of the stripe. *)
Definition process_stripe (ptr : list Z) (v : lanes4) : lanes4 :=
  mkLanes (round64 (v1 v) (load_le64 ptr)) (round64 (v2 v) (load_le64 (drop 8 ptr))) (round64 (v3 v) (load_le64 (drop 16 ptr))) (round64 (v4 v) (load_le64 (drop 24 ptr))).

(** The loop over the whole stripes; the bytes that are left and the lanes. *)
Fixpoint stripe_loop (fuel : nat) (ptr : list Z) (v : lanes4) : list Z * lanes4 :=
  match fuel with
  | O => (ptr, v)
  | S fuel => if (xxh_stripe_bytes <=? length ptr)%nat then stripe_loop fuel (drop xxh_stripe_bytes ptr) (process_stripe ptr v) else (ptr, v)
  end.

Definition stripes (ptr : list Z) (v : lanes4) : list Z * lanes4 := stripe_loop (length ptr) ptr v.

Definition merge_lanes (v : lanes4) : Z :=
  let hash := u64 (rotl (v1 v) 1 + rotl (v2 v) 7 + rotl (v3 v) 12 + rotl (v4 v) 18) in
  merge_round64 (merge_round64 (merge_round64 (merge_round64 hash (v1 v)) (v2 v)) (v3 v)) (v4 v).

(** The three loops of finalize_tail. *)
Fixpoint tail_words (fuel : nat) (hash : Z) (ptr : list Z) : Z * list Z :=
  match fuel with
  | O => (hash, ptr)
  | S fuel =>
      if (8 <=? length ptr)%nat then
        let hash := Z.lxor hash (round64 0 (load_le64 ptr)) in
        tail_words fuel (u64 (u64 (rotl hash 27 * xxh_prime64_1) + xxh_prime64_4)) (drop 8 ptr)
      else (hash, ptr)
  end.

Definition tail_half (hash : Z) (ptr : list Z) : Z * list Z :=
  if (4 <=? length ptr)%nat then
    let hash := Z.lxor hash (u64 (load_le32 ptr * xxh_prime64_1)) in
    (u64 (u64 (rotl hash 23 * xxh_prime64_2) + xxh_prime64_3), drop 4 ptr)
  else (hash, ptr).

Definition tail_byte (hash b : Z) : Z := u64 (rotl (Z.lxor hash (u64 (b * xxh_prime64_5))) 11 * xxh_prime64_1).

Definition finalize_tail (hash : Z) (ptr : list Z) : Z :=
  let '(hash, ptr) := tail_words (length ptr) hash ptr in
  let '(hash, ptr) := tail_half hash ptr in
  avalanche64 (fold_left tail_byte ptr hash).

Definition admit_integrity_hash (hash : Z) : expected Z IntegrityError := if hash =? 0 then inl ZeroHash else inr hash.

Definition xxhash64_raw (data : list Z) (seed : Z) : Z :=
  let '(hash, ptr) :=
    if (xxh_stripe_bytes <=? length data)%nat then let '(ptr, v) := stripes data (first_lanes seed) in (merge_lanes v, ptr)
    else (u64 (seed + xxh_prime64_5), data) in
  finalize_tail (u64 (hash + Z.of_nat (length data))) ptr.

Definition xxhash64 (data : list Z) (seed : Z) : expected Z IntegrityError := admit_integrity_hash (xxhash64_raw data seed).

(** ** The streaming form *)

Record XxHash64State := mkState { seed_ : Z; total_len_ : Z; lanes_ : lanes4; memory_ : list Z; memory_size_ : nat }.

Definition xxhash64_streaming (seed : Z) : XxHash64State := mkState seed 0 (first_lanes seed) (replicate xxh_stripe_bytes 0) 0.

(** memcpy into the buffer at an offset. *)
Definition blit (memory : list Z) (off : nat) (bytes : list Z) : list Z := take off memory ++ bytes ++ drop (off + length bytes) memory.

Definition update (S : XxHash64State) (data : list Z) : expected unit IntegrityError * XxHash64State :=
  let len := length data in
  if (len =? 0)%nat then (inr tt, S)
  else if UINT64_MAX - total_len_ S <? Z.of_nat len then (inl LengthOverflow, S)
  else
    let total := total_len_ S + Z.of_nat len in
    if (memory_size_ S + len <? xxh_stripe_bytes)%nat then
      (inr tt, mkState (seed_ S) total (lanes_ S) (blit (memory_ S) (memory_size_ S) data) (memory_size_ S + len))
    else
      let '(memory, v, ptr) :=
        if (memory_size_ S =? 0)%nat then (memory_ S, lanes_ S, data)
        else
          let fill := (xxh_stripe_bytes - memory_size_ S)%nat in
          let memory := blit (memory_ S) (memory_size_ S) (take fill data) in
          (memory, process_stripe memory (lanes_ S), drop fill data) in
      let '(ptr, v) := stripes ptr v in
      (inr tt, mkState (seed_ S) total v (blit memory 0 ptr) (length ptr)).

Definition digest (S : XxHash64State) : expected Z IntegrityError :=
  let hash := if Z.of_nat xxh_stripe_bytes <=? total_len_ S then merge_lanes (lanes_ S) else u64 (seed_ S + xxh_prime64_5) in
  admit_integrity_hash (finalize_tail (u64 (hash + total_len_ S)) (take (memory_size_ S) (memory_ S))).

(** ** Wrapped payloads *)

Record IntegrityWrappedMessage := mkWrapped { payload : list Z; whash : Z }.

Definition wrap_payload (p : list Z) : expected IntegrityWrappedMessage IntegrityError :=
  match xxhash64 p 0 with inl e => inl e | inr h => inr (mkWrapped p h) end.

Definition unwrap_payload (m : IntegrityWrappedMessage) : expected (list Z) IntegrityError :=
  match xxhash64 (payload m) 0 with
  | inl e => inl e
  | inr actual => if actual =? whash m then inr (payload m) else inl HashMismatch
  end.

(** ** The policy and the counts of the receiver *)

Inductive IntegrityMode := AlwaysOn | Sampled | OptInPerFlow.
Record IntegrityPolicy := mkPolicy { mode : IntegrityMode; sample_rate : Z; flow_opt_in : bool }.

Definition enabled (P : IntegrityPolicy) (sequence : Z) : bool :=
  match mode P with
  | AlwaysOn => true
  | OptInPerFlow => flow_opt_in P
  | Sampled => (sample_rate P =? 1) || (sequence mod sample_rate P =? 0)
  end.

Record IntegrityStats := mkStats { checked : Z; violations : Z }.
Definition stats_record_ok (s : IntegrityStats) : IntegrityStats := mkStats (u64 (checked s + 1)) (violations s).
Definition stats_record_violation (s : IntegrityStats) : IntegrityStats := mkStats (u64 (checked s + 1)) (u64 (violations s + 1)).

(** Of as many messages in a row as the rate, a sampled policy checks one. *)
Lemma sampled_checks_one P start : mode P = Sampled -> 0 < sample_rate P -> 0 <= start ->
  exists q, start <= q < start + sample_rate P /\ forall s, start <= s < start + sample_rate P -> enabled P s = true <-> s = q.
Proof.
  intros Em Hr Hs. unfold enabled. rewrite Em. set (r := sample_rate P) in *. exists ((start + r - 1) / r * r). pose proof (Z.div_mod (start + r - 1) r ltac:(lia)) as Hd. pose proof (Z.mod_pos_bound (start + r - 1) r Hr). split; [lia|]. intros s Hb. split.
  - intros [E|E]%orb_true_iff; apply Z.eqb_eq in E; [rewrite E in *; lia|]. pose proof (Z.div_mod s r ltac:(lia)) as Hd'. enough (s / r = (start + r - 1) / r) by lia. apply Z.le_antisymm; apply Z.lt_succ_r; apply (Z.mul_lt_mono_pos_l r); nia.
  - intros ->. apply orb_true_iff. right. apply Z.eqb_eq, Z.mod_mul. lia.
Qed.

(** The known answers of the hash, for no bytes, for "abc" and for 64 bytes 0 to 63. *)
Example xxhash_known_answers :
  xxhash64_raw [] 0 = 0xef46db3751d8e999 /\ xxhash64_raw [97; 98; 99] 0 = 0x44bc2cf5ad770999 /\ xxhash64_raw (seqZ 0 64) 0 = 0xf7c67301db6713f0.
Proof. split; [|split]; vm_compute; reflexivity. Qed.

(** ** Streaming is the one call *)

Lemma stripe_loop_fuel f g ptr v : (length ptr <= f)%nat -> (length ptr <= g)%nat -> stripe_loop f ptr v = stripe_loop g ptr v.
Proof.
  revert g ptr v. induction f as [|f IH]; intros g ptr v Hf Hg; [replace ptr with (@nil Z) by (symmetry; apply length_zero_iff_nil; lia); by destruct g|].
  destruct g as [|g]; [replace ptr with (@nil Z) by (symmetry; apply length_zero_iff_nil; lia); done|]. cbn [stripe_loop]. destruct (Nat.leb_spec xxh_stripe_bytes (length ptr)) as [H|H]; [|done].
  unfold xxh_stripe_bytes in *. apply IH; rewrite length_drop; lia.
Qed.

Lemma stripes_step ptr v : (xxh_stripe_bytes <= length ptr)%nat -> stripes ptr v = stripes (drop xxh_stripe_bytes ptr) (process_stripe ptr v).
Proof.
  intros H. unfold stripes at 1. destruct (length ptr) as [|n] eqn:E; [unfold xxh_stripe_bytes in H; lia|]. cbn [stripe_loop]. rewrite E, (proj2 (Nat.leb_le _ _) H).
  apply stripe_loop_fuel; rewrite length_drop, E; unfold xxh_stripe_bytes in *; lia.
Qed.

Lemma stripes_short ptr v : (length ptr < xxh_stripe_bytes)%nat -> stripes ptr v = (ptr, v).
Proof. intros H. unfold stripes. destruct (length ptr) as [|n] eqn:E; [done|]. cbn [stripe_loop]. by rewrite E, (proj2 (Nat.leb_gt _ _) H). Qed.

Lemma stripe_front ptr more v : (xxh_stripe_bytes <= length ptr)%nat -> process_stripe (ptr ++ more) v = process_stripe ptr v.
Proof.
  intros H. unfold xxh_stripe_bytes in H. unfold process_stripe, load_le64. rewrite !drop_app_le by lia. rewrite !take_app_le by (rewrite ?length_drop; lia). done.
Qed.

(** The stripes of a string in two parts: the first part leaves some bytes, and
    the rest of the stripes are those of these bytes with the second part. *)
Lemma stripes_app ptr more v : stripes (ptr ++ more) v = stripes ((stripes ptr v).1 ++ more) (stripes ptr v).2.
Proof.
  remember (length ptr) as n eqn:En. revert ptr v En. induction n as [n IH] using lt_wf_ind. intros ptr v ->. destruct (decide (xxh_stripe_bytes <= length ptr)%nat) as [H|H].
  - rewrite (stripes_step (ptr ++ more)) by (rewrite length_app; lia). rewrite (stripes_step ptr) by done. rewrite drop_app_le, stripe_front by done.
    eapply IH; [|reflexivity]. rewrite length_drop. unfold xxh_stripe_bytes in *. lia.
  - by rewrite (stripes_short ptr v) by lia.
Qed.

Lemma stripes_rest ptr v : (length (stripes ptr v).1 < xxh_stripe_bytes)%nat.
Proof.
  remember (length ptr) as n eqn:En. revert ptr v En. induction n as [n IH] using lt_wf_ind. intros ptr v ->. destruct (decide (xxh_stripe_bytes <= length ptr)%nat) as [H|H].
  - rewrite stripes_step by done. eapply IH; [|reflexivity]. rewrite length_drop. unfold xxh_stripe_bytes in *. lia.
  - rewrite stripes_short by lia. cbn. lia.
Qed.

(** The state after the bytes [D]. *)
Record absorbed (seed : Z) (X : XxHash64State) (D : list Z) : Prop := {
  ab_seed : seed_ X = seed;
  ab_total : total_len_ X = Z.of_nat (length D);
  ab_stripes : stripes D (first_lanes seed) = (take (memory_size_ X) (memory_ X), lanes_ X);
  ab_memory : length (memory_ X) = xxh_stripe_bytes;
  ab_size : (memory_size_ X < xxh_stripe_bytes)%nat;
}.

Lemma absorbed_new seed : absorbed seed (xxhash64_streaming seed) [].
Proof. split; try done; cbn; unfold xxh_stripe_bytes; lia. Qed.

Lemma blit_front memory off bytes : (off <= length memory)%nat -> take (off + length bytes) (blit memory off bytes) = take off memory ++ bytes.
Proof. intros H. unfold blit. rewrite app_assoc, take_app_le by (rewrite length_app, length_take; lia). rewrite take_ge; [done|]. rewrite length_app, length_take. lia. Qed.

Lemma blit_length memory off bytes : (off + length bytes <= length memory)%nat -> length (blit memory off bytes) = length memory.
Proof. intros H. unfold blit. rewrite !length_app, length_take, length_drop. lia. Qed.

Lemma update_ok seed X D data : absorbed seed X D -> Z.of_nat (length D + length data) <= UINT64_MAX -> exists X', update X data = (inr tt, X') /\ absorbed seed X' (D ++ data).
Proof.
  intros [Es Et Er Em Hs] Hfit. pose proof (stripes_app D data (first_lanes seed)) as Ha. rewrite Er in Ha. cbn [fst snd] in Ha. set (r := take (memory_size_ X) (memory_ X)) in *.
  assert (Hr : length r = memory_size_ X) by (unfold r; rewrite length_take; lia). unfold update. destruct (Nat.eqb_spec (length data) 0) as [E0|E0].
  { apply length_zero_iff_nil in E0 as ->. rewrite app_nil_r. by exists X. }
  rewrite (proj2 (Z.ltb_ge _ _)) by lia. rewrite Et. assert (Etot : Z.of_nat (length D) + Z.of_nat (length data) = Z.of_nat (length (D ++ data))) by (rewrite length_app; lia). rewrite Etot.
  destruct (Nat.ltb_spec (memory_size_ X + length data) xxh_stripe_bytes) as [Hlt|Hge].
  - eexists. split; [reflexivity|]. split; cbn [seed_ total_len_ memory_size_ memory_ lanes_]; try done.
    + rewrite Ha, stripes_short by (rewrite length_app; lia). by rewrite blit_front by lia.
    + rewrite blit_length; lia.
  - set (p := if (memory_size_ X =? 0)%nat then _ else _).
    assert (Hp : length p.1.1 = xxh_stripe_bytes /\ stripes (r ++ data) (lanes_ X) = stripes p.2 p.1.2).
    { unfold p. destruct (Nat.eqb_spec (memory_size_ X) 0) as [Ez|Ez]; cbn [fst snd]; [split; [done|]; rewrite Ez in Hr; by apply length_zero_iff_nil in Hr as ->|].
      set (fill := (xxh_stripe_bytes - memory_size_ X)%nat). assert (Hf : length (take fill data) = fill) by (rewrite length_take; lia). split; [rewrite blit_length; lia|].
      assert (Eb : blit (memory_ X) (memory_size_ X) (take fill data) = r ++ take fill data) by (unfold blit; rewrite Hf, (drop_ge (memory_ X)) by lia; by rewrite app_nil_r).
      rewrite Eb. rewrite <- (take_drop fill data) at 1. rewrite app_assoc. assert (Hl : length (r ++ take fill data) = xxh_stripe_bytes) by (rewrite length_app; lia).
      rewrite stripes_step by (rewrite length_app; lia). rewrite drop_app_le, (drop_ge (r ++ _)) by lia. by rewrite stripe_front by lia. }
    destruct p as [[memory v] ptr]. cbn [fst snd] in Hp. destruct Hp as [Hm Hst]. pose proof (stripes_rest ptr v) as Hrest. destruct (stripes ptr v) as [ptr' v']. cbn [fst] in Hrest.
    eexists. split; [reflexivity|]. split; cbn [seed_ total_len_ memory_size_ memory_ lanes_]; try done; [|rewrite blit_length; lia].
    rewrite Ha, Hst. f_equal. pose proof (blit_front memory 0 ptr' ltac:(lia)) as Eb. cbn [Nat.add] in Eb. by rewrite Eb.
Qed.

Lemma digest_ok seed X D : absorbed seed X D -> digest X = xxhash64 D seed.
Proof.
  intros [Es Et Er Em Hs]. unfold digest, xxhash64, xxhash64_raw. f_equal. rewrite Et, Es. destruct (Nat.leb_spec xxh_stripe_bytes (length D)) as [H|H].
  - rewrite (proj2 (Z.leb_le _ _)) by lia. by rewrite Er.
  - rewrite (proj2 (Z.leb_gt _ _)) by lia. rewrite stripes_short in Er by done. injection Er as <- _. done.
Qed.

(** The chunks in their order; [None] when one is refused. *)
Fixpoint feed (X : XxHash64State) (chunks : list (list Z)) : option XxHash64State :=
  match chunks with [] => Some X | c :: chunks => match update X c with (inr _, X) => feed X chunks | (inl _, _) => None end end.

Lemma feed_ok seed chunks X D : absorbed seed X D -> Z.of_nat (length (D ++ concat chunks)) <= UINT64_MAX -> exists X', feed X chunks = Some X' /\ absorbed seed X' (D ++ concat chunks).
Proof.
  revert X D. induction chunks as [|c chunks IH]; intros X D HS Hfit; [exists X; cbn; by rewrite app_nil_r|]. cbn [concat] in *. rewrite !length_app in Hfit.
  destruct (update_ok seed X D c HS ltac:(lia)) as (X1 & E1 & H1). cbn [feed]. rewrite E1. rewrite app_assoc. apply IH; [done|]. rewrite !length_app. lia.
Qed.

(** C40: Streaming gives the hash of the whole.  However a byte string shorter than
    2^64 bytes is cut into chunks, the streaming form accepts each chunk and
    its digest is the hash of the string in one call, for every seed; a
    further chunk is refused exactly when the length would pass 2^64 - 1
    bytes, and then the state does not change. *)
Theorem xxhash_streaming_is_oneshot seed chunks : Z.of_nat (length (concat chunks)) <= UINT64_MAX ->
  exists X, feed (xxhash64_streaming seed) chunks = Some X /\ digest X = xxhash64 (concat chunks) seed /\
    forall more, if decide (Z.of_nat (length (concat chunks) + length more) <= UINT64_MAX) then exists X', update X more = (inr tt, X') /\ digest X' = xxhash64 (concat chunks ++ more) seed
                 else update X more = (inl LengthOverflow, X).
Proof.
  intros Hfit. destruct (feed_ok seed chunks _ [] (absorbed_new seed) Hfit) as (X & Ef & HS). cbn [app] in HS. exists X. split; [done|]. split; [by apply digest_ok|]. intros more. case_decide as Hm.
  - destruct (update_ok seed X _ more HS Hm) as (X' & E' & HS'). exists X'. split; [done|by apply digest_ok].
  - unfold update. destruct (Nat.eqb_spec (length more) 0) as [E0|E0]; [lia|]. by rewrite (ab_total _ _ _ HS), (proj2 (Z.ltb_lt _ _)) by lia.
Qed.

Lemma xxhash_streaming_is_oneshot_witness : exists X, feed (xxhash64_streaming 7) [seqZ 0 5; []; seqZ 5 40; seqZ 45 19] = Some X /\ digest X = xxhash64 (seqZ 0 64) 7.
Proof.
  destruct (xxhash_streaming_is_oneshot 7 [seqZ 0 5; []; seqZ 5 40; seqZ 45 19]) as (X & E & Ed & _); [discriminate|]. exists X. split; [exact E|]. rewrite Ed. vm_compute. reflexivity.
Defined.

(** A wrapped payload comes back, and a payload with another hash is refused. *)
Theorem integrity_roundtrip p m q : wrap_payload p = inr m -> unwrap_payload m = inr p /\ (xxhash64_raw q 0 <> xxhash64_raw p 0 -> exists e, unwrap_payload (mkWrapped q (whash m)) = inl e).
Proof.
  unfold wrap_payload, unwrap_payload, xxhash64, admit_integrity_hash. destruct (Z.eqb_spec (xxhash64_raw p 0) 0) as [E|E]; [done|]. intros [= <-]. cbn [payload whash]. rewrite (proj2 (Z.eqb_neq _ _) E), Z.eqb_refl. split; [done|].
  intros Hq. destruct (xxhash64_raw q 0 =? 0); [by exists ZeroHash|]. rewrite (proj2 (Z.eqb_neq _ _) Hq). by exists HashMismatch.
Qed.
