(* ===== verification/Plumtree.v ===== *)
(** * Plumtree.v: the broadcast tree (include/crucible/canopy/Plumtree.h)

    The eager and the lazy links of a node, the ring of the message ids that
    it has seen, and the plans of a publication, a receipt and a repair.  The
    tree is minted from the active view of the overlay of HyParView.v and
    names its messages with the hash of Integrity.v.  The properties are in
    PlumtreeProofs.v. *)

From stdpp Require Import base list strings.
From Stdlib Require Import ZArith Lia.
From S2P Require Import Prelude.
From S2P Require Import SlotTable.
From S2P Require Import Swim.
From S2P Require Import HyParView.
From S2P Require Import Integrity.
#[local] Open Scope Z_scope.

Inductive PlumtreeLinkState := Eager | Lazy.
#[export] Instance link_state_eq_dec : EqDecision PlumtreeLinkState.
Proof. solve_decision. Defined.

Inductive PlumtreeReceiveKind := FirstSeen | Duplicate.
Inductive PlumtreeError := PCapacityExceeded | PDuplicatePeer | PEmptyMessage | PInvalidConfig | PPeerNotFound | PUnknownPeer | PZeroUuid.

Record PlumtreeConfig := mkPtConfig { ihave_timeout_ns : Z; repair_timeout_ns : Z; lazy_push_period_ns : Z; max_eager_fanout : Z }.

Record PlumtreeMessage := mkMessage { id_hash : Z; payload_bytes : Z }.

Record PlumtreeBroadcastPlan := mkPlan { bp_message : PlumtreeMessage; eager_peers : SlotTable CogIdentity; lazy_peers : SlotTable CogIdentity }.
Record PlumtreeReceivePlan := mkReceive { rp_kind : PlumtreeReceiveKind; forward : PlumtreeBroadcastPlan }.
Record PlumtreeRepairPlan := mkRepair { requested : SlotTable Z; rp_source : CogIdentity }.

Record LinkSlot := mkLink { lk_peer : CogIdentity; lk_state : PlumtreeLinkState }.
Definition no_link : LinkSlot := mkLink no_cog Lazy.

Record Plumtree := mkPt {
  pt_config_ : PlumtreeConfig; links_ : list LinkSlot; history_ : list Z; link_count_ : Z; eager_count_ : Z; history_count_ : Z; history_cursor_ : Z;
}.

Definition is_eager (l : LinkSlot) : bool := bool_decide (lk_state l = Eager).

Section Tree.
Context (MaxPeers MaxHistory : Z).

Definition set_links (T : Plumtree) (links : list LinkSlot) (n eager : Z) : Plumtree :=
  mkPt (pt_config_ T) links (history_ T) n eager (history_count_ T) (history_cursor_ T).
Definition set_link (T : Plumtree) (i : Z) (s : PlumtreeLinkState) (eager : Z) : Plumtree :=
  set_links T (aset (links_ T) i (mkLink (lk_peer (aget no_link (links_ T) i)) s)) (link_count_ T) eager.

Definition links (T : Plumtree) : list LinkSlot := front (link_count_ T) (links_ T).

(** plumtree_message_id and plumtree_message_hash *)
Definition plumtree_message_id (bytes : list Z) : expected Z PlumtreeError :=
  match bytes with
  | [] => inl PEmptyMessage
  | _ => match xxhash64 bytes 0 with inl _ => inl PEmptyMessage | inr id => inr id end
  end.

Definition admit_plumtree_config (c : PlumtreeConfig) : expected PlumtreeConfig PlumtreeError := if MaxPeers <? max_eager_fanout c then inl PInvalidConfig else inr c.

Definition make_message_ (bytes : list Z) : expected PlumtreeMessage PlumtreeError :=
  if (length bytes =? 0)%nat then inl PEmptyMessage
  else if UINT32_MAX <? Z.of_nat (length bytes) then inl PInvalidConfig
  else match plumtree_message_id bytes with inl e => inl e | inr id => inr (mkMessage id (u32 (Z.of_nat (length bytes)))) end.

Definition find_link_ (T : Plumtree) (peer : Uuid) : option Z := find_from (fun l => bool_decide (uuid (lk_peer l) = peer)) (links T) 0.

Definition add_link_ (T : Plumtree) (peer : CogIdentity) (state : PlumtreeLinkState) : expected unit PlumtreeError * Plumtree :=
  if is_zero (uuid peer) then (inl PZeroUuid, T)
  else match find_link_ T (uuid peer) with
  | Some _ => (inl PDuplicatePeer, T)
  | None =>
      match reserve_next MaxPeers (link_count_ T) with
      | None => (inl PCapacityExceeded, T)
      | Some slot =>
          let state := if bool_decide (state = Eager) && (eager_count_ T =? max_eager_fanout (pt_config_ T)) then Lazy else state in
          (inr tt, set_links T (aset (links_ T) slot (mkLink peer state)) (link_count_ T + 1) (if bool_decide (state = Eager) then eager_count_ T + 1 else eager_count_ T))
      end
  end.

Definition add_eager_peer (T : Plumtree) (p : CogIdentity) : expected unit PlumtreeError * Plumtree := add_link_ T p Eager.
Definition add_lazy_peer (T : Plumtree) (p : CogIdentity) : expected unit PlumtreeError * Plumtree := add_link_ T p Lazy.

Definition link_state (T : Plumtree) (u : Uuid) : expected PlumtreeLinkState PlumtreeError :=
  match find_link_ T u with None => inl PPeerNotFound | Some i => inr (lk_state (aget no_link (links_ T) i)) end.

(** The first eager link other than [idx], which promote_eager_ demotes. *)
Fixpoint other_eager (idx i : Z) (l : list LinkSlot) : option Z :=
  match l with [] => None | x :: l => if negb (i =? idx) && is_eager x then Some i else other_eager idx (i + 1) l end.

Definition promote_eager_ (T : Plumtree) (idx : Z) : Plumtree :=
  let fanout := max_eager_fanout (pt_config_ T) in
  if is_eager (aget no_link (links_ T) idx) then T
  else
    let T := if eager_count_ T =? fanout then
               match other_eager idx 0 (links T) with Some i => set_link T i Lazy (eager_count_ T - 1) | None => T end
             else T in
    if eager_count_ T =? fanout then T else set_link T idx Eager (eager_count_ T + 1).

Definition seen_ (T : Plumtree) (id : Z) : bool := existsb (fun x => x =? id) (front (history_count_ T) (history_ T)).

Definition remember_ (T : Plumtree) (id : Z) : Plumtree :=
  if seen_ T id then T
  else mkPt (pt_config_ T) (links_ T) (aset (history_ T) (history_cursor_ T) id) (link_count_ T) (eager_count_ T)
            (if history_count_ T <? MaxHistory then history_count_ T + 1 else history_count_ T) ((history_cursor_ T + 1) mod MaxHistory).

Fixpoint plan_loop (except : Uuid) (l : list LinkSlot) (out : PlumtreeBroadcastPlan) : PlumtreeBroadcastPlan :=
  match l with
  | [] => out
  | x :: l =>
      if bool_decide (uuid (lk_peer x) = except) then plan_loop except l out
      else if is_eager x then plan_loop except l (mkPlan (bp_message out) (push MaxPeers (eager_peers out) (lk_peer x)).1 (lazy_peers out))
      else plan_loop except l (mkPlan (bp_message out) (eager_peers out) (push MaxPeers (lazy_peers out) (lk_peer x)).1)
  end.

Definition empty_plan (m : PlumtreeMessage) : PlumtreeBroadcastPlan := mkPlan m (empty_table MaxPeers no_cog) (empty_table MaxPeers no_cog).

Definition build_broadcast_plan_ (T : Plumtree) (m : PlumtreeMessage) (except : Uuid) : PlumtreeBroadcastPlan := plan_loop except (links T) (empty_plan m).

Definition publish (T : Plumtree) (bytes : list Z) : expected PlumtreeBroadcastPlan PlumtreeError * Plumtree :=
  match make_message_ bytes with
  | inl e => (inl e, T)
  | inr m => let T := remember_ T (id_hash m) in (inr (build_broadcast_plan_ T m zero_uuid), T)
  end.

Definition receive_message (T : Plumtree) (from : CogIdentity) (incoming : PlumtreeMessage) : expected PlumtreeReceivePlan PlumtreeError * Plumtree :=
  match find_link_ T (uuid from) with
  | None => (inl PUnknownPeer, T)
  | Some idx =>
      if (id_hash incoming =? 0) || (payload_bytes incoming =? 0) then (inl PEmptyMessage, T)
      else if seen_ T (id_hash incoming) then
        let T := if is_eager (aget no_link (links_ T) idx) then set_link T idx Lazy (eager_count_ T - 1) else T in
        (inr (mkReceive Duplicate (empty_plan incoming)), T)
      else
        let T := remember_ (promote_eager_ T idx) (id_hash incoming) in
        (inr (mkReceive FirstSeen (build_broadcast_plan_ T incoming (uuid from))), T)
  end.

(** The ids of a summary that were not seen; [None] when one of them is zero. *)
Fixpoint request_loop (T : Plumtree) (ids : list Z) (out : SlotTable Z) : option (SlotTable Z) :=
  match ids with
  | [] => Some out
  | id :: ids => if id =? 0 then None else request_loop T ids (if seen_ T id then out else (push MaxHistory out id).1)
  end.

Definition receive_ihave (T : Plumtree) (from : CogIdentity) (ihave : SlotTable Z) : expected PlumtreeRepairPlan PlumtreeError * Plumtree :=
  match find_link_ T (uuid from) with
  | None => (inl PUnknownPeer, T)
  | Some idx =>
      match request_loop T (live ihave) (empty_table MaxHistory 0) with
      | None => (inl PEmptyMessage, T)
      | Some out => (inr (mkRepair out from), if count out =? 0 then T else promote_eager_ T idx)
      end
  end.

Definition ihave_summary (T : Plumtree) : SlotTable Z :=
  fold_left (fun out i => (push MaxHistory out (aget 0 (history_ T) ((history_cursor_ T + MaxHistory - history_count_ T + i) mod MaxHistory))).1) (seqZ 0 (history_count_ T)) (empty_table MaxHistory 0).

Definition empty_plumtree (c : PlumtreeConfig) : Plumtree := mkPt c (replicate (Z.to_nat MaxPeers) no_link) (replicate (Z.to_nat MaxHistory) 0) 0 0 0 0.

Fixpoint add_links (T : Plumtree) (l : list CogIdentity) : result Plumtree :=
  match l with
  | [] => Ok T
  | p :: l => match add_link_ T p Eager with (inr _, T) => add_links T l | (inl _, _) => Fatal "add_link_(peer, PlumtreeLinkState::Eager).has_value()" end
  end.

Definition mint_plumtree (membership : HyParView) (c : PlumtreeConfig) : result Plumtree :=
  (let* _ := require (match admit_plumtree_config c with inr _ => true | inl _ => false end) "admit_plumtree_config(config).has_value()" in
   add_links (empty_plumtree c) (active_view membership))%result.
End Tree.
