(* ===== verification/PlumtreeProofs.v ===== *)
(** * PlumtreeProofs.v: each message is forwarded once, over every link

    The properties of Plumtree.v: the invariant of the links and of the ring
    of seen ids, the receipt of a message, and the mint from an overlay. *)

From stdpp Require Import base list strings.
From Stdlib Require Import ZArith Lia.
From S2P Require Import Prelude.
From S2P Require Import SlotTable.
From S2P Require Import Swim.
From S2P Require Import SwimProofs.
From S2P Require Import LifeguardProofs.
From S2P Require Import HyParView.
From S2P Require Import HyParViewProofs.
From S2P Require Import Integrity.
From S2P Require Import Plumtree.
#[local] Open Scope Z_scope.

(** Pushes of a list that fits. *)
Lemma push_all {A} cap (l : list A) t : table_ok cap t -> Z.of_nat (length (live t) + length l) <= cap ->
  table_ok cap (fold_left (fun out x => (push cap out x).1) l t) /\ live (fold_left (fun out x => (push cap out x).1) l t) = live t ++ l.
Proof.
  revert t. induction l as [|x l IH]; intros t Ht Hl; [cbn; by rewrite app_nil_r|]. cbn [fold_left length] in *. pose proof (push_ok cap t x Ht) as Hp. destruct (push cap t x) as [t' ok]. destruct Hp as (Ht' & -> & El).
  rewrite (proj2 (Z.ltb_lt _ _)) in El by lia. destruct (IH t' Ht') as [H1 H2]; [rewrite El, length_app; cbn; lia|]. split; [done|]. cbn [fst]. by rewrite H2, El, <- app_assoc.
Qed.

Lemma empty_table_ok {A} cap (d : A) : 0 < cap -> table_ok cap (empty_table cap d) /\ live (empty_table cap d) = [].
Proof. intros H. split; [|done]. split; cbn; [rewrite length_replicate; lia|lia]. Qed.

Section Proofs.
Context (MaxPeers MaxHistory : Z) (HP : slot_capacity MaxPeers) (HH : slot_capacity MaxHistory).
#[local] Set Default Proof Using "Type".

Abbreviation link_uuids T := ((fun l => uuid (lk_peer l)) <$> links T).

Definition eager_link (l : LinkSlot) : Prop := is_eager l = true.
#[local] Instance eager_link_dec l : Decision (eager_link l).
Proof. unfold eager_link. apply _. Defined.

(** The seen ids, the oldest first. *)
Definition hist (T : Plumtree) : list Z := rotate (Z.to_nat (history_cursor_ T)) (front (history_count_ T) (history_ T)).

Record pt_ok (T : Plumtree) : Prop := {
  pk_links : Z.of_nat (length (links_ T)) = MaxPeers;
  pk_count : 0 <= link_count_ T <= MaxPeers;
  pk_unique : NoDup (link_uuids T);
  pk_named : zero_uuid ∉ link_uuids T;
  pk_eager : eager_count_ T = Z.of_nat (length (filter eager_link (links T)));
  pk_fanout : 0 < max_eager_fanout (pt_config_ T) /\ eager_count_ T <= max_eager_fanout (pt_config_ T);
  pk_history : Z.of_nat (length (history_ T)) = MaxHistory;
  pk_seen : 0 <= history_count_ T <= MaxHistory;
  pk_cursor : 0 <= history_cursor_ T < MaxHistory;
  pk_filling : history_count_ T < MaxHistory -> history_cursor_ T = history_count_ T;
}.

(** ** The ring of ids *)

Lemma seen_spec T id : seen_ T id = true <-> id ∈ hist T.
Proof.
  unfold seen_, hist. rewrite elem_of_rotate, existsb_exists. split.
  - intros (x & Hx & E). apply Z.eqb_eq in E as ->. by apply list_elem_of_In.
  - intros H. exists id. split; [by apply list_elem_of_In|apply Z.eqb_refl].
Qed.

Lemma rotate_full {A} (l : list A) n : n = length l -> rotate n l = l.
Proof. intros ->. unfold rotate. destruct l; [done|]. rewrite Nat.Div0.mod_same by done. cbn [drop take]. by rewrite app_nil_r. Qed.

Lemma rotate_zero {A} (l : list A) : rotate 0 l = l.
Proof. unfold rotate. destruct l as [|x l]; [done|]. rewrite Nat.mod_0_l by done. cbn [drop take]. by rewrite app_nil_r. Qed.

Lemma rotate_write (l : list Z) (c : nat) id : (c < length l)%nat -> rotate (Z.to_nat ((Z.of_nat c + 1) mod Z.of_nat (length l))) (<[c := id]> l) = drop 1 (rotate c l) ++ [id].
Proof.
  intros Hc. pose proof (rotate_more (<[c := id]> l) c 1 ltac:(rewrite length_insert; lia)) as E. rewrite length_insert in E. change (Z.of_nat 1) with 1 in E. rewrite E.
  assert (Er : rotate c (<[c := id]> l) = id :: drop 1 (rotate c l)).
  { unfold rotate. rewrite length_insert, Nat.mod_small by done. rewrite take_insert_ge by done. destruct (lookup_lt_is_Some_2 l c Hc) as [x Hx]. rewrite (drop_S l x c Hx). cbn [app drop].
    rewrite (drop_S _ id c) by (by apply list_lookup_insert_eq). rewrite drop_insert_lt by lia. done. }
  by rewrite Er.
Qed.

Lemma remember_ok T id : pt_ok T -> pt_ok (remember_ MaxHistory T id) /\ links (remember_ MaxHistory T id) = links T /\
  hist (remember_ MaxHistory T id) = if seen_ T id then hist T else last_entries MaxHistory (hist T ++ [id]).
Proof using HH.
  intros HT. unfold remember_. destruct (seen_ T id) eqn:Es; [done|]. pose proof HT as [? ? ? ? ? ? Hl Hs Hc Hf]. destruct HH as [Hpos _].
  assert (Hlh : Z.of_nat (length (hist T)) = history_count_ T) by (unfold hist; rewrite length_rotate; apply front_length; lia).
  destruct (Z.ltb_spec (history_count_ T) MaxHistory) as [Hlt|Hge]; set (T' := mkPt _ _ _ _ _ _ _).
  - specialize (Hf Hlt). assert (Ehist : hist T = front (history_count_ T) (history_ T)) by (apply rotate_full; pose proof (front_length (history_count_ T) (history_ T) ltac:(lia)); lia).
    assert (Ef : front (history_count_ T + 1) (aset (history_ T) (history_cursor_ T) id) = hist T ++ [id]) by (rewrite Hf, Ehist; apply front_push; lia).
    assert (Ec : (history_cursor_ T + 1) mod MaxHistory = if decide (history_count_ T + 1 = MaxHistory) then 0 else history_count_ T + 1).
    { case_decide as E; [rewrite Hf, E; apply Z.mod_same; lia|rewrite Hf; apply Z.mod_small; lia]. }
    split_and!; [split; unfold T'; cbn; rewrite ?length_aset; try done; try lia; [apply Z.mod_pos_bound; lia|]|done|].
    + intros Hmore. by rewrite Ec, decide_False by lia.
    + unfold last_entries. rewrite length_app. cbn [length]. replace (length (hist T) + 1 - Z.to_nat MaxHistory)%nat with 0%nat by lia. rewrite drop_0. unfold hist at 1, T'. cbn. rewrite Ef, Ec. case_decide as E; [apply rotate_zero|].
      apply rotate_full. rewrite length_app. cbn. lia.
  - assert (Eall : front (history_count_ T) (history_ T) = history_ T) by (unfold front; apply take_ge; lia).
    split_and!; [split; unfold T'; cbn; rewrite ?length_aset; try done; try lia; apply Z.mod_pos_bound; lia|done|].
    unfold hist at 1, T'. cbn. assert (Ef : front (history_count_ T) (aset (history_ T) (history_cursor_ T) id) = <[Z.to_nat (history_cursor_ T) := id]> (history_ T)) by (unfold front, aset; apply take_ge; rewrite length_insert; lia).
    rewrite Ef. replace ((history_cursor_ T + 1) mod MaxHistory) with ((Z.of_nat (Z.to_nat (history_cursor_ T)) + 1) mod Z.of_nat (length (history_ T))) by (rewrite Z2Nat.id, Hl by lia; done).
    rewrite rotate_write by lia. unfold last_entries. rewrite length_app. cbn [length]. replace (length (hist T) + 1 - Z.to_nat MaxHistory)%nat with 1%nat by lia. rewrite drop_app_le by lia. f_equal. unfold hist. by rewrite Eall.
Qed.

(** ** Links *)

Lemma links_length T : pt_ok T -> Z.of_nat (length (links T)) = link_count_ T.
Proof. intros HT. apply front_length. destruct HT. lia. Qed.

Lemma find_link_known T u : match find_link_ T u with
  | Some i => 0 <= i /\ u ∈ link_uuids T /\ links T !! Z.to_nat i = Some (aget no_link (links_ T) i) /\ uuid (lk_peer (aget no_link (links_ T) i)) = u
  | None => u ∉ link_uuids T
  end.
Proof.
  unfold find_link_. pose proof (find_uuid (fun l => uuid (lk_peer l)) (links T) u) as H. destruct (find_from _ _ _) as [i|]; [|done]. destruct H as (Hi & l & Hl & Hu).
  assert (E : aget no_link (links_ T) i = l). { unfold aget. pose proof (lookup_lt_Some _ _ _ Hl) as Hlt. unfold links, front in Hl, Hlt. rewrite length_take in Hlt. rewrite lookup_take_lt in Hl by lia. by rewrite Hl. }
  rewrite E. split_and!; [done| |done|done]. rewrite <- Hu. apply list_elem_of_fmap. exists l. split; [done|]. by eapply list_elem_of_lookup_2.
Qed.

Lemma eager_swap (l : list LinkSlot) i x y : l !! i = Some x ->
  Z.of_nat (length (filter eager_link (<[i := y]> l))) = Z.of_nat (length (filter eager_link l)) - (if is_eager x then 1 else 0) + (if is_eager y then 1 else 0).
Proof.
  intros Hx. pose proof (insert_swap l i x y Hx) as Hp. apply (filter_Permutation eager_link) in Hp. apply Permutation_length in Hp. rewrite !filter_cons in Hp.
  destruct (decide (eager_link x)) as [Ex|Ex], (decide (eager_link y)) as [Ey|Ey]; unfold eager_link in Ex, Ey; try apply not_true_is_false in Ex; try apply not_true_is_false in Ey; rewrite ?Ex, ?Ey; cbn in Hp; lia.
Qed.

(** A link in another state. *)
Lemma set_link_ok T i s n : pt_ok T -> 0 <= i -> links T !! Z.to_nat i = Some (aget no_link (links_ T) i) ->
  n = eager_count_ T - (if is_eager (aget no_link (links_ T) i) then 1 else 0) + (if bool_decide (s = Eager) then 1 else 0) -> n <= max_eager_fanout (pt_config_ T) ->
  pt_ok (set_link T i s n) /\ link_uuids (set_link T i s n) = link_uuids T /\ links (set_link T i s n) = <[Z.to_nat i := mkLink (lk_peer (aget no_link (links_ T) i)) s]> (links T).
Proof.
  intros HT Hi Hl Hn Hf. pose proof HT as [Hlen Hc Hu Hz He [Hf1 _] ? ? ? ?]. pose proof (lookup_lt_Some _ _ _ Hl) as Hlt. pose proof (links_length T HT).
  assert (E : links (set_link T i s n) = <[Z.to_nat i := mkLink (lk_peer (aget no_link (links_ T) i)) s]> (links T)) by (apply front_set; lia).
  assert (Eu : link_uuids (set_link T i s n) = link_uuids T) by (rewrite E, list_fmap_insert; cbn; apply list_insert_id; by rewrite list_lookup_fmap, Hl).
  split_and!; [|done|done]. split; try done; [cbn; by rewrite length_aset|by rewrite Eu|by rewrite Eu|].
  change (eager_count_ (set_link T i s n)) with n. rewrite E, (eager_swap _ _ _ _ Hl), <- He. rewrite Hn. done.
Qed.

Lemma other_eager_spec idx i l : match other_eager idx i l with
  | Some j => i <= j /\ j <> idx /\ exists x, l !! Z.to_nat (j - i) = Some x /\ is_eager x = true
  | None => forall k x, l !! k = Some x -> is_eager x = true -> i + Z.of_nat k = idx
  end.
Proof.
  revert i. induction l as [|x l IH]; intros i; cbn; [done|]. destruct (negb (i =? idx) && is_eager x) eqn:E.
  - apply andb_prop in E as [E1 E2]. apply negb_true_iff, Z.eqb_neq in E1. split_and!; [lia|done|]. exists x. by rewrite Z.sub_diag.
  - specialize (IH (i + 1)). destruct (other_eager idx (i + 1) l) as [j|].
    + destruct IH as (H1 & H2 & y & Hy & Hey). split_and!; [lia|done|]. exists y. split; [|done]. by replace (Z.to_nat (j - i)) with (S (Z.to_nat (j - (i + 1)))) by lia.
    + intros [|k] y Hy Hey; cbn in Hy; [injection Hy as ->; rewrite Hey, andb_true_r in E; apply negb_false_iff, Z.eqb_eq in E; lia|]. specialize (IH k y Hy Hey). lia.
Qed.

(** After a promotion the link is eager, with the fanout respected. *)
Lemma promote_eager_ok T i u : pt_ok T -> find_link_ T u = Some i ->
  pt_ok (promote_eager_ T i) /\ link_uuids (promote_eager_ T i) = link_uuids T /\ hist (promote_eager_ T i) = hist T /\
  exists l, links (promote_eager_ T i) !! Z.to_nat i = Some l /\ is_eager l = true /\ uuid (lk_peer l) = u.
Proof.
  intros HT Hf. pose proof (find_link_known T u) as Hk. rewrite Hf in Hk. destruct Hk as (Hi & _ & Hl & Hu). unfold promote_eager_. destruct (is_eager (aget no_link (links_ T) i)) eqn:Ee; [by split_and!; eauto|].
  pose proof (pk_fanout _ HT) as [Hf1 Hf2]. pose proof (pk_eager _ HT) as Hcount. set (T1 := if eager_count_ T =? _ then _ else T).
  assert (H1 : pt_ok T1 /\ link_uuids T1 = link_uuids T /\ hist T1 = hist T /\ pt_config_ T1 = pt_config_ T /\ eager_count_ T1 < max_eager_fanout (pt_config_ T) /\ links T1 !! Z.to_nat i = links T !! Z.to_nat i /\ links_ T1 !! Z.to_nat i = links_ T !! Z.to_nat i).
  { unfold T1. destruct (Z.eqb_spec (eager_count_ T) (max_eager_fanout (pt_config_ T))) as [E|E]; [|split_and!; try done; lia].
    pose proof (other_eager_spec i 0 (links T)) as Ho. destruct (other_eager i 0 (links T)) as [j|].
    - destruct Ho as (Hj & Hne & x & Hx & Hex). rewrite Z.sub_0_r in Hx. assert (Ex : aget no_link (links_ T) j = x). { unfold aget. pose proof (lookup_lt_Some _ _ _ Hx) as Hlt. unfold links, front in Hx, Hlt. rewrite length_take in Hlt. rewrite lookup_take_lt in Hx by lia. by rewrite Hx. }
      destruct (set_link_ok T j Lazy (eager_count_ T - 1) HT Hj) as (K1 & K2 & K3); [by rewrite Ex|rewrite Ex, Hex, bool_decide_false by done; lia|lia|].
      split_and!; [done|done|done|done|cbn; lia|rewrite K3; apply list_lookup_insert_ne; lia|apply list_lookup_insert_ne; lia].
    - exfalso. destruct (filter eager_link (links T)) as [|y r] eqn:Ey; [cbn in Hcount; lia|]. assert (Hy : y ∈ filter eager_link (links T)) by (rewrite Ey; apply elem_of_cons; by left).
      apply list_elem_of_filter in Hy as [Hye Hyin]. apply list_elem_of_lookup_1 in Hyin as [k Hyk]. specialize (Ho k y Hyk Hye). replace (Z.to_nat i) with k in Hl by lia. rewrite Hyk in Hl. injection Hl as ->. unfold eager_link in Hye. congruence. }
  destruct H1 as (HT1 & Eu1 & Eh1 & Ec1 & Hlt & El1 & Er1). rewrite (proj2 (Z.eqb_neq _ _)) by lia. assert (Ea : aget no_link (links_ T1) i = aget no_link (links_ T) i) by (unfold aget; by rewrite Er1).
  destruct (set_link_ok T1 i Eager (eager_count_ T1 + 1) HT1 Hi) as (K1 & K2 & K3); [by rewrite Ea, El1|rewrite Ea, Ee, bool_decide_true by done; lia|rewrite Ec1; lia|].
  split_and!; [done|congruence|done|]. rewrite K3, Ea. eexists. split; [apply list_lookup_insert_eq; eapply lookup_lt_Some; rewrite El1; exact Hl|]. done.
Qed.

(** ** Plans *)

Definition goes_to (except : Uuid) (eager : bool) (l : list LinkSlot) : list CogIdentity :=
  lk_peer <$> filter (fun x => uuid (lk_peer x) <> except /\ is_eager x = eager) l.

Lemma goes_to_cons except b x l : goes_to except b (x :: l) = if bool_decide (uuid (lk_peer x) = except) then goes_to except b l else if Bool.eqb (is_eager x) b then lk_peer x :: goes_to except b l else goes_to except b l.
Proof.
  unfold goes_to. rewrite filter_cons. case_bool_decide as E; [rewrite decide_False by tauto; done|]. destruct (Bool.eqb_spec (is_eager x) b); [rewrite decide_True by done; done|rewrite decide_False by tauto; done].
Qed.

Lemma plan_loop_ok except l out : table_ok MaxPeers (eager_peers out) -> table_ok MaxPeers (lazy_peers out) ->
  Z.of_nat (length (live (eager_peers out)) + length l) <= MaxPeers -> Z.of_nat (length (live (lazy_peers out)) + length l) <= MaxPeers ->
  let p := plan_loop MaxPeers except l out in
  bp_message p = bp_message out /\ live (eager_peers p) = live (eager_peers out) ++ goes_to except true l /\ live (lazy_peers p) = live (lazy_peers out) ++ goes_to except false l.
Proof.
  revert out. induction l as [|x l IH]; intros out He Hl Hne Hnl; cbn [plan_loop length] in *; [unfold goes_to; cbn; by rewrite !app_nil_r|]. rewrite !goes_to_cons. case_bool_decide as E; [apply IH; [done|done|lia|lia]|].
  destruct (is_eager x) eqn:Ex; cbn [Bool.eqb].
  - pose proof (push_ok MaxPeers (eager_peers out) (lk_peer x) He) as Hp. destruct (push MaxPeers (eager_peers out) (lk_peer x)) as [t ok]. destruct Hp as (Ht & -> & Et). rewrite (proj2 (Z.ltb_lt _ _)) in Et by lia.
    destruct (IH (mkPlan (bp_message out) t (lazy_peers out))) as (H1 & H2 & H3); cbn; [done|done|rewrite Et, length_app; cbn; lia|lia|]. split_and!; [done| |done]. cbn in H2. rewrite H2, Et, <- app_assoc. done.
  - pose proof (push_ok MaxPeers (lazy_peers out) (lk_peer x) Hl) as Hp. destruct (push MaxPeers (lazy_peers out) (lk_peer x)) as [t ok]. destruct Hp as (Ht & -> & Et). rewrite (proj2 (Z.ltb_lt _ _)) in Et by lia.
    destruct (IH (mkPlan (bp_message out) (eager_peers out) t)) as (H1 & H2 & H3); cbn; [done|done|lia|rewrite Et, length_app; cbn; lia|]. split_and!; [done|done|]. cbn in H3. rewrite H3, Et, <- app_assoc. done.
Qed.

(** A plan names every link but the excepted one, by its state. *)
Definition plan_covers (T : Plumtree) (m : PlumtreeMessage) (except : Uuid) (p : PlumtreeBroadcastPlan) : Prop :=
  bp_message p = m /\ live (eager_peers p) = goes_to except true (links T) /\ live (lazy_peers p) = goes_to except false (links T).

Lemma build_plan_ok T m except : pt_ok T -> plan_covers T m except (build_broadcast_plan_ MaxPeers T m except).
Proof using HP.
  intros HT. destruct HP as [Hpos _]. destruct (empty_table_ok MaxPeers no_cog Hpos) as [H1 H2]. pose proof (links_length T HT) as Hl. pose proof (pk_count _ HT).
  pose proof (plan_loop_ok except (links T) (empty_plan MaxPeers m)) as Hp. cbn [empty_plan eager_peers lazy_peers bp_message] in Hp. rewrite H2 in Hp. cbn [length app] in Hp. apply Hp; [done|done|lia|lia].
Qed.

Lemma goes_to_all except l : (uuid <$> goes_to except true l) ++ (uuid <$> goes_to except false l) ≡ₚ filter (fun u => u <> except) ((fun x => uuid (lk_peer x)) <$> l).
Proof.
  induction l as [|x l IH]; [done|]. rewrite !goes_to_cons, fmap_cons, filter_cons. case_bool_decide as E; [rewrite decide_False by tauto; done|]. rewrite decide_True by done. destruct (is_eager x); cbn [Bool.eqb].
  - rewrite fmap_cons. cbn [app]. by rewrite IH.
  - rewrite fmap_cons, <- Permutation_middle. by rewrite IH.
Qed.

(** ** The receipt of a message *)

(** The state of the link to [u]. *)
Definition link_is (T : Plumtree) (u : Uuid) (eager : bool) : Prop := exists i l, links T !! i = Some l /\ uuid (lk_peer l) = u /\ is_eager l = eager.

Definition received (T : Plumtree) (from : CogIdentity) (m : PlumtreeMessage) (r : expected PlumtreeReceivePlan PlumtreeError * Plumtree) : Prop :=
  let '(res, T') := r in
  match res with
  | inl e => T' = T /\ (e = PUnknownPeer /\ uuid from ∉ link_uuids T \/ e = PEmptyMessage /\ (id_hash m = 0 \/ payload_bytes m = 0))
  | inr p => pt_ok T' /\ link_uuids T' = link_uuids T /\
      match rp_kind p with
      | Duplicate => id_hash m ∈ hist T /\ hist T' = hist T /\ link_is T' (uuid from) false /\ live (eager_peers (forward p)) = [] /\ live (lazy_peers (forward p)) = []
      | FirstSeen => id_hash m ∉ hist T /\ hist T' = last_entries MaxHistory (hist T ++ [id_hash m]) /\ link_is T' (uuid from) true /\
          plan_covers T' m (uuid from) (forward p) /\
          (uuid <$> live (eager_peers (forward p))) ++ (uuid <$> live (lazy_peers (forward p))) ≡ₚ filter (fun u => u <> uuid from) (link_uuids T)
      end
  end.

Lemma receive_ok T from m : pt_ok T -> received T from m (receive_message MaxPeers MaxHistory T from m).
Proof using HP HH.
  intros HT. unfold receive_message. pose proof (find_link_known T (uuid from)) as Hk. destruct (find_link_ T (uuid from)) as [i|] eqn:Ef; [|split; [done|by left]]. destruct Hk as (Hi & _ & Hl & Hu).
  destruct ((id_hash m =? 0) || (payload_bytes m =? 0)) eqn:Ez; [split; [done|]; right; split; [done|]; apply orb_true_iff in Ez as [E|E]; [left|right]; by apply Z.eqb_eq|].
  destruct (seen_ T (id_hash m)) eqn:Es.
  - destruct (empty_table_ok MaxPeers no_cog) as [_ He]; [destruct HP; lia|]. unfold received. cbn [rp_kind forward empty_plan eager_peers lazy_peers]. rewrite He. apply seen_spec in Es. destruct (is_eager (aget no_link (links_ T) i)) eqn:Ee.
    + destruct (set_link_ok T i Lazy (eager_count_ T - 1) HT Hi Hl) as (K1 & K2 & K3); [rewrite Ee, bool_decide_false by done; lia|pose proof (pk_fanout _ HT); lia|]. split_and!; try done. exists (Z.to_nat i). rewrite K3. eexists. split; [apply list_lookup_insert_eq; by eapply lookup_lt_Some|]. done.
    + split_and!; try done. exists (Z.to_nat i). eexists. split; [exact Hl|]. done.
  - destruct (promote_eager_ok T i (uuid from) HT Ef) as (K1 & K2 & K3 & l & Hl1 & Hl2 & Hl3). destruct (remember_ok (promote_eager_ T i) (id_hash m) K1) as (R1 & R2 & R3). set (T1 := remember_ _ _ _) in *.
    assert (Es1 : seen_ (promote_eager_ T i) (id_hash m) = false). { apply not_true_is_false. intros H. apply seen_spec in H. rewrite K3 in H. apply seen_spec in H. congruence. }
    rewrite Es1, K3 in R3. pose proof (build_plan_ok T1 m (uuid from) R1) as Hplan. unfold received. cbn [rp_kind forward]. split_and!; [done|by rewrite R2, K2| |done| |done|].
    + intros H. apply seen_spec in H. congruence.
    + exists (Z.to_nat i), l. by rewrite R2.
    + destruct Hplan as (_ & E1 & E2). rewrite E1, E2, goes_to_all. by rewrite R2, K2.
Qed.
(** ** The mint from an overlay *)

Lemma find_link_fresh T u : u ∉ link_uuids T -> find_link_ T u = None.
Proof.
  intros Hn. apply find_from_is_none. intros y Hy. apply bool_decide_false. intros E. apply Hn. rewrite <- E. apply (list_elem_of_fmap_2 (fun l => uuid (lk_peer l)) _ _ Hy).
Qed.

Lemma add_link_ok T p st : pt_ok T -> uuid p <> zero_uuid -> uuid p ∉ link_uuids T -> link_count_ T < MaxPeers ->
  exists T' s, add_link_ MaxPeers T p st = (inr tt, T') /\ pt_ok T' /\ links T' = links T ++ [mkLink p s] /\ pt_config_ T' = pt_config_ T /\
    link_count_ T' = link_count_ T + 1 /\ eager_count_ T' = if bool_decide (st = Eager) then Z.min (max_eager_fanout (pt_config_ T)) (eager_count_ T + 1) else eager_count_ T.
Proof.
  intros HT Hz Hn Hc. pose proof HT as [Hl Hlc Hu Hna He [Hf1 Hf2] ? ? ? ?]. unfold add_link_. rewrite (proj2 (is_zero_false _) Hz), (find_link_fresh T _ Hn). unfold reserve_next, full. rewrite (proj2 (Z.leb_gt _ _)) by lia.
  set (s := if _ && _ then Lazy else st). set (T' := set_links _ _ _ _). assert (El : links T' = links T ++ [mkLink p s]) by (apply front_push; lia).
  assert (Ec : eager_count_ T' = (if bool_decide (st = Eager) then Z.min (max_eager_fanout (pt_config_ T)) (eager_count_ T + 1) else eager_count_ T) /\ eager_count_ T' = eager_count_ T + Z.of_nat (length (filter eager_link [mkLink p s]))).
  { unfold T', s, set_links. cbn [eager_count_]. destruct st; [rewrite (bool_decide_true (Eager = Eager)), andb_true_l by done|].
    - destruct (Z.eqb_spec (eager_count_ T) (max_eager_fanout (pt_config_ T))) as [E|E].
      + rewrite bool_decide_false by done. rewrite filter_cons_False by done. cbn. lia.
      + rewrite bool_decide_true by done. rewrite filter_cons_True by done. cbn. lia.
    - rewrite (bool_decide_false (Lazy = Eager)), andb_false_l by done. rewrite bool_decide_false by done. rewrite filter_cons_False by done. cbn. lia. }
  destruct Ec as [Ec1 Ec2]. exists T', s. split_and!; try done. split; try done; try (rewrite El, fmap_app).
  - unfold T'. cbn. by rewrite length_aset.
  - unfold T'. cbn. lia.
  - apply NoDup_app. split_and!; [done| |apply NoDup_singleton]. intros x Hx Hx'. apply list_elem_of_singleton in Hx'. cbn in Hx'. congruence.
  - rewrite elem_of_app. intros [H'|H']; [done|]. apply list_elem_of_singleton in H'. cbn in H'. congruence.
  - rewrite Ec2, He, El, filter_app, length_app. lia.
  - unfold T'. cbn [set_links pt_config_]. fold T'. case_bool_decide; lia.
Qed.

Lemma add_link_any T p st : pt_ok T -> pt_ok (add_link_ MaxPeers T p st).2.
Proof.
  intros HT. destruct (is_zero (uuid p)) eqn:Ez; [unfold add_link_; by rewrite Ez|]. destruct (find_link_ T (uuid p)) as [i|] eqn:Ef; [unfold add_link_; by rewrite Ez, Ef|].
  destruct (full MaxPeers (link_count_ T)) eqn:El; [unfold add_link_, reserve_next; by rewrite Ez, Ef, El|].
  destruct (add_link_ok T p st HT) as (T' & s & -> & ? & _); [by apply is_zero_false| |unfold full in El; lia|done].
  intros (l & E & Hin)%list_elem_of_fmap_1. pose proof (find_from_none _ _ _ Ef l Hin) as Hb. cbn in Hb. by apply bool_decide_eq_false in Hb.
Qed.

Lemma add_links_ok l T : pt_ok T -> NoDup (uuid <$> l) -> zero_uuid ∉ uuid <$> l -> (forall u, u ∈ uuid <$> l -> u ∉ link_uuids T) -> link_count_ T + Z.of_nat (length l) <= MaxPeers ->
  exists T', add_links MaxPeers T l = Ok T' /\ pt_ok T' /\ lk_peer <$> links T' = (lk_peer <$> links T) ++ l /\
    eager_count_ T' = Z.min (max_eager_fanout (pt_config_ T)) (eager_count_ T + Z.of_nat (length l)).
Proof.
  revert T. induction l as [|p l IH]; intros T HT Hu Hz Hd Hc; cbn [add_links length fmap list_fmap] in *; [exists T; rewrite app_nil_r; split_and!; try done; pose proof (pk_fanout _ HT); lia|].
  apply NoDup_cons in Hu as [Hp Hu]. rewrite not_elem_of_cons in Hz. destruct Hz as [Hzp Hz].
  destruct (add_link_ok T p Eager HT) as (T1 & s & E & HT1 & El & Ecfg & Ec & Ee); [congruence|apply Hd; constructor|lia|]. rewrite E. rewrite bool_decide_true in Ee by done.
  destruct (IH T1 HT1 Hu Hz) as (T' & E' & HT' & El' & Ee').
  - intros u Hin. rewrite El, fmap_app, not_elem_of_app. split; [apply Hd; by constructor|]. intros H. apply list_elem_of_singleton in H as ->. done.
  - lia.
  - exists T'. split_and!; [done|done| |rewrite Ee', Ecfg, Ee; lia]. rewrite El', El, fmap_app, <- app_assoc. done.
Qed.

Lemma empty_plumtree_ok c : 0 < max_eager_fanout c -> pt_ok (empty_plumtree MaxPeers MaxHistory c).
Proof using HP HH. intros Hf. destruct HP, HH. split; cbn; rewrite ?length_replicate; try lia; [apply NoDup_nil_2|apply not_elem_of_nil|reflexivity]. Qed.

Lemma mint_plumtree_ok MaxActive MaxPassive H c : hy_ok MaxActive MaxPassive H -> MaxActive <= MaxPeers -> 0 < max_eager_fanout c <= MaxPeers ->
  exists T, mint_plumtree MaxPeers MaxHistory H c = Ok T /\ pt_ok T /\ lk_peer <$> links T = active_view H /\
    eager_count_ T = Z.min (max_eager_fanout c) (active_count_ H) /\ hist T = [].
Proof using HP HH.
  intros HH0 Hm Hf. destruct HH0 as [[Hs1 Hs2] Hla _ Hac _ Hu Hn]. unfold views in Hu, Hn. rewrite fmap_app in Hu, Hn. apply NoDup_app in Hu as (Hu & _ & _). apply not_elem_of_app in Hn as [Hn _].
  unfold mint_plumtree, admit_plumtree_config. rewrite (proj2 (Z.ltb_ge _ _)) by lia. cbn [require].
  pose proof (front_length (active_count_ H) (active_ H) ltac:(lia)) as Hl. fold (active_view H) in Hl.
  destruct (add_links_ok (active_view H) (empty_plumtree MaxPeers MaxHistory c)) as (T & E & HT & El & Ee); [apply empty_plumtree_ok; lia|done|done|intros u _; apply not_elem_of_nil|cbn; lia|].
  exists T. split_and!; [done|done|done|cbn in Ee; rewrite Ee; f_equal; lia|].
  assert (Hh : forall l T0 T1, add_links MaxPeers T0 l = Ok T1 -> hist T1 = hist T0).
  { clear. induction l as [|p l IH]; intros T0 T1 E; cbn in E; [by injection E as ->|]. unfold add_link_ in E. destruct (is_zero _); [done|]. destruct (find_link_ _ _); [done|]. destruct (reserve_next _ _); [|done]. by apply IH in E. }
  rewrite (Hh _ _ _ E). done.
Qed.

(** A broadcast tree that is minted from an overlay links the node to its active view, as many eagerly as the fanout allows. *)
Theorem plumtree_mint_from_overlay MaxActive MaxPassive H c : hy_ok MaxActive MaxPassive H -> MaxActive <= MaxPeers -> 0 < max_eager_fanout c <= MaxPeers ->
  exists T, mint_plumtree MaxPeers MaxHistory H c = Ok T /\ pt_ok T /\ lk_peer <$> links T = active_view H /\ eager_count_ T = Z.min (max_eager_fanout c) (active_count_ H) /\ hist T = [].
Proof using HP HH. apply mint_plumtree_ok. Qed.

(** ** Executions *)

(** The steps of a tree: a publication, a receipt, an announcement, a link. *)
Inductive pt_call := PPublish (bytes : list Z) | PReceive (from : CogIdentity) (m : PlumtreeMessage) | PIhave (from : CogIdentity) (ids : SlotTable Z) | PEager (p : CogIdentity) | PLazy (p : CogIdentity).

Definition pt_run (T : Plumtree) (c : pt_call) : Plumtree :=
  match c with
  | PPublish b => (publish MaxPeers MaxHistory T b).2
  | PReceive f m => (receive_message MaxPeers MaxHistory T f m).2
  | PIhave f i => (receive_ihave MaxHistory T f i).2
  | PEager p => (add_eager_peer MaxPeers T p).2
  | PLazy p => (add_lazy_peer MaxPeers T p).2
  end.

Lemma request_loop_ok T ids out : table_ok MaxHistory out -> Z.of_nat (length (live out) + length ids) <= MaxHistory ->
  match request_loop MaxHistory T ids out with
  | None => 0 ∈ ids
  | Some o => 0 ∉ ids /\ live o = live out ++ filter (fun id => id ∉ hist T) ids /\ count o = Z.of_nat (length (live o))
  end.
Proof.
  revert out. induction ids as [|id ids IH]; intros out Ho Hl; cbn [request_loop length] in *.
  - split_and!; [apply not_elem_of_nil|by rewrite filter_nil, app_nil_r|]. destruct Ho. pose proof (front_length (count out) (slots out) ltac:(lia)). unfold live. unfold front in *. lia.
  - destruct (Z.eqb_spec id 0) as [->|Hz]; [constructor|]. rewrite filter_cons. destruct (seen_ T id) eqn:Es.
    + apply seen_spec in Es. rewrite decide_False by (intros H; by apply H). specialize (IH out Ho ltac:(lia)). destruct (request_loop _ _ _ _); [destruct IH as (? & ? & ?); split_and!; [rewrite not_elem_of_cons; by split|done|done]|by constructor].
    + rewrite decide_True by (intros H%seen_spec; congruence). pose proof (push_ok MaxHistory out id Ho) as Hp. destruct (push MaxHistory out id) as [t ok]. destruct Hp as (Ht & -> & Et). rewrite (proj2 (Z.ltb_lt _ _)) in Et by lia. cbn [fst].
      specialize (IH t Ht ltac:(rewrite Et, length_app; cbn; lia)). destruct (request_loop _ _ _ _); [destruct IH as (? & E & ?); split_and!; [rewrite not_elem_of_cons; by split|by rewrite E, Et, <- app_assoc|done]|by constructor].
Qed.

(** What an announcement asks for: the ids that were not seen, from the peer
    that announced them, which turns eager when there is one. *)
Definition repaired (T : Plumtree) (from : CogIdentity) (ids : list Z) (r : expected PlumtreeRepairPlan PlumtreeError * Plumtree) : Prop :=
  let '(res, T') := r in
  match res with
  | inl e => T' = T /\ (e = PUnknownPeer /\ uuid from ∉ link_uuids T \/ e = PEmptyMessage /\ 0 ∈ ids)
  | inr p => pt_ok T' /\ link_uuids T' = link_uuids T /\ hist T' = hist T /\ rp_source p = from /\
      live (requested p) = filter (fun id => id ∉ hist T) ids /\ (live (requested p) <> [] -> link_is T' (uuid from) true)
  end.

Lemma ihave_ok T from t : pt_ok T -> table_ok MaxHistory t -> repaired T from (live t) (receive_ihave MaxHistory T from t).
Proof using HP HH.
  intros HT [Ht1 Ht2]. unfold receive_ihave. pose proof (find_link_known T (uuid from)) as Hk. destruct (find_link_ T (uuid from)) as [i|] eqn:Ef; [|split; [done|by left]].
  destruct HH as [Hpos _]. destruct (empty_table_ok MaxHistory 0 Hpos) as [He Hl]. pose proof (front_length (count t) (slots t) ltac:(lia)) as Hlen.
  pose proof (request_loop_ok T (live t) (empty_table MaxHistory 0) He) as Hr. rewrite Hl in Hr. cbn [length app] in Hr. specialize (Hr ltac:(unfold live, front in *; lia)). destruct (request_loop _ _ _ _) as [o|]; [|split; [done|by right]]. destruct Hr as (_ & Eo & Ec).
  unfold repaired. cbn [rp_source requested]. destruct (Z.eqb_spec (count o) 0) as [E|E]; [split_and!; try done; intros Hne; destruct (live o); [done|cbn in Ec; lia]|].
  destruct (promote_eager_ok T i (uuid from) HT Ef) as (K1 & K2 & K3 & l & Hl1 & Hl2 & Hl3). split_and!; try done. intros _. by exists (Z.to_nat i), l.
Qed.

Lemma publish_pt_ok T b : pt_ok T -> pt_ok (publish MaxPeers MaxHistory T b).2.
Proof using HH. intros HT. unfold publish. destruct (make_message_ b); [done|]. by apply remember_ok. Qed.

Definition pt_call_ok (c : pt_call) : Prop := match c with PIhave _ t => table_ok MaxHistory t | _ => True end.

Lemma pt_run_ok T c : pt_ok T -> pt_call_ok c -> pt_ok (pt_run T c).
Proof using HP HH.
  intros HT Hc. destruct c as [b|f m|f t|p|p]; cbn [pt_run].
  - by apply publish_pt_ok.
  - pose proof (receive_ok T f m HT) as H. destruct (receive_message _ _ _ _ _) as [[e|p] T']; [by destruct H as [-> _]|by destruct H].
  - pose proof (ihave_ok T f t HT Hc) as H. destruct (receive_ihave _ _ _ _) as [[e|p] T']; [by destruct H as [-> _]|by destruct H].
  - by apply add_link_any.
  - by apply add_link_any.
Qed.

Lemma pt_runs_ok T cs : pt_ok T -> Forall pt_call_ok cs -> pt_ok (fold_left pt_run cs T).
Proof using HP HH. intros HT Hcs. revert T HT. induction Hcs as [|c cs Hc Hcs IH]; intros T HT; [done|]. cbn. by apply IH, pt_run_ok. Qed.

(** C39: after any calls, a message is forwarded once.  When its id is not in the ring, the sender's link turns eager, the id enters the ring and the plan names each other link once, the eager ones for a push and the lazy ones for an announcement; when it is, the sender's link turns lazy and nothing is forwarded; and an announcement asks for exactly the ids that were not seen. *)
Theorem plumtree_forwards_once MaxActive MaxPassive H c T0 cs from m t : hy_ok MaxActive MaxPassive H -> MaxActive <= MaxPeers -> 0 < max_eager_fanout c <= MaxPeers ->
  mint_plumtree MaxPeers MaxHistory H c = Ok T0 -> Forall pt_call_ok cs -> table_ok MaxHistory t ->
  let T := fold_left pt_run cs T0 in
  received T from m (receive_message MaxPeers MaxHistory T from m) /\ repaired T from (live t) (receive_ihave MaxHistory T from t).
Proof using HP HH.
  intros HH0 Hm Hf E Hcs Ht T. destruct (mint_plumtree_ok _ _ H c HH0 Hm Hf) as (T1 & E1 & HT1 & _). rewrite E in E1. injection E1 as <-.
  pose proof (pt_runs_ok T0 cs HT1 Hcs) as HT. split; [by apply receive_ok|by apply ihave_ok].
Qed.
End Proofs.

(** ** Witnesses *)

Definition wit_pt_config : PlumtreeConfig := mkPtConfig 1 1 1 1.

Definition wit_pt : Plumtree := match mint_plumtree 2 4 wit_hy wit_pt_config with Ok T => T | Fatal _ => empty_plumtree 2 4 wit_pt_config end.

Lemma wit_pt_new : mint_plumtree 2 4 wit_hy wit_pt_config = Ok wit_pt.
Proof. vm_compute. reflexivity. Qed.

Lemma wit_ids_ok : table_ok 4 (mkTable [9; 8; 0; 0] 2).
Proof. split; [reflexivity|cbn; lia]. Qed.

Lemma plumtree_mint_from_overlay_witness : exists T, mint_plumtree 2 4 wit_hy wit_pt_config = Ok T /\ eager_count_ T = 1 /\ link_count_ T = 2.
Proof.
  destruct (plumtree_mint_from_overlay 2 4 wit_two wit_four 2 4 wit_hy wit_pt_config wit_hy_ok ltac:(lia) ltac:(cbn; lia)) as (T & E & _ & _ & Ee & _). exists T. split; [exact E|]. split; [rewrite Ee; vm_compute; reflexivity|].
  rewrite wit_pt_new in E. injection E as <-. vm_compute. reflexivity.
Defined.

(** The message 9 comes from the second peer: its link turns eager, and the
    first peer, which had the eager link, is told of it. *)
Lemma plumtree_forwards_once_witness :
  let T := fold_left (pt_run 2 4) [PReceive (wit_cog 1) (mkMessage 5 1)] wit_pt in
  let r := receive_message 2 4 T (wit_cog 2) (mkMessage 9 1) in
  received 2 4 T (wit_cog 2) (mkMessage 9 1) r /\
  match r.1 with inr p => map uuid (live (lazy_peers (forward p))) = [mkUuid 0 1] /\ map uuid (live (eager_peers (forward p))) = [] | inl _ => False end.
Proof.
  intros T r. split; [|vm_compute; split; reflexivity].
  refine (proj1 (plumtree_forwards_once 2 4 wit_two wit_four 2 4 wit_hy wit_pt_config wit_pt [PReceive (wit_cog 1) (mkMessage 5 1)] (wit_cog 2) (mkMessage 9 1) (mkTable [9; 8; 0; 0] 2) wit_hy_ok _ _ wit_pt_new _ wit_ids_ok)); [lia|cbn; lia|repeat constructor].
Defined.
