(* ===== verification/Scuttlebutt.v ===== *)
(** * Scuttlebutt.v: the anti-entropy of replicated states (include/crucible/canopy/Scuttlebutt.h)

    The keys, the digests of versions, and the synchroniser of a node: it
    numbers the states that it publishes, compares its versions with those of
    a digest, and merges the deltas that are newer.  The replicated state is
    that of the caller, through the interface [Crdt] of Crdt.v.  The
    properties are in ScuttlebuttProofs.v. *)

From stdpp Require Import base list strings.
From Stdlib Require Import ZArith Lia.
From S2P Require Import Prelude.
From S2P Require Import Crdt.
From S2P Require Import SlotTable.
From S2P Require Import Swim.
#[local] Open Scope Z_scope.

Record ScuttlebuttConfig := mkSbConfig { period_ns : Z; max_stale_rounds : Z }.

Record ScuttlebuttKey := mkKey { k_hash : Z; k_length : Z }.
#[export] Instance scuttlebutt_key_eq_dec : EqDecision ScuttlebuttKey.
Proof. solve_decision. Defined.

Definition is_empty (k : ScuttlebuttKey) : bool := (k_hash k =? 0) || (k_length k =? 0).
Definition no_key : ScuttlebuttKey := mkKey 0 0.

Inductive ScuttlebuttError :=
  SbCapacityExceeded | SbDuplicatePeer | SbEmptyKey | SbKeyTooLong | SbMalformedDelta | SbMalformedDigest | SbMergeRejected | SbNotAvailable
| SbTypeMismatch | SbUnknownKey | SbUnknownPeer | SbVersionOverflow | SbZeroUuid.

Definition fnv1a64 (text : list Z) : Z :=
  let hash := fold_left (fun h ch => u64 (Z.lxor h ch * 1099511628211)) text 14695981039346656037 in
  if hash =? 0 then 1 else hash.

Definition admit_scuttlebutt_key (key : list Z) : expected ScuttlebuttKey ScuttlebuttError :=
  if (length key =? 0)%nat then inl SbEmptyKey
  else if 65535 <? Z.of_nat (length key) then inl SbKeyTooLong
  else inr (mkKey (fnv1a64 key) (Z.of_nat (length key))).

Record ScuttlebuttVersionEntry := mkEntry { ve_origin : Uuid; ve_key : ScuttlebuttKey; ve_version : Z }.
Definition no_entry : ScuttlebuttVersionEntry := mkEntry zero_uuid no_key 0.

Definition names_nothing (e : ScuttlebuttVersionEntry) : bool := is_zero (ve_origin e) || is_empty (ve_key e).

Record ScuttlebuttDelta (State : Type) := mkDelta { d_origin : Uuid; d_key : ScuttlebuttKey; d_version : Z; d_state : State }.
Arguments mkDelta {State} _ _ _ _.
Arguments d_origin {State} _.
Arguments d_key {State} _.
Arguments d_version {State} _.
Arguments d_state {State} _.

(** The two entries are of the same origin and key. *)
Definition same_cell (o : Uuid) (k : ScuttlebuttKey) (e : ScuttlebuttVersionEntry) : bool := bool_decide (ve_origin e = o) && bool_decide (ve_key e = k).

Record KeySlot := mkKeySlot { ks_key : ScuttlebuttKey; type_cookie : Z }.
Definition no_key_slot : KeySlot := mkKeySlot no_key 0.

Record ScuttlebuttSync := mkSync {
  sb_config_ : ScuttlebuttConfig; sb_peers_ : list Uuid; keys_ : list KeySlot; versions_ : list (list Z); sb_peer_count_ : Z; key_count_ : Z; publish_count_ : Z; merge_count_ : Z;
}.

Definition version_at (Y : ScuttlebuttSync) (p k : Z) : Z := aget 0 (aget [] (versions_ Y) p) k.
Definition set_version (Y : ScuttlebuttSync) (p k v : Z) : ScuttlebuttSync :=
  mkSync (sb_config_ Y) (sb_peers_ Y) (keys_ Y) (aset (versions_ Y) p (aset (aget [] (versions_ Y) p) k v)) (sb_peer_count_ Y) (key_count_ Y) (publish_count_ Y) (merge_count_ Y).
Definition set_counts (Y : ScuttlebuttSync) (publish merge : Z) : ScuttlebuttSync :=
  mkSync (sb_config_ Y) (sb_peers_ Y) (keys_ Y) (versions_ Y) (sb_peer_count_ Y) (key_count_ Y) publish merge.

Definition sb_peers (Y : ScuttlebuttSync) : list Uuid := front (sb_peer_count_ Y) (sb_peers_ Y).
Definition sb_keys (Y : ScuttlebuttSync) : list KeySlot := front (key_count_ Y) (keys_ Y).

Definition kLocalIndex : Z := 0.

Definition find_peer_ (Y : ScuttlebuttSync) (peer : Uuid) : option Z := find_from (fun u => bool_decide (u = peer)) (sb_peers Y) 0.
Definition find_key_ (Y : ScuttlebuttSync) (key : ScuttlebuttKey) : option Z := find_from (fun s => bool_decide (ks_key s = key)) (sb_keys Y) 0.

Section Sync.
Context (MaxPeers MaxKeys : Z).

Abbreviation capacity := (MaxPeers * MaxKeys).

Definition upsert_ (t : SlotTable ScuttlebuttVersionEntry) (e : ScuttlebuttVersionEntry) : SlotTable ScuttlebuttVersionEntry * bool :=
  match find_from (same_cell (ve_origin e) (ve_key e)) (live t) 0 with
  | Some i =>
      let existing := aget no_entry (slots t) i in
      (if ve_version existing <? ve_version e then mkTable (aset (slots t) i (mkEntry (ve_origin existing) (ve_key existing) (ve_version e))) (count t) else t, true)
  | None =>
      match reserve_next capacity (count t) with
      | None => (t, false)
      | Some slot => (mkTable (aset (slots t) slot e) (count t + 1), true)
      end
  end.

Definition empty_entries : SlotTable ScuttlebuttVersionEntry := empty_table capacity no_entry.

(** ScuttlebuttDigest::push and ScuttlebuttRequestSet::push *)
Definition digest_push (t : SlotTable ScuttlebuttVersionEntry) (e : ScuttlebuttVersionEntry) : SlotTable ScuttlebuttVersionEntry * bool :=
  if ve_version e =? 0 then (t, true) else if names_nothing e then (t, false) else upsert_ t e.
Definition request_push (t : SlotTable ScuttlebuttVersionEntry) (e : ScuttlebuttVersionEntry) : SlotTable ScuttlebuttVersionEntry * bool :=
  if (ve_version e =? 0) || names_nothing e then (t, false) else upsert_ t e.

Fixpoint well_formed_from (l : list ScuttlebuttVersionEntry) : bool :=
  match l with
  | [] => true
  | a :: l =>
      if (ve_version a =? 0) || names_nothing a then false
      else if existsb (same_cell (ve_origin a) (ve_key a)) l then false else well_formed_from l
  end.
Definition well_formed (t : SlotTable ScuttlebuttVersionEntry) : bool := well_formed_from (live t).

Record ScuttlebuttDiff := mkDiff { requests : SlotTable ScuttlebuttVersionEntry; offers : SlotTable ScuttlebuttVersionEntry }.

Definition add_peer (Y : ScuttlebuttSync) (peer : CogIdentity) : expected unit ScuttlebuttError * ScuttlebuttSync :=
  if is_zero (uuid peer) then (inl SbZeroUuid, Y)
  else match find_peer_ Y (uuid peer) with
  | Some _ => (inl SbDuplicatePeer, Y)
  | None =>
      match reserve_next MaxPeers (sb_peer_count_ Y) with
      | None => (inl SbCapacityExceeded, Y)
      | Some slot => (inr tt, mkSync (sb_config_ Y) (aset (sb_peers_ Y) slot (uuid peer)) (keys_ Y) (versions_ Y) (sb_peer_count_ Y + 1) (key_count_ Y) (publish_count_ Y) (merge_count_ Y))
      end
  end.

(** [cookie] is crdt_type_cookie<C>(), which tells the types apart. *)
Definition register_state (cookie : Z) (Y : ScuttlebuttSync) (key : ScuttlebuttKey) : expected unit ScuttlebuttError * ScuttlebuttSync :=
  if is_empty key then (inl SbEmptyKey, Y)
  else match find_key_ Y key with
  | Some i => if negb (type_cookie (aget no_key_slot (keys_ Y) i) =? cookie) then (inl SbTypeMismatch, Y) else (inr tt, Y)
  | None =>
      match reserve_next MaxKeys (key_count_ Y) with
      | None => (inl SbCapacityExceeded, Y)
      | Some slot => (inr tt, mkSync (sb_config_ Y) (sb_peers_ Y) (aset (keys_ Y) slot (mkKeySlot key cookie)) (versions_ Y) (sb_peer_count_ Y) (key_count_ Y + 1) (publish_count_ Y) (merge_count_ Y))
      end
  end.

Definition require_key_ (cookie : Z) (Y : ScuttlebuttSync) (key : ScuttlebuttKey) : expected Z ScuttlebuttError :=
  match find_key_ Y key with
  | None => inl SbUnknownKey
  | Some i => if negb (type_cookie (aget no_key_slot (keys_ Y) i) =? cookie) then inl SbTypeMismatch else inr i
  end.

(** The cells in the order of the two loops, the peer outside. *)
Definition cells (Y : ScuttlebuttSync) : list (Z * Z) := seqZ 0 (sb_peer_count_ Y) ≫= fun p => (fun k => (p, k)) <$> seqZ 0 (key_count_ Y).

Definition cell_entry (Y : ScuttlebuttSync) (c : Z * Z) : ScuttlebuttVersionEntry :=
  mkEntry (aget zero_uuid (sb_peers_ Y) c.1) (ks_key (aget no_key_slot (keys_ Y) c.2)) (version_at Y c.1 c.2).

Definition digest (Y : ScuttlebuttSync) : SlotTable ScuttlebuttVersionEntry :=
  fold_left (fun out c => (digest_push out (cell_entry Y c)).1) (cells Y) empty_entries.

Definition version_in_digest_ (t : SlotTable ScuttlebuttVersionEntry) (o : Uuid) (k : ScuttlebuttKey) : Z :=
  match find_from (same_cell o k) (live t) 0 with Some i => ve_version (aget no_entry (slots t) i) | None => 0 end.

Fixpoint request_entries (Y : ScuttlebuttSync) (l : list ScuttlebuttVersionEntry) (out : SlotTable ScuttlebuttVersionEntry) : expected (SlotTable ScuttlebuttVersionEntry) ScuttlebuttError :=
  match l with
  | [] => inr out
  | e :: l =>
      match find_peer_ Y (ve_origin e) with
      | None => inl SbUnknownPeer
      | Some p =>
          match find_key_ Y (ve_key e) with
          | None => inl SbUnknownKey
          | Some k =>
              if version_at Y p k <? ve_version e then
                let '(out, ok) := request_push out e in if ok then request_entries Y l out else inl SbCapacityExceeded
              else request_entries Y l out
          end
      end
  end.

Fixpoint offer_cells (Y : ScuttlebuttSync) (incoming : SlotTable ScuttlebuttVersionEntry) (l : list (Z * Z)) (out : SlotTable ScuttlebuttVersionEntry) : expected (SlotTable ScuttlebuttVersionEntry) ScuttlebuttError :=
  match l with
  | [] => inr out
  | c :: l =>
      let e := cell_entry Y c in
      if ve_version e =? 0 then offer_cells Y incoming l out
      else if version_in_digest_ incoming (ve_origin e) (ve_key e) <? ve_version e then
        let '(out, ok) := request_push out e in if ok then offer_cells Y incoming l out else inl SbCapacityExceeded
      else offer_cells Y incoming l out
  end.

Definition compare_digest (Y : ScuttlebuttSync) (incoming : SlotTable ScuttlebuttVersionEntry) : expected ScuttlebuttDiff ScuttlebuttError :=
  if negb (well_formed incoming) then inl SbMalformedDigest
  else match request_entries Y (live incoming) empty_entries with
  | inl e => inl e
  | inr req => match offer_cells Y incoming (cells Y) empty_entries with inl e => inl e | inr off => inr (mkDiff req off) end
  end.

Fixpoint compact_loop (p floor : Z) (Y : ScuttlebuttSync) (ks : list Z) (dropped : Z) : ScuttlebuttSync * Z :=
  match ks with
  | [] => (Y, dropped)
  | k :: ks =>
      if negb (version_at Y p k =? 0) && (version_at Y p k <? floor) then compact_loop p floor (set_version Y p k 0) ks (u16 (dropped + 1))
      else compact_loop p floor Y ks dropped
  end.

Definition compact_peer_versions (Y : ScuttlebuttSync) (peer : CogIdentity) (floor : Z) : expected Z ScuttlebuttError * ScuttlebuttSync :=
  match find_peer_ Y (uuid peer) with
  | None => (inl SbUnknownPeer, Y)
  | Some p => let '(Y, dropped) := compact_loop p floor Y (seqZ 0 (key_count_ Y)) 0 in (inr dropped, Y)
  end.

Definition empty_sync (c : ScuttlebuttConfig) : ScuttlebuttSync :=
  mkSync c (replicate (Z.to_nat MaxPeers) zero_uuid) (replicate (Z.to_nat MaxKeys) no_key_slot) (replicate (Z.to_nat MaxPeers) (replicate (Z.to_nat MaxKeys) 0)) 0 0 0 0.

Fixpoint add_peers (Y : ScuttlebuttSync) (l : list CogIdentity) : result ScuttlebuttSync :=
  match l with
  | [] => Ok Y
  | p :: l => match add_peer Y p with (inr _, Y) => add_peers Y l | (inl _, _) => Fatal "add_peer(peer).has_value()" end
  end.

Definition mint_scuttlebutt (local_peer : CogIdentity) (initial_peers : list CogIdentity) (c : ScuttlebuttConfig) : result ScuttlebuttSync :=
  add_peers (empty_sync c) (local_peer :: initial_peers).

(** ** The operations on a replicated state *)

Section State.
Context {State A U Q R : Type} `{!Crdt State A U Q R} (cookie : Z).

Definition publish_local_change (Y : ScuttlebuttSync) (key : ScuttlebuttKey) (state : State) : expected (ScuttlebuttDelta State) ScuttlebuttError * ScuttlebuttSync :=
  match require_key_ cookie Y key with
  | inl e => (inl e, Y)
  | inr k =>
      let version := version_at Y kLocalIndex k in
      if version =? UINT64_MAX then (inl SbVersionOverflow, Y)
      else
        let Y := set_version Y kLocalIndex k (version + 1) in
        let Y := set_counts Y (u64 (publish_count_ Y + 1)) (merge_count_ Y) in
        (inr (mkDelta (aget zero_uuid (sb_peers_ Y) kLocalIndex) key (version + 1) state), Y)
  end.

Definition delta_for_request (Y : ScuttlebuttSync) (request : ScuttlebuttVersionEntry) (state : State) : expected (ScuttlebuttDelta State) ScuttlebuttError :=
  match find_peer_ Y (ve_origin request) with
  | None => inl SbUnknownPeer
  | Some p =>
      match require_key_ cookie Y (ve_key request) with
      | inl e => inl e
      | inr k =>
          let local_version := version_at Y p k in
          if (local_version <? ve_version request) || (local_version =? 0) then inl SbNotAvailable
          else inr (mkDelta (ve_origin request) (ve_key request) local_version state)
      end
  end.

(** The state changes only in a merge that is accepted. *)
Definition apply_delta (Y : ScuttlebuttSync) (incoming : ScuttlebuttDelta State) (state : State) : expected bool ScuttlebuttError * ScuttlebuttSync * State :=
  if is_zero (d_origin incoming) || is_empty (d_key incoming) || (d_version incoming =? 0) then (inl SbMalformedDelta, Y, state)
  else match find_peer_ Y (d_origin incoming) with
  | None => (inl SbUnknownPeer, Y, state)
  | Some p =>
      match require_key_ cookie Y (d_key incoming) with
      | inl e => (inl e, Y, state)
      | inr k =>
          if d_version incoming <=? version_at Y p k then (inr false, Y, state)
          else
            let '(state, ok) := crdt_merge state (d_state incoming) in
            if negb ok then (inl SbMergeRejected, Y, state)
            else
              let Y := set_version Y p k (d_version incoming) in
              (inr true, set_counts Y (publish_count_ Y) (u64 (merge_count_ Y + 1)), state)
      end
  end.
End State.
End Sync.
