(* ===== verification/ScuttlebuttProofs.v ===== *)
(** * ScuttlebuttProofs.v: versions tell the truth about states

    The properties of Scuttlebutt.v: the invariant of a synchroniser, the
    comparison of two digests, and a cluster of synchronisers in which deltas
    are lost, repeated and reordered. *)

From stdpp Require Import base list strings.
From Stdlib Require Import ZArith Lia.
From S2P Require Import Prelude.
From S2P Require Import Hlc.
From S2P Require Import Crdt.
From S2P Require Import SlotTable.
From S2P Require Import Swim.
From S2P Require Import SwimProofs.
From S2P Require Import HyParViewProofs.
From S2P Require Import PlumtreeProofs.
From S2P Require Import Scuttlebutt.
#[local] Open Scope Z_scope.

Lemma find_from_snoc {T} (p : T -> bool) l x i :
  find_from p (l ++ [x]) i = match find_from p l i with Some j => Some j | None => if p x then Some (i + Z.of_nat (length l)) else None end.
Proof.
  revert i. induction l as [|y l IH]; intros i; cbn [app find_from length]; [destruct (p x); [f_equal; lia|done]|]. destruct (p y); [done|]. rewrite IH. destruct (find_from p l (i + 1)); [done|]. destruct (p x); [f_equal; lia|done].
Qed.

(** ** The versions by their names *)

Definition ver (Y : ScuttlebuttSync) (o : Uuid) (k : ScuttlebuttKey) : Z :=
  match find_peer_ Y o, find_key_ Y k with Some p, Some j => version_at Y p j | _, _ => 0 end.

Definition local (Y : ScuttlebuttSync) : Uuid := aget zero_uuid (sb_peers_ Y) kLocalIndex.

Lemma find_front {T} (d : T) (p : T -> bool) arr n j : 0 <= n -> find_from p (front n arr) 0 = Some j -> 0 <= j < n /\ p (aget d arr j) = true.
Proof.
  intros Hn (x & Hj & Hl & Hp & _)%find_from_some. rewrite Z.sub_0_r in Hl. pose proof (lookup_lt_Some _ _ _ Hl) as Hlt. unfold front in Hlt. rewrite length_take in Hlt. split; [lia|].
  rewrite front_lookup in Hl by lia. unfold aget. by rewrite Hl.
Qed.

Section Proofs.
Context (MaxPeers MaxKeys : Z) (HP : slot_capacity MaxPeers) (HK : slot_capacity MaxKeys).
#[local] Set Default Proof Using "Type".

Record sb_ok (Y : ScuttlebuttSync) : Prop := {
  so_peers : Z.of_nat (length (sb_peers_ Y)) = MaxPeers;
  so_keys : Z.of_nat (length (keys_ Y)) = MaxKeys;
  so_rows : Z.of_nat (length (versions_ Y)) = MaxPeers;
  so_cols : Forall (fun r => Z.of_nat (length r) = MaxKeys) (versions_ Y);
  so_peer_count : 0 < sb_peer_count_ Y <= MaxPeers;
  so_key_count : 0 <= key_count_ Y <= MaxKeys;
  so_unique : NoDup (sb_peers Y);
  so_named : zero_uuid ∉ sb_peers Y;
  so_keys_unique : NoDup (ks_key <$> sb_keys Y);
  so_keys_named : Forall (fun s => is_empty (ks_key s) = false) (sb_keys Y);
  so_nonneg : forall p j, 0 <= p -> 0 <= j -> 0 <= version_at Y p j;
  so_rest : forall p j, 0 <= p -> 0 <= j -> sb_peer_count_ Y <= p \/ key_count_ Y <= j -> version_at Y p j = 0;
}.

Lemma find_peer_some Y o p : sb_ok Y -> find_peer_ Y o = Some p -> 0 <= p < sb_peer_count_ Y /\ aget zero_uuid (sb_peers_ Y) p = o.
Proof. intros HY Hf. pose proof (so_peer_count _ HY). destruct (find_front zero_uuid _ (sb_peers_ Y) (sb_peer_count_ Y) p ltac:(lia) Hf) as [? H1]. by apply bool_decide_eq_true in H1. Qed.

Lemma find_key_some Y k j : sb_ok Y -> find_key_ Y k = Some j -> 0 <= j < key_count_ Y /\ ks_key (aget no_key_slot (keys_ Y) j) = k.
Proof. intros HY Hf. pose proof (so_key_count _ HY). destruct (find_front no_key_slot _ (keys_ Y) (key_count_ Y) j ltac:(lia) Hf) as [? H1]. by apply bool_decide_eq_true in H1. Qed.

Lemma find_local Y : sb_ok Y -> find_peer_ Y (local Y) = Some 0.
Proof.
  intros HY. pose proof (so_peer_count _ HY). pose proof (so_peers _ HY). unfold find_peer_, local, sb_peers, front, kLocalIndex, aget. destruct (sb_peers_ Y) as [|u l]; [cbn in *; lia|]. destruct (Z.to_nat (sb_peer_count_ Y)) eqn:E; [lia|]. cbn. by rewrite bool_decide_true.
Qed.

Lemma version_set Y p j v p' j' : sb_ok Y -> 0 <= p < MaxPeers -> 0 <= j < MaxKeys -> 0 <= p' -> 0 <= j' ->
  version_at (set_version Y p j v) p' j' = if decide (p = p' /\ j = j') then v else version_at Y p' j'.
Proof.
  intros HY Hp Hj Hp' Hj'. unfold version_at, set_version. cbn [versions_]. pose proof (so_rows _ HY). rewrite aget_aset by lia. destruct (decide (p = p')) as [<-|E]; [|rewrite decide_False by tauto; done].
  assert (Hrow : Z.of_nat (length (aget [] (versions_ Y) p)) = MaxKeys).
  { unfold aget. destruct (lookup_lt_is_Some_2 (versions_ Y) (Z.to_nat p)) as [r Hr]; [lia|]. rewrite Hr. cbn. exact (Forall_lookup_1 _ _ _ _ (so_cols _ HY) Hr). }
  rewrite aget_aset by lia. destruct (decide (j = j')) as [<-|E]; [by rewrite decide_True|rewrite decide_False by tauto; done].
Qed.

Lemma set_version_ok Y p j v : sb_ok Y -> 0 <= p < sb_peer_count_ Y -> 0 <= j < key_count_ Y -> 0 <= v -> sb_ok (set_version Y p j v).
Proof.
  intros HY Hp Hj Hv. pose proof HY as [? ? ? Hcols ? ? ? ? ? ? Hnn Hrest]. split; try done; cbn [set_version versions_ sb_peer_count_ key_count_].
  - by rewrite length_aset.
  - apply Forall_insert; [done|]. rewrite length_aset. unfold aget. destruct (lookup_lt_is_Some_2 (versions_ Y) (Z.to_nat p)) as [r Hr]; [lia|]. rewrite Hr. cbn. exact (Forall_lookup_1 _ _ _ _ Hcols Hr).
  - intros p' j' ? ?. rewrite version_set by (done || lia). case_decide; [done|by apply Hnn].
  - intros p' j' ? ? Ho. rewrite version_set by (done || lia). rewrite decide_False by lia. by apply Hrest.
Qed.

Lemma ver_set Y o0 k0 p j v o k : sb_ok Y -> find_peer_ Y o0 = Some p -> find_key_ Y k0 = Some j ->
  ver (set_version Y p j v) o k = if decide (o = o0 /\ k = k0) then v else ver Y o k.
Proof.
  intros HY Ep Ej. destruct (find_peer_some Y o0 p HY Ep) as [Hp Eo0]. destruct (find_key_some Y k0 j HY Ej) as [Hj Ek0]. pose proof (so_peer_count _ HY). pose proof (so_key_count _ HY).
  unfold ver. change (find_peer_ (set_version Y p j v) o) with (find_peer_ Y o). change (find_key_ (set_version Y p j v) k) with (find_key_ Y k).
  destruct (find_peer_ Y o) as [p'|] eqn:Ep'; [|rewrite decide_False by (intros [-> ->]; congruence); done]. destruct (find_key_ Y k) as [j'|] eqn:Ej'; [|rewrite decide_False by (intros [-> ->]; congruence); done].
  destruct (find_peer_some Y o p' HY Ep') as [Hp' Eo]. destruct (find_key_some Y k j' HY Ej') as [Hj' Ek]. rewrite version_set by (done || lia).
  destruct (decide (p = p' /\ j = j')) as [[<- <-]|Hne]; [rewrite decide_True by (split; congruence); done|]. rewrite decide_False; [done|]. intros [-> ->]. apply Hne. split; congruence.
Qed.

(** ** The operations *)

Lemma add_peer_keeps Y c : sb_ok Y -> let Y' := (add_peer MaxPeers Y c).2 in sb_ok Y' /\ local Y' = local Y /\ forall o k, ver Y' o k = ver Y o k.
Proof.
  intros HY. unfold add_peer. destruct (is_zero (uuid c)) eqn:Ez; [done|]. destruct (find_peer_ Y (uuid c)) eqn:Ef; [done|]. unfold reserve_next, full. destruct (Z.leb_spec MaxPeers (sb_peer_count_ Y)); [done|]. cbn [snd].
  pose proof HY as [Hlp ? ? ? ? ? Hu Hz ? ? ? Hrest]. set (Y' := mkSync _ _ _ _ _ _ _ _). assert (El : sb_peers Y' = sb_peers Y ++ [uuid c]) by (apply front_push; lia). split_and!.
  - split; try done; cbn [Y' sb_peers_ sb_peer_count_]; [by rewrite length_aset|lia| | |intros p j ? ? ?; apply Hrest; cbn in *; lia].
    + rewrite El. apply NoDup_app. split_and!; [done| |apply NoDup_singleton]. intros x Hx Hx'. apply list_elem_of_singleton in Hx' as ->. pose proof (find_from_none _ _ _ Ef (uuid c) Hx) as E. by apply bool_decide_eq_false in E.
    + rewrite El, not_elem_of_app, list_elem_of_singleton. split; [done|]. apply is_zero_false in Ez. congruence.
  - unfold local, Y', kLocalIndex. cbn [sb_peers_]. rewrite aget_aset by lia. by rewrite decide_False by lia.
  - intros o k. unfold ver. change (find_key_ Y' k) with (find_key_ Y k). unfold find_peer_ at 1. rewrite El, find_from_snoc. fold (find_peer_ Y o). destruct (find_peer_ Y o) as [p|]; [done|].
    case_bool_decide; [|done]. destruct (find_key_ Y k) as [j|] eqn:Ej; [|done]. destruct (find_key_some Y k j HY Ej) as [? _]. pose proof (front_length (sb_peer_count_ Y) (sb_peers_ Y) ltac:(lia)). apply (Hrest (0 + Z.of_nat (length (sb_peers Y))) j); unfold sb_peers; lia.
Qed.

Lemma register_keeps ck Y key : sb_ok Y -> let Y' := (register_state MaxKeys ck Y key).2 in sb_ok Y' /\ local Y' = local Y /\ forall o k, ver Y' o k = ver Y o k.
Proof.
  intros HY. unfold register_state. destruct (is_empty key) eqn:Ez; [done|]. destruct (find_key_ Y key) eqn:Ef; [by destruct (negb _)|]. unfold reserve_next, full. destruct (Z.leb_spec MaxKeys (key_count_ Y)); [done|]. cbn [snd].
  pose proof HY as [? Hlk ? ? ? ? ? ? Hu Hz ? Hrest]. set (Y' := mkSync _ _ _ _ _ _ _ _). assert (El : sb_keys Y' = sb_keys Y ++ [mkKeySlot key ck]) by (apply front_push; lia). split_and!.
  - split; try done; cbn [Y' keys_ key_count_]; [by rewrite length_aset|lia| | |intros p j ? ? ?; apply Hrest; cbn in *; lia].
    + rewrite El, fmap_app. apply NoDup_app. split_and!; [done| |apply NoDup_singleton]. intros x Hx Hx'. apply list_elem_of_singleton in Hx' as ->. apply list_elem_of_fmap_1 in Hx as (s & E & Hs). pose proof (find_from_none _ _ _ Ef s Hs) as E'. apply bool_decide_eq_false in E'. cbn in E. congruence.
    + rewrite El. apply Forall_app. split; [done|]. by constructor.
  - done.
  - intros o k. unfold ver. change (find_peer_ Y' o) with (find_peer_ Y o). unfold find_key_ at 1. rewrite El, find_from_snoc. fold (find_key_ Y k). destruct (find_peer_ Y o) as [p|] eqn:Ep; [|done]. destruct (find_key_ Y k) as [j|]; [done|].
    case_bool_decide; [|done]. destruct (find_peer_some Y o p HY Ep) as [? _]. pose proof (front_length (key_count_ Y) (keys_ Y) ltac:(lia)). apply (Hrest p (0 + Z.of_nat (length (sb_keys Y)))); unfold sb_keys; lia.
Qed.

Lemma ver_nonneg Y o k : sb_ok Y -> 0 <= ver Y o k.
Proof.
  intros HY. unfold ver. destruct (find_peer_ Y o) as [p|] eqn:Ep; [|done]. destruct (find_key_ Y k) as [j|] eqn:Ej; [|done]. apply find_peer_some in Ep; [|done]. apply find_key_some in Ej; [|done]. apply (so_nonneg _ HY); lia.
Qed.

Lemma require_key_some ck Y k j : require_key_ ck Y k = inr j -> find_key_ Y k = Some j.
Proof. unfold require_key_. destruct (find_key_ Y k); [|done]. by destruct (negb _); intros [= ->]. Qed.

Lemma set_counts_keeps Y a b : sb_ok Y -> sb_ok (set_counts Y a b) /\ (forall o k, ver (set_counts Y a b) o k = ver Y o k).
Proof. intros []. split; [by split|done]. Qed.

(** The versions that a compaction to [floor] leaves. *)
Definition drop_below (floor v : Z) : Z := if negb (v =? 0) && (v <? floor) then 0 else v.

Lemma compact_loop_ok p floor ks Y n : sb_ok Y -> 0 <= p < sb_peer_count_ Y -> Forall (fun j => 0 <= j < key_count_ Y) ks ->
  let Y' := (compact_loop p floor Y ks n).1 in
  sb_ok Y' /\ sb_peers_ Y' = sb_peers_ Y /\ keys_ Y' = keys_ Y /\ sb_peer_count_ Y' = sb_peer_count_ Y /\ key_count_ Y' = key_count_ Y /\
  forall p' j, 0 <= p' -> 0 <= j -> version_at Y' p' j = if decide (p' = p /\ j ∈ ks) then drop_below floor (version_at Y p' j) else version_at Y p' j.
Proof.
  revert Y n. induction ks as [|j0 ks IH]; intros Y n HY Hp Hks; cbn [compact_loop].
  { split_and!; try done. intros p' j _ _. rewrite decide_False; [done|]. intros [_ H]. by apply not_elem_of_nil in H. }
  inversion_clear Hks as [|? ? Hj0 Hks']. pose proof (so_peer_count _ HY). pose proof (so_key_count _ HY).
  set (Y1 := set_version Y p j0 0). assert (HY1 : sb_ok Y1) by (by apply set_version_ok). destruct (negb _ && _) eqn:Ed.
  - destruct (IH Y1 (u16 (n + 1)) HY1 Hp Hks') as (K1 & K2 & K3 & K4 & K5 & K6). split_and!; try done. intros p' j Hp' Hj. rewrite K6 by done. unfold Y1. rewrite version_set by (done || lia).
    destruct (decide (p = p' /\ j0 = j)) as [[<- <-]|Hne].
    + rewrite (decide_True (P := p = p /\ j0 ∈ j0 :: ks)) by (split; [done|constructor]). unfold drop_below at 2. rewrite Ed. by case_decide.
    + destruct (decide (p' = p /\ j ∈ ks)) as [[-> Hin]|Hn]; [rewrite decide_True by (split; [done|by constructor]); done|]. rewrite decide_False; [done|]. intros [-> [->|Hin]%elem_of_cons]; tauto.
  - destruct (IH Y n HY Hp Hks') as (K1 & K2 & K3 & K4 & K5 & K6). split_and!; try done. intros p' j Hp' Hj. rewrite K6 by done.
    destruct (decide (p' = p /\ j ∈ ks)) as [[-> Hin]|Hn]; [rewrite decide_True by (split; [done|by constructor]); done|]. destruct (decide (p' = p /\ j ∈ j0 :: ks)) as [[-> [->|Hin]%elem_of_cons]|]; [|tauto|done]. unfold drop_below. by rewrite Ed.
Qed.

Lemma compact_keeps Y c floor : sb_ok Y -> let Y' := (compact_peer_versions Y c floor).2 in
  sb_ok Y' /\ local Y' = local Y /\ forall o k, ver Y' o k = if decide (o = uuid c) then drop_below floor (ver Y o k) else ver Y o k.
Proof.
  intros HY. unfold compact_peer_versions. destruct (find_peer_ Y (uuid c)) as [p|] eqn:Ep.
  2: { split_and!; [done|done|]. intros o k. cbn [snd]. destruct (decide (o = uuid c)) as [->|]; [|done]. unfold ver. by rewrite Ep. }
  destruct (find_peer_some Y _ p HY Ep) as [Hp Ec]. pose proof (compact_loop_ok p floor (seqZ 0 (key_count_ Y)) Y 0 HY Hp) as H. destruct (compact_loop _ _ _ _ _) as [Y' n]. cbn [fst snd] in *. destruct H as (K1 & K2 & K3 & K4 & K5 & K6); [apply Forall_forall; intros j Hj; apply elem_of_seqZ in Hj; lia|].
  assert (Ef : forall o, find_peer_ Y' o = find_peer_ Y o) by (intros o; unfold find_peer_, sb_peers; by rewrite K2, K4). assert (Eg : forall k, find_key_ Y' k = find_key_ Y k) by (intros k; unfold find_key_, sb_keys; by rewrite K3, K5).
  split_and!; [done|unfold local; by rewrite K2|]. intros o k. unfold ver. rewrite Ef, Eg. destruct (find_peer_ Y o) as [p'|] eqn:Eo; [|by case_decide]. destruct (find_key_ Y k) as [j|] eqn:Ek; [|by case_decide].
  destruct (find_peer_some Y o p' HY Eo) as [Hp' Eo']. destruct (find_key_some Y k j HY Ek) as [Hj _]. rewrite K6 by lia. destruct (decide (o = uuid c)) as [->|Hne].
  - rewrite decide_True; [done|]. split; [congruence|apply elem_of_seqZ; lia].
  - rewrite decide_False; [done|]. intros [-> _]. congruence.
Qed.

Lemma add_peers_ok l Y Y' : sb_ok Y -> add_peers MaxPeers Y l = Ok Y' -> sb_ok Y' /\ local Y' = local Y /\ forall o k, ver Y' o k = ver Y o k.
Proof.
  revert Y. induction l as [|p l IH]; intros Y HY E; cbn [add_peers] in E; [by injection E as <-|]. pose proof (add_peer_keeps Y p HY) as Hk. destruct (add_peer MaxPeers Y p) as [[e|u] Y1]; [done|]. destruct Hk as (H1 & H2 & H3). destruct (IH Y1 H1 E) as (K1 & K2 & K3). split_and!; [done|by rewrite K2|]. intros o k. by rewrite K3, H3.
Qed.

Lemma mint_sync_ok p ps c Y : mint_scuttlebutt MaxPeers MaxKeys p ps c = Ok Y -> sb_ok Y /\ local Y = uuid p /\ forall o k, ver Y o k = 0.
Proof using HP HK.
  unfold mint_scuttlebutt. cbn [add_peers]. unfold add_peer. cbn -[add_peers empty_sync is_zero]. destruct (is_zero (uuid p)) eqn:Ez; [done|]. destruct HP as [HP1 HP2], HK as [HK1 HK2]. unfold reserve_next, full. cbn [empty_sync sb_peer_count_]. rewrite (proj2 (Z.leb_gt _ _)) by lia. set (Y1 := mkSync _ _ _ _ _ _ _ _). intros E.
  assert (Ev : forall p' j, version_at Y1 p' j = 0).
  { intros p' j. unfold version_at, aget. cbn. destruct (replicate _ _ !! Z.to_nat p') as [r|] eqn:Er; [|done]. apply lookup_replicate in Er as [-> _]. cbn. destruct (replicate _ _ !! Z.to_nat j) as [r|] eqn:Er; [|done]. by apply lookup_replicate in Er as [-> _]. }
  assert (El : sb_peers Y1 = [uuid p]). { change 1 with (0 + 1). change (sb_peers Y1) with (front (0 + 1) (aset (replicate (Z.to_nat MaxPeers) zero_uuid) 0 (uuid p))). rewrite front_push by (rewrite length_replicate; lia). done. }
  assert (H1 : sb_ok Y1).
  { split; try (rewrite El); try (cbn; rewrite ?length_aset, ?length_replicate; lia).
    - apply Forall_replicate. rewrite length_replicate. lia.
    - apply NoDup_singleton.
    - rewrite list_elem_of_singleton. apply is_zero_false in Ez. congruence.
    - apply NoDup_nil_2.
    - constructor.
    - intros. by rewrite Ev.
    - intros. apply Ev. }
  destruct (add_peers_ok ps Y1 Y H1 E) as (K1 & K2 & K3). split_and!; [done| |].
  - rewrite K2. unfold local, Y1, kLocalIndex. cbn [sb_peers_ empty_sync]. rewrite aget_aset by (rewrite ?length_replicate; lia). by rewrite decide_True.
  - intros o k. rewrite K3. unfold ver. destruct (find_peer_ Y1 o); [|done]. destruct (find_key_ Y1 k); [|done]. apply Ev.
Qed.

(** ** Digests *)

Abbreviation cell_of e := (ve_origin e, ve_key e).
Definition distinct (l : list ScuttlebuttVersionEntry) : Prop := NoDup ((fun e => cell_of e) <$> l).

Lemma same_cell_true o k e : same_cell o k e = true <-> cell_of e = (o, k).
Proof. unfold same_cell. rewrite andb_true_iff, !bool_decide_eq_true. split; [intros [-> ->]; done|by intros [= -> ->]]. Qed.

Lemma distinct_skip a e l : distinct (a ++ e :: l) -> distinct (a ++ l).
Proof. unfold distinct. rewrite !fmap_app, fmap_cons, !NoDup_app, NoDup_cons. intros (H1 & H2 & H3 & H4). split_and!; [done| |done]. intros x Hx Hx'. apply (H2 x Hx). apply elem_of_cons. by right. Qed.

Lemma distinct_fresh a e l : distinct (a ++ e :: l) -> forall e', e' ∈ a -> same_cell (ve_origin e) (ve_key e) e' = false.
Proof.
  unfold distinct. rewrite fmap_app, fmap_cons, NoDup_app. intros (_ & H & _) e' He'. apply not_true_is_false. intros E%same_cell_true. apply (H (cell_of e')); [by apply (list_elem_of_fmap_2 (fun e => cell_of e))|]. rewrite E. constructor.
Qed.

Lemma distinct_filter P `{!forall e, Decision (P e)} l : distinct l -> distinct (filter P l).
Proof. intros Hd. unfold distinct in *. eapply sublist_NoDup; [exact Hd|]. apply fmap_sublist, sublist_filter. Qed.

Abbreviation cap := (MaxPeers * MaxKeys).

Lemma upsert_fresh t e l : table_ok cap t -> distinct (live t ++ e :: l) -> Z.of_nat (length (live t) + length (e :: l)) <= cap ->
  exists t', upsert_ MaxPeers MaxKeys t e = (t', true) /\ table_ok cap t' /\ live t' = live t ++ [e].
Proof.
  intros [Hl Hc] Hd Hle. unfold upsert_. rewrite find_from_is_none by (by eapply distinct_fresh). assert (El : Z.of_nat (length (live t)) = count t) by (apply front_length; lia). cbn [length] in Hle. unfold reserve_next, full. rewrite (proj2 (Z.leb_gt _ _)) by lia.
  eexists. split_and!; [done|split; cbn; [by rewrite length_aset|lia]|apply front_push; lia].
Qed.

(** The entries of a node, and the digest that holds those with a version. *)
Definition entries (Y : ScuttlebuttSync) : list ScuttlebuttVersionEntry := cell_entry Y <$> cells Y.

Lemma digest_fold Y l out : table_ok cap out -> distinct (live out ++ (cell_entry Y <$> l)) -> Z.of_nat (length (live out) + length l) <= cap -> Forall (fun e => names_nothing e = false) (cell_entry Y <$> l) ->
  let t := fold_left (fun out c => (digest_push MaxPeers MaxKeys out (cell_entry Y c)).1) l out in
  table_ok cap t /\ live t = live out ++ filter (fun e => ve_version e <> 0) (cell_entry Y <$> l).
Proof.
  revert out. induction l as [|c l IH]; intros out Ho Hd Hle Hn; cbn [fold_left fmap list_fmap length] in *; [by rewrite filter_nil, app_nil_r|]. apply Forall_cons in Hn as [Hn1 Hn2]. rewrite filter_cons. unfold digest_push at 2 4. destruct (Z.eqb_spec (ve_version (cell_entry Y c)) 0) as [E|E].
  - rewrite decide_False by (by intros H). apply IH; [done|by eapply distinct_skip|lia|done].
  - rewrite decide_True by done. rewrite Hn1. destruct (upsert_fresh out (cell_entry Y c) (cell_entry Y <$> l) Ho Hd) as (t' & -> & Ht' & El); [cbn; rewrite length_fmap; lia|]. cbn [fst].
    destruct (IH t' Ht') as [K1 K2]; [rewrite El, <- app_assoc; done|rewrite El, length_app; cbn; lia|done|]. split; [done|]. by rewrite K2, El, <- app_assoc.
Qed.

Lemma request_fold Y l out : table_ok cap out -> distinct (live out ++ l) -> Z.of_nat (length (live out) + length l) <= cap ->
  Forall (fun e => ve_version e <> 0 /\ names_nothing e = false /\ is_Some (find_peer_ Y (ve_origin e)) /\ is_Some (find_key_ Y (ve_key e))) l ->
  exists t, request_entries MaxPeers MaxKeys Y l out = inr t /\ live t = live out ++ filter (fun e => ver Y (ve_origin e) (ve_key e) < ve_version e) l.
Proof.
  revert out. induction l as [|e l IH]; intros out Ho Hd Hle Hn; cbn [request_entries length] in *; [exists out; by rewrite filter_nil, app_nil_r|]. apply Forall_cons in Hn as [(Hv & Hn1 & [p Ep] & [j Ej]) Hn2]. rewrite filter_cons. rewrite Ep, Ej. replace (version_at Y p j) with (ver Y (ve_origin e) (ve_key e)) by (unfold ver; by rewrite Ep, Ej).
  destruct (Z.ltb_spec (ver Y (ve_origin e) (ve_key e)) (ve_version e)) as [Hlt|Hge].
  - rewrite decide_True by done. unfold request_push. rewrite Hn1, orb_false_r, (proj2 (Z.eqb_neq _ _) Hv). destruct (upsert_fresh out e l Ho Hd) as (t' & -> & Ht' & El); [done|].
    destruct (IH t' Ht') as (t & K1 & K2); [rewrite El, <- app_assoc; done|rewrite El, length_app; cbn; lia|done|]. exists t. split; [done|]. by rewrite K2, El, <- app_assoc.
  - rewrite decide_False by lia. apply IH; [done|by eapply distinct_skip|lia|done].
Qed.

Lemma offer_fold Y inc l out : table_ok cap out -> distinct (live out ++ (cell_entry Y <$> l)) -> Z.of_nat (length (live out) + length l) <= cap -> Forall (fun e => names_nothing e = false) (cell_entry Y <$> l) ->
  exists t, offer_cells MaxPeers MaxKeys Y inc l out = inr t /\ live t = live out ++ filter (fun e => ve_version e <> 0 /\ version_in_digest_ inc (ve_origin e) (ve_key e) < ve_version e) (cell_entry Y <$> l).
Proof.
  revert out. induction l as [|c l IH]; intros out Ho Hd Hle Hn; cbn [offer_cells fmap list_fmap length] in *; [exists out; by rewrite filter_nil, app_nil_r|]. apply Forall_cons in Hn as [Hn1 Hn2]. rewrite filter_cons. set (e := cell_entry Y c) in *. assert (Hskip : distinct (live out ++ (cell_entry Y <$> l))) by (by eapply distinct_skip).
  destruct (Z.eqb_spec (ve_version e) 0) as [E|E]; [rewrite decide_False by tauto; apply IH; [done|done|lia|done]|]. destruct (Z.ltb_spec (version_in_digest_ inc (ve_origin e) (ve_key e)) (ve_version e)) as [Hlt|Hge]; [|rewrite decide_False by lia; apply IH; [done|done|lia|done]].
  rewrite decide_True by done. unfold request_push. rewrite Hn1, orb_false_r, (proj2 (Z.eqb_neq _ _) E). destruct (upsert_fresh out e (cell_entry Y <$> l) Ho Hd) as (t' & -> & Ht' & El); [cbn; rewrite length_fmap; lia|].
  destruct (IH t' Ht') as (t & K1 & K2); [rewrite El, <- app_assoc; done|rewrite El, length_app; cbn; lia|done|]. exists t. split; [done|]. by rewrite K2, El, <- app_assoc.
Qed.

Lemma well_formed_spec l : distinct l -> Forall (fun e => ve_version e <> 0 /\ names_nothing e = false) l -> well_formed_from l = true.
Proof.
  intros Hd Hn. induction l as [|e l IH]; [done|]. cbn. apply Forall_cons in Hn as [[Hv Hn1] Hn2]. rewrite Hn1, orb_false_r, (proj2 (Z.eqb_neq _ _) Hv). destruct (existsb _ l) eqn:E; [|apply IH; [by eapply (distinct_skip []), Hd|done]].
  apply existsb_exists in E as (e' & He' & E%same_cell_true). unfold distinct in Hd. rewrite fmap_cons, NoDup_cons in Hd. exfalso. apply Hd. rewrite <- E. apply (list_elem_of_fmap_2 (fun e => cell_of e)). by apply list_elem_of_In.
Qed.

Lemma find_unique {T B} (f : T -> B) `{!EqDecision B} (d : T) arr n i : 0 <= n <= Z.of_nat (length arr) -> NoDup (f <$> front n arr) -> 0 <= i < n ->
  find_from (fun u => bool_decide (f u = f (aget d arr i))) (front n arr) 0 = Some i.
Proof.
  intros Hn Hu Hi. pose proof (front_length n arr Hn) as Hl. destruct (lookup_lt_is_Some_2 (front n arr) (Z.to_nat i)) as [x Hx]; [lia|]. assert (Ex : aget d arr i = x) by (rewrite front_lookup in Hx by lia; unfold aget; by rewrite Hx). rewrite Ex.
  destruct (find_from _ _ _) as [j|] eqn:E.
  - apply find_from_some in E as (y & Hj & Hy & Ey & _). apply bool_decide_eq_true in Ey. rewrite Z.sub_0_r in Hy. f_equal. enough (Z.to_nat j = Z.to_nat i) by lia. eapply NoDup_lookup; [exact Hu| |]; rewrite list_lookup_fmap, ?Hy, ?Hx; cbn; by rewrite ?Ey.
  - pose proof (find_from_none _ _ _ E x) as H. cbn in H. rewrite bool_decide_true in H by done. by specialize (H ltac:(by eapply list_elem_of_lookup_2)).
Qed.

Lemma cell_found Y p j : sb_ok Y -> 0 <= p < sb_peer_count_ Y -> 0 <= j < key_count_ Y -> let e := cell_entry Y (p, j) in
  find_peer_ Y (ve_origin e) = Some p /\ find_key_ Y (ve_key e) = Some j /\ ve_version e = ver Y (ve_origin e) (ve_key e) /\ names_nothing e = false.
Proof.
  intros HY Hp Hj e. pose proof HY as [Hlp Hlk _ _ Hpc Hkc Hu Hz Hku Hkz _ _].
  assert (Ep : find_peer_ Y (ve_origin e) = Some p) by (apply (find_unique id zero_uuid); [lia|by rewrite list_fmap_id|done]). assert (Ej : find_key_ Y (ve_key e) = Some j) by (apply (find_unique ks_key no_key_slot); [lia|done|done]).
  split_and!; [done|done|unfold ver; by rewrite Ep, Ej|]. unfold names_nothing. apply orb_false_iff. split.
  - apply is_zero_false. intros E. apply Hz. rewrite <- E. cbn. apply (list_elem_of_lookup_2 _ (Z.to_nat p)). unfold sb_peers. rewrite front_lookup by lia. destruct (lookup_lt_is_Some_2 (sb_peers_ Y) (Z.to_nat p)) as [x Hx]; [lia|]. unfold aget. by rewrite Hx.
  - cbn. apply (Forall_lookup_1 _ _ (Z.to_nat j) _ Hkz). unfold sb_keys. rewrite front_lookup by lia. destruct (lookup_lt_is_Some_2 (keys_ Y) (Z.to_nat j)) as [x Hx]; [lia|]. unfold aget. by rewrite Hx.
Qed.

Lemma elem_of_cells Y p j : (p, j) ∈ cells Y <-> 0 <= p < sb_peer_count_ Y /\ 0 <= j < key_count_ Y.
Proof.
  unfold cells. rewrite list_elem_of_bind. split.
  - intros (p' & H & Hp'%elem_of_seqZ). apply list_elem_of_fmap_1 in H as (j' & [= -> ->] & Hj'%elem_of_seqZ). lia.
  - intros [Hp Hj]. exists p. split; [apply (list_elem_of_fmap_2 (fun k => (p, k))), elem_of_seqZ; lia|apply elem_of_seqZ; lia].
Qed.

Lemma cells_length Y : sb_ok Y -> Z.of_nat (length (cells Y)) <= cap.
Proof.
  intros HY. pose proof (so_peer_count _ HY). pose proof (so_key_count _ HY). unfold cells. set (ks := seqZ 0 (key_count_ Y)). assert (H' : forall l : list Z, length (l ≫= fun p => (fun k => (p, k)) <$> ks) = (length l * length ks)%nat) by (induction l as [|p l IH]; [done|]; cbn; by rewrite length_app, length_fmap, IH).
  rewrite H'. unfold ks. rewrite !length_seqZ. nia.
Qed.

Lemma entries_distinct Y : sb_ok Y -> distinct (entries Y).
Proof.
  intros HY. unfold distinct, entries. rewrite <- list_fmap_compose. apply NoDup_fmap_2_strong.
  - intros [p j] [p' j'] H1%elem_of_cells H2%elem_of_cells E. destruct (cell_found Y p j HY) as (F1 & F2 & _); [tauto|tauto|]. destruct (cell_found Y p' j' HY) as (G1 & G2 & _); [tauto|tauto|]. change (cell_of (cell_entry Y (p, j)) = cell_of (cell_entry Y (p', j'))) in E. pose proof (f_equal fst E) as E1. pose proof (f_equal snd E) as E2. cbn [fst snd] in E1, E2. rewrite E1 in F1. rewrite E2 in F2. congruence.
  - apply NoDup_bind; [|intros p _; apply NoDup_fmap_2; [by intros ? ? [=]|apply NoDup_seqZ]|apply NoDup_seqZ]. intros p1 p2 y _ _ H1 H2. apply list_elem_of_fmap_1 in H1 as (? & -> & _). by apply list_elem_of_fmap_1 in H2 as (? & [= ->] & _).
Qed.

Lemma elem_of_entries Y e : sb_ok Y -> e ∈ entries Y <-> ve_version e = ver Y (ve_origin e) (ve_key e) /\ is_Some (find_peer_ Y (ve_origin e)) /\ is_Some (find_key_ Y (ve_key e)).
Proof.
  intros HY. split.
  - intros ([p j] & -> & Hc%elem_of_cells)%list_elem_of_fmap_1. destruct (cell_found Y p j HY) as (F1 & F2 & F3 & _); [tauto|tauto|]. rewrite F1, F2. done.
  - intros (Ev & [p Ep] & [j Ej]). destruct (find_peer_some Y _ p HY Ep) as [Hp Eo]. destruct (find_key_some Y _ j HY Ej) as [Hj Ek]. apply list_elem_of_fmap. exists (p, j). split; [|by apply elem_of_cells]. unfold cell_entry. cbn. rewrite Eo, Ek. unfold ver in Ev. rewrite Ep, Ej in Ev. rewrite <- Ev. by destruct e.
Qed.

Lemma entries_named Y : sb_ok Y -> Forall (fun e => names_nothing e = false) (entries Y).
Proof. intros HY. apply Forall_forall. intros e ([p j] & -> & Hc%elem_of_cells)%list_elem_of_fmap_1. apply (cell_found Y p j HY); tauto. Qed.

Lemma sync_digest_ok Y : sb_ok Y -> table_ok cap (digest MaxPeers MaxKeys Y) /\ live (digest MaxPeers MaxKeys Y) = filter (fun e => ve_version e <> 0) (entries Y).
Proof using HP HK.
  intros HY. destruct (empty_table_ok cap no_entry) as [He Hl]; [destruct HP, HK; nia|]. pose proof (digest_fold Y (cells Y) (empty_entries MaxPeers MaxKeys) He) as H. unfold empty_entries in H at 1 3. rewrite Hl in H. apply H; [by apply entries_distinct|by apply cells_length|by apply entries_named].
Qed.

Lemma unknown_ver Y o k : ver Y o k <> 0 -> is_Some (find_peer_ Y o) /\ is_Some (find_key_ Y k).
Proof. unfold ver. destruct (find_peer_ Y o), (find_key_ Y k); done. Qed.

Lemma elem_of_digest Y e : sb_ok Y -> e ∈ live (digest MaxPeers MaxKeys Y) <-> ve_version e <> 0 /\ ve_version e = ver Y (ve_origin e) (ve_key e).
Proof using HP HK.
  intros HY. rewrite (proj2 (sync_digest_ok Y HY)), list_elem_of_filter, elem_of_entries by done. split; [tauto|]. intros [Hv E]. split_and!; try done; apply (unknown_ver Y (ve_origin e) (ve_key e)); by rewrite <- E.
Qed.

Lemma version_in_digest_ok Y o k : sb_ok Y -> version_in_digest_ (digest MaxPeers MaxKeys Y) o k = ver Y o k.
Proof using HP HK.
  intros HY. unfold version_in_digest_. destruct (sync_digest_ok Y HY) as [[Ht1 Ht2] _]. set (t := digest MaxPeers MaxKeys Y) in *. destruct (find_from _ _ _) as [i|] eqn:E.
  - destruct (find_front no_entry _ (slots t) (count t) i ltac:(lia) E) as [Hi E'%same_cell_true]. assert (Hin : aget no_entry (slots t) i ∈ live t).
    { apply (list_elem_of_lookup_2 _ (Z.to_nat i)). unfold live. fold (front (count t) (slots t)). rewrite front_lookup by lia. destruct (lookup_lt_is_Some_2 (slots t) (Z.to_nat i)) as [x Hx]; [lia|]. unfold aget. by rewrite Hx. }
    apply elem_of_digest in Hin as [_ Ev]; [|done]. injection E' as E1 E2. by rewrite Ev, E1, E2.
  - destruct (decide (ver Y o k = 0)) as [|Hne]; [done|]. pose proof (find_from_none _ _ _ E (mkEntry o k (ver Y o k))) as Hn. assert (Hin : mkEntry o k (ver Y o k) ∈ live t) by (by apply elem_of_digest). specialize (Hn Hin). exfalso. revert Hn. apply not_false_iff_true. by apply same_cell_true.
Qed.

(** C34: the comparison with the digest of another node asks for exactly the versions that the other has newer and offers exactly those that this node has newer, each once, when this node knows the peers and the keys that the other has versions of; it is never cut short. *)
Theorem scuttlebutt_diff_exact Y Y' : sb_ok Y -> sb_ok Y' -> (forall o k, ver Y' o k <> 0 -> is_Some (find_peer_ Y o) /\ is_Some (find_key_ Y k)) ->
  exists d, compare_digest MaxPeers MaxKeys Y (digest MaxPeers MaxKeys Y') = inr d /\ distinct (live (requests d)) /\ distinct (live (offers d)) /\
    (forall e, e ∈ live (requests d) <-> ve_version e = ver Y' (ve_origin e) (ve_key e) /\ ver Y (ve_origin e) (ve_key e) < ve_version e) /\
    (forall e, e ∈ live (offers d) <-> ve_version e = ver Y (ve_origin e) (ve_key e) /\ ver Y' (ve_origin e) (ve_key e) < ve_version e).
Proof using HP HK.
  intros HY HY' Hk. destruct (sync_digest_ok Y' HY') as [[Ht1 Ht2] El]. set (t := digest MaxPeers MaxKeys Y') in *. assert (Hcap : 0 < cap) by (destruct HP, HK; nia). destruct (empty_table_ok cap no_entry Hcap) as [He Hl].
  assert (Hd : distinct (live t)) by (rewrite El; by apply distinct_filter, entries_distinct). assert (Hlt : Z.of_nat (length (live t)) = count t) by (apply front_length; lia).
  assert (Hall : Forall (fun e => ve_version e <> 0 /\ names_nothing e = false) (live t)) by (rewrite El; apply Forall_forall; intros e [Hv Hin]%list_elem_of_filter; split; [done|exact (proj1 (Forall_forall _ _) (entries_named Y' HY') e Hin)]).
  unfold compare_digest, well_formed, empty_entries. rewrite (well_formed_spec _ Hd Hall). cbn [negb].
  destruct (request_fold Y (live t) (empty_table cap no_entry) He) as (req & -> & Er); rewrite ?Hl; [done|cbn [length]; lia| |].
  { apply Forall_forall. intros e Hin. pose proof (proj1 (Forall_forall _ _) Hall e Hin) as [Hv Hn]. apply elem_of_digest in Hin as [_ Ev]; [|done]. split; [done|]. split; [done|]. apply Hk. by rewrite <- Ev. }
  destruct (offer_fold Y t (cells Y) (empty_table cap no_entry) He) as (off & -> & Eo); rewrite ?Hl; [by apply entries_distinct|cbn [length]; by apply cells_length|by apply entries_named|].
  rewrite Hl in Er, Eo. cbn [app] in Er, Eo. eexists. split; [done|]. cbn [requests offers]. rewrite Er, Eo. split_and!; [by apply distinct_filter|by apply distinct_filter, entries_distinct| |].
  - intros e. unfold t. rewrite list_elem_of_filter, elem_of_digest by done. pose proof (ver_nonneg Y (ve_origin e) (ve_key e) HY). split; [tauto|]. intros [? ?]. split_and!; [done|lia|done].
  - intros e. fold (entries Y). rewrite list_elem_of_filter, elem_of_entries by done. unfold t. rewrite version_in_digest_ok by done. pose proof (ver_nonneg Y' (ve_origin e) (ve_key e) HY'). split; [tauto|]. intros [Ev Hlt']. assert (Hne : ve_version e <> 0) by lia. split_and!; try done; apply (unknown_ver Y (ve_origin e) (ve_key e)); by rewrite <- Ev.
Qed.

(** ** The cluster *)

Section Cluster.
Context {State A U Q R : Type} `{!Crdt State A U Q R} (cookie : Z).

(** A node holds a synchroniser and a state for each key; [deltas] are those
    that were ever produced, each of which may arrive at any node, any number
    of times, in any order, or not at all; [published] are those of the
    publications, kept to state the properties. *)
Record sb_node := mkNode { sy : ScuttlebuttSync; st : ScuttlebuttKey -> State }.
Record sb_world := mkWorld { nodes : list sb_node; deltas : list (ScuttlebuttDelta State); published : list (ScuttlebuttDelta State) }.

Inductive sb_call :=
| SJoin (n : nat) (p : CogIdentity)
| SRegister (n : nat) (k : ScuttlebuttKey) (ck : Z)
| SWrite (n : nat) (k : ScuttlebuttKey) (u : U)
| SPublish (n : nat) (k : ScuttlebuttKey)
| SServe (n : nat) (request : ScuttlebuttVersionEntry)
| SApply (n : nat) (i : nat)
| SCompact (n : nat) (p : CogIdentity) (floor : Z).

Definition set_st (x : sb_node) (Y : ScuttlebuttSync) (k : ScuttlebuttKey) (s : State) : sb_node := mkNode Y (fun k' => if decide (k' = k) then s else st x k').
Definition set_node (w : sb_world) (n : nat) (x : sb_node) : sb_world := mkWorld (<[n := x]> (nodes w)) (deltas w) (published w).

Definition call_node (c : sb_call) : nat :=
  match c with SJoin n _ | SRegister n _ _ | SWrite n _ _ | SPublish n _ | SServe n _ | SApply n _ | SCompact n _ _ => n end.

Definition sb_do (w : sb_world) (n : nat) (x : sb_node) (c : sb_call) : sb_world :=
  match c with
  | SJoin _ p => set_node w n (mkNode (add_peer MaxPeers (sy x) p).2 (st x))
  | SRegister _ k ck => set_node w n (mkNode (register_state MaxKeys ck (sy x) k).2 (st x))
  | SWrite _ k u => set_node w n (set_st x (sy x) k (crdt_update (st x k) u).1)
  | SPublish _ k =>
      match publish_local_change cookie (sy x) k (st x k) with
      | (inr d, Y) => let w := set_node w n (mkNode Y (st x)) in mkWorld (nodes w) (d :: deltas w) (d :: published w)
      | (inl _, Y) => set_node w n (mkNode Y (st x))
      end
  | SServe _ r =>
      match delta_for_request cookie (sy x) r (st x (ve_key r)) with inr d => mkWorld (nodes w) (d :: deltas w) (published w) | inl _ => w end
  | SApply _ i =>
      match deltas w !! i with
      | Some d => let '(_, Y, s) := apply_delta cookie (sy x) d (st x (d_key d)) in set_node w n (set_st x Y (d_key d) s)
      | None => w
      end
  | SCompact _ p floor => set_node w n (mkNode (compact_peer_versions (sy x) p floor).2 (st x))
  end.

Definition sb_run (w : sb_world) (c : sb_call) : sb_world := match nodes w !! call_node c with Some x => sb_do w (call_node c) x c | None => w end.

Context `{!CrdtOk State A U Q R}.

Abbreviation under s s' := (below (crdt_abs s) (crdt_abs s')).

Lemma under_refl s : crdt_wf s -> under s s.
Proof using CrdtOk0. intros H. by apply join_idem. Qed.

Lemma under_trans (x y z : A) : below x y -> below y z -> below x z.
Proof using CrdtOk0. intros H1 H2. unfold below in *. by rewrite <- H2, (assoc crdt_join), H1. Qed.

Lemma publish_step Y k (s : State) : sb_ok Y ->
  match publish_local_change cookie Y k s with
  | (inl _, Y') => Y' = Y
  | (inr d, Y') => sb_ok Y' /\ local Y' = local Y /\ d = mkDelta (local Y) k (ver Y (local Y) k + 1) s /\
      forall o k', ver Y' o k' = if decide (o = local Y /\ k' = k) then ver Y (local Y) k + 1 else ver Y o k'
  end.
Proof.
  intros HY. unfold publish_local_change. destruct (require_key_ cookie Y k) as [e|j] eqn:Ej; [done|]. apply require_key_some in Ej. destruct (_ =? _); [done|]. pose proof (find_local Y HY) as Ep. destruct (find_key_some Y k j HY Ej) as [Hj _]. pose proof (so_peer_count _ HY).
  assert (Ev : version_at Y kLocalIndex j = ver Y (local Y) k) by (unfold ver; by rewrite Ep, Ej). rewrite Ev. set (Y1 := set_version Y _ _ _). assert (H1 : sb_ok Y1) by (apply set_version_ok; [done|unfold kLocalIndex; lia|done|pose proof (ver_nonneg Y (local Y) k HY); lia]).
  split_and!; [by apply set_counts_keeps|done|done|]. intros o k'. change (ver Y1 o k' = if decide (o = local Y /\ k' = k) then ver Y (local Y) k + 1 else ver Y o k'). by apply ver_set.
Qed.

Lemma serve_step Y r (s : State) d : delta_for_request cookie Y r s = inr d -> d = mkDelta (ve_origin r) (ve_key r) (ver Y (ve_origin r) (ve_key r)) s.
Proof.
  unfold delta_for_request, ver. destruct (find_peer_ Y (ve_origin r)) as [p|]; [|done]. destruct (require_key_ _ _ _) as [e|j] eqn:Ej; [done|]. apply require_key_some in Ej. rewrite Ej. destruct (_ || _); [done|]. by intros [= <-].
Qed.

Lemma apply_step Y d (s : State) : sb_ok Y -> crdt_wf s -> crdt_wf (d_state d) -> let '(_, Y', s') := apply_delta cookie Y d s in
  crdt_wf s' /\ sb_ok Y' /\ local Y' = local Y /\
  (Y' = Y /\ s' = s \/ ver Y (d_origin d) (d_key d) < d_version d /\ crdt_abs s' = crdt_join (crdt_abs s) (crdt_abs (d_state d)) /\
    forall o k, ver Y' o k = if decide (o = d_origin d /\ k = d_key d) then d_version d else ver Y o k).
Proof using CrdtOk0.
  intros HY Hs Hd. unfold apply_delta. destruct (_ || _); [split_and!; try done; by left|]. destruct (find_peer_ Y (d_origin d)) as [p|] eqn:Ep; [|split_and!; try done; by left]. destruct (require_key_ cookie Y (d_key d)) as [e|j] eqn:Ej; [split_and!; try done; by left|]. apply require_key_some in Ej.
  destruct (Z.leb_spec (d_version d) (version_at Y p j)) as [|Hlt]; [split_and!; try done; by left|]. pose proof (merge_wf _ _ Hs Hd) as Hw. pose proof (merge_join _ _ Hs Hd) as Hj. pose proof (merge_refused _ _ Hs Hd) as Hr. destruct (crdt_merge s (d_state d)) as [s' ok]. cbn [fst snd] in *. destruct ok; cbn [negb]; [|rewrite Hr by done; split_and!; try done; by left].
  destruct (find_peer_some Y _ p HY Ep) as [Hp _]. destruct (find_key_some Y _ j HY Ej) as [Hj' _]. set (Y1 := set_version Y p j _). assert (H1 : sb_ok Y1) by (apply set_version_ok; [done|done|done|pose proof (so_nonneg _ HY p j); lia]).
  split_and!; [done|by apply set_counts_keeps|done|]. right. split_and!; [unfold ver; by rewrite Ep, Ej|by apply Hj|]. intros o k. change (ver Y1 o k = if decide (o = d_origin d /\ k = d_key d) then d_version d else ver Y o k). by apply ver_set.
Qed.

(** ** The invariant of the cluster *)

Context (ids : list CogIdentity) (Hids : NoDup (uuid <$> ids)).

Abbreviation own x k := (ver (sy x) (local (sy x)) k).

Record node_ok (n : nat) (x : sb_node) : Prop := {
  no_sync : sb_ok (sy x);
  no_name : (uuid <$> ids) !! n = Some (local (sy x));
  no_state k : crdt_wf (st x k);
}.

(** A version that a node or a delta carries is one that its origin has
    reached, and its state is above what the origin published up to it. *)
Record sb_inv (w : sb_world) : Prop := {
  si_nodes n x : nodes w !! n = Some x -> node_ok n x;
  si_wf d : d ∈ deltas w -> crdt_wf (d_state d);
  si_pub d : d ∈ published w -> d ∈ deltas w;
  si_bound n x m y k : nodes w !! n = Some x -> nodes w !! m = Some y -> ver (sy y) (local (sy x)) k <= own x k;
  si_bound_delta n x d : nodes w !! n = Some x -> d ∈ deltas w -> d_origin d = local (sy x) -> d_version d <= own x (d_key d);
  si_sound n x d : nodes w !! n = Some x -> d ∈ published w -> d_version d <= ver (sy x) (d_origin d) (d_key d) -> under (d_state d) (st x (d_key d));
  si_sound_delta d e : d ∈ published w -> e ∈ deltas w -> d_origin d = d_origin e -> d_key d = d_key e -> d_version d <= d_version e -> under (d_state d) (d_state e);
  si_origin e : e ∈ deltas w -> exists n x, nodes w !! n = Some x /\ under (d_state e) (st x (d_key e));
}.

Lemma same_node w n x m y : sb_inv w -> nodes w !! n = Some x -> nodes w !! m = Some y -> local (sy x) = local (sy y) -> n = m.
Proof using Hids. intros Hw Hx Hy E. pose proof (no_name _ _ (si_nodes _ Hw n x Hx)) as H1. pose proof (no_name _ _ (si_nodes _ Hw m y Hy)) as H2. rewrite E in H1. by eapply NoDup_lookup. Qed.

(** A step of one node that publishes nothing: its states go up, its own
    versions stay, and a version goes up only to that of a delta which its
    state is now above. *)
Record node_moves (w : sb_world) (x x' : sb_node) : Prop := {
  nm_sync : sb_ok (sy x');
  nm_name : local (sy x') = local (sy x);
  nm_state k : crdt_wf (st x' k);
  nm_up k : under (st x k) (st x' k);
  nm_own k : ver (sy x') (local (sy x)) k = own x k;
  nm_ver o k : ver (sy x') o k <= ver (sy x) o k \/ exists d, d ∈ deltas w /\ d_origin d = o /\ d_key d = k /\ ver (sy x') o k = d_version d /\ under (d_state d) (st x' k);
}.

Lemma set_node_lookup w n x x' m y : nodes w !! n = Some x -> nodes (set_node w n x') !! m = Some y -> m = n /\ y = x' \/ m <> n /\ nodes w !! m = Some y.
Proof. intros Hx Hy. cbn in Hy. apply list_lookup_insert_Some in Hy as [(-> & -> & _)|[Hne Hy]]; [by left|right; split; [congruence|done]]. Qed.

Lemma node_moves_ok w n x x' : sb_inv w -> nodes w !! n = Some x -> node_moves w x x' -> sb_inv (set_node w n x').
Proof using CrdtOk0 Hids.
  intros Hw Hx [M1 M2 M3 M4 M5 M6]. pose proof (si_nodes _ Hw n x Hx) as [N1 N2 N3]. assert (Hown : forall k, own x' k = own x k) by (intros k; by rewrite M2).
  assert (Hb : forall m y k, nodes w !! m = Some y -> ver (sy x') (local (sy y)) k <= own y k).
  { intros m y k Hy. destruct (M6 (local (sy y)) k) as [Hle|(d & Hd & Eo & Ek & Ev & _)]; [pose proof (si_bound _ Hw m y n x k Hy Hx); lia|]. rewrite Ev. subst k. by apply (si_bound_delta _ Hw m). }
  split.
  - intros m y Hy. destruct (set_node_lookup w n x x' m y Hx Hy) as [[-> ->]|[_ Hy']]; [by split; [|rewrite M2|]|by apply (si_nodes _ Hw)].
  - intros d Hd. by apply (si_wf _ Hw).
  - intros d Hd. by apply (si_pub _ Hw).
  - intros m y m' y' k Hy Hy'. destruct (set_node_lookup w n x x' m y Hx Hy) as [[-> ->]|[Hm Hy1]]; destruct (set_node_lookup w n x x' m' y' Hx Hy') as [[-> ->]|[Hm' Hy1']]; [done| | |].
    + rewrite Hown, M2. by apply (si_bound _ Hw n x m' y').
    + by apply (Hb m).
    + by apply (si_bound _ Hw m y m' y').
  - intros m y d Hy Hd Eo. destruct (set_node_lookup w n x x' m y Hx Hy) as [[-> ->]|[_ Hy']]; [rewrite Hown; apply (si_bound_delta _ Hw n); [done|done|by rewrite Eo]|by apply (si_bound_delta _ Hw m)].
  - intros m y d Hy Hd Hv. destruct (set_node_lookup w n x x' m y Hx Hy) as [[-> ->]|[_ Hy']]; [|by apply (si_sound _ Hw m)]. destruct (M6 (d_origin d) (d_key d)) as [Hle|(e & He & Eo & Ek & Ev & Hu)].
    + eapply under_trans; [apply (si_sound _ Hw n x d Hx Hd); lia|apply M4].
    + eapply under_trans; [apply (si_sound_delta _ Hw d e Hd He); [done|done|lia]|exact Hu].
  - intros d e Hd He. by apply (si_sound_delta _ Hw).
  - intros e He. destruct (si_origin _ Hw e He) as (m & y & Hy & Hu). destruct (decide (m = n)) as [->|Hne].
    + exists n, x'. cbn. rewrite list_lookup_insert_eq by (by eapply lookup_lt_Some). split; [done|]. rewrite Hx in Hy. injection Hy as <-. eapply under_trans; [exact Hu|apply M4].
    + exists m, y. cbn. by rewrite list_lookup_insert_ne by done.
Qed.

Lemma serve_ok w n x d : sb_inv w -> nodes w !! n = Some x -> d = mkDelta (d_origin d) (d_key d) (ver (sy x) (d_origin d) (d_key d)) (st x (d_key d)) -> sb_inv (mkWorld (nodes w) (d :: deltas w) (published w)).
Proof using CrdtOk0.
  intros Hw Hx Ed. pose proof (si_nodes _ Hw n x Hx) as [N1 N2 N3]. assert (Ev : d_version d = ver (sy x) (d_origin d) (d_key d)) by (by rewrite Ed at 1). assert (Es : d_state d = st x (d_key d)) by (by rewrite Ed at 1).
  destruct Hw as [W1 W2 W2' W3 W4 W5 W6 W7]. split; cbn [nodes deltas published]; try done.
  - intros e [->|He]%elem_of_cons; [by rewrite Es|by apply W2].
  - intros e He. apply elem_of_cons. right. by apply W2'.
  - intros m y e Hy [->|He]%elem_of_cons Eo; [|by apply (W4 m)]. rewrite Ev, Eo. by apply (W3 m y n x).
  - intros p e Hp [->|He]%elem_of_cons Eo Ek Hle; [|by apply W6]. rewrite Es, <- Ek. apply (W5 n); [done|done|]. by rewrite Eo, Ek, <- Ev.
  - intros e [->|He]%elem_of_cons; [|by apply W7]. exists n, x. split; [done|]. rewrite Es. by apply under_refl.
Qed.

Lemma publish_ok w n x Y d : sb_inv w -> nodes w !! n = Some x -> publish_local_change cookie (sy x) (d_key d) (st x (d_key d)) = (inr d, Y) ->
  sb_inv (mkWorld (<[n := mkNode Y (st x)]> (nodes w)) (d :: deltas w) (d :: published w)).
Proof using CrdtOk0 Hids.
  intros Hw Hx E. pose proof (si_nodes _ Hw n x Hx) as [N1 N2 N3]. pose proof (publish_step (sy x) (d_key d) (st x (d_key d)) N1) as Hp. rewrite E in Hp. destruct Hp as (P1 & P2 & Ed & Ev).
  set (x' := mkNode Y (st x)) in *. assert (Eo : d_origin d = local (sy x)) by (by rewrite Ed). assert (Es : d_state d = st x (d_key d)) by (by rewrite Ed at 1). assert (En : d_version d = own x (d_key d) + 1) by (by rewrite Ed at 1).
  assert (Hup : forall o k, ver (sy x) o k <= ver (sy x') o k) by (intros o k; cbn [x' sy]; rewrite Ev; case_decide as H; [destruct H as [-> ->]; lia|lia]).
  assert (Hown : forall k, own x k <= own x' k) by (intros k; unfold x' at 2; cbn [sy]; rewrite P2; apply Hup).
  assert (Hlk : forall m y, <[n := x']> (nodes w) !! m = Some y -> m = n /\ y = x' \/ m <> n /\ nodes w !! m = Some y) by (intros m y; exact (set_node_lookup w n x x' m y Hx)).
  assert (Hnew : own x' (d_key d) = d_version d) by (cbn [x' sy]; rewrite P2, Ev, decide_True by done; lia).
  assert (Hpub : forall e, e ∈ published w -> d_origin e = local (sy x) -> d_version e <= ver (sy x) (d_origin e) (d_key e)) by (intros e He E1; rewrite E1; apply (si_bound_delta _ Hw n x e Hx); [by apply (si_pub _ Hw)|done]).
  split; cbn [nodes deltas published].
  - intros m y Hy. destruct (Hlk m y Hy) as [[-> ->]|[_ Hy']]; [split; cbn [x' sy st]; [done|by rewrite P2|done]|by apply (si_nodes _ Hw)].
  - intros e [->|He]%elem_of_cons; [by rewrite Es|by apply (si_wf _ Hw)].
  - intros e [->|He]%elem_of_cons; [constructor|]. apply elem_of_cons. right. by apply (si_pub _ Hw).
  - intros m y m' y' k Hy Hy'. destruct (Hlk m y Hy) as [[-> ->]|[Hm Hy1]]; destruct (Hlk m' y' Hy') as [[-> ->]|[Hm' Hy1']]; [done| | |by apply (si_bound _ Hw m y m' y')].
    + etransitivity; [|apply Hown]. cbn [x' sy]. rewrite P2. by apply (si_bound _ Hw n x m' y').
    + cbn [x' sy]. rewrite Ev, decide_False; [by apply (si_bound _ Hw m y n x)|]. intros [El _]. apply Hm. by apply (same_node w m y n x).
  - intros m y e Hy [->|He]%elem_of_cons Ee; destruct (Hlk m y Hy) as [[-> ->]|[Hm Hy']].
    + by rewrite Hnew.
    + exfalso. apply Hm. apply (same_node w m y n x Hw Hy' Hx). by rewrite <- Ee.
    + etransitivity; [|apply Hown]. apply (si_bound_delta _ Hw n); [done|done|]. rewrite Ee. exact P2.
    + by apply (si_bound_delta _ Hw m).
  - intros m y e Hy [->|He]%elem_of_cons Hle; destruct (Hlk m y Hy) as [[-> ->]|[Hm Hy']].
    + rewrite Es. apply under_refl, N3.
    + exfalso. rewrite Eo, En in Hle. pose proof (si_bound _ Hw n x m y (d_key d) Hx Hy'). lia.
    + destruct (decide (d_origin e = local (sy x) /\ d_key e = d_key d)) as [[E1 E2]|Hn]; [|apply (si_sound _ Hw n x e Hx He); cbn [x' sy] in Hle; by rewrite Ev, decide_False in Hle by done].
      assert (Hfresh : d_version e <= ver (sy x) (d_origin e) (d_key e)) by (apply Hpub; done). by apply (si_sound _ Hw n x e Hx He).
    + by apply (si_sound _ Hw m).
  - intros p e [->|Hp]%elem_of_cons [->|He]%elem_of_cons E1 E2 Hle.
    + rewrite Es. by apply under_refl.
    + exfalso. pose proof (si_bound_delta _ Hw n x e Hx He ltac:(congruence)) as Hb. rewrite E2 in En. lia.
    + rewrite Es, <- E2. apply (si_sound _ Hw n x p Hx Hp). apply Hpub; congruence.
    + by apply (si_sound_delta _ Hw).
  - intros e [->|He]%elem_of_cons.
    + exists n, x'. rewrite list_lookup_insert_eq by (by eapply lookup_lt_Some). split; [done|]. rewrite Es. apply under_refl, N3.
    + destruct (si_origin _ Hw e He) as (m & y & Hy & Hu). destruct (decide (m = n)) as [->|Hne]; [exists n, x'; rewrite list_lookup_insert_eq by (by eapply lookup_lt_Some); rewrite Hx in Hy; by injection Hy as <-|exists m, y; by rewrite list_lookup_insert_ne by done].
Qed.

(** ** Executions *)

(** A node does not compact its own versions: see [compaction_reuses_versions]. *)
Definition sb_call_ok (c : sb_call) : Prop := match c with SCompact n p _ => (uuid <$> ids) !! n <> Some (uuid p) | _ => True end.

Lemma quiet_moves w x Y : sb_ok Y -> local Y = local (sy x) -> (forall k, crdt_wf (st x k)) -> (forall k, ver Y (local (sy x)) k = own x k) ->
  (forall o k, ver Y o k <= ver (sy x) o k) -> node_moves w x (mkNode Y (st x)).
Proof using CrdtOk0. intros HY Hl Hs Ho Hv. split; cbn [sy st]; try done; [intros k; by apply under_refl|]. intros o k. by left. Qed.

Lemma write_moves w n x k u : node_ok n x -> node_moves w x (set_st x (sy x) k (crdt_update (st x k) u).1).
Proof using CrdtOk0.
  intros [N1 N2 N3]. split; cbn [sy st set_st]; try done.
  - intros k'. case_decide; [by apply update_wf|done].
  - intros k'. case_decide as E; [subst k'; by apply update_up|by apply under_refl].
  - intros o k'. by left.
Qed.

Lemma apply_moves w n x d : sb_inv w -> nodes w !! n = Some x -> d ∈ deltas w ->
  let '(_, Y, s) := apply_delta cookie (sy x) d (st x (d_key d)) in node_moves w x (set_st x Y (d_key d) s).
Proof using CrdtOk0.
  intros Hw Hx Hd. pose proof (si_nodes _ Hw n x Hx) as [N1 N2 N3]. pose proof (apply_step (sy x) d (st x (d_key d)) N1 (N3 _) (si_wf _ Hw d Hd)) as Ha. destruct (apply_delta cookie (sy x) d (st x (d_key d))) as [[r Y] s]. destruct Ha as (Hs & HY & Hl & [[-> ->]|(Hlt & Es & Ev)]).
  - split; cbn [sy st set_st]; try done; [intros k; by case_decide; subst|intros k; case_decide; subst; by apply under_refl|intros o k; by left].
  - assert (Hne : d_origin d <> local (sy x)) by (intros E; pose proof (si_bound_delta _ Hw n x d Hx Hd E); rewrite E in Hlt; lia). split; cbn [sy st set_st]; try done.
    + intros k. by case_decide.
    + intros k. case_decide as E; [subst k|by apply under_refl]. rewrite Es. unfold below. rewrite (assoc crdt_join). f_equal. by apply join_idem.
    + intros k. rewrite Ev, decide_False; [done|]. intros [E _]. congruence.
    + intros o k. rewrite Ev. case_decide as E; [|by left]. destruct E as [-> ->]. right. exists d. split_and!; try done. rewrite decide_True by done. rewrite Es. unfold below. rewrite (comm crdt_join (crdt_abs (st x _))), (assoc crdt_join). f_equal. apply join_idem, (si_wf _ Hw d Hd).
Qed.

Lemma drop_below_le floor v : 0 <= v -> drop_below floor v <= v.
Proof. intros. unfold drop_below. destruct (_ && _); lia. Qed.

Lemma sb_run_ok w c : sb_inv w -> sb_call_ok c -> sb_inv (sb_run w c).
Proof using CrdtOk0 Hids.
  intros Hw Hc. unfold sb_run. destruct (nodes w !! call_node c) as [x|] eqn:Hx; [|done]. pose proof (si_nodes _ Hw _ x Hx) as Hn. pose proof Hn as [N1 N2 N3]. destruct c as [n p|n k ck|n k u|n k|n r|n i|n p floor]; cbn [sb_do call_node] in *.
  - destruct (add_peer_keeps (sy x) p N1) as (K1 & K2 & K3). apply (node_moves_ok w n x); [done|done|]. apply quiet_moves; try done. intros o k. by rewrite K3.
  - destruct (register_keeps ck (sy x) k N1) as (K1 & K2 & K3). apply (node_moves_ok w n x); [done|done|]. apply quiet_moves; try done. intros o k'. by rewrite K3.
  - apply (node_moves_ok w n x); [done|done|]. by apply (write_moves w n).
  - pose proof (publish_step (sy x) k (st x k) N1) as Hp. destruct (publish_local_change cookie (sy x) k (st x k)) as [[e|d] Y] eqn:E.
    + subst Y. apply (node_moves_ok w n x); [done|done|]. by apply quiet_moves.
    + destruct Hp as (_ & _ & Ed & _). cbn [set_node nodes deltas published]. apply (publish_ok w n x Y d); [done|done|]. rewrite Ed at 1 2. exact E.
  - destruct (delta_for_request _ _ _ _) as [e|d] eqn:E; [done|]. apply serve_step in E. apply (serve_ok w n x); [done|done|]. by rewrite E.
  - destruct (deltas w !! i) as [d|] eqn:Ei; [|done]. apply list_elem_of_lookup_2 in Ei. pose proof (apply_moves w n x d Hw Hx Ei) as Hm. destruct (apply_delta _ _ _ _) as [[r Y] s]. by apply (node_moves_ok w n x).
  - destruct (compact_keeps (sy x) p floor N1) as (K1 & K2 & K3). apply (node_moves_ok w n x); [done|done|]. apply quiet_moves; try done.
    + intros k. rewrite K3, decide_False; [done|]. intros E. apply Hc. by rewrite N2, E.
    + intros o k. rewrite K3. case_decide; [|done]. by apply drop_below_le, ver_nonneg.
Qed.

(** A cluster at its start: a minted synchroniser for each identity, new
    states, and nothing on the wire. *)
Definition sb_started (w : sb_world) : Prop :=
  (forall n x, nodes w !! n = Some x -> exists id ps c, ids !! n = Some id /\ mint_scuttlebutt MaxPeers MaxKeys id ps c = Ok (sy x) /\ st x = fun _ => crdt_new) /\ deltas w = [] /\ published w = [].

Lemma started_ok w : sb_started w -> sb_inv w.
Proof using HP HK CrdtOk0.
  intros (Hn & Hd & Hp). split; rewrite ?Hd, ?Hp; try (intros; by match goal with H : _ ∈ [] |- _ => apply not_elem_of_nil in H end).
  - intros n x Hx. destruct (Hn n x Hx) as (id & ps & c & E & Em & Es). apply mint_sync_ok in Em as (K1 & K2 & _). split; [done|by rewrite list_lookup_fmap, E, K2|]. intros k. rewrite Es. apply crdt_new_wf.
  - intros n x m y k Hx Hy. destruct (Hn n x Hx) as (? & ? & ? & _ & Em & _). destruct (Hn m y Hy) as (? & ? & ? & _ & Em' & _). apply mint_sync_ok in Em as (_ & _ & ->). by apply mint_sync_ok in Em' as (_ & _ & ->).
Qed.

Lemma sb_runs_ok w cs : sb_inv w -> Forall sb_call_ok cs -> sb_inv (fold_left sb_run cs w).
Proof using CrdtOk0 Hids. intros Hw Hcs. revert w Hw. induction Hcs as [|c cs Hc Hcs IH]; intros w Hw; [done|]. cbn. by apply IH, sb_run_ok. Qed.

(** Versions tell the truth.  After any calls in a cluster where deltas are lost, repeated, reordered or passed on by other nodes, and versions of other peers are compacted, a node whose version of an origin's key has reached a version that the origin published holds a state above the one that was published then. *)
Theorem scuttlebutt_versions_are_sound w0 cs n x d : sb_started w0 -> Forall sb_call_ok cs -> let w := fold_left sb_run cs w0 in
  nodes w !! n = Some x -> d ∈ published w -> d_version d <= ver (sy x) (d_origin d) (d_key d) -> crdt_join (crdt_abs (d_state d)) (crdt_abs (st x (d_key d))) = crdt_abs (st x (d_key d)).
Proof using HP HK CrdtOk0 Hids. intros Hs Hc w. exact (si_sound _ (sb_runs_ok w0 cs (started_ok w0 Hs) Hc) n x d). Qed.

(** ** Convergence *)

Definition bounded (w : sb_world) (k : ScuttlebuttKey) (b : A) : Prop :=
  (forall n x, nodes w !! n = Some x -> below (crdt_abs (st x k)) b) /\ (forall d, d ∈ deltas w -> d_key d = k -> below (crdt_abs (d_state d)) b).

Definition writes_key (k : ScuttlebuttKey) (c : sb_call) : bool := match c with SWrite _ k' _ => bool_decide (k' = k) | _ => false end.

Lemma bounded_set w k b n x x' : nodes w !! n = Some x -> bounded w k b -> below (crdt_abs (st x' k)) b -> bounded (set_node w n x') k b.
Proof. intros Hx [B1 B2] Hb. split; [|done]. intros m y Hy. destruct (set_node_lookup w n x x' m y Hx Hy) as [[-> ->]|[_ Hy']]; [done|by apply (B1 m)]. Qed.

Lemma bounded_add w k b d ns ps : bounded (mkWorld ns (deltas w) ps) k b -> (d_key d = k -> below (crdt_abs (d_state d)) b) -> bounded (mkWorld ns (d :: deltas w) ps) k b.
Proof. intros [B1 B2] Hb. split; [done|]. cbn. intros e [->|He]%elem_of_cons; [done|by apply B2]. Qed.

Lemma bounded_run w c k b : sb_inv w -> writes_key k c = false -> bounded w k b -> bounded (sb_run w c) k b.
Proof using CrdtOk0.
  intros Hw Hk HB. unfold sb_run. destruct (nodes w !! call_node c) as [x|] eqn:Hx; [|done]. pose proof (si_nodes _ Hw _ x Hx) as [N1 N2 N3]. pose proof HB as [B1 B2]. pose proof (B1 _ x Hx) as Hb. destruct c as [n p|n k' ck|n k' u|n k'|n r|n i|n p floor]; cbn [sb_do call_node] in *; try by apply (bounded_set w k b n x).
  - apply (bounded_set w k b n x); [done|done|]. cbn in *. apply bool_decide_eq_false in Hk. by rewrite decide_False.
  - pose proof (publish_step (sy x) k' (st x k') N1) as Hp. destruct (publish_local_change cookie (sy x) k' (st x k')) as [[e|d] Y]; [by apply (bounded_set w k b n x)|]. destruct Hp as (_ & _ & -> & _).
    apply (bounded_add (set_node w n (mkNode Y (st x)))); [by apply (bounded_set w k b n x)|]. by intros <-.
  - destruct (delta_for_request _ _ _ _) as [e|d] eqn:E; [done|]. apply serve_step in E as ->. apply bounded_add; [done|]. by intros <-.
  - destruct (deltas w !! i) as [d|] eqn:Ei; [|done]. apply list_elem_of_lookup_2 in Ei. pose proof (apply_step (sy x) d (st x (d_key d)) N1 (N3 _) (si_wf _ Hw d Ei)) as Ha. destruct (apply_delta cookie (sy x) d (st x (d_key d))) as [[r Y] s].
    apply (bounded_set w k b n x); [done|done|]. cbn. case_decide as E; [subst k|done]. destruct Ha as (_ & _ & _ & [[_ ->]|(_ & -> & _)]); [done|]. pose proof (B2 d Ei eq_refl) as Hd. unfold below in *. by rewrite <- (assoc crdt_join), Hd.
Qed.

Lemma bounded_runs w cs k b : sb_inv w -> Forall sb_call_ok cs -> Forall (fun c => writes_key k c = false) cs -> bounded w k b -> bounded (fold_left sb_run cs w) k b.
Proof using CrdtOk0 Hids. intros Hw Hcs. revert w Hw. induction Hcs as [|c cs Hc Hcs IH]; intros w Hw Hks HB; [done|]. inversion_clear Hks. cbn. apply IH; [by apply sb_run_ok|done|by apply bounded_run]. Qed.

(** The node has published its state of the key. *)
Definition has_published (w : sb_world) (k : ScuttlebuttKey) (x : sb_node) : Prop :=
  exists d, d ∈ published w /\ d_origin d = local (sy x) /\ d_key d = k /\ d_version d = own x k /\ crdt_abs (d_state d) = crdt_abs (st x k).

Lemma published_run w c d : d ∈ published w -> d ∈ published (sb_run w c).
Proof.
  intros Hd. unfold sb_run. destruct (nodes w !! call_node c) as [x|]; [|done]. destruct c; cbn [sb_do]; try done.
  - destruct (publish_local_change _ _ _ _) as [[e|d'] Y]; [done|]. cbn. by constructor.
  - by destruct (delta_for_request _ _ _ _).
  - destruct (deltas w !! i); [|done]. by destruct (apply_delta _ _ _ _) as [[? ?] ?].
Qed.

Lemma published_runs w cs d : d ∈ published w -> d ∈ published (fold_left sb_run cs w).
Proof. revert w. induction cs as [|c cs IH]; intros w Hd; [done|]. cbn. by apply IH, published_run. Qed.

(** C33: the cluster converges.  When every node has published its state of a key, and from then on nobody writes the key and every node's versions reach what each node had published, whatever deltas carried them there, the states of the key have the same value everywhere. *)
Theorem scuttlebutt_converges w0 cs1 cs2 k n x m y : sb_started w0 -> Forall sb_call_ok cs1 -> Forall sb_call_ok cs2 -> Forall (fun c => writes_key k c = false) cs2 ->
  let w1 := fold_left sb_run cs1 w0 in let w2 := fold_left sb_run cs2 w1 in
  (forall i z, nodes w1 !! i = Some z -> has_published w1 k z) ->
  (forall i z j z', nodes w1 !! i = Some z -> nodes w2 !! j = Some z' -> own z k <= ver (sy z') (local (sy z)) k) ->
  nodes w2 !! n = Some x -> nodes w2 !! m = Some y -> crdt_abs (st x k) = crdt_abs (st y k).
Proof using HP HK CrdtOk0 Hids.
  intros Hs Hc1 Hc2 Hq w1 w2 Hpub Hver Hx Hy. pose proof (sb_runs_ok w0 cs1 (started_ok w0 Hs) Hc1) as H1. fold w1 in H1. pose proof (sb_runs_ok w1 cs2 H1 Hc2) as H2. fold w2 in H2.
  assert (Hlow : forall j z', nodes w2 !! j = Some z' -> bounded w1 k (crdt_abs (st z' k))).
  { intros j z' Hz'. assert (Hall : forall i z, nodes w1 !! i = Some z -> under (st z k) (st z' k)).
    { intros i z Hz. destruct (Hpub i z Hz) as (d & Hd & Eo & Ek & Ev & <-). subst k. apply (si_sound _ H2 j); [done|by apply published_runs|]. rewrite Eo, Ev. by apply (Hver i z j). }
    split; [done|]. intros d Hd Ek. destruct (si_origin _ H1 d Hd) as (i & z & Hz & Hu). rewrite Ek in Hu. eapply under_trans; [exact Hu|]. by apply (Hall i). }
  assert (Hup : forall i z j z', nodes w2 !! i = Some z -> nodes w2 !! j = Some z' -> under (st z k) (st z' k)).
  { intros i z j z' Hz Hz'. destruct (bounded_runs w1 cs2 k _ H1 Hc2 Hq (Hlow j z' Hz')) as [B1 _]. by apply (B1 i). }
  apply below_antisymm; [by apply (Hup n x m y)|by apply (Hup m y n x)].
Qed.
End Cluster.
End Proofs.

(** ** Witnesses *)

Abbreviation reg_call := (sb_call (U := Z * HlcTimestamp)).
Abbreviation reg_world := (sb_world (State := LwwRegisterState)).

Definition wit_key : ScuttlebuttKey := mkKey 7 3.
Definition wit_sync (a b : Z) : ScuttlebuttSync := match mint_scuttlebutt 2 2 (wit_cog a) [wit_cog b] (mkSbConfig 1 1) with Ok Y => Y | Fatal _ => empty_sync 2 2 (mkSbConfig 1 1) end.
Definition wit_world : reg_world := mkWorld [mkNode (wit_sync 1 2) (fun _ => new_lww); mkNode (wit_sync 2 1) (fun _ => new_lww)] [] [].
Definition wit_do : reg_world -> reg_call -> reg_world := sb_run 2 2 (A := option (HlcTimestamp * Z)) (Q := unit) (R := option Z) 1.

(** Both nodes write and publish; then the two deltas cross, the second one
    after a copy that the first node served of its own version. *)
Definition wit_publishes : list reg_call :=
  [SRegister 0 wit_key 1; SRegister 1 wit_key 1; SWrite 0 wit_key (5, mkTs 1 0); SWrite 1 wit_key (7, mkTs 2 0); SPublish 0 wit_key; SPublish 1 wit_key].
Definition wit_crossing : list reg_call := [SServe 0 (mkEntry (mkUuid 0 1) wit_key 1); SApply 1 0; SApply 0 1; SApply 1 2].

Lemma wit_ids : NoDup (uuid <$> [wit_cog 1; wit_cog 2]).
Proof. repeat constructor; rewrite ?list_elem_of_singleton; [discriminate|apply not_elem_of_nil]. Qed.

Lemma wit_sb_started : sb_started 2 2 (A := option (HlcTimestamp * Z)) (U := Z * HlcTimestamp) (Q := unit) (R := option Z) [wit_cog 1; wit_cog 2] wit_world.
Proof.
  split; [|done]. intros [|[|n]] x Hx; [| |done]; injection Hx as <-; [exists (wit_cog 1), [wit_cog 2], (mkSbConfig 1 1)|exists (wit_cog 2), [wit_cog 1], (mkSbConfig 1 1)]; split_and!; try reflexivity; vm_compute; reflexivity.
Qed.

Lemma wit_calls_ok cs : Forall (fun c : reg_call => match c with SCompact _ _ _ => False | _ => True end) cs -> Forall (sb_call_ok [wit_cog 1; wit_cog 2]) cs.
Proof. intros H. eapply Forall_impl; [exact H|]. by intros []. Qed.

Lemma scuttlebutt_converges_witness : let w := fold_left wit_do wit_crossing (fold_left wit_do wit_publishes wit_world) in
  exists x y, nodes w !! 0%nat = Some x /\ nodes w !! 1%nat = Some y /\ lww_abs (st x wit_key) = lww_abs (st y wit_key) /\ lww_get (st x wit_key) = Some 7.
Proof.
  intros w. assert (Hx : exists x, nodes w !! 0%nat = Some x) by (vm_compute; eexists; reflexivity). assert (Hy : exists y, nodes w !! 1%nat = Some y) by (vm_compute; eexists; reflexivity). destruct Hx as [x Hx], Hy as [y Hy]. exists x, y. split; [exact Hx|]. split; [exact Hy|]. split.
  - refine (scuttlebutt_converges 2 2 wit_two wit_two 1 [wit_cog 1; wit_cog 2] wit_ids wit_world wit_publishes wit_crossing wit_key 0 x 1 y wit_sb_started _ _ _ _ _ Hx Hy).
    + apply wit_calls_ok. repeat constructor.
    + apply wit_calls_ok. repeat constructor.
    + repeat constructor.
    + intros [|[|i]] z Hz; [| |vm_compute in Hz; discriminate]; (eexists; split; [|split_and!]); [constructor 2; constructor 1| | | | |constructor 1| | | |]; vm_compute in Hz; injection Hz as <-; vm_compute; reflexivity.
    + intros [|[|i]] z [|[|j]] z' Hz Hz'; vm_compute in Hz, Hz'; (injection Hz as <- || discriminate Hz); (injection Hz' as <- || discriminate Hz'); vm_compute; discriminate.
  - vm_compute in Hx. injection Hx as <-. vm_compute. reflexivity.
Defined.

Lemma scuttlebutt_versions_are_sound_witness : let w := fold_left wit_do (wit_publishes ++ wit_crossing) wit_world in
  exists x d, nodes w !! 1%nat = Some x /\ d ∈ published w /\ d_origin d = mkUuid 0 1 /\ lww_get (d_state d) = Some 5 /\
    lww_join (lww_abs (d_state d)) (lww_abs (st x (d_key d))) = lww_abs (st x (d_key d)).
Proof.
  intros w. assert (Hx : exists x, nodes w !! 1%nat = Some x) by (vm_compute; eexists; reflexivity). assert (Hd : exists d, published w !! 1%nat = Some d) by (vm_compute; eexists; reflexivity). destruct Hx as [x Hx], Hd as [d Hd]. exists x, d. pose proof (list_elem_of_lookup_2 _ _ _ Hd) as Hin.
  split; [exact Hx|]. split; [exact Hin|]. split; [vm_compute in Hd; injection Hd as <-; reflexivity|]. split; [vm_compute in Hd; injection Hd as <-; reflexivity|].
  refine (scuttlebutt_versions_are_sound 2 2 wit_two wit_two 1 [wit_cog 1; wit_cog 2] wit_ids wit_world (wit_publishes ++ wit_crossing) 1 x d wit_sb_started _ Hx Hin _).
  - apply wit_calls_ok. repeat constructor.
  - vm_compute in Hx, Hd. injection Hx as <-. injection Hd as <-. vm_compute. discriminate.
Defined.

(** Node 1 has published the key and node 2 has not heard of it. *)
Definition wit_known (a b : Z) : ScuttlebuttSync := (register_state 2 1 (wit_sync a b) wit_key).2.

Lemma wit_known_ok a b : (a = 1 /\ b = 2 \/ a = 2 /\ b = 1) -> sb_ok 2 2 (wit_known a b).
Proof.
  intros Hab. assert (E : mint_scuttlebutt 2 2 (wit_cog a) [wit_cog b] (mkSbConfig 1 1) = Ok (wit_sync a b)) by (destruct Hab as [[-> ->]|[-> ->]]; vm_compute; reflexivity). apply (mint_sync_ok 2 2 wit_two wit_two) in E as (E & _). exact (proj1 (register_keeps 2 2 1 _ wit_key E)).
Qed.

Definition wit_ahead : ScuttlebuttSync := (publish_local_change 1 (wit_known 1 2) wit_key new_lww).2.

Lemma wit_ahead_ok : sb_ok 2 2 wit_ahead.
Proof.
  pose proof (publish_step 2 2 1 (wit_known 1 2) wit_key new_lww (wit_known_ok 1 2 (or_introl (conj eq_refl eq_refl)))) as H. unfold wit_ahead. destruct (publish_local_change 1 (wit_known 1 2) wit_key new_lww) as [[e|d] Y] eqn:E; [vm_compute in E; discriminate|exact (proj1 H)].
Qed.

Lemma scuttlebutt_diff_exact_witness : exists d, compare_digest 2 2 (wit_known 2 1) (digest 2 2 wit_ahead) = inr d /\ live (requests d) = [mkEntry (mkUuid 0 1) wit_key 1] /\ distinct (live (offers d)).
Proof.
  destruct (scuttlebutt_diff_exact 2 2 wit_two wit_two (wit_known 2 1) wit_ahead (wit_known_ok 2 1 (or_intror (conj eq_refl eq_refl))) wit_ahead_ok) as (d & E & _ & Ho & _).
  - intros o k H. unfold ver in H. destruct (find_peer_ wit_ahead o) as [p|] eqn:Ep; [|done]. destruct (find_key_ wit_ahead k) as [j|] eqn:Ek; [|done]. apply (find_peer_some 2 2) in Ep as [Hp <-]; [|exact wit_ahead_ok]. apply (find_key_some 2 2) in Ek as [Hj <-]; [|exact wit_ahead_ok].
    assert (E1 : sb_peer_count_ wit_ahead = 2) by (vm_compute; reflexivity). assert (E2 : key_count_ wit_ahead = 1) by (vm_compute; reflexivity). rewrite E1 in Hp. rewrite E2 in Hj. clear H E1 E2. assert (Ep : p = 0 \/ p = 1) by lia. assert (Ej : j = 0) by lia. subst j. destruct Ep as [-> | ->]; split; vm_compute; eexists; reflexivity.
  - exists d. split; [exact E|]. split; [|exact Ho]. vm_compute in E. injection E as <-. reflexivity.
Defined.

(** compact_peer_versions accepts the local peer.  Node 1 then numbers its
    next publication 1 again, and node 2, which holds version 1, keeps its old
    state although its version says that it has the new one. *)
Definition wit_compacts : list reg_call :=
  [SRegister 0 wit_key 1; SRegister 1 wit_key 1; SWrite 0 wit_key (5, mkTs 1 0); SPublish 0 wit_key; SApply 1 0;
   SCompact 0 (wit_cog 1) 9; SWrite 0 wit_key (6, mkTs 2 0); SPublish 0 wit_key; SApply 1 0].

Example compaction_reuses_versions : let w := fold_left wit_do wit_compacts wit_world in
  match nodes w, published w with
  | [_; y], d :: _ => d_version d = ver (sy y) (d_origin d) (d_key d) /\ lww_get (d_state d) = Some 6 /\ lww_get (st y (d_key d)) = Some 5
  | _, _ => False
  end.
Proof. vm_compute. done. Qed.
